(* ===== verification/_CoqProject ===== *)
-Q . S2P
Prelude.v
Bytes.v
Network.v
Committee.v
Narwhal.v
Dfs.v
Subdag.v
Lru.v
StorageService.v
Ledger.v
Storage.v
StorageProps.v
Dag.v
Bft.v
BftProps.v
Locators.v
Proposal.v
Ready.v
Pending.v
Cache.v
Sockets.v
SyncState.v
BlockSync.v
BlockSyncProps.v
SyncTasks.v
SyncProgress.v
Worker.v
Primary.v
PrimaryProps.v
Validator.v
Signing.v
Proposing.v
BlockCheck.v
BlockCheckProps.v
BftSync.v
BftSyncProps.v
SyncRuns.v
Mempool.v
Consensus.v
ConsensusProps.v
ConsensusRuns.v
Events.v
Messages.v
Peers.v
Gateway.v
GatewayProps.v
GatewayRuns.v
MerkleTree.v
MerkleProps.v
MerkleRefines.v
Targets.v
TargetsProps.v
StoreMap.v
StoreMapProps.v
Atomicity.v
CommitteeStore.v
CommitteeStoreProps.v
Rewards.v
RewardsProps.v
FinalizeStore.v
FinalizeStoreProps.v
Ratify.v
RatifyProps.v
RouterCache.v
Router.v
Ping.v
Nodes.v
RouterProps.v
NodeProps.v
RouterRuns.v
