(* ===== verification/Prelude.v ===== *)
(** * snarkOS: a validator of the Aleo network

    A model, in Rocq, of the part of snarkOS (a node of the Aleo network) that
    decides which transactions go into the next block, keeps up with other nodes
    and talks to them: the Narwhal memory pool, which certifies batches of
    transmissions, the Bullshark-style BFT on top of it, which orders the
    certificates, consensus, which makes blocks of them, the synchronization with
    other nodes, the gateway through which validators are connected, and the
    router that connects all nodes with what each type of node does; and of the
    part of the vendored snarkVM that a block goes through then: the Merkle trees,
    the targets and rewards, the stores with their atomic batches, and the
    ratifications that pay stakers and provers. Every definition is executable and
    follows the Rust function named in the comment before it.

    ** How the program is put together

    A validator collects transmissions (transactions and solutions) in the ready
    queues of its workers, proposes a batch of them in every round, and collects
    endorsing signatures from the committee; a batch with a quorum of signatures
    is a certificate. Certificates refer to a quorum of certificates of the
    previous round and so form a DAG. Storage keeps them, with their
    transmissions, for a window of rounds. In every even round the committee has a
    leader; when enough certificates of the next round refer to the leader's
    certificate, the BFT commits it: it orders all certificates that it reaches
    and that are not committed yet, and gives them with their transmissions to
    consensus, which builds a block. Consensus also keeps the unconfirmed
    transactions and solutions of users in queues and passes them to the workers
    while these have room. A node that is behind learns from the block locators of
    its peers which blocks they have, asks several of them for the next ones and
    advances its ledger with the answers; a validator replays the certificates of
    these blocks in its own DAG, and adds a block to the ledger when later
    certificates vouch for its leader. The gateway connects validators to each
    other, checks in a handshake who they are, and passes the events of connected
    validators on to the other parts. The router does the same for all nodes, with
    a heartbeat that keeps the number of its connections within bounds: clients
    follow the chain and pass on the solutions and transactions they have
    verified, provers learn the puzzle from their peers, and validators serve
    blocks and take solutions and transactions in.

    A block carries ratifications: the genesis block the first committee and
    balances, later blocks the block reward for the stakers and the puzzle reward
    for the provers, whose sizes follow from the height, the time and the proof
    targets. They are applied to the mappings of the program credits.aleo in the
    finalize store, and the next committee is recorded in the committee store;
    both are made of maps whose writes are queued in atomic batches, which a
    failure rewinds. The ledger commits to blocks and states by Merkle trees that
    grow by appending.

    ** Files

    Foundations. [Prelude] (this file): outcomes of Rust computations, a state and
    error monad, machine integers, the [IndexSet], [IndexMap] and [BTreeMap] of
    the Rust code. [Bytes]: readers and writers (snarkVM/utilities/src/bytes.rs).
    [Network]: the class [Network] of the associated types and cryptographic
    operations, which are parameters of the development, the class [NetworkLaws]
    of what is assumed of them, and [TestNetwork], an instance on which everything
    evaluates. [Lru]: the LRU cache and the database map, as interfaces with laws
    and instances.

    Data. [Committee]: snarkVM/ledger/committee. [Narwhal]: transmission IDs,
    transmissions, batch headers and batch certificates, from
    snarkVM/ledger/narwhal. [Dfs], [Subdag]: the traversal that both the BFT and
    the block check use, and snarkVM/ledger/narwhal/subdag.

    The memory pool. [StorageService]: the trait of node/bft/storage-service as
    the class [StorageServiceOps] with the laws [StorageServiceLaws], and its two
    implementations, [Memory] (memory.rs) and [Persistent] (persistent.rs).
    [Ledger]: the operations of node/bft/ledger-service that are called.
    [Storage], [StorageProps]: node/bft/src/helpers/storage.rs, proved against the
    storage service interface. [Proposal]: helpers/proposal.rs,
    signed_proposals.rs and proposal_cache.rs. [Ready]: helpers/ready.rs.
    [Pending]: helpers/pending.rs. [Cache]: helpers/cache.rs.

    Consensus. [Dag]: helpers/dag.rs. [Bft], [BftProps]: node/bft/src/bft.rs.
    [BlockCheck], [BlockCheckProps]: the check of the next block in
    snarkVM/ledger/src/check_next_block.rs, with the check of its subdag in full.
    [Mempool]: node/consensus/src/transactions_queue.rs. [Consensus],
    [ConsensusProps], [ConsensusRuns]: node/consensus/src/lib.rs, the queues of
    unconfirmed transmissions and the task that turns subdags into blocks.

    Validators. [Sockets]: socket addresses, the keys of peers. [Worker]:
    node/bft/src/worker.rs, helpers/partition.rs and the check of fetched
    transmissions in node/bft/ledger-service/src/ledger.rs. [Primary]: every
    handler of node/bft/src/primary.rs, on top of [Worker], [Storage] and
    [Proposal]; the BFT is seen through the class [PrimaryCallback] with its laws,
    and [PrimaryProps] is proved against them. [Validator]: the BFT as the
    instance of that class, so that primary and BFT run on one storage. [Signing]:
    the handlers of proposed batches in the parts between which other tasks may
    run. [Proposing]: the contents of proposals.

    Synchronization. [Locators]: node/sync/locators, and [get_block_locators] of
    node/sync/src/block_sync.rs. [SyncState]: block_sync/sync_state.rs and
    helpers.rs. [BlockSync]: node/sync/src/block_sync.rs, with the invariant of
    its calls one after the other in [BlockSyncProps] and its progress in
    [SyncProgress]. [SyncTasks]: the same calls in their critical sections, which
    other calls may interleave. [BftSync], [BftSyncProps], [SyncRuns]: the
    synchronization of a validator, node/bft/src/sync/mod.rs, on top of
    [BlockSync], [Storage] and the BFT, its theorems, and runs on concrete chains.

    Network. [Events]: node/bft/events, the 16 events between validators with
    their encodings and codec. [Messages]: node/router/messages, the messages of
    clients and provers. [Peers]: node/network (peer pool, peers, resolver) with
    the ban list and statistics of node/tcp/src/helpers. [Gateway],
    [GatewayProps], [GatewayRuns]: node/bft/src/gateway.rs, on top of [Peers],
    [Cache] and [Events]; what the gateway sends, closes and passes on is the list
    [actions] of its state, and the handshakes are in the parts between which
    other tasks may run. [RouterCache]: node/router/src/helpers/cache.rs.
    [Router]: the rest of node/router/src, with the class [Node] of what a type of
    node decides. [Ping]: node/sync/src/ping.rs. [Nodes]: the handlers of clients,
    provers and validators in node/src, as the instances of that class, and the
    verification queues of client/mod.rs. [RouterProps], [NodeProps],
    [RouterRuns]: their theorems, for any type of node and for each, and concrete
    runs.

    The ledger. [MerkleTree], [MerkleProps], [MerkleRefines]:
    snarkVM/console/collections/src/merkle_tree. [Targets], [TargetsProps]:
    snarkVM/ledger/block/src/helpers/target.rs. [StoreMap], [StoreMapProps]: the
    memory maps of snarkVM/ledger/store/src/helpers and the macros of atomic
    scopes; [Atomicity]: the class [AtomicSpec] of what batches promise, the
    scopes proved against it, and the maps as instances. [CommitteeStore],
    [CommitteeStoreProps]: snarkVM/ledger/store/src/program/committee.rs.
    [FinalizeStore], [FinalizeStoreProps]: program/finalize.rs. [Rewards],
    [RewardsProps]: snarkVM/synthesizer/src/vm/helpers/rewards.rs and
    committee.rs. [Ratify], [RatifyProps]: the ratifications of
    snarkVM/synthesizer/src/vm/finalize.rs, on top of both stores and [Rewards].

    ** Conventions

    A fallible function returns [result]: [Ok], [Err], [Panic] for an [unwrap]
    that fails, [Deadlock] for a call that does not return. A method that changes
    state and may fail is [S -> result A * S], since the changes made before a
    failure stay. Integers are [Z]; the operations that may overflow saturate or
    wrap as the Rust operations do, the release profile having no overflow checks.
    Error messages are the constant part of the Rust ones. Logging and metrics are
    left out. A collection whose iteration order the code observes is a list in
    that order, a hash map is a finite map, and what depends on the order of a
    hash map is stated for every order. The clock, randomness, the file system,
    the ledger and the answers of the consensus task are arguments. Locks are
    modelled where the code can wait for itself, and methods between whose parts
    other tasks may run are split there where it matters for what is proved: the
    handlers of proposed batches ([Signing]), the handshakes ([Gateway],
    [Router]), the requests of a worker ([Worker]) and the critical sections of
    block synchronization ([SyncTasks]). Otherwise a method is one step, and an
    execution is a sequence of them.

    ** What is proved

    Safety of consensus. [Committee]: quorum and availability thresholds are [N -
    f] and [f + 1], two quorums share an honest member, leader election is total.
    [StorageProps]: certificates that any two storages accept for the same round
    share an honest signer. [BftProps]: a leader is committed only with the
    availability threshold behind it, a round is left only with a quorum, blocks
    have increasing anchor rounds, the last committed round never decreases, a
    block holds no transmission twice and none that is in the ledger.
    [PrimaryProps]: a validator proposes one batch per round and, when its
    handlers run one after the other, signs one batch per author and round, also
    across restarts; [Signing]: overlapping handlers may sign two. [Worker]: a
    fetched transmission has the ID it was requested under and comes from a peer
    that was asked, and in every interleaving of its tasks the ready queue holds
    contents with the checksums of their IDs. [BlockCheckProps]: the blocks that a
    commit of the BFT builds pass the check of every node that has the blocks
    before them. [BftSyncProps]: a validator that syncs adds blocks to its ledger
    only up to one whose leader has the availability threshold in the certificates
    of later blocks. [ConsensusProps]: a committed subdag becomes the next block
    of the ledger, or leaves it unchanged and its transmissions are not lost.

    Connections. [GatewayProps]: an event has an effect only for the peer that
    sent it, and only when that peer may send events, except that a list of
    validators may change the candidates; blocks come from the peer they were
    asked from, in every interleaving of handshakes, events, bans and
    disconnections; the resolver is the inverse of the pool while handshakes do
    not overlap and nobody is banned. [Peers]: the pool stays within its bound
    when candidates are added, and peers that are connected or trusted stay.
    [RouterProps]: whatever a node does with its messages, requests count as
    unanswered only when they were sent; a handshake connects a peer exactly when
    its response is authentic; the heartbeat closes the oldest removable peer, the
    surplus and all bootstrap clients but one, and no other connection that can be
    written to. [NodeProps]: a client holds only blocks that it asked for, and a
    prover works only on a puzzle that it asked for; the ping task reaches every
    peer that is due; a client never verifies more at a time than its limits.
    [RouterCache]: the timestamps count exactly, and a solution or transaction is
    recognized until as many others as the cache has room for came after it.

    Correctness of the algorithms. [BftProps], [Subdag]: the ordering traversal
    ends and commits exactly the reachable uncommitted certificates, without
    duplicates, and what it produces is accepted by [Subdag::from] unless it spans
    too many rounds or the leader round is odd; the median timestamp is bounded by
    honest timestamps. [Dag]: [commit], [insert] and [is_linked] at every round
    and author. [Locators]: the validity check decides the documented form, honest
    locators pass it.

    Invariants and refinements. [StorageProps]: the indices of the storage agree
    in every reachable state, insertion is atomic, garbage collection removes
    exactly the old rounds. [StorageService]: the persistent service does what the
    memory service does. [Ready]: the offset index is a queue. [Pending]: the
    nested maps are a list of waiting callbacks. [Cache]: the sliding windows
    count exactly. [Proposal]: a proposal with a quorum becomes a certificate that
    every validator accepts. [SyncTasks]: in every interleaving of critical
    sections the requests wait only for connected peers, the responses fit their
    requests and the node is synced exactly when the recorded height says so;
    while calls do not overlap the common ancestors and the recorded height are
    those of the locators. [Mempool]: the two maps, the counter and the LRU cache
    of a queue are one list sorted by fee and arrival.

    Progress. [Proposing]: a proposal holds the valid transmissions from the front
    of the queues and passes the checks of other validators; catching up with
    later rounds ends. [SyncProgress]: a node behind its peers asks for its next
    block, the answers advance its ledger, no request is forgotten, and the loop
    over the received blocks ends. [BftSyncProps]: processing a synced block ends
    after at most one retry per waiting block. [ConsensusProps]: while the workers
    have room the best transactions of the pool reach them.

    The ledger. [MerkleRefines]: after any operations a tree is the one built from
    its leaves, the path of a leaf verifies, and only the leaf at an index
    verifies there unless two nodes on the two paths collide. [TargetsProps]: the
    coinbase target is always computed and halves once per half life, the rewards
    of a block are computed without overflow, and the coinbase rewards of a period
    add up to the anchor reward but for one part in 256. [StoreMapProps],
    [Atomicity]: the maps with their queues are transactional maps, and a scope is
    all or nothing at any depth. [CommitteeStoreProps]: the committee of a round
    is the last that had started, and removing the latest gives the store before
    it, or one without a current committee when it started at round 1.
    [FinalizeStoreProps]: the store is a map of mappings. [RewardsProps]: sharing
    never fails and pays out at most the reward and the rounding; the parallel
    reduction is the sequential one. [RatifyProps]: the genesis ratification makes
    the mappings of credits.aleo agree with the committee, every block reward
    keeps it so and changes nothing else of the members, and the puzzle reward
    reaches the balances of the provers.

    Encodings. [Narwhal], [Subdag], [Proposal], [Locators], [Committee]: what is
    written is read back, and the checked readers accept valid objects only.
    [Events], [Messages]: an event or message is decoded to what was sent, also as
    part of a stream; a message with a transaction is refused beyond the limit.

    Some theorems state behaviour the code hardly intends: a storage service that
    waits for its own lock or returns removed transmissions, a reader that accepts
    truncated data, a bound on checkpoints that is too small by one, a rejected
    block that is never asked for again, transmissions of a proposal that are lost
    when the primary skips rounds, two signatures for one author and round, two
    requests for a transmission to a peer at a time, stale common ancestors and a
    node that takes itself for synced after overlapping calls, waiting blocks that
    are lost in the synchronization of a validator, a queue that outgrows its
    capacity, a transaction that is forgotten when it was refused, events that are
    garbled by an unflushed buffer, a validator that is locked out after a ban or
    connected twice, a committee store without a current round, a supply above its
    documented maximum, a surplus of connections that is miscounted when provers
    are connected, a peer that is not pinged again when two pongs come at one
    instant.

    ** Fuel

    In the depth-first traversal a certificate enters the buffer once per ID, and
    only certificates that are known (those of the subdag, or those of the DAG and
    the storage), so leaders + certificates + 1 iterations are enough for the
    subdag check and known certificates + 2 for the ordering; [dfs_terminates]
    proves it, and the theorems state that the result is never [Deadlock]. The
    other loops have a measure that the definition itself computes as fuel: the
    number of outstanding requests ([skip_requested], and [advance_loop], which
    removes one per iteration, see [try_advancing_returns]), the length of the
    ready queue ([drain_worker]), the number of rounds to skip ([fast_forward],
    see [try_increment_returns]), the number of waiting blocks + 2 (the retries of
    [BftSync], see [sync_block_returns]), the length of a list ([chunks_fuel],
    [ranges], [level_inputs]), the number of entries of a cache, of a verification
    queue or of the ping schedule, of which a turn removes one ([refresh],
    [start_verifying], [expired_loop]), the number of nodes of a Merkle tree (its
    levels) or the index in it (a path), the number of indexed rounds + 1
    ([latest_from], enough by [enough_fuel]). The number of frames that
    [Events.decode_stream] reads from a buffer is an argument; [stream_round_trip]
    holds for any number above that of the events sent. The recursion of
    [sync_with_certificate_from_peer] through the previous certificates that peers
    send is bounded by an argument instead, the depth of the recursion: no theorem
    assumes that it is enough, since a result is [Deadlock] when it is not, and
    the safety theorems hold for every depth.

    ** What is not modelled

    Not modelled: cryptography, circuits and proofs, the puzzle, and the execution
    of programs, which the modelled code only calls (parameters of the
    development); the RocksDB maps, which stand behind the same traits as the
    memory maps; sockets, tasks, channels and timers (the proposal task, the
    waiting of [Transport::send]), which the model replaces by arbitrary sequences
    of handler calls; floating-point statistics (telemetry, sync speed,
    [request_stake_redundancy_reached]); the construction of nodes, the puzzle
    loop of a prover and the bootstrap client; the command line, REST, CDN and
    metrics. Of what could follow, the bootstrap client would rest on [Peers] and
    [Messages] the way [Router] does, the stores of blocks and transactions on
    [StoreMap] and [Atomicity] the way the two stores here do, and the end of the
    recursion of [sync_with_certificate_from_peer] on acyclic certificates would
    make its depth argument unnecessary. *)

From Stdlib Require Export ZArith Lia.
From stdpp Require Export base gmap sets strings sorting option numbers.
From stdpp Require Export list.

#[global] Open Scope Z_scope.

(** ** Outcomes of Rust computations *)

(** [result A] is the outcome of a fallible Rust function.  [Err] is an
    [Err(..)] value ([anyhow!], [bail!], [ensure!] or an I/O error) with the
    constant part of its message, [Panic] an [unwrap]/[expect] on a missing
    value, [Deadlock] a call that never returns: a thread that waits for a lock
    it already holds, or a loop that is still running when its bound is used
    up. *)
Inductive result (A : Type) : Type :=
| Ok (a : A)
| Err (e : string)
| Panic (e : string)
| Deadlock.
Arguments Ok {_} _.
Arguments Err {_} _.
Arguments Panic {_} _.
Arguments Deadlock {_}.

#[export] Instance result_ret : MRet result := fun A a => Ok a.
#[export] Instance result_bind : MBind result := fun A B f m =>
  match m with
  | Ok a => f a
  | Err e => Err e
  | Panic e => Panic e
  | Deadlock => Deadlock
  end.

#[export] Instance result_eq_dec `{EqDecision A} : EqDecision (result A).
Proof. solve_decision. Defined.

(** [ensure!(cond, msg)]. *)
Definition ensure (b : bool) (msg : string) : result unit :=
  if b then Ok tt else Err msg.

Definition is_ok {A} (r : result A) : bool :=
  match r with Ok _ => true | _ => false end.

(** [.ok()], that is, the value of an [Ok], if any. *)
Definition ok {A} (r : result A) : option A :=
  match r with Ok a => Some a | _ => None end.

(** [.unwrap_or(d)]. *)
Definition unwrap_or {A} (d : A) (r : result A) : A :=
  match r with Ok a => a | _ => d end.

(** [option.ok_or_else(|| err)]. *)
Definition ok_or {A} (msg : string) (o : option A) : result A :=
  match o with Some a => Ok a | None => Err msg end.

(** [option.unwrap()]. *)
Definition unwrap {A} (msg : string) (o : option A) : result A :=
  match o with Some a => Ok a | None => Panic msg end.

(** A [for] loop whose body may return early with an error. *)
Fixpoint foldM {A B} (f : B -> A -> result B) (b : B) (l : list A) : result B :=
  match l with
  | [] => Ok b
  | x :: l => b' ← f b x; foldM f b' l
  end.

Lemma bind_Ok {A B} (m : result A) (f : A -> result B) b :
  m ≫= f = Ok b <-> exists a, m = Ok a /\ f a = Ok b.
Proof. destruct m; cbn; naive_solver. Qed.

Lemma Ok_inj {A} (a b : A) : Ok a = Ok b -> a = b.
Proof. congruence. Qed.

Lemma ensure_Ok b msg u : ensure b msg = Ok u <-> b = true.
Proof. destruct b, u; cbn; naive_solver. Qed.

Lemma ensure_bind {B} b msg (k : unit -> result B) : b = true -> ensure b msg ≫= k = k tt.
Proof. by intros ->. Qed.

Lemma ok_or_Ok {A} msg (o : option A) a : ok_or msg o = Ok a <-> o = Some a.
Proof. destruct o; cbn; naive_solver. Qed.

(** Splits a successful [result] computation into the successes it is made of. *)
Ltac simp_ok_step :=
  match goal with
  | H : _ ≫= _ = Ok _ |- _ => apply bind_Ok in H as (? & ? & H)
  | H : ensure _ _ = Ok _ |- _ => apply ensure_Ok in H
  | H : ok_or _ _ = Ok _ |- _ => apply ok_or_Ok in H
  | H : mret _ = Ok _ |- _ => apply Ok_inj in H
  | H : Ok _ = Ok _ |- _ => apply Ok_inj in H
  | H : Err _ = Ok _ |- _ => discriminate H
  | H : Panic _ = Ok _ |- _ => discriminate H
  | H : Deadlock = Ok _ |- _ => discriminate H
  | H : _ = Ok _ |- _ => progress cbv zeta in H
  end.
Ltac simp_ok := repeat simp_ok_step; simplify_eq.

Lemma foldM_app {A B} (f : B -> A -> result B) b l1 l2 :
  foldM f b (l1 ++ l2) = (b' ← foldM f b l1; foldM f b' l2).
Proof. revert b. induction l1 as [|x l1 IH]; intros b; [done|]. cbn. destruct (f b x); cbn; auto. Qed.

(** A loop of checks passes when every check does. *)
Lemma foldM_tt {A} (f : unit -> A -> result unit) l :
  foldM f tt l = Ok tt <-> forall x, x ∈ l -> f tt x = Ok tt.
Proof.
  induction l as [|x l IH]; cbn; [set_solver|]. setoid_rewrite elem_of_cons. rewrite bind_Ok. split.
  - intros ([] & Hx & Hl) y [->|?]; [done|]. by apply IH.
  - intros H. exists tt. split; [auto|]. apply IH. auto.
Qed.

(** An invariant of the accumulator that every successful iteration keeps. *)
Lemma foldM_ind {A B} (P : B -> Prop) (f : B -> A -> result B) l b b' :
  P b -> (forall x b1 b2, x ∈ l -> P b1 -> f b1 x = Ok b2 -> P b2) ->
  foldM f b l = Ok b' -> P b'.
Proof.
  revert b. induction l as [|x l IH]; intros b Hb Hstep Hf; cbn in Hf; simp_ok; [done|].
  eapply IH; [|set_solver|done]. eapply Hstep; [|done|done]. left.
Qed.

(** ** Stateful fallible computations *)

(** A method that updates [S] and may fail; the updates made before a failure
    stay. *)
Definition SM (S A : Type) : Type := S -> result A * S.
Definition sret {S A} (a : A) : SM S A := fun s => (Ok a, s).
Definition sbind {S A B} (m : SM S A) (f : A -> SM S B) : SM S B := fun s =>
  match m s with
  | (Ok a, s) => f a s
  | (Err e, s) => (Err e, s)
  | (Panic e, s) => (Panic e, s)
  | (Deadlock, s) => (Deadlock, s)
  end.
(** [r?], for a computation that only reads. *)
Definition slift {S A} (r : result A) : SM S A := fun s => (r, s).
Definition sget {S} : SM S S := fun s => (Ok s, s).
Definition smodify {S} (f : S -> S) : SM S unit := fun s => (Ok tt, f s).

Notation "'do' x ⇐ m ; k" := (sbind m (fun x => k))
  (at level 100, x pattern, m at level 95, k at level 200, right associativity,
   format "'do'  x  ⇐  m ;  '//' k").

(** A [for] loop over a list. *)
Fixpoint sfold {S A B} (f : B -> A -> SM S B) (b : B) (l : list A) : SM S B :=
  match l with
  | [] => sret b
  | x :: l => do b ⇐ f b x; sfold f b l
  end.

(** [m] keeps [R] between the state before and the state after, for a
    reflexive and transitive [R]. *)
Section Preserves.
Context {S : Type} (R : S -> S -> Prop) `{!PreOrder R}.

Definition keeps {A} (m : SM S A) : Prop := forall s, R s (m s).2.

Lemma keeps_ret {A} (a : A) : keeps (sret a).
Proof. by intros s. Qed.
Lemma keeps_lift {A} (r : result A) : keeps (slift r).
Proof. by intros s. Qed.
Lemma keeps_get : keeps (sget (S := S)).
Proof. by intros s. Qed.
Lemma keeps_modify f : (forall s, R s (f s)) -> keeps (smodify f).
Proof. intros H s. apply H. Qed.
Lemma keeps_bind {A B} (m : SM S A) (f : A -> SM S B) :
  keeps m -> (forall a, keeps (f a)) -> keeps (sbind m f).
Proof.
  intros Hm Hf s. unfold sbind. specialize (Hm s). destruct (m s) as [[a|e|e|] s']; cbn in *; try done.
  etrans; [done|apply Hf].
Qed.
Lemma keeps_fold {A B} (f : B -> A -> SM S B) b l :
  (forall b x, x ∈ l -> keeps (f b x)) -> keeps (sfold f b l).
Proof.
  revert b. induction l as [|x l IH]; intros b H; cbn; [apply keeps_ret|].
  apply keeps_bind; [apply H; left|]. intros b'. apply IH. intros; apply H; by right.
Qed.
End Preserves.

(** The parts of a program that keep [R] by their form; [tac] is for the rest. *)
Ltac keeps_step R tac :=
  match goal with
  | |- keeps R (sret _) => apply (keeps_ret R)
  | |- keeps R (slift _) => apply (keeps_lift R)
  | |- keeps R sget => apply (keeps_get R)
  | |- keeps R (sbind _ _) => apply (keeps_bind R); [|intros ?]
  | |- keeps R (sfold _ _ _) => apply (keeps_fold R); intros ? ? _
  | |- keeps R (let _ := _ in _) => cbv zeta
  | |- keeps R (if ?b then _ else _) => destruct b
  | |- keeps R (match ?x with _ => _ end) => destruct x
  | |- _ => tac
  end.

Lemma sbind_run {S A B} (m : SM S A) (f : A -> SM S B) s a s' : m s = (Ok a, s') -> sbind m f s = f a s'.
Proof. intros H. unfold sbind. by rewrite H. Qed.
Lemma slift_run {S A B} (r : result A) (f : A -> SM S B) s a : r = Ok a -> sbind (slift r) f s = f a s.
Proof. by intros ->. Qed.

Lemma sbind_Ok {S A B} (m : SM S A) (f : A -> SM S B) s b s' :
  sbind m f s = (Ok b, s') <-> exists a s1, m s = (Ok a, s1) /\ f a s1 = (Ok b, s').
Proof. unfold sbind. destruct (m s) as [[a|e|e|] s1]; naive_solver. Qed.

(** An invariant of the accumulator that every successful iteration keeps. *)
Lemma sfold_ind {S A B} (P : B -> Prop) (f : B -> A -> SM S B) l b s b' s' :
  P b -> (forall x b1 s1 b2 s2, x ∈ l -> P b1 -> f b1 x s1 = (Ok b2, s2) -> P b2) ->
  sfold f b l s = (Ok b', s') -> P b'.
Proof.
  revert b s. induction l as [|x l IH]; intros b s Hb Hstep H; cbn in H; [by injection H as <- _|].
  apply sbind_Ok in H as (b1 & s1 & H1 & H). eapply IH; [|intros; eapply Hstep; [by right|done..]|exact H].
  eapply Hstep; [left|done..].
Qed.

(** ** Machine integers *)

(** Integers are [Z]; the width of the Rust type shows in the operations.  The
    release profile of the workspace has no overflow checks, so a plain [+] on
    a [u64] wraps. *)
Definition u8_max : Z := 2 ^ 8 - 1.
Definition u16_max : Z := 2 ^ 16 - 1.
Definition u32_max : Z := 2 ^ 32 - 1.
Definition u64_max : Z := 2 ^ 64 - 1.
Definition i64_max : Z := 2 ^ 63 - 1.
Definition i64_min : Z := - 2 ^ 63.

Definition is_u8 (z : Z) : Prop := 0 <= z <= u8_max.
Definition is_u16 (z : Z) : Prop := 0 <= z <= u16_max.
Definition is_u32 (z : Z) : Prop := 0 <= z <= u32_max.
Definition is_u64 (z : Z) : Prop := 0 <= z <= u64_max.
Definition is_i64 (z : Z) : Prop := i64_min <= z <= i64_max.

Definition u32_wrap (z : Z) : Z := z mod 2 ^ 32.
Definition u64_wrap (z : Z) : Z := z mod 2 ^ 64.
Definition i64_wrap (z : Z) : Z := (z + 2 ^ 63) mod 2 ^ 64 - 2 ^ 63.

(** [saturating_sub] does not depend on the width of an unsigned type. *)
Definition saturating_sub (a b : Z) : Z := Z.max 0 (a - b).
Definition u32_saturating_add (a b : Z) : Z := Z.min u32_max (a + b).
Definition u64_saturating_add (a b : Z) : Z := Z.min u64_max (a + b).
Definition u64_saturating_mul (a b : Z) : Z := Z.min u64_max (a * b).
Definition i64_saturating_sub (a b : Z) : Z := Z.max i64_min (Z.min i64_max (a - b)).
Definition u64_checked_add (a b : Z) : option Z :=
  if decide (a + b <= u64_max) then Some (a + b) else None.

(** [usize::len] of a list. *)
Definition len {A} (l : list A) : Z := Z.of_nat (length l).

(** The wrapping operations do nothing on values in range. *)
Lemma u64_wrap_id z : is_u64 z -> u64_wrap z = z.
Proof. unfold is_u64, u64_wrap, u64_max. intros ?. apply Z.mod_small. lia. Qed.

Lemma u32_wrap_id z : is_u32 z -> u32_wrap z = z.
Proof. unfold is_u32, u32_wrap, u32_max. intros ?. apply Z.mod_small. lia. Qed.

Lemma i64_wrap_id z : is_i64 z -> i64_wrap z = z.
Proof.
  unfold is_i64, i64_wrap, i64_max, i64_min. intros ?. rewrite Z.mod_small; lia.
Qed.

Lemma u64_wrap_range z : is_u64 (u64_wrap z).
Proof. unfold is_u64, u64_wrap, u64_max. pose proof (Z.mod_pos_bound z (2 ^ 64)). lia. Qed.

Lemma len_nonneg {A} (l : list A) : 0 <= len l.
Proof. unfold len. lia. Qed.

Lemma len_nil_inv {A} (l : list A) : len l = 0 -> l = [].
Proof. unfold len. destruct l; cbn; [done|lia]. Qed.

Lemma len_app {A} (l1 l2 : list A) : len (l1 ++ l2) = len l1 + len l2.
Proof. unfold len. rewrite length_app. lia. Qed.

Lemma len_cons {A} (x : A) l : len (x :: l) = 1 + len l.
Proof. unfold len. cbn. lia. Qed.

(** Unfolds the machine-integer vocabulary and calls [lia]. *)
Ltac mlia :=
  unfold u64_saturating_add, u64_saturating_mul, u32_saturating_add, saturating_sub,
    i64_saturating_sub, is_u64, is_u32, is_u16, is_u8, is_i64, u64_max, u32_max, u16_max,
    u8_max, i64_max, i64_min, len in *; lia.

(** ** Insertion-ordered sets *)

(** An [IndexSet<T>] whose iteration order the code observes is the list of
    its elements in that order.  Two elements are the same element when their
    [key] is the same, since [BatchCertificate] compares by batch ID only. *)
Section IndexSet.
Context {A K : Type} `{EqDecision K} (key : A -> K).

(** [IndexSet::contains]. *)
Definition iset_contains (k : K) (l : list A) : bool := bool_decide (k ∈ (key <$> l)).

(** [IndexSet::insert]: a present element keeps its place and its value. *)
Definition iset_insert (x : A) (l : list A) : list A :=
  if iset_contains (key x) l then l else l ++ [x].

(** [.collect::<IndexSet<_>>()]. *)
Definition iset_of_list (l : list A) : list A := foldl (fun s x => iset_insert x s) [] l.

(** Replaces the first element with key [k] by [y]. *)
Fixpoint iset_replace (k : K) (y : A) (l : list A) : list A :=
  match l with
  | [] => []
  | x :: l => if decide (key x = k) then y :: l else x :: iset_replace k y l
  end.

(** [IndexSet::swap_remove]: the last element takes the place of the removed one. *)
Definition iset_swap_remove (k : K) (l : list A) : list A :=
  if iset_contains k l then
    match last l with
    | None => []
    | Some y => if decide (key y = k) then removelast l
                else iset_replace k y (removelast l)
    end
  else l.

Lemma iset_contains_spec k l : iset_contains k l = true <-> exists x, x ∈ l /\ key x = k.
Proof.
  unfold iset_contains. rewrite bool_decide_eq_true, list_elem_of_fmap. naive_solver.
Qed.

Lemma elem_of_iset_insert x y l :
  y ∈ iset_insert x l <-> y ∈ l \/ (iset_contains (key x) l = false /\ y = x).
Proof. unfold iset_insert. destruct (iset_contains _ _); set_solver. Qed.

Lemma iset_insert_NoDup x l : NoDup (key <$> l) -> NoDup (key <$> iset_insert x l).
Proof.
  unfold iset_insert. destruct (iset_contains _ _) eqn:E; [done|].
  intros Hl. rewrite fmap_app. apply NoDup_app. split_and!; [done| |apply NoDup_singleton].
  intros k Hk ->%list_elem_of_singleton. unfold iset_contains in E.
  by apply bool_decide_eq_false in E.
Qed.

Lemma iset_insert_keys x l k : k ∈ (key <$> iset_insert x l) <-> k = key x \/ k ∈ (key <$> l).
Proof.
  unfold iset_insert. destruct (iset_contains _ _) eqn:E.
  - apply iset_contains_spec in E as (z & ? & Hz). rewrite <-Hz.
    split; [tauto|]. intros [->|?]; [|done]. apply list_elem_of_fmap. eauto.
  - rewrite fmap_app. set_solver.
Qed.

Lemma iset_replace_Permutation k y l :
  iset_contains k l = true ->
  exists x l', key x = k /\ l ≡ₚ x :: l' /\ iset_replace k y l ≡ₚ y :: l'.
Proof.
  induction l as [|z l IH]; cbn; intros H.
  - apply iset_contains_spec in H as (?&?&?). set_solver.
  - destruct (decide (key z = k)) as [Hz|Hz].
    + exists z, l. done.
    + destruct IH as (x & l' & ? & Hl & Hr).
      { apply iset_contains_spec in H as (w & Hw & ?). apply iset_contains_spec. exists w.
        set_solver. }
      exists x, (z :: l'). split_and!; [done| |].
      * rewrite Hl. constructor.
      * rewrite Hr. constructor.
Qed.

(** [swap_remove] removes one element with the key, up to order. *)
Lemma iset_swap_remove_Permutation k l :
  iset_contains k l = true ->
  exists x, key x = k /\ l ≡ₚ x :: iset_swap_remove k l.
Proof.
  intros H. unfold iset_swap_remove. rewrite H.
  destruct l as [|y l _] using rev_ind.
  { apply iset_contains_spec in H as (?&?&?). set_solver. }
  rewrite last_snoc, removelast_last. case_decide as Hy.
  - exists y. split; [done|]. by rewrite Permutation_app_comm.
  - destruct (iset_replace_Permutation k y l) as (x & l' & ? & Hl & Hr).
    { apply iset_contains_spec in H as (w & Hw & ?). apply iset_contains_spec. exists w.
      set_solver. }
    exists x. split; [done|]. rewrite Hr, Hl. cbn. constructor.
    by rewrite Permutation_app_comm.
Qed.

Lemma elem_of_iset_swap_remove k l x :
  NoDup (key <$> l) -> (x ∈ iset_swap_remove k l <-> x ∈ l /\ key x <> k).
Proof.
  intros Hnd. destruct (iset_contains k l) eqn:E.
  - destruct (iset_swap_remove_Permutation k l E) as (y & Hy & Hp).
    rewrite Hp in Hnd. cbn in Hnd. apply NoDup_cons in Hnd as [Hn _].
    rewrite Hp at 2. rewrite elem_of_cons. split.
    + intros Hx. split; [by right|]. intros Hk. apply Hn.
      assert (key y = key x) as -> by congruence. by apply list_elem_of_fmap_2.
    + intros [[->|?] ?]; done.
  - unfold iset_swap_remove. rewrite E. split; [|tauto]. intros Hx. split; [done|].
    intros Hk. apply not_true_iff_false in E. apply E, iset_contains_spec. eauto.
Qed.

Lemma iset_swap_remove_NoDup k l : NoDup (key <$> l) -> NoDup (key <$> iset_swap_remove k l).
Proof.
  intros Hnd. destruct (iset_contains k l) eqn:E.
  - destruct (iset_swap_remove_Permutation k l E) as (y & Hy & Hp).
    rewrite Hp in Hnd. by apply NoDup_cons in Hnd as [_ ?].
  - unfold iset_swap_remove. by rewrite E.
Qed.

Lemma iset_of_list_NoDup l : NoDup (key <$> iset_of_list l).
Proof.
  unfold iset_of_list. assert (NoDup (key <$> ([] : list A))) as H0 by constructor.
  revert H0. generalize (@nil A). induction l as [|x l IH]; intros s Hs; cbn; [done|].
  apply IH. by apply iset_insert_NoDup.
Qed.

Lemma iset_foldl_keys l s k :
  k ∈ (key <$> foldl (fun s x => iset_insert x s) s l) <-> k ∈ (key <$> s) \/ k ∈ (key <$> l).
Proof.
  revert s. induction l as [|x l IH]; intros s; cbn; [set_solver|].
  rewrite IH, iset_insert_keys. set_solver.
Qed.

Lemma iset_of_list_keys l k : k ∈ (key <$> iset_of_list l) <-> k ∈ (key <$> l).
Proof. unfold iset_of_list. rewrite iset_foldl_keys. set_solver. Qed.

Lemma elem_of_iset_of_list l x : x ∈ iset_of_list l -> x ∈ l.
Proof.
  unfold iset_of_list. cut (forall s, x ∈ foldl (fun s x => iset_insert x s) s l -> x ∈ s \/ x ∈ l).
  { intros H Hx. apply H in Hx. set_solver. }
  induction l as [|y l IH]; intros s; cbn; [tauto|]. intros Hx%IH.
  rewrite elem_of_iset_insert in Hx. set_solver.
Qed.

(** Collecting only drops elements. *)
Lemma iset_of_list_sublist l : iset_of_list l `sublist_of` l.
Proof.
  unfold iset_of_list. change l with ([] ++ l) at 2. generalize (@nil A) as s.
  induction l as [|x l IH]; intros s; cbn; [by rewrite app_nil_r|].
  etrans; [apply IH|]. unfold iset_insert. destruct (iset_contains _ _).
  - apply sublist_app; [done|]. by apply sublist_cons.
  - by rewrite <-app_assoc.
Qed.

(** A duplicate-free list collects to itself, in order. *)
Lemma iset_foldl_id l s :
  NoDup (key <$> s ++ l) -> foldl (fun s x => iset_insert x s) s l = s ++ l.
Proof.
  revert s. induction l as [|x l IH]; intros s Hnd; cbn; [by rewrite app_nil_r|].
  assert (iset_insert x s = s ++ [x]) as ->.
  { unfold iset_insert. destruct (iset_contains _ _) eqn:E; [|done].
    apply iset_contains_spec in E as (y & Hy & Hk).
    rewrite fmap_app in Hnd. apply NoDup_app in Hnd as (_ & Hd & _).
    exfalso. apply (Hd (key x)); [|cbn; left]. rewrite <-Hk. apply list_elem_of_fmap. eauto. }
  rewrite IH; by rewrite <-app_assoc.
Qed.

Lemma iset_of_list_id l : NoDup (key <$> l) -> iset_of_list l = l.
Proof. intros. unfold iset_of_list. by rewrite iset_foldl_id. Qed.

End IndexSet.

(** ** Ordered maps *)

(** A [BTreeMap<u64, V>] is a [gmap Z V]; this is its ascending iteration. *)
Section BTreeMap.
Context {V : Type}.

Definition key_le (p q : Z * V) : Prop := p.1 <= q.1.

#[export] Instance key_le_dec : RelDecision key_le := fun p q => decide (p.1 <= q.1).
#[export] Instance key_le_total : Total key_le.
Proof. intros p q. unfold key_le. lia. Qed.
#[export] Instance key_le_trans : Transitive key_le.
Proof. intros p q r. unfold key_le. lia. Qed.

(** [BTreeMap::iter]. *)
Definition btree_iter (m : gmap Z V) : list (Z * V) := merge_sort key_le (map_to_list m).

(** [BTreeMap::last_key_value], [iter().next_back()]. *)
Definition btree_last (m : gmap Z V) : option (Z * V) := last (btree_iter m).

(** [BTreeMap::first_key_value]. *)
Definition btree_first (m : gmap Z V) : option (Z * V) := head (btree_iter m).

Lemma btree_iter_perm m : btree_iter m ≡ₚ map_to_list m.
Proof. apply merge_sort_Permutation. Qed.

Lemma elem_of_btree_iter m k v : (k, v) ∈ btree_iter m <-> m !! k = Some v.
Proof. rewrite btree_iter_perm. apply elem_of_map_to_list. Qed.

Lemma btree_iter_sorted m : StronglySorted key_le (btree_iter m).
Proof. apply Sorted_StronglySorted; [apply _|]. apply Sorted_merge_sort, _. Qed.

Lemma btree_iter_NoDup_keys m : NoDup (btree_iter m).*1.
Proof. rewrite btree_iter_perm. apply NoDup_fst_map_to_list. Qed.

Lemma btree_iter_nil m : btree_iter m = [] <-> m = ∅.
Proof.
  rewrite <-map_to_list_empty_iff. split; intros H.
  - apply Permutation_nil. by rewrite <-H, btree_iter_perm.
  - apply Permutation_nil. by rewrite btree_iter_perm, H.
Qed.

End BTreeMap.

(** Sublists of sorted lists are sorted. *)
Lemma StronglySorted_sublist {A} (R : A -> A -> Prop) (l k : list A) :
  l `sublist_of` k -> StronglySorted R k -> StronglySorted R l.
Proof.
  induction 1 as [|x l k H IH|x l k H IH]; intros Hs; [done|..];
    apply StronglySorted_inv in Hs as [Hs Hx]; [|by apply IH].
  constructor; [by apply IH|]. rewrite Forall_forall in Hx |- *. intros y Hy.
  apply Hx. by eapply elem_of_sublist.
Qed.

(** A list mapped to blocks that carry the key of their element stays sorted. *)
Lemma StronglySorted_bind {A B} (f : A -> list B) (ka : A -> Z) (kb : B -> Z) (l : list A) :
  (forall x y, x ∈ l -> y ∈ f x -> kb y = ka x) ->
  StronglySorted (fun x y => ka x <= ka y) l -> StronglySorted (fun x y => kb x <= kb y) (l ≫= f).
Proof.
  intros Hk. induction 1 as [|x l Hl IH Hx]; [constructor|]. cbn.
  assert (forall y, y ∈ l ≫= f -> ka x <= kb y) as Hle.
  { intros y (z & Hy & Hz)%list_elem_of_bind. rewrite (Hk z y) by (done || by right).
    rewrite Forall_forall in Hx. by apply Hx. }
  assert (forall y, y ∈ f x -> kb y = ka x) as Hfx by (intros; apply Hk; [left|done]).
  specialize (IH ltac:(intros; apply Hk; [by right|done])).
  revert Hfx. generalize (f x) as ys. induction ys as [|y ys IHy]; intros Hys; [done|]. cbn.
  constructor; [apply IHy; set_solver|]. apply Forall_forall. intros z [Hz|Hz]%elem_of_app.
  - rewrite !Hys by set_solver. lia.
  - rewrite Hys by set_solver. auto.
Qed.

(** ** Insertion-ordered maps *)

(** An [IndexMap<K, V>] whose iteration order the code observes is the list of
    its entries in that order, with distinct keys. *)
Section IndexMap.
Context {K V : Type} `{EqDecision K}.

(** [IndexMap::get]. *)
Fixpoint imap_get (k : K) (l : list (K * V)) : option V :=
  match l with
  | [] => None
  | (k', v) :: l => if decide (k' = k) then Some v else imap_get k l
  end.

(** [IndexMap::contains_key]. *)
Definition imap_contains (k : K) (l : list (K * V)) : bool := bool_decide (is_Some (imap_get k l)).

(** [IndexMap::insert]: a present key keeps its place and gets the new value. *)
Fixpoint imap_insert (k : K) (v : V) (l : list (K * V)) : list (K * V) :=
  match l with
  | [] => [(k, v)]
  | (k', v') :: l => if decide (k' = k) then (k', v) :: l else (k', v') :: imap_insert k v l
  end.

(** [.collect::<IndexMap<_, _>>()]. *)
Definition imap_of_list (l : list (K * V)) : list (K * V) :=
  foldl (fun m p => imap_insert p.1 p.2 m) [] l.

Lemma imap_get_elem k v l : imap_get k l = Some v -> (k, v) ∈ l.
Proof.
  induction l as [|[k' v'] l IH]; cbn; [done|]. case_decide; [|set_solver].
  intros. simplify_eq. left.
Qed.

Lemma imap_get_NoDup k v l : NoDup l.*1 -> (imap_get k l = Some v <-> (k, v) ∈ l).
Proof.
  intros Hnd. split; [apply imap_get_elem|].
  induction l as [|[k' v'] l IH]; cbn in *; [set_solver|].
  apply NoDup_cons in Hnd as [Hk Hnd]. rewrite elem_of_cons. intros [?|Hin].
  - simplify_eq. by rewrite decide_True.
  - rewrite decide_False; [auto|]. intros ->. apply Hk.
    apply list_elem_of_fmap. by exists (k, v).
Qed.

Lemma imap_get_None k l : imap_get k l = None <-> k ∉ l.*1.
Proof.
  induction l as [|[k' v'] l IH]; cbn; [set_solver|]. case_decide; set_solver.
Qed.

Lemma imap_get_insert k v k' l :
  imap_get k' (imap_insert k v l) = if decide (k = k') then Some v else imap_get k' l.
Proof.
  induction l as [|[k1 v1] l IH]; cbn.
  - done.
  - destruct (decide (k1 = k)); cbn.
    + subst. by repeat case_decide.
    + rewrite IH. repeat case_decide; congruence.
Qed.

Lemma imap_insert_keys k v l : k ∈ l.*1 -> (imap_insert k v l).*1 = l.*1.
Proof.
  induction l as [|[k' v'] l IH]; cbn; [set_solver|]. case_decide; cbn; [done|].
  intros. f_equal. apply IH. set_solver.
Qed.

Lemma imap_insert_new k v l : k ∉ l.*1 -> imap_insert k v l = l ++ [(k, v)].
Proof.
  induction l as [|[k' v'] l IH]; cbn; [done|]. intros Hk.
  rewrite decide_False by set_solver. rewrite IH by set_solver. done.
Qed.

Lemma imap_insert_NoDup k v l : NoDup l.*1 -> NoDup (imap_insert k v l).*1.
Proof.
  intros Hnd. destruct (decide (k ∈ l.*1)).
  - by rewrite imap_insert_keys.
  - rewrite imap_insert_new, fmap_app by done. apply NoDup_app.
    split_and!; [done|set_solver|apply NoDup_singleton].
Qed.

Lemma imap_foldl_id l m :
  NoDup (m ++ l).*1 -> foldl (fun m p => imap_insert p.1 p.2 m) m l = m ++ l.
Proof.
  revert m. induction l as [|[k v] l IH]; intros m Hnd; cbn; [by rewrite app_nil_r|].
  rewrite imap_insert_new.
  - rewrite IH; by rewrite <-app_assoc.
  - rewrite fmap_app in Hnd. apply NoDup_app in Hnd as (_ & Hd & _).
    intros Hk. apply (Hd k Hk). cbn. left.
Qed.

Lemma imap_of_list_id l : NoDup l.*1 -> imap_of_list l = l.
Proof. intros. unfold imap_of_list. by rewrite imap_foldl_id. Qed.

Lemma imap_of_list_NoDup l : NoDup (imap_of_list l).*1.
Proof.
  unfold imap_of_list. assert (NoDup (@nil (K * V)).*1) as H0 by constructor.
  revert H0. generalize (@nil (K * V)). induction l as [|p l IH]; intros m Hm; cbn; [done|].
  apply IH. by apply imap_insert_NoDup.
Qed.

End IndexMap.

(** ** Lists *)

Lemma filter_all_in {A} (P : A -> Prop) `{forall x, Decision (P x)} (l : list A) : (forall x, x ∈ l -> P x) -> base.filter P l = l.
Proof.
  induction l as [|x l IH]; intros Hl; [done|]. rewrite filter_cons_True by (apply Hl; left).
  f_equal. apply IH. intros. apply Hl. by right.
Qed.

Lemma filter_none_in {A} (P : A -> Prop) `{forall x, Decision (P x)} (l : list A) : (forall x, x ∈ l -> ~ P x) -> base.filter P l = [].
Proof.
  induction l as [|x l IH]; intros Hl; [done|]. rewrite filter_cons_False by (apply Hl; left).
  apply IH. intros. apply Hl. by right.
Qed.

Lemma omap_filter {A B} (g : A -> option B) (P : A -> Prop) (Q : B -> Prop) `{forall x, Decision (P x)}
    `{forall y, Decision (Q y)} (l : list A) :
  (forall x y, g x = Some y -> P x <-> Q y) -> omap g (base.filter P l) = base.filter Q (omap g l).
Proof.
  intros HPQ. induction l as [|x l IH]; [done|]. rewrite filter_cons. cbn.
  destruct (g x) as [y|] eqn:E.
  - rewrite filter_cons. pose proof (HPQ x y E). destruct (decide (P x)), (decide (Q y)); cbn; rewrite ?E, IH; tauto.
  - destruct (decide (P x)); cbn; by rewrite ?E.
Qed.

Lemma omap_ext_in {A B} (f g : A -> option B) (l : list A) : (forall x, x ∈ l -> f x = g x) -> omap f l = omap g l.
Proof.
  induction l as [|x l IH]; intros Hl; [done|]. cbn. rewrite (Hl x) by left.
  destruct (g x); rewrite IH; try done; intros; apply Hl; by right.
Qed.

(** *** The last element *)

Lemma length_removelast {A} (l : list A) : length (removelast l) = (length l - 1)%nat.
Proof.
  induction l as [|a [|b l] IH]; [done|done|]. change (removelast (a :: b :: l)) with (a :: removelast (b :: l)).
  cbn [length] in *. lia.
Qed.

Lemma removelast_snoc {A} (l : list A) x : removelast (l ++ [x]) = l.
Proof. induction l as [|a l IH]; [done|]. cbn. rewrite IH. by destruct l. Qed.

Lemma elem_of_removelast {A} (x : A) l : x ∈ removelast l -> x ∈ l.
Proof.
  destruct l as [|y l _] using rev_ind; [done|]. rewrite removelast_snoc. intros. apply elem_of_app. by left.
Qed.

Lemma NoDup_removelast {A} (l : list A) : NoDup l -> NoDup (removelast l).
Proof.
  destruct l as [|y l _] using rev_ind; [done|]. rewrite removelast_snoc. intros (? & _ & _)%NoDup_app. done.
Qed.

Lemma fmap_removelast {A B} (f : A -> B) l : f <$> removelast l = removelast (f <$> l).
Proof. destruct l as [|y l _] using rev_ind; [done|]. rewrite removelast_snoc, fmap_app. symmetry. apply removelast_snoc. Qed.

Lemma list_elem_of_drop_1 {A} n (x : A) l : x ∈ drop n l -> x ∈ l.
Proof. intros Hx. rewrite <-(take_drop n l). apply elem_of_app. by right. Qed.

Lemma drop_app_last {A} k (l : list A) x : (k <= length l)%nat -> drop k (l ++ [x]) = drop k l ++ [x].
Proof. intros Hk. rewrite drop_app. by replace (k - length l)%nat with 0%nat by lia. Qed.

(** ** Sums *)

Definition sumZ (l : list Z) : Z := foldr Z.add 0 l.

Lemma sumZ_cons x l : sumZ (x :: l) = x + sumZ l.
Proof. done. Qed.

Lemma sumZ_app l1 l2 : sumZ (l1 ++ l2) = sumZ l1 + sumZ l2.
Proof. unfold sumZ. induction l1; cbn; lia. Qed.

#[export] Instance sumZ_perm : Proper (Permutation ==> eq) sumZ.
Proof. unfold sumZ. induction 1; cbn; lia. Qed.

Lemma sumZ_nonneg l : (forall x, x ∈ l -> 0 <= x) -> 0 <= sumZ l.
Proof.
  induction l as [|x l IH]; cbn; intros H; [lia|]. pose proof (H x ltac:(left)).
  assert (0 <= sumZ l) by (apply IH; set_solver). unfold sumZ in *. lia.
Qed.

(** An accumulation with [saturating_add] is the sum cut off at the maximum. *)
Lemma foldl_saturating_add {A} (f : A -> Z) l acc :
  (forall x, x ∈ l -> 0 <= f x) -> 0 <= acc <= u64_max ->
  foldl (fun s x => u64_saturating_add s (f x)) acc l = Z.min u64_max (acc + sumZ (f <$> l)).
Proof.
  revert acc. induction l as [|x l IH]; intros acc Hf Hacc; cbn; [lia|].
  pose proof (Hf x ltac:(left)). rewrite IH by (set_solver || mlia).
  assert (0 <= sumZ (f <$> l)).
  { apply sumZ_nonneg. intros ? (?&->&?)%list_elem_of_fmap. apply Hf. set_solver. }
  unfold sumZ in *. mlia.
Qed.

(** The set of a list has as many elements as the list exactly when the list
    has no duplicates. *)
Lemma size_list_to_set_NoDup `{Countable A} (l : list A) :
  size (list_to_set l : gset A) = length l <-> NoDup l.
Proof.
  split; [|apply size_list_to_set].
  induction l as [|x l IH]; intros Hs; [constructor|]. cbn in Hs.
  assert (size (list_to_set l : gset A) <= length l)%nat as Hle.
  { clear. induction l as [|y l IH]; cbn; [by rewrite size_empty|].
    rewrite size_union_alt, size_singleton.
    assert (size ((list_to_set l : gset A) ∖ {[y]}) <= size (list_to_set l : gset A))%nat.
    { apply subseteq_size. set_solver. }
    lia. }
  destruct (decide (x ∈ l)).
  - replace ({[x]} ∪ list_to_set l) with (list_to_set l : gset A) in Hs by set_solver. lia.
  - constructor; [done|]. apply IH. rewrite size_union, size_singleton in Hs by set_solver. lia.
Qed.

(** Closed equations hold by evaluation. *)
Ltac vm_refl := match goal with |- ?a = ?b => exact (@eq_refl _ b <: a = b) end.
