(* ===== verification/Bytes.v ===== *)
(** * Little-endian byte encodings

    The integer instances of the traits [ToBytes] and [FromBytes]
    (snarkVM/utilities/src/bytes.rs).  A byte is a [Z] between 0 and 255.  A
    writer produces bytes; a reader consumes a prefix of its input and returns
    the rest, and fails where [read_exact] does. *)

From S2P Require Import Prelude.

Definition reader (A : Type) : Type := list Z -> result (A * list Z).

(** [(a, rest) <- r] sequencing of readers. *)
Definition rbind {A B} (r : reader A) (f : A -> reader B) : reader B := fun bs =>
  '(a, bs) ← r bs; f a bs.
Definition rret {A} (a : A) : reader A := fun bs => Ok (a, bs).
Definition rfail {A} (msg : string) : reader A := fun _ => Err msg.
(** Lifts a check that does not read, such as [Self::from(..).map_err(error)?]. *)
Definition rlift {A} (r : result A) : reader A := fun bs => a ← r; Ok (a, bs).

Notation "'read' x ⇐ r ; k" := (rbind r (fun x => k))
  (at level 100, x pattern, r at level 95, k at level 200, right associativity,
   format "'read'  x  ⇐  r ;  '//' k").

(** [Read::read_exact]. *)
Definition read_exact (n : Z) : reader (list Z) := fun bs =>
  if decide (n <= len bs) then Ok (take (Z.to_nat n) bs, drop (Z.to_nat n) bs)
  else Err "failed to fill whole buffer".

(** [Read::take(n).read_to_end(..)]: stops at the end of the input. *)
Definition read_up_to (n : Z) : reader (list Z) := fun bs =>
  Ok (take (Z.to_nat n) bs, drop (Z.to_nat n) bs).

(** [to_le_bytes] and [from_le_bytes] of an [n]-byte unsigned integer. *)
Fixpoint le_bytes (n : nat) (z : Z) : list Z :=
  match n with
  | O => []
  | S n => z mod 256 :: le_bytes n (z / 256)
  end.

Fixpoint le_value (bs : list Z) : Z :=
  match bs with
  | [] => 0
  | b :: bs => b + 256 * le_value bs
  end.

(** [impl_bytes_for_integer!] for an unsigned integer of [n] bytes. *)
Definition write_uint (n : nat) (z : Z) : list Z := le_bytes n z.
Definition read_uint (n : nat) : reader Z :=
  read bs ⇐ read_exact (Z.of_nat n); rret (le_value bs).

Definition write_u8 (z : Z) : list Z := write_uint 1 z.
Definition write_u16 (z : Z) : list Z := write_uint 2 z.
Definition write_u32 (z : Z) : list Z := write_uint 4 z.
Definition write_u64 (z : Z) : list Z := write_uint 8 z.
Definition read_u8 : reader Z := fun bs => read_uint 1 bs.
Definition read_u16 : reader Z := fun bs => read_uint 2 bs.
Definition read_u32 : reader Z := fun bs => read_uint 4 bs.
Definition read_u64 : reader Z := fun bs => read_uint 8 bs.

(** [impl_bytes_for_integer!(i64)]: two's complement. *)
Definition write_i64 (z : Z) : list Z := le_bytes 8 (z mod 2 ^ 64).
Definition read_i64 : reader Z :=
  read bs ⇐ read_exact 8; rret (i64_wrap (le_value bs)).

(** [ToBytes]/[FromBytes] for [bool]. *)
Definition write_bool (b : bool) : list Z := write_u8 (if b then 1 else 0).
Definition read_bool : reader bool :=
  read v ⇐ read_u8;
  if decide (v = 0) then rret false
  else if decide (v = 1) then rret true
  else rfail "FromBytes::read failed".

(** [u32::try_from(len).map_err(error)?] and its [u16] form. *)
Definition try_u32 (n : Z) : result Z :=
  if decide (n <= u32_max) then Ok n else Err "out of range integral type conversion attempted".
Definition try_u16 (n : Z) : result Z :=
  if decide (n <= u16_max) then Ok n else Err "out of range integral type conversion attempted".

(** [for _ in 0..n { items.push(read()?) }]. *)
Fixpoint read_many {A} (n : nat) (r : reader A) : reader (list A) :=
  match n with
  | O => rret []
  | S n => read a ⇐ r; read l ⇐ read_many n r; rret (a :: l)
  end.

#[global] Arguments write_u8 : simpl never.
#[global] Arguments write_u16 : simpl never.
#[global] Arguments write_u32 : simpl never.
#[global] Arguments write_u64 : simpl never.
#[global] Arguments write_i64 : simpl never.
#[global] Arguments write_bool : simpl never.
#[global] Arguments rbind : simpl never.

(** ** Round trips *)

(** [r] reads back what was written as [bs], and nothing more. *)
Definition reads {A} (r : reader A) (bs : list Z) (a : A) : Prop :=
  forall rest, r (bs ++ rest) = Ok (a, rest).

Create HintDb codec.

Lemma rbind_reads {A B} (r : reader A) (f : A -> reader B) bs a rest :
  reads r bs a -> rbind r f (bs ++ rest) = f a rest.
Proof. intros H. unfold rbind. by rewrite H. Qed.

Lemma reads_ret {A} (a : A) : reads (rret a) [] a.
Proof. intros rest. done. Qed.

Lemma reads_bind {A B} (r : reader A) (f : A -> reader B) bs1 bs2 a b :
  reads r bs1 a -> reads (f a) bs2 b -> reads (rbind r f) (bs1 ++ bs2) b.
Proof. intros H1 H2 rest. unfold rbind. rewrite <-app_assoc, H1. cbn. apply H2. Qed.

(** The last read of a sequence. *)
Lemma reads_bind_last {A B} (r : reader A) (f : A -> reader B) bs a b :
  reads r bs a -> reads (f a) [] b -> reads (rbind r f) bs b.
Proof. intros H1 H2. rewrite <-(app_nil_r bs). by eapply reads_bind. Qed.

Lemma reads_lift {A} (r : result A) (a : A) : r = Ok a -> reads (rlift r) [] a.
Proof. intros -> rest. done. Qed.

Lemma length_le_bytes n z : length (le_bytes n z) = n.
Proof. revert z. induction n; intros z; cbn; auto. Qed.

Lemma le_value_bytes n z : le_value (le_bytes n z) = z mod 2 ^ (8 * Z.of_nat n).
Proof.
  revert z. induction n as [|n IH]; intros z.
  - cbn. by rewrite Z.mod_1_r.
  - cbn [le_bytes le_value]. rewrite IH.
    replace (8 * Z.of_nat (S n)) with (8 + 8 * Z.of_nat n) by lia.
    rewrite Z.pow_add_r by lia. change (2 ^ 8) with 256.
    rewrite Z.rem_mul_r by lia. lia.
Qed.

Lemma read_exact_app n bs rest :
  len bs = n -> read_exact n (bs ++ rest) = Ok (bs, rest).
Proof.
  intros <-. unfold read_exact, len. rewrite decide_True by (rewrite length_app; lia).
  rewrite Nat2Z.id, take_app_length, drop_app_length. done.
Qed.

Lemma reads_exact bs : reads (read_exact (len bs)) bs bs.
Proof. intros rest. by apply read_exact_app. Qed.

Lemma reads_up_to bs : read_up_to (len bs) bs = Ok (bs, []).
Proof. unfold read_up_to, len. by rewrite Nat2Z.id, take_ge, drop_ge by lia. Qed.

Lemma reads_up_to_app bs : reads (read_up_to (len bs)) bs bs.
Proof.
  intros rest. unfold read_up_to, len.
  by rewrite Nat2Z.id, take_app_length, drop_app_length.
Qed.

Lemma reads_uint n z : 0 <= z < 2 ^ (8 * Z.of_nat n) -> reads (read_uint n) (write_uint n z) z.
Proof.
  intros Hz rest. unfold read_uint, rbind, write_uint.
  rewrite read_exact_app by (unfold len; by rewrite length_le_bytes).
  cbn. unfold rret. by rewrite le_value_bytes, Z.mod_small.
Qed.

Lemma reads_u8 z : is_u8 z -> reads read_u8 (write_u8 z) z.
Proof. intros. apply reads_uint. mlia. Qed.
Lemma reads_u16 z : is_u16 z -> reads read_u16 (write_u16 z) z.
Proof. intros. apply reads_uint. mlia. Qed.
Lemma reads_u32 z : is_u32 z -> reads read_u32 (write_u32 z) z.
Proof. intros. apply reads_uint. mlia. Qed.
Lemma reads_u64 z : is_u64 z -> reads read_u64 (write_u64 z) z.
Proof. intros. apply reads_uint. mlia. Qed.

Lemma reads_i64 z : is_i64 z -> reads read_i64 (write_i64 z) z.
Proof.
  intros Hz rest. unfold read_i64, rbind, write_i64.
  rewrite read_exact_app by (unfold len; by rewrite length_le_bytes).
  cbn -[le_value le_bytes]. unfold rret. rewrite le_value_bytes.
  change (8 * Z.of_nat 8) with 64. rewrite Z.mod_mod by lia.
  rewrite <-(i64_wrap_id z Hz) at 2. unfold i64_wrap.
  rewrite Zplus_mod_idemp_l. done.
Qed.

Lemma reads_bool b : reads read_bool (write_bool b) b.
Proof.
  eapply reads_bind_last; [apply reads_u8; destruct b; mlia|]. destruct b; apply reads_ret.
Qed.

Lemma try_u32_Ok n m : try_u32 n = Ok m <-> m = n /\ n <= u32_max.
Proof. unfold try_u32. case_decide; naive_solver. Qed.
Lemma try_u16_Ok n m : try_u16 n = Ok m <-> m = n /\ n <= u16_max.
Proof. unfold try_u16. case_decide; naive_solver. Qed.

(** Reading as many items as were written gives what each item reads as. *)
Lemma reads_many_as {A B} (r : reader B) (w : A -> list Z) (f : A -> B) l :
  (forall a, a ∈ l -> reads r (w a) (f a)) -> reads (read_many (length l) r) (l ≫= w) (f <$> l).
Proof.
  induction l as [|a l IH]; intros H; cbn.
  - apply reads_ret.
  - eapply reads_bind; [apply H; left|].
    eapply reads_bind_last; [|apply reads_ret]. apply IH. set_solver.
Qed.

Lemma reads_many {A} (r : reader A) (w : A -> list Z) l :
  (forall a, a ∈ l -> reads r (w a) a) -> reads (read_many (length l) r) (l ≫= w) l.
Proof. intros H. rewrite <-(list_fmap_id l) at 3. by apply (reads_many_as r w (fun a => a)). Qed.

#[export] Hint Resolve reads_ret reads_u8 reads_u16 reads_u32 reads_u64 reads_i64 reads_bool
  reads_lift : codec.

Lemma is_u32_len {A} (l : list A) : len l <= u32_max -> is_u32 (len l).
Proof. intros. pose proof (len_nonneg l). mlia. Qed.
Lemma is_u16_len {A} (l : list A) : len l <= u16_max -> is_u16 (len l).
Proof. intros. pose proof (len_nonneg l). mlia. Qed.
#[export] Hint Resolve is_u32_len is_u16_len : codec.

(** ** Fixed-size chunks *)

(** [slice.chunks(size)]; [fuel] bounds the number of chunks. *)
Fixpoint chunks_aux (fuel : nat) (size : nat) (bs : list Z) : list (list Z) :=
  match fuel, bs with
  | S fuel, _ :: _ => take size bs :: chunks_aux fuel size (drop size bs)
  | _, _ => []
  end.
Definition chunks (size : Z) (bs : list Z) : list (list Z) :=
  chunks_aux (length bs) (Z.to_nat size) bs.

(** [.map(f).collect::<Result<Vec<_>, _>>()]. *)
Fixpoint mapR {A B} (f : A -> result B) (l : list A) : result (list B) :=
  match l with
  | [] => Ok []
  | x :: l => y ← f x; l' ← mapR f l; Ok (y :: l')
  end.

(** Reads [n] items of [size] bytes each out of one buffer: every item is read
    from its own chunk, and what it leaves of the chunk is dropped. *)
Definition read_chunks {A} (n size : Z) (r : reader A) : reader (list A) :=
  read bs ⇐ read_exact (n * size);
  rlift (mapR (fun c => '(a, _) ← r c; Ok a) (chunks size bs)).

Lemma chunks_aux_flat {A} (w : A -> list Z) size l fuel :
  (0 < size)%nat -> (forall a, a ∈ l -> length (w a) = size) -> (length (l ≫= w) <= fuel)%nat ->
  chunks_aux fuel size (l ≫= w) = w <$> l.
Proof.
  intros Hs. revert fuel. induction l as [|a l IH]; intros fuel Hl Hfuel; cbn.
  - by destruct fuel.
  - pose proof (Hl a ltac:(left)) as Ha. cbn in Hfuel. rewrite length_app in Hfuel.
    destruct fuel as [|fuel]; [lia|].
    assert (exists b bs, w a ++ (l ≫= w) = b :: bs) as (b & bs & Hb).
    { destruct (w a); cbn in *; [lia|eauto]. }
    cbn [chunks_aux]. rewrite Hb, <-Hb, <-Ha, take_app_length, drop_app_length.
    f_equal. rewrite Ha. apply IH; [set_solver|lia].
Qed.

Lemma mapR_fmap {A B C} (f : B -> result C) (g : A -> B) (h : A -> C) l :
  (forall a, a ∈ l -> f (g a) = Ok (h a)) -> mapR f (g <$> l) = Ok (h <$> l).
Proof.
  induction l as [|a l IH]; intros H; cbn; [done|].
  rewrite H by left. cbn. rewrite IH by set_solver. done.
Qed.

Lemma len_flat {A} (w : A -> list Z) size l :
  (forall a, a ∈ l -> len (w a) = size) -> len (l ≫= w) = len l * size.
Proof.
  induction l as [|a l IH]; intros H; cbn; [unfold len; cbn; lia|].
  rewrite len_app, len_cons, H, IH by (left || set_solver). lia.
Qed.

Lemma reads_chunks {A} (r : reader A) (w : A -> list Z) size l :
  0 < size -> (forall a, a ∈ l -> len (w a) = size) -> (forall a, a ∈ l -> reads r (w a) a) ->
  reads (read_chunks (len l) size r) (l ≫= w) l.
Proof.
  intros Hs Hlen Hr. eapply reads_bind_last.
  { rewrite <-(len_flat w) by done. apply reads_exact. }
  apply reads_lift. unfold chunks. rewrite (chunks_aux_flat w); [|lia| |lia].
  - rewrite (mapR_fmap _ _ id); [by rewrite list_fmap_id|].
    intros a Ha. pose proof (Hr a Ha []) as H. rewrite app_nil_r in H. by rewrite H.
  - intros a Ha. pose proof (Hlen a Ha). unfold len in *. lia.
Qed.

(** ** Inversion of successful reads *)

Lemma rbind_Ok {A B} (r : reader A) (f : A -> reader B) bs b rest :
  rbind r f bs = Ok (b, rest) -> exists a bs', r bs = Ok (a, bs') /\ f a bs' = Ok (b, rest).
Proof.
  unfold rbind. intros H. apply bind_Ok in H as ([a bs'] & H1 & H2). eauto.
Qed.

Lemma rlift_Ok {A} (r : result A) bs a rest :
  rlift r bs = Ok (a, rest) -> r = Ok a /\ bs = rest.
Proof. unfold rlift. intros H. simp_ok. done. Qed.

(** Splits a successful read into the reads it is made of. *)
Ltac simp_read_step :=
  match goal with
  | H : rbind _ _ _ = Ok (_, _) |- _ => apply rbind_Ok in H as (? & ? & ? & H)
  | H : rlift _ _ = Ok (_, _) |- _ => apply rlift_Ok in H as [H ?]
  | H : rret _ _ = Ok (_, _) |- _ => apply Ok_inj in H
  | H : rfail _ _ = Ok (_, _) |- _ => discriminate H
  | H : (if bool_decide ?P then _ else _) _ = Ok (_, _) |- _ =>
      destruct (bool_decide_reflect P)
  | H : (if negb (bool_decide ?P) then _ else _) _ = Ok (_, _) |- _ =>
      destruct (bool_decide_reflect P); cbn [negb] in H
  | H : (if decide ?P then _ else _) _ = Ok (_, _) |- _ => destruct (decide P)
  end.
Ltac simp_read := repeat (simp_read_step; simplify_eq).
