(* ===== verification/Network.v ===== *)
(** * The network parameters

    Every component of the node is generic in [N: Network].  The class
    [Network] holds the associated types and the cryptographic operations the
    modelled code calls: field elements, addresses, signatures, hashes and
    their byte encodings.  They are parameters of the development; what the
    code relies on is the class [NetworkLaws].  [TestNetwork] is a concrete
    instance, with one-byte field elements and transparent signatures, on
    which the definitions evaluate. *)

From Stdlib Require Export Ascii.
From S2P Require Import Prelude Bytes.

Class Network := {
  (** [Field<N>], [Address<N>], [Signature<N>], [PrivateKey<N>]. *)
  Field : Type;
  Field_eq_dec :: EqDecision Field;
  Field_countable :: Countable Field;
  Address : Type;
  Address_eq_dec :: EqDecision Address;
  Address_countable :: Countable Address;
  Signature : Type;
  Signature_eq_dec :: EqDecision Signature;
  Signature_countable :: Countable Signature;
  PrivateKey : Type;
  (** [SolutionID<N>], [N::TransactionID], [N::TransmissionChecksum], [N::BlockHash]. *)
  SolutionID : Type;
  SolutionID_eq_dec :: EqDecision SolutionID;
  SolutionID_countable :: Countable SolutionID;
  TransactionID : Type;
  TransactionID_eq_dec :: EqDecision TransactionID;
  TransactionID_countable :: Countable TransactionID;
  TransmissionChecksum : Type;
  TransmissionChecksum_eq_dec :: EqDecision TransmissionChecksum;
  TransmissionChecksum_countable :: Countable TransmissionChecksum;
  BlockHash : Type;
  BlockHash_eq_dec :: EqDecision BlockHash;
  BlockHash_countable :: Countable BlockHash;
  (** [Solution<N>] and [Transaction<N>]. *)
  Solution : Type;
  Solution_eq_dec :: EqDecision Solution;
  Transaction : Type;
  Transaction_eq_dec :: EqDecision Transaction;

  (** [Address::to_x_coordinate], as the integer [Ord] compares. *)
  to_x_coordinate : Address -> Z;
  (** [Signature::to_address]. *)
  to_address : Signature -> Address;
  (** [Signature::verify(&address, &[message])]. *)
  verify : Signature -> Address -> Field -> bool;
  (** [Address::try_from(&private_key)]. *)
  key_address : PrivateKey -> result Address;
  (** [PrivateKey::sign(&[message], rng)], the randomness as a number. *)
  sign : PrivateKey -> Field -> Z -> result Signature;
  (** [N::hash_bhp1024] of the bits of the given bytes. *)
  hash_bhp1024 : list Z -> result Field;
  (** The [u64] that [N::hash_to_group_psd4(&[round])] is cast to. *)
  hash_round_to_u64 : Z -> result Z;
  (** [Data::to_checksum] of the given bytes. *)
  bytes_to_checksum : list Z -> result TransmissionChecksum;
  (** [N::LATEST_MAX_CERTIFICATES()]. *)
  LATEST_MAX_CERTIFICATES : Z;

  (** The byte encodings. *)
  field_size_in_bytes : Z;
  write_field : Field -> list Z;
  read_field : reader Field;
  address_size_in_bytes : Z;
  write_address : Address -> list Z;
  read_address : reader Address;
  signature_size_in_bytes : Z;
  write_signature : Signature -> list Z;
  (** [Signature::read_le_with_unchecked]. *)
  read_signature : bool -> reader Signature;
  write_solution_id : SolutionID -> list Z;
  read_solution_id : reader SolutionID;
  write_transaction_id : TransactionID -> list Z;
  read_transaction_id : reader TransactionID;
  write_checksum : TransmissionChecksum -> list Z;
  read_checksum : reader TransmissionChecksum;
  write_block_hash : BlockHash -> list Z;
  read_block_hash : reader BlockHash;
  write_solution : Solution -> list Z;
  write_transaction : Transaction -> list Z;
}.

(** What the code relies on: a verified signature is by the address it was
    verified for ([verify] ends with the comparison of that address with the
    one of the signature's compute key), signing verifies, and the encodings
    are prefix codes of the advertised size. *)
Class NetworkLaws `(N : Network) := {
  verify_to_address s a m : verify s a m = true -> to_address s = a;
  sign_verifies k a m r s : key_address k = Ok a -> sign k m r = Ok s -> verify s a m = true;
  max_certificates_range : 0 <= LATEST_MAX_CERTIFICATES <= u16_max;
  field_size_pos : 0 < field_size_in_bytes;
  length_write_field f : len (write_field f) = field_size_in_bytes;
  reads_field f : reads read_field (write_field f) f;
  address_size_pos : 0 < address_size_in_bytes;
  length_write_address a : len (write_address a) = address_size_in_bytes;
  reads_address a : reads read_address (write_address a) a;
  signature_size_pos : 0 < signature_size_in_bytes;
  length_write_signature s : len (write_signature s) = signature_size_in_bytes;
  reads_signature u s : reads (read_signature u) (write_signature s) s;
  reads_solution_id i : reads read_solution_id (write_solution_id i) i;
  reads_transaction_id i : reads read_transaction_id (write_transaction_id i) i;
  reads_checksum c : reads read_checksum (write_checksum c) c;
  reads_block_hash h : reads read_block_hash (write_block_hash h) h;
}.

#[export] Hint Resolve reads_field reads_address reads_signature reads_solution_id
  reads_transaction_id reads_checksum reads_block_hash : codec.

(** ** A concrete network *)

Definition ascii_write (a : ascii) : list Z := [Z.of_N (N_of_ascii a)].
Definition ascii_read : reader ascii :=
  read v ⇐ read_u8; rret (ascii_of_N (Z.to_N v)).

(** A signature is the pair of its signer and the message it signs. *)
Definition pair_write (s : ascii * ascii) : list Z := ascii_write s.1 ++ ascii_write s.2.
Definition pair_read : reader (ascii * ascii) :=
  read a ⇐ ascii_read; read b ⇐ ascii_read; rret (a, b).

Definition sum_hash (bs : list Z) : ascii := ascii_of_N (Z.to_N (foldr Z.add 0 bs mod 256)).

#[export] Instance TestNetwork : Network := {|
  Field := ascii; Address := ascii; Signature := ascii * ascii; PrivateKey := ascii;
  SolutionID := ascii; TransactionID := ascii; TransmissionChecksum := ascii;
  BlockHash := ascii; Solution := ascii; Transaction := ascii;
  to_x_coordinate a := Z.of_N (N_of_ascii a);
  to_address := fst;
  verify s a m := bool_decide (s = (a, m));
  key_address := Ok;
  sign k m _ := Ok (k, m);
  hash_bhp1024 bs := Ok (sum_hash bs);
  hash_round_to_u64 r := Ok (u64_wrap (r * 6364136223846793005));
  bytes_to_checksum bs := Ok (sum_hash bs);
  LATEST_MAX_CERTIFICATES := 40;
  field_size_in_bytes := 1; write_field := ascii_write; read_field := ascii_read;
  address_size_in_bytes := 1; write_address := ascii_write; read_address := ascii_read;
  signature_size_in_bytes := 2; write_signature := pair_write; read_signature _ := pair_read;
  write_solution_id := ascii_write; read_solution_id := ascii_read;
  write_transaction_id := ascii_write; read_transaction_id := ascii_read;
  write_checksum := ascii_write; read_checksum := ascii_read;
  write_block_hash := ascii_write; read_block_hash := ascii_read;
  write_solution := ascii_write; write_transaction := ascii_write;
|}.

Lemma reads_ascii a : reads ascii_read (ascii_write a) a.
Proof.
  pose proof (N_ascii_bounded a) as Ha.
  assert (ascii_write a = write_u8 (Z.of_N (N_of_ascii a))) as ->.
  { unfold ascii_write, write_u8, write_uint. cbn. rewrite Z.mod_small by lia. done. }
  eapply reads_bind_last; [apply reads_u8; mlia|].
  rewrite N2Z.id, ascii_N_embedding. apply reads_ret.
Qed.

Lemma reads_pair s : reads pair_read (pair_write s) s.
Proof.
  destruct s as [a b]. eapply reads_bind; [apply reads_ascii|].
  eapply reads_bind_last; [apply reads_ascii|]. apply reads_ret.
Qed.

#[export] Instance TestNetwork_laws : NetworkLaws TestNetwork.
Proof.
  split; cbn -[Z.le Z.lt]; intros; simp_ok; try apply reads_ascii; try apply reads_pair; try mlia; try done.
  - by case_bool_decide; simplify_eq.
  - apply bool_decide_eq_true. done.
Qed.
