(* ===== verification/Committee.v ===== *)
(** * The validator committee

    [Committee<N>] of snarkVM/ledger/committee: stake bookkeeping, the
    availability and quorum thresholds, leader election and the byte
    encoding. *)

From S2P Require Import Prelude Bytes Network.

Definition MIN_VALIDATOR_STAKE : Z := 10000000000000.

Section Committee.
Context `{N : Network}.

(** [(stake, is_open, commission)]. *)
Definition member_state : Type := Z * bool * Z.
Definition stake_of (m : member_state) : Z := m.1.1.
Definition commission_of (m : member_state) : Z := m.2.

Record Committee := mk_committee {
  committee_id : Field;
  starting_round : Z;
  members : list (Address * member_state);
  total_stake : Z;
}.

(** [Committee::max_committee_size]. *)
Definition max_committee_size : Z := LATEST_MAX_CERTIFICATES.

(** [Committee::compute_total_stake]. *)
Definition compute_total_stake (ms : list (Address * member_state)) : result Z :=
  foldM (fun power p =>
           ok_or "Failed to calculate total stake - overflow detected"
             (u64_checked_add power (stake_of p.2))) 0 ms.

(** One member, as the committee ID preimage and [write_le] write it. *)
Definition write_member (p : Address * member_state) : list Z :=
  let '(address, (stake, is_open, commission)) := p in
  write_address address ++ write_u64 stake ++ write_bool is_open ++ write_u8 commission.

(** [Committee::compute_committee_id]. *)
Definition compute_committee_id (starting_round : Z) (ms : list (Address * member_state))
    (total_stake : Z) : result Field :=
  n ← try_u16 (len ms);
  hash_bhp1024 (write_u64 starting_round ++ write_u16 n ++ (ms ≫= write_member)
                ++ write_u64 total_stake).

(** [Committee::new]. *)
Definition committee_new (starting_round : Z) (ms : list (Address * member_state))
    : result Committee :=
  _ ← ensure (bool_decide (3 <= len ms)) "Committee must have at least 3 members";
  _ ← ensure (bool_decide (len ms <= max_committee_size)) "Committee must have no more than {} members";
  _ ← ensure (forallb (fun p => bool_decide (MIN_VALIDATOR_STAKE <= stake_of p.2)) ms)
        "All members must have at least {MIN_VALIDATOR_STAKE} microcredits in stake";
  _ ← ensure (forallb (fun p => bool_decide (commission_of p.2 <= 100)) ms)
        "All members must have a commission percentage less than or equal to 100";
  total_stake ← compute_total_stake ms;
  id ← compute_committee_id starting_round ms total_stake;
  Ok (mk_committee id starting_round ms total_stake).

(** [Committee::new_genesis]. *)
Definition committee_new_genesis (ms : list (Address * member_state)) : result Committee :=
  committee_new 0 ms.

(** [Committee::num_members]. *)
Definition num_members (c : Committee) : Z := len (members c).
(** [Committee::is_committee_member]. *)
Definition is_committee_member (c : Committee) (a : Address) : bool :=
  imap_contains a (members c).
(** [Committee::is_committee_member_open]. *)
Definition is_committee_member_open (c : Committee) (a : Address) : bool :=
  (default (0, false, 0) (imap_get a (members c))).1.2.
(** [Committee::get_stake]. *)
Definition get_stake (c : Committee) (a : Address) : Z :=
  (default (0, false, 0) (imap_get a (members c))).1.1.

(** [Committee::availability_threshold]. *)
Definition availability_threshold (c : Committee) : Z :=
  u64_saturating_add (total_stake c) 2 `div` 3.
(** [Committee::quorum_threshold]. *)
Definition quorum_threshold (c : Committee) : Z :=
  u64_saturating_add (u64_saturating_mul (total_stake c) 2 `div` 3) 1.

(** The stake of the given addresses, accumulated as the threshold checks do. *)
Definition accumulated_stake (c : Committee) (addresses : gset Address) : Z :=
  foldl (fun stake a => u64_saturating_add stake (get_stake c a)) 0 (elements addresses).

(** [Committee::is_availability_threshold_reached]. *)
Definition is_availability_threshold_reached (c : Committee) (addresses : gset Address) : bool :=
  bool_decide (availability_threshold c <= accumulated_stake c addresses).
(** [Committee::is_quorum_threshold_reached]. *)
Definition is_quorum_threshold_reached (c : Committee) (addresses : gset Address) : bool :=
  bool_decide (quorum_threshold c <= accumulated_stake c addresses).

(** [address2.to_x_coordinate().cmp(&address1.to_x_coordinate())]. *)
Definition x_ge (p q : Address * member_state) : Prop :=
  to_x_coordinate q.1 <= to_x_coordinate p.1.
#[export] Instance x_ge_dec : RelDecision x_ge :=
  fun p q => decide (to_x_coordinate q.1 <= to_x_coordinate p.1).

(** [Committee::sorted_members]. *)
Definition sorted_members (c : Committee) : list (Address * member_state) :=
  merge_sort x_ge (members c).

(** The candidate loop of [Committee::get_leader]. *)
Fixpoint find_leader (stake_index current_stake_index : Z)
    (candidates : list (Address * member_state)) : option Address :=
  match candidates with
  | [] => None
  | (candidate, m) :: candidates =>
      let current_stake_index := u64_saturating_add current_stake_index (stake_of m) in
      if decide (stake_index <= current_stake_index) then Some candidate
      else find_leader stake_index current_stake_index candidates
  end.

(** [Committee::get_leader]. *)
Definition get_leader (c : Committee) (current_round : Z) : result Address :=
  _ ← ensure (bool_decide (starting_round c <= current_round))
        "Current round must be at least the starting round";
  output ← hash_round_to_u64 current_round;
  (if decide (total_stake c = 0)
   then Panic "attempt to calculate the remainder with a divisor of zero"
   else unwrap "called `Option::unwrap()` on a `None` value"
          (find_leader (output mod total_stake c) 0 (sorted_members c))).

(** [ToBytes for Committee]. *)
Definition write_committee (c : Committee) : result (list Z) :=
  n ← try_u16 (len (members c));
  Ok (write_u8 1 ++ write_field (committee_id c) ++ write_u64 (starting_round c)
      ++ write_u16 n ++ (members c ≫= write_member) ++ write_u64 (total_stake c)).

(** The closure that reads one member chunk. *)
Definition read_member : reader (Address * member_state) :=
  read address ⇐ read_address;
  read stake ⇐ read_u64;
  read is_open ⇐ read_bool;
  read commission ⇐ read_u8;
  rret (address, (stake, is_open, commission)).

(** [FromBytes for Committee]. *)
Definition read_committee : reader Committee :=
  read version ⇐ read_u8;
  if negb (bool_decide (version = 1)) then rfail "Invalid committee version" else
  read id ⇐ read_field;
  read starting_round ⇐ read_u64;
  read num_members ⇐ read_u16;
  if bool_decide (max_committee_size < num_members)
  then rfail "Committee cannot exceed {} members, found {num_members}" else
  read entries ⇐ read_chunks num_members (address_size_in_bytes + 8 + 1 + 1) read_member;
  let ms := imap_of_list entries in
  read total ⇐ read_u64;
  read committee ⇐ rlift (committee_new starting_round ms);
  if negb (bool_decide (committee_id committee = id))
  then rfail "Invalid committee ID during deserialization" else
  if bool_decide (total_stake committee = total) then rret committee
  else rfail "Invalid total stake in committee during deserialization".

(** ** The committee invariant *)

(** What [Committee::new] checks, together with the key uniqueness of the
    [IndexMap] and the width of the integers. *)
Record committee_wf (c : Committee) : Prop := {
  cwf_nodup : NoDup (members c).*1;
  cwf_size : 3 <= len (members c) <= max_committee_size;
  cwf_stake p : p ∈ members c -> MIN_VALIDATOR_STAKE <= stake_of p.2 <= u64_max;
  cwf_commission p : p ∈ members c -> 0 <= commission_of p.2 <= 100;
  cwf_total : total_stake c = sumZ ((fun p => stake_of p.2) <$> members c);
  cwf_total_max : total_stake c <= u64_max;
  cwf_round : is_u64 (starting_round c);
  cwf_id : compute_committee_id (starting_round c) (members c) (total_stake c)
           = Ok (committee_id c);
}.

Lemma compute_total_stake_Ok ms acc t :
  foldM (fun power (p : Address * member_state) =>
           ok_or "Failed to calculate total stake - overflow detected"
             (u64_checked_add power (stake_of p.2))) acc ms = Ok t ->
  acc <= u64_max ->
  t = acc + sumZ ((fun p => stake_of p.2) <$> ms) /\ t <= u64_max.
Proof.
  revert acc. induction ms as [|p ms IH]; intros acc H Hacc; cbn in *; simp_ok.
  - unfold sumZ; cbn. lia.
  - unfold u64_checked_add in *. case_decide; simplify_eq.
    apply IH in H as [-> ?]; [|lia]. unfold sumZ in *; cbn. lia.
Qed.

(** [Committee::new] establishes the invariant. *)
Lemma committee_new_wf r ms c :
  NoDup ms.*1 -> is_u64 r ->
  (forall p, p ∈ ms -> stake_of p.2 <= u64_max /\ 0 <= commission_of p.2) ->
  committee_new r ms = Ok c ->
  committee_wf c /\ members c = ms /\ starting_round c = r.
Proof.
  intros Hnd Hr Hms H. unfold committee_new, compute_total_stake in H. simp_ok.
  repeat match goal with
  | H : bool_decide _ = true |- _ => apply bool_decide_eq_true in H
  end.
  match goal with H : foldM _ _ _ = _ |- _ =>
    apply compute_total_stake_Ok in H as [Htot ?]; [|mlia] end.
  rewrite Z.add_0_l in Htot.
  split; [|done]. split; cbn; try done.
  - intros p Hp. split; [|by apply Hms].
    match goal with H : forallb (fun p => bool_decide (MIN_VALIDATOR_STAKE <= _)) _ = true |- _ =>
      rewrite forallb_forall in H; specialize (H p ltac:(by apply list_elem_of_In)) end.
    by eapply bool_decide_eq_true_1.
  - intros p Hp. split; [by apply Hms|].
    match goal with H : forallb (fun p => bool_decide (_ <= 100)) _ = true |- _ =>
      rewrite forallb_forall in H; specialize (H p ltac:(by apply list_elem_of_In)) end.
    by eapply bool_decide_eq_true_1.
Qed.

(** ** Stake arithmetic *)

(** The stake of a set of addresses, without machine bounds. *)
Definition set_stake (c : Committee) (s : gset Address) : Z :=
  sumZ (get_stake c <$> elements s).

(** The largest stake the protocol tolerates to be faulty: [N = 3f + 1 + k]. *)
Definition faulty_stake (c : Committee) : Z := (total_stake c - 1) `div` 3.

Lemma get_stake_member c p : committee_wf c -> p ∈ members c -> get_stake c p.1 = stake_of p.2.
Proof.
  intros Hc Hp. unfold get_stake. destruct p as [a m]; cbn.
  apply imap_get_NoDup in Hp; [|apply Hc]. by rewrite Hp.
Qed.

Lemma get_stake_nonmember c a : is_committee_member c a = false -> get_stake c a = 0.
Proof.
  unfold is_committee_member, get_stake, imap_contains. intros H%bool_decide_eq_false.
  by apply eq_None_not_Some in H as ->.
Qed.

Lemma get_stake_nonneg c a : committee_wf c -> 0 <= get_stake c a.
Proof.
  intros Hc. unfold get_stake. destruct (imap_get a (members c)) as [m|] eqn:E; [|done].
  apply imap_get_elem in E. pose proof (cwf_stake c Hc _ E) as H. unfold stake_of in H.
  unfold MIN_VALIDATOR_STAKE in H. cbn in *. lia.
Qed.

Lemma set_stake_disj_union c s t : s ## t -> set_stake c (s ∪ t) = set_stake c s + set_stake c t.
Proof.
  intros Hd. unfold set_stake. rewrite elements_disj_union by done.
  by rewrite fmap_app, sumZ_app.
Qed.

Lemma set_stake_split c s t : set_stake c s = set_stake c (s ∩ t) + set_stake c (s ∖ t).
Proof.
  rewrite <-set_stake_disj_union by set_solver. f_equal. apply set_eq. intros a.
  destruct (decide (a ∈ t)); set_solver.
Qed.

Lemma set_stake_nonneg c s : committee_wf c -> 0 <= set_stake c s.
Proof.
  intros Hc. apply sumZ_nonneg. intros ? (a & -> & _)%list_elem_of_fmap.
  by apply get_stake_nonneg.
Qed.

Lemma set_stake_nonmembers c s :
  (forall a, a ∈ s -> is_committee_member c a = false) -> set_stake c s = 0.
Proof.
  intros H. unfold set_stake. assert (forall a, a ∈ elements s -> get_stake c a = 0) as Hz.
  { intros a Ha%elem_of_elements. by apply get_stake_nonmember, H. }
  induction (elements s) as [|a l IH]; cbn; [done|]. unfold sumZ in *. cbn.
  rewrite Hz, IH by set_solver. done.
Qed.

Lemma set_stake_all c :
  committee_wf c -> set_stake c (list_to_set (members c).*1) = total_stake c.
Proof.
  intros Hc. rewrite (cwf_total c Hc). unfold set_stake.
  rewrite elements_list_to_set by apply Hc. f_equal. rewrite <-list_fmap_compose.
  apply list_fmap_ext. intros i p Hp. cbn. apply get_stake_member; [done|].
  by eapply list_elem_of_lookup_2.
Qed.

Lemma set_stake_le_total c s : committee_wf c -> set_stake c s <= total_stake c.
Proof.
  intros Hc. set (M := list_to_set (members c).*1 : gset Address).
  assert (set_stake c (s ∖ M) = 0) as Hz.
  { apply set_stake_nonmembers. intros a Ha. unfold is_committee_member, imap_contains.
    apply bool_decide_eq_false. intros [m Hm]. apply imap_get_elem in Hm.
    assert (a ∈ (members c).*1) by (apply list_elem_of_fmap; by exists (a, m)). set_solver. }
  pose proof (set_stake_split c s M) as Hs. pose proof (set_stake_split c M s) as HM.
  replace (M ∩ s) with (s ∩ M) in HM by set_solver.
  pose proof (set_stake_all c Hc) as Hall. fold M in Hall.
  pose proof (set_stake_nonneg c (M ∖ s) Hc). lia.
Qed.

(** The saturating accumulation never saturates. *)
Lemma accumulated_stake_exact c s : committee_wf c -> accumulated_stake c s = set_stake c s.
Proof.
  intros Hc. unfold accumulated_stake. rewrite foldl_saturating_add.
  - change (sumZ _) with (set_stake c s). pose proof (set_stake_le_total c s Hc).
    pose proof (cwf_total_max c Hc). mlia.
  - intros. by apply get_stake_nonneg.
  - mlia.
Qed.

Lemma total_stake_pos c : committee_wf c -> 0 < total_stake c.
Proof.
  intros Hc. destruct (members c) as [|p ms] eqn:E.
  { pose proof (cwf_size c Hc) as H. rewrite E in H. unfold len in H. cbn in H. lia. }
  assert (p ∈ members c) as Hp by (rewrite E; left).
  pose proof (set_stake_le_total c {[p.1]} Hc) as H. unfold set_stake in H.
  rewrite elements_singleton in H. unfold sumZ in H. cbn in H.
  rewrite (get_stake_member c p Hc Hp) in H.
  pose proof (cwf_stake c Hc p Hp). unfold MIN_VALIDATOR_STAKE in *. lia.
Qed.

(** ** Leader election *)

Lemma sorted_members_perm c : sorted_members c ≡ₚ members c.
Proof. apply merge_sort_Permutation. Qed.

(** The loop stops at the candidate whose stake interval holds the index. *)
Lemma find_leader_spec idx cur (l : list (Address * member_state)) :
  (forall p, p ∈ l -> 0 <= stake_of p.2) -> 0 <= cur ->
  cur + sumZ ((fun p => stake_of p.2) <$> l) <= u64_max ->
  idx <= cur + sumZ ((fun p => stake_of p.2) <$> l) -> l <> [] ->
  exists pre p post, l = pre ++ p :: post /\ find_leader idx cur l = Some p.1 /\
    (pre = [] \/ cur + sumZ ((fun p => stake_of p.2) <$> pre) < idx) /\
    idx <= cur + sumZ ((fun p => stake_of p.2) <$> pre) + stake_of p.2.
Proof.
  revert cur. induction l as [|[a m] l IH]; intros cur Hl Hcur Hmax Hidx Hne; [done|].
  pose proof (Hl (a, m) ltac:(left)) as Hm. cbn in *.
  assert (0 <= sumZ ((fun p => stake_of p.2) <$> l)).
  { apply sumZ_nonneg. intros ? (p & -> & ?)%list_elem_of_fmap. apply Hl. by right. }
  unfold sumZ in *; cbn in *.
  assert (u64_saturating_add cur (stake_of m) = cur + stake_of m) as -> by mlia.
  case_decide as Hd.
  - exists [], (a, m), l. cbn. split_and!; [done|done|by left|lia].
  - destruct l as [|q l']; [cbn in *; lia|].
    destruct (IH (cur + stake_of m)) as (pre & p & post & -> & -> & Hpre & Hp);
      [set_solver|lia|lia|lia|done|].
    exists ((a, m) :: pre), p, post. cbn. split_and!; [done|done| |lia].
    right. destruct Hpre as [->|?]; cbn in *; lia.
Qed.

(** ** Thresholds *)

Lemma thresholds_exact c :
  committee_wf c -> 2 * total_stake c <= u64_max ->
  quorum_threshold c = total_stake c - faulty_stake c /\
  availability_threshold c = faulty_stake c + 1.
Proof.
  intros Hc Hmax. pose proof (total_stake_pos c Hc) as Hpos.
  unfold quorum_threshold, availability_threshold, faulty_stake.
  assert (u64_saturating_mul (total_stake c) 2 = total_stake c * 2) as -> by mlia.
  assert (u64_saturating_add (total_stake c) 2 = total_stake c + 2) as -> by mlia.
  unfold u64_saturating_add. rewrite Z.min_r.
  - split; Z.to_euclidean_division_equations; lia.
  - assert ((total_stake c * 2) `div` 3 <= total_stake c); [|mlia].
    apply Z.div_le_upper_bound; lia.
Qed.

(** The quorum threshold is [N - f] and the availability threshold [f + 1],
    where [f] is the largest stake below a third of the total [N], and two
    thirds of the committee can never be faulty stake: [3f < N].  The machine
    arithmetic is exact as long as twice the total stake fits a [u64]. *)
Theorem thresholds_spec (c : Committee) :
  committee_wf c -> 2 * total_stake c <= u64_max ->
  quorum_threshold c = total_stake c - faulty_stake c /\
  availability_threshold c = faulty_stake c + 1 /\
  3 * faulty_stake c < total_stake c <= 3 * faulty_stake c + 3.
Proof.
  intros Hc Hmax. destruct (thresholds_exact c Hc Hmax) as [-> ->].
  pose proof (total_stake_pos c Hc). unfold faulty_stake.
  split_and!; Z.to_euclidean_division_equations; lia.
Qed.

(** Two quorums share more stake than can be faulty. *)
Lemma quorum_stake_intersection c s1 s2 :
  committee_wf c -> 2 * total_stake c <= u64_max ->
  is_quorum_threshold_reached c s1 = true -> is_quorum_threshold_reached c s2 = true ->
  faulty_stake c < set_stake c (s1 ∩ s2).
Proof.
  intros Hc Hmax H1 H2. unfold is_quorum_threshold_reached in *.
  rewrite !accumulated_stake_exact in * by done.
  destruct (thresholds_exact c Hc Hmax) as [Hq Ha].
  apply bool_decide_eq_true in H1, H2.
  pose proof (set_stake_split c s2 s1) as Hs2. replace (s2 ∩ s1) with (s1 ∩ s2) in Hs2 by set_solver.
  assert (set_stake c (s1 ∪ s2) = set_stake c s1 + set_stake c (s2 ∖ s1)) as Hu.
  { rewrite <-set_stake_disj_union by set_solver. f_equal. apply set_eq. intros a.
    destruct (decide (a ∈ s1)); set_solver. }
  pose proof (set_stake_le_total c (s1 ∪ s2) Hc). pose proof (total_stake_pos c Hc).
  assert (3 * faulty_stake c < total_stake c)
    by (unfold faulty_stake; Z.to_euclidean_division_equations; lia).
  lia.
Qed.

(** Quorum intersection.  Two sets of addresses that both reach the quorum
    threshold share addresses that reach the availability threshold, so they
    share more stake than can be faulty. *)
Theorem quorum_intersection (c : Committee) (s1 s2 : gset Address) :
  committee_wf c -> 2 * total_stake c <= u64_max ->
  is_quorum_threshold_reached c s1 = true -> is_quorum_threshold_reached c s2 = true ->
  is_availability_threshold_reached c (s1 ∩ s2) = true /\
  faulty_stake c < set_stake c (s1 ∩ s2).
Proof.
  intros Hc Hmax H1 H2. pose proof (quorum_stake_intersection c s1 s2 Hc Hmax H1 H2) as H.
  split; [|done]. unfold is_availability_threshold_reached. rewrite accumulated_stake_exact by done.
  destruct (thresholds_exact c Hc Hmax) as [_ Ha]. apply bool_decide_eq_true. lia.
Qed.

(** Leader election is total.  On a well-formed committee [get_leader] of a
    round at or after the starting round never panics: it returns a committee
    member, the one whose interval of the sorted cumulative stake holds the
    hashed stake index. *)
Theorem get_leader_total (c : Committee) (round h : Z) :
  committee_wf c -> starting_round c <= round -> hash_round_to_u64 round = Ok h ->
  exists pre p post, get_leader c round = Ok p.1 /\
    sorted_members c = pre ++ p :: post /\ is_committee_member c p.1 = true /\
    (pre = [] \/ sumZ ((fun p => stake_of p.2) <$> pre) < h mod total_stake c) /\
    h mod total_stake c <= sumZ ((fun p => stake_of p.2) <$> pre) + stake_of p.2.
Proof.
  intros Hc Hr Hh. pose proof (total_stake_pos c Hc) as Hpos.
  assert (sumZ ((fun p => stake_of p.2) <$> sorted_members c) = total_stake c) as Htot.
  { by rewrite sorted_members_perm, <-(cwf_total c Hc). }
  pose proof (Z.mod_pos_bound h _ Hpos) as Hidx.
  destruct (find_leader_spec (h mod total_stake c) 0 (sorted_members c))
    as (pre & p & post & Hs & Hf & Hpre & Hp).
  { intros p Hp. rewrite sorted_members_perm in Hp. pose proof (cwf_stake c Hc p Hp).
    unfold MIN_VALIDATOR_STAKE in *. lia. }
  { lia. }
  { rewrite Htot. pose proof (cwf_total_max c Hc). lia. }
  { rewrite Htot. lia. }
  { intros E. rewrite E in Htot. unfold sumZ in Htot. cbn in Htot. lia. }
  exists pre, p, post. rewrite Z.add_0_l in Hpre, Hp. split_and!; try done.
  - unfold get_leader, ensure. rewrite bool_decide_eq_true_2 by done. cbn. rewrite Hh. cbn.
    rewrite decide_False by lia. by rewrite Hf.
  - unfold is_committee_member, imap_contains. apply bool_decide_eq_true. exists p.2.
    apply imap_get_NoDup; [apply Hc|]. rewrite <-surjective_pairing, <-sorted_members_perm, Hs.
    set_solver.
Qed.

(** ** Round trip *)

Context {NL : NetworkLaws N}.

Lemma reads_member p :
  is_u64 (stake_of p.2) -> is_u8 (commission_of p.2) -> reads read_member (write_member p) p.
Proof.
  destruct p as [a [[stake o] com]]. cbn. intros Hs Hc.
  eapply reads_bind; [apply reads_address|]. eapply reads_bind; [by apply reads_u64|].
  eapply reads_bind; [apply reads_bool|]. eapply reads_bind_last; [by apply reads_u8|].
  apply reads_ret.
Qed.

Lemma length_write_member p : len (write_member p) = address_size_in_bytes + 8 + 1 + 1.
Proof.
  destruct p as [a [[stake o] com]]. cbn. rewrite !len_app, length_write_address.
  unfold write_bool, write_u8, write_u64, write_uint, len. rewrite !length_le_bytes. lia.
Qed.

(** [Committee::new] accepts the parts of a well-formed committee. *)
Lemma committee_new_id c : committee_wf c -> committee_new (starting_round c) (members c) = Ok c.
Proof.
  intros Hc. unfold committee_new, ensure.
  rewrite !bool_decide_eq_true_2 by apply Hc. cbn.
  assert (forallb (fun p => bool_decide (MIN_VALIDATOR_STAKE <= stake_of p.2)) (members c) = true)
    as ->.
  { apply forallb_forall. intros p Hp%list_elem_of_In. apply bool_decide_eq_true. by apply Hc. }
  assert (forallb (fun p : Address * member_state => bool_decide (commission_of p.2 <= 100)) (members c) = true)
    as ->.
  { apply forallb_forall. intros p Hp%list_elem_of_In. apply bool_decide_eq_true. by apply Hc. }
  cbn. assert (compute_total_stake (members c) = Ok (total_stake c)) as ->.
  { unfold compute_total_stake. rewrite (cwf_total c Hc).
    pose proof (cwf_total_max c Hc) as Hmax. rewrite (cwf_total c Hc) in Hmax.
    pose proof (cwf_stake c Hc) as Hst. revert Hmax Hst. clear.
    replace (sumZ _) with (0 + sumZ ((fun p => stake_of p.2) <$> members c)) by lia.
    generalize 0 as acc. induction (members c) as [|p ms IH]; intros acc Hmax Hst; cbn.
    { f_equal. unfold sumZ. cbn. lia. }
    assert (0 <= sumZ ((fun p => stake_of p.2) <$> ms)).
    { apply sumZ_nonneg. intros ? (q & -> & Hq)%list_elem_of_fmap.
      pose proof (Hst q ltac:(by right)). unfold MIN_VALIDATOR_STAKE in *. lia. }
    unfold sumZ in *. cbn in *. unfold u64_checked_add. rewrite decide_True by lia. cbn.
    rewrite IH; [f_equal; lia|lia|set_solver]. }
  cbn. rewrite (cwf_id c Hc). cbn. by destruct c.
Qed.

(** A committee read back from its own encoding is the same committee, and
    the bytes that follow are left alone. *)
Theorem committee_round_trip (c : Committee) (bs rest : list Z) :
  committee_wf c -> write_committee c = Ok bs -> read_committee (bs ++ rest) = Ok (c, rest).
Proof.
  intros Hc Hw. revert rest. change (reads read_committee bs c).
  unfold write_committee in Hw. simp_ok.
  match goal with H : try_u16 _ = _ |- _ => apply try_u16_Ok in H as [-> Hn] end.
  pose proof (cwf_size c Hc). pose proof (cwf_total_max c Hc). pose proof (total_stake_pos c Hc).
  eapply reads_bind; [apply reads_u8; mlia|]. cbn [negb bool_decide decide].
  eapply reads_bind; [apply reads_field|]. eapply reads_bind; [apply reads_u64, Hc|].
  eapply reads_bind; [by apply reads_u16, is_u16_len|].
  rewrite bool_decide_eq_false_2 by lia.
  eapply reads_bind.
  { apply reads_chunks; [pose proof address_size_pos; lia|intros; apply length_write_member|].
    intros p Hp. pose proof (cwf_stake c Hc p Hp). pose proof (cwf_commission c Hc p Hp).
    unfold MIN_VALIDATOR_STAKE in *. apply reads_member; mlia. }
  eapply reads_bind_last; [apply reads_u64; mlia|].
  eapply reads_bind_last; [apply reads_lift; rewrite imap_of_list_id by apply Hc;
    by apply committee_new_id|].
  rewrite !bool_decide_eq_true_2 by done. apply reads_ret.
Qed.

End Committee.

(** ** A sample committee *)

Definition sample_members : list (ascii * (Z * bool * Z)) :=
  [("a"%char, (MIN_VALIDATOR_STAKE, true, 0)); ("b"%char, (2 * MIN_VALIDATOR_STAKE, true, 10));
   ("c"%char, (MIN_VALIDATOR_STAKE, false, 100)); ("d"%char, (3 * MIN_VALIDATOR_STAKE, true, 5))].

Definition sample_committee : Committee :=
  mk_committee (N := TestNetwork) (sum_hash (write_u64 2 ++ write_u16 4
    ++ (sample_members ≫= write_member (N := TestNetwork)) ++ write_u64 (7 * MIN_VALIDATOR_STAKE)))
    2 sample_members (7 * MIN_VALIDATOR_STAKE).

Lemma sample_committee_new : committee_new (N := TestNetwork) 2 sample_members = Ok sample_committee.
Proof. vm_refl. Qed.

Lemma sample_committee_wf : committee_wf sample_committee.
Proof.
  refine (proj1 (committee_new_wf 2 sample_members _ _ _ _ sample_committee_new)).
  - apply (bool_decide_unpack _). by vm_compute.
  - mlia.
  - apply Forall_forall. apply (bool_decide_unpack _). by vm_compute.
Qed.

Lemma thresholds_spec_witness :
  2 * total_stake sample_committee <= u64_max /\
  quorum_threshold sample_committee = total_stake sample_committee - faulty_stake sample_committee.
Proof.
  split; [by vm_compute|].
  exact (proj1 (thresholds_spec sample_committee sample_committee_wf ltac:(by vm_compute))).
Defined.

Lemma quorum_intersection_witness :
  faulty_stake sample_committee < set_stake sample_committee
    (({["a"; "b"; "d"]} : gset (Address (Network := TestNetwork)))%char
     ∩ {["b"; "c"; "d"]}%char).
Proof.
  exact (proj2 (quorum_intersection sample_committee {["a"; "b"; "d"]}%char {["b"; "c"; "d"]}%char
    sample_committee_wf ltac:(by vm_compute) ltac:(by vm_compute) ltac:(by vm_compute))).
Defined.

Lemma get_leader_total_witness :
  exists a, get_leader sample_committee 6 = Ok a.
Proof.
  destruct (get_leader_total sample_committee 6 (u64_wrap (6 * 6364136223846793005))
    sample_committee_wf ltac:(by vm_compute) ltac:(vm_refl)) as (? & p & ? & H & _).
  exists p.1. exact H.
Defined.

Lemma committee_round_trip_witness :
  exists bs, write_committee sample_committee = Ok bs /\
    read_committee (bs ++ [7]) = Ok (sample_committee, [7]).
Proof.
  exists (unwrap_or [] (write_committee sample_committee)). split; [vm_refl|].
  apply (committee_round_trip sample_committee _ [7] sample_committee_wf). vm_refl.
Defined.
