(* ===== verification/Narwhal.v ===== *)
(** * Narwhal data

    The messages the memory pool is made of (snarkVM/ledger/narwhal):
    transmission IDs, transmissions, batch headers and batch certificates,
    with their constructors' checks and their byte encodings. *)

From S2P Require Import Prelude Bytes Network.

(** [BatchHeader::MAX_GC_ROUNDS] and [BatchHeader::MAX_TRANSMISSIONS_PER_BATCH]. *)
Definition MAX_GC_ROUNDS : Z := 100.
Definition MAX_TRANSMISSIONS_PER_BATCH : Z := 50.
(** [MAX_DATA_SIZE] of [Data]: 1 GB. *)
Definition MAX_DATA_SIZE : Z := 1024 * 1024 * 1024.

(** [Data<T>]: an object, or the bytes of one. *)
Inductive Data (T : Type) : Type :=
| Object (x : T)
| Buffer (bytes : list Z).
Arguments Object {_} _.
Arguments Buffer {_} _.

#[export] Instance Data_eq_dec `{EqDecision T} : EqDecision (Data T).
Proof. solve_decision. Defined.

Section Narwhal.
Context `{N : Network}.

(** ** Data *)

(** The bytes of the content, as [write_le] and [to_checksum] see them. *)
Definition data_bytes {T} (w : T -> list Z) (d : Data T) : list Z :=
  match d with
  | Object x => w x
  | Buffer bytes => bytes
  end.

(** [ToBytes for Data]. *)
Definition write_data {T} (w : T -> list Z) (d : Data T) : result (list Z) :=
  n ← try_u32 (len (data_bytes w d));
  Ok (write_u8 1 ++ write_u32 n ++ data_bytes w d).

(** [FromBytes for Data]: always a [Buffer]. *)
Definition read_data {T} : reader (Data T) :=
  read version ⇐ read_u8;
  if negb (bool_decide (version = 1)) then rfail "Invalid data version" else
  read num_bytes ⇐ read_u32;
  if bool_decide (MAX_DATA_SIZE < num_bytes) then rfail "Failed to deserialize data" else
  read bytes ⇐ read_up_to num_bytes;
  rret (Buffer bytes).

(** [Data::to_checksum]. *)
Definition data_to_checksum {T} (w : T -> list Z) (d : Data T) : result TransmissionChecksum :=
  bytes_to_checksum (data_bytes w d).

(** ** Transmission IDs *)

Inductive TransmissionID : Type :=
| IdRatification
| IdSolution (id : SolutionID) (checksum : TransmissionChecksum)
| IdTransaction (id : TransactionID) (checksum : TransmissionChecksum).

#[export] Instance TransmissionID_eq_dec : EqDecision TransmissionID.
Proof. solve_decision. Defined.

#[export] Instance TransmissionID_countable : Countable TransmissionID.
Proof.
  refine (inj_countable'
    (fun i => match i with
      | IdRatification => inl tt
      | IdSolution i c => inr (inl (i, c))
      | IdTransaction i c => inr (inr (i, c))
      end)
    (fun s => match s with
      | inl _ => IdRatification
      | inr (inl (i, c)) => IdSolution i c
      | inr (inr (i, c)) => IdTransaction i c
      end) _).
  by intros [].
Defined.

(** [TransmissionID::solution], [::transaction] and [::checksum]. *)
Definition tid_solution (i : TransmissionID) : option SolutionID :=
  match i with IdSolution id _ => Some id | _ => None end.
Definition tid_transaction (i : TransmissionID) : option TransactionID :=
  match i with IdTransaction id _ => Some id | _ => None end.
Definition tid_checksum (i : TransmissionID) : option TransmissionChecksum :=
  match i with
  | IdRatification => None
  | IdSolution _ c => Some c
  | IdTransaction _ c => Some c
  end.

(** [ToBytes for TransmissionID]. *)
Definition write_transmission_id (i : TransmissionID) : list Z :=
  match i with
  | IdRatification => write_u8 0
  | IdSolution id c => write_u8 1 ++ write_solution_id id ++ write_checksum c
  | IdTransaction id c => write_u8 2 ++ write_transaction_id id ++ write_checksum c
  end.

(** [FromBytes for TransmissionID]. *)
Definition read_transmission_id : reader TransmissionID :=
  read variant ⇐ read_u8;
  if decide (variant = 0) then rret IdRatification else
  if decide (variant = 1) then
    read id ⇐ read_solution_id; read c ⇐ read_checksum; rret (IdSolution id c) else
  if decide (variant = 2) then
    read id ⇐ read_transaction_id; read c ⇐ read_checksum; rret (IdTransaction id c)
  else rfail "Invalid worker transmission ID variant".

(** ** Transmissions *)

Inductive Transmission : Type :=
| Ratification
| TSolution (solution : Data Solution)
| TTransaction (transaction : Data Transaction).

#[export] Instance Transmission_eq_dec : EqDecision Transmission.
Proof. solve_decision. Defined.

(** [Transmission::to_checksum]. *)
Definition transmission_to_checksum (t : Transmission) : result (option TransmissionChecksum) :=
  match t with
  | Ratification => Ok None
  | TSolution d => c ← data_to_checksum write_solution d; Ok (Some c)
  | TTransaction d => c ← data_to_checksum write_transaction d; Ok (Some c)
  end.

(** [ToBytes for Transmission]. *)
Definition write_transmission (t : Transmission) : result (list Z) :=
  match t with
  | Ratification => Ok (write_u8 1 ++ write_u8 0)
  | TSolution d => bs ← write_data write_solution d; Ok (write_u8 1 ++ write_u8 1 ++ bs)
  | TTransaction d => bs ← write_data write_transaction d; Ok (write_u8 1 ++ write_u8 2 ++ bs)
  end.

(** [FromBytes for Transmission]. *)
Definition read_transmission : reader Transmission :=
  read version ⇐ read_u8;
  if negb (bool_decide (version = 1)) then rfail "Invalid transmission version" else
  read variant ⇐ read_u8;
  if decide (variant = 0) then rret Ratification else
  if decide (variant = 1) then read d ⇐ read_data; rret (TSolution d) else
  if decide (variant = 2) then read d ⇐ read_data; rret (TTransaction d)
  else rfail "Invalid transmission variant".

(** ** Batch headers *)

Record BatchHeader := mk_header {
  batch_id : Field;
  h_author : Address;
  h_round : Z;
  h_timestamp : Z;
  h_committee_id : Field;
  h_transmission_ids : list TransmissionID;
  h_previous_certificate_ids : list Field;
  h_signature : Signature;
}.

#[export] Instance BatchHeader_eq_dec : EqDecision BatchHeader.
Proof. solve_decision. Defined.

(** [BatchHeader::compute_batch_id]. *)
Definition compute_batch_id (author : Address) (round timestamp : Z) (committee_id : Field)
    (transmission_ids : list TransmissionID) (previous_certificate_ids : list Field)
    : result Field :=
  n ← try_u32 (len transmission_ids);
  m ← try_u32 (len previous_certificate_ids);
  hash_bhp1024 (write_address author ++ write_u64 round ++ write_i64 timestamp
    ++ write_field committee_id ++ write_u32 n ++ (transmission_ids ≫= write_transmission_id)
    ++ write_u32 m ++ (previous_certificate_ids ≫= write_field)).

(** [BatchHeader::to_id]. *)
Definition header_to_id (h : BatchHeader) : result Field :=
  compute_batch_id (h_author h) (h_round h) (h_timestamp h) (h_committee_id h)
    (h_transmission_ids h) (h_previous_certificate_ids h).

(** The checks [BatchHeader::new] and [BatchHeader::from] start with. *)
Definition check_header_shape (round : Z) (transmission_ids : list TransmissionID)
    (previous_certificate_ids : list Field) : result unit :=
  _ ← (if decide (round = 0 \/ round = 1) then
         ensure (bool_decide (previous_certificate_ids = []))
           "Invalid round number, must not have certificates"
       else
         ensure (bool_decide (previous_certificate_ids <> []))
           "Invalid round number, must have certificates");
  _ ← ensure (bool_decide (len transmission_ids <= MAX_TRANSMISSIONS_PER_BATCH))
        "Invalid number of transmission IDs";
  ensure (bool_decide (len previous_certificate_ids <= LATEST_MAX_CERTIFICATES))
    "Invalid number of previous certificate IDs".

(** [BatchHeader::new]. *)
Definition header_new (private_key : PrivateKey) (round timestamp : Z) (committee_id : Field)
    (transmission_ids : list TransmissionID) (previous_certificate_ids : list Field) (rng : Z)
    : result BatchHeader :=
  _ ← check_header_shape round transmission_ids previous_certificate_ids;
  author ← key_address private_key;
  id ← compute_batch_id author round timestamp committee_id transmission_ids
         previous_certificate_ids;
  signature ← sign private_key id rng;
  Ok (mk_header id author round timestamp committee_id transmission_ids
        previous_certificate_ids signature).

(** [BatchHeader::from]. *)
Definition header_from (author : Address) (round timestamp : Z) (committee_id : Field)
    (transmission_ids : list TransmissionID) (previous_certificate_ids : list Field)
    (signature : Signature) : result BatchHeader :=
  _ ← check_header_shape round transmission_ids previous_certificate_ids;
  id ← compute_batch_id author round timestamp committee_id transmission_ids
         previous_certificate_ids;
  if verify signature author id then
    Ok (mk_header id author round timestamp committee_id transmission_ids
          previous_certificate_ids signature)
  else Err "Invalid signature for the batch header".

(** [ToBytes for BatchHeader]. *)
Definition write_header (h : BatchHeader) : result (list Z) :=
  n ← try_u32 (len (h_transmission_ids h));
  m ← try_u16 (len (h_previous_certificate_ids h));
  Ok (write_u8 1 ++ write_field (batch_id h) ++ write_address (h_author h)
      ++ write_u64 (h_round h) ++ write_i64 (h_timestamp h) ++ write_field (h_committee_id h)
      ++ write_u32 n ++ (h_transmission_ids h ≫= write_transmission_id)
      ++ write_u16 m ++ (h_previous_certificate_ids h ≫= write_field)
      ++ write_signature (h_signature h)).

(** [BatchHeader::read_le_with_unchecked]. *)
Definition read_header (unchecked : bool) : reader BatchHeader :=
  read version ⇐ read_u8;
  if negb (bool_decide (version = 1)) then rfail "Invalid batch header version" else
  read bid ⇐ read_field;
  read author ⇐ read_address;
  read round ⇐ read_u64;
  read timestamp ⇐ read_i64;
  read committee_id ⇐ read_field;
  read num_transmission_ids ⇐ read_u32;
  if bool_decide (MAX_TRANSMISSIONS_PER_BATCH < num_transmission_ids)
  then rfail "Number of transmission IDs exceeds the maximum" else
  read tids ⇐ read_many (Z.to_nat num_transmission_ids) read_transmission_id;
  let transmission_ids := iset_of_list id tids in
  read num_previous_certificate_ids ⇐ read_u16;
  if bool_decide (LATEST_MAX_CERTIFICATES < num_previous_certificate_ids)
  then rfail "Number of previous certificate IDs exceeds the maximum." else
  read pids ⇐ read_chunks num_previous_certificate_ids field_size_in_bytes read_field;
  let previous_certificate_ids := iset_of_list id pids in
  read signature ⇐ read_signature unchecked;
  read batch ⇐ rlift (if unchecked : bool then
      Ok (mk_header bid author round timestamp committee_id transmission_ids
            previous_certificate_ids signature)
    else header_from author round timestamp committee_id transmission_ids
           previous_certificate_ids signature);
  if bool_decide (batch_id batch = bid) then rret batch else rfail "Invalid batch ID".

(** ** Batch certificates *)

Record BatchCertificate := mk_certificate {
  batch_header : BatchHeader;
  signatures : list Signature;
}.

#[export] Instance BatchCertificate_eq_dec : EqDecision BatchCertificate.
Proof. solve_decision. Defined.

(** Accessors of [BatchCertificate]; the certificate ID is the batch ID. *)
Definition cert_id (c : BatchCertificate) : Field := batch_id (batch_header c).
Definition author (c : BatchCertificate) : Address := h_author (batch_header c).
Definition round (c : BatchCertificate) : Z := h_round (batch_header c).
Definition timestamp (c : BatchCertificate) : Z := h_timestamp (batch_header c).
Definition transmission_ids (c : BatchCertificate) : list TransmissionID :=
  h_transmission_ids (batch_header c).
Definition previous_certificate_ids (c : BatchCertificate) : list Field :=
  h_previous_certificate_ids (batch_header c).

(** [PartialEq for BatchCertificate] compares the batch IDs only. *)
Definition cert_eqb (c d : BatchCertificate) : bool := bool_decide (cert_id c = cert_id d).

(** [BatchCertificate::max_signatures]. *)
Definition max_signatures : Z := LATEST_MAX_CERTIFICATES.

(** [BatchCertificate::from_unchecked]. *)
Definition certificate_from_unchecked (h : BatchHeader) (sigs : list Signature)
    : result BatchCertificate :=
  _ ← ensure (bool_decide (sigs <> [])) "Batch certificate must contain signatures";
  Ok (mk_certificate h sigs).

(** [BatchCertificate::from]. *)
Definition certificate_from (h : BatchHeader) (sigs : list Signature) : result BatchCertificate :=
  _ ← ensure (bool_decide (len sigs <= max_signatures)) "Invalid number of signatures";
  let signature_authors : gset Address := list_to_set (to_address <$> sigs) in
  _ ← ensure (bool_decide (h_author h ∉ signature_authors))
        "The author's signature was included in the signers";
  _ ← ensure (bool_decide (Z.of_nat (size signature_authors) = len sigs))
        "A duplicate author was found in the set of signatures";
  _ ← ensure (forallb (fun s => verify s (to_address s) (batch_id h)) sigs)
        "Invalid batch certificate signature";
  certificate_from_unchecked h sigs.

(** [BatchCertificate::read_signatures]. *)
Definition read_signatures (unchecked : bool) : reader (list Signature) :=
  read num_signatures ⇐ read_u16;
  if bool_decide (max_signatures < num_signatures)
  then rfail "Number of signatures exceeds the maximum" else
  read sigs ⇐ read_chunks num_signatures signature_size_in_bytes (read_signature unchecked);
  rret (iset_of_list id sigs).

(** [FromBytes for BatchCertificate]: [read_le] and [read_le_unchecked]. *)
Definition read_certificate (unchecked : bool) : reader BatchCertificate :=
  read version ⇐ read_u8;
  if negb (bool_decide (version = 1)) then rfail "Invalid batch certificate version" else
  read h ⇐ read_header unchecked;
  read sigs ⇐ read_signatures unchecked;
  rlift (if unchecked : bool then certificate_from_unchecked h sigs else certificate_from h sigs).

(** [ToBytes for BatchCertificate]. *)
Definition write_certificate (c : BatchCertificate) : result (list Z) :=
  h ← write_header (batch_header c);
  n ← try_u16 (len (signatures c));
  Ok (write_u8 1 ++ h ++ write_u16 n ++ (signatures c ≫= write_signature)).

(** ** Invariants of the checked constructors *)

(** The containers have no duplicates and the integers fit their types: what
    the Rust types give a header before any check. *)
Record header_typed (h : BatchHeader) : Prop := {
  ht_round : is_u64 (h_round h);
  ht_timestamp : is_i64 (h_timestamp h);
  ht_tids : NoDup (h_transmission_ids h);
  ht_pids : NoDup (h_previous_certificate_ids h);
}.

(** What [BatchHeader::from] checks. *)
Record header_valid (h : BatchHeader) : Prop := {
  hv_id : header_to_id h = Ok (batch_id h);
  hv_signature : verify (h_signature h) (h_author h) (batch_id h) = true;
  hv_previous : h_previous_certificate_ids h = [] <-> h_round h = 0 \/ h_round h = 1;
  hv_tids : len (h_transmission_ids h) <= MAX_TRANSMISSIONS_PER_BATCH;
  hv_pids : len (h_previous_certificate_ids h) <= LATEST_MAX_CERTIFICATES;
}.

(** What [BatchCertificate::from] checks on top of its header. *)
Record certificate_valid (c : BatchCertificate) : Prop := {
  cv_nonempty : signatures c <> [];
  cv_size : len (signatures c) <= max_signatures;
  cv_signers : NoDup (author c :: (to_address <$> signatures c));
  cv_verified s : s ∈ signatures c -> verify s (to_address s) (cert_id c) = true;
}.

Lemma check_header_shape_Ok r tids pids u :
  check_header_shape r tids pids = Ok u <->
  (pids = [] <-> r = 0 \/ r = 1) /\ len tids <= MAX_TRANSMISSIONS_PER_BATCH /\
  len pids <= LATEST_MAX_CERTIFICATES.
Proof.
  unfold check_header_shape. split.
  - intros H. simp_ok. rewrite !bool_decide_eq_true in *. split_and!; try done.
    case_decide; simp_ok; rewrite !bool_decide_eq_true in *; tauto.
  - intros (H & H1 & H2). destruct u. unfold ensure.
    rewrite !(bool_decide_eq_true_2 (len _ <= _)) by done.
    case_decide; rewrite bool_decide_eq_true_2 by tauto; done.
Qed.

Lemma header_from_Ok a r t cid tids pids s h :
  header_from a r t cid tids pids s = Ok h <->
  header_valid h /\ h = mk_header (batch_id h) a r t cid tids pids s.
Proof.
  unfold header_from. split.
  - intros H. simp_ok. destruct (verify _ _ _) eqn:Hv; simp_ok. split; [|done].
    match goal with H : check_header_shape _ _ _ = _ |- _ =>
      apply check_header_shape_Ok in H as (? & ? & ?) end.
    by split.
  - intros [[Hid Hs Hp Ht Hc] Hh]. rewrite Hh in Hid, Hs, Hp, Ht, Hc. cbn in *.
    unfold header_to_id in Hid. cbn in Hid.
    rewrite (proj2 (check_header_shape_Ok r tids pids tt)) by done. cbn.
    rewrite Hid. cbn. rewrite Hs. by rewrite Hh at 2.
Qed.

Lemma certificate_from_Ok h sigs c :
  certificate_from h sigs = Ok c <-> certificate_valid c /\ c = mk_certificate h sigs.
Proof.
  unfold certificate_from, certificate_from_unchecked. split.
  - intros H. simp_ok. rewrite !bool_decide_eq_true in *. split; [|done].
    match goal with H : Z.of_nat _ = _ |- _ => unfold len in H; apply Nat2Z.inj in H as Hsz end.
    rewrite <-(length_fmap to_address) in Hsz. apply size_list_to_set_NoDup in Hsz.
    match goal with H : forallb _ _ = true |- _ => rewrite forallb_forall in H; rename H into Hv end.
    split; cbn; try done.
    + constructor; [set_solver|done].
    + intros s Hs. by apply Hv, list_elem_of_In.
  - intros [[Hne Hsz Hnd Hv] ->]. cbn in *. unfold author in Hnd. cbn in Hnd.
    apply NoDup_cons in Hnd as [Ha Hnd].
    rewrite !ensure_bind; [done|..]; try apply bool_decide_eq_true; try done.
    + apply forallb_forall. intros s Hs%list_elem_of_In. by apply Hv.
    + unfold len. f_equal. apply size_list_to_set_NoDup in Hnd. by rewrite Hnd, length_fmap.
    + by rewrite elem_of_list_to_set.
Qed.

(** ** Round trips and the checks of the readers *)

Section Codec.
Context {NL : NetworkLaws N}.

Lemma reads_transmission_id i : reads read_transmission_id (write_transmission_id i) i.
Proof.
  destruct i as [|i c|i c]; cbn [write_transmission_id].
  - eapply reads_bind_last; [apply reads_u8; mlia|]. apply reads_ret.
  - eapply reads_bind; [apply reads_u8; mlia|]. rewrite decide_False, decide_True by done.
    eapply reads_bind; [apply reads_solution_id|].
    eapply reads_bind_last; [apply reads_checksum|]. apply reads_ret.
  - eapply reads_bind; [apply reads_u8; mlia|]. rewrite !decide_False, decide_True by done.
    eapply reads_bind; [apply reads_transaction_id|].
    eapply reads_bind_last; [apply reads_checksum|]. apply reads_ret.
Qed.

(** Reading what [write_data] wrote gives the same content, as a buffer. *)
Lemma reads_data {T} (w : T -> list Z) d bs :
  write_data w d = Ok bs -> len (data_bytes w d) <= MAX_DATA_SIZE ->
  reads read_data bs (Buffer (T := T) (data_bytes w d)).
Proof.
  unfold write_data. intros H Hmax. simp_ok.
  match goal with H : try_u32 _ = _ |- _ => apply try_u32_Ok in H as [-> Hn] end.
  eapply reads_bind; [apply reads_u8; mlia|]. rewrite bool_decide_eq_true_2 by done. cbn [negb].
  eapply reads_bind; [by apply reads_u32, is_u32_len|]. rewrite bool_decide_eq_false_2 by lia.
  eapply reads_bind_last; [apply reads_up_to_app|]. apply reads_ret.
Qed.

(** What a transmission is after it was written and read: its data is a buffer. *)
Definition as_read (t : Transmission) : Transmission :=
  match t with
  | Ratification => Ratification
  | TSolution d => TSolution (Buffer (data_bytes write_solution d))
  | TTransaction d => TTransaction (Buffer (data_bytes write_transaction d))
  end.

(** The data is not larger than the reader allows. *)
Definition transmission_fits (t : Transmission) : Prop :=
  match t with
  | Ratification => True
  | TSolution d => len (data_bytes write_solution d) <= MAX_DATA_SIZE
  | TTransaction d => len (data_bytes write_transaction d) <= MAX_DATA_SIZE
  end.

Lemma reads_transmission t bs :
  transmission_fits t -> write_transmission t = Ok bs -> reads read_transmission bs (as_read t).
Proof.
  intros Hfit Hw. destruct t as [|d|d]; cbn in Hw, Hfit; simp_ok; unfold read_transmission.
  - eapply reads_bind; [apply reads_u8; mlia|]. cbn [negb bool_decide].
    eapply reads_bind_last; [apply reads_u8; mlia|]. apply reads_ret.
  - eapply reads_bind; [apply reads_u8; mlia|]. eapply reads_bind; [apply reads_u8; mlia|].
    rewrite decide_False, decide_True by done.
    eapply reads_bind_last; [by eapply reads_data|]. apply reads_ret.
  - eapply reads_bind; [apply reads_u8; mlia|]. eapply reads_bind; [apply reads_u8; mlia|].
    rewrite !decide_False, decide_True by done.
    eapply reads_bind_last; [by eapply reads_data|]. apply reads_ret.
Qed.

Lemma reads_header (unchecked : bool) h bs :
  header_typed h -> header_valid h -> write_header h = Ok bs ->
  reads (read_header unchecked) bs h.
Proof.
  intros [Hr Ht Htids Hpids] Hv Hw. unfold write_header in Hw. simp_ok.
  match goal with H : try_u32 _ = _ |- _ => apply try_u32_Ok in H as [-> Hn] end.
  match goal with H : try_u16 _ = _ |- _ => apply try_u16_Ok in H as [-> Hm] end.
  pose proof (hv_tids h Hv). pose proof (hv_pids h Hv).
  eapply reads_bind; [apply reads_u8; mlia|]. rewrite bool_decide_eq_true_2 by done. cbn [negb].
  eapply reads_bind; [apply reads_field|]. eapply reads_bind; [apply reads_address|].
  eapply reads_bind; [by apply reads_u64|]. eapply reads_bind; [by apply reads_i64|].
  eapply reads_bind; [apply reads_field|].
  eapply reads_bind; [by apply reads_u32, is_u32_len|]. rewrite bool_decide_eq_false_2 by lia.
  eapply reads_bind.
  { unfold len. rewrite Nat2Z.id. apply reads_many. intros. apply reads_transmission_id. }
  rewrite iset_of_list_id by (by rewrite list_fmap_id).
  eapply reads_bind; [by apply reads_u16, is_u16_len|]. rewrite bool_decide_eq_false_2 by lia.
  eapply reads_bind.
  { apply reads_chunks; [apply field_size_pos|intros; apply length_write_field|].
    intros. apply reads_field. }
  rewrite iset_of_list_id by (by rewrite list_fmap_id).
  eapply reads_bind_last; [apply reads_signature|].
  eapply reads_bind_last.
  { apply reads_lift. instantiate (1 := h). destruct unchecked; [by destruct h|].
    apply header_from_Ok. split; [done|]. by destruct h. }
  rewrite bool_decide_eq_true_2 by done. apply reads_ret.
Qed.

Lemma reads_signatures unchecked sigs n :
  NoDup sigs -> len sigs <= max_signatures -> try_u16 (len sigs) = Ok n ->
  reads (read_signatures unchecked) (write_u16 n ++ (sigs ≫= write_signature)) sigs.
Proof.
  intros Hnd Hmax [-> Hn]%try_u16_Ok.
  eapply reads_bind; [by apply reads_u16, is_u16_len|]. rewrite bool_decide_eq_false_2 by lia.
  eapply reads_bind_last.
  { apply reads_chunks; [apply signature_size_pos|intros; apply length_write_signature|].
    intros. apply reads_signature. }
  rewrite iset_of_list_id by (by rewrite list_fmap_id). apply reads_ret.
Qed.

Lemma certificate_signatures_NoDup c : certificate_valid c -> NoDup (signatures c).
Proof.
  intros [_ _ Hnd _]. apply NoDup_cons in Hnd as [_ Hnd]. by apply NoDup_fmap_1 in Hnd.
Qed.

Lemma reads_certificate (unchecked : bool) c bs :
  header_typed (batch_header c) -> header_valid (batch_header c) -> certificate_valid c ->
  write_certificate c = Ok bs -> reads (read_certificate unchecked) bs c.
Proof.
  intros Ht Hh Hc Hw. unfold write_certificate in Hw. simp_ok.
  eapply reads_bind; [apply reads_u8; mlia|]. rewrite bool_decide_eq_true_2 by done. cbn [negb].
  eapply reads_bind; [by eapply reads_header|].
  eapply reads_bind_last.
  { apply reads_signatures; [by apply certificate_signatures_NoDup|apply Hc|done]. }
  apply reads_lift. destruct unchecked.
  - unfold certificate_from_unchecked. rewrite ensure_bind; [by destruct c|].
    apply bool_decide_eq_true, Hc.
  - apply certificate_from_Ok. split; [done|]. by destruct c.
Qed.

(** A batch header read back from its own encoding is the same header, in
    the checked and in the unchecked mode, and the bytes that follow are left
    alone. *)
Theorem header_round_trip (unchecked : bool) (h : BatchHeader) (bs rest : list Z) :
  header_typed h -> header_valid h -> write_header h = Ok bs ->
  read_header unchecked (bs ++ rest) = Ok (h, rest).
Proof. intros. by apply reads_header. Qed.

(** A batch certificate read back from its own encoding is the same
    certificate, in the checked and in the unchecked mode, and the bytes that
    follow are left alone. *)
Theorem certificate_round_trip (unchecked : bool) (c : BatchCertificate) (bs rest : list Z) :
  header_typed (batch_header c) -> header_valid (batch_header c) -> certificate_valid c ->
  write_certificate c = Ok bs -> read_certificate unchecked (bs ++ rest) = Ok (c, rest).
Proof. intros. by apply reads_certificate. Qed.

(** The checked certificate reader accepts untrusted bytes only when they
    hold a certificate whose batch ID is the hash of its content, which its
    author has signed, with previous certificates exactly from round 2 on,
    and whose endorsements are valid and by distinct signers other than the
    author. *)
Theorem read_certificate_sound (bs : list Z) (c : BatchCertificate) (rest : list Z) :
  read_certificate false bs = Ok (c, rest) ->
  header_valid (batch_header c) /\ certificate_valid c /\
  to_address (h_signature (batch_header c)) = author c.
Proof.
  intros H. unfold read_certificate in H. simp_read.
  match goal with H : certificate_from _ _ = _ |- _ => apply certificate_from_Ok in H as [Hc ->] end.
  match goal with H : read_header false _ = _ |- _ => unfold read_header in H end. simp_read.
  match goal with H : header_from _ _ _ _ _ _ _ = _ |- _ => apply header_from_Ok in H as [Hh _] end.
  split_and!; [done|done|]. eapply verify_to_address, Hh.
Qed.

(** A header built by [BatchHeader::new] passes the checks of
    [BatchHeader::from]: what a validator proposes, its peers can parse. *)
Theorem header_new_accepted (k : PrivateKey) (r t : Z) (cid : Field)
    (tids : list TransmissionID) (pids : list Field) (rng : Z) (h : BatchHeader) :
  header_new k r t cid tids pids rng = Ok h ->
  header_from (h_author h) r t cid tids pids (h_signature h) = Ok h.
Proof.
  unfold header_new. intros H. simp_ok. apply header_from_Ok. split; [|done].
  match goal with H : check_header_shape _ _ _ = _ |- _ =>
    apply check_header_shape_Ok in H as (? & ? & ?) end.
  split; try done. by eapply sign_verifies.
Qed.

(** [Data::read_le] does not notice a truncated input.  When fewer bytes
    are left than the announced length, it returns what is there. *)
Theorem read_data_truncated {T} (n : Z) (bs : list Z) :
  len bs <= n -> n <= MAX_DATA_SIZE ->
  read_data (write_u8 1 ++ write_u32 n ++ bs) = Ok (Buffer (T := T) bs, []).
Proof.
  intros Hlen Hn. unfold read_data. pose proof (len_nonneg bs).
  erewrite rbind_reads by (apply reads_u8; mlia). rewrite bool_decide_eq_true_2 by done. cbn [negb].
  erewrite rbind_reads by (apply reads_u32; unfold MAX_DATA_SIZE in Hn; mlia).
  rewrite bool_decide_eq_false_2 by lia. unfold rbind, read_up_to, rret. cbn.
  rewrite take_ge, drop_ge by (unfold len in *; lia). done.
Qed.

End Codec.
End Narwhal.

(** ** Sample certificates *)

(** The certificate of [author] with the endorsements of [signers]. *)
Definition sample_header (author : ascii) (r t : Z) (tids : list (TransmissionID (N := TestNetwork)))
    (prev : list ascii) : BatchHeader (N := TestNetwork) :=
  let id := unwrap_or "000"%char
    (compute_batch_id (N := TestNetwork) author r t "c"%char tids prev) in
  mk_header (N := TestNetwork) id author r t "c"%char tids prev (author, id).

Definition sample_certificate (author : ascii) (r t : Z)
    (tids : list (TransmissionID (N := TestNetwork))) (prev signers : list ascii)
    : BatchCertificate (N := TestNetwork) :=
  let h := sample_header author r t tids prev in
  mk_certificate (N := TestNetwork) h ((fun s => (s, batch_id h)) <$> signers).

Definition header7 : BatchHeader (N := TestNetwork) :=
  sample_header "a" 7 1000 [IdTransaction (N := TestNetwork) "t" "x"]%char ["p"; "q"; "r"]%char.
Definition certificate7 : BatchCertificate (N := TestNetwork) :=
  sample_certificate "a" 7 1000 [IdTransaction (N := TestNetwork) "t" "x"]%char
    ["p"; "q"; "r"]%char ["b"; "d"]%char.

Lemma header7_typed : header_typed header7.
Proof. split; try mlia; apply (bool_decide_unpack _); by vm_compute. Qed.

Lemma header7_valid : header_valid header7.
Proof. by apply (header_from_Ok (N := TestNetwork) "a"%char 7 1000 "c"%char
  [IdTransaction (N := TestNetwork) "t" "x"]%char ["p"; "q"; "r"]%char
  (h_signature header7)); vm_refl. Qed.

Lemma certificate7_valid : certificate_valid certificate7.
Proof. by apply (certificate_from_Ok header7 (signatures certificate7)); vm_refl. Qed.

Lemma header_round_trip_witness :
  read_header false (unwrap_or [] (write_header header7) ++ [7]) = Ok (header7, [7]).
Proof. apply (header_round_trip false header7 _ [7] header7_typed header7_valid). vm_refl. Defined.

Lemma certificate_round_trip_witness :
  read_certificate false (unwrap_or [] (write_certificate certificate7) ++ [7]) = Ok (certificate7, [7]).
Proof.
  apply (certificate_round_trip false certificate7 _ [7] header7_typed header7_valid certificate7_valid).
  vm_refl.
Defined.

Lemma read_certificate_sound_witness :
  exists bs c, read_certificate (N := TestNetwork) false bs = Ok (c, []) /\ certificate_valid c.
Proof.
  exists (unwrap_or [] (write_certificate certificate7)), certificate7. split; [vm_refl|].
  apply (read_certificate_sound (unwrap_or [] (write_certificate certificate7)) certificate7 []).
  vm_refl.
Defined.

Lemma header_new_accepted_witness :
  let h := sample_header "a" 1 5 [] [] in
  header_from (N := TestNetwork) (h_author h) 1 5 "c"%char [] [] (h_signature h) = Ok h.
Proof.
  exact (header_new_accepted (N := TestNetwork) "a"%char 1 5 "c"%char [] [] 0
    (sample_header "a" 1 5 [] []) ltac:(vm_refl)).
Defined.

Lemma read_data_truncated_witness :
  read_data (write_u8 1 ++ write_u32 5 ++ [1; 2]) = Ok (Buffer (T := unit) [1; 2], []).
Proof. apply (read_data_truncated 5 [1; 2]); by vm_compute. Defined.

(** A small DAG: three authors, rounds 1 to 3, every certificate refers to the
    three before it. *)
Definition sample_round (r t : Z) (prev : list ascii) : list (BatchCertificate (N := TestNetwork)) :=
  [sample_certificate "a" r t [] prev ["c"; "d"]; sample_certificate "c" r (t + 1) [] prev ["a"; "d"];
   sample_certificate "d" r (t + 2) [] prev ["a"; "c"]]%char.
Definition sample_round1 := sample_round 1 10 [].
Definition sample_round2 := sample_round 2 20 (cert_id <$> sample_round1).
Definition sample_round3 := sample_round 3 40 (cert_id <$> sample_round2).
Definition sample_rounds : list (BatchCertificate (N := TestNetwork)) :=
  sample_round1 ++ sample_round2 ++ sample_round3.

Lemma sample_rounds_ids : NoDup (cert_id <$> sample_rounds).
Proof. apply (bool_decide_unpack _). by vm_compute. Qed.

Lemma sample_rounds_inj c d : c ∈ sample_rounds -> d ∈ sample_rounds -> cert_id c = cert_id d -> c = d.
Proof.
  intros [i Hi]%list_elem_of_lookup [j Hj]%list_elem_of_lookup Heq.
  assert (i = j) as ->; [|congruence].
  apply (NoDup_lookup _ i j (cert_id c) sample_rounds_ids); rewrite list_lookup_fmap.
  - by rewrite Hi.
  - by rewrite Hj, Heq.
Qed.

Definition sample_cert (i : nat) : BatchCertificate (N := TestNetwork) :=
  nth i sample_rounds (sample_certificate "a" 0 0 [] [] []).

Lemma elem_of_sample_cert i : (i < 9)%nat -> sample_cert i ∈ sample_rounds.
Proof. intros Hi. apply list_elem_of_In, nth_In. exact Hi. Qed.
