(* ===== verification/Dfs.v ===== *)
(** * The depth-first traversal of certificates

    [order_dag_with_dfs] (node/bft/src/bft.rs) and
    [sanity_check_subdag_with_dfs] (snarkVM/ledger/narwhal/subdag) run the same
    loop: pop a certificate, file it under its round, push its previous
    certificates that are not ordered yet.  [dfs] is that loop, for any way to
    visit the previous certificates; the lemmas say when it ends and that it
    collects exactly the certificates reachable from the initial buffer. *)

From S2P Require Import Prelude Network Narwhal.

(** [BTreeMap<u64, IndexSet<BatchCertificate<N>>>]. *)
Abbreviation commit_map := (gmap Z (list BatchCertificate)).

(** The already ordered IDs and the buffer, whose next element is its head. *)
Abbreviation dfs_state := (gset Field * list BatchCertificate)%type.

Section Dfs.
Context `{N : Network}.

(** [commit.entry(certificate.round()).or_default().insert(certificate)]. *)
Definition commit_insert (c : BatchCertificate) (m : commit_map) : commit_map :=
  <[round c := iset_insert cert_id c (default [] (m !! round c))]> m.

(** [while let Some(certificate) = buffer.pop() { .. }]. *)
Fixpoint dfs (visit : BatchCertificate -> dfs_state -> result dfs_state) (fuel : nat)
    (commit : commit_map) (st : dfs_state) : result commit_map :=
  match fuel with
  | O => Deadlock
  | S fuel =>
      match st.2 with
      | [] => Ok commit
      | c :: buffer => st ← visit c (st.1, buffer); dfs visit fuel (commit_insert c commit) st
      end
  end.

(** [c] is filed in the map under round [r]. *)
Definition filed_at (m : commit_map) (r : Z) (c : BatchCertificate) : Prop :=
  exists l, m !! r = Some l /\ c ∈ l.

Definition committed (m : commit_map) (c : BatchCertificate) : Prop := filed_at m (round c) c.

(** A map as [commit_insert] builds it. *)
Definition commit_wf (m : commit_map) : Prop := forall r l, m !! r = Some l ->
  l <> [] /\ NoDup (cert_id <$> l) /\ forall c, c ∈ l -> round c = r.

Lemma commit_insert_wf c m : commit_wf m -> commit_wf (commit_insert c m).
Proof.
  intros Hm r l. unfold commit_insert. destruct (decide (r = round c)) as [->|Hr].
  - rewrite lookup_insert_eq. intros [= <-].
    assert (NoDup (cert_id <$> default [] (m !! round c)) /\
      forall d, d ∈ default [] (m !! round c) -> round d = round c) as [Hnd Hall].
    { destruct (m !! round c) as [l|] eqn:E; cbn; [by apply Hm in E as (_ & ? & ?)|].
      split; [constructor|set_solver]. }
    split_and!.
    + intros E. assert (cert_id c ∈ cert_id <$> iset_insert cert_id c (default [] (m !! round c))) as Hin.
      { apply iset_insert_keys. by left. }
      rewrite E in Hin. by apply elem_of_nil in Hin.
    + by apply iset_insert_NoDup.
    + intros d [?|[_ ->]]%elem_of_iset_insert; auto.
  - rewrite lookup_insert_ne by done. apply Hm.
Qed.

Lemma filed_insert c m r d :
  (forall x, filed_at m (round c) x -> cert_id x = cert_id c -> x = c) ->
  (filed_at (commit_insert c m) r d <-> filed_at m r d \/ (r = round c /\ d = c)).
Proof.
  intros Hid. unfold filed_at, commit_insert. destruct (decide (r = round c)) as [->|Hr].
  - rewrite lookup_insert_eq. split.
    + intros (l & [= <-] & Hd). apply elem_of_iset_insert in Hd as [Hd|[_ ->]]; [|auto].
      destruct (m !! round c) as [l|]; cbn in Hd; [left; eauto|set_solver].
    + intros [(l & Hl & Hd)|[_ ->]].
      * rewrite Hl. eexists. split; [done|]. apply elem_of_iset_insert. by left.
      * eexists. split; [done|]. apply elem_of_iset_insert.
        destruct (iset_contains cert_id (cert_id c) _) eqn:E; [|by right].
        apply iset_contains_spec in E as (x & Hx & Hxc). left. rewrite <-(Hid x) at 1; [done| |done].
        destruct (m !! round c) as [l|] eqn:El; cbn in Hx; [by exists l|set_solver].
  - rewrite lookup_insert_ne by done. naive_solver.
Qed.

(** Whatever the visits do, the result is a map of nonempty rounds. *)
Lemma dfs_commit_wf visit fuel commit st m :
  commit_wf commit -> dfs visit fuel commit st = Ok m -> commit_wf m.
Proof.
  revert commit st. induction fuel as [|fuel IH]; intros commit st Hwf H; cbn in H; [done|].
  destruct (st.2) as [|c buffer]; [by simp_ok|]. apply bind_Ok in H as (st' & _ & H).
  eapply IH; [|done]. by apply commit_insert_wf.
Qed.

(** An invariant of the loop holds at its end. *)
Lemma dfs_ind (P : commit_map -> dfs_state -> Prop) visit fuel commit st m :
  (forall commit already c buffer st', P commit (already, c :: buffer) ->
     visit c (already, buffer) = Ok st' -> P (commit_insert c commit) st') ->
  P commit st -> dfs visit fuel commit st = Ok m -> exists already, P m (already, []).
Proof.
  intros Hstep. revert commit st. induction fuel as [|fuel IH]; intros commit [already buffer] HP H; cbn in H; [done|].
  destruct buffer as [|c buffer]; [simp_ok; eauto|]. apply bind_Ok in H as (st' & Hv & H). eauto.
Qed.

Lemma commit_wf_empty : commit_wf ∅.
Proof. intros r l. by rewrite lookup_empty. Qed.

(** ** Correctness *)

Section Correct.
(** The previous certificates the traversal may go to, and the ways to visit
    them. *)
Context (edge : BatchCertificate -> BatchCertificate -> Prop).
Context (visit : BatchCertificate -> dfs_state -> result dfs_state).
Context (roots : list BatchCertificate).

Inductive reach : BatchCertificate -> Prop :=
| reach_root c : c ∈ roots -> reach c
| reach_step c p : reach c -> edge c p -> reach p.

(** What a visit of [c] does to the state: it pushes successors of [c], and
    afterwards every successor is ordered. *)
Record visit_ok (c : BatchCertificate) (st st' : dfs_state) : Prop := {
  vo_old x : x ∈ st.2 -> x ∈ st'.2;
  vo_new x : x ∈ st'.2 -> x ∈ st.2 \/ edge c x;
  vo_edge p : edge c p -> cert_id p ∈ st'.1;
  vo_sub : st.1 ⊆ st'.1;
  vo_ordered i : i ∈ st'.1 -> i ∈ st.1 \/ exists x, x ∈ st'.2 /\ cert_id x = i;
  vo_size : (length st'.2 + size st.1 <= length st.2 + size st'.1)%nat;
}.

Hypothesis visit_correct : forall c st st', reach c -> visit c st = Ok st' -> visit_ok c st st'.
(** Reachable certificates are identified by their ID. *)
Hypothesis reach_id : forall c d, reach c -> reach d -> cert_id c = cert_id d -> c = d.

(** The loop invariant. *)
Record dfs_inv (commit : commit_map) (st : dfs_state) : Prop := {
  dinv_wf : commit_wf commit;
  dinv_reach c : committed commit c \/ c ∈ st.2 -> reach c;
  dinv_edges c p : committed commit c -> edge c p -> cert_id p ∈ st.1;
  dinv_ordered i : i ∈ st.1 -> exists x, (committed commit x \/ x ∈ st.2) /\ cert_id x = i;
  dinv_roots c : c ∈ roots -> committed commit c \/ c ∈ st.2;
}.

Lemma committed_insert commit c d :
  commit_wf commit -> (forall x, committed commit x -> reach x) -> reach c ->
  (committed (commit_insert c commit) d <-> committed commit d \/ d = c).
Proof.
  intros Hwf Hreach Hc. unfold committed. rewrite filed_insert; [naive_solver|].
  intros x Hx Hid. apply reach_id; [|done|done]. apply Hreach. destruct Hx as (l & Hl & Hx).
  assert (round x = round c) as Hr by (by apply (Hwf _ _ Hl)). exists l. by rewrite Hr.
Qed.

(** The invariant holds at the start. *)
Lemma dfs_inv_start : dfs_inv ∅ (∅, roots).
Proof using Type.
  split; cbn.
  - apply commit_wf_empty.
  - intros c [(l & Hl & _)|Hc]; [by rewrite lookup_empty in Hl|by apply reach_root].
  - intros c p (l & Hl & _). by rewrite lookup_empty in Hl.
  - intros i Hi. by apply elem_of_empty in Hi.
  - by right.
Qed.

Lemma dfs_inv_step commit already c buffer st' :
  dfs_inv commit (already, c :: buffer) -> visit c (already, buffer) = Ok st' ->
  dfs_inv (commit_insert c commit) st'.
Proof.
  intros Hinv Hv. assert (reach c) as Hc.
  { apply (dinv_reach _ _ Hinv). right. left. }
  apply visit_correct in Hv as [Vold Vnew Vedge Vsub Vord _]; [|done]. cbn in *.
  destruct Hinv as [Iwf Ireach Iedges Iord Iroots]. cbn in *.
  assert (forall d, committed (commit_insert c commit) d <-> committed commit d \/ d = c) as Hci.
  { intros d. apply committed_insert; eauto. }
  assert (forall d, committed commit d \/ d ∈ c :: buffer ->
    committed (commit_insert c commit) d \/ d ∈ st'.2) as Hmove.
  { intros d. rewrite Hci, elem_of_cons. naive_solver. }
  split.
  - by apply commit_insert_wf.
  - intros d. rewrite Hci. intros [[?| ->]|[Hd|He]%Vnew]; [eauto|done|..].
    + apply Ireach. right. by right.
    + by eapply reach_step.
  - intros d p. rewrite Hci. intros [Hd| ->] He; [|by apply Vedge]. apply Vsub. by eapply Iedges.
  - intros i [Hi|(x & Hx & <-)]%Vord; [|eauto]. apply Iord in Hi as (x & Hx & <-). eauto.
  - intros d Hd. auto.
Qed.

(** The result holds exactly the reachable certificates. *)
Lemma dfs_Ok fuel commit st m :
  dfs_inv commit st -> dfs visit fuel commit st = Ok m ->
  commit_wf m /\ forall c, committed m c <-> reach c.
Proof.
  revert commit st. induction fuel as [|fuel IH]; intros commit [already buffer] Hinv H; [done|].
  cbn in H. destruct buffer as [|c buffer].
  - simp_ok. destruct Hinv as [Iwf Ireach Iedges Iord Iroots]. cbn in *. split; [done|].
    intros c. split; [intros; apply Ireach; by left|].
    induction 1 as [c Hc|c p Hc IHc He].
    + destruct (Iroots c Hc) as [?|?]; [done|set_solver].
    + destruct (Iord (cert_id p)) as (x & [Hx|Hx] & Hid); [by eapply Iedges| |set_solver].
      assert (p = x) as ->; [|done]. apply reach_id; [by eapply reach_step|apply Ireach; by left|done].
  - apply bind_Ok in H as (st' & Hv & H). eapply IH; [|exact H]. by eapply dfs_inv_step.
Qed.

(** Every iteration shortens the buffer or orders a new certificate, so the
    loop ends when the ordered IDs stay within a finite set. *)
Lemma dfs_terminates (ids : gset Field) fuel commit st :
  dfs_inv commit st -> st.1 ⊆ ids ->
  (forall c st st', reach c -> st.1 ⊆ ids -> visit c st = Ok st' -> st'.1 ⊆ ids) ->
  (length st.2 + size ids < fuel + size st.1)%nat ->
  (forall c st, reach c -> visit c st <> Deadlock) ->
  dfs visit fuel commit st <> Deadlock.
Proof.
  intros Hinv Hsub Hids Hfuel Hvd. revert commit st Hinv Hsub Hfuel.
  induction fuel as [|fuel IH]; intros commit [already buffer] Hinv Hsub Hfuel; cbn in *.
  { pose proof (subseteq_size already ids Hsub). lia. }
  destruct buffer as [|c buffer]; [done|].
  assert (reach c) as Hc by (apply (dinv_reach _ _ Hinv); right; left).
  pose proof (Hvd c (already, buffer) Hc) as Hne.
  destruct (visit c (already, buffer)) as [st'|e|e|] eqn:Ev; cbn; [|done..].
  apply IH.
  - by eapply dfs_inv_step.
  - by apply (Hids c (already, buffer)).
  - pose proof (vo_size _ _ _ (visit_correct _ _ _ Hc Ev)) as Hs. cbn in *. lia.
Qed.

(** The traversal fails only where the visit of a reached certificate fails. *)
Lemma dfs_fails fuel commit st :
  dfs_inv commit st -> match dfs visit fuel commit st with
  | Err e => exists c st, reach c /\ visit c st = Err e
  | Panic e => exists c st, reach c /\ visit c st = Panic e
  | _ => True
  end.
Proof.
  revert commit st. induction fuel as [|fuel IH]; intros commit [already buffer] Hinv; cbn; [done|].
  destruct buffer as [|c buffer]; [done|].
  assert (reach c) as Hc by (apply (dinv_reach _ _ Hinv); right; left).
  destruct (visit c (already, buffer)) as [st'|e|e|] eqn:Ev; cbn; [|eauto|eauto|done].
  apply IH. by eapply dfs_inv_step.
Qed.

(** A visit that always succeeds leaves only the bound to fail on. *)
Lemma dfs_total fuel commit st :
  (forall c st, exists st', visit c st = Ok st') -> dfs visit fuel commit st <> Deadlock ->
  exists m, dfs visit fuel commit st = Ok m.
Proof.
  intros Hv. revert commit st. induction fuel as [|fuel IH]; intros commit st H; cbn in *; [done|].
  destruct (st.2) as [|c buffer]; [eauto|]. destruct (Hv c (st.1, buffer)) as [st' E].
  rewrite E in *. cbn in *. by apply IH.
Qed.

End Correct.
End Dfs.
