(* ===== verification/Subdag.v ===== *)
(** * Subdags

    [Subdag<N>] of snarkVM/ledger/narwhal/subdag: the certificates a leader
    certificate commits, by round, with the checks of [Subdag::from], the
    weighted median timestamp and the byte encoding. *)

From S2P Require Import Prelude Bytes Network Committee Narwhal Dfs.

#[local] Arguments sumZ : simpl never.

Module Subdag.
Section Subdag.
Context `{N : Network}.

(** [Subdag::MAX_ROUNDS]. *)
Definition MAX_ROUNDS : Z := MAX_GC_ROUNDS.

(** ** Checks *)

(** The loop of [is_sequential] over the keys. *)
Fixpoint sequential_keys (previous_round : option Z) (keys : list Z) : bool :=
  match keys with
  | [] => true
  | r :: keys =>
      match previous_round with
      | Some previous => if decide (u64_wrap (previous + 1) <> r) then false
                         else sequential_keys (Some r) keys
      | None => sequential_keys (Some r) keys
      end
  end.

(** [is_sequential]. *)
Definition is_sequential (m : commit_map) : bool := sequential_keys None (btree_iter m).*1.

(** The previous certificate with the given ID, in the subdag. *)
Definition find_previous (subdag : commit_map) (c : BatchCertificate) (pid : Field)
    : option BatchCertificate :=
  certs ← subdag !! u64_wrap (round c - 1);
  List.find (fun p => bool_decide (cert_id p = pid)) certs.

(** The inner loop of [sanity_check_subdag_with_dfs]; the buffer is a set. *)
Fixpoint sanity_visit (subdag : commit_map) (c : BatchCertificate) (pids : list Field) (st : dfs_state)
    : dfs_state :=
  match pids with
  | [] => st
  | pid :: pids =>
      match find_previous subdag c pid with
      | None => sanity_visit subdag c pids st
      | Some p =>
          if bool_decide (cert_id p ∈ st.1) then sanity_visit subdag c pids st
          else sanity_visit subdag c pids
                 (st.1 ∪ {[cert_id p]},
                  if iset_contains cert_id (cert_id p) st.2 then st.2 else p :: st.2)
      end
  end.

(** [IndexSet] equality: the same elements, in any order. *)
Definition iset_eqb (l k : list BatchCertificate) : bool :=
  bool_decide (length l = length k) && forallb (fun c => iset_contains cert_id (cert_id c) k) l.

(** [BTreeMap] equality. *)
Definition commit_eqb (m1 m2 : commit_map) : bool :=
  bool_decide (dom m1 = dom m2) &&
  forallb (fun p => iset_eqb p.2 (default [] (m2 !! p.1))) (btree_iter m1).

(** The certificates of all rounds, in ascending order of the rounds. *)
Definition all_certificates (m : commit_map) : list BatchCertificate :=
  btree_iter m ≫= fun p => p.2.

(** [subdag.iter().next_back()]. *)
Definition leaders (subdag : commit_map) : list BatchCertificate :=
  match btree_last subdag with Some (_, leader) => leader | None => [] end.

(** [sanity_check_subdag_with_dfs].  Every iteration takes a leader or a
    certificate that was not ordered before, which bounds their number. *)
Definition sanity_check_subdag_with_dfs (subdag : commit_map) : result bool :=
  commit ← dfs (fun c st => Ok (sanity_visit subdag c (previous_certificate_ids c) st))
             (S (length (leaders subdag) + length (all_certificates subdag)))
             ∅ (∅, reverse (leaders subdag));
  Ok (commit_eqb commit subdag).

(** [Subdag::from]. *)
Definition from (subdag : commit_map) : result commit_map :=
  _ ← ensure (bool_decide (subdag <> ∅)) "Subdag cannot be empty";
  _ ← ensure (bool_decide (Z.of_nat (size subdag) <= MAX_ROUNDS))
        "Subdag cannot exceed the maximum number of rounds";
  _ ← ensure (bool_decide ((match btree_last subdag with Some (r, _) => r | None => 0 end) mod 2 = 0))
        "Anchor round must be even";
  _ ← ensure (bool_decide (length (leaders subdag) = 1%nat)) "Subdag cannot have multiple leaders";
  _ ← ensure (is_sequential subdag) "Subdag rounds must be sequential";
  b ← sanity_check_subdag_with_dfs subdag;
  _ ← ensure b "Subdag structure does not match commit";
  Ok subdag.

(** ** Accessors *)

(** [Subdag::anchor_round]. *)
Definition anchor_round (subdag : commit_map) : Z :=
  match btree_last subdag with Some (r, _) => r | None => 0 end.

(** [Subdag::leader_certificate]. *)
Definition leader_certificate (subdag : commit_map) : result BatchCertificate :=
  entry ← unwrap "There must be one round in the subdag" (btree_last subdag);
  unwrap "There must be a leader certificate" (head entry.2).

(** [Subdag::leader_address]. *)
Definition leader_address (subdag : commit_map) : result Address :=
  c ← leader_certificate subdag; Ok (author c).

(** [Subdag::certificate_ids], [Subdag::transmission_ids]. *)
Definition certificate_ids (subdag : commit_map) : list Field := cert_id <$> all_certificates subdag.
Definition subdag_transmission_ids (subdag : commit_map) : list TransmissionID :=
  all_certificates subdag ≫= transmission_ids.

(** ** The weighted median *)

#[local] Instance timestamp_le_dec : RelDecision (fun p q : Z * Z => p.1 <= q.1) :=
  fun p q => decide (p.1 <= q.1).

(** The loop of [weighted_median]. *)
Fixpoint median_loop (total current accumulated : Z) (l : list (Z * Z)) : Z :=
  match l with
  | [] => current
  | (timestamp, stake) :: l =>
      let accumulated := u64_saturating_add accumulated stake in
      if decide (total <= u64_saturating_mul accumulated 2) then timestamp
      else median_loop total timestamp accumulated l
  end.

(** [weighted_median]; the sum wraps in the release profile. *)
Definition weighted_median (l : list (Z * Z)) : Z :=
  let l := merge_sort (fun p q : Z * Z => p.1 <= q.1) l in
  median_loop (u64_wrap (sumZ l.*2)) 0 0 l.

(** The timestamps and stakes of the round before the anchor. *)
Definition timestamps_and_stakes (subdag : commit_map) (committee : Committee) : list (Z * Z) :=
  (fun c => (timestamp c, get_stake committee (author c))) <$>
    base.filter (fun c => round c = saturating_sub (anchor_round subdag) 1) (all_certificates subdag).

(** [Subdag::timestamp]. *)
Definition subdag_timestamp (subdag : commit_map) (committee : Committee) : Z :=
  weighted_median (timestamps_and_stakes subdag committee).

(** ** Byte encoding *)

Fixpoint write_certificates (l : list BatchCertificate) : result (list Z) :=
  match l with
  | [] => Ok []
  | c :: l => b ← write_certificate c; bs ← write_certificates l; Ok (b ++ bs)
  end.

(** One round of [ToBytes for Subdag]. *)
Definition write_round (p : Z * list BatchCertificate) : result (list Z) :=
  n ← try_u16 (len p.2);
  bs ← write_certificates p.2;
  Ok (write_u64 p.1 ++ write_u16 n ++ bs).

Fixpoint write_rounds (l : list (Z * list BatchCertificate)) : result (list Z) :=
  match l with
  | [] => Ok []
  | p :: l => b ← write_round p; bs ← write_rounds l; Ok (b ++ bs)
  end.

(** [ToBytes for Subdag]. *)
Definition write_subdag (subdag : commit_map) : result (list Z) :=
  n ← try_u32 (Z.of_nat (size subdag));
  bs ← write_rounds (btree_iter subdag);
  Ok (write_u8 1 ++ write_u32 n ++ bs).

(** One round of [internal_read_le]. *)
Definition read_round (unchecked : bool) : reader (Z * list BatchCertificate) :=
  read r ⇐ read_u64;
  read num_certificates ⇐ read_u16;
  if bool_decide (LATEST_MAX_CERTIFICATES < num_certificates)
  then rfail "Number of certificates ({num_certificates}) exceeds the maximum." else
  read certs ⇐ read_many (Z.to_nat num_certificates) (read_certificate unchecked);
  rret (r, iset_of_list cert_id certs).

(** [Subdag::internal_read_le]. *)
Definition read_subdag (unchecked : bool) : reader commit_map :=
  read version ⇐ read_u8;
  if negb (bool_decide (version = 1)) then rfail "Invalid subdag version ({version})" else
  read num_rounds ⇐ read_u32;
  if bool_decide (MAX_ROUNDS < num_rounds) then rfail "Number of rounds exceeds the maximum" else
  read entries ⇐ read_many (Z.to_nat num_rounds) (read_round unchecked);
  let subdag : commit_map := foldl (fun m p => <[p.1 := p.2]> m) ∅ entries in
  rlift (if unchecked : bool then Ok subdag else from subdag).

(** ** The structural check decides reachability *)

(** [p] is a previous certificate of [c] in the subdag, among [pids]. *)
Definition edge_on (subdag : commit_map) (pids : list Field) (c p : BatchCertificate) : Prop :=
  exists pid, pid ∈ pids /\ find_previous subdag c pid = Some p.
Definition edge (subdag : commit_map) (c p : BatchCertificate) : Prop :=
  edge_on subdag (previous_certificate_ids c) c p.

Lemma find_previous_Some subdag c pid p :
  find_previous subdag c pid = Some p -> filed_at subdag (u64_wrap (round c - 1)) p /\ cert_id p = pid.
Proof.
  unfold find_previous. intros H. destruct (subdag !! _) as [l|] eqn:E; [|done]. cbn in H.
  apply find_some in H as [Hp Hid]. split; [exists l; by rewrite list_elem_of_In|].
  by apply bool_decide_eq_true in Hid.
Qed.

Lemma sanity_visit_ok subdag c pids st :
  visit_ok (edge_on subdag pids) c st (sanity_visit subdag c pids st).
Proof.
  revert st. induction pids as [|pid pids IH]; intros st; cbn [sanity_visit].
  { split; [auto|auto|by intros p (?&?%elem_of_nil&_)|done|auto|lia]. }
  assert (forall p, edge_on subdag (pid :: pids) c p <->
    find_previous subdag c pid = Some p \/ edge_on subdag pids c p) as Hedge.
  { intros p. unfold edge_on. set_solver. }
  destruct (find_previous subdag c pid) as [p|] eqn:Ep; cycle 1.
  { destruct (IH st) as [V1 V2 V3 V4 V5 V6]. split; try done.
    - intros x [?|?]%V2; [by left|right]. apply Hedge. by right.
    - intros q [?|?]%Hedge; [done|auto]. }
  case_bool_decide as Ha.
  { destruct (IH st) as [V1 V2 V3 V4 V5 V6]. split; try done.
    - intros x [?|?]%V2; [by left|right]. apply Hedge. by right.
    - intros q [[= <-]|?]%Hedge; auto. }
  set (buffer := if iset_contains _ _ _ then _ else _).
  destruct (IH (st.1 ∪ {[cert_id p]}, buffer)) as [V1 V2 V3 V4 V5 V6]; cbn in *.
  assert (forall x, x ∈ st.2 -> x ∈ buffer) as B1.
  { intros x Hx. unfold buffer. destruct (iset_contains _ _ _); [done|by right]. }
  assert (forall x, x ∈ buffer -> x ∈ st.2 \/ x = p) as B2.
  { intros x. unfold buffer. destruct (iset_contains _ _ _); [by left|]. rewrite elem_of_cons. tauto. }
  assert (exists x, x ∈ buffer /\ cert_id x = cert_id p) as (y & Hy & Hyp).
  { unfold buffer. destruct (iset_contains _ _ _) eqn:E.
    - by apply iset_contains_spec in E.
    - exists p. split; [left|done]. }
  assert (length buffer <= S (length st.2))%nat as B3.
  { unfold buffer. destruct (iset_contains _ _ _); cbn; lia. }
  split; cbn.
  - auto.
  - intros x [[?| ->]%B2|?]%V2; [by left|right|right]; apply Hedge; auto.
  - intros q [[= <-]|?]%Hedge; [apply V4; set_solver|auto].
  - set_solver.
  - intros i [Hi|?]%V5; [|by right]. apply elem_of_union in Hi as [?|Hi%elem_of_singleton]; [by left|].
    subst i. right. exists y. auto.
  - rewrite size_union, size_singleton in V6 by set_solver. lia.
Qed.

(** What the Rust type of a subdag gives: the sets have no duplicates; and
    the IDs of the certificates in it are distinct. *)
Record subdag_typed (subdag : commit_map) : Prop := {
  st_nodup r l : subdag !! r = Some l -> NoDup (cert_id <$> l);
  st_ids r1 r2 c d : filed_at subdag r1 c -> filed_at subdag r2 d -> cert_id c = cert_id d -> c = d;
}.

Lemma btree_last_elem {V} (m : gmap Z V) r v : btree_last m = Some (r, v) -> m !! r = Some v.
Proof. intros H. apply elem_of_btree_iter. by apply last_Some_elem_of. Qed.

Lemma leaders_filed subdag c : c ∈ leaders subdag -> exists r, filed_at subdag r c.
Proof.
  unfold leaders. destruct (btree_last subdag) as [[r l]|] eqn:E; [|set_solver].
  intros Hc. exists r, l. split; [|done]. by apply btree_last_elem.
Qed.

Lemma reach_filed subdag c : reach (edge subdag) (leaders subdag) c -> exists r, filed_at subdag r c.
Proof.
  induction 1 as [c Hc|c p _ _ (pid & _ & Hp)]; [by apply leaders_filed|].
  apply find_previous_Some in Hp as [? _]. eauto.
Qed.

Lemma elem_of_all_certificates (m : commit_map) c : c ∈ all_certificates m <-> exists r, filed_at m r c.
Proof.
  unfold all_certificates, filed_at. rewrite list_elem_of_bind. split.
  - intros ([r l] & Hc & Hr%elem_of_btree_iter). eauto.
  - intros (r & l & Hl & Hc). exists (r, l). by rewrite elem_of_btree_iter.
Qed.

Lemma reach_reverse edge_ (l : list BatchCertificate) c : reach edge_ (reverse l) c <-> reach edge_ l c.
Proof.
  split; (induction 1 as [? H|]; [apply reach_root|by eapply reach_step]).
  - by apply elem_of_reverse.
  - by apply elem_of_reverse.
Qed.

Lemma size_ids_le (l : list BatchCertificate) :
  (size (list_to_set (cert_id <$> l) : gset Field) <= length l)%nat.
Proof.
  induction l as [|c l IH]; cbn; [by rewrite size_empty|].
  rewrite size_union_alt, size_singleton.
  assert (size ((list_to_set (cert_id <$> l) : gset Field) ∖ {[cert_id c]})
    <= size (list_to_set (cert_id <$> l) : gset Field))%nat by (apply subseteq_size; set_solver).
  lia.
Qed.

(** The traversal always ends, with exactly the certificates the leaders reach. *)
Lemma sanity_dfs subdag :
  subdag_typed subdag ->
  exists m, dfs (fun c st => Ok (sanity_visit subdag c (previous_certificate_ids c) st))
              (S (length (leaders subdag) + length (all_certificates subdag)))
              ∅ (∅, reverse (leaders subdag)) = Ok m /\
    commit_wf m /\ forall c, committed m c <-> reach (edge subdag) (leaders subdag) c.
Proof.
  intros Hty. set (roots := reverse (leaders subdag)).
  set (visit := fun c st => Ok (sanity_visit subdag c (previous_certificate_ids c) st)).
  assert (forall c st st', reach (edge subdag) roots c -> visit c st = Ok st' ->
    visit_ok (edge subdag) c st st') as Hvisit.
  { intros c st st' _ [= <-]. pose proof (sanity_visit_ok subdag c (previous_certificate_ids c) st) as [].
    by split. }
  assert (forall c d, reach (edge subdag) roots c -> reach (edge subdag) roots d ->
    cert_id c = cert_id d -> c = d) as Hid.
  { intros c d Hc%reach_reverse%reach_filed Hd%reach_reverse%reach_filed.
    destruct Hc, Hd. by eapply st_ids. }
  pose proof (dfs_inv_start (edge subdag) roots) as Hinv.
  destruct (dfs_total visit (S (length (leaders subdag) + length (all_certificates subdag))) ∅ (∅, roots))
    as [m Hm]; [by eexists| |].
  - apply (dfs_terminates (edge subdag) visit roots Hvisit Hid
      (list_to_set (cert_id <$> all_certificates subdag))); [done|set_solver|..|done].
    + intros c st st' _ Hst [= <-]. clear -Hst.
      revert st Hst. generalize (previous_certificate_ids c) as pids.
      induction pids as [|pid pids IH]; intros st Hst; cbn; [done|].
      destruct (find_previous subdag c pid) as [p|] eqn:Ep; [|auto]. case_bool_decide; [auto|].
      apply IH. cbn. apply find_previous_Some in Ep as [Hp _].
      assert (p ∈ all_certificates subdag) by (apply elem_of_all_certificates; eauto). set_solver.
    + cbn. unfold roots. rewrite length_reverse, size_empty.
      pose proof (size_ids_le (all_certificates subdag)). lia.
  - exists m. split; [done|].
    destruct (dfs_Ok (edge subdag) visit roots Hvisit Hid _ _ _ _ Hinv Hm) as [Hwf Hc].
    split; [done|]. intros c. rewrite Hc. apply reach_reverse.
Qed.

Lemma iset_eqb_spec l k :
  NoDup (cert_id <$> l) -> NoDup (cert_id <$> k) ->
  (iset_eqb l k = true <-> forall i, i ∈ (cert_id <$> l) <-> i ∈ (cert_id <$> k)).
Proof.
  intros Hl Hk. unfold iset_eqb. rewrite andb_true_iff, bool_decide_eq_true, forallb_forall. split.
  - intros [Hlen Hsub].
    assert ((cert_id <$> l) ⊆+ (cert_id <$> k)) as Hs.
    { apply NoDup_submseteq; [done|]. intros i (c & -> & Hc)%list_elem_of_fmap.
      rewrite list_elem_of_In in Hc. apply Hsub in Hc. unfold iset_contains in Hc.
      by apply bool_decide_eq_true in Hc. }
    apply submseteq_length_Permutation in Hs; [|by rewrite !length_fmap, Hlen].
    intros i. by rewrite Hs.
  - intros H. assert ((cert_id <$> l) ≡ₚ (cert_id <$> k)) as Hp by by apply NoDup_Permutation.
    split; [apply Permutation_length in Hp; by rewrite !length_fmap in Hp|].
    intros c Hc%list_elem_of_In. unfold iset_contains. rewrite bool_decide_eq_true, <-H.
    by apply list_elem_of_fmap_2.
Qed.

Lemma commit_eqb_spec (m subdag : commit_map) :
  commit_wf m -> subdag_typed subdag -> (forall c, committed m c -> exists r, filed_at subdag r c) ->
  (commit_eqb m subdag = true <->
   forall r, (exists l, subdag !! r = Some l) \/ (exists l, m !! r = Some l) ->
     exists l1 l2, m !! r = Some l1 /\ subdag !! r = Some l2 /\ forall c, c ∈ l1 <-> c ∈ l2).
Proof.
  intros Hm Hty Hsub. unfold commit_eqb. rewrite andb_true_iff, bool_decide_eq_true, forallb_forall.
  assert (forall r l1 l2, m !! r = Some l1 -> subdag !! r = Some l2 ->
    (iset_eqb l1 l2 = true <-> forall c, c ∈ l1 <-> c ∈ l2)) as Hset.
  { intros r l1 l2 H1 H2. rewrite iset_eqb_spec by (eauto using st_nodup || apply (Hm _ _ H1)).
    assert (forall c d, c ∈ l1 -> d ∈ l2 -> cert_id c = cert_id d -> c = d) as Hcd.
    { intros c d Hc Hd. destruct (Hsub c) as [r' Hr'].
      { exists l1. pose proof (Hm _ _ H1) as (_ & _ & Hr). by rewrite (Hr c Hc). }
      by eapply st_ids; [done|done|exists l2]. }
    split.
    - intros Hi c. split; intros Hc.
      + assert (cert_id c ∈ cert_id <$> l2) as (d & Hid & Hd)%list_elem_of_fmap
          by (apply Hi; by apply list_elem_of_fmap_2).
        by rewrite (Hcd c d).
      + assert (cert_id c ∈ cert_id <$> l1) as (d & Hid & Hd)%list_elem_of_fmap
          by (apply Hi; by apply list_elem_of_fmap_2).
        by rewrite <-(Hcd d c).
    - intros Hl i. rewrite !list_elem_of_fmap. by setoid_rewrite Hl. }
  split.
  - intros [Hdom Hall] r Hr.
    assert (is_Some (m !! r) /\ is_Some (subdag !! r)) as [[l1 H1] [l2 H2]].
    { rewrite <-!elem_of_dom, Hdom. assert (r ∈ dom subdag); [|done].
      destruct Hr as [[l Hl]|[l Hl]]; [|rewrite <-Hdom]; by eapply elem_of_dom_2. }
    exists l1, l2. split_and!; [done..|]. apply (Hset r); [done..|].
    specialize (Hall (r, l1)). cbn in Hall. rewrite H2 in Hall. apply Hall.
    apply list_elem_of_In. by apply elem_of_btree_iter.
  - intros H. split.
    + apply set_eq. intros r. rewrite !elem_of_dom. split.
      * intros [l Hl]. destruct (H r) as (? & ? & ? & ? & _); eauto.
      * intros [l Hl]. destruct (H r) as (? & ? & ? & ? & _); eauto.
    + intros [r l] Hl%list_elem_of_In%elem_of_btree_iter. cbn.
      destruct (H r) as (l1 & l2 & H1 & H2 & He); [eauto|]. rewrite H2. cbn.
      apply (Hset r); [done..|]. by simplify_eq.
Qed.

(** The structural check as a statement: every certificate is filed under its
    round and reached from the leaders through the subdag, and no round is
    empty. *)
Definition structure_ok (subdag : commit_map) : Prop := forall r l, subdag !! r = Some l ->
  l <> [] /\ forall c, c ∈ l -> round c = r /\ reach (edge subdag) (leaders subdag) c.

Lemma sanity_check_iff subdag :
  subdag_typed subdag ->
  exists b, sanity_check_subdag_with_dfs subdag = Ok b /\ (b = true <-> structure_ok subdag).
Proof.
  intros Hty. destruct (sanity_dfs subdag Hty) as (m & Hm & Hwf & Hc).
  unfold sanity_check_subdag_with_dfs. rewrite Hm. cbn. eexists. split; [done|].
  rewrite commit_eqb_spec; [|done|done|by intros c ?%Hc; apply reach_filed]. split.
  - intros H r l Hl. destruct (H r) as (l1 & l2 & H1 & H2 & He); [eauto|].
    assert (l2 = l) as -> by congruence. destruct (Hwf _ _ H1) as (Hne & _ & Hr). split.
    + destruct l1 as [|c l1]; [done|]. intros ->. apply (elem_of_nil c), He. left.
    + intros c Hcl%He. split; [by apply Hr|]. apply Hc. exists l1. by rewrite (Hr c).
  - intros H r Hr.
    assert (forall c, (exists l2, subdag !! r = Some l2 /\ c ∈ l2) <->
      (exists l1, m !! r = Some l1 /\ c ∈ l1)) as Heq.
    { intros c. split.
      - intros (l2 & H2 & Hin). destruct (H r l2 H2) as [_ Hall]. destruct (Hall c Hin) as [<- Hreach].
        by apply Hc in Hreach as (l1 & ? & ?); exists l1.
      - intros (l1 & H1 & Hin). destruct (Hwf _ _ H1) as (_ & _ & Hrr).
        assert (round c = r) as <- by auto. assert (committed m c) as Hcm by by exists l1.
        apply Hc, reach_filed in Hcm as (r' & l2 & H2 & Hin2).
        destruct (H _ _ H2) as [_ Hall]. destruct (Hall c Hin2) as [<- _]. eauto. }
    destruct Hr as [[l Hl]|[l Hl]].
    + destruct (H r l Hl) as [Hne _]. destruct l as [|c l]; [done|].
      destruct (proj1 (Heq c)) as (l1 & H1 & _); [exists (c :: l); split; [done|left]|].
      exists l1, (c :: l). split_and!; [done..|]. intros d. split; intros Hd.
      * destruct (proj2 (Heq d)) as (? & ? & ?); [eauto|congruence].
      * destruct (proj1 (Heq d)) as (? & ? & ?); [eauto|congruence].
    + destruct (Hwf _ _ Hl) as (Hne & _ & _). destruct l as [|c l]; [done|].
      destruct (proj2 (Heq c)) as (l2 & H2 & _); [exists (c :: l); split; [done|left]|].
      exists (c :: l), l2. split_and!; [done..|]. intros d. split; intros Hd.
      * destruct (proj2 (Heq d)) as (? & ? & ?); [eauto|congruence].
      * destruct (proj1 (Heq d)) as (? & ? & ?); [eauto|congruence].
Qed.

(** [sanity_check_subdag_with_dfs] always ends, and accepts a subdag
    exactly when every certificate in it is filed under its own round and
    reachable from the leader certificates by previous-certificate references
    inside the subdag.  It does not look at the order within a round. *)
Theorem sanity_check_correct (subdag : commit_map) :
  subdag_typed subdag ->
  exists b, sanity_check_subdag_with_dfs subdag = Ok b /\
    (b = true <-> forall r l, subdag !! r = Some l ->
       l <> [] /\ forall c, c ∈ l -> round c = r /\ reach (edge subdag) (leaders subdag) c).
Proof. apply sanity_check_iff. Qed.

(** ** The median *)

(** The stake of the entries that satisfy [P]. *)
Definition stake_where (P : Z * Z -> Prop) `{!forall p, Decision (P p)} (l : list (Z * Z)) : Z :=
  sumZ (base.filter P l).*2.

Lemma stake_where_cons (P : Z * Z -> Prop) `{!forall p, Decision (P p)} p l :
  stake_where P (p :: l) = (if decide (P p) then p.2 else 0) + stake_where P l.
Proof. unfold stake_where. rewrite filter_cons. unfold sumZ. by case_decide. Qed.

Lemma stake_where_perm (P : Z * Z -> Prop) `{!forall p, Decision (P p)} l k :
  l ≡ₚ k -> stake_where P l = stake_where P k.
Proof. intros Hlk. unfold stake_where. by rewrite Hlk. Qed.

Lemma stake_where_nonneg (P : Z * Z -> Prop) `{!forall p, Decision (P p)} l :
  (forall p, p ∈ l -> 0 <= p.2) -> 0 <= stake_where P l.
Proof.
  intros Hpos. apply sumZ_nonneg. intros ? (p & -> & [_ Hp]%list_elem_of_filter)%list_elem_of_fmap. auto.
Qed.

Lemma stake_where_zero (P : Z * Z -> Prop) `{!forall p, Decision (P p)} l :
  (forall p, p ∈ l -> ~ P p) -> stake_where P l = 0.
Proof.
  intros Hno. induction l as [|p l IH]; [done|]. rewrite stake_where_cons, IH by set_solver.
  rewrite decide_False; [done|]. apply Hno. left.
Qed.

Lemma stake_where_compl (P Q : Z * Z -> Prop) (DP : forall p, Decision (P p))
    (DQ : forall p, Decision (Q p)) l :
  (forall p, Q p <-> ~ P p) -> stake_where Q l = sumZ l.*2 - stake_where P l.
Proof.
  intros HPQ. induction l as [|p l IH]; [done|]. rewrite !stake_where_cons, IH. cbn. rewrite sumZ_cons.
  specialize (HPQ p). destruct (decide (P p)), (decide (Q p)); tauto || lia.
Qed.

(** Two groups with together more than the total stake have a common member. *)
Lemma stake_where_meet (P Q : Z * Z -> Prop) (DP : forall p, Decision (P p))
    (DQ : forall p, Decision (Q p)) l :
  (forall p, p ∈ l -> 0 <= p.2) -> sumZ l.*2 < stake_where P l + stake_where Q l ->
  exists p, p ∈ l /\ P p /\ Q p.
Proof.
  intros Hpos. induction l as [|p l IH]; [by cbn|].
  rewrite !stake_where_cons. cbn [fmap list_fmap]. rewrite sumZ_cons. intros Hlt.
  pose proof (Hpos p ltac:(left)).
  destruct (decide (P p /\ Q p)) as [[? ?]|Hn]; [exists p; set_solver|].
  destruct IH as (q & Hq & ? & ?); [intros; apply Hpos; by right| |exists q; set_solver].
  revert Hlt. repeat case_decide; tauto || lia.
Qed.

(** On a sorted list the loop stops where the accumulated stake reaches half
    of the total. *)
Lemma median_loop_spec total cur acc l :
  (forall p, p ∈ l -> 0 <= p.2) -> 0 <= acc -> total = acc + sumZ l.*2 -> 2 * total <= u64_max ->
  2 * acc < total \/ (acc = 0 /\ total = 0) ->
  StronglySorted (fun p q => p.1 <= q.1) l -> l <> [] ->
  let t := median_loop total cur acc l in
  (exists p, p ∈ l /\ p.1 = t) /\
  total <= 2 * (acc + stake_where (fun p => p.1 <= t) l) /\
  (2 * (acc + stake_where (fun p => p.1 < t) l) < total \/ (acc = 0 /\ total = 0)).
Proof.
  revert cur acc. induction l as [|[ts stake] l IH]; intros cur acc Hpos Hacc Htot Hmax Hlt Hs Hne; [done|].
  apply StronglySorted_inv in Hs as [Hs Hhead]. rewrite Forall_forall in Hhead. cbn in Hhead.
  pose proof (Hpos (ts, stake) ltac:(left)) as Hst. cbn in Hst, Htot. rewrite sumZ_cons in Htot.
  assert (0 <= sumZ l.*2) as Hsum.
  { apply sumZ_nonneg. intros ? (p & -> & ?)%list_elem_of_fmap. apply Hpos. by right. }
  assert (forall p, p ∈ l -> 0 <= p.2) as Hpos' by (intros; apply Hpos; by right).
  cbn. assert (u64_saturating_add acc stake = acc + stake) as -> by mlia.
  assert (u64_saturating_mul (acc + stake) 2 = 2 * (acc + stake)) as -> by mlia.
  case_decide as Hd.
  - split_and!.
    + exists (ts, stake). split; [left|done].
    + rewrite stake_where_cons. cbn. rewrite decide_True by lia.
      pose proof (stake_where_nonneg (fun p => p.1 <= ts) l Hpos'). lia.
    + rewrite stake_where_cons. cbn. rewrite decide_False by lia.
      rewrite stake_where_zero; [lia|]. intros p Hp. specialize (Hhead p Hp). lia.
  - destruct l as [|q l']; [cbn in *; unfold sumZ in *; cbn in *; lia|].
    destruct (IH ts (acc + stake)) as ((p & Hp & Hpt) & H2 & H3); [done|lia|lia|lia|left; lia|done|done|].
    set (t := median_loop total ts (acc + stake) (q :: l')) in *.
    specialize (Hhead p Hp). split_and!.
    + exists p. split; [by right|done].
    + rewrite stake_where_cons. cbn [fst snd]. rewrite decide_True by lia. lia.
    + rewrite stake_where_cons. cbn [fst snd]. left. case_decide; lia.
Qed.

#[local] Instance ts_total : Total (fun p q : Z * Z => p.1 <= q.1).
Proof. intros p q. lia. Qed.
#[local] Instance ts_trans : Transitive (fun p q : Z * Z => p.1 <= q.1).
Proof. intros p q r. lia. Qed.

Lemma weighted_median_spec l :
  l <> [] -> (forall p, p ∈ l -> 0 <= p.2) -> 2 * sumZ l.*2 <= u64_max ->
  let t := weighted_median l in
  (exists p, p ∈ l /\ p.1 = t) /\
  sumZ l.*2 <= 2 * stake_where (fun p => p.1 <= t) l /\
  (2 * stake_where (fun p => p.1 < t) l < sumZ l.*2 \/ sumZ l.*2 = 0).
Proof.
  intros Hne Hpos Hmax. unfold weighted_median.
  set (k := merge_sort (fun p q : Z * Z => p.1 <= q.1) l).
  assert (k ≡ₚ l) as Hk by apply merge_sort_Permutation.
  assert (sumZ k.*2 = sumZ l.*2) as Hsum by by rewrite Hk.
  assert (0 <= sumZ l.*2).
  { apply sumZ_nonneg. intros ? (p & -> & ?)%list_elem_of_fmap. auto. }
  rewrite u64_wrap_id by (rewrite Hsum; mlia).
  destruct (median_loop_spec (sumZ k.*2) 0 0 k) as ((p & Hp & Hpt) & H2 & H3).
  - intros p Hp. apply Hpos. by rewrite <-Hk.
  - lia.
  - lia.
  - by rewrite Hsum.
  - rewrite Hsum. lia.
  - apply Sorted_StronglySorted; [apply _|]. apply Sorted_merge_sort, _.
  - intros E. rewrite E in Hk. by apply Permutation_nil in Hk.
  - set (t := median_loop (sumZ k.*2) 0 0 k) in *.
    rewrite (stake_where_perm _ k l Hk) in H2. rewrite (stake_where_perm _ k l Hk) in H3.
    rewrite Hsum in *. split_and!; [exists p; by rewrite <-Hk|lia|lia].
Qed.

(** C21: Byzantine robustness of the block timestamp.  When the honest entries
    carry more than half of the stake, the weighted median lies between two
    honest timestamps, whatever the others report. *)
Theorem weighted_median_honest (honest : Z * Z -> bool) (l : list (Z * Z)) :
  (forall p, p ∈ l -> 0 <= p.2) -> 2 * sumZ l.*2 <= u64_max ->
  sumZ l.*2 < 2 * stake_where (fun p => honest p = true) l ->
  exists p q, p ∈ l /\ q ∈ l /\ honest p = true /\ honest q = true /\
    p.1 <= weighted_median l <= q.1.
Proof.
  intros Hpos Hmax Hh.
  assert (l <> []) as Hne by (intros ->; by cbn in Hh).
  destruct (weighted_median_spec l Hne Hpos Hmax) as (_ & H2 & H3).
  set (t := weighted_median l) in *.
  destruct (stake_where_meet (fun p => honest p = true) (fun p => p.1 <= t) _ _ l Hpos)
    as (p & Hp & Hph & Hpt); [lia|].
  destruct (stake_where_meet (fun p => honest p = true) (fun p => t <= p.1) _ _ l Hpos)
    as (q & Hq & Hqh & Hqt).
  { pose proof (stake_where_nonneg (fun p => t <= p.1) l Hpos) as Hn.
    rewrite (stake_where_compl (fun p => p.1 < t) (fun p => t <= p.1) _ _ l) in Hn |- * by (intros; lia).
    pose proof (stake_where_nonneg (fun p => p.1 < t) l Hpos). lia. }
  exists p, q. by split_and!.
Qed.

(** ** Sequential rounds *)

Lemma sequential_keys_true prev ks :
  StronglySorted Z.lt ks -> (forall k, k ∈ ks -> is_u64 k) ->
  (forall k, k ∈ ks -> (forall k', k' ∈ ks -> k' <= k) \/ k + 1 ∈ ks) ->
  (forall p, prev = Some p -> 0 <= p /\ (forall k, k ∈ ks -> p < k) /\ (ks <> [] -> p + 1 ∈ ks)) ->
  sequential_keys prev ks = true.
Proof.
  intros Hs. revert prev. induction Hs as [|k ks Hs IH Hk]; intros prev Hu Hnext Hprev; [done|].
  rewrite Forall_forall in Hk. cbn.
  assert (sequential_keys (Some k) ks = true) as Hrec.
  { apply IH.
    - intros. apply Hu. by right.
    - intros j Hj. destruct (Hnext j ltac:(by right)) as [Hmax|Hin].
      + left. intros j' ?. apply Hmax. by right.
      + apply elem_of_cons in Hin as [?|?]; [|by right]. specialize (Hk j Hj). lia.
    - intros p [= <-]. pose proof (Hu k ltac:(left)). split_and!; [mlia|done|]. intros Hne.
      destruct (Hnext k ltac:(left)) as [Hmax|Hin].
      + destruct ks as [|j ks]; [done|]. pose proof (Hk j ltac:(left)).
        pose proof (Hmax j ltac:(right; left)). lia.
      + apply elem_of_cons in Hin as [?|?]; [lia|done]. }
  destruct prev as [p|]; [|done]. destruct (Hprev p eq_refl) as (Hp0 & Hlt & Hin).
  pose proof (Hlt k ltac:(left)). pose proof (Hu k ltac:(left)).
  specialize (Hin ltac:(done)). apply elem_of_cons in Hin as [Heq|Hin].
  - rewrite decide_False; [done|]. rewrite u64_wrap_id; [lia|mlia].
  - specialize (Hk _ Hin). lia.
Qed.

Lemma btree_keys_sorted {V} (m : gmap Z V) : StronglySorted Z.lt (btree_iter m).*1.
Proof.
  pose proof (btree_iter_sorted m) as Hs. pose proof (btree_iter_NoDup_keys m) as Hnd.
  revert Hnd. induction Hs as [|p l Hs IH Hall]; intros Hnd; [constructor|]. cbn in Hnd |- *.
  apply NoDup_cons in Hnd as [Hn Hnd]. constructor; [by apply IH|].
  apply Forall_forall. intros k (q & -> & Hq)%list_elem_of_fmap.
  pose proof (proj1 (Forall_forall _ _) Hall q Hq) as Hp. unfold key_le in Hp.
  assert (p.1 <> q.1); [|lia]. intros E. apply Hn. rewrite E. by apply list_elem_of_fmap_2.
Qed.

Lemma is_sequential_true (m : commit_map) :
  (forall k l, m !! k = Some l -> is_u64 k) ->
  (forall k l, m !! k = Some l -> (forall k' l', m !! k' = Some l' -> k' <= k) \/ is_Some (m !! (k + 1))) ->
  is_sequential m = true.
Proof.
  intros Hu Hnext.
  assert (forall k, k ∈ (btree_iter m).*1 <-> is_Some (m !! k)) as Hk.
  { intros k. rewrite list_elem_of_fmap. split.
    - intros ([? l] & -> & H%elem_of_btree_iter). eauto.
    - intros [l Hl]. exists (k, l). by rewrite elem_of_btree_iter. }
  apply sequential_keys_true; [apply btree_keys_sorted|..|done].
  - intros k [l Hl]%Hk. eauto.
  - intros k [l Hl]%Hk. rewrite Hk. destruct (Hnext k l Hl) as [Hmax|?]; [left|by right].
    intros k' [l' ?]%Hk. eauto.
Qed.

(** ** Round trip *)

Context {NL : NetworkLaws N}.

(** A certificate that the checked reader accepts. *)
Definition certificate_ok (c : BatchCertificate) : Prop :=
  header_typed (batch_header c) /\ header_valid (batch_header c) /\ certificate_valid c.

Lemma reads_certificates (unchecked : bool) l bs :
  (forall c, c ∈ l -> certificate_ok c) -> write_certificates l = Ok bs ->
  reads (read_many (length l) (read_certificate unchecked)) bs l.
Proof.
  revert bs. induction l as [|c l IH]; intros bs Hl Hw; cbn in Hw; simp_ok; [apply reads_ret|].
  destruct (Hl c ltac:(left)) as (? & ? & ?).
  cbn [read_many length]. eapply reads_bind; [by eapply reads_certificate|].
  eapply reads_bind_last; [|apply reads_ret]. apply IH; [intros; apply Hl; by right|done].
Qed.

Lemma reads_round (unchecked : bool) p bs :
  (forall c, c ∈ p.2 -> certificate_ok c) -> is_u64 p.1 -> len p.2 <= LATEST_MAX_CERTIFICATES ->
  NoDup (cert_id <$> p.2) -> write_round p = Ok bs -> reads (read_round unchecked) bs p.
Proof.
  intros Hc Hr Hlen Hnd Hw. destruct p as [r l]. cbn in *. unfold write_round in Hw. cbn in Hw. simp_ok.
  match goal with H : try_u16 _ = _ |- _ => apply try_u16_Ok in H as [-> Hn] end.
  eapply reads_bind; [by apply reads_u64|].
  eapply reads_bind; [by apply reads_u16, is_u16_len|]. rewrite bool_decide_eq_false_2 by lia.
  eapply reads_bind_last; [unfold len; rewrite Nat2Z.id; by eapply reads_certificates|].
  rewrite iset_of_list_id by done. apply reads_ret.
Qed.

Lemma reads_rounds (unchecked : bool) l bs :
  (forall p, p ∈ l -> (forall c, c ∈ p.2 -> certificate_ok c) /\ is_u64 p.1 /\
     len p.2 <= LATEST_MAX_CERTIFICATES /\ NoDup (cert_id <$> p.2)) ->
  write_rounds l = Ok bs -> reads (read_many (length l) (read_round unchecked)) bs l.
Proof.
  revert bs. induction l as [|p l IH]; intros bs Hl Hw; cbn in Hw; simp_ok; [apply reads_ret|].
  destruct (Hl p ltac:(left)) as (? & ? & ? & ?).
  cbn [read_many length]. eapply reads_bind; [by eapply reads_round|].
  eapply reads_bind_last; [|apply reads_ret]. apply IH; [intros; apply Hl; by right|done].
Qed.

Lemma foldl_btree_iter (m : commit_map) :
  foldl (fun m p => <[p.1 := p.2]> m) ∅ (btree_iter m) = m.
Proof.
  assert (forall (l : list (Z * list BatchCertificate)) (m0 : commit_map), NoDup l.*1 ->
    foldl (fun m p => <[p.1 := p.2]> m) m0 l = (list_to_map l : commit_map) ∪ m0) as H.
  { induction l as [|[k v] l IH]; intros m0 Hnd; cbn [foldl]; [by rewrite (left_id_L _ _)|].
    apply NoDup_cons in Hnd as [Hk Hnd]. rewrite IH by done. cbn.
    rewrite <-insert_union_r; [by rewrite insert_union_l|]. by apply not_elem_of_list_to_map. }
  rewrite H, (right_id_L _ _) by apply btree_iter_NoDup_keys.
  rewrite (list_to_map_proper _ (map_to_list m)); [apply list_to_map_to_list|apply btree_iter_NoDup_keys|].
  apply btree_iter_perm.
Qed.

Lemma length_btree_iter (m : commit_map) : length (btree_iter m) = size m.
Proof. by rewrite btree_iter_perm, length_map_to_list. Qed.

(** A subdag of valid certificates read back from its own encoding is the
    same subdag; the checked reader needs it to pass [Subdag::from]. *)
Theorem subdag_round_trip (unchecked : bool) (subdag : commit_map) (bs rest : list Z) :
  (forall r l, subdag !! r = Some l -> is_u64 r /\ len l <= LATEST_MAX_CERTIFICATES /\
     NoDup (cert_id <$> l) /\ forall c, c ∈ l -> certificate_ok c) ->
  Z.of_nat (size subdag) <= MAX_ROUNDS ->
  (unchecked = false -> from subdag = Ok subdag) ->
  write_subdag subdag = Ok bs -> read_subdag unchecked (bs ++ rest) = Ok (subdag, rest).
Proof.
  intros Hall Hsize Hfrom Hw. revert rest. change (reads (read_subdag unchecked) bs subdag).
  unfold write_subdag in Hw. simp_ok.
  match goal with H : try_u32 _ = _ |- _ => apply try_u32_Ok in H as [-> Hn] end.
  eapply reads_bind; [apply reads_u8; mlia|]. rewrite bool_decide_eq_true_2 by done. cbn [negb].
  eapply reads_bind; [apply reads_u32; mlia|]. rewrite bool_decide_eq_false_2 by lia.
  rewrite Nat2Z.id, <-length_btree_iter.
  eapply reads_bind_last.
  { eapply reads_rounds; [|done]. intros [r l] Hrl%elem_of_btree_iter.
    destruct (Hall r l Hrl) as (? & ? & ? & ?). done. }
  apply reads_lift. rewrite foldl_btree_iter. destruct unchecked; [done|]. by apply Hfrom.
Qed.

End Subdag.
End Subdag.

(** ** Witnesses *)

Definition sample_subdag : gmap Z (list (BatchCertificate (N := TestNetwork))) :=
  {[1 := sample_round1; 2 := [sample_cert 3]]}.

(** A certificate passes the checks of its constructors. *)
Definition certificate_check (c : BatchCertificate (N := TestNetwork)) : bool :=
  let h := batch_header c in
  bool_decide (header_from (h_author h) (h_round h) (h_timestamp h) (h_committee_id h)
    (h_transmission_ids h) (h_previous_certificate_ids h) (h_signature h) = Ok h) &&
  is_ok (certificate_from h (signatures c)) &&
  bool_decide (is_u64 (h_round h) /\ is_i64 (h_timestamp h) /\ NoDup (h_transmission_ids h)
    /\ NoDup (h_previous_certificate_ids h)).

Lemma certificate_check_ok c : certificate_check c = true -> Subdag.certificate_ok c.
Proof.
  unfold certificate_check. rewrite !andb_true_iff, !bool_decide_eq_true. intros [[Hh Hc] (? & ? & ? & ?)].
  split_and!; [by split| |].
  - by apply header_from_Ok in Hh as [? _].
  - destruct (certificate_from _ _) as [d|e|e|] eqn:E; [|done..].
    apply certificate_from_Ok in E as [Hd ->]. by destruct c.
Qed.

Lemma sample_certs_ok c : c ∈ sample_rounds -> Subdag.certificate_ok c.
Proof.
  intros Hc. apply certificate_check_ok.
  assert (forallb certificate_check sample_rounds = true) as H by vm_refl.
  rewrite forallb_forall in H. by apply H, list_elem_of_In.
Qed.

Lemma sample_subdag_lookup r l : sample_subdag !! r = Some l ->
  (r = 1 /\ l = sample_round1) \/ (r = 2 /\ l = [sample_cert 3]).
Proof.
  unfold sample_subdag. rewrite lookup_insert_Some. intros [[<- <-]|[_ H]]; [by left|].
  apply lookup_singleton_Some in H as [<- <-]. by right.
Qed.

Lemma sample_subdag_certs r l c : sample_subdag !! r = Some l -> c ∈ l -> c ∈ sample_rounds.
Proof.
  intros [[-> ->]|[-> ->]]%sample_subdag_lookup Hc.
  - unfold sample_rounds. set_solver.
  - apply list_elem_of_singleton in Hc as ->. apply elem_of_sample_cert. lia.
Qed.

Lemma sample_subdag_typed : Subdag.subdag_typed sample_subdag.
Proof.
  split.
  - intros r l [[-> ->]|[-> ->]]%sample_subdag_lookup; apply (bool_decide_unpack _); by vm_compute.
  - intros r1 r2 c d (l1 & H1 & Hc) (l2 & H2 & Hd) Hid.
    apply sample_rounds_inj; [by apply (sample_subdag_certs r1 l1)|by apply (sample_subdag_certs r2 l2)|done].
Qed.

Lemma sanity_check_correct_witness :
  Subdag.sanity_check_subdag_with_dfs sample_subdag = Ok true /\ Subdag.structure_ok sample_subdag.
Proof.
  assert (Subdag.sanity_check_subdag_with_dfs sample_subdag = Ok true) as H by vm_refl.
  split; [exact H|].
  destruct (Subdag.sanity_check_correct sample_subdag sample_subdag_typed) as (b & Hb & Hiff).
  rewrite H in Hb. apply Ok_inj in Hb. exact (proj1 Hiff (eq_sym Hb)).
Defined.

Lemma weighted_median_honest_witness :
  exists p q, p ∈ [(5, 1); (100, 1); (7, 1)] /\ q ∈ [(5, 1); (100, 1); (7, 1)] /\
    p.1 <= Subdag.weighted_median [(5, 1); (100, 1); (7, 1)] <= q.1.
Proof.
  destruct (Subdag.weighted_median_honest (fun p => bool_decide (p.1 < 50)) [(5, 1); (100, 1); (7, 1)])
    as (p & q & Hp & Hq & _ & _ & H).
  - apply Forall_forall, (bool_decide_unpack _). by vm_compute.
  - by vm_compute.
  - by vm_compute.
  - exists p, q. split_and!; [exact Hp|exact Hq|apply H..].
Defined.

Lemma subdag_round_trip_witness :
  Subdag.read_subdag false (unwrap_or [] (Subdag.write_subdag sample_subdag) ++ [9])
  = Ok (sample_subdag, [9]).
Proof.
  apply (Subdag.subdag_round_trip false sample_subdag _ [9]).
  - intros r l Hl. split_and!.
    + apply sample_subdag_lookup in Hl as [[-> _]|[-> _]]; mlia.
    + apply sample_subdag_lookup in Hl as [[_ ->]|[_ ->]]; by vm_compute.
    + by eapply Subdag.st_nodup; [apply sample_subdag_typed|].
    + intros c Hc. apply sample_certs_ok. by eapply sample_subdag_certs.
  - by vm_compute.
  - intros _. vm_refl.
  - vm_refl.
Defined.
