(* ===== verification/Lru.v ===== *)
(** * Bounded caches and persistent maps

    Two external containers the node is built on, as interfaces: the
    least-recently-used cache of the [lru] crate and the key-value maps of the
    database ([DataMap]).  The laws state what the clients rely on, in terms of
    the finite map the container holds.  Each interface has an executable
    instance. *)

From S2P Require Import Prelude.

(** ** [lru::LruCache] *)

Class LruOps (C K V : Type) `{Countable K} := {
  lru_new : Z -> C;
  (** [contains] and [peek] do not touch the recency order, [get] does. *)
  lru_contains : C -> K -> bool;
  lru_peek : C -> K -> option V;
  lru_get : C -> K -> option V * C;
  lru_put : C -> K -> V -> C;
  lru_pop : C -> K -> C;
  (** The entries. *)
  lru_view : C -> gmap K V;
}.

Class LruLaws (C K V : Type) `{LruOps C K V} := {
  lru_view_new cap : lru_view (lru_new cap) = ∅;
  lru_contains_view (c : C) k :
    lru_contains c k = bool_decide (is_Some (lru_view c !! k));
  lru_peek_view (c : C) k : lru_peek c k = lru_view c !! k;
  lru_get_view (c : C) k :
    (lru_get c k).1 = lru_view c !! k /\ lru_view (lru_get c k).2 = lru_view c;
  (** [put] stores its entry and may evict others. *)
  lru_put_same (c : C) k v : lru_view (lru_put c k v) !! k = Some v;
  lru_put_sub (c : C) k v : lru_view (lru_put c k v) ⊆ <[k := v]> (lru_view c);
  lru_pop_view (c : C) k : lru_view (lru_pop c k) = delete k (lru_view c);
}.

(** An instance: the entries from the most to the least recently used. *)
Module ListLru.
Record cache (K V : Type) := mk_cache { capacity : Z; entries : list (K * V) }.
Arguments mk_cache {_ _} _ _.
Arguments capacity {_ _} _.
Arguments entries {_ _} _.

Section Ops.
Context {K V : Type} `{Countable K}.

(** The entries other than that of [k]. *)
Definition without (k : K) (l : list (K * V)) : list (K * V) :=
  base.filter (fun p => p.1 <> k) l.

Definition view (c : cache K V) : gmap K V := list_to_map (entries c).

Definition get (c : cache K V) (k : K) : option V * cache K V :=
  match view c !! k with
  | Some v => (Some v, mk_cache (capacity c) ((k, v) :: without k (entries c)))
  | None => (None, c)
  end.

Definition put (c : cache K V) (k : K) (v : V) : cache K V :=
  mk_cache (capacity c) ((k, v) :: take (Z.to_nat (capacity c - 1)) (without k (entries c))).

Definition pop (c : cache K V) (k : K) : cache K V :=
  mk_cache (capacity c) (without k (entries c)).

Lemma lookup_without k l k' :
  (list_to_map (without k l) : gmap K V) !! k' =
  if decide (k' = k) then None else (list_to_map l : gmap K V) !! k'.
Proof.
  unfold without. induction l as [|[k1 v1] l IH]; [by case_decide|].
  rewrite filter_cons, list_to_map_cons. destruct (decide ((k1, v1).1 <> k)) as [Hk|Hk]; cbn in Hk.
  - rewrite list_to_map_cons. destruct (decide (k1 = k')) as [->|?].
    + by rewrite !lookup_insert_eq, decide_False.
    + by rewrite !lookup_insert_ne, IH by done.
  - apply dec_stable in Hk as ->. rewrite IH. case_decide; [done|]. by rewrite lookup_insert_ne.
Qed.

Lemma list_to_map_take n (l : list (K * V)) :
  (list_to_map (take n l) : gmap K V) ⊆ list_to_map l.
Proof.
  revert n. induction l as [|[k v] l IH]; intros [|n]; cbn; try done; try apply map_empty_subseteq.
  apply insert_mono, IH.
Qed.
End Ops.

#[global] Instance list_lru_ops {K V : Type} `{Countable K} : LruOps (cache K V) K V := {|
  lru_new cap := mk_cache cap [];
  lru_contains c k := bool_decide (is_Some (view c !! k));
  lru_peek c k := view c !! k;
  lru_get c k := get c k;
  lru_put c k v := put c k v;
  lru_pop c k := pop c k;
  lru_view c := view c;
|}.

#[global] Instance list_lru_laws {K V : Type} `{Countable K} : LruLaws (cache K V) K V.
Proof.
  split; intros; cbn; try done.
  - unfold get. destruct (view c !! k) as [v|] eqn:E; cbn; [|done]. split; [done|].
    apply map_eq. intros k'. unfold view. cbn. destruct (decide (k = k')) as [->|?].
    + by rewrite lookup_insert_eq, <-E.
    + rewrite lookup_insert_ne, lookup_without, decide_False by done. done.
  - unfold view. cbn. by rewrite lookup_insert_eq.
  - unfold view. cbn. apply map_subseteq_spec. intros k' v'.
    destruct (decide (k = k')) as [->|?]; [by rewrite !lookup_insert_eq|].
    rewrite !lookup_insert_ne by done. intros Hv.
    eapply lookup_weaken in Hv; [|apply list_to_map_take].
    rewrite lookup_without, decide_False in Hv; done.
  - apply map_eq. intros k'. unfold view. cbn. rewrite lookup_without.
    case_decide; [subst; by rewrite lookup_delete_eq|by rewrite lookup_delete_ne].
Qed.
End ListLru.

(** ** [lru::LruCache] as a queue *)

(** The operations of the caches that the memory pool uses as queues.
    [lq_entries] lists the entries from the most to the least recently used. *)
Class LruQueueOps (C K V : Type) := {
  lq_new : Z -> C;
  lq_len : C -> Z;
  lq_contains : C -> K -> bool;
  (** The value that was replaced. *)
  lq_put : C -> K -> V -> option V * C;
  lq_get_or_insert : C -> K -> V -> C;
  lq_pop_lru : C -> option (K * V) * C;
  lq_clear : C -> C;
  lq_into_iter : C -> list (K * V);
  lq_cap : C -> Z;
  lq_entries : C -> list (K * V);
}.

(** The entries without that of [k], and the value of [k]. *)
Definition drop_key {K V} `{EqDecision K} (k : K) (l : list (K * V)) : list (K * V) := base.filter (fun p => p.1 <> k) l.
Definition assoc {K V} `{EqDecision K} (k : K) (l : list (K * V)) : option V :=
  snd <$> List.find (fun p => bool_decide (p.1 = k)) l.

(** A new entry is the most recently used one, and evicts the least recently
    used one of a full cache; a known key is moved to the front. *)
Definition bump {K V} `{EqDecision K} (cap : Z) (k : K) (v : V) (l : list (K * V)) : list (K * V) :=
  (k, v) :: (if assoc k l is Some _ then drop_key k l else if bool_decide (len l < cap) then l else removelast l).

Class LruQueueLaws (C K V : Type) `{EqDecision K} `{LruQueueOps C K V} := {
  lq_new_entries cap : lq_entries (lq_new cap : C) = [];
  lq_new_cap cap : lq_cap (lq_new cap : C) = cap;
  lq_len_entries (c : C) : lq_len c = len (lq_entries c);
  lq_contains_entries (c : C) k : lq_contains c k = bool_decide (k ∈ (lq_entries c).*1);
  lq_put_entries (c : C) k v : (lq_put c k v).1 = assoc k (lq_entries c) /\
    lq_entries (lq_put c k v).2 = bump (lq_cap c) k v (lq_entries c) /\ lq_cap (lq_put c k v).2 = lq_cap c;
  lq_get_or_insert_entries (c : C) k v :
    lq_entries (lq_get_or_insert c k v) = bump (lq_cap c) k (default v (assoc k (lq_entries c))) (lq_entries c) /\
    lq_cap (lq_get_or_insert c k v) = lq_cap c;
  lq_pop_lru_entries (c : C) : (lq_pop_lru c).1 = last (lq_entries c) /\
    lq_entries (lq_pop_lru c).2 = removelast (lq_entries c) /\ lq_cap (lq_pop_lru c).2 = lq_cap c;
  lq_clear_entries (c : C) : lq_entries (lq_clear c) = [] /\ lq_cap (lq_clear c) = lq_cap c;
  lq_into_iter_entries (c : C) : lq_into_iter c ≡ₚ lq_entries c;
}.

(** The list of entries is an instance. *)
Module LruQueue.
Section Instance_.
Context {K V : Type} `{EqDecision K}.

#[global] Instance list_queue_ops : LruQueueOps (ListLru.cache K V) K V := {|
  lq_new cap := ListLru.mk_cache cap [];
  lq_len c := len (ListLru.entries c);
  lq_contains c k := bool_decide (k ∈ (ListLru.entries c).*1);
  lq_put c k v := (assoc k (ListLru.entries c),
    ListLru.mk_cache (ListLru.capacity c) (bump (ListLru.capacity c) k v (ListLru.entries c)));
  lq_get_or_insert c k v := ListLru.mk_cache (ListLru.capacity c)
    (bump (ListLru.capacity c) k (default v (assoc k (ListLru.entries c))) (ListLru.entries c));
  lq_pop_lru c := (last (ListLru.entries c), ListLru.mk_cache (ListLru.capacity c) (removelast (ListLru.entries c)));
  lq_clear c := ListLru.mk_cache (ListLru.capacity c) [];
  lq_into_iter c := ListLru.entries c;
  lq_cap := ListLru.capacity;
  lq_entries := ListLru.entries;
|}.

#[global] Instance list_queue_laws : LruQueueLaws (ListLru.cache K V) K V.
Proof. by split. Qed.

(** Lists without a key twice. *)
Lemma assoc_None (k : K) (l : list (K * V)) : assoc k l = None <-> k ∉ l.*1.
Proof.
  unfold assoc. induction l as [|[k' v'] l IH]; cbn; [split; [intros _; apply not_elem_of_nil|done]|].
  rewrite not_elem_of_cons, <-IH. case_bool_decide; cbn; [|naive_solver]. split; [done|naive_solver].
Qed.

Lemma drop_key_keys k (l : list (K * V)) : (k ∉ (drop_key k l).*1) /\ sublist ((drop_key k l).*1) (l.*1).
Proof.
  split.
  - intros ([k' v'] & Hk & [Hne _]%list_elem_of_filter)%list_elem_of_fmap. naive_solver.
  - unfold drop_key. induction l as [|a l IH]; [done|]. rewrite filter_cons. case_decide; cbn; [by apply sublist_skip|by apply sublist_cons].
Qed.

Lemma drop_key_short k (l : list (K * V)) : is_Some (assoc k l) -> (length (drop_key k l) < length l)%nat.
Proof.
  unfold assoc, drop_key. induction l as [|[k' v'] l IH]; [by intros []|]. rewrite filter_cons. cbn.
  case_bool_decide as Hk.
  - intros _. rewrite decide_False by naive_solver. pose proof (length_filter (fun p : K * V => p.1 <> k) l). lia.
  - intros Hs. specialize (IH Hs). rewrite decide_True by done. cbn. lia.
Qed.

(** [bump] keeps the keys distinct and the list within its capacity. *)
Lemma bump_keys cap k v (l : list (K * V)) : NoDup l.*1 -> NoDup (bump cap k v l).*1.
Proof.
  intros Hl. unfold bump. cbn. destruct (assoc k l) eqn:E; cbn; apply NoDup_cons.
  - destruct (drop_key_keys k l) as [? Hs]. split; [done|]. by eapply sublist_NoDup.
  - apply assoc_None in E. case_bool_decide; [done|]. rewrite fmap_removelast. split; [|by apply NoDup_removelast].
    intros ?%elem_of_removelast. done.
Qed.

Lemma bump_length cap k v (l : list (K * V)) : 1 <= cap -> len l <= cap -> len (bump cap k v l) <= cap.
Proof.
  intros Hc Hl. unfold bump, len in *. cbn [length]. destruct (assoc k l) eqn:E; cbn.
  - pose proof (drop_key_short k l ltac:(by eexists)). lia.
  - case_bool_decide; [lia|]. rewrite length_removelast. lia.
Qed.
End Instance_.
End LruQueue.

(** ** [DataMap] *)

(** A persistent map; every access may fail with an I/O error. *)
Class DataMapOps (M K V : Type) `{Countable K} := {
  dm_get : M -> K -> result (option V);
  dm_contains : M -> K -> result bool;
  dm_insert : M -> K -> V -> result (M);
  dm_remove : M -> K -> result (M);
  dm_view : M -> gmap K V;
}.

(** A database that works: no access fails, and the map is what was written. *)
Class DataMapLaws (M K V : Type) `{DataMapOps M K V} := {
  dm_get_view (m : M) k : dm_get m k = Ok (dm_view m !! k);
  dm_contains_view (m : M) k :
    dm_contains m k = Ok (bool_decide (is_Some (dm_view m !! k)));
  dm_insert_view (m : M) k v :
    exists m', dm_insert m k v = Ok m' /\ dm_view m' = <[k := v]> (dm_view m);
  dm_remove_view (m : M) k :
    exists m', dm_remove m k = Ok m' /\ dm_view m' = delete k (dm_view m);
}.

Module MapDb.
Record db (K V : Type) := mk_db { contents : list (K * V) }.
Arguments mk_db {_ _} _.
Arguments contents {_ _} _.

#[global] Instance map_db_ops {K V : Type} `{Countable K} : DataMapOps (db K V) K V := {|
  dm_get m k := Ok ((list_to_map (contents m) : gmap K V) !! k);
  dm_contains m k :=
    Ok (bool_decide (is_Some ((list_to_map (contents m) : gmap K V) !! k)));
  dm_insert m k v := Ok (mk_db ((k, v) :: contents m));
  dm_remove m k := Ok (mk_db (ListLru.without k (contents m)));
  dm_view m := list_to_map (contents m);
|}.

#[global] Instance map_db_laws {K V : Type} `{Countable K} : DataMapLaws (db K V) K V.
Proof.
  split; intros; cbn; try done.
  - by eexists.
  - eexists. split; [done|]. cbn. apply map_eq. intros k'. rewrite ListLru.lookup_without.
    case_decide; [subst; by rewrite lookup_delete_eq|by rewrite lookup_delete_ne].
Qed.
End MapDb.
