(* ===== verification/StorageService.v ===== *)
(** * Storage services

    The trait [StorageService] (node/bft/storage-service/src/traits.rs), which
    keeps the transmissions of the certificates in storage, and its two
    implementations: [BFTMemoryService] (memory.rs) and [BFTPersistentStorage]
    (persistent.rs).  [StorageServiceLaws] is what the storage relies on; both
    implementations are instances. *)

From S2P Require Import Prelude Network Narwhal Lru.

Abbreviation transmission_map := (gmap TransmissionID Transmission).

(** ** The trait *)

Class StorageServiceOps `{N : Network} (S : Type) := {
  svc_contains : S -> TransmissionID -> bool;
  (** A read may update the recency order of a cache. *)
  svc_get : S -> TransmissionID -> option Transmission * S;
  svc_find_missing : S -> BatchHeader -> transmission_map -> gset TransmissionID ->
    result transmission_map;
  svc_insert : S -> Field -> list TransmissionID -> gset TransmissionID -> transmission_map -> result S;
  svc_remove : S -> Field -> list TransmissionID -> S;
}.

(** What [Storage] relies on: an insertion of what [find_missing_transmissions]
    reported succeeds and makes every transmission of the batch known, as
    content or as aborted; [find_missing_transmissions] returns, and succeeds
    when it is given every transmission of the batch; insertions keep what is
    known; removals affect only the transmissions of the removed certificate. *)
Class StorageServiceLaws `{N : Network} (S : Type) `{!StorageServiceOps S} := {
  svc_insert_find s h ts aborted missing id :
    svc_find_missing s h ts aborted = Ok missing ->
    exists s', svc_insert s id (h_transmission_ids h) aborted missing = Ok s' /\
      (forall t, t ∈ h_transmission_ids h -> svc_contains s' t = true);
  svc_find_provided s h ts aborted :
    NoDup (h_transmission_ids h) -> (forall t, t ∈ h_transmission_ids h -> is_Some (ts !! t)) ->
    exists missing, svc_find_missing s h ts aborted = Ok missing;
  svc_find_returns s h ts aborted : svc_find_missing s h ts aborted <> Deadlock;
  svc_insert_mono s id tids aborted missing s' t :
    svc_insert s id tids aborted missing = Ok s' -> svc_contains s t = true ->
    svc_contains s' t = true;
  svc_remove_other s id tids t :
    t ∉ tids -> svc_contains (svc_remove s id tids) t = svc_contains s t;
}.

(** ** Shared helpers *)

Section Services.
Context `{N : Network}.

(** The loop of [find_missing_transmissions] over the declared IDs, given the
    test for the known ones. *)
Fixpoint find_missing_loop (known : TransmissionID -> bool) (tids : list TransmissionID)
    (transmissions : transmission_map) (aborted : gset TransmissionID) (missing : transmission_map)
    : result transmission_map :=
  match tids with
  | [] => Ok missing
  | t :: tids =>
      if known t then find_missing_loop known tids transmissions aborted missing
      else match transmissions !! t with
           | Some x => find_missing_loop known tids (delete t transmissions) aborted (<[t := x]> missing)
           | None =>
               if bool_decide (t ∈ aborted)
               then find_missing_loop known tids transmissions aborted missing
               else Err "Failed to provide a transmission"
           end
  end.

(** Every declared transmission is known, reported as missing, or aborted. *)
Lemma find_missing_loop_spec known tids ts aborted missing m :
  find_missing_loop known tids ts aborted missing = Ok m ->
  (forall t, t ∈ tids -> known t = true \/ is_Some (m !! t) \/ t ∈ aborted) /\
  (forall t, is_Some (missing !! t) -> is_Some (m !! t)).
Proof.
  revert ts missing. induction tids as [|t tids IH]; intros ts missing H; cbn in H.
  { simp_ok. set_solver. }
  destruct (known t) eqn:Ek.
  { apply IH in H as [H1 H2]. split; [|done]. set_solver. }
  destruct (ts !! t) as [x|] eqn:Et.
  - apply IH in H as [H1 H2]. split.
    + intros t' [->|?]%elem_of_cons; [|auto]. right; left. apply H2. by rewrite lookup_insert_eq.
    + intros t' Ht'. apply H2. by apply lookup_insert_is_Some'; right.
  - case_bool_decide; [|done]. apply IH in H as [H1 H2]. split; [|done]. set_solver.
Qed.

Lemma find_missing_loop_provided known tids ts aborted missing :
  NoDup tids -> (forall t, t ∈ tids -> is_Some (ts !! t)) ->
  exists m, find_missing_loop known tids ts aborted missing = Ok m.
Proof.
  revert ts missing. induction tids as [|t tids IH]; intros ts missing Hnd Hall; cbn [find_missing_loop]; [eauto|].
  apply NoDup_cons in Hnd as [Ht Hnd]. destruct (Hall t ltac:(left)) as [x Hx].
  destruct (known t); [apply IH; set_solver|]. rewrite Hx. apply IH; [done|].
  intros u Hu. rewrite lookup_delete_ne by set_solver. apply Hall. by right.
Qed.

Lemma find_missing_loop_returns known tids ts aborted missing :
  find_missing_loop known tids ts aborted missing <> Deadlock.
Proof.
  revert ts missing. induction tids as [|t tids IH]; intros ts missing; cbn [find_missing_loop]; [done|].
  destruct (known t); [apply IH|]. destruct (ts !! t); [apply IH|]. by case_bool_decide; [apply IH|].
Qed.

(** The aborted IDs get the certificate ID: [insert_transmissions], last loop. *)
Definition insert_aborted (id : Field) (aborted : gset TransmissionID)
    (m : gmap TransmissionID (gset Field)) : gmap TransmissionID (gset Field) :=
  foldl (fun m t => <[t := default ∅ (m !! t) ∪ {[id]}]> m) m (elements aborted).

Lemma insert_aborted_lookup id aborted m t :
  is_Some (insert_aborted id aborted m !! t) <-> is_Some (m !! t) \/ t ∈ aborted.
Proof.
  unfold insert_aborted. rewrite <-(elem_of_elements aborted). generalize (elements aborted) as l.
  intros l. revert m. induction l as [|u l IH]; intros m; cbn; [set_solver|].
  rewrite IH, lookup_insert_is_Some'. set_solver.
Qed.

(** Removes the certificate ID from an entry, and the entry when it was the
    last one. *)
Definition remove_ref {V} (ids : V -> gset Field) (upd : gset Field -> V -> V)
    (id : Field) (t : TransmissionID) (m : gmap TransmissionID V) : gmap TransmissionID V :=
  match m !! t with
  | Some v => if decide (ids v ∖ {[id]} = ∅) then delete t m
              else <[t := upd (ids v ∖ {[id]}) v]> m
  | None => m
  end.

Lemma remove_ref_other {V} (ids : V -> gset Field) upd id t m t' :
  t <> t' -> remove_ref ids upd id t m !! t' = m !! t'.
Proof.
  intros Ht. unfold remove_ref. destruct (m !! t); [|done].
  case_decide; [by rewrite lookup_delete_ne|by rewrite lookup_insert_ne].
Qed.

Lemma union_difference_fresh (id : Field) (ids : gset Field) :
  id ∉ ids -> (ids ∪ {[id]}) ∖ {[id]} = ids.
Proof. intros H. apply set_eq. intros x. destruct (decide (x = id)); set_solver. Qed.

Lemma difference_fresh (id : Field) (ids : gset Field) : id ∉ ids -> ids ∖ {[id]} = ids.
Proof. intros H. apply set_eq. intros x. destruct (decide (x = id)); set_solver. Qed.

(** The lookup of an entry after its references to [id] are removed. *)
Definition drop_ref {V} (ids : V -> gset Field) (upd : gset Field -> V -> V) (id : Field)
    (o : option V) : option V :=
  v ← o; if decide (ids v ∖ {[id]} = ∅) then None else Some (upd (ids v ∖ {[id]}) v).

Lemma remove_refs_lookup {V} (ids : V -> gset Field) upd id tids m t :
  (forall s v, ids (upd s v) = s) -> (forall s s' v, upd s (upd s' v) = upd s v) ->
  foldl (fun m t => remove_ref ids upd id t m) m tids !! t =
  if decide (t ∈ tids) then drop_ref ids upd id (m !! t) else m !! t.
Proof.
  intros Hids Hupd. revert m. induction tids as [|u tids IH]; intros m; cbn [foldl].
  { by rewrite decide_False by set_solver. }
  rewrite IH. destruct (decide (u = t)) as [->|Hu].
  - rewrite (decide_True (P := t ∈ t :: tids)) by left. unfold remove_ref, drop_ref.
    destruct (m !! t) as [v|] eqn:Ev; cbn; [|rewrite Ev; by case_decide].
    destruct (decide (ids v ∖ {[id]} = ∅)) as [Hv|Hv]; cbn.
    + rewrite lookup_delete_eq. by case_decide.
    + rewrite lookup_insert_eq. cbn. destruct (decide (t ∈ tids)); [|done].
      rewrite Hids, Hupd. replace (ids v ∖ {[id]} ∖ {[id]}) with (ids v ∖ {[id]}) by set_solver.
      by rewrite decide_False.
  - rewrite remove_ref_other by done. by rewrite (decide_ext (t ∈ u :: tids) (t ∈ tids)) by set_solver.
Qed.

End Services.

(** ** [BFTMemoryService] *)

Module Memory.
Section Memory.
Context `{N : Network}.

Record BFTMemoryService := mk_memory {
  transmissions : gmap TransmissionID (Transmission * gset Field);
  aborted_transmission_ids : gmap TransmissionID (gset Field);
}.

Definition new : BFTMemoryService := mk_memory ∅ ∅.

(** [contains_transmission]. *)
Definition contains_transmission (s : BFTMemoryService) (t : TransmissionID) : bool :=
  bool_decide (is_Some (transmissions s !! t)) ||
  bool_decide (is_Some (aborted_transmission_ids s !! t)).

(** [get_transmission]. *)
Definition get_transmission (s : BFTMemoryService) (t : TransmissionID) : option Transmission :=
  fst <$> transmissions s !! t.

(** [find_missing_transmissions]: a transmission that is only recorded as
    aborted is not known here. *)
Definition find_missing_transmissions (s : BFTMemoryService) (h : BatchHeader)
    (ts : transmission_map) (aborted : gset TransmissionID) : result transmission_map :=
  find_missing_loop (fun t => bool_decide (is_Some (transmissions s !! t)))
    (h_transmission_ids h) ts aborted ∅.

(** The first loop of [insert_transmissions].  The check of an unknown
    transmission calls [contains_transmission], which takes the read lock while
    the write lock is held. *)
Fixpoint insert_loop (id : Field) (tids : list TransmissionID) (aborted : gset TransmissionID)
    (missing : transmission_map) (m : gmap TransmissionID (Transmission * gset Field))
    : result (gmap TransmissionID (Transmission * gset Field)) :=
  match tids with
  | [] => Ok m
  | t :: tids =>
      match m !! t with
      | Some (x, ids) => insert_loop id tids aborted missing (<[t := (x, ids ∪ {[id]})]> m)
      | None =>
          match missing !! t with
          | Some x => insert_loop id tids aborted (delete t missing) (<[t := (x, {[id]})]> m)
          | None => if bool_decide (t ∈ aborted) then insert_loop id tids aborted missing m
                    else Deadlock
          end
      end
  end.

(** [insert_transmissions]. *)
Definition insert_transmissions (s : BFTMemoryService) (id : Field) (tids : list TransmissionID)
    (aborted : gset TransmissionID) (missing : transmission_map) : result BFTMemoryService :=
  m ← insert_loop id tids aborted missing (transmissions s);
  Ok (mk_memory m (insert_aborted id aborted (aborted_transmission_ids s))).

(** [remove_transmissions]. *)
Definition remove_transmissions (s : BFTMemoryService) (id : Field) (tids : list TransmissionID)
    : BFTMemoryService :=
  foldl (fun s t =>
    mk_memory (remove_ref snd (fun ids v => (v.1, ids)) id t (transmissions s))
      (remove_ref (fun ids => ids) (fun ids _ => ids) id t (aborted_transmission_ids s))) s tids.

Lemma insert_loop_Ok id tids aborted missing m m' :
  insert_loop id tids aborted missing m = Ok m' ->
  (forall t, t ∈ tids -> is_Some (m' !! t) \/ t ∈ aborted) /\
  (forall t, is_Some (m !! t) -> is_Some (m' !! t)).
Proof.
  revert missing m. induction tids as [|t tids IH]; intros missing m H; cbn in H.
  { simp_ok. set_solver. }
  destruct (m !! t) as [[x ids]|] eqn:Em; [|destruct (missing !! t) as [x|] eqn:Et].
  - apply IH in H as [H1 H2]. split.
    + intros t' [->|?]%elem_of_cons; [|auto]. left. apply H2. by rewrite lookup_insert_eq.
    + intros t' ?. apply H2, lookup_insert_is_Some'. by right.
  - apply IH in H as [H1 H2]. split.
    + intros t' [->|?]%elem_of_cons; [|auto]. left. apply H2. by rewrite lookup_insert_eq.
    + intros t' ?. apply H2, lookup_insert_is_Some'. by right.
  - case_bool_decide; [|done]. apply IH in H as [H1 H2]. set_solver.
Qed.

(** The insertion loop completes when the missing transmissions are complete. *)
Lemma insert_loop_total id tids aborted missing m :
  (forall t, t ∈ tids -> is_Some (m !! t) \/ is_Some (missing !! t) \/ t ∈ aborted) ->
  exists m', insert_loop id tids aborted missing m = Ok m'.
Proof.
  revert missing m. induction tids as [|t tids IH]; intros missing m Hall; cbn; [eauto|].
  destruct (m !! t) as [[x ids]|] eqn:Em; [|destruct (missing !! t) as [x|] eqn:Et].
  - apply IH. intros t' Ht'. rewrite lookup_insert_is_Some'. set_solver.
  - apply IH. intros t' Ht'. rewrite lookup_insert_is_Some', lookup_delete_is_Some.
    destruct (decide (t = t')); set_solver.
  - rewrite bool_decide_eq_true_2; [apply IH; set_solver|].
    destruct (Hall t ltac:(left)) as [[? ?]|[[? ?]|?]]; [congruence|congruence|done].
Qed.

#[global] Instance memory_ops : StorageServiceOps BFTMemoryService := {|
  svc_contains := contains_transmission;
  svc_get s t := (get_transmission s t, s);
  svc_find_missing := find_missing_transmissions;
  svc_insert := insert_transmissions;
  svc_remove := remove_transmissions;
|}.

Lemma contains_true s t :
  contains_transmission s t = true <->
  is_Some (transmissions s !! t) \/ is_Some (aborted_transmission_ids s !! t).
Proof. unfold contains_transmission. by rewrite orb_true_iff, !bool_decide_eq_true. Qed.

#[global] Instance memory_laws : StorageServiceLaws BFTMemoryService.
Proof.
  split; cbn.
  - intros s h ts aborted missing id Hf. apply find_missing_loop_spec in Hf as [Hf _].
    destruct (insert_loop_total id (h_transmission_ids h) aborted missing (transmissions s)) as [m Hm].
    { intros t Ht. destruct (Hf t Ht) as [Hk|?]; [left; by apply bool_decide_eq_true in Hk|by right]. }
    eexists. unfold insert_transmissions. rewrite Hm. split; [done|].
    intros t Ht. apply contains_true. cbn. rewrite insert_aborted_lookup.
    apply insert_loop_Ok in Hm as [Hm _]. set_solver.
  - intros. by apply find_missing_loop_provided.
  - intros. apply find_missing_loop_returns.
  - intros s id tids aborted missing s' t H. unfold insert_transmissions in H. simp_ok.
    match goal with H : insert_loop _ _ _ _ _ = _ |- _ => apply insert_loop_Ok in H as [_ Hm] end.
    rewrite !contains_true. cbn. rewrite insert_aborted_lookup. set_solver.
  - intros s id tids t Ht. unfold remove_transmissions. revert s.
    induction tids as [|u tids IH]; intros s; cbn; [done|].
    rewrite IH by set_solver. unfold contains_transmission. cbn.
    rewrite !remove_ref_other by set_solver. done.
Qed.

Lemma insert_loop_lookup id tids aborted missing m m' t :
  insert_loop id tids aborted missing m = Ok m' ->
  m' !! t = if decide (t ∈ tids) then
              match m !! t with
              | Some (x, ids) => Some (x, ids ∪ {[id]})
              | None => (fun x => (x, {[id]})) <$> missing !! t
              end
            else m !! t.
Proof.
  revert missing m. induction tids as [|u tids IH]; intros missing m H; cbn in H.
  { simp_ok. by rewrite decide_False by set_solver. }
  destruct (decide (u = t)) as [->|Hu].
  - rewrite decide_True by left.
    destruct (m !! t) as [[x ids]|] eqn:Em; [|destruct (missing !! t) as [x|] eqn:Et].
    + apply IH in H as ->. rewrite lookup_insert_eq. case_decide; [|done]. do 2 f_equal. set_solver.
    + apply IH in H as ->. rewrite lookup_insert_eq. cbn. case_decide; [|done]. do 2 f_equal. set_solver.
    + case_bool_decide; [|done]. apply IH in H as ->. rewrite Em, Et. by case_decide.
  - rewrite (decide_ext (t ∈ u :: tids) (t ∈ tids)) by set_solver.
    destruct (m !! u) as [[x ids]|] eqn:Em; [|destruct (missing !! u) as [x|] eqn:Et].
    + apply IH in H as ->. by rewrite lookup_insert_ne.
    + apply IH in H as ->. by rewrite lookup_insert_ne, lookup_delete_ne.
    + case_bool_decide; [|done]. by apply IH in H as ->.
Qed.

Lemma remove_transmissions_fields s id tids :
  remove_transmissions s id tids =
  mk_memory (foldl (fun m t => remove_ref snd (fun ids v => (v.1, ids)) id t m) (transmissions s) tids)
    (foldl (fun m t => remove_ref (fun ids => ids) (fun ids _ => ids) id t m)
       (aborted_transmission_ids s) tids).
Proof.
  unfold remove_transmissions. revert s. induction tids as [|t tids IH]; intros s; cbn; [by destruct s|].
  by rewrite IH.
Qed.

(** Reference counts: no entry without a referring certificate, and the
    references of [id] are absent. *)
Definition no_ref (id : Field) (s : BFTMemoryService) : Prop :=
  (forall t x ids, transmissions s !! t = Some (x, ids) -> ids <> ∅ /\ id ∉ ids) /\
  (forall t ids, aborted_transmission_ids s !! t = Some ids -> ids <> ∅ /\ id ∉ ids).

Lemma insert_aborted_value id aborted m t :
  insert_aborted id aborted m !! t =
  if decide (t ∈ aborted) then Some (default ∅ (m !! t) ∪ {[id]}) else m !! t.
Proof.
  unfold insert_aborted. rewrite (decide_ext (t ∈ aborted) (t ∈ elements aborted))
    by (by rewrite elem_of_elements).
  generalize (elements aborted) as l. intros l. revert m.
  induction l as [|u l IH]; intros m; cbn [foldl]; [by rewrite decide_False by set_solver|].
  rewrite IH. destruct (decide (u = t)) as [->|Hu].
  - rewrite lookup_insert_eq, (decide_True (P := t ∈ t :: l)) by left. cbn.
    case_decide; [|done]. f_equal. set_solver.
  - rewrite lookup_insert_ne by done. by rewrite (decide_ext (t ∈ u :: l) (t ∈ l)) by set_solver.
Qed.

(** Storing the transmissions of a new certificate and removing the
    certificate again restores the storage: shared transmissions stay, those
    only this certificate referred to go. *)
Theorem memory_insert_remove (s s' : BFTMemoryService) (id : Field) (tids : list TransmissionID)
    (aborted : gset TransmissionID) (missing : transmission_map) :
  no_ref id s -> (forall t, t ∈ aborted -> t ∈ tids) ->
  insert_transmissions s id tids aborted missing = Ok s' ->
  remove_transmissions s' id tids = s.
Proof.
  intros [Ht Ha] Hsub H. unfold insert_transmissions in H. simp_ok.
  match goal with H : insert_loop _ _ _ _ _ = Ok ?x |- _ => rename H into Hm; rename x into m end.
  rewrite remove_transmissions_fields. destruct s as [tm am]. cbn in *. f_equal; apply map_eq; intros t.
  - rewrite remove_refs_lookup by done. rewrite (insert_loop_lookup _ _ _ _ _ _ t Hm).
    case_decide as Hin; [|done]. destruct (tm !! t) as [[x ids]|] eqn:E; cbn.
    + apply Ht in E as [Hne Hid]. rewrite union_difference_fresh by done. by rewrite decide_False.
    + destruct (missing !! t); cbn; [|done]. by rewrite decide_True by set_solver.
  - rewrite remove_refs_lookup by done. rewrite insert_aborted_value.
    destruct (decide (t ∈ aborted)) as [Hab|Hab].
    + rewrite decide_True by auto. destruct (am !! t) as [ids|] eqn:E; cbn.
      * apply Ha in E as [Hne Hid]. rewrite union_difference_fresh by done. by rewrite decide_False.
      * by rewrite decide_True by set_solver.
    + case_decide; [|done]. destruct (am !! t) as [ids|] eqn:E; cbn; [|done].
      apply Ha in E as [Hne Hid]. rewrite difference_fresh by done. by rewrite decide_False.
Qed.

(** The two halves of storing a certificate's transmissions agree.
    [insert_transmissions] never reaches the lookup that would wait for its own
    lock when it is given what [find_missing_transmissions] returned on the
    same state, and then every transmission of the batch is in storage or
    recorded as aborted. *)
Theorem memory_insert_after_find (s : BFTMemoryService) (h : BatchHeader)
    (ts missing : transmission_map) (aborted : gset TransmissionID) (id : Field) :
  find_missing_transmissions s h ts aborted = Ok missing ->
  exists s', insert_transmissions s id (h_transmission_ids h) aborted missing = Ok s' /\
    forall t, t ∈ h_transmission_ids h -> contains_transmission s' t = true.
Proof. exact (svc_insert_find (S := BFTMemoryService) s h ts aborted missing id). Qed.

(** A lock is taken twice.  A transmission that is neither stored, nor
    provided, nor listed as aborted makes [insert_transmissions] ask
    [contains_transmission], which waits for the write lock that
    [insert_transmissions] holds. *)
Theorem memory_insert_deadlock (s : BFTMemoryService) (t : TransmissionID)
    (tids : list TransmissionID) (aborted : gset TransmissionID) (missing : transmission_map)
    (id : Field) :
  transmissions s !! t = None -> missing !! t = None -> t ∉ aborted ->
  insert_transmissions s id (t :: tids) aborted missing = Deadlock.
Proof.
  intros H1 H2 H3. unfold insert_transmissions. cbn. rewrite H1, H2.
  by rewrite bool_decide_eq_false_2.
Qed.

End Memory.
End Memory.

(** ** [BFTPersistentStorage] *)

Module Persistent.
Section Persistent.
Context `{N : Network}.
Context {TMap AMap TCache ACache : Type}.
Context `{!DataMapOps TMap TransmissionID (Transmission * gset Field)}.
Context `{!DataMapOps AMap TransmissionID (gset Field)}.
Context `{!LruOps TCache TransmissionID (Transmission * gset Field)}.
Context `{!LruOps ACache TransmissionID (gset Field)}.

Record BFTPersistentStorage := mk_persistent {
  transmissions : TMap;
  aborted_transmission_ids : AMap;
  cache_transmissions : TCache;
  cache_aborted_transmission_ids : ACache;
}.

(** The cache capacity [BFTPersistentStorage::open] computes. *)
Definition cache_capacity : Z := LATEST_MAX_CERTIFICATES * MAX_TRANSMISSIONS_PER_BATCH * 2.

(** [BFTPersistentStorage::open]; the arguments are what opening the two maps
    of the database gives. *)
Definition open (open_transmissions : result TMap) (open_aborted : result AMap)
    : result BFTPersistentStorage :=
  _ ← ensure (bool_decide (cache_capacity <> 0)) "Could not construct NonZeroUsize";
  ts ← open_transmissions;
  ats ← open_aborted;
  Ok (mk_persistent ts ats (lru_new cache_capacity) (lru_new cache_capacity)).

(** [contains_transmission]; read errors are logged. *)
Definition contains_transmission (s : BFTPersistentStorage) (t : TransmissionID) : bool :=
  match dm_contains (transmissions s) t with
  | Ok true => true
  | _ => match dm_contains (aborted_transmission_ids s) t with Ok b => b | _ => false end
  end.

(** [get_transmission]. *)
Definition get_transmission (s : BFTPersistentStorage) (t : TransmissionID)
    : option Transmission * BFTPersistentStorage :=
  let '(o, cache) := lru_get (cache_transmissions s) t in
  let s' := mk_persistent (transmissions s) (aborted_transmission_ids s) cache
              (cache_aborted_transmission_ids s) in
  match o with
  | Some (x, _) => (Some x, s')
  | None => match dm_get (transmissions s) t with
            | Ok (Some (x, _)) => (Some x, s')
            | _ => (None, s')
            end
  end.

(** [find_missing_transmissions]: a transmission recorded as aborted is known. *)
Definition find_missing_transmissions (s : BFTPersistentStorage) (h : BatchHeader)
    (ts : transmission_map) (aborted : gset TransmissionID) : result transmission_map :=
  find_missing_loop (contains_transmission s) (h_transmission_ids h) ts aborted ∅.

(** Writes an entry to the database, where errors are logged, and to the cache. *)
Definition store_transmission (s : BFTPersistentStorage) (t : TransmissionID)
    (v : Transmission * gset Field) : BFTPersistentStorage :=
  mk_persistent (unwrap_or (transmissions s) (dm_insert (transmissions s) t v))
    (aborted_transmission_ids s) (lru_put (cache_transmissions s) t v)
    (cache_aborted_transmission_ids s).

(** The first loop of [insert_transmissions]. *)
Fixpoint insert_loop (id : Field) (tids : list TransmissionID) (missing : transmission_map)
    (s : BFTPersistentStorage) : BFTPersistentStorage :=
  match tids with
  | [] => s
  | t :: tids =>
      match dm_get (transmissions s) t with
      | Ok (Some (x, ids)) => insert_loop id tids missing (store_transmission s t (x, ids ∪ {[id]}))
      | Ok None =>
          match missing !! t with
          | Some x => insert_loop id tids (delete t missing) (store_transmission s t (x, {[id]}))
          | None => insert_loop id tids missing s
          end
      | _ => insert_loop id tids missing s
      end
  end.

(** One iteration of its second loop. *)
Definition insert_aborted_id (id : Field) (s : BFTPersistentStorage) (t : TransmissionID)
    : BFTPersistentStorage :=
  match dm_get (aborted_transmission_ids s) t with
  | Ok o =>
      let ids := default ∅ o ∪ {[id]} in
      mk_persistent (transmissions s)
        (unwrap_or (aborted_transmission_ids s) (dm_insert (aborted_transmission_ids s) t ids))
        (cache_transmissions s) (lru_put (cache_aborted_transmission_ids s) t ids)
  | _ => s
  end.

(** [insert_transmissions]. *)
Definition insert_transmissions (s : BFTPersistentStorage) (id : Field) (tids : list TransmissionID)
    (aborted : gset TransmissionID) (missing : transmission_map) : result BFTPersistentStorage :=
  Ok (foldl (insert_aborted_id id) (insert_loop id tids missing s) (elements aborted)).

(** One database map of [remove_transmissions]. *)
Definition remove_entry {M V} `{!DataMapOps M TransmissionID V} (ids : V -> gset Field)
    (upd : gset Field -> V -> V) (id : Field) (m : M) (t : TransmissionID) : M :=
  match dm_get m t with
  | Ok (Some v) =>
      if decide (ids v ∖ {[id]} = ∅) then unwrap_or m (dm_remove m t)
      else unwrap_or m (dm_insert m t (upd (ids v ∖ {[id]}) v))
  | _ => m
  end.

(** [remove_transmissions]: the caches are left as they are. *)
Definition remove_transmissions (s : BFTPersistentStorage) (id : Field) (tids : list TransmissionID)
    : BFTPersistentStorage :=
  foldl (fun s t =>
    mk_persistent (remove_entry snd (fun ids v => (v.1, ids)) id (transmissions s) t)
      (remove_entry (fun ids => ids) (fun ids _ => ids) id (aborted_transmission_ids s) t)
      (cache_transmissions s) (cache_aborted_transmission_ids s)) s tids.

#[global] Instance persistent_ops : StorageServiceOps BFTPersistentStorage := {|
  svc_contains := contains_transmission;
  svc_get := get_transmission;
  svc_find_missing := find_missing_transmissions;
  svc_insert := insert_transmissions;
  svc_remove := remove_transmissions;
|}.

(** *** With a working database *)

Context `{!DataMapLaws TMap TransmissionID (Transmission * gset Field)}.
Context `{!DataMapLaws AMap TransmissionID (gset Field)}.
Context `{!LruLaws TCache TransmissionID (Transmission * gset Field)}.

(** The memory service the database maps amount to. *)
Definition view (s : BFTPersistentStorage) : Memory.BFTMemoryService :=
  Memory.mk_memory (dm_view (transmissions s)) (dm_view (aborted_transmission_ids s)).

Lemma insert_view {M V} `{!DataMapOps M TransmissionID V, !DataMapLaws M TransmissionID V} (m : M) t v :
  dm_view (unwrap_or m (dm_insert m t v)) = <[t := v]> (dm_view m).
Proof. by destruct (dm_insert_view m t v) as (m' & -> & ?). Qed.

Lemma remove_entry_view {M V} `{!DataMapOps M TransmissionID V, !DataMapLaws M TransmissionID V}
    (ids : V -> gset Field) upd id (m : M) t :
  dm_view (remove_entry ids upd id m t) = remove_ref ids upd id t (dm_view m).
Proof.
  unfold remove_entry, remove_ref. rewrite dm_get_view. destruct (dm_view m !! t); [|done].
  case_decide; [|apply insert_view]. by destruct (dm_remove_view m t) as (m' & -> & ?).
Qed.

Lemma contains_view s t : contains_transmission s t = Memory.contains_transmission (view s) t.
Proof.
  unfold contains_transmission, Memory.contains_transmission. rewrite !dm_contains_view.
  cbn. by case_bool_decide.
Qed.

Lemma remove_view s id tids :
  view (remove_transmissions s id tids) = Memory.remove_transmissions (view s) id tids.
Proof.
  unfold remove_transmissions, Memory.remove_transmissions. revert s.
  induction tids as [|t tids IH]; intros s; cbn; [done|]. rewrite IH. f_equal.
  unfold view. cbn. by rewrite !remove_entry_view.
Qed.

(** The loop does what the memory service's does, except that it never stops. *)
Lemma insert_loop_view id tids aborted missing s m :
  Memory.insert_loop id tids aborted missing (dm_view (transmissions s)) = Ok m ->
  view (insert_loop id tids missing s) = Memory.mk_memory m (dm_view (aborted_transmission_ids s)).
Proof.
  revert missing s. induction tids as [|t tids IH]; intros missing s H; cbn in *; [by simp_ok|].
  rewrite dm_get_view. destruct (dm_view (transmissions s) !! t) as [[x ids]|] eqn:E.
  - rewrite (IH missing (store_transmission s t (x, ids ∪ {[id]}))); [done|]. cbn. by rewrite insert_view.
  - destruct (missing !! t) as [x|] eqn:Ex.
    + rewrite (IH (delete t missing) (store_transmission s t (x, {[id]}))); [done|].
      cbn. by rewrite insert_view.
    + case_bool_decide; [|done]. by apply IH.
Qed.

Lemma insert_aborted_view id l s :
  view (foldl (insert_aborted_id id) s l) =
  Memory.mk_memory (dm_view (transmissions s))
    (foldl (fun m t => <[t := default ∅ (m !! t) ∪ {[id]}]> m) (dm_view (aborted_transmission_ids s)) l).
Proof.
  revert s. induction l as [|t l IH]; intros s; [done|]. cbn [foldl]. rewrite IH.
  unfold insert_aborted_id. rewrite dm_get_view. cbn. by rewrite insert_view.
Qed.

(** The persistent service refines the memory service.  On a working
    database, every operation the memory service completes has the same effect
    on the stored maps, and the membership test agrees. *)
Theorem persistent_refines_memory (s : BFTPersistentStorage) (id : Field)
    (tids : list TransmissionID) (aborted : gset TransmissionID) (missing : transmission_map) :
  (forall t, contains_transmission s t = Memory.contains_transmission (view s) t) /\
  (forall m, Memory.insert_transmissions (view s) id tids aborted missing = Ok m ->
     exists s', insert_transmissions s id tids aborted missing = Ok s' /\ view s' = m) /\
  view (remove_transmissions s id tids) = Memory.remove_transmissions (view s) id tids.
Proof.
  split_and!; [intros; apply contains_view| |apply remove_view].
  intros m Hm. eexists. split; [done|]. unfold Memory.insert_transmissions in Hm. simp_ok.
  match goal with H : Memory.insert_loop _ _ _ _ _ = _ |- _ => apply insert_loop_view in H as Hv end.
  rewrite insert_aborted_view. unfold insert_aborted, view in *. injection Hv as Hv1 Hv2.
  cbn. by rewrite Hv1, Hv2.
Qed.

Lemma insert_loop_dom id tids missing s :
  aborted_transmission_ids (insert_loop id tids missing s) = aborted_transmission_ids s /\
  (forall t, is_Some (dm_view (transmissions s) !! t) ->
     is_Some (dm_view (transmissions (insert_loop id tids missing s)) !! t)) /\
  (forall t, t ∈ tids -> is_Some (missing !! t) ->
     is_Some (dm_view (transmissions (insert_loop id tids missing s)) !! t)).
Proof.
  revert missing s. induction tids as [|t tids IH]; intros missing s; cbn; [set_solver|].
  rewrite dm_get_view. destruct (dm_view (transmissions s) !! t) as [[x ids]|] eqn:E;
    [|destruct (missing !! t) as [x|] eqn:Ex].
  - edestruct IH as (-> & H2 & H3). split_and!; [done|..].
    + intros u Hu. apply H2. cbn. rewrite insert_view, lookup_insert_is_Some'. by right.
    + intros u [->|?]%elem_of_cons; [|auto]. intros _. apply H2. cbn.
      by rewrite insert_view, lookup_insert_eq.
  - edestruct IH as (-> & H2 & H3). split_and!; [done|..].
    + intros u Hu. apply H2. cbn. rewrite insert_view, lookup_insert_is_Some'. by right.
    + intros u Hu Hm. destruct (decide (t = u)) as [->|Htu].
      * apply H2. cbn. by rewrite insert_view, lookup_insert_eq.
      * apply H3; [set_solver|]. by rewrite lookup_delete_ne.
  - edestruct IH as (-> & H2 & H3). split_and!; [done|done|].
    intros u [->|?]%elem_of_cons [y Hy]; [congruence|eauto].
Qed.

Lemma contains_insert s id tids aborted missing s' t :
  insert_transmissions s id tids aborted missing = Ok s' ->
  contains_transmission s t = true \/ t ∈ aborted \/ (t ∈ tids /\ is_Some (missing !! t)) ->
  contains_transmission s' t = true.
Proof.
  unfold insert_transmissions. intros Hs'. simp_ok.
  rewrite !contains_view, !Memory.contains_true, insert_aborted_view. cbn.
  fold (insert_aborted id aborted (dm_view (aborted_transmission_ids (insert_loop id tids missing s)))).
  rewrite insert_aborted_lookup.
  destruct (insert_loop_dom id tids missing s) as (-> & H2 & H3). naive_solver.
Qed.

#[global] Instance persistent_laws : StorageServiceLaws BFTPersistentStorage.
Proof.
  split; cbn.
  - intros s h ts aborted missing id Hf. apply find_missing_loop_spec in Hf as [Hf _].
    eexists. split; [done|]. intros t Ht. eapply contains_insert; [done|]. naive_solver.
  - intros. by apply find_missing_loop_provided.
  - intros. apply find_missing_loop_returns.
  - intros. eapply contains_insert; eauto.
  - intros s id tids t Ht. rewrite !contains_view, remove_view.
    exact (svc_remove_other (S := Memory.BFTMemoryService) (view s) id tids t Ht).
Qed.

(** [remove_transmissions] of the persistent service does not evict the
    cache.  A transmission whose last certificate is removed is no longer
    contained in storage, but [get_transmission] still returns it. *)
Theorem persistent_get_stale (s : BFTPersistentStorage) (id : Field) (t : TransmissionID)
    (x : Transmission) (missing : transmission_map) :
  contains_transmission s t = false -> missing !! t = Some x ->
  exists s1, insert_transmissions s id [t] ∅ missing = Ok s1 /\
    contains_transmission (remove_transmissions s1 id [t]) t = false /\
    (get_transmission (remove_transmissions s1 id [t]) t).1 = Some x.
Proof.
  intros Hc Hx. eexists. split; [done|].
  rewrite contains_view in Hc. apply not_true_iff_false in Hc. rewrite Memory.contains_true in Hc. cbn in Hc.
  assert (dm_view (transmissions s) !! t = None) as Ht by (apply eq_None_not_Some; tauto).
  assert (dm_view (aborted_transmission_ids s) !! t = None) as Ha by (apply eq_None_not_Some; tauto).
  rewrite elements_empty. cbn. rewrite dm_get_view, Ht, Hx. split.
  - rewrite contains_view. apply not_true_iff_false. rewrite Memory.contains_true. unfold view. cbn.
    rewrite !remove_entry_view. unfold remove_ref. rewrite insert_view, lookup_insert_eq. cbn.
    rewrite Ha, decide_True by set_solver. rewrite lookup_delete_eq, Ha.
    by intros [[? ?]|[? ?]].
  - unfold get_transmission. cbn.
    destruct (lru_get_view (lru_put (cache_transmissions s) t (x, {[id]})) t) as [Hg _].
    rewrite lru_put_same in Hg. destruct (lru_get _ t) as [o cache]. cbn in Hg. by subst o.
Qed.

End Persistent.
End Persistent.

(** ** Witnesses *)

Definition sample_tid : TransmissionID (N := TestNetwork) := IdTransaction (N := TestNetwork) "t"%char "x"%char.
Definition sample_transmission : Transmission (N := TestNetwork) :=
  TTransaction (N := TestNetwork) (Buffer [1; 2]).
Definition sample_missing : gmap (TransmissionID (N := TestNetwork)) (Transmission (N := TestNetwork)) :=
  {[sample_tid := sample_transmission]}.

Definition sample_persistent := Persistent.BFTPersistentStorage
  (TMap := MapDb.db (TransmissionID (N := TestNetwork))
     (Transmission (N := TestNetwork) * gset (Field (Network := TestNetwork))))
  (AMap := MapDb.db (TransmissionID (N := TestNetwork)) (gset (Field (Network := TestNetwork))))
  (TCache := ListLru.cache (TransmissionID (N := TestNetwork))
     (Transmission (N := TestNetwork) * gset (Field (Network := TestNetwork))))
  (ACache := ListLru.cache (TransmissionID (N := TestNetwork)) (gset (Field (Network := TestNetwork)))).

Lemma memory_insert_after_find_witness :
  exists s', Memory.insert_transmissions Memory.new "i"%char (h_transmission_ids header7) ∅ sample_missing
    = Ok s'.
Proof.
  destruct (Memory.memory_insert_after_find Memory.new header7 sample_missing sample_missing ∅
    ("i"%char : Field (Network := TestNetwork)) ltac:(vm_refl)) as (s' & H & _).
  exists s'. exact H.
Defined.

Lemma memory_insert_deadlock_witness :
  Memory.insert_transmissions (N := TestNetwork) Memory.new "i"%char [sample_tid] ∅ ∅ = Deadlock.
Proof.
  apply (Memory.memory_insert_deadlock (N := TestNetwork) Memory.new sample_tid [] ∅ ∅ "i"%char);
    [reflexivity|reflexivity|set_solver].
Defined.

Definition sample_stored : Memory.BFTMemoryService (N := TestNetwork) :=
  unwrap_or Memory.new (Memory.insert_transmissions Memory.new "i"%char [sample_tid] ∅ sample_missing).

Lemma memory_insert_remove_witness :
  sample_stored <> Memory.new /\
  Memory.remove_transmissions sample_stored ("i"%char : Field (Network := TestNetwork)) [sample_tid]
  = Memory.new.
Proof.
  split.
  { intros H. by assert (Memory.contains_transmission sample_stored sample_tid = false) by by rewrite H. }
  apply (Memory.memory_insert_remove (N := TestNetwork) Memory.new _ "i"%char [sample_tid] ∅ sample_missing).
  - split; intros *; cbn [Memory.new Memory.transmissions Memory.aborted_transmission_ids];
      rewrite lookup_empty; done.
  - intros t Ht. set_solver.
  - vm_refl.
Defined.

Definition sample_persistent_new : sample_persistent :=
  Persistent.mk_persistent (MapDb.mk_db []) (MapDb.mk_db [])
    (lru_new (Persistent.cache_capacity (N := TestNetwork)))
    (lru_new (Persistent.cache_capacity (N := TestNetwork))).

Example sample_persistent_open :
  Persistent.open (Ok (MapDb.mk_db [])) (Ok (MapDb.mk_db [])) = Ok sample_persistent_new.
Proof. vm_refl. Qed.

Lemma persistent_get_stale_witness :
  exists s : sample_persistent, Persistent.contains_transmission s sample_tid = false /\
    (Persistent.get_transmission s sample_tid).1 = Some sample_transmission.
Proof.
  assert (Persistent.contains_transmission sample_persistent_new sample_tid = false) as Hc by vm_refl.
  destruct (Persistent.persistent_get_stale sample_persistent_new
    ("i"%char : Field (Network := TestNetwork)) sample_tid sample_transmission sample_missing
    Hc ltac:(vm_refl)) as (s1 & _ & H).
  exists (Persistent.remove_transmissions s1 ("i"%char : Field (Network := TestNetwork)) [sample_tid]).
  exact H.
Defined.

Lemma persistent_refines_memory_witness :
  exists s' : sample_persistent,
    Persistent.insert_transmissions sample_persistent_new
      ("i"%char : Field (Network := TestNetwork)) [sample_tid] ∅ sample_missing = Ok s' /\
    Persistent.view s' = sample_stored.
Proof.
  destruct (Persistent.persistent_refines_memory sample_persistent_new
    ("i"%char : Field (Network := TestNetwork)) [sample_tid] ∅ sample_missing) as (_ & H & _).
  apply H. vm_refl.
Defined.
