(* ===== verification/Ledger.v ===== *)
(** * The ledger, as the memory pool sees it

    The trait [LedgerService] (node/bft/ledger-service/src/traits.rs) as a
    record of its read operations at one point in time, and the parts of a
    block that syncing looks at. *)

From S2P Require Import Prelude Network Committee Narwhal.

Section Ledger.
Context `{N : Network}.

Record LedgerService := mk_ledger {
  latest_round : Z;
  current_committee : result Committee;
  get_committee_lookback_for_round : Z -> result Committee;
  ledger_contains_certificate : Field -> result bool;
  ledger_contains_transmission : TransmissionID -> result bool;
  ledger_get_solution : SolutionID -> result (option Solution);
  ledger_get_unconfirmed_transaction : TransactionID -> result (option Transaction);
}.

(** The accessors of [Block] that [sync_certificate_with_block] calls. *)
Record Block := mk_block {
  block_height : Z;
  block_aborted_solution_ids : list SolutionID;
  block_aborted_transaction_ids : list TransactionID;
  block_get_solution : SolutionID -> option Solution;
}.

(** [get_committee_lookback_for_round] gives well-formed committees whose
    doubled stake fits a [u64]. *)
Definition ledger_wf (L : LedgerService) : Prop :=
  forall r c, get_committee_lookback_for_round L r = Ok c ->
    committee_wf c /\ 2 * total_stake c <= u64_max.

End Ledger.
