(* ===== verification/Storage.v ===== *)
(** * The storage of the memory pool

    [Storage<N>] of node/bft/src/helpers/storage.rs: the certificates of the
    rounds above the garbage-collection round, indexed by round, ID and batch,
    with the transmissions they refer to.  An operation returns its [result]
    and the new state, since the source may have updated the state before it
    fails. *)

From S2P Require Import Prelude Network Committee Narwhal Lru StorageService Ledger.

(** [MAX_TIMESTAMP_DELTA], in seconds. *)
Definition MAX_TIMESTAMP_DELTA : Z := 10.

(** [check_timestamp_for_liveness] of helpers/timestamp.rs, at time [now]. *)
Definition check_timestamp_for_liveness (now timestamp : Z) : result unit :=
  if bool_decide (i64_wrap (now + MAX_TIMESTAMP_DELTA) < timestamp)
  then Err "Timestamp {timestamp} is too far in the future" else Ok tt.

Module Storage.
Section Storage.
Context `{N : Network}.
Context {Svc : Type} `{!StorageServiceOps Svc}.
Context {Cache : Type} `{!LruOps Cache Field BatchCertificate}.

Record Storage := mk_storage {
  current_height : Z;
  current_round : Z;
  gc_round : Z;
  max_gc_rounds : Z;
  rounds : gmap Z (list (Field * Address));
  unprocessed_certificates : Cache;
  certificates : gmap Field BatchCertificate;
  batch_ids : gmap Field Z;
  transmissions : Svc;
}.

(** ** Trackers *)

(** [Storage::update_current_round]. *)
Definition update_current_round (s : Storage) (next_round : Z) : Storage :=
  mk_storage (current_height s) next_round (gc_round s) (max_gc_rounds s) (rounds s)
    (unprocessed_certificates s) (certificates s) (batch_ids s) (transmissions s).

Definition update_gc_round (s : Storage) (r : Z) : Storage :=
  mk_storage (current_height s) (current_round s) r (max_gc_rounds s) (rounds s)
    (unprocessed_certificates s) (certificates s) (batch_ids s) (transmissions s).

(** [Storage::sync_height_with_block]. *)
Definition sync_height_with_block (s : Storage) (next_height : Z) : Storage :=
  if decide (current_height s < next_height) then
    mk_storage next_height (current_round s) (gc_round s) (max_gc_rounds s) (rounds s)
      (unprocessed_certificates s) (certificates s) (batch_ids s) (transmissions s)
  else s.

(** [Storage::sync_round_with_block]. *)
Definition sync_round_with_block (s : Storage) (next_round : Z) : Storage :=
  let next_round := Z.max next_round 1 in
  if decide (current_round s < next_round) then update_current_round s next_round else s.

(** [Storage::increment_to_next_round]. *)
Definition increment_to_next_round (L : LedgerService) (s : Storage) (r : Z) : result Z * Storage :=
  let next_round := u64_wrap (r + 1) in
  if decide (next_round < current_round s) then (Ok (current_round s), s) else
  match current_committee L with
  | Ok committee =>
      if decide (next_round < starting_round committee) then
        (Ok (latest_round L), sync_round_with_block s (latest_round L))
      else
        let s := update_current_round s next_round in
        (_ ← ensure (bool_decide (next_round = current_round s))
               "The next round {next_round} does not match in storage ({storage_round})";
         _ ← ensure (bool_decide (gc_round s <= next_round))
               "The next round {next_round} is behind the GC round {gc_round}";
         Ok next_round, s)
  | Err e => (Err e, s)
  | Panic e => (Panic e, s)
  | Deadlock => (Deadlock, s)
  end.

(** ** Queries *)

(** [Storage::contains_certificates_for_round]. *)
Definition contains_certificates_for_round (s : Storage) (r : Z) : bool :=
  bool_decide (is_Some (rounds s !! r)).
(** [Storage::contains_certificate]. *)
Definition contains_certificate (s : Storage) (id : Field) : bool :=
  bool_decide (is_Some (certificates s !! id)).
(** [Storage::contains_certificate_in_round_from]. *)
Definition contains_certificate_in_round_from (s : Storage) (r : Z) (a : Address) : bool :=
  match rounds s !! r with
  | Some set => existsb (fun p => bool_decide (p.2 = a)) set
  | None => false
  end.
(** [Storage::contains_unprocessed_certificate]. *)
Definition contains_unprocessed_certificate (s : Storage) (id : Field) : bool :=
  lru_contains (unprocessed_certificates s) id.
(** [Storage::contains_batch]. *)
Definition contains_batch (s : Storage) (id : Field) : bool :=
  bool_decide (is_Some (batch_ids s !! id)).
(** [Storage::contains_transmission]. *)
Definition contains_transmission (s : Storage) (t : TransmissionID) : bool :=
  svc_contains (transmissions s) t.
(** [Storage::get_round_for_certificate], [Storage::get_certificate_round]. *)
Definition get_round_for_certificate (s : Storage) (id : Field) : option Z :=
  round <$> certificates s !! id.
(** [Storage::get_round_for_batch]. *)
Definition get_round_for_batch (s : Storage) (id : Field) : option Z := batch_ids s !! id.
(** [Storage::get_certificate]. *)
Definition get_certificate (s : Storage) (id : Field) : option BatchCertificate :=
  certificates s !! id.
(** [Storage::get_unprocessed_certificate]. *)
Definition get_unprocessed_certificate (s : Storage) (id : Field) : option BatchCertificate :=
  lru_peek (unprocessed_certificates s) id.

(** [Storage::get_certificate_for_round_with_author]. *)
Definition get_certificate_for_round_with_author (s : Storage) (r : Z) (a : Address)
    : option BatchCertificate :=
  match rounds s !! r with
  | Some entries =>
      head (omap (fun p => if decide (p.2 = a) then certificates s !! p.1 else None) entries)
  | None => None
  end.

(** [Storage::get_certificates_for_round]. *)
Definition get_certificates_for_round (s : Storage) (r : Z) : list BatchCertificate :=
  if decide (r = 0) then [] else
  match rounds s !! r with
  | Some entries => iset_of_list cert_id (omap (fun p => certificates s !! p.1) entries)
  | None => []
  end.

(** [Storage::get_certificate_ids_for_round]. *)
Definition get_certificate_ids_for_round (s : Storage) (r : Z) : list Field :=
  if decide (r = 0) then [] else
  match rounds s !! r with
  | Some entries => iset_of_list id entries.*1
  | None => []
  end.

(** [Storage::get_certificate_authors_for_round]. *)
Definition get_certificate_authors_for_round (s : Storage) (r : Z) : gset Address :=
  if decide (r = 0) then ∅ else
  match rounds s !! r with
  | Some entries => list_to_set entries.*2
  | None => ∅
  end.

(** [Storage::get_pending_certificates]: by round, then insertion. *)
Definition get_pending_certificates (L : LedgerService) (s : Storage) : list BatchCertificate :=
  iset_of_list cert_id
    (btree_iter (rounds s) ≫= fun p =>
       omap (fun q : Field * Address =>
               if unwrap_or false (ledger_contains_certificate L q.1) then None
               else certificates s !! q.1) p.2).

(** [Storage::get_transmission]. *)
Definition get_transmission (s : Storage) (t : TransmissionID) : option Transmission * Storage :=
  let '(o, svc) := svc_get (transmissions s) t in
  (o, mk_storage (current_height s) (current_round s) (gc_round s) (max_gc_rounds s) (rounds s)
        (unprocessed_certificates s) (certificates s) (batch_ids s) svc).

(** ** Checks *)

(** The loop over the previous certificate IDs in [check_batch_header]. *)
Definition check_previous (s : Storage) (previous_round : Z) (authors : gset Address) (id : Field)
    : result (gset Address) :=
  c ← ok_or "Missing previous certificate" (get_certificate s id);
  _ ← ensure (bool_decide (round c = previous_round)) "Round {round} certificate contains a round {previous_round} certificate";
  _ ← ensure (bool_decide (author c ∉ authors)) "Round {round} certificate contains a duplicate author";
  Ok (authors ∪ {[author c]}).

(** [let Ok(x) = r else { bail!(msg) }]; a panic is not caught. *)
Definition or_bail {A} (msg : string) (r : result A) : result A :=
  match r with Err _ => Err msg | r => r end.

(** [Storage::check_batch_header]. *)
Definition check_batch_header (L : LedgerService) (now : Z) (s : Storage) (h : BatchHeader)
    (ts : transmission_map) (aborted : gset TransmissionID) : result (option transmission_map) :=
  if contains_batch s (batch_id h) then Ok None else
  committee_lookback ← or_bail "Storage failed to retrieve the committee lookback for round {round}"
                         (get_committee_lookback_for_round L (h_round h));
  _ ← ensure (is_committee_member committee_lookback (h_author h)) "Author is not in the committee";
  _ ← check_timestamp_for_liveness now (h_timestamp h);
  missing ← svc_find_missing (transmissions s) h ts aborted;
  let previous_round := saturating_sub (h_round h) 1 in
  _ ← (if decide (gc_round s < previous_round) then
         previous_committee ← or_bail "Missing committee for the previous round"
                                (get_committee_lookback_for_round L previous_round);
         _ ← ensure (contains_certificates_for_round s previous_round)
               "Missing certificates for the previous round";
         _ ← ensure (bool_decide (len (h_previous_certificate_ids h) <= num_members previous_committee))
               "Too many previous certificates";
         previous_authors ← foldM (check_previous s previous_round) ∅ (h_previous_certificate_ids h);
         ensure (is_quorum_threshold_reached previous_committee previous_authors)
           "Previous certificates did not reach quorum threshold"
       else Ok tt);
  Ok (Some missing).

(** The signers of a certificate: its author and its endorsers. *)
Definition signers (c : BatchCertificate) : gset Address :=
  {[author c]} ∪ list_to_set (to_address <$> signatures c).

(** [Storage::check_incoming_certificate]. *)
Definition check_incoming_certificate (L : LedgerService) (c : BatchCertificate) : result unit :=
  committee_lookback ← get_committee_lookback_for_round L (round c);
  _ ← ensure (is_quorum_threshold_reached committee_lookback (signers c))
        "Certificate does not meet quorum requirements";
  ensure (forallb (is_committee_member committee_lookback) (elements (signers c)))
    "Signer is not in the committee".

(** [Storage::check_certificate]. *)
Definition check_certificate (L : LedgerService) (now : Z) (s : Storage) (c : BatchCertificate)
    (ts : transmission_map) (aborted : gset TransmissionID) : result transmission_map :=
  _ ← ensure (negb (contains_certificate s (cert_id c))) "Certificate already exists in storage";
  _ ← ensure (negb (contains_certificate_in_round_from s (round c) (author c)))
        "Certificate with this author already exists in storage";
  o ← check_batch_header L now s (batch_header c) ts aborted;
  missing ← ok_or "Certificate already exists in storage" o;
  _ ← check_timestamp_for_liveness now (timestamp c);
  committee_lookback ← or_bail "Storage failed to retrieve the committee"
                         (get_committee_lookback_for_round L (round c));
  all_signers ← foldM (fun signers (sg : Signature) =>
      _ ← ensure (is_committee_member committee_lookback (to_address sg)) "Signer is not in the committee";
      Ok (signers ∪ {[to_address sg]})) ({[author c]} : gset Address) (signatures c);
  _ ← ensure (is_quorum_threshold_reached committee_lookback all_signers)
        "Signatures did not reach quorum threshold";
  Ok missing.

(** ** Updates *)

(** [Storage::insert_certificate_atomic]. *)
Definition insert_certificate_atomic (s : Storage) (c : BatchCertificate)
    (aborted : gset TransmissionID) (missing : transmission_map) : result unit * Storage :=
  let s' := mk_storage (current_height s) (current_round s) (gc_round s) (max_gc_rounds s)
    (<[round c := iset_insert id (cert_id c, author c) (default [] (rounds s !! round c))]> (rounds s))
    (lru_pop (unprocessed_certificates s) (cert_id c))
    (<[cert_id c := c]> (certificates s))
    (<[cert_id c := round c]> (batch_ids s)) in
  match svc_insert (transmissions s) (cert_id c) (transmission_ids c) aborted missing with
  | Ok svc => (Ok tt, s' svc)
  | Err e => (Err e, s' (transmissions s))
  | Panic e => (Panic e, s' (transmissions s))
  | Deadlock => (Deadlock, s' (transmissions s))
  end.

(** [Storage::insert_certificate]. *)
Definition insert_certificate (L : LedgerService) (now : Z) (s : Storage) (c : BatchCertificate)
    (ts : transmission_map) (aborted : gset TransmissionID) : result unit * Storage :=
  match (_ ← ensure (bool_decide (gc_round s < round c)) "Certificate round is at or below the GC round";
         check_certificate L now s c ts aborted) with
  | Ok missing => insert_certificate_atomic s c aborted missing
  | Err e => (Err e, s)
  | Panic e => (Panic e, s)
  | Deadlock => (Deadlock, s)
  end.

(** [Storage::insert_unprocessed_certificate]. *)
Definition insert_unprocessed_certificate (s : Storage) (c : BatchCertificate) : result unit * Storage :=
  if bool_decide (gc_round s < round c) then
    (Ok tt, mk_storage (current_height s) (current_round s) (gc_round s) (max_gc_rounds s) (rounds s)
       (lru_put (unprocessed_certificates s) (cert_id c) c) (certificates s) (batch_ids s)
       (transmissions s))
  else (Err "Certificate round is at or below the GC round", s).

(** [Storage::remove_certificate]. *)
Definition remove_certificate (s : Storage) (cid : Field) : bool * Storage :=
  match get_certificate s cid with
  | None => (false, s)
  | Some c =>
      let rounds' :=
        match rounds s !! round c with
        | Some entries =>
            let entries := iset_swap_remove id (cid, author c) entries in
            if decide (entries = []) then delete (round c) (rounds s)
            else <[round c := entries]> (rounds s)
        | None => rounds s
        end in
      (true, mk_storage (current_height s) (current_round s) (gc_round s) (max_gc_rounds s) rounds'
               (lru_pop (unprocessed_certificates s) cid) (delete cid (certificates s))
               (delete cid (batch_ids s))
               (svc_remove (transmissions s) cid (transmission_ids c)))
  end.

(** The removal of one round in [garbage_collect_certificates]. *)
Definition remove_round (s : Storage) (r : Z) : Storage :=
  foldl (fun s cid => (remove_certificate s cid).2) s (get_certificate_ids_for_round s r).

(** [Storage::garbage_collect_certificates]; without concurrent callers the
    compare-and-exchange succeeds. *)
Definition garbage_collect_certificates (s : Storage) (next_round : Z) : result unit * Storage :=
  let current_gc_round := gc_round s in
  let next_gc_round := saturating_sub next_round (max_gc_rounds s) in
  if decide (current_gc_round < next_gc_round) then
    let s := update_gc_round s next_gc_round in
    let s := foldl remove_round s (seqZ current_gc_round (next_gc_round - current_gc_round + 1)) in
    (Ok tt, update_gc_round s next_gc_round)
  else if decide (next_gc_round < current_gc_round) then
    (Err "Attempted to decrease GC round from {current_gc_round} to {next_gc_round}", s)
  else (Ok tt, s).

(** [Storage::new]. *)
Definition new (L : LedgerService) (svc : Svc) (max_gc_rounds : Z) : result Storage :=
  committee ← unwrap "Ledger is missing a committee." (ok (current_committee L));
  let current_round := Z.max (starting_round committee) 1 in
  let unprocessed_cache_size := (LATEST_MAX_CERTIFICATES * 2) mod 2 ^ 16 in
  if decide (unprocessed_cache_size = 0) then Panic "called `Option::unwrap()` on a `None` value" else
  let '(r, s) := garbage_collect_certificates
    (mk_storage 0 current_round 0 max_gc_rounds ∅ (lru_new unprocessed_cache_size) ∅ ∅ svc)
    current_round in
  _ ← r; Ok s.

(** ** Syncing certificates from blocks *)

(** The body of the loop of [sync_certificate_with_block]. *)
Definition sync_transmission (L : LedgerService) (s : Storage) (b : Block)
    (unconfirmed : gmap TransactionID Transaction)
    (acc : transmission_map * gset TransmissionID) (t : TransmissionID)
    : result (transmission_map * gset TransmissionID) :=
  let '(missing, aborted) := acc in
  if bool_decide (is_Some (missing !! t)) then Ok acc else
  if contains_transmission s t then Ok acc else
  match t with
  | IdRatification => Ok acc
  | IdSolution sid _ =>
      match block_get_solution b sid with
      | Some x => Ok (<[t := TSolution (Object x)]> missing, aborted)
      | None =>
          match ledger_get_solution L sid with
          | Ok (Some x) => Ok (<[t := TSolution (Object x)]> missing, aborted)
          | _ => if bool_decide (sid ∈ block_aborted_solution_ids b)
                    || unwrap_or false (ledger_contains_transmission L t)
                 then Ok (missing, aborted ∪ {[t]})
                 else Err "Missing solution {solution_id} for block {}"
          end
      end
  | IdTransaction tid _ =>
      match unconfirmed !! tid with
      | Some x => Ok (<[t := TTransaction (Object x)]> missing, aborted)
      | None =>
          match ledger_get_unconfirmed_transaction L tid with
          | Ok (Some x) => Ok (<[t := TTransaction (Object x)]> missing, aborted)
          | _ => if bool_decide (tid ∈ block_aborted_transaction_ids b)
                    || unwrap_or false (ledger_contains_transmission L t)
                 then Ok (missing, aborted ∪ {[t]})
                 else Err "Missing transaction {transaction_id} for block {}"
          end
      end
  end.

(** [Storage::sync_certificate_with_block]. *)
Definition sync_certificate_with_block (L : LedgerService) (now : Z) (s : Storage) (b : Block)
    (c : BatchCertificate) (unconfirmed : gmap TransactionID Transaction) : result unit * Storage :=
  if decide (round c <= gc_round s) then (Ok tt, s) else
  if contains_certificate s (cert_id c) then (Ok tt, s) else
  match foldM (sync_transmission L s b unconfirmed) (∅, ∅) (transmission_ids c) with
  | Ok (missing, aborted) => insert_certificate L now s c missing aborted
  | Err e => (Err e, s)
  | Panic e => (Panic e, s)
  | Deadlock => (Deadlock, s)
  end.

End Storage.
Arguments Storage {_} _ _.
End Storage.
