(* ===== verification/StorageProps.v ===== *)
(** * Properties of the storage

    The index invariant of [Storage], kept by every operation; what garbage
    collection, insertion and the certificate checks guarantee; and the safety
    of what storage accepts, from quorum intersection. *)

From S2P Require Import Prelude Network Committee Narwhal Lru StorageService Ledger Storage.

Module StorageProps.
Import Storage.
Section Props.
Context `{N : Network}.
Context {Svc : Type} `{!StorageServiceOps Svc}.
Context {Cache : Type} `{!LruOps Cache Field BatchCertificate}.
Abbreviation St := (Storage Svc Cache).

(** ** The index invariant *)

(** The three indices describe the same set of certificates, with at most one
    certificate per author and round. *)
Record index_inv (s : St) : Prop := {
  ix_rounds r entries : rounds s !! r = Some entries ->
    entries <> [] /\ NoDup entries /\ NoDup entries.*2 /\
    forall p, p ∈ entries -> exists c, certificates s !! p.1 = Some c /\ author c = p.2 /\ round c = r;
  ix_certs id c : certificates s !! id = Some c ->
    cert_id c = id /\ exists entries, rounds s !! round c = Some entries /\ (id, author c) ∈ entries;
  ix_batches : batch_ids s = round <$> certificates s;
}.

Record storage_inv (s : St) : Prop := {
  si_index : index_inv s;
  si_round : 0 < current_round s;
  si_gc : 0 <= gc_round s;
  si_above id c : certificates s !! id = Some c -> gc_round s < round c;
}.

(** The rounds index, as a relation. *)
Definition in_round (s : St) (r : Z) (p : Field * Address) : Prop :=
  exists entries, rounds s !! r = Some entries /\ p ∈ entries.

Lemma in_round_cert s r p :
  index_inv s ->
  (in_round s r p <-> exists c, certificates s !! p.1 = Some c /\ author c = p.2 /\ round c = r).
Proof.
  intros Hs. split.
  - intros (entries & He & Hp). by apply (ix_rounds s Hs) in He as (_ & _ & _ & He); auto.
  - destruct p as [i a]. cbn. intros (c & Hc & <- & <-).
    apply (ix_certs s Hs) in Hc as (_ & entries & He & Hp). by exists entries.
Qed.

(** ** Removal *)

Lemma remove_round_entries (s : St) c entries :
  index_inv s -> certificates s !! cert_id c = Some c -> rounds s !! round c = Some entries ->
  forall p, p ∈ iset_swap_remove id (cert_id c, author c) entries <->
            p ∈ entries /\ p <> (cert_id c, author c).
Proof.
  intros Hs Hc He p. apply (ix_rounds s Hs) in He as (_ & Hnd & _ & _).
  rewrite elem_of_iset_swap_remove; [done|]. by rewrite list_fmap_id.
Qed.

Lemma certificate_fields (s : St) cid :
  current_height (remove_certificate s cid).2 = current_height s /\
  current_round (remove_certificate s cid).2 = current_round s /\
  gc_round (remove_certificate s cid).2 = gc_round s /\
  max_gc_rounds (remove_certificate s cid).2 = max_gc_rounds s /\
  certificates (remove_certificate s cid).2 = delete cid (certificates s).
Proof.
  unfold remove_certificate, get_certificate. destruct (certificates s !! cid) as [c|] eqn:E; cbn; [done|].
  by rewrite delete_id.
Qed.

(** The entries of a round after the removal, as a sublist up to order. *)
Lemma swap_remove_sublist (p : Field * Address) entries :
  NoDup entries -> NoDup entries.*2 ->
  NoDup (iset_swap_remove id p entries) /\ NoDup (iset_swap_remove id p entries).*2.
Proof.
  intros H1 H2. split.
  - pose proof (iset_swap_remove_NoDup id p entries) as H. rewrite !list_fmap_id in H. auto.
  - destruct (iset_contains id p entries) eqn:E.
    + destruct (iset_swap_remove_Permutation id p entries E) as (x & _ & Hp).
      rewrite Hp in H2. by apply NoDup_cons in H2 as [_ ?].
    + unfold iset_swap_remove. by rewrite E.
Qed.

Lemma remove_certificate_inv (s : St) cid : index_inv s -> index_inv (remove_certificate s cid).2.
Proof.
  intros Hs. unfold remove_certificate, get_certificate.
  destruct (certificates s !! cid) as [c|] eqn:Ec; [|done].
  destruct (ix_certs s Hs _ _ Ec) as (<- & entries & He & Hin). rewrite He. cbn.
  pose proof (remove_round_entries s c entries Hs Ec He) as Hrem.
  pose proof (ix_rounds s Hs _ _ He) as (_ & Hnd & Hnd2 & Hall).
  pose proof (swap_remove_sublist (cert_id c, author c) entries Hnd Hnd2) as [Hnd' Hnd2'].
  set (entries' := iset_swap_remove id (cert_id c, author c) entries) in *.
  assert (forall r, (if decide (entries' = []) then delete (round c) (rounds s)
                     else <[round c:=entries']> (rounds s)) !! r
    = if decide (r = round c) then (if decide (entries' = []) then None else Some entries')
      else rounds s !! r) as Hlook.
  { intros r. case_decide as H1; case_decide as H2; subst;
      by rewrite ?lookup_delete_eq, ?lookup_insert_eq, ?lookup_delete_ne, ?lookup_insert_ne by done. }
  split; cbn.
  - intros r es. rewrite Hlook. destruct (decide (r = round c)) as [->|Hr].
    + destruct (decide (entries' = [])); [done|]. intros [= <-]. split_and!; try done.
      intros p [Hp Hne]%Hrem. destruct (Hall p Hp) as (d & Hd & Ha & Hrd). exists d.
      rewrite lookup_delete_ne; [done|]. intros Heq. apply Hne. destruct p as [i a]. cbn in *. subst i.
      rewrite Ec in Hd. by simplify_eq.
    + intros Hes. apply (ix_rounds s Hs) in Hes as (? & ? & ? & Hes). split_and!; try done.
      intros p Hp. destruct (Hes p Hp) as (d & Hd & Ha & Hrd). exists d.
      rewrite lookup_delete_ne; [done|]. intros Heq. rewrite <-Heq, Ec in Hd. by simplify_eq.
  - intros i d [Hne Hd]%lookup_delete_Some. destruct (ix_certs s Hs _ _ Hd) as (Hi & es & Hes & Hp).
    split; [done|]. rewrite Hlook. destruct (decide (round d = round c)) as [Hr|Hr]; [|eauto].
    rewrite Hr, He in Hes. simplify_eq. assert ((cert_id d, author d) ∈ entries') as Hin'.
    { apply Hrem. split; [done|]. naive_solver. }
    rewrite decide_False by (intros E; rewrite E in Hin'; set_solver). eauto.
  - by rewrite (ix_batches s Hs), fmap_delete.
Qed.

(** ** Garbage collection *)

Lemma foldl_remove_spec (ids : list Field) (s : St) :
  index_inv s ->
  let s' := foldl (fun s cid => (remove_certificate s cid).2) s ids in
  index_inv s' /\ current_round s' = current_round s /\ gc_round s' = gc_round s /\
  current_height s' = current_height s /\ max_gc_rounds s' = max_gc_rounds s /\
  forall i, certificates s' !! i = if decide (i ∈ ids) then None else certificates s !! i.
Proof.
  revert s. induction ids as [|cid ids IH]; intros s Hs; cbn [foldl].
  { by split_and!. }
  destruct (IH (remove_certificate s cid).2) as (H1 & H2 & H3 & H4 & H5 & H6).
  { by apply remove_certificate_inv. }
  destruct (certificate_fields s cid) as (E1 & E2 & E3 & E4 & E5).
  split_and!; [done|congruence..|]. intros i. rewrite H6, E5.
  destruct (decide (i = cid)) as [->|].
  - rewrite lookup_delete_eq, (decide_True (P := cid ∈ cid :: ids)) by left. by case_decide.
  - rewrite lookup_delete_ne by done. by rewrite (decide_ext (i ∈ cid :: ids) (i ∈ ids)) by set_solver.
Qed.

Lemma elem_of_certificate_ids (s : St) r i :
  index_inv s -> r <> 0 ->
  (i ∈ get_certificate_ids_for_round s r <-> exists c, certificates s !! i = Some c /\ round c = r).
Proof.
  intros Hs Hr. unfold get_certificate_ids_for_round. rewrite decide_False by done.
  destruct (rounds s !! r) as [entries|] eqn:He.
  - pose proof (iset_of_list_keys id entries.*1 i) as Hk. rewrite !list_fmap_id in Hk.
    rewrite Hk, list_elem_of_fmap. split.
    + intros (p & -> & Hp). destruct (proj1 (in_round_cert s r p Hs)) as (c & ? & _ & ?); [by exists entries|eauto].
    + intros (c & Hc & Hrc). destruct (proj2 (in_round_cert s r (i, author c) Hs)) as (es & Hes & Hp); [eauto|].
      exists (i, author c). split; [done|]. congruence.
  - split; [set_solver|]. intros (c & Hc & Hrc).
    apply (ix_certs s Hs) in Hc as (_ & es & Hes & _). congruence.
Qed.

Lemma remove_round_spec (s : St) r :
  index_inv s ->
  let s' := remove_round s r in
  index_inv s' /\ current_round s' = current_round s /\ gc_round s' = gc_round s /\
  current_height s' = current_height s /\ max_gc_rounds s' = max_gc_rounds s /\
  forall i c, certificates s' !! i = Some c <-> certificates s !! i = Some c /\ (r = 0 \/ round c <> r).
Proof.
  intros Hs s'. pose proof (foldl_remove_spec (get_certificate_ids_for_round s r) s Hs)
    as (H1 & H2 & H3 & H4 & H5 & H6).
  split_and!; try done. intros i c. unfold s', remove_round. rewrite H6.
  destruct (decide (r = 0)) as [->|Hr].
  - rewrite decide_False; [naive_solver|]. unfold get_certificate_ids_for_round.
    rewrite decide_True by done. set_solver.
  - pose proof (elem_of_certificate_ids s r i Hs Hr) as Hi. case_decide as Hd; naive_solver.
Qed.

Lemma foldl_remove_round_spec (rs : list Z) (s : St) :
  index_inv s ->
  let s' := foldl remove_round s rs in
  index_inv s' /\ current_round s' = current_round s /\ gc_round s' = gc_round s /\
  current_height s' = current_height s /\ max_gc_rounds s' = max_gc_rounds s /\
  forall i c, certificates s' !! i = Some c <->
    certificates s !! i = Some c /\ (round c = 0 \/ round c ∉ rs).
Proof.
  revert s. induction rs as [|r rs IH]; intros s Hs; cbn [foldl].
  { split_and!; try done. intros i c. pose proof (not_elem_of_nil (round c)). tauto. }
  destruct (remove_round_spec s r Hs) as (E1 & E2 & E3 & E4 & E5 & E6).
  destruct (IH (remove_round s r) E1) as (H1 & H2 & H3 & H4 & H5 & H6).
  split_and!; [done|congruence..|]. intros i c. rewrite H6, E6, not_elem_of_cons.
  clear. destruct (decide (round c = 0)), (decide (r = 0)); intuition congruence.
Qed.

Lemma update_gc_round_index (s : St) r : index_inv s -> index_inv (update_gc_round s r).
Proof. intros [H1 H2 H3]. by split. Qed.

(** What a garbage collection that moves the round does. *)
Lemma gc_moves (s : St) next :
  storage_inv s -> gc_round s < saturating_sub next (max_gc_rounds s) ->
  exists s', garbage_collect_certificates s next = (Ok tt, s') /\
    index_inv s' /\ gc_round s' = saturating_sub next (max_gc_rounds s) /\
    current_round s' = current_round s /\ current_height s' = current_height s /\
    max_gc_rounds s' = max_gc_rounds s /\
    forall i c, certificates s' !! i = Some c <-> certificates s !! i = Some c /\ gc_round s' < round c.
Proof.
  intros Hs Hlt. unfold garbage_collect_certificates. rewrite decide_True by done.
  set (g := saturating_sub next (max_gc_rounds s)) in *.
  destruct (foldl_remove_round_spec (seqZ (gc_round s) (g - gc_round s + 1)) (update_gc_round s g))
    as (H1 & H2 & H3 & H4 & H5 & H6); [apply update_gc_round_index, Hs|].
  eexists. split; [done|]. split; [by apply update_gc_round_index|].
  split_and!; [done..|]. intros i c. cbn. rewrite H6. cbn. rewrite elem_of_seqZ. pose proof (si_gc s Hs).
  split; intros [Hc Hr]; (split; [done|]); pose proof (si_above s Hs _ _ Hc); lia.
Qed.

Lemma gc_inv (s : St) next : storage_inv s -> storage_inv (garbage_collect_certificates s next).2.
Proof.
  intros Hs. destruct (decide (gc_round s < saturating_sub next (max_gc_rounds s))) as [Hlt|Hge].
  - destruct (gc_moves s next Hs Hlt) as (s' & -> & Hi & Hg & Hr & _ & _ & Hc). cbn.
    split; [done|rewrite Hr; apply Hs|rewrite Hg; mlia|]. by intros i c [_ ?]%Hc.
  - unfold garbage_collect_certificates. rewrite decide_False by done.
    by destruct (decide (saturating_sub next (max_gc_rounds s) < gc_round s)).
Qed.

(** ** Insertion *)

Lemma contains_in_round_from_false (s : St) r a entries :
  contains_certificate_in_round_from s r a = false -> rounds s !! r = Some entries -> a ∉ entries.*2.
Proof.
  unfold contains_certificate_in_round_from. intros H He. rewrite He in H.
  intros (p & -> & Hp)%list_elem_of_fmap. apply not_true_iff_false in H. apply H.
  apply existsb_exists. exists p. rewrite <-list_elem_of_In. by rewrite bool_decide_eq_true.
Qed.

(** The indices after the insertion of a new certificate, for any outcome of
    the transmission service. *)
Lemma insert_atomic_inv (s : St) c aborted missing :
  storage_inv s -> gc_round s < round c -> contains_certificate s (cert_id c) = false ->
  contains_certificate_in_round_from s (round c) (author c) = false ->
  storage_inv (insert_certificate_atomic s c aborted missing).2 /\
  certificates (insert_certificate_atomic s c aborted missing).2 = <[cert_id c := c]> (certificates s).
Proof.
  intros [Hs Hr Hg Hab] Hgc Hid Ha. apply bool_decide_eq_false, eq_None_not_Some in Hid.
  set (entries' := iset_insert id (cert_id c, author c) (default [] (rounds s !! round c))).
  assert (NoDup entries' /\ NoDup entries'.*2 /\ entries' <> [] /\
    forall p, p ∈ entries' <-> p = (cert_id c, author c) \/
      exists es, rounds s !! round c = Some es /\ p ∈ es) as (Hn1 & Hn2 & Hne & Hel).
  { unfold entries'. destruct (rounds s !! round c) as [es|] eqn:Es; cbn.
    - pose proof (contains_in_round_from_false s _ _ _ Ha Es) as Hnew.
      pose proof (ix_rounds s Hs _ _ Es) as (_ & H1 & H2 & _).
      assert ((cert_id c, author c) ∉ es) as Hp.
      { intros Hp. apply Hnew, list_elem_of_fmap. by exists (cert_id c, author c). }
      assert (iset_insert id (cert_id c, author c) es = es ++ [(cert_id c, author c)]) as ->.
      { unfold iset_insert, iset_contains. by rewrite list_fmap_id, bool_decide_eq_false_2. }
      rewrite fmap_app. split_and!.
      + apply NoDup_app. split_and!; [done| |apply NoDup_singleton]. set_solver.
      + apply NoDup_app. split_and!; [done| |apply NoDup_singleton]. cbn. set_solver.
      + by destruct es.
      + intros p. rewrite elem_of_app, list_elem_of_singleton. naive_solver.
    - change (iset_insert id (cert_id c, author c) []) with [(cert_id c, author c)].
      split_and!; try apply NoDup_singleton; [done|]. intros p. rewrite list_elem_of_singleton. naive_solver. }
  assert (storage_inv (mk_storage (current_height s) (current_round s) (gc_round s) (max_gc_rounds s)
    (<[round c := entries']> (rounds s)) (lru_pop (unprocessed_certificates s) (cert_id c))
    (<[cert_id c := c]> (certificates s)) (<[cert_id c := round c]> (batch_ids s)) (transmissions s)))
    as Hinv.
  { split; [split|done|done|]; cbn.
    - intros r es. destruct (decide (r = round c)) as [->|Hrc].
      + rewrite lookup_insert_eq. intros [= <-]. split_and!; try done.
        intros p [->|(es & Hes & Hp)]%Hel; cbn.
        * exists c. by rewrite lookup_insert_eq.
        * apply (ix_rounds s Hs) in Hes as (_ & _ & _ & Hes). destruct (Hes p Hp) as (d & Hd & ?).
          exists d. rewrite lookup_insert_ne by congruence. done.
      + rewrite lookup_insert_ne by done. intros Hes.
        apply (ix_rounds s Hs) in Hes as (? & ? & ? & Hes). split_and!; try done.
        intros p Hp. destruct (Hes p Hp) as (d & Hd & ?). exists d.
        rewrite lookup_insert_ne by congruence. done.
    - intros i d. rewrite lookup_insert_Some. intros [[<- <-]|[Hi Hd]].
      + split; [done|]. exists entries'. rewrite lookup_insert_eq. split; [done|]. apply Hel. by left.
      + destruct (ix_certs s Hs _ _ Hd) as (? & es & Hes & Hp). split; [done|].
        destruct (decide (round d = round c)) as [Heq|].
        * exists entries'. rewrite Heq, lookup_insert_eq. split; [done|]. apply Hel. right.
          rewrite <-Heq. eauto.
        * exists es. by rewrite lookup_insert_ne.
    - by rewrite (ix_batches s Hs), fmap_insert.
    - intros i d. rewrite lookup_insert_Some. intros [[_ <-]|[_ Hd]]; [done|]. by eapply Hab. }
  unfold insert_certificate_atomic. fold entries'.
  destruct (svc_insert _ _ _ _ _) as [svc|e|e|]; cbn; [|done..].
  split; [|done]. destruct Hinv as [[I1 I2 I3] I4 I5 I6]. split; [split|..]; done.
Qed.

(** ** What the checks establish *)

Lemma or_bail_Ok {A} msg (r : result A) a : or_bail msg r = Ok a <-> r = Ok a.
Proof. by destruct r. Qed.

(** The endorsers join the author, if all of them are members. *)
Lemma fold_signers committee (sigs : list Signature) acc res :
  foldM (fun signers (sg : Signature) =>
    _ ← ensure (is_committee_member committee (to_address sg)) "Signer is not in the committee";
    Ok (signers ∪ {[to_address sg]})) (acc : gset Address) sigs = Ok res ->
  res = acc ∪ list_to_set (to_address <$> sigs) /\
  forall sg, sg ∈ sigs -> is_committee_member committee (to_address sg) = true.
Proof.
  revert acc. induction sigs as [|sg sigs IH]; intros acc H; cbn in H; simp_ok.
  { set_solver. }
  match goal with H : is_committee_member _ _ = true |- _ => rename H into Hm end.
  apply IH in H as [-> Hall]. split.
  - cbn. set_solver.
  - intros sg' [->|?]%elem_of_cons; auto.
Qed.

Lemma fold_previous (s : St) r ids acc res :
  foldM (check_previous s r) acc ids = Ok res ->
  (forall i, i ∈ ids -> exists c, certificates s !! i = Some c /\ round c = r) /\
  (forall a, a ∈ res <-> a ∈ acc \/ exists i c, i ∈ ids /\ certificates s !! i = Some c /\ author c = a).
Proof.
  revert acc. induction ids as [|i ids IH]; intros acc H; cbn [foldM] in H.
  { simp_ok. set_solver. }
  apply bind_Ok in H as (acc' & Hc & H). apply IH in H as [H1 H2].
  unfold check_previous in Hc. simp_ok. unfold get_certificate in *.
  rewrite !bool_decide_eq_true in *. split.
  - intros i' [->|?]%elem_of_cons; [eauto|auto].
  - intros a. rewrite H2, elem_of_union, elem_of_singleton. split.
    + intros [[?| ->]|(i' & c & ? & ? & ?)]; [by left|right|right].
      * do 2 eexists. split; [left|]. eauto.
      * exists i', c. split; [by right|done].
    + intros [?|(i' & c & [->|?]%elem_of_cons & Hic & <-)]; [by left; left| |right; eauto].
      left; right. congruence.
Qed.

Record accepted (L : LedgerService) (s : St) (c : BatchCertificate) : Prop := {
  ac_new : contains_certificate s (cert_id c) = false;
  ac_author : contains_certificate_in_round_from s (round c) (author c) = false;
  (** The signers are committee members and reach the quorum threshold. *)
  ac_quorum : exists committee, get_committee_lookback_for_round L (round c) = Ok committee /\
    is_quorum_threshold_reached committee (signers c) = true /\
    forall a, a ∈ signers c -> is_committee_member committee a = true;
  (** Above the garbage-collection round, the previous certificates are in
      storage, from the previous round and by a quorum of authors. *)
  ac_previous : gc_round s < round c - 1 ->
    (forall i, i ∈ previous_certificate_ids c ->
       exists p, certificates s !! i = Some p /\ round p = round c - 1) /\
    exists committee authors, get_committee_lookback_for_round L (round c - 1) = Ok committee /\
      is_quorum_threshold_reached committee authors = true /\
      forall a, a ∈ authors <-> exists i p, i ∈ previous_certificate_ids c /\
        certificates s !! i = Some p /\ author p = a;
}.

Lemma check_certificate_Ok L now (s : St) c ts aborted missing :
  0 <= gc_round s -> check_certificate L now s c ts aborted = Ok missing ->
  accepted L s c /\ svc_find_missing (transmissions s) (batch_header c) ts aborted = Ok missing.
Proof.
  intros Hg H. unfold check_certificate in H. simp_ok. rewrite or_bail_Ok in *.
  repeat match goal with H : negb _ = true |- _ => apply negb_true_iff in H end.
  match goal with H : foldM _ _ (signatures c) = _ |- _ => apply fold_signers in H as [-> Hmem] end.
  match goal with H : check_batch_header _ _ _ _ _ _ = _ |- _ => rename H into Hh end.
  unfold check_batch_header in Hh.
  destruct (contains_batch s _) eqn:Eb; [simp_ok|]. simp_ok. rewrite or_bail_Ok in *.
  split; [|done]. fold (author c) (round c) in *.
  match goal with H1 : get_committee_lookback_for_round L (round c) = Ok ?a,
    H2 : get_committee_lookback_for_round L (round c) = Ok ?b |- _ =>
    assert (b = a) as -> by congruence end.
  split; [done|done| |].
  - eexists. split_and!; [done|done|]. intros a. unfold signers.
    rewrite elem_of_union, elem_of_singleton, elem_of_list_to_set, list_elem_of_fmap.
    intros [->|(sg & -> & Hsg)]; auto.
  - intros Hgc. assert (saturating_sub (round c) 1 = round c - 1) as Hsub by mlia.
    rewrite Hsub in *. rewrite decide_True in * by done. simp_ok. rewrite or_bail_Ok in *.
    match goal with H : foldM (check_previous _ _) _ _ = _ |- _ => apply fold_previous in H as [Hp Ha] end.
    split; [done|]. do 2 eexists. split_and!; [done|done|]. intros a. rewrite Ha. set_solver.
Qed.

(** ** Reachable storages *)

(** A certificate signed by a quorum of the committee of its round. *)
Definition certified (lookback : Z -> result Committee) (c : BatchCertificate) : Prop :=
  exists committee, lookback (round c) = Ok committee /\
    is_quorum_threshold_reached committee (signers c) = true /\
    forall a, a ∈ signers c -> is_committee_member committee a = true.

(** The operations of the storage.  The ledger may change between them; the
    committee it reports for a round does not. *)
Inductive step (lookback : Z -> result Committee) (s : St) : St -> Prop :=
| step_increment L r : step lookback s (increment_to_next_round L s r).2
| step_gc next : step lookback s (garbage_collect_certificates s next).2
| step_insert L now c ts aborted :
    get_committee_lookback_for_round L = lookback ->
    step lookback s (insert_certificate L now s c ts aborted).2
| step_unprocessed c : step lookback s (insert_unprocessed_certificate s c).2
| step_sync_height h : step lookback s (sync_height_with_block s h)
| step_sync_round r : step lookback s (sync_round_with_block s r)
| step_sync_certificate L now b c unconfirmed :
    get_committee_lookback_for_round L = lookback ->
    step lookback s (sync_certificate_with_block L now s b c unconfirmed).2
| step_get t : step lookback s (get_transmission s t).2.

Definition reachable (lookback : Z -> result Committee) (s : St) : Prop :=
  exists L svc gc s0, new L svc gc = Ok s0 /\ rtc (step lookback) s0 s.

Definition safe (lookback : Z -> result Committee) (s : St) : Prop :=
  storage_inv s /\ forall i c, certificates s !! i = Some c -> certified lookback c.

(** The invariant does not depend on the trackers of height and round, the
    cache and the service. *)
Lemma storage_inv_ext (s s' : St) :
  rounds s' = rounds s -> certificates s' = certificates s -> batch_ids s' = batch_ids s ->
  gc_round s' = gc_round s -> 0 < current_round s' -> storage_inv s -> storage_inv s'.
Proof.
  intros E1 E2 E3 E4 Hr [[I1 I2 I3] I4 I5 I6]. split; [split|done|lia|].
  - by rewrite E1, E2.
  - by rewrite E1, E2.
  - by rewrite E3, E2.
  - by rewrite E4, E2.
Qed.

Lemma sync_round_inv (s : St) r : storage_inv s -> storage_inv (sync_round_with_block s r).
Proof.
  intros Hs. unfold sync_round_with_block. case_decide; [|done].
  eapply storage_inv_ext; [..|exact Hs]; cbn; try done. lia.
Qed.

Lemma increment_inv L (s : St) r :
  storage_inv s -> storage_inv (increment_to_next_round L s r).2 /\
  certificates (increment_to_next_round L s r).2 = certificates s.
Proof.
  intros Hs. unfold increment_to_next_round. case_decide as Hlt; [done|].
  destruct (current_committee L) as [com|e|e|]; [|done..]. case_decide as Hst; cbn.
  - split; [by apply sync_round_inv|]. unfold sync_round_with_block. by case_decide.
  - split; [|done]. eapply storage_inv_ext; [..|exact Hs]; cbn; try done.
    pose proof (si_round s Hs). lia.
Qed.

Lemma insert_certificate_cases L now (s : St) c ts aborted :
  (exists missing, insert_certificate L now s c ts aborted = insert_certificate_atomic s c aborted missing /\
     gc_round s < round c /\ check_certificate L now s c ts aborted = Ok missing) \/
  ((insert_certificate L now s c ts aborted).2 = s /\
   ~ (exists u, (insert_certificate L now s c ts aborted).1 = Ok u)).
Proof.
  unfold insert_certificate, ensure. case_bool_decide; cbn; [|right; split; [done|by intros [? ?]]].
  destruct (check_certificate L now s c ts aborted) as [missing|e|e|]; cbn.
  1: left; eauto.
  all: right; split; [done|by intros [? ?]].
Qed.

Lemma insert_safe L now (s : St) c ts aborted :
  safe (get_committee_lookback_for_round L) s ->
  safe (get_committee_lookback_for_round L) (insert_certificate L now s c ts aborted).2.
Proof.
  intros [Hs Hc].
  destruct (insert_certificate_cases L now s c ts aborted) as [(missing & -> & Hg & Hm)|[-> _]]; [|done].
  apply check_certificate_Ok in Hm as [Hok _]; [|apply Hs].
  destruct (insert_atomic_inv s c aborted missing Hs Hg) as [Hi Hcerts]; [apply Hok..|].
  split; [done|]. rewrite Hcerts. intros i d. rewrite lookup_insert_Some.
  intros [[_ <-]|[_ Hd]]; [apply Hok|eauto].
Qed.

Lemma step_safe lookback (s s' : St) : step lookback s s' -> safe lookback s -> safe lookback s'.
Proof.
  intros Hstep Hsafe. pose proof Hsafe as [Hs Hc]. destruct Hstep as [L r|next|L now c ts ab <-|c|h|r|L now b c u <-|t].
  - destruct (increment_inv L s r Hs) as [? E]. split; [done|]. by rewrite E.
  - split; [by apply gc_inv|]. intros i c.
    destruct (decide (gc_round s < saturating_sub next (max_gc_rounds s))) as [Hlt|Hge].
    + destruct (gc_moves s next Hs Hlt) as (s' & -> & _ & _ & _ & _ & _ & Hi). cbn.
      intros [? _]%Hi. eauto.
    + unfold garbage_collect_certificates. rewrite decide_False by done. case_decide; apply Hc.
  - by apply insert_safe.
  - unfold insert_unprocessed_certificate. case_bool_decide; [|done]. split; [|done].
    eapply storage_inv_ext; [..|exact Hs]; try done. apply Hs.
  - unfold sync_height_with_block. case_decide; [|done]. split; [|done].
    eapply storage_inv_ext; [..|exact Hs]; try done. apply Hs.
  - split; [by apply sync_round_inv|]. unfold sync_round_with_block. by case_decide.
  - unfold sync_certificate_with_block. case_decide; [done|]. destruct (contains_certificate s _); [done|].
    destruct (foldM _ _ _) as [[missing ab]|e|e|]; [|done..]. by apply insert_safe.
  - unfold get_transmission. destruct (svc_get _ _). split; [|done].
    eapply storage_inv_ext; [..|exact Hs]; try done. apply Hs.
Qed.

Lemma new_safe lookback L svc gc (s : St) : new L svc gc = Ok s -> safe lookback s.
Proof.
  unfold new. intros H. apply bind_Ok in H as (com & Hcom & H). case_decide; [done|].
  match type of H with context [garbage_collect_certificates ?x ?y] =>
    assert (storage_inv x) as Hx;
    [|destruct (garbage_collect_certificates x y) as [r s'] eqn:Eg] end.
  { split; [split|..]; cbn; try lia; done. }
  simp_ok. pose proof (gc_inv _ (Z.max (starting_round com) 1) Hx) as Hi. rewrite Eg in Hi.
  split; [done|]. intros i c Hc. exfalso.
  destruct (decide (gc_round (mk_storage (Svc := Svc) (Cache := Cache) 0 (Z.max (starting_round com) 1) 0 gc ∅
    (lru_new ((LATEST_MAX_CERTIFICATES * 2) mod 2 ^ 16)) ∅ ∅ svc)
    < saturating_sub (Z.max (starting_round com) 1) gc)) as [Hlt|Hge].
  - destruct (gc_moves _ _ Hx Hlt) as (s2 & E2 & _ & _ & _ & _ & _ & Hcs). rewrite Eg in E2.
    simplify_eq. apply Hcs in Hc as [Hc _]. cbn in Hc. by rewrite lookup_empty in Hc.
  - unfold garbage_collect_certificates in Eg. rewrite decide_False in Eg by done.
    cbn in Eg. case_decide; simplify_eq; cbn in Hc; by rewrite lookup_empty in Hc.
Qed.

Lemma reachable_safe lookback (s : St) : reachable lookback s -> safe lookback s.
Proof.
  intros (L & svc & gc & s0 & H0 & Hsteps). apply (new_safe lookback) in H0.
  induction Hsteps; eauto using step_safe.
Qed.

(** C5: in every reachable storage the round, certificate and batch indices
    describe the same certificates, an author has at most one certificate per
    round, every certificate is above the garbage-collection round, the current
    round is positive, and every certificate is signed by a quorum of the
    committee of its round. *)
Theorem storage_reachable_inv (lookback : Z -> result Committee) (s : St) :
  reachable lookback s ->
  storage_inv s /\ forall i c, certificates s !! i = Some c -> certified lookback c.
Proof. apply reachable_safe. Qed.

(** No operation moves the height, the round or the garbage-collection
    round backwards. *)
Theorem storage_trackers_monotone (lookback : Z -> result Committee) (s s' : St) :
  step lookback s s' ->
  current_height s <= current_height s' /\ current_round s <= current_round s' /\
  gc_round s <= gc_round s'.
Proof.
  assert (forall L now (c : BatchCertificate) ts ab,
    let s' := (insert_certificate L now s c ts ab).2 in
    current_height s <= current_height s' /\ current_round s <= current_round s' /\
    gc_round s <= gc_round s') as Hins.
  { intros L now c ts ab. cbv zeta. destruct (insert_certificate_cases L now s c ts ab) as [(m & -> & _)|[-> _]].
    - unfold insert_certificate_atomic. destruct (svc_insert _ _ _ _ _); cbn; lia.
    - lia. }
  intros [L r|next|L now c ts ab _|c|h|r|L now b c u _|t].
  - unfold increment_to_next_round. case_decide; [cbn; lia|].
    destruct (current_committee L); cbn; try lia. case_decide; cbn; [|lia].
    unfold sync_round_with_block. case_decide; cbn; lia.
  - unfold garbage_collect_certificates. case_decide as Hlt; [|case_decide; cbn; lia].
    set (s1 := update_gc_round s _). assert (forall rs (x : St),
      current_height (foldl remove_round x rs) = current_height x /\
      current_round (foldl remove_round x rs) = current_round x) as Hf.
    { induction rs as [|r rs IH]; intros x; cbn [foldl]; [done|]. destruct (IH (remove_round x r)) as [-> ->].
      unfold remove_round. generalize (get_certificate_ids_for_round x r) as l. clear. intros l. revert x.
      induction l as [|i l IH]; intros x; cbn [foldl]; [done|].
      destruct (IH (remove_certificate x i).2) as [-> ->]. split; apply certificate_fields. }
    cbn. rewrite !(proj1 (Hf _ _)), !(proj2 (Hf _ _)). cbn. lia.
  - apply Hins.
  - unfold insert_unprocessed_certificate. case_bool_decide; cbn; lia.
  - unfold sync_height_with_block. case_decide; cbn; lia.
  - unfold sync_round_with_block. case_decide; cbn; lia.
  - unfold sync_certificate_with_block. case_decide; [cbn; lia|].
    destruct (contains_certificate s _); [cbn; lia|].
    destruct (foldM _ _ _) as [[m ab]|e|e|]; [apply Hins|cbn; lia..].
  - unfold get_transmission. destruct (svc_get _ _). cbn. lia.
Qed.

(** Garbage collection removes exactly the certificates at or below the
    new cut-off, keeps the indices consistent, and refuses to move the cut-off
    back. *)
Theorem gc_spec (s : St) (next : Z) :
  storage_inv s ->
  let cut := saturating_sub next (max_gc_rounds s) in
  let '(r, s') := garbage_collect_certificates s next in
  storage_inv s' /\
  (gc_round s <= cut -> r = Ok tt /\ gc_round s' = cut /\
     forall i c, get_certificate s' i = Some c <-> get_certificate s i = Some c /\ cut < round c) /\
  (cut < gc_round s -> s' = s /\ exists e, r = Err e).
Proof.
  intros Hs cut. pose proof (gc_inv s next Hs) as Hinv.
  destruct (decide (gc_round s < cut)) as [Hlt|Hge].
  - destruct (gc_moves s next Hs Hlt) as (s' & E & _ & Hg & _ & _ & _ & Hc). rewrite E in *.
    split_and!; [done| |lia]. intros _. split_and!; [done|done|]. intros i c.
    unfold get_certificate. rewrite Hc. by rewrite Hg.
  - unfold garbage_collect_certificates in *. fold cut in Hinv |- *. rewrite decide_False in * by done.
    destruct (decide (cut < gc_round s)) as [Hlt|Heq]; (split; [done|]).
    + split; [lia|]. intros _. split; [done|by eexists].
    + split; [|lia]. intros _. split_and!; [done|lia|]. intros i c. split; [|tauto].
      intros Hc. split; [done|]. pose proof (si_above s Hs _ _ Hc). lia.
Qed.

(** C4: storage never holds conflicting quorums.  Two certificates for the
    same round, in the storages of any two nodes, are signed by sets of
    validators that share more stake than can be faulty: an honest validator
    signed both.  In particular this holds for two certificates of the same
    author. *)
Theorem certified_intersection (lookback : Z -> result Committee) (s1 s2 : St)
    (i1 i2 : Field) (c1 c2 : BatchCertificate) :
  reachable lookback s1 -> reachable lookback s2 ->
  (forall r c, lookback r = Ok c -> committee_wf c /\ 2 * total_stake c <= u64_max) ->
  get_certificate s1 i1 = Some c1 -> get_certificate s2 i2 = Some c2 -> round c1 = round c2 ->
  exists committee, lookback (round c1) = Ok committee /\
    faulty_stake committee < set_stake committee (signers c1 ∩ signers c2).
Proof.
  intros [_ H1]%reachable_safe [_ H2]%reachable_safe Hwf Hc1%H1 Hc2%H2 Hr.
  destruct Hc1 as (com1 & Hl1 & Hq1 & _). destruct Hc2 as (com2 & Hl2 & Hq2 & _).
  rewrite <-Hr, Hl1 in Hl2. simplify_eq. exists com2. split; [done|].
  destruct (Hwf _ _ Hl1) as [Hw Hmax].
  by apply quorum_stake_intersection.
Qed.

Lemma omap_entries (s : St) r entries :
  index_inv s -> rounds s !! r = Some entries ->
  exists cs, omap (fun p : Field * Address => certificates s !! p.1) entries = cs /\
    cert_id <$> cs = entries.*1 /\ author <$> cs = entries.*2 /\
    (forall c, c ∈ cs -> certificates s !! cert_id c = Some c /\ round c = r).
Proof.
  intros Hs He. apply (ix_rounds s Hs) in He as (_ & _ & _ & Hall).
  induction entries as [|p entries IH]; [exists []; set_solver|].
  destruct IH as (cs & Hcs & H1 & H2 & H3); [intros; apply Hall; by right|].
  destruct (Hall p ltac:(left)) as (c & Hc & Ha & Hr). exists (c :: cs). cbn. rewrite Hc, Hcs.
  pose proof (ix_certs s Hs _ _ Hc) as [Hi _].
  split_and!; [done|by rewrite H1, Hi|by rewrite H2, Ha|].
  intros d [->|?]%elem_of_cons; [|auto]. by rewrite Hi.
Qed.

Lemma head_omap_author (m : gmap Field BatchCertificate) (entries : list (Field * Address)) a c :
  NoDup entries.*2 -> (forall p, p ∈ entries -> is_Some (m !! p.1)) ->
  (head (omap (fun p => if decide (p.2 = a) then m !! p.1 else None) entries) = Some c <->
   exists p, p ∈ entries /\ p.2 = a /\ m !! p.1 = Some c).
Proof.
  induction entries as [|p entries IH]; intros Hnd Hall; cbn; [set_solver|].
  apply NoDup_cons in Hnd as [Hp Hnd]. destruct (Hall p ltac:(left)) as [d Hd].
  case_decide as Ha.
  - rewrite Hd. cbn. split.
    + intros [= <-]. exists p. split; [left|done].
    + intros (q & [->|Hq]%elem_of_cons & Hqa & Hqc); [congruence|]. exfalso. apply Hp.
      rewrite Ha, <-Hqa. apply list_elem_of_fmap. eauto.
  - rewrite IH; [|done|intros; apply Hall; by right]. split.
    + intros (q & ? & ?). exists q. split; [by right|done].
    + intros (q & [->|Hq]%elem_of_cons & Hqa & Hqc); [done|]. eauto.
Qed.

Lemma omap_author (s : St) r entries a c :
  index_inv s -> rounds s !! r = Some entries ->
  (head (omap (fun p : Field * Address => if decide (p.2 = a) then certificates s !! p.1 else None) entries)
     = Some c <->
   certificates s !! cert_id c = Some c /\ round c = r /\ author c = a).
Proof.
  intros Hs He. pose proof (ix_rounds s Hs _ _ He) as (_ & _ & Hnd & Hall).
  rewrite head_omap_author; [|done|intros p (d & ? & _)%Hall; eauto]. split.
  - intros (p & Hp & Ha & Hc). destruct (Hall p Hp) as (d & Hd & Had & Hrd).
    destruct (ix_certs s Hs _ _ Hc) as [Hi _]. rewrite Hi. split_and!; congruence.
  - intros (Hc & Hr & Ha). destruct (proj2 (in_round_cert s r (cert_id c, author c) Hs)) as (es & Hes & Hp); [eauto|].
    exists (cert_id c, author c). split_and!; [congruence|done..].
Qed.

(** The round query returns exactly the stored certificates of the round,
    one per author, and the query by author finds the author's. *)
Theorem round_queries_spec (s : St) (r : Z) :
  storage_inv s ->
  (forall c, c ∈ get_certificates_for_round s r <->
     get_certificate s (cert_id c) = Some c /\ round c = r) /\
  NoDup (author <$> get_certificates_for_round s r) /\
  (forall a c, get_certificate_for_round_with_author s r a = Some c <->
     get_certificate s (cert_id c) = Some c /\ round c = r /\ author c = a).
Proof.
  intros Hs. pose proof (si_index s Hs) as Hix.
  unfold get_certificates_for_round, get_certificate_for_round_with_author, get_certificate.
  destruct (rounds s !! r) as [entries|] eqn:He.
  - destruct (omap_entries s r entries Hix He) as (cs & Hcs & Hids & Has & Hall). rewrite Hcs.
    pose proof (ix_rounds s Hix _ _ He) as (Hne & Hnd & Hnd2 & _).
    assert (r <> 0) as Hr.
    { destruct cs as [|c cs']; [by destruct entries|]. destruct (Hall c ltac:(left)) as [Hc <-].
      pose proof (si_above s Hs _ _ Hc). pose proof (si_gc s Hs). lia. }
    rewrite decide_False by done.
    assert (NoDup (author <$> cs)) as Hnda by by rewrite Has.
    assert (forall c, certificates s !! cert_id c = Some c -> round c = r -> c ∈ cs) as Hin.
    { intros c Hc Hrc. destruct (proj2 (in_round_cert s r (cert_id c, author c) Hix)) as (es & Hes & Hp); [eauto|].
      assert (es = entries) as -> by congruence. rewrite <-Hcs. apply list_elem_of_omap. by exists (cert_id c, author c). }
    assert (NoDup (cert_id <$> cs)) as Hndi.
    { apply NoDup_fmap_2_strong; [|by eapply NoDup_fmap_1].
      intros c d Hc Hd Heq. apply Hall in Hc as [Hc _], Hd as [Hd _]. congruence. }
    rewrite iset_of_list_id by done. split_and!; [|done|].
    + intros c. split; [apply Hall|]. intros [? ?]. auto.
    + intros a c. by apply omap_author.
  - assert (forall c, certificates s !! cert_id c = Some c -> round c <> r) as Hnone.
    { intros c Hc Hrc. apply (ix_certs s Hix) in Hc as (_ & es & Hes & _). congruence. }
    split_and!; [case_decide; set_solver|case_decide; constructor|naive_solver].
Qed.

Lemma elem_of_pending_list L (s : St) c :
  index_inv s ->
  (c ∈ (btree_iter (rounds s) ≫= fun p : Z * list (Field * Address) =>
       omap (fun q : Field * Address =>
               if unwrap_or false (ledger_contains_certificate L q.1) then None
               else certificates s !! q.1) p.2) <->
   certificates s !! cert_id c = Some c /\ ledger_contains_certificate L (cert_id c) <> Ok true).
Proof.
  intros Hs. rewrite list_elem_of_bind. split.
  - intros ([r es] & Hc & Hr%elem_of_btree_iter). cbn in Hc.
    apply list_elem_of_omap in Hc as (q & Hq & Hc).
    destruct (unwrap_or false _) eqn:El; [done|].
    destruct (ix_certs s Hs _ _ Hc) as [Hi _]. rewrite Hi. split; [done|].
    intros E. by rewrite E in El.
  - intros [Hc Hl]. destruct (ix_certs s Hs _ _ Hc) as (_ & es & Hes & Hp).
    exists (round c, es). rewrite elem_of_btree_iter. split; [|done]. cbn. apply list_elem_of_omap.
    exists (cert_id c, author c). split; [done|]. cbn.
    by destruct (ledger_contains_certificate L (cert_id c)) as [[]|e|e|].
Qed.

(** The pending certificates are exactly the stored certificates the
    ledger does not have, in ascending order of their rounds. *)
Theorem pending_certificates_spec (L : LedgerService) (s : St) :
  storage_inv s ->
  (forall c, c ∈ get_pending_certificates L s <->
     get_certificate s (cert_id c) = Some c /\ ledger_contains_certificate L (cert_id c) <> Ok true) /\
  StronglySorted (fun c d => round c <= round d) (get_pending_certificates L s).
Proof.
  intros Hs. pose proof (si_index s Hs) as Hix. unfold get_pending_certificates, get_certificate. split.
  - intros c. rewrite <-(elem_of_pending_list L s c Hix). split; [apply elem_of_iset_of_list|].
    intros Hc. set (l := btree_iter _ ≫= _) in *.
    assert (cert_id c ∈ cert_id <$> iset_of_list cert_id l) as (d & Hid & Hd)%list_elem_of_fmap.
    { apply iset_of_list_keys. by apply list_elem_of_fmap_2. }
    assert (c = d) as ->; [|done]. apply elem_of_iset_of_list in Hd.
    apply elem_of_pending_list in Hc as [Hc _], Hd as [Hd _]; [|done..]. rewrite <-Hid in Hd. congruence.
  - eapply StronglySorted_sublist; [apply iset_of_list_sublist|].
    apply (StronglySorted_bind _ (fun p => p.1)); [|apply btree_iter_sorted].
    intros [r es] c Hr%elem_of_btree_iter (q & Hq & Hc)%list_elem_of_omap. cbn in *.
    destruct (unwrap_or false _); [done|]. apply (ix_rounds s Hix) in Hr as (_ & _ & _ & Hall).
    destruct (Hall q Hq) as (d & Hd & _ & Hrd). congruence.
Qed.

(** *** With a lawful storage service *)

Context `{!StorageServiceLaws Svc}.

(** Inserting a certificate is atomic.  Either it succeeds, and then the
    certificate was new for its ID and its author, was signed by a quorum of
    members and refers to a quorum of stored certificates of the previous round
    (above the garbage-collection round); it is stored beside the certificates
    that were there, and all its transmissions are known; or the storage is
    unchanged. *)
Theorem insert_certificate_spec (L : LedgerService) (now : Z) (s : St) (c : BatchCertificate)
    (ts : transmission_map) (aborted : gset TransmissionID) :
  storage_inv s ->
  let '(r, s') := insert_certificate L now s c ts aborted in
  (r = Ok tt /\ gc_round s < round c /\ accepted L s c /\ storage_inv s' /\
   (forall i, get_certificate s' i = if decide (i = cert_id c) then Some c else get_certificate s i) /\
   (forall t, t ∈ transmission_ids c \/ contains_transmission s t = true ->
      contains_transmission s' t = true)) \/
  (r <> Ok tt /\ s' = s).
Proof.
  intros Hs. destruct (insert_certificate_cases L now s c ts aborted) as [(missing & E & Hg & Hm)|[E1 E2]].
  - apply check_certificate_Ok in Hm as [Hok Hf]; [|apply Hs].
    destruct (insert_atomic_inv s c aborted missing Hs Hg) as [Hi Hcerts]; [apply Hok..|].
    rewrite <-E in Hi, Hcerts. destruct (svc_insert_find _ _ _ _ _ (cert_id c) Hf) as (svc & Hins & Hall).
    unfold insert_certificate_atomic, transmission_ids in E. rewrite Hins in E.
    rewrite E in *. cbn in Hcerts. left. split_and!; try done.
    + intros i. unfold get_certificate. cbn. case_decide as Hd.
      * subst. by rewrite lookup_insert_eq.
      * by rewrite lookup_insert_ne.
    + intros t [Ht|Ht]; [by apply Hall|]. by eapply svc_insert_mono.
  - destruct (insert_certificate L now s c ts aborted) as [r s']. cbn in *. right. split; [|done].
    intros ->. apply E2. eauto.
Qed.

End Props.
End StorageProps.

(** ** Witnesses *)

Abbreviation TestStorage := (Storage.Storage (Memory.BFTMemoryService (N := TestNetwork))
  (ListLru.cache (Field (Network := TestNetwork)) (BatchCertificate (N := TestNetwork)))).

Definition sample_lookback : Z -> result (Committee (N := TestNetwork)) := fun _ => Ok sample_committee.

Definition sample_ledger : LedgerService (N := TestNetwork) := {|
  latest_round := 0;
  current_committee := Ok sample_committee;
  get_committee_lookback_for_round := sample_lookback;
  ledger_contains_certificate i := Ok (bool_decide (i = cert_id (sample_cert 0)));
  ledger_contains_transmission _ := Ok false;
  ledger_get_solution _ := Ok None;
  ledger_get_unconfirmed_transaction _ := Ok None;
|}.

Definition sample_storage0 : TestStorage :=
  Storage.mk_storage 0 2 0 50 ∅ (lru_new 80) ∅ ∅ Memory.new.

(** The nine certificates of the sample rounds, inserted in order. *)
Definition sample_insert (s : TestStorage) (c : BatchCertificate (N := TestNetwork)) : TestStorage :=
  (Storage.insert_certificate sample_ledger 100 s c ∅ ∅).2.
Definition sample_storage : TestStorage := foldl sample_insert sample_storage0 sample_rounds.

Lemma sample_inserts_reachable l s :
  rtc (StorageProps.step sample_lookback) s (foldl sample_insert s l).
Proof.
  revert s. induction l as [|c l IH]; intros s; [constructor|]. cbn [foldl].
  eapply rtc_l; [|apply IH]. by apply StorageProps.step_insert.
Qed.

Lemma sample_storage_reachable : StorageProps.reachable sample_lookback sample_storage.
Proof.
  exists sample_ledger, Memory.new, 50, sample_storage0. split; [vm_refl|].
  apply sample_inserts_reachable.
Qed.

Lemma sample_storage_inv : StorageProps.storage_inv sample_storage.
Proof. apply (StorageProps.reachable_safe sample_lookback), sample_storage_reachable. Qed.

Lemma storage_reachable_inv_witness :
  Storage.certificates sample_storage !! cert_id (sample_cert 8) = Some (sample_cert 8) /\
  StorageProps.certified sample_lookback (sample_cert 8).
Proof.
  assert (Storage.certificates sample_storage !! cert_id (sample_cert 8) = Some (sample_cert 8)) as H
    by vm_refl.
  destruct (StorageProps.storage_reachable_inv sample_lookback _ sample_storage_reachable) as [_ Hc].
  split; [exact H|]. exact (Hc _ _ H).
Defined.

Lemma storage_trackers_monotone_witness :
  Storage.current_round sample_storage <=
  Storage.current_round (Storage.increment_to_next_round sample_ledger sample_storage 3).2.
Proof.
  exact (proj1 (proj2 (StorageProps.storage_trackers_monotone sample_lookback sample_storage _
    (StorageProps.step_increment sample_lookback sample_storage sample_ledger 3)))).
Defined.

Lemma gc_spec_witness :
  StorageProps.storage_inv (Storage.garbage_collect_certificates sample_storage 52).2 /\
  Storage.gc_round (Storage.garbage_collect_certificates sample_storage 52).2 = 2.
Proof.
  pose proof (StorageProps.gc_spec sample_storage 52 sample_storage_inv) as H.
  assert (Storage.gc_round (Storage.garbage_collect_certificates sample_storage 52).2 = 2) as Hg by vm_refl.
  destruct (Storage.garbage_collect_certificates sample_storage 52) as [r s'] eqn:E.
  destruct H as [Hi _]. split; [exact Hi|exact Hg].
Defined.

Lemma sample_lookback_wf r c :
  sample_lookback r = Ok c -> committee_wf c /\ 2 * total_stake c <= u64_max.
Proof. intros [= <-]. split; [apply sample_committee_wf|by vm_compute]. Qed.

Lemma certified_intersection_witness :
  faulty_stake sample_committee < set_stake sample_committee
    (Storage.signers (sample_cert 3) ∩ Storage.signers (sample_cert 5)).
Proof.
  destruct (StorageProps.certified_intersection sample_lookback sample_storage sample_storage
    (cert_id (sample_cert 3)) (cert_id (sample_cert 5)) (sample_cert 3) (sample_cert 5)
    sample_storage_reachable sample_storage_reachable sample_lookback_wf
    ltac:(vm_refl) ltac:(vm_refl) ltac:(vm_refl)) as (com & Hc & H).
  apply Ok_inj in Hc. subst com. exact H.
Defined.

Lemma round_queries_spec_witness :
  sample_cert 4 ∈ Storage.get_certificates_for_round sample_storage 2.
Proof.
  apply (proj1 (StorageProps.round_queries_spec sample_storage 2 sample_storage_inv)).
  split; vm_refl.
Defined.

Lemma pending_certificates_spec_witness :
  sample_cert 1 ∈ Storage.get_pending_certificates sample_ledger sample_storage.
Proof.
  apply (proj1 (StorageProps.pending_certificates_spec sample_ledger sample_storage sample_storage_inv)).
  split; [vm_refl|]. intros H. apply Ok_inj in H. by vm_compute in H.
Defined.

Lemma insert_certificate_spec_witness :
  let s := foldl sample_insert sample_storage0 (take 3 sample_rounds) in
  (Storage.insert_certificate sample_ledger 100 s (sample_cert 3) ∅ ∅).1 = Ok tt /\
  StorageProps.storage_inv (Storage.insert_certificate sample_ledger 100 s (sample_cert 3) ∅ ∅).2.
Proof.
  intros s.
  assert ((Storage.insert_certificate sample_ledger 100 s (sample_cert 3) ∅ ∅).1 = Ok tt) as Hr by vm_refl.
  assert (StorageProps.storage_inv s) as Hs.
  { apply (StorageProps.reachable_safe sample_lookback).
    exists sample_ledger, Memory.new, 50, sample_storage0. split; [vm_refl|]. apply sample_inserts_reachable. }
  pose proof (StorageProps.insert_certificate_spec sample_ledger 100 s (sample_cert 3) ∅ ∅ Hs) as H.
  destruct (Storage.insert_certificate sample_ledger 100 s (sample_cert 3) ∅ ∅) as [r s'].
  cbn in Hr |- *. destruct H as [H|[H _]]; [|done]. split; [exact Hr|apply H].
Defined.
