(* ===== verification/Dag.v ===== *)
(** * The DAG of certificates

    [DAG<N>] of node/bft/src/helpers/dag.rs: the certificates that are not
    committed yet, by round and author, with the recently committed IDs. *)

From S2P Require Import Prelude Network Narwhal.

Module Dag.
Section Dag.
Context `{N : Network}.

Record DAG := mk_dag {
  graph : gmap Z (gmap Address BatchCertificate);
  recent_committed_ids : gmap Z (gset Field);
  last_committed_round : Z;
}.

(** [DAG::new]. *)
Definition new : DAG := mk_dag ∅ ∅ 0.

(** [map.values()], in the order of the hash map. *)
Definition values (m : gmap Address BatchCertificate) : list BatchCertificate :=
  (map_to_list m).*2.

(** [DAG::is_recently_committed]. *)
Definition is_recently_committed (d : DAG) (r : Z) (id : Field) : bool :=
  match recent_committed_ids d !! r with
  | Some ids => bool_decide (id ∈ ids)
  | None => false
  end.

(** [DAG::contains_certificate_in_round]. *)
Definition contains_certificate_in_round (d : DAG) (r : Z) (id : Field) : bool :=
  match graph d !! r with
  | Some m => existsb (fun c => bool_decide (cert_id c = id)) (values m)
  | None => false
  end.

(** [DAG::get_certificate_for_round_with_author]. *)
Definition get_certificate_for_round_with_author (d : DAG) (r : Z) (a : Address)
    : option BatchCertificate :=
  m ← graph d !! r; m !! a.

(** [DAG::get_certificate_for_round_with_id]. *)
Definition get_certificate_for_round_with_id (d : DAG) (r : Z) (id : Field)
    : option BatchCertificate :=
  m ← graph d !! r; List.find (fun c => bool_decide (cert_id c = id)) (values m).

(** [DAG::get_certificates_for_round]. *)
Definition get_certificates_for_round (d : DAG) (r : Z) : option (gmap Address BatchCertificate) :=
  graph d !! r.

(** [DAG::insert]. *)
Definition insert (d : DAG) (c : BatchCertificate) : DAG :=
  if is_recently_committed d (round c) (cert_id c) then d
  else mk_dag (<[round c := <[author c := c]> (default ∅ (graph d !! round c))]> (graph d))
         (recent_committed_ids d) (last_committed_round d).

(** [BTreeMap::retain], where the closure may also update the value. *)
Definition retain {V} (f : Z -> V -> option V) (m : gmap Z V) : gmap Z V := map_imap f m.

(** [|round, _| round + max_gc_rounds > self.last_committed_round]. *)
Definition above_gc (max_gc_rounds last : Z) {V} (r : Z) (v : V) : option V :=
  if decide (last < u64_wrap (r + max_gc_rounds)) then Some v else None.

(** The last closure of [DAG::commit]. *)
Definition remove_author (certificate_round : Z) (a : Address) (r : Z)
    (m : gmap Address BatchCertificate) : option (gmap Address BatchCertificate) :=
  if decide (certificate_round < r) then Some m
  else if decide (delete a m = ∅) then None else Some (delete a m).

(** [DAG::commit]. *)
Definition commit (d : DAG) (c : BatchCertificate) (max_gc_rounds : Z) : DAG :=
  let ids := <[round c := default ∅ (recent_committed_ids d !! round c) ∪ {[cert_id c]}]>
               (recent_committed_ids d) in
  let last := if decide (last_committed_round d < round c) then round c
              else last_committed_round d in
  mk_dag (retain (remove_author (round c) (author c)) (retain (above_gc max_gc_rounds last) (graph d)))
    (retain (above_gc max_gc_rounds last) ids) last.

(** One round of the traversal of [DAG::is_linked]. *)
Definition previous_in (traversal : list BatchCertificate) (m : gmap Address BatchCertificate)
    : list BatchCertificate :=
  List.filter (fun p => existsb (fun c => bool_decide (cert_id p ∈ previous_certificate_ids c)) traversal)
    (values m).

(** The body of the loop of [DAG::is_linked]. *)
Definition traverse_round (d : DAG) (traversal : list BatchCertificate) (r : Z)
    : result (list BatchCertificate) :=
  m ← ok_or "BFT failed to retrieve the certificates for past round {round}"
        (get_certificates_for_round d r);
  Ok (previous_in traversal m).

(** The rounds [(lo..hi).rev()]. *)
Fixpoint rounds_down (n : nat) (lo : Z) : list Z :=
  match n with
  | O => []
  | S n => (lo + Z.of_nat n) :: rounds_down n lo
  end.

(** [DAG::is_linked]. *)
Definition is_linked (d : DAG) (previous current : BatchCertificate) : result bool :=
  _ ← ensure (bool_decide (round previous < round current)) "Condition failed";
  traversal ← foldM (traverse_round d) [current]
    (rounds_down (Z.to_nat (round current - round previous)) (round previous));
  Ok (iset_contains cert_id (cert_id previous) traversal).

(** ** Lookups after insertion and commit *)

Lemma lookup_retain {V} (f : Z -> V -> option V) (m : gmap Z V) r :
  retain f m !! r = v ← m !! r; f r v.
Proof. unfold retain. apply map_lookup_imap. Qed.

Lemma elem_of_values m c : c ∈ values m <-> exists a, m !! a = Some c.
Proof.
  unfold values. rewrite list_elem_of_fmap. split.
  - intros ([a c'] & -> & H%elem_of_map_to_list). eauto.
  - intros [a H]. exists (a, c). by rewrite elem_of_map_to_list.
Qed.

Lemma insert_lookup d c r a :
  is_recently_committed d (round c) (cert_id c) = false ->
  get_certificate_for_round_with_author (insert d c) r a =
  if decide (r = round c /\ a = author c) then Some c
  else get_certificate_for_round_with_author d r a.
Proof.
  intros Hc. unfold insert, get_certificate_for_round_with_author. rewrite Hc. cbn.
  destruct (decide (r = round c)) as [->|Hr].
  - rewrite lookup_insert_eq. cbn. destruct (decide (a = author c)) as [->|Ha].
    + by rewrite lookup_insert_eq, decide_True.
    + rewrite lookup_insert_ne, decide_False by naive_solver.
      destruct (graph d !! round c); cbn; [done|]. by rewrite lookup_empty.
  - rewrite lookup_insert_ne by done. by rewrite decide_False by naive_solver.
Qed.

Lemma commit_last d c gc : last_committed_round (commit d c gc) = Z.max (last_committed_round d) (round c).
Proof. cbn. case_decide; lia. Qed.

Lemma commit_lookup d c gc r a :
  get_certificate_for_round_with_author (commit d c gc) r a =
  if decide (last_committed_round (commit d c gc) < u64_wrap (r + gc)
             /\ ~ (r <= round c /\ a = author c))
  then get_certificate_for_round_with_author d r a else None.
Proof.
  unfold get_certificate_for_round_with_author. cbn.
  set (last := if decide (last_committed_round d < round c) then _ else _).
  rewrite !lookup_retain. destruct (graph d !! r) as [m|]; cbn; [|by case_decide].
  unfold above_gc.
  destruct (decide (last < u64_wrap (r + gc))); cbn; [|by rewrite decide_False by tauto].
  unfold remove_author. destruct (decide (round c < r)).
  - cbn. by rewrite decide_True by (split; [done|lia]).
  - destruct (decide (a = author c)) as [->|Ha].
    + rewrite (decide_False (P := _ /\ _)) by (intros [_ H]; apply H; split; [lia|done]).
      destruct (decide (delete (author c) m = ∅)); cbn; [done|]. by rewrite lookup_delete_eq.
    + rewrite (decide_True (P := _ /\ _)) by (split; [done|naive_solver]).
      destruct (decide (delete (author c) m = ∅)) as [E|]; cbn.
      * rewrite <-(lookup_delete_ne m (author c) a) by done. by rewrite E, lookup_empty.
      * by rewrite lookup_delete_ne.
Qed.

Lemma commit_committed d c gc r id :
  is_recently_committed (commit d c gc) r id =
  bool_decide (last_committed_round (commit d c gc) < u64_wrap (r + gc)) &&
  (is_recently_committed d r id || bool_decide (r = round c /\ id = cert_id c)).
Proof.
  unfold is_recently_committed. cbn. set (last := if decide _ then _ else _).
  rewrite lookup_retain. destruct (decide (r = round c)) as [->|Hr].
  - rewrite lookup_insert_eq. cbn. unfold above_gc. case_decide as Hgc; cbn.
    + rewrite (bool_decide_eq_true_2 (_ < _)) by done. cbn.
      destruct (recent_committed_ids d !! round c) as [ids|]; cbn; apply eq_true_iff_eq;
        rewrite ?orb_true_iff, !bool_decide_eq_true; set_solver.
    + by rewrite bool_decide_eq_false_2 by done.
  - rewrite lookup_insert_ne by done. rewrite (bool_decide_eq_false_2 (r = _ /\ _)) by tauto.
    rewrite orb_false_r. destruct (recent_committed_ids d !! r) as [ids|]; cbn.
    + unfold above_gc. case_decide as Hgc; cbn;
        [by rewrite (bool_decide_eq_true_2 (_ < _))|by rewrite (bool_decide_eq_false_2 (_ < _))].
    + by rewrite andb_false_r.
Qed.

(** ** Reachable DAGs *)

(** The certificates a node handles: the garbage-collection arithmetic on
    their rounds does not overflow, and the batch ID, a hash of the header,
    determines the author. *)
Record universe (max_gc_rounds : Z) (U : BatchCertificate -> Prop) : Prop := {
  uni_gc : 0 < max_gc_rounds;
  uni_round c : U c -> 0 <= round c /\ round c + max_gc_rounds <= u64_max;
  uni_id c1 c2 : U c1 -> U c2 -> cert_id c1 = cert_id c2 -> author c1 = author c2;
}.

(** The DAGs [insert] and [commit] build from [DAG::new]. *)
Inductive reachable (max_gc_rounds : Z) (U : BatchCertificate -> Prop) : DAG -> Prop :=
| reachable_new : reachable max_gc_rounds U new
| reachable_insert d c :
    reachable max_gc_rounds U d -> U c -> reachable max_gc_rounds U (insert d c)
| reachable_commit d c :
    reachable max_gc_rounds U d -> U c -> reachable max_gc_rounds U (commit d c max_gc_rounds).

Record dag_inv (gc : Z) (U : BatchCertificate -> Prop) (d : DAG) : Prop := {
  (** A certificate is filed under its round and author. *)
  di_keys r a c : get_certificate_for_round_with_author d r a = Some c ->
    U c /\ round c = r /\ author c = a;
  (** No certificate of the graph is recently committed. *)
  di_uncommitted r a c : get_certificate_for_round_with_author d r a = Some c ->
    is_recently_committed d r (cert_id c) = false;
  (** The committed IDs are those of the last [gc] rounds up to the last committed one. *)
  di_committed r id : is_recently_committed d r id = true ->
    r <= last_committed_round d < r + gc /\ exists c, U c /\ round c = r /\ cert_id c = id;
  di_last : last_committed_round d <> 0 ->
    exists id, is_recently_committed d (last_committed_round d) id = true;
  di_last_nonneg : 0 <= last_committed_round d;
}.

Section Inv.
Context {gc : Z} {U : BatchCertificate -> Prop} (HU : universe gc U).

Lemma new_inv : dag_inv gc U new.
Proof.
  split; intros *; cbn; try done.
Qed.

Lemma insert_committed d c r id :
  is_recently_committed (insert d c) r id = is_recently_committed d r id.
Proof. unfold insert. by destruct (is_recently_committed d (round c) _). Qed.

Lemma insert_inv d c : dag_inv gc U d -> U c -> dag_inv gc U (insert d c).
Proof.
  intros Hd Hc. destruct (is_recently_committed d (round c) (cert_id c)) eqn:E.
  { unfold insert. by rewrite E. }
  split.
  - intros r a c'. rewrite insert_lookup by done. case_decide as H; [naive_solver|]. apply Hd.
  - intros r a c'. rewrite insert_lookup, insert_committed by done.
    case_decide as H; [naive_solver|]. apply Hd.
  - intros r id. rewrite insert_committed. unfold insert. rewrite E. apply Hd.
  - unfold insert. rewrite E. cbn. intros Hl. apply (di_last _ _ _ Hd Hl).
  - unfold insert. rewrite E. apply Hd.
Qed.

Lemma gc_wrap c : U c -> u64_wrap (round c + gc) = round c + gc.
Proof.
  intros Hc. pose proof (uni_gc _ _ HU). pose proof (uni_round _ _ HU c Hc).
  apply u64_wrap_id. mlia.
Qed.

Lemma commit_inv d c : dag_inv gc U d -> U c -> dag_inv gc U (commit d c gc).
Proof.
  intros Hd Hc. pose proof (uni_gc _ _ HU) as Hgc. pose proof (uni_round _ _ HU c Hc) as Hr.
  assert (forall r id, is_recently_committed (commit d c gc) r id = true ->
    (is_recently_committed d r id = true \/ r = round c /\ id = cert_id c) /\
    last_committed_round (commit d c gc) < r + gc) as Hcom.
  { intros r id. rewrite commit_committed, andb_true_iff, orb_true_iff, !bool_decide_eq_true.
    intros [Hl H]. split; [done|]. destruct H as [H|[-> _]].
    - apply Hd in H as (_ & x & Hx & <- & _). by rewrite gc_wrap in Hl.
    - by rewrite gc_wrap in Hl. }
  split.
  - intros r a c'. rewrite commit_lookup. case_decide; [|done]. apply Hd.
  - intros r a c'. rewrite commit_lookup. case_decide as H; [|done]. intros Hg.
    destruct (is_recently_committed (commit d c gc) r (cert_id c')) eqn:E; [|done].
    apply Hcom in E as [[E|[-> E]] _].
    + by rewrite (di_uncommitted _ _ _ Hd _ _ _ Hg) in E.
    + apply (di_keys _ _ _ Hd) in Hg as (HUc & _ & <-). exfalso. apply H. split; [lia|].
      by apply HU.
  - intros r id Hid. pose proof (Hcom _ _ Hid) as [H ?]. rewrite commit_last in *.
    destruct H as [H|[-> ->]]; [apply Hd in H as [? ?]|]; (split; [lia|]); eauto.
  - rewrite commit_last. intros Hl. pose proof (di_last_nonneg _ _ _ Hd).
    destruct (decide (last_committed_round d <= round c)).
    + exists (cert_id c). rewrite Z.max_r by done. rewrite commit_committed, gc_wrap by done.
      rewrite commit_last, (bool_decide_eq_true_2 (_ /\ _)), orb_true_r by done.
      by rewrite bool_decide_eq_true_2 by lia.
    + rewrite Z.max_l in * by lia. destruct (di_last _ _ _ Hd) as [id Hid]; [lia|].
      exists id. rewrite commit_committed, Hid. apply Hd in Hid as (_ & x & Hx & Hrx & _).
      rewrite <-Hrx, gc_wrap by done. rewrite commit_last, bool_decide_eq_true_2 by lia. done.
  - rewrite commit_last. lia.
Qed.

Lemma reachable_inv d : reachable gc U d -> dag_inv gc U d.
Proof. induction 1; eauto using new_inv, insert_inv, commit_inv. Qed.

(** In every reachable DAG a certificate is filed under its own round and
    author, is not recently committed, and the recently committed IDs are from
    the last [max_gc_rounds] rounds, of which the last committed round is the
    largest. *)
Theorem dag_reachable_inv (d : DAG) :
  reachable gc U d ->
  (forall r a c, get_certificate_for_round_with_author d r a = Some c ->
     round c = r /\ author c = a /\ is_recently_committed d r (cert_id c) = false) /\
  (forall r id, is_recently_committed d r id = true ->
     r <= last_committed_round d < r + gc) /\
  (last_committed_round d <> 0 ->
     exists id, is_recently_committed d (last_committed_round d) id = true).
Proof.
  intros Hd%reachable_inv. split_and!.
  - intros r a c Hc. pose proof (di_keys _ _ _ Hd _ _ _ Hc) as (_ & ? & ?).
    eauto using di_uncommitted.
  - intros r id H. by apply Hd in H as [? _].
  - apply Hd.
Qed.

End Inv.

(** What [commit] does, at every round and author: the last committed
    round is the maximum, certificates at or below the garbage-collection
    round go, the author's certificates up to the committed round go, and
    every other certificate stays. *)
Theorem commit_spec (d : DAG) (c : BatchCertificate) (gc r : Z) (a : Address) :
  0 <= r -> 0 <= gc -> r + gc <= u64_max ->
  let last := Z.max (last_committed_round d) (round c) in
  last_committed_round (commit d c gc) = last /\
  get_certificate_for_round_with_author (commit d c gc) r a =
    (if decide (r + gc <= last) then None
     else if decide (r <= round c /\ a = author c) then None
     else get_certificate_for_round_with_author d r a).
Proof.
  intros Hr Hgc Hmax last. split; [apply commit_last|]. rewrite commit_lookup, commit_last.
  fold last. rewrite u64_wrap_id by mlia.
  destruct (decide (r + gc <= last)); [by rewrite decide_False by lia|].
  destruct (decide (r <= round c /\ a = author c)).
  - by rewrite decide_False by tauto.
  - rewrite decide_True; [done|]. split; [lia|done].
Qed.

(** A committed certificate stays recently committed, and cannot be
    inserted again, as long as no certificate [max_gc_rounds] rounds ahead is
    committed. *)
Theorem commit_blocks_insert (d : DAG) (c : BatchCertificate) (gc : Z) :
  0 <= round c -> 0 < gc -> round c + gc <= u64_max -> last_committed_round d < round c + gc ->
  insert (commit d c gc) c = commit d c gc /\
  get_certificate_for_round_with_author (commit d c gc) (round c) (author c) = None.
Proof.
  intros Hr Hgc Hmax Hlast. split.
  - unfold insert at 1. rewrite commit_committed, commit_last, u64_wrap_id by mlia.
    rewrite (bool_decide_eq_true_2 (_ /\ _)), orb_true_r by done.
    by rewrite bool_decide_eq_true_2 by lia.
  - rewrite commit_lookup, decide_False; [done|]. intros [_ H]. apply H. split; [lia|done].
Qed.

(** ** Paths *)

(** [path d c p]: [p] is reached from [c] by following references to
    previous certificates through the certificates of the graph. *)
Inductive path (d : DAG) (c : BatchCertificate) : BatchCertificate -> Prop :=
| path_refl : path d c c
| path_step x p a :
    path d c x -> get_certificate_for_round_with_author d (round x - 1) a = Some p ->
    cert_id p ∈ previous_certificate_ids x -> path d c p.

Definition filed (d : DAG) : Prop := forall r a c,
  get_certificate_for_round_with_author d r a = Some c -> round c = r.

Lemma insert_filed d c : filed d -> filed (insert d c).
Proof.
  intros Hd. destruct (is_recently_committed d (round c) (cert_id c)) eqn:E.
  { unfold insert. by rewrite E. }
  intros r a x. rewrite insert_lookup by done. case_decide; [naive_solver|apply Hd].
Qed.

Lemma commit_filed d c gc : filed d -> filed (commit d c gc).
Proof. intros Hd r a x. rewrite commit_lookup. case_decide; [apply Hd|done]. Qed.

Lemma elem_of_previous_in tr m p :
  p ∈ previous_in tr m <->
  (exists a, m !! a = Some p) /\ exists c, c ∈ tr /\ cert_id p ∈ previous_certificate_ids c.
Proof.
  unfold previous_in. rewrite list_elem_of_In, filter_In, <-list_elem_of_In, elem_of_values.
  rewrite existsb_exists. setoid_rewrite bool_decide_eq_true. setoid_rewrite <-list_elem_of_In.
  naive_solver.
Qed.

Lemma elem_of_rounds_down n lo r : r ∈ rounds_down n lo <-> lo <= r < lo + Z.of_nat n.
Proof.
  induction n as [|n IH]; cbn [rounds_down]; [set_solver by lia|].
  rewrite elem_of_cons, IH. lia.
Qed.

(** The traversal after the rounds down to [lo] holds exactly the
    certificates of round [lo] that a path reaches. *)
Lemma traversal_path d c n lo tr tr' :
  filed d -> (forall x, x ∈ tr <-> path d c x /\ round x = lo + Z.of_nat n) ->
  foldM (traverse_round d) tr (rounds_down n lo) = Ok tr' ->
  round c >= lo + Z.of_nat n ->
  forall x, x ∈ tr' <-> path d c x /\ round x = lo.
Proof.
  intros Hf. revert tr. induction n as [|n IH]; intros tr Htr H Hge; cbn [rounds_down foldM] in H.
  { simp_ok. intros x. rewrite Htr. by rewrite Z.add_0_r. }
  apply bind_Ok in H as (tr1 & H1 & H). unfold traverse_round in H1. simp_ok.
  eapply IH; [|exact H|lia]. intros z. rewrite elem_of_previous_in.
  match goal with H : get_certificates_for_round _ _ = Some ?m |- _ =>
    rename m into mm; rename H into Hm end.
  assert (forall a, mm !! a = get_certificate_for_round_with_author d (lo + Z.of_nat n) a) as Hmm.
  { intros a. unfold get_certificate_for_round_with_author, get_certificates_for_round in *.
    by rewrite Hm. }
  setoid_rewrite Hmm. split.
  - intros [[a Ha] (y & [Hy Hry]%Htr & Hp)]. split; [|by eapply Hf].
    eapply path_step; [exact Hy| |exact Hp].
    by replace (round y - 1) with (lo + Z.of_nat n) by lia.
  - intros [Hp Hx]. inversion Hp as [Heq|y ? a Hy Ha Hin]; simplify_eq; [lia|].
    pose proof (Hf _ _ _ Ha). assert (round y - 1 = lo + Z.of_nat n) as Hry by lia.
    rewrite Hry in Ha. split; [by exists a|]. exists y. split; [|done]. apply Htr. split; [done|lia].
Qed.

(** Paths go down. *)
Lemma path_round d c x : filed d -> path d c x -> x = c \/ round x < round c.
Proof.
  intros Hf. induction 1 as [|y p a Hy IH Ha Hin]; [by left|]. apply Hf in Ha.
  destruct IH as [->|?]; right; lia.
Qed.

Lemma traversal_total d rs tr :
  (forall r, r ∈ rs -> is_Some (graph d !! r)) -> exists tr', foldM (traverse_round d) tr rs = Ok tr'.
Proof.
  revert tr. induction rs as [|r rs IH]; intros tr H; cbn [foldM]; [eauto|].
  destruct (H r ltac:(left)) as [m Hm].
  assert (traverse_round d tr r = Ok (previous_in tr m)) as ->.
  { unfold traverse_round, get_certificates_for_round. by rewrite Hm. }
  apply IH. set_solver.
Qed.

(** [is_linked] decides reachability.  It fails exactly when a round in
    between has no certificates at all; otherwise it tells whether a path of
    previous-certificate references in the graph leads from the current
    certificate to the previous one. *)
Theorem is_linked_correct (d : DAG) (p c : BatchCertificate) :
  filed d -> round p < round c ->
  (forall r, round p <= r < round c -> is_Some (graph d !! r)) ->
  exists b, is_linked d p c = Ok b /\
    (b = true <-> exists x, path d c x /\ round x = round p /\ cert_id x = cert_id p).
Proof.
  intros Hf Hlt Hall. unfold is_linked. rewrite ensure_bind by (by apply bool_decide_eq_true).
  destruct (traversal_total d (rounds_down (Z.to_nat (round c - round p)) (round p)) [c])
    as [tr E].
  { intros r Hr%elem_of_rounds_down. apply Hall. lia. }
  rewrite E. cbn.
  eexists. split; [done|]. rewrite iset_contains_spec.
  assert (forall x, x ∈ tr <-> path d c x /\ round x = round p) as Htr.
  { eapply traversal_path; [done| |exact E|lia].
    intros x. rewrite list_elem_of_singleton, Z2Nat.id by lia. split.
    - intros ->. split; [apply path_refl|lia].
    - intros [Hp Hx]. apply path_round in Hp as [->|?]; [done|lia|done]. }
  setoid_rewrite Htr. naive_solver.
Qed.

End Dag.
End Dag.

(** ** Witnesses *)

Definition sample_dag : Dag.DAG := foldl Dag.insert Dag.new sample_rounds.

Lemma sample_universe : Dag.universe 50 (fun c => c ∈ sample_rounds).
Proof.
  split; [done| |].
  - apply Forall_forall. apply (bool_decide_unpack _). by vm_compute.
  - intros c1 c2 H1 H2 Heq. by rewrite (sample_rounds_inj c1 c2).
Qed.

Lemma foldl_insert_reachable gc (U : BatchCertificate (N := TestNetwork) -> Prop) l d :
  Dag.reachable gc U d -> (forall c, c ∈ l -> U c) -> Dag.reachable gc U (foldl Dag.insert d l).
Proof.
  revert d. induction l as [|c l IH]; intros d Hd Hl; [done|]. apply IH; [|set_solver].
  apply Dag.reachable_insert; [done|]. apply Hl. left.
Qed.

Lemma sample_dag_reachable : Dag.reachable 50 (fun c => c ∈ sample_rounds) sample_dag.
Proof. by apply foldl_insert_reachable; [apply Dag.reachable_new|]. Qed.

Lemma dag_reachable_inv_witness :
  let d := Dag.commit sample_dag (sample_cert 3) 50 in
  Dag.reachable 50 (fun c => c ∈ sample_rounds) d /\ Dag.last_committed_round d = 2 /\
  exists id, Dag.is_recently_committed d 2 id = true.
Proof.
  assert (Dag.reachable 50 (fun c => c ∈ sample_rounds) (Dag.commit sample_dag (sample_cert 3) 50)) as H.
  { apply Dag.reachable_commit; [apply sample_dag_reachable|apply elem_of_sample_cert; lia]. }
  split; [exact H|]. split; [by vm_compute|].
  exact (proj2 (proj2 (Dag.dag_reachable_inv sample_universe _ H)) ltac:(by vm_compute)).
Defined.

Lemma commit_spec_witness :
  Dag.get_certificate_for_round_with_author (Dag.commit sample_dag (sample_cert 3) 50) 1 "c"%char
  = Some (sample_cert 1).
Proof.
  transitivity (Dag.get_certificate_for_round_with_author sample_dag 1 "c"%char); [|vm_refl].
  exact (proj2 (Dag.commit_spec (N := TestNetwork) sample_dag (sample_cert 3) 50 1 "c"%char
    ltac:(lia) ltac:(lia) ltac:(mlia))).
Defined.

Lemma commit_blocks_insert_witness :
  Dag.insert (Dag.commit sample_dag (sample_cert 3) 50) (sample_cert 3) = Dag.commit sample_dag (sample_cert 3) 50.
Proof.
  exact (proj1 (Dag.commit_blocks_insert sample_dag (sample_cert 3) 50 ltac:(by vm_compute) ltac:(lia)
    ltac:(by vm_compute) ltac:(by vm_compute))).
Defined.

Lemma is_linked_correct_witness : exists b, Dag.is_linked sample_dag (sample_cert 0) (sample_cert 8) = Ok b.
Proof.
  destruct (Dag.is_linked_correct sample_dag (sample_cert 0) (sample_cert 8)) as (b & Hb & _); [..|by exists b].
  - intros r a c Hc.
    apply (Dag.di_keys _ _ _ (Dag.reachable_inv sample_universe _ sample_dag_reachable)) in Hc. tauto.
  - by vm_compute.
  - intros r. replace (round (sample_cert 0)) with 1 by vm_refl. replace (round (sample_cert 8)) with 3 by vm_refl.
    intros Hr. assert (r = 1 \/ r = 2) as [-> | ->] by lia;
      apply (bool_decide_unpack _); by vm_compute.
Defined.
