(* ===== verification/Bft.v ===== *)
(** * The BFT

    [BFT<N>] of node/bft/src/bft.rs: when a round may advance, when the leader
    certificate of an even round is committed, in which order the certificates
    it reaches are committed, and what is handed to consensus. *)

From S2P Require Import Prelude Network Committee Narwhal Dfs Subdag Lru StorageService Ledger Storage Dag.

(** [MAX_LEADER_CERTIFICATE_DELAY.as_secs()]. *)
Definition MAX_LEADER_CERTIFICATE_DELAY : Z := 2 * 2500 / 1000.

Module Bft.
Section Bft.
Context `{N : Network}.
Context {Svc : Type} `{!StorageServiceOps Svc}.
Context {Cache : Type} `{!LruOps Cache Field BatchCertificate}.

(** How the consensus task answers a subdag: [Ok] (it built a block, or the
    ledger was there already), it failed (or dropped the callback), or the
    channel is closed. *)
Inductive reply := Advanced | Refused | Closed.

Abbreviation transmissions_list := (list (TransmissionID * Transmission)).

(** The state of the BFT.  [latest_leader] is the cache of the ledger service;
    [blocks] lists what consensus answered [Ok] to, oldest first. *)
Record BFT := mk_bft {
  storage : Storage.Storage Svc Cache;
  dag : Dag.DAG;
  leader_certificate : option BatchCertificate;
  leader_certificate_timer : Z;
  latest_leader : option (Z * Address);
  blocks : list (commit_map * transmissions_list);
}.

Definition set_storage (s : Storage.Storage Svc Cache) (b : BFT) : BFT :=
  mk_bft s (dag b) (leader_certificate b) (leader_certificate_timer b) (latest_leader b) (blocks b).
Definition set_dag (d : Dag.DAG) (b : BFT) : BFT :=
  mk_bft (storage b) d (leader_certificate b) (leader_certificate_timer b) (latest_leader b) (blocks b).
Definition set_leader_certificate (c : option BatchCertificate) (b : BFT) : BFT :=
  mk_bft (storage b) (dag b) c (leader_certificate_timer b) (latest_leader b) (blocks b).
Definition set_timer (t : Z) (b : BFT) : BFT :=
  mk_bft (storage b) (dag b) (leader_certificate b) t (latest_leader b) (blocks b).
(** [LedgerService::update_latest_leader]. *)
Definition update_latest_leader (r : Z) (a : Address) (b : BFT) : BFT :=
  mk_bft (storage b) (dag b) (leader_certificate b) (leader_certificate_timer b) (Some (r, a)) (blocks b).
Definition add_block (blk : commit_map * transmissions_list) (b : BFT) : BFT :=
  mk_bft (storage b) (dag b) (leader_certificate b) (leader_certificate_timer b) (latest_leader b)
    (blocks b ++ [blk]).

(** [BFT::new], on an existing storage. *)
Definition new (s : Storage.Storage Svc Cache) : BFT := mk_bft s Dag.new None 0 None [].

(** [BFT::leader]. *)
Definition leader (b : BFT) : option Address := author <$> leader_certificate b.

(** ** Round advancement *)

(** [BFT::is_timer_expired], at time [now]. *)
Definition is_timer_expired (now : Z) (b : BFT) : bool :=
  bool_decide (i64_wrap (leader_certificate_timer b + MAX_LEADER_CERTIFICATE_DELAY) <= now).

(** Either the cached leader of the round, or the computed one, which is then
    cached. *)
Definition cached_leader (committee : Committee) (r : Z) : SM BFT Address :=
  do b ⇐ sget;
  match latest_leader b with
  | Some (cached_round, a) =>
      if decide (cached_round = r) then sret a
      else do a ⇐ slift (get_leader committee r); do _ ⇐ smodify (update_latest_leader r a); sret a
  | None => do a ⇐ slift (get_leader committee r); do _ ⇐ smodify (update_latest_leader r a); sret a
  end.

Definition authors_of (cs : list BatchCertificate) : gset Address := list_to_set (author <$> cs).

(** [BFT::is_even_round_ready_for_next_round]. *)
Definition is_even_round_ready_for_next_round (now : Z) (b : BFT) (cs : list BatchCertificate)
    (committee : Committee) (current_round : Z) : bool :=
  if negb (is_quorum_threshold_reached committee (authors_of cs)) then false else
  match leader_certificate b with
  | Some c => if decide (round c = current_round) then true else is_timer_expired now b
  | None => is_timer_expired now b
  end.

(** A fallible step whose error makes the caller return [false]. *)
Definition or_false {A} (m : SM BFT A) (k : A -> SM BFT bool) : SM BFT bool := fun b =>
  match m b with
  | (Ok a, b) => k a b
  | (Err _, b) => (Ok false, b)
  | (Panic e, b) => (Panic e, b)
  | (Deadlock, b) => (Deadlock, b)
  end.

(** [BFT::update_leader_certificate_to_even_round]. *)
Definition update_leader_certificate_to_even_round (L : LedgerService) (now even_round : Z)
    : SM BFT bool :=
  do b ⇐ sget;
  let current_round := Storage.current_round (storage b) in
  if decide (current_round <> even_round) then sret false else
  if decide (current_round mod 2 <> 0 \/ current_round < 2) then sret false else
  let cs := Storage.get_certificates_for_round (storage b) current_round in
  if decide (cs = []) then do _ ⇐ smodify (set_leader_certificate None); sret false else
  or_false (slift (get_committee_lookback_for_round L current_round)) (fun committee =>
  or_false (cached_leader committee current_round) (fun a =>
  do _ ⇐ smodify (set_leader_certificate (List.find (fun c => bool_decide (author c = a)) cs));
  do b ⇐ sget;
  sret (is_even_round_ready_for_next_round now b cs committee current_round))).

(** [BFT::compute_stake_for_leader_certificate]. *)
Definition compute_stake_for_leader_certificate (leader_id : Field) (cs : list BatchCertificate)
    (committee : Committee) : Z * Z :=
  foldl (fun acc c =>
    let stake := get_stake committee (author c) in
    if bool_decide (leader_id ∈ previous_certificate_ids c)
    then (u64_saturating_add acc.1 stake, acc.2) else (acc.1, u64_saturating_add acc.2 stake))
    (0, 0) cs.

(** [BFT::is_leader_quorum_or_nonleaders_available]. *)
Definition is_leader_quorum_or_nonleaders_available (L : LedgerService) (now odd_round : Z)
    : SM BFT bool :=
  do b ⇐ sget;
  let current_round := Storage.current_round (storage b) in
  if decide (current_round <> odd_round) then sret false else
  if decide (current_round mod 2 <> 1) then sret false else
  let cs := Storage.get_certificates_for_round (storage b) current_round in
  or_false (slift (get_committee_lookback_for_round L current_round)) (fun committee =>
  if negb (is_quorum_threshold_reached committee (authors_of cs)) then sret false else
  match leader_certificate b with
  | None => sret true
  | Some c =>
      let '(stake_with_leader, stake_without_leader) :=
        compute_stake_for_leader_certificate (cert_id c) cs committee in
      sret (bool_decide (availability_threshold committee <= stake_with_leader)
            || bool_decide (quorum_threshold committee <= stake_without_leader)
            || is_timer_expired now b)
  end).

(** [Storage::increment_to_next_round], on the storage of the BFT. *)
Definition increment_to_next_round (L : LedgerService) (r : Z) : SM BFT Z := fun b =>
  let '(res, s) := Storage.increment_to_next_round L (storage b) r in (res, set_storage s b).

(** [BFT::try_advance_to_next_round]. *)
Definition try_advance_to_next_round (L : LedgerService) (now current_round : Z) : SM BFT bool :=
  do b ⇐ sget;
  if decide (current_round < Storage.current_round (storage b)) then sret false else
  do is_ready ⇐ (if decide (current_round mod 2 = 0)
                 then update_leader_certificate_to_even_round L now current_round
                 else is_leader_quorum_or_nonleaders_available L now current_round);
  if is_ready : bool then
    or_false (increment_to_next_round L current_round) (fun _ =>
    do _ ⇐ smodify (set_timer now);
    sret true)
  else sret false.

(** ** Ordering the DAG *)

Definition max_gc_rounds (b : BFT) : Z := Storage.max_gc_rounds (storage b).

(** The previous certificate: from the DAG, or else from storage. *)
Definition fetch_previous (b : BFT) (previous_round : Z) (pid : Field) : option BatchCertificate :=
  match Dag.get_certificate_for_round_with_id (dag b) previous_round pid with
  | Some p => Some p
  | None => Storage.get_certificate (storage b) pid
  end.

(** The loop over the previous certificate IDs in [order_dag_with_dfs]. *)
Fixpoint order_visit_loop (L : LedgerService) (b : BFT) (previous_round : Z) (pids : list Field)
    (st : dfs_state) : result dfs_state :=
  match pids with
  | [] => Ok st
  | pid :: pids =>
      if bool_decide (pid ∈ st.1) then order_visit_loop L b previous_round pids st else
      if Dag.is_recently_committed (dag b) previous_round pid
      then order_visit_loop L b previous_round pids st else
      if unwrap_or false (ledger_contains_certificate L pid)
      then order_visit_loop L b previous_round pids st else
      p ← ok_or "Missing previous certificate {} for round {previous_round}"
            (fetch_previous b previous_round pid);
      order_visit_loop L b previous_round pids (st.1 ∪ {[cert_id p]}, p :: st.2)
  end.

(** One iteration of the loop of [order_dag_with_dfs], after the insertion. *)
Definition order_visit (L : LedgerService) (b : BFT) (c : BatchCertificate) (st : dfs_state)
    : result dfs_state :=
  let previous_round := saturating_sub (round c) 1 in
  if decide (u64_wrap (previous_round + max_gc_rounds b) <= Dag.last_committed_round (dag b))
  then Ok st
  else order_visit_loop L b previous_round (reverse (previous_certificate_ids c)) st.

(** The certificates the DAG and the storage hold. *)
Definition known_certificates (b : BFT) : list BatchCertificate :=
  (map_to_list (Dag.graph (dag b)) ≫= fun p => Dag.values p.2)
  ++ (map_to_list (Storage.certificates (storage b))).*2.

(** [BFT::order_dag_with_dfs].  Every iteration takes the leader or a known
    certificate that was not ordered before, which bounds their number. *)
Definition order_dag_with_dfs (L : LedgerService) (b : BFT) (c : BatchCertificate) : result commit_map :=
  commit ← dfs (order_visit L b) (S (S (length (known_certificates b)))) ∅ (∅, [c]);
  Ok (Dag.retain (Dag.above_gc (max_gc_rounds b) (Dag.last_committed_round (dag b))) commit).

(** ** Committing *)

(** The transmissions collected so far, and the seen transaction and solution IDs. *)
Record collected := mk_collected {
  col_transmissions : transmissions_list;
  col_transactions : gset TransactionID;
  col_solutions : gset SolutionID;
}.

Definition get_transmission (t : TransmissionID) : SM BFT (option Transmission) := fun b =>
  let '(o, s) := Storage.get_transmission (storage b) t in (Ok o, set_storage s b).

(** The loop body over the transmission IDs in [commit_leader_certificate]. *)
Definition collect_transmission (L : LedgerService) (acc : collected) (t : TransmissionID)
    : SM BFT collected :=
  let add :=
    if imap_contains t (col_transmissions acc) then sret acc else
    if unwrap_or true (ledger_contains_transmission L t) then sret acc else
    do o ⇐ get_transmission t;
    do x ⇐ slift (ok_or "BFT failed to retrieve transmission" o);
    sret (mk_collected (imap_insert t x (col_transmissions acc))
            (match t with IdTransaction i _ => col_transactions acc ∪ {[i]} | _ => col_transactions acc end)
            (match t with IdSolution i _ => col_solutions acc ∪ {[i]} | _ => col_solutions acc end)) in
  match t with
  | IdSolution i _ => if bool_decide (i ∈ col_solutions acc) then sret acc else add
  | IdTransaction i _ => if bool_decide (i ∈ col_transactions acc) then sret acc else add
  | IdRatification => slift (Err "Ratifications are currently not supported in the BFT.")
  end.

(** The transmissions of a subdag, without duplicates. *)
Definition collect_transmissions (L : LedgerService) (subdag : commit_map) : SM BFT collected :=
  sfold (fun acc c => sfold (collect_transmission L) acc (transmission_ids c))
    (mk_collected [] ∅ ∅) (Subdag.all_certificates subdag).

(** [for certificate in commit_subdag.values().flatten() { dag.commit(..) }]. *)
Definition commit_subdag_to_dag (subdag : commit_map) (b : BFT) : BFT :=
  set_dag (foldl (fun d c => Dag.commit d c (max_gc_rounds b)) (dag b) (Subdag.all_certificates subdag)) b.

(** The consensus task, if the sender is set. *)
Definition consensus_t : Type := option (commit_map -> transmissions_list -> reply).

(** The body of the loop over the leader certificates; [false] stands for the
    early [return Ok(())]. *)
Definition commit_anchor (L : LedgerService) (consensus : consensus_t) (skip_consensus : bool)
    (c : BatchCertificate) : SM BFT bool :=
  do b ⇐ sget;
  do commit_subdag ⇐ slift (order_dag_with_dfs L b c);
  do col ⇐ collect_transmissions L commit_subdag;
  do subdag ⇐ slift (Subdag.from commit_subdag);
  do _ ⇐ slift (ensure (bool_decide (Subdag.anchor_round subdag = round c))
      "BFT failed to commit - the subdag anchor round {anchor_round} does not match the leader round {leader_round}");
  let finish := do _ ⇐ smodify (commit_subdag_to_dag commit_subdag); sret true in
  if skip_consensus then finish else
  match consensus with
  | None => finish
  | Some send =>
      match send subdag (col_transmissions col) with
      | Advanced => do _ ⇐ smodify (add_block (subdag, col_transmissions col)); finish
      | Refused => sret false
      | Closed => slift (Err "channel closed")
      end
  end.

(** The loop over the leader certificates, oldest first. *)
Fixpoint commit_anchors (L : LedgerService) (consensus : consensus_t) (skip_consensus : bool)
    (cs : list BatchCertificate) : SM BFT bool :=
  match cs with
  | [] => sret true
  | c :: cs => do go ⇐ commit_anchor L consensus skip_consensus c;
               if go : bool then commit_anchors L consensus skip_consensus cs else sret false
  end.

(** [(lo..=hi).rev().step_by(2)]. *)
Definition rounds_down_by_2 (lo hi : Z) : list Z :=
  (fun i => hi - 2 * Z.of_nat i) <$> seq 0 (Z.to_nat ((hi - lo) / 2 + 1)).

(** The loop that looks for linked previous leader certificates, newest first;
    the DAG stays read-locked. *)
Definition find_anchors (L : LedgerService) (d : Dag.DAG)
    (acc : list BatchCertificate * BatchCertificate) (r : Z)
    : SM BFT (list BatchCertificate * BatchCertificate) :=
  do committee ⇐ slift (get_committee_lookback_for_round L r);
  do a ⇐ cached_leader committee r;
  match Dag.get_certificate_for_round_with_author d r a with
  | None => sret acc
  | Some p =>
      do linked ⇐ slift (Dag.is_linked d p acc.2);
      if linked : bool then sret (acc.1 ++ [p], p) else sret acc
  end.

Definition garbage_collect (r : Z) : SM BFT unit := fun b =>
  let '(res, s) := Storage.garbage_collect_certificates (storage b) r in (res, set_storage s b).

(** [BFT::commit_leader_certificate]; the commit lock makes calls sequential. *)
Definition commit_leader_certificate (L : LedgerService) (consensus : consensus_t)
    (c : BatchCertificate) : SM BFT unit :=
  let latest_leader_round := round c in
  do b ⇐ sget;
  let last := Dag.last_committed_round (dag b) in
  if decide (latest_leader_round < last) then sret tt else
  let skip_consensus := bool_decide (latest_leader_round = last) in
  do anchors ⇐ sfold (find_anchors L (dag b)) ([c], c)
                 (rounds_down_by_2 (u64_wrap (last + 2)) (saturating_sub latest_leader_round 2));
  do go ⇐ commit_anchors L consensus skip_consensus (reverse anchors.1);
  if go : bool then garbage_collect latest_leader_round else sret tt.

(** ** Callbacks *)

Definition insert_into_dag (c : BatchCertificate) (b : BFT) : BFT := set_dag (Dag.insert (dag b) c) b.

(** [BFT::add_new_certificate]. *)
Definition add_new_certificate (L : LedgerService) (consensus : consensus_t) (c : BatchCertificate)
    : SM BFT unit :=
  let certificate_round := round c in
  do _ ⇐ smodify (insert_into_dag c);
  let commit_round := saturating_sub certificate_round 1 in
  if decide (commit_round mod 2 <> 0 \/ commit_round < 2) then sret tt else
  do b ⇐ sget;
  if decide (commit_round <= Dag.last_committed_round (dag b)) then sret tt else
  do committee_lookback ⇐ slift (get_committee_lookback_for_round L commit_round);
  do a ⇐ cached_leader committee_lookback commit_round;
  match Dag.get_certificate_for_round_with_author (dag b) commit_round a with
  | None => sret tt
  | Some leader_certificate =>
      do certificates ⇐ slift (ok_or "BFT failed to retrieve the certificates for certificate round"
                                 (Dag.get_certificates_for_round (dag b) certificate_round));
      do certificate_committee ⇐ slift (get_committee_lookback_for_round L certificate_round);
      let authors : gset Address := list_to_set (author <$>
        base.filter (fun c => cert_id leader_certificate ∈ previous_certificate_ids c)
          (Dag.values certificates)) in
      if is_availability_threshold_reached certificate_committee authors
      then commit_leader_certificate L consensus leader_certificate
      else sret tt
  end.

(** [BFT::add_certificate_from_sync]. *)
Definition add_certificate_from_sync (c : BatchCertificate) : BFT -> BFT := insert_into_dag c.

(** [BFT::commit_certificate_from_sync]. *)
Definition commit_certificate_from_sync (c : BatchCertificate) (b : BFT) : BFT :=
  set_dag (Dag.commit (dag b) c (max_gc_rounds b)) b.

End Bft.
Arguments BFT {_} _ _.
End Bft.
