(* ===== verification/BftProps.v ===== *)
(** * Properties of the BFT

    The traversal of [order_dag_with_dfs] ends and commits exactly what the
    leader reaches; its result passes the checks of [Subdag::from]; blocks are
    built in strictly increasing order of their anchor rounds; and rounds
    advance only on quorums. *)

From S2P Require Import Prelude Network Committee Narwhal Dfs Subdag Lru StorageService Ledger Storage StorageProps Dag Bft.

Module BftProps.
Import Bft.
Section Props.
Context `{N : Network}.
Context {Svc : Type} `{!StorageServiceOps Svc}.
Context {Cache : Type} `{!LruOps Cache Field BatchCertificate}.
Abbreviation B := (BFT Svc Cache).

(** ** Ordering *)

(** [order_dag_with_dfs] continues from [c] to its previous certificate [p]:
    the previous round is above the garbage-collection round, and [p] is neither
    recently committed nor in the ledger. *)
Record order_edge (L : LedgerService) (b : B) (c p : BatchCertificate) : Prop := {
  oe_gc : Dag.last_committed_round (dag b) < u64_wrap (saturating_sub (round c) 1 + max_gc_rounds b);
  oe_previous : cert_id p ∈ previous_certificate_ids c;
  oe_uncommitted : Dag.is_recently_committed (dag b) (saturating_sub (round c) 1) (cert_id p) = false;
  oe_ledger : ledger_contains_certificate L (cert_id p) <> Ok true;
  oe_fetch : fetch_previous b (saturating_sub (round c) 1) (cert_id p) = Some p;
}.

Lemma values_find (m : gmap Address BatchCertificate) pid p :
  List.find (fun c => bool_decide (cert_id c = pid)) (Dag.values m) = Some p ->
  p ∈ Dag.values m /\ cert_id p = pid.
Proof.
  intros [Hp Hid]%find_some. by rewrite bool_decide_eq_true in Hid; rewrite list_elem_of_In.
Qed.

Lemma fetch_previous_Some (b : B) r pid p :
  StorageProps.index_inv (storage b) -> fetch_previous b r pid = Some p ->
  p ∈ known_certificates b /\ cert_id p = pid.
Proof.
  intros Hix. unfold fetch_previous, known_certificates. rewrite elem_of_app.
  destruct (Dag.get_certificate_for_round_with_id (dag b) r pid) as [q|] eqn:E.
  - intros [= ->]. unfold Dag.get_certificate_for_round_with_id in E.
    destruct (Dag.graph (dag b) !! r) as [m|] eqn:Em; [|done]. cbn in E.
    apply values_find in E as [Hp Hid]. split; [|done]. left. apply list_elem_of_bind.
    exists (r, m). by rewrite elem_of_map_to_list.
  - intros Hp. unfold Storage.get_certificate in Hp. split; [|by eapply StorageProps.ix_certs].
    right. apply list_elem_of_fmap. exists (pid, p). by rewrite elem_of_map_to_list.
Qed.

(** The edges a visit of the IDs [pids] follows. *)
Definition order_edge_on (L : LedgerService) (b : B) (r : Z) (pids : list Field) (p : BatchCertificate)
    : Prop :=
  cert_id p ∈ pids /\ Dag.is_recently_committed (dag b) r (cert_id p) = false /\
  ledger_contains_certificate L (cert_id p) <> Ok true /\ fetch_previous b r (cert_id p) = Some p.

Lemma order_visit_loop_ok L (b : B) r pids c st st' :
  StorageProps.index_inv (storage b) -> order_visit_loop L b r pids st = Ok st' ->
  visit_ok (fun _ => order_edge_on L b r pids) c st st' /\
  st'.1 ⊆ st.1 ∪ list_to_set (cert_id <$> known_certificates b).
Proof.
  intros Hix. revert st. induction pids as [|pid pids IH]; intros st H; cbn [order_visit_loop] in H.
  { simp_ok. split; [|set_solver]. split; [auto|auto|by intros p [?%elem_of_nil _]|done|auto|lia]. }
  assert (forall p, order_edge_on L b r (pid :: pids) p <->
    order_edge_on L b r pids p \/ (cert_id p = pid /\ order_edge_on L b r [pid] p)) as Hedge.
  { intros p. unfold order_edge_on. rewrite elem_of_cons, list_elem_of_singleton. naive_solver. }
  assert (forall st', (forall p, cert_id p = pid -> order_edge_on L b r [pid] p -> pid ∈ st'.1) ->
    visit_ok (fun _ => order_edge_on L b r pids) c st st' ->
    visit_ok (fun _ => order_edge_on L b r (pid :: pids)) c st st') as Hweak.
  { intros st1 Hp [V1 V2 V3 V4 V5 V6]. split; try done.
    - intros x [?|?]%V2; [by left|right]. apply Hedge. by left.
    - intros p [?|[Hi He]]%Hedge; [auto|]. rewrite Hi. eauto. }
  case_bool_decide as Ha.
  { apply IH in H as [HV Hk]. split; [|done]. apply Hweak; [|done]. intros p _ _. by apply HV. }
  destruct (Dag.is_recently_committed _ _ _) eqn:Er.
  { apply IH in H as [HV Hk]. split; [|done]. apply Hweak; [|done].
    intros p Hi (_ & Hn & _). by rewrite Hi, Er in Hn. }
  destruct (unwrap_or false _) eqn:El.
  { apply IH in H as [HV Hk]. split; [|done]. apply Hweak; [|done].
    intros p Hi (_ & _ & Hl & _). rewrite Hi in Hl.
    destruct (ledger_contains_certificate L pid) as [[]|e|e|]; done. }
  simp_ok. match goal with H : fetch_previous _ _ _ = Some ?q |- _ => rename H into Hf; rename q into p end.
  apply IH in H as [[V1 V2 V3 V4 V5 V6] Hk]. cbn in *.
  destruct (fetch_previous_Some b r pid p Hix Hf) as [Hknown Hid].
  split.
  - split.
    + intros x Hx. apply V1. by right.
    + intros x [[->|?]%elem_of_cons|?]%V2; [right|by left|right]; apply Hedge; [right|by left].
      split; [done|]. split_and!; rewrite ?Hid; [by left|done| |done].
      by destruct (ledger_contains_certificate L pid) as [[]|e|e|].
    + intros q [?|[Hi He]]%Hedge; [auto|]. apply V4. rewrite Hi, <-Hid. set_solver.
    + set_solver.
    + intros i [Hi|?]%V5; [|by right]. apply elem_of_union in Hi as [?|Hi%elem_of_singleton]; [by left|].
      right. exists p. split; [apply V1; left|done].
    + rewrite size_union, size_singleton in V6 by set_solver. lia.
  - etrans; [exact Hk|]. apply union_subseteq. split; [|apply union_subseteq_r].
    apply union_subseteq. split; [apply union_subseteq_l|].
    apply singleton_subseteq_l, elem_of_union_r, elem_of_list_to_set. by apply list_elem_of_fmap_2.
Qed.

Lemma order_visit_ok L (b : B) c st st' :
  StorageProps.index_inv (storage b) -> order_visit L b c st = Ok st' ->
  visit_ok (order_edge L b) c st st' /\
  st'.1 ⊆ st.1 ∪ list_to_set (cert_id <$> known_certificates b).
Proof.
  intros Hix. unfold order_visit. case_decide as Hgc.
  - intros H. simp_ok. split; [|set_solver]. split; auto.
    intros p [He _ _ _ _]. lia.
  - intros H. apply (order_visit_loop_ok _ _ _ _ c) in H as [[V1 V2 V3 V4 V5 V6] Hk]; [|done].
    assert (forall p, order_edge_on L b (saturating_sub (round c) 1) (reverse (previous_certificate_ids c)) p
      <-> order_edge L b c p) as Hedge.
    { intros p. unfold order_edge_on. rewrite elem_of_reverse. split.
      - intros (? & ? & ? & ?). split; try done. lia.
      - intros []. done. }
    split; [|done]. split; try done.
    + intros x [?|?]%V2; [by left|right]. by apply Hedge.
    + intros p ?%Hedge. auto.
Qed.

(** The node holds one certificate per batch ID. *)
Definition one_copy (b : B) (c : BatchCertificate) : Prop := forall x y,
  x ∈ c :: known_certificates b -> y ∈ c :: known_certificates b -> cert_id x = cert_id y -> x = y.

Lemma reach_known L (b : B) c x :
  StorageProps.index_inv (storage b) -> reach (order_edge L b) [c] x -> x ∈ c :: known_certificates b.
Proof.
  intros Hix. induction 1 as [x Hx|x p _ _ [_ _ _ _ Hf]].
  - apply list_elem_of_singleton in Hx as ->. left.
  - right. by eapply fetch_previous_Some.
Qed.

Lemma order_dag_reach L (b : B) c :
  StorageProps.index_inv (storage b) -> one_copy b c ->
  order_dag_with_dfs L b c <> Deadlock /\
  forall m, order_dag_with_dfs L b c = Ok m -> commit_wf m /\
    forall r d, filed_at m r d <-> round d = r /\ reach (order_edge L b) [c] d /\
      Dag.last_committed_round (dag b) < u64_wrap (r + max_gc_rounds b).
Proof.
  intros Hix Hone.
  assert (forall x st st', reach (order_edge L b) [c] x -> order_visit L b x st = Ok st' ->
    visit_ok (order_edge L b) x st st') as Hv by (intros; by apply order_visit_ok).
  assert (forall x y, reach (order_edge L b) [c] x -> reach (order_edge L b) [c] y ->
    cert_id x = cert_id y -> x = y) as Hid.
  { intros x y Hx Hy. apply Hone; by eapply reach_known. }
  pose proof (dfs_inv_start (order_edge L b) [c]) as Hinv. unfold order_dag_with_dfs. split.
  - intros H. destruct (dfs _ _ _ _) as [m|e|e|] eqn:E; try done. revert E.
    apply (dfs_terminates (order_edge L b) (order_visit L b) [c] Hv Hid
      (list_to_set (cert_id <$> known_certificates b))); [done|set_solver|..].
    + intros x st st' _ Hst Hx. apply order_visit_ok in Hx as [_ Hx]; [|done]. set_solver.
    + cbn. rewrite size_empty. pose proof (Subdag.size_ids_le (known_certificates b)). lia.
    + intros x st _ Hd. unfold order_visit in Hd. case_decide; [done|].
      revert st Hd. generalize (reverse (previous_certificate_ids x)) as pids.
      induction pids as [|pid pids IH]; intros st; cbn [order_visit_loop]; [done|].
      case_bool_decide; [apply IH|]. destruct (Dag.is_recently_committed _ _ _); [apply IH|].
      destruct (unwrap_or _ _); [apply IH|]. destruct (fetch_previous _ _ _); cbn; [apply IH|done].
  - intros m H. simp_ok. match goal with H : dfs _ _ _ _ = Ok ?x |- _ => rename H into Hd; rename x into m end.
    destruct (dfs_Ok (order_edge L b) (order_visit L b) [c] Hv Hid _ _ _ _ Hinv Hd) as [Hwf Hc].
    assert (forall r, Dag.retain (Dag.above_gc (max_gc_rounds b) (Dag.last_committed_round (dag b))) m !! r
      = if decide (Dag.last_committed_round (dag b) < u64_wrap (r + max_gc_rounds b)) then m !! r else None)
      as Hret.
    { intros r. rewrite Dag.lookup_retain. unfold Dag.above_gc. destruct (m !! r); cbn; by case_decide. }
    split.
    + intros r l. rewrite Hret. case_decide; [apply Hwf|done].
    + intros r d. unfold filed_at. rewrite Hret. split.
      * case_decide; [|naive_solver]. intros (l & Hl & Hin). destruct (Hwf r l Hl) as (_ & _ & Hr).
        rewrite <-(Hr d Hin). split_and!; [done| |by rewrite (Hr d Hin)]. apply Hc. exists l. by rewrite (Hr d).
      * intros (<- & Hreach & Hgc). rewrite decide_True by done. by apply Hc.
Qed.

(** [c] refers to a certificate that has to be ordered and that the node does
    not hold. *)
Record missing_previous (L : LedgerService) (b : B) (c : BatchCertificate) (pid : Field) : Prop := {
  mp_gc : Dag.last_committed_round (dag b) < u64_wrap (saturating_sub (round c) 1 + max_gc_rounds b);
  mp_previous : pid ∈ previous_certificate_ids c;
  mp_uncommitted : Dag.is_recently_committed (dag b) (saturating_sub (round c) 1) pid = false;
  mp_ledger : ledger_contains_certificate L pid <> Ok true;
  mp_unknown : fetch_previous b (saturating_sub (round c) 1) pid = None;
}.

Lemma order_visit_loop_fails L (b : B) r pids st :
  match order_visit_loop L b r pids st with
  | Ok _ => True
  | Err _ => exists pid, pid ∈ pids /\ Dag.is_recently_committed (dag b) r pid = false /\
      ledger_contains_certificate L pid <> Ok true /\ fetch_previous b r pid = None
  | _ => False
  end.
Proof.
  revert st. induction pids as [|pid pids IH]; intros st; cbn [order_visit_loop]; [done|].
  assert (forall st, match order_visit_loop L b r pids st with
    | Ok _ => True
    | Err _ => exists q, q ∈ pid :: pids /\ Dag.is_recently_committed (dag b) r q = false /\
        ledger_contains_certificate L q <> Ok true /\ fetch_previous b r q = None
    | _ => False
    end) as IH'.
  { intros st'. specialize (IH st'). destruct (order_visit_loop _ _ _ _ _); try done.
    destruct IH as (q & ? & ?). exists q. split; [by right|done]. }
  case_bool_decide; [apply IH'|]. destruct (Dag.is_recently_committed _ _ _) eqn:Er; [apply IH'|].
  destruct (unwrap_or false _) eqn:El; [apply IH'|].
  destruct (fetch_previous b r pid) eqn:Ef; cbn; [apply IH'|].
  exists pid. split; [left|]. split; [done|]. split; [|done].
  by destruct (ledger_contains_certificate L pid) as [[]| | |].
Qed.

Lemma order_visit_fails L (b : B) c st :
  match order_visit L b c st with
  | Ok _ => True
  | Err _ => exists pid, missing_previous L b c pid
  | _ => False
  end.
Proof.
  unfold order_visit. case_decide as Hgc; [done|].
  pose proof (order_visit_loop_fails L b (saturating_sub (round c) 1) (reverse (previous_certificate_ids c)) st) as H.
  destruct (order_visit_loop _ _ _ _ _); try done.
  destruct H as (pid & Hin & ? & ? & ?). exists pid. rewrite elem_of_reverse in Hin. split; try done. lia.
Qed.

(** C1: in a node whose storage indices agree and that holds one certificate per
    batch ID, [order_dag_with_dfs] always returns.  When it succeeds, every round
    of its result lists, without duplicates, certificates of this round, and the
    lists together are exactly the certificates above the garbage-collection
    round that the leader certificate reaches through certificates that are
    neither committed nor in the ledger.  It fails only when a certificate it
    reaches refers to one that has to be ordered and that the node does not
    hold. *)
Theorem order_dag_correct (L : LedgerService) (b : B) (c : BatchCertificate) :
  StorageProps.index_inv (storage b) -> one_copy b c ->
  match order_dag_with_dfs L b c with
  | Ok m =>
      (forall r l, m !! r = Some l ->
         l <> [] /\ NoDup (cert_id <$> l) /\ forall d, d ∈ l -> round d = r) /\
      (forall d, (exists r l, m !! r = Some l /\ d ∈ l) <->
         reach (order_edge L b) [c] d /\
         Dag.last_committed_round (dag b) < u64_wrap (round d + max_gc_rounds b))
  | Err _ => exists d pid, reach (order_edge L b) [c] d /\ missing_previous L b d pid
  | Panic _ | Deadlock => False
  end.
Proof.
  intros Hix Hone. destruct (order_dag_reach L b c Hix Hone) as [H1 H2].
  assert (forall x st st', reach (order_edge L b) [c] x -> order_visit L b x st = Ok st' ->
    visit_ok (order_edge L b) x st st') as Hv by (intros; by apply order_visit_ok).
  assert (forall x y, reach (order_edge L b) [c] x -> reach (order_edge L b) [c] y ->
    cert_id x = cert_id y -> x = y) as Hid.
  { intros x y Hx Hy. apply Hone; by eapply reach_known. }
  pose proof (dfs_fails (order_edge L b) (order_visit L b) [c] Hv Hid (S (S (length (known_certificates b)))) ∅ (∅, [c])
    (dfs_inv_start (order_edge L b) [c])) as Hf.
  destruct (order_dag_with_dfs L b c) as [m|e|e|] eqn:E; [|..|done].
  - destruct (H2 m eq_refl) as [Hwf Hm]. split; [exact Hwf|]. intros d. split.
    + intros (r & l & Hl & Hd). destruct (Hm r d) as [(<- & ? & ?) _]; [by exists l|done].
    + intros [Hd Hgc]. destruct (Hm (round d) d) as [_ (l & ? & ?)]; [done|eauto].
  - unfold order_dag_with_dfs in E. destruct (dfs _ _ _ _) as [?|e'|?|]; [done|..|done|done].
    destruct Hf as (d & st & Hd & Hx). pose proof (order_visit_fails L b d st) as Hp. rewrite Hx in Hp.
    destruct Hp as [pid Hp]. eauto.
  - unfold order_dag_with_dfs in E. destruct (dfs _ _ _ _) as [?|?|e'|]; [done|done|..|done].
    destruct Hf as (d & st & _ & Hx). pose proof (order_visit_fails L b d st) as Hp. by rewrite Hx in Hp.
Qed.

(** ** The ordered subdag is a valid subdag *)

Lemma btree_last_max {V} (m : gmap Z V) k v :
  m !! k = Some v -> (forall k' v', m !! k' = Some v' -> k' <= k) -> btree_last m = Some (k, v).
Proof.
  intros Hk Hmax. unfold btree_last. destruct (last (btree_iter m)) as [[k' v']|] eqn:E.
  - pose proof (btree_iter_sorted m) as Hs. apply last_Some in E as [l E].
    assert (m !! k' = Some v') as Hk'.
    { apply elem_of_btree_iter. rewrite E. set_solver. }
    assert (k <= k'); [|assert (k = k') as -> by (pose proof (Hmax _ _ Hk'); lia); congruence].
    apply elem_of_btree_iter in Hk. rewrite E in Hk, Hs.
    apply elem_of_app in Hk as [Hk|Hk%list_elem_of_singleton]; [|by simplify_eq].
    apply (StronglySorted_app_1_elem_of _ l [(k', v')] (k, v) (k', v') Hs Hk). left.
  - apply last_None, btree_iter_nil in E. subst. by rewrite lookup_empty in Hk.
Qed.

Section Accepted.
Context (L : LedgerService) (b : B) (c : BatchCertificate) (m : commit_map).
Hypothesis Hix : StorageProps.index_inv (storage b).
Hypothesis Hone : one_copy b c.
Hypothesis Hm : order_dag_with_dfs L b c = Ok m.
(** The rounds are in range, the leader is above the garbage-collection round,
    and the certificates that are found are from the previous round. *)
Hypothesis Hgc : 0 <= max_gc_rounds b /\ round c + max_gc_rounds b <= u64_max.
Hypothesis Hlast : Dag.last_committed_round (dag b) < round c + max_gc_rounds b.
Hypothesis Hround : forall x p, reach (order_edge L b) [c] x -> order_edge L b x p ->
  0 <= round p /\ round p = round x - 1.

Lemma reach_down x : 0 <= round c -> reach (order_edge L b) [c] x -> 0 <= round x /\ (x = c \/ round x < round c).
Proof.
  intros Hc. induction 1 as [x Hx|x p Hx IH He].
  - apply list_elem_of_singleton in Hx as ->. auto.
  - destruct (Hround x p Hx He). destruct IH as [_ [->|?]]; split; try lia; right; lia.
Qed.

Lemma filed_iff r d : 0 <= round c ->
  (filed_at m r d <-> round d = r /\ reach (order_edge L b) [c] d /\
     Dag.last_committed_round (dag b) < r + max_gc_rounds b).
Proof.
  intros Hc. destruct (order_dag_reach L b c Hix Hone) as [_ H]. destruct (H m Hm) as [_ ->].
  split; intros (Hr & Hd & Hl); (split; [done|]; split; [done|]); subst r;
    pose proof (reach_down d Hc Hd) as [? [->|?]]; rewrite u64_wrap_id in *; mlia.
Qed.

Lemma order_leaders : 0 <= round c -> btree_last m = Some (round c, [c]).
Proof.
  intros Hc. destruct (order_dag_reach L b c Hix Hone) as [_ H]. destruct (H m Hm) as [Hwf _].
  assert (filed_at m (round c) c) as (l & Hl & Hin).
  { apply filed_iff; [done|]. split_and!; [done|apply reach_root; left|done]. }
  assert (l = [c]) as ->.
  { destruct (Hwf _ _ Hl) as (_ & Hnd & _).
    assert (forall d, d ∈ l -> d = c) as Hall.
    { intros d Hd. assert (filed_at m (round c) d) as Hf by by exists l.
      apply filed_iff in Hf as (Hr & Hd' & _); [|done]. apply reach_down in Hd' as [_ [->|?]]; [done|lia|done]. }
    destruct l as [|d [|e l]]; [by apply elem_of_nil in Hin| |].
    - by rewrite (Hall d ltac:(left)).
    - exfalso. cbn in Hnd. apply NoDup_cons in Hnd as [Hn _].
      rewrite (Hall d), (Hall e) in Hn by set_solver. apply Hn. left. }
  apply btree_last_max; [done|]. intros k l' Hk. destruct (Hwf _ _ Hk) as (Hne & _ & Hr).
  destruct l' as [|d l']; [done|]. assert (filed_at m k d) as Hf by (exists (d :: l'); split; [done|left]).
  apply filed_iff in Hf as (<- & Hd & _); [|done]. apply reach_down in Hd as [_ [->|?]]; [lia|lia|done].
Qed.

Lemma order_reach_subdag x :
  0 <= round c -> reach (order_edge L b) [c] x ->
  Dag.last_committed_round (dag b) < round x + max_gc_rounds b ->
  reach (Subdag.edge m) (Subdag.leaders m) x.
Proof.
  intros Hc. induction 1 as [x Hx|x p Hx IH He]; intros Hl.
  - apply list_elem_of_singleton in Hx as ->. apply reach_root. unfold Subdag.leaders.
    rewrite order_leaders by done. left.
  - destruct (Hround x p Hx He) as [Hp Hpx]. eapply reach_step; [apply IH; lia|].
    exists (cert_id p). split; [apply He|]. unfold Subdag.find_previous.
    destruct (reach_down x Hc Hx) as [Hx0 Hxc].
    assert (u64_wrap (round x - 1) = round p) as ->.
    { rewrite u64_wrap_id; [lia|]. destruct Hxc as [->|?]; mlia. }
    assert (reach (order_edge L b) [c] p) as Hrp by by eapply reach_step.
    assert (filed_at m (round p) p) as (l & Hml & Hin) by (by apply filed_iff).
    rewrite Hml. cbn. destruct (List.find _ l) as [q|] eqn:Ef.
    + apply find_some in Ef as [Hq Hid]. apply bool_decide_eq_true in Hid.
      rewrite <-list_elem_of_In in Hq. assert (filed_at m (round p) q) as Hfq by by exists l.
      apply filed_iff in Hfq as (_ & Hrq & _); [|done]. f_equal. apply Hone; [..|done]; by eapply reach_known.
    + exfalso. apply list_elem_of_In in Hin. eapply find_none in Ef; [|exact Hin].
      by rewrite bool_decide_eq_false in Ef.
Qed.

Lemma order_subdag_typed : 0 <= round c -> Subdag.subdag_typed m.
Proof.
  intros Hc. destruct (order_dag_reach L b c Hix Hone) as [_ H]. destruct (H m Hm) as [Hwf _]. split.
  - intros r l Hl. by apply Hwf in Hl as (_ & ? & _).
  - intros r1 r2 x y (_ & Hx & _)%filed_iff (_ & Hy & _)%filed_iff; [|done..].
    apply Hone; by eapply reach_known.
Qed.

Lemma order_structure_ok : 0 <= round c -> Subdag.structure_ok m.
Proof.
  intros Hc. destruct (order_dag_reach L b c Hix Hone) as [_ H]. destruct (H m Hm) as [Hwf _].
  intros r l Hl. destruct (Hwf r l Hl) as (Hne & _ & Hr). split; [done|]. intros d Hd.
  split; [auto|]. assert (filed_at m r d) as Hf by by exists l.
  apply filed_iff in Hf as (<- & Hreach & Hlt); [|done]. by apply order_reach_subdag.
Qed.

Lemma order_sequential : 0 <= round c -> Subdag.is_sequential m = true.
Proof.
  intros Hc. destruct (order_dag_reach L b c Hix Hone) as [_ H]. destruct (H m Hm) as [Hwf _].
  assert (forall k l, m !! k = Some l -> exists d, round d = k /\ reach (order_edge L b) [c] d /\
    Dag.last_committed_round (dag b) < k + max_gc_rounds b) as Hk.
  { intros k l Hl. destruct (Hwf _ _ Hl) as (Hne & _ & _). destruct l as [|d l]; [done|].
    exists d. apply filed_iff; [done|]. exists (d :: l). split; [done|left]. }
  apply Subdag.is_sequential_true.
  - intros k l (d & <- & Hd & _)%Hk. apply reach_down in Hd as [? [->|?]]; mlia.
  - intros k l (d & <- & Hd & Hlt)%Hk. inversion Hd as [x Hx|x p Hx He]; subst.
    + apply list_elem_of_singleton in Hx as ->. left. intros k' l' (e & <- & He & _)%Hk.
      apply reach_down in He as [_ [->|?]]; lia.
    + right. destruct (Hround x d Hx He) as [? Hr].
      assert (filed_at m (round d + 1) x) as (l' & Hl' & _); [|eauto].
      apply filed_iff; [done|]. split_and!; [lia|done|lia].
Qed.

End Accepted.

(** The certificates the node holds are from rounds that exist, and a reference
    from one to another goes to the round before. *)
Definition links_ok (b : B) (c : BatchCertificate) : Prop :=
  (forall x, x ∈ c :: known_certificates b -> 0 <= round x) /\
  forall x p, x ∈ c :: known_certificates b -> p ∈ known_certificates b ->
    cert_id p ∈ previous_certificate_ids x -> round p = round x - 1.

Lemma links_edges L (b : B) c x p :
  StorageProps.index_inv (storage b) -> links_ok b c ->
  reach (order_edge L b) [c] x -> order_edge L b x p -> 0 <= round p /\ round p = round x - 1.
Proof.
  intros Hix [Hpos Hlink] Hx He. pose proof (reach_known L b c x Hix Hx) as Hxk.
  destruct (fetch_previous_Some _ _ _ _ Hix (oe_fetch _ _ _ _ He)) as [Hp _].
  split; [apply Hpos; by right|]. apply Hlink; [done|done|apply He].
Qed.

(** C2: what the BFT orders, every node accepts.  Let the storage indices agree,
    the node hold one certificate per batch ID, its certificates refer to
    certificates of the round before, and the leader's round be above the
    garbage-collection round.  When [order_dag_with_dfs] succeeds, the result is
    nonempty, has sequential rounds with the leader alone in the last, and is
    what a traversal from the leader finds, so that [Subdag::from] accepts it
    unless it spans more than [MAX_ROUNDS] rounds or the round is odd, for which
    it has its own errors; the leader certificate of the subdag is the leader. *)
Theorem ordered_subdag_accepted (L : LedgerService) (b : B) (c : BatchCertificate) (m : commit_map) :
  StorageProps.index_inv (storage b) -> one_copy b c -> links_ok b c ->
  0 <= max_gc_rounds b -> round c + max_gc_rounds b <= u64_max ->
  Dag.last_committed_round (dag b) < round c + max_gc_rounds b ->
  order_dag_with_dfs L b c = Ok m ->
  Subdag.from m =
    (if decide (Subdag.MAX_ROUNDS < Z.of_nat (size m))
     then Err "Subdag cannot exceed the maximum number of rounds"
     else if decide (round c mod 2 = 0) then Ok m else Err "Anchor round must be even") /\
  Subdag.leader_certificate m = Ok c.
Proof.
  intros Hix Hone Hlinks Hgc1 Hgc2 Hlast Hm. assert (0 <= round c) as Hc by (apply Hlinks; left).
  pose proof (fun x p => links_edges L b c x p Hix Hlinks) as Hround.
  assert (btree_last m = Some (round c, [c])) as Hlead by (eapply order_leaders; eauto).
  assert (m <> ∅) as Hne.
  { intros ->. apply Subdag.btree_last_elem in Hlead. by rewrite lookup_empty in Hlead. }
  destruct (Subdag.sanity_check_iff m) as (ok & Hb & Hiff); [eapply order_subdag_typed; eauto|].
  split; [|unfold Subdag.leader_certificate; by rewrite Hlead].
  unfold Subdag.from, Subdag.leaders. rewrite Hlead.
  rewrite ensure_bind by (by apply bool_decide_eq_true).
  destruct (decide (Subdag.MAX_ROUNDS < Z.of_nat (size m))) as [Hsize|Hsize].
  { rewrite (bool_decide_eq_false_2 (Z.of_nat (size m) <= Subdag.MAX_ROUNDS)) by lia. done. }
  rewrite ensure_bind by (apply bool_decide_eq_true; lia).
  destruct (decide (round c mod 2 = 0)) as [Heven|Hodd].
  2: { rewrite (bool_decide_eq_false_2 (round c mod 2 = 0)) by done. done. }
  rewrite !ensure_bind by (by apply bool_decide_eq_true).
  rewrite ensure_bind by (eapply order_sequential; eauto). rewrite Hb. cbn.
  rewrite ensure_bind; [done|]. apply Hiff. eapply order_structure_ok; eauto.
Qed.

(** ** The chain of blocks *)

(** The DAG and the blocks did not change. *)
Definition same_chain (b b' : B) : Prop := dag b' = dag b /\ blocks b' = blocks b.
#[local] Instance same_chain_preorder : PreOrder same_chain.
Proof. split; [done|]. intros x y z [? ?] [? ?]. split; congruence. Qed.

(** The leader of a round is computed or taken from the cache. *)
Lemma keeps_cached_leader_from (R : B -> B -> Prop) `{!PreOrder R} committee r :
  (forall b r a, R b (update_latest_leader r a b)) ->
  keeps R (cached_leader (Svc := Svc) (Cache := Cache) committee r).
Proof.
  intros Hup. apply (keeps_bind R); [apply (keeps_get R)|]. intros b.
  assert (keeps R (do a ⇐ slift (get_leader committee r);
    do _ ⇐ smodify (update_latest_leader (Svc := Svc) (Cache := Cache) r a); sret a)) as H.
  { apply (keeps_bind R); [apply (keeps_lift R)|]. intros a.
    apply (keeps_bind R); [by apply (keeps_modify R)|]. intros _. apply (keeps_ret R). }
  destruct (latest_leader b) as [[r' a]|]; [|done]. case_decide; [apply (keeps_ret R)|done].
Qed.

Lemma keeps_cached_leader committee r : keeps same_chain (cached_leader (Svc := Svc) (Cache := Cache) committee r).
Proof. by apply (keeps_cached_leader_from same_chain). Qed.

(** Collecting the transmissions of a subdag only takes transmissions from the
    storage. *)
Lemma keeps_collect_from (R : B -> B -> Prop) `{!PreOrder R} L m :
  (forall b t, R b (set_storage (Storage.get_transmission (storage b) t).2 b)) ->
  keeps R (collect_transmissions (Svc := Svc) (Cache := Cache) L m).
Proof.
  intros Hget. apply (keeps_fold R). intros acc c _. apply (keeps_fold R). intros acc' t _.
  assert (keeps R (do o ⇐ get_transmission (Svc := Svc) (Cache := Cache) t;
    do x ⇐ slift (ok_or "BFT failed to retrieve transmission" o);
    sret (mk_collected (imap_insert t x (col_transmissions acc'))
            (match t with IdTransaction i _ => col_transactions acc' ∪ {[i]} | _ => col_transactions acc' end)
            (match t with IdSolution i _ => col_solutions acc' ∪ {[i]} | _ => col_solutions acc' end)))) as H.
  { apply (keeps_bind R).
    - intros b. specialize (Hget b t). unfold get_transmission. by destruct (Storage.get_transmission (storage b) t).
    - intros o. apply (keeps_bind R); [apply (keeps_lift R)|]. intros x. apply (keeps_ret R). }
  unfold collect_transmission.
  destruct t; [apply (keeps_lift R)|..]; repeat (case_match; try apply (keeps_ret R)); done.
Qed.

Lemma keeps_collect L m : keeps same_chain (collect_transmissions (Svc := Svc) (Cache := Cache) L m).
Proof. by apply (keeps_collect_from same_chain). Qed.

Definition anchors (b : B) : list Z := (fun blk => Subdag.anchor_round blk.1) <$> blocks b.

Record chain_inv (b : B) : Prop := {
  ci_filed : Dag.filed (dag b);
  ci_sorted : StronglySorted Z.lt (anchors b);
  ci_last a : a ∈ anchors b -> a <= Dag.last_committed_round (dag b);
  ci_valid blk : blk ∈ blocks b -> Subdag.from blk.1 = Ok blk.1;
}.

Lemma foldl_commit_last (gc : Z) cs (d : Dag.DAG) :
  Dag.last_committed_round (foldl (fun d c => Dag.commit d c gc) d cs)
  = foldl Z.max (Dag.last_committed_round d) (round <$> cs).
Proof. revert d. induction cs as [|c cs IH]; intros d; cbn [foldl]; [done|]. rewrite IH. by rewrite Dag.commit_last. Qed.

Lemma foldl_commit_filed (gc : Z) cs (d : Dag.DAG) :
  Dag.filed d -> Dag.filed (foldl (fun d c => Dag.commit d c gc) d cs).
Proof. revert d. induction cs as [|c cs IH]; intros d Hd; [done|]. apply IH. by apply Dag.commit_filed. Qed.

Lemma foldl_max_spec (l : list Z) a r :
  (forall x, x ∈ l -> x <= r) -> r ∈ l -> foldl Z.max a l = Z.max a r.
Proof.
  assert (forall l a, (forall x, x ∈ l -> x <= r) -> a <= foldl Z.max a l <= Z.max a r) as Hb.
  { clear. induction l as [|x l IH]; intros a Hl; cbn; [lia|].
    pose proof (Hl x ltac:(left)). destruct (IH (Z.max a x)); [intros; apply Hl; by right|]. lia. }
  revert a. induction l as [|x l IH]; intros a Hl Hin; [by apply elem_of_nil in Hin|]. cbn.
  apply elem_of_cons in Hin as [->|Hin].
  - destruct (Hb l (Z.max a x)); [intros; apply Hl; by right|]. lia.
  - rewrite IH; [|intros; apply Hl; by right|done]. pose proof (Hl x ltac:(left)). lia.
Qed.

(** Committing a subdag moves the last committed round to its anchor. *)
Lemma commit_subdag_last (m : commit_map) (b : B) :
  commit_wf m -> m <> ∅ ->
  Dag.last_committed_round (dag (commit_subdag_to_dag m b))
  = Z.max (Dag.last_committed_round (dag b)) (Subdag.anchor_round m).
Proof.
  intros Hwf Hne. cbn. rewrite foldl_commit_last. apply foldl_max_spec.
  - intros x (c & -> & (r & l & Hl & Hc)%Subdag.elem_of_all_certificates)%list_elem_of_fmap.
    destruct (Hwf _ _ Hl) as (_ & _ & Hr). rewrite (Hr c Hc). unfold Subdag.anchor_round.
    destruct (btree_last m) as [[k v]|] eqn:E.
    + pose proof (btree_iter_sorted m) as Hs. unfold btree_last in E. apply last_Some in E as [l' E].
      apply elem_of_btree_iter in Hl. rewrite E in Hl, Hs.
      apply elem_of_app in Hl as [Hl|Hl%list_elem_of_singleton]; [|by simplify_eq].
      apply (StronglySorted_app_1_elem_of _ l' [(k, v)] (r, l) (k, v) Hs Hl). left.
    + apply last_None, btree_iter_nil in E. done.
  - unfold Subdag.anchor_round. destruct (btree_last m) as [[k v]|] eqn:E.
    + apply Subdag.btree_last_elem in E. destruct (Hwf _ _ E) as (Hv & _ & Hr).
      destruct v as [|c v]; [done|]. apply list_elem_of_fmap. exists c. split.
      * symmetry. apply Hr. left.
      * apply Subdag.elem_of_all_certificates. exists k, (c :: v). split; [done|left].
    + unfold btree_last in E. apply last_None, btree_iter_nil in E. done.
Qed.

Lemma order_dag_wf L (b : B) c m : order_dag_with_dfs L b c = Ok m -> commit_wf m.
Proof.
  unfold order_dag_with_dfs. intros H. simp_ok.
  match goal with H : dfs _ _ _ _ = Ok ?x |- _ => apply dfs_commit_wf in H as Hwf; [|apply commit_wf_empty] end.
  intros r l. rewrite Dag.lookup_retain. destruct (_ !! r) as [l'|] eqn:E; cbn; [|done].
  unfold Dag.above_gc. case_decide; [|done]. intros [= <-]. by apply Hwf.
Qed.

Lemma from_Ok m m' : Subdag.from m = Ok m' -> m' = m /\ m <> ∅.
Proof.
  unfold Subdag.from. intros H. simp_ok.
  match goal with H : bool_decide (_ <> ∅) = true |- _ => by apply bool_decide_eq_true in H end.
Qed.

(** What the loop body does to the chain. *)
Record anchor_step (c : BatchCertificate) (b b' : B) (res : result bool) : Prop := {
  as_inv : chain_inv b -> chain_inv b';
  as_last : Dag.last_committed_round (dag b) <= Dag.last_committed_round (dag b');
  as_ok : res = Ok true -> Dag.last_committed_round (dag b') = Z.max (Dag.last_committed_round (dag b)) (round c);
}.

Lemma same_anchor_step c (b b' : B) res :
  same_chain b b' -> res <> Ok true -> anchor_step c b b' res.
Proof.
  intros [Hd Hb] Hres. split; [|by rewrite Hd|done].
  intros [H1 H2 H3 H4]. split; unfold anchors in *; by rewrite ?Hd, ?Hb.
Qed.

Lemma commit_subdag_anchor_step c (b b' : B) m blks :
  same_chain b b' -> commit_wf m -> m <> ∅ -> Subdag.anchor_round m = round c -> Subdag.from m = Ok m ->
  (blks = [] \/ exists ts, blks = [(m, ts)] /\ Dag.last_committed_round (dag b) < round c) ->
  anchor_step c b (commit_subdag_to_dag m (foldl (fun b blk => add_block blk b) b' blks)) (Ok true).
Proof.
  intros [Hd Hb] Hwf Hne Hanchor Hfrom Hblks.
  assert (dag (foldl (fun b blk => add_block blk b) b' blks) = dag b /\
    blocks (foldl (fun b blk => add_block blk b) b' blks) = blocks b ++ blks) as [Hd' Hb'].
  { destruct Hblks as [->|(ts & -> & _)]; cbn; by rewrite ?app_nil_r, ?Hd, ?Hb. }
  set (b1 := foldl _ b' blks) in *.
  assert (Dag.last_committed_round (dag (commit_subdag_to_dag m b1))
    = Z.max (Dag.last_committed_round (dag b)) (round c)) as Hl.
  { rewrite commit_subdag_last by done. by rewrite Hd', Hanchor. }
  split; [|lia|done]. intros [H1 H2 H3 H4].
  assert (blocks (commit_subdag_to_dag m b1) = blocks b ++ blks) as Hblk by by rewrite <-Hb'.
  assert (anchors (commit_subdag_to_dag m b1) = anchors b ++ ((fun blk => Subdag.anchor_round blk.1) <$> blks)) as Ha.
  { unfold anchors. by rewrite Hblk, fmap_app. }
  split.
  - cbn. apply foldl_commit_filed. by rewrite Hd'.
  - rewrite Ha. destruct Hblks as [->|(ts & -> & Hlt)]; [by rewrite app_nil_r|]. cbn.
    apply StronglySorted_app_2; [|done|repeat constructor].
    intros x y Hx%H3 ->%list_elem_of_singleton. lia.
  - rewrite Ha, Hl. intros x [Hx%H3|Hx]%elem_of_app; [lia|].
    destruct Hblks as [->|(ts & -> & _)]; [by apply elem_of_nil in Hx|].
    apply list_elem_of_singleton in Hx as ->. cbn. lia.
  - rewrite Hblk. intros blk [Hx|Hx]%elem_of_app; [auto|].
    destruct Hblks as [->|(ts & -> & _)]; [by apply elem_of_nil in Hx|].
    by apply list_elem_of_singleton in Hx as ->.
Qed.

Lemma commit_anchor_step L consensus (skip : bool) c (b : B) :
  (skip = false -> Dag.last_committed_round (dag b) < round c) ->
  let '(res, b') := commit_anchor L consensus skip c b in anchor_step c b b' res.
Proof.
  intros Hskip. unfold commit_anchor. unfold sbind at 1. cbn [sget].
  unfold sbind at 1, slift at 1. destruct (order_dag_with_dfs L b c) as [m|e|e|] eqn:Eo;
    [|by apply same_anchor_step..].
  pose proof (keeps_collect L m b) as Hcol. unfold sbind at 1.
  destruct (collect_transmissions L m b) as [[col|e|e|] b1]; cbn in Hcol; [|by apply same_anchor_step..].
  unfold sbind at 1, slift at 1. destruct (Subdag.from m) as [m'|e|e|] eqn:Ef; [|by apply same_anchor_step..].
  destruct (from_Ok m m' Ef) as [-> Hne]. unfold sbind at 1, slift at 1, ensure.
  case_bool_decide as Ha; [|by apply same_anchor_step].
  pose proof (order_dag_wf L b c m Eo) as Hwf.
  pose proof (commit_subdag_anchor_step c b b1 m [] Hcol Hwf Hne Ha Ef ltac:(by left)) as Hfinish.
  destruct skip; [exact Hfinish|]. destruct consensus as [send|]; [|exact Hfinish].
  destruct (send m (col_transmissions col)); cbn; [|by apply same_anchor_step..].
  apply (commit_subdag_anchor_step c b b1 m [(m, col_transmissions col)]); try done.
  right. eexists. split; [done|]. by apply Hskip.
Qed.

(** The loop over anchors of increasing rounds. *)
Lemma commit_anchors_step L consensus (skip : bool) cs (b : B) :
  StronglySorted Z.lt (round <$> cs) ->
  (skip = false -> forall c, c ∈ cs -> Dag.last_committed_round (dag b) < round c) ->
  let b' := (commit_anchors L consensus skip cs b).2 in
  (chain_inv b -> chain_inv b') /\
  Dag.last_committed_round (dag b) <= Dag.last_committed_round (dag b').
Proof.
  revert b. induction cs as [|c cs IH]; intros b Hs Hlt; cbn; [split; [done|lia]|].
  cbn in Hs. apply StronglySorted_inv in Hs as [Hs Hc]. rewrite Forall_forall in Hc.
  pose proof (commit_anchor_step L consensus skip c b) as Hstep. unfold sbind.
  destruct (commit_anchor L consensus skip c b) as [[[]|e|e|] b1]; cbn;
    destruct Hstep as [H1 H2 H3]; try (intros; apply Hlt; [done|left]); try done.
  specialize (H3 eq_refl). destruct (IH b1) as [H4 H5]; [done| |split; [auto|lia]].
  intros Hsk x Hx. rewrite H3. pose proof (Hlt Hsk x ltac:(by right)).
  pose proof (Hc (round x) ltac:(by apply list_elem_of_fmap_2)). lia.
Qed.

Lemma rounds_down_by_2_spec lo hi r : r ∈ rounds_down_by_2 lo hi -> lo <= r <= hi.
Proof.
  unfold rounds_down_by_2. intros (i & -> & Hi)%list_elem_of_fmap.
  apply elem_of_seq in Hi as [_ Hi]. cbn in Hi.
  assert (Z.of_nat i < (hi - lo) / 2 + 1) by lia. Z.to_euclidean_division_equations. lia.
Qed.

Lemma rounds_down_by_2_sorted lo hi : StronglySorted Z.gt (rounds_down_by_2 lo hi).
Proof.
  unfold rounds_down_by_2. generalize (Z.to_nat ((hi - lo) / 2 + 1)) as n. generalize 0%nat as k.
  intros k n. revert k. induction n as [|n IH]; intros k; cbn; [constructor|].
  constructor; [apply IH|]. apply Forall_forall. intros x (i & -> & Hi)%list_elem_of_fmap.
  apply elem_of_seq in Hi. lia.
Qed.

Lemma find_anchors_spec L d rs acc (b : B) acc' b' :
  Dag.filed d -> StronglySorted Z.gt rs -> StronglySorted Z.gt (round <$> acc.1) ->
  (forall r x, r ∈ rs -> x ∈ acc.1 -> r < round x) ->
  sfold (find_anchors L d) acc rs b = (Ok acc', b') ->
  StronglySorted Z.gt (round <$> acc'.1) /\ forall x, x ∈ acc'.1 -> x ∈ acc.1 \/ round x ∈ rs.
Proof.
  intros Hf. revert acc b. induction rs as [|r rs IH]; intros acc b Hrs Hacc Hlt H; cbn [sfold] in H.
  { injection H as -> _. auto. }
  apply StronglySorted_inv in Hrs as [Hrs Hr]. rewrite Forall_forall in Hr.
  apply sbind_Ok in H as (acc1 & b1 & H1 & H).
  assert (acc1.1 = acc.1 \/ exists p, acc1.1 = acc.1 ++ [p] /\ round p = r) as Hacc1.
  { unfold find_anchors in H1. apply sbind_Ok in H1 as (com & b2 & _ & H1).
    apply sbind_Ok in H1 as (a & b3 & _ & H1).
    destruct (Dag.get_certificate_for_round_with_author d r a) as [p|] eqn:Ep; [|injection H1; naive_solver].
    apply sbind_Ok in H1 as (linked & b4 & _ & H1). apply Hf in Ep.
    destruct linked; injection H1 as <- _; [right; by exists p|by left]. }
  destruct Hacc1 as [Hacc1|(p & Hacc1 & Hp)].
  - destruct (IH acc1 b1) as [HA HB]; [done|by rewrite Hacc1|rewrite Hacc1|done|].
    + intros; apply Hlt; [by right|done].
    + split; [done|]. intros x [?|?]%HB; [rewrite <-Hacc1; by left|right; by right].
  - destruct (IH acc1 b1) as [HA HB]; [done|rewrite Hacc1|rewrite Hacc1|done|].
    + rewrite fmap_app. cbn. apply StronglySorted_app_2; [|done|repeat constructor].
      intros x y (z & -> & Hz)%list_elem_of_fmap ->%list_elem_of_singleton.
      pose proof (Hlt r z ltac:(left) Hz). lia.
    + intros r' x Hr' [Hx| ->%list_elem_of_singleton]%elem_of_app; [apply Hlt; [by right|done]|].
      specialize (Hr r' Hr'). lia.
    + split; [done|]. rewrite Hacc1 in HB. intros x [[?| ->%list_elem_of_singleton]%elem_of_app|?]%HB;
        [by left|right; rewrite Hp; left|right; by right].
Qed.

Lemma keeps_find_anchors_from (R : B -> B -> Prop) `{!PreOrder R} L d rs acc :
  (forall b r a, R b (update_latest_leader r a b)) ->
  keeps R (sfold (find_anchors (Svc := Svc) (Cache := Cache) L d) acc rs).
Proof.
  intros Hup. apply (keeps_fold R). intros acc' r _. apply (keeps_bind R); [apply (keeps_lift R)|].
  intros com. apply (keeps_bind R); [by apply keeps_cached_leader_from|]. intros a.
  destruct (Dag.get_certificate_for_round_with_author d r a); [|apply (keeps_ret R)].
  apply (keeps_bind R); [apply (keeps_lift R)|]. intros []; apply (keeps_ret R).
Qed.

Lemma keeps_find_anchors L d rs acc :
  keeps same_chain (sfold (find_anchors (Svc := Svc) (Cache := Cache) L d) acc rs).
Proof. by apply (keeps_find_anchors_from same_chain). Qed.

Lemma StronglySorted_reverse (l : list Z) : StronglySorted Z.gt l -> StronglySorted Z.lt (reverse l).
Proof.
  induction 1 as [|x l Hs IH Hx]; [constructor|]. rewrite reverse_cons, Forall_forall in *.
  apply StronglySorted_app_2; [|done|repeat constructor].
  intros a y Ha ->%list_elem_of_singleton. rewrite elem_of_reverse in Ha. specialize (Hx a Ha). lia.
Qed.

(** What an operation of the BFT may do to the chain. *)
Definition chain_step (b b' : B) : Prop :=
  (chain_inv b -> chain_inv b') /\
  Dag.last_committed_round (dag b) <= Dag.last_committed_round (dag b').

#[local] Instance chain_step_preorder : PreOrder chain_step.
Proof. split; [by split|]. intros x y z [? ?] [? ?]. split; [auto|lia]. Qed.

Lemma same_chain_step (b b' : B) : same_chain b b' -> chain_step b b'.
Proof.
  intros [Hd Hb]. split; [|by rewrite Hd]. intros [H1 H2 H3 H4].
  split; unfold anchors in *; by rewrite ?Hd, ?Hb.
Qed.

Lemma keeps_same_chain {A} (m : SM B A) b : keeps same_chain m -> chain_step b (m b).2.
Proof. intros H. apply same_chain_step, H. Qed.

Lemma commit_leader_step L consensus c (b : B) :
  Dag.last_committed_round (dag b) + 2 <= u64_max -> chain_inv b -> 0 <= Dag.last_committed_round (dag b) ->
  chain_step b (commit_leader_certificate L consensus c b).2.
Proof.
  intros Hmax Hinv Hnn. unfold commit_leader_certificate. unfold sbind at 1. cbn [sget].
  case_decide as Hlt; [done|]. set (last := Dag.last_committed_round (dag b)) in *.
  set (rs := rounds_down_by_2 _ _).
  pose proof (keeps_find_anchors L (dag b) rs ([c], c) b) as Hkeep. unfold sbind at 1.
  destruct (sfold (find_anchors L (dag b)) ([c], c) rs b) as [[acc|e|e|] b1] eqn:Ea; cbn in Hkeep;
    [|by apply same_chain_step..].
  assert (forall r, r ∈ rs -> last + 2 <= r < round c) as Hrs.
  { intros r Hr%rounds_down_by_2_spec. rewrite u64_wrap_id in Hr by mlia. mlia. }
  destruct (find_anchors_spec L (dag b) rs ([c], c) b acc b1) as [Hs Hin];
    [apply Hinv|apply rounds_down_by_2_sorted|repeat constructor| |done|].
  { intros r x Hr ->%list_elem_of_singleton. by apply Hrs. }
  pose proof (commit_anchors_step L consensus (bool_decide (round c = last)) (reverse acc.1) b1) as Hca.
  destruct Hkeep as [Hk1 Hk2]. rewrite fmap_reverse, Hk1 in Hca. fold last in Hca.
  destruct Hca as [H1 H2].
  { by apply StronglySorted_reverse. }
  { intros Hne%bool_decide_eq_false x Hx. rewrite elem_of_reverse in Hx.
    apply Hin in Hx as [Hx%list_elem_of_singleton|Hx%Hrs]; [subst x|]; lia. }
  etrans; [apply (same_chain_step b b1); by split|].
  assert (chain_step b1 (commit_anchors L consensus (bool_decide (round c = last)) (reverse acc.1) b1).2)
    as Hstep by (split; [done|by rewrite Hk1]).
  unfold sbind. destruct (commit_anchors L consensus _ (reverse acc.1) b1) as [[[]|e|e|] b2]; try done.
  etrans; [exact Hstep|]. apply same_chain_step. unfold garbage_collect.
  by destruct (Storage.garbage_collect_certificates (storage b2) (round c)).
Qed.

Lemma insert_into_dag_step c (b : B) : chain_step b (insert_into_dag c b).
Proof.
  assert (Dag.last_committed_round (Dag.insert (dag b) c) = Dag.last_committed_round (dag b)) as Hl.
  { unfold Dag.insert. by case_match. }
  split; [|cbn; by rewrite Hl]. intros [H1 H2 H3 H4]. split; cbn; try done.
  - by apply Dag.insert_filed.
  - by rewrite Hl.
Qed.

Lemma commit_from_sync_step c (b : B) : chain_step b (commit_certificate_from_sync c b).
Proof.
  split; [|cbn -[Dag.commit]; rewrite Dag.commit_last; lia].
  intros [H1 H2 H3 H4]. split; cbn -[Dag.commit]; try done.
  - by apply Dag.commit_filed.
  - intros a Ha%H3. rewrite Dag.commit_last. lia.
Qed.

Lemma add_new_certificate_step L consensus c (b : B) :
  Dag.last_committed_round (dag b) + 2 <= u64_max -> chain_inv b -> 0 <= Dag.last_committed_round (dag b) ->
  chain_step b (add_new_certificate L consensus c b).2.
Proof.
  intros Hmax Hinv Hnn. pose proof (insert_into_dag_step c b) as Hins.
  assert (Dag.last_committed_round (dag (insert_into_dag c b)) = Dag.last_committed_round (dag b)) as Hl.
  { cbn. unfold Dag.insert. by case_match. }
  unfold add_new_certificate. unfold sbind at 1. cbn [smodify].
  set (b1 := insert_into_dag c b) in *. case_decide; [done|].
  unfold sbind at 1. cbn [sget]. case_decide; [done|].
  unfold sbind at 1, slift at 1. destruct (get_committee_lookback_for_round L _) as [com|e|e|]; [|done..].
  pose proof (keeps_cached_leader com (saturating_sub (round c) 1) b1) as Hk. unfold sbind at 1.
  destruct (cached_leader com _ b1) as [[a|e|e|] b2]; cbn in Hk;
    [|etrans; [exact Hins|by apply same_chain_step]..].
  assert (chain_step b b2) as H2 by (etrans; [exact Hins|by apply same_chain_step]).
  destruct (Dag.get_certificate_for_round_with_author _ _ a) as [lc|]; [|done].
  unfold sbind at 1, slift at 1. destruct (ok_or _ _) as [certs|e|e|]; [|done..].
  unfold sbind at 1, slift at 1. destruct (get_committee_lookback_for_round L _) as [com2|e|e|]; [|done..].
  case_match; [|done]. destruct Hk as [Hk1 Hk2]. etrans; [exact H2|].
  apply commit_leader_step; [rewrite Hk1; lia|by apply H2|rewrite Hk1; lia].
Qed.

Lemma keeps_or_false {A} (m : SM B A) k :
  keeps same_chain m -> (forall a, keeps same_chain (k a)) -> keeps same_chain (or_false m k).
Proof.
  intros Hm Hk b. unfold or_false. specialize (Hm b). destruct (m b) as [[a|e|e|] b1]; cbn in *; try done.
  etrans; [done|apply Hk].
Qed.

Lemma keeps_advance L now r : keeps same_chain (try_advance_to_next_round (Svc := Svc) (Cache := Cache) L now r).
Proof.
  apply (keeps_bind same_chain); [apply (keeps_get same_chain)|]. intros b.
  case_decide; [apply (keeps_ret same_chain)|]. apply (keeps_bind same_chain).
  - case_decide.
    + apply (keeps_bind same_chain); [apply (keeps_get same_chain)|]. intros b'. cbv zeta.
      repeat (case_decide; [apply (keeps_ret same_chain)|]).
      case_decide.
      { apply (keeps_bind same_chain); [by apply (keeps_modify same_chain)|]. intros _. apply (keeps_ret same_chain). }
      apply keeps_or_false; [apply (keeps_lift same_chain)|]. intros com.
      apply keeps_or_false; [apply keeps_cached_leader|]. intros a.
      apply (keeps_bind same_chain); [by apply (keeps_modify same_chain)|]. intros _.
      apply (keeps_bind same_chain); [apply (keeps_get same_chain)|]. intros ?. apply (keeps_ret same_chain).
    + apply (keeps_bind same_chain); [apply (keeps_get same_chain)|]. intros b'. cbv zeta.
      repeat (case_decide; [apply (keeps_ret same_chain)|]).
      apply keeps_or_false; [apply (keeps_lift same_chain)|]. intros com.
      case_match; [apply (keeps_ret same_chain)|].
      case_match; [case_match|]; apply (keeps_ret same_chain).
  - intros []; [|apply (keeps_ret same_chain)]. apply keeps_or_false.
    + intros b'. unfold increment_to_next_round. by destruct (Storage.increment_to_next_round L _ r).
    + intros _. apply (keeps_bind same_chain); [by apply (keeps_modify same_chain)|].
      intros _. apply (keeps_ret same_chain).
Qed.

(** The operations of the BFT, and any operation of the primary and of syncing
    on the shared storage.  The rounds stay two below the maximum of a [u64]. *)
Inductive bft_step (b : B) : B -> Prop :=
| bs_new_certificate L consensus c :
    Dag.last_committed_round (dag b) + 2 <= u64_max ->
    bft_step b (add_new_certificate L consensus c b).2
| bs_advance L now r : bft_step b (try_advance_to_next_round L now r b).2
| bs_sync_add c : bft_step b (add_certificate_from_sync c b)
| bs_sync_commit c : bft_step b (commit_certificate_from_sync c b)
| bs_storage s : bft_step b (set_storage s b).

Lemma bft_step_chain (b b' : B) :
  bft_step b b' -> chain_inv b -> 0 <= Dag.last_committed_round (dag b) -> chain_step b b'.
Proof.
  intros [L consensus c Hmax|L now r|c|c|s] Hinv Hnn.
  - by apply add_new_certificate_step.
  - apply keeps_same_chain, keeps_advance.
  - apply insert_into_dag_step.
  - apply commit_from_sync_step.
  - by apply same_chain_step.
Qed.

Lemma chain_reachable s (b : B) :
  rtc bft_step (new s) b -> chain_inv b /\ 0 <= Dag.last_committed_round (dag b).
Proof.
  assert (chain_inv (new s) /\ 0 <= Dag.last_committed_round (dag (new s))) as H0.
  { split; [|done]. split; cbn; [intros ? ? ?; done|constructor|..]; intros ? []%elem_of_nil. }
  intros Hsteps. revert H0. induction Hsteps as [b|b b1 b2 Hstep _ IH]; [done|].
  intros [Hinv Hnn]. destruct (bft_step_chain b b1 Hstep Hinv Hnn). apply IH. split; [auto|lia].
Qed.


(** Committing does not go back: no operation of the BFT lowers the last
    committed round. *)
Theorem last_committed_monotone (s : Storage.Storage Svc Cache) (b b' : B) :
  rtc bft_step (new s) b -> bft_step b b' ->
  Dag.last_committed_round (dag b) <= Dag.last_committed_round (dag b').
Proof. intros [Hinv Hnn]%chain_reachable Hstep. by apply bft_step_chain. Qed.

(** ** When rounds advance *)

Lemma or_false_true {A} (m : SM B A) k b b' :
  or_false m k b = (Ok true, b') -> exists a b1, m b = (Ok a, b1) /\ k a b1 = (Ok true, b').
Proof. unfold or_false. destruct (m b) as [[a|e|e|] b1]; naive_solver. Qed.

Lemma cached_leader_fields committee r (b : B) a b1 :
  cached_leader committee r b = (Ok a, b1) ->
  storage b1 = storage b /\ leader_certificate b1 = leader_certificate b /\
  leader_certificate_timer b1 = leader_certificate_timer b.
Proof.
  unfold cached_leader, sbind, slift, smodify, sret. cbn.
  destruct (latest_leader b) as [[r' a']|]; [case_decide|]; intros Hl; [by simplify_eq|..];
    destruct (get_leader committee r); simplify_eq; done.
Qed.

Lemma even_round_true L now r (b b' : B) :
  update_leader_certificate_to_even_round L now r b = (Ok true, b') ->
  r = Storage.current_round (storage b) /\ r mod 2 = 0 /\
  exists committee, get_committee_lookback_for_round L r = Ok committee /\
    is_quorum_threshold_reached committee
      (authors_of (Storage.get_certificates_for_round (storage b) r)) = true /\
    ((exists lc, leader_certificate b' = Some lc /\ round lc = r /\
        lc ∈ Storage.get_certificates_for_round (storage b) r) \/ is_timer_expired now b = true).
Proof.
  unfold update_leader_certificate_to_even_round. unfold sbind at 1. cbn [sget].
  destruct (decide (_ <> r)) as [?|Hr]; [done|]. apply dec_stable in Hr.
  destruct (decide (_ \/ _)) as [?|Hp]; [done|]. destruct (decide (_ = [])); [done|].
  intros (com & b1 & Hc & Hrest)%or_false_true. unfold slift in Hc. injection Hc as Hc ->.
  apply or_false_true in Hrest as (a & b2 & Hl & Hrest). apply cached_leader_fields in Hl as (Hs & _ & Ht).
  unfold sbind, smodify, sget, sret in Hrest. cbn in Hrest. injection Hrest as Hrest <-.
  rewrite Hr in *. split; [done|]. split; [lia|]. exists com. split; [done|].
  unfold is_even_round_ready_for_next_round in Hrest.
  destruct (is_quorum_threshold_reached com _) eqn:Hq; [|done]. cbn in Hrest. split; [done|]. cbn.
  assert (forall x, is_timer_expired now (set_leader_certificate x b2) = is_timer_expired now b1) as Hte.
  { intros x. unfold is_timer_expired. cbn. by rewrite Ht. }
  destruct (List.find _ _) as [lc|] eqn:Ef; [|right; by rewrite <-Hrest, Hte].
  case_decide as Hlc; [left|right; by rewrite <-Hrest, Hte].
  exists lc. split_and!; [done|done|]. apply find_some in Ef as [Hin _]. by rewrite list_elem_of_In.
Qed.

Lemma odd_round_true L now r (b b' : B) :
  is_leader_quorum_or_nonleaders_available L now r b = (Ok true, b') ->
  b' = b /\ r = Storage.current_round (storage b) /\ r mod 2 = 1 /\
  exists committee, get_committee_lookback_for_round L r = Ok committee /\
    is_quorum_threshold_reached committee
      (authors_of (Storage.get_certificates_for_round (storage b) r)) = true /\
    forall lc, leader_certificate b = Some lc ->
      let stakes := compute_stake_for_leader_certificate (cert_id lc)
        (Storage.get_certificates_for_round (storage b) r) committee in
      availability_threshold committee <= stakes.1 \/ quorum_threshold committee <= stakes.2 \/
      is_timer_expired now b = true.
Proof.
  unfold is_leader_quorum_or_nonleaders_available. unfold sbind at 1. cbn [sget].
  destruct (decide (_ <> r)) as [?|Hr]; [done|]. apply dec_stable in Hr.
  destruct (decide (_ <> 1)) as [?|Hp]; [done|]. apply dec_stable in Hp.
  intros (com & b1 & Hc & Hrest)%or_false_true. unfold slift in Hc. injection Hc as Hc <-.
  rewrite Hr in *. destruct (is_quorum_threshold_reached com _) eqn:Hq; [|done]. cbn [negb] in Hrest.
  destruct (leader_certificate b) as [lc|] eqn:El.
  - destruct (compute_stake_for_leader_certificate _ _ _) as [s1 s2] eqn:Es. unfold sret in Hrest.
    injection Hrest as Hrest <-. split_and!; [done|done|done|]. exists com. split_and!; [done|done|].
    intros lc' [= <-]. rewrite Es. cbn. rewrite !orb_true_iff, !bool_decide_eq_true in Hrest. tauto.
  - unfold sret in Hrest. injection Hrest as <-. split_and!; [done|done|done|]. exists com. by split_and!.
Qed.

(** The certificates the storage has for the round. *)
Definition round_certificates (b : B) (r : Z) : list BatchCertificate :=
  Storage.get_certificates_for_round (storage b) r.

(** A round is left only with a quorum.  When [try_advance_to_next_round]
    returns [true], the given round was the storage round, certificates of it by
    authors with quorum stake are stored, the leader timer is restarted, and: in
    an even round, the leader's certificate is set or the timer had expired; in
    an odd round, the certificates that refer to the leader certificate have the
    availability stake, or those that do not have quorum stake, or there is no
    leader certificate, or the timer had expired. *)
Theorem advance_needs_quorum (L : LedgerService) (now r : Z) (b b' : B) :
  try_advance_to_next_round L now r b = (Ok true, b') ->
  r = Storage.current_round (storage b) /\ leader_certificate_timer b' = now /\
  exists committee, get_committee_lookback_for_round L r = Ok committee /\
    is_quorum_threshold_reached committee
      (authors_of (round_certificates b r)) = true /\
    (r mod 2 = 0 ->
       (exists lc, leader_certificate b' = Some lc /\ round lc = r) \/ is_timer_expired now b = true) /\
    (r mod 2 = 1 -> forall lc, leader_certificate b = Some lc ->
       let stakes := compute_stake_for_leader_certificate (cert_id lc)
         (round_certificates b r) committee in
       availability_threshold committee <= stakes.1 \/ quorum_threshold committee <= stakes.2 \/
       is_timer_expired now b = true).
Proof.
  unfold try_advance_to_next_round. unfold sbind at 1. cbn [sget].
  destruct (decide (r < _)); [done|]. intros H. apply sbind_Ok in H as (ready & b1 & Hready & H).
  destruct ready; [|done]. apply or_false_true in H as (x & b2 & Hinc & H).
  assert (leader_certificate b2 = leader_certificate b1) as Hlc.
  { unfold increment_to_next_round in Hinc. destruct (Storage.increment_to_next_round L _ r). by simplify_eq. }
  unfold sbind, smodify, sret in H. injection H as <-. cbn.
  case_decide as Heven.
  - apply even_round_true in Hready as (Hr & Hmod & com & Hcom & Hq & Hready).
    split_and!; [done|done|]. exists com. split_and!; [done|done| |lia].
    intros _. destruct Hready as [(lc & Hl & Hrl & _)|?]; [left|by right].
    exists lc. by rewrite Hlc.
  - apply odd_round_true in Hready as (-> & Hr & Hmod & com & Hcom & Hq & Hready).
    split_and!; [done|done|]. exists com. split_and!; [done|done|lia|done].
Qed.

(** ** Stake with and without the leader *)

Lemma compute_stake_foldl leader_id cs committee acc :
  committee_wf committee -> 0 <= acc.1 <= u64_max -> 0 <= acc.2 <= u64_max ->
  foldl (fun acc c =>
    let stake := get_stake committee (author c) in
    if bool_decide (leader_id ∈ previous_certificate_ids c)
    then (u64_saturating_add acc.1 stake, acc.2) else (acc.1, u64_saturating_add acc.2 stake)) acc cs =
  (Z.min u64_max (acc.1 + sumZ ((fun c => get_stake committee (author c)) <$>
     base.filter (fun c => leader_id ∈ previous_certificate_ids c) cs)),
   Z.min u64_max (acc.2 + sumZ ((fun c => get_stake committee (author c)) <$>
     base.filter (fun c => leader_id ∉ previous_certificate_ids c) cs))).
Proof.
  intros Hc. revert acc. induction cs as [|c cs IH]; intros [x y] Hx Hy.
  { cbn in *. unfold sumZ; cbn. f_equal; lia. }
  pose proof (get_stake_nonneg committee (author c) Hc). cbn [foldl fst snd] in *.
  assert (forall (P : BatchCertificate -> Prop) `{!forall c, Decision (P c)},
    0 <= sumZ ((fun c => get_stake committee (author c)) <$> base.filter P cs)) as Hnn.
  { intros P ?. apply sumZ_nonneg. intros ? (d & -> & _)%list_elem_of_fmap. by apply get_stake_nonneg. }
  pose proof (Hnn (fun c => leader_id ∈ previous_certificate_ids c) _).
  pose proof (Hnn (fun c => leader_id ∉ previous_certificate_ids c) _).
  rewrite !filter_cons. case_bool_decide as Hin.
  - rewrite (decide_True (P := leader_id ∈ _)), (decide_False (P := leader_id ∉ _)) by tauto.
    rewrite IH by (cbn; mlia). cbn [fst snd fmap list_fmap]. unfold sumZ in *. cbn. f_equal; mlia.
  - rewrite (decide_False (P := leader_id ∈ _)), (decide_True (P := leader_id ∉ _)) by tauto.
    rewrite IH by (cbn; mlia). cbn [fst snd fmap list_fmap]. unfold sumZ in *. cbn. f_equal; mlia.
Qed.

Lemma sum_authors_stake committee (cs : list BatchCertificate) :
  NoDup (author <$> cs) ->
  sumZ ((fun c => get_stake committee (author c)) <$> cs) = set_stake committee (authors_of cs).
Proof.
  intros Hnd. unfold set_stake, authors_of. rewrite elements_list_to_set by done.
  by rewrite <-list_fmap_compose.
Qed.

Lemma NoDup_filter_authors (P : BatchCertificate -> Prop) `{!forall c, Decision (P c)} cs :
  NoDup (author <$> cs) -> NoDup (author <$> base.filter P cs).
Proof.
  induction cs as [|c cs IH]; intros Hnd; [done|]. cbn in Hnd. apply NoDup_cons in Hnd as [Hn Hnd].
  rewrite filter_cons. case_decide; [|by apply IH]. cbn. apply NoDup_cons. split; [|by apply IH].
  intros (d & Hd & [_ Hin]%list_elem_of_filter)%list_elem_of_fmap. apply Hn. rewrite Hd.
  by apply list_elem_of_fmap_2.
Qed.

(** The authors whose certificates refer to the leader certificate, and those
    whose certificates do not. *)
Definition supporters (leader_id : Field) (cs : list BatchCertificate) : gset Address :=
  authors_of (base.filter (fun c => leader_id ∈ previous_certificate_ids c) cs).
Definition opponents (leader_id : Field) (cs : list BatchCertificate) : gset Address :=
  authors_of (base.filter (fun c => leader_id ∉ previous_certificate_ids c) cs).

(** The two ways the code weighs the support of a leader agree.  For
    certificates of distinct authors, the stakes that
    [compute_stake_for_leader_certificate] accumulates reach the availability
    and quorum thresholds exactly when the sets of authors with and without the
    leader certificate do. *)
Theorem compute_stake_correct (committee : Committee) (leader_id : Field) (cs : list BatchCertificate) :
  committee_wf committee -> NoDup (author <$> cs) ->
  let '(with_leader, without_leader) := compute_stake_for_leader_certificate leader_id cs committee in
  with_leader + without_leader = set_stake committee (authors_of cs) /\
  (availability_threshold committee <= with_leader <->
   is_availability_threshold_reached committee (supporters leader_id cs) = true) /\
  (quorum_threshold committee <= without_leader <->
   is_quorum_threshold_reached committee (opponents leader_id cs) = true).
Proof.
  intros Hc Hnd. unfold compute_stake_for_leader_certificate, supporters, opponents.
  rewrite compute_stake_foldl by (done || cbn; mlia). cbn [fst snd]. rewrite !Z.add_0_l.
  rewrite !sum_authors_stake by by apply NoDup_filter_authors.
  unfold is_availability_threshold_reached, is_quorum_threshold_reached.
  rewrite !accumulated_stake_exact, !bool_decide_eq_true by done.
  set (A := authors_of (base.filter (fun c => leader_id ∈ previous_certificate_ids c) cs)).
  set (A' := authors_of (base.filter (fun c => leader_id ∉ previous_certificate_ids c) cs)).
  pose proof (set_stake_le_total committee A Hc). pose proof (set_stake_le_total committee A' Hc).
  pose proof (cwf_total_max committee Hc). rewrite !Z.min_r by lia. split_and!; [|done..].
  rewrite <-set_stake_disj_union.
  - f_equal. apply set_eq. intros a. unfold A, A', authors_of.
    rewrite elem_of_union, !elem_of_list_to_set, !list_elem_of_fmap. setoid_rewrite list_elem_of_filter.
    split; [naive_solver|]. intros (c & -> & Hin).
    destruct (decide (leader_id ∈ previous_certificate_ids c)); [left|right]; eauto.
  - intros a. unfold A, A', authors_of. rewrite !elem_of_list_to_set.
    intros (c & -> & [Hc1 Hin1]%list_elem_of_filter)%list_elem_of_fmap
           (d & Ha & [Hd1 Hin2]%list_elem_of_filter)%list_elem_of_fmap.
    assert (c = d) as ->; [|done].
    apply list_elem_of_lookup in Hin1 as [i Hi], Hin2 as [j Hj].
    assert (i = j) as ->; [|congruence].
    apply (NoDup_lookup (author <$> cs) i j (author c) Hnd); rewrite list_lookup_fmap.
    + by rewrite Hi.
    + by rewrite Hj, Ha.
Qed.

(** ** The transmissions of a block *)

(** The IDs collected so far are distinct, also as transactions and as
    solutions, come from the certificates and are not in the ledger. *)
Record collected_inv (L : LedgerService) (sources : TransmissionID -> Prop) (col : collected) : Prop := {
  co_nodup : NoDup (col_transmissions col).*1;
  co_transactions : NoDup (omap tid_transaction (col_transmissions col).*1);
  co_solutions : NoDup (omap tid_solution (col_transmissions col).*1);
  co_seen_t i : i ∈ col_transactions col <-> i ∈ omap tid_transaction (col_transmissions col).*1;
  co_seen_s i : i ∈ col_solutions col <-> i ∈ omap tid_solution (col_transmissions col).*1;
  co_source t : t ∈ (col_transmissions col).*1 ->
    sources t /\ ledger_contains_transmission L t = Ok false;
}.

Lemma collect_transmission_inv L sources acc t (b : B) acc' b' :
  sources t -> collected_inv L sources acc ->
  collect_transmission L acc t b = (Ok acc', b') -> collected_inv L sources acc'.
Proof.
  intros Hsrc Hacc Hrun. unfold collect_transmission in Hrun.
  assert (forall m : SM B collected, m b = (Ok acc', b') ->
    m = (if imap_contains t (col_transmissions acc) then sret acc else
         if unwrap_or true (ledger_contains_transmission L t) then sret acc else
         do o ⇐ get_transmission t;
         do x ⇐ slift (ok_or "BFT failed to retrieve transmission" o);
         sret (mk_collected (imap_insert t x (col_transmissions acc))
            (match t with IdTransaction i _ => col_transactions acc ∪ {[i]} | _ => col_transactions acc end)
            (match t with IdSolution i _ => col_solutions acc ∪ {[i]} | _ => col_solutions acc end))) ->
    (forall i, tid_transaction t = Some i -> i ∉ col_transactions acc) ->
    (forall i, tid_solution t = Some i -> i ∉ col_solutions acc) -> collected_inv L sources acc') as Hadd.
  { intros m Hm -> Ht Hs. unfold imap_contains in Hm. case_bool_decide as Hin; [by injection Hm as <- _|].
    destruct (unwrap_or true _) eqn:El; [by injection Hm as <- _|].
    apply sbind_Ok in Hm as (o & b1 & _ & Hm). apply sbind_Ok in Hm as (x & b2 & _ & Hm).
    unfold sret in Hm. injection Hm as <- _. apply eq_None_not_Some, imap_get_None in Hin.
    destruct Hacc as [H1 H2 H3 H4 H5 H6].
    assert ((imap_insert t x (col_transmissions acc)).*1 = (col_transmissions acc).*1 ++ [t]) as Hk.
    { rewrite imap_insert_new by done. by rewrite fmap_app. }
    split; cbn; rewrite ?Hk, ?omap_app.
    - apply NoDup_app. split_and!; [done|set_solver|apply NoDup_singleton].
    - destruct t as [|i c|i c]; cbn; rewrite ?app_nil_r; try done.
      apply NoDup_app. split_and!; [done| |apply NoDup_singleton].
      intros j Hj ->%list_elem_of_singleton. apply (Ht i); [done|]. by apply H4.
    - destruct t as [|i c|i c]; cbn; rewrite ?app_nil_r; try done.
      apply NoDup_app. split_and!; [done| |apply NoDup_singleton].
      intros j Hj ->%list_elem_of_singleton. apply (Hs i); [done|]. by apply H5.
    - intros j. destruct t as [|i c|i c]; cbn; rewrite ?app_nil_r; try apply H4.
      rewrite elem_of_union, elem_of_app, H4. set_solver.
    - intros j. destruct t as [|i c|i c]; cbn; rewrite ?app_nil_r; try apply H5.
      rewrite elem_of_union, elem_of_app, H5. set_solver.
    - intros u [?| ->%list_elem_of_singleton]%elem_of_app; [auto|]. split; [done|].
      by destruct (ledger_contains_transmission L t) as [[]|e|e|]. }
  destruct t as [|i c|i c]; [done|..].
  - case_bool_decide; [by injection Hrun as <- _|]. eapply Hadd; [exact Hrun|done|..]; naive_solver.
  - case_bool_decide; [by injection Hrun as <- _|]. eapply Hadd; [exact Hrun|done|..]; naive_solver.
Qed.

(** The IDs of the transmissions of a block. *)
Definition block_ids (col : collected) : list TransmissionID := (col_transmissions col).*1.

(** A block has no duplicate content.  The transmissions collected for a
    subdag have distinct transmission IDs, distinct transaction IDs and distinct
    solution IDs; each comes from a certificate of the subdag, and none is in
    the ledger. *)
Theorem collect_no_duplicates (L : LedgerService) (m : commit_map) (b b' : B) (col : collected) :
  collect_transmissions L m b = (Ok col, b') ->
  NoDup (block_ids col) /\ NoDup (omap tid_transaction (block_ids col)) /\
  NoDup (omap tid_solution (block_ids col)) /\
  forall t, t ∈ block_ids col -> ledger_contains_transmission L t = Ok false /\
    exists c, c ∈ Subdag.all_certificates m /\ t ∈ transmission_ids c.
Proof.
  set (sources := fun t => exists c, c ∈ Subdag.all_certificates m /\ t ∈ transmission_ids c).
  intros Hrun. assert (collected_inv L sources col) as [H1 H2 H3 H4 H5 H6].
  { unfold collect_transmissions in Hrun. eapply sfold_ind; [| |exact Hrun].
    - split; cbn; try constructor; set_solver.
    - intros c acc b1 acc2 b2 Hc Hacc Hin. eapply sfold_ind; [exact Hacc| |exact Hin].
      intros t acc3 b3 acc4 b4 Ht Hacc3 H34. eapply collect_transmission_inv; [|exact Hacc3|exact H34].
      by exists c. }
  split_and!; try done. intros t [? ?]%H6. done.
Qed.

(** ** The commit rule *)

(** C3: blocks are built only for supported leaders.  When a new certificate
    makes consensus build blocks, the certificate's round is odd, the elected
    leader of the round before has a certificate in the DAG, and the authors of
    the round's certificates that refer to it reach the availability threshold
    of their committee. *)
Theorem commit_rule (L : LedgerService) (consensus : consensus_t) (c : BatchCertificate) (b : B) :
  blocks (add_new_certificate L consensus c b).2 <> blocks b ->
  let d := Dag.insert (dag b) c in
  let commit_round := saturating_sub (round c) 1 in
  commit_round mod 2 = 0 /\ Dag.last_committed_round (dag b) < commit_round /\
  exists committee leader b1 leader_certificate certificates certificate_committee,
    get_committee_lookback_for_round L commit_round = Ok committee /\
    cached_leader committee commit_round (insert_into_dag c b) = (Ok leader, b1) /\
    Dag.get_certificate_for_round_with_author d commit_round leader = Some leader_certificate /\
    Dag.get_certificates_for_round d (round c) = Some certificates /\
    get_committee_lookback_for_round L (round c) = Ok certificate_committee /\
    is_availability_threshold_reached certificate_committee
      (supporters (cert_id leader_certificate) (Dag.values certificates)) = true.
Proof.
  intros Hne d cr.
  assert (Dag.last_committed_round d = Dag.last_committed_round (dag b)) as Hl.
  { unfold d, Dag.insert. by case_match. }
  unfold add_new_certificate in Hne. unfold sbind at 1 in Hne. cbn [smodify] in Hne.
  fold cr in Hne. set (b1 := insert_into_dag c b) in *. case_decide as Hcr; [done|].
  unfold sbind at 1 in Hne. cbn [sget] in Hne. change (dag b1) with d in Hne. case_decide as Hlast; [done|].
  split; [lia|]. split; [lia|].
  unfold sbind at 1, slift at 1 in Hne.
  destruct (get_committee_lookback_for_round L cr) as [com|e|e|] eqn:Ecom; [|done..].
  pose proof (keeps_cached_leader com cr b1) as [Hk1 Hk2]. unfold sbind at 1 in Hne.
  destruct (cached_leader com cr b1) as [[a|e|e|] b2] eqn:Ea; cbn in Hk1, Hk2; [|by destruct (Hne Hk2)..].
  change (blocks b1) with (blocks b) in Hk2.
  destruct (Dag.get_certificate_for_round_with_author d cr a) as [lc|] eqn:Elc; [|by destruct (Hne Hk2)].
  unfold sbind at 1, slift at 1 in Hne.
  destruct (Dag.get_certificates_for_round d (round c)) as [certs|] eqn:Ecs; cbn [ok_or] in Hne; [|by destruct (Hne Hk2)].
  unfold sbind at 1, slift at 1 in Hne.
  destruct (get_committee_lookback_for_round L (round c)) as [com2|e|e|] eqn:Ecom2; [|by destruct (Hne Hk2)..].
  exists com, a, b2, lc, certs, com2. split_and!; try done.
  unfold supporters, authors_of. destruct (is_availability_threshold_reached com2 _); [done|by destruct (Hne Hk2)].
Qed.

End Props.
End BftProps.

(** ** Witnesses *)

Abbreviation TestBft := (Bft.BFT (Memory.BFTMemoryService (N := TestNetwork))
  (ListLru.cache (Field (Network := TestNetwork)) (BatchCertificate (N := TestNetwork)))).

(** A ledger that has none of the certificates. *)
Definition empty_ledger : LedgerService (N := TestNetwork) := {|
  latest_round := 0;
  current_committee := Ok sample_committee;
  get_committee_lookback_for_round := sample_lookback;
  ledger_contains_certificate _ := Ok false;
  ledger_contains_transmission _ := Ok false;
  ledger_get_solution _ := Ok None;
  ledger_get_unconfirmed_transaction _ := Ok None;
|}.

Definition sample_consensus : Bft.consensus_t (N := TestNetwork) := Some (fun _ _ => Bft.Advanced).

Definition sample_sync (b : TestBft) (c : BatchCertificate (N := TestNetwork)) : TestBft :=
  Bft.add_certificate_from_sync c b.

(** The BFT before and after the last certificate of round 3, which commits
    the leader of round 2; the certificates before it came from syncing. *)
Definition sample_bft8 : TestBft := foldl sample_sync (Bft.new sample_storage) (take 8 sample_rounds).
Definition sample_bft9 : TestBft :=
  (Bft.add_new_certificate empty_ledger sample_consensus (sample_cert 8) sample_bft8).2.

Lemma sample_sync_reachable l (b : TestBft) :
  rtc BftProps.bft_step b (foldl sample_sync b l) /\ Bft.storage (foldl sample_sync b l) = Bft.storage b.
Proof.
  revert b. induction l as [|c l IH]; intros b; [done|]. cbn [foldl].
  destruct (IH (sample_sync b c)) as [Hr Hs]. rewrite Hs. split; [|done].
  eapply rtc_l; [apply (BftProps.bs_sync_add b c)|exact Hr].
Qed.

Lemma sample_bft8_known c : c ∈ sample_cert 4 :: Bft.known_certificates sample_bft8 -> c ∈ sample_rounds.
Proof.
  assert (forallb (fun c => bool_decide (c ∈ sample_rounds))
    (sample_cert 4 :: Bft.known_certificates sample_bft8) = true) as H by vm_refl.
  rewrite forallb_forall in H. intros Hc%list_elem_of_In. specialize (H c Hc).
  by apply bool_decide_eq_true in H.
Qed.

Lemma sample_bft8_one_copy : BftProps.one_copy sample_bft8 (sample_cert 4).
Proof. intros x y Hx%sample_bft8_known Hy%sample_bft8_known. by apply sample_rounds_inj. Qed.

Lemma sample_bft8_index : StorageProps.index_inv (Bft.storage sample_bft8).
Proof.
  unfold sample_bft8. rewrite (proj2 (sample_sync_reachable _ _)). apply sample_storage_inv.
Qed.

Lemma order_dag_correct_witness :
  exists m, Bft.order_dag_with_dfs empty_ledger sample_bft8 (sample_cert 4) = Ok m /\
    forall r l, m !! r = Some l -> NoDup (cert_id <$> l).
Proof.
  pose proof (BftProps.order_dag_correct empty_ledger sample_bft8 (sample_cert 4)
    sample_bft8_index sample_bft8_one_copy) as H.
  assert (is_ok (Bft.order_dag_with_dfs empty_ledger sample_bft8 (sample_cert 4)) = true) as Hok by vm_refl.
  destruct (Bft.order_dag_with_dfs empty_ledger sample_bft8 (sample_cert 4)) as [m|e|e|]; [|discriminate Hok..].
  exists m. split; [reflexivity|]. intros r l Hl. destruct H as [H _]. by destruct (H r l Hl) as (_ & ? & _).
Defined.

Definition sample_ordered : gmap Z (list (BatchCertificate (N := TestNetwork))) :=
  unwrap_or ∅ (Bft.order_dag_with_dfs empty_ledger sample_bft8 (sample_cert 4)).

(** References of the sample certificates go to the round before. *)
Lemma sample_rounds_previous x p :
  x ∈ sample_rounds -> p ∈ sample_rounds -> cert_id p ∈ previous_certificate_ids x ->
  0 <= round p /\ round p = round x - 1.
Proof.
  assert (forallb (fun x => forallb (fun p => bool_decide
    (cert_id p ∈ previous_certificate_ids x -> 0 <= round p /\ round p = round x - 1)) sample_rounds)
    sample_rounds = true) as H by vm_refl.
  rewrite forallb_forall in H. intros Hx%list_elem_of_In Hp%list_elem_of_In.
  specialize (H x Hx). rewrite forallb_forall in H. specialize (H p Hp). by apply bool_decide_eq_true in H.
Qed.

Lemma sample_bft8_links : BftProps.links_ok sample_bft8 (sample_cert 4).
Proof.
  assert (forallb (fun x => bool_decide (0 <= round x)) sample_rounds = true) as H by vm_refl. split.
  - intros x Hx%sample_bft8_known. rewrite forallb_forall in H. apply list_elem_of_In in Hx.
    specialize (H x Hx). by apply bool_decide_eq_true in H.
  - intros x p Hx%sample_bft8_known Hp Hid. apply sample_rounds_previous; [done| |done].
    apply sample_bft8_known. by right.
Qed.

Lemma ordered_subdag_accepted_witness :
  Subdag.from sample_ordered = Ok sample_ordered /\
  Subdag.leader_certificate sample_ordered = Ok (sample_cert 4).
Proof.
  destruct (BftProps.ordered_subdag_accepted empty_ledger sample_bft8 (sample_cert 4) sample_ordered
    sample_bft8_index sample_bft8_one_copy sample_bft8_links) as [H1 H2].
  - by vm_compute.
  - by vm_compute.
  - by vm_compute.
  - vm_refl.
  - split; [|exact H2]. rewrite H1. vm_refl.
Defined.

Lemma sample_bft8_reachable : rtc BftProps.bft_step (Bft.new sample_storage) sample_bft8.
Proof. apply sample_sync_reachable. Qed.


Lemma last_committed_monotone_witness :
  Dag.last_committed_round (Bft.dag sample_bft8) <= Dag.last_committed_round (Bft.dag sample_bft9).
Proof.
  apply (BftProps.last_committed_monotone sample_storage sample_bft8 sample_bft9 sample_bft8_reachable).
  apply BftProps.bs_new_certificate. by vm_compute.
Defined.

Definition sample_advanced : TestBft := (Bft.try_advance_to_next_round empty_ledger 77 2 sample_bft8).2.

Lemma advance_needs_quorum_witness :
  Bft.try_advance_to_next_round empty_ledger 77 2 sample_bft8 = (Ok true, sample_advanced) /\
  Bft.leader_certificate_timer sample_advanced = 77.
Proof.
  assert ((Bft.try_advance_to_next_round empty_ledger 77 2 sample_bft8).1 = Ok true) as H1 by vm_refl.
  assert (Bft.try_advance_to_next_round empty_ledger 77 2 sample_bft8 = (Ok true, sample_advanced)) as H
    by (rewrite <-H1; apply surjective_pairing).
  split; [exact H|].
  exact (proj1 (proj2 (BftProps.advance_needs_quorum empty_ledger 77 2 sample_bft8 sample_advanced H))).
Defined.

Lemma compute_stake_correct_witness :
  let stakes := Bft.compute_stake_for_leader_certificate (cert_id (sample_cert 4)) sample_round3 sample_committee in
  stakes.1 + stakes.2 = set_stake sample_committee (Bft.authors_of sample_round3).
Proof.
  pose proof (BftProps.compute_stake_correct sample_committee (cert_id (sample_cert 4)) sample_round3
    sample_committee_wf ltac:(apply (bool_decide_unpack _); by vm_compute)) as H.
  destruct (Bft.compute_stake_for_leader_certificate _ _ _) as [x y]. cbn. apply H.
Defined.

(** A BFT whose storage has the transmission of [certificate7]. *)
Definition sample_bft_t : TestBft :=
  Bft.new (Storage.mk_storage 0 8 0 50 ∅ (lru_new 80) ∅ ∅ sample_stored).
Definition sample_tx_subdag : gmap Z (list (BatchCertificate (N := TestNetwork))) := {[7 := [certificate7]]}.
Definition sample_collected : Bft.collected (N := TestNetwork) :=
  unwrap_or (Bft.mk_collected [] ∅ ∅)
    (Bft.collect_transmissions empty_ledger sample_tx_subdag sample_bft_t).1.

Lemma collect_no_duplicates_witness :
  (Bft.col_transmissions sample_collected).*1 = [sample_tid] /\
  NoDup (omap tid_transaction (Bft.col_transmissions sample_collected).*1).
Proof.
  split; [vm_refl|].
  assert (Bft.collect_transmissions empty_ledger sample_tx_subdag sample_bft_t = (Ok sample_collected,
    (Bft.collect_transmissions empty_ledger sample_tx_subdag sample_bft_t).2)) as H by vm_refl.
  exact (proj1 (proj2 (BftProps.collect_no_duplicates empty_ledger sample_tx_subdag sample_bft_t
    (Bft.collect_transmissions empty_ledger sample_tx_subdag sample_bft_t).2 sample_collected H))).
Defined.

Lemma commit_rule_witness :
  Bft.blocks (Bft.add_new_certificate empty_ledger sample_consensus (sample_cert 8) sample_bft8).2
    <> Bft.blocks sample_bft8 /\
  Dag.last_committed_round (Bft.dag sample_bft8) < saturating_sub (round (sample_cert 8)) 1.
Proof.
  assert (Bft.blocks (Bft.add_new_certificate empty_ledger sample_consensus (sample_cert 8) sample_bft8).2
    <> Bft.blocks sample_bft8) as H.
  { intros E. apply (f_equal length) in E. by vm_compute in E. }
  split; [exact H|].
  exact (proj1 (proj2 (BftProps.commit_rule empty_ledger sample_consensus (sample_cert 8) sample_bft8 H))).
Defined.
