(* ===== verification/Locators.v ===== *)
(** * Block locators

    [BlockLocators<N>] (node/sync/locators/src/block_locators.rs): the heights
    and hashes a node advertises to its peers, the checks on locators received
    from a peer, their byte encoding, and [BlockSync::get_block_locators]
    (node/sync/src/block_sync.rs), which builds the locators of a ledger. *)

From S2P Require Import Prelude Bytes Network.

Definition NUM_RECENT_BLOCKS : Z := 100.
Definition RECENT_INTERVAL : Z := 1.
Definition CHECKPOINT_INTERVAL : Z := 10000.
Definition MAX_CHECKPOINTS : Z := u32_max / CHECKPOINT_INTERVAL.

(** [has_duplicates] (snarkVM/utilities/src/iterator.rs), with the set of the
    elements seen so far. *)
Fixpoint has_duplicates `{Countable A} (uniq : gset A) (l : list A) : bool :=
  match l with
  | [] => false
  | x :: l => if decide (x ∈ uniq) then true else has_duplicates ({[x]} ∪ uniq) l
  end.

Lemma has_duplicates_false `{Countable A} (l : list A) (uniq : gset A) :
  has_duplicates uniq l = false <-> NoDup l /\ forall x, x ∈ l -> x ∉ uniq.
Proof.
  revert uniq. induction l as [|x l IH]; intros uniq; cbn.
  - split; [|done]. intros _. split; [constructor|set_solver].
  - rewrite NoDup_cons. case_decide as Hx.
    + split; [done|]. intros [_ Hd]. exfalso. by apply (Hd x ltac:(left)).
    + rewrite IH. set_solver.
Qed.

Module Locators.
Section Locators.
Context `{N : Network}.

Record BlockLocators := mk_locators {
  recents : list (Z * BlockHash);
  checkpoints : list (Z * BlockHash);
}.

(** [BlockLocators::new_genesis]. *)
Definition new_genesis (genesis_hash : BlockHash) : BlockLocators :=
  mk_locators [(0, genesis_hash)] [(0, genesis_hash)].

(** [IntoIterator for BlockLocators]: the recents overwrite the checkpoints. *)
Definition into_iter (l : BlockLocators) : list (Z * BlockHash) :=
  btree_iter (foldl (fun m p => <[p.1 := p.2]> m) (∅ : gmap Z BlockHash) (checkpoints l ++ recents l)).

(** [BlockLocators::latest_locator_height]. *)
Definition latest_locator_height (l : BlockLocators) : Z := default 0 (last (recents l).*1).

(** [BlockLocators::get_hash]. *)
Definition get_hash (l : BlockLocators) (height : Z) : option BlockHash :=
  match imap_get height (recents l) with
  | Some h => Some h
  | None => imap_get height (checkpoints l)
  end.

(** The loop of [check_recent_blocks], at position [i] of [n] recents. *)
Fixpoint recents_loop (n i last_height : Z) (heights : list Z) : result Z :=
  match heights with
  | [] => Ok last_height
  | current_height :: heights =>
      _ ← ensure (negb (bool_decide (i = 0 /\ n < NUM_RECENT_BLOCKS /\ 0 < current_height)))
            "Ledgers under {NUM_RECENT_BLOCKS} blocks must have the first recent block at height 0";
      _ ← ensure (negb (bool_decide (0 < i /\ current_height <= last_height)))
            "Recent blocks must increment in height";
      _ ← ensure (negb (bool_decide (0 < i /\ current_height - last_height <> RECENT_INTERVAL)))
            "Recent blocks must increment by {RECENT_INTERVAL}";
      recents_loop n (i + 1) current_height heights
  end.

(** [BlockLocators::check_recent_blocks]. *)
Definition check_recent_blocks (rs : list (Z * BlockHash)) : result Z :=
  _ ← ensure (negb (bool_decide (rs = []))) "There must be at least 1 recent block";
  _ ← ensure (negb (bool_decide (NUM_RECENT_BLOCKS < len rs)))
        "There can be at most {NUM_RECENT_BLOCKS} blocks in the map";
  last_height ← recents_loop (len rs) 0 0 rs.*1;
  _ ← ensure (negb (bool_decide (NUM_RECENT_BLOCKS <= last_height /\ len rs <> NUM_RECENT_BLOCKS)))
        "Number of recent blocks must match {NUM_RECENT_BLOCKS}";
  _ ← ensure (negb (has_duplicates ∅ rs.*2)) "Recent block hashes must be unique";
  Ok last_height.

(** The loop of [check_block_checkpoints], at position [i]. *)
Fixpoint checkpoints_loop (i last_height : Z) (heights : list Z) : result Z :=
  match heights with
  | [] => Ok last_height
  | current_height :: heights =>
      _ ← ensure (negb (bool_decide (i = 0 /\ current_height <> 0)))
            "First block checkpoint must be at height 0";
      _ ← ensure (negb (bool_decide (0 < i /\ current_height <= last_height)))
            "Block checkpoints must increment in height";
      _ ← ensure (negb (bool_decide (0 < i /\ current_height - last_height <> CHECKPOINT_INTERVAL)))
            "Block checkpoints must increment by {CHECKPOINT_INTERVAL}";
      checkpoints_loop (i + 1) current_height heights
  end.

(** [BlockLocators::check_block_checkpoints]. *)
Definition check_block_checkpoints (cs : list (Z * BlockHash)) : result Z :=
  _ ← ensure (negb (bool_decide (cs = []))) "There must be at least 1 block checkpoint";
  last_height ← checkpoints_loop 0 0 cs.*1;
  _ ← ensure (negb (has_duplicates ∅ cs.*2)) "Block checkpoints must be unique";
  Ok last_height.

(** The end of [check_block_locators]: the two maps agree where they overlap. *)
Definition check_common (rs cs : list (Z * BlockHash)) (last_recent_height : Z) : result unit :=
  let distance := last_recent_height mod CHECKPOINT_INTERVAL in
  if decide (distance < NUM_RECENT_BLOCKS) then
    let common := last_recent_height - distance in
    a ← unwrap "recents.get(&common).unwrap()" (imap_get common rs);
    b ← unwrap "checkpoints.get(&common).unwrap()" (imap_get common cs);
    ensure (bool_decide (a = b)) "Recent block hash and checkpoint hash mismatch at height {common}"
  else Ok tt.

(** [BlockLocators::check_block_locators]. *)
Definition check_block_locators (rs cs : list (Z * BlockHash)) : result unit :=
  last_recent_height ← check_recent_blocks rs;
  last_checkpoint_height ← check_block_checkpoints cs;
  _ ← ensure (bool_decide (last_checkpoint_height <= last_recent_height
                 < u32_saturating_add last_checkpoint_height CHECKPOINT_INTERVAL))
        "Last checkpoint height is not the largest multiple of {CHECKPOINT_INTERVAL}";
  check_common rs cs last_recent_height.

(** [BlockLocators::ensure_is_valid] and [BlockLocators::is_valid]. *)
Definition ensure_is_valid (l : BlockLocators) : result unit :=
  check_block_locators (recents l) (checkpoints l).
Definition is_valid (l : BlockLocators) : bool := is_ok (ensure_is_valid l).

(** [BlockLocators::new]. *)
Definition new (rs cs : list (Z * BlockHash)) : result BlockLocators :=
  let locators := mk_locators rs cs in
  _ ← ensure_is_valid locators;
  Ok locators.

(** One of the two loops of [check_consistent_block_locators]. *)
Definition check_overlap (msg : string) (old_map new_map : list (Z * BlockHash)) : result unit :=
  foldM (fun _ p =>
           match imap_get p.1 old_map with
           | Some h => ensure (bool_decide (h = p.2)) msg
           | None => Ok tt
           end) tt new_map.

(** [BlockLocators::check_consistent_block_locators]. *)
Definition check_consistent_block_locators (old_locators new_locators : BlockLocators) : result unit :=
  _ ← check_overlap "Recent block hash mismatch at height {height}"
        (recents old_locators) (recents new_locators);
  check_overlap "Block checkpoint hash mismatch for height {height}"
    (checkpoints old_locators) (checkpoints new_locators).

(** [BlockLocators::ensure_is_consistent_with] and [BlockLocators::is_consistent_with]. *)
Definition ensure_is_consistent_with (self other : BlockLocators) : result unit :=
  check_consistent_block_locators self other.
Definition is_consistent_with (self other : BlockLocators) : bool :=
  is_ok (ensure_is_consistent_with self other).

(** ** Encoding *)

Definition write_locator (p : Z * BlockHash) : list Z := write_u32 p.1 ++ write_block_hash p.2.

(** [ToBytes for BlockLocators]. *)
Definition write_locators (l : BlockLocators) : result (list Z) :=
  n ← try_u32 (len (recents l));
  m ← try_u32 (len (checkpoints l));
  Ok (write_u32 n ++ (recents l ≫= write_locator) ++ write_u32 m ++ (checkpoints l ≫= write_locator)).

Definition read_locator : reader (Z * BlockHash) :=
  read height ⇐ read_u32; read hash ⇐ read_block_hash; rret (height, hash).

(** [FromBytes for BlockLocators]. *)
Definition read_locators : reader BlockLocators :=
  read num_recents ⇐ read_u32;
  if bool_decide (NUM_RECENT_BLOCKS < num_recents)
  then rfail "Number of recent blocks is greater than the maximum ({NUM_RECENT_BLOCKS})" else
  read rs ⇐ read_many (Z.to_nat num_recents) read_locator;
  read num_checkpoints ⇐ read_u32;
  if bool_decide (MAX_CHECKPOINTS < num_checkpoints)
  then rfail "Number of checkpoints is greater than the maximum ({MAX_CHECKPOINTS})" else
  read cs ⇐ read_many (Z.to_nat num_checkpoints) read_locator;
  rlift (new (imap_of_list rs) (imap_of_list cs)).

(** ** The locators of a ledger *)

(** [for height in heights { map.insert(height, self.ledger.get_block_hash(height)?) }]. *)
Definition insert_hashes (get_block_hash : Z -> result BlockHash) (heights : list Z)
    : result (list (Z * BlockHash)) :=
  foldM (fun m height => h ← get_block_hash height; Ok (imap_insert height h m)) [] heights.

(** The heights of the two loops: [a..=b], and [(0..=b).step_by(CHECKPOINT_INTERVAL)]. *)
Definition heights_between (a b : Z) : list Z := seqZ a (b - a + 1).
Definition checkpoint_heights (b : Z) : list Z :=
  (fun k => k * CHECKPOINT_INTERVAL) <$> seqZ 0 (b / CHECKPOINT_INTERVAL + 1).

(** [BlockSync::get_block_locators], for a ledger with the given height and
    block hashes. *)
Definition get_block_locators (latest_height : Z) (get_block_hash : Z -> result BlockHash)
    : result BlockLocators :=
  rs ← insert_hashes get_block_hash
         (heights_between (saturating_sub latest_height (NUM_RECENT_BLOCKS - 1)) latest_height);
  cs ← insert_hashes get_block_hash (checkpoint_heights latest_height);
  new rs cs.

(** ** Well-formed locators *)

(** The last [NUM_RECENT_BLOCKS] heights up to [last], or all of them. *)
Definition recent_heights (last : Z) : list Z :=
  heights_between (Z.max 0 (last - (NUM_RECENT_BLOCKS - 1))) last.

(** Locators whose last recent block is at height [last], as their
    documentation describes them. *)
Record locators_at (last : Z) (l : BlockLocators) : Prop := {
  la_last : 0 <= last;
  la_recents : (recents l).*1 = recent_heights last;
  la_checkpoints : (checkpoints l).*1 = checkpoint_heights last;
  la_recent_hashes : NoDup (recents l).*2;
  la_checkpoint_hashes : NoDup (checkpoints l).*2;
  la_agree h a b : imap_get h (recents l) = Some a -> imap_get h (checkpoints l) = Some b -> a = b;
}.

(** The heights fit a [u32], as the Rust types say. *)
Definition locators_typed (l : BlockLocators) : Prop :=
  Forall is_u32 (recents l).*1 /\ Forall is_u32 (checkpoints l).*1.

Lemma seqZ_cons_1 a n : 0 <= n -> seqZ a (n + 1) = a :: seqZ (a + 1) n.
Proof. intros. rewrite seqZ_cons by lia. f_equal; f_equal; lia. Qed.

(** From the second entry on, the loops accept exactly arithmetic progressions. *)
Lemma recents_loop_tail n i last hs r :
  0 < i ->
  (recents_loop n i last hs = Ok r <-> hs = seqZ (last + 1) (len hs) /\ r = last + len hs).
Proof.
  revert i last. induction hs as [|h hs IH]; intros i last Hi.
  - cbn. unfold len. cbn. rewrite Z.add_0_r. naive_solver.
  - cbn [recents_loop]. rewrite len_cons. replace (1 + len hs) with (len hs + 1) by lia.
    rewrite seqZ_cons_1 by apply len_nonneg. unfold RECENT_INTERVAL. split.
    + intros H. simp_ok. rewrite !negb_true_iff, !bool_decide_eq_false in *.
      apply IH in H as [Hhs ->]; [|lia]. assert (h = last + 1) as -> by lia. split; [by f_equal|lia].
    + intros [[= -> Hhs] ->]. rewrite !ensure_bind by (apply negb_true_iff, bool_decide_eq_false; lia).
      apply IH; [lia|]. split; [done|lia].
Qed.

Lemma checkpoints_loop_tail i last hs r :
  0 < i ->
  (checkpoints_loop i last hs = Ok r <->
   hs = (fun k => last + k * CHECKPOINT_INTERVAL) <$> seqZ 1 (len hs) /\
   r = last + len hs * CHECKPOINT_INTERVAL).
Proof.
  revert i last. induction hs as [|h hs IH]; intros i last Hi.
  - cbn. unfold len. cbn. rewrite Z.add_0_r. naive_solver.
  - cbn [checkpoints_loop]. rewrite len_cons. replace (1 + len hs) with (len hs + 1) by lia.
    rewrite seqZ_cons_1 by apply len_nonneg. cbn [fmap list_fmap].
    assert ((fun k => last + k * CHECKPOINT_INTERVAL) <$> seqZ (1 + 1) (len hs)
            = (fun k => last + 1 * CHECKPOINT_INTERVAL + k * CHECKPOINT_INTERVAL) <$> seqZ 1 (len hs)) as ->.
    { rewrite <-(fmap_add_seqZ 1 1), <-list_fmap_compose. apply list_fmap_ext. intros. cbn. lia. }
    split.
    + intros H. simp_ok. rewrite !negb_true_iff, !bool_decide_eq_false in *.
      apply IH in H as [Hhs ->]; [|lia]. assert (h = last + 1 * CHECKPOINT_INTERVAL) as -> by lia.
      split; [by f_equal|lia].
    + unfold CHECKPOINT_INTERVAL in *. intros [[= -> Hhs] ->].
      rewrite !ensure_bind by (apply negb_true_iff, bool_decide_eq_false; lia).
      apply IH; [lia|]. split; [done|lia].
Qed.
Lemma ensure_neg_Ok (P : Prop) `{!Decision P} msg u :
  ensure (negb (bool_decide P)) msg = Ok u <-> ~ P.
Proof. rewrite ensure_Ok, negb_true_iff. apply bool_decide_eq_false. Qed.

Lemma unique_hashes_Ok (hs : list BlockHash) msg u :
  ensure (negb (has_duplicates ∅ hs)) msg = Ok u <-> NoDup hs.
Proof. rewrite ensure_Ok, negb_true_iff, has_duplicates_false. set_solver. Qed.

Lemma len_fmap {A B} (f : A -> B) (l : list A) : len (f <$> l) = len l.
Proof. unfold len. by rewrite length_fmap. Qed.

Lemma len_seqZ a n : 0 <= n -> len (seqZ a n) = n.
Proof. intros. unfold len. rewrite length_seqZ. lia. Qed.

(** [check_recent_blocks] accepts exactly the heights of [recent_heights]. *)
Lemma check_recent_blocks_Ok rs last :
  Forall is_u32 rs.*1 ->
  (check_recent_blocks rs = Ok last <->
   0 <= last /\ rs.*1 = recent_heights last /\ NoDup rs.*2).
Proof.
  intros Hty. unfold check_recent_blocks, recent_heights, heights_between, NUM_RECENT_BLOCKS.
  rewrite <-(len_fmap fst rs). split.
  - intros H. simp_ok.
    repeat match goal with
    | H : negb (bool_decide _) = true |- _ => apply negb_true_iff, bool_decide_eq_false in H
    end.
    match goal with H : negb (has_duplicates _ _) = true |- _ =>
      apply negb_true_iff, has_duplicates_false in H as [Hnd _] end.
    destruct rs as [|[h b] rs]; [done|]. cbn [fmap list_fmap fst recents_loop] in *.
    rewrite len_cons in *. simp_ok.
    repeat match goal with
    | H : negb (bool_decide _) = true |- _ => apply negb_true_iff, bool_decide_eq_false in H
    end.
    match goal with H : recents_loop _ _ _ _ = _ |- _ => apply recents_loop_tail in H as [Hhs ->]; [|lia] end.
    apply Forall_cons in Hty as [Hh _]. unfold NUM_RECENT_BLOCKS in *.
    pose proof (len_nonneg rs.*1). assert (0 <= h) by mlia. split_and!; [lia| |done].
    rewrite Hhs at 1. rewrite <-seqZ_cons_1 by done. f_equal; lia.
  - intros (Hlast & Hks & Hnd). pose proof (f_equal len Hks) as Hlen. rewrite len_seqZ in Hlen by lia.
    assert (exists h hs, rs.*1 = h :: hs /\ hs = seqZ (h + 1) (len hs) /\
              h = Z.max 0 (last - (100 - 1)) /\ last = h + len hs) as (h & hs & Heq & Htail & Hh & Hl).
    { rewrite Hks, seqZ_cons_1 by lia. eexists _, _. split; [done|].
      rewrite len_seqZ by lia. split_and!; [done|done|lia]. }
    rewrite ensure_bind.
    2: { apply negb_true_iff, bool_decide_eq_false. intros ->. done. }
    rewrite ensure_bind by (apply negb_true_iff, bool_decide_eq_false; lia).
    rewrite Heq. cbn [recents_loop]. rewrite Heq, len_cons in Hlen. unfold NUM_RECENT_BLOCKS.
    rewrite !ensure_bind by (apply negb_true_iff, bool_decide_eq_false; rewrite ?len_cons; lia).
    rewrite (proj2 (recents_loop_tail _ (0 + 1) h hs last ltac:(lia))) by done. cbn [mbind result_bind].
    rewrite ensure_bind by (apply negb_true_iff, bool_decide_eq_false; rewrite ?len_cons; lia).
    rewrite ensure_bind; [done|]. apply negb_true_iff, has_duplicates_false. set_solver.
Qed.

Lemma check_block_checkpoints_Ok cs last :
  check_block_checkpoints cs = Ok last <->
  exists k, 0 <= k /\ last = k * CHECKPOINT_INTERVAL /\
    cs.*1 = (fun k => k * CHECKPOINT_INTERVAL) <$> seqZ 0 (k + 1) /\ NoDup cs.*2.
Proof.
  unfold check_block_checkpoints. split.
  - intros H. simp_ok.
    repeat match goal with
    | H : negb (bool_decide _) = true |- _ => apply negb_true_iff, bool_decide_eq_false in H
    end.
    match goal with H : negb (has_duplicates _ _) = true |- _ =>
      apply negb_true_iff, has_duplicates_false in H as [Hnd _] end.
    destruct cs as [|[h b] cs]; [done|]. cbn [fmap list_fmap fst checkpoints_loop] in *. simp_ok.
    repeat match goal with
    | H : negb (bool_decide _) = true |- _ => apply negb_true_iff, bool_decide_eq_false in H
    end.
    match goal with H : checkpoints_loop _ _ _ = _ |- _ =>
      apply checkpoints_loop_tail in H as [Hhs ->]; [|lia] end.
    assert (h = 0) as -> by lia. exists (len cs.*1). pose proof (len_nonneg cs.*1).
    split_and!; [done|lia| |done]. rewrite Hhs at 1. rewrite seqZ_cons_1 by done. done.
  - intros (k & Hk & -> & Hks & Hnd). rewrite seqZ_cons_1 in Hks by done. cbn [fmap list_fmap] in Hks.
    rewrite ensure_bind.
    2: { apply negb_true_iff, bool_decide_eq_false. intros ->. done. }
    rewrite Hks. cbn [checkpoints_loop].
    rewrite !ensure_bind by (apply negb_true_iff, bool_decide_eq_false; lia).
    rewrite (proj2 (checkpoints_loop_tail (0 + 1) (0 * CHECKPOINT_INTERVAL) _
      (k * CHECKPOINT_INTERVAL) ltac:(lia))).
    + cbn [mbind result_bind]. rewrite ensure_bind; [done|].
      apply negb_true_iff, has_duplicates_false. set_solver.
    + rewrite len_fmap, len_seqZ by done. split; [done|lia].
Qed.

Lemma elem_of_recent_heights last h :
  0 <= last -> (h ∈ recent_heights last <-> 0 <= h <= last /\ last - h < NUM_RECENT_BLOCKS).
Proof.
  intros. unfold recent_heights, heights_between. rewrite elem_of_seqZ.
  unfold NUM_RECENT_BLOCKS. lia.
Qed.

Lemma elem_of_checkpoint_heights last h :
  0 <= last -> (h ∈ checkpoint_heights last <-> 0 <= h <= last /\ h mod CHECKPOINT_INTERVAL = 0).
Proof.
  intros Hl. unfold checkpoint_heights. rewrite list_elem_of_fmap. unfold CHECKPOINT_INTERVAL. split.
  - intros (k & -> & Hk%elem_of_seqZ). rewrite Z.mod_mul by lia. split; [|done].
    Z.to_euclidean_division_equations. lia.
  - intros [Hh Hm]. exists (h / 10000). rewrite elem_of_seqZ. Z.to_euclidean_division_equations. lia.
Qed.

(** Two well-formed maps overlap at most at the last checkpoint. *)
Lemma overlap_height last h :
  0 <= last -> h ∈ recent_heights last -> h ∈ checkpoint_heights last ->
  last mod CHECKPOINT_INTERVAL < NUM_RECENT_BLOCKS /\ h = last - last mod CHECKPOINT_INTERVAL.
Proof.
  intros Hl Hr%elem_of_recent_heights Hc%elem_of_checkpoint_heights; [|done..].
  unfold CHECKPOINT_INTERVAL, NUM_RECENT_BLOCKS in *. Z.to_euclidean_division_equations. lia.
Qed.

Lemma common_height last :
  0 <= last -> last mod CHECKPOINT_INTERVAL < NUM_RECENT_BLOCKS ->
  last - last mod CHECKPOINT_INTERVAL ∈ recent_heights last /\
  last - last mod CHECKPOINT_INTERVAL ∈ checkpoint_heights last.
Proof.
  intros Hl Hd. rewrite elem_of_recent_heights, elem_of_checkpoint_heights by done.
  unfold CHECKPOINT_INTERVAL, NUM_RECENT_BLOCKS in *. Z.to_euclidean_division_equations. lia.
Qed.

Lemma imap_get_key {V} (l : list (Z * V)) k : is_Some (imap_get k l) <-> k ∈ l.*1.
Proof.
  rewrite <-not_eq_None_Some, imap_get_None. destruct (decide (k ∈ l.*1)); tauto.
Qed.

(** [r] returns a value or an error. *)
Definition returns {A} (r : result A) : Prop := match r with Ok _ | Err _ => True | _ => False end.

Lemma returns_bind {A B} (m : result A) (f : A -> result B) :
  returns m -> (forall a, returns (f a)) -> returns (m ≫= f).
Proof. destruct m; cbn; auto. Qed.

Lemma returns_ensure b msg : returns (ensure b msg).
Proof. by destruct b. Qed.

Lemma recents_loop_returns n i last hs : returns (recents_loop n i last hs).
Proof.
  revert i last. induction hs as [|h hs IH]; intros i last; [done|]. cbn [recents_loop].
  repeat (apply returns_bind; [apply returns_ensure|intros _]). apply IH.
Qed.

Lemma checkpoints_loop_returns i last hs : returns (checkpoints_loop i last hs).
Proof.
  revert i last. induction hs as [|h hs IH]; intros i last; [done|]. cbn [checkpoints_loop].
  repeat (apply returns_bind; [apply returns_ensure|intros _]). apply IH.
Qed.

Lemma check_recent_blocks_returns rs : returns (check_recent_blocks rs).
Proof.
  unfold check_recent_blocks. do 2 (apply returns_bind; [apply returns_ensure|intros _]).
  apply returns_bind; [apply recents_loop_returns|intros last].
  by do 2 (apply returns_bind; [apply returns_ensure|intros _]).
Qed.

Lemma check_block_checkpoints_returns cs : returns (check_block_checkpoints cs).
Proof.
  unfold check_block_checkpoints. apply returns_bind; [apply returns_ensure|intros _].
  apply returns_bind; [apply checkpoints_loop_returns|intros last].
  by apply returns_bind; [apply returns_ensure|intros _].
Qed.

Lemma recent_heights_inj a b : 0 <= a -> 0 <= b -> recent_heights a = recent_heights b -> a = b.
Proof.
  intros Ha Hb Heq. assert (a ∈ recent_heights b) as H1.
  { rewrite <-Heq, elem_of_recent_heights by done. unfold NUM_RECENT_BLOCKS. lia. }
  assert (b ∈ recent_heights a) as H2.
  { rewrite Heq, elem_of_recent_heights by done. unfold NUM_RECENT_BLOCKS. lia. }
  rewrite elem_of_recent_heights in H1, H2 by done. lia.
Qed.

(** The range check: the last checkpoint is the one before the last recent block. *)
Lemma checkpoint_range last k :
  0 <= last -> 0 <= k ->
  (k * CHECKPOINT_INTERVAL <= last < u32_saturating_add (k * CHECKPOINT_INTERVAL) CHECKPOINT_INTERVAL
   <-> k = last / CHECKPOINT_INTERVAL /\ last < u32_max).
Proof.
  intros Hl Hk. unfold u32_saturating_add, CHECKPOINT_INTERVAL, u32_max.
  Z.to_euclidean_division_equations. lia.
Qed.

Lemma checkpoint_heights_inj last k :
  0 <= last -> 0 <= k ->
  (fun k => k * CHECKPOINT_INTERVAL) <$> seqZ 0 (k + 1) = checkpoint_heights last ->
  k = last / CHECKPOINT_INTERVAL.
Proof.
  intros Hl Hk Heq. apply (f_equal len) in Heq. unfold checkpoint_heights in Heq.
  pose proof (Z.div_pos last CHECKPOINT_INTERVAL Hl ltac:(done)).
  rewrite !len_fmap, !len_seqZ in Heq by lia. lia.
Qed.

(** Where both maps have an entry for a height, the hashes are the same. *)
Definition maps_agree (rs cs : list (Z * BlockHash)) : Prop :=
  forall h a b, imap_get h rs = Some a -> imap_get h cs = Some b -> a = b.

(** Comparing at one height is enough, and its two [unwrap]s cannot fail. *)
Lemma check_common_cases rs cs last :
  0 <= last -> rs.*1 = recent_heights last -> cs.*1 = checkpoint_heights last ->
  (check_common rs cs last = Ok tt /\ maps_agree rs cs) \/
  ((exists e, check_common rs cs last = Err e) /\ ~ maps_agree rs cs).
Proof.
  intros Hl Hrs Hcs.
  assert (forall h a b, imap_get h rs = Some a -> imap_get h cs = Some b ->
    last mod CHECKPOINT_INTERVAL < NUM_RECENT_BLOCKS /\ h = last - last mod CHECKPOINT_INTERVAL) as Hov.
  { intros h a b Ha Hb. apply overlap_height; [done|..].
    - rewrite <-Hrs, <-imap_get_key. by eexists.
    - rewrite <-Hcs, <-imap_get_key. by eexists. }
  unfold check_common. case_decide as Hd.
  - destruct (common_height last Hl Hd) as [H1 H2].
    rewrite <-Hrs, <-imap_get_key in H1. rewrite <-Hcs, <-imap_get_key in H2.
    destruct H1 as [x Hx], H2 as [y Hy].
    rewrite Hx, Hy. cbn [unwrap mbind result_bind]. case_bool_decide as Hxy; cbn [ensure].
    + left. split; [done|]. intros h a b Ha Hb. destruct (Hov h a b Ha Hb) as [_ ->]. congruence.
    + right. split; [by eexists|]. intros Hag. by eapply Hxy, Hag.
  - left. split; [done|]. intros h a b Ha Hb. by destruct (Hov h a b Ha Hb).
Qed.

(** The check decides well-formedness and does not panic. *)
Lemma ensure_is_valid_cases l :
  locators_typed l ->
  (ensure_is_valid l = Ok tt /\ exists last, last < u32_max /\ locators_at last l) \/
  ((exists e, ensure_is_valid l = Err e) /\ ~ exists last, last < u32_max /\ locators_at last l).
Proof.
  intros [Hr Hc]. unfold ensure_is_valid, check_block_locators.
  pose proof (check_recent_blocks_returns (recents l)) as Hret.
  destruct (check_recent_blocks (recents l)) as [last|e|e|] eqn:Er; [clear Hret| |done..].
  2: { right. split; [by eexists|]. intros (last & _ & [? ? _ ? _ _]).
       by rewrite (proj2 (check_recent_blocks_Ok _ last Hr)) in Er. }
  apply (check_recent_blocks_Ok _ _ Hr) in Er as (Hlast & Hrs & Hrh). cbn [mbind result_bind].
  assert (forall last', locators_at last' l -> last' = last) as Huniq.
  { intros last' [? Hrs' _ _ _ _]. rewrite Hrs in Hrs'. symmetry. by apply recent_heights_inj. }
  pose proof (check_block_checkpoints_returns (checkpoints l)) as Hret.
  destruct (check_block_checkpoints (checkpoints l)) as [lc|e|e|] eqn:Ec; [clear Hret| |done..].
  2: { right. split; [by eexists|]. intros (last' & _ & [? _ ? _ ? _]).
       rewrite (proj2 (check_block_checkpoints_Ok _ (last' / CHECKPOINT_INTERVAL * CHECKPOINT_INTERVAL))) in Ec;
         [done|]. eexists. split_and!; [|done|done|done]. by apply Z.div_pos. }
  apply check_block_checkpoints_Ok in Ec as (k & Hk & -> & Hcs & Hch). cbn [mbind result_bind].
  case_bool_decide as Hrange; cbn [ensure mbind result_bind]; rewrite checkpoint_range in Hrange by done.
  2: { right. split; [by eexists|]. intros (last' & Hmax & Hat). pose proof (Huniq _ Hat) as ->.
       apply Hrange. split; [|done]. apply checkpoint_heights_inj; [done..|].
       by rewrite <-Hcs, (la_checkpoints _ _ Hat). }
  destruct Hrange as [-> Hmax].
  destruct (check_common_cases (recents l) (checkpoints l) last) as [[-> Hag]|[He Hag]]; [done..|left|right].
  - split; [done|]. by exists last.
  - split; [done|]. intros (last' & _ & Hat). apply Hag. intros h a b. apply (la_agree _ _ Hat).
Qed.

(** [ensure_is_valid] decides the documented form of block locators.  On
    any received maps it returns, without panicking, and it accepts exactly
    when for some last height below [u32::MAX] the recents are the last 100
    heights (or all of them) in order, the checkpoints all the multiples of
    10,000 up to it in order, the hashes of each map are distinct, and the maps
    agree wherever they overlap. *)
Theorem locators_valid_iff (l : BlockLocators) :
  locators_typed l ->
  (ensure_is_valid l = Ok tt <-> exists last, last < u32_max /\ locators_at last l) /\
  (ensure_is_valid l = Ok tt \/ exists e, ensure_is_valid l = Err e).
Proof.
  intros Hty. destruct (ensure_is_valid_cases l Hty) as [[-> ?]|[[e ->] ?]].
  - split; [tauto|by left].
  - split; [|by right; eexists]. split; [done|tauto].
Qed.

Lemma check_overlap_Ok msg old_map new_map :
  check_overlap msg old_map new_map = Ok tt <->
  forall h a b, imap_get h old_map = Some a -> (h, b) ∈ new_map -> a = b.
Proof.
  unfold check_overlap. induction new_map as [|[h b] m IH]; cbn.
  - split; [|done]. intros _ h a b _. set_solver.
  - destruct (imap_get h old_map) as [a|] eqn:Ha; cbn.
    + case_bool_decide as Hab; cbn.
      * subst b. rewrite IH. clear IH. split; [|set_solver]. intros Hm k x y Hx [?|?]%elem_of_cons; naive_solver.
      * split; [done|]. intros Hm. exfalso. apply Hab, (Hm h); [done|left].
    + rewrite IH. clear IH. split; [|set_solver]. intros Hm k x y Hx [?|?]%elem_of_cons; naive_solver.
Qed.

Lemma consistent_Ok l1 l2 :
  ensure_is_consistent_with l1 l2 = Ok tt <->
  (forall h a b, imap_get h (recents l1) = Some a -> (h, b) ∈ recents l2 -> a = b) /\
  (forall h a b, imap_get h (checkpoints l1) = Some a -> (h, b) ∈ checkpoints l2 -> a = b).
Proof.
  unfold ensure_is_consistent_with, check_consistent_block_locators.
  rewrite <-!check_overlap_Ok, bind_Ok. split; [intros ([] & ? & ?)|]; eauto.
Qed.

(** *** Locators of a chain *)

Lemma insert_hashes_foldM (get : Z -> result BlockHash) (f : Z -> BlockHash) hs m :
  NoDup (m.*1 ++ hs) -> (forall h, h ∈ hs -> get h = Ok (f h)) ->
  foldM (fun m height => h ← get height; Ok (imap_insert height h m)) m hs
  = Ok (m ++ ((fun h => (h, f h)) <$> hs)).
Proof.
  revert m. induction hs as [|h hs IH]; intros m Hnd Hget; cbn; [by rewrite app_nil_r|].
  rewrite Hget by left. cbn. rewrite imap_insert_new.
  - rewrite IH.
    + by rewrite <-app_assoc.
    + by rewrite fmap_app, <-app_assoc.
    + intros. apply Hget. by right.
  - apply NoDup_app in Hnd as (_ & Hd & _). intros Hh. eapply Hd; [done|left].
Qed.

Lemma insert_hashes_Ok (get : Z -> result BlockHash) (f : Z -> BlockHash) hs :
  NoDup hs -> (forall h, h ∈ hs -> get h = Ok (f h)) ->
  insert_hashes get hs = Ok ((fun h => (h, f h)) <$> hs).
Proof. intros. by apply (insert_hashes_foldM get f hs []). Qed.

Lemma NoDup_recent_heights last : NoDup (recent_heights last).
Proof. apply NoDup_seqZ. Qed.
Lemma NoDup_checkpoint_heights last : NoDup (checkpoint_heights last).
Proof.
  apply NoDup_fmap_2; [|apply NoDup_seqZ]. intros a b. unfold CHECKPOINT_INTERVAL. lia.
Qed.

(** The locators of the chain with hashes [f], up to height [last]. *)
Definition chain_locators (f : Z -> BlockHash) (last : Z) : BlockLocators :=
  mk_locators ((fun h => (h, f h)) <$> recent_heights last)
    ((fun h => (h, f h)) <$> checkpoint_heights last).

(** Different heights up to [last] have different block hashes. *)
Definition distinct_hashes (f : Z -> BlockHash) (last : Z) : Prop :=
  forall h k, 0 <= h <= last -> 0 <= k <= last -> f h = f k -> h = k.

Lemma keyed_fst (f : Z -> BlockHash) hs : ((fun h => (h, f h)) <$> hs).*1 = hs.
Proof. rewrite <-list_fmap_compose. by apply list_fmap_id. Qed.

Lemma keyed_NoDup (f : Z -> BlockHash) last hs :
  distinct_hashes f last -> NoDup hs -> (forall h, h ∈ hs -> 0 <= h <= last) ->
  NoDup ((fun h => (h, f h)) <$> hs).*2.
Proof.
  intros Hf Hnd Hhs. rewrite <-list_fmap_compose. cbn. induction Hnd as [|h hs Hh Hnd IH]; [constructor|].
  cbn. constructor; [|apply IH; set_solver]. intros (k & Heq & Hk)%list_elem_of_fmap. apply Hh.
  cbn in Heq. rewrite (Hf h k) by (done || (apply Hhs; set_solver)). done.
Qed.

Lemma imap_get_keyed (f : Z -> BlockHash) hs h a :
  imap_get h ((fun h => (h, f h)) <$> hs) = Some a -> a = f h.
Proof. intros (k & [= -> ->] & _)%imap_get_elem%list_elem_of_fmap. done. Qed.

Lemma chain_locators_at f last :
  0 <= last -> distinct_hashes f last -> locators_at last (chain_locators f last).
Proof.
  intros Hl Hf. split; cbn; rewrite ?keyed_fst; try done.
  - eapply keyed_NoDup; [done|apply NoDup_recent_heights|]. by intros h [? _]%elem_of_recent_heights.
  - eapply keyed_NoDup; [done|apply NoDup_checkpoint_heights|].
    by intros h [? _]%elem_of_checkpoint_heights.
  - intros h a b ->%imap_get_keyed ->%imap_get_keyed. done.
Qed.

Lemma chain_locators_typed f last :
  0 <= last <= u32_max -> locators_typed (chain_locators f last).
Proof.
  intros Hl. split; cbn; rewrite keyed_fst; apply Forall_forall; intros h Hh.
  - apply elem_of_recent_heights in Hh; mlia.
  - apply elem_of_checkpoint_heights in Hh; mlia.
Qed.

Lemma get_block_locators_Ok last get f :
  0 <= last < u32_max -> distinct_hashes f last -> (forall h, 0 <= h <= last -> get h = Ok (f h)) ->
  get_block_locators last get = Ok (chain_locators f last).
Proof.
  intros Hl Hf Hget. unfold get_block_locators.
  change (heights_between (saturating_sub last (NUM_RECENT_BLOCKS - 1)) last) with (recent_heights last).
  rewrite (insert_hashes_Ok get f (recent_heights last)); [|apply NoDup_recent_heights|].
  2: { intros h [? _]%elem_of_recent_heights; [auto|lia]. }
  cbn [mbind result_bind]. rewrite (insert_hashes_Ok get f); [|apply NoDup_checkpoint_heights|].
  2: { intros h [? _]%elem_of_checkpoint_heights; [auto|lia]. }
  cbn [mbind result_bind]. unfold new. change (mk_locators _ _) with (chain_locators f last).
  destruct (ensure_is_valid_cases (chain_locators f last)) as [[-> _]|[_ []]]; [|done|].
  - apply chain_locators_typed. lia.
  - exists last. split; [lia|]. apply chain_locators_at; [lia|done].
Qed.

(** Honest locators are accepted and consistent.  For a ledger below
    height [u32::MAX] whose blocks have distinct hashes, [get_block_locators]
    succeeds, its result passes the checks of the receiver and has the latest
    height, every hash it gives for a height is the one of the ledger's block
    there, and the locators of any two heights of the same chain are consistent
    with each other. *)
Theorem honest_locators (f : Z -> BlockHash) (get_block_hash : Z -> result BlockHash) (last last' : Z) :
  0 <= last < u32_max -> 0 <= last' <= last -> distinct_hashes f last ->
  (forall h, 0 <= h <= last -> get_block_hash h = Ok (f h)) ->
  exists l l', get_block_locators last get_block_hash = Ok l /\
    get_block_locators last' get_block_hash = Ok l' /\
    is_valid l = true /\ latest_locator_height l = last /\
    (forall h a, get_hash l h = Some a -> a = f h) /\
    is_consistent_with l l' = true /\ is_consistent_with l' l = true.
Proof.
  intros Hl Hl' Hf Hget. exists (chain_locators f last), (chain_locators f last').
  rewrite !(get_block_locators_Ok _ _ f); [|lia|by intros h k ??; apply Hf; lia|by intros; apply Hget; lia|done..].
  assert (forall a b, is_consistent_with (chain_locators f a) (chain_locators f b) = true) as Hcons.
  { intros a b. unfold is_consistent_with. rewrite (proj2 (consistent_Ok _ _)); [done|].
    split; intros h x y ->%imap_get_keyed (k & [= -> ->] & _)%list_elem_of_fmap; done. }
  split_and!; try done.
  - unfold is_valid. destruct (ensure_is_valid_cases (chain_locators f last)) as [[-> _]|[_ []]]; [|done|].
    + apply chain_locators_typed. lia.
    + exists last. split; [lia|]. apply chain_locators_at; [lia|done].
  - unfold latest_locator_height. cbn. rewrite keyed_fst. unfold recent_heights, heights_between.
    assert (0 <= last - Z.max 0 (last - (NUM_RECENT_BLOCKS - 1))) as Hd by (unfold NUM_RECENT_BLOCKS; lia).
    rewrite seqZ_app by lia. rewrite last_app, (seqZ_cons _ 1), (seqZ_nil _ (Z.pred 1)) by lia. cbn. lia.
  - intros h a. unfold get_hash, chain_locators. cbn. destruct (imap_get h _) as [b|] eqn:Hb.
    + intros [= ->]. by apply imap_get_keyed in Hb.
    + apply imap_get_keyed.
Qed.

(** *** Round trip *)

Section Codec.
Context {NL : NetworkLaws N}.

Lemma reads_locator p : is_u32 p.1 -> reads read_locator (write_locator p) p.
Proof.
  intros. destruct p as [h b]. eapply reads_bind; [by apply reads_u32|].
  eapply reads_bind_last; [apply reads_block_hash|]. apply reads_ret.
Qed.

Lemma reads_locator_list l :
  Forall is_u32 l.*1 -> reads (read_many (Z.to_nat (len l)) read_locator) (l ≫= write_locator) l.
Proof.
  intros Hl. unfold len. rewrite Nat2Z.id. apply reads_many. intros p Hp. apply reads_locator.
  rewrite Forall_forall in Hl. apply Hl, list_elem_of_fmap. eauto.
Qed.

(** Well-formed block locators survive their encoding, except near the
    end of the height range: a ledger at height 4,294,960,000 or above has one
    checkpoint more than [MAX_CHECKPOINTS], and the reader refuses what the
    writer wrote. *)
Theorem locators_round_trip (last : Z) (l : BlockLocators) (bs rest : list Z) :
  last < u32_max -> locators_at last l -> write_locators l = Ok bs ->
  read_locators (bs ++ rest) =
  if decide (last < MAX_CHECKPOINTS * CHECKPOINT_INTERVAL) then Ok (l, rest)
  else Err "Number of checkpoints is greater than the maximum ({MAX_CHECKPOINTS})".
Proof.
  intros Hmax Hat Hw. pose proof (la_last _ _ Hat) as Hl. pose proof (la_recents _ _ Hat) as Hrs.
  pose proof (la_checkpoints _ _ Hat) as Hcs.
  assert (locators_typed l) as Hty.
  { split; [rewrite Hrs|rewrite Hcs]; apply Forall_forall; intros h Hh.
    - apply elem_of_recent_heights in Hh; mlia.
    - apply elem_of_checkpoint_heights in Hh; mlia. }
  destruct Hty as [Htr Htc]. unfold write_locators in Hw. simp_ok.
  repeat match goal with H : try_u32 _ = _ |- _ => apply try_u32_Ok in H as [-> ?] end.
  assert (len (recents l) <= NUM_RECENT_BLOCKS) as Hn.
  { rewrite <-(len_fmap fst), Hrs. unfold recent_heights, heights_between, NUM_RECENT_BLOCKS.
    rewrite len_seqZ by lia. lia. }
  assert (len (checkpoints l) = last / CHECKPOINT_INTERVAL + 1) as Hm.
  { rewrite <-(len_fmap fst), Hcs. unfold checkpoint_heights. rewrite len_fmap, len_seqZ; [done|].
    pose proof (Z.div_pos last CHECKPOINT_INTERVAL Hl ltac:(done)). lia. }
  unfold read_locators. rewrite <-!app_assoc. erewrite rbind_reads by (by apply reads_u32, is_u32_len).
  rewrite bool_decide_eq_false_2 by lia. erewrite rbind_reads by (by apply reads_locator_list).
  erewrite rbind_reads by (by apply reads_u32, is_u32_len).
  case_decide as Hd.
  - rewrite bool_decide_eq_false_2.
    2: { rewrite Hm. unfold CHECKPOINT_INTERVAL in *. Z.to_euclidean_division_equations. lia. }
    erewrite rbind_reads by (by apply reads_locator_list).
    rewrite !imap_of_list_id by (rewrite ?Hrs, ?Hcs; apply NoDup_recent_heights || apply NoDup_checkpoint_heights).
    unfold rlift, new. replace (mk_locators (recents l) (checkpoints l)) with l by (by destruct l).
    destruct (ensure_is_valid_cases l) as [[-> _]|[_ []]]; [done..|]. by exists last.
  - rewrite bool_decide_eq_true_2; [done|]. rewrite Hm. unfold CHECKPOINT_INTERVAL in *.
    Z.to_euclidean_division_equations. lia.
Qed.
End Codec.

End Locators.
End Locators.

(** ** A chain *)

Definition sample_hash (h : Z) : ascii := ascii_of_N (Z.to_N h).
Definition sample_get_hash (h : Z) : result ascii := Ok (sample_hash h).
Definition sample_locators : Locators.BlockLocators (N := TestNetwork) :=
  Locators.chain_locators (N := TestNetwork) sample_hash 150.

Lemma sample_distinct : Locators.distinct_hashes (N := TestNetwork) sample_hash 150.
Proof.
  intros h k Hh Hk Heq%(f_equal N_of_ascii). unfold sample_hash in Heq.
  rewrite !N_ascii_embedding in Heq by lia. lia.
Qed.

Lemma sample_locators_at : Locators.locators_at 150 sample_locators.
Proof. apply Locators.chain_locators_at; [lia|apply sample_distinct]. Qed.

Lemma sample_locators_typed : Locators.locators_typed sample_locators.
Proof. apply Locators.chain_locators_typed. mlia. Qed.

Lemma locators_valid_iff_witness :
  exists last, last < u32_max /\ Locators.locators_at last sample_locators.
Proof.
  apply (proj1 (Locators.locators_valid_iff sample_locators sample_locators_typed)). vm_refl.
Defined.

Lemma honest_locators_witness :
  exists l l', Locators.get_block_locators (N := TestNetwork) 150 sample_get_hash = Ok l /\
    Locators.get_block_locators (N := TestNetwork) 9 sample_get_hash = Ok l' /\
    Locators.latest_locator_height l = 150 /\ Locators.is_consistent_with l l' = true.
Proof.
  destruct (Locators.honest_locators (N := TestNetwork) sample_hash sample_get_hash 150 9)
    as (l & l' & H1 & H2 & _ & H3 & _ & H4 & _); [mlia|lia|apply sample_distinct|done|].
  exact (ex_intro _ l (ex_intro _ l' (conj H1 (conj H2 (conj H3 H4))))).
Defined.

Definition sample_locators_bytes : list Z := unwrap_or [] (Locators.write_locators sample_locators).

Lemma locators_round_trip_witness :
  Locators.read_locators (sample_locators_bytes ++ [7]) = Ok (sample_locators, [7]).
Proof.
  assert (Locators.write_locators sample_locators = Ok sample_locators_bytes) as Hw by vm_refl.
  pose proof (Locators.locators_round_trip 150 sample_locators sample_locators_bytes [7]
    ltac:(mlia) sample_locators_at Hw) as H.
  rewrite decide_True in H by by vm_compute. exact H.
Defined.
