(* ===== verification/Proposal.v ===== *)
(** * Proposals

    The proposal a validator collects endorsements for, the batches it has
    signed for others, and the file in which both survive a restart:
    [Proposal<N>], [SignedProposals<N>] and [ProposalCache<N>]
    (node/bft/src/helpers/proposal.rs, signed_proposals.rs and
    proposal_cache.rs). *)

From S2P Require Import Prelude Bytes Network Committee Narwhal Subdag Ledger Storage Locators.

(** [SUBDAG_CERTIFICATES_DEPTH]. *)
Definition SUBDAG_CERTIFICATES_DEPTH : Z := 16.
(** [2u32.saturating_pow(SUBDAG_CERTIFICATES_DEPTH as u32)]. *)
Definition MAX_PENDING_CERTIFICATES : Z := Z.min u32_max (2 ^ SUBDAG_CERTIFICATES_DEPTH).

Module Proposal.
Section Proposal.
Context `{N : Network}.

Record Proposal := mk_proposal {
  p_batch_header : BatchHeader;
  p_transmissions : list (TransmissionID * Transmission);
  p_signatures : list Signature;
}.

(** The comparison of the header's transmission IDs with the keys of the map,
    in [Proposal::new] and [Proposal::read_le]. *)
Definition check_transmission_ids (h : BatchHeader) (ts : list (TransmissionID * Transmission))
    : result unit :=
  let msg := "The transmission IDs do not match in the batch header and transmissions" in
  _ ← ensure (bool_decide (len (h_transmission_ids h) = len ts)) msg;
  foldM (fun _ p => ensure (bool_decide (p.1 = p.2)) msg) tt (zip (h_transmission_ids h) ts.*1).

(** [Proposal::new]. *)
Definition new (committee : Committee) (h : BatchHeader) (ts : list (TransmissionID * Transmission))
    : result Proposal :=
  _ ← ensure (bool_decide (starting_round committee <= h_round h))
        "Batch round must be >= the committee round";
  _ ← ensure (is_committee_member committee (h_author h)) "The batch author is not a committee member";
  _ ← check_transmission_ids h ts;
  Ok (mk_proposal h ts []).

(** [Proposal::batch_id] and [Proposal::round]. *)
Definition p_batch_id (p : Proposal) : Field := batch_id (p_batch_header p).
Definition p_round (p : Proposal) : Z := h_round (p_batch_header p).

(** [Proposal::signers]. *)
Definition signers (p : Proposal) : gset Address :=
  list_to_set (to_address <$> p_signatures p ++ [h_signature (p_batch_header p)]).

(** [Proposal::nonsigners]. *)
Definition nonsigners (p : Proposal) (committee : Committee) : gset Address :=
  foldl (fun acc a => if decide (a ∈ signers p) then acc else {[a]} ∪ acc) ∅ (members committee).*1.

(** [Proposal::is_quorum_threshold_reached]. *)
Definition is_quorum_reached (p : Proposal) (committee : Committee) : bool :=
  is_quorum_threshold_reached committee (signers p).

(** [Proposal::contains_transmission] and [Proposal::get_transmission]. *)
Definition contains_transmission (p : Proposal) (i : TransmissionID) : bool :=
  imap_contains i (p_transmissions p).
Definition get_transmission (p : Proposal) (i : TransmissionID) : option Transmission :=
  imap_get i (p_transmissions p).

(** [Proposal::add_signature], with the proposal it leaves behind. *)
Definition add_signature (p : Proposal) (signer : Address) (signature : Signature)
    (committee : Committee) : result bool * Proposal :=
  if negb (is_committee_member committee signer) then
    (Err "Signature from a non-committee member", p)
  else if bool_decide (signer ∈ signers p) then (Ok false, p)
  else if negb (verify signature signer (p_batch_id p)) then
    (Err "Signature verification failed", p)
  else (Ok true, mk_proposal (p_batch_header p) (p_transmissions p)
                   (iset_insert id signature (p_signatures p))).

(** [Proposal::to_certificate]. *)
Definition to_certificate (p : Proposal) (committee : Committee)
    : result (BatchCertificate * list (TransmissionID * Transmission)) :=
  _ ← ensure (is_quorum_reached p committee) "The quorum threshold has not been reached";
  certificate ← certificate_from (p_batch_header p) (p_signatures p);
  Ok (certificate, p_transmissions p).

(** ** Encoding of proposals *)

(** The transmission loop of [ToBytes for Proposal]. *)
Fixpoint write_transmissions (ts : list (TransmissionID * Transmission)) : result (list Z) :=
  match ts with
  | [] => Ok []
  | (i, t) :: ts =>
      b ← write_transmission t; bs ← write_transmissions ts;
      Ok (write_transmission_id i ++ b ++ bs)
  end.

(** [ToBytes for Proposal]. *)
Definition write_proposal (p : Proposal) : result (list Z) :=
  h ← write_header (p_batch_header p);
  n ← try_u32 (len (p_transmissions p));
  ts ← write_transmissions (p_transmissions p);
  m ← try_u32 (len (p_signatures p));
  Ok (h ++ write_u32 n ++ ts ++ write_u32 m ++ (p_signatures p ≫= write_signature)).

Definition read_entry : reader (TransmissionID * Transmission) :=
  read i ⇐ read_transmission_id; read t ⇐ read_transmission; rret (i, t).

(** [FromBytes for Proposal]. *)
Definition read_proposal : reader Proposal :=
  read h ⇐ read_header false;
  read num_transmissions ⇐ read_u32;
  if bool_decide (MAX_TRANSMISSIONS_PER_BATCH < num_transmissions)
  then rfail "Invalid number of transmissions in the proposal" else
  read ts ⇐ read_many (Z.to_nat num_transmissions) read_entry;
  read num_signatures ⇐ read_u32;
  if bool_decide (max_committee_size < num_signatures)
  then rfail "Invalid number of signatures in the proposal" else
  read sigs ⇐ read_many (Z.to_nat num_signatures) (read_signature false);
  let transmissions := imap_of_list ts in
  read _ ⇐ rlift (check_transmission_ids h transmissions);
  rret (mk_proposal h transmissions (iset_of_list id sigs)).

(** ** Signed proposals *)

(** [SignedProposals<N>]: [address] to ([round], [batch ID], [signature]). *)
Definition signed_proposal : Type := Z * Field * Signature.

(** [SignedProposals::is_valid]. *)
Definition signed_is_valid (m : gmap Address signed_proposal) (expected_signer : Address) : bool :=
  forallb (fun e => bool_decide (to_address e.2.2 = expected_signer)) (map_to_list m).

Definition write_signed_entry (e : Address * signed_proposal) : list Z :=
  let '(address, (round, batch_id, signature)) := e in
  write_address address ++ write_u64 round ++ write_field batch_id ++ write_signature signature.

(** [ToBytes for SignedProposals].  The iteration order of a [HashMap] is not
    specified: [order] is the one of this run. *)
Definition write_signed_proposals (order : list (Address * signed_proposal)) : result (list Z) :=
  n ← try_u32 (len order);
  Ok (write_u32 n ++ (order ≫= write_signed_entry)).

Definition read_signed_entry : reader (Address * signed_proposal) :=
  read address ⇐ read_address;
  read round ⇐ read_u64;
  read batch_id ⇐ read_field;
  read signature ⇐ read_signature false;
  rret (address, (round, batch_id, signature)).

(** [FromBytes for SignedProposals]. *)
Definition read_signed_proposals : reader (gmap Address signed_proposal) :=
  read num_signed_proposals ⇐ read_u32;
  if bool_decide (LATEST_MAX_CERTIFICATES * NUM_RECENT_BLOCKS < num_signed_proposals)
  then rfail "Number of signed proposals is greater than the maximum" else
  read es ⇐ read_many (Z.to_nat num_signed_proposals) read_signed_entry;
  rret (foldl (fun m e => <[e.1 := e.2]> m) ∅ es).

(** ** The proposal cache *)

Record ProposalCache := mk_cache {
  latest_round : Z;
  proposal : option Proposal;
  signed_proposals : gmap Address signed_proposal;
  pending_certificates : list BatchCertificate;
}.

(** [ProposalCache::is_valid]. *)
Definition is_valid (c : ProposalCache) (expected_signer : Address) : bool :=
  match proposal c with
  | Some p => bool_decide (h_author (p_batch_header p) = expected_signer)
              && bool_decide (latest_round c = p_round p)
  | None => true
  end && signed_is_valid (signed_proposals c) expected_signer.

(** [ToBytes for ProposalCache]; [order] is the iteration order of the signed
    proposals. *)
Definition write_cache (order : list (Address * signed_proposal)) (c : ProposalCache)
    : result (list Z) :=
  p ← match proposal c with
      | Some p => bs ← write_proposal p; Ok (write_bool true ++ bs)
      | None => Ok (write_bool false)
      end;
  s ← write_signed_proposals order;
  n ← try_u32 (len (pending_certificates c));
  cs ← Subdag.write_certificates (pending_certificates c);
  Ok (write_u64 (latest_round c) ++ p ++ s ++ write_u32 n ++ cs).

(** [FromBytes for ProposalCache]. *)
Definition read_cache : reader ProposalCache :=
  read latest_round ⇐ read_u64;
  read has_proposal ⇐ read_bool;
  read proposal ⇐ (if has_proposal : bool then read p ⇐ read_proposal; rret (Some p) else rret None);
  read signed_proposals ⇐ read_signed_proposals;
  read num_certificates ⇐ read_u32;
  if bool_decide (MAX_PENDING_CERTIFICATES < num_certificates)
  then rfail "Number of certificates exceeds the maximum" else
  read cs ⇐ read_many (Z.to_nat num_certificates) (read_certificate false);
  rret (mk_cache latest_round proposal signed_proposals (iset_of_list cert_id cs)).

(** [ProposalCache::load]; [file] is the content of the file, if it can be read. *)
Definition load (expected_signer : Address) (file : option (list Z)) : result ProposalCache :=
  cache ← match file with
          | Some bytes =>
              match read_cache bytes with
              | Ok (cache, _) => Ok cache
              | Err _ => Err "Couldn't deserialize the proposal"
              | Panic e => Panic e
              | Deadlock => Deadlock
              end
          | None => Err "Couldn't read the proposal"
          end;
  _ ← ensure (is_valid cache expected_signer) "The proposal cache is invalid for the given address";
  Ok cache.

(** ** From a proposal to a certificate *)

(** A proposal for [h] with some endorsements added for [committee]. *)
Inductive reachable (committee : Committee) (h : BatchHeader)
    (ts : list (TransmissionID * Transmission)) : Proposal -> Prop :=
| reachable_new p : new committee h ts = Ok p -> reachable committee h ts p
| reachable_add p signer signature :
    reachable committee h ts p ->
    reachable committee h ts (add_signature p signer signature committee).2.

Lemma zip_check_Ok {A} `{!EqDecision A} (msg : string) (l k : list A) :
  length l = length k ->
  (foldM (fun _ (p : A * A) => ensure (bool_decide (p.1 = p.2)) msg) tt (zip l k) = Ok tt <-> l = k).
Proof.
  revert k. induction l as [|x l IH]; intros [|y k] Hlen; try done. cbn.
  case_bool_decide as Hxy; cbn.
  - subst y. rewrite IH by (cbn in Hlen; lia). naive_solver.
  - naive_solver.
Qed.

Lemma check_transmission_ids_Ok h ts :
  check_transmission_ids h ts = Ok tt <-> h_transmission_ids h = ts.*1.
Proof.
  unfold check_transmission_ids. split.
  - intros H. simp_ok. rewrite bool_decide_eq_true in *. apply zip_check_Ok in H; [done|].
    rewrite length_fmap. unfold len in *. lia.
  - intros Heq. rewrite ensure_bind.
    + by apply zip_check_Ok; rewrite Heq.
    + apply bool_decide_eq_true. rewrite Heq. unfold len. by rewrite length_fmap.
Qed.

Section Laws.
Context {NL : NetworkLaws N}.

(** What [new] and [add_signature] keep: the map has the header's
    transmissions, the author and the endorsers are distinct members of the
    committee, and the endorsements verify. *)
Record proposal_inv (committee : Committee) (h : BatchHeader)
    (ts : list (TransmissionID * Transmission)) (p : Proposal) : Prop := {
  pi_header : p_batch_header p = h;
  pi_transmissions : p_transmissions p = ts;
  pi_ids : h_transmission_ids h = ts.*1;
  pi_signers : NoDup (h_author h :: (to_address <$> p_signatures p));
  pi_members a : a ∈ h_author h :: (to_address <$> p_signatures p) -> is_committee_member committee a = true;
  pi_verified s : s ∈ p_signatures p -> verify s (to_address s) (batch_id h) = true;
}.

Lemma signers_spec p a :
  verify (h_signature (p_batch_header p)) (h_author (p_batch_header p)) (batch_id (p_batch_header p)) = true ->
  (a ∈ signers p <-> a ∈ h_author (p_batch_header p) :: (to_address <$> p_signatures p)).
Proof.
  intros Hv%verify_to_address. unfold signers. rewrite elem_of_list_to_set, fmap_app, elem_of_app.
  cbn. rewrite Hv. set_solver.
Qed.

Lemma proposal_new_inv committee h ts p : new committee h ts = Ok p -> proposal_inv committee h ts p.
Proof.
  unfold new. intros H. simp_ok.
  match goal with H : check_transmission_ids _ _ = Ok ?u |- _ =>
    destruct u; apply check_transmission_ids_Ok in H end.
  split; cbn; try done.
  - apply NoDup_singleton.
  - by intros a ->%list_elem_of_singleton.
  - set_solver.
Qed.

Lemma add_signature_inv committee h ts p signer signature :
  header_valid h -> proposal_inv committee h ts p ->
  proposal_inv committee h ts (add_signature p signer signature committee).2.
Proof.
  intros Hh Hp. pose proof Hp as [Hhd Hts Hids Hnd Hmem Hver]. unfold add_signature.
  destruct (is_committee_member committee signer) eqn:Hm; cbn [negb]; [|done].
  case_bool_decide as Hin; [done|]. destruct (verify signature signer _) eqn:Hv; cbn [negb]; [|done].
  rewrite signers_spec in Hin by (rewrite Hhd; apply Hh). rewrite Hhd in Hin.
  pose proof (verify_to_address _ _ _ Hv) as Ha. unfold p_batch_id in Hv. rewrite Hhd in Hv.
  assert (signature ∉ p_signatures p) as Hs.
  { intros Hs. apply Hin. right. rewrite <-Ha. by apply list_elem_of_fmap_2. }
  assert (iset_insert id signature (p_signatures p) = p_signatures p ++ [signature]) as Hins.
  { unfold iset_insert. destruct (iset_contains _ _) eqn:E; [|done].
    apply iset_contains_spec in E as (s & ? & Hs'). cbn in Hs'. by subst s. }
  split; cbn; rewrite ?Hins; try done; rewrite ?fmap_app.
  - rewrite app_comm_cons. apply NoDup_app. split_and!; [done| |apply NoDup_singleton]. cbn. set_solver.
  - cbn. rewrite Ha. intros a. rewrite app_comm_cons. intros [?|?%list_elem_of_singleton]%elem_of_app; naive_solver.
  - intros s [?| ->%list_elem_of_singleton]%elem_of_app; [auto|]. by rewrite Ha.
Qed.

Lemma proposal_reachable_inv committee h ts p :
  header_valid h -> reachable committee h ts p -> proposal_inv committee h ts p.
Proof. intros Hh. induction 1; [by apply proposal_new_inv|by apply add_signature_inv]. Qed.

Lemma signatures_le_members committee h ts p :
  committee_wf committee -> proposal_inv committee h ts p -> len (p_signatures p) <= max_signatures.
Proof.
  intros Hc Hp. pose proof (cwf_size _ Hc) as Hsz. unfold max_committee_size in Hsz. unfold max_signatures.
  assert (length (h_author h :: (to_address <$> p_signatures p)) <= length (members committee).*1)%nat as Hle.
  { apply NoDup_incl_length; [apply NoDup_ListNoDup, Hp|]. intros a Ha%list_elem_of_In.
    apply list_elem_of_In. apply (pi_members _ _ _ _ Hp) in Ha. unfold is_committee_member, imap_contains in Ha.
    apply bool_decide_eq_true in Ha as [m Hm%imap_get_elem]. apply list_elem_of_fmap. by exists (a, m). }
  cbn in Hle. rewrite !length_fmap in Hle. unfold len in *. lia.
Qed.

(** C18: a proposal that gathers a quorum becomes a certificate every validator
    accepts.  Whatever signatures were offered to it, [to_certificate]
    succeeds exactly when the author and the endorsers reach the quorum
    threshold and there is at least one endorsement; the certificate then
    passes the checks of its constructor, it comes with the transmissions its
    header names, and [Storage::check_incoming_certificate] accepts it. *)
Theorem proposal_certified (committee : Committee) (L : LedgerService) (h : BatchHeader)
    (ts : list (TransmissionID * Transmission)) (p : Proposal) :
  committee_wf committee -> header_valid h -> reachable committee h ts p ->
  get_committee_lookback_for_round L (h_round h) = Ok committee ->
  (is_ok (to_certificate p committee) = true <->
   is_quorum_reached p committee = true /\ p_signatures p <> []) /\
  (forall c ts', to_certificate p committee = Ok (c, ts') ->
     c = mk_certificate h (p_signatures p) /\ certificate_valid c /\
     ts' = ts /\ transmission_ids c = ts'.*1 /\
     Storage.check_incoming_certificate L c = Ok tt).
Proof.
  intros Hc Hh Hr HL. pose proof (proposal_reachable_inv _ _ _ _ Hh Hr) as Hp.
  assert (signers p = Storage.signers (mk_certificate h (p_signatures p))) as Hsig.
  { apply set_eq. intros a. rewrite signers_spec by (rewrite (pi_header _ _ _ _ Hp); apply Hh).
    rewrite (pi_header _ _ _ _ Hp). unfold Storage.signers, author. cbn. set_solver. }
  assert (p_signatures p <> [] -> certificate_valid (mk_certificate h (p_signatures p))) as Hcv.
  { intros Hne. split; [done|by eapply signatures_le_members|apply Hp|apply Hp]. }
  unfold to_certificate. rewrite (pi_header _ _ _ _ Hp), (pi_transmissions _ _ _ _ Hp). split.
  - split.
    + unfold ensure. destruct (is_quorum_reached p committee); cbn; [|done].
      destruct (certificate_from _ _) as [c| | |] eqn:E; [|done..]. intros _. split; [done|].
      apply certificate_from_Ok in E as [Hv ->]. apply Hv.
    + intros [-> Hne]. cbn. rewrite (proj2 (certificate_from_Ok _ _ _) (conj (Hcv Hne) eq_refl)). done.
  - intros c ts' H. simp_ok.
    match goal with H : certificate_from _ _ = _ |- _ => apply certificate_from_Ok in H as [Hv ->] end.
    split_and!; [done|done|done|apply Hp|]. unfold Storage.check_incoming_certificate, round. cbn.
    rewrite HL. cbn. rewrite <-Hsig, ensure_bind by done. apply ensure_Ok, forallb_forall.
    intros a Ha%list_elem_of_In%elem_of_elements. apply (pi_members _ _ _ _ Hp).
    rewrite <-(pi_header _ _ _ _ Hp), <-signers_spec by (rewrite (pi_header _ _ _ _ Hp); apply Hh). done.
Qed.

(** The validators still to be asked are the members that have not signed. *)
Lemma nonsigners_spec p committee a :
  a ∈ nonsigners p committee <-> is_committee_member committee a = true /\ a ∉ signers p.
Proof.
  unfold nonsigners, is_committee_member, imap_contains. rewrite bool_decide_eq_true.
  assert (is_Some (imap_get a (members committee)) <-> a ∈ (members committee).*1) as ->.
  { rewrite <-not_eq_None_Some, imap_get_None. destruct (decide (a ∈ (members committee).*1)); tauto. }
  generalize (members committee).*1 as l. intros l.
  cut (forall acc : gset Address, a ∈ foldl (fun acc a => if decide (a ∈ signers p) then acc else {[a]} ∪ acc) acc l
                   <-> a ∈ acc \/ (a ∈ l /\ a ∉ signers p)).
  { intros ->. set_solver. }
  induction l as [|x l IH]; intros acc; cbn; [set_solver|]. rewrite IH. clear IH.
  case_decide; set_solver.
Qed.

(** ** Round trips *)

Definition entry_as_read (e : TransmissionID * Transmission) : TransmissionID * Transmission :=
  (e.1, as_read e.2).

Lemma reads_transmissions ts bs :
  (forall e, e ∈ ts -> transmission_fits e.2) -> write_transmissions ts = Ok bs ->
  reads (read_many (length ts) read_entry) bs (entry_as_read <$> ts).
Proof.
  revert bs. induction ts as [|[i t] ts IH]; intros bs Hfit Hw; cbn in Hw; simp_ok; [apply reads_ret|].
  cbn [length read_many fmap list_fmap]. rewrite (app_assoc (write_transmission_id i)).
  eapply reads_bind.
  { eapply reads_bind; [apply reads_transmission_id|].
    eapply reads_bind_last; [eapply reads_transmission; [apply (Hfit (i, t)); left|done]|].
    apply reads_ret. }
  eapply reads_bind_last; [|apply reads_ret]. apply IH; [intros; apply Hfit; by right|done].
Qed.

(** A proposal as it is while it waits for signatures. *)
Record proposal_ok (p : Proposal) : Prop := {
  po_typed : header_typed (p_batch_header p);
  po_valid : header_valid (p_batch_header p);
  po_ids : h_transmission_ids (p_batch_header p) = (p_transmissions p).*1;
  po_fits e : e ∈ p_transmissions p -> transmission_fits e.2;
  po_signatures : NoDup (p_signatures p);
  po_size : len (p_signatures p) <= max_committee_size;
}.

Definition proposal_as_read (p : Proposal) : Proposal :=
  mk_proposal (p_batch_header p) (entry_as_read <$> p_transmissions p) (p_signatures p).

Lemma reads_proposal p bs :
  proposal_ok p -> write_proposal p = Ok bs -> reads read_proposal bs (proposal_as_read p).
Proof.
  intros [Hty Hv Hids Hfit Hnd Hsz] Hw. unfold write_proposal in Hw. simp_ok.
  repeat match goal with H : try_u32 _ = _ |- _ => apply try_u32_Ok in H as [-> ?] end.
  assert ((entry_as_read <$> p_transmissions p).*1 = (p_transmissions p).*1) as Hkeys.
  { rewrite <-list_fmap_compose. done. }
  assert (len (p_transmissions p) <= MAX_TRANSMISSIONS_PER_BATCH) as Hn.
  { pose proof (hv_tids _ Hv) as Hmax. rewrite Hids in Hmax. unfold len in *. by rewrite length_fmap in Hmax. }
  unfold read_proposal. eapply reads_bind; [by eapply reads_header|].
  eapply reads_bind; [by apply reads_u32, is_u32_len|]. rewrite bool_decide_eq_false_2 by lia.
  eapply reads_bind; [unfold len; rewrite Nat2Z.id; by eapply reads_transmissions|].
  eapply reads_bind; [by apply reads_u32, is_u32_len|]. rewrite bool_decide_eq_false_2 by lia.
  eapply reads_bind_last.
  { unfold len. rewrite Nat2Z.id. apply reads_many. intros. apply reads_signature. }
  rewrite imap_of_list_id by (rewrite Hkeys, <-Hids; apply Hty).
  eapply reads_bind_last; [apply reads_lift, check_transmission_ids_Ok; by rewrite Hkeys|].
  rewrite iset_of_list_id by (by rewrite list_fmap_id). apply reads_ret.
Qed.

Lemma reads_signed_entry e :
  is_u64 e.2.1.1 -> reads read_signed_entry (write_signed_entry e) e.
Proof.
  intros Hr. destruct e as [a [[r b] s]]. cbn in *. eapply reads_bind; [apply reads_address|].
  eapply reads_bind; [by apply reads_u64|]. eapply reads_bind; [apply reads_field|].
  eapply reads_bind_last; [apply reads_signature|]. apply reads_ret.
Qed.

Lemma foldl_insert_map (l : list (Address * signed_proposal)) (m : gmap Address signed_proposal) :
  NoDup l.*1 -> (forall a, a ∈ l.*1 -> m !! a = None) ->
  foldl (fun m e => <[e.1 := e.2]> m) m l = list_to_map l ∪ m.
Proof.
  revert m. induction l as [|[a e] l IH]; intros m Hnd Hm; [by rewrite list_to_map_nil, map_empty_union|].
  cbn in Hnd. apply NoDup_cons in Hnd as [Ha Hnd]. cbn [foldl fst snd]. rewrite IH; [|done|].
  - rewrite list_to_map_cons, <-insert_union_l. apply eq_sym, insert_union_r.
    by apply not_elem_of_list_to_map.
  - intros b Hb. rewrite lookup_insert_ne by set_solver. apply Hm. set_solver.
Qed.

Lemma reads_signed_proposals order m bs :
  order ≡ₚ map_to_list m -> (forall a e, m !! a = Some e -> is_u64 e.1.1) ->
  Z.of_nat (size m) <= LATEST_MAX_CERTIFICATES * NUM_RECENT_BLOCKS ->
  write_signed_proposals order = Ok bs -> reads read_signed_proposals bs m.
Proof.
  intros Hperm Hr Hsz Hw. unfold write_signed_proposals in Hw. simp_ok.
  match goal with H : try_u32 _ = _ |- _ => apply try_u32_Ok in H as [-> ?] end.
  assert (len order = Z.of_nat (size m)) as Hlen by (unfold len; by rewrite Hperm, length_map_to_list).
  assert (NoDup order.*1) as Hnd by (rewrite Hperm; apply NoDup_fst_map_to_list).
  eapply reads_bind; [by apply reads_u32, is_u32_len|]. rewrite bool_decide_eq_false_2 by lia.
  eapply reads_bind_last.
  { unfold len. rewrite Nat2Z.id. apply (reads_many _ write_signed_entry). intros [a e] He.
    apply reads_signed_entry. rewrite Hperm, elem_of_map_to_list in He. by eapply Hr. }
  rewrite foldl_insert_map by (done || (intros; apply lookup_empty)). rewrite map_union_empty.
  rewrite <-(list_to_map_to_list m), <-(list_to_map_proper _ _ Hnd Hperm). apply reads_ret.
Qed.

(** A cache as a running validator writes it. *)
Record cache_ok (c : ProposalCache) : Prop := {
  co_round : is_u64 (latest_round c);
  co_proposal p : proposal c = Some p -> proposal_ok p;
  co_signed a e : signed_proposals c !! a = Some e -> is_u64 e.1.1;
  co_signed_size : Z.of_nat (size (signed_proposals c)) <= LATEST_MAX_CERTIFICATES * NUM_RECENT_BLOCKS;
  co_pending d : d ∈ pending_certificates c -> Subdag.certificate_ok d;
  co_pending_ids : NoDup (cert_id <$> pending_certificates c);
  co_pending_size : len (pending_certificates c) <= MAX_PENDING_CERTIFICATES;
}.

Definition cache_as_read (c : ProposalCache) : ProposalCache :=
  mk_cache (latest_round c) (proposal_as_read <$> proposal c) (signed_proposals c)
    (pending_certificates c).

Lemma reads_cache order c bs :
  order ≡ₚ map_to_list (signed_proposals c) -> cache_ok c -> write_cache order c = Ok bs ->
  reads read_cache bs (cache_as_read c).
Proof.
  intros Hperm [Hr Hp Hs Hss Hc Hci Hcs] Hw. unfold write_cache in Hw. simp_ok.
  match goal with H : try_u32 _ = _ |- _ => apply try_u32_Ok in H as [-> ?] end.
  eapply reads_bind; [by apply reads_u64|].
  assert (forall A k1 k2 (f : option Proposal -> reader A) y,
    match proposal c with
    | Some p => bs ← write_proposal p; Ok (write_bool true ++ bs)
    | None => Ok (write_bool false)
    end = Ok k1 -> reads (f (proposal_as_read <$> proposal c)) k2 y ->
    reads (read has_proposal ⇐ read_bool;
           read p ⇐ (if has_proposal : bool then read p ⇐ read_proposal; rret (Some p) else rret None);
           f p) (k1 ++ k2) y) as Hopt.
  { intros A k1 k2 f y Hk1 Hf. destruct (proposal c) as [p|]; simp_ok.
    - rewrite <-app_assoc. eapply reads_bind; [apply reads_bool|].
      eapply reads_bind; [|done]. eapply reads_bind_last; [eapply reads_proposal; [by apply Hp|done]|].
      apply reads_ret.
    - eapply reads_bind; [apply reads_bool|]. rewrite <-(app_nil_l k2). eapply reads_bind; [apply reads_ret|done]. }
  eapply Hopt; [done|]. eapply reads_bind; [by eapply reads_signed_proposals|].
  eapply reads_bind; [by apply reads_u32, is_u32_len|]. rewrite bool_decide_eq_false_2 by lia.
  eapply reads_bind_last; [unfold len; rewrite Nat2Z.id; by eapply Subdag.reads_certificates|].
  rewrite iset_of_list_id by done. apply reads_ret.
Qed.

(** A restart loses nothing.  Loading the file a validator stored, under
    its own address, gives back the round, the proposal, the signed proposals
    and the pending certificates, whatever order the hash map was written in;
    only the data of the proposed transmissions is now in serialized form.
    Under an address the cache does not belong to, loading fails. *)
Theorem proposal_cache_survives (order : list (Address * signed_proposal)) (c : ProposalCache)
    (bs : list Z) (expected_signer : Address) :
  order ≡ₚ map_to_list (signed_proposals c) -> cache_ok c -> write_cache order c = Ok bs ->
  load expected_signer (Some bs) =
  if is_valid c expected_signer then Ok (cache_as_read c)
  else Err "The proposal cache is invalid for the given address".
Proof.
  intros Hperm Hc Hw. unfold load. pose proof (reads_cache _ _ _ Hperm Hc Hw []) as Hread.
  rewrite app_nil_r in Hread. rewrite Hread. cbn [mbind result_bind].
  assert (is_valid (cache_as_read c) expected_signer = is_valid c expected_signer) as ->.
  { unfold is_valid, cache_as_read. cbn. by destruct (proposal c). }
  by destruct (is_valid c expected_signer).
Qed.
End Laws.
End Proposal.
End Proposal.

(** ** A proposal *)

Definition sample_transmissions : list (TransmissionID (N := TestNetwork) * Transmission (N := TestNetwork)) :=
  [(IdTransaction (N := TestNetwork) "t" "x", TTransaction (N := TestNetwork) (Object (T := ascii) "z"))]%char.

Definition sample_new : Proposal.Proposal (N := TestNetwork) :=
  Proposal.mk_proposal header7 sample_transmissions [].
Definition sample_sign (p : Proposal.Proposal (N := TestNetwork)) (a : ascii) : Proposal.Proposal :=
  (Proposal.add_signature p a ((a, batch_id header7) : Signature (Network := TestNetwork)) sample_committee).2.
Definition sample_proposal : Proposal.Proposal (N := TestNetwork) :=
  sample_sign (sample_sign (sample_sign sample_new "b"%char) "b"%char) "d"%char.

Lemma sample_proposal_reachable :
  Proposal.reachable sample_committee header7 sample_transmissions sample_proposal.
Proof.
  unfold sample_proposal, sample_sign. do 3 apply Proposal.reachable_add.
  apply Proposal.reachable_new. vm_refl.
Qed.

Definition proposal_ledger : LedgerService (N := TestNetwork) := {|
  latest_round := 2;
  current_committee := Ok sample_committee;
  get_committee_lookback_for_round := fun _ => Ok sample_committee;
  ledger_contains_certificate := fun _ => Ok false;
  ledger_contains_transmission := fun _ => Ok false;
  ledger_get_solution := fun _ => Ok None;
  ledger_get_unconfirmed_transaction := fun _ => Ok None;
|}.

Lemma proposal_certified_witness :
  exists c, Proposal.to_certificate sample_proposal sample_committee = Ok (c, sample_transmissions) /\
    certificate_valid c /\ Storage.check_incoming_certificate proposal_ledger c = Ok tt.
Proof.
  destruct (Proposal.proposal_certified sample_committee proposal_ledger header7 sample_transmissions
    sample_proposal sample_committee_wf header7_valid sample_proposal_reachable eq_refl) as [_ H].
  exists (mk_certificate header7 (Proposal.p_signatures sample_proposal)).
  assert (Proposal.to_certificate sample_proposal sample_committee =
    Ok (mk_certificate header7 (Proposal.p_signatures sample_proposal), sample_transmissions)) as Hc by vm_refl.
  destruct (H _ _ Hc) as (_ & Hv & _ & _ & Hi). split_and!; assumption.
Defined.

Definition sample_signed : gmap (Address (Network := TestNetwork)) (Proposal.signed_proposal (N := TestNetwork)) :=
  {[ ("b"%char : Address (Network := TestNetwork)) :=
     ((6, "m"%char, ("a"%char, "m"%char)) : Proposal.signed_proposal (N := TestNetwork)) ]}.

Definition sample_cache : Proposal.ProposalCache (N := TestNetwork) :=
  Proposal.mk_cache 7 (Some sample_proposal) sample_signed [certificate7].

Lemma sample_cache_ok : Proposal.cache_ok sample_cache.
Proof.
  split; cbn [sample_cache Proposal.latest_round Proposal.proposal Proposal.signed_proposals Proposal.pending_certificates].
  - mlia.
  - intros p [= <-]. split.
    + exact header7_typed.
    + exact header7_valid.
    + vm_refl.
    + intros e ->%list_elem_of_singleton. by vm_compute.
    + apply (bool_decide_unpack _). by vm_compute.
    + by vm_compute.
  - intros a e He. unfold sample_signed in He. apply lookup_singleton_Some in He as [<- <-]. cbn. mlia.
  - by vm_compute.
  - intros d ->%list_elem_of_singleton. exact (conj header7_typed (conj header7_valid certificate7_valid)).
  - apply NoDup_singleton.
  - by vm_compute.
Qed.

Definition sample_cache_bytes : list Z :=
  unwrap_or [] (Proposal.write_cache (map_to_list sample_signed) sample_cache).

Lemma proposal_cache_survives_witness :
  Proposal.load ("a"%char : Address (Network := TestNetwork)) (Some sample_cache_bytes)
  = Ok (Proposal.cache_as_read sample_cache).
Proof.
  assert (Proposal.write_cache (map_to_list sample_signed) sample_cache = Ok sample_cache_bytes) as Hw by vm_refl.
  rewrite (Proposal.proposal_cache_survives (map_to_list sample_signed) sample_cache sample_cache_bytes
    ("a"%char : Address (Network := TestNetwork)) (reflexivity _) sample_cache_ok Hw).
  vm_refl.
Defined.
