(* ===== verification/Ready.v ===== *)
(** * The ready queue

    [Ready<N>] (node/bft/src/helpers/ready.rs), the queue of verified
    transmissions of a worker.  The code keeps a deque and, beside it, a hash
    map from transmission ID to a logical position: the position in the deque
    plus an offset that moves with the front of the deque, so that nothing is
    re-indexed when an entry enters or leaves at the front.  [ready_refines]
    shows that this is a plain queue with distinct keys. *)

From S2P Require Import Prelude Bytes Network Narwhal.

(** [usize as i64] and [i64 as usize] on a 64-bit machine. *)
Definition usize_as_i64 (z : Z) : Z := i64_wrap z.
Definition i64_as_usize (z : Z) : Z := u64_wrap z.

Lemma i64_wrap_add_l a b : i64_wrap (i64_wrap a + b) = i64_wrap (a + b).
Proof.
  unfold i64_wrap. f_equal.
  replace ((a + 2 ^ 63) mod 2 ^ 64 - 2 ^ 63 + b + 2 ^ 63) with ((a + 2 ^ 63) mod 2 ^ 64 + b) by lia.
  rewrite Zplus_mod_idemp_l. f_equal. lia.
Qed.

(** A logical position comes back from its encoding even where the offset has
    wrapped around. *)
Lemma logical_index_inv offset j :
  0 <= j <= i64_max -> i64_as_usize (i64_wrap (i64_wrap (offset + j) - offset)) = j.
Proof.
  intros Hj. assert (i64_wrap (i64_wrap (offset + j) - offset) = j) as ->.
  { unfold Z.sub. rewrite i64_wrap_add_l. replace (offset + j + - offset) with j by lia.
    apply i64_wrap_id. mlia. }
  apply u64_wrap_id. mlia.
Qed.

Module Ready.
Section Ready.
Context `{N : Network}.

Abbreviation entry := (TransmissionID * Transmission)%type.

Record Ready := mk_ready {
  transmission_ids : gmap TransmissionID Z;
  transmissions : list entry;
  offset : Z;
}.

(** [Ready::new]. *)
Definition new : Ready := mk_ready ∅ [] 0.

(** [Ready::is_empty] and [Ready::num_transmissions]. *)
Definition is_empty (r : Ready) : bool := bool_decide (transmissions r = []).
Definition num_transmissions (r : Ready) : Z := len (transmissions r).

Definition is_ratification_id (i : TransmissionID) : bool :=
  match i with IdRatification => true | _ => false end.
Definition is_solution_id (i : TransmissionID) : bool :=
  match i with IdSolution _ _ => true | _ => false end.
Definition is_transaction_id (i : TransmissionID) : bool :=
  match i with IdTransaction _ _ => true | _ => false end.

(** [transmission_ids.keys().filter(p).count()]. *)
Definition count_ids (p : TransmissionID -> bool) (r : Ready) : Z :=
  len (List.filter p (map_to_list (transmission_ids r)).*1).

(** [Ready::num_ratifications], [Ready::num_solutions] and [Ready::num_transactions]. *)
Definition num_ratifications (r : Ready) : Z := count_ids is_ratification_id r.
Definition num_solutions (r : Ready) : Z := count_ids is_solution_id r.
Definition num_transactions (r : Ready) : Z := count_ids is_transaction_id r.

(** [Ready::transmission_ids]: the keys of a hash map, in no specified order. *)
Definition ids (r : Ready) : gset TransmissionID := dom (transmission_ids r).

(** [Ready::transmissions]. *)
Definition all_transmissions (r : Ready) : list entry := imap_of_list (transmissions r).

(** [Ready::solutions] and [Ready::transactions]. *)
Definition solutions (r : Ready) : list (SolutionID * Data Solution) :=
  omap (fun e => match e with (IdSolution id _, TSolution s) => Some (id, s) | _ => None end)
    (transmissions r).
Definition transactions (r : Ready) : list (TransactionID * Data Transaction) :=
  omap (fun e => match e with (IdTransaction id _, TTransaction t) => Some (id, t) | _ => None end)
    (transmissions r).

(** [Ready::contains]. *)
Definition contains (r : Ready) (i : TransmissionID) : bool :=
  bool_decide (is_Some (transmission_ids r !! i)).

(** [Ready::get]. *)
Definition get (r : Ready) (i : TransmissionID) : option Transmission :=
  index ← transmission_ids r !! i;
  e ← transmissions r !! Z.to_nat (i64_as_usize (i64_wrap (index - offset r)));
  Some e.2.

(** [Ready::insert]. *)
Definition insert (r : Ready) (i : TransmissionID) (t : Transmission) : bool * Ready :=
  let physical_index := len (transmissions r) in
  match transmission_ids r !! i with
  | None =>
      (true, mk_ready
               (<[i := i64_wrap (usize_as_i64 physical_index + offset r)]> (transmission_ids r))
               (transmissions r ++ [(i, t)]) (offset r))
  | Some _ => (false, r)
  end.

(** [Ready::insert_front]. *)
Definition insert_front (r : Ready) (i : TransmissionID) (t : Transmission) : bool * Ready :=
  match transmission_ids r !! i with
  | None =>
      let offset := i64_wrap (offset r - 1) in
      (true, mk_ready (<[i := offset]> (transmission_ids r)) ((i, t) :: transmissions r) offset)
  | Some _ => (false, r)
  end.

(** [Ready::remove_front]. *)
Definition remove_front (r : Ready) : option entry * Ready :=
  match transmissions r with
  | [] => (None, r)
  | (i, t) :: rest =>
      let ids := delete i (transmission_ids r) in
      (Some (i, t),
       mk_ready ids rest (if decide (ids = ∅) then 0 else i64_wrap (offset r + 1)))
  end.

Definition is_solution (t : Transmission) : bool :=
  match t with TSolution _ => true | _ => false end.

(** The loop that rebuilds the index, from position [i] on. *)
Fixpoint reindex (m : gmap TransmissionID Z) (i : Z) (l : list entry) : gmap TransmissionID Z :=
  match l with
  | [] => m
  | e :: l => reindex (<[e.1 := usize_as_i64 i]> m) (i + 1) l
  end.

(** [Ready::clear_solutions]. *)
Definition clear_solutions (r : Ready) : Ready :=
  let retained := List.filter (fun e => negb (is_solution e.2)) (transmissions r) in
  mk_ready (reindex ∅ 0 retained) retained 0.

(** ** The operations as one interface *)

Inductive op : Type :=
| OpInsert (i : TransmissionID) (t : Transmission)
| OpInsertFront (i : TransmissionID) (t : Transmission)
| OpRemoveFront
| OpClearSolutions
| OpGet (i : TransmissionID)
| OpContains (i : TransmissionID)
| OpCounts.

Inductive output : Type :=
| OutBool (b : bool)
| OutEntry (e : option entry)
| OutTransmission (t : option Transmission)
| OutUnit
| OutCounts (ratifications solutions transactions total : Z).

Definition step (r : Ready) (o : op) : output * Ready :=
  match o with
  | OpInsert i t => let '(b, r) := insert r i t in (OutBool b, r)
  | OpInsertFront i t => let '(b, r) := insert_front r i t in (OutBool b, r)
  | OpRemoveFront => let '(e, r) := remove_front r in (OutEntry e, r)
  | OpClearSolutions => (OutUnit, clear_solutions r)
  | OpGet i => (OutTransmission (get r i), r)
  | OpContains i => (OutBool (contains r i), r)
  | OpCounts =>
      (OutCounts (num_ratifications r) (num_solutions r) (num_transactions r)
         (num_transmissions r), r)
  end.

(** The specification: an ordered list of entries with distinct keys. *)
Definition queue_step (q : list entry) (o : op) : output * list entry :=
  match o with
  | OpInsert i t =>
      if decide (i ∈ q.*1) then (OutBool false, q) else (OutBool true, q ++ [(i, t)])
  | OpInsertFront i t =>
      if decide (i ∈ q.*1) then (OutBool false, q) else (OutBool true, (i, t) :: q)
  | OpRemoveFront => (OutEntry (head q), tail q)
  | OpClearSolutions => (OutUnit, List.filter (fun e => negb (is_solution e.2)) q)
  | OpGet i => (OutTransmission (imap_get i q), q)
  | OpContains i => (OutBool (bool_decide (i ∈ q.*1)), q)
  | OpCounts =>
      (OutCounts (len (List.filter is_ratification_id q.*1)) (len (List.filter is_solution_id q.*1))
         (len (List.filter is_transaction_id q.*1)) (len q), q)
  end.

(** A sequence of operations, with what each of them returned. *)
Fixpoint run {S} (st : S -> op -> output * S) (s : S) (os : list op) : list output * S :=
  match os with
  | [] => ([], s)
  | o :: os => let '(out, s) := st s o in let '(outs, s) := run st s os in (out :: outs, s)
  end.

(** ** The invariant *)

(** The index holds the logical position of every entry and nothing else. *)
Definition indexed (m : gmap TransmissionID Z) (l : list entry) (offset : Z) : Prop :=
  forall i z, m !! i = Some z <-> exists (j : nat) t, l !! j = Some (i, t) /\ z = i64_wrap (offset + Z.of_nat j).

Record ready_inv (r : Ready) : Prop := {
  ri_nodup : NoDup (transmissions r).*1;
  ri_indexed : indexed (transmission_ids r) (transmissions r) (offset r);
}.

Lemma indexed_elem m l off i : indexed m l off -> (is_Some (m !! i) <-> i ∈ l.*1).
Proof.
  intros Hm. rewrite list_elem_of_fmap. split.
  - intros [z (j & t & Hj & _)%Hm]. exists (i, t). split; [done|]. by eapply list_elem_of_lookup_2.
  - intros ([i' t] & -> & [j Hj]%list_elem_of_lookup). exists (i64_wrap (off + Z.of_nat j)).
    apply Hm. eauto.
Qed.

Lemma indexed_None m l off i : indexed m l off -> (m !! i = None <-> i ∉ l.*1).
Proof. intros Hm. rewrite <-(indexed_elem m l off) by done. apply eq_None_not_Some. Qed.

Lemma indexed_keys m l off :
  NoDup l.*1 -> indexed m l off -> (map_to_list m).*1 ≡ₚ l.*1.
Proof.
  intros Hl Hm. apply NoDup_Permutation; [apply NoDup_fst_map_to_list|done|]. intros i.
  rewrite <-(indexed_elem m l off) by done. rewrite list_elem_of_fmap. split.
  - intros ([i' z] & -> & Hz%elem_of_map_to_list). by exists z.
  - intros [z Hz]. exists (i, z). by rewrite elem_of_map_to_list.
Qed.

Lemma imap_get_lookup (l : list entry) i j t :
  NoDup l.*1 -> l !! j = Some (i, t) -> imap_get i l = Some t.
Proof. intros. apply imap_get_NoDup; [done|]. by eapply list_elem_of_lookup_2. Qed.

Lemma get_spec r i :
  ready_inv r -> len (transmissions r) <= i64_max -> get r i = imap_get i (transmissions r).
Proof.
  intros [Hnd Hix] Hlen. unfold get. destruct (transmission_ids r !! i) as [z|] eqn:Hz; cbn.
  - apply Hix in Hz as (j & t & Hj & ->). pose proof (lookup_lt_Some _ _ _ Hj).
    rewrite logical_index_inv by mlia. rewrite Nat2Z.id, Hj. cbn. by erewrite imap_get_lookup.
  - symmetry. apply imap_get_None. by eapply indexed_None.
Qed.

Lemma filter_bool_perm {A} (p : A -> bool) (l k : list A) :
  l ≡ₚ k -> List.filter p l ≡ₚ List.filter p k.
Proof.
  induction 1 as [| |x y l|]; cbn; repeat case_match; try done; try (by constructor); by etrans.
Qed.

Lemma count_ids_spec p r :
  ready_inv r -> count_ids p r = len (List.filter p (transmissions r).*1).
Proof.
  intros [Hnd Hix]. unfold count_ids, len. f_equal.
  apply Permutation_length, filter_bool_perm. by eapply indexed_keys.
Qed.

Lemma indexed_snoc m l off i t :
  i ∉ l.*1 -> len l <= i64_max -> indexed m l off ->
  indexed (<[i := i64_wrap (usize_as_i64 (len l) + off)]> m) (l ++ [(i, t)]) off.
Proof.
  intros Hi Hl Hm k z. unfold usize_as_i64. rewrite (i64_wrap_id (len l)) by mlia.
  destruct (decide (i = k)) as [<-|Hk].
  - rewrite lookup_insert_eq. split.
    + intros [= <-]. exists (length l), t. split; [by apply list_lookup_middle|].
      f_equal. mlia.
    + intros (j & t' & Hj & ->). apply lookup_snoc_Some in Hj as [[Hlt Hj]|[-> _]].
      * exfalso. apply Hi, list_elem_of_fmap. exists (i, t'). split; [done|]. by eapply list_elem_of_lookup_2.
      * f_equal. f_equal. mlia.
  - rewrite lookup_insert_ne by done. rewrite (Hm k z). split.
    + intros (j & t' & Hj & ->). exists j, t'. split; [by apply lookup_app_l_Some|done].
    + intros (j & t' & Hj & ->). apply lookup_snoc_Some in Hj as [[_ Hj]|[_ ?]]; [eauto|by simplify_eq].
Qed.

Lemma indexed_cons m l off i t :
  i ∉ l.*1 -> indexed m l off ->
  indexed (<[i := i64_wrap (off - 1)]> m) ((i, t) :: l) (i64_wrap (off - 1)).
Proof.
  intros Hi Hm k z. destruct (decide (i = k)) as [<-|Hk].
  - rewrite lookup_insert_eq. split.
    + intros [= <-]. exists 0%nat, t. split; [done|]. rewrite i64_wrap_add_l. f_equal. lia.
    + intros ([|j] & t' & Hj & ->).
      * rewrite i64_wrap_add_l. do 2 f_equal. lia.
      * exfalso. apply Hi, list_elem_of_fmap. exists (i, t'). split; [done|]. by eapply (list_elem_of_lookup_2 _ j).
  - rewrite lookup_insert_ne by done. rewrite (Hm k z). split.
    + intros (j & t' & Hj & ->). exists (S j), t'. split; [done|]. rewrite i64_wrap_add_l. f_equal. lia.
    + intros ([|j] & t' & Hj & ->); [by simplify_eq/=|]. exists j, t'. split; [done|].
      rewrite i64_wrap_add_l. f_equal. lia.
Qed.

Lemma indexed_nil m off : indexed m [] off <-> m = ∅.
Proof.
  split.
  - intros Hm. apply map_empty. intros i. eapply indexed_None; [done|]. apply not_elem_of_nil.
  - intros -> i z. rewrite lookup_empty. split; [done|]. by intros (j & t & Hj & _).
Qed.

Lemma indexed_tail m l off i t :
  i ∉ l.*1 -> indexed m ((i, t) :: l) off -> indexed (delete i m) l (i64_wrap (off + 1)).
Proof.
  intros Hi Hm k z. destruct (decide (i = k)) as [<-|Hk].
  - rewrite lookup_delete_eq. split; [done|]. intros (j & t' & Hj & _). exfalso.
    apply Hi, list_elem_of_fmap. exists (i, t'). split; [done|]. by eapply list_elem_of_lookup_2.
  - rewrite lookup_delete_ne by done. rewrite (Hm k z). split.
    + intros ([|j] & t' & Hj & ->); [by simplify_eq/=|]. exists j, t'. split; [done|].
      rewrite i64_wrap_add_l. f_equal. lia.
    + intros (j & t' & Hj & ->). exists (S j), t'. split; [done|].
      rewrite i64_wrap_add_l. f_equal. lia.
Qed.

Lemma reindex_indexed l2 l1 m :
  NoDup (l1 ++ l2).*1 -> len (l1 ++ l2) <= i64_max -> indexed m l1 0 ->
  indexed (reindex m (len l1) l2) (l1 ++ l2) 0.
Proof.
  revert l1 m. induction l2 as [|[i t] l2 IH]; intros l1 m Hnd Hlen Hm; cbn [reindex].
  { by rewrite app_nil_r. }
  replace (len l1 + 1) with (len (l1 ++ [(i, t)])) by (rewrite len_app; unfold len; cbn; lia).
  rewrite (cons_middle (i, t) l1 l2), app_assoc in *. apply IH; [done..|]. cbn.
  rewrite !fmap_app in Hnd. apply NoDup_app in Hnd as (Hnd & _ & _).
  apply NoDup_app in Hnd as (_ & Hd & _). rewrite !len_app in Hlen.
  pose proof (len_nonneg l2). pose proof (len_nonneg l1). change (len [(i, t)]) with 1 in Hlen.
  pose proof (indexed_snoc m l1 0 i t) as Hs. unfold usize_as_i64 in *.
  rewrite (i64_wrap_id (len l1)) in Hs |- * by mlia.
  rewrite Z.add_0_r, (i64_wrap_id (len l1)) in Hs by mlia.
  apply Hs; [|lia|done]. intros Hin. eapply Hd; [done|]. left.
Qed.

Lemma filter_sublist {A} (p : A -> bool) (l : list A) : List.filter p l `sublist_of` l.
Proof. induction l as [|x l IH]; cbn; [constructor|]. destruct (p x); by constructor. Qed.

Lemma fmap_sublist {A B} (f : A -> B) (l k : list A) :
  l `sublist_of` k -> f <$> l `sublist_of` f <$> k.
Proof. induction 1; cbn; by constructor. Qed.

Lemma ready_new_inv : ready_inv new.
Proof. split; cbn; [constructor|]. by apply indexed_nil. Qed.

Lemma insert_step r i t :
  ready_inv r -> len (transmissions r) <= i64_max ->
  ready_inv (insert r i t).2 /\
  (OutBool (insert r i t).1, transmissions (insert r i t).2) = queue_step (transmissions r) (OpInsert i t).
Proof.
  intros [Hnd Hix] Hlen. unfold insert. cbn.
  destruct (transmission_ids r !! i) as [z|] eqn:Hz; cbn.
  - rewrite decide_True by (eapply indexed_elem; eauto). by split.
  - apply (indexed_None _ _ _ _ Hix) in Hz. rewrite decide_False by done. split; [|done].
    split; cbn; [|by apply indexed_snoc]. rewrite fmap_app. apply NoDup_app.
    split_and!; [done|set_solver|apply NoDup_singleton].
Qed.

Lemma insert_front_step r i t :
  ready_inv r ->
  ready_inv (insert_front r i t).2 /\
  (OutBool (insert_front r i t).1, transmissions (insert_front r i t).2)
  = queue_step (transmissions r) (OpInsertFront i t).
Proof.
  intros [Hnd Hix]. unfold insert_front. cbn.
  destruct (transmission_ids r !! i) as [z|] eqn:Hz; cbn.
  - rewrite decide_True by (eapply indexed_elem; eauto). by split.
  - apply (indexed_None _ _ _ _ Hix) in Hz. rewrite decide_False by done. split; [|done].
    split; cbn; [by constructor|by apply indexed_cons].
Qed.

Lemma remove_front_step r :
  ready_inv r ->
  ready_inv (remove_front r).2 /\
  (OutEntry (remove_front r).1, transmissions (remove_front r).2)
  = queue_step (transmissions r) OpRemoveFront.
Proof.
  intros [Hnd Hix]. unfold remove_front. destruct r as [m l off]; cbn in *.
  destruct l as [|[i t] l]; cbn; [split; [by split|done]|]. cbn in Hnd. apply NoDup_cons in Hnd as [Hi Hnd].
  split; [|done]. pose proof (indexed_tail _ _ _ _ _ Hi Hix) as Ht. split; cbn; [done|].
  case_decide as He; [|done]. rewrite He in Ht |- *.
  assert (l = []) as ->; [|by apply indexed_nil].
  destruct l as [|[k u] l]; [done|].
  assert (is_Some ((∅ : gmap TransmissionID Z) !! k)) as [z Hz].
  { eapply indexed_elem; [done|]. cbn. left. }
  by rewrite lookup_empty in Hz.
Qed.

Lemma clear_solutions_step r :
  ready_inv r -> len (transmissions r) <= i64_max ->
  ready_inv (clear_solutions r) /\
  (OutUnit, transmissions (clear_solutions r)) = queue_step (transmissions r) OpClearSolutions.
Proof.
  intros [Hnd Hix] Hlen. split; [|done]. unfold clear_solutions.
  set (l := List.filter _ _). assert (l `sublist_of` transmissions r) as Hsub by apply filter_sublist.
  assert (NoDup l.*1) as Hl by (eapply sublist_NoDup; [done|by apply fmap_sublist]).
  split; cbn; [done|]. apply (reindex_indexed l []); [done| |by apply indexed_nil].
  apply sublist_length in Hsub. cbn. mlia.
Qed.

(** Every operation does to the deque what the specification does to the queue. *)
Lemma ready_step_refines r o :
  ready_inv r -> len (transmissions r) <= i64_max ->
  ready_inv (step r o).2 /\
  ((step r o).1, transmissions (step r o).2) = queue_step (transmissions r) o.
Proof.
  intros Hr Hlen. destruct o as [i t|i t| | |i|i|]; cbn [step].
  - pose proof (insert_step r i t Hr Hlen). by destruct (insert r i t).
  - pose proof (insert_front_step r i t Hr). by destruct (insert_front r i t).
  - pose proof (remove_front_step r Hr). by destruct (remove_front r).
  - by apply clear_solutions_step.
  - cbn. by rewrite get_spec.
  - split; [done|]. cbn. unfold contains. do 2 f_equal. apply bool_decide_ext.
    destruct Hr as [_ Hix]. by eapply indexed_elem.
  - split; [done|]. cbn. unfold num_ratifications, num_solutions, num_transactions.
    by rewrite !count_ids_spec.
Qed.

Lemma queue_step_length q o : len (queue_step q o).2 <= len q + 1.
Proof.
  pose proof (len_nonneg q).
  destruct o; cbn; repeat case_decide; cbn; rewrite ?len_app, ?len_cons; unfold len in *; cbn;
    try lia; [destruct q; cbn; lia|].
  pose proof (sublist_length _ _ (filter_sublist (fun e => negb (is_solution e.2)) q)). lia.
Qed.

Lemma ready_run_refines os r :
  ready_inv r -> len (transmissions r) + len os <= i64_max ->
  ((run step r os).1, transmissions (run step r os).2) = run queue_step (transmissions r) os.
Proof.
  revert r. induction os as [|o os IH]; intros r Hr Hlen; [done|]. cbn [run].
  rewrite len_cons in Hlen. pose proof (len_nonneg os).
  destruct (ready_step_refines r o Hr ltac:(lia)) as [Hr' Hq].
  pose proof (queue_step_length (transmissions r) o) as Hl. rewrite <-Hq in Hl |- *.
  destruct (step r o) as [out r']. cbn in *. rewrite <-IH by (done || lia).
  by destruct (run step r' os).
Qed.

(** The ready queue is a queue.  Any sequence of insertions at the back
    and at the front, removals from the front, removals of all solutions,
    lookups and counts returns on [Ready] what it returns on a plain list of
    entries with distinct keys, and leaves the same entries in the same order:
    the offset arithmetic of the index never shows. *)
Theorem ready_refines (os : list op) (outs : list output) (r : Ready) :
  len os <= i64_max -> run step new os = (outs, r) ->
  run queue_step [] os = (outs, transmissions r).
Proof.
  intros Hlen Hrun. pose proof (ready_run_refines os new ready_new_inv) as H. rewrite Hrun in H. cbn in H.
  symmetry. apply H. unfold len in *. cbn. lia.
Qed.

End Ready.
End Ready.

(** ** A run *)

Definition sample_id (i : ascii) : TransmissionID (N := TestNetwork) := IdTransaction i "x"%char.
Definition sample_solution_id (i : ascii) : TransmissionID (N := TestNetwork) := IdSolution i "x"%char.
Definition sample_tx : Transmission (N := TestNetwork) := TTransaction (Buffer [7]).
Definition sample_solution : Transmission (N := TestNetwork) := TSolution (Buffer [9]).

Definition sample_ops : list (Ready.op (N := TestNetwork)) :=
  [Ready.OpInsert (sample_id "a"%char) sample_tx;
   Ready.OpInsertFront (sample_solution_id "b"%char) sample_solution;
   Ready.OpInsertFront (sample_id "c"%char) Ratification;
   Ready.OpGet (sample_id "a"%char); Ready.OpInsert (sample_id "a"%char) sample_tx;
   Ready.OpRemoveFront; Ready.OpGet (sample_solution_id "b"%char); Ready.OpCounts;
   Ready.OpClearSolutions; Ready.OpGet (sample_id "a"%char); Ready.OpRemoveFront].
Definition sample_outs : list (Ready.output (N := TestNetwork)) :=
  [Ready.OutBool true; Ready.OutBool true; Ready.OutBool true;
   Ready.OutTransmission (Some sample_tx); Ready.OutBool false;
   Ready.OutEntry (Some (sample_id "c"%char, Ratification));
   Ready.OutTransmission (Some sample_solution); Ready.OutCounts 0 1 1 2;
   Ready.OutUnit; Ready.OutTransmission (Some sample_tx);
   Ready.OutEntry (Some (sample_id "a"%char, sample_tx))].

Lemma ready_refines_witness :
  Ready.run Ready.queue_step [] sample_ops = (sample_outs, []).
Proof.
  apply (Ready.ready_refines sample_ops sample_outs Ready.new); [vm_compute; discriminate|].
  vm_refl.
Defined.
