(* ===== verification/Pending.v ===== *)
(** * Pending requests

    [Pending<T, V>] (node/bft/src/helpers/pending.rs): which peers were asked
    for an item, with the callbacks that wait for it and the time each was
    registered.  A callback is a handle; what [remove] sends to is part of its
    result.  The clock is an argument of the operations that read it.
    [pending_refines] shows that the nested maps are a list of waiting
    callbacks. *)

From S2P Require Import Prelude.

(** [MAX_BATCH_DELAY] is 2,500 ms; [MAX_FETCH_TIMEOUT] three times that, and
    [Duration::as_secs] drops the fraction of a second. *)
Definition MAX_BATCH_DELAY_MS : Z := 2500.
Definition MAX_FETCH_TIMEOUT_MS : Z := 3 * MAX_BATCH_DELAY_MS.
Definition CALLBACK_EXPIRATION_IN_SECS : Z := MAX_FETCH_TIMEOUT_MS / 1000.

Module Pending.

(** [(callback, timestamp, request_sent)], and the map of one item. *)
Abbreviation callback_entry C := (C * Z * bool)%type.
Abbreviation peer_map A C := (gmap A (list (callback_entry C))).
Abbreviation pending_map T A C := (gmap T (peer_map A C)).

Section Pending.
Context `{Countable T} `{Countable A} {C : Type}.
Implicit Types (p : pending_map T A C) (m : peer_map A C).

(** [max_redundant_requests], from the committee of the round or the maximum
    committee size of the height. *)
Definition max_redundant_requests (num_members : result Z) (max_certificates : option Z) : result Z :=
  num_validators ← match num_members with
                   | Ok n => Ok n
                   | _ => ok_or "Couldn't obtain MAX_CERTIFICATES" max_certificates
                   end;
  Ok (1 + num_validators `div` 3).

(** [Pending::new]. *)
Definition new : pending_map T A C := ∅.
(** [Pending::is_empty], [Pending::len] and [Pending::contains]. *)
Definition is_empty p : bool := bool_decide (p = ∅).
Definition num_items p : Z := Z.of_nat (size p).
Definition contains p (item : T) : bool := bool_decide (is_Some (p !! item)).
(** [Pending::contains_peer]. *)
Definition contains_peer p (item : T) (peer_ip : A) : bool :=
  match p !! item with Some m => bool_decide (is_Some (m !! peer_ip)) | None => false end.

(** [callbacks.iter().any(|(_, _, sent)| *sent)]. *)
Definition any_sent (callbacks : list (callback_entry C)) : bool := existsb (fun c => c.2) callbacks.

(** [Pending::contains_peer_with_sent_request]. *)
Definition contains_peer_with_sent_request p (item : T) (peer_ip : A) : bool :=
  match p !! item with Some m => default false (any_sent <$> m !! peer_ip) | None => false end.
(** [Pending::get_peers]. *)
Definition get_peers p (item : T) : option (gset A) := dom <$> p !! item.
(** [Pending::get_sent_peers]. *)
Definition get_sent_peers p (item : T) : option (gset A) :=
  (fun m => dom (filter (fun e => any_sent e.2 = true) m)) <$> p !! item.

(** [now - *timestamp <= CALLBACK_EXPIRATION_IN_SECS]. *)
Definition is_live (now : Z) (c : callback_entry C) : Prop :=
  i64_wrap (now - c.1.2) <= CALLBACK_EXPIRATION_IN_SECS.

#[export] Instance is_live_dec now c : Decision (is_live now c).
Proof. unfold is_live. apply _. Defined.

(** The two [retain]s on the map of an item. *)
Definition clear_peers (now : Z) m : peer_map A C :=
  filter (fun e => e.2 <> []) ((fun callbacks => filter (is_live now) callbacks) <$> m).

(** [Pending::clear_expired_callbacks_for_item]. *)
Definition clear_expired_callbacks_for_item p (now : Z) (item : T) : pending_map T A C :=
  match p !! item with
  | Some m =>
      let m := clear_peers now m in
      if decide (m = ∅) then delete item p else <[item := m]> p
  | None => p
  end.

(** [Pending::clear_expired_callbacks]. *)
Definition clear_expired_callbacks p (now : Z) : pending_map T A C :=
  filter (fun e => e.2 <> ∅) (clear_peers now <$> p).

(** [Pending::num_callbacks]. *)
Definition num_callbacks p (now : Z) (item : T) : Z * pending_map T A C :=
  let p := clear_expired_callbacks_for_item p now item in
  (match p !! item with
   | Some m => foldl (fun acc e => u64_saturating_add acc (len e.2)) 0 (map_to_list m)
   | None => 0
   end, p).

(** [Pending::num_sent_requests]. *)
Definition num_sent_requests p (now : Z) (item : T) : Z * pending_map T A C :=
  let p := clear_expired_callbacks_for_item p now item in
  (match p !! item with
   | Some m => len (filter (fun c => c.2 = true) (map_to_list m ≫= snd))
   | None => 0
   end, p).

(** [Pending::insert]. *)
Definition insert p (now : Z) (item : T) (peer_ip : A) (callback : option (C * bool))
    : bool * pending_map T A C :=
  let entry := default ∅ (p !! item) in
  let is_new_peer := bool_decide (entry !! peer_ip = None) in
  let peer_entry := default [] (entry !! peer_ip) in
  let peer_entry := match callback with
                    | Some (callback, request_sent) => peer_entry ++ [(callback, now, request_sent)]
                    | None => peer_entry
                    end in
  let p := <[item := <[peer_ip := peer_entry]> entry]> p in
  (is_new_peer, clear_expired_callbacks_for_item p now item).

(** [Pending::remove]: the peers, and the callbacks that are sent the value. *)
Definition remove p (item : T) (with_value : bool) : option (gset A) * list C * pending_map T A C :=
  match p !! item with
  | Some m =>
      (Some (dom m),
       if with_value then (fun c => c.1.1) <$> (map_to_list m ≫= snd) else [],
       delete item p)
  | None => (None, [], p)
  end.

(** ** The waiting callbacks *)

(** One waiting callback: its item, its peer and its entry. *)
Record waiting_entry := mk_waiting { w_item : T; w_peer : A; w_entry : callback_entry C }.

Definition waiting_peers (item : T) m : list waiting_entry :=
  map_to_list m ≫= fun e => mk_waiting item e.1 <$> e.2.
Definition waiting p : list waiting_entry :=
  map_to_list p ≫= fun e => waiting_peers e.1 e.2.

(** No empty list and no empty map is kept. *)
Definition pending_inv p : Prop :=
  forall item m, p !! item = Some m -> m <> ∅ /\ forall peer l, m !! peer = Some l -> l <> [].

Lemma waiting_peers_insert item m peer l :
  m !! peer = None ->
  waiting_peers item (<[peer := l]> m) ≡ₚ (mk_waiting item peer <$> l) ++ waiting_peers item m.
Proof. intros Hm. unfold waiting_peers. by rewrite map_to_list_insert. Qed.

Lemma waiting_insert p item m :
  p !! item = None -> waiting (<[item := m]> p) ≡ₚ waiting_peers item m ++ waiting p.
Proof. intros Hp. unfold waiting. by rewrite map_to_list_insert. Qed.

Lemma waiting_peers_empty item : waiting_peers item ∅ = [].
Proof. unfold waiting_peers. by rewrite map_to_list_empty. Qed.
Lemma waiting_empty : waiting ∅ = [].
Proof. unfold waiting. by rewrite map_to_list_empty. Qed.

(** The entries of one item and those of the others. *)
Lemma waiting_split p item :
  waiting p ≡ₚ waiting_peers item (default ∅ (p !! item)) ++ waiting (delete item p).
Proof.
  destruct (p !! item) as [m|] eqn:Hp; cbn.
  - rewrite <-(insert_delete_id p item m) at 1 by done. apply waiting_insert, lookup_delete_eq.
  - by rewrite waiting_peers_empty, delete_id.
Qed.

Lemma waiting_peers_split item m peer :
  waiting_peers item m ≡ₚ (mk_waiting item peer <$> default [] (m !! peer)) ++ waiting_peers item (delete peer m).
Proof.
  destruct (m !! peer) as [l|] eqn:Hm; cbn.
  - rewrite <-(insert_delete_id m peer l) at 1 by done. apply waiting_peers_insert, lookup_delete_eq.
  - by rewrite delete_id.
Qed.

Lemma elem_of_waiting_peers item m w :
  w ∈ waiting_peers item m <-> w_item w = item /\ exists l, m !! w_peer w = Some l /\ w_entry w ∈ l.
Proof.
  unfold waiting_peers. rewrite list_elem_of_bind. split.
  - intros ([peer l] & (c & -> & Hc)%list_elem_of_fmap & Hl%elem_of_map_to_list). cbn in *. eauto.
  - intros (<- & l & Hl & Hc). exists (w_peer w, l). rewrite elem_of_map_to_list. split; [|done].
    apply list_elem_of_fmap. exists (w_entry w). by destruct w.
Qed.

Lemma elem_of_waiting p w :
  w ∈ waiting p <-> exists m, p !! w_item w = Some m /\ w ∈ waiting_peers (w_item w) m.
Proof.
  unfold waiting. rewrite list_elem_of_bind. split.
  - intros ([item m] & Hw & Hm%elem_of_map_to_list). cbn in *.
    pose proof (proj1 (proj1 (elem_of_waiting_peers _ _ _) Hw)) as <-. eauto.
  - intros (m & Hm & Hw). exists (w_item w, m). by rewrite elem_of_map_to_list.
Qed.

Lemma filter_waiting now item peer (l : list (callback_entry C)) :
  filter (fun w => is_live now (w_entry w)) (mk_waiting item peer <$> l)
  = mk_waiting item peer <$> filter (is_live now) l.
Proof.
  induction l as [|c l IH]; [done|]. rewrite fmap_cons, !filter_cons, IH. cbn [w_entry]. by case_decide.
Qed.

(** Clearing drops exactly the expired callbacks. *)
Lemma waiting_clear_peers now item m :
  waiting_peers item (clear_peers now m) ≡ₚ filter (fun w => is_live now (w_entry w)) (waiting_peers item m).
Proof.
  unfold clear_peers. induction m as [|peer l m Hm IH] using map_ind.
  - by rewrite fmap_empty, map_filter_empty, waiting_peers_empty.
  - rewrite (waiting_peers_insert item m peer l Hm), filter_app, fmap_insert, filter_waiting.
    destruct (decide (filter (is_live now) l = [])) as [He|Hne].
    + rewrite map_filter_insert_False by (cbn; tauto). rewrite He. cbn.
      rewrite delete_id by (by rewrite lookup_fmap, Hm). exact IH.
    + rewrite map_filter_insert_True by done. rewrite waiting_peers_insert.
      * by rewrite IH.
      * apply map_lookup_filter_None. left. by rewrite lookup_fmap, Hm.
Qed.

Lemma clear_peers_lists now m peer l : clear_peers now m !! peer = Some l -> l <> [].
Proof. unfold clear_peers. by intros [_ ?]%map_lookup_filter_Some. Qed.

(** What [clear_expired_callbacks_for_item] keeps. *)
Definition kept (now : Z) (item : T) (w : waiting_entry) : Prop :=
  w_item w <> item \/ is_live now (w_entry w).
#[export] Instance kept_dec now item w : Decision (kept now item w).
Proof. unfold kept. apply _. Defined.

Lemma filter_all {X} (P : X -> Prop) `{!forall x, Decision (P x)} (l : list X) :
  (forall x, x ∈ l -> P x) -> filter P l = l.
Proof.
  induction l as [|x l IH]; intros Hl; [done|]. rewrite filter_cons, decide_True by (apply Hl; left).
  f_equal. apply IH. intros. apply Hl. by right.
Qed.

Lemma filter_ext {X} (P Q : X -> Prop) `{!forall x, Decision (P x)} `{!forall x, Decision (Q x)} (l : list X) :
  (forall x, x ∈ l -> P x <-> Q x) -> filter P l = filter Q l.
Proof.
  induction l as [|x l IH]; intros Hl; [done|]. rewrite !filter_cons.
  pose proof (Hl x ltac:(left)). rewrite IH by (intros; apply Hl; by right). repeat case_decide; tauto.
Qed.

Lemma waiting_peers_item item m w : w ∈ waiting_peers item m -> w_item w = item.
Proof. by intros [? _]%elem_of_waiting_peers. Qed.

Lemma waiting_delete_item p item w : w ∈ waiting (delete item p) -> w_item w <> item.
Proof.
  intros (m & Hm & _)%elem_of_waiting <-. by rewrite lookup_delete_eq in Hm.
Qed.

(** [clear_expired_callbacks_for_item] drops the expired callbacks of the item
    and restores the invariant for it. *)
Lemma clear_item_spec p now item :
  pending_inv (delete item p) ->
  pending_inv (clear_expired_callbacks_for_item p now item) /\
  waiting (clear_expired_callbacks_for_item p now item) ≡ₚ filter (kept now item) (waiting p).
Proof.
  intros Hinv.
  assert (filter (kept now item) (waiting p) ≡ₚ
    waiting_peers item (clear_peers now (default ∅ (p !! item))) ++ waiting (delete item p)) as ->.
  { rewrite (waiting_split p item), filter_app, waiting_clear_peers. apply Permutation_app.
    - erewrite filter_ext; [done|]. intros w Hw%waiting_peers_item. unfold kept. tauto.
    - rewrite filter_all; [done|]. intros w ?%waiting_delete_item. by left. }
  unfold clear_expired_callbacks_for_item. destruct (p !! item) as [m|] eqn:Hp; cbn.
  - case_decide as He.
    + split; [done|]. by rewrite He, waiting_peers_empty.
    + split.
      * intros i m' Hi. destruct (decide (item = i)) as [<-|Hne].
        -- rewrite lookup_insert_eq in Hi. simplify_eq. split; [done|]. intros. by eapply clear_peers_lists.
        -- rewrite lookup_insert_ne in Hi by done. apply (Hinv i). by rewrite lookup_delete_ne.
      * rewrite <-insert_delete_eq. apply waiting_insert, lookup_delete_eq.
  - rewrite delete_id in * by done. split; [done|].
    unfold clear_peers. by rewrite fmap_empty, map_filter_empty, waiting_peers_empty.
Qed.

Lemma pending_inv_delete p item : pending_inv p -> pending_inv (delete item p).
Proof. intros Hinv i m [_ ?]%lookup_delete_Some. by apply (Hinv i). Qed.

Lemma clear_all_spec p now :
  pending_inv (clear_expired_callbacks p now) /\
  waiting (clear_expired_callbacks p now) ≡ₚ filter (fun w => is_live now (w_entry w)) (waiting p).
Proof.
  unfold clear_expired_callbacks. split.
  - intros i m [Hm Hne]%map_lookup_filter_Some. split; [done|]. rewrite lookup_fmap in Hm.
    destruct (p !! i); cbn in Hm; simplify_eq. intros. by eapply clear_peers_lists.
  - induction p as [|item m p Hp IH] using map_ind.
    + by rewrite fmap_empty, map_filter_empty, waiting_empty.
    + rewrite (waiting_insert p item m Hp), filter_app, fmap_insert, <-waiting_clear_peers.
      destruct (decide (clear_peers now m = ∅)) as [He|Hne].
      * rewrite map_filter_insert_False by (cbn; tauto). rewrite He, waiting_peers_empty. cbn.
        rewrite delete_id by (by rewrite lookup_fmap, Hp). exact IH.
      * rewrite map_filter_insert_True by done. rewrite waiting_insert.
        -- by rewrite IH.
        -- apply map_lookup_filter_None. left. by rewrite lookup_fmap, Hp.
Qed.

(** The waiting callbacks of one item. *)
Definition waiting_for (item : T) (q : list waiting_entry) : list waiting_entry :=
  filter (fun w => w_item w = item) q.

Lemma waiting_for_spec p item :
  waiting_for item (waiting p) ≡ₚ waiting_peers item (default ∅ (p !! item)).
Proof.
  unfold waiting_for. rewrite (waiting_split p item), filter_app.
  rewrite filter_all by apply waiting_peers_item.
  rewrite (filter_ext _ (fun _ => False)); [|intros w Hw%waiting_delete_item; tauto].
  assert (forall l : list waiting_entry, filter (fun _ => False) l = []) as ->; [|by rewrite app_nil_r].
  intros l. induction l as [|w l IH]; [done|]. rewrite filter_cons. case_decide; [done|exact IH].
Qed.

(** Under the invariant a peer is recorded exactly while a callback waits. *)
Lemma peer_waits p item peer :
  pending_inv p ->
  (is_Some (default ∅ (p !! item) !! peer) <-> exists w, w ∈ waiting p /\ w_item w = item /\ w_peer w = peer).
Proof.
  intros Hinv. destruct (p !! item) as [m|] eqn:Hp; cbn.
  - split.
    + intros [l Hl]. destruct (Hinv _ _ Hp) as [_ Hm]. pose proof (Hm _ _ Hl) as Hne.
      destruct l as [|c l]; [done|]. exists (mk_waiting item peer c). split_and!; [|done|done].
      apply elem_of_waiting. cbn. exists m. split; [done|]. apply elem_of_waiting_peers. cbn.
      split; [done|]. eexists. split; [done|left].
    + intros (w & (m' & Hm' & (_ & l & Hl & _)%elem_of_waiting_peers)%elem_of_waiting & <- & <-).
      simplify_eq. by eexists.
  - split; [intros [l Hl]; by rewrite lookup_empty in Hl|].
    intros (w & (m' & Hm' & _)%elem_of_waiting & <- & _). simplify_eq.
Qed.

(** ** The operations as one interface *)

Inductive op : Type :=
| OpInsert (now : Z) (item : T) (peer_ip : A) (callback : option (C * bool))
| OpRemove (item : T) (with_value : bool)
| OpClearItem (now : Z) (item : T)
| OpClear (now : Z)
| OpContains (item : T)
| OpContainsPeer (item : T) (peer_ip : A)
| OpNumCallbacks (now : Z) (item : T).

Inductive output : Type :=
| OutBool (b : bool)
| OutRemoved (peers : option (gset A)) (notified : list C)
| OutCount (n : Z)
| OutUnit.

Definition step p (o : op) : output * pending_map T A C :=
  match o with
  | OpInsert now item peer_ip cb => let '(b, p) := insert p now item peer_ip cb in (OutBool b, p)
  | OpRemove item v => let '(peers, notified, p) := remove p item v in (OutRemoved peers notified, p)
  | OpClearItem now item => (OutUnit, clear_expired_callbacks_for_item p now item)
  | OpClear now => (OutUnit, clear_expired_callbacks p now)
  | OpContains item => (OutBool (contains p item), p)
  | OpContainsPeer item peer_ip => (OutBool (contains_peer p item peer_ip), p)
  | OpNumCallbacks now item => let '(n, p) := num_callbacks p now item in (OutCount n, p)
  end.

(** The specification, on the list of waiting callbacks: an operation on an
    item first drops what has expired for it. *)
Definition spec_step (q : list waiting_entry) (o : op) : output * list waiting_entry :=
  match o with
  | OpInsert now item peer_ip cb =>
      (OutBool (bool_decide (Forall (fun w => ~ (w_item w = item /\ w_peer w = peer_ip)) q)),
       filter (kept now item)
         (match cb with Some (c, sent) => [mk_waiting item peer_ip (c, now, sent)] | None => [] end ++ q))
  | OpRemove item v =>
      (OutRemoved (if decide (waiting_for item q = []) then None
                   else Some (list_to_set (w_peer <$> waiting_for item q)))
         (if v then (fun w => (w_entry w).1.1) <$> waiting_for item q else []),
       filter (fun w => w_item w <> item) q)
  | OpClearItem now item => (OutUnit, filter (kept now item) q)
  | OpClear now => (OutUnit, filter (fun w => is_live now (w_entry w)) q)
  | OpContains item => (OutBool (bool_decide (waiting_for item q <> [])), q)
  | OpContainsPeer item peer_ip =>
      (OutBool (negb (bool_decide (Forall (fun w => ~ (w_item w = item /\ w_peer w = peer_ip)) q))), q)
  | OpNumCallbacks now item =>
      (OutCount (Z.min u64_max (len (waiting_for item (filter (kept now item) q)))),
       filter (kept now item) q)
  end.

(** Outputs are the same up to the order in which callbacks are notified,
    which is the order of a hash map. *)
Definition same_output (o1 o2 : output) : Prop :=
  match o1, o2 with
  | OutRemoved peers1 l1, OutRemoved peers2 l2 => peers1 = peers2 /\ l1 ≡ₚ l2
  | _, _ => o1 = o2
  end.

Fixpoint run {S} (st : S -> op -> output * S) (s : S) (os : list op) : list output * S :=
  match os with
  | [] => ([], s)
  | o :: os => let '(out, s) := st s o in let '(outs, s) := run st s os in (out :: outs, s)
  end.

Lemma no_peer_spec p item peer :
  pending_inv p ->
  (default ∅ (p !! item) !! peer = None <-> Forall (fun w => ~ (w_item w = item /\ w_peer w = peer)) (waiting p)).
Proof.
  intros Hinv. rewrite eq_None_not_Some, (peer_waits p item peer Hinv), Forall_forall. naive_solver.
Qed.

Lemma insert_refines p now item peer cb :
  pending_inv p ->
  let '(b, p') := insert p now item peer cb in
  let '(out, q) := spec_step (waiting p) (OpInsert now item peer cb) in
  pending_inv p' /\ OutBool b = out /\ waiting p' ≡ₚ q.
Proof.
  intros Hinv. unfold insert. cbn [spec_step]. set (entry := default ∅ (p !! item)).
  set (l := match cb with Some (c, sent) => default [] (entry !! peer) ++ [(c, now, sent)]
                        | None => default [] (entry !! peer) end).
  set (p1 := <[item := <[peer := l]> entry]> p).
  assert (delete item p1 = delete item p) as Hdel by apply delete_insert_eq.
  assert (waiting p1 ≡ₚ
    match cb with Some (c, sent) => [mk_waiting item peer (c, now, sent)] | None => [] end ++ waiting p) as Hw.
  { rewrite (waiting_split p1 item), Hdel, (waiting_split p item). unfold p1. rewrite lookup_insert_eq. cbn.
    fold entry. rewrite (waiting_peers_split item (<[peer := l]> entry) peer), delete_insert_eq, lookup_insert_eq.
    rewrite (waiting_peers_split item entry peer). cbn. unfold l. destruct cb as [[c sent]|]; cbn; [|done].
    rewrite fmap_app. cbn. rewrite <-!app_assoc. cbn. symmetry. apply Permutation_middle. }
  destruct (clear_item_spec p1 now item) as [Hi Hp]; [rewrite Hdel; by apply pending_inv_delete|].
  split_and!; [done| |by rewrite Hp, Hw].
  f_equal. apply bool_decide_ext. by apply no_peer_spec.
Qed.

Lemma contains_waiting p item :
  pending_inv p -> (is_Some (p !! item) <-> waiting_for item (waiting p) <> []).
Proof.
  intros Hinv. pose proof (waiting_for_spec p item) as Hw. split.
  - intros [m Hm]. destruct (Hinv _ _ Hm) as [Hne Hl]. rewrite Hm in Hw. cbn in Hw.
    destruct (map_choose m Hne) as (peer & l & Hpl). pose proof (Hl _ _ Hpl). destruct l as [|c l]; [done|].
    assert (mk_waiting item peer c ∈ waiting_for item (waiting p)) as Hin.
    { rewrite Hw. apply elem_of_waiting_peers. cbn. split; [done|]. eexists. split; [done|left]. }
    intros Hnil. rewrite Hnil in Hin. set_solver.
  - intros Hne. destruct (p !! item) as [m|]; [by eexists|]. exfalso. cbn in Hw.
    rewrite waiting_peers_empty in Hw. by apply Permutation_nil_r in Hw.
Qed.

Lemma dom_waiting_peers item m :
  (forall peer l, m !! peer = Some l -> l <> []) ->
  dom m = (list_to_set (w_peer <$> waiting_peers item m) : gset A).
Proof.
  intros Hl. apply set_eq. intros peer. rewrite elem_of_dom, elem_of_list_to_set, list_elem_of_fmap. split.
  - intros [l Hpl]. pose proof (Hl _ _ Hpl). destruct l as [|c l]; [done|].
    exists (mk_waiting item peer c). split; [done|]. apply elem_of_waiting_peers. cbn.
    split; [done|]. eexists. split; [done|left].
  - intros (w & -> & (_ & l & Hpl & _)%elem_of_waiting_peers). by eexists.
Qed.

Lemma waiting_callbacks item m :
  (fun w => (w_entry w).1.1) <$> waiting_peers item m = (fun c => c.1.1) <$> (map_to_list m ≫= snd).
Proof.
  unfold waiting_peers. induction (map_to_list m) as [|[peer l] k IH]; [done|]. cbn.
  rewrite !fmap_app. f_equal; [|exact IH]. rewrite <-list_fmap_compose. done.
Qed.

Lemma waiting_delete p item :
  waiting (delete item p) ≡ₚ filter (fun w => w_item w <> item) (waiting p).
Proof.
  rewrite (waiting_split p item), filter_app.
  rewrite (filter_all _ (waiting (delete item p))) by apply waiting_delete_item.
  rewrite (filter_ext _ (fun _ => False)); [|intros w Hw%waiting_peers_item; tauto].
  induction (waiting_peers item _) as [|w l IH]; [done|]. rewrite filter_cons. case_decide; [done|exact IH].
Qed.

Lemma remove_refines p item v :
  pending_inv p ->
  let '(peers, notified, p') := remove p item v in
  let '(out, q) := spec_step (waiting p) (OpRemove item v) in
  pending_inv p' /\ same_output (OutRemoved peers notified) out /\ waiting p' ≡ₚ q.
Proof.
  intros Hinv. unfold remove. cbn [spec_step]. pose proof (waiting_for_spec p item) as Hw.
  pose proof (contains_waiting p item Hinv) as Hc.
  destruct (p !! item) as [m|] eqn:Hp; cbn [same_output].
  - rewrite decide_False by (apply Hc; by eexists). cbn in Hw. split_and!.
    + by apply pending_inv_delete.
    + f_equal. rewrite (dom_waiting_peers item m) by apply (Hinv _ _ Hp). apply leibniz_equiv.
      by rewrite Hw.
    + destruct v; [|done]. by rewrite Hw, waiting_callbacks.
    + apply waiting_delete.
  - assert (waiting_for item (waiting p) = []) as Hnil.
    { destruct (waiting_for item (waiting p)) eqn:E; [done|]. destruct Hc as [_ Hc].
      by destruct (Hc ltac:(done)). }
    rewrite Hnil, decide_True by done. split_and!; [done|done|by destruct v|].
    by rewrite <-waiting_delete, delete_id.
Qed.

Lemma count_waiting item m :
  foldl (fun acc e => u64_saturating_add acc (len e.2)) 0 (map_to_list m)
  = Z.min u64_max (len (waiting_peers item m)).
Proof.
  rewrite (foldl_saturating_add (fun e => len e.2)); [|intros; apply len_nonneg|mlia].
  rewrite Z.add_0_l. f_equal. unfold waiting_peers.
  induction (map_to_list m) as [|[peer l] k IH]; [done|]. cbn. rewrite len_app, <-IH.
  unfold sumZ. cbn. f_equal. unfold len. by rewrite length_fmap.
Qed.

Lemma num_callbacks_refines p now item :
  pending_inv p ->
  let '(n, p') := num_callbacks p now item in
  let '(out, q) := spec_step (waiting p) (OpNumCallbacks now item) in
  pending_inv p' /\ OutCount n = out /\ waiting p' ≡ₚ q.
Proof.
  intros Hinv. unfold num_callbacks. cbn [spec_step].
  destruct (clear_item_spec p now item) as [Hi Hp]; [by apply pending_inv_delete|].
  set (p' := clear_expired_callbacks_for_item p now item) in *. split_and!; [done| |done].
  f_equal. assert (len (waiting_for item (filter (kept now item) (waiting p)))
    = len (waiting_peers item (default ∅ (p' !! item)))) as ->.
  { unfold len. f_equal. apply Permutation_length. rewrite <-waiting_for_spec. unfold waiting_for.
    by rewrite Hp. }
  destruct (p' !! item) as [m|]; cbn; [apply count_waiting|]. by rewrite waiting_peers_empty.
Qed.

Lemma pending_step_refines p o :
  pending_inv p ->
  pending_inv (step p o).2 /\ same_output (step p o).1 (spec_step (waiting p) o).1 /\
  waiting (step p o).2 ≡ₚ (spec_step (waiting p) o).2.
Proof.
  intros Hinv. destruct o as [now item peer cb|item v|now item|now|item|item peer|now item]; cbn [step].
  - pose proof (insert_refines p now item peer cb Hinv) as Hr. destruct (insert p now item peer cb).
    destruct Hr as (? & Ho & ?). split_and!; [done|exact Ho|done].
  - pose proof (remove_refines p item v Hinv) as Hr. by destruct (remove p item v) as [[peers l] p'].
  - destruct (clear_item_spec p now item) as [? ?]; [by apply pending_inv_delete|done].
  - by destruct (clear_all_spec p now).
  - split_and!; [done| |done]. cbn. f_equal. apply bool_decide_ext. by apply contains_waiting.
  - split_and!; [done| |done]. cbn. f_equal. pose proof (no_peer_spec p item peer Hinv) as Hn.
    unfold contains_peer. destruct (p !! item) as [m|]; cbn in Hn.
    + rewrite <-bool_decide_not. apply bool_decide_ext. rewrite <-Hn. symmetry. apply not_eq_None_Some.
    + rewrite bool_decide_eq_true_2 by (apply Hn, lookup_empty). done.
  - pose proof (num_callbacks_refines p now item Hinv) as Hr. destruct (num_callbacks p now item).
    destruct Hr as (? & Ho & ?). split_and!; [done|exact Ho|done].
Qed.

#[export] Instance waiting_for_perm item : Proper (Permutation ==> Permutation) (waiting_for item).
Proof. intros q1 q2 Hq. unfold waiting_for. by rewrite Hq. Qed.

(** The specification does not depend on the order of the list. *)
Lemma spec_step_perm q1 q2 o :
  q1 ≡ₚ q2 ->
  same_output (spec_step q1 o).1 (spec_step q2 o).1 /\ (spec_step q1 o).2 ≡ₚ (spec_step q2 o).2.
Proof.
  intros Hq.
  assert (forall item, waiting_for item q1 = [] <-> waiting_for item q2 = []) as Hnil.
  { intros item. pose proof (waiting_for_perm item _ _ Hq) as Hw. split; intros Hz; rewrite Hz in Hw.
    - by apply Permutation_nil_l in Hw.
    - by apply Permutation_nil_r in Hw. }
  destruct o as [now item peer cb|item v|now item|now|item|item peer|now item]; cbn.
  - split; [|by rewrite Hq]. f_equal. apply bool_decide_ext. by rewrite Hq.
  - split_and!; [| |by rewrite Hq].
    + rewrite (decide_ext _ _ _ _ (Hnil item)). case_decide; [done|]. f_equal. apply leibniz_equiv. by rewrite Hq.
    + destruct v; [by rewrite Hq|done].
  - split; [done|by rewrite Hq].
  - split; [done|by rewrite Hq].
  - split; [|done]. f_equal. apply bool_decide_ext. by rewrite Hnil.
  - split; [|done]. do 2 f_equal. apply bool_decide_ext. by rewrite Hq.
  - split; [|by rewrite Hq]. do 2 f_equal. unfold len. by rewrite Hq.
Qed.

Lemma same_output_trans o1 o2 o3 : same_output o1 o2 -> same_output o2 o3 -> same_output o1 o3.
Proof.
  destruct o1, o2, o3; cbn; try congruence. intros [-> ?] [-> ?]. split; [done|by etrans].
Qed.

Lemma pending_run_refines os p q :
  pending_inv p -> waiting p ≡ₚ q ->
  Forall2 same_output (run step p os).1 (run spec_step q os).1 /\
  waiting (run step p os).2 ≡ₚ (run spec_step q os).2.
Proof.
  revert p q. induction os as [|o os IH]; intros p q Hinv Hq; [by split; [constructor|]|]. cbn [run].
  destruct (pending_step_refines p o Hinv) as (Hinv' & Ho & Hw). destruct (spec_step_perm _ _ o Hq) as [Ho' Hw'].
  destruct (step p o) as [out p'], (spec_step q o) as [out' q']. cbn in *.
  destruct (IH p' q' Hinv' ltac:(by etrans)) as [Hf Hr].
  destruct (run step p' os), (run spec_step q' os). cbn in *.
  split; [|done]. constructor; [|done]. by eapply same_output_trans.
Qed.

(** Pending requests are a list of waiting callbacks.  Any sequence of
    insertions, removals, expirations and queries returns on [Pending] what it
    returns on a plain list in which a callback is added when it is registered,
    leaves when its item is removed (being notified once, if there is a value)
    or when it has waited longer than the expiration; what waits at the end is
    the same.  So no callback is lost, kept too long or notified twice. *)
Theorem pending_refines (os : list op) :
  Forall2 same_output (run step new os).1 (run spec_step [] os).1 /\
  waiting (run step new os).2 ≡ₚ (run spec_step [] os).2.
Proof.
  apply pending_run_refines; [|by unfold new; rewrite waiting_empty].
  intros item m Hm. unfold new in Hm. by rewrite lookup_empty in Hm.
Qed.
End Pending.
End Pending.

(** ** Expiration and notification, on an example *)

Example pending_run :
  (Pending.run (T := Z) (A := Z) (C := Z) Pending.step Pending.new
     [Pending.OpInsert 100 1 7 (Some (11, true)); Pending.OpInsert 105 1 8 (Some (12, false));
      Pending.OpNumCallbacks 107 1; Pending.OpNumCallbacks 108 1; Pending.OpRemove 1 true;
      Pending.OpContains 1]).1
  = [Pending.OutBool true; Pending.OutBool true; Pending.OutCount 2; Pending.OutCount 1;
     Pending.OutRemoved (Some {[8]}) [12]; Pending.OutBool false].
Proof. vm_refl. Qed.
