(* ===== verification/Cache.v ===== *)
(** * The rate-limiting cache

    [Cache<N>] of the gateway (node/bft/src/helpers/cache.rs): sliding-window
    counters for inbound and outbound traffic, request counters and the set of
    block requests in flight.  The clock is an argument of the operations that
    read it. *)

From S2P Require Import Prelude Network Narwhal.

Module Cache.

(** ** Sliding windows *)

(** [BTreeMap<i64, HashMap<K, u32>>]. *)
Abbreviation window K := (gmap Z (gmap K Z)).

Section Window.
Context `{Countable K}.

(** [cache_hits += *cache_keys.get(&key).unwrap_or(&0)]. *)
Definition add_hits (key : K) (hits : Z) (cache_keys : gmap K Z) : Z :=
  u32_wrap (hits + default 0 (cache_keys !! key)).

(** [*map_write.entry(now).or_default().entry(key).or_default() += 1]. *)
Definition bump (now : Z) (key : K) (map : window K) : window K :=
  let cache_keys := default ∅ (map !! now) in
  <[now := <[key := u32_wrap (default 0 (cache_keys !! key) + 1)]> cache_keys]> map.

(** [Cache::retain_and_insert]. *)
Definition retain_and_insert (map : window K) (key : K) (now interval_in_secs : Z) : result (Z * window K) :=
  let map := bump now key map in
  let cutoff := i64_saturating_sub now interval_in_secs in
  '(oldest, _) ← unwrap "map_write.first_key_value().unwrap()" (btree_first map);
  if decide (cutoff <= oldest) then
    Ok (foldl (add_hits key) 0 (btree_iter map).*2, map)
  else
    let retained := btree_iter (filter (fun e => cutoff <= e.1) map) in
    Ok (foldl (fun '(cache_hits, map) e =>
                 (add_hits key cache_hits e.2, <[e.1 := e.2]> map)) (0, ∅) retained).

(** A sequence of insertions with one interval, newest last. *)
Fixpoint inserts (interval : Z) (map : window K) (events : list (Z * K)) : result (list Z * window K) :=
  match events with
  | [] => Ok ([], map)
  | (now, key) :: events =>
      '(hits, map) ← retain_and_insert map key now interval;
      '(all_hits, map) ← inserts interval map events;
      Ok (hits :: all_hits, map)
  end.
End Window.

(** ** Counters *)

Section Counter.
Context `{Countable K}.

(** [Cache::increment_counter]. *)
Definition increment_counter (map : gmap K Z) (key : K) : Z * gmap K Z :=
  let entry := u32_saturating_add (default 0 (map !! key)) 1 in
  (entry, <[key := entry]> map).

(** [Cache::decrement_counter]. *)
Definition decrement_counter (map : gmap K Z) (key : K) : Z * gmap K Z :=
  let entry := default 0 (map !! key) in
  let value := saturating_sub entry 1 in
  if decide (entry = 0) then (value, delete key map) else (value, <[key := value]> map).
End Counter.

(** ** The cache *)

(** [BlockRequest]. *)
Record BlockRequest := mk_block_request { start_height : Z; end_height : Z }.

#[global] Instance BlockRequest_eq_dec : EqDecision BlockRequest.
Proof. solve_decision. Defined.
#[global] Instance BlockRequest_countable : Countable BlockRequest.
Proof.
  refine (inj_countable' (fun r => (start_height r, end_height r))
    (fun p => mk_block_request p.1 p.2) _). by intros [].
Defined.

Section Cache.
Context `{N : Network} `{Countable IpAddr} `{Countable SocketAddr}.

Record Cache := mk_cache {
  seen_inbound_connections : window IpAddr;
  seen_inbound_events : window SocketAddr;
  seen_inbound_certificates : window Field;
  seen_inbound_transmissions : window TransmissionID;
  seen_inbound_block_requests : window SocketAddr;
  seen_outbound_events : window SocketAddr;
  seen_outbound_certificates : window SocketAddr;
  seen_outbound_transmissions : window SocketAddr;
  seen_outbound_validators_requests : gmap SocketAddr Z;
  seen_outbound_block_requests : gmap SocketAddr (gset BlockRequest);
}.

(** [Cache::new]. *)
Definition new : Cache := mk_cache ∅ ∅ ∅ ∅ ∅ ∅ ∅ ∅ ∅ ∅.

(** The eight windowed operations, [insert_inbound_connection] to
    [insert_outbound_transmission]. *)
Inductive channel : Type :=
| InboundConnection (peer_ip : IpAddr)
| InboundEvent (peer_ip : SocketAddr)
| InboundCertificate (key : Field)
| InboundTransmission (key : TransmissionID)
| InboundBlockRequest (key : SocketAddr)
| OutboundEvent (peer_ip : SocketAddr)
| OutboundCertificate (peer_ip : SocketAddr)
| OutboundTransmission (peer_ip : SocketAddr).

Definition insert_seen (c : Cache) (ch : channel) (now interval : Z) : result (Z * Cache) :=
  let '(mk_cache a b d e f g h i j k) := c in
  match ch with
  | InboundConnection x => '(n, m) ← retain_and_insert a x now interval; Ok (n, mk_cache m b d e f g h i j k)
  | InboundEvent x => '(n, m) ← retain_and_insert b x now interval; Ok (n, mk_cache a m d e f g h i j k)
  | InboundCertificate x => '(n, m) ← retain_and_insert d x now interval; Ok (n, mk_cache a b m e f g h i j k)
  | InboundTransmission x => '(n, m) ← retain_and_insert e x now interval; Ok (n, mk_cache a b d m f g h i j k)
  | InboundBlockRequest x => '(n, m) ← retain_and_insert f x now interval; Ok (n, mk_cache a b d e m g h i j k)
  | OutboundEvent x => '(n, m) ← retain_and_insert g x now interval; Ok (n, mk_cache a b d e f m h i j k)
  | OutboundCertificate x => '(n, m) ← retain_and_insert h x now interval; Ok (n, mk_cache a b d e f g m i j k)
  | OutboundTransmission x => '(n, m) ← retain_and_insert i x now interval; Ok (n, mk_cache a b d e f g h m j k)
  end.

Definition set_validators_requests (c : Cache) (m : gmap SocketAddr Z) : Cache :=
  let '(mk_cache a b d e f g h i _ k) := c in mk_cache a b d e f g h i m k.
Definition set_block_requests (c : Cache) (m : gmap SocketAddr (gset BlockRequest)) : Cache :=
  let '(mk_cache a b d e f g h i j _) := c in mk_cache a b d e f g h i j m.

(** [Cache::contains_outbound_validators_request]. *)
Definition contains_outbound_validators_request (c : Cache) (peer_ip : SocketAddr) : bool :=
  default false ((fun r => bool_decide (0 < r)) <$> seen_outbound_validators_requests c !! peer_ip).
(** [Cache::increment_outbound_validators_requests]. *)
Definition increment_outbound_validators_requests (c : Cache) (peer_ip : SocketAddr) : Z * Cache :=
  let '(n, m) := increment_counter (seen_outbound_validators_requests c) peer_ip in
  (n, set_validators_requests c m).
(** [Cache::decrement_outbound_validators_requests]. *)
Definition decrement_outbound_validators_requests (c : Cache) (peer_ip : SocketAddr) : Z * Cache :=
  let '(n, m) := decrement_counter (seen_outbound_validators_requests c) peer_ip in
  (n, set_validators_requests c m).
(** [Cache::clear_outbound_validators_requests]. *)
Definition clear_outbound_validators_requests (c : Cache) (peer_ip : SocketAddr) : Cache :=
  set_validators_requests c (delete peer_ip (seen_outbound_validators_requests c)).

(** [Cache::insert_outbound_block_request]. *)
Definition insert_outbound_block_request (c : Cache) (peer_ip : SocketAddr) (request : BlockRequest) : Cache :=
  let m := seen_outbound_block_requests c in
  set_block_requests c (<[peer_ip := {[request]} ∪ default ∅ (m !! peer_ip)]> m).
(** [Cache::remove_outbound_block_request]. *)
Definition remove_outbound_block_request (c : Cache) (peer_ip : SocketAddr) (request : BlockRequest)
    : bool * Cache :=
  let m := seen_outbound_block_requests c in
  match m !! peer_ip with
  | Some requests =>
      (bool_decide (request ∈ requests), set_block_requests c (<[peer_ip := requests ∖ {[request]}]> m))
  | None => (false, c)
  end.
(** [Cache::clear_outbound_block_requests]. *)
Definition clear_outbound_block_requests (c : Cache) (peer_ip : SocketAddr) : Cache :=
  set_block_requests c (delete peer_ip (seen_outbound_block_requests c)).

(** A block request is in flight for a peer. *)
Definition in_flight (c : Cache) (peer_ip : SocketAddr) (request : BlockRequest) : Prop :=
  request ∈ default ∅ (seen_outbound_block_requests c !! peer_ip).

(** A response is matched with at most one request: after
    [insert_outbound_block_request], the first removal reports the request,
    the second does not, and the requests of other peers stay. *)
Lemma block_request_once c p r :
  let c1 := insert_outbound_block_request c p r in
  let '(found, c2) := remove_outbound_block_request c1 p r in
  let '(again, _) := remove_outbound_block_request c2 p r in
  found = true /\ again = false /\
  forall p' r', in_flight c2 p' r' <-> (p', r') <> (p, r) /\ in_flight c p' r'.
Proof.
  destruct c as [a b d e f g h i j m]. cbn. unfold remove_outbound_block_request. cbn.
  rewrite lookup_insert_eq. cbn. rewrite lookup_insert_eq. split_and!.
  - apply bool_decide_eq_true. set_solver.
  - apply bool_decide_eq_false. set_solver.
  - intros p' r'. unfold in_flight. cbn. destruct (decide (p = p')) as [<-|Hp].
    + rewrite lookup_insert_eq. cbn. set_solver.
    + rewrite !lookup_insert_ne by done. naive_solver.
Qed.
End Cache.

(** ** The window counts the recent events *)

Section WindowProps.
Context `{Countable K}.
Implicit Types (events : list (Z * K)) (m : window K).

(** The events of the list at time [t] for key [k]. *)
Definition count events (t : Z) (k : K) : Z := len (filter (fun e => e = (t, k)) events).

(** The number of events for [key] from [cutoff] on. *)
Definition recent events (cutoff : Z) (key : K) : Z :=
  len (filter (fun e => e.2 = key /\ cutoff <= e.1) events).

Definition hits_at m (t : Z) (k : K) : Z := default 0 (m !! t ≫= (!!) k).

(** The map holds the events from [cutoff] on and nothing else. *)
Record window_inv events (cutoff : Z) m : Prop := {
  wi_dom t : is_Some (m !! t) -> cutoff <= t;
  wi_hits t k : cutoff <= t -> hits_at m t k = count events t k;
}.

Lemma count_snoc events e t k :
  count (events ++ [e]) t k = count events t k + (if decide (e = (t, k)) then 1 else 0).
Proof.
  unfold count. rewrite filter_app, len_app. f_equal. rewrite filter_cons, filter_nil.
  by case_decide.
Qed.

Lemma count_bound events t k : 0 <= count events t k <= len events.
Proof.
  unfold count, len. pose proof (length_filter (fun e => e = (t, k)) events). lia.
Qed.

Lemma rebuild (key : K) (l : list (Z * gmap K Z)) hits m :
  foldl (fun '(cache_hits, map) e => (add_hits key cache_hits e.2, <[e.1 := e.2]> map)) (hits, m) l
  = (foldl (add_hits key) hits l.*2, foldl (fun map e => <[e.1 := e.2]> map) m l).
Proof. revert hits m. induction l as [|e l IH]; intros hits m; cbn; [done|]. apply IH. Qed.

Lemma foldl_insert_lookup (l : list (Z * gmap K Z)) m t v :
  NoDup l.*1 ->
  ((foldl (fun map e => <[e.1 := e.2]> map) m l) !! t = Some v <->
   (t, v) ∈ l \/ ((t ∉ l.*1) /\ m !! t = Some v)).
Proof.
  revert m. induction l as [|[t' v'] l IH]; intros m Hnd; cbn; [set_solver|].
  cbn in Hnd. apply NoDup_cons in Hnd as [Ht' Hnd]. rewrite IH by done. cbn [fst snd].
  destruct (decide (t' = t)) as [->|Hne].
  - rewrite lookup_insert_eq, !elem_of_cons. split.
    + intros [?|[_ [= ->]]]; tauto.
    + intros [[[= ->]|?]|[? _]]; [|tauto|set_solver]. right. done.
  - rewrite lookup_insert_ne, elem_of_cons by done. set_solver.
Qed.

Lemma rebuild_id m : foldl (fun map e => <[e.1 := e.2]> map) ∅ (btree_iter m) = m.
Proof.
  apply map_eq. intros t. apply option_eq. intros v.
  rewrite foldl_insert_lookup by apply btree_iter_NoDup_keys.
  rewrite elem_of_btree_iter, lookup_empty. naive_solver.
Qed.

Lemma btree_first_min m t v t' v' :
  btree_first m = Some (t, v) -> m !! t' = Some v' -> t <= t'.
Proof.
  unfold btree_first. intros Hf Hm%elem_of_btree_iter. pose proof (btree_iter_sorted m) as Hs.
  destruct (btree_iter m) as [|e l]; [done|]. cbn in Hf. simplify_eq.
  apply StronglySorted_inv in Hs as [_ Hs]. rewrite Forall_forall in Hs.
  apply elem_of_cons in Hm as [?|Hm]; [simplify_eq; lia|]. by apply (Hs (t', v')).
Qed.

(** Both branches keep the entries from the cutoff on and add up their hits. *)
Lemma retain_and_insert_eq m key now interval :
  let m' := filter (fun e => i64_saturating_sub now interval <= e.1) (bump now key m) in
  retain_and_insert m key now interval = Ok (foldl (add_hits key) 0 (btree_iter m').*2, m').
Proof.
  cbn zeta. unfold retain_and_insert. set (m1 := bump now key m).
  destruct (btree_first m1) as [[oldest v]|] eqn:Hf.
  - cbn. case_decide as Hc.
    + assert (filter (fun e => i64_saturating_sub now interval <= e.1) m1 = m1) as ->; [|done].
      apply map_filter_id. intros t w Hw. cbn. pose proof (btree_first_min _ _ _ _ _ Hf Hw). lia.
    + by rewrite rebuild, rebuild_id.
  - exfalso. unfold btree_first in Hf. destruct (btree_iter m1) eqn:E; [|done].
    apply btree_iter_nil in E. unfold m1, bump in E. by apply insert_non_empty in E.
Qed.

Lemma hits_at_bump m now key t k :
  hits_at (bump now key m) t k =
  if decide ((now, key) = (t, k)) then u32_wrap (hits_at m t k + 1) else hits_at m t k.
Proof.
  unfold hits_at, bump. destruct (decide (now = t)) as [<-|Ht].
  - rewrite lookup_insert_eq. cbn. destruct (decide (key = k)) as [<-|Hk].
    + rewrite lookup_insert_eq, decide_True by done. cbn. by destruct (m !! now).
    + rewrite lookup_insert_ne, decide_False by (done || congruence). by destruct (m !! now).
  - by rewrite lookup_insert_ne, decide_False by congruence.
Qed.

Lemma window_inv_step events cutoff m now key interval :
  window_inv events cutoff m -> len events < u32_max ->
  cutoff <= i64_saturating_sub now interval -> i64_saturating_sub now interval <= now ->
  window_inv (events ++ [(now, key)]) (i64_saturating_sub now interval)
    (filter (fun e => i64_saturating_sub now interval <= e.1) (bump now key m)).
Proof.
  intros [Hd Hh] Hlen Hc Hn. set (c' := i64_saturating_sub now interval) in *. split.
  - intros t [v Hv]. by apply map_lookup_filter_Some in Hv as [_ ?].
  - intros t k Ht. rewrite count_snoc. transitivity (hits_at (bump now key m) t k).
    + unfold hits_at. do 2 f_equal. apply option_eq. intros v.
      rewrite map_lookup_filter_Some. naive_solver.
    + rewrite hits_at_bump, Hh by lia. case_decide; [|lia]. apply u32_wrap_id.
      pose proof (count_bound events t k). mlia.
Qed.

(** *** Adding up *)

Lemma sumZ_indicator (T : list Z) t :
  NoDup T -> t ∈ T -> sumZ ((fun t' => if decide (t = t') then 1 else 0) <$> T) = 1.
Proof.
  induction 1 as [|x T Hx Hnd IH]; [set_solver|]. intros [<-|Ht]%elem_of_cons; unfold sumZ in *; cbn.
  - rewrite decide_True by done. assert (foldr Z.add 0 ((fun t' => if decide (t = t') then 1 else 0) <$> T) = 0); [|lia].
    clear -Hx. induction T as [|y T IHT]; cbn; [done|]. rewrite decide_False, IHT by set_solver. done.
  - rewrite decide_False by set_solver. rewrite IH by done. lia.
Qed.

Lemma sumZ_add {A} (f g : A -> Z) l :
  sumZ ((fun x => f x + g x) <$> l) = sumZ (f <$> l) + sumZ (g <$> l).
Proof. unfold sumZ. induction l; cbn; lia. Qed.

Lemma sumZ_ext {A} (f g : A -> Z) l : (forall x, x ∈ l -> f x = g x) -> sumZ (f <$> l) = sumZ (g <$> l).
Proof.
  induction l as [|x l IH]; intros Hfg; [done|]. unfold sumZ in *. cbn.
  rewrite Hfg by left. rewrite IH; [done|]. intros. apply Hfg. by right.
Qed.

Lemma count_cons e events t k :
  count (e :: events) t k = (if decide (e = (t, k)) then 1 else 0) + count events t k.
Proof. unfold count. rewrite filter_cons. case_decide; unfold len; cbn; lia. Qed.

Lemma recent_cons e events cutoff k :
  recent (e :: events) cutoff k =
  (if decide (e.2 = k /\ cutoff <= e.1) then 1 else 0) + recent events cutoff k.
Proof. unfold recent. rewrite filter_cons. case_decide; unfold len; cbn; lia. Qed.

(** The hits of a key over all times that matter are its recent events. *)
Lemma sum_counts (T : list Z) events cutoff key :
  NoDup T -> (forall t, t ∈ T -> cutoff <= t) ->
  (forall t, (t, key) ∈ events -> cutoff <= t -> t ∈ T) ->
  sumZ ((fun t => count events t key) <$> T) = recent events cutoff key.
Proof.
  intros Hnd Hc. induction events as [|[t k] events IH]; intros HT.
  - unfold recent, count, len. cbn. unfold sumZ. clear. induction T; cbn; [done|lia].
  - rewrite recent_cons. cbn [fst snd].
    rewrite (sumZ_ext _ (fun t' => (if decide ((t, k) = (t', key)) then 1 else 0) + count events t' key))
      by (intros; apply count_cons).
    rewrite sumZ_add, IH by set_solver. f_equal. case_decide as Hd.
    + destruct Hd as [-> Hle]. assert (t ∈ T) as Hin by (apply HT; [left|done]).
      etransitivity; [|by apply (sumZ_indicator T t)].
      apply sumZ_ext. intros t' _. repeat case_decide; congruence.
    + rewrite (sumZ_ext _ (fun _ => 0)); [unfold sumZ; clear; induction T; cbn; [done|lia]|].
      intros t' Ht'. rewrite decide_False; [done|]. intros [= -> ->]. apply Hd. auto.
Qed.

Lemma foldl_add_hits (key : K) (l : list (gmap K Z)) acc :
  foldl (add_hits key) (u32_wrap acc) l
  = u32_wrap (acc + sumZ ((fun v => default 0 (v !! key)) <$> l)).
Proof.
  revert acc. induction l as [|v l IH]; intros acc; cbn; [unfold sumZ; cbn; f_equal; lia|].
  unfold add_hits at 2. assert (u32_wrap (u32_wrap acc + default 0 (v !! key)) =
    u32_wrap (acc + default 0 (v !! key))) as -> by (unfold u32_wrap; apply Zplus_mod_idemp_l).
  rewrite IH. f_equal. unfold sumZ. cbn. lia.
Qed.

Lemma recent_bound events cutoff k : 0 <= recent events cutoff k <= len events.
Proof.
  unfold recent, len. pose proof (length_filter (fun e => e.2 = k /\ cutoff <= e.1) events). lia.
Qed.

Lemma window_hits events cutoff m key :
  window_inv events cutoff m -> len events <= u32_max ->
  foldl (add_hits key) 0 (btree_iter m).*2 = recent events cutoff key.
Proof.
  intros [Hd Hh] Hlen. change 0 with (u32_wrap 0) at 1. rewrite foldl_add_hits, Z.add_0_l.
  pose proof (recent_bound events cutoff key).
  assert (sumZ ((fun v => default 0 (v !! key)) <$> (btree_iter m).*2) = recent events cutoff key) as ->;
    [|apply u32_wrap_id; mlia].
  rewrite <-(sum_counts (btree_iter m).*1); [|apply btree_iter_NoDup_keys| |].
  - rewrite <-!list_fmap_compose. apply sumZ_ext. intros [t v] Hv%elem_of_btree_iter. cbn.
    rewrite <-Hh by (apply Hd; by eexists). unfold hits_at. by rewrite Hv.
  - intros t ([t' v] & -> & Hv%elem_of_btree_iter)%list_elem_of_fmap. apply Hd. by eexists.
  - intros t Ht Hle. destruct (m !! t) as [v|] eqn:Hv.
    + apply list_elem_of_fmap. exists (t, v). by rewrite elem_of_btree_iter.
    + exfalso. pose proof (Hh t key Hle) as Heq. unfold hits_at in Heq. rewrite Hv in Heq. cbn in Heq.
      assert ((t, key) ∈ filter (fun e => e = (t, key)) events) as Hin by (by apply list_elem_of_filter).
      unfold count, len in Heq. destruct (filter _ events); [set_solver|cbn in Heq; lia].
Qed.

Lemma window_inv_empty cutoff : window_inv [] cutoff ∅.
Proof.
  split.
  - intros t [v Hv]. by rewrite lookup_empty in Hv.
  - intros t k _. unfold hits_at. by rewrite lookup_empty.
Qed.

Lemma inserts_from interval pre events cutoff m :
  0 <= interval -> Forall is_i64 events.*1 -> StronglySorted Z.le events.*1 ->
  len (pre ++ events) <= u32_max -> window_inv pre cutoff m ->
  (forall e, e ∈ events -> cutoff <= i64_saturating_sub e.1 interval) ->
  exists m', inserts interval m events =
    Ok (imap (fun i e => recent (pre ++ take (S i) events) (i64_saturating_sub e.1 interval) e.2) events, m').
Proof.
  intros Hi. revert pre cutoff m.
  induction events as [|[now key] events IH]; intros pre cutoff m Hty Hs Hlen Hinv Hc; [by eexists|].
  cbn in Hty, Hs. apply Forall_cons in Hty as [Hnow Hty]. apply StronglySorted_inv in Hs as [Hs Hle].
  cbn [inserts]. rewrite retain_and_insert_eq. cbn [mbind result_bind].
  rewrite len_app, len_cons in Hlen. pose proof (len_nonneg pre). pose proof (len_nonneg events).
  pose proof (window_inv_step pre cutoff m now key interval Hinv ltac:(lia)
    (Hc (now, key) ltac:(left)) ltac:(mlia)) as Hinv'.
  rewrite (window_hits _ _ _ key Hinv') by (rewrite len_app; unfold len at 2; cbn; lia).
  edestruct (IH (pre ++ [(now, key)])) as [m' ->]; [done|done| |exact Hinv'| |].
  - rewrite !len_app. unfold len at 2. cbn. lia.
  - intros e He. rewrite Forall_forall in Hle.
    assert (now <= e.1) by (apply Hle, list_elem_of_fmap; eauto). cbn [fst]. mlia.
  - exists m'. cbn [mbind result_bind]. rewrite imap_cons. do 3 f_equal.
    apply imap_ext. intros i e _. cbn. by rewrite <-app_assoc.
Qed.

(** The rate limiter counts exactly.  For events with a clock that does not
    go back and one interval, as the gateway uses each map, every insertion
    returns the number of events for its key, itself included, whose time is
    at most the interval ago: expired entries never count and no recent entry
    is lost. *)
Theorem window_counts (interval : Z) (events : list (Z * K)) :
  0 <= interval -> Forall is_i64 events.*1 -> StronglySorted Z.le events.*1 -> len events <= u32_max ->
  exists m, inserts interval ∅ events =
    Ok (imap (fun i e => recent (take (S i) events) (i64_saturating_sub e.1 interval) e.2) events, m).
Proof.
  intros Hi Hty Hs Hlen.
  exact (inserts_from interval [] events i64_min ∅ Hi Hty Hs Hlen (window_inv_empty _) ltac:(intros; mlia)).
Qed.

(** The value of a counter; a missing entry counts as 0. *)
Definition value (m : gmap K Z) (k : K) : Z := default 0 (m !! k).

(** The counters are saturating counters, and counting down removes an entry
    only once it has reached 0. *)
Lemma counter_spec (m : gmap K Z) k k' :
  is_u32 (value m k) ->
  (increment_counter m k).1 = Z.min u32_max (value m k + 1) /\
  value (increment_counter m k).2 k' = (if decide (k = k') then Z.min u32_max (value m k + 1) else value m k') /\
  (decrement_counter m k).1 = Z.max 0 (value m k - 1) /\
  value (decrement_counter m k).2 k' = (if decide (k = k') then Z.max 0 (value m k - 1) else value m k').
Proof.
  intros Hv. unfold increment_counter, decrement_counter. fold (value m k). cbn [fst snd].
  split_and!; [done| |by case_decide|].
  - unfold value at 1. destruct (decide (k = k')) as [<-|?]; [by rewrite lookup_insert_eq|].
    by rewrite lookup_insert_ne.
  - destruct (decide (value m k = 0)) as [Hz|?]; cbn [snd]; unfold value at 1;
      destruct (decide (k = k')) as [<-|?].
    + rewrite lookup_delete_eq. cbn. lia.
    + by rewrite lookup_delete_ne.
    + by rewrite lookup_insert_eq.
    + by rewrite lookup_insert_ne.
Qed.
End WindowProps.
End Cache.

(** ** A burst of events *)

Definition sample_events : list (Z * Z) := [(10, 1); (10, 2); (11, 1); (14, 1); (21, 1); (21, 1)].

Lemma window_counts_witness :
  exists m, Cache.inserts 5 ∅ sample_events = Ok ([1; 1; 2; 3; 1; 2], m).
Proof.
  destruct (Cache.window_counts 5 sample_events) as [m Hm]; [lia|..|by vm_compute|].
  - apply (bool_decide_unpack _). by vm_compute.
  - apply Sorted_StronglySorted; [apply _|]. repeat constructor; cbn; lia.
  - exists m. exact Hm.
Defined.
