(* ===== verification/Sockets.v ===== *)
(** * Socket addresses

    [std::net::SocketAddr], the key under which the network components keep
    their peers, with its decidable equality and an enumeration for maps. *)

From S2P Require Import Prelude.

(** [std::net::SocketAddr]; an IP address is the number its octets make. *)
Inductive SocketAddr :=
  | SocketAddrV4 (ip port : Z)
  | SocketAddrV6 (ip port flowinfo scope_id : Z).

#[export] Instance SocketAddr_eq_dec : EqDecision SocketAddr.
Proof. solve_decision. Defined.

#[export] Instance SocketAddr_countable : Countable SocketAddr.
Proof.
  refine (inj_countable'
    (fun a => match a with
              | SocketAddrV4 ip port => inl (ip, port)
              | SocketAddrV6 ip port flowinfo scope_id => inr (ip, port, flowinfo, scope_id)
              end)
    (fun s => match s with
              | inl (ip, port) => SocketAddrV4 ip port
              | inr (ip, port, flowinfo, scope_id) => SocketAddrV6 ip port flowinfo scope_id
              end) _).
  by intros [].
Defined.
