(* ===== verification/SyncState.v ===== *)
(** * The state of block synchronization

    [SyncState] (node/sync/src/block_sync/sync_state.rs): the height the node
    synced to, the greatest height of a peer, and the status derived from them;
    and [rangify_heights] (node/sync/src/block_sync/helpers.rs), which prints a
    list of heights as ranges. *)

From stdpp Require Import pretty.
From S2P Require Import Prelude.

(** The number of blocks a node may be behind its peers and count as synced. *)
Definition MAX_BLOCKS_BEHIND : Z := 1.

Module SyncState.

Inductive SyncStatus := Unsynced | Syncing | Synced.
Inductive BftSyncMode := Fast | DagMode.

#[global] Instance SyncStatus_eq_dec : EqDecision SyncStatus.
Proof. solve_decision. Defined.

Record SyncState := mk_state {
  sync_height : Z;
  greatest_peer_height : option Z;
  status : SyncStatus;
  last_change : Z;
  bft_sync_mode : option BftSyncMode;
}.

(** [Default for SyncState], at time [now]. *)
Definition default_state (now : Z) : SyncState := mk_state 0 None Synced now None.

(** [SyncState::new_with_height]. *)
Definition new_with_height (now height : Z) : SyncState :=
  let d := default_state now in
  mk_state height (greatest_peer_height d) (status d) (last_change d) (bft_sync_mode d).

(** [SyncState::is_block_synced]. *)
Definition is_block_synced (s : SyncState) : bool := bool_decide (status s = Synced).

(** [SyncState::num_blocks_behind]. *)
Definition num_blocks_behind (s : SyncState) : option Z :=
  (fun peer_height => saturating_sub peer_height (sync_height s)) <$> greatest_peer_height s.

(** [SyncState::can_issue_new_block_requests]. *)
Definition can_issue_new_block_requests (s : SyncState) : bool :=
  match num_blocks_behind s with
  | Some num_behind => bool_decide (0 < num_behind)
  | None => false
  end.

(** [SyncState::set_bft_sync_mode], with the previous mode. *)
Definition set_bft_sync_mode (mode : BftSyncMode) (s : SyncState) : option BftSyncMode * SyncState :=
  (bft_sync_mode s,
   mk_state (sync_height s) (greatest_peer_height s) (status s) (last_change s) (Some mode)).

(** The status [update_is_block_synced] computes. *)
Definition new_status (num_blocks_behind : option Z) : SyncStatus :=
  match num_blocks_behind with
  | Some num => if decide (num <= MAX_BLOCKS_BEHIND) then Synced else Syncing
  | None => Unsynced
  end.

(** [SyncState::update_is_block_synced], at time [now]. *)
Definition update_is_block_synced (now : Z) (s : SyncState) : SyncState :=
  let new := new_status (num_blocks_behind s) in
  if decide (new = status s) then s
  else mk_state (sync_height s) (greatest_peer_height s) new now (bft_sync_mode s).

(** [SyncState::set_sync_height]. *)
Definition set_sync_height (now height : Z) (s : SyncState) : SyncState :=
  if decide (height <= sync_height s) then s
  else update_is_block_synced now
         (mk_state height (greatest_peer_height s) (status s) (last_change s) (bft_sync_mode s)).

(** [SyncState::set_greatest_peer_height]. *)
Definition set_greatest_peer_height (now peer_height : Z) (s : SyncState) : SyncState :=
  if decide (greatest_peer_height s = Some peer_height) then s
  else update_is_block_synced now
         (mk_state (sync_height s) (Some peer_height) (status s) (last_change s) (bft_sync_mode s)).

(** [SyncState::clear_greatest_peer_height]. *)
Definition clear_greatest_peer_height (now : Z) (s : SyncState) : SyncState :=
  if decide (greatest_peer_height s = None) then s
  else update_is_block_synced now
         (mk_state (sync_height s) None (status s) (last_change s) (bft_sync_mode s)).

(** ** The status follows the heights *)

(** A state is tracked when its status is the one of its heights.  Before the
    first update, with no peer known, it is the initial [Synced]. *)
Definition tracked (s : SyncState) : Prop :=
  status s = new_status (num_blocks_behind s) \/ (greatest_peer_height s = None /\ status s = Synced).

(** The synced states with a known peer are those at most
    [MAX_BLOCKS_BEHIND] blocks behind. *)
Lemma tracked_synced s h :
  tracked s -> greatest_peer_height s = Some h ->
  (is_block_synced s = true <-> h <= sync_height s + MAX_BLOCKS_BEHIND).
Proof.
  intros Ht Hh. unfold is_block_synced. rewrite bool_decide_eq_true.
  destruct Ht as [->|[Hn _]]; [|congruence]. unfold num_blocks_behind. rewrite Hh. cbn.
  unfold saturating_sub, MAX_BLOCKS_BEHIND. case_decide; split; done || lia.
Qed.

Lemma update_status now s : status (update_is_block_synced now s) = new_status (num_blocks_behind s).
Proof. unfold update_is_block_synced. case_decide; done. Qed.

Lemma update_behind now s : num_blocks_behind (update_is_block_synced now s) = num_blocks_behind s.
Proof. unfold update_is_block_synced. case_decide; done. Qed.

Lemma update_height now s : sync_height (update_is_block_synced now s) = sync_height s.
Proof. unfold update_is_block_synced. case_decide; done. Qed.

Lemma update_peer now s :
  greatest_peer_height (update_is_block_synced now s) = greatest_peer_height s.
Proof. unfold update_is_block_synced. case_decide; done. Qed.

Lemma update_tracked now s : tracked (update_is_block_synced now s).
Proof. left. by rewrite update_status, update_behind. Qed.

Lemma set_sync_height_tracked now h s : tracked s -> tracked (set_sync_height now h s).
Proof. unfold set_sync_height. case_decide; [done|]. intros _. apply update_tracked. Qed.

Lemma set_greatest_tracked now h s : tracked s -> tracked (set_greatest_peer_height now h s).
Proof. unfold set_greatest_peer_height. case_decide; [done|]. intros _. apply update_tracked. Qed.

Lemma clear_greatest_tracked now s : tracked s -> tracked (clear_greatest_peer_height now s).
Proof. unfold clear_greatest_peer_height. case_decide; [done|]. intros _. apply update_tracked. Qed.

Lemma set_sync_height_max now h s : sync_height (set_sync_height now h s) = Z.max (sync_height s) h.
Proof. unfold set_sync_height. case_decide; [lia|]. rewrite update_height. cbn. lia. Qed.

Lemma set_sync_height_peer now h s :
  greatest_peer_height (set_sync_height now h s) = greatest_peer_height s.
Proof. unfold set_sync_height. case_decide; [done|]. by rewrite update_peer. Qed.

Lemma set_greatest_peer now h s : greatest_peer_height (set_greatest_peer_height now h s) = Some h.
Proof. unfold set_greatest_peer_height. case_decide; [done|]. by rewrite update_peer. Qed.

Lemma set_greatest_height now h s : sync_height (set_greatest_peer_height now h s) = sync_height s.
Proof. unfold set_greatest_peer_height. case_decide; [done|]. by rewrite update_height. Qed.

Lemma clear_greatest_peer now s : greatest_peer_height (clear_greatest_peer_height now s) = None.
Proof. unfold clear_greatest_peer_height. case_decide; [done|]. by rewrite update_peer. Qed.

Lemma clear_greatest_height now s : sync_height (clear_greatest_peer_height now s) = sync_height s.
Proof. unfold clear_greatest_peer_height. case_decide; [done|]. by rewrite update_height. Qed.

(** A node that is not synced becomes so only by an operation on its state;
    this is what the notification of waiting tasks relies on. *)
Lemma new_status_synced n : new_status n = Synced -> exists k, n = Some k /\ k <= MAX_BLOCKS_BEHIND.
Proof. destruct n as [k|]; cbn; [|done]. case_decide; [eauto|done]. Qed.

(** A node without peers does not stay synced.  When the sync height of a
    node that knows no peer height increases, its status becomes [Unsynced],
    also if it was the initial [Synced]. *)
Theorem lone_node_unsynced now h s :
  greatest_peer_height s = None -> sync_height s < h ->
  is_block_synced (set_sync_height now h s) = false.
Proof.
  intros Hn Hh. unfold set_sync_height. rewrite decide_False by lia. unfold is_block_synced.
  rewrite update_status. unfold num_blocks_behind. cbn. by rewrite Hn.
Qed.

(** ** Printing heights *)

(** The inner loop of [rangify_heights]: the end of the run at [curr_height],
    and the heights left. *)
Fixpoint take_run (curr_height : Z) (l : list Z) : Z * list Z :=
  match l with
  | next_height :: l' =>
      if decide (next_height = u32_wrap (curr_height + 1))
      then take_run (u32_wrap (curr_height + 1)) l' else (curr_height, l)
  | [] => (curr_height, [])
  end.

(** The outer loop of [rangify_heights], which consumes at least one height
    per iteration. *)
Fixpoint ranges (fuel : nat) (l : list Z) : list (Z * Z) :=
  match fuel, l with
  | S fuel, start :: l => let '(curr_height, l) := take_run start l in (start, curr_height) :: ranges fuel l
  | _, _ => []
  end.

Definition print_range (r : Z * Z) : string :=
  let '(start, curr_height) := r in
  if decide (curr_height = start) then pretty (Z.to_N curr_height)
  else (pretty (Z.to_N start) +:+ "-" +:+ pretty (Z.to_N curr_height))%string.

(** The text after the opening bracket; [first] is the flag of the loop. *)
Fixpoint print_ranges (first : bool) (rs : list (Z * Z)) : string :=
  match rs with
  | [] => "]"
  | r :: rs => ((if first then "" else ", ") +:+ print_range r +:+ print_ranges false rs)%string
  end.

(** [rangify_heights]. *)
Definition rangify_heights (heights : list Z) : string :=
  ("[" +:+ print_ranges true (ranges (length heights) heights))%string.

(** The unit tests of helpers.rs. *)
Example rangify_heights_empty : rangify_heights [] = "[]"%string.
Proof. reflexivity. Qed.
Example rangify_heights_single : rangify_heights [52425] = "[52425]"%string.
Proof. vm_refl. Qed.
Example rangify_heights_multiple :
  rangify_heights [0; 1; 3; 4; 5; 6; 7; 10; 11; 12; 20; 22; 23; 24; 25; 27; 28]
  = "[0-1, 3-7, 10-12, 20, 22-25, 27-28]"%string.
Proof. vm_refl. Qed.

(** The heights a list of ranges stands for. *)
Definition expand (rs : list (Z * Z)) : list Z := rs ≫= fun '(a, b) => seqZ a (b - a + 1).

Lemma take_run_spec l c :
  Forall (fun h => 0 <= h < u32_max) (c :: l) ->
  let '(e, l') := take_run c l in
  c <= e < u32_max /\ c :: l = seqZ c (e - c + 1) ++ l' /\ head l' <> Some (e + 1).
Proof.
  revert c. induction l as [|n l IH]; intros c Hl; cbn.
  - apply Forall_cons in Hl as [Hc _]. split_and!; [lia|lia| |done].
    by rewrite Z.sub_diag, (seqZ_cons c) by lia.
  - apply Forall_cons in Hl as [Hc Hl]. rewrite u32_wrap_id by mlia. case_decide as Hn.
    + subst n. specialize (IH (c + 1) Hl). destruct (take_run (c + 1) l) as [e l'].
      destruct IH as (He & Heq & Hh). split_and!; [lia|lia| |done].
      rewrite Heq, (seqZ_cons c) by lia. cbn. do 3 f_equal; lia.
    + split_and!; [lia|lia| |by intros [= ->]].
      by rewrite Z.sub_diag, (seqZ_cons c) by lia.
Qed.

(** The ranges [rangify_heights] prints stand for exactly the given
    heights, in order, and no two consecutive ranges could be joined. *)
Theorem ranges_exact (heights : list Z) :
  Forall (fun h => 0 <= h < u32_max) heights ->
  expand (ranges (length heights) heights) = heights /\
  forall i a b c d, ranges (length heights) heights !! i = Some (a, b) ->
    ranges (length heights) heights !! S i = Some (c, d) -> c <> b + 1.
Proof.
  cut (forall n l, (length l <= n)%nat -> Forall (fun h => 0 <= h < u32_max) l ->
         expand (ranges n l) = l /\ fst <$> head (ranges n l) = head l /\
         forall i a b c d, ranges n l !! i = Some (a, b) -> ranges n l !! S i = Some (c, d) -> c <> b + 1).
  { intros H Hl. destruct (H _ _ (le_n _) Hl) as (? & _ & ?). done. }
  induction n as [|n IH]; intros [|c l] Hn Hl; cbn in *; try done; [lia|].
  pose proof (take_run_spec l c Hl) as Hs. destruct (take_run c l) as [e l'] eqn:Ht.
  destruct Hs as (He & Heq & Hh).
  assert (length l' <= n)%nat as Hlen.
  { apply (f_equal length) in Heq. rewrite length_app, length_seqZ in Heq. cbn in Heq. lia. }
  assert (Forall (fun h => 0 <= h < u32_max) l') as Hl'.
  { rewrite Heq in Hl. by apply Forall_app in Hl as [_ ?]. }
  destruct (IH l' Hlen Hl') as (Hex & Hhd & Hmax). split_and!; [|done|].
  - cbn. fold (expand (ranges n l')). by rewrite Hex, Heq.
  - intros [|i] a b x y; cbn; [|apply Hmax]. intros [= <- <-] Hx ->.
    apply Hh. rewrite <-Hhd. destruct (ranges n l'); [done|]. cbn in *. by simplify_eq.
Qed.

End SyncState.

Lemma lone_node_unsynced_witness :
  SyncState.is_block_synced (SyncState.new_with_height 0 7) = true /\
  SyncState.is_block_synced (SyncState.set_sync_height 1 8 (SyncState.new_with_height 0 7)) = false.
Proof.
  split; [done|]. apply SyncState.lone_node_unsynced; [done|]. cbn. lia.
Defined.

Lemma ranges_exact_witness :
  SyncState.expand (SyncState.ranges 5 [3; 4; 7; 9; 10]) = [3; 4; 7; 9; 10].
Proof.
  apply (SyncState.ranges_exact [3; 4; 7; 9; 10]). repeat constructor; by vm_compute.
Defined.
