(* ===== verification/BlockSync.v ===== *)
(** * Block synchronization

    [BlockSync<N>] (node/sync/src/block_sync.rs): the locators of the connected
    peers and their common ancestors, the block requests in progress, the
    failed requests to issue again, and the processing of block responses.

    The ledger is read through [ChainView], the operations of [LedgerService]
    the code calls; [try_advancing_block_synchronization] also writes to it,
    through [LedgerOps].  The order of a [HashMap] iteration, [shuffle] and
    [sample] are an [Oracle], an argument of each call, so that the theorems
    hold for every outcome.  Times are [Instant]s in nanoseconds.

    Each field of the state has a lock of its own.  A function that takes several
    locks one after the other is composed of one definition for each of them,
    between which other tasks may run; the functions themselves are these one after
    the other.  [prepare_requests_lock] is held by [remove_peer],
    [prepare_block_requests] and the first half of [send_block_requests]. *)

From S2P Require Import Prelude Network Sockets Locators SyncState.
Import Locators SyncState.

(** ** Peer pairs *)

Record PeerPair := mk_peer_pair { peer_a : SocketAddr; peer_b : SocketAddr }.

(** [PeerPair::contains]. *)
Definition pair_contains (peer_ip : SocketAddr) (p : PeerPair) : bool :=
  bool_decide (peer_ip = peer_a p \/ peer_ip = peer_b p).

(** [PartialEq for PeerPair]: a pair is the same in both directions. *)
#[export] Instance PeerPair_equiv : Equiv PeerPair := fun p q =>
  (peer_a p = peer_a q /\ peer_b p = peer_b q) \/ (peer_a p = peer_b q /\ peer_b p = peer_a q).

#[export] Instance PeerPair_equiv_dec : RelDecision (≡@{PeerPair}).
Proof. intros p q. unfold equiv, PeerPair_equiv. apply _. Defined.

#[export] Instance PeerPair_equivalence : Equivalence (≡@{PeerPair}).
Proof.
  unfold equiv, PeerPair_equiv. split.
  - intros p. by left.
  - intros p q [[? ?]|[? ?]]; [left|right]; split; congruence.
  - intros p q r [[? ?]|[? ?]] [[? ?]|[? ?]]; solve [left; split; congruence | right; split; congruence].
Qed.

Lemma pair_comm a b : mk_peer_pair a b ≡ mk_peer_pair b a.
Proof. by right. Qed.

#[export] Instance pair_contains_proper a : Proper ((≡) ==> eq) (pair_contains a).
Proof.
  intros p q [[H1 H2]|[H1 H2]]; unfold pair_contains; apply bool_decide_ext; rewrite H1, H2; tauto.
Qed.

(** [IndexMap<PeerPair, u32>]: [get] and [insert] go by the equality above. *)
Fixpoint ancestors_get (p : PeerPair) (l : list (PeerPair * Z)) : option Z :=
  match l with
  | [] => None
  | (q, v) :: l => if decide (q ≡ p) then Some v else ancestors_get p l
  end.

Fixpoint ancestors_insert (p : PeerPair) (v : Z) (l : list (PeerPair * Z)) : list (PeerPair * Z) :=
  match l with
  | [] => [(p, v)]
  | (q, w) :: l => if decide (q ≡ p) then (q, v) :: l else (q, w) :: ancestors_insert p v l
  end.

#[export] Instance ancestors_get_proper : Proper ((≡) ==> eq ==> eq) ancestors_get.
Proof.
  intros p q Hpq ? l ->. induction l as [|[r v] l IH]; cbn; [done|].
  destruct (decide (r ≡ p)) as [Hp|Hp], (decide (r ≡ q)) as [Hq|Hq]; try done.
  - destruct Hq. by rewrite Hp.
  - destruct Hp. by rewrite Hq.
Qed.

Lemma ancestors_get_insert p v q l :
  ancestors_get q (ancestors_insert p v l) = if decide (p ≡ q) then Some v else ancestors_get q l.
Proof.
  induction l as [|[r w] l IH]; cbn; [done|].
  destruct (decide (r ≡ p)) as [Hp|Hp]; cbn.
  - destruct (decide (r ≡ q)) as [Hq|Hq], (decide (p ≡ q)) as [Hpq|Hpq]; try done.
    + destruct Hpq. by rewrite <-Hp.
    + destruct Hq. by rewrite Hp.
  - rewrite IH. destruct (decide (r ≡ q)) as [Hq|Hq], (decide (p ≡ q)) as [Hpq|Hpq]; try done.
    destruct Hp. by rewrite Hq, Hpq.
Qed.

Lemma ancestors_get_retain p a l :
  ancestors_get p (base.filter (fun e => pair_contains a e.1 = false) l) =
  if pair_contains a p then None else ancestors_get p l.
Proof.
  induction l as [|[q v] l IH]; [by destruct pair_contains|].
  rewrite filter_cons. cbn [fst]. destruct (decide (pair_contains a q = false)) as [Hq|Hq]; cbn.
  - rewrite IH. destruct (decide (q ≡ p)) as [Hqp|?]; [|done]. by rewrite <-Hqp, Hq.
  - rewrite IH. destruct (decide (q ≡ p)) as [Hqp|?]; [|done]. rewrite <-Hqp.
    by destruct (pair_contains a q).
Qed.

(** ** The parameters *)

(** The accessors of [Block<N>] the code calls, and [N::CONSENSUS_VERSION]. *)
Class BlockData `{N : Network} := {
  Block : Type;
  Block_eq_dec :: EqDecision Block;
  height : Block -> Z;
  hash : Block -> BlockHash;
  previous_hash : Block -> BlockHash;
  CONSENSUS_VERSION : Z -> string + Z;
}.

(** The queries of [LedgerService] that block synchronization makes. *)
Record ChainView `{N : Network} := mk_view {
  latest_block_height : Z;
  contains_block_height : Z -> bool;
  get_block_hash : Z -> result BlockHash;
}.

Arguments mk_view {_} _ _ _.

(** A ledger holds the blocks from height 0 to its latest height. *)
Record chain_wf `{N : Network} (L : ChainView) : Prop := {
  cw_latest : is_u32 (latest_block_height L);
  cw_contains h : contains_block_height L h = true <-> 0 <= h <= latest_block_height L;
  cw_hash h : contains_block_height L h = true <-> is_ok (get_block_hash L h) = true;
}.

(** [BeginLedgerUpdateError] and the [CheckBlockError]s the code tells apart. *)
Inductive BeginLedgerUpdateError := ShuttingDown | NotSupportedForProver.
Inductive CheckBlockError :=
  | InvalidHeight | BlockAlreadyExists | InvalidRound
  | InvalidPrefix (index : nat) (error : CheckBlockError)
  | OtherCheckError (msg : string).

(** [CheckBlockError::into_anyhow]; the other messages are debug prints. *)
Definition into_anyhow (e : CheckBlockError) : string :=
  match e with OtherCheckError msg => msg | _ => "{self:?}" end.

(** [LedgerUpdateService], over the states [St] of a ledger. *)
Record LedgerOps `{N : Network} {B : BlockData} (St : Type) := mk_ledger_ops {
  view : St -> ChainView;
  begin_ledger_update : St -> option BeginLedgerUpdateError;
  check_next_block : St -> Block -> CheckBlockError + Block;
  advance_to_next_block : St -> Block -> result St;
}.
Arguments view {_ _ _} _ _.
Arguments begin_ledger_update {_ _ _} _ _.
Arguments check_next_block {_ _ _} _ _ _.
Arguments advance_to_next_block {_ _ _} _ _ _.

(** The choices that are not determined by the state: the iteration order of a
    [HashMap] and of a [HashSet], [SliceRandom::shuffle] and
    [IteratorRandom::sample]. *)
Record Oracle `{N : Network} := mk_oracle {
  iter_map : gmap SocketAddr BlockLocators -> list (SocketAddr * BlockLocators);
  iter_set : gset SocketAddr -> list SocketAddr;
  shuffle : list (SocketAddr * BlockLocators) -> list (SocketAddr * BlockLocators);
  sample : Z -> list SocketAddr -> list SocketAddr;
}.

Record oracle_wf `{N : Network} (o : Oracle) : Prop := {
  ow_iter_map m : iter_map o m ≡ₚ map_to_list m;
  ow_iter_set X : iter_set o X ≡ₚ elements X;
  ow_shuffle l : shuffle o l ≡ₚ l;
  ow_sample n l : sample o n l ⊆ l /\ (NoDup l -> NoDup (sample o n l)) /\
    len (sample o n l) = Z.min (Z.max 0 n) (len l);
}.

(** The greatest of a list of heights ([Iterator::max]). *)
Definition list_max (l : list Z) : option Z :=
  match l with [] => None | x :: l => Some (foldl Z.max x l) end.

Definition REDUNDANCY_FACTOR : Z := 1.
Definition EXTRA_REDUNDANCY_FACTOR : Z := REDUNDANCY_FACTOR * 3.
Definition NUM_SYNC_CANDIDATE_PEERS : Z := REDUNDANCY_FACTOR * 5.
Definition BLOCK_REQUEST_TIMEOUT : Z := 60 * 10 ^ 9.
Definition MAX_BLOCK_REQUESTS : Z := 50.
Definition DUMMY_SELF_IP : SocketAddr := SocketAddrV4 2130706433 0.
(** [DataBlocks::MAXIMUM_NUMBER_OF_BLOCKS] (node/bft/events/src/block_response.rs)
    and [ConsensusVersion::V12]. *)
Definition MAXIMUM_NUMBER_OF_BLOCKS : Z := 5.
Definition V12 : Z := 12.

Module BlockSync.
Section BlockSync.
Context `{N : Network} {B : BlockData}.

(** A request without its peers, as [failed_requests] keeps it. *)
Abbreviation hashes := (option BlockHash * option BlockHash)%type.

(** [OutstandingRequest<N>], with the fields of its [SyncRequest<N>]. *)
Record OutstandingRequest := mk_request {
  request_hashes : hashes;
  sync_ips : list SocketAddr;
  timestamp : Z;
  response : option Block;
}.

(** The state; [peer_notify] and [response_notify] hold the permit of their
    [Notify], [synced_waiters] are the tasks registered at [synced_notify]. *)
Record BlockSync := mk_block_sync {
  locators : gmap SocketAddr BlockLocators;
  common_ancestors : list (PeerPair * Z);
  requests : gmap Z OutstandingRequest;
  sync_state : SyncState;
  failed_requests : gmap Z hashes;
  peer_notify : bool;
  response_notify : bool;
  synced_waiters : list Z;
}.

Definition set_locators x (s : BlockSync) : BlockSync :=
  mk_block_sync x (common_ancestors s) (requests s) (sync_state s) (failed_requests s)
    (peer_notify s) (response_notify s) (synced_waiters s).
Definition set_common_ancestors x (s : BlockSync) : BlockSync :=
  mk_block_sync (locators s) x (requests s) (sync_state s) (failed_requests s)
    (peer_notify s) (response_notify s) (synced_waiters s).
Definition set_requests x (s : BlockSync) : BlockSync :=
  mk_block_sync (locators s) (common_ancestors s) x (sync_state s) (failed_requests s)
    (peer_notify s) (response_notify s) (synced_waiters s).
Definition set_sync_state x (s : BlockSync) : BlockSync :=
  mk_block_sync (locators s) (common_ancestors s) (requests s) x (failed_requests s)
    (peer_notify s) (response_notify s) (synced_waiters s).
Definition set_failed_requests x (s : BlockSync) : BlockSync :=
  mk_block_sync (locators s) (common_ancestors s) (requests s) (sync_state s) x
    (peer_notify s) (response_notify s) (synced_waiters s).
Definition set_peer_notify x (s : BlockSync) : BlockSync :=
  mk_block_sync (locators s) (common_ancestors s) (requests s) (sync_state s) (failed_requests s)
    x (response_notify s) (synced_waiters s).
Definition set_response_notify x (s : BlockSync) : BlockSync :=
  mk_block_sync (locators s) (common_ancestors s) (requests s) (sync_state s) (failed_requests s)
    (peer_notify s) x (synced_waiters s).
Definition set_synced_waiters x (s : BlockSync) : BlockSync :=
  mk_block_sync (locators s) (common_ancestors s) (requests s) (sync_state s) (failed_requests s)
    (peer_notify s) (response_notify s) x.

(** [BlockSync::new], at time [now]. *)
Definition new_block_sync (L : ChainView) (now : Z) : BlockSync :=
  mk_block_sync ∅ [] ∅ (new_with_height now (latest_block_height L)) ∅ false false [].

(** ** Waiting *)

(** [BlockSync::wait_for_synced] of task [t] up to its wait: it returns if the
    node is synced, and is registered otherwise. *)
Definition wait_for_synced (t : Z) (s : BlockSync) : bool * BlockSync :=
  if is_block_synced (sync_state s) then (true, s)
  else (false, set_synced_waiters (t :: synced_waiters s) s).

(** [self.synced_notify.notify_waiters()] under the condition [synced]. *)
Definition notify_synced (synced : bool) (s : BlockSync) : BlockSync :=
  if synced then set_synced_waiters [] s else s.

(** ** Queries *)

(** [OutstandingRequest] has no peer left to answer it. *)
Definition no_ips (e : OutstandingRequest) : bool := bool_decide (sync_ips e = []).

(** [BlockSync::num_outstanding_block_requests], [num_total_block_requests],
    [has_pending_responses]. *)
Definition num_outstanding_block_requests (s : BlockSync) : Z :=
  Z.of_nat (size (base.filter (fun p => no_ips p.2 = false) (requests s))).
Definition num_total_block_requests (s : BlockSync) : Z := Z.of_nat (size (requests s)).
Definition has_pending_responses (s : BlockSync) : bool :=
  bool_decide (0 < size (base.filter (fun p => is_Some (response p.2) /\ no_ips p.2 = true) (requests s)))%nat.

(** [BlockSync::get_block_requests_summary]: completed and outstanding heights. *)
Definition get_block_requests_summary (s : BlockSync) : string * string :=
  let heights (b : bool) := (base.filter (fun p => no_ips p.2 = b) (btree_iter (requests s))).*1 in
  (rangify_heights (heights true), rangify_heights (heights false)).

(** [BlockSync::get_peer_heights]. *)
Definition get_peer_heights (s : BlockSync) : gmap SocketAddr Z := latest_locator_height <$> locators s.

(** [BlockSync::peek_next_block]. *)
Definition peek_next_block (s : BlockSync) (next_height : Z) : option Block :=
  match requests s !! next_height with
  | Some entry => if negb (no_ips entry) then None else response entry
  | None => None
  end.

(** The greatest height of the peers' locators. *)
Definition max_peer_height (s : BlockSync) : option Z :=
  list_max (latest_locator_height <$> (map_to_list (locators s)).*2).

(** ** Sync height *)

(** [BlockSync::set_sync_height], and its part with the lock of the sync state.
    The metrics are not part of the state. *)
Definition record_sync_height (now new_height : Z) (s : BlockSync) : bool * BlockSync :=
  let st := SyncState.set_sync_height now new_height (sync_state s) in
  (is_block_synced st, set_sync_state st s).
Definition set_sync_height (now new_height : Z) (s : BlockSync) : BlockSync :=
  let '(synced, s) := record_sync_height now new_height s in notify_synced synced s.

(** ** Requests *)

(** [BlockSync::check_block_request]. *)
Definition check_block_request (L : ChainView) (s : BlockSync) (h : Z) : result unit :=
  if contains_block_height L h
  then Err "Failed to add block request, as block {height} exists in the ledger"
  else if decide (is_Some (requests s !! h))
  then Err "Failed to add block request, as block {height} exists in the requests map"
  else Ok tt.

(** [BlockSync::insert_block_request], at time [now]. *)
Definition insert_block_request (L : ChainView) (now h : Z) (hs : hashes) (ips : list SocketAddr)
    : SM BlockSync unit :=
  do s ⇐ sget;
  do _ ⇐ slift (check_block_request L s h);
  do _ ⇐ slift (ensure (negb (bool_decide (ips = []))) "Cannot insert a block request with no sync IPs");
  smodify (fun s => set_requests (<[h := mk_request hs ips now None]> (requests s)) s).

(** [BlockSync::remove_block_response]. *)
Definition remove_block_response (h : Z) (s : BlockSync) : BlockSync :=
  match requests s !! h with
  | Some _ => set_peer_notify true (set_requests (delete h (requests s)) s)
  | None => s
  end.

(** The entry [e] without the peer, and whether the request is kept. *)
Definition drop_peer (peer_ip : SocketAddr) (e : OutstandingRequest) : OutstandingRequest :=
  mk_request (request_hashes e) (iset_swap_remove id peer_ip (sync_ips e)) (timestamp e) (response e).
Definition retain_without (peer_ip : SocketAddr) (e : OutstandingRequest) : bool :=
  let had_peer := bool_decide (peer_ip ∈ sync_ips e) in
  let e := drop_peer peer_ip e in
  negb had_peer || negb (no_ips e) || bool_decide (is_Some (response e)).

(** [BlockSync::remove_block_requests_to_peer]: the requests that are retained,
    with those that are removed, and the insertion of the removed ones into the
    failed requests. *)
Definition retain_requests (peer_ip : SocketAddr) (s : BlockSync) : gmap Z hashes * BlockSync :=
  let kept := omap (fun e => if retain_without peer_ip e then Some (drop_peer peer_ip e) else None)
                (requests s) in
  let removed := omap (fun e => if retain_without peer_ip e then None else Some (request_hashes e))
                   (requests s) in
  (removed, set_requests kept s).
Definition mark_failed (removed : gmap Z hashes) (s : BlockSync) : BlockSync :=
  set_failed_requests (removed ∪ failed_requests s) s.
Definition remove_block_requests_to_peer (peer_ip : SocketAddr) (s : BlockSync) : BlockSync :=
  let '(removed, s) := retain_requests peer_ip s in mark_failed removed s.

(** ** Responses *)

Inductive InsertBlockResponseError :=
  | EmptyBlockResponse
  | NoConsensusVersion
  | ConsensusVersionMismatch (peer_version expected_version last_height : Z)
  | BlockSyncAlreadyAdvanced (h : Z)
  | NoSuchRequest (h : Z)
  | InvalidBlockHash (h : Z) (peer_ip : SocketAddr) (expected_hash actual_hash : BlockHash)
  | InvalidPreviousBlockHash (h : Z) (peer_ip : SocketAddr) (expected actual : BlockHash)
  | MalformedBlock (h : Z) (peer_ip : SocketAddr)
  | WrongSyncPeer (h : Z) (peer_ip : SocketAddr)
  | Other (msg : string).

Definition is_benign (e : InsertBlockResponseError) : bool :=
  match e with NoSuchRequest _ | BlockSyncAlreadyAdvanced _ => true | _ => false end.
Definition is_invalid_consensus_version (e : InsertBlockResponseError) : bool :=
  match e with ConsensusVersionMismatch _ _ _ | NoConsensusVersion => true | _ => false end.

(** The expected and the actual hash, when a hash was requested and differs. *)
Definition mismatch (expected : option BlockHash) (actual : BlockHash) : option (BlockHash * BlockHash) :=
  match expected with
  | Some e => if decide (actual <> e) then Some (e, actual) else None
  | None => None
  end.

(** [BlockSync::insert_block_response].  The peer is removed from the entry
    before the block is compared with an earlier response. *)
Definition insert_block_response (L : ChainView) (peer_ip : SocketAddr) (block : Block) (s : BlockSync)
    : (InsertBlockResponseError + unit) * BlockSync :=
  let h := height block in
  if contains_block_height L h then (inl (BlockSyncAlreadyAdvanced h), s) else
  match requests s !! h with
  | None => (inl (NoSuchRequest h), s)
  | Some entry =>
      let '(expected_hash, expected_previous_hash) := request_hashes entry in
      match mismatch expected_hash (hash block) with
      | Some (e, a) => (inl (InvalidBlockHash h peer_ip e a), s)
      | None =>
      match mismatch expected_previous_hash (previous_hash block) with
      | Some (e, a) => (inl (InvalidPreviousBlockHash h peer_ip e a), s)
      | None =>
      if decide (peer_ip ∉ sync_ips entry) then (inl (WrongSyncPeer h peer_ip), s) else
      let entry := drop_peer peer_ip entry in
      match response entry with
      | Some existing_block =>
          let s := set_requests (<[h := entry]> (requests s)) s in
          if decide (block <> existing_block) then (inl (MalformedBlock h peer_ip), s)
          else (inr tt, set_response_notify true s)
      | None =>
          let entry := mk_request (request_hashes entry) (sync_ips entry) (timestamp entry) (Some block) in
          (inr tt, set_response_notify true (set_requests (<[h := entry]> (requests s)) s))
      end
      end
      end
  end.

(** The loop over the blocks in [insert_block_responses]. *)
Fixpoint insert_blocks (L : ChainView) (peer_ip : SocketAddr) (blocks : list Block) (s : BlockSync)
    : (InsertBlockResponseError + unit) * BlockSync :=
  match blocks with
  | [] => (inr tt, s)
  | block :: blocks =>
      match insert_block_response L peer_ip block s with
      | (inl e, s) => (inl e, s)
      | (inr _, s) => insert_blocks L peer_ip blocks s
      end
  end.

(** The check of the consensus version the peer sent. *)
Definition check_consensus_version (expected last_height : Z) (latest_consensus_version : option Z)
    : InsertBlockResponseError + unit :=
  if decide (V12 <= expected) then
    match latest_consensus_version with
    | Some peer_version =>
        if decide (peer_version <> expected)
        then inl (ConsensusVersionMismatch peer_version expected last_height) else inr tt
    | None => inl NoConsensusVersion
    end
  else inr tt.

(** [BlockSync::insert_block_responses].  An error of [N::CONSENSUS_VERSION]
    leaves the function before the requests to the peer are removed. *)
Definition insert_block_responses (L : ChainView) (peer_ip : SocketAddr) (blocks : list Block)
    (latest_consensus_version : option Z) (s : BlockSync) : (InsertBlockResponseError + unit) * BlockSync :=
  let fail e s := (inl e, remove_block_requests_to_peer peer_ip s) in
  match last blocks with
  | None => fail EmptyBlockResponse s
  | Some b =>
      let last_height := height b in
      match CONSENSUS_VERSION last_height with
      | inl msg => (inl (Other msg), s)
      | inr expected =>
          match check_consensus_version expected last_height latest_consensus_version with
          | inl e => fail e s
          | inr _ =>
              match insert_blocks L peer_ip blocks s with
              | (inl e, s) => fail e s
              | (inr _, s) => (inr tt, s)
              end
          end
      end
  end.

(** ** Peers *)

(** The parts of [BlockSync::remove_peer]: the locators, the common ancestors,
    the requests (above), and the sync state for the greatest height that was read
    before.  The last part is that of [update_peer_locators] too. *)
Definition remove_locators (peer_ip : SocketAddr) (s : BlockSync) : BlockSync :=
  set_locators (delete peer_ip (locators s)) s.
Definition remove_ancestors (peer_ip : SocketAddr) (s : BlockSync) : BlockSync :=
  set_common_ancestors (base.filter (fun e => pair_contains peer_ip e.1 = false) (common_ancestors s)) s.
Definition set_peer_height (now : Z) (max_height : option Z) (s : BlockSync) : bool * BlockSync :=
  let st := match max_height with
            | Some greatest_peer_height => set_greatest_peer_height now greatest_peer_height (sync_state s)
            | None => clear_greatest_peer_height now (sync_state s)
            end in
  (is_block_synced st, set_sync_state st s).
Definition notify_peers (synced : bool) (s : BlockSync) : BlockSync := set_peer_notify true (notify_synced synced s).
Definition refresh_peer_height (now : Z) (s : BlockSync) : BlockSync :=
  let '(synced, s) := set_peer_height now (max_peer_height s) s in notify_peers synced s.

(** [BlockSync::remove_peer]. *)
Definition remove_peer (now : Z) (peer_ip : SocketAddr) (s : BlockSync) : BlockSync :=
  let s := remove_locators peer_ip s in
  let s := remove_ancestors peer_ip s in
  let s := remove_block_requests_to_peer peer_ip s in
  refresh_peer_height now s.

(** [PartialEq for BlockLocators]: the maps are compared without their order. *)
Definition same_locators (l1 l2 : BlockLocators) : bool :=
  bool_decide ((list_to_map (recents l1) : gmap Z BlockHash) = list_to_map (recents l2) /\
               (list_to_map (checkpoints l1) : gmap Z BlockHash) = list_to_map (checkpoints l2)).

(** The loops of [update_peer_locators] that find a common ancestor: the last
    height before the first mismatch with the hashes of [lookup]. *)
Fixpoint common_ancestor (lookup : Z -> option BlockHash) (ls : list (Z * BlockHash)) (ancestor : Z) : Z :=
  match ls with
  | [] => ancestor
  | (h, x) :: ls =>
      match lookup h with
      | Some expected_hash =>
          if decide (expected_hash = x) then common_ancestor lookup ls h else ancestor
      | None => common_ancestor lookup ls ancestor
      end
  end.

(** The common ancestor of the ledger with locators, and of two locators. *)
Definition local_ancestor (L : ChainView) (ls : BlockLocators) : Z :=
  common_ancestor (fun h => ok (get_block_hash L h)) (into_iter ls) 0.
Definition peer_ancestor (ls other_locators : BlockLocators) : Z :=
  common_ancestor (get_hash ls) (into_iter other_locators) 0.

(** The parts of [BlockSync::update_peer_locators]: the entry of the peer, and
    whether it changed; the common ancestors with the other peers; the map of common
    ancestors; and the sync state, which is written while the locators are read. *)
Definition insert_locators (peer_ip : SocketAddr) (ls : BlockLocators) (s : BlockSync) : bool * BlockSync :=
  if match locators s !! peer_ip with Some e => same_locators e ls | None => false end then (false, s)
  else (true, set_locators (<[peer_ip := ls]> (locators s)) s).
Definition ancestor_updates (o : Oracle) (peer_ip : SocketAddr) (ls : BlockLocators) (s : BlockSync) : list (PeerPair * Z) :=
  omap (fun '(other_ip, other_locators) =>
          if decide (other_ip = peer_ip) then None
          else Some (mk_peer_pair peer_ip other_ip, peer_ancestor ls other_locators))
    (iter_map o (locators s)).
Definition insert_ancestors (peer_ip : SocketAddr) (new_local_ancestor : Z) (updates : list (PeerPair * Z)) (s : BlockSync)
    : BlockSync :=
  set_common_ancestors
    (foldl (fun m '(p, a) => ancestors_insert p a m)
       (ancestors_insert (mk_peer_pair DUMMY_SELF_IP peer_ip) new_local_ancestor (common_ancestors s)) updates) s.
Definition raise_peer_height (now : Z) (s : BlockSync) : bool * BlockSync :=
  match max_peer_height s with
  | Some greatest_peer_height =>
      let st := set_greatest_peer_height now greatest_peer_height (sync_state s) in
      (is_block_synced st, set_sync_state st s)
  | None => (false, s)
  end.

(** [BlockSync::update_peer_locators]. *)
Definition update_peer_locators (L : ChainView) (o : Oracle) (now : Z) (peer_ip : SocketAddr)
    (ls : BlockLocators) (s : BlockSync) : BlockSync :=
  match insert_locators peer_ip ls s with
  | (false, s) => s
  | (true, s) =>
      let s := insert_ancestors peer_ip (local_ancestor L ls) (ancestor_updates o peer_ip ls s) s in
      let '(is_synced, s) := raise_peer_height now s in
      notify_peers is_synced s
  end.

(** ** Timeouts *)

(** What [handle_block_request_timeouts] decides about a request. *)
Definition is_obsolete (current_height h : Z) : bool := bool_decide (h <= current_height).
Definition is_timeout (now : Z) (e : OutstandingRequest) : bool :=
  let timer_elapsed := bool_decide (BLOCK_REQUEST_TIMEOUT < saturating_sub now (timestamp e)) in
  let is_complete := no_ips e && bool_decide (is_Some (response e)) in
  timer_elapsed && negb is_complete.

(** The part of [BlockSync::handle_block_request_timeouts] with the lock of the
    requests, at time [now]: the requests that timed out, with the peers that did
    not answer. *)
Definition retain_live (L : ChainView) (now : Z) (s : BlockSync) : gmap Z hashes * gset SocketAddr * BlockSync :=
  let current_height := latest_block_height L in
  let kept := base.filter (fun p => is_timeout now p.2 = false /\ is_obsolete current_height p.1 = false)
                (requests s) in
  let timed_out := base.filter (fun p => is_timeout now p.2 = true) (requests s) in
  let peers_to_ban : gset SocketAddr :=
    list_to_set ((map_to_list timed_out) ≫= fun p => sync_ips p.2) in
  (request_hashes <$> timed_out, peers_to_ban, set_requests kept s).

(** [BlockSync::handle_block_request_timeouts]. *)
Definition handle_block_request_timeouts (L : ChainView) (o : Oracle) (now : Z) (s : BlockSync) : BlockSync :=
  let '(timed_out, peers_to_ban, s) := retain_live L now s in
  let s := mark_failed timed_out s in
  foldl (fun s peer_ip => remove_peer now peer_ip s) s (iter_set o peers_to_ban).

(** ** Choosing peers *)

(** The order of the candidates: by descending height. *)
Definition higher (a b : SocketAddr * BlockLocators) : Prop :=
  latest_locator_height b.2 <= latest_locator_height a.2.
#[global] Instance higher_dec : RelDecision higher := fun a b =>
  decide (latest_locator_height b.2 <= latest_locator_height a.2).

(** The peers in [others] that are consistent with [peer], and the minimum of
    their common ancestors. *)
Fixpoint add_consistent (s : BlockSync) (latest_ledger_height : Z) (peer : SocketAddr * BlockLocators)
    (others : list (SocketAddr * BlockLocators)) (min_common_ancestor : Z)
    (sync_peers : list (SocketAddr * BlockLocators)) : Z * list (SocketAddr * BlockLocators) :=
  match others with
  | [] => (min_common_ancestor, sync_peers)
  | other :: others =>
      match ancestors_get (mk_peer_pair peer.1 other.1) (common_ancestors s) with
      | Some a =>
          if bool_decide (latest_ledger_height < a) && is_consistent_with peer.2 other.2
          then add_consistent s latest_ledger_height peer others (Z.min min_common_ancestor a)
                 (sync_peers ++ [other])
          else add_consistent s latest_ledger_height peer others min_common_ancestor sync_peers
      | None => add_consistent s latest_ledger_height peer others min_common_ancestor sync_peers
      end
  end.

(** The loop over the candidates in [find_sync_peers_inner]. *)
Fixpoint try_candidates (s : BlockSync) (o : Oracle) (latest_ledger_height threshold_to_request : Z)
    (candidates : list (SocketAddr * BlockLocators)) : option (list (SocketAddr * BlockLocators) * Z) :=
  match candidates with
  | [] => None
  | peer :: others =>
      let '(min_common_ancestor, sync_peers) :=
        add_consistent s latest_ledger_height peer others (latest_locator_height peer.2) [peer] in
      if decide (latest_ledger_height < min_common_ancestor /\ threshold_to_request <= len sync_peers)
      then Some (imap_of_list (shuffle o sync_peers), min_common_ancestor)
      else try_candidates s o latest_ledger_height threshold_to_request others
  end.

(** The candidates of [find_sync_peers_inner]. *)
Definition candidate_locators (s : BlockSync) (o : Oracle) (current_height : Z)
    : list (SocketAddr * BlockLocators) :=
  take (Z.to_nat NUM_SYNC_CANDIDATE_PEERS)
    (merge_sort higher
       (base.filter (fun p => current_height < latest_locator_height p.2) (iter_map o (locators s)))).

(** [BlockSync::find_sync_peers_inner]. *)
Definition find_sync_peers_inner (L : ChainView) (o : Oracle) (s : BlockSync) (current_height : Z)
    : option (list (SocketAddr * BlockLocators) * Z) :=
  let latest_ledger_height := latest_block_height L in
  let candidates := candidate_locators s o current_height in
  if decide (candidates = []) then None else
  try_candidates s o latest_ledger_height (Z.min (len candidates) REDUNDANCY_FACTOR) candidates.

(** [BlockSync::find_sync_peers]. *)
Definition find_sync_peers (L : ChainView) (o : Oracle) (s : BlockSync)
    : option (list (SocketAddr * Z) * Z) :=
  match find_sync_peers_inner L o s (sync_height (sync_state s)) with
  | Some (sync_peers, min_common_ancestor) =>
      Some ((fun p => (p.1, latest_locator_height p.2)) <$> sync_peers, min_common_ancestor)
  | None => None
  end.

(** ** Preparing requests *)

(** The variables of the loop of [construct_request]. *)
Record req_acc := mk_req_acc {
  acc_hash : option BlockHash;
  acc_redundancy : Z;
  acc_previous : option BlockHash;
  acc_honest : bool;
}.
Definition dishonest : req_acc := mk_req_acc None 0 None false.

(** The two matches of the loop body of [construct_request]; [None] leaves the
    loop with the values of [dishonest]. *)
Definition see_hash (candidate : option BlockHash) (a : req_acc) : option req_acc :=
  match candidate, acc_hash a with
  | None, _ => Some a
  | Some c, Some x =>
      if decide (x = c)
      then Some (mk_req_acc (Some x) (acc_redundancy a + 1) (acc_previous a) (acc_honest a)) else None
  | Some c, None => Some (mk_req_acc (Some c) 1 (acc_previous a) (acc_honest a))
  end.
Definition see_previous (candidate : option BlockHash) (a : req_acc) : option req_acc :=
  match candidate, acc_previous a with
  | None, _ => Some a
  | Some c, Some x => if decide (x = c) then Some a else None
  | Some c, None => Some (mk_req_acc (acc_hash a) (acc_redundancy a) (Some c) (acc_honest a))
  end.

(** The loop of [construct_request]. *)
Fixpoint request_loop (h : Z) (peers : list BlockLocators) (a : req_acc) : req_acc :=
  match peers with
  | [] => a
  | l :: peers =>
      match see_hash (get_hash l h) a ≫= see_previous (get_hash l (saturating_sub h 1)) with
      | Some a => request_loop h peers a
      | None => dishonest
      end
  end.

(** [construct_request]. *)
Definition construct_request (h : Z) (sync_peers : list (SocketAddr * BlockLocators))
    : hashes * Z * bool :=
  let a := request_loop h sync_peers.*2 (mk_req_acc None 0 None true) in
  let num_sync_ips :=
    if negb (acc_honest a) then EXTRA_REDUNDANCY_FACTOR
    else if bool_decide (is_Some (acc_hash a) /\ REDUNDANCY_FACTOR <= acc_redundancy a) then 1
    else REDUNDANCY_FACTOR in
  ((acc_hash a, acc_previous a), num_sync_ips, acc_honest a).

(** [while requests.contains_key(&start_height) { start_height += 1 }]; every
    iteration passes another request, which bounds their number. *)
Fixpoint skip_requested (fuel : nat) (m : gmap Z OutstandingRequest) (start_height : Z) : Z :=
  match fuel with
  | O => start_height
  | S fuel =>
      if decide (is_Some (m !! start_height)) then skip_requested fuel m (u32_wrap (start_height + 1))
      else start_height
  end.

(** The loop of [construct_requests] over the heights, with the hashes so far
    and the largest number of sync IPs. *)
Fixpoint requests_loop (L : ChainView) (s : BlockSync) (sync_peers : list (SocketAddr * BlockLocators))
    (heights : list Z) (request_hashes : list (Z * hashes)) (max_num_sync_ips : Z)
    : list (Z * hashes) * Z :=
  match heights with
  | [] => (request_hashes, max_num_sync_ips)
  | h :: heights =>
      if negb (is_ok (check_block_request L s h)) then
        if bool_decide (request_hashes = [])
        then requests_loop L s sync_peers heights request_hashes max_num_sync_ips
        else (request_hashes, max_num_sync_ips)
      else
        let '(hs, num_sync_ips, is_honest) := construct_request h sync_peers in
        if negb is_honest && bool_decide (len sync_peers < num_sync_ips)
        then (request_hashes, max_num_sync_ips)
        else requests_loop L s sync_peers heights (imap_insert h hs request_hashes)
               (Z.max max_num_sync_ips num_sync_ips)
  end.

(** A prepared request: its height, hashes and the number of sync IPs. *)
Abbreviation prepared := (Z * (hashes * Z))%type.

(** [BlockSync::construct_requests]; [greatest_peer_height] is only logged. *)
Definition construct_requests (L : ChainView) (s : BlockSync)
    (sync_peers : list (SocketAddr * BlockLocators))
    (sync_height min_common_ancestor max_blocks_to_request : Z) : list prepared :=
  let start_height :=
    skip_requested (S (size (requests s))) (requests s)
      (Z.max (latest_block_height L) (u32_wrap (sync_height + 1))) in
  if decide (min_common_ancestor < start_height) then [] else
  let end_height := Z.min (u32_wrap (min_common_ancestor + 1)) (u32_wrap (start_height + max_blocks_to_request)) in
  let '(request_hashes, max_num_sync_ips) :=
    requests_loop L s sync_peers (seqZ start_height (end_height - start_height)) [] 1 in
  (fun p => (p.1, (p.2, max_num_sync_ips))) <$> request_hashes.

Abbreviation batch := (list prepared * list (SocketAddr * BlockLocators))%type.

(** The conversion of the failed requests into continuous ranges. *)
Definition push_failed (batches : list (list (Z * hashes))) (r : Z * hashes) : list (list (Z * hashes)) :=
  match last batches with
  | Some prev_batch =>
      match last prev_batch with
      | Some (last_height, _) =>
          if decide (u32_wrap (last_height + 1) <> r.1) then batches ++ [[r]]
          else take (length batches - 1) batches ++ [prev_batch ++ [r]]
      | None => take (length batches - 1) batches ++ [prev_batch ++ [r]]
      end
  | None => batches ++ [[r]]
  end.
Definition failed_batches (failed : list (Z * hashes)) : list (list (Z * hashes)) :=
  foldl push_failed [] failed.

(** The loop of [prepare_block_requests] that issues the failed requests again. *)
Fixpoint reissue (L : ChainView) (o : Oracle) (s : BlockSync) (batches : list (list (Z * hashes)))
    (acc : list batch) : list batch * BlockSync :=
  match batches with
  | [] => (acc, s)
  | b :: batches =>
      match head b, last b with
      | Some (start_height, _), Some (last_height, _) =>
          let end_height := u32_wrap (last_height + 1) in
          let max_new_blocks_to_request := u32_wrap (end_height - start_height) in
          match find_sync_peers_inner L o s start_height with
          | None => (acc, s)
          | Some (sync_peers, min_common_ancestor) =>
              match list_max (latest_locator_height <$> sync_peers.*2) with
              | None => (acc, s)
              | Some _ =>
                  let reqs := construct_requests L s sync_peers (saturating_sub start_height 1)
                                min_common_ancestor max_new_blocks_to_request in
                  let s := set_failed_requests
                             (foldl (fun m h => delete h m) (failed_requests s) reqs.*1) s in
                  reissue L o s batches (acc ++ [(reqs, sync_peers)])
              end
          end
      | _, _ => (acc, s)
      end
  end.

(** [while let Some(height) = failed_requests.keys().next() && *height <= current_height]. *)
Fixpoint drop_obsolete (current_height : Z) (failed : list (Z * hashes)) : list (Z * hashes) :=
  match failed with
  | p :: failed' => if decide (p.1 <= current_height) then drop_obsolete current_height failed' else failed
  | [] => []
  end.

Definition max_outstanding_block_requests : Z := MAX_BLOCK_REQUESTS * MAXIMUM_NUMBER_OF_BLOCKS.
Definition max_total_requests : Z := 4 * max_outstanding_block_requests.

(** [BlockSync::prepare_block_requests]. *)
Definition prepare_block_requests (L : ChainView) (o : Oracle) (s : BlockSync) : list batch * BlockSync :=
  let current_height := sync_height (sync_state s) in
  let failed := drop_obsolete current_height (btree_iter (failed_requests s)) in
  let s := set_failed_requests (list_to_map failed) s in
  if negb (bool_decide (failed = [])) then reissue L o s (failed_batches failed) [] else
  let max_new_blocks_to_request :=
    saturating_sub max_outstanding_block_requests (num_outstanding_block_requests s) in
  if decide (max_total_requests <= num_total_block_requests s) then ([], s) else
  if decide (max_new_blocks_to_request = 0) then ([], s) else
  match find_sync_peers_inner L o s current_height with
  | Some (sync_peers, min_common_ancestor) =>
      ([(construct_requests L s sync_peers current_height min_common_ancestor max_new_blocks_to_request,
         sync_peers)], s)
  | None => ([], s)
  end.

(** ** Sending requests *)

(** The loop of [send_block_requests] that inserts the requests. *)
Definition insert_requests (L : ChainView) (now : Z) (ips : list SocketAddr) (reqs : list prepared)
    : SM BlockSync unit :=
  sfold (fun _ '(h, (hs, _)) => insert_block_request L now h hs ips) tt reqs.

(** The first half of [BlockSync::send_block_requests], under
    [prepare_requests_lock]: the peers and the range of heights to request from
    them, or [None] where the function returns [false]. *)
Definition begin_send (L : ChainView) (o : Oracle) (now : Z) (sync_peers : list (SocketAddr * BlockLocators))
    (reqs : list prepared) (s : BlockSync) : option (list SocketAddr * Z * Z) * BlockSync :=
  match head reqs with
  | None => (None, s)
  | Some (start_height, (_, max_num_sync_ips)) =>
      let ips := sample o max_num_sync_ips sync_peers.*1 in
      let end_height := u32_saturating_add start_height (u32_wrap (len reqs)) in
      if forallb (fun ip => bool_decide (is_Some (locators s !! ip))) ips then
        match insert_requests L now ips reqs s with
        | (Ok _, s) => (Some (ips, start_height, end_height), s)
        | (_, s) => (None, s)
        end
      else (None, s)
  end.

(** The second half: without success for every peer, the requests of the range
    are removed. *)
Definition end_send (sent : SocketAddr -> bool) (ips : list SocketAddr) (start_height end_height : Z)
    (s : BlockSync) : bool * BlockSync :=
  if forallb sent ips then (true, s)
  else (false, set_requests (base.filter (fun p => ~ start_height <= p.1 < end_height) (requests s)) s).

(** [BlockSync::send_block_requests]; [sent] tells to which peers the message
    could be sent. *)
Definition send_block_requests (L : ChainView) (o : Oracle) (sent : SocketAddr -> bool) (now : Z)
    (sync_peers : list (SocketAddr * BlockLocators)) (reqs : list prepared) (s : BlockSync)
    : bool * BlockSync :=
  match begin_send L o now sync_peers reqs s with
  | (Some (ips, start_height, end_height), s) => end_send sent ips start_height end_height s
  | (None, s) => (false, s)
  end.

(** [slice::chunks], for a positive chunk size. *)
Fixpoint chunks_fuel {A} (fuel n : nat) (l : list A) : list (list A) :=
  match fuel, l with
  | S fuel, _ :: _ => take n l :: chunks_fuel fuel n (drop n l)
  | _, _ => []
  end.
Definition chunks {A} (n : Z) (l : list A) : list (list A) := chunks_fuel (length l) (Z.to_nat n) l.

(** The inner loop of [try_issuing_block_requests]: it stops at the first
    chunk that could not be sent. *)
Fixpoint send_chunks (L : ChainView) (o : Oracle) (sent : SocketAddr -> bool) (now : Z)
    (sync_peers : list (SocketAddr * BlockLocators)) (cs : list (list prepared)) (s : BlockSync) : BlockSync :=
  match cs with
  | [] => s
  | reqs :: cs =>
      match send_block_requests L o sent now sync_peers reqs s with
      | (true, s) => send_chunks L o sent now sync_peers cs s
      | (false, s) => s
      end
  end.

(** [BlockSync::try_issuing_block_requests], with no other task in between. *)
Definition try_issuing_block_requests (L : ChainView) (o : Oracle) (sent : SocketAddr -> bool) (now : Z)
    (s : BlockSync) : BlockSync :=
  let s := handle_block_request_timeouts L o now s in
  if is_block_synced (sync_state s) then s else
  if negb (can_issue_new_block_requests (sync_state s)) && bool_decide (failed_requests s = ∅) then s else
  let '(batches, s) := prepare_block_requests L o s in
  foldl (fun s '(reqs, sync_peers) =>
           send_chunks L o sent now sync_peers (chunks MAXIMUM_NUMBER_OF_BLOCKS reqs) s) s batches.

(** ** Advancing *)

(** The blocking task of [try_advancing_block_synchronization]: whether the
    ledger advanced, and whether to stop. *)
Definition try_advance {St} (ops : LedgerOps St) (st : St) (block : Block) : result (bool * bool) * St :=
  match begin_ledger_update ops st with
  | Some ShuttingDown => (Ok (false, true), st)
  | Some _ => (Err "Unexpected error when beginning ledger update: {err}", st)
  | None =>
      match check_next_block ops st block with
      | inl (InvalidHeight | BlockAlreadyExists | InvalidRound) => (Ok (false, false), st)
      | inl e => (Err (into_anyhow e), st)
      | inr block =>
          match advance_to_next_block ops st block with
          | Ok st => (Ok (true, false), st)
          | Err _ => (Err "Failed to advance to next block (height: {height}, hash: {hash})", st)
          | Panic msg => (Panic msg, st)
          | Deadlock => (Deadlock, st)
          end
      end
  end.

(** The loop of [try_advancing_block_synchronization] at [current_height].
    Every iteration that goes on removes a request, which bounds their number. *)
Fixpoint advance_loop {St} (ops : LedgerOps St) (fuel : nat) (current_height : Z) (st : St) (s : BlockSync)
    : result Z * St * BlockSync :=
  match fuel with
  | O => (Deadlock, st, s)
  | S fuel =>
      let next_height := u32_wrap (current_height + 1) in
      match peek_next_block s next_height with
      | None => (Ok current_height, st, s)
      | Some block =>
          if decide (height block <> next_height) then (Ok current_height, st, s) else
          match try_advance ops st block with
          | (Ok (_, stop), st) =>
              let s := remove_block_response next_height s in
              if stop : bool then (Ok current_height, st, s) else advance_loop ops fuel next_height st s
          | (Err msg, st) => (Err msg, st, s)
          | (Panic msg, st) => (Panic msg, st, s)
          | (Deadlock, st) => (Deadlock, st, s)
          end
      end
  end.

(** [BlockSync::try_advancing_block_synchronization], at time [now]. *)
Definition try_advancing_block_synchronization {St} (ops : LedgerOps St) (now : Z) (st : St) (s : BlockSync)
    : result bool * St * BlockSync :=
  let start_height := latest_block_height (view ops st) in
  match advance_loop ops (S (size (requests s))) start_height st s with
  | (Ok current_height, st, s) =>
      if decide (start_height < current_height)
      then (Ok true, st, set_sync_height now current_height s)
      else (Ok false, st, s)
  | (Err msg, st, s) => (Err msg, st, s)
  | (Panic msg, st, s) => (Panic msg, st, s)
  | (Deadlock, st, s) => (Deadlock, st, s)
  end.

End BlockSync.
End BlockSync.

(** ** The mock ledger *)

(** [MockLedgerService] (node/bft/ledger-service/src/mock.rs), which the tests
    of block synchronization run on, for a conversion [from_u32] of numbers to
    block hashes ([Field::from_u32(i).into()]). *)
Module Mock.
Section Mock.
Context `{N : Network} (from_u32 : Z -> BlockHash).

(** The map of heights to rounds and hashes. *)
Abbreviation mock_map := (gmap Z (Z * BlockHash)).

(** [MockLedgerService::new_at_height]. *)
Definition new_at_height (height : Z) : mock_map :=
  foldl (fun m i => <[i := (i * 2, from_u32 i)]> m) ∅ (seqZ 0 (height + 1)).

(** [MockLedgerService::latest_round]; it gives the last height. *)
Definition mock_latest_round (m : mock_map) : Z := default 0 (last (btree_iter m).*1).

(** [MockLedgerService::latest_block_height]. *)
Definition mock_latest_block_height (m : mock_map) : Z := default 0 (fst <$> btree_last m).

(** [MockLedgerService::contains_block_height]. *)
Definition mock_contains_block_height (m : mock_map) (h : Z) : bool := bool_decide (is_Some (m !! h)).

(** [MockLedgerService::get_block_height]. *)
Definition mock_get_block_height (m : mock_map) (x : BlockHash) : result Z :=
  match base.filter (fun p => p.2.2 = x) (btree_iter m) with
  | (h, _) :: _ => Ok h
  | [] => Err "Missing block {hash}"
  end.

(** [MockLedgerService::get_block_hash]. *)
Definition mock_get_block_hash (m : mock_map) (h : Z) : result BlockHash :=
  match m !! h with
  | Some (_, x) => Ok x
  | None => Err "Missing block {height}"
  end.

(** [MockLedgerService::get_block_round]. *)
Definition mock_get_block_round (m : mock_map) (h : Z) : result Z :=
  match base.filter (fun p => p.1 = h) (btree_iter m) with
  | (_, (round, _)) :: _ => Ok round
  | [] => Err "Missing block {height}"
  end.

(** The mock ledger as block synchronization sees it. *)
Definition mock_view (m : mock_map) : ChainView :=
  mk_view (mock_latest_block_height m) (mock_contains_block_height m) (mock_get_block_hash m).

Lemma new_at_height_lookup n h :
  0 <= n -> new_at_height n !! h = if decide (0 <= h <= n) then Some (h * 2, from_u32 h) else None.
Proof.
  intros Hn. unfold new_at_height.
  assert (forall l m, foldl (fun m i => <[i := (i * 2, from_u32 i)]> m) (m : mock_map) l !! h =
            if decide (h ∈ l) then Some (h * 2, from_u32 h) else m !! h) as Hf.
  { induction l as [|i l IH]; intros m; cbn; [by rewrite decide_False by set_solver|]. rewrite IH, lookup_insert.
    destruct (decide (h ∈ l)); [by rewrite decide_True by set_solver|].
    destruct (decide (i = h)) as [->|]; [by rewrite decide_True by set_solver|by rewrite decide_False by set_solver]. }
  rewrite Hf, lookup_empty. apply decide_ext. rewrite elem_of_seqZ. lia.
Qed.

Lemma btree_last_spec {A} (m : gmap Z A) k v :
  btree_last m = Some (k, v) -> m !! k = Some v /\ forall k' v', m !! k' = Some v' -> k' <= k.
Proof.
  unfold btree_last. intros Hl. apply last_Some in Hl as [l Hl].
  split; [rewrite <-elem_of_btree_iter, Hl; set_solver|]. intros k' v' Hk'.
  apply elem_of_btree_iter in Hk'. rewrite Hl in Hk'. pose proof (btree_iter_sorted m) as Hs. rewrite Hl in Hs.
  apply elem_of_app in Hk' as [Hk'|Hk']; [|apply list_elem_of_singleton in Hk'; by simplify_eq].
  clear Hl. induction l as [|p l IH]; [set_solver|]. cbn in Hs. apply StronglySorted_inv in Hs as [Hs Hp].
  apply elem_of_cons in Hk' as [<-|Hk']; [|auto]. rewrite Forall_forall in Hp. apply (Hp (k, v)). set_solver.
Qed.

(** The mock ledger holds the blocks up to its height. *)
Lemma mock_chain_wf n : is_u32 n -> chain_wf (mock_view (new_at_height n)).
Proof.
  intros Hn. assert (0 <= n) as Hn0 by mlia.
  assert (mock_latest_block_height (new_at_height n) = n) as Hlatest.
  { unfold mock_latest_block_height. destruct (btree_last _) as [[k v]|] eqn:E.
    - apply btree_last_spec in E as [Hk Hmax]. rewrite new_at_height_lookup in Hk by done.
      specialize (Hmax n (n * 2, from_u32 n)). rewrite new_at_height_lookup, decide_True in Hmax by lia.
      specialize (Hmax eq_refl). case_decide; [|done]. cbn. lia.
    - unfold btree_last in E. apply last_None in E. apply btree_iter_nil in E.
      pose proof (new_at_height_lookup n 0 Hn0) as H0. rewrite E, lookup_empty, decide_True in H0 by lia. done. }
  split; cbn; rewrite ?Hlatest; [done| |]; intros h; unfold mock_contains_block_height, mock_get_block_hash;
    rewrite bool_decide_eq_true, new_at_height_lookup by done; case_decide; cbn; split; try done; try lia; eauto.
Qed.
End Mock.
End Mock.

(** ** A concrete network of nodes *)

#[export] Instance TestBlocks : BlockData (N := TestNetwork) := {|
  Block := Z * ascii * ascii;
  height b := b.1.1; hash b := b.1.2; previous_hash b := b.2;
  CONSENSUS_VERSION _ := inr 12;
|}.

Definition test_oracle : Oracle (N := TestNetwork) := {|
  iter_map := map_to_list; iter_set := elements; shuffle l := l;
  sample n l := take (Z.to_nat n) l;
|}.

Lemma test_oracle_wf : oracle_wf test_oracle.
Proof.
  split; cbn; try done. intros n l. split_and!.
  - intros x Hx. by apply elem_of_take in Hx as (i & ?%list_elem_of_lookup_2 & _).
  - intros Hnd. eapply sublist_NoDup; [done|]. apply sublist_take.
  - unfold len. rewrite length_take. lia.
Qed.

(** A ledger of the sample chain, by its height. *)
Definition test_view (h : Z) : ChainView (N := TestNetwork) :=
  Mock.mock_view (N := TestNetwork) (Mock.new_at_height (N := TestNetwork) sample_hash h).

Lemma test_view_wf h : is_u32 h -> chain_wf (test_view h).
Proof. apply (Mock.mock_chain_wf (N := TestNetwork)). Qed.

(** It accepts the next block of the sample chain and rejects others. *)
Definition test_ops : LedgerOps (N := TestNetwork) Z := {|
  view := test_view;
  begin_ledger_update _ := None;
  check_next_block st b :=
    if decide (b.1.1 <> st + 1) then inl InvalidHeight
    else if decide (b.1.2 <> sample_hash (st + 1)) then inl (OtherCheckError "invalid block") else inr b;
  advance_to_next_block st _ := Ok (st + 1);
|}.
