(* ===== verification/BlockSyncProps.v ===== *)
(** * Properties of block synchronization

    The invariant of the states that the operations of [BlockSync] reach when
    they run one after the other ([SyncTasks] interleaves them), the choice of
    peers and heights to request, and the fate of requests. *)

From S2P Require Import Prelude Network Sockets Locators SyncState BlockSync.
Import Locators SyncState BlockSync.

Module BlockSyncProps.
Section BlockSyncProps.
Context `{N : Network} {B : BlockData}.

(** ** Common ancestors *)

(** The keys of the two maps of locators are different, as in an [IndexMap]. *)
Definition locators_nodup (l : BlockLocators) : Prop := NoDup (recents l).*1 /\ NoDup (checkpoints l).*1.

(** Height [h] is common to two chains with known hashes [f] and [g]: both
    know it, with the same hash, and no height up to it has different hashes. *)
Definition common (f g : Z -> option BlockHash) (h : Z) : Prop :=
  (exists x, f h = Some x /\ g h = Some x) /\
  forall k x y, k <= h -> f k = Some x -> g k = Some y -> x = y.

(** The greatest common height of two chains, or 0 if there is none. *)
Definition is_common_ancestor (f g : Z -> option BlockHash) (a : Z) : Prop :=
  (common f g a \/ a = 0 /\ forall h, ~ common f g h) /\ forall h, common f g h -> h <= a.

Lemma common_comm f g h : common f g h -> common g f h.
Proof. intros [(x & ? & ?) Hk]. split; [eauto|]. intros k y z ???. symmetry. by eapply Hk. Qed.

Lemma is_common_ancestor_comm f g a : is_common_ancestor f g a -> is_common_ancestor g f a.
Proof.
  intros [Ha Hmax]. split; [|by intros; apply Hmax, common_comm].
  destruct Ha as [?|[-> Hn]]; [left; by apply common_comm|]. right. split; [done|].
  intros h Hh. by eapply Hn, common_comm.
Qed.

Lemma is_common_ancestor_unique f g a b : is_common_ancestor f g a -> is_common_ancestor f g b -> a = b.
Proof.
  intros [[Ha|[-> Ha]] Hma] [[Hb|[-> Hb]] Hmb]; try done.
  - apply Z.le_antisymm; auto.
  - by destruct (Hb a).
  - by destruct (Ha b).
Qed.

(** The same, for the entries of a list. *)
Definition common_in (f : Z -> option BlockHash) (ls : list (Z * BlockHash)) (h : Z) : Prop :=
  (exists x, f h = Some x /\ (h, x) ∈ ls) /\
  forall k x y, k <= h -> f k = Some x -> (k, y) ∈ ls -> x = y.

Lemma common_in_cons f h x ls k :
  (forall y, f h = Some y -> y = x) -> common_in f ls k -> common_in f ((h, x) :: ls) k.
Proof.
  intros Hh [(y & Hy & Hin) Hk]. split; [exists y; split; [done|by right]|].
  intros k' a b Hle Ha [[= -> ->]|Hin']%elem_of_cons; [auto|]. by eapply Hk.
Qed.

Lemma common_in_tail f h x ls k :
  common_in f ((h, x) :: ls) k -> k <> h -> common_in f ls k.
Proof.
  intros [(y & Hy & [[= -> ->]|Hin]%elem_of_cons) Hk] Hne; [done|]. split; [eauto|].
  intros k' a b Hle Ha Hin'. eapply Hk; [done..|by right].
Qed.

Lemma common_ancestor_list f ls a0 :
  StronglySorted Z.lt ls.*1 ->
  (common_ancestor f ls a0 = a0 /\ forall h, ~ common_in f ls h) \/
  (common_in f ls (common_ancestor f ls a0) /\ forall h, common_in f ls h -> h <= common_ancestor f ls a0).
Proof.
  revert a0. induction ls as [|[h x] ls IH]; intros a0 Hs; cbn [common_ancestor].
  { left. split; [done|]. intros h [(x & _ & Hx) _]. set_solver. }
  cbn in Hs. apply StronglySorted_inv in Hs as [Hs Hlt]. rewrite Forall_forall in Hlt.
  assert (forall k, common_in f ls k -> h < k) as Hafter.
  { intros k [(z & _ & Hz) _]. apply Hlt, list_elem_of_fmap. exists (k, z). done. }
  destruct (f h) as [y|] eqn:Hf; [case_decide as Hy|].
  - subst y. right. destruct (IH h Hs) as [[-> Hn]|[Hc Hmax]].
    + split.
      * split; [exists x; split; [done|left]|]. intros k a b Hle Ha [[= -> ->]|Hin]%elem_of_cons; [congruence|].
        specialize (Hlt k ltac:(apply list_elem_of_fmap; by exists (k, b))). lia.
      * intros k Hk. destruct (decide (k = h)) as [->|Hne]; [lia|]. by destruct (Hn k); eapply common_in_tail.
    + split; [apply common_in_cons; [congruence|done]|]. intros k Hk.
      destruct (decide (k = h)) as [->|Hne]; [by apply Z.lt_le_incl, Hafter|].
      apply Hmax. by eapply common_in_tail.
  - left. split; [done|]. intros k Hk. destruct (decide (k = h)) as [->|Hne].
    + destruct Hk as [_ Hk]. apply Hy. eapply (Hk h); [lia|done|left].
    + pose proof (Hafter k (common_in_tail _ _ _ _ _ Hk Hne)) as Hlt'. destruct Hk as [_ Hk].
      apply Hy. eapply (Hk h); [lia|done|left].
  - destruct (IH a0 Hs) as [[-> Hn]|[Hc Hmax]].
    + left. split; [done|]. intros k Hk. destruct (decide (k = h)) as [->|Hne].
      * destruct Hk as [(z & ? & _) _]. congruence.
      * by eapply Hn, common_in_tail.
    + right. split; [apply common_in_cons; [congruence|done]|]. intros k Hk.
      destruct (decide (k = h)) as [->|Hne].
      * destruct Hk as [(z & ? & _) _]. congruence.
      * apply Hmax. by eapply common_in_tail.
Qed.

Lemma foldl_insert_imap (l : list (Z * BlockHash)) m h :
  NoDup l.*1 ->
  foldl (fun m p => <[p.1 := p.2]> m) (m : gmap Z BlockHash) l !! h =
  match imap_get h l with Some x => Some x | None => m !! h end.
Proof.
  revert m. induction l as [|[k x] l IH]; intros m Hnd; [done|]. cbn in Hnd |- *.
  apply NoDup_cons in Hnd as [Hk Hnd]. rewrite IH by done. rewrite lookup_insert.
  destruct (imap_get h l) as [y|] eqn:Hy.
  - apply imap_get_elem in Hy. case_decide; [|done]. subst. destruct Hk. apply list_elem_of_fmap. by exists (h, y).
  - repeat case_decide; congruence.
Qed.

(** Iterating over locators gives the hashes of [get_hash], by height. *)
Lemma elem_of_into_iter l h x : locators_nodup l -> ((h, x) ∈ into_iter l <-> get_hash l h = Some x).
Proof.
  intros [Hr Hc]. unfold into_iter. rewrite elem_of_btree_iter, foldl_app, !foldl_insert_imap by done.
  unfold get_hash. destruct (imap_get h (recents l)); [done|].
  destruct (imap_get h (checkpoints l)); [done|]. by rewrite lookup_empty.
Qed.

Lemma into_iter_sorted l : StronglySorted Z.lt (into_iter l).*1.
Proof.
  unfold into_iter. set (m := foldl _ _ _). pose proof (btree_iter_sorted m) as Hs.
  pose proof (btree_iter_NoDup_keys m) as Hnd.
  revert Hs Hnd. generalize (btree_iter m). intros ls Hs Hnd.
  induction Hs as [|p ls Hs IH Hp]; cbn; [constructor|]. cbn in Hnd. apply NoDup_cons in Hnd as [Hn Hnd].
  constructor; [auto|]. rewrite Forall_forall in Hp. apply Forall_forall. intros k (q & -> & Hq)%list_elem_of_fmap.
  specialize (Hp q Hq). unfold key_le in Hp. assert (p.1 <> q.1); [|lia].
  intros Heq. apply Hn. rewrite Heq. by apply list_elem_of_fmap_2.
Qed.

Lemma common_ancestor_is f l :
  locators_nodup l -> is_common_ancestor f (get_hash l) (common_ancestor f (into_iter l) 0).
Proof.
  intros Hl. assert (forall h, common_in f (into_iter l) h <-> common f (get_hash l) h) as Hiff.
  { intros h. unfold common_in, common. split.
    - intros [(x & ? & ?%elem_of_into_iter) Hk]; [|done]. split; [eauto|]. intros k y z ???%elem_of_into_iter; eauto.
    - intros [(x & ? & ?%elem_of_into_iter) Hk]; [|done]. split; [eauto|]. intros k y z ???%elem_of_into_iter; eauto. }
  destruct (common_ancestor_list f (into_iter l) 0 (into_iter_sorted l)) as [[-> Hn]|[Hc Hmax]].
  - split; [right; split; [done|]|]; intros h; rewrite <-Hiff; [apply Hn|]. by intros ?%Hn.
  - split; [left; by apply Hiff|]. intros h ?%Hiff. auto.
Qed.

Lemma peer_ancestor_comm l1 l2 :
  locators_nodup l1 -> locators_nodup l2 -> peer_ancestor l1 l2 = peer_ancestor l2 l1.
Proof.
  intros H1 H2. eapply is_common_ancestor_unique; [by apply common_ancestor_is|].
  apply is_common_ancestor_comm. by apply common_ancestor_is.
Qed.

Lemma get_hash_map l h :
  locators_nodup l ->
  get_hash l h = match (list_to_map (recents l) : gmap Z BlockHash) !! h with
                 | Some x => Some x
                 | None => (list_to_map (checkpoints l) : gmap Z BlockHash) !! h
                 end.
Proof.
  assert (forall m : list (Z * BlockHash), NoDup m.*1 -> imap_get h m = (list_to_map m : gmap Z BlockHash) !! h) as Hm.
  { intros m Hnd. apply option_eq. intros x. by rewrite imap_get_NoDup, elem_of_list_to_map. }
  intros [Hr Hc]. unfold get_hash. by rewrite !Hm.
Qed.

Lemma same_locators_hash l1 l2 :
  locators_nodup l1 -> locators_nodup l2 -> same_locators l1 l2 = true -> forall h, get_hash l1 h = get_hash l2 h.
Proof.
  intros H1 H2 [Hr Hc]%bool_decide_eq_true h. rewrite !get_hash_map by done. by rewrite Hr, Hc.
Qed.

(** ** The invariant *)

(** A request at height [h]: the peers it waits for are connected and
    different, without such peers it has a response, and the response is a
    block of that height with the hashes that were requested. *)
Record entry_ok (peers : gmap SocketAddr BlockLocators) (h : Z) (e : OutstandingRequest) : Prop := {
  eo_nodup : NoDup (sync_ips e);
  eo_connected ip : ip ∈ sync_ips e -> is_Some (peers !! ip);
  eo_answered : sync_ips e = [] -> is_Some (response e);
  eo_response b : response e = Some b ->
    height b = h /\ mismatch (request_hashes e).1 (hash b) = None /\
    mismatch (request_hashes e).2 (previous_hash b) = None;
}.

(** A node the common ancestors are about: a connected peer or the node itself. *)
Definition known (peers : gmap SocketAddr BlockLocators) (a : SocketAddr) : Prop :=
  a = DUMMY_SELF_IP \/ is_Some (peers !! a).

(** The common ancestors are those of the peers' current locators. *)
Record peers_ok (peers : gmap SocketAddr BlockLocators) (ancestors : list (PeerPair * Z)) : Prop := {
  po_self : peers !! DUMMY_SELF_IP = None;
  po_nodup ip l : peers !! ip = Some l -> locators_nodup l;
  po_known a b : is_Some (ancestors_get (mk_peer_pair a b) ancestors) <-> known peers a /\ known peers b /\ a <> b;
  po_exact a b la lb : a <> b -> peers !! a = Some la -> peers !! b = Some lb ->
    ancestors_get (mk_peer_pair a b) ancestors = Some (peer_ancestor la lb);
}.

Record sync_inv (s : BlockSync) : Prop := {
  si_requests h e : requests s !! h = Some e -> entry_ok (locators s) h e;
  si_peers : peers_ok (locators s) (common_ancestors s);
  si_tracked : tracked (sync_state s);
  si_greatest : greatest_peer_height (sync_state s) = max_peer_height s;
  si_waiters : is_block_synced (sync_state s) = true -> synced_waiters s = [];
}.

Lemma ips_swap_remove (ip x : SocketAddr) l :
  NoDup l -> (x ∈ iset_swap_remove id ip l <-> x ∈ l /\ x <> ip).
Proof. intros. apply (elem_of_iset_swap_remove id). by rewrite list_fmap_id. Qed.

Lemma ips_swap_remove_NoDup (ip : SocketAddr) l : NoDup l -> NoDup (iset_swap_remove id ip l).
Proof.
  intros Hl. pose proof (iset_swap_remove_NoDup id ip l) as H. rewrite !list_fmap_id in H. auto.
Qed.

Lemma ips_swap_remove_absent (ip : SocketAddr) l : ip ∉ l -> iset_swap_remove id ip l = l.
Proof.
  intros Hip. unfold iset_swap_remove. destruct (iset_contains id ip l) eqn:E; [|done].
  apply iset_contains_spec in E as (x & Hx & <-). done.
Qed.

Lemma no_ips_true e : no_ips e = true <-> sync_ips e = [].
Proof. apply bool_decide_eq_true. Qed.

(** Removing a peer from an entry that is kept. *)
Lemma entry_ok_drop peers h e ip :
  entry_ok peers h e -> (retain_without ip e = true \/ is_Some (response e)) ->
  entry_ok (delete ip peers) h (drop_peer ip e).
Proof.
  intros [Hnd Hc Ha Hr] Hret. split; cbn.
  - by apply ips_swap_remove_NoDup.
  - intros x [Hx Hne]%ips_swap_remove; [|done]. rewrite lookup_delete_ne by done. auto.
  - intros Hnil. destruct Hret as [Hret|?]; [|done]. unfold retain_without, no_ips in Hret. cbn in Hret.
    destruct (decide (ip ∈ sync_ips e)) as [Hip|Hip].
    + rewrite (bool_decide_eq_true_2 _ Hip), (bool_decide_eq_true_2 _ Hnil) in Hret. cbn in Hret.
      by apply bool_decide_eq_true in Hret.
    + rewrite ips_swap_remove_absent in Hnil; auto.
  - done.
Qed.

Lemma entry_ok_mono peers peers' h e :
  (forall ip, is_Some (peers !! ip) -> is_Some (peers' !! ip)) -> entry_ok peers h e -> entry_ok peers' h e.
Proof. intros Hp [Hnd Hc Ha Hr]. split; auto. Qed.

Lemma delete_mono peers ip x : is_Some ((delete ip peers : gmap SocketAddr BlockLocators) !! x) -> is_Some (peers !! x).
Proof. rewrite lookup_delete. by case_decide. Qed.

(** The requests after the requests to a peer were removed. *)
Definition entries_ok (peers : gmap SocketAddr BlockLocators) (s : BlockSync) : Prop :=
  forall h e, requests s !! h = Some e -> entry_ok peers h e.
Lemma removed_requests_ok peers s ip : entries_ok peers s -> entries_ok (delete ip peers) (retain_requests ip s).2.
Proof.
  intros Hs h e He. cbn in He. rewrite lookup_omap in He.
  destruct (requests s !! h) as [e'|] eqn:He'; cbn in He; [|done].
  destruct (retain_without ip e') eqn:Hret; [|done]. injection He as <-.
  apply entry_ok_drop; auto.
Qed.

(** ** The steps *)

Lemma ancestors_foldl q (us : list (PeerPair * Z)) m :
  is_Some (ancestors_get q (foldl (fun m '(p, a) => ancestors_insert p a m) m us)) <->
  is_Some (ancestors_get q m) \/ exists p a, (p, a) ∈ us /\ p ≡ q.
Proof.
  revert m. induction us as [|[p a] us IH]; intros m; cbn.
  - split; [by left|]. intros [?|(? & ? & ? & _)]; [done|]. set_solver.
  - rewrite IH, ancestors_get_insert. destruct (decide (p ≡ q)) as [Hpq|Hpq].
    + split; [|by left; eauto]. intros _. right. exists p, a. split; [left|done].
    + split.
      * intros [?|(p' & a' & ? & ?)]; [by left|]. right. exists p', a'. split; [by right|done].
      * intros [?|(p' & a' & [?|?]%elem_of_cons & ?)]; [by left|simplify_eq|right; eauto]. done.
Qed.

Lemma pair_equiv_iff a b c d :
  mk_peer_pair a b ≡ mk_peer_pair c d <-> (a = c /\ b = d) \/ (a = d /\ b = c).
Proof. done. Qed.

Lemma max_peer_height_Some s ip : is_Some (locators s !! ip) -> is_Some (max_peer_height s).
Proof.
  intros [l Hl%elem_of_map_to_list]. unfold max_peer_height.
  destruct (map_to_list (locators s)); [set_solver|]. cbn. eauto.
Qed.

(** Setting the sync state and waking the waiting tasks keeps the part of the
    invariant about them. *)
Lemma sync_inv_state s st synced :
  (forall h e, requests s !! h = Some e -> entry_ok (locators s) h e) ->
  peers_ok (locators s) (common_ancestors s) ->
  tracked st -> greatest_peer_height st = max_peer_height s ->
  (is_block_synced st = true -> synced = true \/ synced_waiters s = []) ->
  sync_inv (notify_synced synced (set_sync_state st s)).
Proof.
  intros Hr Hp Ht Hg Hw.
  destruct synced; split; cbn; try done. intros Hb. by destruct (Hw Hb).
Qed.

Lemma sync_inv_notify x y s :
  sync_inv s -> sync_inv (set_peer_notify x s) /\ sync_inv (set_response_notify y s).
Proof. intros []. split; split; done. Qed.

(** Replacing the requests by others that are in order. *)
Lemma sync_inv_requests m s :
  sync_inv s -> (forall h e, m !! h = Some e -> entry_ok (locators s) h e) -> sync_inv (set_requests m s).
Proof. intros [] Hm. split; done. Qed.

Lemma sync_inv_failed m s : sync_inv s -> sync_inv (set_failed_requests m s).
Proof. intros []. split; done. Qed.

Lemma sync_inv_remove_requests ip s : sync_inv s -> sync_inv (remove_block_requests_to_peer ip s).
Proof.
  intros Hs. unfold remove_block_requests_to_peer. apply sync_inv_failed, sync_inv_requests; [done|].
  intros h e He. eapply entry_ok_mono; [apply delete_mono|].
  apply (removed_requests_ok (locators s) s ip); [exact (si_requests _ Hs)|done].
Qed.

Lemma sync_new_inv L now : sync_inv (new_block_sync L now).
Proof.
  split; cbn; try done; [|by right]. split; try done.
  intros a b. unfold known. split; [by intros [??]|]. intros ([->|[??]] & [->|[??]] & ?); done.
Qed.

Lemma set_sync_height_inv now h s : sync_inv s -> sync_inv (set_sync_height now h s).
Proof.
  intros []. apply sync_inv_state; try done.
  - by apply set_sync_height_tracked.
  - by rewrite set_sync_height_peer.
  - by left.
Qed.

Lemma known_delete m a ip : ip <> DUMMY_SELF_IP -> (known (delete ip m) a <-> known m a /\ a <> ip).
Proof.
  intros Hip. unfold known. destruct (decide (a = ip)) as [->|Hne].
  - rewrite lookup_delete_eq. split; [|tauto]. intros [?|[??]]; done.
  - rewrite lookup_delete_ne by done. tauto.
Qed.

Lemma peers_ok_delete m anc ip :
  ip <> DUMMY_SELF_IP -> peers_ok m anc ->
  peers_ok (delete ip m) (base.filter (fun e => pair_contains ip e.1 = false) anc).
Proof.
  intros Hip [Hs Hn Hk He]. split.
  - by rewrite lookup_delete_ne.
  - intros x l. rewrite lookup_delete. case_decide; [done|]. apply Hn.
  - intros a b. rewrite ancestors_get_retain, !known_delete by done.
    unfold pair_contains. cbn. case_bool_decide; [split; [by intros [??]|naive_solver]|].
    rewrite Hk. naive_solver.
  - intros a b la lb Hab. rewrite !lookup_delete. case_decide; [done|]. case_decide; [done|]. intros Ha Hb.
    rewrite ancestors_get_retain. unfold pair_contains. cbn. rewrite bool_decide_eq_false_2 by naive_solver.
    by apply He.
Qed.

Lemma remove_peer_inv now ip s : ip <> DUMMY_SELF_IP -> sync_inv s -> sync_inv (remove_peer now ip s).
Proof.
  intros Hip [Hr Hp Ht Hg Hw]. unfold remove_peer, refresh_peer_height.
  apply (sync_inv_notify true true), sync_inv_state.
  - intros h e He. cbn. by apply (removed_requests_ok (locators s) s ip).
  - cbn. by apply peers_ok_delete.
  - case_match; [by apply set_greatest_tracked|by apply clear_greatest_tracked].
  - case_match eqn:E; [rewrite set_greatest_peer|rewrite clear_greatest_peer]; by rewrite <-E.
  - by left.
Qed.

(** [update_peer_locators] as one expression. *)
Lemma update_peer_locators_eq L o now ip ls s :
  update_peer_locators L o now ip ls s =
  if match locators s !! ip with Some e => same_locators e ls | None => false end then s else
  let s := insert_ancestors ip (local_ancestor L ls) (ancestor_updates o ip ls (set_locators (<[ip := ls]> (locators s)) s))
             (set_locators (<[ip := ls]> (locators s)) s) in
  let '(is_synced, s) := raise_peer_height now s in
  notify_peers is_synced s.
Proof.
  unfold update_peer_locators, insert_locators.
  by destruct (match locators s !! ip with Some e => same_locators e ls | None => false end).
Qed.

(** The updates of the common ancestors that [update_peer_locators] makes. *)
Definition updates (ip : SocketAddr) (ls : BlockLocators) (others : list (SocketAddr * BlockLocators))
    : list (PeerPair * Z) :=
  omap (fun '(other_ip, other_locators) =>
          if decide (other_ip = ip) then None
          else Some (mk_peer_pair ip other_ip, peer_ancestor ls other_locators)) others.

Lemma elem_of_updates ip ls others p v :
  (p, v) ∈ updates ip ls others <->
  exists x l, x <> ip /\ (x, l) ∈ others /\ p = mk_peer_pair ip x /\ v = peer_ancestor ls l.
Proof.
  unfold updates. rewrite list_elem_of_omap. split.
  - intros ([x l] & Hx & Hp). case_decide; [done|]. simplify_eq. eauto 6.
  - intros (x & l & Hx & Hin & -> & ->). exists (x, l). by rewrite decide_False.
Qed.

(** The value of a pair after inserts that agree on it. *)
Lemma ancestors_foldl_value q v (us : list (PeerPair * Z)) m :
  (forall p a, (p, a) ∈ us -> p ≡ q -> a = v) ->
  (exists p a, (p, a) ∈ us /\ p ≡ q) \/ ancestors_get q m = Some v ->
  ancestors_get q (foldl (fun m '(p, a) => ancestors_insert p a m) m us) = Some v.
Proof.
  revert m. induction us as [|[p a] us IH]; intros m Hus Hex; cbn.
  - destruct Hex as [(? & ? & ? & _)|?]; [set_solver|done].
  - apply IH; [intros; eapply Hus; [by right|done]|]. rewrite ancestors_get_insert.
    case_decide as Hp; [right; f_equal; eapply Hus; [left|done]|].
    destruct Hex as [(p' & a' & [?|?]%elem_of_cons & ?)|?]; [by simplify_eq|left; eauto|by right].
Qed.

Lemma peers_ok_update m anc ip ls others a0 :
  ip <> DUMMY_SELF_IP -> locators_nodup ls -> others ≡ₚ map_to_list (<[ip := ls]> m) -> peers_ok m anc ->
  peers_ok (<[ip := ls]> m)
    (foldl (fun m '(p, a) => ancestors_insert p a m)
       (ancestors_insert (mk_peer_pair DUMMY_SELF_IP ip) a0 anc) (updates ip ls others)).
Proof.
  intros Hip Hls Ho [Hs Hn Hk He].
  assert (forall x, known (<[ip := ls]> m) x <-> x = ip \/ known m x) as Hkn.
  { intros x. unfold known. rewrite lookup_insert. case_decide; naive_solver. }
  assert (forall x l, x <> ip -> ((x, l) ∈ others <-> m !! x = Some l)) as Hoth.
  { intros x l Hx. rewrite Ho, elem_of_map_to_list, lookup_insert_ne by done. done. }
  split.
  - by rewrite lookup_insert_ne.
  - intros x l. rewrite lookup_insert. case_decide; [by intros [= <-]|]. apply Hn.
  - intros a b. rewrite ancestors_foldl, ancestors_get_insert, !Hkn. split.
    + intros [Hg|(p & v & (x & l & Hx & Hin & -> & _)%elem_of_updates & Heq)].
      * case_decide as Hd; [rewrite pair_equiv_iff in Hd; unfold known; naive_solver|]. apply Hk in Hg. tauto.
      * apply Hoth in Hin; [|done]. rewrite pair_equiv_iff in Heq. unfold known. naive_solver.
    + intros (Ha & Hb & Hab). case_decide as Hd; [by left; eauto|]. rewrite pair_equiv_iff in Hd.
      destruct (decide (a = ip \/ b = ip)) as [Hab'|Hab']; [right|left; apply Hk; naive_solver].
      assert (exists x l, x <> ip /\ m !! x = Some l /\ mk_peer_pair ip x ≡ mk_peer_pair a b) as (x & l & Hx & Hl & Heq).
      { setoid_rewrite pair_equiv_iff. unfold known in Ha, Hb.
        destruct Hab' as [->| ->]; [destruct Hb as [->|[->|[l Hl]]]|destruct Ha as [->|[->|[l Hl]]]]; naive_solver. }
      exists (mk_peer_pair ip x), (peer_ancestor ls l). split; [|done]. apply elem_of_updates.
      exists x, l. split_and!; [done|by apply Hoth|done..].
  - intros a b la lb Hab Ha Hb. rewrite lookup_insert in Ha, Hb. apply ancestors_foldl_value.
    + intros p v (x & l & Hx & Hin & -> & ->)%elem_of_updates Heq. apply Hoth in Hin; [|done].
      apply pair_equiv_iff in Heq as [[<- <-]|[<- <-]].
      * rewrite decide_True in Ha by done. rewrite decide_False in Hb by done. congruence.
      * rewrite decide_False in Ha by done. rewrite decide_True in Hb by done. simplify_eq.
        apply peer_ancestor_comm; [done|]. by eapply Hn.
    + destruct (decide (ip = a)) as [<-|Hna]; [|destruct (decide (ip = b)) as [<-|Hnb]].
      * rewrite decide_False in Hb by done. injection Ha as ->. left.
        exists (mk_peer_pair ip b), (peer_ancestor la lb). split; [|done]. apply elem_of_updates.
        exists b, lb. split_and!; [done|by apply Hoth|done..].
      * injection Hb as ->. left. exists (mk_peer_pair ip a), (peer_ancestor lb la). split; [|apply pair_comm].
        apply elem_of_updates. exists a, la. split_and!; [done|by apply Hoth|done..].
      * right. rewrite ancestors_get_insert, decide_False; [by apply He|].
        rewrite pair_equiv_iff. intros [[_ ?]|[_ ?]]; congruence.
Qed.

Lemma locators_update L o now ip ls s x l :
  locators (update_peer_locators L o now ip ls s) !! x = Some l -> l = ls \/ locators s !! x = Some l.
Proof.
  rewrite update_peer_locators_eq. case_match; [by right|]. unfold raise_peer_height, notify_peers. cbv zeta.
  match goal with |- context [max_peer_height ?y] => set (s1 := y) end.
  assert (locators s1 !! x = Some l -> l = ls \/ locators s !! x = Some l) as H1.
  { cbn. rewrite lookup_insert. case_decide; [intros [= <-]; by left|by right]. }
  destruct (max_peer_height s1); [destruct (is_block_synced _)|]; exact H1.
Qed.

Lemma update_peer_locators_inv L o now ip ls s :
  oracle_wf o -> ip <> DUMMY_SELF_IP -> locators_nodup ls -> sync_inv s ->
  sync_inv (update_peer_locators L o now ip ls s).
Proof.
  intros Ho Hip Hls Hinv. rewrite update_peer_locators_eq. case_match; [done|]. unfold raise_peer_height, notify_peers. cbv zeta.
  match goal with |- context [max_peer_height ?y] => set (s1 := y) end.
  destruct (max_peer_height_Some s1 ip) as [g Hg]; [cbn; rewrite lookup_insert_eq; eauto|].
  rewrite Hg. apply (sync_inv_notify true true), sync_inv_state.
  - intros h e He. cbn. eapply entry_ok_mono; [|by apply (si_requests _ Hinv)].
    intros x Hx. rewrite lookup_insert. case_decide; eauto.
  - apply peers_ok_update; [done|done|apply (ow_iter_map _ Ho)|apply (si_peers _ Hinv)].
  - apply set_greatest_tracked, (si_tracked _ Hinv).
  - by rewrite set_greatest_peer.
  - by left.
Qed.

(** The result of a response: an error leaves the state as it is, except for
    a block that differs from an earlier one, which takes the peer out of the
    request; a block that is accepted becomes or confirms the response. *)
Lemma insert_block_response_cases L ip b s :
  let r := insert_block_response L ip b s in
  (exists e, r = (inl e, s)) \/
  exists e, requests s !! height b = Some e /\ contains_block_height L (height b) = false /\
    mismatch (request_hashes e).1 (hash b) = None /\ mismatch (request_hashes e).2 (previous_hash b) = None /\
    ip ∈ sync_ips e /\
    ((exists b', response e = Some b' /\ b' <> b /\
        r = (inl (MalformedBlock (height b) ip),
             set_requests (<[height b := drop_peer ip e]> (requests s)) s)) \/
     (forall b', response e = Some b' -> b' = b) /\
        r = (inr tt, set_response_notify true (set_requests
               (<[height b := mk_request (request_hashes e) (iset_swap_remove id ip (sync_ips e))
                                (timestamp e) (Some b)]> (requests s)) s))).
Proof.
  cbn. unfold insert_block_response.
  destruct (contains_block_height L (height b)) eqn:Hc; [by left; eexists|].
  destruct (requests s !! height b) as [e|] eqn:He; [|by left; eexists].
  destruct (request_hashes e) as [eh ep] eqn:Hh.
  destruct (mismatch eh (hash b)) as [[??]|] eqn:H1; [by left; eexists|].
  destruct (mismatch ep (previous_hash b)) as [[??]|] eqn:H2; [by left; eexists|].
  case_decide as Hip; [by left; eexists|].
  right. exists e. rewrite Hh. split_and!; try done. cbn. rewrite Hh.
  destruct (response e) as [b'|] eqn:Hr.
  - case_decide as Hb.
    + left. exists b'. split_and!; [done|congruence|done].
    + subst b'. right. split; [congruence|]. unfold drop_peer. by rewrite Hh, Hr.
  - right. split; [done|]. done.
Qed.

Lemma insert_response_ok peers L ip b s : entries_ok peers s -> entries_ok peers (insert_block_response L ip b s).2.
Proof.
  intros Hs. destruct (insert_block_response_cases L ip b s)
    as [[e ->]|(e & He & _ & H1 & H2 & Hip & [(b' & Hb & _ & ->)|[_ ->]])]; cbn; [done| |]; intros h e'; cbn; rewrite lookup_insert;
    (case_decide as Hh; [|apply Hs]); intros [= <-]; subst h.
  - eapply entry_ok_mono; [apply (delete_mono peers ip)|]. apply entry_ok_drop; [by apply Hs|eauto].
  - destruct (Hs _ _ He) as [Hnd Hc _ _]. split; cbn; eauto.
    + by apply ips_swap_remove_NoDup.
    + intros x [? _]%ips_swap_remove; auto.
    + by intros ? [= ->].
Qed.
(** A response changes only the requests and a permit. *)
Lemma insert_response_rest L ip b s :
  exists m y, (insert_block_response L ip b s).2 = set_response_notify y (set_requests m s).
Proof.
  destruct (insert_block_response_cases L ip b s)
    as [[e ->]|(e & He & _ & H1 & H2 & Hip & [(b' & Hb & _ & ->)|[_ ->]])]; cbn.
  - exists (requests s), (response_notify s). by destruct s.
  - exists (<[height b := drop_peer ip e]> (requests s)), (response_notify s). by destruct s.
  - by eexists _, true.
Qed.

Lemma insert_block_response_inv L ip b s :
  sync_inv s -> sync_inv (insert_block_response L ip b s).2.
Proof.
  intros Hs. pose proof (insert_response_ok (locators s) L ip b s (si_requests _ Hs)) as Hok.
  destruct (insert_response_rest L ip b s) as (m & y & E). rewrite E in *.
  apply (sync_inv_notify true y), sync_inv_requests; [done|]. exact Hok.
Qed.

Lemma insert_blocks_inv L ip bs s : sync_inv s -> sync_inv (insert_blocks L ip bs s).2.
Proof.
  revert s. induction bs as [|b bs IH]; intros s Hs; cbn; [done|].
  pose proof (insert_block_response_inv L ip b s Hs) as H.
  destruct (insert_block_response L ip b s) as [[e|[]] s']; cbn in *; auto.
Qed.

Lemma insert_block_responses_inv L ip bs v s : sync_inv s -> sync_inv (insert_block_responses L ip bs v s).2.
Proof.
  intros Hs. unfold insert_block_responses. destruct (last bs); [|by apply sync_inv_remove_requests].
  destruct (CONSENSUS_VERSION _); [done|].
  destruct (check_consensus_version _ _ _); [by apply sync_inv_remove_requests|].
  pose proof (insert_blocks_inv L ip bs s Hs) as Hi.
  destruct (insert_blocks L ip bs s) as [[e|[]] s']; cbn in *; [by apply sync_inv_remove_requests|done].
Qed.

(** Inserting requests for peers that are connected. *)
Lemma insert_requests_inv L now ips reqs s :
  NoDup ips -> (forall ip, ip ∈ ips -> is_Some (locators s !! ip)) ->
  sync_inv s -> sync_inv (insert_requests L now ips reqs s).2.
Proof.
  intros Hnd Hc Hs.
  assert (keeps (fun s s' => locators s' = locators s /\
            ((forall ip, ip ∈ ips -> is_Some (locators s !! ip)) -> sync_inv s -> sync_inv s'))
            (insert_requests L now ips reqs)) as Hk; [|by apply Hk].
  assert (PreOrder (fun s s' : BlockSync => locators s' = locators s /\
            ((forall ip, ip ∈ ips -> is_Some (locators s !! ip)) -> sync_inv s -> sync_inv s'))).
  { split; [done|]. intros s1 s2 s3 [H1 H2] [H3 H4]. split; [congruence|]. intros. apply H4; [by rewrite H1|auto]. }
  apply keeps_fold; [done|]. intros _ [h [hs n]] _ s1. unfold insert_block_request.
  cbn. destruct (check_block_request L s1 h) as [[]|?|?|]; cbn; try (split; [done|auto]; fail).
  unfold sbind, slift, ensure. case_bool_decide as Hips; cbn; [split; [done|auto]|].
  split; [done|]. intros Hc1 Hs1. apply sync_inv_requests; [done|]. intros h' e. rewrite lookup_insert.
  case_decide; [|apply (si_requests _ Hs1)]. intros [= <-]. split; cbn; done.
Qed.

Lemma begin_send_inv L o now peers reqs s :
  oracle_wf o -> NoDup peers.*1 -> sync_inv s -> sync_inv (begin_send L o now peers reqs s).2.
Proof.
  intros Ho Hnd Hs. unfold begin_send. destruct (head reqs) as [[h [hs n]]|]; [|done].
  destruct (forallb _ _) eqn:Hall; [|done].
  pose proof (insert_requests_inv L now (sample o n peers.*1) reqs s) as H.
  destruct (insert_requests _ _ _ _ _) as [[]?]; cbn in *; apply H; try done;
    destruct (ow_sample _ Ho n peers.*1) as (? & Hnd' & ?); auto;
    intros ip Hip; rewrite forallb_forall in Hall; specialize (Hall ip ltac:(by apply list_elem_of_In));
    by apply bool_decide_eq_true in Hall.
Qed.

Lemma sync_inv_filter (P : Z * OutstandingRequest -> Prop) `{!forall p, Decision (P p)} s :
  sync_inv s -> sync_inv (set_requests (base.filter P (requests s)) s).
Proof.
  intros Hs. apply sync_inv_requests; [done|]. intros h e [He _]%map_lookup_filter_Some.
  by apply (si_requests _ Hs).
Qed.

Lemma end_send_inv sent ips a b s : sync_inv s -> sync_inv (end_send sent ips a b s).2.
Proof. intros Hs. unfold end_send. destruct (forallb sent ips); [done|]. by apply sync_inv_filter. Qed.

Lemma remove_block_response_inv h s : sync_inv s -> sync_inv (remove_block_response h s).
Proof.
  intros Hs. unfold remove_block_response. case_match; [|done].
  apply (sync_inv_notify true true), sync_inv_requests; [done|].
  intros h' e. rewrite lookup_delete. case_decide; [done|]. apply (si_requests _ Hs).
Qed.

Lemma remove_peers_inv now ips s :
  DUMMY_SELF_IP ∉ ips -> sync_inv s -> sync_inv (foldl (fun s ip => remove_peer now ip s) s ips).
Proof.
  revert s. induction ips as [|ip ips IH]; intros s Hip Hs; cbn; [done|].
  apply not_elem_of_cons in Hip as [? ?]. apply IH; [done|]. by apply remove_peer_inv.
Qed.

Lemma timeouts_inv L o now s :
  oracle_wf o -> sync_inv s -> sync_inv (handle_block_request_timeouts L o now s).
Proof.
  intros Ho Hs. unfold handle_block_request_timeouts. apply remove_peers_inv.
  - rewrite (ow_iter_set _ Ho), elem_of_elements, elem_of_list_to_set. intros ([h e] & Hip & Hbind)%list_elem_of_bind.
    apply elem_of_map_to_list, map_lookup_filter_Some in Hbind as [He _].
    apply (eo_connected _ _ _ (si_requests _ Hs _ _ He)) in Hip. rewrite (po_self _ _ (si_peers _ Hs)) in Hip. by destruct Hip.
  - apply sync_inv_failed. by apply sync_inv_filter.
Qed.

Lemma reissue_inv L o s bs acc : sync_inv s -> sync_inv (reissue L o s bs acc).2.
Proof.
  revert s acc. induction bs as [|b bs IH]; intros s acc Hs; cbn; [done|].
  repeat case_match; try done. apply IH. by apply sync_inv_failed.
Qed.

Lemma prepare_inv L o s : sync_inv s -> sync_inv (prepare_block_requests L o s).2.
Proof.
  intros Hs. unfold prepare_block_requests.
  repeat case_match; cbn; try by apply sync_inv_failed.
  by apply reissue_inv, sync_inv_failed.
Qed.

Lemma wait_inv t s : sync_inv s -> sync_inv (wait_for_synced t s).2.
Proof.
  intros [Hr Hp Ht Hg Hw]. unfold wait_for_synced. destruct (is_block_synced _) eqn:E; split; cbn; try done; by rewrite E.
Qed.

(** A call of any task of the node on the shared [BlockSync], with any ledger
    and any outcome of the unspecified choices, and no other call in between. *)
Inductive sync_step : BlockSync -> BlockSync -> Prop :=
  | step_update L o now ip ls s : oracle_wf o -> ip <> DUMMY_SELF_IP -> locators_nodup ls ->
      sync_step s (update_peer_locators L o now ip ls s)
  | step_remove now ip s : ip <> DUMMY_SELF_IP -> sync_step s (remove_peer now ip s)
  | step_timeouts L o now s : oracle_wf o -> sync_step s (handle_block_request_timeouts L o now s)
  | step_prepare L o s : oracle_wf o -> sync_step s (prepare_block_requests L o s).2
  | step_begin_send L o now peers reqs s : oracle_wf o -> NoDup peers.*1 ->
      sync_step s (begin_send L o now peers reqs s).2
  | step_end_send sent ips a b s : sync_step s (end_send sent ips a b s).2
  | step_responses L ip bs v s : sync_step s (insert_block_responses L ip bs v s).2
  | step_processed h s : sync_step s (remove_block_response h s)
  | step_height now h s : sync_step s (set_sync_height now h s)
  | step_wait t s : sync_step s (wait_for_synced t s).2
  | step_permits x y s : sync_step s (set_peer_notify x (set_response_notify y s))
  | step_mode m s : sync_step s (set_sync_state (set_bft_sync_mode m (sync_state s)).2 s).

Definition sync_reachable (s : BlockSync) : Prop :=
  exists L now, rtc sync_step (new_block_sync L now) s.

Lemma sync_step_inv s s' : sync_step s s' -> sync_inv s -> sync_inv s'.
Proof.
  destruct 1; intros Hs; auto using update_peer_locators_inv, remove_peer_inv, timeouts_inv, prepare_inv,
    begin_send_inv, end_send_inv, insert_block_responses_inv, remove_block_response_inv,
    set_sync_height_inv, wait_inv.
  - by apply sync_inv_notify, sync_inv_notify.
  - destruct Hs. by split.
Qed.

Lemma reachable_sync_inv s : sync_reachable s -> sync_inv s.
Proof.
  intros (L & now & H). pose proof (sync_new_inv L now) as Hn. induction H; [done|].
  apply IHrtc, (sync_step_inv _ _ H Hn).
Qed.

(** ** Composed operations *)

Lemma add_consistent_spec s lh peer others m0 acc m ps :
  add_consistent s lh peer others m0 acc = (m, ps) ->
  m <= m0 /\ (lh < m0 -> lh < m) /\
  exists added, ps = acc ++ added /\ added `sublist_of` others /\
    forall p, p ∈ added -> exists a,
      ancestors_get (mk_peer_pair peer.1 p.1) (common_ancestors s) = Some a /\
      lh < a /\ m <= a /\ is_consistent_with peer.2 p.2 = true.
Proof.
  revert m0 acc. induction others as [|o others IH]; intros m0 acc; cbn.
  - intros [= <- <-]. split_and!; [lia|done|]. exists []. rewrite app_nil_r. split_and!; [done|done|set_solver].
  - destruct (ancestors_get _ _) as [a|] eqn:Ha; [destruct (bool_decide (lh < a) && _) eqn:Hc|].
    + apply andb_true_iff in Hc as [Hlt%bool_decide_eq_true Hcons].
      intros (Hm & Hlh & added & -> & Hsub & Hall)%IH. split_and!; [lia|intros; lia|].
      exists (o :: added). rewrite <-app_assoc. split_and!; [done|by constructor|].
      intros p [->|Hp]%elem_of_cons; [|auto]. exists a. split_and!; [done|done|lia|done].
    + intros (Hm & Hlh & added & -> & Hsub & Hall)%IH. split_and!; [done..|].
      exists added. split_and!; [done|by constructor|done].
    + intros (Hm & Hlh & added & -> & Hsub & Hall)%IH. split_and!; [done..|].
      exists added. split_and!; [done|by constructor|done].
Qed.

(** The peers a leader is synced with: all of them were candidates, and each
    is the leader or consistent with it, with a common ancestor from [m] on. *)
Record sync_group (s : BlockSync) (lh m : Z) (leader : SocketAddr * BlockLocators)
    (ps : list (SocketAddr * BlockLocators)) : Prop := {
  sg_leader : leader ∈ ps;
  sg_ledger : lh < m;
  sg_min : m <= latest_locator_height leader.2;
  sg_members p : p ∈ ps -> p = leader \/ exists a,
    ancestors_get (mk_peer_pair leader.1 p.1) (common_ancestors s) = Some a /\
    lh < a /\ m <= a /\ is_consistent_with leader.2 p.2 = true;
}.

Lemma try_candidates_spec s o lh t cs ps m :
  oracle_wf o -> NoDup cs.*1 -> try_candidates s o lh t cs = Some (ps, m) ->
  exists leader, sync_group s lh m leader ps /\ ps ⊆ cs /\ t <= len ps /\ NoDup ps.*1.
Proof.
  intros Ho. revert ps m. induction cs as [|p cs IH]; intros ps m Hnd; [done|]. cbn [try_candidates].
  destruct (add_consistent s lh p cs (latest_locator_height p.2) [p]) as [m' ps'] eqn:Ha.
  apply add_consistent_spec in Ha as (Hm & Hlh & added & -> & Hsub & Hall).
  case_decide as Hd.
  - intros [= <- <-]. exists p.
    assert (NoDup (shuffle o ([p] ++ added)).*1) as Hnd'.
    { rewrite (ow_shuffle _ Ho). eapply sublist_NoDup; [done|]. cbn. constructor. by apply fmap_sublist. }
    rewrite imap_of_list_id by done. split_and!; [| | |done].
    + split; [rewrite (ow_shuffle _ Ho); left|tauto|lia|].
      intros q. rewrite (ow_shuffle _ Ho). intros [->|Hq]%elem_of_cons; [by left|]. right. auto.
    + intros q. rewrite (ow_shuffle _ Ho). intros [->|Hq]%elem_of_cons; [left|].
      right. by eapply elem_of_sublist.
    + unfold len in *. rewrite (Permutation_length (ow_shuffle _ Ho _)). tauto.
  - intros H. cbn in Hnd. apply NoDup_cons in Hnd as [_ Hnd].
    destruct (IH _ _ Hnd H) as (l & ? & ? & ? & ?). exists l. split_and!; try done. set_solver.
Qed.

Lemma merge_sort_elem (l : list (SocketAddr * BlockLocators)) p : p ∈ merge_sort higher l <-> p ∈ l.
Proof. by rewrite merge_sort_Permutation. Qed.

Lemma candidates_NoDup s o cur : oracle_wf o -> NoDup (candidate_locators s o cur).*1.
Proof.
  intros Ho. unfold candidate_locators. rewrite fmap_take.
  eapply sublist_NoDup; [|apply sublist_take]. rewrite merge_sort_Permutation.
  eapply sublist_NoDup; [|apply fmap_sublist, sublist_filter]. rewrite (ow_iter_map _ Ho).
  apply NoDup_fst_map_to_list.
Qed.

Lemma candidates_elem s o cur ip l :
  oracle_wf o -> (ip, l) ∈ candidate_locators s o cur ->
  locators s !! ip = Some l /\ cur < latest_locator_height l.
Proof.
  intros Ho (i & H%list_elem_of_lookup_2 & _)%elem_of_take. revert H. rewrite merge_sort_elem, list_elem_of_filter, (ow_iter_map _ Ho),
    elem_of_map_to_list. tauto.
Qed.

Lemma find_sync_peers_group L o s cur ps m :
  oracle_wf o -> find_sync_peers_inner L o s cur = Some (ps, m) ->
  NoDup ps.*1 /\
  (exists leader, sync_group s (latest_block_height L) m leader ps) /\
  (forall ip l, (ip, l) ∈ ps -> locators s !! ip = Some l /\ cur < latest_locator_height l).
Proof.
  intros Ho. unfold find_sync_peers_inner. case_decide as Hc; [done|].
  intros (leader & Hg & Hsub & _ & Hnd)%try_candidates_spec; [|done|by apply candidates_NoDup].
  split_and!; [done|eauto|]. intros ip l Hin. apply (candidates_elem s o cur); [done|]. by apply Hsub.
Qed.

(** The batches of [prepare_block_requests] have distinct peers. *)
Lemma reissue_NoDup L o s bs acc :
  oracle_wf o -> Forall (fun b => NoDup b.2.*1) acc -> Forall (fun b => NoDup b.2.*1) (reissue L o s bs acc).1.
Proof.
  intros Ho. revert s acc. induction bs as [|b bs IH]; intros s acc Hacc; cbn; [done|].
  repeat case_match; simplify_eq; try done. apply IH, Forall_app. split; [done|]. constructor; [|done]. cbn.
  by eapply find_sync_peers_group.
Qed.

Lemma prepare_NoDup L o s :
  oracle_wf o -> Forall (fun b => NoDup b.2.*1) (prepare_block_requests L o s).1.
Proof.
  intros Ho. unfold prepare_block_requests. repeat case_match; simplify_eq; cbn; try constructor; try done.
  - by apply reissue_NoDup.
  - by eapply find_sync_peers_group.
Qed.

Lemma send_steps L o sent now peers reqs s :
  oracle_wf o -> NoDup peers.*1 -> rtc sync_step s (send_block_requests L o sent now peers reqs s).2.
Proof.
  intros Ho Hnd. unfold send_block_requests.
  pose proof (step_begin_send L o now peers reqs s Ho Hnd) as H.
  destruct (begin_send _ _ _ _ _ _) as [[[[ips a] b]|] s1]; cbn in H.
  - eapply rtc_l; [exact H|]. apply rtc_once. apply step_end_send.
  - by apply rtc_once.
Qed.

Lemma send_chunks_steps L o sent now peers cs s :
  oracle_wf o -> NoDup peers.*1 -> rtc sync_step s (send_chunks L o sent now peers cs s).
Proof.
  intros Ho Hnd. revert s. induction cs as [|reqs cs IH]; intros s; cbn; [done|].
  pose proof (send_steps L o sent now peers reqs s Ho Hnd) as H.
  destruct (send_block_requests _ _ _ _ _ _ _) as [[] s1]; cbn in H; [|done]. etrans; [done|]. apply IH.
Qed.

(** [try_issuing_block_requests] is a sequence of steps. *)
Lemma try_issuing_steps L o sent now s :
  oracle_wf o -> rtc sync_step s (try_issuing_block_requests L o sent now s).
Proof.
  intros Ho. unfold try_issuing_block_requests. eapply rtc_l; [by apply (step_timeouts L o now)|].
  set (s1 := handle_block_request_timeouts L o now s). case_match; [done|]. case_match; [done|].
  pose proof (prepare_NoDup L o s1 Ho) as Hnd. pose proof (step_prepare L o s1 Ho) as Hp.
  destruct (prepare_block_requests L o s1) as [bs s2]. cbn in *. eapply rtc_l; [exact Hp|]. clear Hp.
  revert s2. induction Hnd as [|[reqs peers] bs Hb Hnd IH]; intros s2; cbn; [done|].
  etrans; [by apply send_chunks_steps|]. apply IH.
Qed.

Lemma advance_loop_steps {St} (ops : LedgerOps St) fuel cur st s r st' s' :
  advance_loop ops fuel cur st s = (r, st', s') -> rtc sync_step s s'.
Proof.
  revert cur st s. induction fuel as [|fuel IH]; intros cur st s; cbn [advance_loop]; [by intros [= _ _ <-]|].
  destruct (peek_next_block _ _) as [b|]; [|by intros [= _ _ <-]].
  case_decide; [by intros [= _ _ <-]|].
  destruct (try_advance ops st b) as [[[? []]|?|?|] st1]; try by intros [= _ _ <-].
  - intros [= _ _ <-]. apply rtc_once. apply step_processed.
  - intros H1. eapply rtc_l; [apply step_processed|]. by eapply IH.
Qed.

(** So is [try_advancing_block_synchronization]. *)
Lemma try_advancing_steps {St} (ops : LedgerOps St) now st s :
  rtc sync_step s (try_advancing_block_synchronization ops now st s).2.
Proof.
  unfold try_advancing_block_synchronization.
  destruct (advance_loop _ _ _ _ _) as [[r st'] s'] eqn:E. apply advance_loop_steps in E.
  destruct r; try done. case_decide; [|done]. eapply rtc_r; [exact E|]. apply step_height.
Qed.

(** Fork detection.  When new locators of a peer arrive, the common ancestor
    of the node with the peer becomes the greatest height that the ledger and
    the locators know with the same hash, such that no height up to it has
    different hashes; without such a height it is 0. *)
Theorem fork_detection L o now ip ls s :
  oracle_wf o -> ip <> DUMMY_SELF_IP -> locators_nodup ls -> sync_reachable s ->
  match locators s !! ip with Some e => same_locators e ls = false | None => True end ->
  exists v, ancestors_get (mk_peer_pair DUMMY_SELF_IP ip)
              (common_ancestors (update_peer_locators L o now ip ls s)) = Some v /\
    is_common_ancestor (fun h => ok (get_block_hash L h)) (get_hash ls) v.
Proof.
  intros Ho Hip Hls Hs%reachable_sync_inv Hnew. exists (local_ancestor L ls). split; [|by apply common_ancestor_is].
  rewrite update_peer_locators_eq.
  replace (match locators s !! ip with Some e => same_locators e ls | None => false end) with false
    by (destruct (locators s !! ip); congruence).
  unfold raise_peer_height, notify_peers. cbv zeta.
  match goal with |- context [max_peer_height ?x] => set (s1 := x) end.
  trans (ancestors_get (mk_peer_pair DUMMY_SELF_IP ip) (common_ancestors s1)).
  { destruct (max_peer_height s1); [destruct (is_block_synced _)|]; done. }
  subst s1. cbn. apply ancestors_foldl_value.
  - intros p v (x & l & Hx & Hin & -> & ->)%elem_of_updates [[??]|[_ ->]]%pair_equiv_iff; [done|].
    rewrite (ow_iter_map _ Ho), elem_of_map_to_list in Hin. cbn in Hin. rewrite lookup_insert_ne in Hin by done.
    by rewrite (po_self _ _ (si_peers _ Hs)) in Hin.
  - right. rewrite ancestors_get_insert. by rewrite decide_True.
Qed.

End BlockSyncProps.
End BlockSyncProps.

(** ** A node at height 3 and its peers *)

Definition peer1 : SocketAddr := SocketAddrV4 1 1.
Definition peer2 : SocketAddr := SocketAddrV4 2 2.
Definition peer_locators (h : Z) : BlockLocators (N := TestNetwork) :=
  Locators.chain_locators (N := TestNetwork) sample_hash h.
Definition sync0 : BlockSync.BlockSync (B := TestBlocks) := BlockSync.new_block_sync (test_view 3) 0.
Definition sync1 : BlockSync.BlockSync (B := TestBlocks) :=
  BlockSync.update_peer_locators (test_view 3) test_oracle 0 peer1 (peer_locators 6) sync0.
Definition sync2 : BlockSync.BlockSync (B := TestBlocks) :=
  BlockSync.update_peer_locators (test_view 3) test_oracle 0 peer2 (peer_locators 5) sync1.
(** The node asks for blocks, and one of the peers answers. *)
Definition sync3 : BlockSync.BlockSync (B := TestBlocks) :=
  BlockSync.try_issuing_block_requests (test_view 3) test_oracle (fun _ => true) 1 sync2.
Definition test_block (h : Z) : Z * ascii * ascii := (h, sample_hash h, sample_hash (h - 1)).
Definition sync4 : BlockSync.BlockSync (B := TestBlocks) :=
  (BlockSync.insert_block_responses (test_view 3) peer1 [test_block 4; test_block 5] (Some 12) sync3).2.

Lemma sample_distinct_upto h : 0 <= h <= 150 -> Locators.distinct_hashes (N := TestNetwork) sample_hash h.
Proof. intros Hh a b Ha Hb. apply sample_distinct; lia. Qed.

Lemma peer_locators_at h : 0 <= h <= 150 -> Locators.locators_at h (peer_locators h).
Proof. intros Hh. apply Locators.chain_locators_at; [lia|]. by apply sample_distinct_upto. Qed.

Lemma peer_locators_nodup h : 0 <= h <= 150 -> BlockSyncProps.locators_nodup (peer_locators h).
Proof.
  intros [_ Hr Hc _ _ _]%peer_locators_at. split; [rewrite Hr|rewrite Hc];
    [apply Locators.NoDup_recent_heights|apply Locators.NoDup_checkpoint_heights].
Qed.

Lemma sync2_steps : rtc BlockSyncProps.sync_step sync0 sync2.
Proof.
  eapply rtc_l; [|apply rtc_once].
  - apply (BlockSyncProps.step_update (test_view 3) test_oracle 0 peer1 (peer_locators 6));
      [apply test_oracle_wf|done|apply peer_locators_nodup; lia].
  - apply (BlockSyncProps.step_update (test_view 3) test_oracle 0 peer2 (peer_locators 5));
      [apply test_oracle_wf|done|apply peer_locators_nodup; lia].
Qed.

Lemma sync2_reachable : BlockSyncProps.sync_reachable sync2.
Proof. exists (test_view 3), 0. apply sync2_steps. Qed.

Lemma sync4_steps : rtc BlockSyncProps.sync_step sync0 sync4.
Proof.
  etrans; [apply sync2_steps|].
  eapply rtc_r; [apply (BlockSyncProps.try_issuing_steps (test_view 3) test_oracle (fun _ => true) 1)|].
  - apply test_oracle_wf.
  - apply BlockSyncProps.step_responses.
Qed.

Lemma fork_detection_witness :
  exists v, ancestors_get (mk_peer_pair DUMMY_SELF_IP peer1)
      (BlockSync.common_ancestors
         (BlockSync.update_peer_locators (test_view 3) test_oracle 2 peer1 (peer_locators 9) sync2)) = Some v /\
    BlockSyncProps.is_common_ancestor (fun h => ok (get_block_hash (test_view 3) h))
      (Locators.get_hash (peer_locators 9)) v.
Proof.
  apply (BlockSyncProps.fork_detection (test_view 3) test_oracle 2 peer1 (peer_locators 9) sync2);
    [apply test_oracle_wf|discriminate|apply peer_locators_nodup; lia|apply sync2_reachable|vm_compute; reflexivity].
Defined.
