(* ===== verification/SyncTasks.v ===== *)
(** * Interleaved block synchronization

    The functions of [BlockSync<N>] (node/sync/src/block_sync.rs) take several
    locks one after the other, and their callers run concurrently: the locators of
    every peer are updated by a task of its own (node/bft/src/sync/mod.rs), while
    others remove peers, insert responses and issue requests.  Here the functions
    run in parts, one for each lock they take, and the parts of different calls are
    interleaved; only the calls that hold [prepare_requests_lock] exclude each
    other.

    [sync_tasks_inv] states what every interleaving keeps, and what holds in
    addition when calls do not overlap; [overlap_leaves_stale_data] shows that the
    latter can be lost for good when they do. *)

From S2P Require Import Prelude Network Sockets Locators SyncState BlockSync BlockSyncProps.
Import Locators SyncState BlockSync.

Module SyncTasks.
Import BlockSyncProps.
Section SyncTasks.
Context `{N : Network} {B : BlockData}.
Abbreviation hashes := (option BlockHash * option BlockHash)%type.
Abbreviation prepared := (Z * (hashes * Z))%type.

(** ** The calls in progress *)

(** The call that holds [prepare_requests_lock]: how far [remove_peer] is, or
    the requests that [send_block_requests] has still to insert. *)
Inductive Holder :=
| RemovedLocators (ip : SocketAddr)
| RemovedAncestors (ip : SocketAddr)
| RemovedRequests (removed : gmap Z hashes)
| MarkedFailed
| ReadHeight (max_height : option Z)
| WillNotify (synced : bool)
| Sending (ips : list SocketAddr) (reqs : list prepared).

(** The other calls: how far [update_peer_locators] is; the notification that
    ends it or [set_sync_height]; [handle_block_request_timeouts] with the peers to
    remove; and [insert_block_responses] with the blocks to insert, or after an
    error. *)
Inductive Task :=
| InsertedLocators (ip : SocketAddr) (ls : BlockLocators)
| ComputedAncestors (ip : SocketAddr) (new_local_ancestor : Z) (updates : list (PeerPair * Z))
| InsertedAncestors
| Notify (peers synced : bool)
| TimedOut (requests : gmap Z hashes) (peers : list SocketAddr)
| Removing (peers : list SocketAddr)
| Responding (ip : SocketAddr) (blocks : list Block)
| Refused (ip : SocketAddr)
| RefusedRequests (removed : gmap Z hashes).

Record Tasks := mk_tasks { sync : BlockSync; holder : option Holder; tasks : list Task }.

(** ** The parts *)

(** The next part of the call that holds the lock. *)
Inductive holder_step : BlockSync -> Holder -> BlockSync -> option Holder -> Prop :=
| removes_ancestors ip s : holder_step s (RemovedLocators ip) (remove_ancestors ip s) (Some (RemovedAncestors ip))
| removes_requests ip s :
    holder_step s (RemovedAncestors ip) (retain_requests ip s).2 (Some (RemovedRequests (retain_requests ip s).1))
| marks_failed removed s : holder_step s (RemovedRequests removed) (mark_failed removed s) (Some MarkedFailed)
| reads_height s : holder_step s MarkedFailed s (Some (ReadHeight (max_peer_height s)))
| sets_height now m s :
    holder_step s (ReadHeight m) (set_peer_height now m s).2 (Some (WillNotify (set_peer_height now m s).1))
| notifies synced s : holder_step s (WillNotify synced) (notify_peers synced s) None
| inserts_request L now ips h hs n reqs s s' : insert_block_request L now h hs ips s = (Ok tt, s') ->
    holder_step s (Sending ips ((h, (hs, n)) :: reqs)) s' (Some (Sending ips reqs))
| fails_request L now ips h hs n reqs s : (insert_block_request L now h hs ips s).1 <> Ok tt ->
    holder_step s (Sending ips ((h, (hs, n)) :: reqs)) (insert_block_request L now h hs ips s).2 None
| all_inserted ips s : holder_step s (Sending ips []) s None.

(** The next part of another call, with what is left of it. *)
Inductive task_step : BlockSync -> Task -> BlockSync -> list Task -> Prop :=
| computes_ancestors L o ip ls s : oracle_wf o ->
    task_step s (InsertedLocators ip ls) s [ComputedAncestors ip (local_ancestor L ls) (ancestor_updates o ip ls s)]
| inserts_ancestors ip a us s : task_step s (ComputedAncestors ip a us) (insert_ancestors ip a us s) [InsertedAncestors]
| raises_height now s :
    task_step s InsertedAncestors (raise_peer_height now s).2 [Notify true (raise_peer_height now s).1]
| notifies_tasks (peers synced : bool) s :
    task_step s (Notify peers synced) (if peers then notify_peers synced s else notify_synced synced s) []
| marks_timeouts m ips s : task_step s (TimedOut m ips) (mark_failed m s) [Removing ips]
| no_more_peers s : task_step s (Removing []) s []
| inserts_response L ip b bs s : (insert_block_response L ip b s).1 = inr tt ->
    task_step s (Responding ip (b :: bs)) (insert_block_response L ip b s).2 [Responding ip bs]
| refuses_response L ip b bs s e : (insert_block_response L ip b s).1 = inl e ->
    task_step s (Responding ip (b :: bs)) (insert_block_response L ip b s).2 [Refused ip]
| no_more_blocks ip s : task_step s (Responding ip []) s []
| drops_requests ip s : task_step s (Refused ip) (retain_requests ip s).2 [RefusedRequests (retain_requests ip s).1]
| marks_refused m s : task_step s (RefusedRequests m) (mark_failed m s) [].

(** The checks of [insert_block_responses] before the loop. *)
Definition checked (ip : SocketAddr) (blocks : list Block) (version : option Z) : list Task :=
  match last blocks with
  | None => [Refused ip]
  | Some b =>
      match CONSENSUS_VERSION (height b) with
      | inl _ => []
      | inr expected =>
          match check_consensus_version expected (height b) version with
          | inl _ => [Refused ip]
          | inr _ => [Responding ip blocks]
          end
      end
  end.

(** The first part of a call that does not take [prepare_requests_lock], with
    what is left of it; the calls with one lock are done then. *)
Inductive begins : BlockSync -> BlockSync -> list Task -> Prop :=
| begins_update ip ls s : (insert_locators ip ls s).1 = true ->
    begins s (insert_locators ip ls s).2 [InsertedLocators ip ls]
| begins_timeouts L o now s : oracle_wf o ->
    begins s (retain_live L now s).2 [TimedOut (retain_live L now s).1.1 (iter_set o (retain_live L now s).1.2)]
| begins_responses ip bs v s : begins s s (checked ip bs v)
| begins_height now h s : begins s (record_sync_height now h s).2 [Notify false (record_sync_height now h s).1]
| begins_end_send sent ips a b s : begins s (end_send sent ips a b s).2 []
| begins_processed h s : begins s (remove_block_response h s) []
| begins_wait t s : begins s (wait_for_synced t s).2 []
| begins_permits x y s : begins s (set_peer_notify x (set_response_notify y s)) []
| begins_mode m s : begins s (set_sync_state (set_bft_sync_mode m (sync_state s)).2 s) [].

(** The first part of a call that takes the lock.  [prepare_block_requests]
    changes only the failed requests, of which it drops some; [send_block_requests]
    looks whether the chosen peers are connected. *)
Inductive locks : BlockSync -> BlockSync -> option Holder -> Prop :=
| locks_remove ip s : locks s (remove_locators ip s) (Some (RemovedLocators ip))
| locks_prepare failed s : failed ⊆ failed_requests s -> locks s (set_failed_requests failed s) None
| locks_send ips reqs s : NoDup ips -> forallb (fun ip => bool_decide (is_Some (locators s !! ip))) ips = true ->
    locks s s (Some (Sending ips reqs)).

(** A step: with [overlap], a part of a call; otherwise a whole call. *)
Inductive step (overlap : bool) : Tasks -> Tasks -> Prop :=
| step_call s s' : overlap = false -> sync_step s s' -> step overlap (mk_tasks s None []) (mk_tasks s' None [])
| step_begin s s' h ts new : overlap = true -> begins s s' new -> step overlap (mk_tasks s h ts) (mk_tasks s' h (new ++ ts))
| step_lock s s' h ts : overlap = true -> locks s s' h -> step overlap (mk_tasks s None ts) (mk_tasks s' h ts)
| step_holder s s' h h' ts : overlap = true -> holder_step s h s' h' -> step overlap (mk_tasks s (Some h) ts) (mk_tasks s' h' ts)
| step_task s s' h t new ts1 ts2 : overlap = true -> task_step s t s' new ->
    step overlap (mk_tasks s h (ts1 ++ t :: ts2)) (mk_tasks s' h (ts1 ++ new ++ ts2))
(** A timed-out peer is removed: the call takes the lock. *)
| step_next_peer s ip ips ts1 ts2 : overlap = true ->
    step overlap (mk_tasks s None (ts1 ++ Removing (ip :: ips) :: ts2))
      (mk_tasks (remove_locators ip s) (Some (RemovedLocators ip)) (ts1 ++ Removing ips :: ts2)).

Definition reachable (overlap : bool) (T : Tasks) : Prop :=
  exists L now, rtc (step overlap) (mk_tasks (new_block_sync L now) None []) T.

(** ** The calls are runs of their parts *)

Lemma update_parts L o now ip ls s h : oracle_wf o ->
  rtc (step true) (mk_tasks s h []) (mk_tasks (update_peer_locators L o now ip ls s) h []).
Proof.
  intros Ho. unfold update_peer_locators. pose proof (begins_update ip ls s) as H1.
  assert ((insert_locators ip ls s).1 = false -> (insert_locators ip ls s).2 = s) as H2 by (unfold insert_locators; by case_match).
  destruct (insert_locators ip ls s) as [[] s1]; cbn in *; [|by rewrite H2].
  eapply rtc_l; [exact (step_begin true _ _ h [] _ eq_refl (H1 eq_refl))|].
  eapply rtc_l; [exact (step_task true _ _ h _ _ [] [] eq_refl (computes_ancestors L o ip ls s1 Ho))|].
  eapply rtc_l; [exact (step_task true _ _ h _ _ [] [] eq_refl (inserts_ancestors _ _ _ _))|].
  eapply rtc_l; [exact (step_task true _ _ h _ _ [] [] eq_refl (raises_height now _))|].
  destruct (raise_peer_height now _) as [synced s2]. apply rtc_once.
  exact (step_task true _ _ h _ _ [] [] eq_refl (notifies_tasks true synced s2)).
Qed.

Lemma remove_parts now ip s ts :
  rtc (step true) (mk_tasks (remove_locators ip s) (Some (RemovedLocators ip)) ts) (mk_tasks (remove_peer now ip s) None ts).
Proof.
  unfold remove_peer, refresh_peer_height, remove_block_requests_to_peer.
  eapply rtc_l; [exact (step_holder true _ _ _ _ ts eq_refl (removes_ancestors ip _))|].
  eapply rtc_l; [exact (step_holder true _ _ _ _ ts eq_refl (removes_requests ip _))|].
  destruct (retain_requests ip _) as [removed s1]. cbn [fst snd].
  eapply rtc_l; [exact (step_holder true _ _ _ _ ts eq_refl (marks_failed removed s1))|].
  eapply rtc_l; [exact (step_holder true _ _ _ _ ts eq_refl (reads_height _))|].
  eapply rtc_l; [exact (step_holder true _ _ _ _ ts eq_refl (sets_height now _ _))|].
  destruct (set_peer_height now _ _) as [synced s2]. apply rtc_once.
  exact (step_holder true _ _ _ _ ts eq_refl (notifies synced s2)).
Qed.

Lemma timeouts_parts L o now s : oracle_wf o ->
  rtc (step true) (mk_tasks s None []) (mk_tasks (handle_block_request_timeouts L o now s) None []).
Proof.
  intros Ho. unfold handle_block_request_timeouts. eapply rtc_l; [exact (step_begin true _ _ None [] _ eq_refl (begins_timeouts L o now s Ho))|].
  destruct (retain_live L now s) as [[timed_out peers] s1]. cbn [fst snd app].
  eapply rtc_l; [exact (step_task true _ _ None _ _ [] [] eq_refl (marks_timeouts _ _ _))|]. cbn [app].
  generalize (iter_set o peers), (mark_failed timed_out s1). intros ips. induction ips as [|ip ips IH]; intros s2; cbn [foldl].
  - apply rtc_once. exact (step_task true _ _ None _ _ [] [] eq_refl (no_more_peers s2)).
  - eapply rtc_l; [exact (step_next_peer true s2 ip ips [] [] eq_refl)|]. cbn [app]. etrans; [apply (remove_parts now)|]. apply IH.
Qed.

Lemma responses_parts L ip bs v s :
  rtc (step true) (mk_tasks s None []) (mk_tasks (insert_block_responses L ip bs v s).2 None []).
Proof.
  assert (forall s, rtc (step true) (mk_tasks s None [Refused ip]) (mk_tasks (remove_block_requests_to_peer ip s) None [])) as Hr.
  { intros s0. unfold remove_block_requests_to_peer.
    eapply rtc_l; [exact (step_task true _ _ None _ _ [] [] eq_refl (drops_requests ip s0))|].
    destruct (retain_requests ip s0) as [m s1]. apply rtc_once. exact (step_task true _ _ None _ _ [] [] eq_refl (marks_refused m s1)). }
  eapply rtc_l; [exact (step_begin true _ _ None [] _ eq_refl (begins_responses ip bs v s))|].
  unfold insert_block_responses, checked. destruct (last bs) as [b|]; [|apply Hr].
  destruct (CONSENSUS_VERSION (height b)); [done|]. destruct (check_consensus_version _ _ _); [apply Hr|]. cbn [app]. clear b.
  revert s. induction bs as [|b bs IH]; intros s; cbn [insert_blocks].
  - apply rtc_once. exact (step_task true _ _ None _ _ [] [] eq_refl (no_more_blocks ip s)).
  - pose proof (inserts_response L ip b bs s) as H1. pose proof (fun e => refuses_response L ip b bs s e) as H2.
    destruct (insert_block_response L ip b s) as [[e|[]] s1]; cbn [fst snd] in *.
    + eapply rtc_l; [exact (step_task true _ _ None _ _ [] [] eq_refl (H2 e eq_refl))|]. apply Hr.
    + eapply rtc_l; [exact (step_task true _ _ None _ _ [] [] eq_refl (H1 eq_refl))|]. apply IH.
Qed.

Lemma reissue_failed L o s bs acc :
  exists failed, (reissue L o s bs acc).2 = set_failed_requests failed s /\ failed ⊆ failed_requests s.
Proof.
  revert s acc. induction bs as [|b bs IH]; intros s acc; cbn [reissue].
  { exists (failed_requests s). split; [by destruct s|done]. }
  assert (exists failed, s = set_failed_requests failed s /\ failed ⊆ failed_requests s) as H0
    by (exists (failed_requests s); split; [by destruct s|done]).
  destruct (head b) as [[h1 x1]|], (last b) as [[h2 x2]|]; try exact H0.
  destruct (find_sync_peers_inner L o s h1) as [[ps m]|]; [|exact H0]. destruct (list_max _); [|exact H0].
  match goal with |- context [reissue L o ?s0 bs ?acc0] => destruct (IH s0 acc0) as (failed & -> & Hf) end.
  exists failed. split; [done|]. etrans; [exact Hf|]. cbn. generalize (construct_requests L s ps (saturating_sub h1 1) m (u32_wrap (u32_wrap (h2 + 1) - h1))).*1.
  intros hs. generalize (failed_requests s). induction hs as [|h hs IHh]; intros f; cbn; [done|]. etrans; [apply IHh|]. apply delete_subseteq.
Qed.
Lemma drop_obsolete_suffix h (l : list (Z * hashes)) : exists l', l = l' ++ drop_obsolete h l.
Proof.
  induction l as [|p l [l' Hl]]; cbn; [by exists []|]. case_decide; [|by exists []]. exists (p :: l'). cbn. by rewrite <-Hl.
Qed.
Lemma drop_obsolete_sub h (m : gmap Z hashes) : (list_to_map (drop_obsolete h (btree_iter m)) : gmap Z hashes) ⊆ m.
Proof.
  apply map_subseteq_spec. intros k x Hk. apply elem_of_list_to_map_2 in Hk. destruct (drop_obsolete_suffix h (btree_iter m)) as [l' Hl].
  apply elem_of_btree_iter. rewrite Hl. apply elem_of_app. by right.
Qed.
Lemma prepare_failed L o s :
  exists failed, (prepare_block_requests L o s).2 = set_failed_requests failed s /\ failed ⊆ failed_requests s.
Proof.
  unfold prepare_block_requests. cbv zeta. pose proof (drop_obsolete_sub (sync_height (sync_state s)) (failed_requests s)) as Hd.
  set (l := drop_obsolete _ _) in *. destruct (negb _).
  - destruct (reissue_failed L o (set_failed_requests (list_to_map l) s) (failed_batches l) []) as (f & -> & Hf).
    exists f. split; [done|]. etrans; [exact Hf|exact Hd].
  - repeat case_match; (eexists; split; [done|exact Hd]).
Qed.

Lemma begin_send_parts L o now peers reqs s : oracle_wf o -> NoDup peers.*1 ->
  rtc (step true) (mk_tasks s None []) (mk_tasks (begin_send L o now peers reqs s).2 None []).
Proof.
  intros Ho Hnd. unfold begin_send. destruct (head reqs) as [[h [hs n]]|]; [|done].
  set (ips := sample o n peers.*1). assert (NoDup ips) as Hips by (by apply (ow_sample _ Ho)).
  destruct (forallb _ ips) eqn:Hall; [|done].
  eapply rtc_l; [exact (step_lock true _ _ _ [] eq_refl (locks_send ips reqs s Hips Hall))|].
  assert (rtc (step true) (mk_tasks s (Some (Sending ips reqs)) []) (mk_tasks (insert_requests L now ips reqs s).2 None [])) as H;
    [|by destruct (insert_requests L now ips reqs s) as [[] ?]].
  clear Hall. revert s. unfold insert_requests. induction reqs as [|[h' [hs' n']] reqs IH]; intros s; cbn [sfold].
  - apply rtc_once. exact (step_holder true _ _ _ _ [] eq_refl (all_inserted ips s)).
  - unfold sbind. pose proof (inserts_request L now ips h' hs' n' reqs s) as H1. pose proof (fails_request L now ips h' hs' n' reqs s) as H2.
    destruct (insert_block_request L now h' hs' ips s) as [[[]|e|e|] s1] eqn:E; cbn [fst snd] in *.
    + eapply rtc_l; [exact (step_holder true _ _ _ _ [] eq_refl (H1 s1 eq_refl))|]. apply IH.
    + apply rtc_once. exact (step_holder true _ _ _ _ [] eq_refl (H2 ltac:(done))).
    + apply rtc_once. exact (step_holder true _ _ _ _ [] eq_refl (H2 ltac:(done))).
    + apply rtc_once. exact (step_holder true _ _ _ _ [] eq_refl (H2 ltac:(done))).
Qed.

(** Every call is a run of its parts. *)
Lemma call_parts s s' : sync_step s s' -> rtc (step true) (mk_tasks s None []) (mk_tasks s' None []).
Proof.
  destruct 1 as [L o now ip ls s Ho|now ip s|L o now s Ho|L o s Ho|L o now peers reqs s Ho Hnd|sent ips a b s|L ip bs v s|h s|now h s|t s|x y s|m s].
  - by apply update_parts.
  - eapply rtc_l; [exact (step_lock true _ _ _ [] eq_refl (locks_remove ip s))|]. apply remove_parts.
  - by apply timeouts_parts.
  - destruct (prepare_failed L o s) as (f & -> & Hf). apply rtc_once. exact (step_lock true _ _ _ [] eq_refl (locks_prepare f s Hf)).
  - by apply begin_send_parts.
  - apply rtc_once. exact (step_begin true _ _ None [] _ eq_refl (begins_end_send sent ips a b s)).
  - apply responses_parts.
  - apply rtc_once. exact (step_begin true _ _ None [] _ eq_refl (begins_processed h s)).
  - unfold BlockSync.set_sync_height. eapply rtc_l; [exact (step_begin true _ _ None [] _ eq_refl (begins_height now h s))|].
    destruct (record_sync_height now h s) as [synced s1]. apply rtc_once.
    exact (step_task true _ _ None _ _ [] [] eq_refl (notifies_tasks false synced s1)).
  - apply rtc_once. exact (step_begin true _ _ None [] _ eq_refl (begins_wait t s)).
  - apply rtc_once. exact (step_begin true _ _ None [] _ eq_refl (begins_permits x y s)).
  - apply rtc_once. exact (step_begin true _ _ None [] _ eq_refl (begins_mode m s)).
Qed.

(** ** What every interleaving keeps *)

(** A peer whose locators [remove_peer] deleted but whose requests are still
    there. *)
Definition leaving (h : option Holder) (ip : SocketAddr) : Prop :=
  h = Some (RemovedLocators ip) \/ h = Some (RemovedAncestors ip).
(** A call is about to wake the waiting tasks. *)
Definition notifying (T : Tasks) : Prop :=
  holder T = Some (WillNotify true) \/ exists peers, Notify peers true ∈ tasks T.

Record tasks_inv (T : Tasks) : Prop := {
  ti_entries : exists peers, (forall ip, is_Some (peers !! ip) -> is_Some (locators (sync T) !! ip) \/ leaving (holder T) ip) /\
    entries_ok peers (sync T);
  ti_sending ips reqs : holder T = Some (Sending ips reqs) ->
    NoDup ips /\ forall ip, ip ∈ ips -> is_Some (locators (sync T) !! ip);
  ti_tracked : tracked (sync_state (sync T));
  ti_waiters : is_block_synced (sync_state (sync T)) = true -> synced_waiters (sync T) = [] \/ notifying T;
}.

(** A part that keeps the sync state and the waiting tasks, drops no locators and
    leaves requests in order. *)
Record quiet (s s' : BlockSync) : Prop := {
  qu_locators ip : is_Some (locators s !! ip) -> is_Some (locators s' !! ip);
  qu_entries peers : entries_ok peers s -> entries_ok peers s';
  qu_state : sync_state s' = sync_state s;
  qu_waiters : synced_waiters s' = synced_waiters s;
}.

Lemma quiet_same s s' :
  locators s' = locators s -> requests s' = requests s -> sync_state s' = sync_state s -> synced_waiters s' = synced_waiters s -> quiet s s'.
Proof. intros Hl Hr Hs Hw. split; try done; [by rewrite Hl|]. intros peers He h e. rewrite Hr. apply He. Qed.
Lemma quiet_filter (P : Z * OutstandingRequest -> Prop) `{!forall p, Decision (P p)} s :
  quiet s (set_requests (base.filter P (requests s)) s).
Proof. split; try done. intros peers He h e [Hh _]%map_lookup_filter_Some. by apply He. Qed.
Lemma quiet_retain ip s : quiet s (retain_requests ip s).2.
Proof.
  split; try done. intros peers He h e Hh. eapply entry_ok_mono; [apply delete_mono|]. by apply (removed_requests_ok peers s ip).
Qed.
Lemma quiet_response L ip b s : quiet s (insert_block_response L ip b s).2.
Proof.
  pose proof (fun peers => insert_response_ok peers L ip b s) as Hok. destruct (insert_response_rest L ip b s) as (m & y & E).
  rewrite E in *. by split.
Qed.

(** The tasks that are about to notify still are, and the holder is the same. *)
Lemma inv_quiet s s' h ts ts' :
  quiet s s' -> (forall peers, Notify peers true ∈ ts -> Notify peers true ∈ ts') -> tasks_inv (mk_tasks s h ts) -> tasks_inv (mk_tasks s' h ts').
Proof.
  intros [Hl He Hs Hw] Hn [(peers & Hp & Hpe) Hse Ht Hwa]. split; cbn in *.
  - exists peers. split; [|auto]. intros ip [?|?]%Hp; auto.
  - intros ips reqs [? ?]%Hse. auto.
  - by rewrite Hs.
  - rewrite Hs, Hw. intros [?|[?|[p ?]]]%Hwa; [by left|right; by left|right; right; eauto].
Qed.

(** A new sync state, with a notification if it is synced. *)
Lemma inv_state s st h ts h' ts' :
  tracked st -> (forall ip, leaving h ip -> leaving h' ip) ->
  (forall ips reqs, h' = Some (Sending ips reqs) -> h = Some (Sending ips reqs)) ->
  (is_block_synced st = true -> notifying (mk_tasks (set_sync_state st s) h' ts')) ->
  tasks_inv (mk_tasks s h ts) -> tasks_inv (mk_tasks (set_sync_state st s) h' ts').
Proof.
  intros Ht Hl Hse Hn [(peers & Hp & Hpe) Hs _ _]. split; cbn in *; try done.
  - exists peers. split; [|done]. intros ip [?|?]%Hp; [by left|right; auto].
  - intros ips reqs ?%Hse. by eapply Hs.
  - intros ?%Hn. by right.
Qed.

(** Waking the waiting tasks. *)
Lemma inv_notify s h ts h' ts' x (synced : bool) :
  (forall ip, leaving h ip -> leaving h' ip) -> (forall ips reqs, h' = Some (Sending ips reqs) -> h = Some (Sending ips reqs)) ->
  (synced = false -> notifying (mk_tasks s h ts) -> notifying (mk_tasks s h' ts')) ->
  tasks_inv (mk_tasks s h ts) -> tasks_inv (mk_tasks (set_peer_notify x (notify_synced synced s)) h' ts').
Proof.
  intros Hl Hse Hn [(peers & Hp & Hpe) Hs Ht Hw].
  assert (forall s', locators s' = locators s -> requests s' = requests s -> sync_state s' = sync_state s ->
    (synced_waiters s' = [] \/ synced = false /\ synced_waiters s' = synced_waiters s) -> tasks_inv (mk_tasks s' h' ts')) as H.
  { intros s' El Er Es Ew. split; cbn in *.
    - exists peers. split; [|intros k e; rewrite Er; apply Hpe]. rewrite El. intros ip [?|?]%Hp; [by left|right; auto].
    - intros ips reqs ?%Hse. rewrite El. by eapply Hs.
    - by rewrite Es.
    - rewrite Es. intros Hb. destruct Ew as [?|[Hf ->]]; [by left|]. destruct (Hw Hb) as [?|?]; [by left|right]. by apply Hn. }
  destruct synced; apply H; try done; by (left + right).
Qed.

Lemma leaving_none ip : ~ leaving None ip.
Proof. by intros [?|?]. Qed.

Lemma inv_begins s s' h ts new : begins s s' new -> tasks_inv (mk_tasks s h ts) -> tasks_inv (mk_tasks s' h (new ++ ts)).
Proof.
  intros Hb Hinv. assert (quiet s s' -> tasks_inv (mk_tasks s' h (new ++ ts))) as Hq.
  { intros Hq. eapply inv_quiet; [exact Hq| |exact Hinv]. intros; apply elem_of_app; by right. }
  destruct Hb as [ip ls s Hc|L o now s Ho|ip bs v s|now h' s|sent ips a b s|h' s|t s|x y s|m s].
  - apply Hq. unfold insert_locators in *. case_match; [done|]. split; try done. cbn. intros x Hx. rewrite lookup_insert. case_decide; eauto.
  - apply Hq, quiet_filter.
  - by apply Hq, quiet_same.
  - eapply inv_state; [|done|done| |exact Hinv]; [apply set_sync_height_tracked, Hinv|]. intros Hb. right. exists false. cbn.
    rewrite Hb. left.
  - apply Hq. unfold end_send. destruct (forallb _ _); [by apply quiet_same|apply quiet_filter].
  - apply Hq. unfold remove_block_response. case_match; [|by apply quiet_same]. split; try done. intros peers He k e. cbn.
    rewrite lookup_delete. case_decide; [done|]. apply He.
  - unfold wait_for_synced in *. destruct (is_block_synced (sync_state s)) eqn:E; [done|]. destruct Hinv as [He Hs Ht Hw].
    split; cbn in *; try done. by rewrite E.
  - by apply Hq, quiet_same.
  - destruct Hinv as [He Hs Ht Hw]. by split.
Qed.

Lemma inv_locks s s' h ts : locks s s' h -> tasks_inv (mk_tasks s None ts) -> tasks_inv (mk_tasks s' h ts).
Proof.
  destruct 1 as [ip s|failed s Hf|ips reqs s Hnd Hall]; intros [(peers & Hp & Hpe) Hs Ht Hw]; cbn in *.
  - split; cbn; try done.
    + exists peers. split; [|done]. intros x [Hx|[]%leaving_none]%Hp. rewrite lookup_delete. case_decide; [|by left].
      subst x. right. by left.
    + intros [?|[?|[p ?]]]%Hw; [by left|done|right; right; eauto].
  - split; cbn; try done. by exists peers.
  - split; cbn; try done.
    + exists peers. split; [|done]. intros x [Hx|[]%leaving_none]%Hp. by left.
    + intros ips' reqs' [= <- <-]. split; [done|]. intros ip Hip. rewrite forallb_forall in Hall.
      specialize (Hall ip ltac:(by apply list_elem_of_In)). by apply bool_decide_eq_true in Hall.
    + intros [?|[?|[p ?]]]%Hw; [by left|done|right; right; eauto].
Qed.

(** A request that is inserted for connected peers. *)
Lemma inv_insert L now ips h hs s ts reqs h' :
  tasks_inv (mk_tasks s (Some (Sending ips reqs)) ts) -> (h' = None \/ exists reqs', h' = Some (Sending ips reqs')) ->
  tasks_inv (mk_tasks (insert_block_request L now h hs ips s).2 h' ts).
Proof.
  intros [(peers & Hp & Hpe) Hs Ht Hw] Hh'. cbn in *. destruct (Hs _ _ eq_refl) as [Hnd Hc].
  assert (forall ip, ~ leaving (Some (Sending ips reqs)) ip) as Hnl by (by intros ip [?|?]).
  assert (forall s', locators s' = locators s -> sync_state s' = sync_state s -> synced_waiters s' = synced_waiters s ->
    entries_ok (locators s ∪ peers) s' -> tasks_inv (mk_tasks s' h' ts)) as H.
  { intros s' El Es Ew He. split; cbn.
    - exists (locators s ∪ peers). split; [|done]. rewrite El. intros ip [l Hl]. left. apply lookup_union_Some_raw in Hl as [?|[_ Hl]]; [by eexists|].
      destruct (Hp ip) as [?|[]%Hnl]; [by eexists|done].
    - intros ips' reqs' E. destruct Hh' as [->|[? ->]]; [done|]. injection E as <- _. by rewrite El.
    - by rewrite Es.
    - rewrite Es, Ew. intros [?|[?|[p ?]]]%Hw; [by left|done|right; right; eauto]. }
  assert (entries_ok (locators s ∪ peers) s) as Hall.
  { intros k e He. eapply entry_ok_mono; [|by apply Hpe]. intros ip [l Hl]. rewrite lookup_union, Hl. destruct (locators s !! ip); by eexists. }
  unfold insert_block_request, sbind, sget, slift, smodify. destruct (check_block_request L s h); cbn; try by apply H.
  unfold ensure. case_bool_decide as Hne; cbn; [by apply H|]. apply H; try done. intros k e. cbn. rewrite lookup_insert. case_decide; [|apply Hall].
  intros [= <-]. split; cbn; try done. intros ip [l Hl]%Hc. rewrite lookup_union, Hl. destruct (peers !! ip); by eexists.
Qed.

Lemma inv_holder s s' h h' ts : holder_step s h s' h' -> tasks_inv (mk_tasks s (Some h) ts) -> tasks_inv (mk_tasks s' h' ts).
Proof.
  destruct 1 as [ip s|ip s|removed s|s|now m s|synced s|L now ips k hs n reqs s s' E|L now ips k hs n reqs s E|ips s]; intros Hinv;
    pose proof Hinv as [(peers & Hp & Hpe) Hs Ht Hw]; cbn in Hp, Hs, Ht, Hw.
  - split; cbn; try done; [|intros [?|[?|[p ?]]]%Hw; [by left|done|right; right; eauto]].
    exists peers. split; [|done]. intros x [?|[[= ->]|?]]%Hp; [by left|right; by right|done].
  - split; cbn; try done; [|intros [?|[?|[p ?]]]%Hw; [by left|done|right; right; eauto]].
    exists (delete ip peers). split; [|by apply removed_requests_ok]. intros x. rewrite lookup_delete. case_decide; [by intros []|].
    intros [?|[?|[= ->]]]%Hp; by left.
  - split; cbn; try done; [|intros [?|[?|[p ?]]]%Hw; [by left|done|right; right; eauto]].
    exists peers. split; [|done]. intros x [?|[?|?]]%Hp; by left.
  - split; cbn; try done; [|intros [?|[?|[p ?]]]%Hw; [by left|done|right; right; eauto]].
    exists peers. split; [|done]. intros x [?|[?|?]]%Hp; by left.
  - eapply inv_state; [| | | |exact Hinv]; [|by intros ip [?|?]|done|intros Hb; left; cbn; by rewrite Hb].
    case_match; [by apply set_greatest_tracked|by apply clear_greatest_tracked].
  - eapply inv_notify; [| | |exact Hinv]; [by intros ip [?|?]|done|]. intros -> [?|[p ?]]; [done|right; by exists p].
  - pose proof (inv_insert L now ips k hs s ts _ (Some (Sending ips reqs)) Hinv ltac:(right; by eexists)) as H. by rewrite E in H.
  - exact (inv_insert L now ips k hs s ts _ None Hinv ltac:(by left)).
  - split; cbn; try done; [|intros [?|[?|[p ?]]]%Hw; [by left|done|right; right; eauto]].
    exists peers. split; [|done]. intros x [?|[?|?]]%Hp; by left.
Qed.

(** The tasks beside the one that makes a step. *)
Lemma keeps_notify t (new ts1 ts2 : list Task) p :
  (forall q, t <> Notify q true) -> Notify p true ∈ ts1 ++ t :: ts2 -> Notify p true ∈ ts1 ++ new ++ ts2.
Proof. intros Ht. rewrite !elem_of_app, elem_of_cons. intros [?|[<-|?]]; [by left|by destruct (Ht p)|by right; right]. Qed.

Lemma inv_task s s' h t new ts1 ts2 : task_step s t s' new ->
  tasks_inv (mk_tasks s h (ts1 ++ t :: ts2)) -> tasks_inv (mk_tasks s' h (ts1 ++ new ++ ts2)).
Proof.
  intros Hstep Hinv. assert (quiet s s' -> (forall q, t <> Notify q true) -> tasks_inv (mk_tasks s' h (ts1 ++ new ++ ts2))) as Hq.
  { intros Hq Ht. eapply inv_quiet; [exact Hq| |exact Hinv]. intros p. by apply keeps_notify. }
  destruct Hstep as [L o ip ls s Ho|ip a us s|now s|peers synced s|m ips s|s|L ip b bs s E|L ip b bs s e E|ip s|ip s|m s];
    try (apply Hq; [by apply quiet_same|done]).
  - unfold raise_peer_height in *. destruct (max_peer_height s) as [g|]; [|apply Hq; [by apply quiet_same|done]].
    eapply inv_state; [|done|done| |exact Hinv]; [apply set_greatest_tracked, Hinv|]. intros Hb. right. exists true. cbn. rewrite Hb.
    apply elem_of_app. right. left.
  - pose proof (inv_notify s h (ts1 ++ Notify peers synced :: ts2) h (ts1 ++ ts2)) as Hno.
    assert (synced = false -> notifying (mk_tasks s h (ts1 ++ Notify peers synced :: ts2)) -> notifying (mk_tasks s h (ts1 ++ ts2))) as Hk.
    { intros -> [?|[p Hp]]; [by left|]. right. exists p. by apply (keeps_notify (Notify peers false) []). }
    destruct peers; [by apply Hno|]. specialize (Hno (peer_notify s) synced). replace (notify_synced synced s) with
      (set_peer_notify (peer_notify s) (notify_synced synced s)) by (destruct s, synced; done). by apply Hno.
  - apply Hq; [apply quiet_response|done].
  - apply Hq; [apply quiet_response|done].
  - apply Hq; [apply quiet_retain|done].
Qed.

Lemma inv_step T T' : step true T T' -> tasks_inv T -> tasks_inv T'.
Proof.
  destruct 1 as [|s s' h ts new _ Hb|s s' h ts _ Hl|s s' h h' ts _ Hh|s s' h t new ts1 ts2 _ Ht|s ip ips ts1 ts2 _]; [done|..].
  - by apply inv_begins.
  - by apply inv_locks.
  - by apply inv_holder.
  - by apply inv_task.
  - intros Hinv. apply (inv_locks s _ _ _ (locks_remove ip s)). eapply inv_quiet; [by apply quiet_same| |exact Hinv].
    intros p. by apply (keeps_notify (Removing (ip :: ips)) [Removing ips]).
Qed.

Lemma reachable_tasks_inv T : reachable true T -> tasks_inv T.
Proof.
  intros (L & now & H). assert (tasks_inv (mk_tasks (new_block_sync L now) None [])) as H0.
  { split; cbn; try done; [|by right|by left]. exists ∅. split; [by intros ip []|done]. }
  induction H as [|T1 T2 T3 Hs _ IH]; [done|]. by eapply IH, inv_step.
Qed.

Lemma calls_reachable T : reachable false T -> exists s, T = mk_tasks s None [] /\ sync_reachable s.
Proof.
  intros (L & now & H). assert (exists s, mk_tasks (new_block_sync L now) None [] = mk_tasks s None [] /\ sync_reachable s) as H0
    by (exists (new_block_sync L now); split; [done|by exists L, now]).
  induction H as [|T1 T2 T3 Hs _ IH]; [done|]. apply IH. destruct H0 as (s & -> & (L' & now' & Hr)).
  inversion Hs; subst; try done. eexists. split; [done|]. exists L', now'. by eapply rtc_r.
Qed.

Lemma calls_run s s' : rtc sync_step s s' -> rtc (step false) (mk_tasks s None []) (mk_tasks s' None []).
Proof. induction 1 as [|s1 s2 s3 Hs _ IH]; [done|]. eapply rtc_l; [by apply step_call|exact IH]. Qed.

(** C16: the invariant of block synchronization.  In every state that the
    interleaved parts of the calls of a node's tasks reach, whatever the ledger and
    the choices of random peers, a block request waits only for connected peers,
    except while [remove_peer] is removing the peer, so that its disconnection
    removes it; a request that waits for no peer has a response of its height with
    the requested hashes; the node is synced if and only if it is at most one block
    behind the recorded greatest height of its peers; and no task waits for the node
    to be synced while it is, unless a call is about to wake it.  When the calls do
    not overlap, in addition the common ancestors are known for exactly the pairs of
    different nodes among the peers and the node itself, that of two peers is the
    greatest height common to their current locators, and the recorded greatest
    height is that of the connected peers' locators. *)
Theorem sync_tasks_inv (overlap : bool) (T : Tasks) :
  reachable overlap T ->
  let s := sync T in
  (forall h e ip, requests s !! h = Some e -> ip ∈ sync_ips e -> is_Some (locators s !! ip) \/ leaving (holder T) ip) /\
  (forall h e, requests s !! h = Some e -> sync_ips e = [] -> exists b, response e = Some b) /\
  (forall h e b, requests s !! h = Some e -> response e = Some b ->
     height b = h /\ mismatch (request_hashes e).1 (hash b) = None /\
     mismatch (request_hashes e).2 (previous_hash b) = None) /\
  (forall g, greatest_peer_height (sync_state s) = Some g ->
     (is_block_synced (sync_state s) = true <-> g <= sync_height (sync_state s) + MAX_BLOCKS_BEHIND)) /\
  (is_block_synced (sync_state s) = true -> synced_waiters s = [] \/ notifying T) /\
  (overlap = false ->
     holder T = None /\ tasks T = [] /\
     (forall a b, is_Some (ancestors_get (mk_peer_pair a b) (common_ancestors s)) <->
        known (locators s) a /\ known (locators s) b /\ a <> b) /\
     (forall a b la lb, a <> b -> locators s !! a = Some la -> locators s !! b = Some lb ->
        exists v, ancestors_get (mk_peer_pair a b) (common_ancestors s) = Some v /\
          is_common_ancestor (get_hash la) (get_hash lb) v) /\
     greatest_peer_height (sync_state s) = max_peer_height s).
Proof.
  intros Hr. cbv zeta. destruct overlap.
  - apply reachable_tasks_inv in Hr as [(peers & Hp & Hpe) _ Ht Hw]. split_and!; try done.
    + intros h e ip He Hip. apply Hp, (eo_connected _ _ _ (Hpe _ _ He)), Hip.
    + intros h e He Hnil. by apply (eo_answered _ _ _ (Hpe _ _ He)).
    + intros h e b He. apply (eo_response _ _ _ (Hpe _ _ He)).
    + intros g. by apply tracked_synced.
  - apply calls_reachable in Hr as (s & -> & [Hr [_ Hn Ha Hex] Ht Hg Hw]%reachable_sync_inv). cbn. split_and!; try done.
    + intros h e ip He Hip. left. by apply (eo_connected _ _ _ (Hr _ _ He)).
    + intros h e He Hnil. by apply (eo_answered _ _ _ (Hr _ _ He)).
    + intros h e b He. apply (eo_response _ _ _ (Hr _ _ He)).
    + intros g. by apply tracked_synced.
    + intros ?%Hw. by left.
    + intros _. split_and!; try done. intros a b la lb Hab Hla Hlb. eexists. split; [by apply Hex|]. apply common_ancestor_is. by eapply Hn.
Qed.

End SyncTasks.
End SyncTasks.

(** ** Witnesses *)

Abbreviation TestTasks := (SyncTasks.Tasks (N := TestNetwork) (B := TestBlocks)).
Definition sync4_tasks : TestTasks := SyncTasks.mk_tasks sync4 None [].

Lemma sync4_tasks_reachable : SyncTasks.reachable false sync4_tasks.
Proof. exists (test_view 3), 0. apply SyncTasks.calls_run, sync4_steps. Qed.

Lemma sync_tasks_inv_witness :
  BlockSync.peek_next_block sync4 5 = Some (test_block 5) /\
  SyncState.greatest_peer_height (BlockSync.sync_state sync4) = BlockSync.max_peer_height sync4 /\
  exists v, ancestors_get (mk_peer_pair peer1 peer2) (BlockSync.common_ancestors sync4) = Some v /\
    BlockSyncProps.is_common_ancestor (Locators.get_hash (peer_locators 6)) (Locators.get_hash (peer_locators 5)) v.
Proof.
  destruct (SyncTasks.sync_tasks_inv false sync4_tasks sync4_tasks_reachable) as (_ & _ & _ & _ & _ & Hcalls).
  destruct (Hcalls eq_refl) as (_ & _ & _ & Hex & Hg).
  split; [vm_refl|]. split; [exact Hg|]. apply Hex; [discriminate|vm_refl|vm_refl].
Defined.

(** ** A race *)

(** A node at height 3 knows a peer at height 4.  New locators of [peer1] are
    inserted; before the common ancestors with them are recorded, [peer1] is
    removed, up to the point where the greatest height, 4, is read; then they are
    recorded, a peer at height 9 connects, and the removal ends. *)
Definition peer3 : SocketAddr := SocketAddrV4 3 3.
Abbreviation TestSync := (BlockSync.BlockSync (N := TestNetwork) (B := TestBlocks)).
Definition race0 : TestSync := BlockSync.update_peer_locators (test_view 3) test_oracle 0 peer2 (peer_locators 4) sync0.
Definition race1 : TestSync := (BlockSync.insert_locators peer1 (peer_locators 6) race0).2.
Definition race_updates : list (PeerPair * Z) := BlockSync.ancestor_updates test_oracle peer1 (peer_locators 6) race1.
Definition race2 : TestSync := BlockSync.remove_block_requests_to_peer peer1 (BlockSync.remove_ancestors peer1 (BlockSync.remove_locators peer1 race1)).
Definition race3 : TestSync := BlockSync.insert_ancestors peer1 (BlockSync.local_ancestor (test_view 3) (peer_locators 6)) race_updates race2.
Definition race4 : TestSync := BlockSync.notify_peers (BlockSync.raise_peer_height 1 race3).1 (BlockSync.raise_peer_height 1 race3).2.
Definition race5 : TestSync := BlockSync.update_peer_locators (test_view 3) test_oracle 2 peer3 (peer_locators 9) race4.
Definition race6 : TestSync :=
  BlockSync.notify_peers (BlockSync.set_peer_height 3 (Some 4) race5).1 (BlockSync.set_peer_height 3 (Some 4) race5).2.

Abbreviation race_task := (SyncTasks.ComputedAncestors peer1 (BlockSync.local_ancestor (test_view 3) (peer_locators 6)) race_updates).
Lemma race_reachable : SyncTasks.reachable true (SyncTasks.mk_tasks race6 None []).
Proof.
  exists (test_view 3), 0.
  etrans; [apply (SyncTasks.update_parts (test_view 3) test_oracle 0 peer2 (peer_locators 4)), test_oracle_wf|].
  eapply rtc_l; [exact (SyncTasks.step_begin true race0 race1 None [] _ eq_refl (SyncTasks.begins_update peer1 (peer_locators 6) race0 eq_refl))|].
  eapply rtc_l; [exact (SyncTasks.step_task true race1 race1 None _ [race_task] [] [] eq_refl (SyncTasks.computes_ancestors (test_view 3) test_oracle _ _ _ test_oracle_wf))|].
  eapply rtc_l; [exact (SyncTasks.step_lock true _ _ _ [race_task] eq_refl (SyncTasks.locks_remove peer1 race1))|].
  eapply rtc_l; [exact (SyncTasks.step_holder true _ _ _ _ [race_task] eq_refl (SyncTasks.removes_ancestors peer1 _))|].
  eapply rtc_l; [exact (SyncTasks.step_holder true _ _ _ _ [race_task] eq_refl (SyncTasks.removes_requests peer1 _))|].
  eapply rtc_l; [exact (SyncTasks.step_holder true _ race2 _ _ [race_task] eq_refl (SyncTasks.marks_failed _ _))|].
  eapply rtc_l; [exact (SyncTasks.step_holder true _ race2 _ _ [race_task] eq_refl (SyncTasks.reads_height race2))|].
  replace (BlockSync.max_peer_height race2) with (Some 4) by vm_refl.
  eapply rtc_l; [exact (SyncTasks.step_task true race2 race3 _ _ _ [] [] eq_refl (SyncTasks.inserts_ancestors _ _ _ race2))|].
  eapply rtc_l; [exact (SyncTasks.step_task true race3 _ _ _ _ [] [] eq_refl (SyncTasks.raises_height 1 race3))|].
  eapply rtc_l; [exact (SyncTasks.step_task true _ race4 _ _ _ [] [] eq_refl (SyncTasks.notifies_tasks true _ _))|].
  etrans; [apply (SyncTasks.update_parts (test_view 3) test_oracle 2 peer3 (peer_locators 9)), test_oracle_wf|].
  eapply rtc_l; [exact (SyncTasks.step_holder true race5 _ _ _ [] eq_refl (SyncTasks.sets_height 3 (Some 4) race5))|].
  apply rtc_once. exact (SyncTasks.step_holder true _ race6 _ _ [] eq_refl (SyncTasks.notifies _ _)).
Qed.

(** C17: calls that overlap can leave stale data for good.  There is a run of a
    node after which no call is in progress, a peer that is not connected still has
    a common ancestor with a connected one, and the node takes itself for synced
    although the locators of a connected peer are six blocks ahead of it. *)
Theorem overlap_leaves_stale_data :
  exists T : TestTasks, SyncTasks.reachable true T /\ SyncTasks.holder T = None /\ SyncTasks.tasks T = [] /\
    BlockSync.locators (SyncTasks.sync T) !! peer1 = None /\
    is_Some (ancestors_get (mk_peer_pair peer1 peer2) (BlockSync.common_ancestors (SyncTasks.sync T))) /\
    SyncState.is_block_synced (BlockSync.sync_state (SyncTasks.sync T)) = true /\
    BlockSync.max_peer_height (SyncTasks.sync T) = Some (SyncState.sync_height (BlockSync.sync_state (SyncTasks.sync T)) + 6).
Proof.
  exists (SyncTasks.mk_tasks race6 None []). split; [exact race_reachable|]. split; [done|]. split; [done|].
  split; [vm_refl|]. split; [|split; vm_refl]. exists 4. vm_refl.
Qed.
