(* ===== verification/SyncProgress.v ===== *)
(** * Progress of block synchronization

    Which blocks [construct_requests] and [prepare_block_requests] ask for, that
    a node behind its peers asks for its next block, that the blocks it receives
    advance its ledger, and that no request is lost on the way. *)

From S2P Require Import Prelude Network Sockets Locators SyncState BlockSync BlockSyncProps.
Import Locators SyncState BlockSync BlockSyncProps.

Module SyncProgress.
Section SyncProgress.
Context `{N : Network} {B : BlockData}.
Abbreviation hashes := (option BlockHash * option BlockHash)%type.
Abbreviation prepared := (Z * (hashes * Z))%type.

(** ** Constructing requests *)

Lemma skip_requested_run fuel (m : gmap Z OutstandingRequest) a :
  0 <= a -> a + Z.of_nat fuel < u32_max ->
  exists n, (n <= fuel)%nat /\ skip_requested fuel m a = a + Z.of_nat n /\
    (forall k, a <= k < a + Z.of_nat n -> is_Some (m !! k)) /\
    ((n < fuel)%nat -> m !! (a + Z.of_nat n) = None).
Proof.
  revert a. induction fuel as [|fuel IH]; intros a Ha Hb; cbn [skip_requested].
  - exists 0%nat. split_and!; [lia..|intros; lia|lia].
  - case_decide as Hd.
    + rewrite u32_wrap_id by mlia. destruct (IH (a + 1)) as (n & Hn & -> & Hall & Hstop); [lia..|].
      exists (S n). split_and!; [lia|lia| |].
      * intros k Hk. destruct (decide (k = a)) as [->|]; [done|]. apply Hall. lia.
      * intros Hlt. replace (a + Z.of_nat (S n)) with (a + 1 + Z.of_nat n) by lia. apply Hstop. lia.
    + exists 0%nat. rewrite Z.add_0_r. split_and!; [lia|done|intros; lia|].
      intros _. by apply eq_None_not_Some.
Qed.

(** The bound on the iterations is never reached: the start height is the first
    one without a request. *)
Lemma skip_requested_spec (m : gmap Z OutstandingRequest) a :
  0 <= a -> a + Z.of_nat (S (size m)) < u32_max ->
  let r := skip_requested (S (size m)) m a in
  a <= r <= a + Z.of_nat (size m) /\ m !! r = None /\ forall k, a <= k < r -> is_Some (m !! k).
Proof.
  intros Ha Hb r. subst r. destruct (skip_requested_run (S (size m)) m a) as (n & Hn & -> & Hall & Hstop); [done..|].
  assert (n <= size m)%nat as Hle.
  { rewrite <-size_dom. change (size (dom m)) with (length (elements (dom m))).
    replace n with (length (seqZ a (Z.of_nat n))) by (rewrite length_seqZ; lia).
    apply submseteq_length, NoDup_submseteq; [apply NoDup_seqZ|].
    intros k Hk%elem_of_seqZ. apply elem_of_elements, elem_of_dom, Hall. lia. }
  split_and!; [lia|lia|apply Hstop; lia|done].
Qed.

Lemma check_block_request_Ok L s h u :
  check_block_request L s h = Ok u <-> contains_block_height L h = false /\ requests s !! h = None.
Proof.
  destruct u. unfold check_block_request. destruct (contains_block_height L h); [naive_solver|].
  case_decide as Hd; [|rewrite <-eq_None_not_Some in Hd; naive_solver].
  split; [done|]. intros [_ Hn]. rewrite Hn in Hd. by destruct Hd.
Qed.

Lemma check_block_request_false L s h :
  is_ok (check_block_request L s h) = true <-> contains_block_height L h = false /\ requests s !! h = None.
Proof.
  rewrite <-(check_block_request_Ok L s h tt). destruct (check_block_request L s h) as [[]| | |]; cbn; naive_solver.
Qed.

Lemma construct_request_ips h ps : 1 <= (construct_request h ps).1.2 <= EXTRA_REDUNDANCY_FACTOR.
Proof. unfold construct_request. cbn. repeat case_match; by vm_compute. Qed.

(** Accumulated hashes end right before height [h]. *)
Definition ends_at (h : Z) (acc : list (Z * hashes)) : Prop := acc.*1 = seqZ (h - len acc) (len acc).

Lemma ends_at_nil h : ends_at h [].
Proof. done. Qed.

Lemma ends_at_snoc h acc x : ends_at h acc -> ends_at (h + 1) (acc ++ [(h, x)]).
Proof.
  unfold ends_at. intros Ha. rewrite fmap_app, Ha, len_app. cbn.
  change (len [(h, x)]) with 1. rewrite seqZ_app by (pose proof (len_nonneg acc); lia).
  f_equal; [f_equal; lia|]. rewrite (seqZ_cons _ 1) by lia. cbn. f_equal. lia.
Qed.

Lemma ends_at_fresh h acc : ends_at h acc -> h ∉ acc.*1.
Proof. unfold ends_at. intros -> Hh%elem_of_seqZ. lia. Qed.

(** Where the loop stops without another height. *)
Ltac stop_here := split_and!; try done; try (unfold len; cbn [length]; lia); try set_solver.

(** The heights from [h] on, of which the loop takes a continuous range. *)
Lemma requests_loop_spec L s ps n h acc k rh k' :
  0 <= n -> ends_at h acc -> requests_loop L s ps (seqZ h n) acc k = (rh, k') ->
  exists e added, ends_at e rh /\ rh = acc ++ added /\ len added <= n /\ e <= h + n /\
    k <= k' <= Z.max k EXTRA_REDUNDANCY_FACTOR /\
    forall h' hs, (h', hs) ∈ added -> h <= h' < h + n /\ hs = (construct_request h' ps).1.1 /\
      contains_block_height L h' = false /\ requests s !! h' = None.
Proof.
  intros Hn. revert h acc k. pattern n. apply natlike_ind; [| |done]; clear n Hn.
  - intros h acc k Ha. rewrite seqZ_nil by lia. cbn. intros [= <- <-].
    exists h, []. rewrite app_nil_r. stop_here.
  - intros n Hn IH h acc k Ha. rewrite seqZ_cons by lia. cbn [requests_loop].
    replace (Z.succ h) with (h + 1) by lia. replace (Z.pred (Z.succ n)) with n by lia.
    destruct (is_ok (check_block_request L s h)) eqn:Hok; cbn [negb].
    + destruct (construct_request h ps) as [[hs num] honest] eqn:Hcr.
      assert (1 <= num <= EXTRA_REDUNDANCY_FACTOR) as Hnum.
      { pose proof (construct_request_ips h ps) as H. by rewrite Hcr in H. }
      destruct (negb honest && _).
      { intros [= <- <-]. exists h, []. rewrite app_nil_r. stop_here. }
      rewrite imap_insert_new by (by apply ends_at_fresh).
      intros (e & added & He & -> & Hlen & Hle & Hk & Hall)%IH; [|by apply ends_at_snoc].
      exists e, ((h, hs) :: added). rewrite <-app_assoc in He |- *. rewrite len_cons.
      split_and!; [done|done|lia|lia|lia|lia|].
      intros h' hs' [[= -> ->]|Hin]%elem_of_cons.
      * apply check_block_request_false in Hok as [??]. rewrite Hcr. split_and!; (done || lia).
      * destruct (Hall _ _ Hin) as (? & ? & ?). split_and!; (tauto || lia).
    + case_bool_decide as Hnil.
      * subst acc. intros (e & added & He & -> & Hlen & Hle & Hk & Hall)%IH; [|done].
        exists e, added. split_and!; try done; [lia..|]. intros h' hs Hin.
        destruct (Hall _ _ Hin) as (? & ? & ?). split_and!; (tauto || lia).
      * intros [= <- <-]. exists h, []. rewrite app_nil_r. stop_here.
Qed.

(** The requests [construct_requests] returns are for a continuous range of
    heights, at most as many as asked for, none of them above the minimum
    common ancestor of the peers, in the ledger or already requested; all have
    the hashes on which the peers' locators agree, and the same number of peers
    to ask, which is between 1 and [EXTRA_REDUNDANCY_FACTOR]. *)
Theorem construct_requests_spec L s ps sync_height m max_blocks :
  chain_wf L -> 0 <= sync_height -> 0 <= max_blocks ->
  Z.max (latest_block_height L) sync_height + Z.of_nat (size (requests s)) + max_blocks + 2 < u32_max ->
  m < u32_max ->
  let reqs := construct_requests L s ps sync_height m max_blocks in
  (exists a, reqs.*1 = seqZ a (len reqs) /\ sync_height < a) /\ len reqs <= max_blocks /\
  (forall h hs k, (h, (hs, k)) ∈ reqs ->
     h <= m /\ latest_block_height L < h /\ requests s !! h = None /\
     hs = (construct_request h ps).1.1 /\ 1 <= k <= EXTRA_REDUNDANCY_FACTOR) /\
  (forall r1 r2, r1 ∈ reqs -> r2 ∈ reqs -> r1.2.2 = r2.2.2).
Proof.
  intros HL Hsh Hmax Hbound Hm reqs. pose proof (cw_latest _ HL) as Hlh.
  assert (reqs = [] \/ exists a n rh k, 0 <= n <= max_blocks /\ sync_height < a /\ a + n <= m + 1 /\
    requests_loop L s ps (seqZ a n) [] 1 = (rh, k) /\ reqs = (fun p => (p.1, (p.2, k))) <$> rh) as Hcases.
  { subst reqs. unfold construct_requests. rewrite u32_wrap_id by mlia.
    pose proof (skip_requested_spec (requests s) (Z.max (latest_block_height L) (sync_height + 1))
      ltac:(mlia) ltac:(lia)) as (Hr & _ & _).
    set (a := skip_requested _ _ _) in *. case_decide; [by left|]. right.
    rewrite !u32_wrap_id by mlia.
    destruct (requests_loop _ _ _ _ _ _) as [rh k] eqn:E. exists a, (Z.min (m + 1) (a + max_blocks) - a), rh, k.
    split_and!; (done || lia). }
  destruct Hcases as [->|(a & n & rh & k & Hn & Ha & Hub & E & ->)].
  { split_and!; [|done|set_solver|set_solver]. exists (sync_height + 1). split; [done|lia]. }
  apply requests_loop_spec in E as (e & added & He & -> & Hlen & Hle & Hk & Hall); [|lia|done].
  cbn [app] in *. split_and!.
  - destruct (decide (added = [])) as [->|Hne].
    + exists (sync_height + 1). split; [done|lia].
    + exists (e - len added). rewrite <-list_fmap_compose, len_fmap. split; [done|].
      destruct added as [|[h' hs] added]; [done|]. unfold ends_at in He. cbn [fmap list_fmap fst] in He.
      rewrite seqZ_cons in He by (rewrite len_cons; pose proof (len_nonneg added); lia). injection He as Hh _.
      destruct (Hall h' hs) as [? _]; [left|]. lia.
  - rewrite len_fmap. lia.
  - intros h hs k' ([h' hs'] & [= -> -> ->] & Hin)%list_elem_of_fmap.
    destruct (Hall _ _ Hin) as (? & ? & Hc & ?). change EXTRA_REDUNDANCY_FACTOR with 3 in *.
    split_and!; try done; [lia| |lia..].
    apply Z.nle_gt. intros ?. apply not_true_iff_false in Hc. apply Hc, (cw_contains _ HL). lia.
  - intros r1 r2 (? & -> & _)%list_elem_of_fmap (? & -> & _)%list_elem_of_fmap. done.
Qed.

(** ** Asking for the next block *)

(** Locators that passed the checks of [BlockLocators::new]. *)
Definition valid_locators (l : BlockLocators) : Prop := exists last, last < u32_max /\ locators_at last l.

Lemma valid_height last l : locators_at last l -> latest_locator_height l = last.
Proof.
  intros [Hl Hr _ _ _ _]. unfold latest_locator_height. rewrite Hr. unfold recent_heights, heights_between.
  assert (0 <= last - Z.max 0 (last - (NUM_RECENT_BLOCKS - 1))) as Hd by (unfold NUM_RECENT_BLOCKS; lia).
  rewrite seqZ_app by lia. rewrite last_app, (seqZ_cons _ 1), (seqZ_nil _ (Z.pred 1)) by lia. cbn. lia.
Qed.

Lemma valid_nodup l : valid_locators l -> locators_nodup l.
Proof.
  intros (last & _ & [_ Hr Hc _ _ _]). split; [rewrite Hr|rewrite Hc];
    [apply NoDup_recent_heights|apply NoDup_checkpoint_heights].
Qed.

Definition agree (l1 l2 : BlockLocators) : Prop :=
  forall h x y, get_hash l1 h = Some x -> get_hash l2 h = Some y -> x = y.

Lemma agree_sym l1 l2 : agree l1 l2 -> agree l2 l1.
Proof. intros Ha h x y Hx Hy. symmetry. by eapply Ha. Qed.

Lemma agree_refl l : agree l l.
Proof. intros h x y Hx Hy. congruence. Qed.

(** A recent block of one node that is a checkpoint of another is also a
    checkpoint of the former. *)
Lemma recent_checkpoint a b l1 l2 h x y :
  locators_at a l1 -> locators_at b l2 -> imap_get h (recents l1) = Some x ->
  imap_get h (checkpoints l2) = Some y -> imap_get h (checkpoints l1) = Some x.
Proof.
  intros H1 H2 Hx Hy. assert (h ∈ (checkpoints l1).*1) as Hh.
  { rewrite (la_checkpoints _ _ H1). apply elem_of_checkpoint_heights; [apply (la_last _ _ H1)|].
    assert (h ∈ (recents l1).*1) as Hr by (apply imap_get_key; eauto).
    assert (h ∈ (checkpoints l2).*1) as Hc by (apply imap_get_key; eauto).
    rewrite (la_recents _ _ H1), elem_of_recent_heights in Hr by apply (la_last _ _ H1).
    rewrite (la_checkpoints _ _ H2), elem_of_checkpoint_heights in Hc by apply (la_last _ _ H2). tauto. }
  apply imap_get_key in Hh as [z Hz]. by rewrite (la_agree _ _ H1 h x z Hx Hz).
Qed.

(** Valid locators that are consistent agree on every height both have. *)
Lemma consistent_agree l1 l2 :
  valid_locators l1 -> valid_locators l2 -> is_consistent_with l1 l2 = true -> agree l1 l2.
Proof.
  intros (a & _ & H1) (b & _ & H2) Hc h x y.
  assert (ensure_is_consistent_with l1 l2 = Ok tt) as [Hr Hk]%consistent_Ok.
  { unfold is_consistent_with in Hc. by destruct (ensure_is_consistent_with l1 l2) as [[]| | |]. }
  unfold get_hash. destruct (imap_get h (recents l1)) as [r1|] eqn:E1, (imap_get h (recents l2)) as [r2|] eqn:E2.
  - intros [= <-] [= <-]. eapply Hr; [done|]. by apply imap_get_elem.
  - intros [= <-] Hy. eapply Hk; [by eapply (recent_checkpoint a b l1 l2)|]. by apply imap_get_elem.
  - intros Hx [= <-]. eapply Hk; [done|]. apply imap_get_elem. by eapply (recent_checkpoint b a l2 l1).
  - intros Hx Hy. eapply Hk; [done|]. by apply imap_get_elem.
Qed.

(** The hashes collected so far come from the locators [A]. *)
Definition acc_from (h : Z) (A : list BlockLocators) (a : req_acc) : Prop :=
  acc_honest a = true /\
  (forall x, acc_hash a = Some x -> exists l, l ∈ A /\ get_hash l h = Some x) /\
  (forall x, acc_previous a = Some x -> exists l, l ∈ A /\ get_hash l (saturating_sub h 1) = Some x).

Lemma see_hash_from h A l a :
  (forall l', l' ∈ A -> agree l' l) -> acc_from h A a ->
  exists a', see_hash (get_hash l h) a = Some a' /\ acc_from h (A ++ [l]) a'.
Proof.
  intros Hag (Hh & Hx & Hp). unfold see_hash.
  assert (forall x, acc_previous a = Some x -> exists l', l' ∈ A ++ [l] /\ get_hash l' (saturating_sub h 1) = Some x) as Hp'
    by (intros x Hx'; destruct (Hp x Hx') as (l' & ? & ?); exists l'; set_solver).
  destruct (get_hash l h) as [c|] eqn:Hc; [destruct (acc_hash a) as [y|] eqn:Hy|].
  - destruct (Hx y eq_refl) as (l' & Hl' & Hl''). rewrite decide_True by (by eapply Hag).
    eexists. split; [done|]. split_and!; [done| |done]. intros x [= <-]. exists l'. set_solver.
  - eexists. split; [done|]. split_and!; [done| |done]. intros x [= <-]. exists l. set_solver.
  - eexists. split; [done|]. split_and!; [done| |done]. intros x Hx'. destruct (Hx x Hx') as (l' & ? & ?). exists l'. set_solver.
Qed.

Lemma see_previous_from h A l a :
  l ∈ A -> (forall l', l' ∈ A -> agree l' l) -> acc_from h A a ->
  exists a', see_previous (get_hash l (saturating_sub h 1)) a = Some a' /\ acc_from h A a'.
Proof.
  intros Hl Hag (Hh & Hx & Hp). unfold see_previous.
  destruct (get_hash l _) as [c|] eqn:Hc; [destruct (acc_previous a) as [y|] eqn:Hy|].
  - destruct (Hp y eq_refl) as (l' & Hl' & Hl''). rewrite decide_True by (by eapply Hag).
    eexists. split; [done|]. split_and!; [done..|]. rewrite Hy. eauto.
  - eexists. split; [done|]. split_and!; [done..|]. intros x [= <-]. eauto.
  - eexists. split; [done|]. split_and!; done.
Qed.

Lemma request_loop_honest h A ls a :
  (forall l1 l2, l1 ∈ A ++ ls -> l2 ∈ A ++ ls -> agree l1 l2) ->
  acc_from h A a -> acc_honest (request_loop h ls a) = true.
Proof.
  revert A a. induction ls as [|l ls IH]; intros A a Hag Ha; cbn; [by destruct Ha|].
  destruct (see_hash_from h A l a) as (a1 & -> & H1); [intros; apply Hag; set_solver|done|]. cbn.
  destruct (see_previous_from h (A ++ [l]) l a1) as (a2 & -> & H2);
    [set_solver|intros; apply Hag; set_solver|done|].
  apply (IH (A ++ [l])); [|done]. intros. apply Hag; set_solver.
Qed.

Lemma construct_request_honest h ps :
  (forall p q, p ∈ ps -> q ∈ ps -> agree p.2 q.2) -> (construct_request h ps).2 = true.
Proof.
  intros Hag. unfold construct_request. cbn. apply (request_loop_honest h []); [|done].
  cbn. intros l1 l2 (p & -> & Hp)%list_elem_of_fmap (q & -> & Hq)%list_elem_of_fmap. by apply Hag.
Qed.

Lemma same_peer (ps : list (SocketAddr * BlockLocators)) p q :
  NoDup ps.*1 -> p ∈ ps -> q ∈ ps -> p.1 = q.1 -> p = q.
Proof.
  destruct p as [ip lp], q as [iq lq]. cbn. intros Hnd Hp Hq <-. f_equal.
  assert (imap_get ip ps = Some lp /\ imap_get ip ps = Some lq) as [??]; [|congruence].
  by rewrite !imap_get_NoDup.
Qed.

(** Fewer peers than the dishonest case asks for are a leader and at most one
    other, which agree: the dishonest case needs three peers. *)
Lemma small_group_agree s lh m leader ps :
  sync_group s lh m leader ps -> NoDup ps.*1 -> (forall p, p ∈ ps -> valid_locators p.2) ->
  len ps < EXTRA_REDUNDANCY_FACTOR -> forall p q, p ∈ ps -> q ∈ ps -> agree p.2 q.2.
Proof.
  intros Hg Hnd Hv Hlen.
  assert (forall p, p ∈ ps -> agree leader.2 p.2) as Hl.
  { intros p Hp. destruct (sg_members _ _ _ _ _ Hg p Hp) as [->|(a & _ & _ & _ & Hc)]; [apply agree_refl|].
    apply consistent_agree; auto. apply Hv, (sg_leader _ _ _ _ _ Hg). }
  intros p q Hp Hq. pose proof (sg_leader _ _ _ _ _ Hg) as Hld.
  destruct (decide (p.1 = q.1)) as [Heq|Hne].
  { rewrite (same_peer ps p q) by done. apply agree_refl. }
  destruct (decide (p.1 = leader.1)) as [Hpl|Hpl]; [|destruct (decide (q.1 = leader.1)) as [Hql|Hql]].
  - rewrite (same_peer ps p leader) by done. by apply Hl.
  - rewrite (same_peer ps q leader) by done. by apply agree_sym, Hl.
  - exfalso. assert (len [leader.1; p.1; q.1] <= len ps.*1) as H3.
    { unfold len. apply inj_le, submseteq_length, NoDup_submseteq.
      - repeat (apply NoDup_cons; split; [set_solver|]). constructor.
      - intros x Hx. apply list_elem_of_fmap. set_solver. }
    rewrite len_fmap in H3. change (len [leader.1; p.1; q.1]) with 3 in H3.
    change EXTRA_REDUNDANCY_FACTOR with 3 in Hlen. lia.
Qed.

(** With a peer above the given height, which is not below the ledger, peers to
    sync from are always found. *)
Lemma find_sync_peers_total L o s cur ip l :
  oracle_wf o -> latest_block_height L <= cur -> locators s !! ip = Some l -> cur < latest_locator_height l ->
  exists ps m, find_sync_peers_inner L o s cur = Some (ps, m).
Proof.
  intros Ho Hcur Hl Hh. unfold find_sync_peers_inner.
  assert (candidate_locators s o cur <> []) as Hne.
  { assert ((ip, l) ∈ merge_sort higher (base.filter (fun p => cur < latest_locator_height p.2) (iter_map o (locators s)))) as Hin.
    { rewrite merge_sort_elem, list_elem_of_filter, (ow_iter_map _ Ho), elem_of_map_to_list. done. }
    unfold candidate_locators. destruct (merge_sort _ _); [set_solver|done]. }
  rewrite decide_False by done.
  destruct (candidate_locators s o cur) as [|p cs] eqn:Ec; [done|]. cbn [try_candidates].
  destruct (add_consistent _ _ _ _ _ _) as [m ps] eqn:Ea.
  apply add_consistent_spec in Ea as (_ & Hlh & added & -> & _ & _).
  assert (cur < latest_locator_height p.2) as Hp.
  { destruct p as [x lx]. apply (candidates_elem s o cur x lx Ho). rewrite Ec. left. }
  rewrite decide_True; [eauto|]. split; [apply Hlh; lia|].
  rewrite len_app. unfold REDUNDANCY_FACTOR. change (len [p]) with 1. pose proof (len_nonneg added). lia.
Qed.

Lemma skip_requested_here fuel (m : gmap Z OutstandingRequest) a : m !! a = None -> skip_requested fuel m a = a.
Proof. intros Ha. destruct fuel; cbn; [done|]. rewrite decide_False; [done|]. rewrite Ha. by intros [??]. Qed.

(** The first height of the requests for such peers is the next one. *)
Lemma construct_requests_head L o s ps m max_blocks :
  oracle_wf o -> chain_wf L -> (forall ip l, locators s !! ip = Some l -> valid_locators l) ->
  find_sync_peers_inner L o s (latest_block_height L) = Some (ps, m) ->
  requests s !! (latest_block_height L + 1) = None ->
  0 < max_blocks -> latest_block_height L + max_blocks + 2 < u32_max ->
  exists hs n tl, construct_requests L s ps (latest_block_height L) m max_blocks
    = (latest_block_height L + 1, (hs, n)) :: tl.
Proof.
  intros Ho HL Hv Hf Hreq Hmax Hb. pose proof (cw_latest _ HL) as Hlh. set (lh := latest_block_height L) in *.
  destruct (find_sync_peers_group L o s lh ps m Ho Hf) as (Hnd & (leader & Hg) & Hps).
  assert (forall p, p ∈ ps -> valid_locators p.2) as Hvp.
  { intros [ip l] Hin. eapply Hv. by apply Hps. }
  assert (m < u32_max) as Hm.
  { destruct (Hvp leader (sg_leader _ _ _ _ _ Hg)) as (last & Hlt & Hat). pose proof (sg_min _ _ _ _ _ Hg).
    rewrite (valid_height last) in H by done. lia. }
  pose proof (sg_ledger _ _ _ _ _ Hg) as Hlm. fold lh in Hlm.
  unfold construct_requests. fold lh. rewrite u32_wrap_id by mlia. replace (Z.max lh (lh + 1)) with (lh + 1) by lia.
  rewrite skip_requested_here by done. rewrite decide_False by lia. rewrite !u32_wrap_id by mlia.
  set (n := Z.min _ _ - _). rewrite (seqZ_cons _ n) by lia. cbn [requests_loop].
  assert (is_ok (check_block_request L s (lh + 1)) = true) as ->.
  { apply check_block_request_false. split; [|done]. apply not_true_iff_false. rewrite (cw_contains _ HL). lia. }
  cbn [negb]. destruct (construct_request (lh + 1) ps) as [[hs num] honest] eqn:Hcr.
  assert (negb honest && bool_decide (len ps < num) = false) as ->.
  { case_bool_decide as Hlen; [|by rewrite andb_false_r].
    pose proof (construct_request_ips (lh + 1) ps) as Hi. rewrite Hcr in Hi. cbn in Hi.
    pose proof (construct_request_honest (lh + 1) ps) as Hh. rewrite Hcr in Hh. cbn in Hh.
    rewrite Hh; [done|]. eapply small_group_agree; [done..|lia]. }
  destruct (requests_loop _ _ _ _ _ _) as [rh k] eqn:E.
  replace (Z.succ (lh + 1)) with (lh + 1 + 1) in E by lia.
  apply requests_loop_spec in E as (e & added & _ & -> & _); [|lia|by apply (ends_at_snoc (lh + 1) [])].
  cbn. eauto.
Qed.

(** Requests that are in progress stay as they are. *)
Definition requests_kept (s s' : BlockSync) : Prop :=
  forall h e, requests s !! h = Some e -> requests s' !! h = Some e.

#[local] Instance requests_kept_preorder : PreOrder requests_kept.
Proof. split; [by intros s h e|]. intros s1 s2 s3 H1 H2 h e ?. by apply H2, H1. Qed.

Lemma insert_requests_kept L now ips reqs : keeps requests_kept (insert_requests L now ips reqs).
Proof.
  apply keeps_fold; [apply _|]. intros _ [h [hs n]] _ s. unfold insert_block_request, sbind, sget, slift.
  destruct (check_block_request L s h) as [[]|?|?|] eqn:Hc; try done.
  destruct (ensure _ _); try done. intros h' e He. cbn. rewrite lookup_insert.
  case_decide; [subst h'|done]. apply check_block_request_Ok in Hc as [_ Hc]. congruence.
Qed.

Lemma begin_send_kept L o now ps reqs s : requests_kept s (begin_send L o now ps reqs s).2.
Proof.
  unfold begin_send. destruct (head reqs) as [[h [hs n]]|]; [|by intros ??].
  destruct (forallb _ _); [|by intros ??].
  pose proof (insert_requests_kept L now (sample o n ps.*1) reqs s) as H.
  destruct (insert_requests _ _ _ _ _) as [[]?]; done.
Qed.

(** When every message is sent, no request is removed. *)
Lemma send_kept L o now ps reqs s :
  requests_kept s (send_block_requests L o (fun _ => true) now ps reqs s).2.
Proof.
  unfold send_block_requests. pose proof (begin_send_kept L o now ps reqs s) as H.
  destruct (begin_send _ _ _ _ _ _) as [[[[ips a] b]|] s1]; [|done]. unfold end_send.
  assert (forallb (fun _ : SocketAddr => true) ips = true) as -> by (clear; by induction ips). done.
Qed.

Lemma send_chunks_kept L o now ps cs s :
  requests_kept s (send_chunks L o (fun _ => true) now ps cs s).
Proof.
  revert s. induction cs as [|reqs cs IH]; intros s; cbn; [done|].
  pose proof (send_kept L o now ps reqs s) as H.
  destruct (send_block_requests _ _ _ _ _ _ _) as [[] s1]; [|done]. etrans; [exact H|apply IH].
Qed.

(** A batch whose first height is free and whose peers are connected puts a
    request for that height to at least one peer. *)
Lemma begin_send_head L o now ps h hs n tl s :
  oracle_wf o -> ps <> [] -> 1 <= n -> (forall ip l, (ip, l) ∈ ps -> is_Some (locators s !! ip)) ->
  contains_block_height L h = false -> requests s !! h = None ->
  exists e, requests (begin_send L o now ps ((h, (hs, n)) :: tl) s).2 !! h = Some e /\
    sync_ips e <> [] /\ request_hashes e = hs /\ response e = None.
Proof.
  intros Ho Hps Hn Hc Hl Hr. unfold begin_send. cbn [head].
  set (ips := sample o n ps.*1).
  destruct (ow_sample _ Ho n ps.*1) as (Hsub & _ & Hlen). fold ips in Hsub, Hlen.
  assert (ips <> []) as Hne.
  { intros E. rewrite E in Hlen. rewrite len_fmap in Hlen. destruct ps; [done|]. rewrite len_cons in Hlen.
    pose proof (len_nonneg ps). change (len []) with 0 in Hlen. lia. }
  assert (forallb (fun ip => bool_decide (is_Some (locators s !! ip))) ips = true) as ->.
  { apply forallb_forall. intros ip Hip%list_elem_of_In. apply bool_decide_eq_true.
    apply Hsub, list_elem_of_fmap in Hip as ([x l] & -> & Hin). by eapply Hc. }
  assert (exists s1, insert_block_request L now h hs ips s = (Ok tt, s1) /\
    requests s1 !! h = Some (mk_request hs ips now None)) as (s1 & E1 & H1).
  { unfold insert_block_request, sbind, sget, slift. rewrite (proj2 (check_block_request_Ok L s h tt)) by done.
    rewrite bool_decide_eq_false_2 by done. cbn. eexists. split; [done|]. cbn. by rewrite lookup_insert_eq. }
  unfold insert_requests. cbn [sfold]. unfold sbind at 1. rewrite E1.
  pose proof (insert_requests_kept L now ips tl s1 h _ H1) as H2. unfold insert_requests in H2.
  exists (mk_request hs ips now None). split; [|done].
  destruct (sfold _ _ _ _) as [[]?]; done.
Qed.

Lemma prepared_ips L s ps sh m mb h hs n tl :
  construct_requests L s ps sh m mb = (h, (hs, n)) :: tl -> 1 <= n.
Proof.
  unfold construct_requests. case_decide; [done|].
  match goal with |- context [requests_loop L s ps ?hs [] 1] => generalize hs end. intros hl.
  assert (forall hl acc k rh k', 1 <= k -> requests_loop L s ps hl acc k = (rh, k') -> 1 <= k') as Hk.
  { clear. induction hl as [|h hl IH]; intros acc k rh k' Hk; cbn; [by intros [= _ <-]|].
    destruct (construct_request h ps) as [[hs num] honest]. repeat case_match; try (by intros [= _ <-]); apply IH; lia. }
  destruct (requests_loop L s ps hl [] 1) as [rh k] eqn:E. apply Hk in E; [|lia].
  destruct rh; [done|]. cbn. by intros [= _ _ <- _].
Qed.

(** Nothing times out when nothing was requested. *)
Lemma timeouts_idle L o now s :
  oracle_wf o -> requests s = ∅ -> failed_requests s = ∅ -> handle_block_request_timeouts L o now s = s.
Proof.
  intros Ho Hr Hf. unfold handle_block_request_timeouts, retain_live, mark_failed. rewrite Hr.
  replace (iter_set o _) with (@nil SocketAddr).
  - destruct s. cbn in *. by rewrite Hr, Hf.
  - symmetry. apply Permutation_nil_r. rewrite (ow_iter_set _ Ho). done.
Qed.

Lemma max_peer_height_elem s g :
  max_peer_height s = Some g -> exists ip l, locators s !! ip = Some l /\ latest_locator_height l = g.
Proof.
  assert (forall l x, foldl Z.max x l ∈ x :: l) as Hfold.
  { clear. induction l as [|y l IH]; intros x; cbn; [left|]. specialize (IH (Z.max x y)).
    apply elem_of_cons in IH as [->|?]; [|set_solver]. destruct (Z.max_spec x y) as [[_ ->]|[_ ->]]; set_solver. }
  unfold max_peer_height, list_max. destruct (_ <$> _) as [|x hs] eqn:E; [done|]. intros [= <-].
  pose proof (Hfold hs x) as Hin. rewrite <-E in Hin. apply list_elem_of_fmap in Hin as (l & -> & Hin).
  apply list_elem_of_fmap in Hin as ([ip l'] & -> & Hin). apply elem_of_map_to_list in Hin. eauto.
Qed.

(** The single batch of a node with nothing requested or failed. *)
Lemma prepare_idle L o s ps m :
  requests s = ∅ -> failed_requests s = ∅ ->
  find_sync_peers_inner L o s (sync_height (sync_state s)) = Some (ps, m) ->
  prepare_block_requests L o s =
  ([(construct_requests L s ps (sync_height (sync_state s)) m max_outstanding_block_requests, ps)], s).
Proof.
  intros Hr Hf Hfind. unfold prepare_block_requests. rewrite Hf. cbn [drop_obsolete btree_iter].
  replace (set_failed_requests (list_to_map (drop_obsolete _ _)) s) with s.
  2: { destruct s. cbn in *. by rewrite Hf. }
  cbn. unfold num_outstanding_block_requests, num_total_block_requests. rewrite Hr.
  change (max_total_requests <= Z.of_nat (size ∅)) with (1000 <= 0).
  rewrite decide_False by lia. change (saturating_sub _ _) with 250.
  rewrite decide_False by lia. rewrite Hfind. done.
Qed.

(** An idle node that is behind asks for its next block.  Take a reachable
    state with nothing requested or failed, a ledger the node is synced to, and
    valid locators of the peers, one of which is more than one block ahead.
    Then [try_issuing_block_requests], when its messages can be sent, leaves a
    request for the next height in progress, put to at least one connected
    peer, also if other peers are dishonest. *)
Theorem idle_node_requests_next L o now s g :
  oracle_wf o -> chain_wf L -> sync_reachable s ->
  (forall ip l, locators s !! ip = Some l -> valid_locators l) ->
  requests s = ∅ -> failed_requests s = ∅ ->
  sync_height (sync_state s) = latest_block_height L ->
  max_peer_height s = Some g -> latest_block_height L + MAX_BLOCKS_BEHIND < g ->
  latest_block_height L + 252 < u32_max ->
  let s' := try_issuing_block_requests L o (fun _ => true) now s in
  exists e, requests s' !! (latest_block_height L + 1) = Some e /\ sync_ips e <> [] /\
    forall ip, ip ∈ sync_ips e -> is_Some (locators s' !! ip).
Proof.
  intros Ho HL Hreach Hv Hreq Hfail Hsync Hg Hbehind Hb s'. pose proof (reachable_sync_inv s Hreach) as Hinv.
  set (lh := latest_block_height L) in *.
  assert (exists e, requests s' !! (lh + 1) = Some e /\ sync_ips e <> []) as (e & He & Hne).
  2: { exists e. split_and!; [done|done|]. apply (eo_connected _ _ _ (si_requests s' ltac:(
         eapply reachable_sync_inv; destruct Hreach as (L0 & now0 & Hr); exists L0, now0;
         etrans; [exact Hr|]; by apply try_issuing_steps) _ _ He)). }
  subst s'. unfold try_issuing_block_requests. rewrite timeouts_idle by done.
  assert (is_block_synced (sync_state s) = false) as ->.
  { apply not_true_iff_false. rewrite (tracked_synced _ g); [lia|apply (si_tracked _ Hinv)|].
    by rewrite (si_greatest _ Hinv). }
  assert (can_issue_new_block_requests (sync_state s) = true) as ->.
  { unfold can_issue_new_block_requests, num_blocks_behind. rewrite (si_greatest _ Hinv), Hg. cbn.
    apply bool_decide_eq_true. rewrite Hsync. unfold saturating_sub, MAX_BLOCKS_BEHIND in *. lia. }
  cbn [negb andb]. destruct (max_peer_height_elem s g Hg) as (ip & l & Hl & Hlg).
  destruct (find_sync_peers_total L o s lh ip l) as (ps & m & Hfind); [done|lia|done|unfold MAX_BLOCKS_BEHIND in *; lia|].
  rewrite (prepare_idle L o s ps m) by (done || by rewrite Hsync). cbn [foldl]. rewrite Hsync.
  destruct (find_sync_peers_group L o s lh ps m Ho Hfind) as (Hnd & (leader & Hgr) & Hps).
  destruct (construct_requests_head L o s ps m max_outstanding_block_requests) as (hs & n & tl & Hcr);
    [done|done|done|done|by rewrite Hreq|done|fold lh; change max_outstanding_block_requests with 250; lia|].
  fold lh in Hcr. rewrite Hcr. unfold chunks. cbn [length chunks_fuel Z.to_nat take drop].
  change (take (Z.to_nat MAXIMUM_NUMBER_OF_BLOCKS) ((lh + 1, (hs, n)) :: tl)) with ((lh + 1, (hs, n)) :: take 4 tl).
  generalize (chunks_fuel (length tl) (Z.to_nat MAXIMUM_NUMBER_OF_BLOCKS)
    (drop (Z.to_nat MAXIMUM_NUMBER_OF_BLOCKS) ((lh + 1, (hs, n)) :: tl))). intros cs. cbn [send_chunks].
  destruct (begin_send_head L o now ps (lh + 1) hs n (take 4 tl) s) as (e & He & Hne & _); [done| | | | | |].
  - intros ->. pose proof (sg_leader _ _ _ _ _ Hgr). set_solver.
  - by eapply prepared_ips.
  - intros x lx Hx. destruct (Hps x lx Hx) as [-> _]. eauto.
  - apply not_true_iff_false. rewrite (cw_contains _ HL). lia.
  - by rewrite Hreq.
  - exists e. split; [|done].
    assert (requests (send_block_requests L o (fun _ => true) now ps ((lh + 1, (hs, n)) :: take 4 tl) s).2
              !! (lh + 1) = Some e) as Hs.
    { unfold send_block_requests. destruct (begin_send _ _ _ _ _ _) as [[[[ips a] b]|] s1]; [|done].
      unfold end_send. assert (forallb (fun _ : SocketAddr => true) ips = true) as -> by (clear; by induction ips). done. }
    destruct (send_block_requests _ _ _ _ _ _ _) as [[] s1]; [|done]. by apply send_chunks_kept.
Qed.

(** ** No request is lost *)

(** A height that is requested, or will be requested again. *)
Definition pending (s : BlockSync) (h : Z) : Prop :=
  is_Some (requests s !! h) \/ is_Some (failed_requests s !! h).

Lemma union_l {A} (m1 m2 : gmap Z A) h : is_Some (m1 !! h) -> is_Some ((m1 ∪ m2) !! h).
Proof. intros [x Hx]. exists x. by apply lookup_union_Some_l. Qed.
Lemma union_r {A} (m1 m2 : gmap Z A) h : is_Some (m2 !! h) -> is_Some ((m1 ∪ m2) !! h).
Proof. rewrite lookup_union. destruct (m1 !! h), (m2 !! h); cbn; eauto. Qed.

Lemma pending_remove_requests ip s h : pending s h -> pending (remove_block_requests_to_peer ip s) h.
Proof.
  unfold pending, remove_block_requests_to_peer. cbn. intros [[e He]|Hf]; [|right; by apply union_r].
  destruct (retain_without ip e) eqn:Hr.
  - left. rewrite lookup_omap, He. cbn. rewrite Hr. eauto.
  - right. apply union_l. rewrite lookup_omap, He. cbn. rewrite Hr. eauto.
Qed.

Lemma pending_remove_peer now ip s h : pending s h -> pending (remove_peer now ip s) h.
Proof.
  intros Hp. unfold remove_peer. set (s1 := remove_block_requests_to_peer ip _).
  assert (pending s1 h) as H1 by (apply pending_remove_requests; exact Hp).
  unfold refresh_peer_height, set_peer_height. destruct (max_peer_height s1); destruct (is_block_synced _); exact H1.
Qed.

Lemma pending_timeouts L o now s h :
  latest_block_height L < h -> pending s h -> pending (handle_block_request_timeouts L o now s) h.
Proof.
  intros Hh Hp. unfold handle_block_request_timeouts, retain_live, mark_failed.
  match goal with |- pending (foldl _ ?s0 ?l) h => assert (pending s0 h) as H0; [|revert H0; generalize s0, l] end.
  - unfold pending. cbn. destruct Hp as [[e He]|Hf]; [|right; by apply union_r].
    destruct (is_timeout now e) eqn:Ht.
    + right. apply union_l. rewrite lookup_fmap. exists (request_hashes e).
      by rewrite (map_lookup_filter_Some_2 _ _ h e He Ht).
    + left. exists e. apply map_lookup_filter_Some. split_and!; [done|done|].
      apply bool_decide_eq_false. cbn. lia.
  - intros s0 l. revert s0. induction l as [|ip l IH]; intros s0 H0; cbn; [done|].
    by apply IH, pending_remove_peer.
Qed.

Lemma pending_responses L ip bs v s h : pending s h -> pending (insert_block_responses L ip bs v s).2 h.
Proof.
  intros Hp. unfold insert_block_responses. destruct (last bs); [|by apply pending_remove_requests].
  destruct (CONSENSUS_VERSION _); [done|].
  destruct (check_consensus_version _ _ _); [by apply pending_remove_requests|].
  assert (pending (insert_blocks L ip bs s).2 h) as Hi.
  { revert s Hp. induction bs as [|b' bs IH]; intros s Hp; cbn; [done|].
    destruct (insert_block_response_cases L ip b' s) as [[e ->]|(e & He & _ & _ & _ & _ & Hcases)]; [done|].
    assert (pending (insert_block_response L ip b' s).2 h) as H1.
    { destruct Hp as [Hp|Hp]; [left|right]; destruct Hcases as [(b2 & _ & _ & ->)|[_ ->]]; cbn; try done;
        rewrite lookup_insert; case_decide; eauto. }
    destruct (insert_block_response L ip b' s) as [[]?]; [done|by apply IH]. }
  destruct (insert_blocks L ip bs s) as [[]?]; [by apply pending_remove_requests|done].
Qed.

Lemma delete_foldl_lookup {A} (hs : list Z) (m : gmap Z A) h :
  is_Some (m !! h) -> h ∈ hs \/ is_Some (foldl (fun m h => delete h m) m hs !! h).
Proof.
  revert m. induction hs as [|k hs IH]; intros m Hm; cbn; [by right|].
  destruct (decide (k = h)) as [->|Hne]; [left; left|].
  destruct (IH (delete k m)) as [?|?]; [by rewrite lookup_delete_ne|left; by right|by right].
Qed.

Lemma reissue_pending L o s bs acc h :
  (exists b, b ∈ acc /\ h ∈ b.1.*1) \/ pending s h ->
  (exists b, b ∈ (reissue L o s bs acc).1 /\ h ∈ b.1.*1) \/ pending (reissue L o s bs acc).2 h.
Proof.
  revert s acc. induction bs as [|b bs IH]; intros s acc Hp; cbn; [done|].
  repeat case_match; simplify_eq; try done. apply IH.
  destruct Hp as [(b' & Hb & Hh)|[Hr|Hf]].
  - left. exists b'. set_solver.
  - right. by left.
  - match goal with |- context [construct_requests ?a ?b ?c ?d ?e ?f] => set (reqs := construct_requests a b c d e f) end.
    destruct (delete_foldl_lookup reqs.*1 (failed_requests s) h Hf) as [Hin|?]; [|right; by right].
    left. eexists. split; [apply elem_of_app; right; left|done].
Qed.

Lemma drop_obsolete_elem cur l p : p ∈ l -> cur < p.1 -> p ∈ drop_obsolete cur l.
Proof.
  induction l as [|q l IH]; cbn; [done|]. intros [->|Hp]%elem_of_cons Hlt.
  - rewrite decide_False by lia. left.
  - case_decide; [auto|by right].
Qed.

Lemma drop_obsolete_sublist cur l : drop_obsolete cur l `sublist_of` l.
Proof. induction l as [|q l IH]; cbn; [done|]. case_decide; [by constructor|done]. Qed.

Lemma pending_prepare L o s h :
  sync_height (sync_state s) < h -> pending s h ->
  (exists b, b ∈ (prepare_block_requests L o s).1 /\ h ∈ b.1.*1) \/ pending (prepare_block_requests L o s).2 h.
Proof.
  intros Hh Hp. unfold prepare_block_requests. set (failed := drop_obsolete _ _).
  assert (pending (set_failed_requests (list_to_map failed) s) h) as H1.
  { destruct Hp as [Hr|[x Hf]]; [by left|]. right. cbn. exists x. apply elem_of_list_to_map.
    - eapply sublist_NoDup; [apply (btree_iter_NoDup_keys (failed_requests s))|].
      apply fmap_sublist, drop_obsolete_sublist.
    - apply drop_obsolete_elem; [|done]. by apply elem_of_btree_iter. }
  case_match; [by apply reissue_pending; right|].
  repeat (case_match || case_decide); simplify_eq; by right.
Qed.

(** No block request is lost.  A height that is requested or marked as
    failed stays so when a peer is removed and when responses arrive, valid or
    not; when timeouts are handled, unless its block is in the ledger; and when
    requests are prepared, unless the node synced past it or it is part of a
    returned batch. *)
Theorem no_request_lost L o now ip bs v s h :
  pending s h ->
  pending (remove_peer now ip s) h /\
  pending (insert_block_responses L ip bs v s).2 h /\
  (latest_block_height L < h -> pending (handle_block_request_timeouts L o now s) h) /\
  (sync_height (sync_state s) < h ->
     (exists b, b ∈ (prepare_block_requests L o s).1 /\ h ∈ b.1.*1) \/
     pending (prepare_block_requests L o s).2 h).
Proof.
  intros Hp. split_and!; auto using pending_remove_peer, pending_responses, pending_timeouts, pending_prepare.
Qed.

(** ** Advancing the ledger *)

Section Advance.
Context {St : Type} (ops : LedgerOps St).

(** The ledger accepts the blocks [bs] one after the other. *)
Inductive accepts : St -> list Block -> St -> Prop :=
  | accepts_nil st : accepts st [] st
  | accepts_cons st b b' st1 bs st2 :
      begin_ledger_update ops st = None -> check_next_block ops st b = inr b' ->
      advance_to_next_block ops st b' = Ok st1 -> accepts st1 bs st2 -> accepts st (b :: bs) st2.

(** The responses from height [cur + 1] on begin with [bs]. *)
Definition responses_from (s : BlockSync) (cur : Z) (bs : list Block) : Prop :=
  forall i b, bs !! i = Some b ->
    peek_next_block s (cur + 1 + Z.of_nat i) = Some b /\ height b = cur + 1 + Z.of_nat i.

Lemma peek_requested s h b : peek_next_block s h = Some b -> is_Some (requests s !! h).
Proof. unfold peek_next_block. destruct (requests s !! h); [eauto|done]. Qed.

Lemma requests_remove_response h s : requests (remove_block_response h s) = delete h (requests s).
Proof.
  unfold remove_block_response. destruct (requests s !! h) eqn:E; cbn; [done|]. by rewrite delete_id.
Qed.

Lemma sync_state_remove_response h s : sync_state (remove_block_response h s) = sync_state s.
Proof. unfold remove_block_response. by destruct (requests s !! h). Qed.

Lemma peek_remove_response h k s :
  h <> k -> peek_next_block (remove_block_response h s) k = peek_next_block s k.
Proof. intros. unfold peek_next_block. by rewrite requests_remove_response, lookup_delete_ne. Qed.

(** The responses up to [h] are removed. *)
Definition processed (s : BlockSync) (cur n : Z) (s' : BlockSync) : Prop :=
  sync_state s' = sync_state s /\ failed_requests s' = failed_requests s /\
  forall k, requests s' !! k = if decide (cur < k <= cur + n) then None else requests s !! k.

(** The loop over blocks the ledger accepts. *)
Lemma advance_loop_accepts bs st st' cur s fuel :
  accepts st bs st' -> responses_from s cur bs -> 0 <= cur -> cur + len bs < u32_max ->
  exists s', processed s cur (len bs) s' /\
    advance_loop ops (length bs + fuel) cur st s = advance_loop ops fuel (cur + len bs) st' s'.
Proof.
  intros Hacc. revert cur s. induction Hacc as [st|st b b' st1 bs st2 Hb Hc Ha Hacc IH]; intros cur s Hrs Hcur Hbd.
  - exists s. change (len []) with 0. rewrite Z.add_0_r. split; [|done]. split_and!; try done.
    intros k. rewrite decide_False by lia. done.
  - rewrite len_cons in *. pose proof (len_nonneg bs).
    destruct (Hrs 0%nat b eq_refl) as [Hp Hh]. rewrite Z.add_0_r in Hp, Hh.
    cbn [length Nat.add advance_loop]. rewrite u32_wrap_id by mlia. rewrite Hp, decide_False by (by intros []).
    unfold try_advance. rewrite Hb, Hc, Ha.
    destruct (IH (cur + 1) (remove_block_response (cur + 1) s)) as (s' & (Hss & Hf & Hr) & ->); [|lia|lia|].
    + intros i x Hx. destruct (Hrs (S i) x Hx) as [Hpx Hhx]. rewrite peek_remove_response by lia.
      replace (cur + 1 + 1 + Z.of_nat i) with (cur + 1 + Z.of_nat (S i)) by lia. done.
    + exists s'. replace (cur + (1 + len bs)) with (cur + 1 + len bs) by lia. split; [|done]. split_and!.
      * by rewrite Hss, sync_state_remove_response.
      * rewrite Hf. unfold remove_block_response. by destruct (requests s !! (cur + 1)).
      * intros k. rewrite Hr, requests_remove_response, lookup_delete. repeat case_decide; (done || lia).
Qed.

(** There are no more responses in a row than requests. *)
Lemma responses_size s cur bs : responses_from s cur bs -> (length bs <= size (requests s))%nat.
Proof.
  intros Hrs. rewrite <-size_dom. change (size (dom (requests s))) with (length (elements (dom (requests s)))).
  replace (length bs) with (length (seqZ (cur + 1) (len bs))) by (rewrite length_seqZ; unfold len; lia).
  apply submseteq_length, NoDup_submseteq; [apply NoDup_seqZ|].
  intros k Hk%elem_of_seqZ. apply elem_of_elements, elem_of_dom. unfold len in Hk.
  destruct (lookup_lt_is_Some_2 bs (Z.to_nat (k - (cur + 1)))) as [b Hb]; [lia|].
  destruct (Hrs _ _ Hb) as [Hp _]. apply (peek_requested _ _ b). rewrite <-Hp. f_equal. lia.
Qed.

(** Complete responses advance the ledger.  If the responses from the next
    height on begin with the blocks [bs], the next one is missing, and the
    ledger accepts the blocks, then [try_advancing_block_synchronization] ends
    with the ledger after all of them, their requests removed, no other request
    changed, and the sync height raised to the last of them. *)
Theorem responses_advance bs now st st' s :
  let cur := latest_block_height (view ops st) in
  accepts st bs st' -> responses_from s cur bs ->
  peek_next_block s (cur + len bs + 1) = None ->
  0 <= cur -> cur + len bs < u32_max ->
  exists s', try_advancing_block_synchronization ops now st s = (Ok (bool_decide (bs <> [])), st', s') /\
    (forall k, requests s' !! k = if decide (cur < k <= cur + len bs) then None else requests s !! k) /\
    failed_requests s' = failed_requests s /\
    sync_height (sync_state s') =
      if decide (bs = []) then sync_height (sync_state s) else Z.max (sync_height (sync_state s)) (cur + len bs).
Proof.
  intros cur Hacc Hrs Hnext Hcur Hbd. pose proof (responses_size s cur bs Hrs) as Hsz.
  unfold try_advancing_block_synchronization. fold cur.
  replace (S (size (requests s))) with (length bs + S (size (requests s) - length bs))%nat by lia.
  destruct (advance_loop_accepts bs st st' cur s (S (size (requests s) - length bs)) Hacc Hrs Hcur Hbd)
    as (s' & (Hss & Hf & Hr) & ->).
  cbn [advance_loop]. rewrite u32_wrap_id by (pose proof (len_nonneg bs); mlia).
  assert (peek_next_block s' (cur + len bs + 1) = None) as ->.
  { unfold peek_next_block in *. rewrite Hr, decide_False by lia. done. }
  pose proof (len_nonneg bs). destruct (decide (bs = [])) as [->|Hne].
  - change (len []) with 0 in *. rewrite decide_False by lia. exists s'. split_and!; try done. by rewrite Hss.
  - assert (0 < len bs) by (destruct bs; [done|]; rewrite len_cons; pose proof (len_nonneg bs); lia).
    rewrite decide_True by lia. rewrite bool_decide_eq_true_2 by done. eexists. split; [done|].
    unfold BlockSync.set_sync_height, record_sync_height.
    assert (forall b x, requests (notify_synced b x) = requests x /\ failed_requests (notify_synced b x) = failed_requests x
      /\ sync_state (notify_synced b x) = sync_state x) as Hn by (by intros []).
    destruct (Hn (is_block_synced (SyncState.set_sync_height now (cur + len bs) (sync_state s')))
      (set_sync_state (SyncState.set_sync_height now (cur + len bs) (sync_state s')) s')) as (-> & -> & ->).
    split_and!; [done|done|]. cbn. by rewrite set_sync_height_max, Hss.
Qed.

(** [try_advancing_block_synchronization] returns.  For every state and
    every ledger whose own operations return, its loop ends: each iteration
    that goes on removes one of the finitely many requests. *)
Theorem try_advancing_returns now st s :
  (forall st b, advance_to_next_block ops st b <> Deadlock) ->
  (try_advancing_block_synchronization ops now st s).1.1 <> Deadlock.
Proof.
  intros Hops. unfold try_advancing_block_synchronization.
  assert (forall fuel cur st s, (size (requests s) < fuel)%nat -> (advance_loop ops fuel cur st s).1.1 <> Deadlock) as Hl.
  { clear st s. induction fuel as [|fuel IH]; intros cur st s Hf; [lia|]. cbn [advance_loop].
    destruct (peek_next_block _ _) as [b|] eqn:Hp; [|done]. case_decide; [done|].
    assert ((try_advance ops st b).1 <> Deadlock) as Ht.
    { unfold try_advance. specialize (Hops st). repeat case_match; try done. exfalso. by eapply Hops. }
    destruct (try_advance ops st b) as [[[? []]|?|?|] st1]; try done. apply IH.
    rewrite requests_remove_response. apply peek_requested in Hp. rewrite map_size_delete_Some by done.
    destruct Hp as [e He]. assert (size (requests s) <> 0%nat); [|lia].
    intros Hz%map_size_empty_inv. by rewrite Hz in He. }
  specialize (Hl (S (size (requests s))) (latest_block_height (view ops st)) st s ltac:(lia)).
  destruct (advance_loop _ _ _ _ _) as [[[]?]?]; try done. case_decide; done.
Qed.

(** A request that is answered: no peer is asked any more. *)
Definition answered (s : BlockSync) (h : Z) (b : Block) : Prop :=
  exists e, requests s !! h = Some e /\ sync_ips e = [] /\ response e = Some b.

Lemma peek_answered s h b : peek_next_block s h = Some b <-> answered s h b.
Proof.
  unfold peek_next_block, answered. destruct (requests s !! h) as [e|]; [|naive_solver].
  destruct (no_ips e) eqn:E; cbn.
  - apply no_ips_true in E. naive_solver.
  - apply not_true_iff_false in E. rewrite no_ips_true in E. naive_solver.
Qed.

Lemma answered_remove_requests ip s h b : answered s h b -> answered (remove_block_requests_to_peer ip s) h b.
Proof.
  intros (e & He & Hi & Hr). exists (drop_peer ip e). cbn. rewrite lookup_omap, He. cbn.
  unfold retain_without. rewrite bool_decide_eq_false_2 by (rewrite Hi; set_solver). cbn.
  rewrite Hi. done.
Qed.

Lemma answered_remove_peer now ip s h b : answered s h b -> answered (remove_peer now ip s) h b.
Proof.
  intros Ha. unfold remove_peer. set (s1 := remove_block_requests_to_peer ip _).
  assert (answered s1 h b) as H1 by (apply answered_remove_requests; exact Ha).
  unfold refresh_peer_height, set_peer_height. destruct (max_peer_height s1); destruct (is_block_synced _); exact H1.
Qed.

Lemma answered_timeouts L o now s h b :
  latest_block_height L < h -> answered s h b -> answered (handle_block_request_timeouts L o now s) h b.
Proof.
  intros Hh Ha. unfold handle_block_request_timeouts, retain_live, mark_failed.
  match goal with |- answered (foldl _ ?s0 ?l) h b => assert (answered s0 h b) as H0; [|revert H0; generalize s0, l] end.
  - destruct Ha as (e & He & Hi & Hr). exists e. split_and!; [|done..]. cbn. apply map_lookup_filter_Some.
    split_and!; [done| |apply bool_decide_eq_false; cbn; lia].
    unfold is_timeout. cbn. rewrite (proj2 (no_ips_true e) Hi), Hr. cbn. by rewrite andb_false_r.
  - intros s0 l. revert s0. induction l as [|ip l IH]; intros s0 H0; cbn; [done|].
    by apply IH, answered_remove_peer.
Qed.

Lemma answered_response L ip b' s h b :
  answered s h b -> answered (insert_block_response L ip b' s).2 h b.
Proof.
  intros Ha. destruct (insert_block_response_cases L ip b' s) as [[e ->]|(e & He & _ & _ & _ & Hip & Hcases)]; [done|].
  destruct Ha as (e' & He' & Hi & Hr). assert (height b' <> h) as Hne.
  { intros <-. assert (e = e') as -> by congruence. rewrite Hi in Hip. set_solver. }
  exists e'. destruct Hcases as [(b2 & _ & _ & ->)|[_ ->]]; cbn; by rewrite lookup_insert_ne.
Qed.

Lemma answered_responses L ip bs v s h b :
  answered s h b -> answered (insert_block_responses L ip bs v s).2 h b.
Proof.
  intros Ha. unfold insert_block_responses. destruct (last bs); [|by apply answered_remove_requests].
  destruct (CONSENSUS_VERSION _); [done|].
  destruct (check_consensus_version _ _ _); [by apply answered_remove_requests|].
  assert (answered (insert_blocks L ip bs s).2 h b) as Hi.
  { revert s Ha. induction bs as [|x bs IH]; intros s Ha; cbn; [done|].
    pose proof (answered_response L ip x s h b Ha) as H1.
    destruct (insert_block_response L ip x s) as [[]?]; [done|by apply IH]. }
  destruct (insert_blocks L ip bs s) as [[]?]; [by apply answered_remove_requests|done].
Qed.

(** A block the ledger rejects stays in the way.  If the ledger accepts the
    responses [bs] and then rejects the next one, the error is returned with
    the ledger after [bs], but the sync height as before, and with the rejected
    response still in place.  It is not replaced: it stays when its peer is
    removed, when other responses arrive, and when timeouts are handled. *)
Theorem rejected_block_stays bs b msg now st st' s :
  let cur := latest_block_height (view ops st) in
  let h := cur + len bs + 1 in
  accepts st bs st' -> responses_from s cur bs -> answered s h b -> height b = h ->
  begin_ledger_update ops st' = None -> check_next_block ops st' b = inl (OtherCheckError msg) ->
  0 <= cur -> h < u32_max ->
  exists s', try_advancing_block_synchronization ops now st s = (Err msg, st', s') /\
    sync_state s' = sync_state s /\ answered s' h b /\
    forall L o t ip ip' bs' v, latest_block_height L < h ->
      answered (handle_block_request_timeouts L o t
                  (insert_block_responses L ip' bs' v (remove_peer t ip s')).2) h b.
Proof.
  intros cur h Hacc Hrs Hans Hhb Hbeg Hchk Hcur Hbd. pose proof (responses_size s cur bs Hrs) as Hsz.
  pose proof (len_nonneg bs). unfold try_advancing_block_synchronization. fold cur.
  replace (S (size (requests s))) with (length bs + S (size (requests s) - length bs))%nat by lia.
  destruct (advance_loop_accepts bs st st' cur s (S (size (requests s) - length bs)) Hacc Hrs Hcur ltac:(lia))
    as (s' & (Hss & Hf & Hr) & ->).
  assert (answered s' h b) as Hans'.
  { destruct Hans as (e & He & ? & ?). exists e. rewrite Hr, decide_False by lia. done. }
  cbn [advance_loop]. rewrite u32_wrap_id by mlia. fold h.
  rewrite (proj2 (peek_answered s' h b) Hans'), decide_False by (by intros []).
  unfold try_advance. rewrite Hbeg, Hchk. exists s'. split_and!; try done.
  intros. apply answered_timeouts; [done|]. by apply answered_responses, answered_remove_peer.
Qed.

End Advance.
End SyncProgress.
End SyncProgress.

(** ** The sample node *)

Lemma construct_requests_spec_witness :
  let reqs := BlockSync.construct_requests (test_view 3) sync2 [(peer1, peer_locators 6)] 3 6 250 in
  reqs.*1 = [4; 5; 6] /\ len reqs <= 250 /\ forall r1 r2, r1 ∈ reqs -> r2 ∈ reqs -> r1.2.2 = r2.2.2.
Proof.
  intros reqs. split; [vm_refl|].
  destruct (SyncProgress.construct_requests_spec (test_view 3) sync2 [(peer1, peer_locators 6)] 3 6 250)
    as (_ & H1 & _ & H2); [apply test_view_wf; mlia|lia|lia|by vm_compute|by vm_compute|].
  exact (conj H1 H2).
Defined.

Lemma sync2_valid ip l : BlockSync.locators sync2 !! ip = Some l -> SyncProgress.valid_locators l.
Proof.
  intros [->|[->|H]%BlockSyncProps.locators_update]%BlockSyncProps.locators_update.
  - exists 5. split; [by vm_compute|]. apply peer_locators_at. lia.
  - exists 6. split; [by vm_compute|]. apply peer_locators_at. lia.
  - done.
Qed.

Lemma idle_node_requests_next_witness :
  exists e, BlockSync.requests sync3 !! 4 = Some e /\ BlockSync.sync_ips e <> [] /\
    forall ip, ip ∈ BlockSync.sync_ips e -> is_Some (BlockSync.locators sync3 !! ip).
Proof.
  apply (SyncProgress.idle_node_requests_next (test_view 3) test_oracle 1 sync2 6);
    [apply test_oracle_wf|apply test_view_wf; mlia|apply sync2_reachable|apply sync2_valid
    |vm_refl|vm_refl|vm_refl|vm_refl|by vm_compute|by vm_compute].
Defined.

Lemma no_request_lost_witness :
  SyncProgress.pending (BlockSync.remove_peer 7 peer1 sync3) 5.
Proof.
  apply (SyncProgress.no_request_lost (test_view 3) test_oracle 7 peer1 [] None sync3 5).
  left. assert (bool_decide (is_Some (BlockSync.requests sync3 !! 5)) = true) as H by vm_refl.
  exact (bool_decide_eq_true_1 _ H).
Defined.

Lemma sync4_responses : SyncProgress.responses_from sync4 3 [test_block 4; test_block 5].
Proof. intros [|[|i]] b [= <-]; split; vm_refl. Qed.

Lemma test_accepts : SyncProgress.accepts test_ops 3 [test_block 4; test_block 5] 5.
Proof.
  apply (SyncProgress.accepts_cons test_ops 3 _ (test_block 4) 4); [done|vm_refl|done|].
  apply (SyncProgress.accepts_cons test_ops 4 _ (test_block 5) 5); [done|vm_refl|done|].
  exact (SyncProgress.accepts_nil test_ops 5).
Qed.

Lemma responses_advance_witness :
  exists s', BlockSync.try_advancing_block_synchronization test_ops 9 3 sync4 = (Ok true, 5, s') /\
    SyncState.sync_height (BlockSync.sync_state s') = 5.
Proof.
  destruct (SyncProgress.responses_advance test_ops [test_block 4; test_block 5] 9 3 5 sync4)
    as (s' & H1 & _ & _ & H2).
  - apply test_accepts.
  - apply sync4_responses.
  - vm_refl.
  - by vm_compute.
  - by vm_compute.
  - exists s'. split; [exact H1|]. rewrite H2. vm_refl.
Defined.

Lemma try_advancing_returns_witness :
  (BlockSync.try_advancing_block_synchronization test_ops 9 3 sync4).1.1 <> Deadlock.
Proof. apply SyncProgress.try_advancing_returns. discriminate. Defined.

(** The peer answers with a block the ledger rejects. *)
Definition bad_block : Z * ascii * ascii := (6, sample_hash 77, sample_hash 5).
Definition sync5 : BlockSync.BlockSync (B := TestBlocks) :=
  BlockSync.set_requests (<[6 := BlockSync.mk_request (B := TestBlocks) (None, None) [] 1 (Some bad_block)]>
    (BlockSync.requests sync4)) sync4.

Lemma rejected_block_stays_witness :
  exists s', BlockSync.try_advancing_block_synchronization test_ops 9 3 sync5 = (Err "invalid block", 5, s') /\
    SyncProgress.answered s' 6 bad_block /\ BlockSync.sync_state s' = BlockSync.sync_state sync5.
Proof.
  destruct (SyncProgress.rejected_block_stays test_ops [test_block 4; test_block 5] bad_block "invalid block" 9 3 5 sync5)
    as (s' & H1 & H2 & H3 & _).
  - apply test_accepts.
  - intros [|[|i]] b [= <-]; split; vm_refl.
  - apply SyncProgress.peek_answered. vm_refl.
  - done.
  - done.
  - vm_refl.
  - by vm_compute.
  - by vm_compute.
  - exact (ex_intro _ s' (conj H1 (conj H3 H2))).
Defined.
