(* ===== verification/Worker.v ===== *)
(** * Workers

    [Worker<N>] (node/bft/src/worker.rs): the queue of verified transmissions
    and the requests for transmissions of other validators; the partition of
    transmissions over the workers (helpers/partition.rs); and the check of a
    received transmission by the ledger ([CoreLedgerService] in
    node/bft/ledger-service/src/ledger.rs).

    A worker owns its ready queue and its pending requests.  It shares the
    storage, the proposed batch and the ledger with the primary; these are
    arguments.  A handler that waits in the middle is split there: the checks of
    the ledger and the answers of peers are arguments of its second half.
    The request for a transmission is split at every lock it takes, and [Tasks]
    holds the tasks that are between two parts, so that [step] interleaves them.  The
    callbacks of pending requests are the [oneshot] senders, named by a type
    [C]. *)

From S2P Require Import Prelude Bytes Network Sockets Committee Narwhal Lru StorageService Ledger Storage StorageProps Proposal Ready Pending.

(** [MAX_WORKERS] (node/bft/src/lib.rs). *)
Definition MAX_WORKERS : Z := 1.

(** ** The partition of transmissions *)

Module Partition.
Section Partition.
Context `{N : Network} (sha256 : list Z -> list Z).

Definition double_sha256 (data : list Z) : list Z := sha256 (sha256 data).

(** [u128::from_le_bytes]. *)
Definition from_le_bytes (bytes : list Z) : Z := foldr (fun b acc => b + 256 * acc) 0 bytes.

Definition sha256d_to_u128 (data : list Z) : Z := from_le_bytes (take 16 (double_sha256 data)).

(** [assign_to_worker]. *)
Definition assign_to_worker (i : TransmissionID) (num_workers : Z) : result Z :=
  if decide (num_workers = 1) then Ok 0 else
  if decide (num_workers = 0) then Panic "attempt to calculate the remainder with a divisor of zero" else
  Ok (sha256d_to_u128 (write_transmission_id i) mod num_workers).

(** The loop of [assign_to_workers], with the state of every worker. *)
Fixpoint assign_loop {W} (op : W -> TransmissionID -> Transmission -> W)
    (ts : list (TransmissionID * Transmission)) (workers : list W) : result unit * list W :=
  match ts with
  | [] => (Ok tt, workers)
  | (i, t) :: ts =>
      match assign_to_worker i (len workers) with
      | Ok worker_id =>
          match workers !! Z.to_nat worker_id with
          | Some w => assign_loop op ts (<[Z.to_nat worker_id := op w i t]> workers)
          | None => (Err "Unable to find worker {worker_id}", workers)
          end
      | Err _ => (Err "Unable to assign transmission ID '{transmission_id}' to a worker", workers)
      | Panic e => (Panic e, workers)
      | Deadlock => (Deadlock, workers)
      end
  end.

(** [assign_to_workers]. *)
Definition assign_to_workers {W} (op : W -> TransmissionID -> Transmission -> W) (workers : list W)
    (ts : list (TransmissionID * Transmission)) : result unit * list W :=
  if decide (u8_max < len workers) then (Panic "Too many workers", workers)
  else assign_loop op ts workers.

(** The worker of a transmission. *)
Definition worker_of (num_workers : Z) (i : TransmissionID) : nat :=
  Z.to_nat (unwrap_or 0 (assign_to_worker i num_workers)).

Lemma assign_to_worker_Ok i n : 1 <= n -> exists k, assign_to_worker i n = Ok k /\ 0 <= k < n.
Proof.
  intros Hn. unfold assign_to_worker. case_decide as H1; [exists 0; split; [done|lia]|].
  rewrite decide_False by lia. eexists. split; [done|]. apply Z.mod_pos_bound. lia.
Qed.

(** The transmissions of worker [k], in order. *)
Definition share (n : Z) (k : nat) (ts : list (TransmissionID * Transmission)) : list (TransmissionID * Transmission) :=
  base.filter (fun p => worker_of n p.1 = k) ts.

Lemma assign_loop_Ok {W} (op : W -> TransmissionID -> Transmission -> W) ts ws :
  1 <= len ws ->
  exists ws', assign_loop op ts ws = (Ok tt, ws') /\ length ws' = length ws /\
    forall k w, ws !! k = Some w -> ws' !! k = Some (foldl (fun w p => op w p.1 p.2) w (share (len ws) k ts)).
Proof.
  revert ws. induction ts as [|[i t] ts IH]; intros ws Hlen; [exists ws; done|]. cbn [assign_loop].
  destruct (assign_to_worker_Ok i (len ws) ltac:(lia)) as (k & Hk & Hr). rewrite Hk.
  destruct (lookup_lt_is_Some_2 ws (Z.to_nat k)) as [w Hwk]; [unfold len in *; lia|]. rewrite Hwk.
  assert (len (<[Z.to_nat k := op w i t]> ws) = len ws) as Hl by (unfold len; by rewrite length_insert).
  destruct (IH (<[Z.to_nat k := op w i t]> ws)) as (ws' & E & Hl' & Hall); [lia|].
  exists ws'. split; [exact E|]. rewrite length_insert in Hl'. split; [done|].
  assert (worker_of (len ws) i = Z.to_nat k) as Hwi by (unfold worker_of; by rewrite Hk).
  rewrite Hl in Hall. intros k' w' Hw'. unfold share. rewrite filter_cons. cbn [fst]. rewrite Hwi.
  destruct (decide (Z.to_nat k = k')) as [<-|Hne]; cbn [foldl fst snd].
  - assert (w' = w) as -> by congruence. apply Hall. apply list_lookup_insert_eq. by eapply lookup_lt_Some.
  - apply Hall. by rewrite list_lookup_insert_ne.
Qed.

(** Transmissions are partitioned over the workers.  With between 1 and 255
    workers the assignment succeeds, every transmission goes to exactly one
    worker, which depends only on its ID, and every worker receives its
    transmissions in their order. *)
Theorem partition_spec {W} (op : W -> TransmissionID -> Transmission -> W) workers ts :
  1 <= len workers <= u8_max ->
  exists workers', assign_to_workers op workers ts = (Ok tt, workers') /\ length workers' = length workers /\
    (forall k w, workers !! k = Some w ->
       workers' !! k = Some (foldl (fun w p => op w p.1 p.2) w (share (len workers) k ts))) /\
    (forall i, (worker_of (len workers) i < length workers)%nat).
Proof.
  intros Hw. unfold assign_to_workers. rewrite decide_False by lia.
  destruct (assign_loop_Ok op ts workers) as (ws' & E & Hl & Hall); [lia|]. exists ws'. split_and!; try done.
  intros i. unfold worker_of. destruct (assign_to_worker_Ok i (len workers)) as (k & -> & Hk); [lia|].
  cbn. unfold len in Hk. lia.
Qed.

End Partition.
End Partition.

(** ** The worker *)

(** The parts of transactions and solutions that the checks look at
    (snarkVM/ledger/block and snarkVM/ledger/puzzle), and the checks of the
    ledger that verify proofs. *)
Class TransmissionOps `{N : Network} := {
  transaction_id : Transaction -> TransactionID;
  is_fee : Transaction -> bool;
  is_execute : Transaction -> bool;
  solution_id : Solution -> SolutionID;
  (** [Transaction::read_le] and [Data::<Solution>::deserialize_blocking] of a buffer. *)
  read_transaction : list Z -> result Transaction;
  read_solution : list Z -> result Solution;
  LATEST_MAX_TRANSACTION_SIZE : Z;
}.

Module Worker.
Section Worker.
Context `{N : Network} {TO : TransmissionOps}.
Context {Svc : Type} `{!StorageServiceOps Svc}.
Context {Cache : Type} `{!LruOps Cache Field BatchCertificate}.
Context {C : Type}.

(** [CoreLedgerService::ensure_transmission_is_well_formed], with the
    transmission it leaves behind. *)
Definition ensure_transmission_is_well_formed (i : TransmissionID) (t : Transmission) : result Transmission :=
  match i, t with
  | IdRatification, Ratification => Err "Ratification transmissions are currently not supported."
  | IdTransaction expected_transaction_id expected_checksum, TTransaction transaction_data =>
      transaction ← match transaction_data with
                    | Object transaction => Ok transaction
                    | Buffer bytes => read_transaction (take (Z.to_nat LATEST_MAX_TRANSACTION_SIZE) bytes)
                    end;
      _ ← ensure (bool_decide (transaction_id transaction = expected_transaction_id))
            "Received mismatching transaction ID - expected {}, found {}";
      checksum ← data_to_checksum write_transaction transaction_data;
      _ ← ensure (bool_decide (checksum = expected_checksum))
            "Received mismatching checksum for transaction {} - expected {expected_checksum} but found {checksum}";
      _ ← ensure (negb (is_fee transaction)) "Received a fee transaction in a transmission";
      Ok (TTransaction (Object transaction))
  | IdSolution expected_solution_id expected_checksum, TSolution solution_data =>
      match match solution_data with Object solution => Ok solution | Buffer bytes => read_solution bytes end with
      | Ok solution =>
          _ ← ensure (bool_decide (solution_id solution = expected_solution_id))
                "Received mismatching solution ID - expected {}, found {}";
          checksum ← data_to_checksum write_solution solution_data;
          _ ← ensure (bool_decide (checksum = expected_checksum))
                "Received mismatching checksum for solution {} - expected {expected_checksum} but found {checksum}";
          Ok (TSolution (Object solution))
      | Err _ => Err "Failed to deserialize solution: {err}"
      | Panic e => Panic e
      | Deadlock => Deadlock
      end
  | _, _ => Err "Mismatching `(transmission_id, transmission)` pair"
  end.

Abbreviation Storage := (Storage.Storage Svc Cache).
Abbreviation pending := (Pending.pending_map TransmissionID SocketAddr C).

Record Worker := mk_worker { w_id : Z; w_ready : Ready.Ready; w_pending : pending }.

Definition set_ready (r : Ready.Ready) (w : Worker) : Worker := mk_worker (w_id w) r (w_pending w).
Definition set_pending (p : pending) (w : Worker) : Worker := mk_worker (w_id w) (w_ready w) p.

(** [Worker::new]. *)
Definition new (id : Z) : result Worker :=
  _ ← ensure (bool_decide (id < MAX_WORKERS)) "Invalid worker ID '{id}'";
  Ok (mk_worker id Ready.new Pending.new).

Definition MAX_TRANSMISSIONS_PER_WORKER : Z := MAX_TRANSMISSIONS_PER_BATCH / MAX_WORKERS.
Definition MAX_TRANSMISSIONS_PER_WORKER_PING : Z := MAX_TRANSMISSIONS_PER_BATCH / 10.

(** [Worker::contains_transmission]. *)
Definition contains_transmission (L : LedgerService) (s : Storage) (proposed_batch : option Proposal.Proposal)
    (w : Worker) (i : TransmissionID) : bool :=
  Ready.contains (w_ready w) i
  || match proposed_batch with Some p => Proposal.contains_transmission p i | None => false end
  || Storage.contains_transmission s i
  || unwrap_or false (ledger_contains_transmission L i).

(** [Worker::get_transmission]; a read of the storage may update its cache. *)
Definition get_transmission (s : Storage) (proposed_batch : option Proposal.Proposal) (w : Worker)
    (i : TransmissionID) : option Transmission * Storage :=
  match Ready.get (w_ready w) i with
  | Some t => (Some t, s)
  | None =>
      match Storage.get_transmission s i with
      | (Some t, s) => (Some t, s)
      | (None, s) => (match proposed_batch with Some p => Proposal.get_transmission p i | None => None end, s)
      end
  end.

(** [Worker::insert_front], [remove_front], [clear_solutions], [reinsert]. *)
Definition insert_front (i : TransmissionID) (t : Transmission) (w : Worker) : Worker :=
  set_ready (Ready.insert_front (w_ready w) i t).2 w.
Definition remove_front (w : Worker) : option (TransmissionID * Transmission) * Worker :=
  let '(e, r) := Ready.remove_front (w_ready w) in (e, set_ready r w).
Definition clear_solutions (w : Worker) : Worker := set_ready (Ready.clear_solutions (w_ready w)) w.
Definition reinsert (L : LedgerService) (s : Storage) (proposed_batch : option Proposal.Proposal)
    (i : TransmissionID) (t : Transmission) (w : Worker) : bool * Worker :=
  if contains_transmission L s proposed_batch w i then (false, w)
  else let '(b, r) := Ready.insert (w_ready w) i t in (b, set_ready r w).

(** [Worker::broadcast_ping]: the IDs it broadcasts, for a random [sample] of
    the ready queue. *)
Definition broadcast_ping (sample : Z -> gset TransmissionID -> list TransmissionID) (w : Worker)
    : option (list TransmissionID) :=
  let ids := iset_of_list id (sample MAX_TRANSMISSIONS_PER_WORKER_PING (Ready.ids (w_ready w))) in
  if decide (ids = []) then None else Some ids.

(** [Worker::process_transmission_id_from_ping]: whether the transmission is
    fetched from the peer. *)
Definition process_transmission_id_from_ping (L : LedgerService) (s : Storage)
    (proposed_batch : option Proposal.Proposal) (w : Worker) (i : TransmissionID) : bool :=
  if contains_transmission L s proposed_batch w i then false else
  negb (bool_decide (MAX_TRANSMISSIONS_PER_WORKER < Ready.num_transmissions (w_ready w))).

(** The types match, and are not those of a ratification. *)
Definition is_well_formed (i : TransmissionID) (t : Transmission) : bool :=
  match i, t with
  | IdSolution _ _, TSolution _ => true
  | IdTransaction _ _, TTransaction _ => true
  | IdRatification, Ratification => false
  | _, _ => false
  end.

(** [Worker::process_transmission_from_peer], with the transaction that is sent
    to verification in the background. *)
Definition process_transmission_from_peer (L : LedgerService) (s : Storage)
    (proposed_batch : option Proposal.Proposal) (i : TransmissionID) (t : Transmission) (w : Worker)
    : option (TransactionID * Transaction) * Worker :=
  if contains_transmission L s proposed_batch w i then (None, w) else
  let verify := match i, t with
                | IdTransaction tx_id _, TTransaction (Object tx) => if is_execute tx then Some (tx_id, tx) else None
                | _, _ => None
                end in
  (verify, if is_well_formed i t then set_ready (Ready.insert (w_ready w) i t).2 w else w).

(** The first part of [process_unconfirmed_solution] and
    [process_unconfirmed_transaction], before the checks of the ledger: the
    transmission, the callbacks that are sent it, and whether it is new. *)
Definition begin_unconfirmed (L : LedgerService) (s : Storage) (proposed_batch : option Proposal.Proposal)
    (i : TransmissionID) (w : Worker) : bool * list C * Worker :=
  let '(_, notified, p) := Pending.remove (w_pending w) i true in
  let w := set_pending p w in
  (negb (contains_transmission L s proposed_batch w i), notified, w).

(** Their last part, after the checks. *)
Definition end_unconfirmed (i : TransmissionID) (t : Transmission) (check : result unit) (w : Worker)
    : result bool * Worker :=
  match check with
  | Ok _ => (Ok true, set_ready (Ready.insert (w_ready w) i t).2 w)
  | Err e => (Err e, w)
  | Panic e => (Panic e, w)
  | Deadlock => (Deadlock, w)
  end.

(** [Worker::process_unconfirmed_solution], for the outcome [check] of
    [check_solution_basic]. *)
Definition process_unconfirmed_solution (L : LedgerService) (s : Storage)
    (proposed_batch : option Proposal.Proposal) (check : SolutionID -> Data Solution -> result unit)
    (id : SolutionID) (solution : Data Solution) (w : Worker) : result bool * list C * Worker :=
  match data_to_checksum write_solution solution with
  | Ok checksum =>
      let i := IdSolution id checksum in
      let '(is_new, notified, w) := begin_unconfirmed L s proposed_batch i w in
      if is_new : bool then
        let '(r, w) := end_unconfirmed i (TSolution solution) (check id solution) w in (r, notified, w)
      else (Ok false, notified, w)
  | Err e => (Err e, [], w)
  | Panic e => (Panic e, [], w)
  | Deadlock => (Deadlock, [], w)
  end.

(** [Worker::process_unconfirmed_transaction], for the outcome [check] of
    [check_transaction_basic]. *)
Definition process_unconfirmed_transaction (L : LedgerService) (s : Storage)
    (proposed_batch : option Proposal.Proposal) (check : TransactionID -> Transaction -> result unit)
    (id : TransactionID) (transaction : Data Transaction) (w : Worker) : result bool * list C * Worker :=
  match data_to_checksum write_transaction transaction with
  | Ok checksum =>
      let i := IdTransaction id checksum in
      let '(is_new, notified, w) := begin_unconfirmed L s proposed_batch i w in
      if is_new : bool then
        let checked :=
          tx ← match transaction with
               | Object tx => Ok tx
               | Buffer bytes => read_transaction (take (Z.to_nat LATEST_MAX_TRANSACTION_SIZE) bytes)
               end;
          check id tx in
        let '(r, w) := end_unconfirmed i (TTransaction transaction) checked w in (r, notified, w)
      else (Ok false, notified, w)
  | Err e => (Err e, [], w)
  | Panic e => (Panic e, [], w)
  | Deadlock => (Deadlock, [], w)
  end.

(** [Worker::send_transmission_request] up to the wait for the answer, in the
    parts between which other tasks may take the lock of the pending requests:
    the count of the requests that were sent, at time [now]; the decision, for the
    outcome [stake_redundancy_reached] of
    [Pending::request_stake_redundancy_reached]; and the insertion of the new
    callback [c]. *)
Definition count_sent_requests (now : Z) (i : TransmissionID) (w : Worker) : Z * Worker :=
  let '(num_sent_requests, p) := Pending.num_sent_requests (w_pending w) now i in
  (num_sent_requests, set_pending p w).
Definition should_send_request (num_redundant_requests : result Z) (stake_redundancy_reached : result bool)
    (num_sent_requests : Z) (peer_ip : SocketAddr) (i : TransmissionID) (w : Worker) : result bool :=
  let contains_peer := Pending.contains_peer_with_sent_request (w_pending w) i peer_ip in
  n ← num_redundant_requests;
  if contains_peer then Ok false else
  if bool_decide (num_sent_requests < n) then Ok true else
  reached ← stake_redundancy_reached; Ok (negb reached).
Definition insert_request (now : Z) (peer_ip : SocketAddr) (i : TransmissionID) (c : C) (sent : bool) (w : Worker) : Worker :=
  set_pending (Pending.insert (w_pending w) now i peer_ip (Some (c, sent))).2 w.

(** The parts one after the other: whether a request is sent to the peer. *)
Definition send_transmission_request (now : Z) (num_redundant_requests : result Z)
    (stake_redundancy_reached : result bool) (peer_ip : SocketAddr) (i : TransmissionID) (c : C) (w : Worker)
    : result bool * Worker :=
  let '(num_sent_requests, w) := count_sent_requests now i w in
  match should_send_request num_redundant_requests stake_redundancy_reached num_sent_requests peer_ip i w with
  | Ok sent => (Ok sent, insert_request now peer_ip i c sent w)
  | Err e => (Err e, w)
  | Panic e => (Panic e, w)
  | Deadlock => (Deadlock, w)
  end.

(** [Worker::finish_transmission_request]: the callbacks that are sent the
    checked transmission. *)
Definition finish_transmission_request (peer_ip : SocketAddr) (i : TransmissionID) (t : Transmission) (w : Worker)
    : list (C * Transmission) * Worker :=
  if bool_decide (peer_ip ∈ default ∅ (Pending.get_peers (w_pending w) i)) then
    match ensure_transmission_is_well_formed i t with
    | Ok t =>
        let '(_, notified, p) := Pending.remove (w_pending w) i true in
        ((fun c => (c, t)) <$> notified, set_pending p w)
    | _ => ([], w)
    end
  else ([], w).

(** [Worker::send_transmission_response]: the transmission sent to the peer. *)
Definition send_transmission_response (s : Storage) (proposed_batch : option Proposal.Proposal) (w : Worker)
    (i : TransmissionID) : option (TransmissionID * Transmission) * Storage :=
  let '(o, s) := get_transmission s proposed_batch w i in ((fun t => (i, t)) <$> o, s).

(** [Worker::get_or_fetch_transmission], for the outcome [fetched] of the
    request to the peer. *)
Definition get_or_fetch_transmission (s : Storage) (proposed_batch : option Proposal.Proposal) (w : Worker)
    (i : TransmissionID) (fetched : result (TransmissionID * Transmission))
    : result (TransmissionID * Transmission) * Storage :=
  match get_transmission s proposed_batch w i with
  | (Some t, s) => (Ok (i, t), s)
  | (None, s) =>
      (p ← fetched; _ ← ensure (bool_decide (p.1 = i)) "Invalid transmission ID"; Ok (i, p.2), s)
  end.

(** ** Fetched transmissions *)

(** [t'] is the content of the received [t] and belongs to the ID [i]: its
    hash and checksum are those of the ID, and it is not a fee. *)
Definition authentic (i : TransmissionID) (t t' : Transmission) : Prop :=
  match i, t, t' with
  | IdTransaction id checksum, TTransaction d, TTransaction (Object tx) =>
      match d with Object tx' => tx' = tx
      | Buffer bytes => read_transaction (take (Z.to_nat LATEST_MAX_TRANSACTION_SIZE) bytes) = Ok tx end /\
      transaction_id tx = id /\ is_fee tx = false /\ data_to_checksum write_transaction d = Ok checksum
  | IdSolution id checksum, TSolution d, TSolution (Object sol) =>
      match d with Object sol' => sol' = sol | Buffer bytes => read_solution bytes = Ok sol end /\
      solution_id sol = id /\ data_to_checksum write_solution d = Ok checksum
  | _, _, _ => False
  end.

(** The check of the ledger accepts exactly authentic transmissions. *)
Lemma well_formed_authentic i t t' : ensure_transmission_is_well_formed i t = Ok t' <-> authentic i t t'.
Proof.
  split.
  - destruct i as [|id cs|id cs], t as [|d|d]; cbn; try done.
    + destruct d as [sol|bytes]; cbn; [|destruct (read_solution bytes) as [sol| | |] eqn:E; try done]; intros H; simp_ok;
        rewrite ?bool_decide_eq_true in *; subst; done.
    + intros H. simp_ok. destruct d as [tx|bytes]; simp_ok; rewrite ?bool_decide_eq_true, ?negb_true_iff in *; subst; done.
  - destruct i as [|id cs|id cs], t as [|d|d], t' as [|[?|?]|[?|?]]; cbn; try done.
    + intros (Hd & <- & Hc). rewrite Hc. destruct d; [subst|rewrite Hd]; cbn;
        rewrite !ensure_bind by (by apply bool_decide_eq_true); done.
    + intros (Hd & <- & Hf & Hc). rewrite Hc. destruct d; [subst|rewrite Hd]; cbn;
        rewrite ensure_bind, ensure_bind by (by apply bool_decide_eq_true); by rewrite Hf.
Qed.

(** The callbacks waiting for an item. *)
Definition callbacks (p : pending) (i : TransmissionID) : list C :=
  match p !! i with Some m => (fun c => c.1.1) <$> (map_to_list m ≫= snd) | None => [] end.

(** Only authentic transmissions reach those who wait for them.  A response
    is handed to the waiting callbacks if and only if it comes from a peer that
    was asked for the ID and its content has the ID and the checksum and is not
    a fee; then every callback waiting for the ID receives the same content and
    none waits for it any more.  Otherwise nothing changes, and requests for
    other IDs never do. *)
Theorem fetched_authentic peer_ip i t w :
  let '(notified, w') := finish_transmission_request peer_ip i t w in
  w_ready w' = w_ready w /\
  (forall j, j <> i -> w_pending w' !! j = w_pending w !! j) /\
  ((exists t', peer_ip ∈ default ∅ (Pending.get_peers (w_pending w) i) /\ authentic i t t' /\
     notified = (fun c => (c, t')) <$> callbacks (w_pending w) i /\ w_pending w' !! i = None) \/
   ((peer_ip ∉ default ∅ (Pending.get_peers (w_pending w) i) \/ forall t', ~ authentic i t t') /\
     notified = [] /\ w' = w)).
Proof.
  unfold finish_transmission_request. case_bool_decide as Hp; [|by split_and!; [..|right; split; [left|]]].
  destruct (ensure_transmission_is_well_formed i t) as [t'|e|e|] eqn:E.
  1: { apply well_formed_authentic in E. unfold Pending.remove, callbacks, Pending.get_peers in *.
    destruct (w_pending w !! i) as [m|] eqn:Hm; cbn in *; [|set_solver].
    split_and!; [done| |].
    - intros j Hj. by rewrite lookup_delete_ne.
    - left. exists t'. split_and!; try done. by rewrite lookup_delete_eq. }
  all: split_and!; [done..|]; right; split_and!; try done; right; intros t' Ha%well_formed_authentic; congruence.
Qed.

(** ** The states of a worker *)

(** The transmission [t] belongs to the ID [i]: its data, as it is or in the
    bytes from which it was read, has the checksum of the ID. *)
Definition belongs (i : TransmissionID) (t : Transmission) : Prop :=
  match i, t with
  | IdSolution _ checksum, TSolution d =>
      exists d0, data_to_checksum write_solution d0 = Ok checksum /\
        (d = d0 \/ exists bytes sol, d0 = Buffer bytes /\ read_solution bytes = Ok sol /\ d = Object sol)
  | IdTransaction _ checksum, TTransaction d =>
      exists d0, data_to_checksum write_transaction d0 = Ok checksum /\
        (d = d0 \/ exists bytes tx, d0 = Buffer bytes /\
           read_transaction (take (Z.to_nat LATEST_MAX_TRANSACTION_SIZE) bytes) = Ok tx /\ d = Object tx)
  | _, _ => False
  end.
Abbreviation fitting := (Forall (fun e => belongs e.1 e.2)).

(** A worker with its tasks: the unconfirmed transmissions that the ledger is
    checking; the requests for which the requests already sent are counted; those
    for which it is decided whether they are sent; and the transmissions that left
    the worker, taken by the primary or handed to a callback, beside those that the
    storage and a restored proposal hold. *)
Record Tasks := mk_tasks {
  t_worker : Worker;
  t_checking : list (TransmissionID * Transmission);
  t_counted : list (SocketAddr * TransmissionID * C * Z);
  t_decided : list (SocketAddr * TransmissionID * C * bool);
  t_outside : list (TransmissionID * Transmission);
}.

(** What the callbacks that are sent [t] bring out of the worker. *)
Definition handed {X} (notified : list X) (i : TransmissionID) (t : Transmission) : list (TransmissionID * Transmission) :=
  if decide (notified = []) then [] else [(i, t)].
(** An unconfirmed transmission: what is checked when it is new. *)
Definition begun (w' : bool * list C * Worker) (i : TransmissionID) (t : Transmission) (T : Tasks) : Tasks :=
  mk_tasks w'.2 (if w'.1.1 then (i, t) :: t_checking T else t_checking T) (t_counted T) (t_decided T)
    (handed w'.1.2 i t ++ t_outside T).
Definition on_worker (w : Worker) (T : Tasks) : Tasks :=
  mk_tasks w (t_checking T) (t_counted T) (t_decided T) (t_outside T).

(** The steps of the tasks, with any storage, proposed batch, ledger, clock and
    outcome of a check.  What is inserted as fetched from a peer, reinserted or put
    back at the front left the worker before.  With [overlap], the parts of
    several requests may be interleaved.  The queue holds fewer than 2^63
    transmissions. *)
Inductive step (overlap : bool) : Tasks -> Tasks -> Prop :=
| step_from_peer L s pb i t T : len (Ready.transmissions (w_ready (t_worker T))) <= i64_max -> (i, t) ∈ t_outside T ->
    step overlap T (on_worker (process_transmission_from_peer L s pb i t (t_worker T)).2 T)
| step_begin_solution L s pb id d checksum T : data_to_checksum write_solution d = Ok checksum ->
    step overlap T (begun (begin_unconfirmed L s pb (IdSolution id checksum) (t_worker T)) (IdSolution id checksum) (TSolution d) T)
| step_begin_transaction L s pb id d checksum T : data_to_checksum write_transaction d = Ok checksum ->
    step overlap T (begun (begin_unconfirmed L s pb (IdTransaction id checksum) (t_worker T)) (IdTransaction id checksum) (TTransaction d) T)
| step_end_unconfirmed i t check c1 c2 T : len (Ready.transmissions (w_ready (t_worker T))) <= i64_max ->
    t_checking T = c1 ++ (i, t) :: c2 ->
    step overlap T (mk_tasks (end_unconfirmed i t check (t_worker T)).2 (c1 ++ c2) (t_counted T) (t_decided T) (t_outside T))
| step_reinsert L s pb i t T : len (Ready.transmissions (w_ready (t_worker T))) <= i64_max -> (i, t) ∈ t_outside T ->
    step overlap T (on_worker (reinsert L s pb i t (t_worker T)).2 T)
| step_insert_front i t T : (i, t) ∈ t_outside T -> step overlap T (on_worker (insert_front i t (t_worker T)) T)
| step_remove_front T :
    step overlap T (mk_tasks (remove_front (t_worker T)).2 (t_checking T) (t_counted T) (t_decided T)
      (option_list (remove_front (t_worker T)).1 ++ t_outside T))
| step_clear_solutions T : len (Ready.transmissions (w_ready (t_worker T))) <= i64_max ->
    step overlap T (on_worker (clear_solutions (t_worker T)) T)
| step_send now n reached peer_ip i c T :
    step overlap T (on_worker (send_transmission_request now n reached peer_ip i c (t_worker T)).2 T)
| step_count now peer_ip i c T : overlap = true ->
    step overlap T (mk_tasks (count_sent_requests now i (t_worker T)).2 (t_checking T)
      ((peer_ip, i, c, (count_sent_requests now i (t_worker T)).1) :: t_counted T) (t_decided T) (t_outside T))
| step_decide n reached peer_ip i c num sent c1 c2 T : overlap = true -> t_counted T = c1 ++ (peer_ip, i, c, num) :: c2 ->
    should_send_request n reached num peer_ip i (t_worker T) = Ok sent ->
    step overlap T (mk_tasks (t_worker T) (t_checking T) (c1 ++ c2) ((peer_ip, i, c, sent) :: t_decided T) (t_outside T))
| step_insert now peer_ip i c sent c1 c2 T : overlap = true -> t_decided T = c1 ++ (peer_ip, i, c, sent) :: c2 ->
    step overlap T (mk_tasks (insert_request now peer_ip i c sent (t_worker T)) (t_checking T) (t_counted T) (c1 ++ c2) (t_outside T))
| step_finish peer_ip i t T :
    step overlap T (mk_tasks (finish_transmission_request peer_ip i t (t_worker T)).2 (t_checking T) (t_counted T) (t_decided T)
      (((fun ct => (i, ct.2)) <$> (finish_transmission_request peer_ip i t (t_worker T)).1) ++ t_outside T))
| step_expire now T :
    step overlap T (on_worker (set_pending (Pending.clear_expired_callbacks (w_pending (t_worker T)) now) (t_worker T)) T).

(** The tasks of a new worker, beside what [outside] holds. *)
Definition start (w : Worker) (outside : list (TransmissionID * Transmission)) : Tasks := mk_tasks w [] [] [] outside.

Definition sent_count (l : list (Pending.callback_entry C)) : Z := len (base.filter (fun c => c.2 = true) l).

(** No peer has more than one sent request for an item in a part of the map. *)
Definition sent_once (p : pending) : Prop :=
  forall i m peer l, p !! i = Some m -> m !! peer = Some l -> sent_count l <= 1.

Lemma sent_count_filter (P : Pending.callback_entry C -> Prop) `{!forall x, Decision (P x)} l :
  sent_count (base.filter P l) <= sent_count l.
Proof.
  unfold sent_count, len. apply inj_le.
  induction l as [|c l IH]; [done|]. rewrite !filter_cons. case_decide; [rewrite filter_cons|]; case_decide; cbn; lia.
Qed.

Lemma clear_peers_sent now (m : Pending.peer_map SocketAddr C) peer l :
  Pending.clear_peers now m !! peer = Some l -> exists l', m !! peer = Some l' /\ sent_count l <= sent_count l'.
Proof.
  unfold Pending.clear_peers. intros [Hl _]%map_lookup_filter_Some. rewrite lookup_fmap in Hl.
  destruct (m !! peer) as [l'|] eqn:Hm; cbn in Hl; [|done]. injection Hl as <-. exists l'. split; [done|].
  apply sent_count_filter.
Qed.

Lemma clear_item_sent p now i : sent_once p -> sent_once (Pending.clear_expired_callbacks_for_item p now i).
Proof.
  intros Hp j m peer l. unfold Pending.clear_expired_callbacks_for_item.
  destruct (p !! i) as [mi|] eqn:Hi; [|apply Hp]. case_decide.
  - rewrite lookup_delete. case_decide; [done|]. apply Hp.
  - rewrite lookup_insert. case_decide; [|apply Hp]. subst j. intros [= <-] (l' & Hl' & ?)%clear_peers_sent.
    specialize (Hp _ _ _ _ Hi Hl'). lia.
Qed.

Lemma clear_all_sent p now : sent_once p -> sent_once (Pending.clear_expired_callbacks p now).
Proof.
  intros Hp i m peer l [Hm _]%map_lookup_filter_Some Hl. rewrite lookup_fmap in Hm.
  destruct (p !! i) as [mi|] eqn:Hi; cbn in Hm; [|done]. injection Hm as <-.
  apply clear_peers_sent in Hl as (l' & Hl' & ?). specialize (Hp _ _ _ _ Hi Hl'). lia.
Qed.

Lemma remove_sent p i v : sent_once p -> sent_once (Pending.remove p i v).2.
Proof.
  intros Hp. unfold Pending.remove. destruct (p !! i) eqn:Hi; [|done]. cbn. intros j m peer l.
  rewrite lookup_delete. case_decide; [done|]. apply Hp.
Qed.

Lemma not_sent_count l : Pending.any_sent l = false -> sent_count l = 0.
Proof.
  unfold sent_count. induction l as [|c l IH]; [done|]. intros [Hc Hl]%orb_false_iff.
  rewrite filter_cons, decide_False by congruence. auto.
Qed.

Lemma sent_count_snoc l c : sent_count (l ++ [c]) = sent_count l + if c.2 then 1 else 0.
Proof.
  unfold sent_count. rewrite filter_app, len_app, filter_cons, filter_nil.
  destruct (decide (c.2 = true)) as [E|E]; destruct c.2; done.
Qed.

(** Inserting a sent request for a peer without one. *)
Lemma insert_sent p now i peer c sent :
  sent_once p -> (sent = true -> Pending.contains_peer_with_sent_request p i peer = false) ->
  sent_once (Pending.insert p now i peer (Some (c, sent))).2.
Proof.
  intros Hp Hs. unfold Pending.insert. cbn. apply clear_item_sent. intros j m peer' l.
  rewrite lookup_insert. case_decide; [subst j|apply Hp]. intros [= <-]. rewrite lookup_insert.
  assert (forall l, default ∅ (p !! i) !! peer' = Some l -> sent_count l <= 1) as Hold.
  { intros l0. destruct (p !! i) as [m|] eqn:Hi; cbn; [intros; by eapply Hp|by rewrite lookup_empty]. }
  case_decide; [subst peer'|apply Hold]. intros [= <-]. rewrite sent_count_snoc. cbn [snd].
  destruct sent.
  - specialize (Hs eq_refl). unfold Pending.contains_peer_with_sent_request in Hs.
    assert (sent_count (default [] (default ∅ (p !! i) !! peer)) = 0) as ->; [|lia].
    apply not_sent_count. destruct (p !! i) as [m|]; cbn in *; [|by rewrite lookup_empty].
    destruct (m !! peer); done.
  - destruct (default ∅ (p !! i) !! peer) as [l0|] eqn:El; cbn; [|by vm_compute].
    specialize (Hold l0 eq_refl). lia.
Qed.

(** *** The invariant *)

Record worker_inv (overlap : bool) (T : Tasks) : Prop := {
  wi_ready : Ready.ready_inv (w_ready (t_worker T));
  wi_fitting : fitting (Ready.transmissions (w_ready (t_worker T)));
  wi_checking : fitting (t_checking T);
  wi_outside : fitting (t_outside T);
  wi_sent : overlap = false -> sent_once (w_pending (t_worker T));
}.

Lemma authentic_belongs i t t' : authentic i t t' -> belongs i t'.
Proof.
  destruct i as [|id cs|id cs], t as [|d|d], t' as [|[x|x]|[x|x]]; cbn; try done.
  - intros (Hd & _ & Hc). exists d. split; [done|]. destruct d as [y|bytes]; [left; congruence|right; eauto].
  - intros (Hd & _ & _ & Hc). exists d. split; [done|]. destruct d as [y|bytes]; [left; congruence|right; eauto].
Qed.

Lemma fitting_handed {X} (notified : list X) i t : belongs i t -> fitting (handed notified i t).
Proof. intros Hb. unfold handed. case_decide; [constructor|]. by constructor. Qed.

Lemma ready_insert_inv r i t :
  Ready.ready_inv r -> len (Ready.transmissions r) <= i64_max -> belongs i t -> fitting (Ready.transmissions r) ->
  Ready.ready_inv (Ready.insert r i t).2 /\ fitting (Ready.transmissions (Ready.insert r i t).2).
Proof.
  intros Hr Hlen Hb Hk. destruct (Ready.insert_step r i t Hr Hlen) as [Hi Heq]. split; [done|].
  cbn in Heq. case_decide; injection Heq as _ ->; [done|]. apply Forall_app. split; [done|]. by constructor.
Qed.

(** A step that leaves the ready queue alone. *)
Lemma worker_inv_pending overlap (T T' : Tasks) :
  worker_inv overlap T -> w_ready (t_worker T') = w_ready (t_worker T) ->
  fitting (t_checking T') -> fitting (t_outside T') ->
  (overlap = false -> sent_once (w_pending (t_worker T')) ) -> worker_inv overlap T'.
Proof. intros [Hr Hk _ _ _] Hw Hc Ho Hs. split; try done; by rewrite Hw. Qed.
(** A step that leaves the pending requests and the tasks alone. *)
Lemma worker_inv_ready overlap (T : Tasks) (w : Worker) :
  worker_inv overlap T -> w_pending w = w_pending (t_worker T) ->
  Ready.ready_inv (w_ready w) /\ fitting (Ready.transmissions (w_ready w)) -> worker_inv overlap (on_worker w T).
Proof. intros [_ _ Hc Ho Hs] Hw [Hr Hk]. split; try done. cbn. by rewrite Hw. Qed.

Lemma begun_inv overlap L s pb i t T : worker_inv overlap T -> belongs i t ->
  worker_inv overlap (begun (begin_unconfirmed L s pb i (t_worker T)) i t T).
Proof.
  intros Hinv Hb. pose proof Hinv as [_ _ Hc Ho Hs]. unfold begin_unconfirmed.
  pose proof (fun H => remove_sent (w_pending (t_worker T)) i true (Hs H)) as Hrem.
  destruct (Pending.remove _ _ _) as [[? notified] p]. cbn [fst snd]. apply (worker_inv_pending overlap T); try done; cbn.
  - destruct (negb _); [by constructor|done].
  - apply Forall_app. split; [by apply fitting_handed|done].
Qed.

Lemma insert_request_ready now peer_ip i c sent w : w_ready (insert_request now peer_ip i c sent w) = w_ready w.
Proof. done. Qed.
Lemma send_request_inv now n reached peer_ip i c w :
  w_ready (send_transmission_request now n reached peer_ip i c w).2 = w_ready w /\
  (sent_once (w_pending w) -> sent_once (w_pending (send_transmission_request now n reached peer_ip i c w).2)).
Proof.
  unfold send_transmission_request, count_sent_requests, Pending.num_sent_requests. cbn.
  pose proof (clear_item_sent (w_pending w) now i) as Hc.
  set (p := Pending.clear_expired_callbacks_for_item _ _ _) in *. unfold should_send_request. cbn.
  destruct n as [n| | |]; cbn [mbind result_bind]; try done.
  destruct (Pending.contains_peer_with_sent_request p i peer_ip) eqn:Hp.
  - split; [done|]. intros Hs. by apply insert_sent; [apply Hc|].
  - match goal with |- context [match ?x with Ok _ => _ | _ => _ end] => destruct x as [sent| | |] end; try done.
    split; [done|]. intros Hs. by apply insert_sent; [apply Hc|].
Qed.

Lemma finish_inv peer_ip i t w :
  w_ready (finish_transmission_request peer_ip i t w).2 = w_ready w /\
  (sent_once (w_pending w) -> sent_once (w_pending (finish_transmission_request peer_ip i t w).2)) /\
  fitting ((fun ct => (i, ct.2)) <$> (finish_transmission_request peer_ip i t w).1).
Proof.
  unfold finish_transmission_request. case_bool_decide; [|split_and!; [done|done|constructor]].
  destruct (ensure_transmission_is_well_formed i t) as [t'| | |] eqn:E; try (split_and!; [done|done|constructor]).
  apply well_formed_authentic, authentic_belongs in E. pose proof (remove_sent (w_pending w) i true) as Hr.
  destruct (Pending.remove _ _ _) as [[? notified] p]. cbn in *. split_and!; [done|done|].
  apply Forall_forall. intros e ([c t''] & -> & (c' & [= -> ->] & _)%list_elem_of_fmap)%list_elem_of_fmap. done.
Qed.

Lemma fitting_elem l i t : fitting l -> (i, t) ∈ l -> belongs i t.
Proof. rewrite Forall_forall. intros Hl Hin. by apply (Hl (i, t)). Qed.

Lemma step_inv overlap T T' : step overlap T T' -> worker_inv overlap T -> worker_inv overlap T'.
Proof.
  destruct 1 as [L s pb i t T Hlen Hin|L s pb id d checksum T Hck|L s pb id d checksum T Hck|i t check c1 c2 T Hlen Hck|L s pb i t T Hlen Hin
    |i t T Hin|T|T Hlen|now n reached peer_ip i c T|now peer_ip i c T Hov|n reached peer_ip i c num sent c1 c2 T Hov Hco Hd
    |now peer_ip i c sent c1 c2 T Hov Hde|peer_ip i t T|now T]; intros Hinv; pose proof Hinv as [Hr Hk Hc Ho Hs].
  - pose proof (fitting_elem _ _ _ Ho Hin). apply worker_inv_ready; [done|..]; unfold process_transmission_from_peer;
      destruct (contains_transmission _ _ _ _ _), (is_well_formed i t); try done. by apply ready_insert_inv.
  - apply begun_inv; [done|]. cbn. eauto.
  - apply begun_inv; [done|]. cbn. eauto.
  - rewrite Hck in Hc. apply Forall_app in Hc as [Hc1 [Hb Hc2]%Forall_cons]. cbn in Hb.
    assert (fitting (c1 ++ c2)) as Hc by (by apply Forall_app). unfold end_unconfirmed. destruct check; try by split.
    destruct (ready_insert_inv (w_ready (t_worker T)) i t) as [??]; [done..|]. by split.
  - pose proof (fitting_elem _ _ _ Ho Hin). apply worker_inv_ready; [done|..]; unfold reinsert;
      destruct (contains_transmission _ _ _ _ _); try done; pose proof (ready_insert_inv (w_ready (t_worker T)) i t) as Hi;
      destruct (Ready.insert (w_ready (t_worker T)) i t); [done|]. by apply Hi.
  - pose proof (fitting_elem _ _ _ Ho Hin). apply worker_inv_ready; [done|done|].
    destruct (Ready.insert_front_step (w_ready (t_worker T)) i t Hr) as [Hi Heq]. split; [done|].
    cbn in Heq |- *. case_decide; injection Heq as _ ->; [done|]. by constructor.
  - destruct (Ready.remove_front_step (w_ready (t_worker T)) Hr) as [Hi Heq]. unfold remove_front.
    destruct (Ready.remove_front (w_ready (t_worker T))) as [e r]. cbn in *.
    destruct (Ready.transmissions (w_ready (t_worker T))) as [|e0 l]; injection Heq as -> Hl; [split; cbn; try done; by rewrite Hl|].
    apply Forall_cons in Hk as [Hb ?]. split; cbn; try done; [by rewrite Hl|]. by constructor.
  - destruct (Ready.clear_solutions_step (w_ready (t_worker T)) Hr Hlen) as [Hi Heq]. apply worker_inv_ready; [done|done|]. split; [done|].
    rewrite Forall_forall in Hk |- *. intros e He. apply Hk. eapply elem_of_sublist; [done|]. apply Ready.filter_sublist.
  - destruct (send_request_inv now n reached peer_ip i c (t_worker T)) as [? ?]. apply (worker_inv_pending overlap T); auto.
  - apply (worker_inv_pending overlap T); try done. by rewrite Hov.
  - apply (worker_inv_pending overlap T); done.
  - apply (worker_inv_pending overlap T); try done. by rewrite Hov.
  - destruct (finish_inv peer_ip i t (t_worker T)) as (? & ? & ?). apply (worker_inv_pending overlap T); auto. by apply Forall_app.
  - apply (worker_inv_pending overlap T); try done. cbn. intros ?. by apply clear_all_sent, Hs.
Qed.

(** The unconfirmed solutions and transactions of the primary are such steps. *)
Lemma unconfirmed_solution_steps overlap L s pb check id d T :
  len (Ready.transmissions (w_ready (t_worker T))) <= i64_max ->
  exists T', rtc (step overlap) T T' /\ t_worker T' = (process_unconfirmed_solution L s pb check id d (t_worker T)).2.
Proof.
  intros Hlen. unfold process_unconfirmed_solution. destruct (data_to_checksum write_solution d) as [ck| | |] eqn:Hck; try (by exists T).
  pose proof (step_begin_solution overlap L s pb id d ck T Hck) as H1. revert H1. unfold begun, begin_unconfirmed.
  destruct (Pending.remove _ _ _) as [[? notified] p]. cbn [fst snd]. destruct (negb _); intros H1.
  - set (T1 := mk_tasks _ _ _ _ _) in H1. assert (t_checking T1 = [] ++ (IdSolution id ck, TSolution d) :: t_checking T) as Hc by done.
    pose proof (step_end_unconfirmed overlap _ _ (check id d) _ _ T1 Hlen Hc) as H2. eexists. split; [eapply rtc_l; [exact H1|by apply rtc_once]|].
    subst T1. cbn [t_worker]. by destruct (end_unconfirmed _ _ _ _).
  - eexists. split; [by apply rtc_once|done].
Qed.
Lemma unconfirmed_transaction_steps overlap L s pb check id d T :
  len (Ready.transmissions (w_ready (t_worker T))) <= i64_max ->
  exists T', rtc (step overlap) T T' /\ t_worker T' = (process_unconfirmed_transaction L s pb check id d (t_worker T)).2.
Proof.
  intros Hlen. unfold process_unconfirmed_transaction. destruct (data_to_checksum write_transaction d) as [ck| | |] eqn:Hck; try (by exists T).
  pose proof (step_begin_transaction overlap L s pb id d ck T Hck) as H1. revert H1. unfold begun, begin_unconfirmed.
  destruct (Pending.remove _ _ _) as [[? notified] p]. cbn [fst snd]. destruct (negb _); intros H1.
  - set (T1 := mk_tasks _ _ _ _ _) in H1. assert (t_checking T1 = [] ++ (IdTransaction id ck, TTransaction d) :: t_checking T) as Hc by done.
    set (checked := mbind _ _). pose proof (step_end_unconfirmed overlap _ _ checked _ _ T1 Hlen Hc) as H2.
    eexists. split; [eapply rtc_l; [exact H1|by apply rtc_once]|]. subst T1. cbn [t_worker]. by destruct (end_unconfirmed _ _ _ _).
  - eexists. split; [by apply rtc_once|done].
Qed.

(** C19: the invariant of a worker.  In every state that the interleaved tasks of
    a worker reach, the ready queue holds every transmission ID once, each with a
    solution or a transaction, never a ratification, that has the checksum of its
    ID, as it is or in the bytes it was read from: unconfirmed transmissions before
    and after the ledger's check, answers of peers, and what the primary takes and
    puts back, when what the storage and a restored proposal hold is so.  When the
    parts of its requests do not overlap, a worker has at most one request for a
    transmission that it sent to a peer. *)
Theorem worker_reachable_inv (overlap : bool) (id : Z) (w0 : Worker) (outside : list (TransmissionID * Transmission)) (T : Tasks) :
  new id = Ok w0 -> fitting outside -> rtc (step overlap) (start w0 outside) T ->
  NoDup (Ready.transmissions (w_ready (t_worker T))).*1 /\
  (forall i t, (i, t) ∈ Ready.transmissions (w_ready (t_worker T)) -> belongs i t) /\
  (overlap = false ->
   forall i m peer l, w_pending (t_worker T) !! i = Some m -> m !! peer = Some l -> sent_count l <= 1).
Proof.
  intros Hnew Ho Hsteps. assert (worker_inv overlap T) as [[Hnd _] Hk _ _ Hs].
  { unfold new in Hnew. simp_ok.
    assert (worker_inv overlap (start (mk_worker id Ready.new Pending.new) outside)) as H0.
    { split; cbn; [apply Ready.ready_new_inv|constructor|constructor|done|]. intros _ i m peer l. unfold Pending.new. by rewrite lookup_empty. }
    induction Hsteps as [|T1 T2 T3 Hstep _ IH]; [done|]. by eapply IH, step_inv. }
  split_and!; [done| |done]. intros i t. by apply fitting_elem.
Qed.

End Worker.
Arguments Worker {_} _.
End Worker.

(** ** A worker of the sample network *)

#[export] Instance TestTransmissions : TransmissionOps (N := TestNetwork) := {|
  transaction_id := fun t => t; is_fee := fun t => bool_decide (t = "f"%char); is_execute := fun _ => true;
  solution_id := fun t => t;
  read_transaction := fun bs => p ← ascii_read bs; Ok p.1;
  read_solution := fun bs => p ← ascii_read bs; Ok p.1;
  LATEST_MAX_TRANSACTION_SIZE := 100;
|}.

(** A toy hash for the partition. *)
Definition test_sha256 (data : list Z) : list Z := replicate 32 (foldr Z.add 7 data mod 256).

Lemma partition_spec_witness :
  exists ws', Partition.assign_to_workers (N := TestNetwork) test_sha256
      (fun w i _ => w ++ [i]) [[]; []; []] [(sample_id "a"%char, sample_tx); (sample_id "b"%char, sample_tx)]
    = (Ok tt, ws') /\ length ws' = 3%nat.
Proof.
  destruct (Partition.partition_spec (N := TestNetwork) test_sha256 (fun w i _ => w ++ [i]) [[]; []; []]
    [(sample_id "a"%char, sample_tx); (sample_id "b"%char, sample_tx)]) as (ws' & H1 & H2 & _); [by vm_compute|].
  exact (ex_intro _ ws' (conj H1 H2)).
Defined.

Definition test_peer : SocketAddr := SocketAddrV4 1 1.
Definition test_tid : TransmissionID (N := TestNetwork) := IdTransaction (N := TestNetwork) "a"%char (sum_hash [97]).
Definition test_worker0 : Worker.Worker (N := TestNetwork) Z := Worker.mk_worker 0 Ready.new Pending.new.
(** It asks the peer for a transmission, and the peer answers. *)
Definition test_worker1 : Worker.Worker (N := TestNetwork) Z :=
  (Worker.send_transmission_request 0 (Ok 2) (Ok false) test_peer test_tid 5 test_worker0).2.
Definition test_response : Transmission (N := TestNetwork) := TTransaction (Buffer [97]).
Definition test_worker2 : Worker.Worker (N := TestNetwork) Z :=
  (Worker.finish_transmission_request test_peer test_tid test_response test_worker1).2.

Example test_worker_notified :
  (Worker.finish_transmission_request test_peer test_tid test_response test_worker1).1
  = [(5, TTransaction (Object "a"%char))].
Proof. vm_refl. Qed.

(** The same with its tasks, and the fetched transmission inserted. *)
Abbreviation TestTasks := (Worker.Tasks (N := TestNetwork) (C := Z)).
Abbreviation test_step := (Worker.step (N := TestNetwork) (C := Z) (Svc := Memory.BFTMemoryService (N := TestNetwork))
  (Cache := ListLru.cache (Field (Network := TestNetwork)) (BatchCertificate (N := TestNetwork)))).
Definition test_tasks0 : TestTasks := Worker.start test_worker0 [].
Definition test_tasks2 : TestTasks := Worker.mk_tasks test_worker2 [] [] [] [(test_tid, TTransaction (Object "a"%char))].
Definition test_tasks3 : TestTasks :=
  Worker.on_worker (Worker.process_transmission_from_peer sample_ledger sample_storage0 None test_tid (TTransaction (Object "a"%char)) test_worker2).2 test_tasks2.
Lemma test_tasks3_reached : rtc (test_step false) test_tasks0 test_tasks3.
Proof.
  eapply rtc_l; [exact (Worker.step_send false 0 (Ok 2) (Ok false) test_peer test_tid 5 test_tasks0)|].
  eapply rtc_l; [exact (Worker.step_finish false test_peer test_tid test_response (Worker.on_worker test_worker1 test_tasks0))|].
  apply rtc_once. refine (Worker.step_from_peer false sample_ledger sample_storage0 None test_tid (TTransaction (Object "a"%char)) test_tasks2 _ _).
  - by vm_compute.
  - left.
Qed.
Lemma test_tasks3_queue : Ready.transmissions (Worker.w_ready (Worker.t_worker test_tasks3)) = [(test_tid, TTransaction (Object "a"%char))].
Proof. vm_refl. Qed.

Lemma worker_reachable_inv_witness :
  Worker.belongs test_tid (TTransaction (Object "a"%char)) /\
  (forall i m peer l, Worker.w_pending (Worker.t_worker test_tasks3) !! i = Some m -> m !! peer = Some l -> Worker.sent_count l <= 1).
Proof.
  destruct (Worker.worker_reachable_inv (N := TestNetwork) (C := Z)
      (Svc := Memory.BFTMemoryService (N := TestNetwork)) (Cache := ListLru.cache (Field (Network := TestNetwork)) (BatchCertificate (N := TestNetwork))) false 0 test_worker0 [] test_tasks3) as (_ & H2 & H3);
    [reflexivity|constructor|exact test_tasks3_reached|].
  split; [|exact (H3 eq_refl)]. apply H2. rewrite test_tasks3_queue. left.
Defined.

(** ** Two requests to the same peer *)

(** Two tasks ask the same peer for the same transmission, and both look for a
    request that was sent before either inserts its own. *)
Definition twice_counted : TestTasks :=
  Worker.mk_tasks test_worker0 [] [(test_peer, test_tid, 6, 0); (test_peer, test_tid, 5, 0)] [] [].
Definition twice_decided : TestTasks :=
  Worker.mk_tasks test_worker0 [] [] [(test_peer, test_tid, 5, true); (test_peer, test_tid, 6, true)] [].
Definition twice_sent : TestTasks :=
  Worker.mk_tasks (Worker.insert_request 0 test_peer test_tid 6 true (Worker.insert_request 0 test_peer test_tid 5 true test_worker0)) [] [] [] [].

Lemma twice_sent_reached : rtc (test_step true) test_tasks0 twice_sent.
Proof.
  eapply rtc_l; [exact (Worker.step_count true 0 test_peer test_tid 5 test_tasks0 eq_refl)|].
  eapply (rtc_l _ _ twice_counted); [exact (Worker.step_count true 0 test_peer test_tid 6 (Worker.mk_tasks test_worker0 [] [(test_peer, test_tid, 5, 0)] [] []) eq_refl)|].
  eapply rtc_l; [exact (Worker.step_decide true (Ok 2) (Ok false) test_peer test_tid 6 0 true [] [(test_peer, test_tid, 5, 0)] twice_counted eq_refl eq_refl eq_refl)|].
  eapply (rtc_l _ _ twice_decided);
    [exact (Worker.step_decide true (Ok 2) (Ok false) test_peer test_tid 5 0 true [] []
       (Worker.mk_tasks test_worker0 [] [(test_peer, test_tid, 5, 0)] [(test_peer, test_tid, 6, true)] []) eq_refl eq_refl eq_refl)|].
  eapply rtc_l; [exact (Worker.step_insert true 0 test_peer test_tid 5 true [] [(test_peer, test_tid, 6, true)] twice_decided eq_refl eq_refl)|].
  apply rtc_once.
  exact (Worker.step_insert true 0 test_peer test_tid 6 true [] []
    (Worker.mk_tasks (Worker.insert_request 0 test_peer test_tid 5 true test_worker0) [] [] [(test_peer, test_tid, 6, true)] []) eq_refl eq_refl).
Qed.

(** C20: the tasks of a worker that ask a peer for the same transmission may
    overlap, and then the peer is sent two requests at a time: each of the two finds
    that none was sent to the peer before either is recorded. *)
Theorem overlapping_requests_sent_twice :
  exists T m l, rtc (test_step true) test_tasks0 T /\
    Worker.w_pending (Worker.t_worker T) !! test_tid = Some m /\ m !! test_peer = Some l /\ Worker.sent_count l = 2.
Proof.
  exists twice_sent. eexists _, _. split; [exact twice_sent_reached|]. split; [vm_compute; reflexivity|]. split; by vm_compute.
Qed.
