(* ===== verification/Primary.v ===== *)
(** * The primary

    [Primary<N>] of node/bft/src/primary.rs: it proposes a batch for every
    round, signs the batches of other validators, certifies its own with their
    signatures, stores the certificates it receives together with what they
    refer to, and moves to the next round.

    The handlers run in tasks of one runtime.  Each is a definition here, in
    the monad [SM] over the state of the primary, with the messages it sends
    appended to [outbox]; the parts of a handler between which other tasks may
    run are definitions of their own.  What a handler reads from outside is an
    [Env]: the ledger, the connected validators, the clock, and the answers of
    peers to requests. *)

From S2P Require Import Prelude Bytes Network Sockets Committee Narwhal Lru StorageService Ledger Storage Proposal Ready Pending SyncState BlockSync Worker.

(** [MIN_BATCH_DELAY.as_secs()]. *)
Definition MIN_BATCH_DELAY : Z := 1.

(** [ConsensusVersion::V5] and [ConsensusVersion::V14]. *)
Definition V5 : Z := 5.
Definition V14 : Z := 14.

(** What the primary calls of the ledger service beyond the record
    [LedgerService], and of the constants of the network that depend on the
    block height. *)
Record LedgerRules `{N : Network} := mk_rules {
  latest_block_height : Z;
  get_block_round : Z -> result Z;
  check_solution_basic : SolutionID -> Data Solution -> result unit;
  check_transaction_basic : TransactionID -> Transaction -> result unit;
  transaction_spend_in_microcredits : Transaction -> Z -> result Z;
  consensus_version : Z -> result Z;
  (** [consensus_config_value!(N, TRANSACTION_SPEND_LIMIT, height)] and
      [consensus_config_value!(N, MAX_TRANSACTION_SIZE, height)]. *)
  transaction_spend_limit : Z -> option Z;
  max_transaction_size : Z -> option Z;
}.

(** What the primary reads from the gateway: its account, the connected
    validators by their listener address, the trusted peers, and the resolver
    of addresses. *)
Record Gateway `{N : Network} := mk_gateway {
  account_address : Address;
  account_key : PrivateKey;
  connected : gmap SocketAddr Address;
  trusted_peers : gset SocketAddr;
  address_peers : gmap Address SocketAddr;
}.

(** The callback of the primary, [PrimaryCallback], which [BFT] implements: a
    state [X] beside the storage [S] that it shares with the primary. *)
Class PrimaryCallback `{N : Network} (S X : Type) := {
  try_advance_to_next_round : LedgerService -> Z -> Z -> SM (X * S) bool;
  add_new_certificate : LedgerService -> BatchCertificate -> SM (X * S) unit;
}.

Module Primary.
Section Primary.
Context `{N : Network} {TO : TransmissionOps}.
Context {Svc : Type} `{!StorageServiceOps Svc}.
Context {Cache : Type} `{!LruOps Cache Field BatchCertificate}.
Context {C X : Type} `{!PrimaryCallback (Storage.Storage Svc Cache) X}.
Context (sha256 : list Z -> list Z).

Abbreviation Storage := (Storage.Storage Svc Cache).
Abbreviation Worker := (Worker.Worker C).
Abbreviation entries := (list (TransmissionID * Transmission)).

(** The messages and signals of the primary.  A [BatchSignature] holds the
    batch ID of the header and the signature. *)
Inductive output :=
| Disconnect (peer_ip : SocketAddr)
| SendBatchPropose (peer_ip : SocketAddr) (h : BatchHeader)
| SendBatchSignature (peer_ip : SocketAddr) (h : BatchHeader) (signature : Signature)
| BroadcastBatchPropose (h : BatchHeader)
| BroadcastBatchCertified (c : BatchCertificate)
| SignalProposal
| NotifyRoundIncrement.

Record Primary := mk_primary {
  storage : Storage;
  workers : list Worker;
  primary_callback : option X;
  proposed_batch : option Proposal.Proposal;
  latest_proposal_timestamp : option (Z * Z);
  signed_proposals : gmap Address Proposal.signed_proposal;
  outbox : list output;
}.

(** What the handlers read.  [fetch_transmission] and [fetch_certificate] are
    the outcomes of requests to a peer, [rng] the randomness of signatures. *)
Record Env := mk_env {
  ledger : LedgerService;
  rules : LedgerRules;
  gateway : Gateway;
  is_synced : bool;
  now : Z;
  rng : Z;
  fetch_transmission : SocketAddr -> TransmissionID -> result (TransmissionID * Transmission);
  fetch_certificate : SocketAddr -> Field -> result BatchCertificate;
}.

Definition set_storage (s : Storage) (p : Primary) : Primary :=
  mk_primary s (workers p) (primary_callback p) (proposed_batch p) (latest_proposal_timestamp p)
    (signed_proposals p) (outbox p).
Definition set_workers (w : list Worker) (p : Primary) : Primary :=
  mk_primary (storage p) w (primary_callback p) (proposed_batch p) (latest_proposal_timestamp p)
    (signed_proposals p) (outbox p).
Definition set_callback (x : option X) (s : Storage) (p : Primary) : Primary :=
  mk_primary s (workers p) x (proposed_batch p) (latest_proposal_timestamp p)
    (signed_proposals p) (outbox p).
Definition set_proposed (b : option Proposal.Proposal) (p : Primary) : Primary :=
  mk_primary (storage p) (workers p) (primary_callback p) b (latest_proposal_timestamp p)
    (signed_proposals p) (outbox p).
Definition set_latest (t : option (Z * Z)) (p : Primary) : Primary :=
  mk_primary (storage p) (workers p) (primary_callback p) (proposed_batch p) t
    (signed_proposals p) (outbox p).
Definition set_signed (m : gmap Address Proposal.signed_proposal) (p : Primary) : Primary :=
  mk_primary (storage p) (workers p) (primary_callback p) (proposed_batch p)
    (latest_proposal_timestamp p) m (outbox p).
Definition emit (o : output) (p : Primary) : Primary :=
  mk_primary (storage p) (workers p) (primary_callback p) (proposed_batch p)
    (latest_proposal_timestamp p) (signed_proposals p) (outbox p ++ [o]).

(** [Primary::new]. *)
Definition new (s : Storage) : Primary := mk_primary s [] None None None ∅ [].

(** The workers and the callback that [Primary::run] sets. *)
Definition run (callback : option X) (p : Primary) : result Primary :=
  workers ← mapR (fun id => Worker.new id) (seqZ 0 MAX_WORKERS);
  Ok (set_workers workers (set_callback callback (storage p) p)).

(** [Primary::current_round]. *)
Definition current_round (p : Primary) : Z := Storage.current_round (storage p).
(** [Primary::num_workers]. *)
Definition num_workers (p : Primary) : result Z :=
  if decide (u8_max < len (workers p)) then Panic "Too many workers" else Ok (len (workers p)).
(** [Primary::clear_worker_solutions]. *)
Definition clear_worker_solutions (p : Primary) : Primary :=
  set_workers (Worker.clear_solutions <$> workers p) p.

(** [bail!] after the peer was disconnected. *)
Definition disconnect_and_bail {A} (peer_ip : SocketAddr) (msg : string) : SM Primary A :=
  do _ ⇐ smodify (emit (Disconnect peer_ip)); slift (Err msg).

(** ** The gateway *)

(** [Gateway::is_authorized_validator_address]. *)
Definition is_authorized_validator_address (E : Env) (p : Primary) (a : Address) : bool :=
  let member (r : result Committee) := match r with Ok c => is_committee_member c a | _ => false end in
  if member (get_committee_lookback_for_round (ledger E) (current_round p)) then true else
  if member (current_committee (ledger E)) then true else
  let previous_block_height := saturating_sub (latest_block_height (rules E)) MAX_BLOCKS_BEHIND in
  match get_block_round (rules E) previous_block_height with
  | Ok block_round =>
      existsb (fun i => member (get_committee_lookback_for_round (ledger E) (block_round + 2 * i)))
        (seqZ 0 ((current_round p - block_round + 1) / 2))
  | _ => false
  end.

(** [Gateway::is_authorized_validator_ip]. *)
Definition is_authorized_validator_ip (E : Env) (p : Primary) (ip : SocketAddr) : bool :=
  if decide (ip ∈ trusted_peers (gateway E)) then true else
  match connected (gateway E) !! ip with
  | Some a => is_authorized_validator_address E p a
  | None => false
  end.

(** [Gateway::connected_addresses]. *)
Definition connected_addresses (E : Env) : gset Address :=
  list_to_set (map_to_list (connected (gateway E))).*2.

(** ** The workers *)

Definition to_workers (op : Worker -> TransmissionID -> Transmission -> Worker) (ts : entries)
    : SM Primary unit := fun p =>
  let '(r, ws) := Partition.assign_to_workers sha256 op (workers p) ts in (r, set_workers ws p).

(** [Primary::insert_missing_transmissions_into_workers]. *)
Definition insert_missing_transmissions_into_workers (E : Env) (ts : entries) : SM Primary unit :=
  do p ⇐ sget;
  to_workers (fun w i t =>
    (Worker.process_transmission_from_peer (ledger E) (storage p) (proposed_batch p) i t w).2) ts.

(** [Primary::reinsert_transmissions_into_workers]. *)
Definition reinsert_transmissions_into_workers (E : Env) (ts : entries) : SM Primary unit :=
  do p ⇐ sget;
  to_workers (fun w i t => (Worker.reinsert (ledger E) (storage p) (proposed_batch p) i t w).2) ts.

(** ** Rounds *)

(** A method of the storage. *)
Definition on_storage {A} (f : Storage -> result A * Storage) : SM Primary A := fun p =>
  let '(r, s) := f (storage p) in (r, set_storage s p).

(** A call of the callback, if there is one. *)
Definition on_callback {A} (f : SM (X * Storage) A) : SM Primary (option A) := fun p =>
  match primary_callback p with
  | Some x =>
      let '(r, (x, s)) := f (x, storage p) in (a ← r; Ok (Some a), set_callback (Some x) s p)
  | None => (Ok None, p)
  end.

(** [Primary::check_proposed_batch_for_expiration]. *)
Definition check_proposed_batch_for_expiration (E : Env) : SM Primary unit :=
  do p ⇐ sget;
  match proposed_batch p with
  | Some proposal =>
      if decide (Proposal.p_round proposal < current_round p) then
        do _ ⇐ smodify (set_proposed None);
        reinsert_transmissions_into_workers E (Proposal.p_transmissions proposal)
      else sret tt
  | None => sret tt
  end.

(** The loop of [try_increment_to_the_next_round]. *)
Fixpoint fast_forward (E : Env) (fuel : nat) (next_round fast_forward_round : Z) : SM Primary unit :=
  if decide (fast_forward_round < saturating_sub next_round 1) then
    match fuel with
    | O => slift Deadlock
    | S fuel =>
        do r ⇐ on_storage (fun s => Storage.increment_to_next_round (ledger E) s fast_forward_round);
        do _ ⇐ smodify (set_proposed None);
        fast_forward E fuel next_round r
    end
  else sret tt.

(** [Primary::try_increment_to_the_next_round].  Each iteration of its loop
    raises the round, which bounds their number. *)
Definition try_increment_to_the_next_round (E : Env) (next_round : Z) : SM Primary unit :=
  do p ⇐ sget;
  do _ ⇐ (if decide (next_round <= u64_wrap (current_round p + Storage.max_gc_rounds (storage p)))
          then fast_forward E (Z.to_nat (next_round - current_round p)) next_round (current_round p)
          else sret tt);
  do p ⇐ sget;
  let round := current_round p in
  if decide (round < next_round) then
    do advanced ⇐ on_callback (try_advance_to_next_round (ledger E) (now E) round);
    do is_ready ⇐ match advanced with
                  | Some b => sret b
                  | None =>
                      do _ ⇐ on_storage (fun s => Storage.increment_to_next_round (ledger E) s round);
                      sret true
                  end;
    if is_ready && is_synced E then smodify (emit SignalProposal) else sret tt
  else sret tt.

(** The attempt of the round-increment task, in [start_handlers]; the task
    repeats it while the round is [round]. *)
Definition round_increment (E : Env) (round : Z) : SM Primary unit :=
  if negb (is_synced E) then sret tt else
  do p ⇐ sget;
  let authors := Storage.get_certificate_authors_for_round (storage p) round in
  if decide (authors = ∅) then sret tt else
  match get_committee_lookback_for_round (ledger E) round with
  | Ok committee_lookback =>
      if is_quorum_threshold_reached committee_lookback authors
      then try_increment_to_the_next_round E (u64_saturating_add round 1)
      else sret tt
  | Err _ => sret tt
  | r => do _ ⇐ slift r; sret tt
  end.

(** [Primary::ensure_is_signing_round]. *)
Definition ensure_is_signing_round (p : Primary) (batch_round : Z) : result unit :=
  let round := current_round p in
  _ ← ensure (negb (bool_decide (u64_wrap (round + Storage.max_gc_rounds (storage p)) <= batch_round)))
        "Round {batch_round} is too far in the future";
  _ ← ensure (negb (bool_decide (u64_wrap (batch_round + 1) < round)))
        "Primary is on round {current_round}, and no longer signing for round {batch_round}";
  match proposed_batch p with
  | Some proposal =>
      ensure (negb (bool_decide (batch_round < Proposal.p_round proposal)))
        "Our primary at round {signing_round} is no longer signing for round {batch_round}"
  | None => Ok tt
  end.

(** [i64::checked_sub]. *)
Definition i64_checked_sub (a b : Z) : option Z :=
  if decide (- 2 ^ 63 <= a - b < 2 ^ 63) then Some (a - b) else None.

(** [Primary::check_peer_proposal_timestamp]. *)
Definition check_peer_proposal_timestamp (E : Env) (p : Primary) (previous_round : Z) (author : Address)
    (timestamp : Z) : result unit :=
  _ ← ensure (bool_decide (author <> account_address (gateway E)))
        "Peer cannot propose a batch that is authored by myself";
  match Storage.get_certificate_for_round_with_author (storage p) previous_round author with
  | Some certificate =>
      elapsed ← ok_or "Timestamp cannot be before the previous certificate at round {previous_round}"
                  (i64_checked_sub timestamp (Narwhal.timestamp certificate));
      ensure (negb (bool_decide (elapsed < MIN_BATCH_DELAY)))
        "Timestamp is too soon after the previous certificate at round {previous_round}"
  | None => Ok tt
  end.

(** [Primary::check_own_proposal_timestamp]. *)
Definition check_own_proposal_timestamp (previous_timestamp timestamp : Z) : result bool :=
  elapsed ← ok_or "Timestamp cannot be before the previous certificate at round {previous_round}"
              (i64_checked_sub timestamp previous_timestamp);
  Ok (bool_decide (MIN_BATCH_DELAY <= elapsed)).

(** ** Proposing a batch *)

(** [BatchHeader::batch_spend_limit]. *)
Definition batch_spend_limit (E : Env) (height : Z) : result Z :=
  limit ← unwrap "called `Option::unwrap()` on a `None` value" (transaction_spend_limit (rules E) height);
  Ok (u64_wrap (limit * MAX_TRANSMISSIONS_PER_BATCH) / 20).

Definition deserialize_transaction (transaction : Data Transaction) : result Transaction :=
  match transaction with
  | Object transaction => Ok transaction
  | Buffer bytes => read_transaction (take (Z.to_nat LATEST_MAX_TRANSACTION_SIZE) bytes)
  end.

(** What becomes of a transmission of the ready queue: it is dropped, it is
    included and the costs are those given, or the costs exceed the limit. *)
Inductive verdict := Discard | Include (cost : Z) | OverLimit.

(** The check that a transmission is still valid, in [propose_batch]. *)
Definition check_transmission (E : Env) (proposal_cost : Z) (i : TransmissionID) (t : Transmission)
    : result verdict :=
  match i, t with
  | IdSolution solution_id checksum, TSolution solution =>
      if bool_decide (data_to_checksum write_solution solution = Ok checksum) then
        match check_solution_basic (rules E) solution_id solution with
        | Ok _ => Ok (Include proposal_cost)
        | Err _ => Ok Discard
        | Panic e => Panic e
        | Deadlock => Deadlock
        end
      else Ok Discard
  | IdTransaction transaction_id checksum, TTransaction data =>
      if bool_decide (data_to_checksum write_transaction data = Ok checksum) then
        transaction ← deserialize_transaction data;
        let current_block_height := latest_block_height (rules E) in
        version ← consensus_version (rules E) current_block_height;
        match transaction_spend_in_microcredits (rules E) transaction version with
        | Ok cost =>
            match check_transaction_basic (rules E) transaction_id transaction with
            | Ok _ =>
                match u64_checked_add proposal_cost cost with
                | Some next_proposal_cost =>
                    limit ← batch_spend_limit E current_block_height;
                    if decide (limit < next_proposal_cost) then Ok OverLimit
                    else Ok (Include next_proposal_cost)
                | None => Ok Discard
                end
            | Err _ => Ok Discard
            | Panic e => Panic e
            | Deadlock => Deadlock
            end
        | Err _ => Ok Discard
        | Panic e => Panic e
        | Deadlock => Deadlock
        end
      else Ok Discard
  | _, _ => Ok Discard
  end.

(** The transmissions of the proposal so far, and their costs. *)
Abbreviation draft := (entries * Z)%type.

(** The loop over the ready queue of one worker, of which [n] transmissions are
    in the proposal; [true] when the outer loop ends too.  Every iteration
    takes a transmission off the queue, so its length bounds them. *)
Fixpoint drain_worker (E : Env) (s : Storage) (fuel : nat) (d : draft) (n : Z) (w : Worker)
    : result (bool * draft) * Worker :=
  match fuel with
  | O => (Deadlock, w)
  | S fuel =>
      match Worker.remove_front w with
      | (None, w) => (Ok (false, d), w)
      | (Some (i, t), w) =>
          if decide (MAX_TRANSMISSIONS_PER_BATCH <= len d.1) then (Ok (true, d), Worker.insert_front i t w)
          else if decide (Worker.MAX_TRANSMISSIONS_PER_WORKER <= n) then
            (Ok (false, d), Worker.insert_front i t w)
          else if unwrap_or true (ledger_contains_transmission (ledger E) i) then drain_worker E s fuel d n w
          else if negb (bool_decide (d.1 = [])) && Storage.contains_transmission s i then
            drain_worker E s fuel d n w
          else
            match check_transmission E d.2 i t with
            | Ok Discard => drain_worker E s fuel d n w
            | Ok OverLimit => (Ok (true, d), Worker.insert_front i t w)
            | Ok (Include cost) => drain_worker E s fuel (imap_insert i t d.1, cost) (n + 1) w
            | Err e => (Err e, w)
            | Panic e => (Panic e, w)
            | Deadlock => (Deadlock, w)
            end
      end
  end.

Definition queue_length (w : Worker) : nat := length (Ready.transmissions (Worker.w_ready w)).

(** The loop over the workers. *)
Fixpoint drain_workers (E : Env) (s : Storage) (d : draft) (ws : list Worker)
    : result draft * list Worker :=
  match ws with
  | [] => (Ok d, [])
  | w :: ws =>
      match drain_worker E s (S (queue_length w)) d 0 w with
      | (Ok (true, d), w) => (Ok d, w :: ws)
      | (Ok (false, d), w) => let '(r, ws) := drain_workers E s d ws in (r, w :: ws)
      | (Err e, w) => (Err e, w :: ws)
      | (Panic e, w) => (Panic e, w :: ws)
      | (Deadlock, w) => (Deadlock, w :: ws)
      end
  end.

(** The batch that is proposed already, sent again to the validators that did
    not sign it. *)
Definition rebroadcast (E : Env) (proposal : Proposal.Proposal) : SM Primary unit :=
  do p ⇐ sget;
  let h := Proposal.p_batch_header proposal in
  if bool_decide (current_round p < Proposal.p_round proposal)
     || existsb (fun id => negb (Storage.contains_certificate (storage p) id)) (h_previous_certificate_ids h)
  then sret tt else
  do committee ⇐ slift (get_committee_lookback_for_round (ledger E) (Proposal.p_round proposal));
  sfold (fun _ a => match address_peers (gateway E) !! a with
                    | Some peer_ip => smodify (emit (SendBatchPropose peer_ip h))
                    | None => sret tt
                    end) tt (elements (Proposal.nonsigners proposal committee)).

(** Whether the certificates of the previous round reach a quorum. *)
Definition is_ready_to_propose (E : Env) (round previous_round : Z) (previous : list BatchCertificate)
    : result bool :=
  if decide (0 < previous_round) then
    committee ← Storage.or_bail "Cannot propose a batch for round {round}: the committee lookback is not known yet"
                  (get_committee_lookback_for_round (ledger E) previous_round);
    Ok (is_quorum_threshold_reached committee (list_to_set (author <$> previous)))
  else Ok true.

(** The end of [propose_batch]: the batch is signed, sent to all validators and
    stored. *)
Definition sign_and_propose (E : Env) (round : Z) (committee_lookback : Committee)
    (previous : list BatchCertificate) (transmissions : entries) : SM Primary bool :=
  do _ ⇐ smodify (set_latest (Some (round, now E)));
  match (h ← header_new (account_key (gateway E)) round (now E) (committee_id committee_lookback)
               transmissions.*1 (iset_of_list id (cert_id <$> previous)) (rng E);
         proposal ← Proposal.new committee_lookback h transmissions; Ok (h, proposal)) with
  | Ok (h, proposal) =>
      do _ ⇐ smodify (emit (BroadcastBatchPropose h));
      do _ ⇐ smodify (set_proposed (Some proposal));
      sret true
  | r => fun p => (_ ← r; Ok true, (reinsert_transmissions_into_workers E transmissions p).2)
  end.

(** [Primary::propose_batch]. *)
Definition propose_batch (E : Env) : SM Primary bool := fun p0 =>
  match check_proposed_batch_for_expiration E p0 with
  | (Ok _, p) =>
      let round := current_round p in
      let previous_round := saturating_sub round 1 in
      (do _ ⇐ slift (ensure (bool_decide (0 < round)) "Round 0 cannot have transaction batches");
       let below := match latest_proposal_timestamp p with
                    | Some (latest_round, _) => bool_decide (round < latest_round)
                    | None => false
                    end in
       if below then sret false else
       match proposed_batch p with
       | Some proposal => do _ ⇐ rebroadcast E proposal; sret false
       | None =>
           do in_time ⇐ slift match latest_proposal_timestamp p with
                              | Some (_, latest_timestamp) => check_own_proposal_timestamp latest_timestamp (now E)
                              | None => Ok true
                              end;
           if negb in_time then sret false else
           if Storage.contains_certificate_in_round_from (storage p) round (account_address (gateway E)) then
             do _ ⇐ on_callback (try_advance_to_next_round (ledger E) (now E) round); sret false
           else
           let proposed := match latest_proposal_timestamp p with
                           | Some (latest_round, _) => bool_decide (latest_round = round)
                           | None => false
                           end in
           if proposed then sret false else
           do committee_lookback ⇐ slift (get_committee_lookback_for_round (ledger E) round);
           if negb (is_quorum_threshold_reached committee_lookback
                      ({[account_address (gateway E)]} ∪ connected_addresses E)) then sret false else
           let previous := Storage.get_certificates_for_round (storage p) previous_round in
           do is_ready ⇐ slift (is_ready_to_propose E round previous_round previous);
           if negb is_ready then sret false else
           let '(drained, ws) := drain_workers E (storage p) ([], 0) (workers p) in
           do _ ⇐ smodify (set_workers ws);
           do d ⇐ slift drained;
           sign_and_propose E round committee_lookback previous d.1
       end) p
  | (Err _, p) => (Ok false, p)
  | (Panic e, p) => (Panic e, p)
  | (Deadlock, p) => (Deadlock, p)
  end.

(** ** Fetching what a batch refers to *)

Definition worker_for (p : Primary) (i : TransmissionID) : result Worker :=
  n ← num_workers p;
  id ← Storage.or_bail "Unable to assign transmission ID '{transmission_id}' to a worker"
         (Partition.assign_to_worker sha256 i n);
  ok_or "Unable to find worker {worker_id}" (workers p !! Z.to_nat id).

(** [Primary::fetch_missing_transmissions]; the requests are answered one after
    the other. *)
Definition fetch_missing_transmissions (E : Env) (peer_ip : SocketAddr) (h : BatchHeader)
    : SM Primary (gmap TransmissionID Transmission) :=
  do p ⇐ sget;
  if decide (h_round h <= Storage.gc_round (storage p)) then sret ∅ else
  if Storage.contains_batch (storage p) (batch_id h) then sret ∅ else
  let missing := base.filter (fun i => Storage.contains_transmission (storage p) i = false) (h_transmission_ids h) in
  do ws ⇐ slift (mapR (fun i => w ← worker_for p i; Ok (i, w)) missing);
  sfold (fun (ts : gmap TransmissionID Transmission) iw =>
    do e ⇐ (fun p =>
      let '(r, s) := Worker.get_or_fetch_transmission (storage p) (proposed_batch p) iw.2 iw.1
                       (fetch_transmission E peer_ip iw.1) in
      (r, set_storage s p));
    sret (<[e.1 := e.2]> ts)) ∅ ws.

(** [Primary::fetch_missing_certificates]. *)
Definition fetch_missing_certificates (E : Env) (peer_ip : SocketAddr) (certificate_ids : list Field)
    : SM Primary (list BatchCertificate) :=
  do p ⇐ sget;
  do found ⇐ slift (foldM (fun (acc : list BatchCertificate * list Field) id =>
      in_ledger ← ledger_contains_certificate (ledger E) id;
      if (in_ledger : bool) then Ok acc else
      if Storage.contains_certificate (storage p) id then Ok acc else
      match Storage.get_unprocessed_certificate (storage p) id with
      | Some c => Ok (iset_insert cert_id c acc.1, acc.2)
      | None => Ok (acc.1, acc.2 ++ [id])
      end) ([], []) certificate_ids);
  slift (foldM (fun acc id => c ← fetch_certificate E peer_ip id; Ok (iset_insert cert_id c acc)) found.1 found.2).

(** [Primary::fetch_missing_previous_certificates]. *)
Definition fetch_missing_previous_certificates (E : Env) (peer_ip : SocketAddr) (h : BatchHeader)
    : SM Primary (list BatchCertificate) :=
  do p ⇐ sget;
  if decide (h_round h = 1 \/ h_round h <= u64_wrap (Storage.gc_round (storage p) + 1)) then sret []
  else fetch_missing_certificates E peer_ip (h_previous_certificate_ids h).

(** [join_all] over the previous certificates: all are processed, and the last
    error is returned. *)
Fixpoint join_all (ms : list (SM Primary unit)) (latest_error : result unit) : SM Primary unit := fun p =>
  match ms with
  | [] => (latest_error, p)
  | m :: ms =>
      match m p with
      | (Ok _, p) => join_all ms latest_error p
      | (Err e, p) => join_all ms (Err e) p
      | (Panic e, p) => (Panic e, p)
      | (Deadlock, p) => (Deadlock, p)
      end
  end.

(** [Primary::sync_with_batch_header_from_peer], where [sync_certificate] is
    [sync_with_certificate_from_peer].  The previous certificates are
    processed one after the other. *)
Definition sync_header_with (sync_certificate : BatchCertificate -> SM Primary unit) (E : Env)
    (is_syncing check_previous_certificates : bool) (peer_ip : SocketAddr) (h : BatchHeader)
    : SM Primary (gmap TransmissionID Transmission) :=
  do p ⇐ sget;
  let batch_round := h_round h in
  if decide (batch_round <= Storage.gc_round (storage p)) then
    slift (Err "Round {batch_round} is too far in the past") else
  if negb is_syncing && negb (is_synced E) then
    slift (Err "Failed to process batch header (node is syncing)") else
  do committee_lookback ⇐ slift (get_committee_lookback_for_round (ledger E) batch_round);
  let quorum := is_quorum_threshold_reached committee_lookback
                  (Storage.get_certificate_authors_for_round (storage p) batch_round) in
  let is_behind_schedule := quorum && bool_decide (current_round p < batch_round) in
  let is_peer_far_in_future :=
    bool_decide (u64_wrap (current_round p + Storage.max_gc_rounds (storage p)) < batch_round) in
  do _ ⇐ (if is_behind_schedule || is_peer_far_in_future
          then try_increment_to_the_next_round E batch_round else sret tt);
  do missing_transmissions ⇐ fetch_missing_transmissions E peer_ip h;
  do missing_previous_certificates ⇐ fetch_missing_previous_certificates E peer_ip h;
  do _ ⇐ join_all ((fun c =>
      do _ ⇐ (if check_previous_certificates : bool
              then slift (Storage.check_incoming_certificate (ledger E) c) else sret tt);
      sync_certificate c) <$> missing_previous_certificates) (Ok tt);
  sret missing_transmissions.

(** [Primary::sync_with_certificate_from_peer].  The recursion follows the
    previous certificates; [fuel] bounds its depth. *)
Fixpoint sync_with_certificate_from_peer (E : Env) (fuel : nat) (is_syncing : bool) (peer_ip : SocketAddr)
    (c : BatchCertificate) : SM Primary unit :=
  match fuel with
  | O => slift Deadlock
  | S fuel =>
      do p ⇐ sget;
      if decide (round c <= Storage.gc_round (storage p)) then sret tt else
      if Storage.contains_certificate (storage p) (cert_id c) then sret tt else
      if negb is_syncing && negb (is_synced E) then
        slift (Err "Failed to process certificate (node is syncing)") else
      do missing_transmissions ⇐
        sync_header_with (sync_with_certificate_from_peer E fuel is_syncing peer_ip) E is_syncing false peer_ip
          (batch_header c);
      do p ⇐ sget;
      if Storage.contains_certificate (storage p) (cert_id c) then sret tt else
      do _ ⇐ on_storage (fun s => Storage.insert_certificate (ledger E) (now E) s c missing_transmissions ∅);
      do _ ⇐ on_callback (add_new_certificate (ledger E) c);
      smodify (emit NotifyRoundIncrement)
  end.

Definition sync_with_batch_header_from_peer (E : Env) (fuel : nat)
    (is_syncing check_previous_certificates : bool) (peer_ip : SocketAddr) (h : BatchHeader)
    : SM Primary (gmap TransmissionID Transmission) :=
  sync_header_with (sync_with_certificate_from_peer E fuel is_syncing peer_ip) E is_syncing
    check_previous_certificates peer_ip h.

(** ** Signing the batches of others *)

(** The event [BatchPropose]: a round and a header, possibly still encoded. *)
Record BatchPropose := mk_batch_propose { bp_round : Z; bp_header : Data BatchHeader }.

Definition deserialize_header (d : Data BatchHeader) : result BatchHeader :=
  match d with
  | Object h => Ok h
  | Buffer bytes => '(h, _) ← read_header false bytes; Ok h
  end.

(** The first part of [Primary::process_batch_propose_from_peer], up to the
    synchronization with the header: the header, unless the handler returns. *)
Definition begin_batch_propose (E : Env) (peer_ip : SocketAddr) (bp : BatchPropose)
    : SM Primary (option BatchHeader) :=
  let batch_round := bp_round bp in
  do h ⇐ slift (deserialize_header (bp_header bp));
  if decide (batch_round <> h_round h) then
    disconnect_and_bail peer_ip "Malicious peer - proposed round {batch_round}, but sent batch for round {}" else
  let batch_author := h_author h in
  match connected (gateway E) !! peer_ip with
  | None => slift (Err "Batch proposal from a disconnected validator")
  | Some address =>
      if decide (address <> batch_author) then
        disconnect_and_bail peer_ip "Malicious peer - proposed batch from a different validator ({batch_author})" else
      do p ⇐ sget;
      if negb (is_authorized_validator_address E p batch_author) then
        disconnect_and_bail peer_ip "Malicious peer - proposed batch from a non-committee member ({batch_author})" else
      if decide (account_address (gateway E) = batch_author) then
        slift (Err "Invalid peer - proposed batch from myself ({batch_author})") else
      do committee_lookback ⇐ slift (get_committee_lookback_for_round (ledger E) batch_round);
      if decide (committee_id committee_lookback <> h_committee_id h) then
        disconnect_and_bail peer_ip "Malicious peer - proposed batch has a different committee ID" else
      let fresh :=
        if Storage.contains_batch (storage p) (batch_id h) then sret None else
        match check_peer_proposal_timestamp E p (saturating_sub batch_round 1) batch_author (h_timestamp h) with
        | Err _ => disconnect_and_bail peer_ip "Malicious behavior of peer '{peer_ip}'"
        | r =>
            do _ ⇐ slift r;
            if bool_decide (IdRatification ∈ h_transmission_ids h) then
              disconnect_and_bail peer_ip "Malicious peer - proposed batch contains an unsupported ratification"
            else sret (Some h)
        end in
      match signed_proposals p !! batch_author with
      | Some (signed_round, signed_batch_id, signature) =>
          if decide (h_round h < signed_round) then
            slift (Err "Peer ({batch_author}) proposed a batch for a previous round") else
          if decide (signed_round = h_round h /\ signed_batch_id <> batch_id h) then
            slift (Err "Peer ({batch_author}) proposed another batch for the same round ({signed_round})") else
          if decide (signed_round = h_round h /\ signed_batch_id = batch_id h) then
            do _ ⇐ smodify (emit (SendBatchSignature peer_ip h signature)); sret None
          else fresh
      | None => fresh
      end
  end.

(** The check of the missing transmissions, which replaces them by what was
    deserialized; [None] when one is not well-formed. *)
Definition check_missing_transmissions (ts : gmap TransmissionID Transmission)
    : result (option (gmap TransmissionID Transmission)) :=
  match mapR (fun e : TransmissionID * Transmission =>
                t ← Worker.ensure_transmission_is_well_formed e.1 e.2; Ok (e.1, t)) (map_to_list ts) with
  | Ok es => Ok (Some (list_to_map es))
  | Err _ => Ok None
  | Panic e => Panic e
  | Deadlock => Deadlock
  end.

(** The costs of a transaction, in the loop over the transmissions of a
    proposed batch; the costs of the batch so far are returned when the
    transaction is too large to be considered. *)
Definition add_transaction_cost (E : Env) (block_height proposal_cost : Z) (data : Data Transaction)
    : result Z :=
  transaction ← deserialize_transaction data;
  version ← consensus_version (rules E) block_height;
  let too_large := match max_transaction_size (rules E) block_height with
                   | Some max_tx_size => bool_decide (version < V14) && bool_decide (max_tx_size < len (write_transaction transaction))
                   | None => false
                   end in
  if too_large then Ok proposal_cost else
  cost ← Storage.or_bail "Invalid batch proposal - Unable to compute transaction spent cost on transaction"
           (transaction_spend_in_microcredits (rules E) transaction version);
  next_proposal_cost ← ok_or "Invalid batch proposal - Batch proposal overflowed on transaction"
                         (u64_checked_add proposal_cost cost);
  limit ← batch_spend_limit E block_height;
  _ ← ensure (negb (bool_decide (limit < next_proposal_cost)))
        "Malicious peer - Batch proposal exceeds the spend limit on transaction";
  Ok next_proposal_cost.

(** The loop itself; [None] when a transmission is not found. *)
Fixpoint check_spend_limit (E : Env) (block_height proposal_cost : Z) (ids : list TransmissionID)
    : SM Primary (option Z) :=
  match ids with
  | [] => sret (Some proposal_cost)
  | i :: ids =>
      do p ⇐ sget;
      do n ⇐ slift (num_workers p);
      do worker_id ⇐ slift (Partition.assign_to_worker sha256 i n);
      match workers p !! Z.to_nat worker_id with
      | None => sret None
      | Some w =>
          do o ⇐ (fun p => let '(o, s) := Worker.get_transmission (storage p) (proposed_batch p) w i in
                           (Ok o, set_storage s p));
          match o with
          | None => sret None
          | Some t =>
              do cost ⇐ slift match i, t with
                              | IdTransaction _ _, TTransaction data => add_transaction_cost E block_height proposal_cost data
                              | _, _ => Ok proposal_cost
                              end;
              check_spend_limit E block_height cost ids
          end
      end
  end.

(** The second part, after the synchronization: whether the batch is signed. *)
Definition check_batch_propose (E : Env) (peer_ip : SocketAddr) (h : BatchHeader)
    (missing_transmissions : gmap TransmissionID Transmission) : SM Primary bool :=
  do checked ⇐ slift (check_missing_transmissions missing_transmissions);
  match checked with
  | None => sret false
  | Some missing_transmissions =>
      do p ⇐ sget;
      match ensure_is_signing_round p (h_round h) with
      | Err _ => sret false
      | r =>
          do _ ⇐ slift r;
          do o ⇐ slift (Storage.check_batch_header (ledger E) (now E) (storage p) h missing_transmissions ∅);
          match o with
          | None => sret false
          | Some missing_transmissions =>
              do _ ⇐ insert_missing_transmissions_into_workers E (map_to_list missing_transmissions);
              let block_height := u32_wrap (latest_block_height (rules E) + 1) in
              do version ⇐ slift (consensus_version (rules E) block_height);
              if decide (V5 <= version) then
                do cost ⇐ check_spend_limit E block_height 0 (h_transmission_ids h);
                sret (bool_decide (is_Some cost))
              else sret true
          end
      end
  end.

(** The third part: the batch ID is signed and the signature sent, unless a
    batch of the round was signed in the meantime. *)
Definition end_batch_propose (E : Env) (peer_ip : SocketAddr) (h : BatchHeader) : SM Primary unit :=
  do signature ⇐ slift (sign (account_key (gateway E)) (batch_id h) (rng E));
  do p ⇐ sget;
  let record := do _ ⇐ smodify (set_signed (<[h_author h := (h_round h, batch_id h, signature)]> (signed_proposals p)));
                smodify (emit (SendBatchSignature peer_ip h signature)) in
  match signed_proposals p !! h_author h with
  | Some (signed_round, _, _) => if decide (signed_round = h_round h) then sret tt else record
  | None => record
  end.

(** [Primary::process_batch_propose_from_peer]. *)
Definition process_batch_propose_from_peer (E : Env) (fuel : nat) (peer_ip : SocketAddr) (bp : BatchPropose)
    : SM Primary unit :=
  do o ⇐ begin_batch_propose E peer_ip bp;
  match o with
  | None => sret tt
  | Some h =>
      do missing_transmissions ⇐ sync_with_batch_header_from_peer E fuel false true peer_ip h;
      do signable ⇐ check_batch_propose E peer_ip h missing_transmissions;
      if signable : bool then end_batch_propose E peer_ip h else sret tt
  end.

(** ** Certifying the own batch *)

(** [Primary::store_and_broadcast_certificate]. *)
Definition store_and_broadcast_certificate (E : Env) (proposal : Proposal.Proposal) (committee : Committee)
    : SM Primary unit :=
  do ct ⇐ slift (Proposal.to_certificate proposal committee);
  let '(certificate, transmissions) := ct in
  do _ ⇐ on_storage (fun s => Storage.insert_certificate (ledger E) (now E) s certificate
                                (list_to_map transmissions) ∅);
  do _ ⇐ on_callback (add_new_certificate (ledger E) certificate);
  do _ ⇐ smodify (emit (BroadcastBatchCertified certificate));
  smodify (emit NotifyRoundIncrement).

(** The part of [process_batch_signature_from_peer] under the lock of the
    proposed batch: the proposal, taken when its signatures reach a quorum. *)
Definition add_signature_to_proposal (E : Env) (peer_ip : SocketAddr) (id : Field) (signature : Signature)
    : SM Primary (option Proposal.Proposal) :=
  do p ⇐ sget;
  match proposed_batch p with
  | None => sret None
  | Some proposal =>
      if decide (Proposal.p_batch_id proposal <> id) then
        if Storage.contains_batch (storage p) id then sret None
        else slift (Err "Unknown batch ID '{batch_id}', expected '{}' for round {}")
      else
      do committee_lookback ⇐ slift (get_committee_lookback_for_round (ledger E) (Proposal.p_round proposal));
      do signer ⇐ slift (ok_or "Signature is from a disconnected validator" (connected (gateway E) !! peer_ip));
      let '(r, proposal) := Proposal.add_signature proposal signer signature committee_lookback in
      do _ ⇐ smodify (set_proposed (Some proposal));
      do new_signature ⇐ slift r;
      if new_signature && Proposal.is_quorum_reached proposal committee_lookback then
        do _ ⇐ smodify (set_proposed None); sret (Some proposal)
      else sret None
  end.

(** [Primary::process_batch_signature_from_peer]. *)
Definition process_batch_signature_from_peer (E : Env) (peer_ip : SocketAddr) (id : Field) (signature : Signature)
    : SM Primary unit :=
  do _ ⇐ check_proposed_batch_for_expiration E;
  let signer := to_address signature in
  if decide (connected (gateway E) !! peer_ip <> Some signer) then
    disconnect_and_bail peer_ip "Malicious peer - batch signature is from a different validator ({signer})" else
  if decide (account_address (gateway E) = signer) then
    slift (Err "Invalid peer - received a batch signature from myself ({signer})") else
  do o ⇐ add_signature_to_proposal E peer_ip id signature;
  match o with
  | None => sret tt
  | Some proposal =>
      do committee_lookback ⇐ slift (get_committee_lookback_for_round (ledger E) (Proposal.p_round proposal));
      fun p =>
        match store_and_broadcast_certificate E proposal committee_lookback p with
        | (Err e, p) =>
            (do _ ⇐ reinsert_transmissions_into_workers E (Proposal.p_transmissions proposal); slift (Err e)) p
        | r => r
        end
  end.

(** ** Certificates of others *)

(** [Primary::process_batch_certificate_from_peer]. *)
Definition process_batch_certificate_from_peer (E : Env) (fuel : nat) (peer_ip : SocketAddr)
    (c : BatchCertificate) : SM Primary unit :=
  do p ⇐ sget;
  if negb (is_authorized_validator_ip E p peer_ip) then
    disconnect_and_bail peer_ip "Malicious peer - Received a batch certificate from an unauthorized validator IP" else
  if Storage.contains_certificate (storage p) (cert_id c) then sret tt else
  do _ ⇐ (if Storage.contains_unprocessed_certificate (storage p) (cert_id c) then sret tt
          else on_storage (fun s => Storage.insert_unprocessed_certificate s c));
  if decide (account_address (gateway E) = author c) then
    slift (Err "Received a batch certificate for myself ({author})") else
  do _ ⇐ slift (Storage.check_incoming_certificate (ledger E) c);
  do _ ⇐ sync_with_certificate_from_peer E fuel false peer_ip c;
  do committee_lookback ⇐ slift (get_committee_lookback_for_round (ledger E) (round c));
  do p ⇐ sget;
  let is_quorum := is_quorum_threshold_reached committee_lookback
                     (Storage.get_certificate_authors_for_round (storage p) (round c)) in
  if decide (committee_id committee_lookback <> h_committee_id (batch_header c)) then
    disconnect_and_bail peer_ip "Batch certificate has a different committee ID" else
  let should_advance := match latest_proposal_timestamp p with
                        | Some (latest_round, _) => bool_decide (latest_round < round c)
                        | None => true
                        end in
  if is_quorum && should_advance && bool_decide (current_round p <= round c)
  then smodify (emit NotifyRoundIncrement) else sret tt.

(** ** The other handlers of [start_handlers] *)

(** A handler that skips its message while the node is syncing. *)
Definition when_synced (E : Env) (m : SM Primary unit) : SM Primary unit :=
  if is_synced E then m else sret tt.

(** The handlers of proposed batches, signatures, certified batches and pings. *)
Definition on_batch_propose (E : Env) (fuel : nat) (peer_ip : SocketAddr) (bp : BatchPropose) : SM Primary unit :=
  when_synced E (process_batch_propose_from_peer E fuel peer_ip bp).
Definition on_batch_signature (E : Env) (peer_ip : SocketAddr) (id : Field) (signature : Signature) : SM Primary unit :=
  when_synced E (process_batch_signature_from_peer E peer_ip id signature).
Definition on_batch_certified (E : Env) (fuel : nat) (peer_ip : SocketAddr) (d : Data BatchCertificate)
    : SM Primary unit :=
  when_synced E
    (do c ⇐ slift match d with
                  | Object c => Ok c
                  | Buffer bytes => '(c, _) ← read_certificate false bytes; Ok c
                  end;
     process_batch_certificate_from_peer E fuel peer_ip c).

(** The certificate of a primary ping: the latest of the primary itself. *)
Fixpoint find_primary_certificate (s : Storage) (a : Address) (round : nat) : option BatchCertificate :=
  match round with
  | O => None
  | S previous =>
      match Storage.get_certificate_for_round_with_author s (Z.of_nat round) a with
      | Some c => Some c
      | None => find_primary_certificate s a previous
      end
  end.
Definition primary_ping_certificate (E : Env) (p : Primary) : option BatchCertificate :=
  find_primary_certificate (storage p) (account_address (gateway E)) (Z.to_nat (current_round p)).

(** The handlers of unconfirmed solutions and transactions, with the callbacks
    of the worker that are sent the transmission. *)
Definition on_worker {A} (i : TransmissionID) (f : Primary -> Worker -> A * Worker) : SM Primary (option A) :=
  do p ⇐ sget;
  do n ⇐ slift (num_workers p);
  match Partition.assign_to_worker sha256 i n with
  | Err _ => sret None
  | r =>
      do id ⇐ slift r;
      do w ⇐ slift (unwrap "Invalid worker ID" (workers p !! Z.to_nat id));
      let '(a, w) := f p w in
      do _ ⇐ smodify (set_workers (<[Z.to_nat id := w]> (workers p)));
      sret (Some a)
  end.
Definition on_unconfirmed_solution (E : Env) (id : SolutionID) (solution : Data Solution)
    : SM Primary (option (result bool * list C)) :=
  match data_to_checksum write_solution solution with
  | Err _ => sret None
  | r =>
      do checksum ⇐ slift r;
      on_worker (IdSolution id checksum) (fun p =>
        Worker.process_unconfirmed_solution (ledger E) (storage p) (proposed_batch p)
          (check_solution_basic (rules E)) id solution)
  end.
Definition on_unconfirmed_transaction (E : Env) (id : TransactionID) (transaction : Data Transaction)
    : SM Primary (option (result bool * list C)) :=
  match data_to_checksum write_transaction transaction with
  | Err _ => sret None
  | r =>
      do checksum ⇐ slift r;
      on_worker (IdTransaction id checksum) (fun p =>
        Worker.process_unconfirmed_transaction (ledger E) (storage p) (proposed_batch p)
          (check_transaction_basic (rules E)) id transaction)
  end.

(** ** Restarts *)

(** [Primary::shut_down]: the proposal cache it stores, and what is left. *)
Definition shut_down (E : Env) (p : Primary) : Proposal.ProposalCache * Primary :=
  let latest_round := match proposed_batch p with
                      | Some proposal => Proposal.p_round proposal
                      | None => match latest_proposal_timestamp p with Some (round, _) => round | None => 0 end
                      end in
  (Proposal.mk_cache latest_round (proposed_batch p) (signed_proposals p)
     (Storage.get_pending_certificates (ledger E) (storage p)),
   set_proposed None (set_callback None (storage p) p)).

(** [Primary::load_proposal_cache]; [file] is the content of the file, if it
    can be read, and [exists_] tells whether there is one. *)
Definition load_proposal_cache (E : Env) (fuel : nat) (exists_ : bool) (file : option (list Z)) : SM Primary unit :=
  if exists_ then
    do cache ⇐ slift (Proposal.load (account_address (gateway E)) file);
    do _ ⇐ smodify (fun p =>
      set_signed (Proposal.signed_proposals cache) (set_proposed (Proposal.proposal cache)
        (set_latest (Some (Proposal.latest_round cache, now E)) p)));
    sfold (fun _ c p =>
      match sync_with_certificate_from_peer E fuel true DUMMY_SELF_IP c p with
      | (Err _, p) => (Ok tt, p)
      | r => r
      end) tt (Proposal.pending_certificates cache)
  else sret tt.

End Primary.
End Primary.
