(* ===== verification/PrimaryProps.v ===== *)
(** * Properties of the primary

    The storage of the primary only moves by the operations of [Storage], so
    its invariants hold whatever the primary and the BFT do with it; a
    validator proposes at most one batch per round, also across restarts, and
    signs at most one batch per author and round as long as the handlers of
    proposals do not overlap; when they do, it can sign two. *)

From S2P Require Import Prelude Network Sockets Committee Narwhal Lru StorageService Ledger Storage StorageProps Proposal Ready BlockSync Worker Primary.
Import Primary.

(** What the primary relies on: the callback changes the storage only through
    operations of the storage. *)
Class PrimaryCallbackLaws `{N : Network} {Svc : Type} `{!StorageServiceOps Svc} {Cache : Type}
    `{!LruOps Cache Field BatchCertificate} (X : Type)
    `{!PrimaryCallback (Storage.Storage Svc Cache) X} := {
  advance_steps L now r (xs : X * Storage.Storage Svc Cache) :
    rtc (StorageProps.step (get_committee_lookback_for_round L)) xs.2 (try_advance_to_next_round L now r xs).2.2;
  add_steps L c (xs : X * Storage.Storage Svc Cache) :
    rtc (StorageProps.step (get_committee_lookback_for_round L)) xs.2 (add_new_certificate L c xs).2.2;
}.

Create HintDb calm.

Module PrimaryProps.
Section PrimaryProps.
Context `{N : Network} {TO : TransmissionOps}.
Context {Svc : Type} `{!StorageServiceOps Svc}.
Context {Cache : Type} `{!LruOps Cache Field BatchCertificate}.
Context {C X : Type} `{!PrimaryCallback (Storage.Storage Svc Cache) X} `{!PrimaryCallbackLaws X}.
Context (sha256 : list Z -> list Z).
Context (lookback : Z -> result Committee).

Abbreviation P := (Primary (Svc := Svc) (Cache := Cache) (C := C) (X := X)).
Abbreviation St := (Storage.Storage Svc Cache).

(** ** What most operations leave alone *)

(** Messages other than a proposal of the primary and a signature. *)
Definition harmless (o : output) : Prop :=
  match o with
  | SendBatchSignature _ _ _ | BroadcastBatchPropose _ | SendBatchPropose _ _ => False
  | _ => True
  end.

(** The proposed batch, if there is one left, is the same up to its
    signatures. *)
Definition same_proposal (b b' : option Proposal.Proposal) : Prop :=
  match b' with
  | Some q' => exists q, b = Some q /\ Proposal.p_batch_header q' = Proposal.p_batch_header q
  | None => True
  end.

Record quiet (p p' : P) : Prop := {
  q_storage : rtc (StorageProps.step lookback) (storage p) (storage p');
  q_signed : signed_proposals p' = signed_proposals p;
  q_latest : latest_proposal_timestamp p' = latest_proposal_timestamp p;
  q_proposed : same_proposal (proposed_batch p) (proposed_batch p');
  q_outbox : exists l, outbox p' = outbox p ++ l /\ Forall harmless l;
}.

#[local] Instance quiet_preorder : PreOrder quiet.
Proof.
  split.
  - intros p. split; [done..| |exists []; by rewrite app_nil_r].
    destruct (proposed_batch p) as [q|] eqn:E; [by exists q|done].
  - intros p p' p'' [H1 H2 H3 H4 (l & H5 & H5')] [G1 G2 G3 G4 (k & G5 & G5')]. split.
    + by etrans.
    + congruence.
    + congruence.
    + unfold same_proposal in *. destruct (proposed_batch p'') as [q''|]; [|done].
      destruct G4 as (q' & Eq' & G4). rewrite Eq' in H4. destruct H4 as (q & -> & H4).
      exists q. split; [done|congruence].
    + exists (l ++ k). rewrite G5, H5, app_assoc. split; [done|]. by apply Forall_app.
Qed.

Lemma quiet_storage s p : rtc (StorageProps.step lookback) (storage p) s -> quiet p (set_storage s p).
Proof.
  intros Hs. split; cbn; try done; [|exists []; by rewrite app_nil_r].
  destruct (proposed_batch p) as [q|] eqn:E; [by exists q|done].
Qed.
Lemma quiet_callback x s p : rtc (StorageProps.step lookback) (storage p) s -> quiet p (set_callback x s p).
Proof.
  intros Hs. split; cbn; try done; [|exists []; by rewrite app_nil_r].
  destruct (proposed_batch p) as [q|] eqn:E; [by exists q|done].
Qed.
Lemma quiet_workers ws p : quiet p (set_workers ws p).
Proof.
  split; cbn; try done; [|exists []; by rewrite app_nil_r].
  destruct (proposed_batch p) as [q|] eqn:E; [by exists q|done].
Qed.
Lemma quiet_proposed b p : same_proposal (proposed_batch p) b -> quiet p (set_proposed b p).
Proof. intros Hb. split; cbn; try done. exists []. by rewrite app_nil_r. Qed.
Lemma quiet_emit o p : harmless o -> quiet p (emit o p).
Proof.
  intros Ho. split; cbn; try done; [|exists [o]; by repeat constructor].
  destruct (proposed_batch p) as [q|] eqn:E; [by exists q|done].
Qed.

Abbreviation calm m := (keeps quiet m).

Lemma calm_emit o : harmless o -> calm (smodify (emit o)).
Proof. intros Ho. apply (keeps_modify quiet). intros p. by apply quiet_emit. Qed.
Lemma calm_to_workers op ts : calm (to_workers (X := X) (C := C) sha256 op ts).
Proof.
  intros p. unfold to_workers. destruct (Partition.assign_to_workers _ _ _ _). apply quiet_workers.
Qed.
Lemma calm_on_storage {A} (f : St -> result A * St) :
  (forall s, rtc (StorageProps.step lookback) s (f s).2) -> calm (on_storage (X := X) (C := C) f).
Proof.
  intros Hf p. unfold on_storage. specialize (Hf (storage p)). destruct (f (storage p)). by apply quiet_storage.
Qed.
Lemma calm_on_callback {A} (f : SM (X * St) A) :
  (forall xs, rtc (StorageProps.step lookback) xs.2 (f xs).2.2) -> calm (on_callback (C := C) f).
Proof.
  intros Hf p. unfold on_callback. destruct (primary_callback p) as [x|]; [|done].
  specialize (Hf (x, storage p)). destruct (f (x, storage p)) as [? [? ?]]. by apply quiet_callback.
Qed.
Lemma calm_bail {A} ip msg : calm (disconnect_and_bail (X := X) (C := C) (A := A) ip msg).
Proof. apply (keeps_bind quiet); [by apply calm_emit|intros _; apply (keeps_lift quiet)]. Qed.
Lemma calm_fun {A} (f : P -> result A * P) : (forall p, quiet p (f p).2) -> calm f.
Proof. done. Qed.

Ltac calm_leaf := idtac;
  match goal with
  | |- keeps quiet (smodify (emit _)) => by apply calm_emit
  | |- keeps quiet (smodify (set_proposed None)) => apply (keeps_modify quiet); intros; by apply quiet_proposed
  | |- keeps quiet (smodify (set_workers _)) => apply (keeps_modify quiet); intros; apply quiet_workers
  | |- keeps quiet (disconnect_and_bail _ _) => apply calm_bail
  | |- _ => solve [eauto with calm]
  end.
Ltac calm := repeat keeps_step quiet calm_leaf.

Lemma step_once (s s' : St) : StorageProps.step lookback s s' -> rtc (StorageProps.step lookback) s s'.
Proof. apply rtc_once. Qed.

(** ** The quiet operations, in an environment with the committees [lookback] *)

Section Calm.
Context (E : Env) (HE : get_committee_lookback_for_round (ledger E) = lookback).

Lemma calm_increment r :
  calm (on_storage (X := X) (C := C) (fun s => Storage.increment_to_next_round (ledger E) s r)).
Proof. apply calm_on_storage. intros s. apply step_once. constructor. Qed.
Lemma calm_insert c ts aborted :
  calm (on_storage (X := X) (C := C) (fun s => Storage.insert_certificate (ledger E) (now E) s c ts aborted)).
Proof. apply calm_on_storage. intros s. apply step_once. by constructor. Qed.
Lemma calm_unprocessed c :
  calm (on_storage (X := X) (C := C) (fun s => Storage.insert_unprocessed_certificate s c)).
Proof. apply calm_on_storage. intros s. apply step_once. by constructor. Qed.
Lemma calm_advance r : calm (on_callback (C := C) (try_advance_to_next_round (ledger E) (now E) r)).
Proof. apply calm_on_callback. intros xs. rewrite <-HE. apply advance_steps. Qed.
Lemma calm_add c : calm (on_callback (C := C) (add_new_certificate (ledger E) c)).
Proof. apply calm_on_callback. intros xs. rewrite <-HE. apply add_steps. Qed.
#[local] Hint Resolve calm_increment calm_insert calm_unprocessed calm_advance calm_add calm_to_workers : calm.

Lemma calm_reinsert ts : calm (reinsert_transmissions_into_workers (X := X) (C := C) sha256 E ts).
Proof. unfold reinsert_transmissions_into_workers. calm. Qed.
Lemma calm_insert_missing ts : calm (insert_missing_transmissions_into_workers (X := X) (C := C) sha256 E ts).
Proof. unfold insert_missing_transmissions_into_workers. calm. Qed.
#[local] Hint Resolve calm_reinsert calm_insert_missing : calm.

Lemma calm_expiration : calm (check_proposed_batch_for_expiration (X := X) (C := C) sha256 E).
Proof. unfold check_proposed_batch_for_expiration. calm. Qed.

Lemma calm_fast_forward fuel next r : calm (fast_forward (X := X) (C := C) E fuel next r).
Proof. revert r. induction fuel as [|fuel IH]; intros r; cbn [fast_forward]; calm. Qed.
#[local] Hint Resolve calm_expiration calm_fast_forward : calm.

Lemma calm_try_increment next : calm (try_increment_to_the_next_round (X := X) (C := C) E next).
Proof. unfold try_increment_to_the_next_round. calm. Qed.
#[local] Hint Resolve calm_try_increment : calm.

Lemma calm_round_increment r : calm (round_increment (X := X) (C := C) E r).
Proof. unfold round_increment. calm. Qed.

Lemma get_steps (s : St) b (w : Worker.Worker C) i :
  rtc (StorageProps.step lookback) s (Worker.get_transmission s b w i).2.
Proof.
  unfold Worker.get_transmission. destruct (Ready.get _ _); [done|].
  pose proof (StorageProps.step_get lookback s i) as Hs.
  destruct (Storage.get_transmission s i) as [[t|] s']; by apply step_once.
Qed.

Lemma calm_fetch_transmissions ip h :
  calm (fetch_missing_transmissions (X := X) (C := C) sha256 E ip h).
Proof.
  unfold fetch_missing_transmissions. calm. apply calm_fun. intros p0.
  unfold Worker.get_or_fetch_transmission.
  match goal with |- context [Worker.get_transmission ?s ?b ?w ?i] => pose proof (get_steps s b w i) as Hs end.
  destruct (Worker.get_transmission _ _ _ _) as [[t|] s]; by apply quiet_storage.
Qed.
Lemma calm_fetch_previous ip h : calm (fetch_missing_previous_certificates (X := X) (C := C) E ip h).
Proof. unfold fetch_missing_previous_certificates, fetch_missing_certificates. calm. Qed.
#[local] Hint Resolve calm_fetch_transmissions calm_fetch_previous : calm.

Lemma calm_join_all (ms : list (SM P unit)) e : Forall (fun m => calm m) ms -> calm (join_all ms e).
Proof.
  intros Hms. revert e. induction Hms as [|m ms Hm _ IH]; intros e p; cbn [join_all]; [done|].
  specialize (Hm p). destruct (m p) as [[] p']; try done; (etrans; [done|apply IH]).
Qed.

Lemma calm_sync_header sync is_syncing check ip h :
  (forall c, calm (sync c)) -> calm (sync_header_with (X := X) (C := C) sha256 sync E is_syncing check ip h).
Proof.
  intros Hsync. unfold sync_header_with. calm. apply calm_join_all. apply Forall_fmap, Forall_true.
  intros c. cbn. calm.
Qed.

Lemma calm_sync_certificate fuel is_syncing ip c :
  calm (sync_with_certificate_from_peer (X := X) (C := C) sha256 E fuel is_syncing ip c).
Proof.
  revert c. induction fuel as [|fuel IH]; intros c; cbn [sync_with_certificate_from_peer]; calm.
  by apply calm_sync_header.
Qed.
Lemma calm_sync_batch_header fuel is_syncing check ip h :
  calm (sync_with_batch_header_from_peer (X := X) (C := C) sha256 E fuel is_syncing check ip h).
Proof. apply calm_sync_header. intros c. apply calm_sync_certificate. Qed.
#[local] Hint Resolve calm_sync_certificate calm_sync_batch_header : calm.

Lemma calm_spend height cost ids :
  calm (check_spend_limit (X := X) (C := C) sha256 E height cost ids).
Proof.
  revert cost. induction ids as [|i ids IH]; intros cost; cbn [check_spend_limit]; calm.
  apply calm_fun. intros q.
  match goal with |- context [Worker.get_transmission ?s ?b ?w ?i] => pose proof (get_steps s b w i) as Hs end.
  destruct (Worker.get_transmission _ _ _ _) as [t s]. by apply quiet_storage.
Qed.
#[local] Hint Resolve calm_spend : calm.

Lemma calm_check_propose ip h ts :
  calm (check_batch_propose (X := X) (C := C) sha256 E ip h ts).
Proof. unfold check_batch_propose. calm. Qed.

Lemma calm_store proposal committee :
  calm (store_and_broadcast_certificate (X := X) (C := C) E proposal committee).
Proof. unfold store_and_broadcast_certificate. calm. Qed.

Lemma add_signature_header q a sg com :
  Proposal.p_batch_header (Proposal.add_signature q a sg com).2 = Proposal.p_batch_header q.
Proof. unfold Proposal.add_signature. by repeat case_match. Qed.

Lemma calm_add_signature ip id sg :
  calm (add_signature_to_proposal (X := X) (C := C) E ip id sg).
Proof.
  intros p. unfold add_signature_to_proposal, sget. cbn.
  destruct (proposed_batch p) as [q|] eqn:Hq; [|done]. case_decide; [by case_match|].
  unfold sbind at 1, slift at 1. destruct (get_committee_lookback_for_round _ _) as [com| | |]; try done.
  unfold sbind at 1, slift at 1. destruct (ok_or _ _) as [signer| | |]; try done.
  pose proof (add_signature_header q signer sg com) as Hh.
  destruct (Proposal.add_signature q signer sg com) as [r q']. cbn [snd] in Hh.
  unfold sbind at 1, smodify at 1. transitivity (set_proposed (Some q') p).
  { apply quiet_proposed. exists q. by rewrite Hq. }
  match goal with |- quiet _ (?m _).2 => assert (calm m) as Hm end; [calm|apply Hm].
Qed.
#[local] Hint Resolve calm_check_propose calm_store calm_add_signature : calm.

Lemma calm_signature ip id sg : calm (process_batch_signature_from_peer (X := X) (C := C) sha256 E ip id sg).
Proof.
  unfold process_batch_signature_from_peer. calm. apply calm_fun. intros p0.
  match goal with |- context [store_and_broadcast_certificate E ?q ?com p0] => pose proof (calm_store q com p0) as Hs end.
  destruct (store_and_broadcast_certificate _ _ _ _) as [[] p']; try done. etrans; [exact Hs|].
  match goal with |- quiet _ (?m _).2 => assert (calm m) as Hm end; [calm|apply Hm].
Qed.

Lemma calm_certificate fuel ip c : calm (process_batch_certificate_from_peer (X := X) (C := C) sha256 E fuel ip c).
Proof. unfold process_batch_certificate_from_peer. calm. Qed.

Lemma calm_on_worker {A} i (f : P -> Worker.Worker C -> A * Worker.Worker C) :
  calm (on_worker sha256 i f).
Proof. unfold on_worker. calm. Qed.

End Calm.

(** ** Steps *)

(** The environments of a network whose committees are [lookback]. *)
Definition env_ok (E : Env) : Prop := get_committee_lookback_for_round (ledger E) = lookback.

(** What the tasks of the primary do, one handler after the other.  The BFT
    and the synchronization change the storage and the state of the callback on
    their own; a restart writes the proposal cache and reads it again. *)
Inductive primary_step (p : P) : P -> Prop :=
| ps_propose E : env_ok E -> primary_step p (propose_batch sha256 E p).2
| ps_batch_propose E fuel ip bp : env_ok E -> primary_step p (on_batch_propose sha256 E fuel ip bp p).2
| ps_signature E ip id sg : env_ok E -> primary_step p (on_batch_signature sha256 E ip id sg p).2
| ps_certified E fuel ip d : env_ok E -> primary_step p (on_batch_certified sha256 E fuel ip d p).2
| ps_round E r : env_ok E -> primary_step p (round_increment E r p).2
| ps_solution E id d : env_ok E -> primary_step p (on_unconfirmed_solution sha256 E id d p).2
| ps_transaction E id d : env_ok E -> primary_step p (on_unconfirmed_transaction sha256 E id d p).2
| ps_clear : primary_step p (clear_worker_solutions p)
| ps_shared x s : rtc (StorageProps.step lookback) (storage p) s -> primary_step p (set_callback x s p)
| ps_restart E E' fuel file s ws x :
    env_ok E' -> StorageProps.reachable lookback s ->
    Proposal.load (account_address (gateway E')) (Some file) = Ok (Proposal.cache_as_read (shut_down E p).1) ->
    primary_step p
      (load_proposal_cache sha256 E' fuel true (Some file) (mk_primary s ws x None None ∅ (outbox p))).2.

Definition primary_reachable (p : P) : Prop :=
  exists s x p0, StorageProps.reachable lookback s /\ run x (new s) = Ok p0 /\ rtc primary_step p0 p.

(** The batches of the primary that were sent to others. *)
Definition own_batches (l : list output) : list BatchHeader :=
  omap (fun o => match o with
                 | BroadcastBatchPropose h | SendBatchPropose _ h => Some h
                 | _ => None
                 end) l.

(** The batches of others that were signed. *)
Definition signed_batches (l : list output) : list BatchHeader :=
  omap (fun o => match o with SendBatchSignature _ h _ => Some h | _ => None end) l.

Record primary_inv (p : P) : Prop := {
  pi_storage : StorageProps.reachable lookback (storage p);
  pi_sent h : h ∈ own_batches (outbox p) ->
    exists r t, latest_proposal_timestamp p = Some (r, t) /\ h_round h <= r;
  pi_unique h h' : h ∈ own_batches (outbox p) -> h' ∈ own_batches (outbox p) ->
    h_round h = h_round h' -> h = h';
  pi_proposed q : proposed_batch p = Some q ->
    (exists t, latest_proposal_timestamp p = Some (Proposal.p_round q, t)) /\
    forall h, h ∈ own_batches (outbox p) -> h_round h = Proposal.p_round q -> h = Proposal.p_batch_header q;
  pi_signed h : h ∈ signed_batches (outbox p) ->
    exists r id sg, signed_proposals p !! h_author h = Some (r, id, sg) /\ h_round h <= r /\
      (h_round h = r -> id = batch_id h);
  pi_signed_unique h h' : h ∈ signed_batches (outbox p) -> h' ∈ signed_batches (outbox p) ->
    h_author h = h_author h' -> h_round h = h_round h' -> batch_id h = batch_id h';
}.

Lemma own_app l k : own_batches (l ++ k) = own_batches l ++ own_batches k.
Proof. apply omap_app. Qed.
Lemma signed_app l k : signed_batches (l ++ k) = signed_batches l ++ signed_batches k.
Proof. apply omap_app. Qed.
Lemma harmless_batches l : Forall harmless l -> own_batches l = [] /\ signed_batches l = [].
Proof. induction 1 as [|[] l Ho _ IH]; cbn; try done. Qed.

Lemma reachable_steps s s' :
  StorageProps.reachable lookback s -> rtc (StorageProps.step lookback) s s' ->
  StorageProps.reachable (Svc := Svc) (Cache := Cache) lookback s'.
Proof. intros (L & svc & gc & s0 & Hn & Hs) Hs'. exists L, svc, gc, s0. split; [done|by etrans]. Qed.

Lemma quiet_inv p p' : quiet p p' -> primary_inv p -> primary_inv p'.
Proof.
  intros [Hs Hsig Hl Hp (l & Ho & Hh)] [I1 I2 I3 I4 I5 I6]. apply harmless_batches in Hh as [Ho' Hsg'].
  assert (own_batches (outbox p') = own_batches (outbox p)) as Eo by (by rewrite Ho, own_app, Ho', app_nil_r).
  assert (signed_batches (outbox p') = signed_batches (outbox p)) as Eg by (by rewrite Ho, signed_app, Hsg', app_nil_r).
  split; rewrite ?Eo, ?Eg, ?Hl, ?Hsig; [by eapply reachable_steps|done..| |done|done].
  intros q' Hq'. rewrite Hq' in Hp. destruct Hp as (q & Hq & Eh).
  destruct (I4 q Hq) as [H1 H2]. unfold Proposal.p_round. rewrite Eh. done.
Qed.

Lemma calm_inv {A} (m : SM P A) p : calm m -> primary_inv p -> primary_inv (m p).2.
Proof. intros Hm. by apply quiet_inv. Qed.

(** ** Own proposals *)

Lemma inv_resend ip q p :
  proposed_batch p = Some q -> primary_inv p ->
  primary_inv (emit (SendBatchPropose ip (Proposal.p_batch_header q)) p).
Proof.
  intros Hq [I1 I2 I3 I4 I5 I6]. destruct (I4 q Hq) as [[t Ht] Hu].
  assert (forall h, h ∈ own_batches (outbox p ++ [SendBatchPropose ip (Proposal.p_batch_header q)]) <->
    h ∈ own_batches (outbox p) \/ h = Proposal.p_batch_header q) as Eo.
  { intros h. rewrite own_app, elem_of_app. cbn. by rewrite list_elem_of_singleton. }
  assert (signed_batches (outbox p ++ [SendBatchPropose ip (Proposal.p_batch_header q)]) = signed_batches (outbox p)) as Eg.
  { rewrite signed_app. cbn. by rewrite app_nil_r. }
  split; cbn [outbox emit storage latest_proposal_timestamp proposed_batch signed_proposals]; rewrite ?Eg; try done.
  - intros h [Hh| ->]%Eo; [by apply I2|]. exists (Proposal.p_round q), t. done.
  - intros h h' [Hh| ->]%Eo [Hh'| ->]%Eo Hr; [by apply I3|by apply Hu|symmetry; by apply Hu|done].
  - intros q' Hq'. rewrite Hq in Hq'. simplify_eq. split; [by exists t|].
    intros h [Hh| ->]%Eo Hr; [by apply Hu|done].
Qed.

Lemma rebroadcast_inv E q p :
  proposed_batch p = Some q -> primary_inv p -> primary_inv (rebroadcast (C := C) (X := X) E q p).2.
Proof.
  intros Hq Hp. unfold rebroadcast, sget. cbn. case_match; [done|].
  unfold sbind, slift. destruct (get_committee_lookback_for_round _ _) as [com| | |]; try done.
  generalize (elements (Proposal.nonsigners q com)). intros l.
  clear H. revert p Hq Hp. induction l as [|a l IH]; intros p Hq Hp; cbn; [done|].
  destruct (address_peers _ !! a) as [ip|]; cbn; [|by apply IH].
  apply IH; [done|by apply inv_resend].
Qed.

(** The round of a proposal is above those of all before. *)
Definition above_latest (p : P) (r : Z) : Prop :=
  match latest_proposal_timestamp p with Some (latest_round, _) => latest_round < r | None => True end.

Lemma header_new_round key r t cid ids prev rng h :
  header_new key r t cid ids prev rng = Ok h -> h_round h = r.
Proof. unfold header_new. intros H. simp_ok. done. Qed.
Lemma proposal_new_header com h ts q : Proposal.new com h ts = Ok q -> Proposal.p_batch_header q = h.
Proof. unfold Proposal.new. intros H. simp_ok. done. Qed.

Lemma inv_latest r t p :
  above_latest p r -> proposed_batch p = None -> primary_inv p ->
  primary_inv (set_latest (Some (r, t)) p).
Proof.
  intros Hr Hq [I1 I2 I3 I4 I5 I6]. split; cbn; try done; [|by rewrite Hq].
  intros h Hh. destruct (I2 h Hh) as (r' & t' & Hl & Hle). unfold above_latest in Hr. rewrite Hl in Hr.
  exists r, t. split; [done|lia].
Qed.

Lemma sign_and_propose_inv E r com previous ts p :
  env_ok E -> above_latest p r -> proposed_batch p = None -> primary_inv p ->
  primary_inv (sign_and_propose (C := C) (X := X) sha256 E r com previous ts p).2.
Proof.
  intros HE Hr Hq Hp. pose proof (inv_latest r (now E) p Hr Hq Hp) as H1. unfold sign_and_propose.
  unfold sbind at 1, smodify at 1. set (p1 := set_latest _ p) in *.
  match goal with |- context [match ?r with Ok _ => _ | _ => _ end] => destruct r as [[h q]| | |] eqn:Hn end;
    [|by apply (quiet_inv p1); [apply calm_reinsert|]..].
  simp_ok. match goal with H : header_new _ _ _ _ _ _ _ = Ok _ |- _ => apply header_new_round in H end.
  match goal with H : Proposal.new _ _ _ = Ok _ |- _ => apply proposal_new_header in H end.
  assert (forall h', h' ∈ own_batches (outbox p1) -> h_round h' < r) as Hlt.
  { intros h' Hh'. destruct (pi_sent p Hp h' Hh') as (r' & t' & Hl & Hle). unfold above_latest in Hr.
    rewrite Hl in Hr. lia. }
  destruct H1 as [I1 I2 I3 I4 I5 I6]. cbn.
  assert (forall h', h' ∈ own_batches (outbox p1 ++ [BroadcastBatchPropose h]) <->
    h' ∈ own_batches (outbox p1) \/ h' = h) as Eo.
  { intros h'. rewrite own_app, elem_of_app. cbn. by rewrite list_elem_of_singleton. }
  assert (signed_batches (outbox p1 ++ [BroadcastBatchPropose h]) = signed_batches (outbox p1)) as Eg.
  { rewrite signed_app. cbn. by rewrite app_nil_r. }
  split; cbn [outbox emit set_proposed storage latest_proposal_timestamp proposed_batch signed_proposals];
    rewrite ?Eg; try done.
  - intros h' [Hh'| ->]%Eo; [by apply I2|]. exists r, (now E). split; [done|lia].
  - intros h1 h2 [Hh1| ->]%Eo [Hh2| ->]%Eo Hrr; [by apply I3| | |done];
      [pose proof (Hlt h1 Hh1)|pose proof (Hlt h2 Hh2)]; lia.
  - intros q' [= <-]. unfold Proposal.p_round. subst. split; [by exists (now E)|].
    intros h' [Hh'| ->]%Eo Hrr; [|done]. pose proof (Hlt h' Hh'). lia.
Qed.

Lemma propose_batch_inv E p :
  env_ok E -> primary_inv p -> primary_inv (propose_batch (C := C) (X := X) sha256 E p).2.
Proof.
  intros HE Hp0. unfold propose_batch. pose proof (calm_inv _ p (calm_expiration E) Hp0) as Hp.
  destruct (check_proposed_batch_for_expiration sha256 E p) as [[[]| | |] p1]; cbn [snd] in Hp; try done.
  cbv zeta. unfold sbind at 1, slift at 1. destruct (ensure _ _) as [[]| | |]; try done.
  match goal with |- context [if ?b then sret false else _] => destruct b eqn:Hbelow; [done|] end.
  destruct (proposed_batch p1) as [q|] eqn:Hq.
  { unfold sbind. pose proof (rebroadcast_inv E q p1 Hq Hp) as H. by destruct (rebroadcast E q p1) as [[] ?]. }
  unfold sbind at 1, slift at 1.
  match goal with |- context [match ?r with Ok _ => _ | _ => _ end] => destruct r as [in_time| | |]; try done end.
  destruct in_time; [|done]. cbn [negb].
  destruct (Storage.contains_certificate_in_round_from _ _ _);
    [apply calm_inv; [calm; by apply calm_advance|done]|].
  match goal with |- context [if ?b then sret false else _] => destruct b eqn:Hprop; [done|] end.
  unfold sbind at 1, slift at 1. destruct (get_committee_lookback_for_round _ _) as [com| | |]; try done.
  destruct (is_quorum_threshold_reached _ _); [|done]. cbn [negb].
  unfold sbind at 1, slift at 1. destruct (is_ready_to_propose _ _ _ _) as [[]| | |]; try done. cbn [negb].
  destruct (drain_workers _ _ _ _) as [d ws].
  unfold sbind at 1, smodify at 1. unfold sbind at 1, slift at 1.
  assert (primary_inv (set_workers ws p1)) as Hw by (by eapply quiet_inv; [apply quiet_workers|]).
  destruct d as [d| | |]; try done. apply sign_and_propose_inv; try done.
  unfold above_latest. cbn. destruct (latest_proposal_timestamp p1) as [[r t]|]; [|done].
  apply bool_decide_eq_false in Hbelow, Hprop. lia.
Qed.

(** ** Signatures *)

(** The signed proposals hold nothing for the round of the header or above. *)
Definition unsigned (p : P) (h : BatchHeader) : Prop :=
  match signed_proposals p !! h_author h with Some (r, _, _) => r < h_round h | None => True end.

Lemma begin_cases E ip bp p :
  let '(r, p') := begin_batch_propose (C := C) (X := X) E ip bp p in
  (quiet p p' /\ forall h, r = Ok (Some h) -> p' = p /\ unsigned p h) \/
  (exists h sg, r = Ok None /\ p' = emit (SendBatchSignature ip h sg) p /\
     signed_proposals p !! h_author h = Some (h_round h, batch_id h, sg)).
Proof.
  assert (forall (m : SM P (option BatchHeader)), calm m -> (forall h, (m p).1 <> Ok (Some h)) ->
    let '(r, p') := m p in (quiet p p' /\ forall h, r = Ok (Some h) -> p' = p /\ unsigned p h) \/
      (exists h sg, r = Ok None /\ p' = emit (SendBatchSignature ip h sg) p /\
       signed_proposals p !! h_author h = Some (h_round h, batch_id h, sg))) as Hend.
  { intros m Hm Hn. specialize (Hm p). destruct (m p) as [r p']. left. split; [done|]. intros h ->. by destruct (Hn h). }
  unfold begin_batch_propose. cbv zeta. unfold sbind at 1, slift at 1.
  destruct (deserialize_header _) as [h| | |]; try (left; split; [reflexivity|done]).
  case_decide; [apply Hend; [calm|done]|].
  destruct (connected _ !! ip) as [a|]; [|apply Hend; [calm|done]].
  case_decide; [apply Hend; [calm|done]|]. unfold sbind at 1, sget at 1.
  destruct (negb _); [apply Hend; [calm|done]|]. case_decide; [apply Hend; [calm|done]|].
  unfold sbind at 1, slift at 1.
  destruct (get_committee_lookback_for_round _ _) as [com| | |]; try (left; split; [reflexivity|done]).
  case_decide; [apply Hend; [calm|done]|].
  match goal with |- context [match signed_proposals p !! _ with Some _ => _ | None => ?f end] => set (fresh := f) end.
  assert (unsigned p h -> let '(r, p') := fresh p in
    (quiet p p' /\ forall h, r = Ok (Some h) -> p' = p /\ unsigned p h) \/
    (exists h sg, r = Ok None /\ p' = emit (SendBatchSignature ip h sg) p /\
     signed_proposals p !! h_author h = Some (h_round h, batch_id h, sg))) as Hfresh.
  { intros Hu. subst fresh. destruct (Storage.contains_batch _ _); [apply Hend; [calm|done]|].
    destruct (check_peer_proposal_timestamp _ _ _ _ _) as [[]| | |]; [|apply Hend; [calm|done]..].
    unfold sbind at 1, slift at 1. destruct (bool_decide _); [apply Hend; [calm|done]|].
    left. split; [reflexivity|]. intros h' [= <-]. done. }
  destruct (signed_proposals p !! h_author h) as [[[r id] sg]|] eqn:Hsig.
  - case_decide as G1; [apply Hend; [calm|done]|]. case_decide as G2; [apply Hend; [calm|done]|].
    case_decide as G3; [destruct G3 as [-> ->]; right; by exists h, sg|].
    apply Hfresh. unfold unsigned. rewrite Hsig. destruct (decide (r = h_round h)) as [Hr|]; [|lia].
    destruct (decide (id = batch_id h)); [by destruct G3|by destruct G2].
  - apply Hfresh. unfold unsigned. by rewrite Hsig.
Qed.

Lemma own_signature l ip h sg : own_batches (l ++ [SendBatchSignature ip h sg]) = own_batches l.
Proof. rewrite own_app. cbn. by rewrite app_nil_r. Qed.
Lemma elem_of_signed l ip h sg h' :
  h' ∈ signed_batches (l ++ [SendBatchSignature ip h sg]) <-> h' ∈ signed_batches l \/ h' = h.
Proof. rewrite signed_app, elem_of_app. cbn. by rewrite list_elem_of_singleton. Qed.

(** Sending a signature again. *)
Lemma inv_resign ip h sg p :
  signed_proposals p !! h_author h = Some (h_round h, batch_id h, sg) ->
  primary_inv p -> primary_inv (emit (SendBatchSignature ip h sg) p).
Proof.
  intros Hs [I1 I2 I3 I4 I5 I6]. split; cbn; rewrite ?own_signature; try done.
  - intros h' [Hh'| ->]%elem_of_signed; [by apply I5|]. by exists (h_round h), (batch_id h), sg.
  - assert (forall x, x ∈ signed_batches (outbox p) -> h_author x = h_author h -> h_round x = h_round h ->
      batch_id x = batch_id h) as Hx.
    { intros x Hx Ha Hr. destruct (I5 x Hx) as (r & id & sg' & Hl & _ & Heq). rewrite Ha, Hs in Hl. simplify_eq.
      symmetry. by apply Heq. }
    intros h1 h2 [Hh1| ->]%elem_of_signed [Hh2| ->]%elem_of_signed Ha Hr;
      [by apply I6|by apply Hx|symmetry; by apply Hx|done].
Qed.

(** Signing a batch of a round above the signed ones of its author. *)
Lemma inv_sign ip h sg p :
  unsigned p h -> primary_inv p ->
  primary_inv (emit (SendBatchSignature ip h sg)
    (set_signed (<[h_author h := (h_round h, batch_id h, sg)]> (signed_proposals p)) p)).
Proof.
  intros Hu [I1 I2 I3 I4 I5 I6].
  assert (forall x, x ∈ signed_batches (outbox p) -> h_author x = h_author h -> h_round x < h_round h) as Hx.
  { intros x Hx Ha. destruct (I5 x Hx) as (r & id & sg' & Hl & Hle & _). unfold unsigned in Hu.
    rewrite Ha in Hl. rewrite Hl in Hu. lia. }
  split; cbn; rewrite ?own_signature; try done.
  - intros h' [Hh'| ->]%elem_of_signed.
    + rewrite lookup_insert. case_decide as Ha.
      * exists (h_round h), (batch_id h), sg. pose proof (Hx h' Hh' (eq_sym Ha)). split; [done|]. lia.
      * by apply I5.
    + rewrite lookup_insert_eq. by exists (h_round h), (batch_id h), sg.
  - intros h1 h2 [Hh1| ->]%elem_of_signed [Hh2| ->]%elem_of_signed Ha Hr; [by apply I6| | |done];
      [pose proof (Hx h1 Hh1 Ha)|pose proof (Hx h2 Hh2 (eq_sym Ha))]; lia.
Qed.

Lemma end_batch_propose_inv E ip h p :
  unsigned p h -> primary_inv p -> primary_inv (end_batch_propose (C := C) (X := X) E ip h p).2.
Proof.
  intros Hu Hp. unfold end_batch_propose, sbind, slift, sget, smodify. destruct (sign _ _ _) as [sg| | |]; try done.
  cbv zeta. destruct (signed_proposals p !! h_author h) as [[[r id] sg']|] eqn:Hs; [case_decide; [done|]|];
    by apply inv_sign.
Qed.

Lemma quiet_unsigned p p' h : quiet p p' -> unsigned p h -> unsigned p' h.
Proof. intros Hq. unfold unsigned. by rewrite (q_signed _ _ Hq). Qed.

Lemma process_batch_propose_inv E fuel ip bp p :
  env_ok E -> primary_inv p ->
  primary_inv (process_batch_propose_from_peer (C := C) (X := X) sha256 E fuel ip bp p).2.
Proof.
  intros HE Hp. unfold process_batch_propose_from_peer. unfold sbind at 1. pose proof (begin_cases E ip bp p) as Hb.
  destruct (begin_batch_propose E ip bp p) as [r p1]. destruct Hb as [[Hq Hh]|(h & sg & -> & -> & Hs)].
  2: { by apply inv_resign. }
  assert (primary_inv p1) as Hp1 by (by eapply quiet_inv). destruct r as [[h|]| | |]; try done.
  destruct (Hh h eq_refl) as [-> Hu]. unfold sbind at 1.
  pose proof (calm_sync_batch_header E HE fuel false true ip h p) as Hsync.
  destruct (sync_with_batch_header_from_peer _ _ _ _ _ _ _ p) as [[ts| | |] p2]; try (by eapply quiet_inv).
  unfold sbind at 1. pose proof (calm_check_propose E ip h ts p2) as Hchk.
  destruct (check_batch_propose _ _ _ _ _ p2) as [[b| | |] p3];
    try (by eapply quiet_inv; [exact Hchk|eapply quiet_inv]).
  assert (primary_inv p3) as Hp3 by (by eapply quiet_inv; [exact Hchk|eapply quiet_inv]).
  destruct b; [|done]. apply end_batch_propose_inv; [|done].
  eapply quiet_unsigned; [exact Hchk|]. by eapply quiet_unsigned.
Qed.

(** ** Every step *)

Lemma restart_inv E E' fuel file s ws x p :
  env_ok E' -> StorageProps.reachable lookback s ->
  Proposal.load (account_address (gateway E')) (Some file) = Ok (Proposal.cache_as_read (shut_down E p).1) ->
  primary_inv p ->
  primary_inv (load_proposal_cache (C := C) (X := X) sha256 E' fuel true (Some file)
                 (mk_primary s ws x None None ∅ (outbox p))).2.
Proof.
  intros HE Hs Hload [I1 I2 I3 I4 I5 I6]. unfold load_proposal_cache.
  unfold sbind at 1, slift at 1. rewrite Hload. unfold sbind at 1, smodify at 1.
  match goal with |- primary_inv (sfold ?f _ _ ?q).2 => set (p1 := q) end.
  apply calm_inv.
  { apply (keeps_fold quiet). intros [] c _. apply calm_fun. intros q.
    pose proof (calm_sync_certificate E' HE fuel true BlockSync.DUMMY_SELF_IP c q) as Hc.
    by destruct (sync_with_certificate_from_peer _ _ _ _ _ _ q) as [[] ?]. }
  subst p1. split; cbn; try done.
  - intros h Hh. destruct (I2 h Hh) as (r & t & Hl & Hle). rewrite Hl. eexists _, _. split; [done|].
    destruct (proposed_batch p) as [q|] eqn:Hq; [|done]. destruct (I4 q eq_refl) as [[t' Ht'] _].
    rewrite Hl in Ht'. by simplify_eq.
  - intros q' Hq'. destruct (proposed_batch p) as [q|] eqn:Hq; [|done]. cbn in Hq'. simplify_eq.
    destruct (I4 q eq_refl) as [_ Hu]. split; [by eexists|]. exact Hu.
Qed.

Lemma primary_step_inv p p' : primary_step p p' -> primary_inv p -> primary_inv p'.
Proof.
  intros Hstep Hp. destruct Hstep.
  - by apply propose_batch_inv.
  - unfold on_batch_propose, when_synced. case_match; [by apply process_batch_propose_inv|done].
  - apply calm_inv; [|done]. unfold on_batch_signature, when_synced. calm. by apply calm_signature.
  - apply calm_inv; [|done]. unfold on_batch_certified, when_synced. calm. by apply calm_certificate.
  - apply calm_inv; [|done]. by apply calm_round_increment.
  - apply calm_inv; [|done]. unfold on_unconfirmed_solution. calm; apply calm_on_worker.
  - apply calm_inv; [|done]. unfold on_unconfirmed_transaction. calm; apply calm_on_worker.
  - eapply quiet_inv; [apply quiet_workers|done].
  - eapply quiet_inv; [by apply quiet_callback|done].
  - by eapply restart_inv.
Qed.

Lemma primary_reachable_inv p : primary_reachable p -> primary_inv p.
Proof.
  intros (s & x & p0 & Hs & Hrun & Hsteps). assert (primary_inv p0) as H0.
  { unfold run in Hrun. simp_ok. split; cbn; try done; intros; exfalso; by eapply not_elem_of_nil. }
  clear Hrun. induction Hsteps as [|p p1 p2 Hstep _ IH]; [done|]. apply IH. by eapply primary_step_inv.
Qed.

(** C8: a validator proposes at most one batch per round.  In every state the
    primary reaches, also after restarts, the batches it broadcast or sent
    again to a validator are the same if they are for the same round, and no
    round is above the one it records as its latest. *)
Theorem own_proposals_unique p h h' :
  primary_reachable p -> h ∈ own_batches (outbox p) -> h' ∈ own_batches (outbox p) ->
  h_round h = h_round h' ->
  h = h' /\ exists r t, latest_proposal_timestamp p = Some (r, t) /\ h_round h <= r.
Proof.
  intros Hp%primary_reachable_inv Hh Hh' Hr. split; [by apply (pi_unique p Hp)|by apply (pi_sent p Hp)].
Qed.

(** C6: a validator signs at most one batch per author and round, when the
    handlers of proposals run one after the other: the batches whose
    signatures it sent have the same batch ID if they are of the same author
    and round. *)
Theorem signs_once p h h' :
  primary_reachable p -> h ∈ signed_batches (outbox p) -> h' ∈ signed_batches (outbox p) ->
  h_author h = h_author h' -> h_round h = h_round h' -> batch_id h = batch_id h'.
Proof. intros Hp%primary_reachable_inv. apply (pi_signed_unique p Hp). Qed.

End PrimaryProps.
End PrimaryProps.
