(* ===== verification/Validator.v ===== *)
(** * A validator

    The BFT as the callback of the primary ([impl PrimaryCallback for BFT], in
    node/bft/src/bft.rs): both work on the same storage.  What the BFT promises
    to the primary is proved for it: its callbacks change the storage by the
    storage's operations only, and they return.  The theorems of the primary
    hold of a validator by these laws. *)

From S2P Require Import Prelude Network Committee Narwhal Lru StorageService Ledger Storage StorageProps Dag Bft Worker Primary PrimaryProps.

Create HintDb bft.

Module Validator.
Section Validator.
Context `{N : Network}.
Context {Svc : Type} `{!StorageServiceOps Svc}.
Context {Cache : Type} `{!LruOps Cache Field BatchCertificate}.
Context (consensus : Bft.consensus_t).

Abbreviation B := (Bft.BFT Svc Cache).
Abbreviation St := (Storage.Storage Svc Cache).

(** A method of the BFT, on the storage it shares with the primary. *)
Definition on_bft {A} (m : SM B A) : SM (B * St) A := fun bs =>
  let '(r, b) := m (Bft.set_storage bs.2 bs.1) in (r, (b, Bft.storage b)).

(** [impl PrimaryCallback for BFT]. *)
Definition callback_try_advance (L : LedgerService) (now r : Z) : SM (B * St) bool :=
  on_bft (Bft.try_advance_to_next_round L now r).
Definition callback_add_certificate (L : LedgerService) (c : BatchCertificate) : SM (B * St) unit :=
  on_bft (Bft.add_new_certificate L consensus c).

#[local] Instance bft_callback : PrimaryCallback St B := {|
  try_advance_to_next_round := callback_try_advance;
  add_new_certificate := callback_add_certificate;
|}.

(** ** The BFT changes the storage by its operations only *)

Section Steps.
Context (L : LedgerService).

Definition bft_steps (b b' : B) : Prop :=
  rtc (StorageProps.step (get_committee_lookback_for_round L)) (Bft.storage b) (Bft.storage b').

#[local] Instance bft_steps_preorder : PreOrder bft_steps.
Proof. split; [intros b; apply rtc_refl|intros b1 b2 b3; unfold bft_steps; by etrans]. Qed.

Lemma steps_modify (f : B -> B) : (forall b, Bft.storage (f b) = Bft.storage b) -> keeps bft_steps (smodify f).
Proof. intros Hf. apply (keeps_modify bft_steps). intros b. unfold bft_steps. by rewrite Hf. Qed.

Lemma steps_or_false {A} (m : SM B A) k :
  keeps bft_steps m -> (forall a, keeps bft_steps (k a)) -> keeps bft_steps (Bft.or_false m k).
Proof.
  intros Hm Hk b. unfold Bft.or_false. specialize (Hm b). destruct (m b) as [[a| | |] b']; try done.
  etrans; [exact Hm|apply Hk].
Qed.

Ltac bft_leaf := idtac;
  match goal with
  | |- keeps bft_steps (smodify _) => by apply steps_modify
  | |- keeps bft_steps (Bft.or_false _ _) => apply steps_or_false; [|intros ?]
  | |- _ => solve [eauto with bft]
  end.
Ltac bft := repeat keeps_step bft_steps bft_leaf.

Lemma steps_cached_leader com r : keeps bft_steps (Bft.cached_leader (Svc := Svc) (Cache := Cache) com r).
Proof. unfold Bft.cached_leader. bft. Qed.
#[local] Hint Resolve steps_cached_leader : bft.

Lemma steps_get t : keeps bft_steps (Bft.get_transmission (Svc := Svc) (Cache := Cache) t).
Proof.
  intros b. unfold Bft.get_transmission.
  pose proof (StorageProps.step_get (get_committee_lookback_for_round L) (Bft.storage b) t) as Hs.
  destruct (Storage.get_transmission (Bft.storage b) t). by apply rtc_once.
Qed.
Lemma steps_increment r : keeps bft_steps (Bft.increment_to_next_round (Svc := Svc) (Cache := Cache) L r).
Proof.
  intros b. unfold Bft.increment_to_next_round.
  pose proof (StorageProps.step_increment (get_committee_lookback_for_round L) (Bft.storage b) L r) as Hs.
  destruct (Storage.increment_to_next_round L (Bft.storage b) r). by apply rtc_once.
Qed.
Lemma steps_gc r : keeps bft_steps (Bft.garbage_collect (Svc := Svc) (Cache := Cache) r).
Proof.
  intros b. unfold Bft.garbage_collect.
  pose proof (StorageProps.step_gc (get_committee_lookback_for_round L) (Bft.storage b) r) as Hs.
  destruct (Storage.garbage_collect_certificates (Bft.storage b) r). by apply rtc_once.
Qed.
#[local] Hint Resolve steps_get steps_increment steps_gc : bft.

Lemma steps_collect m : keeps bft_steps (Bft.collect_transmissions (Svc := Svc) (Cache := Cache) L m).
Proof. unfold Bft.collect_transmissions, Bft.collect_transmission. bft. Qed.
#[local] Hint Resolve steps_collect : bft.

Lemma steps_commit_anchors skip cs :
  keeps bft_steps (Bft.commit_anchors (Svc := Svc) (Cache := Cache) L consensus skip cs).
Proof. induction cs as [|c cs IH]; cbn [Bft.commit_anchors]; [|unfold Bft.commit_anchor]; bft. Qed.
#[local] Hint Resolve steps_commit_anchors : bft.

Lemma steps_try_advance now r :
  keeps bft_steps (Bft.try_advance_to_next_round (Svc := Svc) (Cache := Cache) L now r).
Proof.
  unfold Bft.try_advance_to_next_round, Bft.update_leader_certificate_to_even_round,
    Bft.is_leader_quorum_or_nonleaders_available. bft.
Qed.
Lemma steps_add_certificate c :
  keeps bft_steps (Bft.add_new_certificate (Svc := Svc) (Cache := Cache) L consensus c).
Proof.
  unfold Bft.add_new_certificate, Bft.commit_leader_certificate, Bft.find_anchors. bft.
Qed.

Lemma on_bft_steps {A} (m : SM B A) bs :
  keeps bft_steps m -> rtc (StorageProps.step (get_committee_lookback_for_round L)) bs.2 (on_bft m bs).2.2.
Proof. intros Hm. unfold on_bft. specialize (Hm (Bft.set_storage bs.2 bs.1)). by destruct (m _). Qed.
End Steps.

#[local] Instance bft_callback_laws : PrimaryCallbackLaws B.
Proof.
  split; intros; apply on_bft_steps; [apply steps_try_advance|apply steps_add_certificate].
Qed.

(** ** The callback returns *)

Section Returns.
Context (L : LedgerService).
Context (Hcommittee : forall r, get_committee_lookback_for_round L r <> Deadlock).
Context (Hcurrent : current_committee L <> Deadlock).
Context (Hleader : forall com r, get_leader com r <> Deadlock).

Definition ends {A} (m : SM B A) : Prop := forall b, (m b).1 <> Deadlock.

Lemma ends_lift {A} (r : result A) : r <> Deadlock -> ends (slift r).
Proof. by intros Hr b. Qed.
Lemma ends_bind {A A'} (m : SM B A) (f : A -> SM B A') : ends m -> (forall a, ends (f a)) -> ends (sbind m f).
Proof. intros Hm Hf b. unfold sbind. specialize (Hm b). destruct (m b) as [[a| | |] b']; try done. apply Hf. Qed.
Lemma ends_or_false {A} (m : SM B A) k : ends m -> (forall a, ends (k a)) -> ends (Bft.or_false m k).
Proof. intros Hm Hk b. unfold Bft.or_false. specialize (Hm b). destruct (m b) as [[a| | |] b']; try done. apply Hk. Qed.
Lemma ends_increment r : ends (Bft.increment_to_next_round (Svc := Svc) (Cache := Cache) L r).
Proof.
  intros b. unfold Bft.increment_to_next_round, Storage.increment_to_next_round. case_decide; [done|].
  destruct (current_committee L); try done. case_decide; [done|]. cbn. by repeat case_bool_decide.
Qed.

Ltac ends :=
  repeat match goal with
  | |- ends (sret _) => done
  | |- ends sget => done
  | |- ends (smodify _) => done
  | |- ends (slift _) => by apply ends_lift
  | |- ends (sbind _ _) => apply ends_bind; [|intros ?]
  | |- ends (Bft.or_false _ _) => apply ends_or_false; [|intros ?]
  | |- ends (Bft.increment_to_next_round _ _) => apply ends_increment
  | |- ends (let _ := _ in _) => cbv zeta
  | |- ends (if ?b then _ else _) => destruct b
  | |- ends (match ?x with _ => _ end) => destruct x
  end.

Lemma advance_returns now r bs : (callback_try_advance L now r bs).1 <> Deadlock.
Proof.
  unfold callback_try_advance, on_bft.
  match goal with |- context [?m (Bft.set_storage _ _)] => assert (ends m) as Hm end.
  { unfold Bft.try_advance_to_next_round, Bft.update_leader_certificate_to_even_round,
      Bft.is_leader_quorum_or_nonleaders_available, Bft.cached_leader. ends. }
  specialize (Hm (Bft.set_storage bs.2 bs.1)). by destruct (Bft.try_advance_to_next_round _ _ _ _).
Qed.
End Returns.

End Validator.
End Validator.
