(* ===== verification/Signing.v ===== *)
(** * Concurrent signing

    [start_handlers] of the primary spawns a task for every proposed batch, so
    the handlers of proposals overlap: each waits for what it fetches from
    peers, for the checks on other threads and for the signature.  Here the
    handlers run in their three parts with the parts of others in between, and
    a validator is led to sign two batches of one author in one round. *)

From S2P Require Import Prelude Network Sockets Committee Narwhal Lru StorageService Ledger Storage StorageProps Proposal Ready Worker Bft Primary PrimaryProps Validator.
Import Primary PrimaryProps.

Module Signing.
Section Signing.
Context `{N : Network} {TO : TransmissionOps}.
Context {Svc : Type} `{!StorageServiceOps Svc}.
Context {Cache : Type} `{!LruOps Cache Field BatchCertificate}.
Context {C X : Type} `{!PrimaryCallback (Storage.Storage Svc Cache) X}.
Context (sha256 : list Z -> list Z) (lookback : Z -> result Committee).

Abbreviation P := (Primary (Svc := Svc) (Cache := Cache) (C := C) (X := X)).

(** How far the handler of a proposal is: it passed the first checks, it
    fetched what the batch refers to, or it is about to sign. *)
Inductive task :=
| Begun (ip : SocketAddr) (h : BatchHeader)
| Synced (ip : SocketAddr) (h : BatchHeader) (ts : gmap TransmissionID Transmission)
| Checked (ip : SocketAddr) (h : BatchHeader).

(** The primary and the handlers that wait. *)
Abbreviation config := (P * list task)%type.

(** One part of a handler, or another handler. *)
Inductive config_step : config -> config -> Prop :=
| cs_begin E ip bp p ts :
    env_ok lookback E -> is_synced E = true ->
    config_step (p, ts)
      (let '(r, p) := begin_batch_propose E ip bp p in
       (p, match r with Ok (Some h) => ts ++ [Begun ip h] | _ => ts end))
| cs_sync E fuel ip h p l k :
    env_ok lookback E ->
    config_step (p, l ++ Begun ip h :: k)
      (let '(r, p) := sync_with_batch_header_from_peer sha256 E fuel false true ip h p in
       (p, match r with Ok ts => l ++ Synced ip h ts :: k | _ => l ++ k end))
| cs_check E ip h ts p l k :
    env_ok lookback E ->
    config_step (p, l ++ Synced ip h ts :: k)
      (let '(r, p) := check_batch_propose sha256 E ip h ts p in
       (p, match r with Ok true => l ++ Checked ip h :: k | _ => l ++ k end))
| cs_sign E ip h p l k :
    env_ok lookback E ->
    config_step (p, l ++ Checked ip h :: k) ((end_batch_propose E ip h p).2, l ++ k)
| cs_other p p' ts : primary_step sha256 lookback p p' -> config_step (p, ts) (p', ts).

Definition config_reachable (c : config) : Prop :=
  exists s x p0, StorageProps.reachable lookback s /\ run x (new s) = Ok p0 /\ rtc config_step (p0, []) c.

(** A handler that is not interrupted is a sequence of such steps. *)
Lemma whole_handler E fuel ip bp p ts :
  env_ok lookback E -> is_synced E = true ->
  rtc config_step (p, ts) ((process_batch_propose_from_peer sha256 E fuel ip bp p).2, ts).
Proof.
  intros HE Hs. unfold process_batch_propose_from_peer. unfold sbind at 1.
  pose proof (cs_begin E ip bp p ts HE Hs) as H1. destruct (begin_batch_propose E ip bp p) as [[[h|]| | |] p1];
    try (by apply rtc_once).
  eapply rtc_l; [exact H1|]. unfold sbind at 1. pose proof (cs_sync E fuel ip h p1 ts [] HE) as H2.
  destruct (sync_with_batch_header_from_peer _ _ _ _ _ _ _ _) as [[m| | |] p2];
    rewrite ?app_nil_r in H2; try (by apply rtc_once).
  eapply rtc_l; [exact H2|]. unfold sbind at 1. pose proof (cs_check E ip h m p2 ts [] HE) as H3.
  destruct (check_batch_propose _ _ _ _ _ _) as [[[]| | |] p3]; rewrite ?app_nil_r in H3; try (by apply rtc_once).
  eapply rtc_l; [exact H3|]. pose proof (cs_sign E ip h p3 ts [] HE) as H4. rewrite app_nil_r in H4.
  by apply rtc_once.
Qed.

(** The steps, by the outcome of the part. *)
Lemma begin_step E ip bp p ts h :
  env_ok lookback E -> is_synced E = true -> (begin_batch_propose E ip bp p).1 = Ok (Some h) ->
  config_step (p, ts) ((begin_batch_propose E ip bp p).2, ts ++ [Begun ip h]).
Proof.
  intros HE Hs H. pose proof (cs_begin E ip bp p ts HE Hs) as Hc.
  destruct (begin_batch_propose E ip bp p). cbn in *. by subst.
Qed.
Lemma sync_step E fuel ip h m p l k :
  env_ok lookback E -> (sync_with_batch_header_from_peer sha256 E fuel false true ip h p).1 = Ok m ->
  config_step (p, l ++ Begun ip h :: k)
    ((sync_with_batch_header_from_peer sha256 E fuel false true ip h p).2, l ++ Synced ip h m :: k).
Proof.
  intros HE H. pose proof (cs_sync E fuel ip h p l k HE) as Hc.
  destruct (sync_with_batch_header_from_peer _ _ _ _ _ _ _ _). cbn in *. by subst.
Qed.
Lemma check_step E ip h m p l k :
  env_ok lookback E -> (check_batch_propose sha256 E ip h m p).1 = Ok true ->
  config_step (p, l ++ Synced ip h m :: k) ((check_batch_propose sha256 E ip h m p).2, l ++ Checked ip h :: k).
Proof.
  intros HE H. pose proof (cs_check E ip h m p l k HE) as Hc.
  destruct (check_batch_propose _ _ _ _ _ _). cbn in *. by subst.
Qed.

End Signing.
End Signing.

(** ** A validator that signs twice *)

Abbreviation TestBFT := (Bft.BFT (Memory.BFTMemoryService (N := TestNetwork))
  (ListLru.cache (Field (Network := TestNetwork)) (BatchCertificate (N := TestNetwork)))).
#[export] Instance test_callback : PrimaryCallback TestStorage TestBFT := Validator.bft_callback None.
#[export] Instance test_callback_laws : PrimaryCallbackLaws TestBFT := Validator.bft_callback_laws None.
Abbreviation TestPrimary := (Primary (N := TestNetwork) (Svc := Memory.BFTMemoryService (N := TestNetwork))
  (Cache := ListLru.cache (Field (Network := TestNetwork)) (BatchCertificate (N := TestNetwork))) (C := Z) (X := TestBFT)).

Definition test_rules : LedgerRules (N := TestNetwork) := {|
  latest_block_height := 10;
  get_block_round _ := Ok 1;
  check_solution_basic _ _ := Ok tt;
  check_transaction_basic _ _ := Ok tt;
  transaction_spend_in_microcredits _ _ := Ok 7;
  consensus_version _ := Ok 14;
  transaction_spend_limit _ := Some 100;
  max_transaction_size _ := Some 1000;
|}.

(** The validator [d], connected to the others. *)
Definition test_ip (a : ascii) : SocketAddr := SocketAddrV4 (Z.of_N (N_of_ascii a)) 4130.
Definition test_gateway : Gateway (N := TestNetwork) := {|
  account_address := "d"%char; account_key := "d"%char;
  connected := list_to_map ((fun a => (test_ip a, a)) <$> ["a"; "b"; "c"]%char);
  trusted_peers := ∅;
  address_peers := list_to_map ((fun a => (a, test_ip a)) <$> ["a"; "b"; "c"]%char);
|}.
Definition test_env (now : Z) : Env (N := TestNetwork) := {|
  ledger := sample_ledger; rules := test_rules; gateway := test_gateway; is_synced := true;
  now := now; rng := 0;
  fetch_transmission _ _ := Err "unknown transmission";
  fetch_certificate _ _ := Err "unknown certificate";
|}.

(** Proposals of the validator [b], for the rounds 3 and 4. *)
Definition test_header (r t : Z) (previous : list (BatchCertificate (N := TestNetwork))) : BatchHeader (N := TestNetwork) :=
  unwrap_or header7 (header_new (N := TestNetwork) "b"%char r t (committee_id sample_committee) [] (cert_id <$> previous) 0).
Definition header_3 := test_header 3 50 sample_round2.
Definition header_4 := test_header 4 60 sample_round3.
Definition header_4' := test_header 4 61 sample_round3.
Definition propose (h : BatchHeader (N := TestNetwork)) : BatchPropose (N := TestNetwork) :=
  mk_batch_propose (h_round h) (Object h).

Definition test_primary : TestPrimary :=
  unwrap_or (new sample_storage) (run None (new sample_storage)).

(** The parts of a handler, run by the validator for a header of [b]. *)
Definition peer_b : SocketAddr := test_ip "b"%char.
Definition begin_of (h : BatchHeader (N := TestNetwork)) (p : TestPrimary) : TestPrimary :=
  (begin_batch_propose (test_env 100) peer_b (propose h) p).2.
Definition sync_of (h : BatchHeader (N := TestNetwork)) (p : TestPrimary) : TestPrimary :=
  (sync_with_batch_header_from_peer test_sha256 (test_env 100) 5 false true peer_b h p).2.
Definition check_of (h : BatchHeader (N := TestNetwork)) (p : TestPrimary) : TestPrimary :=
  (check_batch_propose test_sha256 (test_env 100) peer_b h ∅ p).2.
Definition sign_of (h : BatchHeader (N := TestNetwork)) (p : TestPrimary) : TestPrimary :=
  (end_batch_propose (test_env 100) peer_b h p).2.
Definition prepare (h : BatchHeader (N := TestNetwork)) (p : TestPrimary) : TestPrimary :=
  check_of h (sync_of h (begin_of h p)).

(** Whether all parts before the signature succeed. *)
Definition prepares (h : BatchHeader (N := TestNetwork)) (p : TestPrimary) : bool :=
  bool_decide ((begin_batch_propose (test_env 100) peer_b (propose h) p).1 = Ok (Some h)) &&
  match (sync_with_batch_header_from_peer test_sha256 (test_env 100) 5 false true peer_b h (begin_of h p)).1 with
  | Ok m => bool_decide (m = ∅) | _ => false
  end &&
  match (check_batch_propose test_sha256 (test_env 100) peer_b h ∅ (sync_of h (begin_of h p))).1 with
  | Ok b => b | _ => false
  end.

Lemma prepare_steps h p ts :
  prepares h p = true ->
  rtc (Signing.config_step test_sha256 sample_lookback) (p, ts) (prepare h p, ts ++ [Signing.Checked peer_b h]).
Proof.
  intros [[H1 H2]%andb_true_iff H3]%andb_true_iff. apply bool_decide_eq_true in H1.
  eapply rtc_l; [by apply (Signing.begin_step _ _ (test_env 100) peer_b (propose h) p ts h)|].
  destruct (sync_with_batch_header_from_peer _ _ _ _ _ _ _ _).1 as [m| | |] eqn:E2 in H2; try done.
  apply bool_decide_eq_true in H2. subst m.
  eapply rtc_l; [by apply (Signing.sync_step _ _ (test_env 100) 5 peer_b h ∅ _ ts [])|].
  destruct (check_batch_propose _ _ _ _ _ _).1 as [[]| | |] eqn:E3 in H3; try done.
  eapply rtc_l; [by apply (Signing.check_step _ _ (test_env 100) peer_b h ∅ _ ts [])|]. done.
Qed.

(** The handlers of the batches of rounds 3 and 4 overlap, and the one of the
    older round signs last; then the other batch of round 4 arrives. *)
Definition overlap : TestPrimary :=
  sign_of header_3 (sign_of header_4 (prepare header_4 (prepare header_3 test_primary))).
Definition signed_twice : TestPrimary := sign_of header_4' (prepare header_4' overlap).

Lemma overlap_reachable :
  rtc (Signing.config_step test_sha256 sample_lookback) (test_primary, []) (signed_twice, []).
Proof.
  etrans; [apply (prepare_steps header_3); vm_refl|].
  etrans; [apply (prepare_steps header_4); vm_refl|].
  eapply rtc_l; [by apply (Signing.cs_sign _ _ (test_env 100) peer_b header_4 _ [Signing.Checked peer_b header_3] [])|].
  eapply rtc_l; [by apply (Signing.cs_sign _ _ (test_env 100) peer_b header_3 _ [] [])|].
  etrans; [apply (prepare_steps header_4'); vm_refl|].
  apply rtc_once. by apply (Signing.cs_sign _ _ (test_env 100) peer_b header_4' _ [] []).
Qed.

(** C7: overlapping handlers can sign two batches of one author for the same
    round.  The last check before a signature is recorded only compares the
    recorded round for equality, so a handler for an older round that ends
    late replaces the record of a newer one, and another batch of the newer
    round passes the check against the record. *)
Theorem overlapping_handlers_sign_twice :
  exists (p : TestPrimary) ts h h',
    Signing.config_reachable test_sha256 sample_lookback (p, ts) /\
    h ∈ signed_batches (outbox p) /\ h' ∈ signed_batches (outbox p) /\
    h_author h = h_author h' /\ h_round h = h_round h' /\ batch_id h <> batch_id h'.
Proof.
  assert (signed_batches (outbox signed_twice) = [header_4; header_3; header_4']) as Hs by vm_refl.
  assert (run None (new sample_storage) = Ok test_primary) as Hr by vm_refl.
  assert (bool_decide (batch_id header_4 = batch_id header_4') = false) as Hne by vm_refl.
  refine (ex_intro _ signed_twice (ex_intro _ [] (ex_intro _ header_4 (ex_intro _ header_4'
    (conj (ex_intro _ sample_storage (ex_intro _ None (ex_intro _ test_primary
      (conj sample_storage_reachable (conj Hr overlap_reachable))))) _))))).
  rewrite Hs. split; [left|]. split; [right; right; left|]. split; [vm_refl|]. split; [vm_refl|].
  by apply bool_decide_eq_false in Hne.
Qed.

(** ** Witnesses *)

(** The validator is at round 4 with a transaction, and proposes twice. *)
Definition proposing0 : TestPrimary :=
  set_callback None (Storage.sync_round_with_block sample_storage 4) test_primary.
Definition proposing1 : TestPrimary :=
  (on_unconfirmed_transaction test_sha256 (test_env 100) "a"%char (Object "a"%char) proposing0).2.
Definition proposing2 : TestPrimary := (propose_batch test_sha256 (test_env 101) proposing1).2.
Definition proposing3 : TestPrimary := (propose_batch test_sha256 (test_env 102) proposing2).2.

Lemma test_primary_reachable p :
  rtc (primary_step test_sha256 sample_lookback) test_primary p ->
  primary_reachable test_sha256 sample_lookback p.
Proof.
  intros Hp. assert (run None (new sample_storage) = Ok test_primary) as Hr by vm_refl.
  exact (ex_intro _ sample_storage (ex_intro _ None (ex_intro _ test_primary
    (conj sample_storage_reachable (conj Hr Hp))))).
Qed.

Lemma proposing3_reachable : primary_reachable test_sha256 sample_lookback proposing3.
Proof.
  apply test_primary_reachable.
  refine (rtc_l _ _ proposing0 _ (ps_shared test_sha256 sample_lookback test_primary None _
    (rtc_once _ _ (StorageProps.step_sync_round _ sample_storage 4))) _).
  refine (rtc_l _ _ proposing1 _ (ps_transaction test_sha256 sample_lookback proposing0 (test_env 100) "a"%char (Object "a"%char) eq_refl) _).
  refine (rtc_l _ _ proposing2 _ (ps_propose test_sha256 sample_lookback proposing1 (test_env 101) eq_refl) _).
  exact (rtc_once _ _ (ps_propose test_sha256 sample_lookback proposing2 (test_env 102) eq_refl)).
Qed.

(** The batch it proposed. *)
Definition own_header : BatchHeader (N := TestNetwork) :=
  match proposed_batch proposing3 with Some q => Proposal.p_batch_header q | None => header7 end.

Lemma own_proposals_unique_witness :
  own_batches (outbox proposing3) = replicate 4 own_header /\
  exists r t, latest_proposal_timestamp proposing3 = Some (r, t) /\ h_round own_header <= r.
Proof.
  assert (own_batches (outbox proposing3) = replicate 4 own_header) as Ho by vm_refl.
  split; [exact Ho|].
  destruct (own_proposals_unique test_sha256 sample_lookback proposing3 own_header own_header proposing3_reachable)
    as [_ H]; [rewrite Ho; left|rewrite Ho; left|reflexivity|exact H].
Defined.

(** A proposal of [b] arrives twice, and then another one for its round. *)
Definition signing1 : TestPrimary :=
  (on_batch_propose test_sha256 (test_env 100) 5 peer_b (propose header_4) test_primary).2.
Definition signing2 : TestPrimary :=
  (on_batch_propose test_sha256 (test_env 100) 5 peer_b (propose header_4) signing1).2.
Definition signing3 : TestPrimary :=
  (on_batch_propose test_sha256 (test_env 100) 5 peer_b (propose header_4') signing2).2.

Lemma signing3_reachable : primary_reachable test_sha256 sample_lookback signing3.
Proof.
  apply test_primary_reachable.
  refine (rtc_l _ _ signing1 _ (ps_batch_propose test_sha256 sample_lookback test_primary (test_env 100) 5 peer_b (propose header_4) eq_refl) _).
  refine (rtc_l _ _ signing2 _ (ps_batch_propose test_sha256 sample_lookback signing1 (test_env 100) 5 peer_b (propose header_4) eq_refl) _).
  exact (rtc_once _ _ (ps_batch_propose test_sha256 sample_lookback signing2 (test_env 100) 5 peer_b (propose header_4') eq_refl)).
Qed.

Lemma signs_once_witness :
  signed_batches (outbox signing3) = [header_4; header_4] /\
  ~ header_4' ∈ signed_batches (outbox signing3).
Proof.
  assert (signed_batches (outbox signing3) = [header_4; header_4]) as Hs by vm_refl.
  assert (bool_decide (batch_id header_4 = batch_id header_4') = false) as Hne by vm_refl.
  split; [exact Hs|]. intros H'. apply bool_decide_eq_false in Hne. apply Hne.
  apply (signs_once test_sha256 sample_lookback signing3 header_4 header_4' signing3_reachable);
    [rewrite Hs; left|exact H'|vm_refl|vm_refl].
Defined.
