(* ===== verification/Proposing.v ===== *)
(** * What a validator proposes

    Which transmissions [propose_batch] takes from the ready queue and which
    certificates the batch refers to, what becomes of a proposal when the
    primary catches up with its peers, and that catching up ends. *)

From S2P Require Import Prelude Network Sockets Committee Narwhal Lru StorageService Ledger Storage StorageProps Proposal Ready Worker Bft Primary PrimaryProps Validator Signing.
Import Primary.

Module Proposing.
Section Proposing.
Context `{N : Network} {TO : TransmissionOps}.
Context {Svc : Type} `{!StorageServiceOps Svc}.
Context {Cache : Type} `{!LruOps Cache Field BatchCertificate}.
Context {C X : Type} `{!PrimaryCallback (Storage.Storage Svc Cache) X}.
Context (sha256 : list Z -> list Z).

Abbreviation P := (Primary (Svc := Svc) (Cache := Cache) (C := C) (X := X)).
Abbreviation St := (Storage.Storage Svc Cache).
Abbreviation Wk := (Worker.Worker C).

(** ** Draining the ready queue *)

Definition queue (w : Wk) : list (TransmissionID * Transmission) := Ready.transmissions (Worker.w_ready w).

(** The costs of a batch, transmission by transmission, as the primary checks
    them. *)
Definition batch_cost (E : Env) (ts : list (TransmissionID * Transmission)) : result Z :=
  foldM (fun cost e => match check_transmission E cost e.1 e.2 with
                       | Ok (Include cost) => Ok cost
                       | _ => Err "not included"
                       end) 0 ts.

(** The reasons for which a transmission is dropped from the queue. *)
Definition dropped (E : Env) (s : St) (e : TransmissionID * Transmission) : Prop :=
  unwrap_or true (ledger_contains_transmission (ledger E) e.1) = true \/
  Storage.contains_transmission s e.1 = true \/
  exists cost, check_transmission E cost e.1 e.2 = Ok Discard.

(** Why the queue was not emptied: the batch is full, or the next transaction
    would exceed the limit. *)
Definition stopped (E : Env) (n : Z) (d : list (TransmissionID * Transmission) * Z)
    (q : list (TransmissionID * Transmission)) : Prop :=
  q = [] \/ MAX_TRANSMISSIONS_PER_BATCH <= len d.1 \/ Worker.MAX_TRANSMISSIONS_PER_WORKER <= n \/
  exists e q', q = e :: q' /\ check_transmission E d.2 e.1 e.2 = Ok OverLimit.

Lemma batch_cost_snoc E ts i t cost cost' :
  batch_cost E ts = Ok cost -> check_transmission E cost i t = Ok (Include cost') ->
  batch_cost E (ts ++ [(i, t)]) = Ok cost'.
Proof. intros H1 H2. unfold batch_cost in *. rewrite foldM_app, H1. cbn. by rewrite H2. Qed.

(** The front of the queue, and putting it back. *)
Lemma remove_front_queue (w : Wk) :
  Ready.ready_inv (Worker.w_ready w) ->
  match Worker.remove_front w with
  | (None, w') => queue w = [] /\ w' = w
  | (Some e, w') => queue w = e :: queue w' /\ Ready.ready_inv (Worker.w_ready w') /\
      queue (Worker.insert_front e.1 e.2 w') = queue w /\
      Ready.ready_inv (Worker.w_ready (Worker.insert_front e.1 e.2 w'))
  end.
Proof.
  intros Hw. unfold Worker.remove_front, Worker.insert_front, queue.
  pose proof (Ready.remove_front_step _ Hw) as [Hr Hq]. pose proof (Ready.ri_nodup _ Hw) as Hnd.
  destruct (Ready.transmissions (Worker.w_ready w)) as [|[i t] q] eqn:Eq.
  - unfold Ready.remove_front in *. rewrite Eq in *. cbn. split; [done|]. by destruct w.
  - destruct (Ready.remove_front (Worker.w_ready w)) as [e r]. cbn in Hr, Hq |- *. simplify_eq.
    split; [done|]. split; [done|].
    pose proof (Ready.insert_front_step r i t Hr) as [Hi Hqi]. cbn in Hnd. apply NoDup_cons in Hnd as [Hni _].
    cbn in Hqi. rewrite decide_False in Hqi by done. injection Hqi as _ Hqi. cbn. by rewrite Hqi.
Qed.

(** What a run over the queue does: it takes transmissions off its front, adds
    some of them to the batch in their order, and drops the others for a
    reason. *)
Definition drained (E : Env) (s : St) (n : Z) (d : list (TransmissionID * Transmission) * Z) (w : Wk)
    (d' : list (TransmissionID * Transmission) * Z) (w' : Wk) : Prop :=
  exists taken picked, queue w = taken ++ queue w' /\ d'.1 = d.1 ++ picked /\ sublist picked taken /\
    (forall e, e ∈ taken -> e ∈ picked \/ dropped E s e) /\ batch_cost E d'.1 = Ok d'.2 /\
    len d'.1 <= MAX_TRANSMISSIONS_PER_BATCH /\ Ready.ready_inv (Worker.w_ready w') /\
    stopped E (n + len picked) d' (queue w').

Definition draft_ok (E : Env) (d : list (TransmissionID * Transmission) * Z) : Prop :=
  batch_cost E d.1 = Ok d.2 /\ len d.1 <= MAX_TRANSMISSIONS_PER_BATCH.

(** Nothing more is taken. *)
Lemma drained_stop E s n d (w w' : Wk) :
  draft_ok E d -> queue w' = queue w -> Ready.ready_inv (Worker.w_ready w') -> stopped E n d (queue w) ->
  drained E s n d w d w'.
Proof.
  intros [Hc Hm] Hq Hw Hs. exists [], []. rewrite Hq, app_nil_r, Z.add_0_r. split_and!; try done.
  by intros e ?%elem_of_nil.
Qed.

(** A transmission is taken first. *)
Lemma drained_cons E s n d (w w1 : Wk) e picked1 d1 d' w' :
  queue w = e :: queue w1 -> d1.1 = d.1 ++ picked1 ->
  picked1 = [e] \/ picked1 = [] /\ dropped E s e ->
  drained E s (n + len picked1) d1 w1 d' w' -> drained E s n d w d' w'.
Proof.
  intros Hq Ed1 Hp (taken & picked & H1 & H2 & H3 & H4 & H5 & H6 & H7 & H8).
  exists (e :: taken), (picked1 ++ picked). rewrite Hq, H1. split_and!; try done.
  - by rewrite H2, Ed1, app_assoc.
  - destruct Hp as [->|[-> _]]; cbn; by constructor.
  - intros e' [->|He]%elem_of_cons.
    + destruct Hp as [->|[_ ?]]; [left; cbn; left|by right].
    + destruct (H4 e' He) as [?|?]; [left; apply elem_of_app; by right|by right].
  - by rewrite len_app, Z.add_assoc.
Qed.

Lemma drain_worker_spec E s fuel d n (w : Wk) :
  Ready.ready_inv (Worker.w_ready w) -> NoDup (d.1.*1 ++ (queue w).*1) -> (length (queue w) < fuel)%nat ->
  draft_ok E d ->
  forall stop d' w', drain_worker E s fuel d n w = (Ok (stop, d'), w') -> drained E s n d w d' w'.
Proof.
  revert d n w. induction fuel as [|fuel IH]; intros d n w Hw Hnd Hf Hd stop d' w' Hrun; [lia|].
  cbn [drain_worker] in Hrun. pose proof (remove_front_queue w Hw) as Hfr.
  destruct (Worker.remove_front w) as [[[i t]|] w1].
  2: { destruct Hfr as [Hq ->]. simplify_eq. apply drained_stop; try done. by left. }
  destruct Hfr as (Hq & Hw1 & Hback & Hbinv). cbn [fst snd] in Hback, Hbinv.
  rewrite Hq in Hnd, Hf. cbn in Hnd, Hf. pose proof Hnd as (Hd1 & Hdq & Hnd1)%NoDup_app.
  apply NoDup_cons in Hnd1 as [_ Hnd1].
  assert (dropped E s (i, t) -> drain_worker E s fuel d n w1 = (Ok (stop, d'), w') -> drained E s n d w d' w') as Hdrop.
  { intros Hdr Hrun'. eapply (drained_cons E s n d w w1 (i, t) []); [done|by rewrite app_nil_r|by right|].
    rewrite Z.add_0_r. eapply IH; [done| |lia|done|exact Hrun']. apply NoDup_app. split_and!; [done| |done].
    intros x Hx Hx'. apply (Hdq x Hx). by right. }
  case_decide; [simplify_eq; apply drained_stop; try done; by right; left|].
  case_decide; [simplify_eq; apply drained_stop; try done; by right; right; left|].
  destruct (unwrap_or true _) eqn:H3; [apply Hdrop; [by left|done]|].
  destruct (negb _ && _) eqn:H4; [apply andb_true_iff in H4 as [_ H4]; apply Hdrop; [by right; left|done]|].
  destruct (check_transmission E d.2 i t) as [[|cost|]| | |] eqn:Hchk; try done.
  - apply Hdrop; [right; right; by exists d.2|done].
  - rewrite imap_insert_new in Hrun by (intros Hin; apply (Hdq i Hin); left).
    eapply (drained_cons E s n d w w1 (i, t) [(i, t)] (d.1 ++ [(i, t)], cost)); [done|done|by left|].
    eapply IH; [done| |lia| |exact Hrun]; cbn [fst snd].
    + by rewrite fmap_app, <-app_assoc.
    + destruct Hd as [Hc Hm]. split; [by eapply batch_cost_snoc|]. cbn [fst]. rewrite len_app. unfold len at 2. cbn [length]. lia.
  - simplify_eq. apply drained_stop; try done. right; right; right. by exists (i, t), (queue w1).
Qed.

Lemma include_limit E cost i t cost' limit :
  batch_spend_limit E (latest_block_height (rules E)) = Ok limit ->
  check_transmission E cost i t = Ok (Include cost') -> cost' = cost \/ cost' <= limit.
Proof.
  intros Hl H. unfold check_transmission in H. destruct i, t; try done; case_bool_decide; try done.
  - destruct (check_solution_basic _ _ _); try done. left. congruence.
  - simp_ok. destruct (transaction_spend_in_microcredits _ _ _); try done.
    destruct (check_transaction_basic _ _ _); try done. destruct (u64_checked_add _ _); [|done].
    rewrite Hl in H. cbn in H. case_decide; [done|]. right. simplify_eq. lia.
Qed.

Lemma batch_cost_limit E ts cost limit :
  batch_spend_limit E (latest_block_height (rules E)) = Ok limit -> batch_cost E ts = Ok cost -> cost <= limit.
Proof.
  intros Hl. unfold batch_cost. assert (0 <= limit) as H0.
  { unfold batch_spend_limit in Hl. simp_ok. apply Z.div_pos; [apply u64_wrap_range|lia]. }
  apply (foldM_ind (fun c => c <= limit)); [done|]. intros [i t] c c' _ Hc H. cbn in H.
  destruct (check_transmission E c i t) as [[|?|]| | |] eqn:E1; try done. simplify_eq.
  destruct (include_limit _ _ _ _ _ _ Hl E1); lia.
Qed.

(** ** The batch that is proposed *)

Lemma lift_Ok {S A} (r : result A) (s s' : S) a : slift r s = (Ok a, s') -> r = Ok a /\ s' = s.
Proof. by intros [= -> ->]. Qed.
Lemma ret_false {S} (s s' : S) : sret false s <> (Ok true, s').
Proof. done. Qed.

(** The previous certificates of a batch: all the primary has of the previous
    round, of a quorum of the committee. *)
Definition refers_to_quorum (E : Env) (s : St) (h : BatchHeader) : Prop :=
  let previous := Storage.get_certificates_for_round s (saturating_sub (h_round h) 1) in
  h_previous_certificate_ids h = iset_of_list id (cert_id <$> previous) /\
  (1 < h_round h -> exists committee, get_committee_lookback_for_round (ledger E) (h_round h - 1) = Ok committee /\
     is_quorum_threshold_reached committee (list_to_set (author <$> previous)) = true).

Lemma header_new_fields key r t cid ids prev rng h :
  header_new key r t cid ids prev rng = Ok h ->
  h_round h = r /\ h_timestamp h = t /\ h_transmission_ids h = ids /\ h_previous_certificate_ids h = prev /\
  key_address key = Ok (h_author h).
Proof. unfold header_new. intros H. simp_ok. done. Qed.
Lemma proposal_new_fields com h ts q :
  Proposal.new com h ts = Ok q ->
  q = Proposal.mk_proposal h ts [] /\ is_committee_member com (h_author h) = true.
Proof. unfold Proposal.new. intros H. simp_ok. done. Qed.

Lemma sign_and_propose_Ok E r com previous ts (p p' : P) :
  sign_and_propose sha256 E r com previous ts p = (Ok true, p') ->
  exists h, outbox p' = outbox p ++ [BroadcastBatchPropose h] /\ workers p' = workers p /\
    proposed_batch p' = Some (Proposal.mk_proposal h ts []) /\
    latest_proposal_timestamp p' = Some (r, now E) /\ h_round h = r /\ h_timestamp h = now E /\
    h_transmission_ids h = ts.*1 /\ h_previous_certificate_ids h = iset_of_list id (cert_id <$> previous) /\
    is_committee_member com (h_author h) = true.
Proof.
  unfold sign_and_propose. unfold sbind at 1, smodify at 1. intros H.
  match type of H with context [match ?r with Ok _ => _ | _ => _ end] => destruct r as [[h q]| | |] eqn:Hn end; try done.
  simp_ok. match goal with H : header_new _ _ _ _ _ _ _ = Ok _ |- _ => apply header_new_fields in H as (? & ? & ? & ? & ?) end.
  match goal with H : Proposal.new _ _ _ = Ok _ |- _ => apply proposal_new_fields in H as [? ?] end.
  cbn in H. unfold sret in H. simplify_eq. by exists h.
Qed.

(** A batch names no transmission twice. *)
Lemma drain_worker_NoDup E (s : St) fuel d n (w w' : Wk) stop d' :
  NoDup d.1.*1 -> drain_worker E s fuel d n w = (Ok (stop, d'), w') -> NoDup d'.1.*1.
Proof.
  revert d n w. induction fuel as [|fuel IH]; intros d n w Hd H; cbn [drain_worker] in H; [done|].
  destruct (Worker.remove_front w) as [[[i t]|] w1]; [|by simplify_eq].
  case_decide; [by simplify_eq|]. case_decide; [by simplify_eq|].
  destruct (unwrap_or true _); [by eapply IH|]. destruct (negb _ && _); [by eapply IH|].
  destruct (check_transmission E d.2 i t) as [[|cost|]| | |]; try done; [by eapply IH| |by simplify_eq].
  eapply IH; [|exact H]. by apply imap_insert_NoDup.
Qed.

Lemma drain_workers_NoDup E (s : St) d (ws ws' : list Wk) d' :
  NoDup d.1.*1 -> drain_workers E s d ws = (Ok d', ws') -> NoDup d'.1.*1.
Proof.
  revert d ws'. induction ws as [|w ws IH]; intros d ws' Hd H; cbn [drain_workers] in H; [by simplify_eq|].
  destruct (drain_worker E s (S (queue_length w)) d 0 w) as [[[stop d1]| | |] w1] eqn:Ew; try done.
  apply drain_worker_NoDup in Ew; [|done]. destruct stop; [by simplify_eq|].
  destruct (drain_workers E s d1 ws) as [r ws1] eqn:Er. simplify_eq. by eapply IH.
Qed.

(** An expired proposal goes back to the workers; nothing else changes. *)
Lemma expiration_keeps E (p p1 : P) r :
  check_proposed_batch_for_expiration sha256 E p = (r, p1) -> storage p1 = storage p /\ outbox p1 = outbox p.
Proof.
  unfold check_proposed_batch_for_expiration, reinsert_transmissions_into_workers, to_workers. unfold sbind at 1, sget at 1.
  destruct (proposed_batch p) as [q|]; [|by intros [= _ <-]]. case_decide; [|by intros [= _ <-]].
  unfold sbind at 1, smodify at 1. cbn. by destruct (Partition.assign_to_workers _ _ _ _) as [r1 ws]; intros [= _ <-].
Qed.

(** The batch that [propose_batch] sends, in any state. *)
Record proposes (E : Env) (p p' : P) (h : BatchHeader) (ts : list (TransmissionID * Transmission))
    (committee : Committee) : Prop := {
  pr_sent : outbox p' = outbox p ++ [BroadcastBatchPropose h];
  pr_kept : proposed_batch p' = Some (Proposal.mk_proposal h ts []);
  pr_round : h_round h = current_round p;
  pr_positive : 0 < h_round h;
  pr_time : h_timestamp h = now E;
  pr_ids : h_transmission_ids h = ts.*1;
  pr_distinct : NoDup ts.*1;
  pr_quorum : refers_to_quorum E (storage p) h;
  pr_committee : get_committee_lookback_for_round (ledger E) (h_round h) = Ok committee;
  pr_member : is_committee_member committee (h_author h) = true;
}.

Lemma propose_batch_proposes E (p p' : P) :
  propose_batch sha256 E p = (Ok true, p') -> exists h ts committee, proposes E p p' h ts committee.
Proof.
  unfold propose_batch. destruct (check_proposed_batch_for_expiration sha256 E p) as [[[]| | |] p1] eqn:Hx; try done.
  apply expiration_keeps in Hx as [Hst Ho]. cbv zeta. intros H.
  apply sbind_Ok in H as (u & q & [Hpos ->]%lift_Ok & H). apply ensure_Ok in Hpos. apply bool_decide_eq_true in Hpos.
  match type of H with context [if ?b then sret false else _] => destruct b; [by apply ret_false in H|] end.
  destruct (proposed_batch p1) as [q1|] eqn:Eq.
  { apply sbind_Ok in H as (? & ? & _ & H). by apply ret_false in H. }
  apply sbind_Ok in H as (in_time & q1 & [_ ->]%lift_Ok & H). destruct in_time; [|by apply ret_false in H]. cbn [negb] in H.
  destruct (Storage.contains_certificate_in_round_from _ _ _).
  { apply sbind_Ok in H as (? & ? & _ & H). by apply ret_false in H. }
  match type of H with context [if ?b then sret false else _] => destruct b; [by apply ret_false in H|] end.
  apply sbind_Ok in H as (com & q2 & [Hcom ->]%lift_Ok & H).
  destruct (is_quorum_threshold_reached _ _); [|by apply ret_false in H]. cbn [negb] in H.
  apply sbind_Ok in H as (ready & q3 & [H4 ->]%lift_Ok & H). destruct ready; [|by apply ret_false in H]. cbn [negb] in H.
  destruct (drain_workers E (storage p1) ([], 0) (workers p1)) as [dr ws] eqn:Hdr.
  apply sbind_Ok in H as (u2 & q4 & Hm & H). injection Hm as <- <-.
  apply sbind_Ok in H as (d & q5 & [-> ->]%lift_Ok & H). apply drain_workers_NoDup in Hdr; [|constructor].
  apply sign_and_propose_Ok in H as (h & G1 & G2 & G3 & _ & G5 & G6 & G7 & G8 & G9).
  assert (current_round p1 = current_round p) as Hr by (unfold current_round; by rewrite Hst).
  exists h, d.1, com. rewrite Hr in *. split; try done.
  - rewrite G1. cbn. by rewrite Ho.
  - by rewrite G5.
  - split; [by rewrite G5, <-Hst|]. intros H1. unfold is_ready_to_propose in H4. rewrite G5 in H1 |- *.
    replace (saturating_sub (current_round p) 1) with (current_round p - 1) in * by (unfold saturating_sub; lia).
    rewrite decide_True in H4 by lia. simp_ok.
    match goal with H : Storage.or_bail _ ?r = Ok _ |- _ => destruct r as [com'| | |]; cbn in H; simplify_eq end.
    eexists. split; [done|]. by rewrite <-Hst.
  - by rewrite G5.
Qed.

(** What [propose_batch] proposes.  A primary without a proposal that
    proposes a batch takes the transmissions from the front of the ready queue:
    those it takes and does not include are already in the ledger or in
    storage, or no longer valid.  The batch has at most
    [MAX_TRANSMISSIONS_PER_BATCH] of them, in the order of the queue, passes
    the checks one by one with costs within the spend limit, and stops early
    only when it is full or the next transaction would exceed the limit.  It is
    for the current round, refers to all certificates of the previous round,
    which are of a quorum, and is broadcast and kept. *)
Theorem proposal_contents E (p p' : P) w :
  propose_batch sha256 E p = (Ok true, p') -> proposed_batch p = None -> workers p = [w] ->
  Ready.ready_inv (Worker.w_ready w) ->
  exists h ts w' cost,
    outbox p' = outbox p ++ [BroadcastBatchPropose h] /\ workers p' = [w'] /\
    proposed_batch p' = Some (Proposal.mk_proposal h ts []) /\
    h_round h = current_round p /\ h_transmission_ids h = ts.*1 /\
    refers_to_quorum E (storage p) h /\
    drained E (storage p) 0 ([], 0) w (ts, cost) w' /\
    (forall limit, batch_spend_limit E (latest_block_height (rules E)) = Ok limit -> cost <= limit).
Proof.
  intros H Hb Hws Hinv. unfold propose_batch, check_proposed_batch_for_expiration in H. unfold sbind at 1, sget at 1 in H.
  rewrite Hb in H. change (sret tt p) with (Ok tt, p) in H. cbv zeta in H. apply sbind_Ok in H as (u & q & [_ ->]%lift_Ok & H).
  match type of H with context [if ?b then sret false else _] => destruct b; [by apply ret_false in H|] end. rewrite Hb in H.
  apply sbind_Ok in H as (in_time & q1 & [_ ->]%lift_Ok & H). destruct in_time; [|by apply ret_false in H]. cbn [negb] in H.
  destruct (Storage.contains_certificate_in_round_from _ _ _).
  { apply sbind_Ok in H as (? & ? & _ & H). by apply ret_false in H. }
  match type of H with context [if ?b then sret false else _] => destruct b; [by apply ret_false in H|] end.
  apply sbind_Ok in H as (com & q2 & [_ ->]%lift_Ok & H).
  destruct (is_quorum_threshold_reached _ _); [|by apply ret_false in H]. cbn [negb] in H.
  apply sbind_Ok in H as (ready & q3 & [H4 ->]%lift_Ok & H). destruct ready; [|by apply ret_false in H]. cbn [negb] in H.
  rewrite Hws in H. cbn [drain_workers] in H.
  destruct (drain_worker E (storage p) (S (queue_length w)) ([], 0) 0 w) as [r w1] eqn:Hdr.
  destruct r as [[stop d]| | |]; try (apply sbind_Ok in H as (? & ? & ? & H); by apply sbind_Ok in H as (? & ? & ? & ?)).
  assert (drained E (storage p) 0 ([], 0) w d w1) as Hdrained.
  { eapply drain_worker_spec; [done|apply (Ready.ri_nodup _ Hinv)|apply Nat.lt_succ_diag_r| |exact Hdr]. split; [done|]. by vm_compute. }
  assert (exists q4, sign_and_propose sha256 E (current_round p) com
    (Storage.get_certificates_for_round (storage p) (saturating_sub (current_round p) 1)) d.1 q4 = (Ok true, p') /\
    workers q4 = [w1] /\ outbox q4 = outbox p) as (q4 & Hsp & Hw4 & Ho4).
  { destruct stop; exists (set_workers [w1] p); (split; [exact H|done]). }
  apply sign_and_propose_Ok in Hsp as (h & G1 & G2 & G3 & _ & G5 & _ & G7 & G8 & _).
  exists h, d.1, w1, d.2. rewrite G1, G2, G3, Hw4, Ho4. split_and!; try done.
  - split; [by rewrite G5|]. intros Hr. unfold is_ready_to_propose in H4. rewrite G5 in Hr |- *.
    replace (saturating_sub (current_round p) 1) with (current_round p - 1) in * by (unfold saturating_sub; lia).
    rewrite decide_True in H4 by lia. simp_ok.
    match goal with H : Storage.or_bail _ ?r = Ok _ |- _ => destruct r as [com'| | |]; cbn in H; simplify_eq end. by eexists.
  - intros limit Hl. destruct Hdrained as (? & ? & _ & _ & _ & _ & Hc & _). by eapply batch_cost_limit.
Qed.

(** ** Other validators check the batch *)

Section Signable.
Context (lookback : Z -> result Committee).
Context (Hwf : forall r committee, lookback r = Ok committee -> committee_wf committee).

Lemma round_query_stored (s : St) r c :
  StorageProps.storage_inv s -> c ∈ Storage.get_certificates_for_round s r ->
  Storage.certificates s !! cert_id c = Some c.
Proof. intros Hs Hc. by apply (StorageProps.round_queries_spec s r Hs) in Hc as [Hc _]. Qed.

Lemma fold_previous_ok (s : St) r cs (acc : gset Address) :
  (forall c, c ∈ cs -> Storage.certificates s !! cert_id c = Some c /\ round c = r) ->
  NoDup (author <$> cs) -> (forall c, c ∈ cs -> author c ∉ acc) ->
  foldM (Storage.check_previous s r) acc (cert_id <$> cs) = Ok (acc ∪ list_to_set (author <$> cs)).
Proof.
  revert acc. induction cs as [|c cs IH]; intros acc Hc Hnd Hacc; cbn [fmap list_fmap foldM].
  { cbn. f_equal. set_solver. }
  cbn in Hnd. apply NoDup_cons in Hnd as [Hn Hnd]. destruct (Hc c) as [Hl Hr]; [left|].
  assert (Storage.check_previous s r acc (cert_id c) = Ok (acc ∪ {[author c]})) as ->.
  { unfold Storage.check_previous, Storage.get_certificate. rewrite Hl. cbn [ok_or mbind result_bind].
    rewrite !ensure_bind by (apply bool_decide_eq_true; (done || (apply Hacc; left))). done. }
  cbn [mbind result_bind]. rewrite IH.
  - f_equal. cbn. set_solver.
  - intros d Hd. apply Hc. by right.
  - done.
  - intros d Hd [Ha| Ha%elem_of_singleton]%elem_of_union.
    + apply (Hacc d); [by right|done].
    + apply Hn. rewrite <-Ha. apply list_elem_of_fmap. by exists d.
Qed.

Lemma members_bound committee (cs : list BatchCertificate) :
  NoDup (author <$> cs) -> (forall c, c ∈ cs -> is_committee_member committee (author c) = true) ->
  len cs <= num_members committee.
Proof.
  intros Hnd Hm. assert (length (author <$> cs) <= length (members committee).*1)%nat as Hle.
  { apply NoDup_incl_length; [by apply NoDup_ListNoDup|]. intros a Ha%list_elem_of_In.
    apply list_elem_of_fmap in Ha as (c & -> & Hc). apply Hm in Hc. unfold is_committee_member, imap_contains in Hc.
    apply bool_decide_eq_true in Hc as [m Hc%imap_get_elem]. apply list_elem_of_In, list_elem_of_fmap.
    by exists (author c, m). }
  rewrite !length_fmap in Hle. unfold num_members, len. lia.
Qed.

Lemma no_quorum_of_none committee : committee_wf committee -> is_quorum_threshold_reached committee ∅ = false.
Proof.
  intros Hc%total_stake_pos. unfold is_quorum_threshold_reached, accumulated_stake. rewrite elements_empty. cbn.
  apply bool_decide_eq_false. unfold quorum_threshold, u64_saturating_add, u64_saturating_mul.
  assert (0 <= Z.min u64_max (total_stake committee * 2) / 3) by (apply Z.div_pos; mlia). mlia.
Qed.

(** A header for which another validator has what it refers to. *)
Lemma header_signable E (s : St) h L now' (s' : St) ts missing committee :
  StorageProps.reachable lookback s -> PrimaryProps.env_ok lookback E -> 0 < h_round h ->
  refers_to_quorum E s h ->
  get_committee_lookback_for_round L = lookback -> StorageProps.storage_inv s' ->
  (forall c, c ∈ Storage.get_certificates_for_round s (h_round h - 1) ->
     Storage.certificates s' !! cert_id c = Some c) ->
  Storage.contains_batch s' (batch_id h) = false ->
  lookback (h_round h) = Ok committee -> is_committee_member committee (h_author h) = true ->
  check_timestamp_for_liveness now' (h_timestamp h) = Ok tt ->
  svc_find_missing (Storage.transmissions s') h ts ∅ = Ok missing ->
  Storage.check_batch_header L now' s' h ts ∅ = Ok (Some missing).
Proof.
  intros Hs HE Hr [Hids Hq] HL Hinv' Hsame Hnew Hcom Hmem Htime Hmiss.
  destruct (StorageProps.reachable_safe _ _ Hs) as [Hinv Hcert].
  replace (saturating_sub (h_round h) 1) with (h_round h - 1) in * by (unfold saturating_sub; lia).
  destruct (StorageProps.round_queries_spec s (h_round h - 1) Hinv) as (Hin & Hnd & _).
  set (previous := Storage.get_certificates_for_round s (h_round h - 1)) in *.
  assert (NoDup (cert_id <$> previous)) as Hndi.
  { apply NoDup_fmap_2_strong; [|by eapply NoDup_fmap_1]. intros c d [Hc _]%Hin [Hd _]%Hin Heq.
    rewrite Heq in Hc. congruence. }
  rewrite (iset_of_list_id id) in Hids by (by rewrite list_fmap_id).
  unfold Storage.check_batch_header. rewrite Hnew, HL, Hcom. cbn [Storage.or_bail mbind result_bind].
  rewrite ensure_bind by done. rewrite Htime. cbn [mbind result_bind]. rewrite Hmiss. cbn [mbind result_bind].
  replace (saturating_sub (h_round h) 1) with (h_round h - 1) by (unfold saturating_sub; lia).
  case_decide as Hgc; [|done].
  assert (1 < h_round h) as H1 by (pose proof (StorageProps.si_gc _ Hinv'); lia).
  destruct (Hq H1) as (com & Hcom' & Hquorum). rewrite HE in Hcom'. rewrite Hcom'. cbn [Storage.or_bail mbind result_bind].
  assert (forall c, c ∈ previous -> Storage.certificates s' !! cert_id c = Some c /\ round c = h_round h - 1) as Hall.
  { intros c Hc. split; [by apply Hsame|]. by apply Hin in Hc as [_ ?]. }
  rewrite ensure_bind.
  2: { apply bool_decide_eq_true. destruct previous as [|c cs] eqn:Eprev.
       - cbn in Hquorum. rewrite no_quorum_of_none in Hquorum by (by eapply Hwf). done.
       - destruct (Hall c) as [Hc <-]; [left|]. destruct (StorageProps.ix_certs _ (StorageProps.si_index _ Hinv') _ _ Hc)
           as (_ & es & Hes & _). by exists es. }
  rewrite Hids. rewrite ensure_bind.
  2: { apply bool_decide_eq_true. unfold len at 1. rewrite length_fmap. apply members_bound; [done|].
       intros c [Hc Hrc]%Hin. destruct (Hcert _ _ Hc) as (com' & Hl & _ & Hsg). rewrite Hrc, Hcom' in Hl. simplify_eq.
       apply Hsg. unfold Storage.signers. apply elem_of_union. left. by apply elem_of_singleton. }
  rewrite (fold_previous_ok s' (h_round h - 1) previous ∅); [|done|done|set_solver].
  cbn [mbind result_bind]. by rewrite (left_id_L ∅ (∪)), ensure_bind by done.
Qed.

(** What another validator must have to check the batch of [p]: the same
    committees, a consistent storage with the certificates the proposer has of
    the previous round and without the batch, a clock in range and the
    transmissions. *)
Record peer_ready (E : Env) (p : P) (h : BatchHeader) (L : LedgerService) (now' : Z) (s' : St)
    (given : gmap TransmissionID Transmission) : Prop := {
  pe_lookback : get_committee_lookback_for_round L = lookback;
  pe_storage : StorageProps.storage_inv s';
  pe_previous c : c ∈ Storage.get_certificates_for_round (storage p) (current_round p - 1) ->
    Storage.certificates s' !! cert_id c = Some c;
  pe_new : Storage.contains_batch s' (batch_id h) = false;
  pe_clock : check_timestamp_for_liveness now' (now E) = Ok tt;
  pe_given t : t ∈ h_transmission_ids h -> is_Some (given !! t);
}.

(** C10: an honest proposal passes the check of the other validators.  When
    [propose_batch] of a primary with a reachable storage reports a new batch,
    it sends one header, whatever it had proposed before and its workers hold.
    [check_batch_header] of every other validator accepts it that has the same
    committees, the proposer's certificates of the previous round, the
    transmissions of the batch and a clock in range, and not yet the batch. *)
Theorem proposal_signable `{!StorageServiceLaws Svc} E (p p' : P) :
  StorageProps.reachable lookback (storage p) -> PrimaryProps.env_ok lookback E ->
  propose_batch sha256 E p = (Ok true, p') ->
  exists h, outbox p' = outbox p ++ [BroadcastBatchPropose h] /\
    h_round h = current_round p /\ NoDup (h_transmission_ids h) /\
    forall L now' s' given, peer_ready E p h L now' s' given ->
    exists missing, Storage.check_batch_header L now' s' h given ∅ = Ok (Some missing).
Proof.
  intros Hs HE (h & ts & committee & [])%propose_batch_proposes. exists h.
  split_and!; [done|done|by rewrite pr_ids0|]. intros L now' s' given [].
  destruct (svc_find_provided (Storage.transmissions s') h given ∅) as [missing Hm]; [by rewrite pr_ids0|done|].
  exists missing. eapply header_signable; try done.
  - by rewrite pr_round0.
  - rewrite <-HE. done.
  - by rewrite pr_time0.
Qed.
End Signable.

(** ** Catching up *)

(** Catching up drops the proposal.  When [try_increment_to_the_next_round]
    skips over a round, the proposed batch is cleared and its transmissions
    are not put back into the workers, unlike in
    [check_proposed_batch_for_expiration], which puts them back: whatever
    becomes of the round afterwards, no worker holds more than before. *)
Theorem fast_forward_drops_proposal E fuel next (p p' : P) :
  fast_forward E fuel next (current_round p) p = (Ok tt, p') -> current_round p < saturating_sub next 1 ->
  proposed_batch p' = None /\ workers p' = workers p /\
  forall q, proposed_batch p = Some q -> Proposal.p_round q < current_round p ->
    exists r ws, Partition.assign_to_workers sha256
        (fun w i t => (Worker.reinsert (ledger E) (storage p) None i t w).2) (workers p) (Proposal.p_transmissions q)
      = (r, ws) /\
      check_proposed_batch_for_expiration sha256 E p = (r, set_workers ws (set_proposed None p)).
Proof.
  intros H Hlt.
  assert (forall fuel r (p p' : P), fast_forward E fuel next r p = (Ok tt, p') ->
    workers p' = workers p /\ (proposed_batch p = None -> proposed_batch p' = None)) as Hind.
  { clear. induction fuel as [|fuel IH]; intros r p p' H; cbn [fast_forward] in H; (case_decide; [|by injection H as <-]);
      [done|].
    apply sbind_Ok in H as (r1 & p1 & H1 & H). unfold on_storage in H1.
    destruct (Storage.increment_to_next_round _ _ _). simplify_eq. apply IH in H as [-> H].
    split; [done|]. intros _. by apply H. }
  destruct fuel as [|fuel]; cbn [fast_forward] in H; rewrite decide_True in H by done; [done|].
  apply sbind_Ok in H as (r1 & p1 & H1 & H). unfold on_storage in H1.
  destruct (Storage.increment_to_next_round _ _ _). simplify_eq. apply Hind in H as [-> H].
  split; [by apply H|]. split; [done|]. intros q Hq Hr.
  unfold check_proposed_batch_for_expiration, reinsert_transmissions_into_workers, to_workers. unfold sbind at 1, sget at 1.
  rewrite Hq, decide_True by done. cbn.
  destruct (Partition.assign_to_workers _ _ _ _) as [r ws]. by exists r, ws.
Qed.

(** ** Termination *)

(** What the ledger keeps of the committee: its starting round is not after
    the round of the latest block. *)
Definition ledger_started (L : LedgerService) : Prop :=
  current_committee L <> Deadlock /\
  forall committee, current_committee L = Ok committee -> starting_round committee <= Ledger.latest_round L.

Lemma increment_progress L (s : St) r r' s' :
  ledger_started L -> 0 <= r < u64_max ->
  Storage.increment_to_next_round L s r = (Ok r', s') -> r < r'.
Proof.
  intros [_ HL] Hr. unfold Storage.increment_to_next_round. rewrite u64_wrap_id by mlia.
  case_decide; [intros; simplify_eq; lia|]. destruct (current_committee L) as [com| | |] eqn:Hc; try done.
  specialize (HL com eq_refl). case_decide; [intros; simplify_eq; lia|].
  intros Hinj. injection Hinj as Hinj _. simp_ok. lia.
Qed.

Lemma increment_returns L (s : St) r : current_committee L <> Deadlock -> (Storage.increment_to_next_round L s r).1 <> Deadlock.
Proof.
  intros HL. unfold Storage.increment_to_next_round. case_decide; [done|].
  destruct (current_committee L); try done. case_decide; [done|]. cbn. by repeat case_bool_decide.
Qed.

Lemma fast_forward_returns E fuel next r (p : P) :
  ledger_started (ledger E) -> 0 <= r -> next <= u64_max -> next - r <= Z.of_nat fuel ->
  (fast_forward E fuel next r p).1 <> Deadlock.
Proof.
  intros HL. revert r p. induction fuel as [|fuel IH]; intros r p Hr Hn Hf; cbn [fast_forward];
    (case_decide as Hlt; [|done]); unfold saturating_sub in Hlt; [lia|].
  unfold sbind at 1, on_storage. pose proof (increment_returns (ledger E) (storage p) r (proj1 HL)) as Hd.
  destruct (Storage.increment_to_next_round (ledger E) (storage p) r) as [[r'| | |] s'] eqn:Hi; try done.
  apply increment_progress in Hi; [|done|lia]. apply IH; lia.
Qed.

(** [try_increment_to_the_next_round] returns.  For every state and every
    next round, whatever the storage holds, the loop that catches up ends: each
    iteration raises the round, also when the storage jumps to the round of
    the ledger. *)
Theorem try_increment_returns E next (p : P) :
  ledger_started (ledger E) -> 0 <= current_round p -> next <= u64_max ->
  (forall r xs, (try_advance_to_next_round (ledger E) (now E) r xs).1 <> Deadlock) ->
  (try_increment_to_the_next_round E next p).1 <> Deadlock.
Proof.
  intros HL Hr Hn Hcb. unfold try_increment_to_the_next_round. unfold sbind at 1, sget at 1. unfold sbind at 1.
  match goal with |- context [match ?m p with _ => _ end] => assert ((m p).1 <> Deadlock) as Hff end.
  { case_decide; [|done]. apply fast_forward_returns; [done..|lia]. }
  match goal with |- context [match ?m p with _ => _ end] => destruct (m p) as [[[]| | |] p1]; try done end.
  unfold sbind at 1, sget at 1. cbv zeta. case_decide; [|done]. unfold sbind at 1, on_callback.
  destruct (primary_callback p1) as [x|].
  - specialize (Hcb (current_round p1) (x, storage p1)).
    destruct (try_advance_to_next_round _ _ _ _) as [[b| | |] [x' s']]; try done. cbn. by destruct (b && is_synced E).
  - unfold sbind, on_storage. pose proof (increment_returns (ledger E) (storage p1) (current_round p1) (proj1 HL)) as Hd.
    destruct (Storage.increment_to_next_round _ _ _) as [[]?]; try done. cbn. by destruct (is_synced E).
Qed.

End Proposing.
End Proposing.

(** ** Witnesses *)

Lemma pair_fst {A B} (x : A * B) a : x.1 = a -> x = (a, x.2).
Proof. by destruct x; intros <-. Qed.

Definition worker_of_proposing (p : TestPrimary) : Worker.Worker (N := TestNetwork) Z := hd test_worker0 (workers p).

Lemma proposing1_ready : Ready.ready_inv (Worker.w_ready (worker_of_proposing proposing1)).
Proof.
  assert (Worker.w_ready (worker_of_proposing proposing1)
    = (Ready.insert Ready.new (IdTransaction (N := TestNetwork) "a" "a")%char (TTransaction (Object "a"%char))).2) as -> by vm_refl.
  apply Ready.insert_step; [apply Ready.ready_new_inv|]. by vm_compute.
Qed.

Lemma proposal_contents_witness :
  exists h ts cost, outbox proposing2 = [BroadcastBatchPropose h] /\
    proposed_batch proposing2 = Some (Proposal.mk_proposal h ts []) /\
    Proposing.drained (test_env 101) (storage proposing1) 0 ([], 0) (worker_of_proposing proposing1) (ts, cost)
      (worker_of_proposing proposing2) /\ cost <= 250.
Proof.
  assert ((propose_batch test_sha256 (test_env 101) proposing1).1 = Ok true) as H1 by vm_refl.
  assert (bool_decide (workers proposing1 = []) = false) as H2 by vm_refl.
  assert (tl (workers proposing1) = []) as H3 by vm_refl.
  assert (proposed_batch proposing1 = None) as H4 by vm_refl.
  assert (outbox proposing1 = []) as H5 by vm_refl.
  assert (batch_spend_limit (test_env 101) (latest_block_height test_rules) = Ok 250) as H6 by vm_refl.
  destruct (Proposing.proposal_contents test_sha256 (test_env 101) proposing1 proposing2 (worker_of_proposing proposing1))
    as (h & ts & w' & cost & G1 & G2 & G3 & _ & _ & _ & G7 & G8).
  - exact (pair_fst _ _ H1).
  - exact H4.
  - apply bool_decide_eq_false in H2. unfold worker_of_proposing. revert H2 H3. clear.
    by destruct (workers proposing1) as [|w [|]].
  - apply proposing1_ready.
  - rewrite H5 in G1. exists h, ts, cost. split; [exact G1|]. split; [exact G3|]. split; [|exact (G8 250 H6)].
    unfold worker_of_proposing at 2. rewrite G2. exact G7.
Defined.

(** The validator with a proposal for round 4 catches up to round 7. *)
Definition caught_up : TestPrimary := (fast_forward (test_env 102) 3 7 4 proposing2).2.

Lemma fast_forward_drops_proposal_witness :
  bool_decide (is_Some (proposed_batch proposing2)) = true /\ proposed_batch caught_up = None /\
  workers caught_up = workers proposing2.
Proof.
  assert (bool_decide (is_Some (proposed_batch proposing2)) = true) as H0 by vm_refl.
  assert ((fast_forward (test_env 102) 3 7 (current_round proposing2) proposing2).1 = Ok tt) as H1 by vm_refl.
  assert (current_round proposing2 = 4) as H2 by vm_refl.
  split; [exact H0|].
  destruct (Proposing.fast_forward_drops_proposal test_sha256 (test_env 102) 3 7 proposing2 caught_up) as (G1 & G2 & _).
  - rewrite H2 in H1 |- *. exact (pair_fst _ _ H1).
  - by rewrite H2.
  - exact (conj G1 G2).
Defined.

(** A ledger whose latest block is at the starting round of the committee. *)
Definition started_ledger : LedgerService (N := TestNetwork) := {|
  Ledger.latest_round := 2;
  current_committee := Ok sample_committee;
  get_committee_lookback_for_round := sample_lookback;
  ledger_contains_certificate _ := Ok false;
  ledger_contains_transmission _ := Ok false;
  ledger_get_solution _ := Ok None;
  ledger_get_unconfirmed_transaction _ := Ok None;
|}.
Definition started_env : Env (N := TestNetwork) :=
  mk_env started_ledger test_rules test_gateway true 102 0 (fetch_transmission (test_env 102)) (fetch_certificate (test_env 102)).

Lemma get_leader_returns (com : Committee (N := TestNetwork)) r : get_leader com r <> Deadlock.
Proof.
  unfold get_leader. unfold ensure. case_bool_decide; [|done]. cbn. case_decide; [done|].
  by destruct (find_leader _ _ _).
Qed.

Lemma try_increment_returns_witness :
  (try_increment_to_the_next_round started_env 7 proposing2).1 <> Deadlock.
Proof.
  assert (current_round proposing2 = 4) as H2 by vm_refl.
  apply Proposing.try_increment_returns.
  - split; [done|]. intros c [= <-]. done.
  - by rewrite H2.
  - done.
  - intros r xs. by apply Validator.advance_returns; [| |apply get_leader_returns].
Defined.

(** The batch of the validator, checked by a peer with the same storage. *)
Definition peer_storage : TestStorage := Storage.sync_round_with_block sample_storage 4.
Definition peer_transmissions : gmap (TransmissionID (N := TestNetwork)) (Transmission (N := TestNetwork)) :=
  {[ (IdTransaction (N := TestNetwork) "a" "a")%char := TTransaction (N := TestNetwork) (Object (T := ascii) "a"%char) ]}.
Lemma peer_storage_reachable : StorageProps.reachable sample_lookback peer_storage.
Proof.
  destruct sample_storage_reachable as (L & svc & gc & s0 & Hn & Hs). exists L, svc, gc, s0. split; [exact Hn|].
  eapply rtc_r; [exact Hs|]. apply StorageProps.step_sync_round.
Qed.

Lemma sent_header (l l' : list (output (N := TestNetwork))) h h' :
  l' = [] -> l = [BroadcastBatchPropose h] -> l = l' ++ [BroadcastBatchPropose h'] -> h' = h.
Proof. intros -> -> H. by injection H. Qed.

Lemma elem_of_one {A} (l : list A) a x : l = [a] -> x ∈ l -> x = a.
Proof. intros -> Hx. by apply list_elem_of_singleton in Hx. Qed.

(** A peer with the same storage is ready for the batch of the validator. *)
Lemma peer_is_ready :
  Proposing.peer_ready sample_lookback (test_env 101) proposing1 own_header sample_ledger 105 peer_storage
    peer_transmissions.
Proof.
  assert (storage proposing1 = peer_storage) as Hst by vm_refl.
  pose proof (proj1 (StorageProps.reachable_safe _ _ peer_storage_reachable)) as Hinv.
  assert (h_transmission_ids own_header = [(IdTransaction (N := TestNetwork) "a" "a")%char]) as Hids by vm_refl.
  split; [reflexivity|exact Hinv| |vm_refl|vm_refl|].
  - intros c Hc. rewrite Hst in Hc. exact (Proposing.round_query_stored peer_storage _ c Hinv Hc).
  - intros t Ht. rewrite (elem_of_one _ _ _ Hids Ht). eexists. unfold peer_transmissions. apply lookup_singleton_eq.
Qed.

Lemma proposal_signable_witness :
  exists missing, Storage.check_batch_header sample_ledger 105 peer_storage own_header peer_transmissions ∅
    = Ok (Some missing).
Proof.
  assert (storage proposing1 = peer_storage) as Hst by vm_refl.
  assert ((propose_batch test_sha256 (test_env 101) proposing1).1 = Ok true) as H1 by vm_refl.
  assert (outbox proposing1 = []) as H2 by vm_refl.
  assert (outbox proposing2 = [BroadcastBatchPropose own_header]) as H3 by vm_refl.
  destruct (Proposing.proposal_signable test_sha256 sample_lookback
    (fun r c H => proj1 (sample_lookback_wf r c H)) (test_env 101) proposing1 proposing2) as (h & Ho & _ & _ & Hp).
  - rewrite Hst. exact peer_storage_reachable.
  - reflexivity.
  - exact (pair_fst _ _ H1).
  - pose proof (sent_header _ _ _ _ H2 H3 Ho) as ->.
    exact (Hp sample_ledger 105 peer_storage peer_transmissions peer_is_ready).
Defined.
