(* ===== verification/BlockCheck.v ===== *)
(** * The check of a block's subdag

    [Ledger::check_block_subdag] and the first checks of
    [Ledger::check_block_content] (snarkVM/ledger/src/check_next_block.rs), and
    the committee lookback of the ledger (snarkVM/ledger/src/get.rs) and of
    [CoreLedgerService] (node/bft/ledger-service/src/ledger.rs).  The subdag of
    a leader that the BFT commits passes the check on every node that has the
    blocks before it. *)

From S2P Require Import Prelude Network Committee Narwhal Dfs Subdag Lru StorageService Ledger Storage Dag.
From S2P Require Import Bft BftProps StorageProps Locators SyncState BlockSync.

(** [Authority]; the signature of a beacon is not looked at. *)
Inductive Authority `{N : Network} := Beacon | Quorum (subdag : commit_map).

(** The accessors of [Block] that the checks call beside those of [BlockData]:
    the round of the header and the authority. *)
Class BlockAuthority `{N : Network} (B : BlockData) := {
  block_round : Block -> Z;
  authority : Block -> Authority;
}.

(** What the checks read of the ledger while they hold the lock on the current
    block: the block, the hashes and certificates of the block store and the
    committees of the committee store. *)
Record LedgerView `{N : Network} {B : BlockData} := mk_ledger_view {
  latest_block : Block;
  contains_block_hash : BlockHash -> result bool;
  contains_block_for_certificate : Field -> result bool;
  get_committee_for_round : Z -> result (option Committee);
}.

(** [COMMITTEE_LOOKBACK_RANGE] of [Committee]. *)
Definition COMMITTEE_LOOKBACK_RANGE : Z := MAX_GC_ROUNDS.

(** A check that fails with a [CheckBlockError]. *)
Abbreviation checked A := (result (CheckBlockError + A)).

Module BlockCheck.
Section BlockCheck.
Context `{N : Network} {B : BlockData} {BA : BlockAuthority B}.

(** ** Committees *)

(** The round whose committee decides in [round], in both
    [get_committee_lookback_for_round]. *)
Definition committee_lookback_round (round : Z) : Z :=
  let previous_round := if decide (round mod 2 = 0) then saturating_sub round 1 else saturating_sub round 2 in
  saturating_sub previous_round COMMITTEE_LOOKBACK_RANGE.

(** [Ledger::get_committee_lookback_for_round]. *)
Definition get_committee_lookback_for_round (V : LedgerView) (round : Z) : result (option Committee) :=
  get_committee_for_round V (committee_lookback_round round).

(** [CoreLedgerService::get_committee_lookback_for_round]. *)
Definition service_committee_lookback_for_round (V : LedgerView) (round : Z) : result Committee :=
  o ← get_committee_for_round V (committee_lookback_round round);
  ok_or "No committee found for round {round} in the ledger" o.

(** ** The checks of a subdag *)

Definition reject {A} (e : CheckBlockError) : checked A := Ok (inl e).
Definition pass {A} (a : A) : checked A := Ok (inr a).

Definition cbind {A C} (m : checked A) (k : A -> checked C) : checked C :=
  r ← m; match r with inl e => Ok (inl e) | inr a => k a end.

(** [?] on an [anyhow::Result]. *)
Definition other {A} (r : result A) : checked A :=
  match r with
  | Ok a => Ok (inr a)
  | Err msg => Ok (inl (OtherCheckError msg))
  | Panic msg => Panic msg
  | Deadlock => Deadlock
  end.

(** The signers of a certificate meet the quorum of the committee. *)
Definition check_quorum (committee : Committee) (_ : unit) (c : BatchCertificate) : result unit :=
  ensure (is_quorum_threshold_reached committee (Storage.signers c))
    "Certificate '{}' for round {round} does not meet quorum requirements".

(** [Ledger::check_block_subdag_quorum]. *)
Definition check_block_subdag_quorum (V : LedgerView) (block : Block) : result unit :=
  match authority block with
  | Quorum subdag =>
      foldM (fun _ e =>
        o ← Storage.or_bail "Failed to get committee lookback for round {round}"
              (get_committee_lookback_for_round V e.1);
        committee_lookback ← ok_or "No committee lookback for round {round}" o;
        foldM (check_quorum committee_lookback) tt e.2) tt (btree_iter subdag)
  | Beacon => Ok tt
  end.

(** One round of the traversal of [is_linked], in a subdag. *)
Definition traverse_round (subdag : commit_map) (traversal : list BatchCertificate) (r : Z)
    : result (list BatchCertificate) :=
  certificates ← ok_or "No certificates found for round {round}" (subdag !! r);
  Ok (List.filter (fun p => existsb (fun c => bool_decide (cert_id p ∈ previous_certificate_ids c)) traversal)
        certificates).

(** [is_linked] in [check_block_subdag_atomicity]. *)
Definition is_linked (subdag : commit_map) (previous current : BatchCertificate) : result bool :=
  traversal ← foldM (traverse_round subdag) [current]
    (Dag.rounds_down (Z.to_nat (round current - round previous)) (round previous));
  Ok (iset_contains cert_id (cert_id previous) traversal).

(** The body of the loop of [check_block_subdag_atomicity]. *)
Definition check_previous_leader (V : LedgerView) (subdag : commit_map) (_ : unit) (r : Z) : result unit :=
  o ← get_committee_lookback_for_round V r;
  committee ← ok_or "No committee lookback found for round {round}" o;
  computed_leader ← Storage.or_bail "Failed to compute leader for round {round}" (get_leader committee r);
  match certificates ← subdag !! r; List.find (fun c => bool_decide (author c = computed_leader)) certificates with
  | None => Ok tt
  | Some previous_certificate =>
      leader ← Subdag.leader_certificate subdag;
      linked ← is_linked subdag previous_certificate leader;
      ensure (negb linked) "The previous certificate should not be linked to the current certificate in block {}"
  end.

(** [Ledger::check_block_subdag_atomicity], with the block before. *)
Definition check_block_subdag_atomicity (V : LedgerView) (block predecessor : Block) : result unit :=
  match authority block with
  | Quorum subdag =>
      foldM (check_previous_leader V subdag) tt
        (Bft.rounds_down_by_2 (u64_saturating_add (block_round predecessor) 2)
           (saturating_sub (Subdag.anchor_round subdag) 2))
  | Beacon => Ok tt
  end.

(** The IDs of the certificates of a sequence of blocks. *)
Definition previous_certs (prefix : list Block) : list Field :=
  prefix ≫= fun b => match authority b with Quorum subdag => Subdag.certificate_ids subdag | Beacon => [] end.

(** The references of a subdag to certificates outside of it, with the round of
    those. *)
Definition leaf_edges (subdag : commit_map) : list (Z * Field) :=
  base.filter (fun e => e.2 ∉ Subdag.certificate_ids subdag)
    (Subdag.all_certificates subdag ≫= fun c =>
       (fun prev_id => (u64_wrap (round c - 1), prev_id)) <$> previous_certificate_ids c).

(** The check of one reference. *)
Definition check_leaf (V : LedgerView) (block : Block) (prefix : list Block) (_ : unit) (e : Z * Field)
    : result unit :=
  if decide (u64_wrap (e.1 + MAX_GC_ROUNDS - 1) <= block_round block) then Ok tt else
  if bool_decide (e.2 ∈ previous_certs prefix) then Ok tt else
  b ← contains_block_for_certificate V e.2;
  ensure b "Batch(es) in the block point(s) to a certificate that is not associated with a previous block".

(** [Ledger::check_block_subdag_leaves]. *)
Definition check_block_subdag_leaves (V : LedgerView) (block : Block) (prefix : list Block) : result unit :=
  match authority block with
  | Quorum subdag => foldM (check_leaf V block prefix) tt (leaf_edges subdag)
  | Beacon => Ok tt
  end.

(** The loop over the prefix, with the height of the block that follows it. *)
Fixpoint check_prefix (V : LedgerView) (index : nat) (expected_height : Z) (prefix : list Block) : checked Z :=
  match prefix with
  | [] => pass expected_height
  | prefix_block :: prefix =>
      if decide (height prefix_block <> expected_height) then reject (InvalidPrefix index InvalidHeight) else
      cbind (other (contains_block_hash V (hash prefix_block))) (fun contained =>
      if contained : bool then reject (InvalidPrefix index BlockAlreadyExists)
      else check_prefix V (S index) (u32_wrap (expected_height + 1)) prefix)
  end.

(** [Ledger::check_block_subdag_inner]. *)
Definition check_block_subdag_inner (V : LedgerView) (block : Block) (prefix : list Block) : checked unit :=
  cbind (check_prefix V 0 (u32_wrap (height (latest_block V) + 1)) prefix) (fun expected_height =>
  cbind (other (contains_block_hash V (hash block))) (fun contained =>
  if contained : bool then reject BlockAlreadyExists else
  if decide (height block <> expected_height) then reject InvalidHeight else
  cbind (other (check_block_subdag_quorum V block)) (fun _ =>
  cbind (other (check_block_subdag_atomicity V block (default (latest_block V) (last prefix)))) (fun _ =>
  other (check_block_subdag_leaves V block prefix))))).

(** [Ledger::check_block_subdag]; a pending block is the block. *)
Definition check_block_subdag (V : LedgerView) (block : Block) (prefix : list Block) : checked Block :=
  cbind (check_block_subdag_inner V block prefix) (fun _ => pass block).

(** [Ledger::check_block_content_inner], up to the verification of the contents
    ([verify]). *)
Definition check_block_content_inner (verify : LedgerView -> Block -> checked unit) (V : LedgerView)
    (block : Block) : checked unit :=
  if decide (height block <> u32_wrap (height (latest_block V) + 1)) then reject InvalidHeight else
  if decide (block_round block <= block_round (latest_block V)) then reject InvalidRound else
  verify V block.

(** [Ledger::check_block_content]. *)
Definition check_block_content (verify : LedgerView -> Block -> checked unit) (V : LedgerView)
    (block : Block) : checked Block :=
  cbind (check_block_content_inner verify V block) (fun _ => pass block).

(** [Ledger::check_next_block]. *)
Definition check_next_block (verify : LedgerView -> Block -> checked unit) (V : LedgerView) (block : Block)
    : result unit :=
  r ← check_block_subdag_inner V block [];
  match r with
  | inl e => Err (into_anyhow e)
  | inr _ =>
      r ← check_block_content_inner verify V block;
      match r with inl e => Err (into_anyhow e) | inr _ => Ok tt end
  end.

End BlockCheck.
End BlockCheck.
