(* ===== verification/BlockCheckProps.v ===== *)
(** * Honest blocks pass the check

    What [check_block_subdag] accepts, and that it accepts the subdag of every
    leader that [commit_leader_certificate] commits: its certificates have a
    quorum, no earlier leader is linked to it, and what it refers to is in
    earlier blocks or garbage collected. *)

From S2P Require Import Prelude Network Committee Narwhal Dfs Subdag Lru StorageService Ledger Storage Dag.
From S2P Require Import StorageProps Bft BftProps Locators SyncState BlockSync BlockCheck.

Module BlockCheckProps.
Import BlockCheck.

Section Checks.
Context `{N : Network} {B : BlockData} {BA : BlockAuthority B}.

(** ** Passing a check *)

Lemma cbind_pass {A C} (m : checked A) (k : A -> checked C) c :
  cbind m k = pass c <-> exists a, m = pass a /\ k a = pass c.
Proof.
  unfold cbind, pass. destruct m as [[e|a]|e|e|]; cbn; split; try done; try (by intros (? & ? & _)).
  - eauto.
  - by intros (a' & [= ->] & ?).
Qed.

Lemma other_pass {A} (r : result A) a : other r = pass a <-> r = Ok a.
Proof. unfold other, pass. destruct r; split; congruence. Qed.

(** The prefix is a chain of new blocks that starts at the expected height. *)
Definition extends_from (V : LedgerView) (h : Z) (prefix : list Block) : Prop :=
  forall k b, prefix !! k = Some b ->
    height b = h + Z.of_nat k /\ contains_block_hash V (hash b) = Ok false.

Lemma extends_from_cons V h b prefix :
  extends_from V h (b :: prefix) <->
  height b = h /\ contains_block_hash V (hash b) = Ok false /\ extends_from V (h + 1) prefix.
Proof.
  split.
  - intros H. destruct (H 0%nat b eq_refl) as [H1 H2]. split; [lia|]. split; [done|].
    intros k b' Hk. destruct (H (S k) b' Hk). split; [lia|done].
  - intros (H1 & H2 & H) [|k] b' Hk; cbn in Hk.
    + injection Hk as <-. split; [lia|done].
    + destruct (H k b' Hk). split; [lia|done].
Qed.

Lemma check_prefix_pass V i h prefix h' :
  0 <= h -> h + len prefix <= u32_max ->
  (check_prefix V i h prefix = pass h' <-> h' = h + len prefix /\ extends_from V h prefix).
Proof.
  revert i h. induction prefix as [|b prefix IH]; intros i h Hh Hlen; cbn [check_prefix].
  { rewrite Z.add_0_r. split; [|by intros [-> _]]. intros [= ->]. split; [done|]. by intros k b. }
  unfold len in *. cbn [length] in *. rewrite extends_from_cons.
  case_decide as Hb; [split; [done|naive_solver]|]. rewrite cbind_pass. setoid_rewrite other_pass.
  assert (check_prefix V (S i) (u32_wrap (h + 1)) prefix = pass h' <->
    h' = h + Z.of_nat (S (length prefix)) /\ extends_from V (h + 1) prefix) as Hrec.
  { rewrite u32_wrap_id by mlia. rewrite IH by lia.
    by replace (h + 1 + Z.of_nat (length prefix)) with (h + Z.of_nat (S (length prefix))) by lia. }
  split.
  - intros ([|] & Hc & Hp); [done|]. apply Hrec in Hp as [? ?]. split; [done|].
    split; [by destruct (decide (height b = h))|done].
  - intros (? & ? & Hc & Hp). exists false. split; [done|]. by apply Hrec.
Qed.

(** ** Linked certificates *)

Lemma elem_of_filter_previous (tr l : list BatchCertificate) p :
  p ∈ List.filter (fun p => existsb (fun c => bool_decide (cert_id p ∈ previous_certificate_ids c)) tr) l <->
  p ∈ l /\ exists c, c ∈ tr /\ cert_id p ∈ previous_certificate_ids c.
Proof.
  rewrite list_elem_of_In, filter_In, <-list_elem_of_In, existsb_exists.
  setoid_rewrite bool_decide_eq_true. setoid_rewrite <-list_elem_of_In. done.
Qed.

(** The certificates of the subdag above round [lo] are in the DAG. *)
Definition inside (lo : Z) (m : commit_map) (d : Dag.DAG) : Prop := forall r x,
  lo < r -> filed_at m r x -> round x = r /\ Dag.get_certificate_for_round_with_author d r (author x) = Some x.

(** A path through the subdag is a path through the DAG. *)
Lemma traverse_inside lo m d rs tr1 tr2 tr1' tr2' :
  inside lo m d -> (forall r, r ∈ rs -> lo < r) -> tr1 ⊆ tr2 -> foldM (traverse_round m) tr1 rs = Ok tr1' ->
  foldM (Dag.traverse_round d) tr2 rs = Ok tr2' -> tr1' ⊆ tr2'.
Proof.
  intros Hin. revert tr1 tr2. induction rs as [|r rs IH]; intros tr1 tr2 Hlo Hsub H1 H2; cbn [foldM] in *.
  { by simp_ok. }
  apply bind_Ok in H1 as (t1 & Ht1 & H1), H2 as (t2 & Ht2 & H2).
  refine (IH t1 t2 _ _ H1 H2); [intros; apply Hlo; by right|]. unfold traverse_round, Dag.traverse_round in *.
  apply bind_Ok in Ht1 as (l & Hl & Ht1), Ht2 as (dm & Hd & Ht2).
  destruct (m !! r) as [l'|] eqn:Em; [|done].
  destruct (Dag.get_certificates_for_round d r) as [dm'|] eqn:Ed; [|done].
  injection Hl as <-. injection Hd as <-. injection Ht1 as <-. injection Ht2 as <-.
  intros x [Hx (y & Hy & Hp)]%elem_of_filter_previous. apply Dag.elem_of_previous_in. split; [|set_solver].
  destruct (Hin r x) as [_ Ha]; [apply Hlo; left|by exists l'|]. exists (author x).
  unfold Dag.get_certificate_for_round_with_author, Dag.get_certificates_for_round in *. by rewrite Ed in Ha.
Qed.

Lemma traverse_total (m : commit_map) rs tr :
  (forall r, r ∈ rs -> is_Some (m !! r)) -> exists tr', foldM (traverse_round m) tr rs = Ok tr'.
Proof.
  revert tr. induction rs as [|r rs IH]; intros tr H; cbn [foldM]; [eauto|].
  destruct (H r ltac:(left)) as [l Hl].
  destruct (traverse_round m tr r) as [t| | |] eqn:Et; cbn.
  { apply IH. set_solver. }
  all: unfold traverse_round in Et; by rewrite Hl in Et.
Qed.

Lemma unlinked_inside lo m d p x :
  inside lo m d -> lo < round p -> (forall r, round p <= r < round x -> is_Some (m !! r)) ->
  Dag.is_linked d p x = Ok false -> is_linked m p x = Ok false.
Proof.
  intros Hin Hlo Hall H. unfold Dag.is_linked in H. simp_ok.
  match goal with H : foldM _ _ _ = Ok ?t |- _ => rename H into E2; rename t into tr2 end.
  destruct (traverse_total m (Dag.rounds_down (Z.to_nat (round x - round p)) (round p)) [x]) as [tr1 E1].
  { intros r Hr%Dag.elem_of_rounds_down. apply Hall. lia. }
  unfold is_linked. rewrite E1. cbn. f_equal.
  assert (tr1 ⊆ tr2) as Hsub.
  { refine (traverse_inside lo _ _ _ _ _ _ _ Hin _ (reflexivity _) E1 E2).
    intros r Hr%Dag.elem_of_rounds_down. lia. }
  destruct (iset_contains cert_id (cert_id p) tr1) eqn:E; [|done].
  apply iset_contains_spec in E as (y & Hy & Hid).
  assert (iset_contains cert_id (cert_id p) tr2 = true); [|congruence].
  apply iset_contains_spec. eauto.
Qed.

End Checks.

(** ** The leaders that are committed together *)

Section Anchors.
Context `{N : Network}.
Context {Svc : Type} `{!StorageServiceOps Svc}.
Context {Cache : Type} `{!LruOps Cache Field BatchCertificate}.
Abbreviation BFT := (Bft.BFT Svc Cache).
Context (L : LedgerService) (d : Dag.DAG).

(** The leader the BFT has cached is the one the committee elects. *)
Definition leader_cache_ok (b : BFT) : Prop := forall r a com,
  Bft.latest_leader b = Some (r, a) -> Ledger.get_committee_lookback_for_round L r = Ok com ->
  get_leader com r = Ok a.

(** The leader [a] of round [r]. *)
Definition elects (r : Z) (a : Address) : Prop := exists com,
  Ledger.get_committee_lookback_for_round L r = Ok com /\ get_leader com r = Ok a.

Definition unlinked (r : Z) (x : BatchCertificate) : Prop := exists a, elects r a /\
  forall p, Dag.get_certificate_for_round_with_author d r a = Some p -> Dag.is_linked d p x = Ok false.

(** The loop over the rounds [rs] with [x] the last leader found so far finds
    the leaders of the list. *)
Inductive anchors_from : BatchCertificate -> list Z -> list BatchCertificate -> Prop :=
| af_nil x : anchors_from x [] []
| af_skip x r rs more : unlinked r x -> anchors_from x rs more -> anchors_from x (r :: rs) more
| af_take x r rs a p more :
    elects r a -> Dag.get_certificate_for_round_with_author d r a = Some p ->
    Dag.is_linked d p x = Ok true -> anchors_from p rs more -> anchors_from x (r :: rs) (p :: more).

Lemma cached_leader_elects com r (b : BFT) a b1 :
  leader_cache_ok b -> Ledger.get_committee_lookback_for_round L r = Ok com ->
  Bft.cached_leader com r b = (Ok a, b1) -> elects r a /\ leader_cache_ok b1.
Proof.
  intros Hok Hcom H.
  assert (forall b' : BFT, (do a ⇐ slift (get_leader com r); do _ ⇐ smodify (Bft.update_latest_leader r a); sret a) b'
    = (Ok a, b1) -> elects r a /\ leader_cache_ok b1) as Hnew.
  { intros b' (a' & b2 & Ha & H')%sbind_Ok. apply sbind_Ok in H' as (u & b3 & Hb & Ht).
    injection Ha as Ha <-. injection Hb as <- <-. injection Ht as <- <-. split; [by exists com|].
    intros r' x com' Hl Hcom'. cbn in Hl. injection Hl as <- <-. congruence. }
  unfold Bft.cached_leader in H. apply sbind_Ok in H as (b0 & b0' & Hg & H). injection Hg as <- <-.
  destruct (Bft.latest_leader b) as [[r' a']|] eqn:El; [|by eapply Hnew].
  case_decide as Hr; [|by eapply Hnew]. subst r'. injection H as <- <-. split; [|done].
  exists com. split; [done|]. by eapply Hok.
Qed.

(** The anchors that [find_anchors] collects. *)
Lemma find_anchors_from rs xs x (b : BFT) acc b1 :
  leader_cache_ok b -> sfold (Bft.find_anchors L d) (xs, x) rs b = (Ok acc, b1) ->
  exists more, acc.1 = xs ++ more /\ anchors_from x rs more.
Proof.
  revert xs x b. induction rs as [|r rs IH]; intros xs x b Hok H; cbn [sfold] in H.
  { injection H as <- <-. exists []. split; [by rewrite app_nil_r|constructor]. }
  apply sbind_Ok in H as ([xs' x'] & b2 & Hf & H). unfold Bft.find_anchors in Hf.
  apply sbind_Ok in Hf as (com & b3 & Hc & Hf). injection Hc as Hc <-.
  apply sbind_Ok in Hf as (a & b4 & Ha & Hf).
  destruct (cached_leader_elects _ _ _ _ _ Hok Hc Ha) as [Hel Hok'].
  destruct (Dag.get_certificate_for_round_with_author d r a) as [p|] eqn:Ep.
  - apply sbind_Ok in Hf as (linked & b5 & Hl & Hf). injection Hl as Hl <-. destruct linked.
    + injection Hf as <- <- <-. destruct (IH _ _ _ Hok' H) as (more & Hm & Haf). exists (p :: more).
      split; [rewrite Hm; cbn; by rewrite <-app_assoc|]. by econstructor.
    + injection Hf as <- <- <-. destruct (IH _ _ _ Hok' H) as (more & Hm & Haf). exists more.
      split; [done|]. constructor; [|done]. exists a. split; [done|]. cbn in Hl. congruence.
  - injection Hf as <- <- <-. destruct (IH _ _ _ Hok' H) as (more & Hm & Haf). exists more.
    split; [done|]. constructor; [|done]. exists a. split; [done|]. congruence.
Qed.

(** Between an anchor and the next one no leader is linked. *)
Lemma anchors_gap x rs more r :
  Dag.filed d -> anchors_from x rs more -> StronglySorted Z.gt rs -> r ∈ rs ->
  match more with [] => True | p :: _ => round p < r end -> unlinked r x.
Proof.
  intros Hfiled. induction 1 as [x|x r' rs more Hu Hm IH|x r' rs a p more He Hp Hl Hm IH];
    intros Hs Hr Hlt; [by apply elem_of_nil in Hr|..];
    apply StronglySorted_inv in Hs as [Hs Hall]; apply elem_of_cons in Hr as [->|Hr]; auto.
  - apply Hfiled in Hp. lia.
  - apply Hfiled in Hp. rewrite Forall_forall in Hall. apply Hall in Hr. lia.
Qed.

Lemma anchors_split x rs older y rest :
  Dag.filed d -> anchors_from x rs (older ++ y :: rest) ->
  exists rs0 rs1, rs = rs0 ++ round y :: rs1 /\ anchors_from y rs1 rest.
Proof.
  intros Hfiled H. remember (older ++ y :: rest) as more eqn:E. revert older E.
  induction H as [x|x r rs more Hu Hm IH|x r rs a p more He Hp Hl Hm IH]; intros older E.
  - by destruct older.
  - destruct (IH older E) as (rs0 & rs1 & -> & ?). by exists (r :: rs0), rs1.
  - destruct older as [|o older]; injection E as -> ->.
    + exists [], rs. apply Hfiled in Hp as ->. done.
    + destruct (IH older eq_refl) as (rs0 & rs1 & -> & ?). by exists (r :: rs0), rs1.
Qed.

End Anchors.

(** ** The subdag of an anchor *)

Lemma elem_of_rounds_down_by_2 lo hi r :
  r ∈ Bft.rounds_down_by_2 lo hi <-> lo <= r <= hi /\ (hi - r) mod 2 = 0.
Proof.
  unfold Bft.rounds_down_by_2. rewrite list_elem_of_fmap. split.
  - intros (i & -> & Hi%elem_of_seq). pose proof (Z.div_mod (hi - lo) 2 ltac:(lia)).
    pose proof (Z.mod_pos_bound (hi - lo) 2 ltac:(lia)). split; [lia|].
    replace (hi - (hi - 2 * Z.of_nat i)) with (Z.of_nat i * 2) by lia. apply Z.mod_mul. lia.
  - intros [Hr Hm]. apply Z.mod_divide in Hm as [k Hk]; [|lia]. exists (Z.to_nat k). split; [lia|].
    apply elem_of_seq. pose proof (Z.div_mod (hi - lo) 2 ltac:(lia)).
    pose proof (Z.mod_pos_bound (hi - lo) 2 ltac:(lia)). lia.
Qed.

Section Visited.
Context `{N : Network}.
Context {Svc : Type} `{!StorageServiceOps Svc}.
Context {Cache : Type} `{!LruOps Cache Field BatchCertificate}.
Context (L : LedgerService) (b : Bft.BFT Svc Cache).
Hypothesis Hix : StorageProps.index_inv (Bft.storage b).

(** A reference that the traversal follows, or that is committed already. *)
Definition covered (ids : gset Field) (r : Z) (pid : Field) : Prop :=
  pid ∈ ids \/ Dag.is_recently_committed (Bft.dag b) r pid = true \/ ledger_contains_certificate L pid = Ok true.

Lemma covered_mono ids ids' r pid : ids ⊆ ids' -> covered ids r pid -> covered ids' r pid.
Proof. unfold covered. set_solver. Qed.

Lemma order_visit_loop_covers r pids st st' :
  Bft.order_visit_loop L b r pids st = Ok st' ->
  st.1 ⊆ st'.1 /\ forall pid, pid ∈ pids -> covered st'.1 r pid.
Proof.
  revert st. induction pids as [|pid pids IH]; intros st H; cbn [Bft.order_visit_loop] in H.
  { simp_ok. split; [done|]. by intros pid ?%elem_of_nil. }
  assert (forall st1, st.1 ⊆ st1.1 -> covered st1.1 r pid -> Bft.order_visit_loop L b r pids st1 = Ok st' ->
    st.1 ⊆ st'.1 /\ forall pid', pid' ∈ pid :: pids -> covered st'.1 r pid') as Hrec.
  { intros st1 Hsub Hc [H1 H2]%IH. split; [set_solver|]. intros pid' [->|?]%elem_of_cons; [|auto].
    by eapply covered_mono. }
  case_bool_decide as Ha; [apply (Hrec st); [done|by left|done]|].
  destruct (Dag.is_recently_committed _ _ _) eqn:Er; [apply (Hrec st); [done|right; by left|done]|].
  destruct (unwrap_or false _) eqn:El.
  { apply (Hrec st); [done|right; right|done]. by destruct (ledger_contains_certificate L pid) as [[]| | |]. }
  simp_ok. match goal with H : Bft.fetch_previous _ _ _ = Some ?q |- _ => rename H into Hf; rename q into p end.
  apply BftProps.fetch_previous_Some in Hf as [_ Hid]; [|done].
  apply (Hrec (st.1 ∪ {[cert_id p]}, p :: st.2)); [cbn; set_solver|left; cbn; set_solver|done].
Qed.

(** The certificates below which the traversal stops. *)
Definition at_gc (c : BatchCertificate) : Prop :=
  u64_wrap (saturating_sub (round c) 1 + Bft.max_gc_rounds b) <= Dag.last_committed_round (Bft.dag b).

Lemma order_visit_covers c st st' :
  Bft.order_visit L b c st = Ok st' ->
  st.1 ⊆ st'.1 /\
  (at_gc c \/ forall pid, pid ∈ previous_certificate_ids c -> covered st'.1 (saturating_sub (round c) 1) pid).
Proof.
  unfold Bft.order_visit, at_gc. case_decide as Hgc; intros H.
  - simp_ok. split; [done|by left].
  - apply order_visit_loop_covers in H as [H1 H2]. split; [done|right]. intros pid Hpid. apply H2.
    by apply elem_of_reverse.
Qed.

(** Every reference of an ordered certificate leads to an ordered certificate,
    is committed already, or goes below the garbage-collection round. *)
Lemma order_references x m r y pid :
  BftProps.one_copy b x -> Bft.order_dag_with_dfs L b x = Ok m -> filed_at m r y ->
  pid ∈ previous_certificate_ids y ->
  at_gc y \/ covered ∅ (saturating_sub (round y) 1) pid \/
  exists p, cert_id p = pid /\ reach (BftProps.order_edge L b) [x] p.
Proof.
  intros Hone Hm Hy Hpid.
  assert (forall z w, reach (BftProps.order_edge L b) [x] z -> reach (BftProps.order_edge L b) [x] w ->
    cert_id z = cert_id w -> z = w) as Hid.
  { intros z w Hz Hw. apply Hone; by eapply BftProps.reach_known. }
  unfold Bft.order_dag_with_dfs in Hm. apply bind_Ok in Hm as (commit & Hd & Hm). simp_ok.
  assert (committed commit y) as Hc.
  { destruct Hy as (l & Hl & Hy). rewrite Dag.lookup_retain in Hl.
    destruct (commit !! r) as [l'|] eqn:E; [|done]. cbn in Hl. unfold Dag.above_gc in Hl.
    case_decide; [|done]. injection Hl as <-. pose proof (dfs_commit_wf _ _ _ _ _ commit_wf_empty Hd) as Hwf.
    destruct (Hwf _ _ E) as (_ & _ & Hr). exists l'. by rewrite (Hr y Hy). }
  apply (dfs_ind (fun commit st => dfs_inv (BftProps.order_edge L b) [x] commit st /\
    forall z, committed commit z -> at_gc z \/ forall pid, pid ∈ previous_certificate_ids z ->
      covered st.1 (saturating_sub (round z) 1) pid)) in Hd as (already & Hinv & Hcov).
  - destruct (Hcov y Hc) as [?|Hall]; [by left|]. destruct (Hall pid Hpid) as [Hin|?]; [|right; left; by right].
    right. right. apply (dinv_ordered _ _ _ _ Hinv) in Hin as (p & [Hp|Hp] & <-); [|by apply elem_of_nil in Hp].
    exists p. split; [done|]. apply (dinv_reach _ _ _ _ Hinv). by left.
  - intros commit1 ids c buffer st' [Hinv Hcov] Hv.
    assert (reach (BftProps.order_edge L b) [x] c) as Hrc by (apply (dinv_reach _ _ _ _ Hinv); right; left).
    split.
    { eapply dfs_inv_step; [|exact Hid|exact Hinv|exact Hv]. intros. by apply BftProps.order_visit_ok. }
    destruct (order_visit_covers _ _ _ Hv) as [Hsub Hnew]. intros z Hz.
    apply (committed_insert (BftProps.order_edge L b) [x] Hid) in Hz as [Hz| ->]; [|done|..|done].
    + destruct (Hcov z Hz) as [?|Hall]; [by left|right]. intros. eapply covered_mono; eauto.
    + apply Hinv.
    + intros w Hw. apply (dinv_reach _ _ _ _ Hinv). by left.
  - split; [apply dfs_inv_start|]. intros z (l & Hl & _). by rewrite lookup_empty in Hl.
Qed.

End Visited.

Section Committed.
Context `{N : Network} {D : BlockData} {BA : BlockAuthority D}.
Context {Svc : Type} `{!StorageServiceOps Svc}.
Context {Cache : Type} `{!LruOps Cache Field BatchCertificate}.
Context (L : LedgerService) (V : LedgerView) (b : Bft.BFT Svc Cache) (x : BatchCertificate) (m : commit_map).

(** The state in which the BFT orders the anchor [x] into [m].  The
    certificates it finds are from the previous round; the rounds are in range. *)
Record ordering : Prop := {
  or_index : StorageProps.index_inv (Bft.storage b);
  or_one_copy : BftProps.one_copy b x;
  or_ordered : Bft.order_dag_with_dfs L b x = Ok m;
  or_gc : Bft.max_gc_rounds b = MAX_GC_ROUNDS;
  or_range : 0 < round x <= u64_max - MAX_GC_ROUNDS;
  or_last : 0 <= Dag.last_committed_round (Bft.dag b) < round x;
  or_edges y p : reach (BftProps.order_edge L b) [x] y -> reach (BftProps.order_edge L b) [x] p ->
    cert_id p ∈ previous_certificate_ids y -> 0 <= round p /\ round p = round y - 1;
}.

Hypothesis O : ordering.

Lemma ordering_edges y p :
  reach (BftProps.order_edge L b) [x] y -> BftProps.order_edge L b y p -> 0 <= round p /\ round p = round y - 1.
Proof. intros Hy He. apply (or_edges O); [done|by eapply reach_step|apply He]. Qed.

Lemma ordering_filed r y :
  filed_at m r y <-> round y = r /\ reach (BftProps.order_edge L b) [x] y /\
    Dag.last_committed_round (Bft.dag b) < r + MAX_GC_ROUNDS.
Proof.
  pose proof ordering_edges as Hedges. destruct O. rewrite <-or_gc0. apply BftProps.filed_iff; auto; rewrite ?or_gc0; unfold MAX_GC_ROUNDS in *; lia.
Qed.

Lemma ordering_leader :
  btree_last m = Some (round x, [x]) /\ Subdag.leader_certificate m = Ok x /\ Subdag.anchor_round m = round x.
Proof.
  assert (btree_last m = Some (round x, [x])) as H.
  { pose proof ordering_edges as Hedges. destruct O. apply (BftProps.order_leaders L b x m); auto; rewrite ?or_gc0; unfold MAX_GC_ROUNDS in *; lia. }
  unfold Subdag.leader_certificate, Subdag.anchor_round. by rewrite H.
Qed.

(** Every round between a certificate of the subdag and the anchor is there. *)
Lemma ordering_rounds r y k : filed_at m r y -> r <= k <= round x -> is_Some (m !! k).
Proof.
  intros [Hr [Hy Hgc]]%ordering_filed Hk.
  assert (forall z, reach (BftProps.order_edge L b) [x] z -> round z <= k -> k <= round x ->
    exists w, round w = k /\ reach (BftProps.order_edge L b) [x] w) as Hw.
  { clear Hr Hy Hk r y Hgc. induction 1 as [z Hz|z p Hz IH He]; intros H1 H2.
    - apply list_elem_of_singleton in Hz as ->. exists x. split; [lia|]. apply reach_root. left.
    - destruct (ordering_edges z p Hz He) as [_ Hp]. destruct (decide (round z <= k)) as [|Hn]; [auto|].
      exists p. split; [lia|]. by eapply reach_step. }
  destruct (Hw y Hy) as (w & Hwk & Hwr); [lia..|].
  assert (filed_at m k w) as (l & Hl & _); [|eauto].
  apply ordering_filed. split_and!; [done|done|lia].
Qed.

Lemma ordering_nonempty r l : m !! r = Some l -> exists y, y ∈ l.
Proof.
  intros Hl. destruct (BftProps.order_dag_reach L b x (or_index O) (or_one_copy O)) as [_ H].
  destruct (H m (or_ordered O)) as [Hwf _]. destruct (Hwf _ _ Hl) as [Hne _]. destruct l as [|y l]; [done|].
  exists y. left.
Qed.

(** The service and the ledger agree on the committees. *)
Hypothesis same_committees : forall r,
  Ledger.get_committee_lookback_for_round L r = service_committee_lookback_for_round V r.

Lemma ledger_committee r com :
  Ledger.get_committee_lookback_for_round L r = Ok com -> get_committee_lookback_for_round V r = Ok (Some com).
Proof.
  rewrite same_committees. unfold service_committee_lookback_for_round, get_committee_lookback_for_round.
  intros (o & -> & H)%bind_Ok. by destruct o; simplify_eq/=.
Qed.

(** *** Quorums *)

(** The certificates have the signatures that storage asks for. *)
Definition certified : Prop := forall r y, filed_at m r y -> exists com,
  Ledger.get_committee_lookback_for_round L r = Ok com /\
  is_quorum_threshold_reached com (Storage.signers y) = true.

Context (block : Block) (prefix : list Block).
Hypothesis block_authority : authority block = Quorum m.

Lemma quorum_passes : certified -> check_block_subdag_quorum V block = Ok tt.
Proof.
  intros Hc. unfold check_block_subdag_quorum. rewrite block_authority. apply foldM_tt.
  intros [r l] Hl%elem_of_btree_iter. cbn [fst snd].
  destruct (ordering_nonempty r l Hl) as [y Hy].
  destruct (Hc r y) as (com & Hcom & _); [by exists l|].
  rewrite (ledger_committee _ _ Hcom). cbn. apply foldM_tt. intros z Hz.
  destruct (Hc r z) as (com' & Hcom' & Hq); [by exists l|]. unfold check_quorum.
  assert (com' = com) as -> by congruence. by rewrite Hq.
Qed.

(** *** Atomicity *)

Lemma leader_round_passes lo d r :
  inside lo m d -> lo < r -> unlinked L d r x -> r < round x -> check_previous_leader V m tt r = Ok tt.
Proof.
  intros Hin Hlo (a & (com & Hcom & Ha) & Hun) Hr. unfold check_previous_leader.
  rewrite (ledger_committee _ _ Hcom). cbn. rewrite Ha. cbn.
  destruct (m !! r) as [l|] eqn:El; [|done]. cbn.
  destruct (List.find (fun c => bool_decide (author c = a)) l) as [p|] eqn:Ef; [|done].
  apply find_some in Ef as [Hp Hpa]. apply bool_decide_eq_true in Hpa. apply list_elem_of_In in Hp.
  assert (filed_at m r p) as Hf by (by exists l). destruct (Hin r p Hlo Hf) as [Hpr Hd]. rewrite Hpa in Hd.
  destruct ordering_leader as (_ & -> & _). cbn.
  rewrite (unlinked_inside lo m d p x Hin); [done|lia| |by apply Hun].
  intros k Hk. eapply (ordering_rounds r p); [done|lia].
Qed.

Lemma atomicity_passes lo d rs more predecessor :
  inside lo m d -> lo <= block_round predecessor -> Dag.filed d -> anchors_from L d x rs more -> StronglySorted Z.gt rs ->
  (forall r, block_round predecessor + 2 <= r <= round x - 2 -> (round x - r) mod 2 = 0 -> r ∈ rs) ->
  match more with [] => True | p :: _ => block_round predecessor = round p end ->
  0 <= block_round predecessor < round x ->
  check_block_subdag_atomicity V block predecessor = Ok tt.
Proof.
  intros Hin Hlo Hf Ha Hs Hrs Hmore Hb. unfold check_block_subdag_atomicity. rewrite block_authority.
  destruct ordering_leader as (_ & _ & ->). pose proof (or_range O). apply foldM_tt.
  intros r [Hr Hm]%elem_of_rounds_down_by_2.
  assert (block_round predecessor + 2 <= r <= round x - 2 /\ (round x - r) mod 2 = 0) as [Hr' Hm'].
  { unfold MAX_GC_ROUNDS in *. assert (saturating_sub (round x) 2 = round x - 2) as E by mlia. rewrite E in *.
    split; [mlia|]. replace (round x - r) with (round x - 2 - r + 1 * 2) by lia. by rewrite Z_mod_plus_full. }
  apply leader_round_passes with lo d; [done|lia| |lia].
  apply (anchors_gap L d x rs more r); auto. destruct more; [done|]. lia.
Qed.

(** *** Leaves *)

(** What was committed is in a block: in the ledger or among the blocks that
    wait for it. *)
Definition recorded : Prop := forall pid,
  (exists r, Dag.is_recently_committed (Bft.dag b) r pid = true) \/ ledger_contains_certificate L pid = Ok true ->
  pid ∈ previous_certs prefix \/ contains_block_for_certificate V pid = Ok true.

Lemma filed_certificate_id r p : filed_at m r p -> cert_id p ∈ Subdag.certificate_ids m.
Proof.
  intros (l & Hl & Hp). unfold Subdag.certificate_ids, Subdag.all_certificates.
  apply list_elem_of_fmap. exists p. split; [done|]. apply list_elem_of_bind. exists (r, l).
  by rewrite elem_of_btree_iter.
Qed.

Lemma leaves_pass : recorded -> block_round block = round x -> check_block_subdag_leaves V block prefix = Ok tt.
Proof.
  intros Hrec Hbr. unfold check_block_subdag_leaves. rewrite block_authority. apply foldM_tt.
  intros [pr pid] [Hout Hin]%list_elem_of_filter. cbn in Hout. unfold check_leaf. cbn [fst snd].
  apply list_elem_of_bind in Hin as (y & Hin & Hy). apply list_elem_of_fmap in Hin as (pid' & [= -> ->] & Hpid).
  apply list_elem_of_bind in Hy as ([r l] & Hy & Hl%elem_of_btree_iter). cbn in Hy.
  assert (filed_at m r y) as Hf by (by exists l).
  pose proof Hf as (Hr & Hreach & Hlast)%ordering_filed. pose proof (or_range O). pose proof (or_last O).
  assert (0 <= round y <= round x) as Hyx.
  { apply BftProps.reach_down in Hreach; [|apply ordering_edges|lia]. destruct Hreach as [? [->|?]]; lia. }
  case_decide as Hgc; [done|]. case_bool_decide as Hp; [done|].
  destruct (order_references L b (or_index O) x m r y pid' (or_one_copy O) (or_ordered O) Hf Hpid)
    as [Hat|[[He|Hcov]|(p & Hid & Hreachp)]].
  - exfalso. unfold at_gc in Hat. rewrite (or_gc O) in Hat. unfold MAX_GC_ROUNDS in *.
    rewrite u64_wrap_id in Hat by mlia. apply Hgc. rewrite Hbr. destruct (decide (round y = 0)) as [->|E].
    + replace (u64_wrap (u64_wrap (0 - 1) + 100 - 1)) with 98 by done. mlia.
    + rewrite (u64_wrap_id (round y - 1)), u64_wrap_id by mlia. mlia.
  - by apply elem_of_empty in He.
  - destruct (Hrec pid') as [?|Hc]; [naive_solver|done|]. by rewrite Hc.
  - exfalso. subst pid'. apply Hout. destruct (or_edges O y p Hreach Hreachp Hpid) as [Hp0 Hpr].
    apply (filed_certificate_id (round p)). apply ordering_filed. split_and!; [done|done|].
    unfold MAX_GC_ROUNDS in *. rewrite Hbr, (u64_wrap_id (round y - 1)), u64_wrap_id in Hgc by mlia. mlia.
Qed.

End Committed.

Section Passing.
Context `{N : Network} {D : BlockData} {BA : BlockAuthority D}.
Context {Svc : Type} `{!StorageServiceOps Svc}.
Context {Cache : Type} `{!LruOps Cache Field BatchCertificate}.
Abbreviation BFT := (Bft.BFT Svc Cache).

(** The rounds below an anchor that are still to be searched. *)
Lemma anchors_at L (b0 b1 : BFT) c acc newer x older :
  let d := Bft.dag b0 in
  let rs := Bft.rounds_down_by_2 (u64_wrap (Dag.last_committed_round d + 2)) (saturating_sub (round c) 2) in
  leader_cache_ok L b0 -> Dag.filed d -> 2 <= round c ->
  sfold (Bft.find_anchors L d) ([c], c) rs b0 = (Ok acc, b1) -> acc.1 = newer ++ x :: older ->
  exists rs1, anchors_from L d x rs1 older /\ StronglySorted Z.gt rs1 /\
    (forall p, p ∈ older -> round p ∈ rs /\ round p < round x) /\
    (forall r, r ∈ rs -> r < round x -> r ∈ rs1) /\ round x <= round c /\ (round c - round x) mod 2 = 0.
Proof.
  intros d rs Hok Hfiled Hc H Hacc. destruct (find_anchors_from L d _ _ _ _ _ _ Hok H) as (more & Hm & Ha).
  pose proof (BftProps.rounds_down_by_2_sorted (u64_wrap (Dag.last_committed_round d + 2))
    (saturating_sub (round c) 2)) as Hs. fold rs in Hs.
  assert (forall z rs' more', anchors_from L d z rs' more' -> forall p, p ∈ more' -> round p ∈ rs') as Hin.
  { clear - Hfiled. induction 1 as [z|z r rs' more' Hu Hm IH|z r rs' a q more' He Hq Hl Hm IH]; intros p Hp.
    - by apply elem_of_nil in Hp.
    - right. auto.
    - apply elem_of_cons in Hp as [->|Hp]; [apply Hfiled in Hq as ->; left|right; auto]. }
  rewrite Hm in Hacc. destruct newer as [|c' newer]; cbn in Hacc; injection Hacc as <- Hacc.
  { subst more. exists rs. split_and!; [done|done| |done|lia|by rewrite Z.sub_diag].
    intros p Hp. pose proof (Hin _ _ _ Ha p Hp) as Hr. split; [done|].
    apply elem_of_rounds_down_by_2 in Hr as [Hr _]. mlia. }
  rewrite Hacc in Ha. assert (round x ∈ rs) as Hx by (apply (Hin _ _ _ Ha); set_solver).
  assert (forall p, p ∈ older -> round p ∈ rs) as Hold by (intros p Hp; apply (Hin _ _ _ Ha); set_solver).
  destruct (anchors_split L d _ _ _ _ _ Hfiled Ha) as (rs0 & rs1 & E & Hx1). exists rs1.
  apply elem_of_rounds_down_by_2 in Hx as [Hxr Hxm]. replace (saturating_sub (round c) 2) with (round c - 2) in * by mlia.
  split_and!; [done| | | |lia|].
  - rewrite E in Hs. apply StronglySorted_app_1_r in Hs. by apply StronglySorted_inv in Hs as [? _].
  - intros p Hp. split; [auto|]. rewrite E in Hs. apply StronglySorted_app_1_r in Hs.
    apply StronglySorted_inv in Hs as [_ Hall]. rewrite Forall_forall in Hall.
    apply Z.gt_lt, Hall. by apply (Hin _ _ _ Hx1).
  - intros r Hr Hlt. rewrite E in Hr, Hs. apply elem_of_app in Hr as [Hr|Hr].
    + pose proof (StronglySorted_app_1_elem_of _ _ _ r (round x) Hs Hr ltac:(left)). lia.
    + apply elem_of_cons in Hr as [?|?]; [lia|done].
  - replace (round c - round x) with (round c - 2 - round x + 1 * 2) by lia. by rewrite Z_mod_plus_full.
Qed.

(** A block with the subdag of an anchor passes. *)
Lemma anchor_passes (L : LedgerService) (V : LedgerView) (b0 b b1 : BFT) (c x : BatchCertificate)
    acc newer older (m : commit_map) (block : Block) (prefix : list Block) :
  let d := Bft.dag b0 in
  let predecessor := default (latest_block V) (last prefix) in
  leader_cache_ok L b0 -> Dag.filed d -> 0 <= Dag.last_committed_round d -> 2 <= round c ->
  round c <= u64_max ->
  sfold (Bft.find_anchors L d) ([c], c)
    (Bft.rounds_down_by_2 (u64_wrap (Dag.last_committed_round d + 2)) (saturating_sub (round c) 2)) b0
    = (Ok acc, b1) ->
  acc.1 = newer ++ x :: older ->
  ordering L b x m -> inside (Dag.last_committed_round d) m d -> certified L m -> recorded L V b prefix ->
  (forall r, Ledger.get_committee_lookback_for_round L r = service_committee_lookback_for_round V r) ->
  authority block = Quorum m -> block_round block = round x ->
  block_round predecessor = default (Dag.last_committed_round d) (round <$> head older) ->
  Dag.last_committed_round d < round x ->
  0 <= height (latest_block V) -> height block = height (latest_block V) + 1 + len prefix -> height block <= u32_max ->
  extends_from V (height (latest_block V) + 1) prefix -> contains_block_hash V (hash block) = Ok false ->
  check_block_subdag V block prefix = pass block.
Proof.
  intros d predecessor Hok Hfiled Hlast Hc Hcmax Hfind Hacc O Hin Hcert Hrec Hsame Hauth Hbr Hpred Hlx
    Hh0 Hh Hhmax Hext Hfresh.
  destruct (anchors_at L b0 b1 c acc newer x older Hok Hfiled Hc Hfind Hacc)
    as (rs1 & Ha & Hs & Hold & Hrs & Hxc & Hpar).
  assert (Dag.last_committed_round d <= block_round predecessor < round x) as Hp.
  { rewrite Hpred. destruct older as [|p older]; cbn; [fold d; lia|].
    destruct (Hold p ltac:(left)) as [[Hr _]%elem_of_rounds_down_by_2 ?]. fold d in Hr. pose proof (or_range _ _ _ _ O).
    unfold MAX_GC_ROUNDS in *. rewrite u64_wrap_id in Hr by mlia. lia. }
  unfold check_block_subdag. apply cbind_pass. exists tt. split; [|done]. unfold check_block_subdag_inner.
  pose proof (or_range _ _ _ _ O) as Hrange. unfold MAX_GC_ROUNDS in Hrange.
  rewrite u32_wrap_id by mlia. apply cbind_pass. exists (height block). split.
  { rewrite check_prefix_pass by mlia. split; [lia|done]. }
  apply cbind_pass. exists false. split; [by rewrite Hfresh|]. rewrite decide_False by naive_solver.
  apply cbind_pass. exists tt. split.
  { apply other_pass. by eapply (quorum_passes L V b x m). }
  apply cbind_pass. exists tt. split; [|apply other_pass; by eapply (leaves_pass L V b x m)].
  apply other_pass. eapply (atomicity_passes L V b x m O Hsame block Hauth (Dag.last_committed_round d) d rs1 older);
    [done|fold predecessor; lia|done..| | |fold predecessor; lia].
  - intros r Hr Hm. apply Hrs; [|lia]. apply elem_of_rounds_down_by_2. fold predecessor in Hr.
    fold d. rewrite u64_wrap_id by mlia. replace (saturating_sub (round c) 2) with (round c - 2) by mlia.
    split; [lia|].
    replace (round c - 2 - r) with ((round c - round x) + (round x - r) + (-1) * 2) by lia.
    rewrite Z_mod_plus_full, Z.add_mod, Hpar, Hm by lia. done.
  - fold predecessor. rewrite Hpred. by destruct older.
Qed.


(** ** The run *)

(** The certificates and the DAG did not change. *)
Definition same_certificates (b b' : BFT) : Prop :=
  Storage.certificates (Bft.storage b') = Storage.certificates (Bft.storage b) /\
  Storage.rounds (Bft.storage b') = Storage.rounds (Bft.storage b) /\
  Storage.batch_ids (Bft.storage b') = Storage.batch_ids (Bft.storage b) /\
  Bft.max_gc_rounds b' = Bft.max_gc_rounds b /\
  Bft.dag b' = Bft.dag b /\ Bft.blocks b' = Bft.blocks b.
#[local] Instance same_certificates_preorder : PreOrder same_certificates.
Proof.
  split; [done|]. intros x y z (?&?&?&?&?&?) (?&?&?&?&?&?). unfold same_certificates. split_and!; congruence.
Qed.

Lemma same_certificates_leader (b : BFT) r a : same_certificates b (Bft.update_latest_leader r a b).
Proof. unfold same_certificates. by destruct b. Qed.

Section Run.
Context (L : LedgerService) (b0 : BFT).

(** The state in which a leader is committed.  The storage is a reachable one,
    for the committees of the ledger; the DAG files stored certificates under
    their round and author, among them all of rounds above the last committed
    one; references go to the round before; the cached leader is the elected
    one; and garbage collection is set to the protocol's value. *)
Record commit_ready : Prop := {
  cr_storage : StorageProps.safe (Ledger.get_committee_lookback_for_round L) (Bft.storage b0);
  cr_gc : Bft.max_gc_rounds b0 = MAX_GC_ROUNDS;
  cr_filed r a y : Dag.get_certificate_for_round_with_author (Bft.dag b0) r a = Some y ->
    round y = r /\ author y = a /\ Storage.certificates (Bft.storage b0) !! cert_id y = Some y;
  cr_dag i y : Storage.certificates (Bft.storage b0) !! i = Some y ->
    Dag.last_committed_round (Bft.dag b0) < round y ->
    Dag.get_certificate_for_round_with_author (Bft.dag b0) (round y) (author y) = Some y;
  cr_links i j y p : Storage.certificates (Bft.storage b0) !! i = Some y ->
    Storage.certificates (Bft.storage b0) !! j = Some p ->
    cert_id p ∈ previous_certificate_ids y -> round p = round y - 1;
  cr_last : 0 <= Dag.last_committed_round (Bft.dag b0);
  cr_leader : leader_cache_ok L b0;
}.

(** What stays of the start [b0] after the subdags [ms] were committed. *)
Record progress (ms : list commit_map) (b : BFT) : Prop := {
  pg_certificates : Storage.certificates (Bft.storage b) = Storage.certificates (Bft.storage b0);
  pg_rounds : Storage.rounds (Bft.storage b) = Storage.rounds (Bft.storage b0);
  pg_batches : Storage.batch_ids (Bft.storage b) = Storage.batch_ids (Bft.storage b0);
  pg_gc : Bft.max_gc_rounds b = Bft.max_gc_rounds b0;
  pg_graph r a y : Dag.get_certificate_for_round_with_author (Bft.dag b) r a = Some y ->
    Dag.get_certificate_for_round_with_author (Bft.dag b0) r a = Some y;
  pg_last : Dag.last_committed_round (Bft.dag b)
    = default (Dag.last_committed_round (Bft.dag b0)) (Subdag.anchor_round <$> last ms);
  pg_committed r pid : Dag.is_recently_committed (Bft.dag b) r pid = true ->
    Dag.is_recently_committed (Bft.dag b0) r pid = true \/
    exists m, m ∈ ms /\ pid ∈ Subdag.certificate_ids m;
}.

Lemma progress_same ms b b' : same_certificates b b' -> progress ms b -> progress ms b'.
Proof.
  intros (E1 & E2 & E3 & E4 & E5 & _) []. split; rewrite ?E1, ?E2, ?E3, ?E4, ?E5; done.
Qed.

Lemma foldl_commit_graph gc cs d r a y :
  Dag.get_certificate_for_round_with_author (foldl (fun d c => Dag.commit d c gc) d cs) r a = Some y ->
  Dag.get_certificate_for_round_with_author d r a = Some y.
Proof.
  revert d. induction cs as [|c cs IH]; intros d; [done|]. cbn [foldl]. intros H%IH.
  rewrite Dag.commit_lookup in H. by case_decide.
Qed.

Lemma foldl_commit_committed gc cs d r pid :
  Dag.is_recently_committed (foldl (fun d c => Dag.commit d c gc) d cs) r pid = true ->
  Dag.is_recently_committed d r pid = true \/ pid ∈ cert_id <$> cs.
Proof.
  revert d. induction cs as [|c cs IH]; intros d; [by left|]. cbn [foldl]. rewrite fmap_cons, elem_of_cons.
  intros [H|H]%IH; [|by right; right].
  rewrite Dag.commit_committed, andb_true_iff, orb_true_iff, bool_decide_eq_true in H.
  destruct H as [_ [?|H]]; [by left|]. apply bool_decide_eq_true in H as [_ ->]. right. by left.
Qed.

Lemma progress_commit ms b m blk :
  progress ms b -> commit_wf m -> m <> ∅ -> Dag.last_committed_round (Bft.dag b) <= Subdag.anchor_round m ->
  progress (ms ++ [m]) (Bft.commit_subdag_to_dag m (Bft.add_block blk b)).
Proof.
  intros [] Hwf Hne Hlast. split; try done.
  - intros r a y H%foldl_commit_graph. auto.
  - rewrite BftProps.commit_subdag_last by done. rewrite last_snoc. cbn. lia.
  - intros r pid [H|H]%foldl_commit_committed.
    + destruct (pg_committed0 r pid H) as [?|(m' & ? & ?)]; [by left|right].
      exists m'. split; [set_solver|done].
    + right. exists m. split; [set_solver|done].
Qed.

(** The loop body adds the block of its anchor or stops. *)
Lemma commit_anchor_blocks send x ms b res b' :
  progress ms b -> Dag.last_committed_round (Bft.dag b) <= round x ->
  Bft.commit_anchor L (Some send) false x b = (res, b') ->
  (res <> Ok true /\ Bft.blocks b' = Bft.blocks b) \/
  (res = Ok true /\ exists m ts, Bft.order_dag_with_dfs L b x = Ok m /\ Subdag.anchor_round m = round x /\
     Bft.blocks b' = Bft.blocks b ++ [(m, ts)] /\ progress (ms ++ [m]) b').
Proof.
  intros Hp Hlast. unfold Bft.commit_anchor. unfold sbind at 1. cbn [sget].
  unfold sbind at 1, slift at 1. destruct (Bft.order_dag_with_dfs L b x) as [m|e|e|] eqn:Eo;
    [|intros [= <- <-]; by left..].
  pose proof (BftProps.keeps_collect_from same_certificates L m) as Hcol. unfold sbind at 1.
  specialize (Hcol ltac:(intros b1 t; unfold Storage.get_transmission; by destruct (svc_get _ t)) b).
  destruct (Bft.collect_transmissions L m b) as [[col|e|e|] b1]; cbn in Hcol;
    [|intros [= <- <-]; left; split; [done|apply Hcol]..].
  assert (Bft.blocks b1 = Bft.blocks b) as Hb by apply Hcol.
  unfold sbind at 1, slift at 1. destruct (Subdag.from m) as [m'|e|e|] eqn:Ef; [|intros [= <- <-]; by left..].
  destruct (BftProps.from_Ok m m' Ef) as [-> Hne]. unfold sbind at 1, slift at 1, ensure.
  case_bool_decide as Ha; [|intros [= <- <-]; by left].
  destruct (send m (Bft.col_transmissions col)); cbn -[Bft.commit_subdag_to_dag]; intros [= <- <-]; [|by left..].
  right. split; [done|]. exists m, (Bft.col_transmissions col). split_and!; [done|done|by cbn; rewrite Hb|].
  apply progress_commit; [by eapply progress_same|by eapply BftProps.order_dag_wf|done|].
  destruct Hcol as (_ & _ & _ & _ & -> & _). lia.
Qed.

(** The state in which the loop orders the block with the subdag [m], after
    those of the anchors [done]. *)
Record ordered_at (done : list BatchCertificate) (ms : list commit_map) (x : BatchCertificate) (m : commit_map)
    (b : BFT) : Prop := {
  oa_progress : progress ms b;
  oa_done : Subdag.anchor_round <$> ms = round <$> done;
  oa_ordered : Bft.order_dag_with_dfs L b x = Ok m;
  oa_anchor : Subdag.anchor_round m = round x;
}.

Lemma commit_anchors_blocks send xs dones ms b res b' :
  progress ms b -> Subdag.anchor_round <$> ms = round <$> dones ->
  StronglySorted Z.lt (round <$> xs) ->
  (forall x, x ∈ xs -> Dag.last_committed_round (Bft.dag b) <= round x) ->
  Bft.commit_anchors L (Some send) false xs b = (res, b') ->
  exists news, Bft.blocks b' = Bft.blocks b ++ news /\
    forall older blk newer, news = older ++ blk :: newer -> exists xs1 x xs2 bk,
      xs = xs1 ++ x :: xs2 /\ ordered_at (dones ++ xs1) (ms ++ older.*1) x blk.1 bk.
Proof.
  revert dones ms b. induction xs as [|x xs IH]; intros dones ms b Hp Hd Hs Hlast H; cbn [Bft.commit_anchors] in H.
  { injection H as <- <-. exists []. split; [by rewrite app_nil_r|]. intros [] ? ? ?; discriminate. }
  unfold sbind in H. destruct (Bft.commit_anchor L (Some send) false x b) as [r1 b1] eqn:E.
  assert (Dag.last_committed_round (Bft.dag b) <= round x) as Hx by (apply Hlast; left).
  destruct (commit_anchor_blocks send x ms b r1 b1 Hp Hx E) as [[Hr Hb]|(-> & m & ts & Ho & Ha & Hb & Hp1)].
  { exists []. rewrite app_nil_r. split; [|intros [] ? ? ?; discriminate].
    destruct r1 as [[]|e|e|]; [done|injection H as <- <-..]; done. }
  cbn in Hs. apply StronglySorted_inv in Hs as [Hs Hall]. rewrite Forall_forall in Hall.
  destruct (IH (dones ++ [x]) (ms ++ [m]) b1) as (news & Hnews & Hsplit); [done| |done| |done|].
  { rewrite !fmap_app, Hd. cbn. by rewrite Ha. }
  { intros y Hy. rewrite (pg_last _ _ Hp1), last_snoc. cbn. rewrite Ha.
    apply Z.lt_le_incl, Hall. by apply list_elem_of_fmap_2. }
  exists ((m, ts) :: news). split; [rewrite Hnews, Hb, <-app_assoc; done|].
  intros [|blk' older] blk newer [= <- ->].
  - exists [], x, xs, b. split; [done|]. rewrite !app_nil_r. by split.
  - destruct (Hsplit older blk newer eq_refl) as (xs1 & y & xs2 & bk & -> & Hat).
    exists (x :: xs1), y, xs2, bk. split; [done|]. cbn. by rewrite <-!app_assoc in Hat.
Qed.

(** *** From the state to the checks *)

Hypothesis R : commit_ready.

Lemma progress_index ms b : progress ms b -> StorageProps.index_inv (Bft.storage b).
Proof.
  intros []. destruct (cr_storage R) as [[[I1 I2 I3] _ _ _] _]. split.
  - by rewrite pg_certificates0, pg_rounds0.
  - by rewrite pg_certificates0, pg_rounds0.
  - by rewrite pg_certificates0, pg_batches0.
Qed.

(** What the node knows is stored at the start. *)
Lemma progress_known ms b y :
  progress ms b -> y ∈ Bft.known_certificates b ->
  Storage.certificates (Bft.storage b0) !! cert_id y = Some y.
Proof.
  intros Hp. unfold Bft.known_certificates. rewrite elem_of_app. intros [Hy|Hy].
  - apply list_elem_of_bind in Hy as ([r g] & Hy & Hg%elem_of_map_to_list).
    apply Dag.elem_of_values in Hy as [a Ha]. apply (cr_filed R r a), (pg_graph _ _ Hp).
    unfold Dag.get_certificate_for_round_with_author. by rewrite Hg.
  - apply list_elem_of_fmap in Hy as ([i z] & -> & Hi%elem_of_map_to_list). cbn.
    rewrite (pg_certificates _ _ Hp) in Hi. pose proof Hi as [Hid _]%(StorageProps.ix_certs _ (StorageProps.si_index _ (proj1 (cr_storage R)))).
    by rewrite Hid.
Qed.

Lemma stored_round y : Storage.certificates (Bft.storage b0) !! cert_id y = Some y -> 0 < round y.
Proof.
  intros Hy. destruct (cr_storage R) as [[_ _ Hg Ha] _]. apply Ha in Hy. lia.
Qed.

Section At.
Context (dones : list BatchCertificate) (ms : list commit_map) (x : BatchCertificate) (m : commit_map) (b : BFT).
Hypothesis Hat : ordered_at dones ms x m b.
Hypothesis x_stored : Storage.certificates (Bft.storage b0) !! cert_id x = Some x.

Lemma reach_stored y :
  reach (BftProps.order_edge L b) [x] y -> Storage.certificates (Bft.storage b0) !! cert_id y = Some y.
Proof.
  intros H. apply BftProps.reach_known in H; [|eapply progress_index, Hat].
  apply elem_of_cons in H as [->|H]; [done|]. by eapply progress_known; [apply Hat|].
Qed.

Lemma at_ordering :
  round x <= u64_max - MAX_GC_ROUNDS ->
  Dag.last_committed_round (Bft.dag b) < round x ->
  0 <= Dag.last_committed_round (Bft.dag b) -> ordering L b x m.
Proof.
  intros Hmax Hlt Hpos. pose proof (oa_progress _ _ _ _ _ Hat) as Hp. pose proof (stored_round x x_stored).
  split; [by eapply progress_index| |apply Hat| |lia|lia|].
  - intros y z Hy Hz Hid.
    assert (forall w, w ∈ x :: Bft.known_certificates b ->
      Storage.certificates (Bft.storage b0) !! cert_id w = Some w) as Hw.
    { intros w [->|Hw]%elem_of_cons; [done|by eapply progress_known]. }
    apply Hw in Hy, Hz. rewrite Hid in Hy. congruence.
  - rewrite (pg_gc _ _ Hp). apply R.
  - intros y p Hy%reach_stored Hr%reach_stored Hpid. split; [apply Z.lt_le_incl, (stored_round p Hr)|].
    by eapply (cr_links R).
Qed.

Lemma at_inside :
  ordering L b x m -> inside (Dag.last_committed_round (Bft.dag b0)) m (Bft.dag b0).
Proof.
  intros O r y Hr [Hy [Hreach _]]%(ordering_filed L b x m O). split; [done|]. rewrite <-Hy in *.
  eapply (cr_dag R); [|done]. by apply reach_stored.
Qed.

Lemma at_certified : ordering L b x m -> certified L m.
Proof.
  intros O r y [<- [Hy%reach_stored _]]%(ordering_filed L b x m O).
  destruct (proj2 (cr_storage R) _ _ Hy) as (com & Hcom & Hq & _). eauto.
Qed.

End At.

(** What a node must have to check the block after the subdags [ms] of the
    run: the committees, the block of the last subdag at the end of its chain,
    and in its blocks all that was committed. *)
Record caught_up (ms : list commit_map) (V : LedgerView) (prefix : list Block) : Prop := {
  cu_committees r : service_committee_lookback_for_round V r = Ledger.get_committee_lookback_for_round L r;
  cu_last : block_round (default (latest_block V) (last prefix))
    = default (Dag.last_committed_round (Bft.dag b0)) (Subdag.anchor_round <$> last ms);
  cu_recorded pid :
    (exists r, Dag.is_recently_committed (Bft.dag b0) r pid = true) \/
    ledger_contains_certificate L pid = Ok true \/
    (exists m, m ∈ ms /\ pid ∈ Subdag.certificate_ids m) ->
    pid ∈ previous_certs prefix \/ contains_block_for_certificate V pid = Ok true;
}.

(** [block] continues the blocks of the node with the subdag [m]. *)
Record next_block (V : LedgerView) (prefix : list Block) (m : commit_map) (block : Block) : Prop := {
  nb_authority : authority block = Quorum m;
  nb_round : block_round block = Subdag.anchor_round m;
  nb_latest : 0 <= height (latest_block V);
  nb_height : height block = height (latest_block V) + 1 + len prefix;
  nb_max : height block <= u32_max;
  nb_prefix : extends_from V (height (latest_block V) + 1) prefix;
  nb_fresh : contains_block_hash V (hash block) = Ok false;
}.

End Run.

(** Without consensus no block is built. *)
Lemma skipped_anchors_blocks L consensus xs (b : BFT) :
  Bft.blocks (Bft.commit_anchors L consensus true xs b).2 = Bft.blocks b.
Proof.
  assert (forall x (b : BFT), Bft.blocks (Bft.commit_anchor L consensus true x b).2 = Bft.blocks b) as Hx.
  { clear. intros x b. unfold Bft.commit_anchor. unfold sbind at 1. cbn [sget].
    unfold sbind at 1, slift at 1. destruct (Bft.order_dag_with_dfs L b x) as [m|e|e|]; [|done..].
    pose proof (BftProps.keeps_collect L m b) as [_ Hcol]. unfold sbind at 1.
    destruct (Bft.collect_transmissions L m b) as [[col|e|e|] b1]; cbn in Hcol; [|done..].
    unfold sbind at 1, slift at 1. destruct (Subdag.from m) as [m'|e|e|]; [|done..].
    unfold sbind at 1, slift at 1. by destruct (ensure _ _). }
  revert b. induction xs as [|x xs IH]; intros b; cbn [Bft.commit_anchors]; [done|].
  unfold sbind. specialize (Hx x b). destruct (Bft.commit_anchor L consensus true x b) as [[[]|e|e|] b1]; cbn in *;
    [by rewrite IH|done..].
Qed.

(** The leaders that are found are in the DAG. *)
Lemma anchors_in_dag L d x rs more p :
  Dag.filed d -> anchors_from L d x rs more -> p ∈ more ->
  exists a, Dag.get_certificate_for_round_with_author d (round p) a = Some p.
Proof.
  intros Hfiled. induction 1 as [x|x r rs more Hu Hm IH|x r rs a q more He Hq Hl Hm IH]; intros Hp; [set_solver|auto|].
  apply elem_of_cons in Hp as [->|?]; [|auto]. exists a. by rewrite (Hfiled _ _ _ Hq).
Qed.

(** The round of the last block before an anchor. *)
Lemma ordered_last L b0 xs1 ms x m (b : BFT) :
  ordered_at L b0 xs1 ms x m b ->
  Subdag.anchor_round <$> last ms = round <$> last xs1.
Proof. intros H. rewrite <-!fmap_last. by rewrite (oa_done _ _ _ _ _ _ _ H). Qed.

(** The block of one anchor of the run. *)
Lemma run_block_passes L (b b1 bk : BFT) c acc xs1 x xs2 ms m V prefix block :
  let last := Dag.last_committed_round (Bft.dag b) in
  commit_ready L b -> Dag.get_certificate_for_round_with_author (Bft.dag b) (round c) (author c) = Some c ->
  2 <= round c <= u64_max - MAX_GC_ROUNDS ->
  sfold (Bft.find_anchors L (Bft.dag b)) ([c], c)
    (Bft.rounds_down_by_2 (u64_wrap (last + 2)) (saturating_sub (round c) 2)) b = (Ok acc, b1) ->
  acc.1 = reverse xs2 ++ x :: reverse xs1 -> StronglySorted Z.gt (round <$> acc.1) ->
  (forall x, x ∈ acc.1 -> last < round x <= round c) ->
  ordered_at L b xs1 ms x m bk -> caught_up L b ms V prefix -> next_block V prefix m block ->
  check_block_subdag V block prefix = pass block.
Proof.
  intros last R Hc Hrange Ha Hacc Hs Hlast Hat [Hcom Hcl Hrec] [].
  assert (Dag.filed (Bft.dag b)) as Hfiled by (intros r a y Hy; by apply (cr_filed _ _ R r a y) in Hy as (? & _)).
  pose proof (cr_last _ _ R) as Hpos. fold last in Hpos. pose proof (ordered_last _ _ _ _ _ _ _ Hat) as Hol.
  assert (last < round x <= round c) as Hx by (apply Hlast; rewrite Hacc; set_solver).
  assert (Storage.certificates (Bft.storage b) !! cert_id x = Some x) as Hstored.
  { assert (exists a, Dag.get_certificate_for_round_with_author (Bft.dag b) (round x) a = Some x) as [a Hd].
    { destruct (find_anchors_from L (Bft.dag b) _ _ _ _ _ _ (cr_leader _ _ R) Ha) as (more & Hm & Haf).
      assert (x ∈ [c] ++ more) as Hin by (rewrite <-Hm, Hacc; set_solver).
      apply elem_of_app in Hin as [->%list_elem_of_singleton|Hin]; [eauto|]. by eapply anchors_in_dag. }
    by apply (cr_filed _ _ R) in Hd as (_ & _ & ?). }
  assert (default last (round <$> list.last xs1) < round x /\ 0 <= default last (round <$> list.last xs1)) as [Hlt Hge].
  { destruct (list.last xs1) as [z|] eqn:Ez; cbn; [|lia]. apply last_Some in Ez as [l ->].
    rewrite Hacc, fmap_app, fmap_cons, reverse_app in Hs. cbn in Hs. apply StronglySorted_app_1_r in Hs.
    apply StronglySorted_inv in Hs as [_ Hall]. apply Forall_inv in Hall.
    assert (last < round z <= round c) by (apply Hlast; rewrite Hacc, reverse_app; set_solver). lia. }
  pose proof (oa_progress _ _ _ _ _ _ _ Hat) as Hp. pose proof (pg_last _ _ _ Hp) as Hpl.
  fold last in Hpl. rewrite Hol in Hpl.
  assert (ordering L bk x m) as O by (apply (at_ordering L b R xs1 ms); [done|done|lia|lia|lia]).
  assert (round c <= u64_max) as Hcmax by (unfold MAX_GC_ROUNDS in Hrange; lia).
  refine (anchor_passes L V b bk b1 c x acc (reverse xs2) (reverse xs1) m block prefix
    (cr_leader _ _ R) Hfiled Hpos _ _ Ha Hacc O _ _ _ _ nb_authority0 _ _ _ _ nb_height0 nb_max0 nb_prefix0 nb_fresh0);
    try lia.
  - by eapply (at_inside L b R xs1 ms).
  - by eapply (at_certified L b R xs1 ms).
  - intros pid Hpid. apply Hrec. destruct Hpid as [[r Hr]|?]; [|naive_solver].
    apply (pg_committed _ _ _ Hp) in Hr. naive_solver.
  - intros r. by rewrite Hcom.
  - rewrite nb_round0. apply Hat.
  - rewrite Hcl, Hol. f_equal. f_equal. clear. by destruct xs1 as [|z l _] using rev_ind; [|rewrite last_snoc, reverse_snoc].
Qed.

(** C11: the blocks of honest validators pass.  Let a leader certificate of the
    DAG be committed by [commit_leader_certificate], in a node with a reachable
    storage, a DAG that has the stored certificates of the rounds to be
    committed, and certificates that refer to the round before.  Each block that
    the run adds passes [check_block_subdag] of every node that has the same
    committees and, in its ledger or waiting for it, the blocks before: all that
    was committed before and the earlier blocks of the run.  Its certificates
    have a quorum, no leader between the previous block and the anchor is linked
    to the anchor, and every reference out of the subdag leads to an earlier
    block or is garbage collected. *)
Theorem committed_blocks_pass (L : LedgerService) send (c : BatchCertificate) (b b' : BFT) res :
  commit_ready L b ->
  Dag.get_certificate_for_round_with_author (Bft.dag b) (round c) (author c) = Some c ->
  2 <= round c <= u64_max - MAX_GC_ROUNDS ->
  Bft.commit_leader_certificate L (Some send) c b = (res, b') ->
  exists news, Bft.blocks b' = Bft.blocks b ++ news /\
    forall older blk newer, news = older ++ blk :: newer ->
    forall V prefix block, caught_up L b older.*1 V prefix -> next_block V prefix blk.1 block ->
    check_block_subdag V block prefix = pass block.
Proof.
  intros R Hc Hrange H. unfold Bft.commit_leader_certificate in H. unfold sbind at 1 in H. cbn [sget] in H.
  assert (forall b1 : BFT, Bft.blocks b1 = Bft.blocks b -> exists news, Bft.blocks b1 = Bft.blocks b ++ news /\
    forall older blk newer, news = older ++ blk :: newer ->
    forall V prefix block, caught_up L b older.*1 V prefix -> next_block V prefix blk.1 block ->
    check_block_subdag V block prefix = pass block) as Hnone.
  { intros b1 E. exists []. rewrite app_nil_r. split; [done|]. intros [] ? ? ?; discriminate. }
  case_decide as Hlt; [injection H as <- <-; by apply Hnone|].
  set (last := Dag.last_committed_round (Bft.dag b)) in *. pose proof (cr_last _ _ R) as Hpos. fold last in Hpos.
  set (rs := Bft.rounds_down_by_2 _ _) in H.
  pose proof (BftProps.keeps_find_anchors_from same_certificates L (Bft.dag b) rs ([c], c) same_certificates_leader b) as Hkeep.
  unfold sbind at 1 in H.
  destruct (sfold (Bft.find_anchors L (Bft.dag b)) ([c], c) rs b) as [[acc|e|e|] b1] eqn:Ea; cbn in Hkeep;
    [|injection H as <- <-; apply Hnone, Hkeep..].
  assert (Dag.filed (Bft.dag b)) as Hfiled by (intros r a y Hy; by apply (cr_filed _ _ R r a y) in Hy as (? & _)).
  assert (forall r, r ∈ rs -> last + 2 <= r < round c) as Hrs.
  { intros r Hr%BftProps.rounds_down_by_2_spec. unfold MAX_GC_ROUNDS in *. rewrite u64_wrap_id in Hr by mlia. mlia. }
  destruct (BftProps.find_anchors_spec L (Bft.dag b) rs ([c], c) b acc b1) as [Hs Hin];
    [done|apply BftProps.rounds_down_by_2_sorted|repeat constructor| |done|].
  { intros r x Hr ->%list_elem_of_singleton. by apply Hrs. }
  assert (Bft.blocks b1 = Bft.blocks b) as Hb1 by apply Hkeep.
  assert (forall res1 b2, Bft.commit_anchors L (Some send) (bool_decide (round c = last)) (reverse acc.1) b1 = (res1, b2) ->
    Bft.blocks b' = Bft.blocks b2) as Hb'.
  { intros res1 b2 E. unfold sbind in H. rewrite E in H. destruct res1 as [[]|e|e|]; [|by injection H as <- <-..].
    unfold Bft.garbage_collect in H. destruct (Storage.garbage_collect_certificates _ _). by injection H as <- <-. }
  destruct (Bft.commit_anchors L (Some send) _ (reverse acc.1) b1) as [res1 b2] eqn:E.
  specialize (Hb' res1 b2 eq_refl). case_bool_decide as Hskip.
  { apply Hnone. rewrite Hb', <-Hb1. pose proof (skipped_anchors_blocks L (Some send) (reverse acc.1) b1) as Hn.
    by rewrite E in Hn. }
  assert (forall x, x ∈ acc.1 -> last < round x <= round c) as Hlast.
  { intros x [->%list_elem_of_singleton|Hx%Hrs]%Hin; lia. }
  assert (progress b [] b1) as Hp.
  { eapply progress_same; [exact Hkeep|]. split; try done. by left. }
  destruct (commit_anchors_blocks L b send (reverse acc.1) [] [] b1 res1 b2) as (news & Hnews & Hsplit);
    [done|done|rewrite fmap_reverse; by apply BftProps.StronglySorted_reverse| |done|].
  { intros x Hx. rewrite elem_of_reverse in Hx. rewrite (pg_last _ _ _ Hp). cbn. fold last. apply Hlast in Hx. lia. }
  exists news. split; [by rewrite Hb', Hnews, Hb1|]. intros older blk newer Hn V prefix block Hcu Hnb.
  destruct (Hsplit older blk newer Hn) as (xs1 & x & xs2 & bk & Hxs & Hat). cbn in Hat.
  assert (acc.1 = reverse xs2 ++ x :: reverse xs1) as Hacc.
  { rewrite <-(reverse_involutive acc.1), Hxs, reverse_app, reverse_cons, <-app_assoc. done. }
  eapply run_block_passes; eauto.
Qed.

End Passing.
End BlockCheckProps.

(** ** Witnesses *)

(** Blocks of the test network. *)
Record sample_block := mk_sample_block {
  sb_height : Z;
  sb_hash : ascii;
  sb_previous_hash : ascii;
  sb_round : Z;
  sb_authority : Authority (N := TestNetwork);
}.

#[export] Instance Authority_eq_dec : EqDecision (Authority (N := TestNetwork)).
Proof. solve_decision. Defined.
#[export] Instance sample_block_eq_dec : EqDecision sample_block.
Proof. solve_decision. Defined.

#[export] Instance SampleBlocks : BlockData (N := TestNetwork) := {|
  Block := sample_block; height := sb_height; hash := sb_hash; previous_hash := sb_previous_hash;
  CONSENSUS_VERSION _ := inr 12;
|}.
#[export] Instance SampleAuthority : BlockAuthority SampleBlocks := {|
  block_round := sb_round; authority := sb_authority;
|}.

Definition genesis : sample_block := mk_sample_block 0 "0"%char "-"%char 0 Beacon.

(** A ledger with the genesis block only. *)
Definition genesis_view : LedgerView (B := SampleBlocks) := {|
  latest_block := genesis;
  contains_block_hash h := Ok (bool_decide (h = "0"%char));
  contains_block_for_certificate _ := Ok false;
  get_committee_for_round _ := Ok (Some sample_committee);
|}.

(** A storage with the protocol's number of rounds, and a node that has the
    certificates of rounds 1 to 3 in its storage and its DAG. *)
Definition gc_storage : TestStorage :=
  Storage.mk_storage 0 2 0 MAX_GC_ROUNDS ∅ (lru_new 80) ∅ ∅ Memory.new.
Definition gc_stored : TestStorage := foldl sample_insert gc_storage sample_rounds.
Definition gc_bft : TestBft := foldl sample_sync (Bft.new gc_stored) sample_rounds.

Lemma gc_stored_safe : StorageProps.safe sample_lookback gc_stored.
Proof.
  apply StorageProps.reachable_safe. exists sample_ledger, Memory.new, MAX_GC_ROUNDS, gc_storage.
  split; [vm_refl|]. apply sample_inserts_reachable.
Qed.

Lemma synced_storage (s : TestStorage) l : Bft.storage (foldl sample_sync (Bft.new s) l) = s.
Proof. by rewrite (proj2 (sample_sync_reachable l (Bft.new s))). Qed.

Lemma gc_bft_storage : Bft.storage gc_bft = gc_stored.
Proof. unfold gc_bft. rewrite synced_storage. reflexivity. Qed.

Definition gc_ordered : gmap Z (list (BatchCertificate (N := TestNetwork))) :=
  unwrap_or ∅ (Bft.order_dag_with_dfs empty_ledger gc_bft (sample_cert 4)).

(** The block of the leader of round 2. *)
Definition sample_block1 : sample_block := mk_sample_block 1 "1"%char "0"%char 2 (Quorum gc_ordered).

(** What holds of every entry of a map holds of its lookups. *)
Lemma lookup_forall {K A} `{Countable K} (m : gmap K A) (P : K -> A -> bool) :
  forallb (fun e => P e.1 e.2) (map_to_list m) = true -> forall k x, m !! k = Some x -> P k x = true.
Proof.
  rewrite forallb_forall. intros Hall k x Hx%elem_of_map_to_list%list_elem_of_In. exact (Hall _ Hx).
Qed.

Section Evaluate.
Context (g : gmap Z (gmap ascii (BatchCertificate (N := TestNetwork)))).
Context (certs : gmap ascii (BatchCertificate (N := TestNetwork))).

Definition filed_and_stored (r : Z) (a : ascii) (y : BatchCertificate (N := TestNetwork)) : bool :=
  bool_decide (round y = r) && bool_decide (author y = a) && bool_decide (certs !! cert_id y = Some y).

Lemma evaluate_filed r a y :
  forallb (fun e => forallb (fun f => filed_and_stored e.1 f.1 f.2) (map_to_list e.2)) (map_to_list g) = true ->
  (m ← g !! r; m !! a) = Some y -> round y = r /\ author y = a /\ certs !! cert_id y = Some y.
Proof.
  intros H. destruct (g !! r) as [m|] eqn:Em; [|done]. intros Hy.
  pose proof (lookup_forall _ (fun r m => forallb (fun f => filed_and_stored r f.1 f.2) (map_to_list m)) H r m Em) as Hg.
  pose proof (lookup_forall _ (filed_and_stored r) Hg a y Hy) as Hf. unfold filed_and_stored in Hf.
  rewrite !andb_true_iff, !bool_decide_eq_true in Hf. by destruct Hf as [[? ?] ?].
Qed.

Definition sample_and_filed (_ : ascii) (y : BatchCertificate (N := TestNetwork)) : bool :=
  bool_decide (y ∈ sample_rounds) && bool_decide ((m ← g !! round y; m !! author y) = Some y).

Lemma evaluate_stored i y :
  forallb (fun e => sample_and_filed e.1 e.2) (map_to_list certs) = true -> certs !! i = Some y ->
  y ∈ sample_rounds /\ (m ← g !! round y; m !! author y) = Some y.
Proof.
  intros H Hy. pose proof (lookup_forall _ _ H i y Hy) as Hf. unfold sample_and_filed in Hf.
  by rewrite andb_true_iff, !bool_decide_eq_true in Hf.
Qed.
End Evaluate.

Lemma gc_bft_filed r a y :
  Dag.get_certificate_for_round_with_author (Bft.dag gc_bft) r a = Some y ->
  round y = r /\ author y = a /\ Storage.certificates gc_stored !! cert_id y = Some y.
Proof. apply evaluate_filed. vm_refl. Qed.

Lemma gc_stored_known i y : Storage.certificates gc_stored !! i = Some y ->
  y ∈ sample_rounds /\
  Dag.get_certificate_for_round_with_author (Bft.dag gc_bft) (round y) (author y) = Some y.
Proof. apply evaluate_stored. vm_refl. Qed.

Lemma gc_bft_ready : BlockCheckProps.commit_ready empty_ledger gc_bft.
Proof.
  split; rewrite ?gc_bft_storage.
  - apply gc_stored_safe.
  - unfold Bft.max_gc_rounds. rewrite gc_bft_storage. vm_refl.
  - apply gc_bft_filed.
  - intros i y Hy _. by apply gc_stored_known in Hy as [_ ?].
  - intros i j y p [Hy _]%gc_stored_known [Hp _]%gc_stored_known Hpid. by apply sample_rounds_previous.
  - by vm_compute.
  - intros r a com Hl. by replace (Bft.latest_leader gc_bft) with (@None (Z * ascii)) in Hl by vm_refl.
Qed.

Lemma gc_bft_recent : Dag.recent_committed_ids (Bft.dag gc_bft) = ∅.
Proof. vm_refl. Qed.

Lemma gc_caught_up : BlockCheckProps.caught_up empty_ledger gc_bft [] genesis_view [].
Proof.
  split; [done|vm_refl|]. intros pid [[r Hr]|[Hc|(m & []%elem_of_nil & _)]]; [|discriminate Hc].
  exfalso. revert Hr. unfold Dag.is_recently_committed. rewrite gc_bft_recent, lookup_empty. discriminate.
Qed.

Lemma sample_next_block : BlockCheckProps.next_block genesis_view [] gc_ordered sample_block1.
Proof.
  split; [reflexivity|vm_refl|by vm_compute|vm_refl|by vm_compute|by intros k b Hk|vm_refl].
Qed.

Definition gc_send (_ : gmap Z (list (BatchCertificate (N := TestNetwork)))) (_ : list (TransmissionID (N := TestNetwork) * Transmission (N := TestNetwork))) : Bft.reply :=
  Bft.Advanced.
Definition gc_run := Bft.commit_leader_certificate empty_ledger (Some gc_send) (sample_cert 4) gc_bft.

Lemma gc_run_blocks : (Bft.blocks gc_run.2).*1 = [gc_ordered] /\ Bft.blocks gc_bft = [].
Proof. split; vm_refl. Qed.

Lemma fst_singleton {A B} (l : list (A * B)) a : l.*1 = [a] -> exists b, l = [] ++ (a, b) :: [].
Proof. destruct l as [|[a' b] [|x l]]; intros H; simplify_eq/=; eauto. Qed.

Lemma gc_run_pair :
  Bft.commit_leader_certificate empty_ledger (Some gc_send) (sample_cert 4) gc_bft = (gc_run.1, gc_run.2).
Proof. unfold gc_run. apply surjective_pairing. Qed.

Lemma gc_leader_filed :
  Dag.get_certificate_for_round_with_author (Bft.dag gc_bft) (round (sample_cert 4)) (author (sample_cert 4))
  = Some (sample_cert 4).
Proof. vm_refl. Qed.

Lemma gc_leader_round : 2 <= round (sample_cert 4) <= u64_max - MAX_GC_ROUNDS.
Proof. by vm_compute. Qed.

Lemma committed_blocks_pass_witness :
  (Bft.blocks gc_run.2).*1 = [gc_ordered] /\
  BlockCheck.check_block_subdag genesis_view sample_block1 [] = BlockCheck.pass sample_block1.
Proof.
  split; [exact (proj1 gc_run_blocks)|].
  destruct (BlockCheckProps.committed_blocks_pass (D := SampleBlocks) empty_ledger gc_send
    (sample_cert 4) gc_bft gc_run.2 gc_run.1 gc_bft_ready gc_leader_filed gc_leader_round
    gc_run_pair) as (news & Hn & Hpass).
  pose proof (proj1 gc_run_blocks) as Hb. rewrite Hn, (proj2 gc_run_blocks) in Hb.
  rewrite app_nil_l in Hb. destruct (fst_singleton _ _ Hb) as [ts Hts].
  exact (Hpass [] (gc_ordered, ts) [] Hts genesis_view [] sample_block1 gc_caught_up sample_next_block).
Defined.
