(* ===== verification/BftSync.v ===== *)
(** * Synchronization of a validator

    [Sync<N>] of node/bft/src/sync/mod.rs: a validator that is behind takes
    blocks from peers, keeps them back until later blocks vouch for them, and
    feeds their certificates to the storage and the DAG; it also fetches single
    certificates.

    The state holds the ledger, the BFT with its storage, the block
    synchronization and the blocks that wait.  Other tasks may advance the
    ledger while a block is processed: an argument [o] says what they do to it
    at each point where the code reads the ledger anew.  A ledger update holds
    a lock, so nothing happens in between there.  The parallel iterations over
    certificates are in order. *)

From S2P Require Import Prelude Bytes Network Sockets Committee Narwhal Dfs Subdag Lru StorageService Ledger Storage Dag Bft.
From S2P Require Import Pending Locators SyncState BlockSync BlockCheck.
Import Locators SyncState.

(** The parts of a block that [Storage] reads, and its transactions as
    [to_unconfirmed_transaction] returns them, with their IDs. *)
Class SyncBlock `{N : Network} (B : BlockData) := {
  contents : Block -> Ledger.Block;
  to_unconfirmed_transactions : Block -> list (result (TransactionID * Transaction));
}.

(** [LedgerService] and [LedgerUpdateService] over the states of a ledger.
    [verify_content] is the rest of [check_block_content]. *)
Record SyncLedger `{N : Network} {B : BlockData} (St : Type) := mk_sync_ledger {
  ledger_view : St -> LedgerView;
  ledger_service : St -> LedgerService;
  ledger_contains_height : St -> Z -> bool;
  ledger_get_block : St -> Z -> result Block;
  ledger_get_hash : St -> Z -> result BlockHash;
  ledger_begin_update : St -> option BeginLedgerUpdateError;
  verify_content : LedgerView -> Block -> checked unit;
  ledger_advance : St -> Block -> result St;
}.
Arguments ledger_view {_ _ _} _ _.
Arguments ledger_service {_ _ _} _ _.
Arguments ledger_contains_height {_ _ _} _ _ _.
Arguments ledger_get_block {_ _ _} _ _ _.
Arguments ledger_get_hash {_ _ _} _ _ _.
Arguments ledger_begin_update {_ _ _} _ _.
Arguments verify_content {_ _ _} _ _ _.
Arguments ledger_advance {_ _ _} _ _ _.

#[export] Instance BftSyncMode_eq_dec : EqDecision BftSyncMode.
Proof. solve_decision. Defined.

Module BftSync.
Import BlockCheck.

Section BftSync.
Context `{N : Network} {B : BlockData} {BA : BlockAuthority B} {SB : SyncBlock B}.
Context {Svc : Type} `{!StorageServiceOps Svc}.
Context {Cache : Type} `{!LruOps Cache Field BatchCertificate}.
Context {St : Type} (ops : SyncLedger St).
(** The [oneshot] senders that wait for certificates. *)
Context {C : Type}.

Abbreviation Storage := (Storage.Storage Svc Cache).

Record Sync := mk_sync {
  ledger : St;
  bft : Bft.BFT Svc Cache;
  block_sync : BlockSync.BlockSync;
  pending : Pending.pending_map Field SocketAddr C;
  pending_blocks : list Block;
  sync_callback : bool;
}.

Definition set_ledger (st : St) (s : Sync) : Sync :=
  mk_sync st (bft s) (block_sync s) (pending s) (pending_blocks s) (sync_callback s).
Definition set_bft (b : Bft.BFT Svc Cache) (s : Sync) : Sync :=
  mk_sync (ledger s) b (block_sync s) (pending s) (pending_blocks s) (sync_callback s).
Definition set_block_sync (bs : BlockSync.BlockSync) (s : Sync) : Sync :=
  mk_sync (ledger s) (bft s) bs (pending s) (pending_blocks s) (sync_callback s).
Definition set_pending p (s : Sync) : Sync :=
  mk_sync (ledger s) (bft s) (block_sync s) p (pending_blocks s) (sync_callback s).
Definition set_pending_blocks (l : list Block) (s : Sync) : Sync :=
  mk_sync (ledger s) (bft s) (block_sync s) (pending s) l (sync_callback s).

Definition storage (s : Sync) : Storage := Bft.storage (bft s).
Definition view (s : Sync) : LedgerView := ledger_view ops (ledger s).
Definition service (s : Sync) : LedgerService := ledger_service ops (ledger s).
Definition ledger_height (s : Sync) : Z := height (latest_block (view s)).

(** The queries of the block synchronization. *)
Definition chain (s : Sync) : ChainView :=
  mk_view (ledger_height s) (ledger_contains_height ops (ledger s)) (ledger_get_hash ops (ledger s)).

(** What other tasks do to the ledger. *)
Definition interfere (f : St -> St) : SM Sync unit := smodify (fun s => set_ledger (f (ledger s)) s).

Definition on_storage {A} (f : Storage -> result A * Storage) : SM Sync A := fun s =>
  let '(r, st) := f (storage s) in (r, set_bft (Bft.set_storage st (bft s)) s).

(** A call of the callback, if it is set. *)
Definition on_callback (f : Bft.BFT Svc Cache -> Bft.BFT Svc Cache) : SM Sync unit :=
  smodify (fun s => if sync_callback s then set_bft (f (bft s)) s else s).

Definition on_block_sync (f : BlockSync.BlockSync -> BlockSync.BlockSync) : SM Sync unit :=
  smodify (fun s => set_block_sync (f (block_sync s)) s).

(** A loop without a result. *)
Definition sfor {A} (f : A -> SM Sync unit) (l : list A) : SM Sync unit := sfold (fun _ x => f x) tt l.

(** [u32::try_from], of a [u64]. *)
Definition u32_try_from (z : Z) : result Z :=
  if decide (z <= u32_max) then Ok z else Err "out of range integral type conversion attempted".

(** [max_gc_blocks]: a block is created every two rounds at most. *)
Definition max_gc_blocks (s : Sync) : result Z :=
  n ← u32_try_from (Storage.max_gc_rounds (storage s)); Ok (n / 2).

(** ** Blocks and their certificates *)

(** The certificates of a block, by round. *)
Definition block_certificates (block : Block) : list BatchCertificate :=
  match authority block with Quorum subdag => Subdag.all_certificates subdag | Beacon => [] end.

(** The unconfirmed transactions by their ID. *)
Definition unconfirmed_transactions (block : Block) : gmap TransactionID Transaction :=
  list_to_map (reverse (omap ok (to_unconfirmed_transactions block))).

(** [storage.sync_certificate_with_block] for the certificates of a block. *)
Definition sync_certificates (now : Z) (block : Block) : SM Sync unit :=
  do s ⇐ sget;
  sfor (fun certificate => on_storage (fun st =>
    Storage.sync_certificate_with_block (service s) now st (contents block) certificate
      (unconfirmed_transactions block))) (block_certificates block).

(** [Sync::add_block_subdag_to_bft]. *)
Definition add_block_subdag_to_bft (now : Z) (block : Block) : SM Sync unit :=
  do _ ⇐ sync_certificates now block;
  sfor (fun certificate => on_callback (Bft.add_certificate_from_sync certificate)) (block_certificates block).

(** [while let Some(block) = front() && block.height() <= h { pop_front() }]. *)
Fixpoint remove_obsolete (h : Z) (l : list Block) : list Block :=
  match l with
  | b :: l' => if decide (height b <= h) then remove_obsolete h l' else l
  | [] => []
  end.

(** [Sync::sync_storage_with_ledger_at_bootup], at time [now]. *)
Definition sync_storage_with_ledger_at_bootup (now : Z) : SM Sync unit :=
  do s ⇐ sget;
  let latest_ledger_block := latest_block (view s) in
  let blocks := remove_obsolete (height latest_ledger_block) (pending_blocks s) in
  do _ ⇐ smodify (set_pending_blocks blocks);
  let latest := default latest_ledger_block (last blocks) in
  let max_height := height latest in
  do gc_blocks ⇐ slift (max_gc_blocks s);
  let gc_height := saturating_sub max_height gc_blocks in
  do ledger_blocks ⇐ slift (mapR (ledger_get_block ops (ledger s))
    (seqZ gc_height (u32_wrap (height latest_ledger_block + 1) - gc_height)));
  do _ ⇐ on_storage (fun st => (Ok tt, Storage.sync_height_with_block st max_height));
  do _ ⇐ on_storage (fun st => (Ok tt, Storage.sync_round_with_block st (block_round latest)));
  do _ ⇐ on_storage (fun st => Storage.garbage_collect_certificates st (block_round latest));
  do _ ⇐ sfor (sync_certificates now) (ledger_blocks ++ blocks);
  do _ ⇐ sfor (fun certificate =>
    do _ ⇐ on_callback (Bft.add_certificate_from_sync certificate);
    on_callback (Bft.commit_certificate_from_sync certificate)) (ledger_blocks ≫= block_certificates);
  do _ ⇐ sfor (fun certificate => on_callback (Bft.add_certificate_from_sync certificate))
           (blocks ≫= block_certificates);
  on_block_sync (BlockSync.set_sync_height now max_height).

(** [Sync::compute_sync_height]. *)
Definition compute_sync_height : SM Sync Z := fun s =>
  let h := ledger_height s in
  let blocks := remove_obsolete h (pending_blocks s) in
  (Ok (Z.max (default 0 (height <$> last blocks)) h), set_pending_blocks blocks s).

(** ** Blocks that wait *)

(** The leader certificate of a block, and its certificates of a round. *)
Definition leader_of (block : Block) : result BatchCertificate :=
  match authority block with
  | Quorum subdag => Subdag.leader_certificate subdag
  | Beacon => Err "Received a block with an unexpected authority type."
  end.
Definition certificates_in (r : Z) (block : Block) : list BatchCertificate :=
  match authority block with Quorum subdag => default [] (subdag !! r) | Beacon => [] end.

(** [Sync::is_block_availability_threshold_reached]. *)
Definition is_block_availability_threshold_reached (L : LedgerService) (block : Block) (successors : list Block)
    : result bool :=
  leader_certificate ← leader_of block;
  certificate_round ← ok_or "Integer overflow on round number" (u64_checked_add (round leader_certificate) 1);
  committee_lookback ← Ledger.get_committee_lookback_for_round L certificate_round;
  let authors : gset Address := list_to_set (author <$>
    base.filter (fun c => cert_id leader_certificate ∈ previous_certificate_ids c)
      (successors ≫= certificates_in certificate_round)) in
  Ok (is_availability_threshold_reached committee_lookback authors).

(** The loop over the indices below [n], from the last one: the height up to
    which the blocks can be committed. *)
Fixpoint find_commit_height (L : LedgerService) (blocks : list Block) (n : nat) : result (option Z) :=
  match n with
  | O => Ok None
  | S index =>
      block ← unwrap "index out of bounds" (blocks !! index);
      reached ← Storage.or_bail "Availability threshold check failed"
                  (is_block_availability_threshold_reached L block (drop (S index) blocks));
      if reached : bool then Ok (Some (height block)) else find_commit_height L blocks index
  end.

(** The loop over the drained blocks, while the ledger update is held; [false]
    asks for a retry. *)
Fixpoint commit_blocks (within_gc_range : bool) (blocks : list Block) : SM Sync bool :=
  match blocks with
  | [] => sret true
  | pending_block :: blocks =>
      do s ⇐ sget;
      match check_block_content (verify_content ops) (view s) pending_block with
      | Ok (inl (InvalidHeight | BlockAlreadyExists | InvalidRound)) => sret false
      | Ok (inl _) => slift (Err "Failed to check contents of pending block {hash} at height {height}")
      | Ok (inr block) =>
          do st ⇐ slift (ledger_advance ops (ledger s) block);
          do _ ⇐ smodify (set_ledger st);
          do _ ⇐ on_storage (fun st => (Ok tt, Storage.sync_height_with_block st (height block)));
          do _ ⇐ on_storage (fun st => (Ok tt, Storage.sync_round_with_block st (block_round block)));
          do _ ⇐ (if within_gc_range
                  then sfor (fun c => on_callback (Bft.commit_certificate_from_sync c)) (block_certificates block)
                  else sret tt);
          commit_blocks within_gc_range blocks
      | Err msg => slift (Err msg)
      | Panic msg => slift (Panic msg)
      | Deadlock => slift Deadlock
      end
  end.

(** The second part of [try_sync_storage_with_block]: commit what the new block
    vouches for.  [Drain] removes the range even when the loop ends early. *)
Definition try_commit (o : nat -> St -> St) (within_gc_range : bool) : SM Sync bool :=
  do _ ⇐ interfere (o 2%nat);
  do s ⇐ sget;
  let ledger_block_height := ledger_height s in
  let blocks := pending_blocks s in
  do found ⇐ slift (find_commit_height (service s) blocks (length blocks - 1));
  match found with
  | None => sret true
  | Some commit_height =>
      do _ ⇐ interfere (o 3%nat);
      do s ⇐ sget;
      match ledger_begin_update ops (ledger s) with
      | Some ShuttingDown => sret true
      | Some _ => slift (Err "Unexpected error when beginning ledger update: {err}")
      | None =>
          let start_height := u32_wrap (ledger_block_height + 1) in
          do _ ⇐ slift (ensure (bool_decide (start_height <= commit_height)) "Invalid commit height");
          let num_blocks := Z.to_nat (commit_height - start_height + 1) in
          if decide (length blocks < num_blocks)%nat then slift (Panic "range end index out of range") else
          do _ ⇐ smodify (set_pending_blocks (drop num_blocks blocks));
          commit_blocks within_gc_range (take num_blocks blocks)
      end
  end.

(** [Sync::try_sync_storage_with_block]; [false] asks for a retry. *)
Definition try_sync_storage_with_block (o : nat -> St -> St) (new_block : Block) (within_gc_range : bool)
    : SM Sync bool :=
  do s ⇐ sget;
  let go :=
    do _ ⇐ interfere (o 0%nat);
    do s ⇐ sget;
    let blocks := remove_obsolete (ledger_height s) (pending_blocks s) in
    do _ ⇐ smodify (set_pending_blocks blocks);
    do _ ⇐ interfere (o 1%nat);
    do s ⇐ sget;
    match check_block_subdag (view s) new_block blocks with
    | Ok (inr new_block) =>
        do _ ⇐ smodify (set_pending_blocks (blocks ++ [new_block]));
        try_commit o within_gc_range
    | Ok (inl (InvalidPrefix index _)) =>
        do p ⇐ slift (ok_or "Invalid prefix index" (blocks !! index));
        do _ ⇐ smodify (set_pending_blocks (remove_obsolete (height p) blocks));
        sret false
    | Ok (inl (BlockAlreadyExists | InvalidHeight | InvalidRound)) => sret true
    | Ok (inl e) => slift (Err (into_anyhow e))
    | Err msg => slift (Err msg)
    | Panic msg => slift (Panic msg)
    | Deadlock => slift Deadlock
    end in
  match last (pending_blocks s) with
  | Some tail =>
      if decide (height new_block <= height tail) then sret true else
      if decide (u32_wrap (height tail + 1) <> height new_block) then slift (Err "Got an out-of-order block") else go
  | None => go
  end.

(** The loop of [sync_storage_with_block]: every retry removes a block that
    waits, which bounds their number. *)
Fixpoint retry (fuel : nat) (o : nat -> nat -> St -> St) (new_block : Block) (within_gc_range : bool) : SM Sync unit :=
  match fuel with
  | O => slift Deadlock
  | S fuel =>
      do done ⇐ try_sync_storage_with_block (o O) new_block within_gc_range;
      if done : bool then sret tt else retry fuel (fun i => o (S i)) new_block within_gc_range
  end.

(** [Sync::sync_storage_with_block]. *)
Definition sync_storage_with_block (now : Z) (o : nat -> nat -> St -> St) (new_block : Block) (within_gc_range : bool)
    : SM Sync unit :=
  do s ⇐ sget;
  if ledger_contains_height ops (ledger s) (height new_block) then sret tt else
  do _ ⇐ (if within_gc_range then add_block_subdag_to_bft now new_block else sret tt);
  do s ⇐ sget;
  retry (S (S (length (pending_blocks s)))) o new_block within_gc_range.

(** ** Advancing *)

(** The loops of [try_advancing_block_synchronization_inner] at
    [current_height]: the height reached, and the error that ended the loop.
    Every iteration passes another request, which bounds their number. *)
Fixpoint advance_loop (fuel : nat) (now : Z) (o : Z -> nat -> nat -> St -> St) (within_gc : bool) (current_height : Z)
    : SM Sync (Z * option string) :=
  match fuel with
  | O => slift Deadlock
  | S fuel =>
      let next_height := u32_wrap (current_height + 1) in
      do s ⇐ sget;
      match BlockSync.peek_next_block (block_sync s) next_height with
      | None => sret (current_height, None)
      | Some block => fun s =>
          match sync_storage_with_block now (o next_height) block within_gc s with
          | (Ok _, s) => advance_loop fuel now o within_gc next_height s
          | (Err msg, s) =>
              (Ok (current_height, Some msg), set_block_sync (BlockSync.remove_block_response next_height (block_sync s)) s)
          | (Panic msg, s) => (Panic msg, s)
          | (Deadlock, s) => (Deadlock, s)
          end
      end
  end.

(** The closure [cleanup]. *)
Definition cleanup (now start_height : Z) (r : Z * option string) : SM Sync bool :=
  let new_blocks := bool_decide (start_height < r.1) in
  do _ ⇐ (if new_blocks then on_block_sync (BlockSync.set_sync_height now r.1) else sret tt);
  match r.2 with Some msg => slift (Err msg) | None => sret new_blocks end.

(** [BlockSync::set_bft_sync_mode], with the previous mode. *)
Definition set_mode (mode : BftSyncMode) : SM Sync (option BftSyncMode) := fun s =>
  let '(previous, st) := set_bft_sync_mode mode (BlockSync.sync_state (block_sync s)) in
  (Ok previous, set_block_sync (BlockSync.set_sync_state st (block_sync s)) s).

(** The number of iterations of the loops. *)
Definition advance_fuel (s : Sync) : nat := S (size (BlockSync.requests (block_sync s))).

(** [Sync::try_advancing_block_synchronization_inner], at time [now]. *)
Definition try_advancing_block_synchronization_inner (now : Z) (oracle : Oracle) (o : Z -> nat -> nat -> St -> St)
    : SM Sync bool :=
  do s ⇐ sget;
  do _ ⇐ on_block_sync (BlockSync.set_sync_height now (ledger_height s));
  do s ⇐ sget;
  let tip := match BlockSync.find_sync_peers (chain s) oracle (block_sync s) with
             | Some (sync_peers, _) => default 0 (list_max sync_peers.*2)
             | None => 0
             end in
  do gc_blocks ⇐ slift (max_gc_blocks s);
  let max_gc_height := saturating_sub tip gc_blocks in
  do start_height ⇐ compute_sync_height;
  if decide (max_gc_height <= start_height) then
    do previous ⇐ set_mode DagMode;
    do _ ⇐ (if decide (previous = Some Fast) then sync_storage_with_ledger_at_bootup now else sret tt);
    do s ⇐ sget;
    do r ⇐ advance_loop (advance_fuel s) now o true start_height;
    cleanup now start_height r
  else
    do _ ⇐ set_mode Fast;
    do s ⇐ sget;
    do r ⇐ advance_loop (advance_fuel s) now o false start_height;
    match r with
    | (_, Some _) => cleanup now start_height r
    | (current_height, None) =>
        do _ ⇐ (if decide (max_gc_height <= current_height) then
                  do _ ⇐ set_mode DagMode; sync_storage_with_ledger_at_bootup now
                else sret tt);
        cleanup now start_height r
    end.

(** [Sync::try_advancing_block_synchronization], with the locators that are
    given to the ping task. *)
Definition try_advancing_block_synchronization (now : Z) (oracle : Oracle) (o : Z -> nat -> nat -> St -> St)
    (has_ping : bool) : SM Sync (option BlockLocators) := fun s =>
  let '(r, s) := try_advancing_block_synchronization_inner now oracle o s in
  match r with
  | Ok _ | Err _ =>
      if has_ping && unwrap_or false r
      then (Ok (ok (get_block_locators (ledger_height s) (ledger_get_hash ops (ledger s)))), s)
      else (Ok None, s)
  | Panic msg => (Panic msg, s)
  | Deadlock => (Deadlock, s)
  end.

(** [Sync::new] and [Sync::initialize]. *)
Definition new (st : St) (b : Bft.BFT Svc Cache) (bs : BlockSync.BlockSync) : Sync :=
  (set_mode Fast (mk_sync st b bs Pending.new [] false)).2.
Definition initialize (now : Z) (callback : bool) : SM Sync unit :=
  do s ⇐ sget;
  do _ ⇐ (if callback then
            do _ ⇐ smodify (fun s => mk_sync (ledger s) (bft s) (block_sync s) (pending s) (pending_blocks s) true);
            slift (ensure (negb (sync_callback s)) "Failed to set sync callback")
          else sret tt);
  sync_storage_with_ledger_at_bootup now.

(** ** Messages of the gateway *)

(** [Sync::insert_block_response], [Sync::update_peer_locators] and
    [Sync::remove_peer]. *)
Definition insert_block_response (peer_ip : SocketAddr) (blocks : list Block) (latest_consensus_version : option Z)
    (s : Sync) : (BlockSync.InsertBlockResponseError + unit) * Sync :=
  let '(r, bs) := BlockSync.insert_block_responses (chain s) peer_ip blocks latest_consensus_version (block_sync s) in
  (r, set_block_sync bs s).
Definition update_peer_locators (now : Z) (oracle : Oracle) (peer_ip : SocketAddr) (locators : BlockLocators)
    (s : Sync) : Sync :=
  set_block_sync (BlockSync.update_peer_locators (chain s) oracle now peer_ip locators (block_sync s)) s.
Definition remove_peer (now : Z) (peer_ip : SocketAddr) (s : Sync) : Sync :=
  set_block_sync (BlockSync.remove_peer now peer_ip (block_sync s)) s.

(** [Sync::send_certificate_request] up to the wait for the answer, at time
    [now], with the new callback [c]: whether a request is sent to the peer. *)
Definition send_certificate_request (now : Z) (num_redundant_requests : result Z)
    (stake_redundancy_reached : result bool) (peer_ip : SocketAddr) (certificate_id : Field) (c : C)
    : SM Sync bool :=
  do num_sent_requests ⇐ (fun s =>
    let '(n, p) := Pending.num_sent_requests (pending s) now certificate_id in (Ok n, set_pending p s));
  do s ⇐ sget;
  let contains_peer := Pending.contains_peer_with_sent_request (pending s) certificate_id peer_ip in
  do n ⇐ slift num_redundant_requests;
  do should_send_request ⇐ slift (
    if contains_peer then Ok false else
    if bool_decide (num_sent_requests < n) then Ok true else
    reached ← stake_redundancy_reached; Ok (negb reached));
  do _ ⇐ smodify (fun s => set_pending
    (Pending.insert (pending s) now certificate_id peer_ip (Some (c, should_send_request))).2 s);
  sret should_send_request.

(** [Sync::send_certificate_response]: the certificate sent to the peer. *)
Definition send_certificate_response (certificate_id : Field) (s : Sync) : option BatchCertificate :=
  Storage.get_certificate (storage s) certificate_id.

(** [Sync::finish_certificate_request]: the callbacks that are sent the
    certificate. *)
Definition finish_certificate_request (peer_ip : SocketAddr) (certificate : BatchCertificate) (s : Sync)
    : list (C * BatchCertificate) * Sync :=
  if bool_decide (peer_ip ∈ default ∅ (Pending.get_peers (pending s) (cert_id certificate))) then
    let '(_, notified, p) := Pending.remove (pending s) (cert_id certificate) true in
    ((fun c => (c, certificate)) <$> notified, set_pending p s)
  else ([], s).

End BftSync.
Arguments Sync {_ _} _ _ _ _.
End BftSync.
