(* ===== verification/BftSyncProps.v ===== *)
(** * Properties of the synchronization of a validator

    The blocks that wait are a chain; a block enters the ledger only when a
    later block of the chain vouches for it or for one of its successors;
    processing a block ends, whatever other tasks do to the ledger.  Three runs
    show behaviour that is hardly intended. *)

From S2P Require Import Prelude Bytes Network Sockets Committee Narwhal Dfs Subdag Lru StorageService Ledger Storage Dag Bft.
From S2P Require Import StorageProps BftProps Pending Locators SyncState BlockSync BlockCheck BlockCheckProps BftSync.
Import Locators SyncState.

Module BftSyncProps.
Import BlockCheck BlockCheckProps BftSync.

Section Props.
Context `{N : Network} {B : BlockData} {BA : BlockAuthority B} {SB : SyncBlock B}.
Context {Svc : Type} `{!StorageServiceOps Svc}.
Context {Cache : Type} `{!LruOps Cache Field BatchCertificate}.
Context {St : Type} (ops : SyncLedger St) {C : Type}.
Abbreviation Sync := (BftSync.Sync Svc Cache St C).

(** ** Chains of blocks *)

(** The heights of the blocks follow each other from [h]. *)
Fixpoint chain_from (h : Z) (l : list Block) : Prop :=
  match l with
  | [] => True
  | b :: l => height b = h /\ chain_from (h + 1) l
  end.

Definition is_chain (l : list Block) : Prop :=
  match l with [] => True | b :: _ => chain_from (height b) l end.

Lemma chain_from_lookup h l k b : chain_from h l -> l !! k = Some b -> height b = h + Z.of_nat k.
Proof.
  revert h k. induction l as [|a l IH]; intros h k; [done|]. intros [Ha Hl]. destruct k as [|k]; cbn.
  - intros [= <-]. lia.
  - intros Hk. specialize (IH (h + 1) k Hl Hk). lia.
Qed.

Lemma chain_from_app h l1 l2 :
  chain_from h (l1 ++ l2) <-> chain_from h l1 /\ chain_from (h + len l1) l2.
Proof.
  revert h. induction l1 as [|b l1 IH]; intros h; cbn -[len].
  - replace (h + len []) with h by (unfold len; cbn; lia). tauto.
  - rewrite IH. replace (h + 1 + len l1) with (h + len (b :: l1)) by (unfold len; cbn; lia). tauto.
Qed.

Lemma chain_from_is_chain h l : chain_from h l -> is_chain l.
Proof. destruct l as [|b l]; [done|]. intros [Hb Hl]. split; [done|]. by rewrite Hb. Qed.

Lemma is_chain_drop n l : is_chain l -> is_chain (drop n l).
Proof.
  destruct l as [|b l]; [by rewrite drop_nil|]. intros Hl.
  change (chain_from (height b) (b :: l)) in Hl. rewrite <-(take_drop n (b :: l)), chain_from_app in Hl.
  by eapply chain_from_is_chain, Hl.
Qed.

(** [remove_obsolete] drops the blocks up to the height. *)
Lemma remove_obsolete_drop h l : exists n, remove_obsolete h l = drop n l.
Proof.
  induction l as [|b l [n IH]]; cbn; [by exists 0%nat|]. case_decide; [by exists (S n)|by exists 0%nat].
Qed.

Lemma remove_obsolete_length h l : (length (remove_obsolete h l) <= length l)%nat.
Proof. destruct (remove_obsolete_drop h l) as [n ->]. rewrite length_drop. lia. Qed.

Lemma remove_obsolete_chain h l : is_chain l -> is_chain (remove_obsolete h l).
Proof. intros Hl. destruct (remove_obsolete_drop h l) as [n ->]. by apply is_chain_drop. Qed.

Lemma remove_obsolete_above h l : match remove_obsolete h l with [] => True | b :: _ => h < height b end.
Proof. induction l as [|b l IH]; cbn; [done|]. case_decide; [done|lia]. Qed.

(** Removing up to a block of a chain removes the first block. *)
Lemma remove_obsolete_shrinks l k b :
  is_chain l -> l !! k = Some b -> (length (remove_obsolete (height b) l) < length l)%nat.
Proof.
  intros Hl Hk. destruct l as [|a l]; [done|]. pose proof (chain_from_lookup _ _ _ _ Hl Hk) as Hb. cbn.
  rewrite decide_True by lia. pose proof (remove_obsolete_length (height b) l). lia.
Qed.

(** What passed the check continues the chain. *)
Lemma check_pass_chain V new prefix b :
  is_u32 (height (latest_block V)) -> height (latest_block V) + 1 + len prefix <= u32_max ->
  check_block_subdag V new prefix = pass b ->
  b = new /\ chain_from (height (latest_block V) + 1) (prefix ++ [new]).
Proof.
  intros Hu Hmax H. unfold check_block_subdag, check_block_subdag_inner in H.
  apply cbind_pass in H as (u & H & Hb). injection Hb as <-. split; [done|].
  rewrite u32_wrap_id in H by mlia. apply cbind_pass in H as (h & Hp & H).
  apply check_prefix_pass in Hp as [-> Hext]; [|mlia|mlia].
  apply cbind_pass in H as ([|] & _ & H); [done|]. case_decide as Hh; [done|].
  apply chain_from_app. split; [|cbn; split; [|done]; by destruct (decide (height new = height (latest_block V) + 1 + len prefix))].
  clear -Hext. revert Hext. generalize (height (latest_block V) + 1) as h0.
  induction prefix as [|a prefix IH]; intros h0 Hext; [done|]. apply extends_from_cons in Hext as (? & _ & ?).
  split; [done|]. by apply IH.
Qed.

(** ** Processing a block *)

(** The heights stay far from the end of [u32]. *)
Hypothesis ledger_heights : forall st, 0 <= height (latest_block (ledger_view ops st)) <= 2 ^ 31.
Definition few_blocks (s : Sync) : Prop := len (pending_blocks s) <= 2 ^ 30.

(** Other tasks only advance the ledger. *)
Definition advances (f : St -> St) : Prop := forall st,
  height (latest_block (ledger_view ops st)) <= height (latest_block (ledger_view ops (f st))).

(** The states of the ledger that other tasks reach from [st]. *)
Definition interfered (o : nat -> St -> St) : St -> St -> Prop := rtc (fun a b => exists i, b = o i a).

Lemma interfered_step o i st : interfered o st (o i st).
Proof. apply rtc_once. by exists i. Qed.
#[local] Hint Resolve interfered_step : core.

Lemma interfered_steps o i st st' : interfered o st st' -> interfered o st (o i st').
Proof. intros H. etrans; [exact H|apply interfered_step]. Qed.
#[local] Hint Resolve interfered_steps : core.

(** The committing loop leaves the blocks that wait alone. *)
Definition same_blocks (s s' : Sync) : Prop := pending_blocks s' = pending_blocks s.

#[local] Instance same_blocks_preorder : PreOrder same_blocks.
Proof. split; [done|]. intros x y z. unfold same_blocks. congruence. Qed.

Lemma on_callback_same f : keeps same_blocks (on_callback f).
Proof. apply (keeps_modify same_blocks). intros s. unfold same_blocks. by destruct (sync_callback s). Qed.

Lemma on_storage_same {A} (f : Storage.Storage Svc Cache -> result A * Storage.Storage Svc Cache) :
  keeps same_blocks (on_storage f).
Proof. intros s. unfold on_storage, same_blocks. by destruct (f (storage s)). Qed.

Lemma commit_blocks_same w bs : keeps same_blocks (commit_blocks ops w bs).
Proof.
  induction bs as [|b bs IH]; cbn [commit_blocks]; [apply (keeps_ret same_blocks)|].
  apply (keeps_bind same_blocks); [apply (keeps_get same_blocks)|]. intros s.
  destruct (check_block_content _ _ _) as [[[]|b']| | |]; try apply (keeps_ret same_blocks);
    try apply (keeps_lift same_blocks).
  apply (keeps_bind same_blocks); [apply (keeps_lift same_blocks)|]. intros st.
  apply (keeps_bind same_blocks); [by apply (keeps_modify same_blocks)|]. intros _.
  apply (keeps_bind same_blocks); [apply on_storage_same|]. intros _.
  apply (keeps_bind same_blocks); [apply on_storage_same|]. intros _.
  apply (keeps_bind same_blocks); [|done]. destruct w; [|apply (keeps_ret same_blocks)].
  unfold sfor. apply (keeps_fold same_blocks). intros; apply on_callback_same.
Qed.

Lemma add_block_subdag_same now b : keeps same_blocks (add_block_subdag_to_bft ops now b).
Proof.
  unfold add_block_subdag_to_bft, sync_certificates, sfor.
  apply (keeps_bind same_blocks).
  - apply (keeps_bind same_blocks); [apply (keeps_get same_blocks)|]. intros s.
    apply (keeps_fold same_blocks). intros; apply on_storage_same.
  - intros _. apply (keeps_fold same_blocks). intros; apply on_callback_same.
Qed.

(** [find_commit_height] finds a block that a later one vouches for. *)
Lemma find_commit_height_Some L blocks n h :
  find_commit_height L blocks n = Ok (Some h) ->
  exists index b, (index < n)%nat /\ blocks !! index = Some b /\ height b = h /\
    is_block_availability_threshold_reached L b (drop (S index) blocks) = Ok true.
Proof.
  induction n as [|n IH]; cbn [find_commit_height]; [done|]. intros H. apply bind_Ok in H as (b0 & Hb & H).
  apply bind_Ok in H as (reached & Hr & H). destruct (blocks !! n) as [b|] eqn:Eb; [|done].
  injection Hb as <-.
  destruct reached.
  - injection H as <-. exists n, b. split_and!; [lia|done|done|].
    destruct (is_block_availability_threshold_reached L b _); cbn in Hr; congruence.
  - destruct (IH H) as (i & b' & ? & ?). exists i, b'. split; [lia|done].
Qed.

(** Committing from the waiting blocks [blocks], which continue a ledger that
    was no higher: nothing happens to them, or they are committed up to one
    that a later block vouches for. *)
Lemma try_commit_inv o w (s : Sync) blocks h r s' :
  advances (o 2%nat) -> pending_blocks s = blocks -> chain_from (h + 1) blocks ->
  0 <= h <= ledger_height ops s -> try_commit ops o w s = (r, s') ->
  (pending_blocks s' = blocks /\ r <> Ok false /\ interfered o (ledger s) (ledger s')) \/
  exists index b k st s1, (S index < length blocks)%nat /\ blocks !! index = Some b /\ (k <= S index)%nat /\
    interfered o (ledger s) st /\ interfered o st (ledger s1) /\
    is_block_availability_threshold_reached (ledger_service ops st) b (drop (S index) blocks) = Ok true /\
    pending_blocks s1 = drop k blocks /\ commit_blocks ops w (take k blocks) s1 = (r, s').
Proof.
  intros Hadv Hbl Hch Hh H. unfold try_commit in H. unfold sbind at 1, interfere at 1, smodify at 1 in H.
  unfold sbind at 1, sget at 1 in H. cbn [pending_blocks set_ledger ledger service] in H. rewrite Hbl in H.
  set (s1 := set_ledger (o 2%nat (ledger s)) s) in *. set (lh := ledger_height ops s1) in *.
  assert (h <= lh <= 2 ^ 31) as Hlh.
  { pose proof (Hadv (ledger s)). pose proof (ledger_heights (o 2%nat (ledger s))).
    unfold lh, ledger_height, view in *. cbn in *. lia. }
  unfold sbind at 1, slift at 1 in H.
  destruct (find_commit_height _ _ _) as [[ch|]|e|e|] eqn:Ef; try (injection H as <- <-; left; cbn; by auto).
  apply find_commit_height_Some in Ef as (i & b & Hi & Hb & <- & Hreach).
  pose proof (chain_from_lookup _ _ _ _ Hch Hb) as Hhb.
  unfold sbind at 1, interfere at 1, smodify at 1 in H. unfold sbind at 1, sget at 1 in H.
  set (s2 := set_ledger (o 3%nat (ledger s1)) s1) in *.
  destruct (ledger_begin_update ops (ledger s2)) as [[]|]; try (injection H as <- <-; left; cbn; by auto).
  rewrite u32_wrap_id in H by mlia. unfold sbind at 1, slift at 1 in H.
  destruct (ensure _ _) as [[]|e|e|]; try (injection H as <- <-; left; cbn; by auto).
  case_decide; [injection H as <- <-; left; cbn; by auto|]. right.
  unfold sbind at 1, smodify at 1 in H. eexists i, b, _, _, _.
  split_and!; [lia|exact Hb| | | |exact Hreach| |exact H]; [lia|cbn; auto..|done].
Qed.

(** What a try does: it drops some of the blocks that wait, or it appends the
    new block and tries to commit. *)
Lemma try_sync_inv o new w (s : Sync) r s' :
  (forall i, advances (o i)) -> few_blocks s -> is_chain (pending_blocks s) ->
  try_sync_storage_with_block ops o new w s = (r, s') ->
  (exists n, pending_blocks s' = drop n (pending_blocks s) /\ interfered o (ledger s) (ledger s') /\
     (r = Ok false -> (length (pending_blocks s') < length (pending_blocks s))%nat)) \/
  (exists n s1, interfered o (ledger s) (ledger s1) /\
     check_block_subdag (view ops s1) new (drop n (pending_blocks s)) = pass new /\
     chain_from (ledger_height ops s1 + 1) (drop n (pending_blocks s) ++ [new]) /\
     pending_blocks s1 = drop n (pending_blocks s) ++ [new] /\ try_commit ops o w s1 = (r, s')).
Proof.
  intros Hadv Hfew Hch H. unfold try_sync_storage_with_block in H. unfold sbind at 1, sget at 1 in H.
  match type of H with match _ with Some _ => _ | None => ?g end s = _ => set (go := g) in * end.
  assert ((exists n, pending_blocks s' = drop n (pending_blocks s) /\ interfered o (ledger s) (ledger s') /\
      (r = Ok false -> (length (pending_blocks s') < length (pending_blocks s))%nat)) \/ go s = (r, s')) as [?|Hgo];
    [|by left|].
  { destruct (last (pending_blocks s)) as [tail|]; [|by right].
    case_decide; [injection H as <- <-; left; exists 0%nat; split_and!; [done|apply rtc_refl|done]|].
    case_decide; [injection H as <- <-; left; exists 0%nat; split_and!; [done|apply rtc_refl|done]|]. by right. }
  clear H. unfold go in Hgo. clear go. unfold sbind at 1, interfere at 1, smodify at 1 in Hgo.
  unfold sbind at 1, sget at 1 in Hgo. set (s1 := set_ledger (o 0%nat (ledger s)) s) in *.
  unfold sbind at 1, smodify at 1 in Hgo. cbn [pending_blocks set_ledger] in Hgo.
  change (pending_blocks s1) with (pending_blocks s) in *.
  destruct (remove_obsolete_drop (ledger_height ops s1) (pending_blocks s)) as [n Hn].
  set (bl := remove_obsolete (ledger_height ops s1) (pending_blocks s)) in *.
  unfold sbind at 1, interfere at 1, smodify at 1 in Hgo. unfold sbind at 1, sget at 1 in Hgo.
  set (s2 := set_ledger (o 1%nat (ledger (set_pending_blocks bl s1))) (set_pending_blocks bl s1)) in *.
  assert (is_chain bl) as Hbl by (rewrite Hn; by apply is_chain_drop).
  assert ((length bl <= length (pending_blocks s))%nat) as Hlen by (rewrite Hn, length_drop; lia).
  assert (forall s3, s' = s3 -> interfered o (ledger s) (ledger s3) -> pending_blocks s3 = bl -> r <> Ok false ->
    exists n, pending_blocks s' = drop n (pending_blocks s) /\ interfered o (ledger s) (ledger s') /\
     (r = Ok false -> (length (pending_blocks s') < length (pending_blocks s))%nat)) as Hstop.
  { intros s3 -> ? Hs3 Hr. exists n. by rewrite Hs3, Hn. }
  pose proof (ledger_heights (ledger s2)) as Hu. unfold few_blocks in Hfew.
  destruct (check_block_subdag (view ops s2) new bl) as [[e|b]|e|e|] eqn:Ec;
    [|right|injection Hgo as <- <-; left; apply (Hstop s2); cbn; by auto..].
  - left. destruct e; try (injection Hgo as <- <-; apply (Hstop s2); cbn; by auto).
    unfold sbind at 1, slift at 1 in Hgo. destruct (bl !! index) as [p|] eqn:Ep; cbn [ok_or] in Hgo;
      [|injection Hgo as <- <-; apply (Hstop s2); cbn; by auto].
    injection Hgo as <- <-. cbn. destruct (remove_obsolete_drop (height p) bl) as [m Hm].
    exists (n + m)%nat. split_and!; [by rewrite Hm, Hn, drop_drop|auto|]. intros _.
    pose proof (remove_obsolete_shrinks bl index p Hbl Ep). lia.
  - pose proof Ec as Hc. apply check_pass_chain in Hc as [-> Hc]; [|unfold view; mlia|unfold view; mlia].
    unfold sbind at 1, smodify at 1 in Hgo. rewrite Hn in Ec, Hc.
    eexists n, _. split_and!; [| | | |exact Hgo]; [cbn; auto|exact Ec|exact Hc|cbn; by rewrite Hn].
Qed.

(** What a try leaves of the blocks that wait. *)
Lemma try_sync_blocks o new w (s : Sync) r s' :
  (forall i, advances (o i)) -> few_blocks s -> is_chain (pending_blocks s) ->
  try_sync_storage_with_block ops o new w s = (r, s') ->
  (exists n, pending_blocks s' = drop n (pending_blocks s) /\
     (r = Ok false -> (length (pending_blocks s') < length (pending_blocks s))%nat)) \/
  (exists n k, is_chain (drop n (pending_blocks s) ++ [new]) /\ (k <= length (drop n (pending_blocks s)))%nat /\
     pending_blocks s' = drop k (drop n (pending_blocks s) ++ [new])).
Proof.
  intros Hadv Hfew Hch H. apply try_sync_inv in H as [(n & ? & _ & ?)|(n & s1 & _ & _ & Hc & Hs1 & H)]; [left; by exists n| |done..].
  right. exists n. eapply try_commit_inv in H as [[Hs' _]|(i & b & k & L & s2 & Hi & _ & Hk & _ & _ & _ & Hs2 & H)];
    [..|apply Hadv|exact Hs1|exact Hc|pose proof (ledger_heights (ledger s1)); unfold ledger_height, view; lia].
  - exists 0%nat. split_and!; [by eapply chain_from_is_chain|lia|done].
  - exists k. rewrite length_app in Hi. cbn in Hi. split_and!; [by eapply chain_from_is_chain|lia|].
    pose proof (commit_blocks_same w (take k (drop n (pending_blocks s) ++ [new])) s2) as Hc2.
    rewrite H in Hc2. unfold same_blocks in Hc2. cbn in Hc2. by rewrite Hc2.
Qed.

(** ** Processing a block ends *)

Create HintDb live.

Lemma live_bind {A D} (m : result A) (f : A -> result D) :
  m <> Deadlock -> (forall a, f a <> Deadlock) -> m ≫= f <> Deadlock.
Proof. destruct m; cbn; auto. Qed.

Lemma live_foldM {A D} (f : D -> A -> result D) b l :
  (forall b x, f b x <> Deadlock) -> foldM f b l <> Deadlock.
Proof. intros H. revert b. induction l as [|x l IH]; intros b; cbn; [done|]. by apply live_bind. Qed.

Lemma live_cbind {A D} (m : checked A) (k : A -> checked D) :
  m <> Deadlock -> (forall a, k a <> Deadlock) -> cbind m k <> Deadlock.
Proof. intros Hm Hk. apply live_bind; [done|]. intros [e|a]; [done|apply Hk]. Qed.

Lemma live_other {A} (r : result A) : r <> Deadlock -> other r <> Deadlock.
Proof. by destruct r. Qed.

Lemma live_or_bail {A} msg (r : result A) : r <> Deadlock -> Storage.or_bail msg r <> Deadlock.
Proof. by destruct r. Qed.

Lemma live_ok_or {A} msg (o : option A) : ok_or msg o <> Deadlock.
Proof. by destruct o. Qed.

Lemma live_unwrap {A} msg (o : option A) : unwrap msg o <> Deadlock.
Proof. by destruct o. Qed.

Lemma live_ensure b msg : ensure b msg <> Deadlock.
Proof. by destruct b. Qed.

#[local] Hint Resolve live_ok_or live_unwrap live_ensure : live.

(** The queries and updates of the ledger return. *)
Record ledger_returns : Prop := {
  lr_hash st h : contains_block_hash (ledger_view ops st) h <> Deadlock;
  lr_certificate st id : contains_block_for_certificate (ledger_view ops st) id <> Deadlock;
  lr_committee st r : get_committee_for_round (ledger_view ops st) r <> Deadlock;
  lr_lookback st r : Ledger.get_committee_lookback_for_round (ledger_service ops st) r <> Deadlock;
  lr_verify st b : verify_content ops (ledger_view ops st) b <> Deadlock;
  lr_advance st b : ledger_advance ops st b <> Deadlock;
  lr_leader r : hash_round_to_u64 r <> Deadlock;
}.

Ltac live tac :=
  repeat match goal with
  | |- Ok _ <> Deadlock => discriminate
  | |- Err _ <> Deadlock => discriminate
  | |- Panic _ <> Deadlock => discriminate
  | |- _ ≫= _ <> Deadlock => apply live_bind; [|intros ?]
  | |- foldM _ _ _ <> Deadlock => apply live_foldM; intros ? ?
  | |- cbind _ _ <> Deadlock => apply live_cbind; [|intros ?]
  | |- other _ <> Deadlock => apply live_other
  | |- Storage.or_bail _ _ <> Deadlock => apply live_or_bail
  | |- (if ?b then _ else _) <> Deadlock => destruct b
  | |- (match ?x with _ => _ end) <> Deadlock => destruct x
  | _ => solve [auto with live]
  | _ => tac
  end.

Section Ends.
Hypothesis R : ledger_returns.

Lemma live_get_leader com r : get_leader com r <> Deadlock.
Proof. unfold get_leader. live ltac:(idtac; apply (lr_leader R)). Qed.
#[local] Hint Resolve live_get_leader : live.

Lemma live_check_prefix st i h prefix : check_prefix (ledger_view ops st) i h prefix <> Deadlock.
Proof.
  revert i h. induction prefix as [|b prefix IH]; intros i h; cbn [check_prefix]; [done|].
  unfold reject. live ltac:(idtac; first [apply (lr_hash R)|apply IH]).
Qed.

Lemma live_check_block_subdag st b prefix : check_block_subdag (ledger_view ops st) b prefix <> Deadlock.
Proof.
  unfold check_block_subdag, check_block_subdag_inner, check_block_subdag_quorum, check_block_subdag_atomicity,
    check_block_subdag_leaves, check_previous_leader, check_leaf, check_quorum, is_linked, traverse_round,
    Subdag.leader_certificate, get_committee_lookback_for_round, reject, pass.
  live ltac:(idtac; first [apply live_check_prefix|apply (lr_hash R)|apply (lr_committee R)|apply (lr_certificate R)]).
Qed.

Lemma live_find_commit_height st blocks n : find_commit_height (ledger_service ops st) blocks n <> Deadlock.
Proof.
  induction n as [|n IH]; cbn [find_commit_height]; [done|].
  unfold is_block_availability_threshold_reached, leader_of, Subdag.leader_certificate.
  live ltac:(idtac; first [apply IH|apply (lr_lookback R)]).
Qed.

Lemma live_check_block_content st b : check_block_content (verify_content ops) (ledger_view ops st) b <> Deadlock.
Proof.
  unfold check_block_content, check_block_content_inner, reject, pass. live ltac:(idtac; apply (lr_verify R)).
Qed.

(** A stateful computation that returns. *)
Definition ends {A} (m : SM Sync A) : Prop := forall s, (m s).1 <> Deadlock.

Lemma sync_ends_lift {A} (r : result A) : r <> Deadlock -> ends (slift r).
Proof. by intros Hr s. Qed.
Lemma sync_ends_bind {A D} (m : SM Sync A) (f : A -> SM Sync D) : ends m -> (forall a, ends (f a)) -> ends (sbind m f).
Proof. intros Hm Hf s. unfold sbind. specialize (Hm s). destruct (m s) as [[a| | |] s']; try done. apply Hf. Qed.
Lemma ends_for {A} (f : A -> SM Sync unit) l : (forall x, ends (f x)) -> ends (sfor f l).
Proof.
  intros Hf. unfold sfor. generalize tt at 1. induction l as [|x l IH]; intros u; [done|].
  cbn [sfold]. by apply sync_ends_bind.
Qed.

Ltac ends tac :=
  repeat match goal with
  | |- ends (sret _) => done
  | |- ends sget => done
  | |- ends (smodify _) => done
  | |- ends (interfere _) => done
  | |- ends (on_callback _) => done
  | |- ends (on_storage (fun _ => (Ok _, _))) => done
  | |- ends (slift (Ok _)) => done
  | |- ends (slift (Err _)) => done
  | |- ends (slift (Panic _)) => done
  | |- ends (slift (ensure _ _)) => apply sync_ends_lift, live_ensure
  | |- ends (slift (ok_or _ _)) => apply sync_ends_lift, live_ok_or
  | |- ends (sfor _ _) => apply ends_for; intros ?
  | |- ends (sbind _ _) => apply sync_ends_bind; [|intros ?]
  | _ => tac
  | |- ends (let _ := _ in _) => cbv zeta
  | |- ends (if ?b then _ else _) => destruct b
  | |- ends (match ?x with _ => _ end) => destruct x eqn:?
  end.

Lemma ends_commit_blocks w bs : ends (commit_blocks ops w bs).
Proof.
  induction bs as [|b bs IH]; cbn [commit_blocks]; [done|].
  ends ltac:(idtac; match goal with
    | |- ends (commit_blocks _ _ _) => apply IH
    | |- ends (slift (ledger_advance _ _ _)) => apply sync_ends_lift, (lr_advance R)
    | H : check_block_content _ _ _ = Deadlock |- _ => by apply live_check_block_content in H
    end).
Qed.

Lemma ends_try o new w : ends (try_sync_storage_with_block ops o new w).
Proof.
  unfold try_sync_storage_with_block, try_commit.
  ends ltac:(idtac; match goal with
    | |- ends (commit_blocks _ _ _) => apply ends_commit_blocks
    | |- ends (slift (find_commit_height _ _ _)) => apply sync_ends_lift, live_find_commit_height
    | H : check_block_subdag _ _ _ = Deadlock |- _ => by apply live_check_block_subdag in H
    end).
Qed.

(** *** Storing the certificates of a block *)

Context `{!StorageServiceLaws Svc}.

Lemma live_check_certificate L now (st : Storage.Storage Svc Cache) c ts ab :
  (forall r, Ledger.get_committee_lookback_for_round L r <> Deadlock) ->
  Storage.check_certificate L now st c ts ab <> Deadlock.
Proof.
  intros HL. unfold Storage.check_certificate, Storage.check_batch_header, Storage.check_previous, check_timestamp_for_liveness.
  live ltac:(idtac; first [apply HL|apply svc_find_returns]).
Qed.

(** What passes the check can be stored. *)
Lemma live_insert_certificate L now (st : Storage.Storage Svc Cache) c ts ab :
  (forall r, Ledger.get_committee_lookback_for_round L r <> Deadlock) ->
  (Storage.insert_certificate L now st c ts ab).1 <> Deadlock.
Proof.
  intros HL. pose proof (live_check_certificate L now st c ts ab HL) as Hlive. unfold Storage.insert_certificate, ensure.
  case_bool_decide; [|done]. cbn. destruct (Storage.check_certificate L now st c ts ab) as [missing| | |] eqn:Ec; try done.
  assert (svc_find_missing (Storage.transmissions st) (batch_header c) ts ab = Ok missing) as Hm.
  { unfold Storage.check_certificate, Storage.check_batch_header in Ec.
    destruct (Storage.contains_batch st _); simp_ok. done. }
  unfold Storage.insert_certificate_atomic.
  destruct (svc_insert_find _ _ _ _ _ (cert_id c) Hm) as (svc & Hi & _). unfold transmission_ids. by rewrite Hi.
Qed.

Lemma live_sync_certificate L now (st : Storage.Storage Svc Cache) b c unconfirmed :
  (forall r, Ledger.get_committee_lookback_for_round L r <> Deadlock) ->
  (Storage.sync_certificate_with_block L now st b c unconfirmed).1 <> Deadlock.
Proof.
  intros HL. unfold Storage.sync_certificate_with_block. case_decide; [done|].
  destruct (Storage.contains_certificate st _); [done|].
  assert (foldM (Storage.sync_transmission L st b unconfirmed) (∅, ∅) (transmission_ids c) <> Deadlock) as Hf.
  { unfold Storage.sync_transmission. live ltac:(idtac; fail). }
  destruct (foldM _ _ _) as [[missing ab]| | |]; try done. by apply live_insert_certificate.
Qed.

Lemma ends_on_storage {A} f : (forall st, (f st).1 <> Deadlock) -> ends (on_storage (A := A) f).
Proof. intros Hf s. unfold on_storage. specialize (Hf (storage s)). by destruct (f (storage s)). Qed.

Lemma ends_add_block_subdag now block : ends (add_block_subdag_to_bft ops now block).
Proof.
  unfold add_block_subdag_to_bft, sync_certificates.
  ends ltac:(idtac; match goal with
    | |- ends (on_storage _) => apply ends_on_storage; intros ?; apply live_sync_certificate; intros ?; apply (lr_lookback R)
    end).
Qed.

(** A block that waits already is not processed again. *)
Lemma try_sync_again o new w (s : Sync) l :
  pending_blocks s = l ++ [new] -> try_sync_storage_with_block ops o new w s = (Ok true, s).
Proof.
  intros Hs. unfold try_sync_storage_with_block, sbind at 1, sget at 1. rewrite Hs, last_snoc.
  by rewrite decide_True by lia.
Qed.

Lemma retry_chain fuel o new w (s : Sync) :
  (forall i j, advances (o i j)) -> few_blocks s -> is_chain (pending_blocks s) ->
  (length (pending_blocks s) + 2 <= fuel)%nat ->
  (retry ops fuel o new w s).1 <> Deadlock /\ is_chain (pending_blocks (retry ops fuel o new w s).2).
Proof.
  revert o s. induction fuel as [|fuel IH]; intros o s Hadv Hfew Hch Hfuel; [lia|]. cbn [retry].
  pose proof (ends_try (o 0%nat) new w s) as Hlive. unfold sbind at 1 2.
  destruct (try_sync_storage_with_block ops (o 0%nat) new w s) as [r s'] eqn:E. cbn in Hlive.
  pose proof E as Hb. apply try_sync_blocks in Hb; [|apply Hadv|done|done].
  assert (is_chain (pending_blocks s')) as Hch'.
  { destruct Hb as [(n & -> & _)|(n & k & Hc & _ & ->)]; by apply is_chain_drop. }
  destruct r as [[]|e|e|]; try done. destruct Hb as [(n & Hn & Hlt)|(n & k & Hc & Hk & Hs')].
  - specialize (Hlt eq_refl). apply IH; [intros; apply Hadv| |done|lia].
    unfold few_blocks, len in *. lia.
  - rewrite drop_app_last in Hs' by done. destruct fuel as [|fuel]; [lia|]. cbn [retry].
    unfold sbind. by rewrite (try_sync_again _ _ _ _ _ Hs').
Qed.

(** C13: processing a block from a peer ends.  Let the queries and updates of the
    ledger return.  Whatever other tasks add to the ledger meanwhile,
    [sync_storage_with_block] stores the certificates of a block within the
    garbage-collection range, retries at most once per block that waits and then
    returns, and it leaves the blocks that wait a chain of consecutive heights. *)
Theorem sync_block_returns (now : Z) (o : nat -> nat -> St -> St) (new : Block) (w : bool) (s : Sync) :
  (forall i j, advances (o i j)) -> few_blocks s -> is_chain (pending_blocks s) ->
  (sync_storage_with_block ops now o new w s).1 <> Deadlock /\
  is_chain (pending_blocks (sync_storage_with_block ops now o new w s).2).
Proof.
  intros Hadv Hfew Hch. destruct (sync_storage_with_block ops now o new w s) as [r s'] eqn:E.
  unfold sync_storage_with_block in E. unfold sbind at 1, sget at 1 in E.
  destruct (ledger_contains_height ops (ledger s) (height new)); [by injection E as <- <-|].
  assert (forall s1, pending_blocks s1 = pending_blocks s ->
    retry ops (S (S (length (pending_blocks s1)))) o new w s1 = (r, s') -> r <> Deadlock /\ is_chain (pending_blocks s'))
    as Hretry.
  { intros s1 Hs1 Hr. pose proof (retry_chain (S (S (length (pending_blocks s1)))) o new w s1) as H.
    rewrite Hr in H. apply H; [done|unfold few_blocks; by rewrite Hs1|by rewrite Hs1|lia]. }
  destruct w; [|by apply (Hretry s)]. pose proof (ends_add_block_subdag now new s) as Hadd.
  pose proof (add_block_subdag_same now new s) as Hsame. unfold same_blocks in Hsame. unfold sbind at 1 in E.
  destruct (add_block_subdag_to_bft ops now new s) as [[u|e|e|] s1]; cbn in Hsame, Hadd;
    [by apply (Hretry s1)|injection E as <- <-; split; [done|cbn; by rewrite Hsame]..].
Qed.

End Ends.

(** ** Which blocks enter the ledger *)

(** The ledger grows by the blocks of a list, each of which passes the check of
    its contents. *)
Inductive added : St -> list Block -> St -> Prop :=
| added_nil st : added st [] st
| added_cons st b st1 bs st' :
    check_block_content (verify_content ops) (ledger_view ops st) b = pass b ->
    ledger_advance ops st b = Ok st1 -> added st1 bs st' -> added st (b :: bs) st'.

(** Certificates of the round after the leader of [v], in later blocks, refer
    to the leader, and their authors reach the availability threshold. *)
Definition vouched (L : LedgerService) (v : Block) (successors : list Block) : Prop :=
  exists leader com, leader_of v = Ok leader /\
    Ledger.get_committee_lookback_for_round L (round leader + 1) = Ok com /\
    is_availability_threshold_reached com (list_to_set (author <$>
      base.filter (fun c => cert_id leader ∈ previous_certificate_ids c)
        (successors ≫= certificates_in (round leader + 1)))) = true.

(** The blocks passed the check of their subdag. *)
Definition vetted (l : list Block) : Prop := forall b, b ∈ l ->
  exists st prefix, check_block_subdag (ledger_view ops st) b prefix = pass b.

Lemma threshold_vouched L v successors :
  is_block_availability_threshold_reached L v successors = Ok true -> vouched L v successors.
Proof.
  unfold is_block_availability_threshold_reached. intros H. apply bind_Ok in H as (leader & Hl & H).
  apply bind_Ok in H as (r & Hr & H). apply bind_Ok in H as (com & Hc & H). injection H as H.
  assert (r = round leader + 1) as ->.
  { unfold u64_checked_add in Hr. case_decide; cbn in Hr; congruence. }
  exists leader, com. done.
Qed.

Lemma check_block_content_same V b b' : check_block_content (verify_content ops) V b = pass b' -> b' = b.
Proof. unfold check_block_content. intros (u & _ & H)%cbind_pass. by injection H. Qed.

(** The committing loop adds the blocks before the first that fails. *)
Lemma commit_blocks_added w bs (s : Sync) r s' :
  commit_blocks ops w bs s = (r, s') -> exists now_in rest, bs = now_in ++ rest /\ added (ledger s) now_in (ledger s').
Proof.
  revert s. induction bs as [|b bs IH]; intros s H; cbn [commit_blocks] in H.
  { injection H as <- <-. exists [], []. split; [done|constructor]. }
  assert (forall s1 : Sync, s' = s1 -> ledger s1 = ledger s -> exists now_in rest, b :: bs = now_in ++ rest /\
    added (ledger s) now_in (ledger s')) as Hnone.
  { intros s1 -> ->. exists [], (b :: bs). split; [done|constructor]. }
  unfold sbind at 1, sget at 1 in H.
  destruct (check_block_content _ _ b) as [[e|b']|e|e|] eqn:Ec;
    [destruct e; injection H as <- <-; by apply (Hnone s)| |injection H as <- <-; by apply (Hnone s)..].
  pose proof (check_block_content_same _ _ _ Ec) as ->.
  unfold sbind at 1, slift at 1 in H.
  destruct (ledger_advance ops (ledger s) b) as [st|e|e|] eqn:Ea; try (injection H as <- <-; by apply (Hnone s)).
  assert (exists s2 : Sync, ledger s2 = st /\ commit_blocks ops w bs s2 = (r, s')) as (s2 & Hs2 & H2).
  { unfold sbind, smodify, on_storage in H. cbv beta iota in H.
    set (s1 := set_bft _ _) in H. assert (ledger s1 = st) as Hs1 by done.
    destruct w; [|by exists s1].
    assert (forall l u (s1 : Sync), ledger s1 = st -> exists s3,
      sfold (fun _ c => on_callback (Bft.commit_certificate_from_sync c)) u l s1 = (Ok u, s3) /\ ledger s3 = st) as Hfor.
    { clear. induction l as [|c l IH]; intros [] s1 Hs1; [by exists s1|]. cbn [sfold].
      unfold sbind, on_callback, smodify. apply IH. by destruct (sync_callback s1). }
    destruct (Hfor (block_certificates b) tt s1 Hs1) as (s3 & E3 & Hs3). unfold sfor in H. rewrite E3 in H. by exists s3. }
  destruct (IH s2 H2) as (now_in & rest & -> & Hadd). exists (b :: now_in), rest. split; [done|].
  econstructor; [exact Ec|exact Ea|by rewrite <-Hs2].
Qed.

(** The certificates that vouch for a block have a quorum themselves. *)
Lemma vetted_quorum l r c :
  vetted l -> c ∈ (l ≫= certificates_in r) -> exists st com,
    get_committee_lookback_for_round (ledger_view ops st) r = Ok (Some com) /\
    is_quorum_threshold_reached com (Storage.signers c) = true.
Proof.
  intros Hv Hc. apply list_elem_of_bind in Hc as (b & Hc & Hb). destruct (Hv b Hb) as (st & prefix & Hp).
  exists st. unfold check_block_subdag, check_block_subdag_inner in Hp.
  apply cbind_pass in Hp as (u & Hp & _). apply cbind_pass in Hp as (h & _ & Hp).
  apply cbind_pass in Hp as ([|] & _ & Hp); [done|]. case_decide; [done|].
  apply cbind_pass in Hp as ([] & Hq & _). apply (proj1 (other_pass _ _)) in Hq.
  unfold check_block_subdag_quorum in Hq.
  unfold certificates_in in Hc. destruct (authority b) as [|m]; [by apply elem_of_nil in Hc|].
  destruct (m !! r) as [cs|] eqn:Em; [|by apply elem_of_nil in Hc]. cbn in Hc.
  pose proof (proj1 (foldM_tt _ _) Hq (r, cs) ltac:(by apply elem_of_btree_iter)) as Hr. cbn [fst snd] in Hr.
  clear Hq. rename Hr into Hq.
  apply bind_Ok in Hq as (o & Ho & Hq). apply bind_Ok in Hq as (com & Hcom & Hq).
  apply (proj1 (foldM_tt _ _)) with (x := c) in Hq; [|done]. unfold check_quorum in Hq. apply ensure_Ok in Hq.
  exists com. split; [|done]. destruct o; [|done]. injection Hcom as ->.
  by destruct (get_committee_lookback_for_round (ledger_view ops st) r); cbn in Ho; congruence.
Qed.

(** C12: a validator adds a block it synced only when later blocks vouch for it.
    What one try does to the ledger, besides what other tasks do to it, is to add
    the blocks [bs], each after the check of its contents.  They are the first of
    the chain of waiting blocks, up to a block [v] at most; certificates of the
    waiting blocks after [v], from the round after its leader, refer to the
    leader of [v], their authors reach the availability threshold of the
    committee, and each of these certificates has a quorum of signatures. *)
Theorem synced_blocks_vouched (o : nat -> St -> St) (new : Block) (w : bool) (s : Sync) r s' :
  (forall i, advances (o i)) -> few_blocks s -> is_chain (pending_blocks s) -> vetted (pending_blocks s) ->
  try_sync_storage_with_block ops o new w s = (r, s') ->
  vetted (pending_blocks s') /\
  exists st bs, interfered o (ledger s) st /\ added st bs (ledger s') /\
    (bs = [] \/ exists n blocks index v st1,
       blocks = drop n (pending_blocks s) ++ [new] /\ blocks !! index = Some v /\
       bs `prefix_of` take (S index) blocks /\
       interfered o (ledger s) st1 /\ interfered o st1 st /\
       vouched (ledger_service ops st1) v (drop (S index) blocks) /\
       forall r c, c ∈ (drop (S index) blocks ≫= certificates_in r) -> exists st com,
         get_committee_lookback_for_round (ledger_view ops st) r = Ok (Some com) /\
         is_quorum_threshold_reached com (Storage.signers c) = true).
Proof.
  intros Hadv Hfew Hch Hvet H. assert (forall n, vetted (drop n (pending_blocks s))) as Hdrop.
  { intros n b Hb. apply Hvet. by eapply (list_elem_of_drop_1 n). }
  apply try_sync_inv in H as [(n & -> & Ho & _)|(n & s1 & Ho & Hp & Hc & Hs1 & H)]; [|..|done|done|done].
  { split; [done|]. exists (ledger s'), []. split_and!; [done|constructor|by left]. }
  set (blocks := drop n (pending_blocks s) ++ [new]) in *.
  assert (vetted blocks) as Hb.
  { intros b [?|Hb]%elem_of_app; [by eapply Hdrop|]. apply list_elem_of_singleton in Hb as ->. unfold view in Hp. eauto. }
  assert (forall k, vetted (drop k blocks)) as Hbdrop.
  { intros k b ?. apply Hb. by eapply (list_elem_of_drop_1 k). }
  eapply try_commit_inv in H as [(-> & _ & Ho')|(i & v & k & st1 & s2 & Hi & Hv & Hk & Ho1 & Ho2 & Hreach & Hs2 & H)];
    [..|apply Hadv|exact Hs1|exact Hc|pose proof (ledger_heights (ledger s1)); unfold ledger_height, view; lia].
  { split; [done|]. exists (ledger s'), []. split_and!; [by etrans|constructor|by left]. }
  split.
  { pose proof (commit_blocks_same w (take k blocks) s2) as Hc2.
    rewrite H in Hc2. unfold same_blocks in Hc2. cbn in Hc2. rewrite Hc2, Hs2. apply Hbdrop. }
  apply commit_blocks_added in H as (bs & rest & Ht & Hadd). exists (ledger s2), bs.
  split_and!; [etrans; [exact Ho|by etrans]|done|]. right.
  exists n, blocks, i, v, st1. split_and!; [done|done| |by etrans|done|by apply threshold_vouched|].
  - trans (take k blocks); [rewrite Ht; by apply prefix_app_r|].
    rewrite <-(Nat.min_l k (S i)) by lia. rewrite <-take_take. apply prefix_take.
  - intros r' c Hc'. by eapply (vetted_quorum (drop (S i) blocks)).
Qed.

End Props.
End BftSyncProps.
