(* ===== verification/SyncRuns.v ===== *)
(** * Runs of the synchronization of a validator

    A chain of three blocks over certificates of six rounds, in which the second
    block does not vouch for the first.  The runs evaluate the code on it: how
    blocks wait and enter the ledger, and three runs in which the code does what
    it hardly means to. *)

From S2P Require Import Prelude Bytes Network Sockets Committee Narwhal Dfs Subdag Lru StorageService Ledger Storage Dag Bft.
From S2P Require Import StorageProps BftProps Pending Locators SyncState BlockSync BlockCheck BlockCheckProps.
From S2P Require Import BftSync BftSyncProps.
Import Locators SyncState.

(** ** Certificates of rounds 1 to 6 *)

Abbreviation Cert := (BatchCertificate (N := TestNetwork)).

Definition run_cert (a : ascii) (r t : Z) (prev : list Cert) : Cert :=
  sample_certificate a r t [] (map cert_id prev) ["b"; "d"]%char.
Definition cert_b1 := run_cert "b" 1 10 [].
Definition cert_d1 := run_cert "d" 1 11 [].
Definition cert_b2 := run_cert "b" 2 20 [cert_b1; cert_d1].
Definition cert_c2 := run_cert "c" 2 21 [cert_b1; cert_d1].
Definition cert_d2 := run_cert "d" 2 22 [cert_b1; cert_d1].
Definition cert_b3 := run_cert "b" 3 30 [cert_b2; cert_c2; cert_d2].
Definition cert_d3 := run_cert "d" 3 31 [cert_b2; cert_d2].
Definition cert_b4 := run_cert "b" 4 40 [cert_b3; cert_d3].
Definition cert_d4 := run_cert "d" 4 41 [cert_b3; cert_d3].
Definition cert_b5 := run_cert "b" 5 50 [cert_b4; cert_d4].
Definition cert_d5 := run_cert "d" 5 51 [cert_b4; cert_d4].
Definition cert_c6 := run_cert "c" 6 60 [cert_b5; cert_d5].

(** The blocks of the leaders of rounds 2, 4 and 6. *)
Definition run_block (h : Z) (x p : ascii) (r : Z) (m : list (Z * list Cert)) : sample_block :=
  mk_sample_block h x p r (Quorum (list_to_map m)).
Definition block1 := run_block 1 "1" "0" 2 [(1, [cert_b1; cert_d1]); (2, [cert_c2])].
Definition block2 := run_block 2 "2" "1" 4 [(2, [cert_b2; cert_d2]); (3, [cert_b3; cert_d3]); (4, [cert_d4])].
Definition block3 := run_block 3 "3" "2" 6 [(4, [cert_b4]); (5, [cert_b5; cert_d5]); (6, [cert_c6])].

#[export] Instance SampleSyncBlock : SyncBlock SampleBlocks := {|
  contents b := {| block_height := sb_height b; block_aborted_solution_ids := [];
                   block_aborted_transaction_ids := []; block_get_solution _ := None |};
  to_unconfirmed_transactions _ := [];
|}.

(** ** Ledgers *)

(** A ledger is its blocks, newest first, above the genesis block, of heights
    up to 2^31; [bad] are the heights whose contents are invalid, [lost] those that it cannot read. *)
Definition run_view (st : list sample_block) : LedgerView (B := SampleBlocks) := {|
  latest_block := match st with b :: _ => if bool_decide (0 <= sb_height b <= 2 ^ 31) then b else genesis | [] => genesis end;
  contains_block_hash h := Ok (existsb (fun b => bool_decide (sb_hash b = h)) (st ++ [genesis]));
  contains_block_for_certificate id := Ok (bool_decide (id ∈ BlockCheck.previous_certs st));
  get_committee_for_round _ := Ok (Some sample_committee);
|}.

Definition run_ops (bad lost : list Z) : SyncLedger (B := SampleBlocks) (list sample_block) := {|
  ledger_view := run_view;
  ledger_service _ := empty_ledger;
  ledger_contains_height st h := bool_decide (0 <= h <= len st);
  ledger_get_block st h :=
    if bool_decide (h ∈ lost) then Err "lost block" else
    ok_or "no block" (List.find (fun b => bool_decide (sb_height b = h)) (st ++ [genesis]));
  ledger_get_hash st h :=
    ok_or "no block" (sb_hash <$> List.find (fun b => bool_decide (sb_height b = h)) (st ++ [genesis]));
  ledger_begin_update _ := None;
  verify_content _ b := if bool_decide (height b ∈ bad) then BlockCheck.reject (OtherCheckError "invalid contents")
                        else BlockCheck.pass tt;
  ledger_advance st b := Ok (b :: st);
|}.

Abbreviation RunSync := (BftSync.Sync (B := SampleBlocks) (Memory.BFTMemoryService (N := TestNetwork))
  (ListLru.cache (Field (Network := TestNetwork)) Cert) (list sample_block) Z).

(** A peer sent the blocks up to 3. *)
Definition run_response (b : sample_block) : BlockSync.OutstandingRequest (B := SampleBlocks) :=
  BlockSync.mk_request (None, None) [] 0 (Some b).
Definition run_block_sync : BlockSync.BlockSync (B := SampleBlocks) :=
  BlockSync.set_requests {[1 := run_response block1; 2 := run_response block2; 3 := run_response block3]}
    (BlockSync.new_block_sync (mk_view 0 (fun h => bool_decide (h = 0)) (fun _ => Ok "0"%char)) 0).
Definition run_sync0 : RunSync := BftSync.new [] (Bft.new gc_storage) run_block_sync.

(** No other task interferes. *)
Definition quiet {S : Type} (_ : nat) (st : S) : S := st.

Definition after {A} (m : SM RunSync A) (s : RunSync) : RunSync := (m s).2.
Definition run_try (bad : list Z) (o : nat -> list sample_block -> list sample_block) (b : sample_block)
    : SM RunSync bool :=
  BftSync.try_sync_storage_with_block (C := Z) (run_ops bad []) o b false.

Definition run_sync2 : RunSync := after (run_try [] quiet block2) (after (run_try [] quiet block1) run_sync0).

(** What a run leaves: the heights of the blocks that wait, of the blocks of the
    ledger, and of the requests with a response; the height that
    [compute_sync_height] gives next; the mode. *)
Definition observe (s : RunSync) : list Z * list Z * list Z * result Z * option BftSyncMode :=
  (map sb_height (BftSync.pending_blocks s), map sb_height (BftSync.ledger s),
   base.filter (fun h => is_Some (BlockSync.peek_next_block (BftSync.block_sync s) h)) (seqZ 1 5),
   (BftSync.compute_sync_height (run_ops [] []) s).1,
   bft_sync_mode (BlockSync.sync_state (BftSync.block_sync s))).

Definition run_oracle : Oracle := {|
  iter_map := map_to_list; iter_set := elements; shuffle := id; sample n := take (Z.to_nat n);
|}.

(** ** Runs in which the code does what it hardly means to *)

(** While block 3 is processed, the consensus adds block 1 to the ledger just
    before the ledger update begins. *)
Definition consensus_adds (i j : nat) (st : list sample_block) : list sample_block :=
  if decide (i = O /\ j = 3)%nat then block1 :: st else st.

(** [commit_blocks] meets block 1, which is obsolete now, and asks for a retry;
    block 2 was drained with it and is lost: it is neither in the ledger nor
    waiting, the call returns [Ok], and synchronization continues above 3. *)
Theorem obsolete_block_drops_waiting :
  observe run_sync2 = ([1; 2], [], [1; 2; 3], Ok 2, Some Fast) /\
  (let '(r, s) := BftSync.sync_storage_with_block (C := Z) (run_ops [] []) 100 consensus_adds block3 false run_sync2 in
   (r, observe s)) = (Ok tt, ([3], [1], [1; 2; 3], Ok 3, Some Fast)).
Proof. split; vm_refl. Qed.

Definition run_advance (bad lost : list Z) : SM RunSync bool :=
  BftSync.try_advancing_block_synchronization_inner (C := Z) (run_ops bad lost) 100 run_oracle (fun _ _ => quiet).

(** The contents of block 2 are invalid, which shows when block 3 arrives.  The
    response that is removed is that of block 3, which waits; the response with
    the invalid block stays, and synchronization continues above 3. *)
Theorem invalid_block_keeps_response :
  (let '(r, s) := run_advance [2] [] run_sync0 in (r, observe s)) =
  (Err "Failed to check contents of pending block {hash} at height {height}",
   ([3], [1], [1; 2], Ok 3, Some DagMode)).
Proof. vm_refl. Qed.

(** The ledger cannot read its blocks, so the transition from fast
    synchronization fails.  The mode was changed before, so the next call takes
    the path through the DAG, and succeeds, though the transition still fails. *)
Theorem failed_transition_forgotten :
  let s := after (run_advance [] [0]) run_sync0 in
  (run_advance [] [0] run_sync0).1 = Err "lost block" /\
  (BftSync.sync_storage_with_ledger_at_bootup (C := Z) (run_ops [] [0]) 100 s).1 = Err "lost block" /\
  (let '(r, s) := run_advance [] [0] s in (r, observe s)) =
  (Ok true, ([3], [2; 1], [1; 2; 3], Ok 3, Some DagMode)).
Proof. split_and!; vm_refl. Qed.

(** ** The theorems on the runs *)

Lemma run_heights bad lost (st : list sample_block) :
  0 <= height (latest_block (ledger_view (run_ops bad lost) st)) <= 2 ^ 31.
Proof. destruct st as [|b st]; cbn; [lia|]. case_bool_decide; cbn; lia. Qed.

Lemma run_ledger_returns bad lost : BftSyncProps.ledger_returns (run_ops bad lost).
Proof.
  split; cbn; try done. intros st b. by case_bool_decide.
Qed.

Lemma run_sync2_blocks : BftSync.pending_blocks run_sync2 = [block1; block2].
Proof. vm_refl. Qed.

Lemma run_chain : BftSyncProps.is_chain (BftSync.pending_blocks run_sync2).
Proof. rewrite run_sync2_blocks. by vm_compute. Qed.

Lemma quiet_advances bad lost i : BftSyncProps.advances (run_ops bad lost) (quiet i).
Proof. intros st. unfold quiet. lia. Qed.

Lemma run_few : BftSyncProps.few_blocks run_sync2.
Proof. unfold BftSyncProps.few_blocks. rewrite run_sync2_blocks. unfold len. cbn. lia. Qed.

(** The blocks of the chain pass the check of their subdags on an empty ledger. *)
Lemma run_block1_passes : BlockCheck.check_block_subdag (run_view []) block1 [] = BlockCheck.pass block1.
Proof. vm_refl. Qed.
Lemma run_block2_passes : BlockCheck.check_block_subdag (run_view []) block2 [block1] = BlockCheck.pass block2.
Proof. vm_refl. Qed.

Lemma run_vetted : BftSyncProps.vetted (run_ops [] []) (BftSync.pending_blocks run_sync2).
Proof.
  rewrite run_sync2_blocks. intros b Hb. apply elem_of_cons in Hb as [->|Hb].
  { exists [], []. exact run_block1_passes. }
  apply list_elem_of_singleton in Hb as ->. exists [], [block1]. exact run_block2_passes.
Qed.

Lemma run_block3 : (run_try [] quiet block3 run_sync2).1 = Ok true.
Proof. vm_refl. Qed.
Lemma run_block3_ledger : BftSync.ledger (after (run_try [] quiet block3) run_sync2) = [block2; block1].
Proof. vm_refl. Qed.

(** Block 3 vouches for block 2, and both blocks that waited enter the ledger. *)
Lemma synced_blocks_vouched_witness :
  BftSync.ledger run_sync2 = [] /\
  BftSync.ledger (after (run_try [] quiet block3) run_sync2) = [block2; block1] /\
  BftSyncProps.vetted (run_ops [] []) (BftSync.pending_blocks (after (run_try [] quiet block3) run_sync2)) /\
  exists st bs, BftSyncProps.interfered quiet [] st /\ BftSyncProps.added (run_ops [] []) st bs [block2; block1].
Proof.
  assert (BftSync.ledger run_sync2 = []) as Hl by vm_refl. split; [exact Hl|]. split; [exact run_block3_ledger|].
  destruct (BftSyncProps.synced_blocks_vouched (C := Z) (run_ops [] []) (run_heights [] []) quiet block3 false run_sync2
    (Ok true) (after (run_try [] quiet block3) run_sync2)) as (Hv & st & bs & Ho & Ha & _);
    [intros; apply quiet_advances|exact run_few|exact run_chain|exact run_vetted|rewrite <-run_block3; apply surjective_pairing|].
  split; [exact Hv|]. exists st, bs. rewrite Hl in Ho. rewrite run_block3_ledger in Ha. split; [exact Ho|exact Ha].
Defined.

(** Block 3 is within the garbage-collection range: its certificates go to the
    storage and the DAG first. *)
Lemma sync_block_returns_witness :
  (BftSync.sync_storage_with_block (C := Z) (run_ops [] []) 100 (fun _ => quiet) block3 true run_sync2).1 <> Deadlock /\
  BftSyncProps.is_chain (BftSync.pending_blocks
    (BftSync.sync_storage_with_block (C := Z) (run_ops [] []) 100 (fun _ => quiet) block3 true run_sync2).2).
Proof.
  apply BftSyncProps.sync_block_returns;
    [apply run_heights|apply run_ledger_returns|apply _|intros; apply quiet_advances|exact run_few|exact run_chain].
Defined.
