(* ===== verification/Mempool.v ===== *)
(** * The queues of the memory pool

    [TransactionsQueue], [TransactionsQueueInner] and [PriorityQueue] of
    node/consensus/src/transactions_queue.rs: the transactions that wait until
    the workers have room, those with a priority fee by fee and order of
    arrival, the others in an LRU cache.

    The abstract pool is two lists.  The operations are shown to implement it,
    and its size to stay below twice the capacity, which is also reached. *)

From S2P Require Import Prelude Bytes Network Sockets Committee Narwhal Lru StorageService Ledger Storage Proposal Ready Pending Worker.

(** [Transaction::priority_fee_amount] (snarkVM/ledger/block). *)
Class FeeOps `{N : Network} := {
  priority_fee_amount : Transaction -> result Z;
}.

Definition CAPACITY_FOR_DEPLOYMENTS : Z := Z.shiftl 1 10.
Definition CAPACITY_FOR_EXECUTIONS : Z := Z.shiftl 1 10.
Definition CAPACITY_FOR_SOLUTIONS : Z := Z.shiftl 1 10.

Module Mempool.
Section Mempool.
Context `{N : Network} {TO : TransmissionOps}.
Context {Queue : Type} `{!LruQueueOps Queue TransactionID Transaction}.

(** ** The priority queue *)

(** The order of the keys [(Reverse(fee), counter)]. *)
Definition key_before (a b : Z * Z) : bool :=
  bool_decide (b.1 < a.1) || bool_decide (a.1 = b.1) && bool_decide (a.2 < b.2).

(** [BTreeMap::insert], on the entries in order. *)
Fixpoint btree_insert (k : Z * Z) (id : TransactionID) (l : list (Z * Z * TransactionID)) : list (Z * Z * TransactionID) :=
  match l with
  | [] => [(k, id)]
  | e :: l' =>
      if key_before k e.1 then (k, id) :: l
      else if bool_decide (k = e.1) then (k, id) :: l'
      else e :: btree_insert k id l'
  end.

Record PriorityQueue := mk_priority_queue {
  counter : Z;
  transaction_ids : list (Z * Z * TransactionID);
  transactions : gmap TransactionID Transaction;
}.

Definition empty_priority_queue : PriorityQueue := mk_priority_queue 0 [] ∅.

(** [PriorityQueue::len]. *)
Definition priority_len (q : PriorityQueue) : Z := Z.of_nat (size (transactions q)).

(** [PriorityQueue::insert]. *)
Definition priority_insert (q : PriorityQueue) (id : TransactionID) (tx : Transaction) (fee : Z) : PriorityQueue :=
  match transactions q !! id with
  | Some _ => q
  | None => mk_priority_queue (u64_wrap (counter q + 1)) (btree_insert (fee, counter q) id (transaction_ids q))
              (<[id := tx]> (transactions q))
  end.

(** [PriorityQueue::compare_insert]. *)
Definition compare_insert (q : PriorityQueue) (id : TransactionID) (tx : Transaction) (fee : Z) : PriorityQueue :=
  match last (transaction_ids q) with
  | None => q
  | Some (lowest_fee, _, lowest) =>
      if decide (fee < lowest_fee) then q else
      priority_insert (mk_priority_queue (counter q) (removelast (transaction_ids q)) (delete lowest (transactions q)))
        id tx fee
  end.

(** [PriorityQueue::pop]. *)
Definition priority_pop (q : PriorityQueue) : option (TransactionID * Transaction) * PriorityQueue :=
  match transaction_ids q with
  | [] => (None, q)
  | (_, id) :: l =>
      ((fun tx => (id, tx)) <$> transactions q !! id,
       mk_priority_queue (counter q) l (delete id (transactions q)))
  end.

(** ** The queue of one kind of transactions *)

Record TransactionsQueueInner := mk_inner {
  capacity : Z;
  queue : Queue;
  priority_queue : PriorityQueue;
}.

Definition set_queue (c : Queue) (q : TransactionsQueueInner) : TransactionsQueueInner :=
  mk_inner (capacity q) c (priority_queue q).
Definition set_priority (p : PriorityQueue) (q : TransactionsQueueInner) : TransactionsQueueInner :=
  mk_inner (capacity q) (queue q) p.

(** [TransactionsQueueInner::new], [len] and [contains]. *)
Definition new_inner (capacity : Z) : TransactionsQueueInner := mk_inner capacity (lq_new capacity) empty_priority_queue.
Definition inner_len (q : TransactionsQueueInner) : Z :=
  u64_saturating_add (lq_len (queue q)) (priority_len (priority_queue q)).
Definition inner_contains (q : TransactionsQueueInner) (id : TransactionID) : bool :=
  lq_contains (queue q) id || bool_decide (is_Some (transactions (priority_queue q) !! id)).

(** [TransactionsQueueInner::insert]. *)
Definition inner_insert (q : TransactionsQueueInner) (id : TransactionID) (tx : Transaction) (fee : Z)
    : result TransactionsQueueInner :=
  let low := set_queue (lq_get_or_insert (queue q) id tx) q in
  let high := fun q => set_priority (priority_insert (priority_queue q) id tx fee) q in
  if decide (inner_len q < capacity q) then Ok (if decide (fee = 0) then low else high q) else
  if decide (priority_len (priority_queue q) < capacity q) then
    Ok (if decide (fee = 0) then low else high (set_queue (lq_pop_lru (queue q)).2 q))
  else
    if decide (fee = 0) then Err "The memory pool is full"
    else Ok (set_priority (compare_insert (priority_queue q) id tx fee) q).

(** [TransactionsQueueInner::pop]. *)
Definition inner_pop (q : TransactionsQueueInner) : option (TransactionID * Transaction) * TransactionsQueueInner :=
  match priority_pop (priority_queue q) with
  | (Some r, p) => (Some r, set_priority p q)
  | (None, p) => let '(r, c) := lq_pop_lru (queue q) in (r, set_queue c (set_priority p q))
  end.

(** ** The queues of deployments and executions *)

Record TransactionsQueue := mk_transactions_queue {
  deployments : TransactionsQueueInner;
  executions : TransactionsQueueInner;
}.

(** [TransactionsQueue::default], [contains] and [insert]. *)
Definition default_queue : TransactionsQueue :=
  mk_transactions_queue (new_inner CAPACITY_FOR_DEPLOYMENTS) (new_inner CAPACITY_FOR_EXECUTIONS).
Definition contains (q : TransactionsQueue) (id : TransactionID) : bool :=
  inner_contains (executions q) id || inner_contains (deployments q) id.
Definition insert (q : TransactionsQueue) (id : TransactionID) (tx : Transaction) (fee : Z) : result TransactionsQueue :=
  if is_execute tx
  then e ← inner_insert (executions q) id tx fee; Ok (mk_transactions_queue (deployments q) e)
  else d ← inner_insert (deployments q) id tx fee; Ok (mk_transactions_queue d (executions q)).

(** [TransactionsQueue::transactions]; the order of a [HashMap] is not
    specified. *)
Definition all_transactions (q : TransactionsQueue) : list (TransactionID * Transaction) :=
  map_to_list (transactions (priority_queue (deployments q))) ++ lq_into_iter (queue (deployments q)) ++
  map_to_list (transactions (priority_queue (executions q))) ++ lq_into_iter (queue (executions q)).

(** ** The abstract priority queue *)

(** Its entries by falling fee, those of the same fee in order of arrival. *)
Abbreviation entry := (Z * (TransactionID * Transaction))%type.

(** A new entry goes behind those with at least its fee. *)
Definition spec_insert (id : TransactionID) (tx : Transaction) (fee : Z) (l : list entry) : list entry :=
  if bool_decide (id ∈ l.*2.*1) then l else
  base.filter (fun e => fee <= e.1) l ++ (fee, (id, tx)) :: base.filter (fun e => e.1 < fee) l.

(** A full queue gives up its last entry, unless that pays more. *)
Definition spec_compare_insert (id : TransactionID) (tx : Transaction) (fee : Z) (l : list entry) : list entry :=
  match last l with
  | None => l
  | Some e => if decide (fee < e.1) then l else spec_insert id tx fee (removelast l)
  end.

(** The entries of a queue. *)
Definition entries (q : PriorityQueue) : list entry :=
  omap (fun e => (fun tx => (e.1.1, (e.2, tx))) <$> transactions q !! e.2) (transaction_ids q).

(** The two maps agree, and the counter has not been used yet. *)
Record priority_wf (q : PriorityQueue) : Prop := {
  pw_sorted : StronglySorted (fun a b => key_before a b) (transaction_ids q).*1;
  pw_counters k : k ∈ (transaction_ids q).*1 -> k.2 < counter q;
  pw_distinct : NoDup (transaction_ids q).*2;
  pw_domain id : id ∈ (transaction_ids q).*2 <-> is_Some (transactions q !! id);
}.

(** *** Lists of keys *)

Lemma key_before_new fee n e : e.2 < n -> key_before (fee, n) e = bool_decide (e.1 < fee).
Proof. intros He. unfold key_before. cbn. repeat case_bool_decide; cbn; done || lia. Qed.

Lemma key_before_fee a b : key_before a b -> b.1 <= a.1.
Proof. unfold key_before. intros H. repeat case_bool_decide; cbn in H; done || lia. Qed.

(** A new key, with the highest counter, goes behind the keys of its fee. *)
Lemma btree_insert_new fee n id l :
  StronglySorted (fun a b => key_before a b) l.*1 -> (forall k, k ∈ l.*1 -> k.2 < n) ->
  btree_insert (fee, n) id l = base.filter (fun e => fee <= e.1.1) l ++ ((fee, n), id) :: base.filter (fun e => e.1.1 < fee) l.
Proof.
  induction l as [|e l IH]; intros Hs Hn; [done|]. cbn [btree_insert].
  rewrite key_before_new by (apply Hn; left). apply StronglySorted_inv in Hs as [Hs Hall].
  rewrite !filter_cons. case_bool_decide as He.
  - rewrite (decide_False (P := fee <= e.1.1)), (decide_True (P := e.1.1 < fee)) by lia.
    assert (forall x, x ∈ l -> x.1.1 < fee) as Hl.
    { intros x Hx. rewrite Forall_forall in Hall. specialize (Hall x.1 ltac:(by apply list_elem_of_fmap_2)).
      apply key_before_fee in Hall. lia. }
    rewrite filter_none_in, filter_all_in; [done|done|]. intros x Hx. specialize (Hl x Hx). lia.
  - rewrite bool_decide_eq_false_2.
    2:{ intros Hk. specialize (Hn e.1 ltac:(left)). rewrite <-Hk in Hn. cbn in Hn. lia. }
    rewrite (decide_True (P := fee <= e.1.1)), (decide_False (P := e.1.1 < fee)) by lia. cbn. f_equal.
    apply IH; [done|]. intros k Hk. apply Hn. by right.
Qed.

Lemma btree_insert_perm fee n id l :
  StronglySorted (fun a b => key_before a b) l.*1 -> (forall k, k ∈ l.*1 -> k.2 < n) ->
  btree_insert (fee, n) id l ≡ₚ ((fee, n), id) :: l.
Proof.
  intros Hs Hn. rewrite btree_insert_new by done. rewrite <-Permutation_middle. f_equiv.
  rewrite Permutation_app_comm, (list_filter_iff (fun e => fee <= e.1.1) (fun e => ~ e.1.1 < fee)) by (intros; lia).
  apply (filter_app_complement (fun e : Z * Z * TransactionID => e.1.1 < fee)).
Qed.

Lemma key_before_trans a b c : key_before a b -> key_before b c -> key_before a c.
Proof. unfold key_before. intros H1 H2. repeat case_bool_decide; cbn in *; done || lia. Qed.

Lemma btree_insert_sorted fee n id l :
  StronglySorted (fun a b => key_before a b) l.*1 -> (forall k, k ∈ l.*1 -> k.2 < n) ->
  StronglySorted (fun a b => key_before a b) (btree_insert (fee, n) id l).*1.
Proof.
  induction l as [|e l IH]; intros Hs Hn; [by repeat constructor|]. pose proof (Hn e.1 ltac:(left)) as He.
  pose proof Hs as Hs'. apply StronglySorted_inv in Hs' as [Hl Hall]. cbn [btree_insert].
  destruct (key_before (fee, n) e.1) eqn:E.
  { cbn. constructor; [done|]. constructor; [by rewrite E|]. eapply Forall_impl; [exact Hall|]. intros k Hk.
    eapply key_before_trans; [|exact Hk]. by rewrite E. }
  rewrite bool_decide_eq_false_2 by (intros Hk; rewrite <-Hk in He; cbn in He; lia). cbn.
  assert (forall k, k ∈ l.*1 -> k.2 < n) as Hn' by (intros; apply Hn; by right).
  constructor; [by apply IH|]. rewrite btree_insert_perm by done. cbn. constructor; [|done].
  rewrite key_before_new in E by done. apply bool_decide_eq_false in E. unfold key_before. cbn.
  repeat case_bool_decide; cbn; done || lia.
Qed.

(** *** The priority queue implements the abstract one *)

Lemma entries_ids q : priority_wf q -> (entries q).*2.*1 = (transaction_ids q).*2.
Proof.
  intros W. unfold entries. pose proof (pw_domain q W) as Hd.
  induction (transaction_ids q) as [|e l IH]; [done|]. cbn.
  assert (forall l : list (Z * Z * TransactionID), (forall id, id ∈ l.*2 -> is_Some (transactions q !! id)) ->
    (omap (fun e => (fun tx => (e.1.1, (e.2, tx))) <$> transactions q !! e.2) l).*2.*1 = l.*2) as H.
  { clear. induction l as [|e l IH]; intros Hd; [done|]. cbn. destruct (Hd e.2 ltac:(left)) as [tx Htx].
    rewrite Htx. cbn. rewrite IH; [done|]. intros. apply Hd. by right. }
  apply (H (e :: l)). intros id. apply Hd.
Qed.

Lemma entries_mem q id : priority_wf q -> id ∈ (entries q).*2.*1 <-> is_Some (transactions q !! id).
Proof. intros W. by rewrite entries_ids, pw_domain. Qed.

(** Replacing the transaction of an ID that is not listed changes nothing. *)
Lemma entries_ext (l : list (Z * Z * TransactionID)) (m m' : gmap TransactionID Transaction) :
  (forall id, id ∈ l.*2 -> m !! id = m' !! id) ->
  omap (fun e => (fun tx => (e.1.1, (e.2, tx))) <$> m !! e.2) l =
  omap (fun e => (fun tx => (e.1.1, (e.2, tx))) <$> m' !! e.2) l.
Proof. intros H. apply omap_ext_in. intros e He. by rewrite H by (by apply list_elem_of_fmap_2). Qed.

Lemma priority_insert_refines q id tx fee :
  priority_wf q -> entries (priority_insert q id tx fee) = spec_insert id tx fee (entries q).
Proof.
  intros W. unfold priority_insert, spec_insert. destruct (transactions q !! id) as [tx0|] eqn:E.
  { rewrite bool_decide_eq_true_2; [done|]. apply entries_mem; [done|]. by rewrite E. }
  rewrite bool_decide_eq_false_2 by (rewrite entries_mem by done; rewrite E; by intros []).
  unfold entries at 1. cbn. rewrite btree_insert_new by apply W. rewrite omap_app. cbn.
  rewrite lookup_insert_eq. cbn.
  assert (forall e, e ∈ transaction_ids q -> e.2 <> id) as Hne.
  { intros e He Hid. apply (list_elem_of_fmap_2 snd) in He. apply pw_domain in He as [? He]; [|done]. rewrite Hid in He; congruence. }
  assert (forall P (HP : forall e, Decision (P e)), omap (fun e => (fun tx0 => (e.1.1, (e.2, tx0))) <$> <[id := tx]> (transactions q) !! e.2)
    (base.filter P (transaction_ids q)) = omap (fun e => (fun tx0 => (e.1.1, (e.2, tx0))) <$> transactions q !! e.2)
    (base.filter P (transaction_ids q))) as Hext.
  { intros P HP. apply omap_ext_in. intros e [_ He]%list_elem_of_filter. rewrite lookup_insert_ne; [done|].
    intros Hid. by apply (Hne e). }
  rewrite !Hext. f_equal; [|f_equal]; apply omap_filter; intros e y Hy;
    destruct (transactions q !! e.2); cbn in Hy; by simplify_eq.
Qed.

Lemma priority_insert_wf q id tx fee :
  priority_wf q -> counter q < u64_max -> 0 <= counter q -> priority_wf (priority_insert q id tx fee).
Proof.
  intros W Hmax H0. unfold priority_insert. destruct (transactions q !! id) as [tx0|] eqn:E; [done|].
  pose proof (btree_insert_perm fee (counter q) id (transaction_ids q) (pw_sorted q W) (pw_counters q W)) as Hp.
  assert (u64_wrap (counter q + 1) = counter q + 1) as Hw by (apply u64_wrap_id; mlia).
  split; cbn; rewrite ?Hw.
  - apply btree_insert_sorted; apply W.
  - intros k Hk. rewrite Hp in Hk. cbn in Hk. apply elem_of_cons in Hk as [->|Hk]; cbn; [lia|].
    pose proof (pw_counters q W k Hk). lia.
  - rewrite Hp. cbn. apply NoDup_cons. split; [|apply W]. intros [? Hd]%pw_domain; [congruence|done].
  - intros id'. rewrite Hp. cbn. rewrite elem_of_cons, pw_domain by done. rewrite lookup_insert.
    case_decide; subst; [split; [by eexists|by left]|]. naive_solver.
Qed.

(** Taking the first or the last entry out. *)
Lemma priority_drop_wf q l e l' :
  priority_wf q -> transaction_ids q = l ++ e :: l' ->
  priority_wf (mk_priority_queue (counter q) (l ++ l') (delete e.2 (transactions q))) /\
  exists tx, transactions q !! e.2 = Some tx /\
    entries (mk_priority_queue (counter q) (l ++ l') (delete e.2 (transactions q))) =
      omap (fun e => (fun tx => (e.1.1, (e.2, tx))) <$> transactions q !! e.2) (l ++ l') /\
    entries q = omap (fun e => (fun tx => (e.1.1, (e.2, tx))) <$> transactions q !! e.2) l ++
      (e.1.1, (e.2, tx)) :: omap (fun e => (fun tx => (e.1.1, (e.2, tx))) <$> transactions q !! e.2) l'.
Proof.
  intros W E. destruct W as [Hs Hc Hd Hdom]. rewrite E in Hs, Hc, Hd. setoid_rewrite E in Hdom.
  rewrite fmap_app in Hs. setoid_rewrite fmap_app in Hc. rewrite fmap_app in Hd. setoid_rewrite fmap_app in Hdom.
  cbn in Hs, Hc, Hd, Hdom.
  assert (e.2 ∉ (l ++ l').*2) as Hout.
  { rewrite fmap_app. rewrite <-Permutation_middle in Hd. by apply NoDup_cons in Hd as [? _]. }
  split; [split; cbn|].
  - rewrite fmap_app. clear -Hs. induction (l.*1) as [|a r IH]; cbn in *; apply StronglySorted_inv in Hs as [Hs Ha]; [done|].
    constructor; [by apply IH|]. rewrite Forall_app, Forall_cons in *. naive_solver.
  - intros k Hk. apply Hc. rewrite fmap_app in Hk. set_solver.
  - rewrite fmap_app. rewrite <-Permutation_middle in Hd. by apply NoDup_cons in Hd as [_ ?].
  - intros id. rewrite lookup_delete. case_decide as Hid.
    + subst id. split; [done|by intros []].
    + rewrite <-Hdom, fmap_app, !elem_of_app, elem_of_cons. naive_solver.
  - destruct (proj1 (Hdom e.2)) as [tx Htx]; [set_solver|]. exists tx. split_and!; [done| |].
    + unfold entries. cbn. apply entries_ext. intros id Hid. rewrite lookup_delete_ne; [done|]. by intros <-.
    + unfold entries. rewrite E, omap_app. cbn. by rewrite Htx.
Qed.

Lemma compare_insert_refines q id tx fee :
  priority_wf q -> entries (compare_insert q id tx fee) = spec_compare_insert id tx fee (entries q).
Proof.
  intros W. unfold compare_insert, spec_compare_insert.
  destruct (transaction_ids q) as [|[[lowest n] lid] l _] eqn:E using rev_ind.
  { cbn [last]. unfold entries. by rewrite !E. }
  rewrite last_snoc, removelast_snoc. destruct (priority_drop_wf q l (lowest, n, lid) [] W E) as (W' & tx0 & _ & H1 & H2).
  rewrite app_nil_r in W', H1. rewrite H2. cbn. rewrite last_snoc. cbn. case_decide; [done|].
  rewrite priority_insert_refines by done. cbn [fst snd] in H1. by rewrite H1, removelast_snoc.
Qed.

Lemma compare_insert_wf q id tx fee :
  priority_wf q -> counter q < u64_max -> 0 <= counter q -> priority_wf (compare_insert q id tx fee).
Proof.
  intros W Hmax H0. unfold compare_insert. destruct (transaction_ids q) as [|[[lowest n] lid] l _] eqn:E using rev_ind; [done|].
  rewrite last_snoc, removelast_snoc. case_decide; [done|].
  destruct (priority_drop_wf q l (lowest, n, lid) [] W E) as [W' _]. rewrite app_nil_r in W'.
  by apply priority_insert_wf.
Qed.

Lemma priority_pop_refines q :
  priority_wf q -> (priority_pop q).1 = snd <$> head (entries q) /\ entries (priority_pop q).2 = tail (entries q) /\
  priority_wf (priority_pop q).2.
Proof.
  intros W. unfold priority_pop. destruct (transaction_ids q) as [|[[fee n] id] l] eqn:E.
  { cbn [fst snd]. unfold entries. by rewrite E. }
  destruct (priority_drop_wf q [] ((fee, n), id) l W E) as (W' & tx & Htx & H1 & H2). cbn [fst snd app] in *.
  by rewrite Htx, H1, H2.
Qed.

(** The size is the number of entries. *)
Lemma priority_len_entries q : priority_wf q -> priority_len q = len (entries q).
Proof.
  intros W. unfold priority_len, len. f_equal. rewrite <-(length_fmap snd), <-(length_fmap fst (entries q).*2), entries_ids by done.
  rewrite <-size_dom, <-(size_list_to_set (C := gset TransactionID)) by apply W. f_equal.
  apply set_eq. intros id. rewrite elem_of_dom, elem_of_list_to_set. symmetry. by apply pw_domain.
Qed.

(** ** The abstract pool *)

Context {LL : LruQueueLaws Queue TransactionID Transaction}.

(** The entries with a fee, and the others from the oldest to the newest. *)
Record pool := mk_pool { high : list entry; low : list (TransactionID * Transaction) }.

Definition pool_of (q : TransactionsQueueInner) : pool :=
  mk_pool (entries (priority_queue q)) (reverse (lq_entries (queue q))).

(** A transaction without a fee is put last; a full queue of such transactions
    drops the oldest one. *)
Definition spec_low (cap : Z) (id : TransactionID) (tx : Transaction) (l : list (TransactionID * Transaction)) :=
  match assoc id (reverse l) with
  | Some tx0 => drop_key id l ++ [(id, tx0)]
  | None => (if bool_decide (len l < cap) then l else tail l) ++ [(id, tx)]
  end.

Definition spec_pool_insert (cap : Z) (id : TransactionID) (tx : Transaction) (fee : Z) (p : pool) : option pool :=
  if decide (fee = 0) then
    if decide (len (high p) < cap) then Some (mk_pool (high p) (spec_low cap id tx (low p))) else
    if decide (len (low p) + len (high p) < cap) then Some (mk_pool (high p) (spec_low cap id tx (low p))) else None
  else if decide (len (low p) + len (high p) < cap) then Some (mk_pool (spec_insert id tx fee (high p)) (low p))
  else if decide (len (high p) < cap) then Some (mk_pool (spec_insert id tx fee (high p)) (tail (low p)))
  else Some (mk_pool (spec_compare_insert id tx fee (high p)) (low p)).

(** The first with a fee, then the oldest without. *)
Definition spec_pool_pop (p : pool) : option (TransactionID * Transaction) * pool :=
  match high p with
  | e :: l => (Some e.2, mk_pool l (low p))
  | [] => (head (low p), mk_pool [] (tail (low p)))
  end.

Record inner_wf (q : TransactionsQueueInner) : Prop := {
  iw_capacity : 1 <= capacity q <= 2 ^ 62;
  iw_cap : lq_cap (queue q) = capacity q;
  iw_priority : priority_wf (priority_queue q);
  iw_counter : 0 <= counter (priority_queue q) <= u64_max;
  iw_low_keys : NoDup (lq_entries (queue q)).*1;
  iw_low : len (lq_entries (queue q)) <= capacity q;
  iw_high : len (entries (priority_queue q)) <= capacity q;
  iw_total : len (lq_entries (queue q)) + len (entries (priority_queue q)) <= 2 * capacity q - 1;
}.

Lemma reverse_removelast {A} (l : list A) : reverse (removelast l) = tail (reverse l).
Proof. destruct l as [|y l _] using rev_ind; [done|]. by rewrite removelast_snoc, reverse_snoc. Qed.

Lemma inner_len_pool q : inner_wf q -> inner_len q = len (low (pool_of q)) + len (high (pool_of q)).
Proof.
  intros W. unfold inner_len, pool_of. cbn. rewrite lq_len_entries, priority_len_entries by apply W.
  pose proof (iw_capacity q W). pose proof (iw_total q W). unfold len in *. rewrite length_reverse. mlia.
Qed.

Lemma low_pool q : low (pool_of q) = reverse (lq_entries (queue q)).
Proof. done. Qed.
Lemma low_length q : len (low (pool_of q)) = len (lq_entries (queue q)).
Proof. unfold len. by rewrite low_pool, length_reverse. Qed.

Lemma get_or_insert_low (q : TransactionsQueueInner) id tx : inner_wf q ->
  reverse (lq_entries (lq_get_or_insert (queue q) id tx)) = spec_low (capacity q) id tx (reverse (lq_entries (queue q))).
Proof.
  intros W. destruct (lq_get_or_insert_entries (queue q) id tx) as [-> _]. unfold bump, spec_low.
  rewrite reverse_involutive, reverse_cons, iw_cap by done. destruct (assoc id (lq_entries (queue q))); cbn.
  - unfold drop_key. by rewrite filter_reverse.
  - f_equal. unfold len. rewrite length_reverse. case_bool_decide; [done|]. apply reverse_removelast.
Qed.

Lemma spec_insert_length id tx fee l : len l <= len (spec_insert id tx fee l) <= len l + 1.
Proof.
  unfold spec_insert. case_bool_decide; [lia|]. unfold len. rewrite length_app. cbn.
  pose proof (filter_app_complement (fun e : entry => fee <= e.1) l) as Hp%Permutation_length.
  rewrite length_app in Hp. rewrite (list_filter_iff (fun e : entry => e.1 < fee) (fun e => ~ fee <= e.1)) by (intros; lia). lia.
Qed.

Lemma spec_compare_length id tx fee l : len (spec_compare_insert id tx fee l) <= len l.
Proof.
  unfold spec_compare_insert. destruct (last l) as [e|] eqn:E; [|lia]. case_decide; [lia|].
  pose proof (spec_insert_length id tx fee (removelast l)). unfold len in *. rewrite length_removelast in *.
  destruct l; [done|]. cbn [length] in *. lia.
Qed.

Lemma bump_wf q id tx : inner_wf q -> len (entries (priority_queue q)) < capacity q ->
  inner_wf (set_queue (lq_get_or_insert (queue q) id tx) q).
Proof.
  intros W Hp. destruct (lq_get_or_insert_entries (queue q) id tx) as [He Hc].
  assert (len (lq_entries (lq_get_or_insert (queue q) id tx)) <= capacity q) as Hl.
  { rewrite He, (iw_cap q W). apply LruQueue.bump_length; apply W. }
  destruct W. split; cbn; try done; try lia; try congruence. rewrite He. by apply LruQueue.bump_keys.
Qed.

Lemma counter_pop q : counter (priority_pop q).2 = counter q.
Proof. unfold priority_pop. by destruct (transaction_ids q) as [|[]]. Qed.

(** What the operations need of the counter of the priority queue. *)
Definition counter_ok (q : TransactionsQueueInner) : Prop := counter (priority_queue q) < u64_max.

Lemma high_wf q (p : PriorityQueue) : inner_wf q -> priority_wf p -> 0 <= counter p <= u64_max ->
  len (entries p) <= capacity q -> len (lq_entries (queue q)) + len (entries p) <= 2 * capacity q - 1 ->
  inner_wf (set_priority p q).
Proof. intros [] ? ? ? ?. by split. Qed.

Lemma counter_insert q id tx fee : 0 <= counter q < u64_max -> 0 <= counter (priority_insert q id tx fee) <= u64_max.
Proof.
  intros Hc. unfold priority_insert. destruct (transactions q !! id); cbn; [lia|]. rewrite u64_wrap_id by mlia. lia.
Qed.

Lemma counter_compare q id tx fee : 0 <= counter q < u64_max -> 0 <= counter (compare_insert q id tx fee) <= u64_max.
Proof.
  intros Hc. unfold compare_insert. destruct (last (transaction_ids q)) as [[[fee0 n] lowest]|]; [|lia].
  case_decide; [lia|]. by apply counter_insert.
Qed.

Lemma insert_wf q id tx fee : inner_wf q -> counter_ok q ->
  (len (lq_entries (queue q)) + len (entries (priority_queue q)) < capacity q \/
   len (entries (priority_queue q)) < capacity q /\ len (lq_entries (queue q)) + len (entries (priority_queue q)) < 2 * capacity q - 1) ->
  inner_wf (set_priority (priority_insert (priority_queue q) id tx fee) q).
Proof.
  intros W Hc Hlen. pose proof (iw_counter q W). pose proof (iw_capacity q W). unfold counter_ok in Hc.
  pose proof (spec_insert_length id tx fee (entries (priority_queue q))) as Hs.
  rewrite <-priority_insert_refines in Hs by apply W. unfold len in *.
  apply high_wf; [done|apply priority_insert_wf; [apply W|lia..]|apply counter_insert; lia|unfold len; lia..].
Qed.

Lemma pop_low_wf q : inner_wf q -> inner_wf (set_queue (lq_pop_lru (queue q)).2 q).
Proof.
  intros W. destruct (lq_pop_lru_entries (queue q)) as (_ & He & Hc). destruct W.
  assert (len (removelast (lq_entries (queue q))) <= len (lq_entries (queue q))) by (unfold len; rewrite length_removelast; lia).
  split; cbn; try done; try (rewrite He; lia); try congruence. rewrite He, fmap_removelast. by apply NoDup_removelast.
Qed.

Lemma pool_insert_refines q id tx fee : inner_wf q -> counter_ok q ->
  match inner_insert q id tx fee with
  | Ok q' => spec_pool_insert (capacity q) id tx fee (pool_of q) = Some (pool_of q') /\ inner_wf q'
  | Err _ => spec_pool_insert (capacity q) id tx fee (pool_of q) = None
  | _ => False
  end.
Proof.
  intros W Hc.
  unfold inner_insert, spec_pool_insert. rewrite (inner_len_pool q W), priority_len_entries, !low_length by apply W.
  change (high (pool_of q)) with (entries (priority_queue q)).
  pose proof (iw_total q W). pose proof (iw_high q W). pose proof (iw_capacity q W).
  assert (0 <= len (lq_entries (queue q))) by (unfold len; lia).
  destruct (decide (fee = 0)) as [->|Hfee]; repeat case_decide; try lia; try done.
  - split; [|apply bump_wf; [done|lia]]. by rewrite low_pool, <-get_or_insert_low by done.
  - split; [|apply bump_wf; [done|lia]]. by rewrite low_pool, <-get_or_insert_low by done.
  - split; [|by apply insert_wf; [..|left]]. by rewrite <-priority_insert_refines by apply W.
  - pose proof (pop_low_wf q W) as W'. destruct (lq_pop_lru_entries (queue q)) as (_ & He & _).
    split.
    + rewrite <-priority_insert_refines by apply W. unfold pool_of. cbn. by rewrite He, reverse_removelast.
    + apply (insert_wf (set_queue (lq_pop_lru (queue q)).2 q)); [done|done|right]. cbn.
      rewrite He. unfold len in *. rewrite length_removelast. lia.
  - split; [by rewrite <-compare_insert_refines by apply W|].
    pose proof (spec_compare_length id tx fee (entries (priority_queue q))) as Hl.
    rewrite <-compare_insert_refines in Hl by apply W. pose proof (iw_counter q W).
    apply high_wf; [done|apply compare_insert_wf; [apply W|unfold counter_ok in Hc; lia..]| |lia|lia].
    apply counter_compare. unfold counter_ok in Hc. lia.
Qed.

Lemma pop_refines q : inner_wf q ->
  spec_pool_pop (pool_of q) = ((inner_pop q).1, pool_of (inner_pop q).2) /\ inner_wf (inner_pop q).2.
Proof.
  intros W.
  destruct (priority_pop_refines (priority_queue q)) as (H1 & H2 & H3); [apply W|].
  unfold inner_pop, spec_pool_pop. change (high (pool_of q)) with (entries (priority_queue q)).
  pose proof (counter_pop (priority_queue q)) as H4.
  destruct (priority_pop (priority_queue q)) as [r p] eqn:E. cbn [fst snd] in *.
  destruct (lq_pop_lru_entries (queue q)) as (Hp1 & Hp2 & _).
  assert (len (entries p) <= len (entries (priority_queue q))) as Hlen.
  { rewrite H2. unfold len. destruct (entries (priority_queue q)); cbn; lia. }
  assert (inner_wf (set_priority p q)) as W'.
  { pose proof (iw_high q W). pose proof (iw_total q W). pose proof (iw_counter q W). apply high_wf; try done; lia. }
  destruct (entries (priority_queue q)) as [|e l] eqn:Ee; cbn in H1; subst r.
  - pose proof (pop_low_wf _ W') as W2. cbn [queue set_priority] in W2.
    destruct (lq_pop_lru (queue q)) as [r c]. cbn [fst snd] in *. split; [|done].
    rewrite Hp1, low_pool, head_reverse. unfold pool_of. cbn. by rewrite H2, Hp2, reverse_removelast.
  - split; [unfold pool_of; cbn; by rewrite H2|done].
Qed.

(** The entries with a fee are in the order of their fees. *)
Lemma entries_sorted q : priority_wf q -> StronglySorted (fun a b => b <= a) (entries q).*1.
Proof.
  intros [Hs _ _ _]. unfold entries. induction (transaction_ids q) as [|e l IH]; [constructor|].
  apply StronglySorted_inv in Hs as [Hs Hall]. cbn. destruct (transactions q !! e.2) as [tx|]; cbn; [|by apply IH].
  constructor; [by apply IH|]. apply Forall_forall. intros fee (x & -> & Hx)%list_elem_of_fmap.
  apply list_elem_of_omap in Hx as (e' & He' & Htx). destruct (transactions q !! e'.2); cbn in Htx; simplify_eq.
  rewrite Forall_forall in Hall. apply (key_before_fee e.1 e'.1), Hall. by apply list_elem_of_fmap_2.
Qed.

(** C15: the queue of the memory pool is the abstract pool.  Inserting and
    popping do to its two maps, its counter and its LRU cache what they do to two
    lists: transactions with a fee by falling fee and in order of arrival, the
    others in order of arrival, and eviction of what pays least. *)
Theorem mempool_refines (q : TransactionsQueueInner) (id : TransactionID) (tx : Transaction) (fee : Z) :
  inner_wf q -> counter_ok q ->
  StronglySorted (fun a b => b <= a) (high (pool_of q)).*1 /\
  match inner_insert q id tx fee with
  | Ok q' => spec_pool_insert (capacity q) id tx fee (pool_of q) = Some (pool_of q') /\ inner_wf q'
  | Err _ => spec_pool_insert (capacity q) id tx fee (pool_of q) = None
  | _ => False
  end /\
  spec_pool_pop (pool_of q) = ((inner_pop q).1, pool_of (inner_pop q).2) /\ inner_wf (inner_pop q).2.
Proof.
  intros W Hc. split; [by apply entries_sorted, W|]. split.
  - pose proof (pool_insert_refines q id tx fee W Hc) as Hi. by destruct (inner_insert q id tx fee).
  - by apply pop_refines.
Qed.

(** ** Reachable pools *)

(** What happens to a queue of some capacity; the counter stays in range. *)
Inductive pool_reach (cap : Z) : TransactionsQueueInner -> Prop :=
| pr_new : pool_reach cap (new_inner cap)
| pr_insert q id tx fee q' :
    pool_reach cap q -> counter_ok q -> inner_insert q id tx fee = Ok q' -> pool_reach cap q'
| pr_pop q : pool_reach cap q -> pool_reach cap (inner_pop q).2.

Lemma capacity_insert q id tx fee q' : inner_insert q id tx fee = Ok q' -> capacity q' = capacity q.
Proof. unfold inner_insert. repeat case_decide; intros Hi; by simplify_eq/=. Qed.

Lemma capacity_pop q : capacity (inner_pop q).2 = capacity q.
Proof.
  unfold inner_pop. destruct (priority_pop (priority_queue q)) as [[r|] p]; [done|]. by destruct (lq_pop_lru (queue q)).
Qed.

Lemma new_inner_wf cap : 1 <= cap <= 2 ^ 62 -> inner_wf (new_inner cap).
Proof.
  intros Hc. assert (lq_entries (lq_new cap : Queue) = []) as He by apply lq_new_entries.
  assert (priority_wf empty_priority_queue) as Hp.
  { split; cbn; [constructor|intros k Hk; by apply elem_of_nil in Hk|constructor|].
    intros id. rewrite lookup_empty, elem_of_nil. split; [done|by intros []]. }
  split; cbn; rewrite ?He; try done; try (unfold len; cbn; mlia); [apply lq_new_cap|constructor].
Qed.

Lemma pool_reach_wf cap q : 1 <= cap <= 2 ^ 62 -> pool_reach cap q -> inner_wf q /\ capacity q = cap.
Proof.
  intros Hc. induction 1 as [|q id tx fee q' _ [W Hcap] Hok Hi|q _ [W Hcap]].
  - split; [by apply new_inner_wf|done].
  - pose proof (pool_insert_refines q id tx fee W Hok) as H'. rewrite Hi in H'.
    apply capacity_insert in Hi. split; [apply H'|congruence].
  - rewrite capacity_pop. split; [apply (pop_refines q W)|done].
Qed.

(** The memory pool is bounded.  However transactions arrive and leave, a
    queue of capacity [cap] holds at most [2 * cap - 1] transactions, at most
    [cap] of them with a fee and at most [cap] without. *)
Theorem pool_bounded (cap : Z) (q : TransactionsQueueInner) :
  1 <= cap <= 2 ^ 62 -> pool_reach cap q ->
  inner_len q <= 2 * cap - 1 /\ priority_len (priority_queue q) <= cap /\ lq_len (queue q) <= cap.
Proof.
  intros Hc Hr. destruct (pool_reach_wf cap q Hc Hr) as [W <-].
  rewrite (inner_len_pool q W), low_length, priority_len_entries, lq_len_entries by apply W.
  change (high (pool_of q)) with (entries (priority_queue q)). destruct W. split_and!; lia.
Qed.

End Mempool.
Arguments TransactionsQueueInner {_} _.
Arguments TransactionsQueue {_} _.
Arguments pool {_}.

(** ** Runs *)

Abbreviation SampleQueue := (ListLru.cache (TransactionID (Network := TestNetwork)) (Transaction (Network := TestNetwork))).
Abbreviation SampleInner := (TransactionsQueueInner (N := TestNetwork) SampleQueue).

(** Inserting transactions, each with its fee. *)
Definition insert_all (l : list (ascii * Z)) (q : SampleInner) : result SampleInner :=
  foldM (fun q x => inner_insert (N := TestNetwork) q x.1 x.1 x.2) q l.

Definition pool_ids (q : SampleInner) : list ascii * list ascii :=
  ((high (pool_of q)).*2.*1, (low (pool_of q)).*1).

Definition empty4 : SampleInner := new_inner 4.

(** The memory pool exceeds its capacity.  Three transactions with a fee and
    one without fill a queue of capacity 4; three more without a fee are all
    accepted, because the LRU cache that holds them has room for 4 of its own,
    and then one with a fee is accepted as well: the priority queue is full, and
    the other one, which the comment says must be empty then, holds three. *)
Theorem pool_exceeds_capacity :
  (q ← insert_all [("a", 5); ("b", 6); ("c", 5); ("d", 0)]%char empty4; Ok (inner_len q)) = Ok 4 /\
  (q ← insert_all [("a", 5); ("b", 6); ("c", 5); ("d", 0); ("e", 0); ("f", 0); ("g", 0); ("h", 7)]%char empty4;
   Ok (inner_len q, pool_ids q)) = Ok (7, (["h"; "b"; "a"; "c"]%char, ["e"; "f"; "g"]%char)).
Proof. split; vm_refl. Qed.

Definition sample_pool1 : SampleInner := default empty4 (ok (inner_insert (N := TestNetwork) empty4 "a"%char "a"%char 5)).
Definition sample_pool2 : SampleInner := default empty4 (ok (inner_insert (N := TestNetwork) sample_pool1 "d"%char "d"%char 0)).

Lemma sample_pool_reach : pool_reach (N := TestNetwork) 4 sample_pool2.
Proof.
  eapply (pr_insert 4 sample_pool1 "d"%char "d"%char 0); [|by vm_compute|vm_refl].
  eapply (pr_insert 4 empty4 "a"%char "a"%char 5); [apply pr_new|by vm_compute|vm_refl].
Qed.

Lemma pool_bounded_witness : pool_reach (N := TestNetwork) 4 sample_pool2 /\ inner_len sample_pool2 <= 7.
Proof. split; [exact sample_pool_reach|]. apply (pool_bounded 4); [lia|exact sample_pool_reach]. Defined.

(** Another transaction with a fee of 6 goes to the front. *)
Definition sample_pool3 : SampleInner := default empty4 (ok (inner_insert (N := TestNetwork) sample_pool2 "b"%char "b"%char 6)).
Lemma sample_insert3 : inner_insert (N := TestNetwork) sample_pool2 "b"%char "b"%char 6 = Ok sample_pool3.
Proof. vm_refl. Qed.

Lemma mempool_refines_witness :
  pool_ids sample_pool3 = (["b"; "a"], ["d"])%char /\
  spec_pool_insert (N := TestNetwork) 4 "b"%char "b"%char 6 (pool_of sample_pool2) = Some (pool_of sample_pool3).
Proof.
  split; [vm_refl|]. destruct (pool_reach_wf (N := TestNetwork) 4 sample_pool2) as [W Hc]; [lia|exact sample_pool_reach|].
  destruct (mempool_refines (N := TestNetwork) sample_pool2 "b"%char "b"%char 6 W ltac:(by vm_compute)) as (_ & H & _).
  rewrite Hc, sample_insert3 in H. exact (proj1 H).
Defined.

End Mempool.
