(* ===== verification/Consensus.v ===== *)
(** * Consensus

    [Consensus<N>] of node/consensus/src/lib.rs: the memory pool in front of the
    workers, which limits what reaches them, and the task that turns the subdags
    that the BFT commits into blocks of the ledger.

    The state holds the ledger, the primary with its workers, the queues of the
    memory pool and the caches of what was seen.  The primary answers at once.
    Messages for the log and the metrics are left out. *)

From S2P Require Import Prelude Bytes Network Sockets Committee Narwhal Dfs Subdag Lru StorageService Ledger Storage Dag Bft.
From S2P Require Import Proposal Ready Pending Worker Primary Locators SyncState BlockSync BlockCheck BftSync Mempool.
Import Locators SyncState.

(** [Network::MAX_SOLUTIONS] and [Primary::MAX_TRANSMISSIONS_TOLERANCE]. *)
Definition MAX_SOLUTIONS : Z := Z.shiftl 1 2.
Definition MAX_TRANSMISSIONS_TOLERANCE : Z := MAX_TRANSMISSIONS_PER_BATCH * 2.
Definition MAX_DEPLOYMENTS_PER_INTERVAL : Z := 1.

Module Consensus.
Import BlockCheck.

Section Consensus.
Context `{N : Network} {TO : TransmissionOps} {FO : FeeOps} {B : BlockData} {BA : BlockAuthority B}.
Context {Svc : Type} `{!StorageServiceOps Svc}.
Context {Cache : Type} `{!LruOps Cache Field BatchCertificate}.
Context {C X : Type} `{!PrimaryCallback (Storage.Storage Svc Cache) X}.
Context (sha256 : list Z -> list Z).
(** The caches of the memory pool. *)
Context {SQ TQ SeenS SeenT : Type} `{!LruQueueOps SQ SolutionID Solution} `{!LruQueueOps TQ TransactionID Transaction}.
Context `{!LruQueueOps SeenS SolutionID unit} `{!LruQueueOps SeenT TransactionID unit}.
(** The ledger; [prepare] is [prepare_advance_to_next_quorum_block]. *)
Context {St : Type} (ops : SyncLedger St).
Context (prepare : St -> commit_map -> list (TransmissionID * Transmission) -> checked Block).
Context (NUM_BLOCKS_PER_EPOCH : Z).

Abbreviation Primary := (Primary.Primary (Svc := Svc) (Cache := Cache) (C := C) (X := X)).

(** [notified] is the permit of [block_commit_notify], [locators] what the ping
    task was given last. *)
Record Consensus := mk_consensus {
  ledger : St;
  primary : Primary;
  solutions_queue : SQ;
  transactions_queue : Mempool.TransactionsQueue TQ;
  seen_solutions : SeenS;
  seen_transactions : SeenT;
  block_sync : BlockSync.BlockSync;
  locators : option BlockLocators;
  notified : bool;
}.

Definition set_ledger (st : St) (c : Consensus) : Consensus :=
  mk_consensus st (primary c) (solutions_queue c) (transactions_queue c) (seen_solutions c) (seen_transactions c)
    (block_sync c) (locators c) (notified c).
Definition set_primary (p : Primary) (c : Consensus) : Consensus :=
  mk_consensus (ledger c) p (solutions_queue c) (transactions_queue c) (seen_solutions c) (seen_transactions c)
    (block_sync c) (locators c) (notified c).
Definition set_solutions (q : SQ) (c : Consensus) : Consensus :=
  mk_consensus (ledger c) (primary c) q (transactions_queue c) (seen_solutions c) (seen_transactions c)
    (block_sync c) (locators c) (notified c).
Definition set_transactions (q : Mempool.TransactionsQueue TQ) (c : Consensus) : Consensus :=
  mk_consensus (ledger c) (primary c) (solutions_queue c) q (seen_solutions c) (seen_transactions c)
    (block_sync c) (locators c) (notified c).
Definition set_seen_solutions (q : SeenS) (c : Consensus) : Consensus :=
  mk_consensus (ledger c) (primary c) (solutions_queue c) (transactions_queue c) q (seen_transactions c)
    (block_sync c) (locators c) (notified c).
Definition set_seen_transactions (q : SeenT) (c : Consensus) : Consensus :=
  mk_consensus (ledger c) (primary c) (solutions_queue c) (transactions_queue c) (seen_solutions c) q
    (block_sync c) (locators c) (notified c).
Definition set_sync (bs : BlockSync.BlockSync) (l : option BlockLocators) (c : Consensus) : Consensus :=
  mk_consensus (ledger c) (primary c) (solutions_queue c) (transactions_queue c) (seen_solutions c)
    (seen_transactions c) bs l (notified c).
Definition notify (c : Consensus) : Consensus :=
  mk_consensus (ledger c) (primary c) (solutions_queue c) (transactions_queue c) (seen_solutions c)
    (seen_transactions c) (block_sync c) (locators c) true.

(** [Consensus::new], on a ledger and a primary. *)
Definition new (st : St) (p : Primary) (bs : BlockSync.BlockSync) : Consensus :=
  mk_consensus st p (lq_new CAPACITY_FOR_SOLUTIONS) Mempool.default_queue (lq_new (Z.shiftl 1 16)) (lq_new (Z.shiftl 1 16))
    bs None false.

(** The environment of the primary, with the ledger as it is. *)
Definition service (c : Consensus) : LedgerService := ledger_service ops (ledger c).
Definition env (E : Primary.Env) (c : Consensus) : Primary.Env :=
  Primary.mk_env (service c) (Primary.rules E) (Primary.gateway E) (Primary.is_synced E) (Primary.now E) (Primary.rng E)
    (Primary.fetch_transmission E) (Primary.fetch_certificate E).

(** [Consensus::contains_transaction]. *)
Definition contains_transaction (c : Consensus) (id : TransactionID) : bool :=
  Mempool.contains (transactions_queue c) id.

(** [Consensus::num_unconfirmed_transmissions] and
    [Consensus::num_unconfirmed_solutions]. *)
Definition num_unconfirmed_transmissions (c : Consensus) : Z :=
  sumZ ((fun w => Ready.num_transmissions (Worker.w_ready w)) <$> Primary.workers (primary c)).
Definition num_unconfirmed_solutions (c : Consensus) : Z :=
  sumZ ((fun w => Ready.num_solutions (Worker.w_ready w)) <$> Primary.workers (primary c)).

(** [Consensus::inbound_solutions], [inbound_transactions] and
    [inbound_transmissions]; the default of a checksum is a parameter. *)
Definition inbound_solutions (c : Consensus) : list (SolutionID * Data Solution) :=
  (fun e => (e.1, Object e.2)) <$> lq_into_iter (solutions_queue c).
Definition inbound_transactions (c : Consensus) : list (TransactionID * Data Transaction) :=
  (fun e => (e.1, Object e.2)) <$> Mempool.all_transactions (transactions_queue c).
Definition inbound_transmissions (no_checksum : TransmissionChecksum) (c : Consensus)
    : list (TransmissionID * Transmission) :=
  ((fun e => (IdTransaction e.1 (unwrap_or no_checksum (data_to_checksum write_transaction e.2)), TTransaction e.2))
     <$> inbound_transactions c) ++
  ((fun e => (IdSolution e.1 (unwrap_or no_checksum (data_to_checksum write_solution e.2)), TSolution e.2))
     <$> inbound_solutions c).

(** ** Towards the workers *)

(** [PrimarySender::send_unconfirmed_solution] and
    [send_unconfirmed_transaction], with the answer of the primary. *)
Definition on_primary (f : Primary -> result (option (result bool * list C)) * Primary) : SM Consensus (result bool) := fun c =>
  match f (primary c) with
  | (Ok (Some (r, _)), p) => (Ok r, set_primary p c)
  | (Ok None, p) => (Ok (Err "channel closed"), set_primary p c)
  | (Err msg, p) => (Ok (Err msg), set_primary p c)
  | (Panic msg, p) => (Panic msg, set_primary p c)
  | (Deadlock, p) => (Deadlock, set_primary p c)
  end.
Definition send_unconfirmed_solution (E : Primary.Env) (id : SolutionID) (solution : Data Solution)
    : SM Consensus (result bool) :=
  do c ⇐ sget; on_primary (Primary.on_unconfirmed_solution sha256 (env E c) id solution).
Definition send_unconfirmed_transaction (E : Primary.Env) (id : TransactionID) (transaction : Data Transaction)
    : SM Consensus (result bool) :=
  do c ⇐ sget; on_primary (Primary.on_unconfirmed_transaction sha256 (env E c) id transaction).

(** Up to [n] times [pop_lru]. *)
Fixpoint drain_solutions (n : nat) (q : SQ) : list Solution * SQ :=
  match n with
  | O => ([], q)
  | S n =>
      let '(r, q) := lq_pop_lru q in
      let '(l, q) := drain_solutions n q in
      (match r with Some (_, solution) => solution :: l | None => l end, q)
  end.

(** A loop that collects answers. *)
Fixpoint smap {A D} (f : A -> SM Consensus D) (l : list A) : SM Consensus (list D) :=
  match l with
  | [] => sret []
  | x :: l => do y ⇐ f x; do ys ⇐ smap f l; sret (y :: ys)
  end.

(** [Consensus::process_unconfirmed_solutions]: what was sent, with the answers. *)
Definition process_unconfirmed_solutions (E : Primary.Env) : SM Consensus (list (Solution * result bool)) :=
  do c ⇐ sget;
  let num_solutions := num_unconfirmed_solutions c in
  if decide (MAX_SOLUTIONS <= num_solutions \/ MAX_TRANSMISSIONS_TOLERANCE <= num_unconfirmed_transmissions c)
  then sret [] else
  let capacity := saturating_sub MAX_SOLUTIONS num_solutions in
  let '(solutions, q) := drain_solutions (Z.to_nat (Z.min (lq_len (solutions_queue c)) capacity)) (solutions_queue c) in
  do _ ⇐ smodify (set_solutions q);
  smap (fun solution =>
    do r ⇐ send_unconfirmed_solution E (solution_id solution) (Object solution); sret (solution, r)) solutions.

(** [Consensus::add_unconfirmed_solution]. *)
Definition add_unconfirmed_solution (E : Primary.Env) (solution : Solution) : SM Consensus (list (Solution * result bool)) :=
  do checksum ⇐ slift (data_to_checksum write_solution (Buffer (write_solution solution)));
  let id := solution_id solution in
  do seen ⇐ (fun c => let '(r, q) := lq_put (seen_solutions c) id tt in (Ok r, set_seen_solutions q c));
  if bool_decide (is_Some seen) then sret [] else
  do c ⇐ sget;
  do contained ⇐ slift (ledger_contains_transmission (service c) (IdSolution id checksum));
  if contained : bool then slift (Err "Solution '{}' exists in the ledger {}") else
  do old ⇐ (fun c => let '(r, q) := lq_put (solutions_queue c) id solution in (Ok r, set_solutions q c));
  if bool_decide (is_Some old) then slift (Err "Solution '{}' exists in the memory pool") else
  process_unconfirmed_solutions E.

(** [Itertools::interleave]. *)
Fixpoint interleave {A} (l1 l2 : list A) : list A :=
  match l1, l2 with
  | x :: l1, y :: l2 => x :: y :: interleave l1 l2
  | [], l => l
  | l, [] => l
  end.

(** The transactions that the selection of deployments ([true]) and executions
    takes from the queue. *)
Fixpoint drain_transactions (l : list bool) (q : Mempool.TransactionsQueue TQ)
    : list Transaction * Mempool.TransactionsQueue TQ :=
  match l with
  | [] => ([], q)
  | select_deployment :: l =>
      let '(r, q) := if select_deployment : bool
        then let '(r, d) := Mempool.inner_pop (Mempool.deployments q) in
             (r, Mempool.mk_transactions_queue d (Mempool.executions q))
        else let '(r, e) := Mempool.inner_pop (Mempool.executions q) in
             (r, Mempool.mk_transactions_queue (Mempool.deployments q) e) in
      let '(txs, q) := drain_transactions l q in
      (match r with Some (_, tx) => tx :: txs | None => txs end, q)
  end.

(** [Consensus::process_unconfirmed_transactions]. *)
Definition process_unconfirmed_transactions (E : Primary.Env) : SM Consensus (list (Transaction * result bool)) :=
  do c ⇐ sget;
  let num_transmissions := num_unconfirmed_transmissions c in
  if decide (MAX_TRANSMISSIONS_TOLERANCE <= num_transmissions) then sret [] else
  let capacity := saturating_sub MAX_TRANSMISSIONS_TOLERANCE num_transmissions in
  let q := transactions_queue c in
  let num_deployments :=
    Z.min (Z.min (Mempool.inner_len (Mempool.deployments q)) capacity) MAX_DEPLOYMENTS_PER_INTERVAL in
  let num_executions := Z.min (Mempool.inner_len (Mempool.executions q)) (saturating_sub capacity num_deployments) in
  let selector := interleave (replicate (Z.to_nat num_deployments) true) (replicate (Z.to_nat num_executions) false) in
  let '(txs, q) := drain_transactions selector q in
  do _ ⇐ smodify (set_transactions q);
  smap (fun tx =>
    do r ⇐ send_unconfirmed_transaction E (transaction_id tx) (Object tx); sret (tx, r)) txs.

(** [Consensus::add_unconfirmed_transaction]. *)
Definition add_unconfirmed_transaction (E : Primary.Env) (tx : Transaction) : SM Consensus (list (Transaction * result bool)) :=
  do checksum ⇐ slift (data_to_checksum write_transaction (Buffer (write_transaction tx)));
  let id := transaction_id tx in
  if is_fee tx then slift (Err "Transaction '{}' is a fee transaction {}") else
  do seen ⇐ (fun c => let '(r, q) := lq_put (seen_transactions c) id tt in (Ok r, set_seen_transactions q c));
  if bool_decide (is_Some seen) then sret [] else
  do c ⇐ sget;
  do contained ⇐ slift (ledger_contains_transmission (service c) (IdTransaction id checksum));
  if contained : bool then slift (Err "Transaction '{}' exists in the ledger {}") else
  if contains_transaction c id then slift (Err "Transaction '{}' exists in the memory pool") else
  do priority_fee ⇐ slift (priority_fee_amount tx);
  do q ⇐ slift (Mempool.insert (transactions_queue c) id tx priority_fee);
  do _ ⇐ smodify (set_transactions q);
  process_unconfirmed_transactions E.

(** ** Blocks *)

(** [Consensus::reinsert_transmission] and [reinsert_transmissions], with the
    answers. *)
Definition reinsert_transmission (E : Primary.Env) (i : TransmissionID) (t : Transmission) : SM Consensus (result bool) :=
  match i, t with
  | IdRatification, Ratification => sret (Ok true)
  | IdSolution id _, TSolution solution => send_unconfirmed_solution E id solution
  | IdTransaction id _, TTransaction transaction => send_unconfirmed_transaction E id transaction
  | _, _ => sret (Err "Mismatching `(transmission_id, transmission)` pair in consensus")
  end.
Definition reinsert_transmissions (E : Primary.Env) (l : list (TransmissionID * Transmission)) : SM Consensus (list (result bool)) :=
  smap (fun e => reinsert_transmission E e.1 e.2) l.

(** [LedgerUpdate::check_next_block]. *)
Definition ledger_check_next_block (V : LedgerView) (block : Block) : checked Block :=
  cbind (check_block_subdag V block []) (fun pending => check_block_content (verify_content ops) V pending).

(** [Consensus::try_advance_to_next_block], at time [now]. *)
Definition try_advance_to_next_block (now : Z) (subdag : commit_map) (transmissions : list (TransmissionID * Transmission))
    : SM Consensus bool :=
  do c ⇐ sget;
  match ledger_begin_update ops (ledger c) with
  | Some ShuttingDown => slift (Err "Node is shutting down.")
  | Some NotSupportedForProver => slift (Err "Not supported for prover.")
  | None =>
      do prepared ⇐ slift (prepare (ledger c) subdag transmissions);
      match prepared with
      | inl e => slift (Err (into_anyhow e))
      | inr block =>
          do checked ⇐ slift (ledger_check_next_block (ledger_view ops (ledger c)) block);
          match checked with
          | inl (BlockAlreadyExists | InvalidHeight | InvalidRound) => sret false
          | inl e => slift (Err (into_anyhow e))
          | inr block =>
              do st ⇐ slift (ledger_advance ops (ledger c) block);
              do _ ⇐ smodify (set_ledger st);
              do _ ⇐ (if decide (height block mod NUM_BLOCKS_PER_EPOCH = 0) then
                        smodify (fun c => set_primary (Primary.clear_worker_solutions (primary c))
                                            (set_solutions (lq_clear (solutions_queue c)) c))
                      else sret tt);
              do _ ⇐ smodify (fun c =>
                let new_locators := get_block_locators (height (latest_block (ledger_view ops st))) (ledger_get_hash ops st) in
                set_sync (BlockSync.set_sync_height now (height block) (block_sync c))
                  (match new_locators with Ok l => Some l | _ => locators c end) c);
              sret true
          end
      end
  end.

(** [Consensus::process_bft_subdag]: the result that is sent back. *)
Definition process_bft_subdag (E : Primary.Env) (subdag : commit_map) (transmissions : list (TransmissionID * Transmission))
    : SM Consensus (result bool) := fun c =>
  match try_advance_to_next_block (Primary.now E) subdag transmissions c with
  | (Ok true, c) => (Ok (Ok true), notify c)
  | (r, c) =>
      match reinsert_transmissions E transmissions c with
      | (Ok _, c) => (Ok r, c)
      | (Err msg, c) => (Err msg, c)
      | (Panic msg, c) => (Panic msg, c)
      | (Deadlock, c) => (Deadlock, c)
      end
  end.

(** What the BFT makes of the answer. *)
Definition reply_of (r : result bool) : Bft.reply :=
  match r with Ok _ => Bft.Advanced | _ => Bft.Refused end.

End Consensus.
End Consensus.
