(* ===== verification/ConsensusProps.v ===== *)
(** * Correctness of consensus

    What the memory pool sends to the workers, in which order and how much, and
    what becomes of a subdag that the BFT commits: a block, or its transmissions
    back in the workers. *)

From S2P Require Import Prelude Bytes Network Sockets Committee Narwhal Dfs Subdag Lru StorageService Ledger Storage Dag Bft.
From S2P Require Import Proposal Ready Pending Worker Primary Locators SyncState BlockSync BlockCheck BlockCheckProps BftSync Mempool Consensus.
Import Locators SyncState.

Module ConsensusProps.
Import BlockCheck BlockCheckProps Consensus.

(** ** The order of a queue *)

Section Order.
Context `{N : Network} {TQ : Type} `{!LruQueueOps TQ TransactionID Transaction}.
Context {LL : LruQueueLaws TQ TransactionID Transaction}.

(** The transactions of a queue in the order in which they leave it. *)
Definition leaving (q : Mempool.TransactionsQueueInner TQ) : list (TransactionID * Transaction) :=
  (Mempool.high (Mempool.pool_of q)).*2 ++ Mempool.low (Mempool.pool_of q).

#[local] Arguments leaving : simpl never.

Lemma pop_leaving q : Mempool.inner_wf q ->
  (Mempool.inner_pop q).1 = head (leaving q) /\ leaving (Mempool.inner_pop q).2 = tail (leaving q) /\
  Mempool.inner_wf (Mempool.inner_pop q).2.
Proof.
  intros W. destruct (Mempool.pop_refines q W) as [Hp W']. unfold leaving. split_and!; [| |done].
  all: unfold Mempool.spec_pool_pop in Hp; destruct (Mempool.high (Mempool.pool_of q)) as [|e l] eqn:E;
    apply pair_eq in Hp as [H1 H2]; rewrite <-?H1, <-?H2; done.
Qed.

Lemma inner_len_leaving q : Mempool.inner_wf q -> Mempool.inner_len q = len (leaving q).
Proof.
  intros W. rewrite Mempool.inner_len_pool by done. unfold leaving, len. rewrite length_app, length_fmap. lia.
Qed.

(** What a selection takes from two lists. *)
Fixpoint pick {A} (l : list bool) (ds es : list A) : list A :=
  match l with
  | [] => []
  | true :: l => match ds with x :: ds => x :: pick l ds es | [] => pick l [] es end
  | false :: l => match es with x :: es => x :: pick l ds es | [] => pick l ds [] end
  end.

Lemma pick_true {A} n (ds es : list A) : pick (replicate n true) ds es = take n ds.
Proof. revert ds. induction n as [|n IH]; intros [|x ds]; cbn; [done|done|by rewrite IH, take_nil|by rewrite IH]. Qed.

Lemma pick_false {A} n (ds es : list A) : pick (replicate n false) ds es = take n es.
Proof. revert es. induction n as [|n IH]; intros [|x es]; cbn; [done|done|by rewrite IH, take_nil|by rewrite IH]. Qed.

Lemma pick_interleave {A} n m (ds es : list A) :
  (n <= length ds)%nat -> (m <= length es)%nat ->
  pick (interleave (replicate n true) (replicate m false)) ds es = interleave (take n ds) (take m es).
Proof.
  revert m ds es. induction n as [|n IH]; intros m ds es Hn Hm; [cbn; by rewrite pick_false|].
  destruct ds as [|d ds]; [cbn in Hn; lia|]. destruct m as [|m].
  { change (interleave (replicate (S n) true) (replicate 0 false)) with (replicate (S n) true).
    rewrite pick_true, take_0. by destruct (take (S n) (d :: ds)). }
  destruct es as [|e es]; [cbn in Hm; lia|]. cbn in *. rewrite IH by lia. done.
Qed.

Lemma interleave_length {A} (l1 l2 : list A) : length (interleave l1 l2) = (length l1 + length l2)%nat.
Proof. revert l2. induction l1 as [|x l1 IH]; intros [|y l2]; cbn; [done|done|lia|]. rewrite IH. lia. Qed.

Lemma elem_of_interleave {A} (x : A) l1 l2 : x ∈ interleave l1 l2 <-> x ∈ l1 \/ x ∈ l2.
Proof.
  revert l2. induction l1 as [|y l1 IH]; intros [|z l2]; cbn; [set_solver..|]. rewrite !elem_of_cons, IH. tauto.
Qed.

Definition count_flag (b : bool) (l : list bool) : nat := length (List.filter (Bool.eqb b) l).

(** Draining takes the selection from the fronts of the queues. *)
Lemma drain_leaving l (q : Mempool.TransactionsQueue TQ) :
  Mempool.inner_wf (Mempool.deployments q) -> Mempool.inner_wf (Mempool.executions q) ->
  let '(txs, q') := drain_transactions l q in
  txs = (pick l (leaving (Mempool.deployments q)) (leaving (Mempool.executions q))).*2 /\
  leaving (Mempool.deployments q') = drop (count_flag true l) (leaving (Mempool.deployments q)) /\
  leaving (Mempool.executions q') = drop (count_flag false l) (leaving (Mempool.executions q)) /\
  Mempool.inner_wf (Mempool.deployments q') /\ Mempool.inner_wf (Mempool.executions q').
Proof.
  revert q. induction l as [|b l IH]; intros q Wd We; [by cbn|]. cbn [drain_transactions].
  destruct b.
  - destruct (pop_leaving _ Wd) as (H1 & H2 & H3).
    destruct (Mempool.inner_pop (Mempool.deployments q)) as [r d]. cbn [fst snd] in *.
    specialize (IH (Mempool.mk_transactions_queue d (Mempool.executions q)) H3 We).
    destruct (drain_transactions l _) as [txs q']. cbn [Mempool.deployments Mempool.executions] in IH.
    destruct IH as (-> & Hd & He & Wd' & We'). rewrite H2 in *. subst r.
    unfold count_flag in *. cbn. split_and!; try done;
      [destruct (leaving (Mempool.deployments q)) as [|[id tx] ds]; done|].
    rewrite Hd. destruct (leaving (Mempool.deployments q)); cbn; [by rewrite !drop_nil|done].
  - destruct (pop_leaving _ We) as (H1 & H2 & H3).
    destruct (Mempool.inner_pop (Mempool.executions q)) as [r e]. cbn [fst snd] in *.
    specialize (IH (Mempool.mk_transactions_queue (Mempool.deployments q) e) Wd H3).
    destruct (drain_transactions l _) as [txs q']. cbn [Mempool.deployments Mempool.executions] in IH.
    destruct IH as (-> & Hd & He & Wd' & We'). rewrite H2 in *. subst r.
    unfold count_flag in *. cbn. split_and!; try done;
      [destruct (leaving (Mempool.executions q)) as [|[id tx] ds]; done|].
    rewrite He. destruct (leaving (Mempool.executions q)); cbn; [by rewrite !drop_nil|done].
Qed.

Lemma count_interleave n m :
  count_flag true (interleave (replicate n true) (replicate m false)) = n /\
  count_flag false (interleave (replicate n true) (replicate m false)) = m.
Proof.
  unfold count_flag. revert m. induction n as [|n IH]; intros m.
  - cbn. induction m as [|m [IH1 IH2]]; [done|]. cbn. rewrite IH1. split; [done|lia].
  - destruct m as [|m].
    + specialize (IH 0%nat). change (interleave (replicate (S n) true) (replicate 0 false)) with (replicate (S n) true).
      clear IH. induction n as [|n [IH1 IH2]]; [done|]. cbn in *. rewrite IH2. split; [lia|done].
    + cbn. destruct (IH m) as [-> ->]. done.
Qed.
End Order.

(** ** Counting what the workers hold *)

Lemma sumZ_insert (l : list Z) i x y : l !! i = Some y -> sumZ (<[i := x]> l) = sumZ l - y + x.
Proof.
  revert i. induction l as [|z l IH]; intros [|i] Hi; [done|done|..].
  - change (sumZ (x :: l) = sumZ (z :: l) - y + x). injection Hi as <-. rewrite !sumZ_cons. lia.
  - change (sumZ (z :: <[i := x]> l) = sumZ (z :: l) - y + x). rewrite !sumZ_cons, (IH i Hi). lia.
Qed.

Section Workers.
Context `{N : Network} {TO : TransmissionOps}.
Context {Svc : Type} `{!StorageServiceOps Svc}.
Context {Cache : Type} `{!LruOps Cache Field BatchCertificate}.
Context {C X : Type} `{!PrimaryCallback (Storage.Storage Svc Cache) X}.
Context (sha256 : list Z -> list Z).

Abbreviation Worker := (Worker.Worker C).
Abbreviation Primary := (Primary.Primary (Svc := Svc) (Cache := Cache) (C := C) (X := X)).

(** A number that grows by at most one with an entry of the ready queue. *)
Definition grows_by_one (f : Ready.Ready -> Z) : Prop := forall r i t, f r <= f (Ready.insert r i t).2 <= f r + 1.

Lemma num_transmissions_grows : grows_by_one Ready.num_transmissions.
Proof.
  intros r i t. unfold Ready.insert, Ready.num_transmissions. destruct (Ready.transmission_ids r !! i); cbn; [lia|].
  rewrite len_app. unfold len. cbn. lia.
Qed.

Lemma num_solutions_grows : grows_by_one Ready.num_solutions.
Proof.
  intros r i t. unfold Ready.insert, Ready.num_solutions, Ready.count_ids, len.
  destruct (Ready.transmission_ids r !! i) eqn:E; cbn [snd Ready.transmission_ids]; [lia|].
  set (z := i64_wrap _).
  assert ((map_to_list (<[i := z]> (Ready.transmission_ids r))).*1 ≡ₚ i :: (map_to_list (Ready.transmission_ids r)).*1) as Hp.
  { by rewrite map_to_list_insert. }
  rewrite (Permutation_length (Ready.filter_bool_perm Ready.is_solution_id _ _ Hp)). cbn. destruct (Ready.is_solution_id i); cbn; lia.
Qed.

(** What the workers hold, summed up. *)
Definition held (f : Ready.Ready -> Z) (p : Primary) : Z :=
  sumZ ((fun w => f (Worker.w_ready w)) <$> Primary.workers p).

Lemma end_unconfirmed_grows f i t check (w : Worker) : grows_by_one f ->
  f (Worker.w_ready w) <= f (Worker.w_ready (Worker.end_unconfirmed i t check w).2) <= f (Worker.w_ready w) + 1.
Proof. intros Hf. destruct check; cbn; [apply Hf|lia..]. Qed.

Lemma process_solution_grows f L (s : Storage.Storage Svc Cache) b check id d (w : Worker) : grows_by_one f ->
  f (Worker.w_ready w) <= f (Worker.w_ready (Worker.process_unconfirmed_solution L s b check id d w).2) <= f (Worker.w_ready w) + 1.
Proof.
  intros Hf. unfold Worker.process_unconfirmed_solution, Worker.begin_unconfirmed.
  destruct (data_to_checksum write_solution d) as [ck|e|e|]; cbn [snd]; try lia.
  destruct (Pending.remove (Worker.w_pending w) _ true) as [[r notified] p].
  destruct (Worker.contains_transmission _ _ _ _ _); cbn [negb snd]; [cbn; lia|].
  pose proof (end_unconfirmed_grows f (IdSolution id ck) (TSolution d) (check id d) (Worker.set_pending p w) Hf) as He.
  destruct (Worker.end_unconfirmed _ _ _ _). cbn in *. lia.
Qed.

Lemma process_transaction_grows f L (s : Storage.Storage Svc Cache) b check id d (w : Worker) : grows_by_one f ->
  f (Worker.w_ready w) <= f (Worker.w_ready (Worker.process_unconfirmed_transaction L s b check id d w).2) <= f (Worker.w_ready w) + 1.
Proof.
  intros Hf. unfold Worker.process_unconfirmed_transaction, Worker.begin_unconfirmed.
  destruct (data_to_checksum write_transaction d) as [ck|e|e|]; cbn [snd]; try lia.
  destruct (Pending.remove (Worker.w_pending w) _ true) as [[r notified] p].
  destruct (Worker.contains_transmission _ _ _ _ _); cbn [negb snd]; [cbn; lia|].
  match goal with |- context [Worker.end_unconfirmed ?i ?t ?c ?w] =>
    pose proof (end_unconfirmed_grows f i t c w Hf) as He; destruct (Worker.end_unconfirmed i t c w) end.
  cbn in *. lia.
Qed.

Lemma on_worker_grows {A} f i (g : Primary -> Worker -> A * Worker) p :
  (forall w, f (Worker.w_ready w) <= f (Worker.w_ready (g p w).2) <= f (Worker.w_ready w) + 1) ->
  held f p <= held f (Primary.on_worker sha256 i g p).2 <= held f p + 1.
Proof.
  intros Hg. unfold Primary.on_worker, sbind, sget, slift. cbn [fst snd].
  destruct (Primary.num_workers p) as [n|e|e|]; cbn [snd]; try lia.
  destruct (Partition.assign_to_worker sha256 i n) as [id|e|e|]; cbn; try lia.
  destruct (Primary.workers p !! Z.to_nat id) as [w|] eqn:E; cbn; [|lia].
  specialize (Hg w). destruct (g p w) as [a w']. cbn in *. unfold held. cbn.
  rewrite list_fmap_insert. erewrite sumZ_insert by (rewrite list_lookup_fmap, E; done). lia.
Qed.

(** A worker has the transmission in its ready queue. *)
Definition worker_has (p : Primary) (i : TransmissionID) : Prop :=
  exists k w, Primary.workers p !! k = Some w /\ Ready.contains (Worker.w_ready w) i = true.

Lemma ready_insert_contains r i t j :
  Ready.contains (Ready.insert r i t).2 j = Ready.contains r j || bool_decide (i = j).
Proof.
  unfold Ready.contains, Ready.insert. destruct (Ready.transmission_ids r !! i) eqn:E; cbn.
  - case_bool_decide as Hj; [done|]. rewrite bool_decide_eq_false_2; [done|]. intros ->. apply Hj. by eexists.
  - destruct (decide (i = j)) as [->|Hij].
    + rewrite lookup_insert_eq, (bool_decide_eq_true_2 (j = j)) by done. by rewrite orb_true_r.
    + rewrite lookup_insert_ne, (bool_decide_eq_false_2 (i = j)) by done. by rewrite orb_false_r.
Qed.

(** The primary, the storage or the ledger [L] has the transmission. *)
Definition known_elsewhere (L : LedgerService) (p : Primary) (i : TransmissionID) : Prop :=
  (exists q, Primary.proposed_batch p = Some q /\ Proposal.contains_transmission q i = true) \/
  Storage.contains_transmission (Primary.storage p) i = true \/
  ledger_contains_transmission L i = Ok true.

(** [g] keeps what is in the ready queue, and afterwards the transmission [i] is
    there too, or the node knows it already, or the check refused it. *)
Definition settles (L : LedgerService) (p : Primary) (refused : Prop) (i : TransmissionID)
    (g : Worker -> (result bool * list C) * Worker) : Prop := forall w,
  (forall j, Ready.contains (Worker.w_ready w) j = true -> Ready.contains (Worker.w_ready (g w).2) j = true) /\
  (Ready.contains (Worker.w_ready (g w).2) i = true \/ known_elsewhere L p i \/ refused).

Lemma contains_settled L (p : Primary) (w : Worker) i :
  Worker.contains_transmission L (Primary.storage p) (Primary.proposed_batch p) w i = true ->
  Ready.contains (Worker.w_ready w) i = true \/ known_elsewhere L p i.
Proof.
  unfold Worker.contains_transmission, known_elsewhere. rewrite !orb_true_iff. intros [[[H|H]|H]|H]; [by left|right..].
  - left. destruct (Primary.proposed_batch p); [eauto|done].
  - right. by left.
  - right. right. by destruct (ledger_contains_transmission L i) as [[]| | |].
Qed.

Lemma end_unconfirmed_settles i t check (w : Worker) :
  (forall j, Ready.contains (Worker.w_ready w) j = true -> Ready.contains (Worker.w_ready (Worker.end_unconfirmed i t check w).2) j = true) /\
  (Ready.contains (Worker.w_ready (Worker.end_unconfirmed i t check w).2) i = true \/ check <> Ok tt).
Proof.
  destruct check as [[]|e|e|]; cbn [Worker.end_unconfirmed fst snd]; [|split; [done|by right]..].
  cbn [Worker.set_ready Worker.w_ready]. split; [intros j Hj|left]; rewrite ready_insert_contains.
  - by rewrite Hj.
  - by rewrite bool_decide_eq_true_2, orb_true_r.
Qed.

(** What the worker checks of a transaction. *)
Definition transaction_check (check : TransactionID -> Transaction -> result unit) (id : TransactionID)
    (d : Data Transaction) : result unit :=
  tx ← match d with
       | Object tx => Ok tx
       | Buffer bytes => read_transaction (take (Z.to_nat LATEST_MAX_TRANSACTION_SIZE) bytes)
       end;
  check id tx.

Lemma process_solution_settles L (p : Primary) check id d ck :
  data_to_checksum write_solution d = Ok ck ->
  settles L p (check id d <> Ok tt) (IdSolution id ck)
    (Worker.process_unconfirmed_solution L (Primary.storage p) (Primary.proposed_batch p) check id d).
Proof.
  intros Hck w. unfold Worker.process_unconfirmed_solution, Worker.begin_unconfirmed. rewrite Hck.
  destruct (Pending.remove (Worker.w_pending w) _ true) as [[r notified] q].
  destruct (Worker.contains_transmission _ _ _ _ _) eqn:Ec; cbn [negb].
  { split; [done|]. apply contains_settled in Ec as [?|?]; [by left|right; by left]. }
  pose proof (end_unconfirmed_settles (IdSolution id ck) (TSolution d) (check id d) (Worker.set_pending q w)) as [Hk He].
  destruct (Worker.end_unconfirmed _ _ _ _). split; [exact Hk|]. destruct He as [?|?]; [by left|right; by right].
Qed.

Lemma process_transaction_settles L (p : Primary) check id d ck :
  data_to_checksum write_transaction d = Ok ck ->
  settles L p (transaction_check check id d <> Ok tt) (IdTransaction id ck)
    (Worker.process_unconfirmed_transaction L (Primary.storage p) (Primary.proposed_batch p) check id d).
Proof.
  intros Hck w. unfold Worker.process_unconfirmed_transaction, Worker.begin_unconfirmed. rewrite Hck.
  destruct (Pending.remove (Worker.w_pending w) _ true) as [[r notified] q].
  destruct (Worker.contains_transmission _ _ _ _ _) eqn:Ec; cbn [negb].
  { split; [done|]. apply contains_settled in Ec as [?|?]; [by left|right; by left]. }
  pose proof (end_unconfirmed_settles (IdTransaction id ck) (TTransaction d) (transaction_check check id d)
    (Worker.set_pending q w)) as [Hk He].
  fold (transaction_check check id d).
  destruct (Worker.end_unconfirmed _ _ _ _). split; [exact Hk|]. destruct He as [?|?]; [by left|right; by right].
Qed.

(** What a message to a worker leaves of the primary. *)
Definition keeps_transmissions (p p' : Primary) : Prop :=
  Primary.storage p' = Primary.storage p /\ Primary.proposed_batch p' = Primary.proposed_batch p /\
  forall j, worker_has p j -> worker_has p' j.

#[local] Instance keeps_transmissions_preorder : PreOrder keeps_transmissions.
Proof. split; [done|]. intros x y z (?&?&?) (?&?&?). split_and!; [congruence..|auto]. Qed.

Lemma on_worker_settles L refused i (g : Primary -> Worker -> (result bool * list C) * Worker) p r p' :
  settles L p refused i (g p) -> Primary.on_worker sha256 i g p = (r, p') ->
  keeps_transmissions p p' /\ (forall e, r <> Err e) /\
  (forall a, r = Ok a -> worker_has p' i \/ known_elsewhere L p i \/ refused).
Proof.
  intros Hg. unfold Primary.on_worker, sbind, sget, slift.
  assert (forall e, Primary.num_workers p <> Err e) as Hnw.
  { intros e. unfold Primary.num_workers. by case_decide. }
  destruct (Primary.num_workers p) as [n|e|e|]; [|by destruct (Hnw e)|intros [= <- <-]; done..].
  assert (forall e, Partition.assign_to_worker sha256 i n <> Err e) as Hne.
  { intros e. unfold Partition.assign_to_worker. by repeat case_decide. }
  destruct (Partition.assign_to_worker sha256 i n) as [id|e|e|]; [|by destruct (Hne e)|intros [= <- <-]; done..].
  destruct (Primary.workers p !! Z.to_nat id) as [w|] eqn:E; cbn [unwrap]; [|intros [= <- <-]; done].
  destruct (Hg w) as [Hkeep Hnew]. destruct (g p w) as [a w']. cbn [fst snd smodify sret] in *. intros [= <- <-].
  assert ((<[Z.to_nat id := w']> (Primary.workers p)) !! Z.to_nat id = Some w') as Hat.
  { apply list_lookup_insert_eq. by eapply lookup_lt_Some. }
  split_and!; [split_and!| |]; try done.
  - intros j (k & w1 & Hk & Hc). unfold worker_has. cbn. destruct (decide (k = Z.to_nat id)) as [->|Hn].
    + exists (Z.to_nat id), w'. split; [done|]. rewrite E in Hk. injection Hk as <-. by apply Hkeep.
    + exists k, w1. split; [|done]. by rewrite list_lookup_insert_ne.
  - intros _ _. destruct Hnew as [?|?]; [left|by right]. unfold worker_has. cbn. by exists (Z.to_nat id), w'.
Qed.
End Workers.

Section Consensus.
Context `{N : Network} {TO : TransmissionOps} {FO : FeeOps} {B : BlockData} {BA : BlockAuthority B}.
Context {Svc : Type} `{!StorageServiceOps Svc}.
Context {Cache : Type} `{!LruOps Cache Field BatchCertificate}.
Context {C X : Type} `{!PrimaryCallback (Storage.Storage Svc Cache) X}.
Context (sha256 : list Z -> list Z).
Context {SQ TQ SeenS SeenT : Type} `{!LruQueueOps SQ SolutionID Solution} `{!LruQueueOps TQ TransactionID Transaction}.
Context `{!LruQueueOps SeenS SolutionID unit} `{!LruQueueOps SeenT TransactionID unit}.
Context {St : Type} (ops : SyncLedger St).

Abbreviation Consensus := (Consensus.Consensus (Svc := Svc) (Cache := Cache) (C := C) (X := X) (SQ := SQ) (TQ := TQ)
  (SeenS := SeenS) (SeenT := SeenT) (St := St)).

(** What a message to the primary leaves of the rest. *)
Definition same_pool (c c' : Consensus) : Prop :=
  ledger c' = ledger c /\ solutions_queue c' = solutions_queue c /\ transactions_queue c' = transactions_queue c /\
  seen_solutions c' = seen_solutions c /\ seen_transactions c' = seen_transactions c /\ notified c' = notified c.

#[local] Instance same_pool_preorder : PreOrder same_pool.
Proof. split; [done|]. intros x y z (?&?&?&?&?&?) (?&?&?&?&?&?). unfold same_pool. split_and!; congruence. Qed.

Lemma send_solution_grows f E id d (c : Consensus) : grows_by_one f ->
  held f (primary c) <= held f (primary (send_unconfirmed_solution sha256 ops E id d c).2) <= held f (primary c) + 1 /\
  same_pool c (send_unconfirmed_solution sha256 ops E id d c).2.
Proof.
  intros Hf. unfold send_unconfirmed_solution, sbind, sget, on_primary.
  assert (held f (primary c) <= held f (Primary.on_unconfirmed_solution sha256 (env ops E c) id d (primary c)).2
    <= held f (primary c) + 1) as H.
  { unfold Primary.on_unconfirmed_solution, sbind, slift. destruct (data_to_checksum write_solution d) as [ck|e|e|]; cbn [snd]; try (cbn; lia).
    apply on_worker_grows. intros w. by apply process_solution_grows. }
  destruct (Primary.on_unconfirmed_solution _ _ _ _ _) as [[[[r l]|]|e|e|] p]; cbn in *; done.
Qed.

Lemma send_transaction_grows f E id d (c : Consensus) : grows_by_one f ->
  held f (primary c) <= held f (primary (send_unconfirmed_transaction sha256 ops E id d c).2) <= held f (primary c) + 1 /\
  same_pool c (send_unconfirmed_transaction sha256 ops E id d c).2.
Proof.
  intros Hf. unfold send_unconfirmed_transaction, sbind, sget, on_primary.
  assert (held f (primary c) <= held f (Primary.on_unconfirmed_transaction sha256 (env ops E c) id d (primary c)).2
    <= held f (primary c) + 1) as H.
  { unfold Primary.on_unconfirmed_transaction, sbind, slift. destruct (data_to_checksum write_transaction d) as [ck|e|e|]; cbn [snd]; try (cbn; lia).
    apply on_worker_grows. intros w. by apply process_transaction_grows. }
  destruct (Primary.on_unconfirmed_transaction _ _ _ _ _) as [[[[r l]|]|e|e|] p]; cbn in *; done.
Qed.

(** A loop of messages grows what the workers hold by at most one each. *)
Lemma smap_grows {A D} f (g : A -> SM Consensus D) l (c : Consensus) :
  (forall x c, held f (primary c) <= held f (primary (g x c).2) <= held f (primary c) + 1 /\ same_pool c (g x c).2) ->
  held f (primary c) <= held f (primary (smap g l c).2) <= held f (primary c) + len l /\ same_pool c (smap g l c).2.
Proof.
  intros Hg. revert c. induction l as [|x l IH]; intros c; cbn [smap]; [cbn; unfold len; cbn; split; [lia|done]|].
  unfold sbind at 1 3 5. destruct (Hg x c) as [Hx Hs]. rewrite len_cons. pose proof (len_nonneg l).
  destruct (g x c) as [[y|e|e|] c1]; cbn [fst snd] in *; [|split; [lia|done]..].
  destruct (IH c1) as [IH1 IH2]. unfold sbind. destruct (smap g l c1) as [[ys|e|e|] c2]; cbn [fst snd sret] in *;
    (split; [lia|by etrans]).
Qed.

(** The length of what is drained. *)
Lemma drain_transactions_length l (q : Mempool.TransactionsQueue TQ) : len (drain_transactions l q).1 <= len l.
Proof.
  revert q. induction l as [|b l IH]; intros q; cbn [drain_transactions]; [done|]. rewrite len_cons.
  destruct b.
  - destruct (Mempool.inner_pop (Mempool.deployments q)) as [r d]. specialize (IH (Mempool.mk_transactions_queue d (Mempool.executions q))).
    destruct (drain_transactions l _) as [txs q']. cbn in *. destruct r as [[id tx]|]; rewrite ?len_cons; lia.
  - destruct (Mempool.inner_pop (Mempool.executions q)) as [r d]. specialize (IH (Mempool.mk_transactions_queue (Mempool.deployments q) d)).
    destruct (drain_transactions l _) as [txs q']. cbn in *. destruct r as [[id tx]|]; rewrite ?len_cons; lia.
Qed.

Lemma drain_solutions_length n (q : SQ) : len (drain_solutions n q).1 <= Z.of_nat n.
Proof.
  revert q. induction n as [|n IH]; intros q; cbn [drain_solutions]; [done|].
  destruct (lq_pop_lru q) as [r q1]. specialize (IH q1). destruct (drain_solutions n q1) as [l q2]. cbn [fst] in *.
  destruct r as [[id s]|]; rewrite ?len_cons; lia.
Qed.

Context {LS : LruQueueLaws SQ SolutionID Solution} {LT : LruQueueLaws TQ TransactionID Transaction}.

Lemma inner_len_nonneg (q : Mempool.TransactionsQueueInner TQ) : 0 <= Mempool.inner_len q.
Proof.
  unfold Mempool.inner_len, Mempool.priority_len, u64_saturating_add. rewrite lq_len_entries.
  pose proof (len_nonneg (lq_entries (Mempool.queue q))). mlia.
Qed.

Lemma transmissions_held (c : Consensus) : num_unconfirmed_transmissions c = held Ready.num_transmissions (primary c).
Proof. done. Qed.
Lemma solutions_held (c : Consensus) : num_unconfirmed_solutions c = held Ready.num_solutions (primary c).
Proof. done. Qed.

(** How many deployments and executions are taken. *)
Definition num_deployments (c : Consensus) : Z :=
  Z.min (Z.min (Mempool.inner_len (Mempool.deployments (transactions_queue c)))
    (MAX_TRANSMISSIONS_TOLERANCE - num_unconfirmed_transmissions c)) 1.
Definition num_executions (c : Consensus) : Z :=
  Z.min (Mempool.inner_len (Mempool.executions (transactions_queue c)))
    (MAX_TRANSMISSIONS_TOLERANCE - num_unconfirmed_transmissions c - num_deployments c).

(** What the handler does when there is room. *)
Lemma process_transactions_run E (c : Consensus) : num_unconfirmed_transmissions c < MAX_TRANSMISSIONS_TOLERANCE ->
  let '(txs, q) := drain_transactions (interleave (replicate (Z.to_nat (num_deployments c)) true)
                     (replicate (Z.to_nat (num_executions c)) false)) (transactions_queue c) in
  process_unconfirmed_transactions sha256 ops E c =
  smap (fun tx => do r ⇐ send_unconfirmed_transaction sha256 ops E (transaction_id tx) (Object tx); sret (tx, r)) txs
    (set_transactions q c).
Proof.
  intros Hn. unfold process_unconfirmed_transactions, sbind at 1, sget at 1. rewrite decide_False by lia.
  assert (saturating_sub MAX_TRANSMISSIONS_TOLERANCE (num_unconfirmed_transmissions c) =
    MAX_TRANSMISSIONS_TOLERANCE - num_unconfirmed_transmissions c) as Hs by (unfold saturating_sub; lia).
  rewrite Hs. fold (num_deployments c). unfold MAX_DEPLOYMENTS_PER_INTERVAL. fold (num_deployments c).
  assert (saturating_sub (MAX_TRANSMISSIONS_TOLERANCE - num_unconfirmed_transmissions c) (num_deployments c) =
    MAX_TRANSMISSIONS_TOLERANCE - num_unconfirmed_transmissions c - num_deployments c) as ->.
  { unfold saturating_sub, num_deployments. lia. }
  fold (num_executions c). destruct (drain_transactions _ _) as [txs q]. done.
Qed.

(** The memory pool does not overload the workers.  Passing transactions on
    never raises the number of transmissions that the workers hold above the
    tolerance, and passing solutions on never raises the number of solutions
    above the number that a block can hold. *)
Theorem workers_not_overloaded (E : Primary.Env) (c : Consensus) :
  num_unconfirmed_transmissions (process_unconfirmed_transactions sha256 ops E c).2 <=
    Z.max (num_unconfirmed_transmissions c) MAX_TRANSMISSIONS_TOLERANCE /\
  num_unconfirmed_solutions (process_unconfirmed_solutions sha256 ops E c).2 <=
    Z.max (num_unconfirmed_solutions c) MAX_SOLUTIONS.
Proof.
  split.
  - destruct (decide (MAX_TRANSMISSIONS_TOLERANCE <= num_unconfirmed_transmissions c)) as [Hfull|Hroom].
    { unfold process_unconfirmed_transactions, sbind at 1, sget at 1. rewrite decide_True by done. cbn. lia. }
    pose proof (process_transactions_run E c ltac:(lia)) as Hrun.
    match type of Hrun with context [drain_transactions ?l ?q] =>
      pose proof (drain_transactions_length l q) as Hlen; destruct (drain_transactions l q) as [txs q'] end.
    rewrite Hrun, (transmissions_held (smap _ _ _).2).
    match goal with |- context [smap ?g txs ?c1] =>
      destruct (smap_grows Ready.num_transmissions g txs c1) as [Hg _] end.
    { intros tx c1. unfold sbind. destruct (send_transaction_grows Ready.num_transmissions E (transaction_id tx) (Object tx) c1
        num_transmissions_grows) as [H1 H2]. destruct (send_unconfirmed_transaction _ _ _ _ _ c1) as [[r|e|e|] c2]; done. }
    cbn [primary set_transactions] in Hg. rewrite <-!transmissions_held in *.
    cbn [fst] in Hlen. unfold len at 2 in Hlen. rewrite interleave_length, !length_replicate in Hlen.
    pose proof (inner_len_nonneg (Mempool.deployments (transactions_queue c))).
    pose proof (inner_len_nonneg (Mempool.executions (transactions_queue c))).
    unfold num_executions, num_deployments in *. lia.
  - unfold process_unconfirmed_solutions, sbind at 1, sget at 1. case_decide as Hd; [cbn; lia|].
    match goal with |- context [drain_solutions ?n ?q] =>
      pose proof (drain_solutions_length n q) as Hlen; destruct (drain_solutions n q) as [l q'] end.
    unfold sbind at 1, smodify at 1. rewrite (solutions_held (smap _ _ _).2).
    match goal with |- context [smap ?g l ?c1] =>
      destruct (smap_grows Ready.num_solutions g l c1) as [Hg _] end.
    { intros s c1. unfold sbind. destruct (send_solution_grows Ready.num_solutions E (solution_id s) (Object s) c1
        num_solutions_grows) as [H1 H2]. destruct (send_unconfirmed_solution _ _ _ _ _ c1) as [[r|e|e|] c2]; done. }
    cbn [primary set_solutions] in Hg. rewrite <-!solutions_held in *.
    cbn [fst] in Hlen. rewrite lq_len_entries in Hlen. pose proof (len_nonneg (lq_entries (solutions_queue c))).
    unfold saturating_sub in Hlen. lia.
Qed.

(** The answers belong to what was sent, and no message fails. *)
Lemma smap_sent {A D} (g : A -> SM Consensus D) l (c : Consensus) ys c' :
  smap (fun x => do r ⇐ g x; sret (x, r)) l c = (Ok ys, c') -> ys.*1 = l.
Proof.
  revert c ys. induction l as [|x l IH]; intros c ys Hs; [by injection Hs as <-|]. cbn [smap] in Hs.
  unfold sbind at 1 2 in Hs. destruct (g x c) as [[y|e|e|] c1]; try done. cbn [sret] in Hs. unfold sbind, sret in Hs.
  destruct (smap _ l c1) as [[ys'|e|e|] c2] eqn:El; try done. injection Hs as <- <-. cbn. f_equal. by eapply IH.
Qed.

Definition no_error {A} (m : SM Consensus A) : Prop := forall c msg, (m c).1 <> Err msg.

Lemma smap_no_error {A D} (g : A -> SM Consensus D) l : (forall x, no_error (g x)) -> no_error (smap g l).
Proof.
  intros Hg. induction l as [|x l IH]; intros c msg; cbn [smap]; [done|]. unfold sbind at 1. specialize (Hg x c).
  destruct (g x c) as [[y|e|e|] c1]; cbn in *; try done; [|by naive_solver]. unfold sbind. specialize (IH c1).
  destruct (smap g l c1) as [[ys|e|e|] c2]; cbn in *; done.
Qed.

Lemma send_transaction_no_error E tx :
  no_error (do r ⇐ send_unconfirmed_transaction (C := C) (X := X) (SQ := SQ) (TQ := TQ) (SeenS := SeenS) (SeenT := SeenT) sha256 ops E (transaction_id tx) (Object tx); sret (tx, r)).
Proof.
  intros c msg. unfold sbind, send_unconfirmed_transaction, on_primary, sbind, sget.
  by destruct (Primary.on_unconfirmed_transaction _ _ _ _ _) as [[[[r l]|]|e|e|] p].
Qed.

Lemma process_transactions_no_error E : no_error (process_unconfirmed_transactions sha256 ops E).
Proof.
  intros c msg. destruct (decide (MAX_TRANSMISSIONS_TOLERANCE <= num_unconfirmed_transmissions c)) as [Hfull|Hroom].
  { unfold process_unconfirmed_transactions, sbind at 1, sget at 1. by rewrite decide_True. }
  pose proof (process_transactions_run E c ltac:(lia)) as Hrun. destruct (drain_transactions _ _) as [txs q'].
  rewrite Hrun. apply smap_no_error. intros tx. apply send_transaction_no_error.
Qed.

(** The memory pool sends the best it has.  When the workers have room, the
    pool sends them the first deployment and as many executions as fit, by
    falling fee and then in order of arrival, interleaved; the rest stays in the
    same order. *)
Theorem pool_sends_best (E : Primary.Env) (c : Consensus) sent c' :
  let q := transactions_queue c in
  let nd := Z.to_nat (num_deployments c) in
  let ne := Z.to_nat (num_executions c) in
  Mempool.inner_wf (Mempool.deployments q) -> Mempool.inner_wf (Mempool.executions q) ->
  num_unconfirmed_transmissions c < MAX_TRANSMISSIONS_TOLERANCE ->
  process_unconfirmed_transactions sha256 ops E c = (Ok sent, c') ->
  sent.*1 = (interleave (take nd (leaving (Mempool.deployments q))) (take ne (leaving (Mempool.executions q)))).*2 /\
  leaving (Mempool.deployments (transactions_queue c')) = drop nd (leaving (Mempool.deployments q)) /\
  leaving (Mempool.executions (transactions_queue c')) = drop ne (leaving (Mempool.executions q)).
Proof.
  intros q nd ne Wd We Hroom Hrun. pose proof (process_transactions_run E c Hroom) as Hp. fold q nd ne in Hp.
  pose proof (drain_leaving (interleave (replicate nd true) (replicate ne false)) q Wd We) as Hd.
  destruct (count_interleave nd ne) as [Hc1 Hc2]. rewrite Hc1, Hc2 in Hd. rewrite pick_interleave in Hd.
  2:{ pose proof (inner_len_leaving _ Wd). unfold nd, num_deployments. fold q. unfold len in *. lia. }
  2:{ pose proof (inner_len_leaving _ We). unfold ne, num_executions. fold q. unfold len in *. lia. }
  destruct (drain_transactions _ q) as [txs q'] eqn:Eq. destruct Hd as (-> & Hd & He & _). rewrite Hp in Hrun.
  pose proof (smap_sent _ _ _ _ _ Hrun) as ->. split; [done|].
  match type of Hrun with smap ?g ?l ?c1 = _ => destruct (smap_grows Ready.num_transmissions g l c1) as [_ Hs] end.
  { intros tx c1. unfold sbind. destruct (send_transaction_grows Ready.num_transmissions E (transaction_id tx) (Object tx) c1
      num_transmissions_grows) as [H1 H2]. destruct (send_unconfirmed_transaction _ _ _ _ _ c1) as [[r|e|e|] c2]; done. }
  rewrite Hrun in Hs. destruct Hs as (_ & _ & Hq & _). cbn in Hq. rewrite Hq. done.
Qed.

Context {LSeen : LruQueueLaws SeenT TransactionID unit}.

(** A transaction that the memory pool turned away stays away.  When adding
    a transaction fails, because the pool is full or the ledger could not be
    read, say, the transaction is not in the pool, but it counts as seen: adding
    it again succeeds and does nothing. *)
Theorem refused_transaction_forgotten (E E' : Primary.Env) (tx : Transaction) (c : Consensus) ck msg c1 :
  is_fee tx = false -> data_to_checksum write_transaction (Buffer (write_transaction tx)) = Ok ck ->
  add_unconfirmed_transaction sha256 ops E tx c = (Err msg, c1) ->
  exists c2, add_unconfirmed_transaction sha256 ops E' tx c1 = (Ok [], c2) /\
    transactions_queue c2 = transactions_queue c /\ primary c2 = primary c.
Proof.
  intros Hfee Hck H. unfold add_unconfirmed_transaction in *. rewrite Hck, Hfee in *. cbn [slift sbind] in *.
  unfold sbind at 1, slift at 1 in H. unfold sbind at 1 in H.
  destruct (lq_put_entries (seen_transactions c) (transaction_id tx) tt) as (_ & Hput & _).
  destruct (lq_put (seen_transactions c) (transaction_id tx) tt) as [seen sq] eqn:Eput. cbn [snd] in Hput.
  case_bool_decide as Hseen; [done|].
  assert (seen_transactions c1 = sq /\ transactions_queue c1 = transactions_queue c /\ primary c1 = primary c) as (Hs1 & Hq1 & Hp1).
  { unfold sbind at 1, sget at 1 in H. cbn [transactions_queue set_seen_transactions] in H.
    unfold sbind at 1, slift at 1 in H. destruct (ledger_contains_transmission _ _) as [[]|e|e|];
      [by injection H as <- <-| |by injection H as <- <-|discriminate..].
    destruct (contains_transaction _ _); [by injection H as <- <-|].
    unfold sbind at 1, slift at 1 in H. destruct (priority_fee_amount tx) as [fee|e|e|];
      [|by injection H as <- <-|discriminate..].
    unfold sbind at 1, slift at 1 in H. cbn [transactions_queue set_seen_transactions] in H.
    destruct (Mempool.insert _ _ _ _) as [q|e|e|]; [|by injection H as <- <-|discriminate..].
    exfalso. unfold sbind, smodify in H. apply (f_equal fst) in H. by apply process_transactions_no_error in H. }
  unfold sbind at 1, slift at 1, sbind at 1.
  destruct (lq_put_entries (seen_transactions c1) (transaction_id tx) tt) as (Hput1 & _ & _).
  destruct (lq_put (seen_transactions c1) (transaction_id tx) tt) as [seen1 sq1] eqn:Eput1. cbn [fst] in Hput1.
  rewrite Hs1, Hput in Hput1. unfold bump, assoc in Hput1. cbn in Hput1. rewrite bool_decide_eq_true_2 in Hput1 by done.
  cbn in Hput1. subst seen1. rewrite bool_decide_eq_true_2 by done. eexists. split; [done|]. done.
Qed.

(** ** Subdags *)

(** What became of a transmission that was offered to the workers: under the
    checksum of its content it is in a ready queue, in the proposed batch, in
    the storage or in the ledger, or the check of the ledger refused it.  A
    ratification, and a transmission of another kind than its ID, is not
    offered. *)
Definition settled (E : Primary.Env) (c : Consensus) (e : TransmissionID * Transmission) : Prop :=
  let rules := Primary.rules E in
  let known i := worker_has (primary c) i \/ known_elsewhere (service ops c) (primary c) i in
  match e with
  | (IdSolution id _, TSolution d) => forall ck, data_to_checksum write_solution d = Ok ck ->
      known (IdSolution id ck) \/ Primary.check_solution_basic rules id d <> Ok tt
  | (IdTransaction id _, TTransaction d) => forall ck, data_to_checksum write_transaction d = Ok ck ->
      known (IdTransaction id ck) \/ transaction_check (Primary.check_transaction_basic rules) id d <> Ok tt
  | _ => True
  end.

Lemma settled_mono E (c c' : Consensus) e :
  ledger c' = ledger c -> keeps_transmissions (primary c) (primary c') -> settled E c e -> settled E c' e.
Proof.
  intros Hl (Hs & Hb & Hw).
  assert (forall i, worker_has (primary c) i \/ known_elsewhere (service ops c) (primary c) i ->
    worker_has (primary c') i \/ known_elsewhere (service ops c') (primary c') i) as Hk.
  { intros i [?|Hk]; [left; auto|right]. unfold known_elsewhere, service in *. by rewrite Hs, Hb, Hl. }
  destruct e as [[|id ck0|id ck0] [|d|d]]; cbn; try done; intros H ck Hck; destruct (H ck Hck) as [?|?]; auto.
Qed.

(** What offering one transmission does. *)
Lemma reinsert_settles E i t (c : Consensus) a c' :
  reinsert_transmission sha256 ops E i t c = (Ok a, c') ->
  same_pool c c' /\ keeps_transmissions (primary c) (primary c') /\ settled E c' (i, t).
Proof.
  destruct i as [|id ck0|id ck0], t as [|d|d]; cbn [reinsert_transmission sret]; try (intros [= <- <-]; done).
  - unfold send_unconfirmed_solution, sbind, sget, on_primary, Primary.on_unconfirmed_solution.
    destruct (data_to_checksum write_solution d) as [ck|e|e|] eqn:Eck; cbn [slift];
      [|intros [= <- <-]; (split; [done|]); (split; [done|]); cbn; by rewrite Eck|intros [=]..].
    unfold sbind, slift.
    match goal with |- context [Primary.on_worker sha256 ?i ?g ?p] =>
      pose proof (on_worker_settles sha256 (service ops c) (Primary.check_solution_basic (Primary.rules E) id d <> Ok tt) i g p) as Hst;
      destruct (Primary.on_worker sha256 i g p) as [r p'] end.
    destruct (Hst r p') as (Hk & Hne & Hn); [by apply process_solution_settles|done|].
    assert (settled E (set_primary p' c) (IdSolution id ck0, TSolution d) \/ forall x, r <> Ok x) as Hset.
    { destruct r as [x|e|e|]; [left|by right..]. cbn. rewrite Eck. intros ck' [= <-].
      destruct (Hn x eq_refl) as [?|[Hel|?]]; [left; by left|left; right|by right].
      destruct Hk as (Hks & Hkb & _). unfold known_elsewhere in *. by rewrite <-Hks, <-Hkb in Hel. }
    destruct r as [x|e|e|]; [|by destruct (Hne e)|by intros [=]..]. destruct Hset as [Hset|Hno]; [|by destruct (Hno x)].
    by destruct x as [[r l]|]; intros [= <- <-].
  - unfold send_unconfirmed_transaction, sbind, sget, on_primary, Primary.on_unconfirmed_transaction.
    destruct (data_to_checksum write_transaction d) as [ck|e|e|] eqn:Eck; cbn [slift];
      [|intros [= <- <-]; (split; [done|]); (split; [done|]); cbn; by rewrite Eck|intros [=]..].
    unfold sbind, slift.
    match goal with |- context [Primary.on_worker sha256 ?i ?g ?p] =>
      pose proof (on_worker_settles sha256 (service ops c)
        (transaction_check (Primary.check_transaction_basic (Primary.rules E)) id d <> Ok tt) i g p) as Hst;
      destruct (Primary.on_worker sha256 i g p) as [r p'] end.
    destruct (Hst r p') as (Hk & Hne & Hn); [by apply process_transaction_settles|done|].
    assert (settled E (set_primary p' c) (IdTransaction id ck0, TTransaction d) \/ forall x, r <> Ok x) as Hset.
    { destruct r as [x|e|e|]; [left|by right..]. cbn. rewrite Eck. intros ck' [= <-].
      destruct (Hn x eq_refl) as [?|[Hel|?]]; [left; by left|left; right|by right].
      destruct Hk as (Hks & Hkb & _). unfold known_elsewhere in *. by rewrite <-Hks, <-Hkb in Hel. }
    destruct r as [x|e|e|]; [|by destruct (Hne e)|by intros [=]..]. destruct Hset as [Hset|Hno]; [|by destruct (Hno x)].
    by destruct x as [[r l]|]; intros [= <- <-].
Qed.

Lemma reinsert_all_settles E ts (c : Consensus) answers c' :
  reinsert_transmissions sha256 ops E ts c = (Ok answers, c') ->
  same_pool c c' /\ keeps_transmissions (primary c) (primary c') /\ Forall (settled E c') ts.
Proof.
  unfold reinsert_transmissions. revert c answers. induction ts as [|[i t] ts IH]; intros c answers Hs.
  { injection Hs as <- <-. split_and!; [done|done|constructor]. }
  cbn [smap fst snd] in Hs. apply sbind_Ok in Hs as (a & c1 & Hone & Hs).
  apply sbind_Ok in Hs as (ys & c2 & Hrest & Hs). injection Hs as <- <-.
  apply reinsert_settles in Hone as (Hp1 & Hm1 & Hst). destruct (IH c1 ys Hrest) as (Hp2 & Hm2 & Hall).
  split_and!; [by etrans| |]; [destruct Hm1 as (?&?&?), Hm2 as (?&?&?); split_and!; [congruence..|auto]|].
  constructor; [|done]. eapply settled_mono; [apply Hp2|exact Hm2|exact Hst].
Qed.

Context (prepare : St -> commit_map -> list (TransmissionID * Transmission) -> checked Block) (NUM_BLOCKS_PER_EPOCH : Z).

(** A try that does not build a block changes nothing. *)
Lemma try_advance_result now subdag ts (c : Consensus) r c' :
  try_advance_to_next_block ops prepare NUM_BLOCKS_PER_EPOCH now subdag ts c = (r, c') ->
  (r <> Ok true /\ c' = c) \/
  (r = Ok true /\ exists block, prepare (ledger c) subdag ts = pass block /\
     check_block_subdag (ledger_view ops (ledger c)) block [] = pass block /\
     check_block_content (verify_content ops) (ledger_view ops (ledger c)) block = pass block /\
     ledger_advance ops (ledger c) block = Ok (ledger c') /\
     transactions_queue c' = transactions_queue c /\
     primary c' = (if decide (height block mod NUM_BLOCKS_PER_EPOCH = 0)
                   then Primary.clear_worker_solutions (primary c) else primary c)).
Proof.
  intros H. unfold try_advance_to_next_block in H. unfold sbind at 1, sget at 1 in H.
  destruct (ledger_begin_update ops (ledger c)) as [[]|]; [injection H as <- <-; by left..|].
  unfold sbind at 1, slift at 1 in H. destruct (prepare (ledger c) subdag ts) as [[e|block]|e|e|] eqn:Ep;
    [destruct e; injection H as <- <-; by left| |injection H as <- <-; by left..].
  unfold sbind at 1, slift at 1 in H. destruct (ledger_check_next_block ops _ block) as [[e|b]|e|e|] eqn:Ec;
    [destruct e; injection H as <- <-; by left| |injection H as <- <-; by left..].
  unfold ledger_check_next_block in Ec. apply cbind_pass in Ec as (b1 & Hsub & Hcon).
  assert (b1 = block) as ->.
  { unfold check_block_subdag in Hsub. apply cbind_pass in Hsub as (? & _ & Hb). by injection Hb. }
  assert (b = block) as ->.
  { unfold check_block_content in Hcon. apply cbind_pass in Hcon as (? & _ & Hb). by injection Hb. }
  unfold sbind at 1, slift at 1 in H.
  destruct (ledger_advance ops (ledger c) block) as [st|e|e|] eqn:Ea; [|injection H as <- <-; by left..].
  right. unfold sbind, smodify, sret in H.
  destruct (decide (height block mod NUM_BLOCKS_PER_EPOCH = 0)) as [Hh|Hh]; cbv beta iota in H; injection H as <- <-;
    (split; [done|]); exists block; split_and!; try done; [by rewrite decide_True|by rewrite decide_False].
Qed.

(** C14: a committed subdag becomes the next block of the ledger, or nothing is
    lost.  When consensus answers [Ok true], the ledger has advanced by the block
    built from the subdag, and the block passed the check of its subdag and of
    its contents on the ledger it extends.  In every other case the ledger and
    the queues are as before, and every solution and transaction of the subdag
    was offered to the workers: it is in a ready queue, or in the proposed
    batch, the storage or the ledger, unless the check of the ledger refuses
    it. *)
Theorem subdag_becomes_block (E : Primary.Env) (subdag : commit_map) ts (c : Consensus) r c' :
  process_bft_subdag sha256 ops prepare NUM_BLOCKS_PER_EPOCH E subdag ts c = (Ok r, c') ->
  (r = Ok true /\ exists block, prepare (ledger c) subdag ts = pass block /\
     check_block_subdag (ledger_view ops (ledger c)) block [] = pass block /\
     check_block_content (verify_content ops) (ledger_view ops (ledger c)) block = pass block /\
     ledger_advance ops (ledger c) block = Ok (ledger c')) \/
  (r <> Ok true /\ same_pool c c' /\ (forall i, worker_has (primary c) i -> worker_has (primary c') i) /\
   Forall (settled E c') ts).
Proof.
  intros H. unfold process_bft_subdag in H.
  destruct (try_advance_to_next_block _ _ _ _ _ _ c) as [r1 c1] eqn:Et. apply try_advance_result in Et.
  destruct Et as [[Hr ->]|(-> & block & Hp & Hs & Hc & Ha & _)].
  - right. assert (exists answers, reinsert_transmissions sha256 ops E ts c = (Ok answers, c') /\ r = r1) as (answers & Hre & ->).
    { destruct r1 as [[]|e|e|]; [done|..]; destruct (reinsert_transmissions _ _ _ _ c) as [[l|?|?|] c2]; try done;
        injection H as <- <-; by exists l. }
    apply reinsert_all_settles in Hre as (Hpool & (_ & _ & Hw) & Hall). done.
  - left. injection H as <- <-. split; [done|]. by exists block.
Qed.

End Consensus.

End ConsensusProps.
