(* ===== verification/ConsensusRuns.v ===== *)
(** * Runs of consensus

    The theorems on consensus, applied to a validator of the sample network with
    the ledger of the sample chain. *)

From S2P Require Import Prelude Bytes Network Sockets Committee Narwhal Dfs Subdag Lru StorageService Ledger Storage Dag Bft.
From S2P Require Import StorageProps Proposal Ready Pending Worker Primary PrimaryProps Validator Signing Locators SyncState BlockSync BlockCheck.
From S2P Require Import BlockCheckProps BftSync BftSyncProps SyncRuns Mempool Consensus ConsensusProps.
Import Locators SyncState.

#[export] Instance TestFees : FeeOps (N := TestNetwork) := {|
  priority_fee_amount tx := Ok (if bool_decide (tx = "a"%char) then 5 else if bool_decide (tx = "b"%char) then 6 else 0);
|}.

Abbreviation TestSolutions := (ListLru.cache (SolutionID (Network := TestNetwork)) (Solution (Network := TestNetwork))).
Abbreviation TestTransactions := (ListLru.cache (TransactionID (Network := TestNetwork)) (Transaction (Network := TestNetwork))).
Abbreviation SeenSolutions := (ListLru.cache (SolutionID (Network := TestNetwork)) unit).
Abbreviation SeenTransactions := (ListLru.cache (TransactionID (Network := TestNetwork)) unit).

(** The block of a subdag, on a ledger of blocks. *)
Definition run_prepare (st : list sample_block) (m : commit_map) (_ : list (TransmissionID * Transmission)) : checked (Block (BlockData := SampleBlocks)) :=
  let letter h := ascii_of_N (Z.to_N (48 + h)) in
  BlockCheck.pass (mk_sample_block (len st + 1) (letter (len st + 1)) (letter (len st)) (Subdag.anchor_round m) (Quorum m)).

Definition run_consensus (q : Mempool.TransactionsQueue TestTransactions) :=
  Consensus.set_transactions q
    (Consensus.new (SQ := TestSolutions) (SeenS := SeenSolutions) (SeenT := SeenTransactions) ([] : list sample_block) test_primary run_block_sync).

(** ** Sending *)

(** Three executions wait: [b] and [a] with a fee, [d] without. *)
Definition queue3 : Mempool.TransactionsQueue TestTransactions :=
  Mempool.mk_transactions_queue (Mempool.new_inner 4) Mempool.sample_pool3.
Definition run_consensus3 := run_consensus queue3.

Definition run_process :=
  Consensus.process_unconfirmed_transactions (C := Z) test_sha256 (run_ops [] []) (test_env 100) run_consensus3.
Definition run_sent : list (Transaction (Network := TestNetwork) * result bool) :=
  [("b", Ok true); ("a", Ok true); ("d", Ok true)]%char.

Lemma run_process_sent : run_process.1 = Ok run_sent.
Proof. vm_refl. Qed.
Lemma run_process_room : Consensus.num_unconfirmed_transmissions run_consensus3 = 0.
Proof. vm_refl. Qed.

Lemma run_pool3_wf : Mempool.inner_wf Mempool.sample_pool3.
Proof.
  apply (Mempool.pool_reach_wf (N := TestNetwork) 4); [lia|].
  eapply (Mempool.pr_insert 4 Mempool.sample_pool2 "b"%char "b"%char 6); [exact Mempool.sample_pool_reach|by vm_compute|].
  exact Mempool.sample_insert3.
Qed.

Lemma pool_sends_best_witness :
  run_sent.*1 = (Consensus.interleave (take (Z.to_nat (ConsensusProps.num_deployments run_consensus3)) (ConsensusProps.leaving (Mempool.deployments queue3)))
    (take (Z.to_nat (ConsensusProps.num_executions run_consensus3)) (ConsensusProps.leaving (Mempool.executions queue3)))).*2.
Proof.
  destruct (ConsensusProps.pool_sends_best (C := Z) test_sha256 (run_ops [] []) (test_env 100) run_consensus3 run_sent run_process.2)
    as (H & _); [apply Mempool.new_inner_wf; lia|exact run_pool3_wf| | |exact H].
  - rewrite run_process_room. vm_compute. reflexivity.
  - rewrite <-run_process_sent. apply surjective_pairing.
Defined.

Lemma workers_not_overloaded_witness :
  Consensus.num_unconfirmed_transmissions run_process.2 <= 100.
Proof.
  destruct (ConsensusProps.workers_not_overloaded (C := Z) test_sha256 (run_ops [] []) (test_env 100) run_consensus3) as [H _].
  rewrite run_process_room in H. exact H.
Defined.

(** ** A full pool *)

Definition full_queue : Mempool.TransactionsQueue TestTransactions :=
  Mempool.mk_transactions_queue (Mempool.new_inner 4)
    (default (Mempool.new_inner 1) (ok (Mempool.inner_insert (N := TestNetwork) (Mempool.new_inner 1) "a"%char "a"%char 5))).
Definition run_full := run_consensus full_queue.
Definition run_refused :=
  Consensus.add_unconfirmed_transaction (C := Z) test_sha256 (run_ops [] []) (test_env 100) "d"%char run_full.
Lemma run_refused_full : run_refused.1 = Err "The memory pool is full".
Proof. vm_refl. Qed.

Lemma refused_transaction_forgotten_witness :
  exists c2, Consensus.add_unconfirmed_transaction (C := Z) test_sha256 (run_ops [] []) (test_env 200) "d"%char run_refused.2 = (Ok [], c2) /\
    Consensus.transactions_queue c2 = full_queue /\ Consensus.primary c2 = test_primary.
Proof.
  apply (ConsensusProps.refused_transaction_forgotten (C := Z) test_sha256 (run_ops [] []) (test_env 100) (test_env 200)
    "d"%char run_full "d"%char "The memory pool is full"); [vm_refl|vm_refl|].
  rewrite <-run_refused_full. apply surjective_pairing.
Defined.

(** ** A subdag *)

Definition subdag1 : gmap Z (list (BatchCertificate (N := TestNetwork))) :=
  list_to_map [(1, [cert_b1; cert_d1]); (2, [cert_c2])].
Definition run_subdag :=
  Consensus.process_bft_subdag (C := Z) test_sha256 (run_ops [] []) run_prepare 10 (test_env 100) subdag1 [] run_full.
Lemma run_subdag_true : run_subdag.1 = Ok (Ok true).
Proof. vm_refl. Qed.

(** No block can be built from the subdag, and its transaction goes back to the
    worker. *)
Definition lost_transmissions : list (TransmissionID (N := TestNetwork) * Transmission (N := TestNetwork)) :=
  [(IdTransaction (N := TestNetwork) "a" "a", TTransaction (Object "a"))]%char.
Definition run_lost :=
  Consensus.process_bft_subdag (C := Z) test_sha256 (run_ops [] [])
    (fun _ _ _ => Ok (inl (OtherCheckError "no block"))) 10 (test_env 100) subdag1 lost_transmissions run_full.
Lemma run_lost_error : run_lost.1 = Ok (Err "no block").
Proof. vm_refl. Qed.

Lemma subdag_becomes_block_witness :
  (exists block, run_prepare [] subdag1 [] = BlockCheck.pass block /\
    BlockCheck.check_block_subdag (run_view []) block [] = BlockCheck.pass block /\
    BlockCheck.check_block_content (verify_content (run_ops [] [])) (run_view []) block = BlockCheck.pass block /\
    ledger_advance (run_ops [] []) [] block = Ok (Consensus.ledger run_subdag.2)) /\
  Forall (ConsensusProps.settled (C := Z) (run_ops [] []) (test_env 100) run_lost.2) lost_transmissions /\
  existsb (fun w => Ready.contains (Worker.w_ready w) (IdTransaction (N := TestNetwork) "a" "a")%char)
    (Primary.workers (Consensus.primary run_lost.2)) = true.
Proof.
  split; [|split].
  - destruct (ConsensusProps.subdag_becomes_block (C := Z) test_sha256 (run_ops [] []) run_prepare 10 (test_env 100)
      subdag1 [] run_full (Ok true) run_subdag.2) as [[_ H]|[H _]]; [|exact H|by destruct H].
    rewrite <-run_subdag_true. apply surjective_pairing.
  - destruct (ConsensusProps.subdag_becomes_block (C := Z) test_sha256 (run_ops [] [])
      (fun _ _ _ => Ok (inl (OtherCheckError "no block"))) 10 (test_env 100)
      subdag1 lost_transmissions run_full (Err "no block") run_lost.2) as [[H _]|(_ & _ & _ & H)]; [|discriminate H|exact H].
    rewrite <-run_lost_error. apply surjective_pairing.
  - vm_refl.
Defined.
