(* ===== verification/Events.v ===== *)
(** * Events

    The messages that validators exchange (node/bft/events/src) and their
    encoding: [ToBytes] and [FromBytes] of [Event] and of every message, and the
    framing of [EventCodec].

    A sender that keeps an object sends its bytes, and the receiver keeps the
    bytes: [received] says what arrives.  A stream of events is decoded to what
    was sent.  The encoder relies on an empty buffer, and its caller does not
    always give it one. *)

From S2P Require Import Prelude Bytes Network Sockets Committee Narwhal Lru StorageService Ledger Storage Locators SyncState BlockSync.
Import Locators.

(** [Block::write_le] and [Block::read_le]. *)
Class BlockBytes `{N : Network} (B : BlockData) := {
  write_block : Block -> list Z;
  read_block : reader Block;
}.

Class BlockBytesLaws `{N : Network} {B : BlockData} (BB : BlockBytes B) :=
  reads_block : forall b, reads read_block (write_block b) b.

(** [tokio_util::codec::LengthDelimitedCodec]: appending a frame to a buffer,
    and taking one from its front, up to a maximum length. *)
Class FrameOps := {
  encode_frame : Z -> list Z -> list Z -> result (list Z);
  decode_frame : Z -> list Z -> result (option (list Z) * list Z);
}.

(** What the codec promises: a frame that was encoded is decoded whole, and an
    empty buffer holds none. *)
Class FrameLaws (F : FrameOps) := {
  decode_encoded m payload frame rest :
    encode_frame m payload [] = Ok frame -> decode_frame m (frame ++ rest) = Ok (Some payload, rest);
  decode_nothing m : decode_frame m [] = Ok (None, []);
}.

Module Events.
Section Events.
Context `{N : Network} {B : BlockData} {BB : BlockBytes B}.

(** ** Messages *)

(** [DisconnectReason], with its numbers. *)
Inductive DisconnectReason :=
| InvalidChallengeResponse | NoReasonGiven | ProtocolViolation | OutdatedClientVersion | SelfConnect
| NoExternalPeersAllowed | AlreadyConnecting | AlreadyConnected | AlreadyConnectedToAleoAddress
| InvalidChallengeRequest | UnauthorizedValidator | UnknownReason.

Definition reason_code (r : DisconnectReason) : Z :=
  match r with
  | InvalidChallengeResponse => 0 | NoReasonGiven => 1 | ProtocolViolation => 2 | OutdatedClientVersion => 3
  | SelfConnect => 4 | NoExternalPeersAllowed => 5 | AlreadyConnecting => 6 | AlreadyConnected => 7
  | AlreadyConnectedToAleoAddress => 8 | InvalidChallengeRequest => 9 | UnauthorizedValidator => 10
  | UnknownReason => u8_max
  end.

Definition reason_of_code (z : Z) : DisconnectReason :=
  match z with
  | 0 => InvalidChallengeResponse | 1 => NoReasonGiven | 2 => ProtocolViolation | 3 => OutdatedClientVersion
  | 4 => SelfConnect | 5 => NoExternalPeersAllowed | 6 => AlreadyConnecting | 7 => AlreadyConnected
  | 8 => AlreadyConnectedToAleoAddress | 9 => InvalidChallengeRequest | 10 => UnauthorizedValidator
  | _ => UnknownReason
  end.

Record BlockRequest := mk_block_request { start_height : Z; end_height : Z }.

(** [BlockRequest::new]. *)
Definition block_request_new (start_height end_height : Z) : result BlockRequest :=
  if decide (start_height = 0) then Err "BlockRequest cannot include the genesis block" else
  if decide (end_height <= start_height) then Err "BlockRequest must contain a valid range, but was {start_height}..{end_height}" else
  Ok (mk_block_request start_height end_height).

Inductive Event :=
| BatchPropose (round : Z) (batch_header : Data BatchHeader)
| BatchSignature (batch_id : Field) (signature : Signature)
| BatchCertified (certificate : Data BatchCertificate)
| EventBlockRequest (request : BlockRequest)
| BlockResponse (request : BlockRequest) (blocks : Data (list Block)) (latest_consensus_version : option Z)
| CertificateRequest (certificate_id : Field)
| CertificateResponse (certificate : BatchCertificate)
| ChallengeRequest (version listener_port : Z) (address : Address) (nonce : Z) (snarkos_sha : option (list Z))
| ChallengeResponse (restrictions_id : Field) (signature : Data Signature) (nonce : Z)
| Disconnect (reason : DisconnectReason)
| PrimaryPing (version : Z) (block_locators : BlockLocators) (primary_certificate : Data BatchCertificate)
| TransmissionRequest (transmission_id : TransmissionID)
| TransmissionResponse (transmission_id : TransmissionID) (transmission : Transmission)
| ValidatorsRequest
| ValidatorsResponse (validators : list (SocketAddr * Address))
| WorkerPing (transmission_ids : list TransmissionID).

(** [Event::VERSION] and [Event::id]. *)
Definition VERSION : Z := 10.
Definition event_id (e : Event) : Z :=
  match e with
  | BatchPropose _ _ => 0 | BatchSignature _ _ => 1 | BatchCertified _ => 2 | EventBlockRequest _ => 3
  | BlockResponse _ _ _ => 4 | CertificateRequest _ => 5 | CertificateResponse _ => 6
  | ChallengeRequest _ _ _ _ _ => 7 | ChallengeResponse _ _ _ => 8 | Disconnect _ => 9 | PrimaryPing _ _ _ => 10
  | TransmissionRequest _ => 11 | TransmissionResponse _ _ => 12 | ValidatorsRequest => 13
  | ValidatorsResponse _ => 14 | WorkerPing _ => 15
  end.

(** ** Parts *)

(** [ToBytes] and [FromBytes] for [SocketAddr]. *)
Definition write_socket (a : SocketAddr) : list Z :=
  match a with
  | SocketAddrV4 ip port => write_u8 0 ++ write_u32 ip ++ write_u16 port
  | SocketAddrV6 ip port _ _ => write_u8 1 ++ write_uint 16 ip ++ write_u16 port
  end.
Definition read_socket : reader SocketAddr :=
  read version ⇐ read_u8;
  if decide (version = 0) then read ip ⇐ read_u32; read port ⇐ read_u16; rret (SocketAddrV4 ip port) else
  if decide (version = 1) then read ip ⇐ read_uint 16; read port ⇐ read_u16; rret (SocketAddrV6 ip port 0 0)
  else rfail "Invalid IP address".

(** [ToBytes for Data], of an object whose encoding may fail. *)
Definition object_bytes {T} (w : T -> result (list Z)) (d : Data T) : result (list Z) :=
  match d with Object x => w x | Buffer bytes => Ok bytes end.
Definition write_object {T} (w : T -> result (list Z)) (d : Data T) : result (list Z) :=
  bytes ← object_bytes w d; write_data (fun b => b) (Buffer bytes).

(** [ToBytes] and [FromBytes] for [ConsensusVersion]. *)
Definition LATEST_CONSENSUS_VERSION : Z := 15.
Definition read_consensus_version : reader Z :=
  read v ⇐ read_u16;
  if decide (v = 0) then rfail "Zero is not a valid consensus version" else
  if decide (v <= LATEST_CONSENSUS_VERSION) then rret v else rfail "Invalid consensus version".

(** [ToBytes] and [FromBytes] for [DataBlocks]; the number of blocks is cast
    to [u8]. *)
Definition write_blocks (blocks : list Block) : result (list Z) :=
  let num_blocks := len blocks mod 2 ^ 8 in
  if decide (BlockSync.MAXIMUM_NUMBER_OF_BLOCKS < num_blocks) then Err "Block response exceeds maximum number of blocks" else
  Ok (write_u8 num_blocks ++ (take (Z.to_nat num_blocks) blocks ≫= write_block)).
Definition read_blocks : reader (list Block) :=
  read num_blocks ⇐ read_u8;
  if decide (BlockSync.MAXIMUM_NUMBER_OF_BLOCKS < num_blocks) then rfail "Block response exceeds maximum number of blocks" else
  read_many (Z.to_nat num_blocks) read_block.

(** [DataBlocks::ensure_response_is_well_formed]. *)
Fixpoint sequential (blocks : list Block) : bool :=
  match blocks with
  | b :: (b' :: _) as blocks => bool_decide (u32_wrap (height b + 1) = height b') && sequential blocks
  | _ => true
  end.
Definition ensure_response_is_well_formed (blocks : list Block) (start_height end_height : Z) : result unit :=
  _ ← ensure (negb (bool_decide (blocks = []))) "Peer '{peer_ip}' sent an empty block response ({start_height}..{end_height})";
  _ ← ensure (sequential blocks) "Peer '{peer_ip}' sent an invalid block response (blocks are not sequentially ordered)";
  let candidate_start_height := default 0 (height <$> head blocks) in
  let candidate_end_height := u32_wrap (1 + default 0 (height <$> last blocks)) in
  ensure (bool_decide (start_height = candidate_start_height) && bool_decide (end_height = candidate_end_height))
    "Peer '{peer_ip}' sent an invalid block response (range does not match block request)".

(** [ToBytes] and [FromBytes] for [BlockRequest] and [BlockResponse]; a first
    height of 0 announces a consensus version. *)
Definition write_block_request (r : BlockRequest) : list Z := write_u32 (start_height r) ++ write_u32 (end_height r).
Definition read_block_request : reader BlockRequest :=
  read start_height ⇐ read_u32; read end_height ⇐ read_u32; rlift (block_request_new start_height end_height).
Definition write_block_response (r : BlockRequest) (blocks : Data (list Block)) (v : option Z) : result (list Z) :=
  match v with
  | None => Err "Can only serialize block responses of version 2 or greater"
  | Some v =>
      bs ← write_object write_blocks blocks;
      if decide (BlockSync.V12 <= v) then Ok (write_u32 0 ++ write_block_request r ++ bs ++ write_u16 v)
      else Ok (write_block_request r ++ bs)
  end.
Definition read_block_response : reader (BlockRequest * Data (list Block) * option Z) :=
  read first_height ⇐ read_u32;
  read request ⇐ (if decide (first_height = 0) then read_block_request
                  else read end_height ⇐ read_u32; rlift (block_request_new first_height end_height));
  read blocks ⇐ read_data;
  if decide (first_height = 0) then read v ⇐ read_consensus_version; rret (request, blocks, Some v)
  else rret (request, blocks, None).

(** [ToBytes] and [FromBytes] for [ChallengeRequest]: a commit that cannot be
    read is unknown. *)
Definition UNKNOWN_COMMIT_HASH : list Z := replicate 40 63.
Definition read_commit : reader (option (list Z)) := fun bs =>
  match read_exact 40 bs with
  | Ok (sha, rest) => Ok (if bool_decide (sha = UNKNOWN_COMMIT_HASH) then None else Some sha, rest)
  | _ => Ok (None, [])
  end.

(** ** Messages on the wire *)

(** [ToBytes] and [FromBytes] of each message. *)
Definition write_batch_propose (round : Z) (header : Data BatchHeader) : result (list Z) :=
  bs ← write_object write_header header; Ok (write_u64 round ++ bs).
Definition read_batch_propose : reader Event :=
  read round ⇐ read_u64; read header ⇐ read_data; rret (BatchPropose round header).

Definition write_batch_signature (batch_id : Field) (signature : Signature) : list Z :=
  write_field batch_id ++ write_signature signature.
Definition read_batch_signature : reader Event :=
  read batch_id ⇐ read_field; read signature ⇐ read_signature false; rret (BatchSignature batch_id signature).

Definition write_batch_certified (certificate : Data BatchCertificate) : result (list Z) :=
  write_object write_certificate certificate.
Definition read_batch_certified : reader Event := read certificate ⇐ read_data; rret (BatchCertified certificate).

Definition write_certificate_request (certificate_id : Field) : list Z := write_field certificate_id.
Definition read_certificate_request : reader Event :=
  read certificate_id ⇐ read_field; rret (CertificateRequest certificate_id).

Definition write_certificate_response (certificate : BatchCertificate) : result (list Z) := write_certificate certificate.
Definition read_certificate_response : reader Event :=
  read certificate ⇐ read_certificate false; rret (CertificateResponse certificate).

Definition write_challenge_request (version listener_port : Z) (address : Address) (nonce : Z)
    (snarkos_sha : option (list Z)) : list Z :=
  write_u32 version ++ write_u16 listener_port ++ write_address address ++ write_u64 nonce ++
  default UNKNOWN_COMMIT_HASH snarkos_sha.
Definition read_challenge_request : reader Event :=
  read version ⇐ read_u32; read listener_port ⇐ read_u16; read address ⇐ read_address; read nonce ⇐ read_u64;
  read snarkos_sha ⇐ read_commit; rret (ChallengeRequest version listener_port address nonce snarkos_sha).

Definition write_challenge_response (restrictions_id : Field) (signature : Data Signature) (nonce : Z) : result (list Z) :=
  bs ← write_data write_signature signature; Ok (write_field restrictions_id ++ bs ++ write_u64 nonce).
Definition read_challenge_response : reader Event :=
  read restrictions_id ⇐ read_field; read signature ⇐ read_data; read nonce ⇐ read_u64;
  rret (ChallengeResponse restrictions_id signature nonce).

Definition write_disconnect (reason : DisconnectReason) : result (list Z) :=
  match reason with
  | UnknownReason => Err "Cannot serialize unknown disconnect reason"
  | reason => Ok (write_u8 (reason_code reason))
  end.
Definition read_disconnect : reader Event := read index ⇐ read_u8; rret (Disconnect (reason_of_code index)).

Definition write_primary_ping (version : Z) (block_locators : BlockLocators)
    (primary_certificate : Data BatchCertificate) : result (list Z) :=
  ls ← write_locators block_locators; bs ← write_object write_certificate primary_certificate;
  Ok (write_u32 version ++ ls ++ bs).
Definition read_primary_ping : reader Event :=
  read version ⇐ read_u32; read block_locators ⇐ read_locators; read primary_certificate ⇐ read_data;
  rret (PrimaryPing version block_locators primary_certificate).

Definition write_transmission_request (transmission_id : TransmissionID) : list Z := write_transmission_id transmission_id.
Definition read_transmission_request : reader Event :=
  read transmission_id ⇐ read_transmission_id; rret (TransmissionRequest transmission_id).

Definition write_transmission_response (transmission_id : TransmissionID) (transmission : Transmission) : result (list Z) :=
  bs ← write_transmission transmission; Ok (write_transmission_id transmission_id ++ bs).
Definition read_transmission_response : reader Event :=
  read transmission_id ⇐ read_transmission_id; read transmission ⇐ read_transmission;
  rret (TransmissionResponse transmission_id transmission).

Definition write_validators_response (validators : list (SocketAddr * Address)) : result (list Z) :=
  n ← try_u16 (len validators);
  Ok (write_u16 n ++ (validators ≫= fun v => write_socket v.1 ++ write_address v.2)).
Definition read_validators_response : reader Event :=
  read num_validators ⇐ read_u16;
  if decide (LATEST_MAX_CERTIFICATES < num_validators) then rfail "Number of validators exceeds the maximum number of validators ({num_validators} > {max_certificates})" else
  read vs ⇐ read_many (Z.to_nat num_validators) (read a ⇐ read_socket; read address ⇐ read_address; rret (a, address));
  rret (ValidatorsResponse (imap_of_list vs)).

Definition write_worker_ping (transmission_ids : list TransmissionID) : result (list Z) :=
  n ← try_u16 (len transmission_ids); Ok (write_u16 n ++ (transmission_ids ≫= write_transmission_id)).
Definition read_worker_ping : reader Event :=
  read n ⇐ read_u16; read ids ⇐ read_many (Z.to_nat n) read_transmission_id; rret (WorkerPing (iset_of_list id ids)).

(** ** Events *)

(** [ToBytes for Event], after the ID. *)
Definition write_message (e : Event) : result (list Z) :=
  match e with
  | BatchPropose round header => write_batch_propose round header
  | BatchSignature batch_id signature => Ok (write_batch_signature batch_id signature)
  | BatchCertified certificate => write_batch_certified certificate
  | EventBlockRequest request => Ok (write_block_request request)
  | BlockResponse request blocks v => write_block_response request blocks v
  | CertificateRequest id => Ok (write_certificate_request id)
  | CertificateResponse certificate => write_certificate_response certificate
  | ChallengeRequest version listener_port address nonce sha =>
      Ok (write_challenge_request version listener_port address nonce sha)
  | ChallengeResponse restrictions_id signature nonce => write_challenge_response restrictions_id signature nonce
  | Disconnect reason => write_disconnect reason
  | PrimaryPing version locators certificate => write_primary_ping version locators certificate
  | TransmissionRequest id => Ok (write_transmission_request id)
  | TransmissionResponse id transmission => write_transmission_response id transmission
  | ValidatorsRequest => Ok []
  | ValidatorsResponse validators => write_validators_response validators
  | WorkerPing ids => write_worker_ping ids
  end.

Definition write_event (e : Event) : result (list Z) := bs ← write_message e; Ok (write_u16 (event_id e) ++ bs).

(** [FromBytes for Event], after the ID. *)
Definition read_message (id : Z) : reader Event :=
  match id with
  | 0 => read_batch_propose
  | 1 => read_batch_signature
  | 2 => read_batch_certified
  | 3 => read request ⇐ read_block_request; rret (EventBlockRequest request)
  | 4 => read r ⇐ read_block_response; rret (BlockResponse r.1.1 r.1.2 r.2)
  | 5 => read_certificate_request
  | 6 => read_certificate_response
  | 7 => read_challenge_request
  | 8 => read_challenge_response
  | 9 => read_disconnect
  | 10 => read_primary_ping
  | 11 => read_transmission_request
  | 12 => read_transmission_response
  | 13 => rret ValidatorsRequest
  | 14 => read_validators_response
  | 15 => read_worker_ping
  | _ => rfail "Unknown event ID {id}"
  end.

Definition read_event (bytes : list Z) : result Event :=
  match read_u16 bytes with
  | Ok (id, rest) =>
      r ← read_message id rest;
      if decide (r.2 = []) then Ok r.1 else Err "Leftover bytes in an Event"
  | _ => Err "Unknown event ID"
  end.

(** ** Framing *)

Context {FC : FrameOps}.

Definition MAX_HANDSHAKE_SIZE : Z := 1024 * 1024.
Definition MAX_EVENT_SIZE : Z := 256 * 1024 * 1024.

(** [EventCodec::encode] into the buffer [dst]: all of it becomes the frame. *)
Definition encode (max_frame : Z) (e : Event) (dst : list Z) : result (list Z) :=
  bs ← Storage.or_bail "serialization error" (write_event e);
  encode_frame max_frame (dst ++ bs) [].

(** [EventCodec::decode], with what is left of the buffer. *)
Definition decode (max_frame : Z) (source : list Z) : result (option Event * list Z) :=
  r ← decode_frame max_frame source;
  match r with
  | (None, rest) => Ok (None, rest)
  | (Some bytes, rest) => e ← Storage.or_bail "invalid data" (read_event bytes); Ok (Some e, rest)
  end.

(** The events of a stream, in order, until no whole frame is left. *)
Fixpoint decode_stream (fuel : nat) (max_frame : Z) (source : list Z) : result (list Event * list Z) :=
  match fuel with
  | O => Ok ([], source)
  | S fuel =>
      r ← decode max_frame source;
      match r with
      | (None, rest) => Ok ([], rest)
      | (Some e, rest) => es ← decode_stream fuel max_frame rest; Ok (e :: es.1, es.2)
      end
  end.

(** A stream of events, each encoded into an empty buffer. *)
Fixpoint encode_stream (max_frame : Z) (es : list Event) : result (list Z) :=
  match es with
  | [] => Ok []
  | e :: es => bs ← encode max_frame e []; bss ← encode_stream max_frame es; Ok (bs ++ bss)
  end.

(** ** What arrives *)

(** The reader of [Data] keeps the bytes of the object. *)
Definition as_buffer {T} (w : T -> result (list Z)) (d : Data T) : Data T :=
  match object_bytes w d with Ok bytes => Buffer bytes | _ => d end.
Definition unscoped (a : SocketAddr) : SocketAddr :=
  match a with SocketAddrV6 ip port _ _ => SocketAddrV6 ip port 0 0 | a => a end.

(** The consensus version is sent from V12 on, and a commit of 40 question marks
    is an unknown one. *)
Definition sent_version (v : option Z) : option Z := v ≫= fun v => if decide (BlockSync.V12 <= v) then Some v else None.
Definition known_commit (sha : option (list Z)) : option (list Z) :=
  sha ≫= fun sha => if decide (sha = UNKNOWN_COMMIT_HASH) then None else Some sha.

Definition received (e : Event) : Event :=
  match e with
  | BatchPropose round header => BatchPropose round (as_buffer write_header header)
  | BatchCertified certificate => BatchCertified (as_buffer write_certificate certificate)
  | BlockResponse request blocks v =>
      BlockResponse request (as_buffer write_blocks blocks) (sent_version v)
  | ChallengeRequest version listener_port address nonce sha =>
      ChallengeRequest version listener_port address nonce (known_commit sha)
  | ChallengeResponse restrictions_id signature nonce =>
      ChallengeResponse restrictions_id (Buffer (data_bytes write_signature signature)) nonce
  | PrimaryPing version locators certificate => PrimaryPing version locators (as_buffer write_certificate certificate)
  | TransmissionResponse id transmission => TransmissionResponse id (as_read transmission)
  | ValidatorsResponse validators => ValidatorsResponse (imap_of_list ((fun v => (unscoped v.1, v.2)) <$> validators))
  | e => e
  end.

(** ** Well-formed events *)

Definition fits {T} (w : T -> result (list Z)) (d : Data T) : Prop :=
  match object_bytes w d with Ok bytes => len bytes <= MAX_DATA_SIZE | _ => True end.
Definition request_wf (r : BlockRequest) : Prop := 0 < start_height r < end_height r /\ end_height r <= u32_max.
Definition response_wf (r : BlockRequest) (blocks : Data (list Block)) (v : option Z) : Prop :=
  request_wf r /\ fits write_blocks blocks /\ forall v', v = Some v' -> 0 < v' <= LATEST_CONSENSUS_VERSION.
Definition commit_wf (sha : option (list Z)) : Prop := forall sha', sha = Some sha' -> len sha' = 40.
Definition locators_wf (l : BlockLocators) : Prop :=
  exists last, locators_at last l /\ last < MAX_CHECKPOINTS * CHECKPOINT_INTERVAL /\ last < u32_max.
Definition socket_wf (a : SocketAddr) : Prop :=
  match a with
  | SocketAddrV4 ip port => is_u32 ip /\ is_u16 port
  | SocketAddrV6 ip port _ _ => 0 <= ip < 2 ^ 128 /\ is_u16 port
  end.

(** What the Rust types and the constructors of the messages give, the sizes a
    receiver allows, and for the locators and the certificates the validity that
    a receiver checks. *)
Definition event_wf (e : Event) : Prop :=
  match e with
  | BatchPropose round header => is_u64 round /\ fits write_header header
  | BatchCertified certificate => fits write_certificate certificate
  | EventBlockRequest request => request_wf request
  | BlockResponse request blocks v => response_wf request blocks v
  | CertificateResponse c => header_typed (batch_header c) /\ header_valid (batch_header c) /\ certificate_valid c
  | ChallengeRequest version listener_port _ nonce sha =>
      is_u32 version /\ is_u16 listener_port /\ is_u64 nonce /\ commit_wf sha
  | ChallengeResponse _ signature nonce => len (data_bytes write_signature signature) <= MAX_DATA_SIZE /\ is_u64 nonce
  | PrimaryPing version locators certificate =>
      is_u32 version /\ fits write_certificate certificate /\ locators_wf locators
  | TransmissionResponse _ transmission => transmission_fits transmission
  | ValidatorsResponse validators =>
      len validators <= LATEST_MAX_CERTIFICATES /\ forall v, v ∈ validators -> socket_wf v.1
  | WorkerPing ids => NoDup ids
  | _ => True
  end.

(** ** Block responses *)

Lemma sequential_spec blocks h :
  (forall b, b ∈ blocks -> 0 <= height b < u32_max) ->
  (sequential blocks = true /\ (forall b, head blocks = Some b -> height b = h)) <->
  height <$> blocks = seqZ h (len blocks).
Proof.
  revert h. induction blocks as [|b blocks IH]; intros h Hb; [cbn; naive_solver|].
  rewrite len_cons, seqZ_cons by (pose proof (len_nonneg blocks); lia).
  replace (Z.pred (1 + len blocks)) with (len blocks) by lia. rewrite fmap_cons.
  assert (forall b, b ∈ blocks -> 0 <= height b < u32_max) as Hbs by set_solver.
  assert (0 <= height b < u32_max) as Hh by (apply Hb; left). specialize (IH (Z.succ h) Hbs).
  destruct blocks as [|b' blocks].
  - cbn. split; [intros [_ H]; by rewrite (H b)|]. intros H. split; [done|]. intros ? [= <-]. congruence.
  - cbn [sequential]. rewrite andb_true_iff, bool_decide_eq_true, u32_wrap_id by mlia. split.
    + intros [[He Hs] Hf]. f_equal; [by apply Hf|]. apply IH. split; [done|]. intros ? [= <-].
      rewrite <-He, (Hf b) by done. lia.
    + intros H. injection H as H1 H2. apply IH in H2 as [Hs Hf]. pose proof (Hf b' eq_refl).
      split; [split; [lia|exact Hs]|]. by intros ? [= <-].
Qed.

(** A block response is well formed exactly when its blocks are those of the
    requested range, in order. *)
Theorem well_formed_response (blocks : list Block) (start_height end_height : Z) :
  (forall b, b ∈ blocks -> 0 <= height b < u32_max) ->
  ensure_response_is_well_formed blocks start_height end_height = Ok tt <->
  start_height < end_height /\ height <$> blocks = seqZ start_height (end_height - start_height).
Proof.
  intros Hb. pose proof (len_nonneg blocks) as Hlen. pose proof (sequential_spec blocks start_height Hb) as Hs.
  unfold ensure_response_is_well_formed. destruct blocks as [|b blocks].
  { cbn. split; [done|]. intros [Hlt He]. apply (f_equal length) in He. rewrite length_seqZ in He. cbn in He. lia. }
  destruct (last (b :: blocks)) as [l|] eqn:Hl; [|by apply last_None in Hl].
  assert (0 <= height l < u32_max) as Hlb by (apply Hb; by apply last_Some_elem_of).
  assert (height <$> b :: blocks = seqZ start_height (len (b :: blocks)) ->
          height l = start_height + len (b :: blocks) - 1) as Hlast.
  { intros He. apply (f_equal last) in He. rewrite fmap_last, Hl in He. cbn in He.
    rewrite last_lookup, length_seqZ in He. apply eq_sym, lookup_seqZ in He as [-> ?]. rewrite len_cons in *. lia. }
  rewrite ensure_bind by done. cbn [head fmap option_fmap option_map from_option]. unfold id.
  rewrite u32_wrap_id by mlia. split.
  - intros H. simp_ok.
    match goal with H : _ && _ = true |- _ => apply andb_true_iff in H as [->%bool_decide_eq_true ->%bool_decide_eq_true] end.
    assert (height <$> b :: blocks = seqZ (height b) (len (b :: blocks))) as He
      by (apply Hs; split; [done|by intros ? [= <-]]).
    specialize (Hlast He). rewrite len_cons in Hlast. pose proof (len_nonneg blocks). split; [lia|].
    etrans; [exact He|]. f_equal. rewrite len_cons. lia.
  - intros [Hlt He]. assert (len (b :: blocks) = end_height - start_height) as Hn.
    { apply (f_equal len) in He. rewrite len_fmap, len_seqZ in He by lia. done. }
    rewrite <-Hn in He. apply Hs in He as Hsq. destruct Hsq as [Hsq Hf]. rewrite (Hf b) by done.
    rewrite ensure_bind by done. rewrite (Hlast He), Hn. apply ensure_Ok.
    rewrite !bool_decide_eq_true_2 by lia. done.
Qed.

(** ** Round trips *)

Section RoundTrip.
Context {NL : NetworkLaws N}.

Lemma reads_object {T} (w : T -> result (list Z)) d bs :
  write_object w d = Ok bs -> fits w d -> reads read_data bs (as_buffer w d).
Proof.
  unfold write_object, fits, as_buffer. intros Hw Hf.
  destruct (object_bytes w d) as [bytes| | |]; [|done..]. by apply (reads_data (fun _ => []) (Buffer (T := T) bytes)).
Qed.

Lemma reads_socket a : socket_wf a -> reads read_socket (write_socket a) (unscoped a).
Proof.
  destruct a as [ip port|ip port f s]; intros [Hip Hport]; cbn [write_socket unscoped];
    (eapply reads_bind; [apply reads_u8; mlia|]).
  - rewrite decide_True by done. eapply reads_bind; [by apply reads_u32|].
    eapply reads_bind_last; [by apply reads_u16|]. apply reads_ret.
  - rewrite decide_False, decide_True by done. eapply reads_bind; [by apply reads_uint|].
    eapply reads_bind_last; [by apply reads_u16|]. apply reads_ret.
Qed.

Lemma block_request_new_Ok r : request_wf r -> block_request_new (start_height r) (end_height r) = Ok r.
Proof.
  intros [Hs He]. unfold block_request_new. rewrite !decide_False by lia. by destruct r.
Qed.

Lemma reads_block_request r : request_wf r -> reads read_block_request (write_block_request r) r.
Proof.
  intros Hr. pose proof Hr as [Hs He].
  eapply reads_bind; [apply reads_u32; mlia|]. eapply reads_bind_last; [apply reads_u32; mlia|].
  by apply reads_lift, block_request_new_Ok.
Qed.

Lemma reads_consensus_version v :
  0 < v <= LATEST_CONSENSUS_VERSION -> reads read_consensus_version (write_u16 v) v.
Proof.
  unfold LATEST_CONSENSUS_VERSION. intros Hv. eapply reads_bind_last; [apply reads_u16; mlia|].
  rewrite decide_False, decide_True by (unfold LATEST_CONSENSUS_VERSION; lia). apply reads_ret.
Qed.

Lemma reads_block_response request blocks v bs :
  response_wf request blocks v -> write_block_response request blocks v = Ok bs ->
  reads read_block_response bs (request, as_buffer write_blocks blocks, sent_version v).
Proof.
  intros (Hr & Hb & Hv) Hw. destruct v as [v|]; [|done]. specialize (Hv v eq_refl).
  unfold write_block_response in Hw. unfold sent_version. cbn [mbind option_bind]. simp_ok. case_decide; apply Ok_inj in Hw as <-.
  - eapply reads_bind; [apply reads_u32; mlia|]. rewrite !decide_True by done.
    eapply reads_bind; [by apply reads_block_request|]. eapply reads_bind; [by eapply reads_object|].
    eapply reads_bind_last; [by apply reads_consensus_version|]. apply reads_ret.
  - pose proof Hr as [Hs He]. unfold write_block_request. rewrite <-app_assoc.
    eapply reads_bind; [apply reads_u32; mlia|]. rewrite !decide_False by lia.
    eapply reads_bind.
    { eapply reads_bind_last; [apply reads_u32; mlia|]. by apply reads_lift, block_request_new_Ok. }
    eapply reads_bind_last; [by eapply reads_object|]. rewrite decide_False by lia. apply reads_ret.
Qed.

Lemma reads_commit (sha : option (list Z)) :
  commit_wf sha -> reads read_commit (default UNKNOWN_COMMIT_HASH sha) (known_commit sha).
Proof.
  intros Hl rest. unfold read_commit. rewrite read_exact_app.
  - destruct sha as [sha|]; cbn; [|by rewrite bool_decide_eq_true_2]. by do 2 case_decide.
  - destruct sha; cbn; [by apply Hl|done].
Qed.

Lemma reads_locators l bs : locators_wf l -> write_locators l = Ok bs -> reads read_locators bs l.
Proof.
  intros (last & Hat & Hc & Hm) Hw rest. rewrite (locators_round_trip last l) by done. by rewrite decide_True.
Qed.

Lemma reads_validators vs :
  (forall v, v ∈ vs -> socket_wf v.1) ->
  reads (read_many (length vs) (read a ⇐ read_socket; read address ⇐ read_address; rret (a, address)))
    (vs ≫= fun v => write_socket v.1 ++ write_address v.2) ((fun v => (unscoped v.1, v.2)) <$> vs).
Proof.
  intros Hv. apply reads_many_as. intros v ?%Hv. eapply reads_bind; [by apply reads_socket|].
  eapply reads_bind_last; [apply reads_address|]. apply reads_ret.
Qed.

(** The blocks of a response that keeps to the maximum are read back. *)
Lemma reads_blocks {BL : BlockBytesLaws BB} blocks bs :
  len blocks <= BlockSync.MAXIMUM_NUMBER_OF_BLOCKS -> write_blocks blocks = Ok bs -> reads read_blocks bs blocks.
Proof.
  unfold BlockSync.MAXIMUM_NUMBER_OF_BLOCKS. intros Hl Hw. pose proof (len_nonneg blocks) as H0.
  unfold write_blocks in Hw. rewrite Z.mod_small in Hw by lia. case_decide as Hd; [done|]. apply Ok_inj in Hw as <-.
  eapply reads_bind; [apply reads_u8; mlia|]. rewrite decide_False by done.
  unfold len. rewrite Nat2Z.id, take_ge by lia. apply reads_many. intros b _. apply reads_block.
Qed.

(** Reads the fields of a message one after the other. *)
Ltac reads_fields :=
  repeat first
    [ apply reads_ret
    | eapply reads_bind_last; [solve [eauto with codec|by eapply reads_object|by apply reads_data]|]
    | eapply reads_bind; [solve [eauto with codec|by eapply reads_object|by apply reads_data|by eapply reads_locators]|] ].

Ltac unfold_messages :=
  unfold write_batch_propose, write_batch_signature, write_batch_certified, write_certificate_request,
    write_certificate_response, write_challenge_request, write_challenge_response, write_disconnect, write_primary_ping, write_transmission_request, write_transmission_response, write_validators_response, write_worker_ping in *.

Lemma reads_message e bs :
  event_wf e -> write_message e = Ok bs -> reads (read_message (event_id e)) bs (received e).
Proof.
  intros Hwf Hw. destruct e; cbn [write_message event_id received read_message event_wf] in *; destruct_and?.
  all: try solve [unfold_messages; simp_ok; reads_fields].
  - simp_ok. eapply reads_bind_last; [by apply reads_block_request|apply reads_ret].
  - eapply reads_bind_last; [by apply reads_block_response|apply reads_ret].
  - by eapply reads_bind_last; [eapply reads_certificate|apply reads_ret].
  - apply Ok_inj in Hw as <-. do 3 (eapply reads_bind; [eauto with codec|]). eapply reads_bind; [eauto with codec|].
    eapply reads_bind_last; [by apply reads_commit|]. apply reads_ret.
  - destruct reason; try discriminate Hw; apply Ok_inj in Hw as <-;
      (eapply reads_bind_last; [apply reads_u8; cbn; mlia|apply reads_ret]).
  - simp_ok. eapply reads_bind_last; [apply reads_transmission_id|apply reads_ret].
  - unfold_messages. simp_ok. eapply reads_bind; [apply reads_transmission_id|].
    eapply reads_bind_last; [by apply reads_transmission|apply reads_ret].
  - unfold_messages. simp_ok. match goal with H : try_u16 _ = _ |- _ => apply try_u16_Ok in H as [-> Hn] end.
    eapply reads_bind; [by apply reads_u16, is_u16_len|]. rewrite decide_False by lia.
    eapply reads_bind_last; [|apply reads_ret]. unfold len. rewrite Nat2Z.id. by apply reads_validators.
  - unfold_messages. simp_ok. match goal with H : try_u16 _ = _ |- _ => apply try_u16_Ok in H as [-> Hn] end.
    eapply reads_bind; [by apply reads_u16, is_u16_len|].
    eapply reads_bind_last.
    { unfold len. rewrite Nat2Z.id. apply reads_many. intros. apply reads_transmission_id. }
    rewrite iset_of_list_id by (by rewrite list_fmap_id). apply reads_ret.
Qed.

Lemma read_written e bs rest :
  event_wf e -> write_event e = Ok bs ->
  read_event (bs ++ rest) = if decide (rest = []) then Ok (received e) else Err "Leftover bytes in an Event".
Proof.
  intros Hwf Hw. unfold write_event in Hw. simp_ok. unfold read_event.
  rewrite <-app_assoc, (reads_u16 (event_id e)) by (destruct e; cbn; mlia).
  by rewrite (reads_message e) by done.
Qed.

(** A list of more validators than there may be certificates in a round is
    written, and refused by the reader. *)
Theorem validators_response_refused (validators : list (SocketAddr * Address)) :
  LATEST_MAX_CERTIFICATES < len validators <= u16_max ->
  exists bs, write_event (ValidatorsResponse validators) = Ok bs /\
    read_event bs = Err "Number of validators exceeds the maximum number of validators ({num_validators} > {max_certificates})".
Proof.
  intros Hl. unfold write_event. cbn [write_message]. unfold write_validators_response, try_u16. rewrite decide_True by lia.
  eexists. split; [done|]. unfold read_event. rewrite reads_u16 by (cbn; mlia). cbn [event_id read_message].
  unfold read_validators_response. erewrite rbind_reads by (apply reads_u16, is_u16_len; lia).
  by rewrite decide_True by lia.
Qed.

(** C22: a validator that reads the bytes of a well-formed event gets the event
    that was sent: the same fields, with every object it carries as the bytes of
    the object.  With anything after them the bytes are refused. *)
Theorem event_round_trip (e : Event) (bs : list Z) :
  event_wf e -> write_event e = Ok bs ->
  read_event bs = Ok (received e) /\
  forall junk, junk <> [] -> read_event (bs ++ junk) = Err "Leftover bytes in an Event".
Proof.
  intros Hwf Hw. split.
  - pose proof (read_written e bs [] Hwf Hw) as Hr. by rewrite app_nil_r in Hr.
  - intros junk Hj. rewrite (read_written e) by done. by rewrite decide_False.
Qed.

Section Stream.
Context {FL : FrameLaws FC}.

(** A frame holds what was in the buffer, followed by the event. *)
Lemma decode_encoded_into m e dst bs frame rest :
  write_event e = Ok bs -> encode m e dst = Ok frame ->
  decode m (frame ++ rest) = (e ← Storage.or_bail "invalid data" (read_event (dst ++ bs)); Ok (Some e, rest)).
Proof.
  intros Hw He. unfold encode in He. rewrite Hw in He. cbn in He. unfold decode. by erewrite decode_encoded by done.
Qed.

Lemma decode_encoded_event m e frame rest :
  event_wf e -> encode m e [] = Ok frame -> decode m (frame ++ rest) = Ok (Some (received e), rest).
Proof.
  intros Hwf He. destruct (write_event e) as [bs| | |] eqn:Hw; [|by unfold encode in He; rewrite Hw in He..].
  rewrite (decode_encoded_into m e [] bs) by done. cbn [app]. rewrite <-(app_nil_r bs).
  by rewrite (read_written e) by done.
Qed.

(** The events a validator sends over a connection, each encoded when
    nothing waits in the write buffer, are decoded by its peer to the events that
    were sent, all of them and in their order, and no bytes are left over. *)
Theorem stream_round_trip (m : Z) (es : list Event) (bytes : list Z) (fuel : nat) :
  (forall e, e ∈ es -> event_wf e) -> encode_stream m es = Ok bytes -> (length es < fuel)%nat ->
  decode_stream fuel m bytes = Ok (received <$> es, []).
Proof.
  revert bytes fuel. induction es as [|e es IH]; intros bytes [|fuel] Hwf He Hf; try (cbn in Hf; lia); cbn in He.
  - simp_ok. cbn [decode_stream]. unfold decode. by rewrite decode_nothing.
  - simp_ok. cbn [decode_stream]. rewrite (decode_encoded_event m e) by (try apply Hwf; set_solver).
    cbn. rewrite (IH _ fuel); [done|set_solver|done|cbn in Hf; lia].
Qed.
End Stream.
End RoundTrip.

End Events.
End Events.

(** ** Concrete validators *)

Definition test_write_block (b : Z * ascii * ascii) : list Z := write_u32 b.1.1 ++ ascii_write b.1.2 ++ ascii_write b.2.
Definition test_read_block : reader (Z * ascii * ascii) :=
  read h ⇐ read_u32; read x ⇐ ascii_read; read y ⇐ ascii_read; rret (h, x, y).
#[export] Instance TestBlockBytes : BlockBytes TestBlocks :=
  {| write_block := test_write_block; read_block := test_read_block |}.

(** A frame is its length in four bytes, and its content. *)
#[export] Instance TestFrames : FrameOps := {|
  encode_frame m payload dst :=
    if decide (len payload <= Z.min m u32_max) then Ok (dst ++ write_u32 (len payload) ++ payload)
    else Err "frame size too big";
  decode_frame m source :=
    match read_u32 source with
    | Ok (n, rest) =>
        if decide (m < n) then Err "frame size too big" else
        if decide (len rest < n) then Ok (None, source) else Ok (Some (take (Z.to_nat n) rest), drop (Z.to_nat n) rest)
    | _ => Ok (None, source)
    end;
|}.

#[export] Instance TestFrames_laws : FrameLaws TestFrames.
Proof.
  split; [|done]. intros m payload frame rest H. cbn in H |- *. case_decide as Hl; [|done]. apply Ok_inj in H as <-.
  cbn [app]. rewrite <-app_assoc, reads_u32 by (apply is_u32_len; lia).
  rewrite decide_False by lia. rewrite decide_False by (rewrite len_app; pose proof (len_nonneg rest); lia).
  unfold len. by rewrite Nat2Z.id, take_app_length, drop_app_length.
Qed.

Abbreviation TestEvent := (Events.Event (N := TestNetwork) (B := TestBlocks)).

Definition request5 : Events.BlockRequest := Events.mk_block_request 5 7.
Definition response5 : TestEvent :=
  Events.BlockResponse request5 (Object [(5, "e"%char, "d"%char); (6, "f"%char, "e"%char)]) (Some 12).
Definition sample_events : list TestEvent :=
  [Events.CertificateRequest "c"%char; response5;
   Events.WorkerPing [IdSolution "s"%char "x"%char; IdTransaction "t"%char "y"%char];
   Events.Disconnect Events.ProtocolViolation;
   Events.ValidatorsResponse [(SocketAddrV4 16777343 5000, "a"%char); (SocketAddrV6 1 5001 3 4, "b"%char)]].

Lemma sample_events_wf : forall e, e ∈ sample_events -> Events.event_wf e.
Proof.
  intros e He. unfold sample_events in He. set_unfold. destruct_or! He; subst; cbn -[Z.le Z.lt]; try done.
  - split_and!; [unfold Events.request_wf; cbn; mlia|cbv; congruence|intros v [= <-]; done].
  - repeat constructor; set_solver.
  - split; [done|]. intros v Hv. set_unfold. destruct_or! Hv; subst; cbn; split; mlia.
Qed.

Definition bytes_of (r : result (list Z)) : list Z := match r with Ok bs => bs | _ => [] end.
Definition response5_bytes : list Z := Eval vm_compute in bytes_of (Events.write_event response5).
Definition sample_bytes : list Z :=
  Eval vm_compute in bytes_of (Events.encode_stream Events.MAX_EVENT_SIZE sample_events).

Lemma response5_written : Events.write_event response5 = Ok response5_bytes.
Proof. vm_refl. Qed.
Lemma sample_encoded : Events.encode_stream Events.MAX_EVENT_SIZE sample_events = Ok sample_bytes.
Proof. vm_refl. Qed.

Lemma event_round_trip_witness :
  Events.event_wf response5 /\ Events.read_event response5_bytes = Ok (Events.received response5).
Proof.
  assert (Events.event_wf response5) as Hwf by (apply sample_events_wf; set_solver). split; [done|].
  apply (Events.event_round_trip response5 response5_bytes Hwf response5_written).
Defined.

Lemma stream_round_trip_witness :
  Events.decode_stream 6 Events.MAX_EVENT_SIZE sample_bytes = Ok (Events.received <$> sample_events, []).
Proof. apply Events.stream_round_trip; [apply sample_events_wf|apply sample_encoded|cbn; lia]. Defined.

(** An event that is encoded while another still waits in the buffer, as after
    a write that timed out, makes one frame with it, which the peer cannot read:
    both are lost and the connection with them. *)
Theorem encode_unflushed_garbled :
  let request : TestEvent := Events.CertificateRequest "c"%char in
  let first := bytes_of (Events.encode Events.MAX_EVENT_SIZE request []) in
  let both := bytes_of (Events.encode Events.MAX_EVENT_SIZE (Events.ValidatorsRequest : TestEvent) first) in
  is_ok (Events.encode Events.MAX_EVENT_SIZE request []) = true /\
  is_ok (Events.encode Events.MAX_EVENT_SIZE (Events.ValidatorsRequest : TestEvent) first) = true /\
  Events.decode (N := TestNetwork) (B := TestBlocks) Events.MAX_EVENT_SIZE both = Err "invalid data".
Proof. split_and!; vm_refl. Qed.

(** A response with 256 blocks is written as one with none: the number of
    blocks is cut to a byte before it is compared with the maximum. *)
Theorem blocks_cut_to_byte :
  Events.write_blocks (replicate 256 (1, "a"%char, "b"%char) : list (Block (BlockData := TestBlocks))) = Ok [0].
Proof. vm_refl. Qed.
