(* ===== verification/Messages.v ===== *)
(** * Router messages

    The messages that clients, provers and validators exchange over the peer to
    peer network (node/router/messages/src): their encodings, the size check and
    the codec, and the message versions a node accepts.

    A message is read as it was sent, with the objects it carries as their bytes.
    The size check compares the whole message of a transaction with the limit on
    the transaction itself. *)

From S2P Require Import Prelude Bytes Network Sockets Committee Narwhal Lru StorageService Ledger Storage Locators SyncState BlockSync Events.
Import Locators.

(** [Header::write_le] and [Header::read_le]. *)
Class HeaderBytes := {
  Header : Type;
  write_block_header : Header -> list Z;
  read_block_header : reader Header;
}.
Class HeaderBytesLaws (H : HeaderBytes) :=
  reads_block_header : forall h, reads read_block_header (write_block_header h) h.

(** [NodeType] (node/network/src/node_type.rs) and its encoding. *)
Inductive NodeType := Client | Prover | NodeValidator | BootstrapClient.
#[export] Instance NodeType_eq_dec : EqDecision NodeType.
Proof. solve_decision. Defined.

Definition write_node_type (t : NodeType) : list Z :=
  write_u8 match t with Client => 0 | Prover => 1 | NodeValidator => 2 | BootstrapClient => 3 end.
Definition read_node_type : reader NodeType :=
  read x ⇐ read_u8;
  match x with
  | 0 => rret Client | 1 => rret Prover | 2 => rret NodeValidator | 3 => rret BootstrapClient
  | _ => rfail "Invalid node type: expected 0..=3, got {x}."
  end.

Module Messages.
Section Messages.
Context `{N : Network} {B : BlockData} {BB : BlockBytes B} {HB : HeaderBytes}.

(** ** Messages *)

Inductive DisconnectReason :=
| ExceededForkRange | InvalidChallengeResponse | InvalidForkDepth | INeedToSyncFirst | NoReasonGiven
| ProtocolViolation | OutdatedClientVersion | PeerHasDisconnected | PeerRefresh | ShuttingDown | SyncComplete
| TooManyFailures | TooManyPeers | YouNeedToSyncFirst | YourPortIsClosed (port : Z) | SelfConnect
| NoExternalPeersAllowed | AlreadyConnecting | AlreadyConnected | UnknownReason.

Inductive Message :=
| BlockRequest (request : Events.BlockRequest)
| BlockResponse (request : Events.BlockRequest) (blocks : Data (list Block)) (latest_consensus_version : option Z)
| ChallengeRequest (version listener_port : Z) (node_type : NodeType) (address : Address) (nonce : Z)
    (snarkos_sha : option (list Z))
| ChallengeResponse (genesis_header : Header) (restrictions_id : Field) (signature : Data Signature) (nonce : Z)
| Disconnect (reason : DisconnectReason)
| PeerRequest
| PeerResponse (peers : list (SocketAddr * option Z))
| Ping (version : Z) (node_type : NodeType) (block_locators : option BlockLocators)
| Pong (is_fork : option bool)
| PuzzleRequest
| PuzzleResponse (epoch_hash : BlockHash) (block_header : Data Header)
| UnconfirmedSolution (solution_id : SolutionID) (solution : Data Solution)
| UnconfirmedTransaction (transaction_id : TransactionID) (transaction : Data Transaction).

(** ** Versions *)

(** [Message::VERSIONS] and [Message::latest_message_version]. *)
Definition VERSIONS : list (Z * Z) :=
  [(5, 17); (7, 18); (8, 19); (9, 20); (10, 21); (11, 22); (12, 23); (13, 24); (14, 25); (15, 26)].
Definition latest_message_version : Z := default 0 (snd <$> last VERSIONS).

(** [slice::binary_search_by] on the keys of a sorted array: the index of the
    key, or where it would be. *)
Fixpoint binary_search (v : Z) (l : list (Z * Z)) : nat + nat :=
  match l with
  | [] => inr 0%nat
  | p :: l =>
      if decide (p.1 = v) then inl 0%nat else
      if decide (v < p.1) then inr 0%nat else
      match binary_search v l with inl i => inl (S i) | inr i => inr (S i) end
  end.

(** [Message::lowest_accepted_message_version]; an index outside of the array
    panics. *)
Definition version_at (i : nat) : result Z :=
  match VERSIONS !! i with Some p => Ok p.2 | None => Panic "index out of bounds" end.
Definition lowest_accepted_message_version (current_block_height : Z) : result Z :=
  match CONSENSUS_VERSION current_block_height with
  | inl _ => Ok latest_message_version
  | inr seek_version =>
      match binary_search seek_version VERSIONS with
      | inl index => version_at index
      | inr index => version_at (index - 1)
      end
  end.

(** ** Encodings *)

(** [Message::id]. *)
Definition message_id (m : Message) : Z :=
  match m with
  | BlockRequest _ => 0 | BlockResponse _ _ _ => 1 | ChallengeRequest _ _ _ _ _ _ => 2 | ChallengeResponse _ _ _ _ => 3
  | Disconnect _ => 4 | PeerRequest => 5 | PeerResponse _ => 6 | Ping _ _ _ => 7 | Pong _ => 8 | PuzzleRequest => 9
  | PuzzleResponse _ _ => 10 | UnconfirmedSolution _ _ => 11 | UnconfirmedTransaction _ _ => 12
  end.

Definition write_challenge_request (version listener_port : Z) (node_type : NodeType) (address : Address) (nonce : Z)
    (snarkos_sha : option (list Z)) : list Z :=
  write_u32 version ++ write_u16 listener_port ++ write_node_type node_type ++ write_address address ++ write_u64 nonce ++
  default Events.UNKNOWN_COMMIT_HASH snarkos_sha.
Definition read_challenge_request : reader Message :=
  read version ⇐ read_u32; read listener_port ⇐ read_u16; read node_type ⇐ read_node_type;
  read address ⇐ read_address; read nonce ⇐ read_u64; read snarkos_sha ⇐ Events.read_commit;
  rret (ChallengeRequest version listener_port node_type address nonce snarkos_sha).

Definition write_challenge_response (genesis_header : Header) (restrictions_id : Field) (signature : Data Signature)
    (nonce : Z) : result (list Z) :=
  bs ← write_data write_signature signature;
  Ok (write_block_header genesis_header ++ write_field restrictions_id ++ bs ++ write_u64 nonce).
Definition read_challenge_response : reader Message :=
  read genesis_header ⇐ read_block_header; read restrictions_id ⇐ read_field; read signature ⇐ read_data;
  read nonce ⇐ read_u64; rret (ChallengeResponse genesis_header restrictions_id signature nonce).

(** [ToBytes] and [FromBytes] for [DisconnectReason]. *)
Definition write_reason (r : DisconnectReason) : result (list Z) :=
  match r with
  | ExceededForkRange => Ok (write_u8 0)
  | InvalidChallengeResponse => Ok (write_u8 1)
  | InvalidForkDepth => Ok (write_u8 2)
  | INeedToSyncFirst => Ok (write_u8 3)
  | NoReasonGiven => Ok (write_u8 4)
  | ProtocolViolation => Ok (write_u8 5)
  | OutdatedClientVersion => Ok (write_u8 6)
  | PeerHasDisconnected => Ok (write_u8 7)
  | PeerRefresh => Ok (write_u8 8)
  | ShuttingDown => Ok (write_u8 9)
  | SyncComplete => Ok (write_u8 10)
  | TooManyFailures => Ok (write_u8 11)
  | TooManyPeers => Ok (write_u8 12)
  | YouNeedToSyncFirst => Ok (write_u8 13)
  | YourPortIsClosed port => Ok (write_u8 14 ++ write_u16 port)
  | SelfConnect => Ok (write_u8 15)
  | NoExternalPeersAllowed => Ok (write_u8 16)
  | AlreadyConnecting => Ok (write_u8 17)
  | AlreadyConnected => Ok (write_u8 18)
  | UnknownReason => Err "Cannot serialize unknown disconnect reason"
  end.
Definition read_reason : reader DisconnectReason :=
  read index ⇐ read_u8;
  match index with
  | 0 => rret ExceededForkRange
  | 1 => rret InvalidChallengeResponse
  | 2 => rret InvalidForkDepth
  | 3 => rret INeedToSyncFirst
  | 4 => rret NoReasonGiven
  | 5 => rret ProtocolViolation
  | 6 => rret OutdatedClientVersion
  | 7 => rret PeerHasDisconnected
  | 8 => rret PeerRefresh
  | 9 => rret ShuttingDown
  | 10 => rret SyncComplete
  | 11 => rret TooManyFailures
  | 12 => rret TooManyPeers
  | 13 => rret YouNeedToSyncFirst
  | 14 => read port ⇐ read_u16; rret (YourPortIsClosed port)
  | 15 => rret SelfConnect
  | 16 => rret NoExternalPeersAllowed
  | 17 => rret AlreadyConnecting
  | 18 => rret AlreadyConnected
  | _ => rret UnknownReason
  end.

(** [ToBytes] and [FromBytes] for [PeerResponse]: a first byte of zero announces
    heights. *)
Definition write_peer (p : SocketAddr * option Z) : list Z :=
  Events.write_socket p.1 ++ match p.2 with Some h => write_u8 1 ++ write_u32 h | None => write_u8 0 end.
Definition write_peer_response (peers : list (SocketAddr * option Z)) : result (list Z) :=
  if decide (u8_max < len peers) then Err "Too many peers: {}" else
  Ok (write_u8 0 ++ write_u8 (len peers) ++ (peers ≫= write_peer)).
Definition read_peer (contains_heights : bool) : reader (SocketAddr * option Z) :=
  read addr ⇐ Events.read_socket;
  if contains_heights then
    read x ⇐ read_u8;
    match x with
    | 1 => read h ⇐ read_u32; rret (addr, Some h)
    | 0 => rret (addr, None)
    | _ => rfail "Invalid peer height"
    end
  else rret (addr, None).
Definition read_peer_response : reader Message :=
  read count_or_version ⇐ read_u8;
  if decide (count_or_version = 0) then
    read count ⇐ read_u8; read peers ⇐ read_many (Z.to_nat count) (read_peer true); rret (PeerResponse peers)
  else read peers ⇐ read_many (Z.to_nat count_or_version) (read_peer false); rret (PeerResponse peers).

Definition write_ping (version : Z) (node_type : NodeType) (block_locators : option BlockLocators) : result (list Z) :=
  bs ← match block_locators with
       | Some locators => ls ← write_locators locators; Ok (write_u8 1 ++ ls)
       | None => Ok (write_u8 0)
       end;
  Ok (write_u32 version ++ write_node_type node_type ++ bs).
Definition read_ping : reader Message :=
  read version ⇐ read_u32; read node_type ⇐ read_node_type; read selector ⇐ read_u8;
  match selector with
  | 0 => rret (Ping version node_type None)
  | 1 => read locators ⇐ read_locators; rret (Ping version node_type (Some locators))
  | _ => rfail "Invalid block locators marker"
  end.

Definition write_pong (is_fork : option bool) : list Z :=
  write_u8 match is_fork with Some true => 0 | Some false => 1 | None => 2 end.
Definition read_pong : reader Message :=
  read x ⇐ read_u8;
  match x with
  | 0 => rret (Pong (Some true))
  | 1 => rret (Pong (Some false))
  | 2 => rret (Pong None)
  | _ => rfail "Invalid 'Pong' message"
  end.

Definition write_puzzle_response (epoch_hash : BlockHash) (block_header : Data Header) : result (list Z) :=
  bs ← write_data write_block_header block_header; Ok (write_block_hash epoch_hash ++ bs).
Definition read_puzzle_response : reader Message :=
  read epoch_hash ⇐ read_block_hash; read block_header ⇐ read_data; rret (PuzzleResponse epoch_hash block_header).

Definition write_unconfirmed_solution (solution_id : SolutionID) (solution : Data Solution) : result (list Z) :=
  bs ← write_data write_solution solution; Ok (write_solution_id solution_id ++ bs).
Definition read_unconfirmed_solution : reader Message :=
  read solution_id ⇐ read_solution_id; read solution ⇐ read_data; rret (UnconfirmedSolution solution_id solution).

Definition write_unconfirmed_transaction (transaction_id : TransactionID) (transaction : Data Transaction) : result (list Z) :=
  bs ← write_data write_transaction transaction; Ok (write_transaction_id transaction_id ++ bs).
Definition read_unconfirmed_transaction : reader Message :=
  read transaction_id ⇐ read_transaction_id; read transaction ⇐ read_data;
  rret (UnconfirmedTransaction transaction_id transaction).

(** [ToBytes for Message]. *)
Definition write_content (m : Message) : result (list Z) :=
  match m with
  | BlockRequest request => Ok (Events.write_block_request request)
  | BlockResponse request blocks v => Events.write_block_response request blocks v
  | ChallengeRequest version listener_port node_type address nonce sha =>
      Ok (write_challenge_request version listener_port node_type address nonce sha)
  | ChallengeResponse header restrictions_id signature nonce =>
      write_challenge_response header restrictions_id signature nonce
  | Disconnect reason => write_reason reason
  | PeerRequest => Ok []
  | PeerResponse peers => write_peer_response peers
  | Ping version node_type locators => write_ping version node_type locators
  | Pong is_fork => Ok (write_pong is_fork)
  | PuzzleRequest => Ok []
  | PuzzleResponse epoch_hash header => write_puzzle_response epoch_hash header
  | UnconfirmedSolution id solution => write_unconfirmed_solution id solution
  | UnconfirmedTransaction id transaction => write_unconfirmed_transaction id transaction
  end.
Definition write_le (m : Message) : result (list Z) := bs ← write_content m; Ok (write_u16 (message_id m) ++ bs).

(** [FromBytes for Message]. *)
Definition read_content (id : Z) : reader Message :=
  match id with
  | 0 => read request ⇐ Events.read_block_request; rret (BlockRequest request)
  | 1 => read r ⇐ Events.read_block_response; rret (BlockResponse r.1.1 r.1.2 r.2)
  | 2 => read_challenge_request
  | 3 => read_challenge_response
  | 4 => read reason ⇐ read_reason; rret (Disconnect reason)
  | 5 => rret PeerRequest
  | 6 => read_peer_response
  | 7 => read_ping
  | 8 => read_pong
  | 9 => rret PuzzleRequest
  | 10 => read_puzzle_response
  | 11 => read_unconfirmed_solution
  | 12 => read_unconfirmed_transaction
  | _ => rfail "Unknown message ID {id}"
  end.
Definition read_le (bytes : list Z) : result Message :=
  r ← (read id ⇐ read_u16; read_content id) bytes;
  if decide (r.2 = []) then Ok r.1 else Err "Leftover bytes in a Message".

(** ** The codec *)

(** The last of [N::MAX_TRANSACTION_SIZE], which is that of the consensus
    version V14. *)
Definition LATEST_MAX_TRANSACTION_SIZE : Z := 768000.
Definition MAXIMUM_HANDSHAKE_MESSAGE_SIZE : Z := 1024 * 1024.
Definition MAXIMUM_MESSAGE_SIZE : Z := 128 * 1024 * 1024.

(** [Message::check_size]. *)
Definition check_size (bytes : list Z) : result unit :=
  if decide (len bytes < 2) then Err "invalid message" else
  let id := le_value (take 2 bytes) in
  if decide (id = 12 /\ LATEST_MAX_TRANSACTION_SIZE < len bytes) then Err "transaction is too large" else Ok tt.

Context {FC : FrameOps}.

(** [MessageCodec::encode] into the buffer [dst]. *)
Definition encode (max_frame : Z) (m : Message) (dst : list Z) : result (list Z) :=
  bs ← Storage.or_bail "serialization error" (write_le m);
  encode_frame max_frame (dst ++ bs) [].

(** [MessageCodec::decode], with what is left of the buffer. *)
Definition decode (max_frame : Z) (source : list Z) : result (option Message * list Z) :=
  r ← decode_frame max_frame source;
  match r with
  | (None, rest) => Ok (None, rest)
  | (Some bytes, rest) =>
      _ ← check_size bytes;
      m ← Storage.or_bail "invalid data" (read_le bytes); Ok (Some m, rest)
  end.

(** ** What arrives *)

Definition received (m : Message) : Message :=
  match m with
  | BlockResponse request blocks v =>
      BlockResponse request (Events.as_buffer Events.write_blocks blocks) (Events.sent_version v)
  | ChallengeRequest version listener_port node_type address nonce sha =>
      ChallengeRequest version listener_port node_type address nonce (Events.known_commit sha)
  | ChallengeResponse header restrictions_id signature nonce =>
      ChallengeResponse header restrictions_id (Buffer (data_bytes write_signature signature)) nonce
  | PeerResponse peers => PeerResponse ((fun p => (Events.unscoped p.1, p.2)) <$> peers)
  | PuzzleResponse epoch_hash header => PuzzleResponse epoch_hash (Buffer (data_bytes write_block_header header))
  | UnconfirmedSolution id solution => UnconfirmedSolution id (Buffer (data_bytes write_solution solution))
  | UnconfirmedTransaction id tx => UnconfirmedTransaction id (Buffer (data_bytes write_transaction tx))
  | m => m
  end.

(** What the Rust types and constructors give, the sizes a receiver allows, and
    the validity of locators. *)
Definition message_wf (m : Message) : Prop :=
  match m with
  | BlockRequest request => Events.request_wf request
  | BlockResponse request blocks v => Events.response_wf request blocks v
  | ChallengeRequest version listener_port _ _ nonce sha =>
      is_u32 version /\ is_u16 listener_port /\ is_u64 nonce /\ Events.commit_wf sha
  | ChallengeResponse _ _ signature nonce =>
      len (data_bytes write_signature signature) <= MAX_DATA_SIZE /\ is_u64 nonce
  | Disconnect (YourPortIsClosed port) => is_u16 port
  | PeerResponse peers => forall p, p ∈ peers -> Events.socket_wf p.1 /\ forall h, p.2 = Some h -> is_u32 h
  | Ping version _ locators => is_u32 version /\ forall l, locators = Some l -> Events.locators_wf l
  | PuzzleResponse _ header => len (data_bytes write_block_header header) <= MAX_DATA_SIZE
  | UnconfirmedSolution _ solution => len (data_bytes write_solution solution) <= MAX_DATA_SIZE
  | UnconfirmedTransaction _ tx => len (data_bytes write_transaction tx) <= MAX_DATA_SIZE
  | _ => True
  end.

(** ** Round trips *)

Section RoundTrip.
Context {NL : NetworkLaws N} {HL : HeaderBytesLaws HB}.

Lemma reads_node_type t : reads read_node_type (write_node_type t) t.
Proof. eapply reads_bind_last; [apply reads_u8; destruct t; mlia|]. destruct t; apply reads_ret. Qed.

Lemma reads_reason r bs : message_wf (Disconnect r) -> write_reason r = Ok bs -> reads read_reason bs r.
Proof.
  intros Hwf Hw. destruct r; cbn [write_reason] in Hw; try discriminate Hw; apply Ok_inj in Hw as <-;
    try solve [eapply reads_bind_last; [apply reads_u8; mlia|apply reads_ret]].
  eapply reads_bind; [apply reads_u8; mlia|]. eapply reads_bind_last; [by apply reads_u16|apply reads_ret].
Qed.

Lemma reads_peer p :
  Events.socket_wf p.1 -> (forall h, p.2 = Some h -> is_u32 h) ->
  reads (read_peer true) (write_peer p) (Events.unscoped p.1, p.2).
Proof.
  destruct p as [a [h|]]; cbn [fst snd]; intros Ha Hh; eapply reads_bind; try by apply Events.reads_socket.
  - eapply reads_bind; [apply reads_u8; mlia|].
    eapply reads_bind_last; [by apply reads_u32, Hh|apply reads_ret].
  - eapply reads_bind_last; [apply reads_u8; mlia|apply reads_ret].
Qed.

Lemma reads_peer_response peers bs :
  message_wf (PeerResponse peers) -> write_peer_response peers = Ok bs ->
  reads read_peer_response bs (received (PeerResponse peers)).
Proof.
  intros Hwf Hw. pose proof (len_nonneg peers). unfold write_peer_response in Hw.
  case_decide as Hl; [discriminate Hw|]. apply Ok_inj in Hw as <-.
  eapply reads_bind; [apply reads_u8; mlia|]. rewrite decide_True by done.
  eapply reads_bind; [apply reads_u8; mlia|]. eapply reads_bind_last; [|apply reads_ret].
  unfold len. rewrite Nat2Z.id. apply reads_many_as. intros p [Ha Hh]%Hwf. by apply reads_peer.
Qed.

Lemma reads_ping version node_type locators bs :
  message_wf (Ping version node_type locators) -> write_ping version node_type locators = Ok bs ->
  reads read_ping bs (Ping version node_type locators).
Proof.
  intros [Hv Hl] Hw. unfold write_ping in Hw.
  destruct locators as [l|]; simp_ok; (eapply reads_bind; [by apply reads_u32|]);
    (eapply reads_bind; [apply reads_node_type|]).
  - eapply reads_bind; [apply reads_u8; mlia|].
    eapply reads_bind_last; [eapply Events.reads_locators; [by apply Hl|done]|apply reads_ret].
  - eapply reads_bind_last; [apply reads_u8; mlia|apply reads_ret].
Qed.

Lemma reads_content m bs :
  message_wf m -> write_content m = Ok bs -> reads (read_content (message_id m)) bs (received m).
Proof.
  intros Hwf Hw. destruct m; cbn [write_content message_id received read_content] in *; cbn [message_wf] in Hwf.
  - apply Ok_inj in Hw as <-. by eapply reads_bind_last; [apply Events.reads_block_request|apply reads_ret].
  - by eapply reads_bind_last; [apply Events.reads_block_response|apply reads_ret].
  - destruct_and!. apply Ok_inj in Hw as <-.
    do 2 (eapply reads_bind; [eauto with codec|]). eapply reads_bind; [apply reads_node_type|].
    do 2 (eapply reads_bind; [eauto with codec|]). eapply reads_bind_last; [by apply Events.reads_commit|apply reads_ret].
  - destruct_and!. unfold write_challenge_response in Hw. simp_ok.
    eapply reads_bind; [apply reads_block_header|]. eapply reads_bind; [apply reads_field|].
    eapply reads_bind; [by apply reads_data|]. eapply reads_bind_last; [by apply reads_u64|apply reads_ret].
  - by eapply reads_bind_last; [apply reads_reason|apply reads_ret].
  - apply Ok_inj in Hw as <-. apply reads_ret.
  - by apply reads_peer_response.
  - by apply reads_ping.
  - apply Ok_inj in Hw as <-. eapply reads_bind_last; [apply reads_u8; destruct is_fork as [[]|]; mlia|].
    destruct is_fork as [[]|]; apply reads_ret.
  - apply Ok_inj in Hw as <-. apply reads_ret.
  - unfold write_puzzle_response in Hw. simp_ok.
    eapply reads_bind; [apply reads_block_hash|]. eapply reads_bind_last; [by apply reads_data|apply reads_ret].
  - unfold write_unconfirmed_solution in Hw. simp_ok.
    eapply reads_bind; [apply reads_solution_id|]. eapply reads_bind_last; [by apply reads_data|apply reads_ret].
  - unfold write_unconfirmed_transaction in Hw. simp_ok.
    eapply reads_bind; [apply reads_transaction_id|]. eapply reads_bind_last; [by apply reads_data|apply reads_ret].
Qed.

Lemma message_id_range m : is_u16 (message_id m).
Proof. destruct m; cbn; mlia. Qed.

Lemma message_read_written m bs rest :
  message_wf m -> write_le m = Ok bs ->
  read_le (bs ++ rest) = if decide (rest = []) then Ok (received m) else Err "Leftover bytes in a Message".
Proof.
  intros Hwf Hw. unfold write_le in Hw. simp_ok. unfold read_le.
  rewrite <-app_assoc. erewrite rbind_reads by apply reads_u16, message_id_range.
  by rewrite (reads_content m) by done.
Qed.

Lemma check_size_written m bs :
  write_le m = Ok bs ->
  check_size bs = if decide (message_id m = 12 /\ LATEST_MAX_TRANSACTION_SIZE < len bs)
                  then Err "transaction is too large" else Ok tt.
Proof.
  intros Hw. unfold write_le in Hw. simp_ok. unfold check_size.
  assert (len (write_u16 (message_id m)) = 2) as H2 by done.
  rewrite decide_False by (rewrite len_app; pose proof (len_nonneg x); lia).
  rewrite (take_app_le (write_u16 (message_id m)) x) by done. rewrite take_ge by done.
  pose proof (message_id_range m) as Hr. unfold write_u16, write_uint. rewrite le_value_bytes, Z.mod_small by mlia. done.
Qed.

Context {FL : FrameLaws FC}.

(** A message that is sent when nothing waits in the write buffer is decoded
    by the peer to the message that was sent, with the objects it carries as their
    bytes; the only exception is a transaction whose message is longer than the
    limit on transactions, which the peer refuses. *)
Theorem message_round_trip (max_frame : Z) (m : Message) (bs frame rest : list Z) :
  message_wf m -> write_le m = Ok bs -> encode max_frame m [] = Ok frame ->
  decode max_frame (frame ++ rest) =
  if decide (message_id m = 12 /\ LATEST_MAX_TRANSACTION_SIZE < len bs) then Err "transaction is too large"
  else Ok (Some (received m), rest).
Proof.
  intros Hwf Hw He. unfold encode in He. rewrite Hw in He. cbn in He.
  unfold decode. erewrite decode_encoded by done. cbn. rewrite (check_size_written m) by done.
  case_decide; [done|]. cbn. rewrite <-(app_nil_r bs). by rewrite (message_read_written m) by done.
Qed.

(** A transaction that keeps to the limit on transactions is refused when it
    comes close to it, because the IDs and lengths of its message count as well. *)
Theorem large_transaction_refused (max_frame : Z) (id : TransactionID) (d : Data Transaction) (frame rest : list Z) :
  LATEST_MAX_TRANSACTION_SIZE - 7 - len (write_transaction_id id) < len (data_bytes write_transaction d)
    <= LATEST_MAX_TRANSACTION_SIZE ->
  encode max_frame (UnconfirmedTransaction id d) [] = Ok frame ->
  decode max_frame (frame ++ rest) = Err "transaction is too large".
Proof.
  intros Hl He. assert (exists bs, write_le (UnconfirmedTransaction id d) = Ok bs /\
    len bs = 7 + len (write_transaction_id id) + len (data_bytes write_transaction d)) as (bs & Hw & Hn).
  { unfold write_le, write_content, write_unconfirmed_transaction, write_data, try_u32.
    unfold LATEST_MAX_TRANSACTION_SIZE in Hl. rewrite decide_True by mlia. eexists. split; [done|].
    assert (len (write_u16 12) = 2) by done. assert (len (write_u8 1) = 1) by done.
    assert (len (write_u32 (len (data_bytes write_transaction d))) = 4) by done.
    cbn [message_id]. rewrite !len_app. lia. }
  unfold encode in He. rewrite Hw in He. cbn in He. unfold decode. erewrite decode_encoded by done. cbn.
  rewrite (check_size_written _ _ Hw), decide_True by (split; [done|lia]). done.
Qed.
End RoundTrip.

(** ** Accepted versions *)

(** The lowest version a node accepts is 17 before V7, and rises with the
    consensus version until the latest version, which it always accepts; the
    lookup never leaves the table. *)
Theorem lowest_accepted_formula (height : Z) :
  lowest_accepted_message_version height =
  Ok match CONSENSUS_VERSION height with
     | inl _ => latest_message_version
     | inr v => if decide (v < 7) then 17 else Z.min latest_message_version (v + 11)
     end.
Proof.
  unfold lowest_accepted_message_version. destruct (CONSENSUS_VERSION height) as [|v]; [done|].
  change latest_message_version with 26. unfold VERSIONS. cbn [binary_search fst snd].
  repeat case_decide; try (exfalso; lia); unfold version_at; cbn; f_equal; lia.
Qed.

End Messages.
End Messages.

(** ** Concrete nodes *)

#[export] Instance TestHeaders : HeaderBytes :=
  {| Header := ascii; write_block_header := ascii_write; read_block_header := ascii_read |}.
#[export] Instance TestHeaders_laws : HeaderBytesLaws TestHeaders.
Proof. exact reads_ascii. Qed.

Definition peers_message : Messages.Message (N := TestNetwork) (B := TestBlocks) (HB := TestHeaders) :=
  Messages.PeerResponse [(SocketAddrV4 16777343 4130, Some 9); (SocketAddrV6 1 4131 0 0, None)].
Definition peers_message_bytes : list Z := Eval vm_compute in bytes_of (Messages.write_le peers_message).
Definition peers_message_frame : list Z :=
  Eval vm_compute in bytes_of (Messages.encode Messages.MAXIMUM_MESSAGE_SIZE peers_message []).

Lemma peers_message_wf : Messages.message_wf peers_message.
Proof.
  intros p Hp. unfold peers_message in Hp. set_unfold. destruct_or! Hp; subst; cbn; split_and!; try mlia;
    intros h [=]; subst; mlia.
Qed.
Lemma peers_message_written : Messages.write_le peers_message = Ok peers_message_bytes.
Proof. vm_refl. Qed.
Lemma peers_message_encoded :
  Messages.encode Messages.MAXIMUM_MESSAGE_SIZE peers_message [] = Ok peers_message_frame.
Proof. vm_refl. Qed.

Lemma message_round_trip_witness :
  Messages.decode Messages.MAXIMUM_MESSAGE_SIZE (peers_message_frame ++ [7]) = Ok (Some (Messages.received peers_message), [7]).
Proof.
  rewrite (Messages.message_round_trip _ peers_message peers_message_bytes peers_message_frame [7]
    peers_message_wf peers_message_written peers_message_encoded).
  by rewrite decide_False by (intros [? _]; discriminate).
Defined.
