(* ===== verification/Peers.v ===== *)
(** * The peer pool

    The connections of a node to its peers: the pool of known peers by their
    listener address (node/network/src/peer.rs, peering.rs), the resolver from
    connected addresses and Aleo addresses back to listener addresses
    (resolver.rs), and the IP bans and statistics of the TCP stack
    (node/tcp/src/helpers/banned_peers.rs, known_peers.rs, stats.rs).

    The locks are taken for one operation each, so an operation is one
    definition.  The clock and the order in which a [HashMap] is traversed are
    arguments. *)

From stdpp Require Import sorting.
From S2P Require Import Prelude Bytes Network Sockets Committee Narwhal Lru StorageService Ledger Storage Locators SyncState BlockSync Events Messages.

(** ** IP addresses *)

(** [std::net::IpAddr], as the number its octets make. *)
Inductive IpAddr := V4 (ip : Z) | V6 (ip : Z).
#[export] Instance IpAddr_eq_dec : EqDecision IpAddr.
Proof. solve_decision. Defined.
#[export] Instance IpAddr_countable : Countable IpAddr.
Proof.
  refine (inj_countable' (fun a => match a with V4 ip => inl ip | V6 ip => inr ip end)
    (fun s => match s with inl ip => V4 ip | inr ip => V6 ip end) _). by intros [].
Defined.

(** [SocketAddr::ip], [SocketAddr::port] and [SocketAddr::from((ip, port))]. *)
Definition socket_ip (a : SocketAddr) : IpAddr :=
  match a with SocketAddrV4 ip _ => V4 ip | SocketAddrV6 ip _ _ _ => V6 ip end.
Definition socket_port (a : SocketAddr) : Z :=
  match a with SocketAddrV4 _ port => port | SocketAddrV6 _ port _ _ => port end.
Definition socket_from (ip : IpAddr) (port : Z) : SocketAddr :=
  match ip with V4 ip => SocketAddrV4 ip port | V6 ip => SocketAddrV6 ip port 0 0 end.

(** [Ipv4Addr] and [Ipv6Addr] predicates of the standard library. *)
Definition ipv4 (a b c d : Z) : Z := ((a * 256 + b) * 256 + c) * 256 + d.
Definition is_loopback (a : IpAddr) : bool :=
  match a with V4 ip => bool_decide (ip / 2 ^ 24 = 127) | V6 ip => bool_decide (ip = 1) end.
Definition is_unspecified (a : IpAddr) : bool :=
  match a with V4 ip => bool_decide (ip = 0) | V6 ip => bool_decide (ip = 0) end.
Definition is_private (ip : Z) : bool :=
  bool_decide (ip / 2 ^ 24 = 10) || bool_decide (ip / 2 ^ 20 = ipv4 172 16 0 0 / 2 ^ 20) ||
  bool_decide (ip / 2 ^ 16 = ipv4 192 168 0 0 / 2 ^ 16).
Definition is_link_local (ip : Z) : bool := bool_decide (ip / 2 ^ 16 = ipv4 169 254 0 0 / 2 ^ 16).
Definition is_broadcast (ip : Z) : bool := bool_decide (ip = ipv4 255 255 255 255).

(** [is_bogon_ip] and [is_unspecified_or_broadcast_ip]. *)
Definition is_bogon_ip (a : IpAddr) : bool :=
  match a with
  | V4 ip => is_loopback a || is_private ip || is_link_local ip
  | V6 _ => is_loopback a
  end.
Definition is_unspecified_or_broadcast_ip (a : IpAddr) : bool :=
  match a with V4 ip => is_unspecified a || is_broadcast ip | V6 _ => is_unspecified a end.

(** ** Statistics and bans of the TCP stack *)

(** [Stats], with its wrapping counters. *)
Record Stats := mk_stats {
  timestamp : Z; msgs_sent : Z; msgs_received : Z; bytes_sent : Z; bytes_received : Z; failures : Z;
}.
Definition stats_new (now : Z) : Stats := mk_stats now 0 0 0 0 0.
Definition register_failure (s : Stats) : Stats :=
  let '(mk_stats t a b c d f) := s in mk_stats t a b c d (u64_wrap (f + 1)).
Definition register_sent_message (size : Z) (s : Stats) : Stats :=
  let '(mk_stats t a b c d f) := s in mk_stats t (u64_wrap (a + 1)) b (u64_wrap (c + size)) d f.
Definition register_received_message (size : Z) (s : Stats) : Stats :=
  let '(mk_stats t a b c d f) := s in mk_stats t a (u64_wrap (b + 1)) c (u64_wrap (d + size)) f.

(** [KnownPeers]. *)
Definition KnownPeers := gmap IpAddr Stats.
Definition known_add (now : Z) (addr : IpAddr) (k : KnownPeers) : KnownPeers :=
  match k !! addr with
  | None => <[addr := stats_new now]> k
  | Some (mk_stats _ a b c d f) => <[addr := mk_stats now a b c d f]> k
  end.
Definition batch_remove (addrs : list IpAddr) (k : KnownPeers) : KnownPeers := foldl (fun k a => delete a k) k addrs.
Definition known_update (f : Stats -> Stats) (addr : IpAddr) (k : KnownPeers) : KnownPeers := alter f addr k.

(** [BannedPeers]: the time of each ban, in nanoseconds. *)
Definition BannedPeers := gmap IpAddr Z.
Definition update_ban (now : Z) (ip : IpAddr) (b : BannedPeers) : BannedPeers := <[ip := now]> b.
Definition remove_old_bans (now ban_time_in_secs : Z) (b : BannedPeers) : BannedPeers :=
  filter (fun e => (now - e.2) / 10 ^ 9 < ban_time_in_secs) b.

Module Peers.
Section Peers.
Context `{N : Network}.

(** ** Peers *)

Inductive ConnectionMode := ModeGateway | ModeRouter.
#[global] Instance ConnectionMode_eq_dec : EqDecision ConnectionMode.
Proof. solve_decision. Defined.

Record CandidatePeer := mk_candidate {
  c_listener_addr : SocketAddr;
  c_trusted : bool;
  c_last_height_seen : option Z;
  c_last_connection_attempt : option Z;
  c_total_connection_attempts : Z;
}.
Record ConnectedPeer := mk_connected {
  listener_addr : SocketAddr;
  connected_addr : SocketAddr;
  connection_mode : ConnectionMode;
  trusted : bool;
  aleo_addr : Address;
  node_type : NodeType;
  version : Z;
  snarkos_sha : option (list Z);
  last_height_seen : option Z;
  first_seen : Z;
  last_seen : Z;
}.
Inductive Peer :=
| Candidate (peer : CandidatePeer)
| Connecting (listener_addr : SocketAddr) (trusted : bool)
| Connected (peer : ConnectedPeer).

Definition new_candidate (listener_addr : SocketAddr) (trusted : bool) : Peer :=
  Candidate (mk_candidate listener_addr trusted None None 0).
Definition new_connecting (listener_addr : SocketAddr) (trusted : bool) : Peer := Connecting listener_addr trusted.

(** [Peer::is_trusted], [Peer::listener_addr], [Peer::last_height_seen] and the
    tests of the connection status. *)
Definition peer_trusted (p : Peer) : bool :=
  match p with Candidate p => c_trusted p | Connecting _ t => t | Connected p => trusted p end.
Definition peer_listener (p : Peer) : SocketAddr :=
  match p with Candidate p => c_listener_addr p | Connecting a _ => a | Connected p => listener_addr p end.
Definition peer_last_height_seen (p : Peer) : option Z :=
  match p with Candidate _ => None | Connecting _ _ => None | Connected p => last_height_seen p end.
Definition is_candidate (p : Peer) : bool := match p with Candidate _ => true | _ => false end.
Definition peer_connecting (p : Peer) : bool := match p with Connecting _ _ => true | _ => false end.
Definition as_connected (p : Peer) : option ConnectedPeer := match p with Connected p => Some p | _ => None end.
Definition peer_connected (p : Peer) : bool := bool_decide (is_Some (as_connected p)).

(** [Peer::upgrade_to_connected] and [Peer::downgrade_to_candidate]. *)
Definition upgrade_to_connected (now : Z) (connected_addr : SocketAddr) (listener_port : Z) (aleo_address : Address)
    (node_type : NodeType) (node_version : Z) (snarkos_sha : option (list Z)) (mode : ConnectionMode) (p : Peer) : Peer :=
  Connected (mk_connected (socket_from (socket_ip connected_addr) listener_port) connected_addr mode (peer_trusted p)
    aleo_address node_type node_version snarkos_sha None now now).
Definition downgrade_to_candidate (listener_addr : SocketAddr) (p : Peer) : Peer :=
  Candidate (mk_candidate listener_addr (peer_trusted p) (peer_last_height_seen p) None 0).

(** ** The resolver *)

Record Resolver := mk_resolver {
  to_listener : gmap SocketAddr SocketAddr;
  address_peers : gmap Address SocketAddr;
}.
Definition empty_resolver : Resolver := mk_resolver ∅ ∅.
Definition get_listener (r : Resolver) (connected_addr : SocketAddr) : option SocketAddr := to_listener r !! connected_addr.
Definition get_peer_ip_for_address (r : Resolver) (aleo_addr : Address) : option SocketAddr := address_peers r !! aleo_addr.
Definition insert_peer (listener_addr connected_addr : SocketAddr) (aleo_addr : option Address) (r : Resolver) : Resolver :=
  mk_resolver (<[connected_addr := listener_addr]> (to_listener r))
    match aleo_addr with Some a => <[a := listener_addr]> (address_peers r) | None => address_peers r end.
Definition resolver_remove (connected_addr : SocketAddr) (aleo_addr : option Address) (r : Resolver) : Resolver :=
  mk_resolver (delete connected_addr (to_listener r))
    match aleo_addr with Some a => delete a (address_peers r) | None => address_peers r end.

(** ** The pool *)

(** The constants and parameters of a [PeerPoolHandling]. *)
Record Config := mk_config {
  MAXIMUM_POOL_SIZE : Z;
  PEER_SLASHING_COUNT : Z;
  is_dev : bool;
  trusted_peers_only : bool;
  own_type : NodeType;
  local_ip : SocketAddr;
  max_connected_peers : Z;
}.

(** What a node keeps about its peers. *)
Record Pool := mk_pool {
  peer_pool : gmap SocketAddr Peer;
  resolver : Resolver;
  banned_peers : BannedPeers;
  known_peers : KnownPeers;
}.
Definition set_pool (m : gmap SocketAddr Peer) (p : Pool) : Pool := mk_pool m (resolver p) (banned_peers p) (known_peers p).

Inductive ConnectError :=
| SelfConnect (address : SocketAddr) | MaximumConnectionsReached (limit : Z) | AlreadyConnected (address : SocketAddr)
| AlreadyConnecting (address : SocketAddr) | BannedIp (ip : IpAddr) | NoExternalPeersAllowed.

(** [PeerPoolHandling::is_local_ip] and [PeerPoolHandling::is_valid_peer_ip]. *)
Definition is_local_ip (C : Config) (addr : SocketAddr) : bool :=
  bool_decide (addr = local_ip C) ||
  (is_unspecified (socket_ip addr) || is_loopback (socket_ip addr)) && bool_decide (socket_port addr = socket_port (local_ip C)).
Definition is_valid_peer_ip (C : Config) (ip : SocketAddr) : bool :=
  negb (is_local_ip C ip) && negb (is_bogon_ip (socket_ip ip)) && negb (is_unspecified_or_broadcast_ip (socket_ip ip)).

(** Queries. *)
Definition is_ip_banned (p : Pool) (ip : IpAddr) : bool := bool_decide (is_Some (banned_peers p !! ip)).
Definition get_connected_peer (p : Pool) (a : SocketAddr) : option ConnectedPeer := peer_pool p !! a ≫= as_connected.
Definition resolve_to_ambiguous (p : Pool) (a : SocketAddr) : option SocketAddr := connected_addr <$> get_connected_peer p a.
Definition resolve_to_aleo_addr (p : Pool) (a : SocketAddr) : option Address := aleo_addr <$> get_connected_peer p a.
Definition is_connecting (p : Pool) (a : SocketAddr) : bool := default false (peer_connecting <$> peer_pool p !! a).
Definition is_connected (p : Pool) (a : SocketAddr) : bool := default false (peer_connected <$> peer_pool p !! a).
Definition is_trusted (p : Pool) (a : SocketAddr) : bool := default false (peer_trusted <$> peer_pool p !! a).
Definition is_connected_address (p : Pool) (aleo_address : Address) : bool :=
  bool_decide (is_Some (get_peer_ip_for_address (resolver p) aleo_address)).
Definition number_of_peers (p : Pool) : Z := Z.of_nat (size (peer_pool p)).
Definition number_of_connected_peers (p : Pool) : Z :=
  Z.of_nat (size (filter (fun e => peer_connected e.2 = true) (peer_pool p))).
Definition number_of_candidate_peers (p : Pool) : Z :=
  Z.of_nat (size (filter (fun e => is_candidate e.2 = true) (peer_pool p))).
Definition trusted_peers (p : Pool) : gset SocketAddr := dom (filter (fun e => peer_trusted e.2 = true) (peer_pool p)).

(** [PeerPoolHandling::check_connection_attempt]. *)
Definition check_connection_attempt (C : Config) (p : Pool) (a : SocketAddr) : ConnectError + unit :=
  if is_local_ip C a then inl (SelfConnect a) else
  if decide (max_connected_peers C <= number_of_connected_peers p) then inl (MaximumConnectionsReached (max_connected_peers C)) else
  if is_connected p a then inl (AlreadyConnected a) else
  if is_connecting p a then inl (AlreadyConnecting a) else
  if is_ip_banned p (socket_ip a) then inl (BannedIp (socket_ip a)) else
  if trusted_peers_only C && negb (is_trusted p a) then inl NoExternalPeersAllowed else
  inr tt.

(** [PeerPoolHandling::connect], up to the task that opens the connection. *)
Definition connect (C : Config) (now : Z) (a : SocketAddr) (p : Pool) : ConnectError + Pool :=
  match check_connection_attempt C p a with
  | inl e => inl e
  | inr _ =>
      match peer_pool p !! a with
      | Some (Candidate (mk_candidate l t h _ n)) =>
          inr (set_pool (<[a := Candidate (mk_candidate l t h (Some now) (u32_wrap (n + 1)))]> (peer_pool p)) p)
      | _ => inr p
      end
  end.

(** [PeerPoolHandling::add_connecting_peer]. *)
Definition add_connecting_peer (a : SocketAddr) (p : Pool) : ConnectError + Pool :=
  match peer_pool p !! a with
  | None => inr (set_pool (<[a := new_connecting a false]> (peer_pool p)) p)
  | Some (Candidate c) => inr (set_pool (<[a := new_connecting a (c_trusted c)]> (peer_pool p)) p)
  | Some (Connecting _ _) => inl (AlreadyConnecting a)
  | Some (Connected _) => inl (AlreadyConnected a)
  end.

(** [PeerPoolHandling::downgrade_peer_to_candidate]. *)
Definition downgrade_peer_to_candidate (C : Config) (a : SocketAddr) (p : Pool) : bool * Pool :=
  match peer_pool p !! a with
  | None => (false, p)
  | Some peer =>
      let pool := <[a := downgrade_to_candidate a peer]> (peer_pool p) in
      match peer with
      | Connected c =>
          let aleo := if bool_decide (own_type C = BootstrapClient) && bool_decide (connection_mode c = ModeRouter)
                      then None else Some (aleo_addr c) in
          (true, mk_pool pool (resolver_remove (connected_addr c) aleo (resolver p)) (banned_peers p) (known_peers p))
      | _ => (false, set_pool pool p)
      end
  end.

(** [PeerPoolHandling::remove_peer]. *)
Definition remove_peer (a : SocketAddr) (p : Pool) : Pool := set_pool (delete a (peer_pool p)) p.

(** [PeerPoolHandling::update_connected_peer]. *)
Definition update_connected_peer (a : SocketAddr) (f : ConnectedPeer -> ConnectedPeer) (p : Pool) : bool * Pool :=
  match peer_pool p !! a with
  | Some (Connected c) => (true, set_pool (<[a := Connected (f c)]> (peer_pool p)) p)
  | _ => (false, p)
  end.

(** [PeerPoolHandling::ip_ban_peer]; it asks the TCP stack to disconnect from
    the connected address, and does not wait for it. *)
Definition ip_ban_peer (C : Config) (now : Z) (a : SocketAddr) (p : Pool) : option SocketAddr * Pool :=
  if is_dev C then (None, p) else
  let p := mk_pool (peer_pool p) (resolver p) (update_ban now (socket_ip a) (banned_peers p)) (known_peers p) in
  (resolve_to_ambiguous p a, remove_peer a p).

(** ** New candidates *)

(** The filter of [PeerPoolHandling::insert_candidate_peers], and whether an
    entry updates the height of a candidate. *)
Definition is_update (p : Pool) (e : SocketAddr * option Z) : bool :=
  match peer_pool p !! e.1 with
  | Some peer => is_candidate peer && bool_decide (is_Some e.2)
  | None => false
  end.
Definition is_acceptable (C : Config) (p : Pool) (e : SocketAddr * option Z) : bool :=
  negb (is_ip_banned p (socket_ip e.1)) &&
  (if is_dev C then negb (is_bogon_ip (socket_ip e.1)) else is_valid_peer_ip C e.1) &&
  (is_update p e || bool_decide (peer_pool p !! e.1 = None)).

(** The order in which candidates are removed: most failures first, then the
    oldest. *)
Definition slash_key (now : Z) (k : KnownPeers) (a : SocketAddr) : Z * Z :=
  match k !! socket_ip a with Some s => (failures s, timestamp s) | None => (0, now) end.
Definition slash_before (now : Z) (k : KnownPeers) (a b : SocketAddr) : Prop :=
  let '(fa, ta) := slash_key now k a in let '(fb, tb) := slash_key now k b in
  fb < fa \/ fa = fb /\ ta <= tb.
#[global] Instance slash_before_dec now k : RelDecision (slash_before now k).
Proof. unfold slash_before. intros a b. do 2 case_match. apply _. Defined.

Definition is_slashable (p : Pool) (a : SocketAddr) : bool :=
  match peer_pool p !! a with Some peer => is_candidate peer && negb (peer_trusted peer) | None => false end.
Definition peers_to_slash (C : Config) (now : Z) (order : list SocketAddr) (p : Pool) : list SocketAddr :=
  take (Z.to_nat (PEER_SLASHING_COUNT C))
    (merge_sort (slash_before now (known_peers p))
      (filter (fun a => is_slashable p a = true) order)).

Definition insert_candidate (e : SocketAddr * option Z) (m : gmap SocketAddr Peer) : gmap SocketAddr Peer :=
  match m !! e.1 with
  | None => <[e.1 := new_candidate e.1 false]> m
  | Some (Candidate (mk_candidate l t _ at_ n)) => <[e.1 := Candidate (mk_candidate l t e.2 at_ n)]> m
  | Some _ => m
  end.

(** The part of [PeerPoolHandling::insert_candidate_peers] that removes
    candidates when the pool would be full; [order] is that of the traversal of
    the pool. *)
Definition make_room (C : Config) (now : Z) (order : list SocketAddr) (num_new : Z) (p : Pool) : Pool :=
  if decide (MAXIMUM_POOL_SIZE C <= number_of_peers p + num_new /\ PEER_SLASHING_COUNT C <> 0) then
    let slashed := peers_to_slash C now order p in
    mk_pool (filter (fun e => e.1 ∉ slashed) (peer_pool p)) (resolver p) (banned_peers p)
      (batch_remove (socket_ip <$> slashed) (known_peers p))
  else p.

(** [PeerPoolHandling::insert_candidate_peers]. *)
Definition insert_candidate_peers (C : Config) (now : Z) (order : list SocketAddr) (addrs : list (SocketAddr * option Z))
    (p : Pool) : Pool :=
  let addrs := filter (fun e => is_acceptable C p e = true) addrs in
  let num_updates := len (filter (fun e => is_update p e = true) addrs) in
  if decide (addrs = []) then p else
  let p := make_room C now order (len addrs - num_updates) p in
  let addrs := take (Z.to_nat (saturating_sub (MAXIMUM_POOL_SIZE C) (number_of_peers p))) addrs in
  set_pool (foldl (fun m e => insert_candidate e m) (peer_pool p) addrs) p.

(** ** Selections *)

(** The peers in the order of the traversal. *)
Definition peer_values (order : list SocketAddr) (p : Pool) : list Peer := omap (fun a => peer_pool p !! a) order.

(** [PeerPoolHandling::filter_connected_peers] and its uses,
    [PeerPoolHandling::connected_peers] and [PeerPoolHandling::get_candidate_peers]. *)
Definition filter_connected_peers (order : list SocketAddr) (predicate : ConnectedPeer -> bool) (p : Pool) : list ConnectedPeer :=
  filter (fun c => predicate c = true) (omap as_connected (peer_values order p)).
Definition connected_peers (order : list SocketAddr) (p : Pool) : list SocketAddr :=
  filter (fun a => is_connected p a = true) order.
Definition get_candidate_peers (order : list SocketAddr) (p : Pool) : list CandidatePeer :=
  omap (fun peer => match peer with Candidate c => Some c | _ => None end) (peer_values order p).

(** The order of [PeerPoolHandling::get_best_connected_peers] and
    [PeerPoolHandling::save_best_peers]: the greatest height first, an unknown
    one last, then the fewest failures. *)
Definition failures_of (k : KnownPeers) (a : SocketAddr) : Z := default 0 (failures <$> k !! socket_ip a).
Definition best_before (k : KnownPeers) (a b : SocketAddr * option Z) : Prop :=
  let h := fun x : SocketAddr * option Z => default (-1) x.2 in
  h b < h a \/ h a = h b /\ failures_of k a.1 <= failures_of k b.1.
#[global] Instance best_before_dec k : RelDecision (best_before k).
Proof. unfold best_before. intros a b. apply _. Defined.

Definition connected_key (c : ConnectedPeer) : SocketAddr * option Z := (listener_addr c, last_height_seen c).
Definition peer_key (q : Peer) : SocketAddr * option Z := (peer_listener q, peer_last_height_seen q).
Definition best_connected_before (k : KnownPeers) (a b : ConnectedPeer) : Prop :=
  best_before k (connected_key a) (connected_key b).
#[global] Instance best_connected_before_dec k : RelDecision (best_connected_before k).
Proof. intros a b. apply best_before_dec. Defined.
Definition best_peer_before (k : KnownPeers) (a b : Peer) : Prop := best_before k (peer_key a) (peer_key b).
#[global] Instance best_peer_before_dec k : RelDecision (best_peer_before k).
Proof. intros a b. apply best_before_dec. Defined.

Definition truncate {A} (max_entries : option Z) (l : list A) : list A :=
  match max_entries with Some max => take (Z.to_nat max) l | None => l end.
Definition get_best_connected_peers (order : list SocketAddr) (max_entries : option Z) (p : Pool) : list ConnectedPeer :=
  truncate max_entries
    (merge_sort (best_connected_before (known_peers p)) (filter_connected_peers order (fun _ => true) p)).
(** The addresses that [PeerPoolHandling::save_best_peers] writes, with their
    ports. *)
Definition save_best_peers (order : list SocketAddr) (max_entries : option Z) (p : Pool) : gset SocketAddr :=
  list_to_set (peer_listener <$>
    truncate max_entries (merge_sort (best_peer_before (known_peers p)) (peer_values order p))).

(** ** New candidates *)

Lemma insert_candidate_lookup e m a :
  insert_candidate e m !! a =
  if decide (a = e.1) then
    match m !! a with
    | None => Some (new_candidate a false)
    | Some (Candidate (mk_candidate l t _ at_ n)) => Some (Candidate (mk_candidate l t e.2 at_ n))
    | q => q
    end
  else m !! a.
Proof.
  unfold insert_candidate. case_decide as Ha; [subst a|]; repeat case_match; simplify_map_eq; try done.
Qed.

Lemma insert_candidate_size e m : (size (insert_candidate e m) <= S (size m))%nat.
Proof.
  unfold insert_candidate. destruct (m !! e.1) as [[[]| |]|] eqn:E; try lia.
  - rewrite map_size_insert_Some by done. lia.
  - rewrite map_size_insert_None by done. lia.
Qed.

Lemma insert_candidates_size es m : (size (foldl (fun m e => insert_candidate e m) m es) <= size m + length es)%nat.
Proof.
  revert m. induction es as [|e es IH]; intros m; cbn; [lia|].
  pose proof (IH (insert_candidate e m)). pose proof (insert_candidate_size e m). lia.
Qed.

(** What may become of an entry when candidates are added: a candidate may get
    another height, anything else stays. *)
Definition refreshed (q q' : Peer) : Prop :=
  match q, q' with
  | Candidate (mk_candidate l t _ at_ n), Candidate (mk_candidate l' t' _ at_' n') => l = l' /\ t = t' /\ at_ = at_' /\ n = n'
  | _, _ => q = q'
  end.
Lemma refreshed_refl q : refreshed q q.
Proof. by destruct q as [[]| |]. Qed.
Lemma refreshed_trans q q' q'' : refreshed q q' -> refreshed q' q'' -> refreshed q q''.
Proof. destruct q as [[]| |], q' as [[]| |], q'' as [[]| |]; cbn; naive_solver. Qed.

Lemma insert_candidates_old es m a q :
  m !! a = Some q -> exists q', foldl (fun m e => insert_candidate e m) m es !! a = Some q' /\ refreshed q q'.
Proof.
  revert m q. induction es as [|e es IH]; intros m q Hq; cbn; [eauto using refreshed_refl|].
  assert (exists q', insert_candidate e m !! a = Some q' /\ refreshed q q') as (q' & Hq' & Hr).
  { rewrite insert_candidate_lookup, Hq. case_decide; [|eauto using refreshed_refl].
    destruct q as [[]| |]; eexists; split; done. }
  destruct (IH _ _ Hq') as (q'' & -> & Hr'). eauto using refreshed_trans.
Qed.

Lemma insert_candidates_new es m a q :
  m !! a = None -> foldl (fun m e => insert_candidate e m) m es !! a = Some q ->
  a ∈ es.*1 /\ refreshed (new_candidate a false) q.
Proof.
  revert m. induction es as [|e es IH]; intros m Hm Hq; cbn in Hq; [congruence|].
  destruct (decide (a = e.1)) as [->|Hne].
  - split; [cbn; set_solver|].
    assert (insert_candidate e m !! e.1 = Some (new_candidate e.1 false)) as Hn
      by (by rewrite insert_candidate_lookup, decide_True, Hm).
    destruct (insert_candidates_old es _ _ _ Hn) as (q' & Hq' & Hr). congruence.
  - destruct (IH (insert_candidate e m)) as [? ?]; [by rewrite insert_candidate_lookup, decide_False|done|].
    split; [cbn; set_solver|done].
Qed.

Lemma insert_candidates_all es m a :
  a ∈ es.*1 -> is_Some (foldl (fun m e => insert_candidate e m) m es !! a).
Proof.
  revert m. induction es as [|e es IH]; intros m Ha; [by apply not_elem_of_nil in Ha|]. cbn.
  destruct (decide (a = e.1)) as [->|Hne].
  - assert (is_Some (insert_candidate e m !! e.1)) as [q Hq].
    { rewrite insert_candidate_lookup, decide_True by done. by repeat case_match. }
    destruct (insert_candidates_old es _ _ _ Hq) as (? & -> & _). done.
  - apply IH. cbn in Ha. set_solver.
Qed.

Lemma slashed_slashable C now order p a : a ∈ peers_to_slash C now order p -> is_slashable p a = true.
Proof.
  unfold peers_to_slash. intros Ha. apply elem_of_take in Ha as (i & Hi & _). apply list_elem_of_lookup_2 in Hi.
  rewrite merge_sort_Permutation in Hi. by apply list_elem_of_filter in Hi as [? _].
Qed.

Lemma make_room_sub C now order n p a q : peer_pool (make_room C now order n p) !! a = Some q -> peer_pool p !! a = Some q.
Proof. unfold make_room. case_decide; [|done]. cbn. by intros [? _]%map_lookup_filter_Some. Qed.

Lemma make_room_keeps C now order n p a q :
  peer_pool p !! a = Some q -> is_candidate q = false \/ peer_trusted q = true ->
  peer_pool (make_room C now order n p) !! a = Some q.
Proof.
  intros Hq Hk. unfold make_room. case_decide; [|done]. cbn. apply map_lookup_filter_Some. split; [done|].
  intros Hs%slashed_slashable. unfold is_slashable in Hs. cbn in Hs. rewrite Hq in Hs.
  apply andb_true_iff in Hs as [? ?%negb_true_iff]. naive_solver congruence.
Qed.

Lemma make_room_size C now order n p : number_of_peers (make_room C now order n p) <= number_of_peers p.
Proof.
  unfold number_of_peers. apply inj_le, map_subseteq_size. intros a.
  destruct (peer_pool (make_room C now order n p) !! a) as [q|] eqn:E; [|by destruct (peer_pool p !! a)].
  by rewrite (make_room_sub _ _ _ _ _ _ _ E).
Qed.

Lemma make_room_rest C now order n p :
  resolver (make_room C now order n p) = resolver p /\ banned_peers (make_room C now order n p) = banned_peers p.
Proof. unfold make_room. by case_decide. Qed.

(** Adding candidates connects and disconnects nobody. *)
Lemma insert_candidates_connected C now order addrs p l c :
  peer_pool (insert_candidate_peers C now order addrs p) !! l = Some (Connected c) <->
  peer_pool p !! l = Some (Connected c).
Proof.
  unfold insert_candidate_peers. case_decide; [done|]. cbn. set (es := take _ _). set (n := _ - _). set (p1 := make_room _ _ _ _ _). split.
  - intros H1. destruct (peer_pool p1 !! l) as [q|] eqn:E.
    + destruct (insert_candidates_old es _ _ _ E) as (q' & Hq' & Hr). rewrite Hq' in H1. simplify_eq.
      apply make_room_sub in E. destruct q as [[]| |]; cbn in Hr; congruence.
    + by destruct (insert_candidates_new es _ _ _ E H1) as [_ Hr].
  - intros H1. apply (make_room_keeps C now order n) in H1; [|by left]. fold p1 in H1.
    destruct (insert_candidates_old es _ _ _ H1) as (q' & -> & Hr). cbn in Hr. by rewrite Hr.
Qed.

Lemma insert_candidates_resolver C now order addrs p :
  resolver (insert_candidate_peers C now order addrs p) = resolver p.
Proof. unfold insert_candidate_peers. case_decide; [done|]. apply make_room_rest. Qed.

(** Adding candidates keeps the pool within its maximum size, never removes
    or changes a peer that is connected, connecting or trusted, beyond the height
    of a candidate, and adds only addresses that were given, are not banned and
    are acceptable, as untrusted candidates.  Below the maximum size nothing is
    removed and every acceptable address is added. *)
Theorem insert_candidates_spec (C : Config) (now : Z) (order : list SocketAddr) (addrs : list (SocketAddr * option Z))
    (p : Pool) :
  let p' := insert_candidate_peers C now order addrs p in
  (number_of_peers p <= MAXIMUM_POOL_SIZE C -> number_of_peers p' <= MAXIMUM_POOL_SIZE C) /\
  (forall a q, peer_pool p !! a = Some q -> is_candidate q = false \/ peer_trusted q = true ->
     exists q', peer_pool p' !! a = Some q' /\ refreshed q q') /\
  (forall a q, peer_pool p !! a = None -> peer_pool p' !! a = Some q ->
     refreshed (new_candidate a false) q /\ exists h, (a, h) ∈ addrs /\ is_acceptable C p (a, h) = true) /\
  (number_of_peers p + len addrs < MAXIMUM_POOL_SIZE C ->
     (forall a q, peer_pool p !! a = Some q -> exists q', peer_pool p' !! a = Some q' /\ refreshed q q') /\
     (forall e, e ∈ addrs -> is_acceptable C p e = true -> is_Some (peer_pool p' !! e.1))) /\
  resolver p' = resolver p /\ banned_peers p' = banned_peers p.
Proof.
  intros p'. subst p'. unfold insert_candidate_peers.
  set (es := filter (fun e => is_acceptable C p e = true) addrs). set (n := len es - _).
  assert (len es <= len addrs) as Hes by (unfold len, es; pose proof (length_filter (fun e => is_acceptable C p e = true) addrs); lia).
  assert (forall e, e ∈ es <-> is_acceptable C p e = true /\ e ∈ addrs) as Hin by (intros e; unfold es; by rewrite list_elem_of_filter).
  case_decide as Hnil.
  { split_and!; [done|eauto using refreshed_refl|congruence| |done|done]. intros _.
    split; [eauto using refreshed_refl|]. intros e He Ha. assert (e ∈ es) as He' by (by apply Hin).
    rewrite Hnil in He'. by apply not_elem_of_nil in He'. }
  pose proof (make_room_size C now order n p) as Hsz. pose proof (make_room_rest C now order n p) as [Hres Hban].
  cbn [peer_pool set_pool resolver banned_peers]. set (k := Z.to_nat _). split_and!; [| | | |done|done].
  - intros Hmax. unfold number_of_peers in *. cbn. pose proof (insert_candidates_size (take k es) (peer_pool (make_room C now order n p))) as Hi.
    rewrite length_take in Hi. subst k. unfold saturating_sub in *. unfold number_of_peers in Hi. lia.
  - intros a q Hq Hk. eapply insert_candidates_old, make_room_keeps; done.
  - intros a q Hq Hq'. apply insert_candidates_new in Hq' as [Ha Hr].
    + split; [done|]. apply list_elem_of_fmap in Ha as ([a' h] & -> & (i & Hi & _)%elem_of_take).
      apply list_elem_of_lookup_2, Hin in Hi as [? ?]. eauto.
    + destruct (peer_pool (make_room C now order n p) !! a) eqn:E; [|done]. apply make_room_sub in E. congruence.
  - intros Hlt. assert (make_room C now order n p = p) as Heq.
    { unfold make_room. rewrite decide_False; [done|]. intros [Hle _].
      pose proof (len_nonneg (filter (fun e => is_update p e = true) es)). unfold n in Hle. lia. }
    rewrite Heq in *. assert (take k es = es) as ->.
    { apply take_ge. subst k. rewrite Heq. unfold saturating_sub. unfold len in Hes, Hlt. lia. }
    split; [intros a q Hq; by apply insert_candidates_old|].
    intros e He Ha. apply insert_candidates_all. apply list_elem_of_fmap_2. by apply Hin.
Qed.

#[local] Instance slash_before_total now k : Total (slash_before now k).
Proof. intros a b. unfold slash_before. destruct (slash_key now k a), (slash_key now k b). lia. Qed.
#[local] Instance slash_before_trans now k : Transitive (slash_before now k).
Proof.
  intros a b c. unfold slash_before. destruct (slash_key now k a), (slash_key now k b), (slash_key now k c). lia.
Qed.

Lemma take_sorted_before {A} (R : A -> A -> Prop) l n a b :
  StronglySorted R l -> a ∈ take n l -> b ∈ l -> b ∉ take n l -> R a b.
Proof.
  intros Hs Ha Hb Hn. rewrite <-(take_drop n l) in Hs, Hb.
  apply elem_of_app in Hb as [Hb|Hb]; [done|]. by eapply StronglySorted_app_1_elem_of.
Qed.

(** The candidates that make room are those with the most failures, and among
    them those not seen for the longest time. *)
Theorem slashes_worst (C : Config) (now : Z) (order : list SocketAddr) (p : Pool) (a b : SocketAddr) :
  a ∈ peers_to_slash C now order p -> b ∉ peers_to_slash C now order p ->
  b ∈ order -> is_slashable p b = true -> slash_before now (known_peers p) a b.
Proof.
  intros Ha Hb Hin Hs. eapply take_sorted_before; [|exact Ha| |exact Hb].
  - apply StronglySorted_merge_sort; apply _.
  - rewrite merge_sort_Permutation. by apply list_elem_of_filter.
Qed.

End Peers.
End Peers.
