(* ===== verification/Gateway.v ===== *)
(** * The gateway

    [Gateway<N>] of node/bft/src/gateway.rs: the handshake of validators, the
    end of a connection, and the dispatch of the events they send to the primary,
    the workers and the synchronization, with its rate limits.

    A handshake waits for the peer in the middle, so its parts before and after
    the wait are definitions of their own, between which other tasks may run.
    What is forwarded to other components is recorded as an action. *)

From S2P Require Import Prelude Bytes Network Sockets Committee Narwhal Lru StorageService Ledger Storage Cache Locators Ready Pending SyncState BlockSync Worker Events Messages Peers.
Import Locators.

Module Gateway.
Import Peers.

Definition MAX_CONNECTION_ATTEMPTS : Z := 10.
Definition CONNECTION_ATTEMPTS_SINCE_SECS : Z := 10.
Definition MAX_VALIDATORS_TO_SEND : Z := 200.
Definition IP_BAN_TIME_IN_SECS : Z := 300.
(** [MAX_BATCH_DELAY.as_secs()]. *)
Definition CACHE_EVENTS_INTERVAL : Z := 2.
Definition CACHE_REQUESTS_INTERVAL : Z := 2.

Section Gateway.
Context `{N : Network} {B : BlockData} {BB : BlockBytes B}.
Context (sha256 : list Z -> list Z).

(** What the gateway hands to other components and to the TCP stack. *)
Inductive Action :=
| ToPrimary (peer_ip : SocketAddr) (event : Events.Event)
| ToSync (peer_ip : SocketAddr) (event : Events.Event)
| InsertBlocks (peer_ip : SocketAddr) (blocks : list Block) (latest_consensus_version : option Z)
| UpdateLocators (peer_ip : SocketAddr) (locators : BlockLocators)
| RemoveSyncPeer (peer_ip : SocketAddr)
| ToWorker (worker_id : Z) (peer_ip : SocketAddr) (event : Events.Event)
| PingWorker (worker_id : Z) (peer_ip : SocketAddr) (transmission_id : TransmissionID)
| Send (peer_ip : SocketAddr) (event : Events.Event)
| Close (connected_addr : SocketAddr).

Record Gateway := mk_gateway {
  pool : Pool;
  cache : Cache.Cache (IpAddr := IpAddr) (SocketAddr := SocketAddr);
  actions : list Action;
}.
Definition set_peers (p : Pool) (g : Gateway) : Gateway := mk_gateway p (cache g) (actions g).
Definition set_cache c (g : Gateway) : Gateway := mk_gateway (pool g) c (actions g).
Definition act (a : Action) (g : Gateway) : Gateway := mk_gateway (pool g) (cache g) (actions g ++ [a]).

(** What the gateway reads from outside: its account and parameters, the
    committees ([Gateway::is_authorized_validator_address], modelled with the
    primary), the ledger, the answers of the synchronization, the clock, the
    order in which maps are traversed, the shuffle and the random choices. *)
Record Env := mk_env {
  config : Config;
  own_address : Address;
  is_authorized_validator_address : Address -> bool;
  bootstrap_peers : list SocketAddr;
  current_committee_size : option Z;
  get_blocks : Z -> Z -> result (list Block);
  has_sync : bool;
  insert_block_response : SocketAddr -> list Block -> option Z -> BlockSync.InsertBlockResponseError + unit;
  update_peer_locators : SocketAddr -> BlockLocators -> result unit;
  num_workers : Z;
  verify_bytes : Signature -> Address -> list Z -> bool;
  now : Z;
  now_secs : Z;
  order : list SocketAddr;
  shuffle_peers : list ConnectedPeer -> list ConnectedPeer;
  choose : list SocketAddr -> option SocketAddr;
  sample_peers : list ConnectedPeer -> Z -> list ConnectedPeer;
}.

(** The peers of [Gateway::new]: those of the cache file, unless only trusted
    peers are wanted, and the trusted ones. *)
Definition initial_peers (C : Config) (cached_peers trusted_validators : list SocketAddr) : gmap SocketAddr Peer :=
  let cached := if trusted_peers_only C then ∅
                else foldl (fun m a => <[a := new_candidate a false]> m) ∅ cached_peers in
  foldl (fun m a => <[a := new_candidate a true]> m) cached trusted_validators.
Definition new (C : Config) (cached_peers trusted_validators : list SocketAddr) : Gateway :=
  mk_gateway (mk_pool (initial_peers C cached_peers trusted_validators) empty_resolver ∅ ∅) Cache.new [].

(** ** Authorization and limits *)

(** [Gateway::is_authorized_validator_ip]. *)
Definition is_authorized_validator_ip (E : Env) (g : Gateway) (ip : SocketAddr) : bool :=
  if decide (ip ∈ trusted_peers (pool g)) then true else
  match resolve_to_aleo_addr (pool g) ip with
  | Some address => is_authorized_validator_address E address
  | None => false
  end.

(** [Gateway::max_committee_size] and the limits it gives. *)
Definition max_size (E : Env) : Z := default max_committee_size (current_committee_size E).
Definition max_cache_certificates (E : Env) : Z := 2 * MAX_GC_ROUNDS * max_size E.
Definition max_cache_transmissions (E : Env) : Z := max_cache_certificates E * MAX_TRANSMISSIONS_PER_BATCH.
Definition max_cache_events (E : Env) : Z := max_cache_transmissions E.
Definition max_cache_duplicates (E : Env) : Z := max_size E ^ 2.

(** ** The handshake *)

(** The fields of a [ChallengeRequest] and of a [ChallengeResponse]. *)
Record Challenge := mk_challenge {
  ch_version : Z; ch_listener_port : Z; ch_address : Address; ch_nonce : Z; ch_snarkos_sha : option (list Z);
}.
Record Response := mk_response { restrictions_id : Field; signature : Data Signature; nonce : Z }.

(** [Gateway::ensure_peer_is_allowed]. *)
Definition ensure_peer_is_allowed (E : Env) (listener_addr : SocketAddr) : Events.DisconnectReason + unit :=
  if is_local_ip (config E) listener_addr then inl Events.SelfConnect else inr tt.

(** [Gateway::verify_challenge_request]. *)
Definition verify_challenge_request (E : Env) (g : Gateway) (peer_addr : SocketAddr) (c : Challenge)
    : option Events.DisconnectReason :=
  let listener_addr := socket_from (socket_ip peer_addr) (ch_listener_port c) in
  if decide (ch_version c < Events.VERSION) then Some Events.OutdatedClientVersion else
  if trusted_peers_only (config E) && negb (is_trusted (pool g) listener_addr) then Some Events.NoExternalPeersAllowed else
  if negb (bool_decide (listener_addr ∈ bootstrap_peers E)) && negb (is_authorized_validator_address E (ch_address c))
  then Some Events.UnauthorizedValidator else
  if is_connected_address (pool g) (ch_address c) then Some Events.AlreadyConnectedToAleoAddress else
  None.

(** [Gateway::verify_challenge_response]. *)
Definition deserialize_signature (d : Data Signature) : result Signature :=
  match d with Object s => Ok s | Buffer bytes => '(s, _) ← read_signature false bytes; Ok s end.
Definition verify_challenge_response (E : Env) (peer_address : Address) (r : Response) (expected_restrictions_id : Field)
    (expected_nonce : Z) : option Events.DisconnectReason :=
  if decide (restrictions_id r <> expected_restrictions_id) then Some Events.InvalidChallengeResponse else
  match deserialize_signature (signature r) with
  | Ok s =>
      if verify_bytes E s peer_address (write_u64 expected_nonce ++ write_u64 (nonce r)) then None
      else Some Events.InvalidChallengeResponse
  | _ => Some Events.InvalidChallengeResponse
  end.

(** The first check of [Gateway::perform_handshake], for inbound connections
    outside of development mode. *)
Definition admit_connection (E : Env) (peer_addr : SocketAddr) (g : Gateway) : result bool * Gateway :=
  if is_dev (config E) then (Ok true, g) else
  if is_ip_banned (pool g) (socket_ip peer_addr) then (Ok false, g) else
  match Cache.insert_seen (cache g) (Cache.InboundConnection (socket_ip peer_addr)) (now_secs E) CONNECTION_ATTEMPTS_SINCE_SECS with
  | Ok (num_attempts, c) =>
      let g := set_cache c g in
      if decide (MAX_CONNECTION_ATTEMPTS < num_attempts) then
        let p := pool g in
        (Ok false, set_peers (mk_pool (peer_pool p) (resolver p) (update_ban (now E) (socket_ip peer_addr) (banned_peers p))
                               (known_peers p)) g)
      else (Ok true, g)
  | Err e => (Err e, g) | Panic e => (Panic e, g) | Deadlock => (Deadlock, g)
  end.

(** The end of [Gateway::perform_handshake], after a failure and after a
    success. *)
Definition handshake_failed (addr : SocketAddr) (g : Gateway) : Gateway :=
  match peer_pool (pool g) !! addr with
  | Some (Connecting l t) => set_peers (set_pool (<[addr := downgrade_to_candidate addr (Connecting l t)]> (peer_pool (pool g))) (pool g)) g
  | _ => g
  end.
Definition handshake_succeeded (E : Env) (addr peer_addr : SocketAddr) (cr : Challenge) (g : Gateway) : Gateway :=
  let node_type := if decide (addr ∈ bootstrap_peers E) then BootstrapClient else NodeValidator in
  match peer_pool (pool g) !! addr with
  | Some peer =>
      let p := pool g in
      set_peers (mk_pool
        (<[addr := upgrade_to_connected (now E) peer_addr (ch_listener_port cr) (ch_address cr) node_type (ch_version cr)
                     (ch_snarkos_sha cr) ModeGateway peer]> (peer_pool p))
        (insert_peer addr peer_addr (Some (ch_address cr)) (resolver p)) (banned_peers p) (known_peers p)) g
  | None => g
  end.

(** [Gateway::handshake_inner_initiator] up to the wait for the answer, and
    after it; a success follows when the response was sent. *)
Definition initiator_start (peer_addr : SocketAddr) (g : Gateway) : bool * Gateway :=
  match add_connecting_peer peer_addr (pool g) with
  | inl _ => (false, handshake_failed peer_addr g)
  | inr p => (true, set_peers p g)
  end.
Definition initiator_verify (E : Env) (expected_restrictions_id : Field) (our_nonce : Z) (peer_addr : SocketAddr)
    (response : Response) (request : Challenge) (g : Gateway) : bool * Gateway :=
  match verify_challenge_response E (ch_address request) response expected_restrictions_id our_nonce with
  | Some _ => (false, handshake_failed peer_addr g)
  | None =>
      match verify_challenge_request E g peer_addr request with
      | Some _ => (false, handshake_failed peer_addr g)
      | None => (true, g)
      end
  end.

(** [Gateway::handshake_inner_responder] up to the wait for the response, and
    after it; the listener address is known once the request was read. *)
Definition responder_start (E : Env) (peer_addr : SocketAddr) (request : Challenge) (g : Gateway) : bool * Gateway :=
  if decide (own_address E = ch_address request) then (false, g) else
  let peer_ip := socket_from (socket_ip peer_addr) (ch_listener_port request) in
  match ensure_peer_is_allowed E peer_ip with
  | inl _ => (false, handshake_failed peer_ip g)
  | inr _ =>
      match add_connecting_peer peer_ip (pool g) with
      | inl _ => (false, handshake_failed peer_ip g)
      | inr p =>
          let g := set_peers p g in
          match verify_challenge_request E g peer_addr request with
          | Some _ => (false, handshake_failed peer_ip g)
          | None => (true, g)
          end
      end
  end.
Definition responder_finish (E : Env) (expected_restrictions_id : Field) (our_nonce : Z) (peer_addr : SocketAddr)
    (response : Response) (request : Challenge) (g : Gateway) : bool * Gateway :=
  let peer_ip := socket_from (socket_ip peer_addr) (ch_listener_port request) in
  match verify_challenge_response E (ch_address request) response expected_restrictions_id our_nonce with
  | Some _ => (false, handshake_failed peer_ip g)
  | None => (true, handshake_succeeded E peer_ip peer_addr request g)
  end.

(** ** The end of a connection *)

(** [PeerPoolHandling::disconnect]: the TCP stack is asked to close the
    connection. *)
Definition disconnect (listener_addr : SocketAddr) (g : Gateway) : Gateway :=
  match resolve_to_ambiguous (pool g) listener_addr with
  | Some connected_addr => act (Close connected_addr) g
  | None => g
  end.

(** [PeerPoolHandling::ip_ban_peer] of the gateway. *)
Definition ban (E : Env) (peer_ip : SocketAddr) (g : Gateway) : Gateway :=
  let '(close, p) := ip_ban_peer (config E) (now E) peer_ip (pool g) in
  let g := match close with Some connected_addr => act (Close connected_addr) g | None => g end in
  set_peers p g.

(** [Disconnect::handle_disconnect], after the TCP stack closed a connection. *)
Definition handle_disconnect (E : Env) (peer_addr : SocketAddr) (g : Gateway) : Gateway :=
  match get_listener (resolver (pool g)) peer_addr with
  | Some peer_ip =>
      let '(was_fully_connected, p) := downgrade_peer_to_candidate (config E) peer_ip (pool g) in
      let g := set_peers p g in
      let g := if was_fully_connected && has_sync E then act (RemoveSyncPeer peer_ip) g else g in
      let c := Cache.clear_outbound_validators_requests (cache g) peer_ip in
      set_cache (Cache.clear_outbound_block_requests c peer_ip) g
  | None => g
  end.

(** ** Inbound events *)

(** One hit of a window of the cache. *)
Definition seen (E : Env) (ch : Cache.channel) (interval : Z) : SM Gateway Z := fun g =>
  match Cache.insert_seen (cache g) ch (now_secs E) interval with
  | Ok (n, c) => (Ok n, set_cache c g)
  | Err e => (Err e, g) | Panic e => (Panic e, g) | Deadlock => (Deadlock, g)
  end.

(** The limit on duplicate requests: whether the event is skipped. *)
Definition is_duplicate (E : Env) (peer_ip : SocketAddr) (e : Events.Event) : SM Gateway bool :=
  let limited ch := do n ⇐ seen E ch CACHE_REQUESTS_INTERVAL; sret (bool_decide (max_cache_duplicates E <= n)) in
  match e with
  | Events.CertificateRequest certificate_id => limited (Cache.InboundCertificate certificate_id)
  | Events.CertificateResponse certificate => limited (Cache.InboundCertificate (cert_id certificate))
  | Events.TransmissionRequest transmission_id => limited (Cache.InboundTransmission transmission_id)
  | Events.TransmissionResponse transmission_id _ => limited (Cache.InboundTransmission transmission_id)
  | Events.EventBlockRequest _ => limited (Cache.InboundBlockRequest peer_ip)
  | _ => sret false
  end.

(** A block request is answered with the blocks of the ledger. *)
Definition handle_block_request (E : Env) (peer_ip : SocketAddr) (r : Events.BlockRequest) : SM Gateway bool :=
  let start_height := Events.start_height r in
  let end_height := Events.end_height r in
  if decide (end_height <= start_height) then slift (Err "Block request from '{peer_ip}' has an invalid range ({start_height}..{end_height})") else
  if decide (BlockSync.MAXIMUM_NUMBER_OF_BLOCKS < end_height - start_height) then
    slift (Err "Block request from '{peer_ip}' has an excessive range ({start_height}..{end_height})") else
  match CONSENSUS_VERSION (end_height - 1) with
  | inl e => slift (Err e)
  | inr latest_consensus_version =>
      do blocks ⇐ slift (Storage.or_bail "Missing blocks {start_height} to {end_height} from ledger - {error}"
                           (get_blocks E start_height end_height));
      do _ ⇐ smodify (act (Send peer_ip (Events.BlockResponse r (Object blocks) (Some latest_consensus_version))));
      sret true
  end.

(** The requests in flight, as the cache keeps them. *)
Definition cache_request (r : Events.BlockRequest) : Cache.BlockRequest :=
  Cache.mk_block_request (Events.start_height r) (Events.end_height r).
Definition deserialize_blocks (d : Data (list Block)) : result (list Block) :=
  match d with Object blocks => Ok blocks | Buffer bytes => '(blocks, _) ← Events.read_blocks bytes; Ok blocks end.

(** The blocks of a response go to the synchronization when they were requested;
    a peer of another consensus version is banned. *)
Definition handle_block_response (E : Env) (peer_ip : SocketAddr) (r : Events.BlockRequest) (data : Data (list Block))
    (latest_consensus_version : option Z) : SM Gateway bool :=
  if negb (has_sync E) then sret true else
  do g ⇐ sget;
  let '(found, c) := Cache.remove_outbound_block_request (cache g) peer_ip (cache_request r) in
  do _ ⇐ smodify (set_cache c);
  if negb found then slift (Err "Unsolicited block response from '{peer_ip}'") else
  do blocks ⇐ slift (Storage.or_bail "Peer '{peer_ip}' sent an invalid block response - {error}" (deserialize_blocks data));
  do _ ⇐ slift (Events.ensure_response_is_well_formed blocks (Events.start_height r) (Events.end_height r));
  do _ ⇐ smodify (act (InsertBlocks peer_ip blocks latest_consensus_version));
  match insert_block_response E peer_ip blocks latest_consensus_version with
  | inr _ => sret true
  | inl e =>
      if BlockSync.is_benign e then sret true else
      if BlockSync.is_invalid_consensus_version e then
        do _ ⇐ smodify (ban E peer_ip); slift (Err "Peer sent an invalid block response '{peer_ip}'")
      else sret true
  end.

Definition handle_primary_ping (E : Env) (peer_ip : SocketAddr) (version : Z) (block_locators : BlockLocators)
    (e : Events.Event) : SM Gateway bool :=
  if decide (version < Events.VERSION) then slift (Err "Dropping '{peer_ip}' on event version {version} (outdated)") else
  do _ ⇐ (if has_sync E then
            do _ ⇐ smodify (act (UpdateLocators peer_ip block_locators));
            slift (Storage.or_bail "Validator '{peer_ip}' sent invalid block locators - {error}"
                     (update_peer_locators E peer_ip block_locators))
          else sret tt);
  do _ ⇐ smodify (act (ToPrimary peer_ip e)); sret true.

(** The worker of a transmission gets the event. *)
Definition to_worker (E : Env) (i : TransmissionID) (a : Z -> Action) : SM Gateway unit :=
  match Partition.assign_to_worker sha256 i (num_workers E) with
  | Ok worker_id => if decide (worker_id < num_workers E) then smodify (act (a worker_id)) else sret tt
  | Err _ => sret tt
  | Panic e => slift (Panic e)
  | Deadlock => slift Deadlock
  end.

Definition handle_validators_request (E : Env) (peer_ip : SocketAddr) : SM Gateway bool :=
  do g ⇐ sget;
  let connected := shuffle_peers E (get_best_connected_peers (order E) (Some MAX_VALIDATORS_TO_SEND) (pool g)) in
  let validators := imap_of_list ((fun v => (listener_addr v, aleo_addr v)) <$> connected) in
  do _ ⇐ smodify (act (Send peer_ip (Events.ValidatorsResponse validators))); sret true.

Definition is_new_validator (E : Env) (g : Gateway) (v : SocketAddr * Address) : bool :=
  negb (bool_decide (own_address E = v.2)) && negb (is_connected_address (pool g) v.2) &&
  is_authorized_validator_address E v.2.
Definition handle_validators_response (E : Env) (peer_ip : SocketAddr) (validators : list (SocketAddr * Address))
    : SM Gateway bool :=
  if trusted_peers_only (config E) then slift (Err "Not accepting validators response from '{peer_ip}' (trusted peers only)") else
  if decide (MAX_VALIDATORS_TO_SEND < len validators) then slift (Err "Received too many validators") else
  do g ⇐ sget;
  if negb (Cache.contains_outbound_validators_request (cache g) peer_ip) then
    slift (Err "Received validators response from '{peer_ip}' without a validators request") else
  do _ ⇐ smodify (set_cache (Cache.decrement_outbound_validators_requests (cache g) peer_ip).2);
  let valid_addrs := (fun v => (v.1, None)) <$> filter (fun v => is_new_validator E g v = true) validators in
  if decide (valid_addrs = []) then sret true else
  do _ ⇐ smodify (fun g => set_peers (insert_candidate_peers (config E) (now E) (order E) valid_addrs (pool g)) g);
  sret true.

Definition handle_worker_ping (E : Env) (peer_ip : SocketAddr) (ids : list TransmissionID) : SM Gateway bool :=
  if decide (Worker.MAX_TRANSMISSIONS_PER_WORKER_PING < len ids) then slift (Err "Received too many transmissions") else
  do _ ⇐ sfold (fun _ i => to_worker E i (fun w => PingWorker w peer_ip i)) tt ids;
  sret true.

(** The dispatch of [Gateway::inbound], after the limits. *)
Definition dispatch (E : Env) (peer_ip : SocketAddr) (e : Events.Event) : SM Gateway bool :=
  let forward a := do _ ⇐ smodify (act a); sret true in
  match e with
  | Events.BatchPropose _ _ | Events.BatchSignature _ _ | Events.BatchCertified _ => forward (ToPrimary peer_ip e)
  | Events.EventBlockRequest r => handle_block_request E peer_ip r
  | Events.BlockResponse r blocks v => handle_block_response E peer_ip r blocks v
  | Events.CertificateRequest _ | Events.CertificateResponse _ =>
      if has_sync E then forward (ToSync peer_ip e) else sret true
  | Events.ChallengeRequest _ _ _ _ _ | Events.ChallengeResponse _ _ _ => slift (Err "Peer '{peer_ip}' is not following the protocol")
  | Events.Disconnect _ => do _ ⇐ smodify (disconnect peer_ip); sret false
  | Events.PrimaryPing version block_locators _ => handle_primary_ping E peer_ip version block_locators e
  | Events.TransmissionRequest i | Events.TransmissionResponse i _ =>
      do _ ⇐ to_worker E i (fun w => ToWorker w peer_ip e); sret true
  | Events.ValidatorsRequest => handle_validators_request E peer_ip
  | Events.ValidatorsResponse validators => handle_validators_response E peer_ip validators
  | Events.WorkerPing ids => handle_worker_ping E peer_ip ids
  end.

(** Whether the peer may send events: a validator, or a bootstrap client. *)
Definition may_send (E : Env) (g : Gateway) (peer_ip : SocketAddr) : bool :=
  is_authorized_validator_ip E g peer_ip ||
  default false ((fun c => bool_decide (node_type c = BootstrapClient)) <$> get_connected_peer (pool g) peer_ip).

(** [Gateway::inbound], after the authorization. *)
Definition limit_and_dispatch (E : Env) (peer_ip : SocketAddr) (e : Events.Event) : SM Gateway bool :=
  do num_events ⇐ seen E (Cache.InboundEvent peer_ip) CACHE_EVENTS_INTERVAL;
  if decide (max_cache_events E <= num_events) then slift (Err "Dropping '{peer_ip}' for spamming events (num_events = {num_events})") else
  do duplicate ⇐ is_duplicate E peer_ip e;
  if duplicate : bool then sret true else dispatch E peer_ip e.

(** [Gateway::inbound]. *)
Definition inbound (E : Env) (peer_addr : SocketAddr) (e : Events.Event) : SM Gateway bool := fun g =>
  match get_listener (resolver (pool g)) peer_addr with
  | None => (Ok false, g)
  | Some peer_ip =>
      if negb (may_send E g peer_ip) then (Err "Dropping '{}' from '{peer_ip}' (not authorized)", g)
      else limit_and_dispatch E peer_ip e g
  end.

(** [Gateway::process_message_inner]: a peer that violates the protocol is told
    so and disconnected. *)
Definition process_message (E : Env) (peer_addr : SocketAddr) (e : Events.Event) (g : Gateway) : Gateway :=
  let '(r, g) := inbound E peer_addr e g in
  match r with
  | Err _ =>
      match get_listener (resolver (pool g)) peer_addr with
      | Some peer_ip => disconnect peer_ip (act (Send peer_ip (Events.Disconnect Events.ProtocolViolation)) g)
      | None => g
      end
  | _ => g
  end.

(** [Transport::send] of a block request: it is in flight once it is sent. *)
Definition send_block_request (peer_ip : SocketAddr) (r : Events.BlockRequest) (g : Gateway) : Gateway :=
  act (Send peer_ip (Events.EventBlockRequest r))
    (set_cache (Cache.insert_outbound_block_request (cache g) peer_ip (cache_request r)) g).

(** [Gateway::handle_banned_ips]. *)
Definition handle_banned_ips (E : Env) (g : Gateway) : Gateway :=
  let p := pool g in
  set_peers (mk_pool (peer_pool p) (resolver p) (remove_old_bans (now E) IP_BAN_TIME_IN_SECS (banned_peers p)) (known_peers p)) g.

(** ** The heartbeat *)

Definition MINIMUM_TIME_BETWEEN_CONNECTION_ATTEMPTS : Z := 10 * 10 ^ 9.

(** An attempt of the heartbeat to connect. *)
Definition try_connect (E : Env) (g : Gateway) (a : SocketAddr) : Gateway :=
  match connect (config E) (now E) a (pool g) with inr p => set_peers p g | inl _ => g end.
(** A peer is told to go, and disconnected. *)
Definition drop_peer (reason : Events.DisconnectReason) (g : Gateway) (a : SocketAddr) : Gateway :=
  disconnect a (act (Send a (Events.Disconnect reason)) g).

(** [Gateway::handle_trusted_validators]. *)
Definition handle_trusted_validators (E : Env) (g : Gateway) : Gateway :=
  foldl (try_connect E) g (filter (fun a => is_trusted (pool g) a = true) (order E)).

(** [Gateway::handle_bootstrap_peers]. *)
Definition handle_bootstrap_peers (E : Env) (g : Gateway) : Gateway :=
  if trusted_peers_only (config E) then g else
  let connected_bootstrap :=
    filter_connected_peers (order E) (fun c => bool_decide (node_type c = BootstrapClient)) (pool g) in
  let candidate_bootstrap := filter (fun a => a ∉ (listener_addr <$> connected_bootstrap)) (bootstrap_peers E) in
  let g :=
    if decide (connected_bootstrap = []) then
      match choose E candidate_bootstrap with Some a => try_connect E g a | None => g end
    else g in
  let num_surplus := saturating_sub (len connected_bootstrap) 1 in
  if decide (0 < num_surplus) then
    foldl (drop_peer Events.NoReasonGiven) g (listener_addr <$> sample_peers E connected_bootstrap num_surplus)
  else g.

(** [Gateway::handle_unauthorized_validators]. *)
Definition handle_unauthorized_validators (E : Env) (g : Gateway) : Gateway :=
  foldl (fun g c =>
    if decide (node_type c = BootstrapClient) then g else
    if is_authorized_validator_ip E g (listener_addr c) then g
    else drop_peer Events.ProtocolViolation g (listener_addr c))
    g (filter_connected_peers (order E) (fun _ => true) (pool g)).

(** [Gateway::handle_min_connected_validators]. *)
Definition is_due (E : Env) (g : Gateway) (c : CandidatePeer) : bool :=
  negb (bool_decide (c_listener_addr c ∈ trusted_peers (pool g))) &&
  match c_last_connection_attempt c with
  | Some previous_attempt => negb (bool_decide (now E - previous_attempt < MINIMUM_TIME_BETWEEN_CONNECTION_ATTEMPTS))
  | None => true
  end.
Definition handle_min_connected_validators (E : Env) (g : Gateway) : Gateway :=
  if decide (LATEST_MAX_CERTIFICATES <= number_of_connected_peers (pool g)) then g else
  let due := filter (fun c => is_due E g c = true) (get_candidate_peers (order E) (pool g)) in
  let g := foldl (try_connect E) g (c_listener_addr <$> due) in
  match choose E (connected_peers (order E) (pool g)) with
  | Some validator_ip =>
      act (Send validator_ip Events.ValidatorsRequest)
        (set_cache (Cache.increment_outbound_validators_requests (cache g) validator_ip).2 g)
  | None => g
  end.

(** [Gateway::heartbeat], without the log. *)
Definition heartbeat (E : Env) (g : Gateway) : Gateway :=
  handle_banned_ips E (handle_min_connected_validators E (handle_unauthorized_validators E
    (handle_bootstrap_peers E (handle_trusted_validators E g)))).

End Gateway.
End Gateway.
