(* ===== verification/GatewayProps.v ===== *)
(** * Properties of the gateway

    Only validators and bootstrap clients are heard, and what one of them sends
    concerns only itself; blocks reach the synchronization when they were
    requested from that peer.  Connected peers can be resolved whatever the
    interleaving; when handshakes do not overlap and nobody is banned, the
    resolver is exactly the inverse of the pool.  Without either of these it is
    not, and a validator can be locked out. *)

From S2P Require Import Prelude Bytes Network Sockets Committee Narwhal Lru StorageService Ledger Storage Cache Locators Ready Pending SyncState BlockSync Worker Events Messages Peers Gateway.
Import Locators.

Module GatewayProps.
Import Peers Gateway.
Section Props.
Context `{N : Network} {B : BlockData} {BB : BlockBytes B}.
Context (sha256 : list Z -> list Z).

(** ** What an event may cause *)

Definition connected_at (g : Gateway) (l : SocketAddr) (c : ConnectedPeer) : Prop :=
  peer_pool (pool g) !! l = Some (Connected c).

(** An action that concerns the peer [ip], in the state [g]: blocks were
    requested from it and are those of the request, the answer to a block request
    keeps to the maximum, and only its connection is closed. *)
Definition about (g : Gateway) (ip : SocketAddr) (a : Action) : Prop :=
  match a with
  | ToPrimary p _ | ToSync p _ | UpdateLocators p _ | RemoveSyncPeer p | ToWorker _ p _ | PingWorker _ p _ => p = ip
  | InsertBlocks p blocks _ =>
      p = ip /\ exists r, Cache.in_flight (cache g) ip (cache_request r) /\
        Events.ensure_response_is_well_formed blocks (Events.start_height r) (Events.end_height r) = Ok tt
  | Send p e =>
      p = ip /\ match e with
                | Events.BlockResponse r _ _ => 0 < Events.end_height r - Events.start_height r <= BlockSync.MAXIMUM_NUMBER_OF_BLOCKS
                | _ => True
                end
  | Close ca => exists c, connected_at g ip c /\ connected_addr c = ca
  end.

(** A step that acts for [ip] only, connects nobody and asks for no blocks. *)
Record within (ip : SocketAddr) (g g' : Gateway) : Prop := {
  wi_actions : exists new, actions g' = actions g ++ new /\ Forall (about g ip) new;
  wi_resolver : resolver (pool g') = resolver (pool g);
  wi_connected l c : connected_at g' l c -> connected_at g l c;
  wi_requests p r : Cache.in_flight (cache g') p r -> Cache.in_flight (cache g) p r;
}.

Lemma about_sub ip g g' a :
  (forall l c, connected_at g' l c -> connected_at g l c) ->
  (forall p r, Cache.in_flight (cache g') p r -> Cache.in_flight (cache g) p r) ->
  about g' ip a -> about g ip a.
Proof. intros Hc Hr. destruct a; cbn; naive_solver. Qed.

#[local] Instance within_preorder ip : PreOrder (within ip).
Proof.
  split.
  - intros g. split; try done. exists []. by rewrite app_nil_r.
  - intros g1 g2 g3 [(n1 & H1 & F1) R1 C1 Q1] [(n2 & H2 & F2) R2 C2 Q2]. split; [|congruence|auto|auto].
    exists (n1 ++ n2). rewrite H2, H1, app_assoc. split; [done|]. apply Forall_app. split; [done|].
    eapply Forall_impl; [exact F2|]. intros a. by apply about_sub.
Qed.

Lemma within_act ip g a : about g ip a -> within ip g (act a g).
Proof. intros Ha. split; try done. exists [a]. split; [done|]. by constructor. Qed.

Lemma within_cache ip g c :
  (forall p r, Cache.in_flight c p r -> Cache.in_flight (cache g) p r) -> within ip g (set_cache c g).
Proof. intros Hc. split; try done. exists []. by rewrite app_nil_r. Qed.

Lemma within_pool ip g p :
  resolver p = resolver (pool g) ->
  (forall l c, peer_pool p !! l = Some (Connected c) -> connected_at g l c) -> within ip g (set_peers p g).
Proof. intros Hr Hc. split; try done. exists []. by rewrite app_nil_r. Qed.

Lemma insert_seen_requests (c : Cache.Cache (IpAddr := IpAddr) (SocketAddr := SocketAddr)) ch t i n c' :
  Cache.insert_seen c ch t i = Ok (n, c') ->
  Cache.seen_outbound_block_requests c' = Cache.seen_outbound_block_requests c.
Proof.
  unfold Cache.insert_seen. destruct c, ch; cbn; intros H; simp_ok;
    match goal with H : (let '(_, _) := ?x in _) = _ |- _ => destruct x end; simp_ok; done.
Qed.

(** *** What an event leaves of the other peers *)

(** A peer that is absent or a candidate. *)
Definition unconnected (o : option Peer) : Prop := match o with Some q => is_candidate q = true | None => True end.

(** What happens to the entry of another peer: nothing, unless the event may add
    candidates ([candidates]), which concerns only addresses that are absent or
    candidates, and leaves them so. *)
Definition entry_kept (candidates : bool) (o o' : option Peer) : Prop :=
  o' = o \/ candidates = true /\ unconnected o /\ unconnected o'.

(** A step that acts for [ip] only and leaves everybody else alone: no other
    connection is added, changed or dropped, no other address is banned and no
    block request to another peer is forgotten. *)
Record confined (ip : SocketAddr) (candidates : bool) (g g' : Gateway) : Prop := {
  cf_within : within ip g g';
  cf_peers l : l <> ip -> entry_kept candidates (peer_pool (pool g) !! l) (peer_pool (pool g') !! l);
  cf_banned i : i <> socket_ip ip -> banned_peers (pool g') !! i = banned_peers (pool g) !! i;
  cf_requests p r : p <> ip -> Cache.in_flight (cache g) p r -> Cache.in_flight (cache g') p r;
}.

#[local] Instance confined_preorder ip b : PreOrder (confined ip b).
Proof.
  split.
  - intros g. split; [reflexivity|intros; by left|done|done].
  - intros g1 g2 g3 [W1 P1 B1 Q1] [W2 P2 B2 Q2]. split; [by etrans| |intros; rewrite B2, B1; done|auto].
    intros l Hl. destruct (P1 l Hl) as [E1|(? & ? & ?)], (P2 l Hl) as [E2|(? & ? & ?)]; unfold entry_kept in *.
    + left. congruence.
    + right. by rewrite <-E1.
    + right. by rewrite E2.
    + right. done.
Qed.

Lemma confined_same ip b g g' :
  within ip g g' -> pool g' = pool g -> (forall p r, p <> ip -> Cache.in_flight (cache g) p r -> Cache.in_flight (cache g') p r) ->
  confined ip b g g'.
Proof. intros Hw Hp Hr. split; rewrite ?Hp; try done. intros. by left. Qed.

Lemma confined_act ip b g a : about g ip a -> confined ip b g (act a g).
Proof. intros Ha. apply confined_same; [by apply within_act|done|done]. Qed.

Lemma confined_cache ip b g c :
  (forall p r, Cache.in_flight c p r -> Cache.in_flight (cache g) p r) ->
  (forall p r, p <> ip -> Cache.in_flight (cache g) p r -> Cache.in_flight c p r) -> confined ip b g (set_cache c g).
Proof. intros Hc Hr. apply confined_same; [by apply within_cache|done|done]. Qed.

Lemma keeps_seen ip b E ch i : keeps (confined ip b) (seen E ch i).
Proof.
  intros g. unfold seen. destruct (Cache.insert_seen _ _ _ _) as [[n c]| | |] eqn:H; cbn; try reflexivity.
  apply confined_cache; unfold Cache.in_flight; by rewrite (insert_seen_requests _ _ _ _ _ _ H).
Qed.

Lemma within_disconnect ip g : within ip g (disconnect ip g).
Proof.
  unfold disconnect, resolve_to_ambiguous, get_connected_peer. destruct (peer_pool (pool g) !! ip) as [[| |c]|] eqn:E; cbn; try reflexivity.
  apply within_act. by exists c.
Qed.

Lemma within_ban ip E g : within ip g (ban E ip g).
Proof.
  unfold ban, ip_ban_peer. destruct (is_dev (config E)); [by destruct g|]. cbn.
  assert (forall g', peer_pool (pool g') = peer_pool (pool g) -> resolver (pool g') = resolver (pool g) ->
    within ip g' (set_peers (remove_peer ip (mk_pool (peer_pool (pool g)) (resolver (pool g))
      (update_ban (now E) (socket_ip ip) (banned_peers (pool g))) (known_peers (pool g)))) g')) as Hw.
  { intros g' Hp Hr. apply within_pool; [done|]. cbn. intros l c [_ ?]%lookup_delete_Some. unfold connected_at. by rewrite Hp. }
  unfold resolve_to_ambiguous, get_connected_peer. cbn. destruct (peer_pool (pool g) !! ip) as [[| |c]|] eqn:E'; cbn; [by apply Hw..| |by apply Hw].
  etrans; [apply (within_act ip g (Close (connected_addr c))); by exists c|]. by apply Hw.
Qed.

Lemma confined_disconnect ip b g : confined ip b g (disconnect ip g).
Proof.
  pose proof (within_disconnect ip g) as Hw. unfold disconnect in *. destruct (resolve_to_ambiguous _ _); [|reflexivity].
  by apply confined_same.
Qed.

Lemma confined_ban ip b E g : confined ip b g (ban E ip g).
Proof.
  pose proof (within_ban ip E g) as Hw. split; [done|..]; clear Hw; unfold ban, ip_ban_peer;
    destruct (is_dev (config E)); try (intros; by left); try done; cbn; unfold set_peers.
  - intros l Hl. left. by rewrite lookup_delete_ne.
  - intros i Hi. by apply lookup_insert_ne.
  - intros p r Hp. by case_match.
Qed.

Ltac keeps_confined ip b := repeat keeps_step (confined ip b) ltac:(idtac; first
  [apply keeps_seen | apply keeps_modify; intros ?; first [apply confined_disconnect | apply confined_ban | by apply confined_act | apply confined_act; split; done]]).

Lemma keeps_is_duplicate ip b E e : keeps (confined ip b) (is_duplicate E ip e).
Proof. unfold is_duplicate. keeps_confined ip b. Qed.

Lemma keeps_block_request ip b E r : keeps (confined ip b) (handle_block_request E ip r).
Proof.
  unfold handle_block_request. cbv zeta. case_decide; [apply (keeps_lift _)|]. case_decide; [apply (keeps_lift _)|].
  keeps_confined ip b. apply keeps_modify. intros g. apply confined_act. cbn. split; [done|lia].
Qed.

Lemma remove_request (c : Cache.Cache (IpAddr := IpAddr) (SocketAddr := SocketAddr)) ip r found c' :
  Cache.remove_outbound_block_request c ip r = (found, c') ->
  (found = true -> Cache.in_flight c ip r) /\ (forall p q, Cache.in_flight c' p q -> Cache.in_flight c p q) /\
  (forall p q, p <> ip -> Cache.in_flight c p q -> Cache.in_flight c' p q).
Proof.
  unfold Cache.remove_outbound_block_request, Cache.in_flight, Cache.set_block_requests. destruct c as [? ? ? ? ? ? ? ? ? m]. cbn.
  destruct (m !! ip) as [rs|] eqn:E; intros H; simplify_eq; cbn; [|done]. split; [by intros ?%bool_decide_eq_true|]. split.
  - intros p q. destruct (decide (p = ip)) as [->|]; [rewrite lookup_insert_eq, E|by rewrite lookup_insert_ne]. cbn. set_solver.
  - intros p q Hp. by rewrite lookup_insert_ne.
Qed.

Lemma keeps_block_response ip b E r d v : keeps (confined ip b) (handle_block_response E ip r d v).
Proof.
  intros g. unfold handle_block_response. destruct (has_sync E); [|reflexivity]. cbn [negb].
  unfold sbind at 1, sget at 1. destruct (Cache.remove_outbound_block_request _ _ _) as [found c] eqn:Hc.
  apply remove_request in Hc as (Hf & Hr & Hk). unfold sbind at 1, smodify at 1.
  assert (confined ip b g (set_cache c g)) as Hw by (by apply confined_cache).
  destruct found; [|exact Hw]. cbn [negb]. specialize (Hf eq_refl).
  unfold sbind at 1, slift at 1. destruct (Storage.or_bail _ _) as [blocks| | |]; try exact Hw.
  unfold sbind at 1, slift at 1. destruct (Events.ensure_response_is_well_formed _ _ _) as [[]| | |] eqn:Hwf; try exact Hw.
  unfold sbind at 1, smodify at 1.
  assert (confined ip b g (act (InsertBlocks ip blocks v) (set_cache c g))) as Ha.
  { destruct Hw as [[_ ? ? ?] ? ? ?]. split; try done. split; try done. exists [InsertBlocks ip blocks v]. split; [done|]. constructor; [|done]. cbn. eauto. }
  destruct (insert_block_response E ip blocks v) as [e|]; [|exact Ha]. destruct (BlockSync.is_benign e); [exact Ha|].
  destruct (BlockSync.is_invalid_consensus_version e); [|exact Ha]. cbn. etrans; [exact Ha|apply confined_ban].
Qed.

Lemma keeps_to_worker ip b E i (a : Z -> Action) :
  (forall w g, about g ip (a w)) -> keeps (confined ip b) (to_worker sha256 E i a).
Proof. intros Ha. unfold to_worker. keeps_confined ip b. Qed.

Lemma decrement_requests (c : Cache.Cache (IpAddr := IpAddr) (SocketAddr := SocketAddr)) ip :
  Cache.seen_outbound_block_requests (Cache.decrement_outbound_validators_requests c ip).2 = Cache.seen_outbound_block_requests c.
Proof.
  unfold Cache.decrement_outbound_validators_requests, Cache.decrement_counter. destruct c. cbn. by case_decide.
Qed.

(** Adding candidates concerns only addresses that are absent or candidates. *)
Lemma candidates_entry C now order addrs p l :
  entry_kept true (peer_pool p !! l) (peer_pool (insert_candidate_peers C now order addrs p) !! l).
Proof.
  unfold insert_candidate_peers. case_decide; [by left|]. cbn. set (es := take _ _). set (n := _ - _).
  pose proof (make_room_sub C now order n p l) as Hsub. pose proof (make_room_keeps C now order n p l) as Hkeep.
  set (p1 := make_room _ _ _ _ _) in *. destruct (peer_pool p1 !! l) as [q|] eqn:E.
  - destruct (insert_candidates_old es _ _ _ E) as (q' & -> & Hr). rewrite (Hsub q eq_refl).
    destruct q as [[]| |]; cbn in Hr; [right|left; congruence..]. by destruct q' as [[]| |].
  - right. split; [done|]. split.
    + destruct (peer_pool p !! l) as [q|]; [|done]. cbn. destruct (is_candidate q) eqn:Ec; [done|].
      by specialize (Hkeep q eq_refl (or_introl Ec)).
    + destruct (foldl _ _ es !! l) as [q|] eqn:Eq; [|done].
      destruct (insert_candidates_new es _ _ _ E Eq) as [_ Hr]. by destruct q as [[]| |].
Qed.

Lemma confined_candidates ip E addrs g :
  confined ip true g (set_peers (insert_candidate_peers (config E) (now E) (order E) addrs (pool g)) g).
Proof.
  split; [|intros l _; apply candidates_entry| |done].
  - apply within_pool; [apply insert_candidates_resolver|]. intros l c. by rewrite insert_candidates_connected.
  - intros i _. cbn. unfold insert_candidate_peers. case_decide; [done|]. cbn. by rewrite (proj2 (make_room_rest _ _ _ _ _)).
Qed.

Lemma keeps_validators_response ip E vs : keeps (confined ip true) (handle_validators_response E ip vs).
Proof.
  unfold handle_validators_response. destruct (trusted_peers_only _); [apply (keeps_lift _)|].
  case_decide; [apply (keeps_lift _)|]. intros g. unfold sbind at 1, sget at 1.
  destruct (negb _); [apply (keeps_lift (confined ip true))|]. unfold sbind at 1, smodify at 1.
  etrans; [apply (confined_cache ip true g (Cache.decrement_outbound_validators_requests (cache g) ip).2);
    unfold Cache.in_flight; by rewrite decrement_requests|].
  case_decide; [reflexivity|]. exact (confined_candidates ip E _ (set_cache _ g)).
Qed.

Lemma keeps_primary_ping ip b E v l e : keeps (confined ip b) (handle_primary_ping E ip v l e).
Proof. unfold handle_primary_ping. keeps_confined ip b. Qed.

Lemma keeps_worker_ping ip b E ids : keeps (confined ip b) (handle_worker_ping sha256 E ip ids).
Proof.
  unfold handle_worker_ping. keeps_confined ip b. by apply keeps_to_worker.
Qed.

(** An event that names other validators. *)
Definition names_validators (e : Events.Event) : bool :=
  match e with Events.ValidatorsResponse _ => true | _ => false end.

Lemma keeps_dispatch ip E e : keeps (confined ip (names_validators e)) (dispatch sha256 E ip e).
Proof.
  unfold dispatch. destruct e; cbv zeta; cbn [names_validators]; try solve [keeps_confined ip false].
  - apply keeps_block_request.
  - apply keeps_block_response.
  - apply keeps_primary_ping.
  - keeps_confined ip false. by apply keeps_to_worker.
  - keeps_confined ip false. by apply keeps_to_worker.
  - apply keeps_validators_response.
  - apply keeps_worker_ping.
Qed.

Lemma keeps_heard ip E e : keeps (confined ip (names_validators e)) (limit_and_dispatch sha256 E ip e).
Proof.
  unfold limit_and_dispatch. keeps_confined ip (names_validators e); [apply keeps_is_duplicate|apply keeps_dispatch].
Qed.

Lemma inbound_cases E peer_addr e g :
  (inbound sha256 E peer_addr e g).2 = g \/
  exists ip, get_listener (resolver (pool g)) peer_addr = Some ip /\ may_send E g ip = true /\
    confined ip (names_validators e) g (inbound sha256 E peer_addr e g).2.
Proof.
  unfold inbound.
  destruct (get_listener _ _) as [ip|] eqn:Hl; [|by left]. destruct (may_send E g ip) eqn:Hm; [|by left].
  right. exists ip. split_and!; [done..|]. apply keeps_heard.
Qed.

(** C23: an event that reaches the gateway over a connection has an effect only
    when it comes from an authorized validator, a trusted peer or a bootstrap
    client, and then, apart from the rate counters, only for that peer: what is
    handed to the primary, the workers and the synchronization carries its
    address, blocks are those of a request that was in flight to it, the answer to
    a block request holds at most five blocks, only its own connection is closed
    and only its address banned.  Connections are neither added, resolved otherwise
    nor, for any other peer, changed or dropped, and block requests to other peers
    stay in flight.  The one exception is a response that names validators: it may
    add, update and evict candidates, and nothing but candidates. *)
Theorem inbound_concerns_sender (E : Env) (peer_addr : SocketAddr) (e : Events.Event) (g : Gateway) :
  let g' := (inbound sha256 E peer_addr e g).2 in
  g' = g \/
  exists ip, get_listener (resolver (pool g)) peer_addr = Some ip /\ may_send E g ip = true /\
    confined ip (names_validators e) g g'.
Proof. apply inbound_cases. Qed.

(** ** Runs *)

(** No connected peer uses the address: the TCP stack has at most one
    connection to it. *)
Definition fresh (g : Gateway) (peer_addr : SocketAddr) : Prop :=
  forall l c, connected_at g l c -> connected_addr c <> peer_addr.

(** The steps of the tasks of a gateway; those of several handshakes may be
    interleaved with each other and with everything else. *)
Inductive step (C : Config) : Gateway -> Gateway -> Prop :=
| step_message E peer_addr e g : config E = C -> step C g (process_message sha256 E peer_addr e g)
| step_send peer_ip r g : step C g (send_block_request peer_ip r g)
| step_connect t a g p : connect C t a (pool g) = inr p -> step C g (set_peers p g)
| step_initiator_start a g : step C g (initiator_start a g).2
| step_initiator_verify E id nonce peer_addr response request g :
    config E = C -> step C g (initiator_verify E id nonce peer_addr response request g).2
| step_initiator_finish E peer_addr request g :
    config E = C -> fresh g peer_addr -> step C g (handshake_succeeded E peer_addr peer_addr request g)
| step_responder_start E peer_addr request g : config E = C -> step C g (responder_start E peer_addr request g).2
| step_responder_finish E id nonce peer_addr response request g :
    config E = C -> fresh g peer_addr ->
    step C g (responder_finish E id nonce peer_addr response request g).2
| step_handshake_failed a g : step C g (handshake_failed a g)
| step_disconnect E peer_addr g : config E = C -> step C g (handle_disconnect E peer_addr g)
| step_heartbeat E g : config E = C -> step C g (heartbeat E g).

Inductive reachable (C : Config) (cached trusted : list SocketAddr) : Gateway -> Prop :=
| reachable_new : reachable C cached trusted (new C cached trusted)
| reachable_step g g' : reachable C cached trusted g -> step C g g' -> reachable C cached trusted g'.

Record run_inv (g : Gateway) : Prop := {
  ri_resolved l c : connected_at g l c -> get_listener (resolver (pool g)) (connected_addr c) = Some l;
  ri_in_flight p r : Cache.in_flight (cache g) p (cache_request r) -> Send p (Events.EventBlockRequest r) ∈ actions g;
  ri_blocks p blocks v pre post :
    actions g = pre ++ InsertBlocks p blocks v :: post ->
    exists r, Send p (Events.EventBlockRequest r) ∈ pre /\
      Events.ensure_response_is_well_formed blocks (Events.start_height r) (Events.end_height r) = Ok tt;
}.

Lemma within_run_inv ip g g' : within ip g g' -> run_inv g -> run_inv g'.
Proof.
  intros [(new & Ha & Hnew) Hr Hc Hq] [R1 R2 R3]. split.
  - intros l c Hlc. rewrite Hr. auto.
  - intros p r Hp. rewrite Ha. apply elem_of_app. left. auto.
  - intros p blocks v pre post Hsplit. rewrite Ha in Hsplit.
    apply app_eq_inv in Hsplit as [(k & Hk & Hn)|(k & Hk & Hn)].
    + destruct k as [|x k]; cbn in Hn; [|injection Hn as <- _; by eapply R3].
      rewrite app_nil_r in Hk. subst pre new. apply Forall_cons in Hnew as [(-> & r & Hf & Hwf) _]. eauto.
    + subst pre. assert (about g ip (InsertBlocks p blocks v)) as (-> & r & Hf & Hwf).
      { rewrite Hn in Hnew. apply Forall_app in Hnew as [_ Hnew]. by apply Forall_cons in Hnew as [? _]. }
      exists r. split; [|done]. apply elem_of_app. left. auto.
Qed.

(** Changes of the pool that connect nobody. *)
Lemma within_update ip g a q :
  (forall c, q <> Connected c) -> within ip g (set_peers (set_pool (<[a := q]> (peer_pool (pool g))) (pool g)) g).
Proof.
  intros Hq. apply within_pool; [done|]. cbn. intros l c [[-> Hc]|[_ ?]]%lookup_insert_Some; [by destruct (Hq c)|done].
Qed.

Lemma within_handshake_failed ip g a : within ip g (handshake_failed a g).
Proof. unfold handshake_failed. destruct (peer_pool (pool g) !! a) as [[]|]; try reflexivity. by apply within_update. Qed.

Lemma within_add_connecting ip g a p : add_connecting_peer a (pool g) = inr p -> within ip g (set_peers p g).
Proof.
  unfold add_connecting_peer. destruct (peer_pool (pool g) !! a) as [[]|]; intros H; simplify_eq; by apply within_update.
Qed.

Lemma within_connect ip C t a g p : connect C t a (pool g) = inr p -> within ip g (set_peers p g).
Proof.
  unfold connect. destruct (check_connection_attempt C (pool g) a); [done|].
  destruct (peer_pool (pool g) !! a) as [[[]| |]|]; intros H; simplify_eq; first [by apply within_update|by apply within_pool].
Qed.

Lemma within_initiator_start ip a g : within ip g (initiator_start a g).2.
Proof.
  unfold initiator_start. destruct (add_connecting_peer a (pool g)) eqn:E; cbn;
    [apply within_handshake_failed|by eapply within_add_connecting].
Qed.

Lemma within_initiator_verify ip E id nonce peer_addr r c g :
  within ip g (initiator_verify E id nonce peer_addr r c g).2.
Proof.
  unfold initiator_verify. destruct (verify_challenge_response _ _ _ _ _); [apply within_handshake_failed|].
  destruct (verify_challenge_request _ _ _ _); [apply within_handshake_failed|reflexivity].
Qed.

Lemma within_responder_start ip E peer_addr c g : within ip g (responder_start E peer_addr c g).2.
Proof.
  unfold responder_start. case_decide; [reflexivity|]. cbv zeta.
  destruct (ensure_peer_is_allowed E _); [apply within_handshake_failed|].
  destruct (add_connecting_peer _ (pool g)) eqn:Ha; [apply within_handshake_failed|].
  apply (within_add_connecting ip) in Ha. destruct (verify_challenge_request _ _ _ _); cbn; [|done].
  etrans; [exact Ha|apply within_handshake_failed].
Qed.

Lemma process_message_within E peer_addr e g :
  process_message sha256 E peer_addr e g = g \/ exists ip, within ip g (process_message sha256 E peer_addr e g).
Proof.
  unfold process_message. destruct (inbound sha256 E peer_addr e g) as [r g'] eqn:Hi.
  assert (g' = g \/ exists ip, get_listener (resolver (pool g)) peer_addr = Some ip /\ within ip g g') as Hg.
  { pose proof (inbound_cases E peer_addr e g) as H. rewrite Hi in H. cbn in H. destruct H as [?|(ip & ? & ? & [? _ _ _])]; [by left|eauto]. }
  destruct r as [b|msg|msg|]; try solve [destruct Hg as [->|(ip & _ & ?)]; eauto].
  destruct (get_listener (resolver (pool g')) peer_addr) as [ip|] eqn:Hl;
    [|destruct Hg as [->|(ip & _ & ?)]; eauto].
  right. exists ip. assert (within ip g g') as Hw.
  { destruct Hg as [->|(ip' & Hl' & Hw)]; [reflexivity|]. rewrite (wi_resolver _ _ _ Hw), Hl' in Hl. by simplify_eq. }
  etrans; [exact Hw|]. etrans; [|apply within_disconnect]. by apply within_act.
Qed.

Lemma succeeded_run_inv E addr peer_addr cr g :
  fresh g peer_addr -> run_inv g -> run_inv (handshake_succeeded E addr peer_addr cr g).
Proof.
  intros Hf [R1 R2 R3]. unfold handshake_succeeded. destruct (peer_pool (pool g) !! addr) as [q|] eqn:Eq; [|done].
  split; [|done|done]. unfold connected_at, get_listener. cbn. intros l c [[-> [= <-]]|[Hne Hlc]]%lookup_insert_Some; cbn.
  - by rewrite lookup_insert_eq.
  - rewrite lookup_insert_ne; [by apply R1|]. intros Heq. by apply (Hf l c).
Qed.

Lemma clear_requests (c : Cache.Cache (IpAddr := IpAddr) (SocketAddr := SocketAddr)) ip p r :
  Cache.in_flight (Cache.clear_outbound_block_requests (Cache.clear_outbound_validators_requests c ip) ip) p r ->
  Cache.in_flight c p r.
Proof.
  unfold Cache.in_flight. destruct c as [? ? ? ? ? ? ? ? ? m]. cbn. destruct (decide (p = ip)) as [->|];
    [rewrite lookup_delete_eq; cbn; set_solver|by rewrite lookup_delete_ne].
Qed.

Lemma disconnect_run_inv E peer_addr g : run_inv g -> run_inv (handle_disconnect E peer_addr g).
Proof.
  intros Hg. unfold handle_disconnect. destruct (get_listener _ peer_addr) as [ip|] eqn:Hl; [|done].
  destruct (downgrade_peer_to_candidate _ _ _) as [was p] eqn:Hd.
  assert (run_inv (set_peers p g)) as Hp.
  { destruct Hg as [R1 R2 R3]. split; [|done|done]. unfold connected_at, get_listener in *. cbn. intros l c Hlc.
    unfold downgrade_peer_to_candidate in Hd. destruct (peer_pool (pool g) !! ip) as [[| |c0]|] eqn:Hip; simplify_eq; cbn in *.
    1,2: apply lookup_insert_Some in Hlc as [[-> ?]|[_ Hlc]]; [done|by apply R1].
    - apply lookup_insert_Some in Hlc as [[-> ?]|[Hne Hlc]]; [done|].
      rewrite lookup_delete_ne; [by apply R1|]. intros Heq. apply R1 in Hlc. apply R1 in Hip. congruence.
    - by apply R1. }
  assert (run_inv (if was && has_sync E then act (RemoveSyncPeer ip) (set_peers p g) else set_peers p g)) as H1.
  { destruct (was && has_sync E); [|done]. eapply (within_run_inv ip); [|exact Hp]. by apply within_act. }
  eapply (within_run_inv ip); [|exact H1]. apply within_cache. intros q r. apply clear_requests.
Qed.

Lemma initial_candidates C cached trusted l q : initial_peers C cached trusted !! l = Some q -> is_candidate q = true.
Proof.
  unfold initial_peers.
  assert (forall (b : bool) (addrs : list SocketAddr) (m : gmap SocketAddr Peer), (forall l q, m !! l = Some q -> is_candidate q = true) ->
    forall l q, foldl (fun m a => <[a := new_candidate a b]> m) m addrs !! l = Some q -> is_candidate q = true) as H.
  { intros b addrs. induction addrs as [|a addrs IH]; intros m Hm; [done|]. cbn. apply IH.
    intros l' q' [[-> <-]|[_ ?]]%lookup_insert_Some; [done|by eapply Hm]. }
  apply H. intros l' q'. destruct (trusted_peers_only C); [by rewrite lookup_empty|]. apply H. by intros ? ? ?%lookup_empty_Some.
Qed.

Lemma cache_request_inj r r' : cache_request r = cache_request r' -> r = r'.
Proof. destruct r, r'. unfold cache_request. cbn. congruence. Qed.

Lemma in_flight_insert (c : Cache.Cache (IpAddr := IpAddr) (SocketAddr := SocketAddr)) ip q p r :
  Cache.in_flight (Cache.insert_outbound_block_request c ip q) p r -> (p = ip /\ r = q) \/ Cache.in_flight c p r.
Proof.
  unfold Cache.in_flight, Cache.insert_outbound_block_request. destruct c as [? ? ? ? ? ? ? ? ? m]. cbn.
  destruct (decide (p = ip)) as [->|]; [rewrite lookup_insert_eq|rewrite lookup_insert_ne by done; by right].
  cbn. destruct (m !! ip); cbn; set_solver.
Qed.

Lemma snoc_split {A} (l pre post : list A) x y : l ++ [y] = pre ++ x :: post -> x <> y -> exists post', l = pre ++ x :: post'.
Proof.
  intros H Hne. destruct post as [|z post _] using rev_ind.
  - apply app_inj_tail in H as [_ ->]. done.
  - rewrite app_comm_cons, app_assoc in H. apply app_inj_tail in H as [-> _]. eauto.
Qed.

(** A step that connects and disconnects nobody. *)
Definition kept (g g' : Gateway) : Prop := forall l c, connected_at g l c -> connected_at g' l c.
#[local] Instance kept_preorder : PreOrder kept.
Proof. split; [by intros g l c|]. intros g1 g2 g3 H1 H2 l c ?. auto. Qed.

Lemma kept_disconnect ip g : kept g (disconnect ip g).
Proof. intros l c. unfold disconnect. by destruct (resolve_to_ambiguous _ _). Qed.

Lemma kept_update g a q :
  (forall c, peer_pool (pool g) !! a <> Some (Connected c)) ->
  kept g (set_peers (set_pool (<[a := q]> (peer_pool (pool g))) (pool g)) g).
Proof.
  intros Ha l c Hl. unfold connected_at in *. cbn. rewrite lookup_insert_ne; [done|]. intros ->. by apply (Ha c).
Qed.

Lemma kept_connect C t a g p : connect C t a (pool g) = inr p -> kept g (set_peers p g).
Proof.
  unfold connect. destruct (check_connection_attempt C (pool g) a); [done|].
  destruct (peer_pool (pool g) !! a) as [[[]| |]|] eqn:E; intros H; simplify_eq;
    first [by intros l c|apply kept_update; congruence].
Qed.

(** What every calm step keeps, the heartbeat keeps. *)
Section Heartbeat.
Context (P : Gateway -> Prop) (HP : forall ip g g', within ip g g' -> kept g g' -> P g -> P g') (E : Env).

Lemma fold_keeps {X} (f : Gateway -> X -> Gateway) l g : (forall g x, P g -> P (f g x)) -> P g -> P (foldl f g l).
Proof. intros Hf. revert g. induction l as [|x l IH]; intros g Hg; cbn; auto. Qed.

Lemma try_connect_keeps g a : P g -> P (try_connect E g a).
Proof.
  unfold try_connect. destruct (connect _ _ _ _) eqn:Hc; [done|].
  apply (HP a); [by eapply within_connect|by eapply kept_connect].
Qed.

Lemma drop_peer_keeps reason g a : P g -> P (drop_peer reason g a).
Proof.
  unfold drop_peer. apply (HP a).
  - etrans; [|apply within_disconnect]. apply within_act. by split.
  - etrans; [|apply kept_disconnect]. by intros l c.
Qed.

Lemma bootstrap_keeps g : P g -> P (handle_bootstrap_peers E g).
Proof.
  intros Hg. unfold handle_bootstrap_peers. destruct (trusted_peers_only _); [done|]. cbv zeta.
  assert (forall cond (c : {cond} + {~ cond}) a,
    P (if c then match a with Some a => try_connect E g a | None => g end else g)) as Hc.
  { intros cond [|] [a|]; auto using try_connect_keeps. }
  destruct (decide (0 < _)); [|apply Hc]. apply fold_keeps; [intros; by apply drop_peer_keeps|apply Hc].
Qed.

Lemma unauthorized_keeps g : P g -> P (handle_unauthorized_validators E g).
Proof.
  unfold handle_unauthorized_validators. apply fold_keeps. intros g1 c ?. case_decide; [done|].
  destruct (is_authorized_validator_ip _ _ _); [done|]. by apply drop_peer_keeps.
Qed.

Lemma validators_request_keeps v g :
  P g -> P (act (Send v Events.ValidatorsRequest) (set_cache (Cache.increment_outbound_validators_requests (cache g) v).2 g)).
Proof.
  apply (HP v); [|by intros l c]. etrans; [|by apply within_act; split]. apply within_cache.
  unfold Cache.in_flight, Cache.increment_outbound_validators_requests, Cache.increment_counter. by destruct (cache g).
Qed.

Lemma min_connected_keeps g : P g -> P (handle_min_connected_validators E g).
Proof.
  intros Hg. unfold handle_min_connected_validators. case_decide; [done|]. cbv zeta.
  assert (P (foldl (try_connect E) g (c_listener_addr <$> filter (fun c => is_due E g c = true) (get_candidate_peers (order E) (pool g))))) as H5
    by (apply fold_keeps; [apply try_connect_keeps|done]).
  destruct (choose E _) as [v|]; [by apply validators_request_keeps|done].
Qed.

Lemma unban_keeps g : P g -> P (handle_banned_ips E g).
Proof. apply (HP DUMMY_SELF_IP); [by apply within_pool|by intros l c]. Qed.

Lemma heartbeat_keeps g : P g -> P (heartbeat E g).
Proof.
  intros Hg. unfold heartbeat. apply unban_keeps, min_connected_keeps, unauthorized_keeps, bootstrap_keeps.
  unfold handle_trusted_validators. apply fold_keeps; [apply try_connect_keeps|done].
Qed.
End Heartbeat.

Lemma step_run_inv C g g' : step C g g' -> run_inv g -> run_inv g'.
Proof.
  intros Hs Hg. destruct Hs.
  - destruct (process_message_within E peer_addr e g) as [->|[ip Hw]]; [done|by eapply within_run_inv].
  - destruct Hg as [R1 R2 R3]. split.
    + done.
    + cbn. intros p r' Hp. apply elem_of_app. apply in_flight_insert in Hp as [[-> ->%cache_request_inj]|Hp]; [right; left|].
      left. by apply R2.
    + cbn. intros p blocks v pre post Hsplit. destruct (snoc_split _ _ _ _ _ Hsplit) as (post' & Hsplit'); [done|].
      by eapply R3.
  - eapply (within_run_inv a), Hg. by eapply within_connect.
  - eapply (within_run_inv a), Hg. apply within_initiator_start.
  - eapply (within_run_inv peer_addr), Hg. apply within_initiator_verify.
  - by apply succeeded_run_inv.
  - eapply (within_run_inv peer_addr), Hg. apply within_responder_start.
  - unfold responder_finish. destruct (verify_challenge_response _ _ _ _ _);
      [eapply (within_run_inv peer_addr), Hg; apply within_handshake_failed|by apply succeeded_run_inv].
  - eapply (within_run_inv a), Hg. apply within_handshake_failed.
  - by apply disconnect_run_inv.
  - apply (heartbeat_keeps run_inv); [|done]. intros ip g1 g2 Hw _ ?. by eapply within_run_inv.
Qed.

Lemma reachable_run_inv C cached trusted g : reachable C cached trusted g -> run_inv g.
Proof.
  induction 1 as [|g g' _ IH Hs]; [|by eapply step_run_inv]. split.
  - unfold connected_at. cbn. intros l c Hlc%initial_candidates. done.
  - unfold Cache.in_flight. cbn. intros p r. rewrite lookup_empty. cbn. set_solver.
  - cbn. intros p blocks v pre post H. by destruct pre.
Qed.

(** C24: whatever the interleaving of handshakes, messages, bans and
    disconnections, a peer that is connected can be resolved from the address of
    its connection, and every list of blocks that was passed to the
    synchronization came from a peer after it was asked for exactly these heights. *)
Theorem gateway_runs (C : Config) (cached trusted : list SocketAddr) (g : Gateway) :
  reachable C cached trusted g ->
  (forall l c, connected_at g l c -> get_listener (resolver (pool g)) (connected_addr c) = Some l) /\
  (forall ip blocks v pre post,
     actions g = pre ++ InsertBlocks ip blocks v :: post ->
     (forall b, b ∈ blocks -> 0 <= height b < u32_max) ->
     exists r, Send ip (Events.EventBlockRequest r) ∈ pre /\
       height <$> blocks = seqZ (Events.start_height r) (Events.end_height r - Events.start_height r)).
Proof.
  intros [R1 _ R3]%reachable_run_inv. split; [done|]. intros ip blocks v pre post Hs Hb.
  destruct (R3 _ _ _ _ _ Hs) as (r & Hr & Hwf). exists r. split; [done|].
  by apply Events.well_formed_response in Hwf as [_ ?].
Qed.


(** ** Handshakes one at a time *)

(** The resolver is the inverse of the pool. *)
Record exact (g : Gateway) : Prop := {
  ex_listener ca l : get_listener (resolver (pool g)) ca = Some l <-> exists c, connected_at g l c /\ connected_addr c = ca;
  ex_address a l : get_peer_ip_for_address (resolver (pool g)) a = Some l <-> exists c, connected_at g l c /\ aleo_addr c = a;
}.

Lemma calm_exact ip g g' : within ip g g' -> kept g g' -> exact g -> exact g'.
Proof.
  intros [_ Hr Hc _] Hk [X1 X2]. split; intros; rewrite Hr; [rewrite X1|rewrite X2]; unfold kept in Hk; naive_solver.
Qed.

(** No answer of the synchronization gets a peer banned. *)
Definition never_bans (E : Env) : Prop :=
  forall ip blocks v e, insert_block_response E ip blocks v = inl e -> BlockSync.is_invalid_consensus_version e = false.

Ltac keeps_kept := repeat keeps_step kept ltac:(idtac; apply keeps_modify; intros ? ? ? ?; done).

Lemma kept_seen E ch i : keeps kept (seen E ch i).
Proof. intros g l c. unfold seen. by destruct (Cache.insert_seen _ _ _ _) as [[]| | |]. Qed.

Lemma kept_to_worker E i a : keeps kept (to_worker sha256 E i a).
Proof. unfold to_worker. keeps_kept. Qed.

Lemma kept_block_response E ip r d v : never_bans E -> keeps kept (handle_block_response E ip r d v).
Proof.
  intros Hn. unfold handle_block_response. destruct (has_sync E); [|apply (keeps_ret kept)]. cbn [negb].
  apply (keeps_bind kept); [apply (keeps_get kept)|]. intros g. destruct (Cache.remove_outbound_block_request _ _ _) as [[] c]; cbn [negb];
    [|keeps_kept].
  do 4 (apply (keeps_bind kept); [keeps_kept|intros ?]).
  destruct (insert_block_response E ip _ v) as [e|] eqn:He; [|keeps_kept].
  rewrite (Hn _ _ _ _ He). destruct (BlockSync.is_benign e); apply (keeps_ret kept).
Qed.

Lemma kept_dispatch E ip e : never_bans E -> keeps kept (dispatch sha256 E ip e).
Proof.
  intros Hn. unfold dispatch. destruct e; cbv zeta; try solve [keeps_kept].
  - unfold handle_block_request. keeps_kept.
  - by apply kept_block_response.
  - apply (keeps_bind kept); [|intros ?; apply (keeps_ret kept)]. intros g. apply kept_disconnect.
  - unfold handle_primary_ping. keeps_kept.
  - keeps_kept. apply kept_to_worker.
  - keeps_kept. apply kept_to_worker.
  - unfold handle_validators_response. keeps_kept. apply keeps_modify. intros g l c. unfold connected_at. cbn.
    by rewrite insert_candidates_connected.
  - unfold handle_worker_ping. keeps_kept. apply kept_to_worker.
Qed.

Lemma kept_message E peer_addr e g : never_bans E -> kept g (process_message sha256 E peer_addr e g).
Proof.
  intros Hn. unfold process_message. destruct (inbound sha256 E peer_addr e g) as [r g'] eqn:Hi.
  assert (kept g g') as Hk.
  { change g' with (r, g').2. rewrite <-Hi. unfold inbound. destruct (get_listener _ _) as [ip|]; [|reflexivity].
    destruct (negb _); [reflexivity|]. revert g Hi. assert (keeps kept (limit_and_dispatch sha256 E ip e)) as Hl; [|intros; apply Hl].
    unfold limit_and_dispatch, is_duplicate. keeps_kept; first [apply kept_seen|by apply kept_dispatch]. }
  destruct r; try done. destruct (get_listener (resolver (pool g')) peer_addr) as [ip|]; [|done].
  etrans; [exact Hk|]. etrans; [|apply kept_disconnect]. by intros l c.
Qed.

(** The steps of a gateway that completes a handshake before it begins another
    one, and bans nobody. *)
Inductive orderly (C : Config) : Gateway -> Gateway -> Prop :=
| orderly_message E peer_addr e g :
    config E = C -> never_bans E -> orderly C g (process_message sha256 E peer_addr e g)
| orderly_send peer_ip r g : orderly C g (send_block_request peer_ip r g)
| orderly_connect t a g p : connect C t a (pool g) = inr p -> orderly C g (set_peers p g)
| orderly_initiator E id nonce a response request g g1 g2 :
    config E = C -> fresh g a -> initiator_start a g = (true, g1) ->
    initiator_verify E id nonce a response request g1 = (true, g2) ->
    orderly C g (handshake_succeeded E a a request g2)
| orderly_responder E id nonce peer_addr response request g g1 g2 :
    config E = C -> fresh g peer_addr -> responder_start E peer_addr request g = (true, g1) ->
    responder_finish E id nonce peer_addr response request g1 = (true, g2) -> orderly C g g2
| orderly_refused a g : orderly C g (initiator_start a g).2
| orderly_refused_inbound E peer_addr request g : config E = C -> orderly C g (responder_start E peer_addr request g).2
| orderly_failed a g : orderly C g (handshake_failed a g)
| orderly_disconnect E peer_addr g : config E = C -> orderly C g (handle_disconnect E peer_addr g)
| orderly_heartbeat E g : config E = C -> orderly C g (heartbeat E g).

Inductive orderly_reachable (C : Config) (cached trusted : list SocketAddr) : Gateway -> Prop :=
| orderly_new : orderly_reachable C cached trusted (new C cached trusted)
| orderly_step g g' : orderly_reachable C cached trusted g -> orderly C g g' -> orderly_reachable C cached trusted g'.

Lemma kept_handshake_failed a g : kept g (handshake_failed a g).
Proof.
  unfold handshake_failed. destruct (peer_pool (pool g) !! a) as [[]|] eqn:E; try reflexivity.
  apply kept_update. congruence.
Qed.

Lemma kept_add_connecting a g p : add_connecting_peer a (pool g) = inr p -> kept g (set_peers p g).
Proof.
  unfold add_connecting_peer. destruct (peer_pool (pool g) !! a) as [[]|] eqn:E; intros H; simplify_eq;
    apply kept_update; congruence.
Qed.

Lemma kept_initiator_start a g : kept g (initiator_start a g).2.
Proof.
  unfold initiator_start. destruct (add_connecting_peer a (pool g)) eqn:E; cbn;
    [apply kept_handshake_failed|by eapply kept_add_connecting].
Qed.

Lemma kept_responder_start E peer_addr c g : kept g (responder_start E peer_addr c g).2.
Proof.
  unfold responder_start. case_decide; [reflexivity|]. cbv zeta.
  destruct (ensure_peer_is_allowed E _); [apply kept_handshake_failed|].
  destruct (add_connecting_peer _ (pool g)) eqn:Ha; [apply kept_handshake_failed|].
  apply kept_add_connecting in Ha. destruct (verify_challenge_request _ _ _ _); cbn; [|done].
  etrans; [exact Ha|apply kept_handshake_failed].
Qed.

(** The entry of a new connection is not one of another connection, when the
    handshake began with the entry. *)
Lemma started_not_connected a g p c : add_connecting_peer a (pool g) = inr p -> peer_pool p !! a <> Some (Connected c).
Proof.
  unfold add_connecting_peer. destruct (peer_pool (pool g) !! a) as [[]|]; intros H; simplify_eq; cbn;
    by rewrite lookup_insert_eq.
Qed.

Lemma succeeded_exact E addr peer_addr cr g :
  fresh g peer_addr -> is_connected_address (pool g) (ch_address cr) = false ->
  (forall c, peer_pool (pool g) !! addr <> Some (Connected c)) ->
  exact g -> exact (handshake_succeeded E addr peer_addr cr g).
Proof.
  intros Hf Ha Hn [X1 X2]. unfold handshake_succeeded. destruct (peer_pool (pool g) !! addr) as [q|] eqn:Eq; [|by split].
  apply bool_decide_eq_false in Ha.
  split; unfold connected_at, get_listener, get_peer_ip_for_address in *; cbn.
  - intros ca l. destruct (decide (ca = peer_addr)) as [->|Hca].
    + rewrite lookup_insert_eq. split.
      * intros [= <-]. eexists. rewrite lookup_insert_eq. split; done.
      * intros (c & [[-> _]|[Hne Hc]]%lookup_insert_Some & Hca); [done|]. by destruct (Hf l c).
    + rewrite lookup_insert_ne, X1 by done. split; intros (c & Hc & <-); exists c.
      * rewrite lookup_insert_ne; [done|]. intros ->. apply (Hn c). congruence.
      * apply lookup_insert_Some in Hc as [[-> [= <-]]|[_ ?]]; done.
  - intros a l. destruct (decide (a = ch_address cr)) as [->|Hne].
    + rewrite lookup_insert_eq. split.
      * intros [= <-]. eexists. rewrite lookup_insert_eq. split; done.
      * intros (c & [[-> _]|[Hne Hc]]%lookup_insert_Some & Hca); [done|]. destruct Ha. exists l. apply X2. eauto.
    + rewrite lookup_insert_ne, X2 by done. split; intros (c & Hc & <-); exists c.
      * rewrite lookup_insert_ne; [done|]. intros ->. apply (Hn c). congruence.
      * apply lookup_insert_Some in Hc as [[-> [= <-]]|[_ ?]]; done.
Qed.

Lemma verified_address E g peer_addr c :
  verify_challenge_request E g peer_addr c = None -> is_connected_address (pool g) (ch_address c) = false.
Proof. unfold verify_challenge_request. intros H. repeat (case_match; try discriminate H). done. Qed.

Lemma disconnect_exact E peer_addr g :
  own_type (config E) <> BootstrapClient -> exact g -> exact (handle_disconnect E peer_addr g).
Proof.
  intros Ht Hg. unfold handle_disconnect. destruct (get_listener _ peer_addr) as [ip|] eqn:Hl; [|done].
  destruct (downgrade_peer_to_candidate _ _ _) as [was p] eqn:Hd.
  assert (exact (set_peers p g)) as Hp.
  { destruct Hg as [X1 X2]. apply X1 in Hl as (c0 & Hip & Hca). unfold downgrade_peer_to_candidate in Hd.
    unfold connected_at in Hip. rewrite Hip in Hd. rewrite bool_decide_eq_false_2 in Hd by done. cbn in Hd. simplify_eq.
    split; unfold connected_at, get_listener, get_peer_ip_for_address in *; cbn.
    - intros ca l. rewrite lookup_delete_Some, X1. split.
      + intros (Hne & c & Hc & <-). exists c. rewrite lookup_insert_ne; [done|]. congruence.
      + intros (c & [[-> ?]|[Hne Hc]]%lookup_insert_Some & <-); [done|]. split; [|eauto].
        intros Heq. apply Hne. assert (to_listener (resolver (pool g)) !! connected_addr c = Some l) by (apply X1; eauto).
        assert (to_listener (resolver (pool g)) !! connected_addr c0 = Some ip) by (apply X1; eauto). congruence.
    - intros a l. rewrite lookup_delete_Some, X2. split.
      + intros (Hne & c & Hc & <-). exists c. rewrite lookup_insert_ne; [done|]. congruence.
      + intros (c & [[-> ?]|[Hne Hc]]%lookup_insert_Some & <-); [done|]. split; [|eauto].
        intros Heq. apply Hne. assert (address_peers (resolver (pool g)) !! aleo_addr c = Some l) by (apply X2; eauto).
        assert (address_peers (resolver (pool g)) !! aleo_addr c0 = Some ip) by (apply X2; eauto). congruence. }
  destruct Hp as [X1 X2]. destruct (was && has_sync E); by split.
Qed.

Lemma fresh_sub ip g g' a : within ip g g' -> fresh g a -> fresh g' a.
Proof. intros [_ _ Hc _] Hf l c ?. eauto. Qed.

Lemma orderly_exact C g g' : own_type C <> BootstrapClient -> orderly C g g' -> exact g -> exact g'.
Proof.
  intros Ht Ho Hg. destruct Ho.
  - destruct (process_message_within E peer_addr e g) as [->|[ip Hw]]; [done|].
    eapply calm_exact; [exact Hw|by apply kept_message|done].
  - destruct Hg. by split.
  - eapply (calm_exact a); [by eapply within_connect|by eapply kept_connect|done].
  - pose proof (within_initiator_start a a g) as Hw. pose proof (kept_initiator_start a g) as Hk.
    unfold initiator_start in *. destruct (add_connecting_peer a (pool g)) as [|p] eqn:Ha; simplify_eq; cbn in Hw, Hk.
    unfold initiator_verify in *. destruct (verify_challenge_response _ _ _ _ _); [done|].
    destruct (verify_challenge_request _ _ _ _) eqn:Hv; simplify_eq.
    apply succeeded_exact; [by eapply fresh_sub|by eapply verified_address|intros c; by eapply started_not_connected|].
    by eapply calm_exact.
  - pose proof (within_responder_start peer_addr E peer_addr request g) as Hw. pose proof (kept_responder_start E peer_addr request g) as Hk.
    unfold responder_start in *. destruct (decide (own_address E = ch_address request)); [done|]. cbv zeta in *.
    destruct (ensure_peer_is_allowed _ _); [done|]. destruct (add_connecting_peer _ (pool g)) as [|p] eqn:Ha; [done|].
    destruct (verify_challenge_request _ _ _ _) eqn:Hv; simplify_eq; cbn in Hw, Hk.
    unfold responder_finish in *. destruct (verify_challenge_response _ _ _ _ _); simplify_eq.
    apply succeeded_exact; [by eapply fresh_sub|by eapply verified_address|intros c; by eapply started_not_connected|].
    by eapply calm_exact.
  - eapply (calm_exact a); [apply within_initiator_start|apply kept_initiator_start|done].
  - eapply (calm_exact peer_addr); [apply within_responder_start|apply kept_responder_start|done].
  - eapply (calm_exact a); [apply within_handshake_failed|apply kept_handshake_failed|done].
  - apply disconnect_exact; [congruence|done].
  - apply (heartbeat_keeps exact); [|done]. intros ip g1 g2 Hw Hk ?. by eapply calm_exact.
Qed.

(** In a gateway that completes a handshake before it begins another one and
    bans nobody, the resolver is the inverse of the pool: an address of a
    connection, and an Aleo address, belong to a peer exactly when that peer is
    connected with it, so that no validator is connected twice. *)
Theorem resolver_exact (C : Config) (cached trusted : list SocketAddr) (g : Gateway) :
  own_type C <> BootstrapClient -> orderly_reachable C cached trusted g ->
  (forall ca l, get_listener (resolver (pool g)) ca = Some l <-> exists c, connected_at g l c /\ connected_addr c = ca) /\
  (forall a l, get_peer_ip_for_address (resolver (pool g)) a = Some l <-> exists c, connected_at g l c /\ aleo_addr c = a) /\
  (forall l1 c1 l2 c2, connected_at g l1 c1 -> connected_at g l2 c2 -> aleo_addr c1 = aleo_addr c2 -> l1 = l2).
Proof.
  intros Ht Hr. assert (exact g) as [X1 X2].
  { induction Hr as [|g g' _ IH Ho]; [|by eapply orderly_exact].
    split; unfold connected_at, get_listener, get_peer_ip_for_address; cbn; intros ? ?;
      (split; [by intros ?%lookup_empty_Some|]);
      by intros (c & Hc%initial_candidates & _). }
  split_and!; [done..|]. intros l1 c1 l2 c2 H1 H2 Heq.
  assert (get_peer_ip_for_address (resolver (pool g)) (aleo_addr c1) = Some l1) by (apply X2; eauto).
  assert (get_peer_ip_for_address (resolver (pool g)) (aleo_addr c1) = Some l2) by (apply X2; eauto). congruence.
Qed.

(** ** Where it goes wrong *)

(** Banning a connected validator locks it out.  When its connection was
    closed, it is not in the pool any more, not even as a trusted peer, the
    synchronization was not told that it is gone, and its Aleo address still counts
    as connected, so every later handshake with that address is refused, also after
    the ban has expired. *)
Theorem banned_validator_locked_out (E E' : Env) (g : Gateway) (l : SocketAddr) (c : ConnectedPeer) :
  is_dev (config E) = false -> connected_at g l c ->
  get_peer_ip_for_address (resolver (pool g)) (aleo_addr c) = Some l ->
  get_listener (resolver (pool g)) (connected_addr c) = Some l ->
  let g' := handle_banned_ips E' (handle_disconnect E (connected_addr c) (ban E l g)) in
  peer_pool (pool g') !! l = None /\ is_trusted (pool g') l = false /\
  actions g' = actions g ++ [Close (connected_addr c)] /\
  is_connected_address (pool g') (aleo_addr c) = true /\
  forall E2 peer_addr request, ch_address request = aleo_addr c -> verify_challenge_request E2 g' peer_addr request <> None.
Proof.
  intros Hd Hc Ha Hl. cbv zeta. unfold connected_at in Hc.
  assert (ban E l g = mk_gateway (mk_pool (delete l (peer_pool (pool g))) (resolver (pool g))
    (update_ban (now E) (socket_ip l) (banned_peers (pool g))) (known_peers (pool g))) (cache g)
    (actions g ++ [Close (connected_addr c)])) as ->.
  { unfold ban, ip_ban_peer. rewrite Hd. unfold resolve_to_ambiguous, get_connected_peer. cbn. by rewrite Hc. }
  unfold handle_disconnect. cbn [pool resolver]. rewrite Hl. unfold downgrade_peer_to_candidate. cbn [peer_pool pool].
  rewrite lookup_delete_eq. cbn. unfold is_trusted, is_connected_address. cbn.
  assert (forall g', resolver (pool g') = resolver (pool g) -> is_connected_address (pool g') (aleo_addr c) = true) as Hcon.
  { intros g' Hg'. unfold is_connected_address. rewrite Hg', Ha. by apply bool_decide_eq_true. }
  split_and!; [by rewrite lookup_delete_eq|by rewrite lookup_delete_eq|done|rewrite Ha; by apply bool_decide_eq_true|].
  intros E2 peer_addr request Hr. intros Hv%verified_address. rewrite Hr in Hv.
  by rewrite Hcon in Hv.
Qed.

(** A second attempt to connect to a peer is refused while a handshake with it
    runs, and undoes the mark of that handshake, so that a third one is let in. *)
Theorem refused_attempt_resets (a : SocketAddr) (g g1 : Gateway) :
  initiator_start a g = (true, g1) ->
  exists g2, initiator_start a g1 = (false, g2) /\ is_connecting (pool g2) a = false /\
    (initiator_start a g2).1 = true.
Proof.
  unfold initiator_start at 1. destruct (add_connecting_peer a (pool g)) as [|p] eqn:Ha; intros H; simplify_eq.
  assert (exists l t, peer_pool p !! a = Some (Connecting l t)) as (l & t & Hp).
  { unfold add_connecting_peer in Ha. destruct (peer_pool (pool g) !! a) as [[]|]; simplify_eq; cbn;
      rewrite lookup_insert_eq; by do 2 eexists. }
  exists (handshake_failed a (set_peers p g)). unfold initiator_start, add_connecting_peer, handshake_failed, is_connecting.
  cbn. rewrite Hp. cbn. by rewrite !lookup_insert_eq.
Qed.

(** A new peer that connects is added to the pool whatever its size. *)
Theorem handshake_exceeds_pool (C : Config) (a : SocketAddr) (p : Pool) :
  number_of_peers p = MAXIMUM_POOL_SIZE C -> peer_pool p !! a = None ->
  exists p', add_connecting_peer a p = inr p' /\ number_of_peers p' = MAXIMUM_POOL_SIZE C + 1.
Proof.
  intros Hm Ha. unfold add_connecting_peer. rewrite Ha. eexists. split; [done|]. unfold number_of_peers in *. cbn.
  rewrite map_size_insert_None by done. lia.
Qed.

End Props.
End GatewayProps.
