(* ===== verification/GatewayRuns.v ===== *)
(** * Runs of the gateway

    Concrete gateways: a validator that connects, is asked for blocks and sends
    them, one that is banned, and two handshakes of one validator at a time. *)

From S2P Require Import Prelude Bytes Network Sockets Committee Narwhal Lru StorageService Ledger Storage Cache Locators Ready Pending SyncState BlockSync Worker Events Messages Peers Gateway GatewayProps.

Abbreviation TestGateway := (Gateway.Gateway (N := TestNetwork) (B := TestBlocks)).
Abbreviation TestGatewayEnv := (Gateway.Env (N := TestNetwork) (B := TestBlocks)).

Definition gateway_config : Peers.Config := Peers.mk_config 200 20 false false NodeValidator (SocketAddrV4 167772161 5000) 400.
Definition gateway_env : TestGatewayEnv := {|
  Gateway.config := gateway_config;
  Gateway.own_address := "z"%char;
  Gateway.is_authorized_validator_address a := true;
  Gateway.bootstrap_peers := [];
  Gateway.current_committee_size := Some 4;
  Gateway.get_blocks s e := Err "no blocks";
  Gateway.has_sync := true;
  Gateway.insert_block_response _ _ _ := inr tt;
  Gateway.update_peer_locators _ _ := Ok tt;
  Gateway.num_workers := 1;
  Gateway.verify_bytes s a _ := bool_decide (s.1 = a);
  Gateway.now := 0;
  Gateway.now_secs := 100;
  Gateway.order := [];
  Gateway.shuffle_peers l := l;
  Gateway.choose := head;
  Gateway.sample_peers l n := take (Z.to_nat n) l;
|}.

(** A validator at 8.8.8.8 with the listener port 5000, and the same validator
    at 8.8.4.4. *)
Definition conn1 : SocketAddr := SocketAddrV4 134744072 40000.
Definition conn2 : SocketAddr := SocketAddrV4 134743044 40000.
Definition peer1 : SocketAddr := SocketAddrV4 134744072 5000.
Definition peer2 : SocketAddr := SocketAddrV4 134743044 5000.
Definition hello : Gateway.Challenge (N := TestNetwork) := Gateway.mk_challenge 10 5000 "v"%char 7 None.
Definition answer : Gateway.Response (N := TestNetwork) := Gateway.mk_response "r"%char (Object ("v"%char, "m"%char)) 8.

Definition gateway0 : TestGateway := Gateway.new gateway_config [] [].
Definition waiting1 : TestGateway := (Gateway.responder_start gateway_env conn1 hello gateway0).2.
Definition gateway1 : TestGateway := (Gateway.responder_finish gateway_env "r"%char 9 conn1 answer hello waiting1).2.
Definition asked1 : TestGateway := Gateway.send_block_request peer1 request5 gateway1.
Definition response : TestEvent :=
  Events.BlockResponse request5 (Object [(5, "e"%char, "d"%char); (6, "f"%char, "e"%char)]) (Some 12).
Definition answered1 : TestGateway := Gateway.process_message (fun b => b) gateway_env conn1 response asked1.

(** Two handshakes of one validator that overlap. *)
Definition waiting12 : TestGateway := (Gateway.responder_start gateway_env conn2 hello waiting1).2.
Definition connected12a : TestGateway := (Gateway.responder_finish gateway_env "r"%char 9 conn1 answer hello waiting12).2.
Definition connected12 : TestGateway := (Gateway.responder_finish gateway_env "r"%char 9 conn2 answer hello connected12a).2.
Definition closed2 : TestGateway := Gateway.handle_disconnect gateway_env conn2 connected12.

(** [GatewayProps.fresh], as a test. *)
Definition freshb (g : TestGateway) (a : SocketAddr) : bool :=
  forallb (fun e => match e.2 with Peers.Connected c => bool_decide (Peers.connected_addr c <> a) | _ => true end)
    (map_to_list (Peers.peer_pool (Gateway.pool g))).
Lemma freshb_fresh g a : freshb g a = true -> GatewayProps.fresh g a.
Proof.
  intros H l c Hl. unfold freshb in H. rewrite forallb_forall in H. unfold GatewayProps.connected_at in Hl.
  apply elem_of_map_to_list, list_elem_of_In, H in Hl. by apply bool_decide_eq_true in Hl.
Qed.

(** The Aleo address of a connected peer, and whether an address counts as
    connected. *)
Definition address_of (g : TestGateway) (l : SocketAddr) : option ascii := Peers.resolve_to_aleo_addr (Gateway.pool g) l.
Definition counts (g : TestGateway) : bool := Peers.is_connected_address (Gateway.pool g) ("v"%char : Address (Network := TestNetwork)).

Lemma start1 : (Gateway.responder_start gateway_env conn1 hello gateway0).1 = true.
Proof. vm_refl. Qed.
Lemma finish1 : (Gateway.responder_finish gateway_env "r"%char 9 conn1 answer hello waiting1).1 = true.
Proof. vm_refl. Qed.
Lemma fresh1 : freshb gateway0 conn1 = true.
Proof. vm_refl. Qed.
Lemma fresh1_waiting : freshb waiting1 conn1 = true.
Proof. vm_refl. Qed.
Lemma fresh1_waiting12 : freshb waiting12 conn1 = true.
Proof. vm_refl. Qed.
Lemma fresh2 : freshb connected12a conn2 = true.
Proof. vm_refl. Qed.
Lemma never_bans_env : GatewayProps.never_bans gateway_env.
Proof. by intros ip blocks v e. Qed.

Lemma reachable1 : GatewayProps.reachable (fun b => b) gateway_config [] [] gateway1.
Proof.
  eapply GatewayProps.reachable_step; [eapply GatewayProps.reachable_step; [apply GatewayProps.reachable_new|]|].
  - by apply (GatewayProps.step_responder_start _ _ gateway_env conn1 hello).
  - apply GatewayProps.step_responder_finish; [done|]. apply freshb_fresh, fresh1_waiting.
Qed.

Lemma reachable_answered : GatewayProps.reachable (fun b => b) gateway_config [] [] answered1.
Proof.
  eapply GatewayProps.reachable_step; [eapply GatewayProps.reachable_step; [apply reachable1|]|].
  - apply GatewayProps.step_send.
  - by apply GatewayProps.step_message.
Qed.

Lemma answered_actions :
  Gateway.actions answered1 =
  [Gateway.Send peer1 (Events.EventBlockRequest request5 : TestEvent)] ++
  Gateway.InsertBlocks peer1 [(5, "e"%char, "d"%char); (6, "f"%char, "e"%char)] (Some 12) :: [].
Proof. vm_refl. Qed.

Lemma gateway_runs_witness :
  exists r, Gateway.Send peer1 (Events.EventBlockRequest r) ∈ [Gateway.Send peer1 (Events.EventBlockRequest request5 : TestEvent)] /\
    [5; 6] = seqZ (Events.start_height r) (Events.end_height r - Events.start_height r).
Proof.
  destruct (GatewayProps.gateway_runs (fun b => b) gateway_config [] [] answered1 reachable_answered) as [_ H].
  apply (H _ _ _ _ _ answered_actions). intros b Hb. clear H. set_unfold. destruct_or! Hb; subst; cbn; mlia.
Defined.

Lemma orderly1 : GatewayProps.orderly_reachable (fun b => b) gateway_config [] [] gateway1.
Proof.
  eapply GatewayProps.orderly_step; [apply GatewayProps.orderly_new|].
  eapply (GatewayProps.orderly_responder _ _ gateway_env "r"%char 9 conn1 answer hello gateway0 waiting1).
  - done.
  - apply freshb_fresh, fresh1.
  - rewrite <-start1. apply surjective_pairing.
  - rewrite <-finish1. apply surjective_pairing.
Qed.

Lemma listener1 : Peers.get_listener (Peers.resolver (Gateway.pool gateway1)) conn1 = Some peer1.
Proof. vm_refl. Qed.
Lemma address1 : Peers.get_peer_ip_for_address (Peers.resolver (Gateway.pool gateway1)) ("v"%char : Address (Network := TestNetwork)) = Some peer1.
Proof. vm_refl. Qed.

Lemma resolver_exact_witness :
  exists c, GatewayProps.connected_at gateway1 peer1 c /\ Peers.connected_addr c = conn1.
Proof.
  apply (GatewayProps.resolver_exact (fun b => b) gateway_config [] [] gateway1 ltac:(done) orderly1). apply listener1.
Defined.

Definition connection1 : Peers.ConnectedPeer (N := TestNetwork) :=
  Peers.mk_connected peer1 conn1 Peers.ModeGateway false "v"%char NodeValidator 10 None None 0 0.
Lemma connected1 : Peers.peer_pool (Gateway.pool gateway1) !! peer1 = Some (Peers.Connected connection1).
Proof. vm_refl. Qed.

Lemma banned_validator_locked_out_witness :
  Peers.is_connected_address
    (Gateway.pool (Gateway.handle_banned_ips gateway_env (Gateway.handle_disconnect gateway_env conn1 (Gateway.ban gateway_env peer1 gateway1))))
    ("v"%char : Address (Network := TestNetwork)) = true.
Proof.
  apply (GatewayProps.banned_validator_locked_out gateway_env gateway_env gateway1 peer1 connection1 eq_refl connected1 address1 listener1).
Defined.

(** When the handshakes of one validator over two connections overlap, both
    succeed; when one of the connections is closed, the validator counts as not
    connected although the other one is open. *)
Lemma waiting12_ok : (Gateway.responder_start gateway_env conn2 hello waiting1).1 = true.
Proof. vm_refl. Qed.
Lemma overlapping_reachable : GatewayProps.reachable (fun b => b) gateway_config [] [] closed2.
Proof.
  eapply GatewayProps.reachable_step; [|by apply GatewayProps.step_disconnect].
  eapply GatewayProps.reachable_step; [|apply GatewayProps.step_responder_finish; [done|apply freshb_fresh, fresh2]].
  eapply GatewayProps.reachable_step; [|apply GatewayProps.step_responder_finish; [done|apply freshb_fresh, fresh1_waiting12]].
  eapply GatewayProps.reachable_step; [|by apply GatewayProps.step_responder_start].
  eapply GatewayProps.reachable_step; [|by apply GatewayProps.step_responder_start].
  apply GatewayProps.reachable_new.
Qed.

Theorem overlapping_handshakes_connect_twice :
  GatewayProps.reachable (fun b => b) gateway_config [] [] closed2 /\
  (address_of connected12 peer1, address_of connected12 peer2) = (Some "v"%char, Some "v"%char) /\
  (address_of closed2 peer1, counts closed2) = (Some "v"%char, false).
Proof. split_and!; [apply overlapping_reachable|vm_refl|vm_refl]. Qed.

(** A validator that was dialled at one port and claims another one is kept
    under the port that was dialled; when it is not authorized any more, the
    heartbeat looks for it under the other port and does not close the
    connection. *)
Definition hello6000 : Gateway.Challenge (N := TestNetwork) := Gateway.mk_challenge 10 6000 "v"%char 7 None.
Definition dialled : TestGateway :=
  Gateway.handshake_succeeded gateway_env peer1 peer1 hello6000 (Gateway.initiator_start peer1 gateway0).2.
Definition unauthorized_env : TestGatewayEnv :=
  let '(Gateway.mk_env c a _ b n k h i u w v t s _ f ch sa) := gateway_env in
  Gateway.mk_env c a (fun _ => false) b n k h i u w v t s [peer1] f ch sa.

Theorem mismatched_port_not_closed :
  Peers.is_connected (Gateway.pool dialled) peer1 = true /\
  Gateway.is_authorized_validator_ip unauthorized_env dialled peer1 = false /\
  Gateway.actions (Gateway.handle_unauthorized_validators unauthorized_env dialled) =
    [Gateway.Send (SocketAddrV4 134744072 6000) (Events.Disconnect Events.ProtocolViolation : TestEvent)].
Proof. split_and!; vm_refl. Qed.

(** Five candidates in a pool of five: the one with the most failures makes room. *)
Definition small_config : Peers.Config := Peers.mk_config 5 1 false false NodeValidator (SocketAddrV4 167772161 5000) 400.
Definition public (n : Z) : SocketAddr := SocketAddrV4 (134744072 + n) 5000.
Definition full_pool : Peers.Pool (N := TestNetwork) :=
  Peers.mk_pool (list_to_map ((fun n => (public n, Peers.new_candidate (public n) false)) <$> [1; 2; 3; 4; 5]))
    Peers.empty_resolver ∅ {[ socket_ip (public 3) := mk_stats 0 0 0 0 0 2 ]}.
Lemma full_pool_size : Peers.number_of_peers full_pool = 5.
Proof. vm_refl. Qed.

Lemma insert_candidates_spec_witness :
  Peers.number_of_peers (Peers.insert_candidate_peers small_config 9 (public <$> [1; 2; 3; 4; 5]) [(public 7, None); (public 8, None)] full_pool) <= 5.
Proof.
  apply (Peers.insert_candidates_spec small_config 9 (public <$> [1; 2; 3; 4; 5]) [(public 7, None); (public 8, None)] full_pool).
  rewrite full_pool_size. done.
Defined.
