(* ===== verification/MerkleTree.v ===== *)
(** * The Merkle tree of snarkVM

    [MerkleTree] and [MerklePath] of snarkVM/console/collections/src/merkle_tree,
    from which the roots of blocks, transactions and the ledger are computed.  A
    tree is an array of hashes in the order of a binary heap, without the nodes
    below which there is no leaf; appending, updating and removing leaves reuse
    the hashes of the tree before.  The leaf and path hashers are the class
    [MerkleHash].  The theorems are in [MerkleProps]. *)

From S2P Require Import Prelude Bytes.

(** The hashers: [LeafHash::hash_leaf], [PathHash::hash_children] and
    [Field::zero()], with the type of leaves and the encoding of hashes. *)
Class MerkleHash := {
  Digest : Type;
  digest_eq_dec :: EqDecision Digest;
  Leaf : Type;
  digest_zero : Digest;
  hash_leaf : Leaf -> result Digest;
  hash_children : Digest -> Digest -> result Digest;
  write_digest : Digest -> list Z;
  read_digest : reader Digest;
}.

Module Merkle.

(** ** Arrays *)

(** [l[i]]. *)
Definition index {A} (l : list A) (i : nat) : result A := unwrap "index out of bounds" (l !! i).
(** [&l[a..b]]. *)
Definition slice {A} (l : list A) (a b : nat) : result (list A) :=
  if decide (a <= b <= length l)%nat then Ok (take (b - a) (drop a l)) else Panic "range out of bounds".
(** [l[a..b].copy_from_slice(src)]. *)
Definition copy_from_slice {A} (l : list A) (a b : nat) (src : list A) : result (list A) :=
  if decide (a <= b <= length l)%nat then
    if decide (length src = b - a)%nat then Ok (list_inserts a src l)
    else Panic "copy_from_slice: source slice length does not match destination slice length"
  else Panic "range out of bounds".
(** [.take_while(p)]. *)
Fixpoint take_while {A} (p : A -> bool) (l : list A) : list A :=
  match l with
  | [] => []
  | x :: l => if p x then x :: take_while p l else []
  end.
(** [(a..b)]. *)
Definition range (a b : nat) : list nat := seq a (b - a).

(** [usize::checked_next_power_of_two]. *)
Definition checked_next_power_of_two (n : nat) : option nat :=
  if decide (Z.of_nat n <= 2 ^ 63) then Some (2 ^ Nat.log2_up n)%nat else None.

(** ** Indices *)

Definition left_child (i : nat) : nat := (2 * i + 1)%nat.
Definition right_child (i : nat) : nat := (2 * i + 2)%nat.
Definition is_root (i : nat) : bool := bool_decide (i = 0%nat).
Definition is_left_child (i : nat) : bool := bool_decide (i `mod` 2 = 1)%nat.
Definition sibling (i : nat) : option nat :=
  if is_root i then None else if is_left_child i then Some (i + 1)%nat else Some (i - 1)%nat.
Definition parent (i : nat) : option nat :=
  if decide (0 < i)%nat then Some ((i - 1) `div` 2)%nat else None.

(** [tree_depth::<DEPTH>]. *)
Definition tree_depth (DEPTH tree_size : nat) : result nat :=
  let tree_depth := Nat.log2 tree_size in
  if decide (tree_depth <= DEPTH)%nat then Ok tree_depth else Err "Merkle tree cannot exceed depth {DEPTH}: attempted to reach depth {tree_depth}".

(** The number of hashes that are stored for [n] leaves, of which [num_nodes] are
    inner nodes: an odd number of leaves is padded by one empty hash. *)
Definition minimum_tree_size (num_nodes n : nat) : nat :=
  Nat.max 1 (num_nodes + n + (if decide (1 < n)%nat then n `mod` 2 else 0))%nat.

Section Merkle.
Context `{MH : MerkleHash} (DEPTH : nat).

(** [PathHash::hash_empty], [PathHash::hash_all_children], [LeafHash::hash_leaves]. *)
Definition hash_empty : result Digest := hash_children digest_zero digest_zero.
Definition hash_all_children (child_nodes : list (Digest * Digest)) : result (list Digest) :=
  mapR (fun c => hash_children c.1 c.2) child_nodes.
Definition hash_leaves (leaves : list Leaf) : result (list Digest) := mapR hash_leaf leaves.

Record MerkleTree := mk_tree {
  root : Digest;
  tree : list Digest;
  empty_hash : Digest;
  number_of_leaves : nat;
  preserved_tree_allocation : option (list Digest);
}.

(** The loop that hashes the root with the empty hash, once per padded level. *)
Fixpoint pad_root (padding_depth : nat) (e root_hash : Digest) : result Digest :=
  match padding_depth with
  | O => Ok root_hash
  | S n => h ← hash_children root_hash e; pad_root n e h
  end.

(** ** Construction *)

(** One level of the loop of [MerkleTree::new]. *)
Definition new_level (start : nat) (e : Digest) (t : list Digest) : result (list Digest) :=
  let stop := left_child start in
  tuples ← mapR (fun i => l ← index t (left_child i); r ← index t (right_child i); Ok (l, r))
             (take_while (fun i => bool_decide (is_Some (t !! left_child i))) (range start stop));
  let num_full_nodes := length tuples in
  hashes ← hash_all_children tuples;
  t ← copy_from_slice t start (start + num_full_nodes) hashes;
  if decide (start + num_full_nodes < stop)%nat then
    empty_node_hash ← hash_children e e;
    Ok (imap (fun i x => if decide (start + num_full_nodes <= i < stop)%nat then empty_node_hash else x) t)
  else Ok t.

(** The loop over the levels; [fuel] is at least the number of levels. *)
Fixpoint new_levels (fuel start_index : nat) (e : Digest) (t : list Digest) : result (list Digest) :=
  match parent start_index with
  | None => Ok t
  | Some start =>
      match fuel with
      | O => Deadlock
      | S fuel => t ← new_level start e t; new_levels fuel start e t
      end
  end.

(** The sizes that [new], [prepare_append] and [prepare_remove_last_n] begin with:
    the number of inner nodes and that of the padded levels. *)
Definition tree_shape (n : nat) : result (nat * nat) :=
  max_leaves ← ok_or "Integer overflow when computing the maximum number of leaves in the Merkle tree"
                 (checked_next_power_of_two n);
  let num_nodes := (max_leaves - 1)%nat in
  let tree_size := (num_nodes + max_leaves)%nat in
  depth ← tree_depth DEPTH tree_size;
  Ok (num_nodes, DEPTH - depth)%nat.

(** [MerkleTree::new]. *)
Definition new (leaves : list Leaf) : result MerkleTree :=
  _ ← ensure (bool_decide (0 < DEPTH)%nat) "Merkle tree depth must be greater than 0";
  _ ← ensure (bool_decide (DEPTH <= 64)%nat) "Merkle tree depth must be less than or equal to 64";
  '(num_nodes, padding_depth) ← tree_shape (length leaves);
  e ← hash_empty;
  let t := replicate (minimum_tree_size num_nodes (length leaves)) e in
  hashes ← hash_leaves leaves;
  t ← copy_from_slice t num_nodes (num_nodes + length leaves) hashes;
  t ← new_levels num_nodes num_nodes e t;
  root_hash ← index t 0;
  root_hash ← pad_root padding_depth e root_hash;
  Ok (mk_tree root_hash t e (length leaves) None).

(** The index of the first leaf hash. *)
Definition leaf_start (msg : string) (n : nat) : result nat :=
  num_leaves ← ok_or msg (checked_next_power_of_two n); Ok (num_leaves - 1)%nat.

(** [MerkleTree::leaf_hashes]. *)
Definition leaf_hashes (m : MerkleTree) : result (list Digest) :=
  start ← leaf_start "Integer overflow when computing the Merkle tree start index" (number_of_leaves m);
  slice (tree m) start (start + number_of_leaves m).

(** ** Recomputation of part of a tree *)

(** The hashes of the nodes [a..b] of the tree, written to these nodes; a child that is
    not stored is the empty hash. *)
Definition hash_nodes (e : Digest) (a b : nat) (t : list Digest) : result (list Digest) :=
  let tuples := (fun i => (default e (t !! left_child i), default e (t !! right_child i))) <$> range a b in
  _ ← slice t a b;
  hashes ← hash_all_children tuples;
  copy_from_slice t a b hashes.

(** One level of [MerkleTree::compute_updated_tree] on the tree [old]: the tree and
    the precompute indices for the next level. *)
Definition update_level (old : list Digest) (e : Digest) (start middle start_precompute_index : nat)
    (middle_precompute_index : option nat) (t : list Digest) : result (list Digest * nat * option nat) :=
  let stop := left_child start in
  '(t, start_precompute_index) ←
    match parent start_precompute_index with
    | Some start_precompute =>
        let end_precompute := (start_precompute + (middle - start))%nat in
        src ← slice old start_precompute end_precompute;
        t ← copy_from_slice t start middle src;
        Ok (t, start_precompute)
    | None =>
        _ ← ensure (bool_decide (start = middle)) "Failed to process all left precomputed indices in the Merkle tree";
        Ok (t, start_precompute_index)
    end;
  match middle_precompute_index with
  | Some middle_precompute =>
      match parent middle_precompute with
      | Some middle_precompute =>
          t ← hash_nodes e middle middle_precompute t;
          src ← slice old middle_precompute stop;
          t ← copy_from_slice t middle_precompute stop src;
          Ok (t, start_precompute_index, Some (middle_precompute + 1)%nat)
      | None =>
          _ ← ensure (bool_decide (middle_precompute = stop)) "Failed to process all right precomputed indices in the Merkle tree";
          Ok (t, start_precompute_index, middle_precompute_index)
      end
  | None => t ← hash_nodes e middle stop t; Ok (t, start_precompute_index, None)
  end.

Fixpoint update_levels (fuel : nat) (old : list Digest) (e : Digest) (start_index middle_index start_precompute_index : nat)
    (middle_precompute_index : option nat) (t : list Digest) : result (list Digest) :=
  match parent start_index, parent middle_index with
  | Some start, Some middle =>
      match fuel with
      | O => Deadlock
      | S fuel =>
          '(t, sp, mp) ← update_level old e start middle start_precompute_index middle_precompute_index t;
          update_levels fuel old e start middle sp mp t
      end
  | _, _ => Ok t
  end.

(** [MerkleTree::compute_updated_tree]. *)
Definition compute_updated_tree (m : MerkleTree) (start_index middle_index start_precompute_index : nat)
    (middle_precompute_index : option nat) (t : list Digest) : result (list Digest) :=
  e ← hash_empty;
  update_levels start_index (tree m) e start_index middle_index start_precompute_index middle_precompute_index t.

(** [MerkleTree::prepare_append].  That the allocation is taken from the tree has no
    effect: nothing depends on its contents. *)
Definition prepare_append (m : MerkleTree) (new_leaves : list Leaf) : result MerkleTree :=
  let n := number_of_leaves m in
  '(num_nodes, padding_depth) ← tree_shape (n + length new_leaves);
  let t := resize num_nodes (empty_hash m) (default (replicate num_nodes (empty_hash m)) (preserved_tree_allocation m)) in
  old_hashes ← leaf_hashes m;
  new_hashes ← hash_leaves new_leaves;
  let t := resize (minimum_tree_size num_nodes (n + length new_leaves)) (empty_hash m) (t ++ old_hashes ++ new_hashes) in
  start_precompute_index ← leaf_start "Integer overflow when computing the Merkle tree precompute index" n;
  let middle_precompute_index :=
    if decide (num_nodes = start_precompute_index) then Some (start_precompute_index + n + length new_leaves + 1)%nat else None in
  t ← compute_updated_tree m num_nodes (num_nodes + n) start_precompute_index middle_precompute_index t;
  root_hash ← index t 0;
  root_hash ← pad_root padding_depth (empty_hash m) root_hash;
  Ok (mk_tree root_hash t (empty_hash m) (n + length new_leaves) None).

(** [MerkleTree::prepare_remove_last_n]. *)
Definition prepare_remove_last_n (m : MerkleTree) (n : nat) : result MerkleTree :=
  _ ← ensure (bool_decide (0 < n)%nat) "Cannot remove zero leaves from the Merkle tree";
  _ ← ensure (bool_decide (n <= number_of_leaves m)%nat) "Failed to remove '{n}' leaves from the Merkle tree, as it only contains {}";
  let k := (number_of_leaves m - n)%nat in
  '(num_nodes, padding_depth) ← tree_shape k;
  hashes ← leaf_hashes m;
  hashes ← slice hashes 0 k;
  let t := resize (minimum_tree_size num_nodes k) (empty_hash m) (replicate num_nodes (empty_hash m) ++ hashes) in
  start_precompute_index ← leaf_start "Integer overflow when computing the Merkle tree precompute index" (number_of_leaves m);
  let middle_precompute_index :=
    if decide (num_nodes = start_precompute_index) then Some (start_precompute_index + number_of_leaves m + 1)%nat else None in
  t ← compute_updated_tree m num_nodes (num_nodes + k) start_precompute_index middle_precompute_index t;
  root_hash ← index t 0;
  root_hash ← pad_root padding_depth (empty_hash m) root_hash;
  Ok (mk_tree root_hash t (empty_hash m) k None).

(** ** Updates *)

(** The hashes of the path from the node [i], whose new hash is [h], to the root,
    without [h] itself. *)
Fixpoint path_hashes (fuel : nat) (t : list Digest) (i : nat) (h : Digest) : result (list Digest) :=
  match parent i with
  | None => Ok []
  | Some p =>
      match fuel with
      | O => Deadlock
      | S fuel =>
          '(l, r) ← (if is_left_child i then r ← index t (right_child p); Ok (h, r)
                     else l ← index t (left_child p); Ok (l, h));
          h ← hash_children l r;
          hs ← path_hashes fuel t p h;
          Ok (h :: hs)
      end
  end.

(** The loop that writes the hashes of a path to the tree. *)
Fixpoint write_path (hashes : list Digest) (i : option nat) (t : list Digest) : result (list Digest) :=
  match hashes with
  | [] => Ok t
  | h :: hashes =>
      i ← unwrap "called `Option::unwrap()` on a `None` value" i;
      _ ← index t i;
      write_path hashes (parent i) (<[i := h]> t)
  end.

(** [MerkleTree::prepare_update]. *)
Definition prepare_update (m : MerkleTree) (leaf_index : nat) (new_leaf : Leaf) : result MerkleTree :=
  _ ← ensure (bool_decide (leaf_index < number_of_leaves m)%nat) "Leaf index must be less than the number of leaves in the Merkle tree {leaf_index} , {}";
  h ← hash_leaf new_leaf;
  start ← leaf_start "Integer overflow when computing the Merkle tree start index" (number_of_leaves m);
  hs ← path_hashes (start + leaf_index) (tree m) (start + leaf_index) h;
  depth ← tree_depth DEPTH (length (tree m));
  let padding_depth := (DEPTH - depth)%nat in
  root_hash ← pad_root padding_depth (empty_hash m) (default h (last hs));
  t ← write_path (h :: hs) (Some (start + leaf_index)%nat) (tree m);
  Ok (mk_tree root_hash t (empty_hash m) (number_of_leaves m) None).

(** The inputs of the path hasher for the parents of the updated nodes of a level,
    which are in ascending order. *)
Fixpoint level_inputs (fuel : nat) (t : list Digest) (updated : list (nat * Digest)) : result (list (nat * (Digest * Digest))) :=
  match updated with
  | [] => Ok []
  | (i, h) :: rest =>
      match fuel, sibling i with
      | O, _ => Deadlock
      | _, None => Ok []
      | S fuel, Some s =>
          '(hs, rest) ←
            match rest with
            | (j, h') :: rest' => if decide (j = s) then Ok (h', rest') else hs ← index t s; Ok (hs, rest)
            | [] => hs ← index t s; Ok (hs, rest)
            end;
          let '(l, r) := if is_left_child i then (h, hs) else (hs, h) in
          p ← unwrap "called `Option::unwrap()` on a `None` value" (parent i);
          inputs ← level_inputs fuel t rest;
          Ok ((p, (l, r)) :: inputs)
      end
  end.

(** The loop over the levels: the updated hashes of the levels from [updated] on. *)
Fixpoint updated_levels (depth : nat) (t : list Digest) (updated : list (nat * Digest)) : result (list (list (nat * Digest))) :=
  match depth with
  | O => Ok [updated]
  | S depth =>
      inputs ← level_inputs (length updated) t updated;
      next ← mapR (fun input => h ← hash_children input.2.1 input.2.2; Ok (input.1, h)) inputs;
      levels ← updated_levels depth t next;
      Ok (updated :: levels)
  end.

(** [MerkleTree::update_many], with the updates in the order of their keys; the tree stays as it is on an error. *)
Definition update_many (m : MerkleTree) (updates : gmap Z Leaf) : result MerkleTree :=
  let updates := btree_iter updates in
  _ ← ensure (negb (bool_decide (updates = []))) "There must be at least one leaf to update in the Merkle tree";
  last_update ← unwrap "called `Option::unwrap()` on a `None` value" (last updates);
  _ ← ensure (bool_decide (last_update.1 < Z.of_nat (number_of_leaves m))) "Leaf index must be less than the number of leaves in the Merkle tree";
  start ← leaf_start "Integer overflow when computing the Merkle tree start index" (number_of_leaves m);
  leaf_hashes ← mapR (fun u => h ← hash_leaf u.2; Ok (start + Z.to_nat u.1, h)%nat) updates;
  depth ← tree_depth DEPTH (length (tree m));
  levels ← updated_levels depth (tree m) leaf_hashes;
  let padding_depth := (DEPTH - depth)%nat in
  last_level ← unwrap "called `Option::unwrap()` on a `None` value" (last levels);
  first ← index last_level 0;
  root_hash ← pad_root padding_depth (empty_hash m) first.2;
  t ← foldM (fun t u => _ ← index t u.1; Ok (<[u.1 := u.2]> t)) (tree m) (concat levels);
  Ok (mk_tree root_hash t (empty_hash m) (number_of_leaves m) (preserved_tree_allocation m)).

(** [MerkleTree::preserve_tree_allocation]: the tree that keeps the allocation. *)
Definition preserve_tree_allocation (m previous : MerkleTree) : MerkleTree :=
  mk_tree (root m) (tree m) (empty_hash m) (number_of_leaves m) (Some (tree previous)).

(** [MerkleTree::append], [update] and [remove_last_n]: the tree is replaced at the end,
    and stays as it is on a failure. *)
Definition replace_by (prepare : MerkleTree -> result MerkleTree) : SM MerkleTree unit := fun m =>
  match prepare m with
  | Ok m' => (Ok tt, m')
  | Err e => (Err e, m)
  | Panic e => (Panic e, m)
  | Deadlock => (Deadlock, m)
  end.
Definition append (new_leaves : list Leaf) : SM MerkleTree unit := replace_by (fun m => prepare_append m new_leaves).
Definition update (leaf_index : nat) (new_leaf : Leaf) : SM MerkleTree unit := replace_by (fun m => prepare_update m leaf_index new_leaf).
Definition remove_last_n (n : nat) : SM MerkleTree unit := replace_by (fun m => prepare_remove_last_n m n).

(** ** Paths *)

Record MerklePath := mk_path {
  leaf_index : Z;
  siblings : list Digest;
}.

(** [MerklePath::try_from]. *)
Definition path_try_from (i : Z) (siblings : list Digest) : result MerklePath :=
  _ ← ensure (bool_decide (0 < DEPTH)%nat) "Merkle tree depth must be greater than 0";
  _ ← ensure (bool_decide (DEPTH <= 64)%nat) "Merkle tree depth must be less than or equal to 64";
  _ ← ensure (bool_decide (i < 2 ^ Z.of_nat DEPTH)) "Found an out of bounds Merkle leaf index";
  _ ← ensure (bool_decide (length siblings = DEPTH)) "Found an incorrect Merkle path length";
  Ok (mk_path i siblings).

(** The siblings from the node [i] up, at most [n] of them. *)
Fixpoint path_siblings (n : nat) (t : list Digest) (i : nat) : result (list Digest) :=
  match n with
  | O => Ok []
  | S n =>
      match sibling i, parent i with
      | Some s, Some p => h ← index t s; hs ← path_siblings n t p; Ok (h :: hs)
      | Some s, None => h ← index t s; Ok [h]
      | None, _ => path_siblings n t i
      end
  end.

(** [MerkleTree::prove]. *)
Definition prove (m : MerkleTree) (i : nat) (leaf : Leaf) : result MerklePath :=
  _ ← ensure (bool_decide (i < number_of_leaves m)%nat) "The given Merkle leaf index is out of bounds";
  leaf_hash ← hash_leaf leaf;
  start ← leaf_start "Integer overflow when computing the Merkle tree start index" (number_of_leaves m);
  let index_ := (start + i)%nat in
  _ ← ensure (bool_decide (index_ < length (tree m))%nat) "The given Merkle leaf index is out of bounds";
  h ← index (tree m) index_;
  _ ← ensure (bool_decide (h = leaf_hash)) "The given Merkle leaf does not match the one in the Merkle tree";
  path ← path_siblings DEPTH (tree m) index_;
  path_try_from (Z.of_nat i) (resize DEPTH (empty_hash m) path).

(** The loop of [MerklePath::verify] over the levels, from level [level] on. *)
Fixpoint fold_path (level : nat) (i : Z) (siblings : list Digest) (current_hash : Digest) : result Digest :=
  match siblings with
  | [] => Ok current_hash
  | sibling_hash :: siblings =>
      let '(l, r) := if bool_decide (Z.land (Z.shiftr i (Z.of_nat level)) 1 = 0) then (current_hash, sibling_hash)
                     else (sibling_hash, current_hash) in
      h ← hash_children l r;
      fold_path (S level) i siblings h
  end.

(** [MerklePath::verify]. *)
Definition path_verify (p : MerklePath) (root : Digest) (leaf : Leaf) : bool :=
  if decide (2 ^ Z.of_nat DEPTH <= leaf_index p) then false else
  if decide (length (siblings p) <> DEPTH) then false else
  match hash_leaf leaf with
  | Ok h =>
      match fold_path 0 (leaf_index p) (siblings p) h with
      | Ok h => bool_decide (h = root)
      | _ => false
      end
  | _ => false
  end.

(** [MerklePath::write_le] and [MerklePath::read_le]. *)
Definition write_path_le (p : MerklePath) : list Z := write_u64 (leaf_index p) ++ (siblings p ≫= write_digest).
Definition read_path_le : reader MerklePath :=
  read i ⇐ read_u64;
  read siblings ⇐ read_many DEPTH read_digest;
  rlift (path_try_from i siblings).
End Merkle.
End Merkle.
