(* ===== verification/MerkleProps.v ===== *)
(** * Correctness of the Merkle tree

    Appending, updating and removing leaves give the tree that is built from
    scratch from the new leaves, and paths prove exactly the leaves of the tree,
    up to a collision of the path hasher. *)

From Stdlib Require Import ZifyNat.
From S2P Require Import Prelude Bytes MerkleTree.

(** What is assumed of the hashers: hashing two hashes does not fail (BHP and
    Poseidon fail on inputs of a wrong length only), and the encoding of a hash
    can be read back. *)
Class MerkleHashLaws `(MH : MerkleHash) := {
  hash_children_total l r : exists h, hash_children l r = Ok h;
  reads_digest d : reads read_digest (write_digest d) d;
}.

Module MerkleProps.
Import Merkle.

(** Division by two in [lia]. *)
Ltac nlia := Zify.zify; Z.to_euclidean_division_equations; lia.

(** ** Arrays *)

Lemma mapR_all {A B} (f : A -> result B) (g : A -> B) l : (forall x, x ∈ l -> f x = Ok (g x)) -> mapR f l = Ok (g <$> l).
Proof. intros H. rewrite <-(list_fmap_id l) at 1. by apply mapR_fmap. Qed.

Lemma mapR_app {A B} (f : A -> result B) l1 l2 :
  mapR f (l1 ++ l2) = (y1 ← mapR f l1; y2 ← mapR f l2; Ok (y1 ++ y2)).
Proof.
  induction l1 as [|x l1 IH]; cbn; [by destruct (mapR f l2)|]. destruct (f x); cbn; try done. rewrite IH.
  destruct (mapR f l1); cbn; try done. by destruct (mapR f l2).
Qed.

Lemma mapR_length {A B} (f : A -> result B) l ys : mapR f l = Ok ys -> length ys = length l.
Proof. revert ys. induction l as [|x l IH]; intros ys H; cbn in H; simp_ok; cbn; [done|]. f_equal. by apply IH. Qed.

Lemma index_Ok {A} (l : list A) i x : l !! i = Some x -> index l i = Ok x.
Proof. unfold index. by intros ->. Qed.

Lemma slice_Ok {A} (l : list A) a b : (a <= b <= length l)%nat -> slice l a b = Ok (take (b - a) (drop a l)).
Proof. intros. unfold slice. by rewrite decide_True. Qed.

Lemma copy_Ok {A} (l src : list A) a b :
  (a <= b <= length l)%nat -> length src = (b - a)%nat -> copy_from_slice l a b src = Ok (list_inserts a src l).
Proof. intros. unfold copy_from_slice. by rewrite !decide_True. Qed.

(** The stretch that [take_while] takes of a range. *)
Lemma take_while_seq (p : nat -> bool) a k :
  exists m, (m <= k)%nat /\ take_while p (seq a k) = seq a m /\ (forall i, (a <= i < a + m)%nat -> p i = true) /\
    ((m < k)%nat -> p (a + m)%nat = false).
Proof.
  revert a. induction k as [|k IH]; intros a; cbn; [exists 0%nat; split_and!; auto; intros; lia|].
  destruct (p a) eqn:Ha; [|exists 0%nat; split_and!; [lia|done|intros; lia|by rewrite Nat.add_0_r]].
  destruct (IH (S a)) as (m & Hm & -> & Hp & Hn). exists (S m). split_and!; [lia|done| |].
  - intros i Hi. destruct (decide (i = a)) as [->|]; [done|]. apply Hp. lia.
  - intros. replace (a + S m)%nat with (S a + m)%nat by lia. apply Hn. lia.
Qed.

(** ** Indices *)

(** The first index of the level of depth [d]. *)
Definition lo (d : nat) : nat := (2 ^ d - 1)%nat.
#[local] Arguments lo : simpl never.
#[local] Arguments Nat.div : simpl never.
#[local] Arguments Nat.pow : simpl never.

Lemma pow2_pos d : (0 < 2 ^ d)%nat.
Proof. apply Nat.neq_0_lt_0, Nat.pow_nonzero. lia. Qed.
Lemma lo_0 : lo 0 = 0%nat.
Proof. done. Qed.
Lemma lo_S d : lo (S d) = (2 * lo d + 1)%nat.
Proof. unfold lo. pose proof (pow2_pos d). rewrite Nat.pow_succ_r'. lia. Qed.
Lemma lo_pow d : (lo d + 1 = 2 ^ d)%nat.
Proof. unfold lo. pose proof (pow2_pos d). lia. Qed.
Lemma lo_mono d k : (d <= k)%nat -> (lo d <= lo k)%nat.
Proof. intros H. unfold lo. pose proof (Nat.pow_le_mono_r 2 d k). lia. Qed.
Lemma lo_ge d : (d <= lo d)%nat.
Proof. induction d; [lia|]. rewrite lo_S. lia. Qed.
Lemma parent_lo d : parent (lo (S d)) = Some (lo d).
Proof. unfold parent. rewrite lo_S, decide_True by lia. f_equal. nlia. Qed.
Lemma left_child_lo d : left_child (lo d) = lo (S d).
Proof. by rewrite lo_S. Qed.
Lemma parent_pos i : (0 < i)%nat -> parent i = Some ((i - 1) / 2)%nat.
Proof. intros. unfold parent. by rewrite decide_True. Qed.

Definition levels (n : nat) : nat := Nat.log2_up n.

Lemma levels_spec n : (n <= 2 ^ levels n)%nat /\ ((1 < n)%nat -> 2 ^ levels n < 2 * n)%nat.
Proof.
  unfold levels. destruct (decide (1 < n)%nat) as [Hn|Hn].
  - destruct (Nat.log2_up_spec n Hn) as [H1 H2]. split; [done|]. intros _.
    destruct (Nat.log2_up n) as [|k] eqn:E; [cbn in *; lia|]. cbn [Nat.pred] in H1. rewrite Nat.pow_succ_r'. lia.
  - split; [|lia]. rewrite Nat.log2_up_eqn0 by lia. cbn. lia.
Qed.

(** The size of the array is odd, and its logarithm the number of levels. *)
Lemma tree_size_odd n : exists q, minimum_tree_size (lo (levels n)) n = (2 * q + 1)%nat.
Proof.
  unfold minimum_tree_size. destruct (decide (1 < n)%nat) as [Hn|Hn].
  - destruct (levels n) as [|k] eqn:E; [destruct (levels_spec n); rewrite E in *; cbn in *; lia|].
    rewrite lo_S. exists (lo k + (n + n `mod` 2) / 2)%nat. nlia.
  - exists 0%nat. unfold levels. rewrite Nat.log2_up_eqn0, lo_0 by lia. cbn. lia.
Qed.

Lemma tree_size_log2 n : Nat.log2 (minimum_tree_size (lo (levels n)) n) = levels n.
Proof.
  unfold minimum_tree_size. destruct (levels_spec n) as [H1 H2]. destruct (decide (1 < n)%nat) as [Hn|Hn].
  - apply Nat.log2_unique; [lia|]. specialize (H2 Hn). pose proof (lo_pow (levels n)). rewrite Nat.pow_succ_r'.
    assert (n `mod` 2 < 2)%nat by (apply Nat.mod_upper_bound; lia).
    destruct (levels n) as [|k] eqn:E; [cbn in *; lia|]. rewrite Nat.pow_succ_r' in *. split; [lia|].
    assert (n + n `mod` 2 <= 2 * 2 ^ k)%nat by nlia. lia.
  - unfold levels. rewrite Nat.log2_up_eqn0, lo_0 by lia. cbn. destruct n as [|[]]; cbn; done || lia.
Qed.

Lemma tree_size_ge n : (lo (levels n) + n <= minimum_tree_size (lo (levels n)) n)%nat.
Proof. unfold minimum_tree_size. lia. Qed.

Section Props.
Context `{HL : MerkleHashLaws}.

(** ** The hashes as functions *)

Definition node (l r : Digest) : Digest := match hash_children l r with Ok h => h | _ => digest_zero end.
Lemma hash_children_node l r : hash_children l r = Ok (node l r).
Proof. unfold node. by destruct (hash_children_total l r) as [h ->]. Qed.
Definition empty : Digest := node digest_zero digest_zero.
Lemma hash_empty_Ok : hash_empty = Ok empty.
Proof. apply hash_children_node. Qed.

Lemma hash_all_children_Ok cs : hash_all_children cs = Ok ((fun c => node c.1 c.2) <$> cs).
Proof. apply mapR_all. intros c _. apply hash_children_node. Qed.

(** [k] levels of padding. *)
Fixpoint pad (k : nat) (h : Digest) : Digest := match k with O => h | S k => pad k (node h empty) end.
Lemma pad_root_Ok k h : pad_root k empty h = Ok (pad k h).
Proof. revert h. induction k as [|k IH]; intros h; cbn; [done|]. rewrite hash_children_node. apply IH. Qed.

(** ** Levels *)

(** A hash of the array, the empty hash beyond its end. *)
Definition getd (t : list Digest) (i : nat) : Digest := default empty (t !! i).
(** The hash that the node [j] should have. *)
Definition hash_at (t : list Digest) (j : nat) : Digest := node (getd t (left_child j)) (getd t (right_child j)).
(** The array with the nodes [a..b] hashed. *)
Definition fill (a b : nat) (t : list Digest) : list Digest :=
  imap (fun j x => if decide (a <= j < b)%nat then hash_at t j else x) t.

Lemma fill_length a b t : length (fill a b t) = length t.
Proof. apply length_imap. Qed.
Lemma fill_lookup a b t j :
  fill a b t !! j = if decide (a <= j < b)%nat then (fun _ => hash_at t j) <$> t !! j else t !! j.
Proof. unfold fill. rewrite list_lookup_imap. destruct (t !! j); cbn; by case_decide. Qed.
Lemma getd_lookup t j : (j < length t)%nat -> t !! j = Some (getd t j).
Proof. intros [x Hx]%lookup_lt_is_Some_2. unfold getd. by rewrite Hx. Qed.
Lemma getd_ge t j : (length t <= j)%nat -> getd t j = empty.
Proof. intros H. unfold getd. by rewrite lookup_ge_None_2. Qed.
Lemma getd_fill a b t j :
  (b <= length t)%nat -> getd (fill a b t) j = if decide (a <= j < b)%nat then hash_at t j else getd t j.
Proof.
  intros H. unfold getd at 1. rewrite fill_lookup. case_decide; [|done].
  destruct (lookup_lt_is_Some_2 t j) as [x ->]; [lia|done].
Qed.

(** Two arrays are equal when they have the same length and the same hashes. *)
Lemma array_eq t t' : length t = length t' -> (forall j, (j < length t)%nat -> getd t j = getd t' j) -> t = t'.
Proof.
  intros Hl H. apply list_eq. intros j. destruct (decide (j < length t)%nat).
  - rewrite !getd_lookup by lia. f_equal. by apply H.
  - rewrite !lookup_ge_None_2 by lia. done.
Qed.

(** Hashing parts of a level one after the other. *)
Lemma fill_fill a b c t :
  (a <= b <= c)%nat -> (c <= length t)%nat -> (c <= left_child a)%nat -> fill b c (fill a b t) = fill a c t.
Proof.
  intros H Hc Hl. apply array_eq; [by rewrite !fill_length|]. intros j _.
  rewrite getd_fill, getd_fill by (rewrite ?fill_length; lia).
  assert (forall i, (c <= i)%nat -> getd (fill a b t) i = getd t i) as Hi.
  { intros i Hi. rewrite getd_fill by lia. rewrite decide_False by lia. done. }
  rewrite getd_fill by lia. unfold hash_at, left_child, right_child in *.
  repeat case_decide; try lia; try done. rewrite !Hi by lia. done.
Qed.
Lemma fill_nil a t : fill a a t = t.
Proof.
  apply array_eq; [by rewrite fill_length|]. intros j Hj. rewrite fill_length in Hj. unfold getd. rewrite fill_lookup.
  by rewrite decide_False by lia.
Qed.

(** Copying the right hashes is hashing. *)
Lemma copy_fill t a b src :
  (a <= b <= length t)%nat -> length src = (b - a)%nat ->
  (forall j, (a <= j < b)%nat -> src !! (j - a)%nat = Some (hash_at t j)) ->
  copy_from_slice t a b src = Ok (fill a b t).
Proof.
  intros Hb Hl H. rewrite copy_Ok by done. f_equal. apply list_eq. intros j. rewrite fill_lookup.
  case_decide as Hj.
  - rewrite list_lookup_inserts by lia. rewrite H by lia. by rewrite getd_lookup by lia.
  - destruct (decide (j < a)%nat); [by rewrite list_lookup_inserts_lt|]. by rewrite list_lookup_inserts_ge by lia.
Qed.

Lemma hash_nodes_fill a b t : (a <= b <= length t)%nat -> hash_nodes empty a b t = Ok (fill a b t).
Proof.
  intros H. unfold hash_nodes, range. rewrite slice_Ok by done. cbn. rewrite hash_all_children_Ok. cbn.
  apply copy_fill; [done|by rewrite !length_fmap, length_seq|]. intros j Hj.
  rewrite !list_lookup_fmap, lookup_seq_lt by lia. cbn.
  by replace (a + (j - a))%nat with j by lia.
Qed.

(** An odd length: a node has both children or none. *)
Definition odd_length (t : list Digest) : Prop := exists q, length t = (2 * q + 1)%nat.

Lemma new_level_fill d t :
  odd_length t -> (lo (S d) <= length t)%nat -> new_level (lo d) empty t = Ok (fill (lo d) (lo (S d)) t).
Proof.
  intros [q Hq] Hl. unfold new_level, range. rewrite left_child_lo.
  edestruct (take_while_seq (fun i => bool_decide (is_Some (t !! left_child i))) (lo d) (lo (S d) - lo d))
    as (m & Hm & -> & Hp & Hn).
  assert (forall i, (lo d <= i < lo d + m)%nat -> (right_child i < length t)%nat) as Hr.
  { intros i Hi. specialize (Hp i Hi). apply bool_decide_eq_true, lookup_lt_is_Some in Hp.
    unfold left_child, right_child in *. lia. }
  rewrite (mapR_all _ (fun i => (getd t (left_child i), getd t (right_child i)))).
  2: { intros i Hi%elem_of_seq. specialize (Hr i ltac:(lia)). unfold index, left_child, right_child in *.
       by rewrite !getd_lookup by lia. }
  cbn. rewrite hash_all_children_Ok. cbn. rewrite length_fmap, length_seq.
  rewrite copy_fill; [|pose proof (lo_S d); lia|rewrite !length_fmap, length_seq; lia|].
  2: { intros j Hj. rewrite !list_lookup_fmap, lookup_seq_lt by lia. cbn. unfold hash_at.
       by replace (lo d + (j - lo d))%nat with j by lia. }
  cbn. pose proof (lo_S d). case_decide as Hs.
  - rewrite hash_children_node. cbn. f_equal.
    rewrite <-(fill_fill (lo d) (lo d + m) (lo (S d))) by (unfold left_child; lia).
    symmetry. unfold fill at 1. apply imap_ext. intros j x Hj. case_decide as Hji; [|done].
    specialize (Hn ltac:(lia)). apply bool_decide_eq_false in Hn. rewrite <-eq_None_not_Some in Hn.
    apply lookup_ge_None in Hn. unfold hash_at. rewrite !getd_ge; [done|..];
      rewrite fill_length; unfold left_child, right_child in *; lia.
  - f_equal. by replace (lo d + m)%nat with (lo (S d)) by lia.
Qed.

(** All levels above depth [d]. *)
Fixpoint fill_levels (d : nat) (t : list Digest) : list Digest :=
  match d with O => t | S d => fill_levels d (fill (lo d) (lo (S d)) t) end.

Lemma fill_levels_length d t : length (fill_levels d t) = length t.
Proof. revert t. induction d as [|d IH]; intros t; cbn; [done|]. by rewrite IH, fill_length. Qed.

Lemma new_levels_fill d fuel t :
  (d <= fuel)%nat -> odd_length t -> (lo d <= length t)%nat -> new_levels fuel (lo d) empty t = Ok (fill_levels d t).
Proof.
  revert fuel t. induction d as [|d IH]; intros fuel t Hf Ho Hl.
  - destruct fuel; done.
  - destruct fuel as [|fuel]; [lia|]. cbn [new_levels fill_levels]. rewrite parent_lo.
    rewrite new_level_fill by done. cbn. apply IH; [lia| |].
    + destruct Ho as [q ?]. exists q. by rewrite fill_length.
    + rewrite fill_length. pose proof (lo_S d). lia.
Qed.

(** Above depth [d] every node is hashed, below nothing changed. *)
Lemma fill_levels_spec d t :
  (lo d <= length t)%nat ->
  (forall j, (j < lo d)%nat -> getd (fill_levels d t) j = hash_at (fill_levels d t) j) /\
  (forall j, (lo d <= j)%nat -> getd (fill_levels d t) j = getd t j).
Proof.
  revert t. induction d as [|d IH]; intros t Hl; [rewrite lo_0; split; [lia|done]|].
  pose proof (lo_S d) as HS. destruct (IH (fill (lo d) (lo (S d)) t)) as [H1 H2]; [rewrite fill_length; lia|].
  assert (forall j, (lo (S d) <= j)%nat -> getd (fill_levels (S d) t) j = getd t j) as H3.
  { intros j Hj. cbn. rewrite H2 by lia. rewrite getd_fill by lia. by rewrite decide_False by lia. }
  split; [|done]. intros j Hj. destruct (decide (j < lo d)%nat); [by apply H1|].
  unfold hash_at. rewrite (H3 (left_child j)), (H3 (right_child j)) by (unfold left_child, right_child; lia). cbn. rewrite H2 by lia.
  rewrite getd_fill by lia. by rewrite decide_True by lia.
Qed.

(** ** The tree of a list of leaf hashes *)

(** The hash of the node at position [i] of the level [k] levels above the leaves. *)
Fixpoint subtree (lh : list Digest) (k i : nat) : Digest :=
  match k with
  | O => default empty (lh !! i)
  | S k => node (subtree lh k (2 * i)) (subtree lh k (2 * i + 1))
  end.

(** The array holds the leaf hashes and the hashes of the nodes above them. *)
Record is_tree (lh t : list Digest) : Prop := {
  is_tree_length : length t = minimum_tree_size (lo (levels (length lh))) (length lh);
  is_tree_leaf i : (lo (levels (length lh)) <= i)%nat -> getd t i = default empty (lh !! (i - lo (levels (length lh)))%nat);
  is_tree_node j : (j < lo (levels (length lh)))%nat -> getd t j = hash_at t j;
}.

Lemma is_tree_unique lh t t' : is_tree lh t -> is_tree lh t' -> t = t'.
Proof.
  intros [L1 F1 N1] [L2 F2 N2]. apply array_eq; [congruence|]. intros j _.
  set (nn := lo (levels (length lh))) in *. remember (nn - j)%nat as k eqn:Hk.
  revert j Hk. induction (lt_wf k) as [k _ IH]. intros j Hk.
  destruct (decide (nn <= j)%nat); [by rewrite F1, F2|]. rewrite N1, N2 by lia. unfold hash_at.
  f_equal; eapply IH; [|done| |done]; unfold left_child, right_child; lia.
Qed.

Lemma is_tree_subtree lh t k d i :
  is_tree lh t -> (k + d = levels (length lh))%nat -> getd t (lo d + i) = subtree lh k i \/ (2 ^ d <= i)%nat.
Proof.
  intros [_ F N]. revert d i. induction k as [|k IH]; intros d i Hd; cbn [subtree].
  - left. replace d with (levels (length lh)) by lia. rewrite F by lia. do 2 f_equal. lia.
  - destruct (decide (2 ^ d <= i)%nat); [by right|left]. pose proof (lo_S d) as HS. pose proof (lo_pow d).
    assert (lo (S d) <= lo (levels (length lh)))%nat by (apply lo_mono; lia).
    rewrite N by lia. unfold hash_at, left_child, right_child.
    destruct (IH (S d) (2 * i)%nat) as [H1|H1]; [lia| |rewrite Nat.pow_succ_r' in H1; lia].
    destruct (IH (S d) (2 * i + 1)%nat) as [H2|H2]; [lia| |rewrite Nat.pow_succ_r' in H2; lia].
    rewrite <-H1, <-H2. f_equal; f_equal; lia.
Qed.

(** Hashing all levels over the leaf hashes makes the tree. *)
Lemma fill_levels_is_tree lh t :
  length t = minimum_tree_size (lo (levels (length lh))) (length lh) ->
  (forall i, (lo (levels (length lh)) <= i)%nat -> getd t i = default empty (lh !! (i - lo (levels (length lh)))%nat)) ->
  is_tree lh (fill_levels (levels (length lh)) t).
Proof.
  intros Hl Hf. pose proof (tree_size_ge (length lh)). destruct (fill_levels_spec (levels (length lh)) t) as [H1 H2]; [lia|].
  split; [by rewrite fill_levels_length| |done]. intros i Hi. by rewrite H2, Hf.
Qed.

Context (DEPTH : nat).

(** The reference: the root over all leaf hashes, padded to [DEPTH] levels. *)
Definition merkle_root (lh : list Digest) : Digest :=
  pad (DEPTH - levels (length lh)) (subtree lh (levels (length lh)) 0).
Definition leaf_array (lh : list Digest) : list Digest :=
  resize (minimum_tree_size (lo (levels (length lh))) (length lh)) empty (replicate (lo (levels (length lh))) empty ++ lh).
Definition make (lh : list Digest) : MerkleTree :=
  mk_tree (merkle_root lh) (fill_levels (levels (length lh)) (leaf_array lh)) empty (length lh) None.

(** The hashes of leaves at the end of an array that is resized. *)
Lemma resized_leaves (lh pre : list Digest) m i :
  (length pre + length lh <= m)%nat -> (length pre <= i)%nat ->
  getd (resize m empty (pre ++ lh)) i = default empty (lh !! (i - length pre)%nat).
Proof.
  intros Hm Hi. unfold getd. rewrite resize_ge by (rewrite length_app; lia). rewrite <-app_assoc.
  rewrite lookup_app_r by lia. destruct (decide (i - length pre < length lh)%nat).
  - by rewrite lookup_app_l.
  - rewrite lookup_app_r, (lookup_ge_None_2 lh) by lia. cbn.
    destruct (_ !! (i - length pre - length lh)%nat) eqn:E; [|done]. by apply lookup_replicate in E as [-> _].
Qed.

Lemma make_is_tree lh : is_tree lh (tree (make lh)).
Proof.
  apply fill_levels_is_tree.
  - unfold leaf_array. apply length_resize.
  - intros i Hi. unfold leaf_array. rewrite resized_leaves; rewrite length_replicate; [done| |done]. apply tree_size_ge.
Qed.

Lemma is_tree_root lh t : is_tree lh t -> pad (DEPTH - levels (length lh)) (getd t 0) = merkle_root lh.
Proof.
  intros Ht. unfold merkle_root. destruct (is_tree_subtree lh t (levels (length lh)) 0 0 Ht) as [H|H]; [lia| |cbn in H; lia].
  by rewrite <-H.
Qed.

(** The record with a tree array and its padded root is [make]. *)
Lemma make_eq lh t r n :
  is_tree lh t -> r = merkle_root lh -> n = length lh -> mk_tree r t empty n None = make lh.
Proof. intros Ht -> ->. unfold make. f_equal. eapply is_tree_unique; [done|]. apply make_is_tree. Qed.

Lemma is_tree_0 lh t : is_tree lh t -> index t 0 = Ok (getd t 0).
Proof. intros [Hl _ _]. apply index_Ok, getd_lookup. rewrite Hl. unfold minimum_tree_size. lia. Qed.

Lemma is_tree_odd lh t : is_tree lh t -> odd_length t.
Proof. intros [Hl _ _]. unfold odd_length. rewrite Hl. apply tree_size_odd. Qed.

(** ** Construction *)

Lemma next_power n : (Z.of_nat n <= 2 ^ 63) -> checked_next_power_of_two n = Some (2 ^ levels n)%nat.
Proof. intros. unfold checked_next_power_of_two. by rewrite decide_True. Qed.

Lemma leaf_start_Ok msg n : Z.of_nat n <= 2 ^ 63 -> leaf_start msg n = Ok (lo (levels n)).
Proof. intros H. unfold leaf_start. by rewrite next_power. Qed.

Lemma full_size_log2 k : Nat.log2 (lo k + 2 ^ k) = k.
Proof. apply Nat.log2_unique; [lia|]. rewrite Nat.pow_succ_r'. pose proof (lo_pow k). lia. Qed.

(** The checks of the number of leaves. *)
Definition fits (n : nat) : Prop := Z.of_nat n <= 2 ^ 63 /\ (levels n <= DEPTH)%nat.
Lemma tree_shape_fits n : fits n -> tree_shape DEPTH n = Ok (lo (levels n), DEPTH - levels n)%nat.
Proof.
  intros [H1 H2]. unfold tree_shape, tree_depth. rewrite next_power by done. cbn. fold (lo (levels n)).
  rewrite full_size_log2. by rewrite decide_True.
Qed.
Lemma stored_depth n (t : list Digest) : fits n -> length t = minimum_tree_size (lo (levels n)) n -> tree_depth DEPTH (length t) = Ok (levels n).
Proof. intros [_ H] ->. unfold tree_depth. rewrite tree_size_log2. by rewrite decide_True. Qed.
Lemma tree_shape_Ok n s : tree_shape DEPTH n = Ok s -> fits n.
Proof.
  unfold tree_shape, tree_depth, fits, checked_next_power_of_two. destruct (decide (Z.of_nat n <= 2 ^ 63)) as [Hn|]; [|done].
  cbn. fold (levels n) (lo (levels n)). rewrite full_size_log2. by case_decide.
Qed.

(** What every operation comes to: the checks of the shape, the hashes of the
    leaves, and the tree of these hashes. *)
Definition rebuild (n : nat) (hashes : result (list Digest)) : result MerkleTree :=
  _ ← tree_shape DEPTH n; hs ← hashes; Ok (make hs).

Definition valid_depth : Prop := (0 < DEPTH <= 64)%nat.

Lemma new_rebuild ls : valid_depth -> new DEPTH ls = rebuild (length ls) (hash_leaves ls).
Proof.
  intros [Hd1 Hd2]. unfold new, rebuild. rewrite !bool_decide_true by done. cbn [ensure mbind result_bind].
  destruct (tree_shape DEPTH (length ls)) as [[nn pd]| | |] eqn:Hs; try done.
  pose proof (tree_shape_Ok _ _ Hs) as Hf. rewrite tree_shape_fits in Hs by done. apply Ok_inj in Hs. simplify_eq.
  cbn. rewrite hash_empty_Ok. cbn. destruct (hash_leaves ls) as [hs| | |] eqn:Hh; try done. cbn.
  apply mapR_length in Hh as Hlen. rewrite <-Hlen.
  pose proof (tree_size_ge (length hs)).
  rewrite copy_Ok by (rewrite ?length_replicate; lia). cbn.
  set (t := list_inserts _ _ _).
  assert (length t = minimum_tree_size (lo (levels (length hs))) (length hs)) as Hl.
  { unfold t. by rewrite length_inserts, length_replicate. }
  rewrite new_levels_fill; [|apply lo_ge|unfold odd_length; rewrite Hl; apply tree_size_odd|lia]. cbn.
  assert (is_tree hs (fill_levels (levels (length hs)) t)) as Ht.
  { apply fill_levels_is_tree; [done|]. intros i Hi. unfold getd, t.
    destruct (decide (i < lo (levels (length hs)) + length hs)%nat) as [Hx|Hx].
    - rewrite list_lookup_inserts by (rewrite ?length_replicate; lia). done.
    - rewrite list_lookup_inserts_ge, (lookup_ge_None_2 hs) by lia.
      destruct (_ !! i) eqn:E; [|done]. by apply lookup_replicate in E as [-> _]. }
  rewrite (is_tree_0 hs) by done. cbn. rewrite pad_root_Ok. cbn. f_equal. apply make_eq; [done| |done]. by apply is_tree_root.
Qed.

(** ** Recomputation *)

(** The state of [compute_updated_tree] at depth [d]: the nodes before [mid] agree
    with those of the old tree at depth [s], and when the trees have the same
    size, the nodes from [right] on agree with those of the old tree. *)
Record agrees (old : list Digest) (d s mid : nat) (right : option nat) (t : list Digest) : Prop := {
  agrees_mid : (lo d <= mid <= lo d + 2 ^ s)%nat;
  agrees_level : (mid <= lo (S d))%nat;
  agrees_left i : (i < mid - lo d)%nat -> getd t (lo d + i) = getd old (lo s + i);
  agrees_right r : right = Some r ->
    s = d /\ (mid <= r <= lo (S d))%nat /\ forall j, (r <= j < lo (S d))%nat -> getd t j = getd old j;
}.

Lemma hash_at_fill a b t j : (b <= length t)%nat -> (b <= left_child j)%nat -> hash_at (fill a b t) j = hash_at t j.
Proof.
  intros Hb Hj. unfold hash_at. unfold left_child, right_child in *. rewrite !getd_fill by done.
  by rewrite !decide_False by lia.
Qed.

Lemma slice_lookup {A} (l : list A) a b j : (a <= j < b)%nat -> take (b - a) (drop a l) !! (j - a)%nat = l !! j.
Proof. intros H. rewrite lookup_take_lt, lookup_drop by lia. f_equal. lia. Qed.

(** The nodes that are copied have the right hashes. *)
Lemma copied_left old K d s mid right t i :
  (forall j, (j < lo K)%nat -> getd old j = hash_at old j) -> (S s <= K)%nat -> agrees old (S d) (S s) mid right t ->
  (i < (mid - 1) / 2 - lo d)%nat -> getd old (lo s + i) = hash_at t (lo d + i).
Proof.
  intros HN Hs [Hm Hd Hl _] Hi. pose proof (lo_S d) as H1. pose proof (lo_S s) as H2. pose proof (lo_pow s) as H3.
  rewrite Nat.pow_succ_r' in Hm. pose proof (lo_mono (S s) K Hs). rewrite HN by nlia. unfold hash_at, left_child, right_child.
  replace (2 * (lo d + i) + 1)%nat with (lo (S d) + 2 * i)%nat by lia.
  replace (2 * (lo d + i) + 2)%nat with (lo (S d) + (2 * i + 1))%nat by lia.
  rewrite !Hl by nlia. f_equal; f_equal; lia.
Qed.

Lemma copied_right old K d mid r t j :
  (forall j, (j < lo K)%nat -> getd old j = hash_at old j) -> (S d <= K)%nat -> agrees old (S d) (S d) mid (Some r) t ->
  (r / 2 <= j < lo (S d))%nat -> getd old j = hash_at t j.
Proof.
  intros HN Hs [_ _ _ Hr] Hj. destruct (Hr r eq_refl) as (_ & _ & He). pose proof (lo_S d). pose proof (lo_S (S d)).
  pose proof (lo_mono (S d) K Hs). rewrite HN by lia. unfold hash_at, left_child, right_child. rewrite !He by nlia. done.
Qed.

Lemma update_level_fill lho old d s mid right t :
  is_tree lho old -> (s <= levels (length lho))%nat -> (lo (S d) <= length t)%nat -> agrees old (S d) s mid right t ->
  let t' := fill (lo d) (lo (S d)) t in
  let mid' := ((mid - 1) / 2)%nat in
  let right' := (fun r => r / 2)%nat <$> right in
  update_level old empty (lo d) mid' (lo s) (S <$> right) t = Ok (t', lo (pred s), S <$> right') /\
  agrees old d (pred s) mid' right' t'.
Proof.
  intros Ho Hs Hl Ha t' mid' right'. assert (mid' = (mid - 1) / 2)%nat as Hmd by done. clearbody mid'.
  pose proof Ha as [Hm Hd _ Hr]. pose proof (lo_S d) as HS. pose proof (lo_S (S d)) as HSS.
  pose proof (is_tree_length _ _ Ho) as Hol. pose proof (tree_size_ge (length lho)) as Hge.
  pose proof (lo_mono s _ Hs) as Hlo.
  assert (lo d <= mid' <= lo (S d))%nat as Hmid by nlia.
  assert (copy_left : (match parent (lo s) with
    | Some start_precompute =>
        src ← slice old start_precompute (start_precompute + (mid' - lo d))%nat;
        t ← copy_from_slice t (lo d) mid' src; Ok (t, start_precompute)
    | None =>
        _ ← ensure (bool_decide (lo d = mid')) "Failed to process all left precomputed indices in the Merkle tree";
        Ok (t, lo s)
    end) = Ok (fill (lo d) mid' t, lo (pred s))).
  { destruct s as [|s].
    - rewrite lo_0. unfold parent. rewrite decide_False by lia. assert (lo d = mid') as <- by (cbn in Hm; nlia).
      rewrite bool_decide_true by done. cbn. by rewrite fill_nil.
    - rewrite parent_lo. pose proof (lo_S s) as HSs. pose proof (lo_pow s). rewrite Nat.pow_succ_r' in Hm.
      assert (mid' - lo d <= 2 ^ s)%nat by nlia.
      rewrite slice_Ok by lia. cbn. rewrite copy_fill; [done|lia| |].
      + rewrite length_take, length_drop. lia.
      + intros j Hj. rewrite lookup_take_lt, lookup_drop by lia. rewrite getd_lookup by lia. f_equal.
        replace j with (lo d + (j - lo d))%nat at 2 by lia. eapply copied_left; [apply Ho|done|done|].
        rewrite <-Hmd. lia. }
  split.
  - unfold update_level. rewrite left_child_lo. rewrite copy_left. cbn.
    destruct right as [r|]; cbn.
    + destruct (Hr r eq_refl) as (-> & Hr1 & He). unfold parent. rewrite decide_True by lia.
      replace (S r - 1)%nat with r by lia. rewrite hash_nodes_fill by (rewrite fill_length; nlia). cbn.
      rewrite fill_fill by (unfold left_child; nlia). rewrite slice_Ok by nlia. cbn.
      rewrite copy_fill; cbn.
      * rewrite fill_fill by (unfold left_child; nlia). unfold t'. do 4 f_equal. lia.
      * rewrite fill_length. nlia.
      * rewrite length_take, length_drop. nlia.
      * intros j Hj. rewrite slice_lookup, getd_lookup by lia. f_equal.
        rewrite hash_at_fill by (unfold left_child; nlia). eapply copied_right; [apply Ho|done|done|lia].
    + rewrite hash_nodes_fill by (rewrite fill_length; lia). cbn. by rewrite fill_fill by (unfold left_child; lia).
  - split; [| nlia | |].
    + destruct s as [|s]; cbn [pred]; [cbn in Hm; nlia|]. rewrite Nat.pow_succ_r' in Hm. nlia.
    + intros i Hi. unfold t'. rewrite getd_fill by lia. rewrite decide_True by lia. destruct s as [|s]; cbn [pred].
      * cbn in Hm. nlia.
      * symmetry. eapply copied_left; [apply Ho|done|done|by rewrite <-Hmd].
    + intros r Hr'. unfold right' in Hr'. destruct right as [r0|]; [|done]. simplify_eq/=.
      destruct (Hr r0 eq_refl) as (-> & Hr1 & He). split_and!; [done|nlia..|].
      intros j Hj. unfold t'. rewrite getd_fill by lia. rewrite decide_True by nlia. symmetry.
      eapply copied_right; [apply Ho|done|done|lia].
Qed.

Lemma update_levels_fill lho old d fuel s mid right t :
  (d <= fuel)%nat -> is_tree lho old -> (s <= levels (length lho))%nat -> (lo d <= length t)%nat ->
  agrees old d s mid right t ->
  update_levels fuel old empty (lo d) mid (lo s) (S <$> right) t = Ok (fill_levels d t).
Proof.
  intros Hf Ho. revert fuel s mid right t Hf. induction d as [|d IH]; intros fuel s mid right t Hf Hs Hl Ha.
  - by destruct fuel.
  - destruct fuel as [|fuel]; [lia|]. cbn [update_levels fill_levels]. rewrite parent_lo.
    pose proof (agrees_mid _ _ _ _ _ _ Ha). pose proof (lo_S d). rewrite parent_pos by lia.
    destruct (update_level_fill lho old d s mid right t Ho Hs Hl Ha) as [-> Ha']. cbn.
    apply IH; [lia|lia|rewrite fill_length; lia|done].
Qed.

Lemma lo_inj d k : lo d = lo k -> d = k.
Proof. intros H. apply (Nat.pow_inj_r 2); [lia|]. pose proof (lo_pow d). pose proof (lo_pow k). lia. Qed.

(** [compute_updated_tree] on the leaf hashes [lh] hashes all levels, when the
    first [c] leaves and everything from leaf [M] on are as in the old tree. *)
Lemma compute_updated_fill m lho lh c M t :
  let K := levels (length lh) in let Ko := levels (length lho) in
  is_tree lho (tree m) -> (lo K <= length t)%nat ->
  (forall i, (lo K <= i)%nat -> getd t i = default empty (lh !! (i - lo K)%nat)) ->
  (c <= length lh)%nat -> (c <= length lho)%nat -> (forall i, (i < c)%nat -> lh !! i = lho !! i) ->
  (length lh <= M)%nat -> (length lho <= M)%nat -> (K = Ko -> M <= 2 ^ K)%nat ->
  compute_updated_tree m (lo K) (lo K + c) (lo Ko)
    (if decide (lo K = lo Ko) then Some (lo Ko + M + 1)%nat else None) t = Ok (fill_levels K t).
Proof.
  intros K Ko Ho Hl Ht Hc Hco Hcc HM HMo Hsame. unfold compute_updated_tree. rewrite hash_empty_Ok. cbn.
  pose proof (levels_spec (length lh)) as [HK _]. pose proof (levels_spec (length lho)) as [HKo _].
  fold K in HK. fold Ko in HKo. pose proof (lo_S K). pose proof (lo_pow K).
  replace (if decide (lo K = lo Ko) then Some (lo Ko + M + 1)%nat else None)
    with (S <$> (if decide (lo K = lo Ko) then Some (lo K + M)%nat else None))
    by (case_decide; cbn; [f_equal; lia|done]).
  eapply update_levels_fill; [apply lo_ge|done|done|done|]. split; [lia|lia| |].
  - intros i Hi. rewrite Ht, (is_tree_leaf _ _ Ho) by (fold Ko; lia). fold Ko.
    replace (lo K + i - lo K)%nat with i by lia. replace (lo Ko + i - lo Ko)%nat with i by lia. by rewrite Hcc by lia.
  - intros r Hr. case_decide as Hlo; [|done]. apply lo_inj in Hlo as HKK. injection Hr as <-. specialize (Hsame HKK).
    split_and!; [by rewrite HKK|lia|lia|]. intros j Hj. rewrite Ht, (is_tree_leaf _ _ Ho) by (fold Ko; lia). fold Ko.
    rewrite (lookup_ge_None_2 lh), (lookup_ge_None_2 lho) by lia. done.
Qed.

(** ** Appending and removing *)

Definition with_preserved (p : option (list Digest)) (m : MerkleTree) : MerkleTree :=
  mk_tree (root m) (tree m) (empty_hash m) (number_of_leaves m) p.

Lemma leaf_hashes_make p lh : Z.of_nat (length lh) <= 2 ^ 63 -> leaf_hashes (with_preserved p (make lh)) = Ok lh.
Proof.
  intros H. unfold leaf_hashes. rewrite leaf_start_Ok by done. cbn [mbind result_bind with_preserved make tree number_of_leaves].
  pose proof (make_is_tree lh) as [Hl Hf _]. pose proof (tree_size_ge (length lh)). cbn [make tree] in Hl, Hf.
  set (nn := lo (levels (length lh))) in *.
  rewrite slice_Ok by lia. f_equal. apply list_eq. intros i. replace (nn + length lh - nn)%nat with (length lh) by lia.
  destruct (decide (i < length lh)%nat) as [Hi|Hi].
  - rewrite lookup_take_lt, lookup_drop, getd_lookup by lia. rewrite Hf by lia. replace (nn + i - nn)%nat with i by lia.
    destruct (lookup_lt_is_Some_2 lh i Hi) as [x ->]. done.
  - rewrite lookup_take_ge, lookup_ge_None_2 by lia. done.
Qed.

(** The end of [prepare_append] and [prepare_remove_last_n]. *)
Lemma finish_tree lh t n :
  length t = minimum_tree_size (lo (levels (length lh))) (length lh) ->
  (forall i, (lo (levels (length lh)) <= i)%nat -> getd t i = default empty (lh !! (i - lo (levels (length lh)))%nat)) ->
  n = length lh ->
  (root_hash ← index (fill_levels (levels (length lh)) t) 0;
   root_hash ← pad_root (DEPTH - levels (length lh)) empty root_hash;
   Ok (mk_tree root_hash (fill_levels (levels (length lh)) t) empty n None)) = Ok (make lh).
Proof.
  intros Hl Ht Hn. pose proof (fill_levels_is_tree lh t Hl Ht) as Hi. rewrite (is_tree_0 lh) by done. cbn.
  rewrite pad_root_Ok. cbn. f_equal. apply make_eq; [done|by apply is_tree_root|done].
Qed.

Lemma fits_le n k : (n <= k)%nat -> fits k -> fits n.
Proof. intros H [H1 H2]. split; [lia|]. etrans; [|exact H2]. unfold levels. by apply Nat.log2_up_le_mono. Qed.

Lemma append_rebuild p lh ls :
  prepare_append DEPTH (with_preserved p (make lh)) ls =
  rebuild (length lh + length ls) (hs ← hash_leaves ls; Ok (lh ++ hs)).
Proof.
  unfold prepare_append, rebuild. cbn [number_of_leaves with_preserved make empty_hash preserved_tree_allocation].
  destruct (tree_shape DEPTH (length lh + length ls)) as [[nn pd]| | |] eqn:Hs; try done.
  pose proof (tree_shape_Ok _ _ Hs) as Hf. rewrite tree_shape_fits in Hs by done. apply Ok_inj in Hs. simplify_eq.
  pose proof (fits_le (length lh) (length lh + length ls) ltac:(lia) Hf) as [Hn _].
  cbn [mbind result_bind]. rewrite leaf_hashes_make by done. cbn [mbind result_bind].
  destruct (hash_leaves ls) as [hs| | |] eqn:Hh; try done. cbn [mbind result_bind].
  apply mapR_length in Hh as Hlen. rewrite leaf_start_Ok by done. cbn [mbind result_bind].
  assert (length lh + length ls = length (lh ++ hs))%nat as Happ by (rewrite length_app; lia). rewrite Happ.
  set (t := resize _ _ (_ ++ _ ++ _)). pose proof (tree_size_ge (length (lh ++ hs))).
  assert (length t = minimum_tree_size (lo (levels (length (lh ++ hs)))) (length (lh ++ hs))) as Hl by apply length_resize.
  assert (forall i, (lo (levels (length (lh ++ hs))) <= i)%nat ->
    getd t i = default empty ((lh ++ hs) !! (i - lo (levels (length (lh ++ hs))))%nat)) as Ht.
  { intros i Hi. unfold t. rewrite resized_leaves; rewrite length_resize; [done| |done]. apply tree_size_ge. }
  replace (lo (levels (length lh)) + length lh + length ls + 1)%nat
    with (lo (levels (length lh)) + length (lh ++ hs) + 1)%nat by lia.
  rewrite (compute_updated_fill _ lh); [| apply (make_is_tree lh) | lia | done | rewrite length_app; lia | done | | done
    | rewrite length_app; lia | by intros _; apply levels_spec].
  - by apply finish_tree.
  - intros i Hi. by rewrite lookup_app_l.
Qed.

Lemma remove_rebuild p lh n :
  Z.of_nat (length lh) <= 2 ^ 63 -> (0 < n <= length lh)%nat ->
  prepare_remove_last_n DEPTH (with_preserved p (make lh)) n =
  rebuild (length lh - n) (Ok (take (length lh - n) lh)).
Proof.
  intros Hn Hk. unfold prepare_remove_last_n, rebuild. cbn [number_of_leaves with_preserved make empty_hash].
  rewrite !bool_decide_true by lia. cbn [ensure mbind result_bind].
  destruct (tree_shape DEPTH (length lh - n)) as [[nn pd]| | |] eqn:Hs; try done.
  pose proof (tree_shape_Ok _ _ Hs) as Hf. rewrite tree_shape_fits in Hs by done. apply Ok_inj in Hs. simplify_eq.
  cbn [mbind result_bind]. rewrite leaf_hashes_make by done. cbn [mbind result_bind]. rewrite slice_Ok by lia.
  cbn [mbind result_bind]. rewrite leaf_start_Ok by done. cbn [mbind result_bind]. rewrite drop_0, Nat.sub_0_r.
  assert (length lh - n = length (take (length lh - n) lh))%nat as Hlen by (rewrite length_take; lia).
  set (lh' := take (length lh - n) lh) in *. rewrite Hlen.
  set (t := resize _ _ (_ ++ _)). pose proof (tree_size_ge (length lh')).
  assert (length t = minimum_tree_size (lo (levels (length lh'))) (length lh')) as Hl by apply length_resize.
  assert (forall i, (lo (levels (length lh')) <= i)%nat ->
    getd t i = default empty (lh' !! (i - lo (levels (length lh')))%nat)) as Ht.
  { intros i Hi. unfold t. rewrite resized_leaves; rewrite length_replicate; [done| |done]. apply tree_size_ge. }
  rewrite (compute_updated_fill _ lh); [| apply (make_is_tree lh) | lia | done | lia | lia | | lia | done |].
  - by apply finish_tree.
  - intros i Hi. unfold lh'. rewrite lookup_take_lt by lia. done.
  - intros ->. apply levels_spec.
Qed.

(** ** Updates *)

Lemma getd_insert t i h j : (i < length t)%nat -> getd (<[i := h]> t) j = if decide (j = i) then h else getd t j.
Proof.
  intros Hi. unfold getd. case_decide as Hj; [subst; by rewrite list_lookup_insert_eq|]. by rewrite list_lookup_insert_ne.
Qed.

(** Writing the node [i] leaves the hashes of all nodes but its own and that of its parent. *)
Lemma hash_at_insert t i h j :
  (i < length t)%nat -> left_child j <> i -> right_child j <> i -> hash_at (<[i := h]> t) j = hash_at t j.
Proof. intros Hi Hl Hr. unfold hash_at. rewrite !getd_insert by done. by rewrite !decide_False by done. Qed.

Lemma path_update nn t i : forall fuel h t1,
  (i <= fuel)%nat -> odd_length t -> length t1 = length t -> (i < length t)%nat ->
  (forall j, (j < 2 * i + 1)%nat -> getd t1 j = getd t j) ->
  (forall j, (j < nn)%nat -> j <> i -> getd t1 j = hash_at t1 j) -> ((i < nn)%nat -> h = hash_at t1 i) ->
  exists hs t2, path_hashes fuel t i h = Ok hs /\ write_path (h :: hs) (Some i) t1 = Ok t2 /\ length t2 = length t /\
    (forall j, ((i + 1) / 2 <= j)%nat -> j <> i -> getd t2 j = getd t1 j) /\ getd t2 i = h /\
    (forall j, (j < nn)%nat -> getd t2 j = hash_at t2 j) /\ default h (last hs) = getd t2 0.
Proof.
  induction (lt_wf i) as [i _ IH]. intros fuel h t1 Hf Ho Hl Hi Ht Hn Hh. pose proof Ho as [q Hq].
  assert (forall j, getd (<[i := h]> t1) j = if decide (j = i) then h else getd t1 j) as Hins.
  { intros j. apply getd_insert. lia. }
  assert (forall j, (j < nn)%nat -> left_child j <> i -> right_child j <> i ->
    getd (<[i := h]> t1) j = hash_at (<[i := h]> t1) j) as Hn'.
  { intros j Hj H1 H2. rewrite Hins, hash_at_insert by (lia || done). case_decide; [subst; by apply Hh|by apply Hn]. }
  destruct (decide (i = 0%nat)) as [->|Hi0].
  { exists [], (<[0%nat := h]> t1). destruct fuel; cbn; rewrite (index_Ok t1 0 (getd t1 0)) by (apply getd_lookup; lia); cbn.
    all: split_and!; [done|done|by rewrite length_insert| | | |by rewrite Hins].
    all: try (intros j Hj; apply Hn'; unfold left_child, right_child; lia).
    all: try (by rewrite Hins). all: intros j Hj Hj0; rewrite Hins; by rewrite decide_False. }
  destruct fuel as [|fuel]; [lia|]. set (p := ((i - 1) / 2)%nat).
  assert (i = left_child p \/ i = right_child p) as Hp by (unfold left_child, right_child, p; nlia).
  set (s := if is_left_child i then right_child p else left_child p).
  assert (is_left_child i = bool_decide (i = left_child p)) as Hleft.
  { unfold is_left_child. apply bool_decide_ext. unfold left_child, right_child in *. nlia. }
  assert (s < length t /\ s < 2 * i + 1 /\ s <> i)%nat as (Hs1 & Hs2 & Hs3).
  { unfold s. rewrite Hleft. case_bool_decide; unfold left_child, right_child in *; lia. }
  destruct (IH p ltac:(unfold p; nlia) fuel (hash_at (<[i := h]> t1) p) (<[i := h]> t1))
    as (hs & t2 & E1 & E2 & L2 & F2 & P2 & N2 & R2).
  { unfold p. nlia. } { done. } { by rewrite length_insert. } { unfold p. nlia. }
  { intros j Hj. rewrite Hins, decide_False by (unfold p in Hj; nlia). apply Ht. unfold p in Hj. nlia. }
  { intros j Hj Hjp. apply Hn'; [done|..]; unfold left_child, right_child in *; lia. }
  { done. }
  exists (hash_at (<[i := h]> t1) p :: hs), t2. split_and!; [| |done|..].
  - cbn [path_hashes]. rewrite parent_pos by lia. fold p.
    assert ((if is_left_child i then r ← index t (right_child p); Ok (h, r) else l ← index t (left_child p); Ok (l, h))
      = Ok (getd (<[i := h]> t1) (left_child p), getd (<[i := h]> t1) (right_child p))) as ->.
    { rewrite !Hins. unfold s in *. destruct (is_left_child i) eqn:El; symmetry in Hleft.
      - apply bool_decide_eq_true in Hleft. rewrite decide_True, decide_False by done.
        rewrite (index_Ok _ _ _ (getd_lookup t _ Hs1)). cbn. by rewrite Ht.
      - apply bool_decide_eq_false in Hleft. rewrite decide_False, decide_True by (destruct Hp; done).
        rewrite (index_Ok _ _ _ (getd_lookup t _ Hs1)). cbn. by rewrite Ht. }
    cbn [mbind result_bind]. rewrite hash_children_node. cbn [mbind result_bind]. fold (hash_at (<[i := h]> t1) p). by rewrite E1.
  - cbn [write_path unwrap mbind result_bind]. rewrite (index_Ok t1 i (getd t1 i)) by (apply getd_lookup; lia).
    cbn [mbind result_bind]. rewrite parent_pos by lia. exact E2.
  - intros j Hj Hji. rewrite F2 by (unfold p; nlia). by rewrite Hins, decide_False.
  - rewrite F2 by (unfold p; nlia). by rewrite Hins, decide_True.
  - done.
  - rewrite last_cons. rewrite <-R2. by destruct (last hs).
Qed.

Lemma update_rebuild p lh i leaf :
  fits (length lh) -> (i < length lh)%nat ->
  prepare_update DEPTH (with_preserved p (make lh)) i leaf =
  rebuild (length lh) (h ← hash_leaf leaf; Ok (<[i := h]> lh)).
Proof.
  intros Hf Hi. unfold prepare_update, rebuild. rewrite tree_shape_fits by done.
  cbn [number_of_leaves with_preserved make empty_hash tree mbind result_bind].
  rewrite bool_decide_true by done. cbn [ensure mbind result_bind].
  destruct (hash_leaf leaf) as [h| | |] eqn:Hh; try done. cbn [mbind result_bind].
  rewrite leaf_start_Ok by apply Hf. cbn [mbind result_bind]. pose proof (make_is_tree lh) as Ht. cbn [make tree] in Ht.
  set (t := fill_levels _ _) in *. set (nn := lo (levels (length lh))) in *.
  pose proof Ht as [Hl Hleaf Hnode]. fold nn in Hl, Hleaf, Hnode. pose proof (tree_size_ge (length lh)). fold nn in H.
  pose proof (levels_spec (length lh)) as [Hlv _]. pose proof (lo_pow (levels (length lh))). fold nn in H0.
  destruct (path_update nn t (nn + i) (nn + i) h t) as (hs & t2 & E1 & E2 & L2 & F2 & P2 & N2 & R2).
  { done. } { by eapply is_tree_odd. } { done. } { lia. } { done. } { intros j Hj _. by apply Hnode. } { lia. }
  rewrite E1. cbn [mbind result_bind]. rewrite (stored_depth (length lh)) by done.
  cbn [mbind result_bind]. rewrite pad_root_Ok. cbn [mbind result_bind].
  rewrite E2. cbn [mbind result_bind]. f_equal.
  assert (is_tree (<[i := h]> lh) t2) as Ht2.
  { split; rewrite length_insert; fold nn; [by rewrite L2| |done]. intros j Hj.
    destruct (decide (j = nn + i)%nat) as [->|Hji].
    - rewrite P2. replace (nn + i - nn)%nat with i by lia. by rewrite list_lookup_insert_eq.
    - rewrite F2 by (done || nlia). rewrite Hleaf by done. by rewrite list_lookup_insert_ne by lia. }
  apply make_eq; [done| |by rewrite length_insert]. rewrite R2. apply is_tree_root in Ht2. by rewrite length_insert in Ht2.
Qed.

(** ** Many updates *)

Fixpoint write_all (U : list (nat * Digest)) (t : list Digest) : list Digest :=
  match U with [] => t | u :: U => write_all U (<[u.1 := u.2]> t) end.

Lemma write_all_length U t : length (write_all U t) = length t.
Proof. revert t. induction U as [|u U IH]; intros t; cbn; [done|]. by rewrite IH, length_insert. Qed.

Lemma write_all_other U t j : (forall u, u ∈ U -> (u.1 < length t)%nat) -> j ∉ U.*1 -> getd (write_all U t) j = getd t j.
Proof.
  revert t. induction U as [|u U IH]; intros t Hr Hj; cbn; [done|]. cbn in Hj. apply not_elem_of_cons in Hj as [Hj1 Hj2].
  rewrite IH; [|intros; rewrite length_insert; apply Hr; by right|done]. rewrite getd_insert by (apply Hr; left).
  by rewrite decide_False.
Qed.

Lemma write_all_in U t u :
  (forall u, u ∈ U -> (u.1 < length t)%nat) -> NoDup U.*1 -> u ∈ U -> getd (write_all U t) u.1 = u.2.
Proof.
  revert t. induction U as [|v U IH]; intros t Hr Hnd Hu; cbn; [set_solver|].
  cbn in Hnd. apply NoDup_cons in Hnd as [Hv Hnd]. assert (forall u, u ∈ U -> (u.1 < length (<[v.1:=v.2]> t))%nat) as Hr'.
  { intros. rewrite length_insert. apply Hr. by right. }
  apply elem_of_cons in Hu as [->|Hu]; [|by apply IH].
  rewrite write_all_other by done. rewrite getd_insert by (apply Hr; left). by rewrite decide_True.
Qed.

Lemma write_loop U t :
  (forall u, u ∈ U -> (u.1 < length t)%nat) ->
  foldM (fun t u => _ ← index t u.1; Ok (<[u.1 := u.2]> t)) t U = Ok (write_all U t).
Proof.
  revert t. induction U as [|u U IH]; intros t Hr; cbn; [done|].
  rewrite (index_Ok t u.1 (getd t u.1)) by (apply getd_lookup, Hr; left). cbn. apply IH.
  intros. rewrite length_insert. apply Hr. by right.
Qed.

Lemma sorted_lt_NoDup (l : list nat) : StronglySorted lt l -> NoDup l.
Proof.
  induction 1 as [|x l Hs IH Hx]; [constructor|]. apply NoDup_cons. split; [|done]. intros Hin.
  rewrite Forall_forall in Hx. specialize (Hx x Hin). lia.
Qed.

Lemma sibling_cases d i s :
  (lo (S d) <= i)%nat -> sibling i = Some s ->
  (is_left_child i = true /\ s = S i /\ i = left_child ((i - 1) / 2) /\ s = right_child ((i - 1) / 2) \/
   is_left_child i = false /\ i = S s /\ s = left_child ((i - 1) / 2) /\ i = right_child ((i - 1) / 2))%nat.
Proof.
  intros Hi. pose proof (lo_S d). unfold sibling, is_root. rewrite bool_decide_false by lia.
  unfold is_left_child, left_child, right_child. case_bool_decide as Hm; intros; simplify_eq; [left|right]; split_and!; nlia.
Qed.

Lemma sibling_Some d i : (lo (S d) <= i)%nat -> exists s, sibling i = Some s.
Proof. intros Hi. pose proof (lo_S d). unfold sibling, is_root. rewrite bool_decide_false by lia. destruct (is_left_child i); eauto. Qed.

Lemma sibling_sym d i s : (lo (S d) <= i)%nat -> sibling i = Some s -> sibling s = Some i.
Proof.
  intros Hi Hs. pose proof (lo_S d). destruct (sibling_cases d i s Hi Hs) as [(H1 & -> & H2 & H3)|(H1 & -> & H2 & H3)];
    unfold sibling, is_root, is_left_child in *; rewrite ?bool_decide_eq_true, ?bool_decide_eq_false in H1.
  - rewrite (bool_decide_false (S i = 0)%nat), (bool_decide_false (S i `mod` 2 = 1)%nat) by nlia. f_equal. lia.
  - rewrite (bool_decide_false (s = 0)%nat) by nlia. rewrite (bool_decide_true (s `mod` 2 = 1)%nat) by nlia. f_equal. lia.
Qed.

(** The inputs of a level: for every parent of an updated node, the hashes of its
    children in the updated array [t']. *)
Lemma level_inputs_ok d t t' fuel : forall rest,
  (length rest <= fuel)%nat -> odd_length t -> StronglySorted lt rest.*1 ->
  (forall u, u ∈ rest -> (lo (S d) <= u.1 < lo (S (S d)))%nat /\ (u.1 < length t)%nat /\ getd t' u.1 = u.2) ->
  (forall u s, u ∈ rest -> sibling u.1 = Some s -> s ∈ rest.*1 \/ getd t' s = getd t s) ->
  exists inputs, level_inputs fuel t rest = Ok inputs /\ StronglySorted lt inputs.*1 /\
    (forall x, x ∈ inputs -> x.2 = (getd t' (left_child x.1), getd t' (right_child x.1))) /\
    (forall p, p ∈ inputs.*1 <-> exists u, u ∈ rest /\ p = ((u.1 - 1) / 2)%nat).
Proof.
  induction fuel as [|fuel IH]; intros [|[i h] rest] Hf Ho Hs Hr Hc; try (cbn in Hf; lia).
  1,2: exists []; split_and!; [done|constructor|by intros ? ?%elem_of_nil|].
  1,2: intros p; split; [by intros ?%elem_of_nil|by intros (? & ?%elem_of_nil & _)].
  destruct (Hr (i, h) ltac:(left)) as (Hi & Hil & Hih). cbn in Hi, Hil, Hih.
  destruct (sibling_Some d i) as [s Hsib]; [lia|].
  cbn in Hs. apply StronglySorted_inv in Hs as [Hs Hlt]. rewrite Forall_forall in Hlt.
  destruct Ho as [q Hq]. pose proof (sibling_cases d i s ltac:(lia) Hsib) as Hcase.
  assert (Hsl : (s < length t)%nat) by (unfold left_child, right_child in *; nlia).
  assert (step : exists hs rest',
    match rest with
    | (j, h') :: rest' => if decide (j = s) then Ok (h', rest') else (hs ← index t s; Ok (hs, rest))
    | [] => (hs ← index t s; Ok (hs, rest))
    end = Ok (hs, rest') /\ hs = getd t' s /\ (length rest' <= length rest)%nat /\ StronglySorted lt rest'.*1 /\
    (forall u, u ∈ rest' -> u ∈ rest) /\ (s ∉ rest'.*1) /\
    (forall u, u ∈ rest -> u ∈ rest' \/ u.1 = s)).
  { destruct rest as [|[j h'] rest'].
    - exists (getd t s), []. rewrite (index_Ok _ _ _ (getd_lookup t s Hsl)). split_and!; try done; try by intros ? ?%elem_of_nil.
      2: by intros ?%elem_of_nil.
      destruct (Hc (i, h) s ltac:(left) Hsib) as [Hin|Hin]; [|done]. cbn in Hin. apply list_elem_of_singleton in Hin. nlia.
    - cbn in Hs. apply StronglySorted_inv in Hs as [Hs' Hlt']. rewrite Forall_forall in Hlt'.
      destruct (decide (j = s)) as [->|Hjs].
      + exists h', rest'. split_and!; [done| |cbn; lia|done|by right| |].
        * by destruct (Hr (s, h') ltac:(right; left)) as (_ & _ & Hx).
        * intros Hin. specialize (Hlt' _ Hin). lia.
        * intros u [->|Hu]%elem_of_cons; [by right|by left].
      + assert (s ∉ ((j, h') :: rest').*1) as Hns.
        { cbn. intros [->|Hin]%elem_of_cons; [done|]. specialize (Hlt' _ Hin). pose proof (Hlt j ltac:(cbn; left)).
          pose proof (Hlt s ltac:(cbn; by right)). nlia. }
        exists (getd t s), ((j, h') :: rest'). rewrite (index_Ok _ _ _ (getd_lookup t s Hsl)).
        split_and!; [done| |done|cbn; constructor; [done|by apply Forall_forall]|done|done|by left].
        destruct (Hc (i, h) s ltac:(left) Hsib) as [Hin|Hin]; [|done]. cbn in Hin.
        apply elem_of_cons in Hin as [->|Hin]; [nlia|done]. }
  destruct step as (hs & rest' & E & -> & Hlen & Hs' & Hsub & Hns & Hsup).
  destruct (IH rest') as (inputs & Ein & Hsi & Hv & Hp).
  { cbn in Hf. lia. } { by exists q. } { done. } { intros u Hu. apply Hr. right. by apply Hsub. }
  { intros u s' Hu Hs1. destruct (Hc u s' ltac:(right; by apply Hsub) Hs1) as [Hin|]; [|by right]. left.
    pose proof (Hr u ltac:(right; by apply Hsub)) as (Hu1 & _). apply (sibling_sym d) in Hs1; [|lia].
    cbn in Hin. apply elem_of_cons in Hin as [->|Hin].
    - rewrite Hsib in Hs1. simplify_eq. exfalso. apply Hns, list_elem_of_fmap. by exists u.
    - apply list_elem_of_fmap in Hin as (v & -> & Hin). destruct (Hsup v Hin) as [Hv'|Hv'];
        [apply list_elem_of_fmap; by exists v|].
      rewrite Hv' in Hs1. apply (sibling_sym d) in Hsib; [|lia]. rewrite Hsib in Hs1. simplify_eq.
      specialize (Hlt u.1). assert (u.1 ∈ rest.*1) by (apply list_elem_of_fmap; exists u; auto). lia. }
  exists ((((i - 1) / 2)%nat, (getd t' (left_child ((i - 1) / 2)), getd t' (right_child ((i - 1) / 2)))) :: inputs).
  cbn [level_inputs]. rewrite Hsib, E. cbn [mbind result_bind]. rewrite parent_pos by (pose proof (lo_S d); lia).
  split_and!.
  - rewrite <-Hih. destruct Hcase as [(-> & _ & Hl1 & Hl2)|(-> & _ & Hl1 & Hl2)]; cbn [unwrap mbind result_bind];
      rewrite Ein; cbn [mbind result_bind]; rewrite <-Hl1, <-Hl2; done.
  - cbn. constructor; [done|]. apply Forall_forall. intros p (u & Hu & ->)%Hp.
    specialize (Hlt u.1 ltac:(apply list_elem_of_fmap; exists u; auto)).
    assert (u.1 <> s) by (intros Hus; apply Hns, list_elem_of_fmap; exists u; by rewrite Hus).
    unfold left_child, right_child in *. nlia.
  - intros x [->|Hx]%elem_of_cons; [done|by apply Hv].
  - intros p. cbn. rewrite elem_of_cons, Hp. split.
    + intros [->|(u & Hu & ->)]; [exists (i, h); split; [left|done]|exists u; split; [right; by apply Hsub|done]].
    + intros (u & [->|Hu]%elem_of_cons & ->); [by left|]. destruct (Hsup u Hu) as [Hu'|Hu']; [right; eauto|left].
      rewrite Hu'. unfold left_child, right_child in *. nlia.
Qed.

(** The updated nodes of a level, of an array that is right elsewhere. *)
Record level_ok (nn d : nat) (t t1 : list Digest) (U : list (nat * Digest)) : Prop := {
  lev_sorted : StronglySorted lt U.*1;
  lev_range u : u ∈ U -> (lo d <= u.1 < lo (S d))%nat /\ (u.1 < length t)%nat;
  lev_above j : (j < lo (S d))%nat -> getd t1 j = getd t j;
  lev_other j : (j < nn)%nat -> j ∉ U.*1 -> getd t1 j = hash_at t1 j;
  lev_hash u : u ∈ U -> (u.1 < nn)%nat -> u.2 = hash_at t1 u.1;
  lev_length : length t1 = length t;
}.

Lemma write_level nn d t t1 U :
  level_ok nn d t t1 U ->
  (forall u, u ∈ U -> getd (write_all U t1) u.1 = u.2) /\ (forall j, j ∉ U.*1 -> getd (write_all U t1) j = getd t1 j).
Proof.
  intros [Hs Hr _ _ _ Hl]. assert (forall u, u ∈ U -> (u.1 < length t1)%nat) by (intros u Hu; rewrite Hl; by apply Hr).
  split; intros; [apply write_all_in|apply write_all_other]; try done. by apply sorted_lt_NoDup.
Qed.

(** After a level is written only the parents of its nodes are to be updated. *)
Lemma written_level nn d t t1 U j :
  level_ok nn d t t1 U -> (j < nn)%nat -> left_child j ∉ U.*1 -> right_child j ∉ U.*1 ->
  getd (write_all U t1) j = hash_at (write_all U t1) j.
Proof.
  intros HU Hj H1 H2. destruct (write_level _ _ _ _ _ HU) as [Hin Hout]. unfold hash_at.
  rewrite (Hout (left_child j)), (Hout (right_child j)) by done. destruct (decide (j ∈ U.*1)) as [Hju|Hju].
  - apply list_elem_of_fmap in Hju as (u & -> & Hu). rewrite Hin by done. by apply (lev_hash _ _ _ _ _ HU).
  - rewrite Hout by done. by apply (lev_other _ _ _ _ _ HU).
Qed.

Lemma level_step nn d t t1 U :
  odd_length t -> level_ok nn (S d) t t1 U ->
  exists inputs, level_inputs (length U) t U = Ok inputs /\ (U <> [] -> inputs <> []) /\
    level_ok nn d t (write_all U t1) ((fun x => (x.1, node x.2.1 x.2.2)) <$> inputs).
Proof.
  intros Ho HU. destruct (write_level _ _ _ _ _ HU) as [Hin Hout].
  destruct (level_inputs_ok d t (write_all U t1) (length U) U) as (inputs & E & Hs & Hv & Hp); [done|done|apply HU|..].
  { intros u Hu. split_and!; try apply HU; auto. }
  { intros u s Hu Hsib. destruct (decide (s ∈ U.*1)) as [|Hs]; [by left|right]. rewrite Hout by done.
    apply (lev_above _ _ _ _ _ HU). destruct (lev_range _ _ _ _ _ HU u Hu) as [Hr _].
    pose proof (lo_S d). pose proof (lo_S (S d)).
    destruct (sibling_cases d u.1 s ltac:(lia) Hsib) as [(_ & -> & Hc & _)|(_ & Hc & _)]; [|lia].
    unfold left_child in Hc. nlia. }
  exists inputs. split_and!; [done| |].
  { intros Hne ->. destruct U as [|u U]; [done|]. apply (elem_of_nil ((u.1 - 1) / 2)%nat). apply (Hp _). exists u.
    split; [left|done]. }
  assert (((fun x => (x.1, node x.2.1 x.2.2)) <$> inputs).*1 = inputs.*1) as Hfst.
  { rewrite <-list_fmap_compose. done. }
  assert (forall u, u ∈ ((fun x => (x.1, node x.2.1 x.2.2)) <$> inputs) ->
    u.2 = hash_at (write_all U t1) u.1 /\ exists v, v ∈ U /\ u.1 = ((v.1 - 1) / 2)%nat) as Hu.
  { intros u (x & -> & Hx)%list_elem_of_fmap. cbn. rewrite (Hv x Hx). split; [done|]. apply Hp.
    apply list_elem_of_fmap. eauto. }
  pose proof (lo_S d) as HS. pose proof (lo_S (S d)) as HSS. split; rewrite ?Hfst.
  - done.
  - intros u (_ & v & Hv' & ->)%Hu. destruct (lev_range _ _ _ _ _ HU v Hv'). nlia.
  - intros j Hj. rewrite Hout; [apply (lev_above _ _ _ _ _ HU); lia|]. intros (v & -> & Hv')%list_elem_of_fmap.
    destruct (lev_range _ _ _ _ _ HU v Hv'). lia.
  - intros j Hj Hnp. apply (written_level nn (S d) t); [done|done|..]; intros (v & Hc & Hv')%list_elem_of_fmap; apply Hnp, Hp;
      exists v; (split; [done|]); unfold left_child, right_child in Hc; nlia.
  - intros u Hu' _. by apply Hu.
  - rewrite write_all_length. apply HU.
Qed.

Lemma updated_levels_ok nn t d : forall t1 U,
  odd_length t -> U <> [] -> level_ok nn d t t1 U ->
  exists lv t2, updated_levels d t U = Ok lv /\
    foldM (fun t u => _ ← index t u.1; Ok (<[u.1 := u.2]> t)) t1 (concat lv) = Ok t2 /\ length t2 = length t /\
    (forall j, (lo d <= j)%nat -> getd t2 j = getd (write_all U t1) j) /\
    (forall j, (j < nn)%nat -> getd t2 j = hash_at t2 j) /\
    exists l x, last lv = Some l /\ l !! 0%nat = Some x /\ x.2 = getd t2 0.
Proof.
  induction d as [|d IH]; intros t1 U Ho Hne HU; pose proof (write_level _ _ _ _ _ HU) as [Hin Hout].
  - assert (forall u, u ∈ U -> (u.1 < length t1)%nat) as Hr.
    { intros u Hu. rewrite (lev_length _ _ _ _ _ HU). by apply (lev_range _ _ _ _ _ HU). }
    exists [U], (write_all U t1). cbn [updated_levels concat]. rewrite app_nil_r. rewrite write_loop by done.
    split_and!; [done|done|rewrite write_all_length; apply HU|done| |].
    + intros j Hj. apply (written_level nn 0 t); [done|done|..]; intros (v & Hc & Hv')%list_elem_of_fmap;
        destruct (lev_range _ _ _ _ _ HU v Hv') as [Hx _]; rewrite lo_S, lo_0 in Hx; unfold left_child, right_child in Hc; lia.
    + destruct U as [|u U]; [done|]. exists (u :: U), u. split_and!; [done|done|]. rewrite <-(Hin u) by left. f_equal.
      destruct (lev_range _ _ _ _ _ HU u ltac:(left)) as [Hx _]. rewrite lo_S, lo_0 in Hx. lia.
  - destruct (level_step nn d t t1 U Ho HU) as (inputs & E & Hne' & HU').
    assert (((fun x => (x.1, node x.2.1 x.2.2)) <$> inputs) <> []) as Hnn by (specialize (Hne' Hne); by destruct inputs).
    destruct (IH _ _ Ho Hnn HU')
      as (lv & t2 & E1 & E2 & L2 & F2 & N2 & l & x & X1 & X2 & X3).
    exists (U :: lv), t2. cbn [updated_levels concat]. rewrite E. cbn [mbind result_bind].
    rewrite (mapR_all _ (fun x => (x.1, node x.2.1 x.2.2))) by (intros y _; by rewrite hash_children_node).
    cbn [mbind result_bind]. rewrite E1. cbn [mbind result_bind]. rewrite foldM_app, write_loop.
    2: { intros u Hu. rewrite (lev_length _ _ _ _ _ HU). by apply (lev_range _ _ _ _ _ HU). }
    cbn [mbind result_bind]. split_and!; [done|done|done| |done|].
    + intros j Hj. pose proof (lo_S d). rewrite F2 by lia. destruct (write_level _ _ _ _ _ HU') as [_ Hout'].
      apply Hout'. intros (v & -> & Hv')%list_elem_of_fmap. destruct (lev_range _ _ _ _ _ HU' v Hv'). lia.
    + exists l, x. split_and!; [|done|done]. rewrite last_cons, X1. done.
Qed.

(** The leaves after updates, and their hashes. *)
Definition updated_leaves {A} (ups : gmap Z A) (ls : list A) : list A := imap (fun i l => default l (ups !! Z.of_nat i)) ls.
Definition leaf_hash (l : Leaf) : Digest := match hash_leaf l with Ok h => h | _ => digest_zero end.
Definition valid_updates (n : nat) (ups : gmap Z Leaf) : Prop :=
  ups <> ∅ /\ forall k l, ups !! k = Some l -> 0 <= k < Z.of_nat n /\ exists h, hash_leaf l = Ok h.

Lemma leaf_hash_Ok l h : hash_leaf l = Ok h -> leaf_hash l = h.
Proof. unfold leaf_hash. by intros ->. Qed.

Lemma sorted_indices {A} start (l : list (Z * A)) :
  StronglySorted key_le l -> NoDup l.*1 -> (forall u, u ∈ l -> 0 <= u.1) ->
  StronglySorted lt ((fun u => (start + Z.to_nat u.1)%nat) <$> l).
Proof.
  induction 1 as [|x l Hs IH Hx]; intros Hnd Hp; cbn; [constructor|]. cbn in Hnd. apply NoDup_cons in Hnd as [Hn Hnd].
  rewrite Forall_forall in Hx. constructor; [apply IH; [done|]; intros; apply Hp; by right|].
  apply Forall_forall. intros y (u & -> & Hu)%list_elem_of_fmap. specialize (Hx u Hu). unfold key_le in Hx.
  assert (u.1 <> x.1) by (intros Heq; apply Hn; rewrite <-Heq; by apply list_elem_of_fmap_2).
  pose proof (Hp x ltac:(left)). lia.
Qed.

Lemma update_many_make p lh ups :
  fits (length lh) -> valid_updates (length lh) ups ->
  update_many DEPTH (with_preserved p (make lh)) ups =
  Ok (with_preserved p (make (updated_leaves (leaf_hash <$> ups) lh))).
Proof.
  intros Hf [Hne Hups]. unfold update_many. cbn [number_of_leaves with_preserved make empty_hash tree preserved_tree_allocation].
  set (L := btree_iter ups). assert (L <> []) as HLne by (unfold L; by rewrite btree_iter_nil).
  assert (forall u, u ∈ L -> ups !! u.1 = Some u.2) as Hel.
  { intros [k l] Hu. by apply elem_of_btree_iter in Hu. }
  rewrite bool_decide_false by done. cbn [negb ensure mbind result_bind].
  destruct (last L) as [x|] eqn:Hlast; [|by apply last_None in Hlast]. cbn [unwrap mbind result_bind].
  assert (x ∈ L) as HxL by by apply last_Some_elem_of. destruct (Hups _ _ (Hel x HxL)) as [Hx _].
  rewrite bool_decide_true by lia. cbn [ensure mbind result_bind]. rewrite leaf_start_Ok by apply Hf. cbn [mbind result_bind].
  set (nn := lo (levels (length lh))) in *.
  rewrite (mapR_all _ (fun u => ((nn + Z.to_nat u.1)%nat, leaf_hash u.2))).
  2: { intros u Hu. destruct (Hups _ _ (Hel u Hu)) as [_ [h Hh]]. rewrite Hh, (leaf_hash_Ok _ h) by done. done. }
  cbn [mbind result_bind]. set (U := _ <$> L). pose proof (make_is_tree lh) as Ht. cbn [make tree] in Ht.
  set (t := fill_levels _ _) in *. pose proof Ht as [Hl Hleaf Hnode]. fold nn in Hl, Hleaf, Hnode.
  pose proof (tree_size_ge (length lh)) as Hge. fold nn in Hge. pose proof (levels_spec (length lh)) as [Hlv _].
  pose proof (lo_pow (levels (length lh))) as Hpow. fold nn in Hpow. pose proof (lo_S (levels (length lh))) as HSK. fold nn in HSK.
  assert (forall u, u ∈ U -> exists k l, u = ((nn + k)%nat, leaf_hash l) /\ ups !! Z.of_nat k = Some l /\ (k < length lh)%nat) as HU.
  { intros u (v & -> & Hv)%list_elem_of_fmap. destruct (Hups _ _ (Hel v Hv)) as [Hk _].
    exists (Z.to_nat v.1), v.2. split_and!; [done|rewrite Z2Nat.id by lia; by apply Hel|lia]. }
  assert (level_ok nn (levels (length lh)) t t U) as Hlev.
  { split; [| |done|by intros; apply Hnode| |done].
    - unfold U. rewrite <-list_fmap_compose. apply sorted_indices; [apply btree_iter_sorted|apply btree_iter_NoDup_keys|].
      intros u Hu. destruct (Hups _ _ (Hel u Hu)) as [? _]. lia.
    - intros u Hu. destruct (HU u Hu) as (k & l & -> & _ & Hk). cbn. fold nn. lia.
    - intros u Hu. destruct (HU u Hu) as (k & l & -> & _ & Hk). cbn. lia. }
  destruct (updated_levels_ok nn t (levels (length lh)) t U (is_tree_odd _ _ Ht)) as (lv & t2 & E1 & E2 & L2 & F2 & N2 & l & y & X1 & X2 & X3);
    [by destruct L|done|].
  rewrite (stored_depth (length lh)) by done. cbn [mbind result_bind]. rewrite E1. cbn [mbind result_bind]. rewrite X1. cbn [unwrap mbind result_bind]. rewrite (index_Ok _ _ _ X2).
  cbn [mbind result_bind]. rewrite pad_root_Ok. cbn [mbind result_bind]. rewrite E2. cbn [mbind result_bind]. f_equal.
  set (lh' := updated_leaves (leaf_hash <$> ups) lh). assert (length lh' = length lh) as Hlh by apply length_imap.
  assert (is_tree lh' t2) as Ht2.
  { split; rewrite Hlh; fold nn; [by rewrite L2| |done]. intros j Hj. rewrite F2 by (fold nn; lia).
    destruct (write_level _ _ _ _ _ Hlev) as [Hin Hout]. unfold lh', updated_leaves. rewrite list_lookup_imap, lookup_fmap.
    destruct (decide (j ∈ U.*1)) as [Hju|Hju].
    - apply list_elem_of_fmap in Hju as (u & -> & Hu). rewrite Hin by done.
      destruct (HU u Hu) as (k & l' & -> & Hk & Hkl). cbn. replace (nn + k - nn)%nat with k by lia. rewrite Hk. cbn.
      by destruct (lookup_lt_is_Some_2 lh k Hkl) as [? ->].
    - rewrite Hout, Hleaf by done. destruct (ups !! Z.of_nat (j - nn)) as [l'|] eqn:Hk; cbn.
      + exfalso. apply Hju. apply list_elem_of_fmap. exists (j, leaf_hash l'). split; [done|].
        apply list_elem_of_fmap. exists (Z.of_nat (j - nn), l'). cbn. split; [f_equal; lia|]. by apply elem_of_btree_iter.
      + by destruct (lh !! (j - nn)%nat). }
  pose proof (make_eq lh' t2 (pad (DEPTH - levels (length lh)) y.2) (length lh) Ht2) as Hm.
  rewrite X3 in Hm. rewrite <-Hm; [by rewrite X3| |done]. apply is_tree_root in Ht2. by rewrite Hlh in Ht2.
Qed.

(** An update that succeeds was valid. *)
Lemma update_many_valid p lh ups m :
  fits (length lh) -> (forall k, is_Some (ups !! k) -> 0 <= k) ->
  update_many DEPTH (with_preserved p (make lh)) ups = Ok m -> valid_updates (length lh) ups.
Proof.
  intros Hf Hpos H. unfold update_many in H. cbn [number_of_leaves with_preserved make empty_hash tree] in H.
  apply bind_Ok in H as ([] & H1 & H). apply ensure_Ok, negb_true_iff, bool_decide_eq_false in H1.
  apply bind_Ok in H as (x & H2 & H). apply bind_Ok in H as ([] & H3 & H). apply ensure_Ok, bool_decide_eq_true in H3.
  rewrite leaf_start_Ok in H by apply Hf. cbn [mbind result_bind] in H. apply bind_Ok in H as (U & H4 & _).
  split; [by rewrite btree_iter_nil in H1|]. intros k l Hk. pose proof (proj2 (elem_of_btree_iter ups k l) Hk) as Hin. split.
  - split; [apply Hpos; eauto|]. destruct (last (btree_iter ups)) as [y|] eqn:Hlast; [|done]. simplify_eq/=.
    apply last_Some in Hlast as [l' Hl']. pose proof (btree_iter_sorted ups) as Hs. rewrite Hl' in Hs, Hin.
    apply elem_of_app in Hin as [Hin|Hin%list_elem_of_singleton]; [|by subst].
    pose proof (StronglySorted_app_1_elem_of _ l' [x] (k, l) x Hs Hin ltac:(left)) as Hle.
    unfold key_le in Hle. cbn in Hle. lia.
  - clear -H4 Hin. revert U H4. induction (btree_iter ups) as [|u L IH]; intros U H4; [by apply elem_of_nil in Hin|].
    cbn in H4. simp_ok. apply elem_of_cons in Hin as [<-|Hin]; eauto.
Qed.

End Props.
End MerkleProps.
