(* ===== verification/MerkleRefines.v ===== *)
(** * The Merkle tree refines the list of its leaves

    Any sequence of operations leads to the tree that [new] builds from the leaves
    after these operations; a path is accepted exactly for the leaves of the tree, up
    to a collision of the path hasher.  A concrete hasher at the end. *)

From Stdlib Require Import ZifyNat.
From S2P Require Import Prelude Bytes Network MerkleTree MerkleProps.

Module MerkleRefines.
Import Merkle MerkleProps.
Ltac nlia := Zify.zify; Z.to_euclidean_division_equations; lia.
#[local] Arguments Nat.div : simpl never.
#[local] Arguments lo : simpl never.

Section Refines.
Context `{HL : MerkleHashLaws} (DEPTH : nat).

(** A tree that was built is [make] of the hashes of its leaves. *)
Lemma new_make ls t :
  new DEPTH ls = Ok t <->
  valid_depth DEPTH /\ fits DEPTH (length ls) /\ exists lh, hash_leaves ls = Ok lh /\ t = make DEPTH lh.
Proof.
  split.
  - intros H. assert (valid_depth DEPTH) as Hd.
    { unfold new in H. apply bind_Ok in H as ([] & H1%ensure_Ok & H). apply bind_Ok in H as ([] & H2%ensure_Ok & _).
      rewrite bool_decide_eq_true in H1, H2. done. }
    rewrite new_rebuild in H by done. unfold rebuild in H. apply bind_Ok in H as (s & Hs & H).
    apply bind_Ok in H as (lh & Hh & H). apply Ok_inj in H as <-. split_and!; [done|by eapply tree_shape_Ok|by exists lh].
  - intros (Hd & Hf & lh & Hh & ->). rewrite new_rebuild by done. unfold rebuild. rewrite tree_shape_fits, Hh by done. done.
Qed.

Lemma hash_leaves_lookup ls lh i l :
  hash_leaves ls = Ok lh -> ls !! i = Some l -> exists h, lh !! i = Some h /\ hash_leaf l = Ok h.
Proof.
  revert lh i. induction ls as [|x ls IH]; intros lh i H Hi; [done|]. cbn in H. simp_ok.
  destruct i as [|i]; cbn in *; simplify_eq; eauto.
Qed.

(** The hashes of a list that is determined elementwise. *)
Lemma hash_leaves_intro ls lh :
  length ls = length lh -> (forall i l, ls !! i = Some l -> exists h, lh !! i = Some h /\ hash_leaf l = Ok h) ->
  hash_leaves ls = Ok lh.
Proof.
  unfold hash_leaves. revert lh. induction ls as [|x ls IH]; intros [|y lh] Hlen H; try done. cbn.
  destruct (H 0%nat x eq_refl) as (h & ? & ->). simplify_eq/=.
  rewrite (IH lh); [done|lia|]. intros i l Hl. apply (H (S i) l Hl).
Qed.

Lemma hash_leaves_insert ls lh i l :
  hash_leaves ls = Ok lh -> (i < length ls)%nat ->
  hash_leaves (<[i := l]> ls) = (h ← hash_leaf l; Ok (<[i := h]> lh)).
Proof.
  unfold hash_leaves. revert lh i. induction ls as [|x ls IH]; intros lh i H Hi; cbn in Hi; [lia|]. cbn in H.
  apply bind_Ok in H as (y & Hy & H). apply bind_Ok in H as (ys & Hys & H). apply Ok_inj in H as <-.
  destruct i as [|i].
  - cbn. destruct (hash_leaf l); cbn; try done. by rewrite Hys.
  - change (<[S i := l]> (x :: ls)) with (x :: <[i := l]> ls). cbn [mapR]. rewrite Hy. cbn [mbind result_bind].
    rewrite (IH _ i Hys) by lia. by destruct (hash_leaf l).
Qed.

(** ** Sequences of operations *)

Inductive Op : Type :=
| Append (new_leaves : list Leaf)
| Update (leaf_index : nat) (new_leaf : Leaf)
| UpdateMany (updates : gmap Z Leaf)
| RemoveLast (n : nat)
| Preserve (previous : MerkleTree).

(** The methods that change a tree. *)
Definition apply_op (t : MerkleTree) (op : Op) : result MerkleTree :=
  match op with
  | Append ls => prepare_append DEPTH t ls
  | Update i l => prepare_update DEPTH t i l
  | UpdateMany ups => update_many DEPTH t ups
  | RemoveLast n => prepare_remove_last_n DEPTH t n
  | Preserve previous => Ok (preserve_tree_allocation t previous)
  end.

(** What they do to the list of leaves. *)
Definition spec_op (ls : list Leaf) (op : Op) : list Leaf :=
  match op with
  | Append ls' => ls ++ ls'
  | Update i l => <[i := l]> ls
  | UpdateMany ups => updated_leaves ups ls
  | RemoveLast n => take (length ls - n) ls
  | Preserve _ => ls
  end.

(** An index is a [usize]. *)
Definition op_ok (op : Op) : Prop :=
  match op with UpdateMany ups => forall k, is_Some (ups !! k) -> 0 <= k | _ => True end.

(** When an operation is refused. *)
Definition op_valid (ls : list Leaf) (op : Op) : Prop :=
  match op with
  | Append ls' => fits DEPTH (length ls + length ls') /\ forall l, l ∈ ls' -> exists h, hash_leaf l = Ok h
  | Update i l => (i < length ls)%nat /\ exists h, hash_leaf l = Ok h
  | UpdateMany ups => valid_updates (length ls) ups
  | RemoveLast n => (0 < n <= length ls)%nat
  | Preserve _ => True
  end.

Lemma hash_leaves_updated ups ls lh :
  hash_leaves ls = Ok lh -> valid_updates (length ls) ups ->
  hash_leaves (updated_leaves ups ls) = Ok (updated_leaves (leaf_hash <$> ups) lh).
Proof.
  intros Hh [_ Hups]. pose proof (mapR_length _ _ _ Hh) as Hlen. apply hash_leaves_intro.
  { unfold updated_leaves. by rewrite !length_imap. }
  intros i l Hi. unfold updated_leaves in *. rewrite list_lookup_imap in Hi. rewrite list_lookup_imap.
  apply fmap_Some in Hi as (l0 & Hl0 & ->). destruct (hash_leaves_lookup _ _ _ _ Hh Hl0) as (h & Hlh & Hhl).
  rewrite Hlh, lookup_fmap. cbn. destruct (ups !! Z.of_nat i) as [l'|] eqn:Hu; cbn; [|by exists h].
  destruct (Hups _ _ Hu) as [_ [h' Hh']]. exists h'. by rewrite (leaf_hash_Ok _ h').
Qed.

Lemma make_inj p q lh lh' : with_preserved p (make DEPTH lh) = with_preserved q (make DEPTH lh') -> length lh = length lh'.
Proof. by intros [= _ _ ? _]. Qed.

(** One operation on the tree of the leaves [ls] leads to the tree of the new leaves. *)
Lemma step_refines ls lh p op t' :
  valid_depth DEPTH -> fits DEPTH (length ls) -> hash_leaves ls = Ok lh -> op_ok op ->
  apply_op (with_preserved p (make DEPTH lh)) op = Ok t' ->
  fits DEPTH (length (spec_op ls op)) /\
  exists lh' q, hash_leaves (spec_op ls op) = Ok lh' /\ t' = with_preserved q (make DEPTH lh').
Proof.
  intros Hd Hf Hh Hok H. pose proof (mapR_length _ _ _ Hh) as Hlen. rewrite <-Hlen in Hf.
  destruct op as [ls'|i l|ups|n|previous]; cbn [apply_op spec_op] in *.
  - rewrite append_rebuild in H. apply bind_Ok in H as (s & Hs%tree_shape_Ok & H). apply bind_Ok in H as (hs & Hhs & H).
    apply bind_Ok in Hhs as (hs' & Hhs' & Hhs). apply Ok_inj in Hhs as <-. apply Ok_inj in H as <-.
    rewrite length_app, <-Hlen. split; [done|]. exists (lh ++ hs'), None. split; [|done].
    unfold hash_leaves in *. rewrite mapR_app, Hh. cbn. by rewrite Hhs'.
  - destruct (decide (i < length lh)%nat) as [Hi|Hi].
    + rewrite update_rebuild in H by done. unfold rebuild in H. rewrite tree_shape_fits in H by done. cbn [mbind result_bind] in H.
      apply bind_Ok in H as (hs & Hhs & H). apply Ok_inj in H as <-. rewrite length_insert, <-Hlen. split; [done|].
      rewrite (hash_leaves_insert _ lh) by (done || lia). exists hs, None. by split.
    + unfold prepare_update in H. cbn [number_of_leaves with_preserved make] in H. rewrite bool_decide_false in H by done. done.
  - pose proof (update_many_valid DEPTH p lh ups t' Hf Hok H) as Hv. rewrite update_many_make in H by done. apply Ok_inj in H as <-.
    unfold updated_leaves at 1. rewrite length_imap, <-Hlen. split; [done|]. rewrite Hlen in Hv.
    rewrite (hash_leaves_updated ups ls lh) by done. eauto.
  - destruct (decide (0 < n <= length lh)%nat) as [Hn|Hn].
    + rewrite remove_rebuild in H by (done || apply Hf). apply bind_Ok in H as (s & Hs%tree_shape_Ok & H). apply Ok_inj in H as <-.
      rewrite length_take, <-Hlen, Nat.min_l by lia. split; [done|]. eexists _, None. split; [|done].
      rewrite <-(take_drop (length lh - n) ls) in Hh. unfold hash_leaves in Hh. rewrite mapR_app in Hh.
      apply bind_Ok in Hh as (y1 & Hy1 & Hh). apply bind_Ok in Hh as (y2 & Hy2 & Hh). apply Ok_inj in Hh as <-.
      unfold hash_leaves. rewrite Hy1. f_equal. apply mapR_length in Hy1. rewrite length_take in Hy1.
      rewrite take_app_le, take_ge by (rewrite length_app in *; lia). done.
    + unfold prepare_remove_last_n in H. cbn [number_of_leaves with_preserved make] in H.
      apply bind_Ok in H as ([] & H1%ensure_Ok & H). apply bind_Ok in H as ([] & H2%ensure_Ok & _).
      rewrite bool_decide_eq_true in H1, H2. lia.
  - apply Ok_inj in H as <-. rewrite <-Hlen. split; [done|]. eexists _, (Some (tree previous)). by split.
Qed.

(** A valid operation succeeds. *)
Lemma step_total ls lh p op :
  fits DEPTH (length ls) -> hash_leaves ls = Ok lh -> op_valid ls op ->
  exists t', apply_op (with_preserved p (make DEPTH lh)) op = Ok t'.
Proof.
  intros Hf Hh Hv. pose proof (mapR_length _ _ _ Hh) as Hlen. rewrite <-Hlen in Hf.
  destruct op as [ls'|i l|ups|n|previous]; cbn [apply_op op_valid] in *; rewrite <-?Hlen in Hv.
  - destruct Hv as [Hfit Hall]. rewrite append_rebuild. unfold rebuild. rewrite tree_shape_fits by done. cbn.
    unfold hash_leaves. rewrite (mapR_all _ leaf_hash); [by eexists|]. intros l Hl.
    destruct (Hall l Hl) as [h Hx]. by rewrite (leaf_hash_Ok _ h).
  - destruct Hv as [Hi [h Hx]]. rewrite update_rebuild by done. unfold rebuild. rewrite tree_shape_fits, Hx by done. by eexists.
  - rewrite update_many_make by done. by eexists.
  - rewrite remove_rebuild by (done || apply Hf). unfold rebuild. rewrite tree_shape_fits; [by eexists|].
    eapply fits_le; [|exact Hf]. lia.
  - by eexists.
Qed.

Lemma run_refines ops : forall ls lh p t',
  valid_depth DEPTH -> (forall op, op ∈ ops -> op_ok op) -> fits DEPTH (length ls) -> hash_leaves ls = Ok lh ->
  foldM apply_op (with_preserved p (make DEPTH lh)) ops = Ok t' ->
  fits DEPTH (length (foldl spec_op ls ops)) /\
  exists lh' q, hash_leaves (foldl spec_op ls ops) = Ok lh' /\ t' = with_preserved q (make DEPTH lh').
Proof.
  induction ops as [|op ops IH]; intros ls lh p t' Hd Hops Hf Hh H; cbn in *.
  - apply Ok_inj in H as <-. split; [done|]. by exists lh, p.
  - apply bind_Ok in H as (t1 & H1 & H). destruct (step_refines ls lh p op t1 Hd Hf Hh (Hops op ltac:(left)) H1)
      as (Hf' & lh' & q & Hh' & ->). eapply IH; [done|intros; apply Hops; by right|done|done|done].
Qed.

(** C30: after any sequence of appends, updates, removals and reuses of arrays
    the tree is the one that is built from scratch from the list of leaves after
    these operations, and an operation fails only when an index is out of range,
    the tree would be too deep or a leaf cannot be hashed. *)
Theorem merkle_refines (ls : list Leaf) (ops : list Op) (t t' : MerkleTree) :
  (forall op, op ∈ ops -> op_ok op) -> new DEPTH ls = Ok t -> foldM apply_op t ops = Ok t' ->
  new DEPTH (foldl spec_op ls ops) = Ok (with_preserved None t') /\
  forall op, op_valid (foldl spec_op ls ops) op -> exists t'', apply_op t' op = Ok t''.
Proof.
  intros Hops (Hd & Hf & lh & Hh & ->)%new_make H.
  destruct (run_refines ops ls lh None t' Hd Hops Hf Hh H) as (Hf' & lh' & q & Hh' & ->).
  split; [apply new_make; split_and!; [done|done|exists lh'; by split]|]. intros op. by apply step_total.
Qed.

(** ** Paths *)

Lemma path_siblings_root n t : path_siblings n t 0 = Ok [].
Proof. induction n as [|n IH]; [done|]. exact IH. Qed.

Lemma fold_path_app level i a b h :
  fold_path level i (a ++ b) h = (h' ← fold_path level i a h; fold_path (level + length a) i b h').
Proof.
  revert level h. induction a as [|x a IH]; intros level h; cbn; [by rewrite Nat.add_0_r|].
  destruct (if bool_decide _ then _ else _) as [l r]. destruct (hash_children l r); cbn; try done. rewrite IH.
  by rewrite Nat.add_succ_r.
Qed.

Lemma shiftr_land_parity i level j :
  Z.shiftr i (Z.of_nat level) = Z.of_nat j -> Z.land (Z.shiftr i (Z.of_nat level)) 1 = Z.of_nat (j `mod` 2).
Proof. intros ->. change 1 with (Z.ones 1). rewrite Z.land_ones by lia. nlia. Qed.

Lemma shiftr_next i level j :
  Z.shiftr i (Z.of_nat level) = Z.of_nat j -> Z.shiftr i (Z.of_nat (S level)) = Z.of_nat (j / 2).
Proof.
  intros H. replace (Z.of_nat (S level)) with (Z.of_nat level + 1) by lia. rewrite <-Z.shiftr_shiftr by lia. rewrite H.
  rewrite Z.shiftr_div_pow2 by lia. nlia.
Qed.

(** The siblings that are collected from a node lead back to the root. *)
Lemma siblings_fold lh t d : forall n j level i,
  is_tree lh t -> (d <= levels (length lh))%nat -> (d <= n)%nat -> (j < 2 ^ d)%nat -> (lo d + j < length t)%nat ->
  Z.shiftr i (Z.of_nat level) = Z.of_nat j ->
  exists hs, path_siblings n t (lo d + j) = Ok hs /\ length hs = d /\
    fold_path level i hs (getd t (lo d + j)) = Ok (getd t 0).
Proof.
  induction d as [|d IH]; intros n j level i Ht Hd Hn Hj Hl Hi.
  { assert (j = 0%nat) as -> by (cbn in Hj; lia). exists []. rewrite lo_0. by rewrite path_siblings_root. }
  destruct n as [|n]; [lia|]. pose proof (lo_S d) as HS. destruct (is_tree_odd _ _ Ht) as [q Hq].
  destruct (sibling_Some d (lo (S d) + j)) as [s Hs]; [lia|].
  pose proof (sibling_cases d (lo (S d) + j) s ltac:(lia) Hs) as Hc. set (p := ((lo (S d) + j - 1) / 2)%nat) in Hc.
  assert (p = lo d + j / 2)%nat as Hp by (unfold p; nlia). rewrite Nat.pow_succ_r' in Hj.
  assert (Hsl : (s < length t)%nat) by (unfold left_child, right_child in *; lia).
  destruct (IH n (j / 2)%nat (S level) i Ht) as (hs & E & Hlen & Hf); [lia|lia|nlia|unfold left_child, right_child in *; lia|by apply shiftr_next|].
  exists (getd t s :: hs). cbn [path_siblings]. rewrite Hs, parent_pos by lia. fold p. rewrite Hp.
  rewrite (index_Ok _ _ _ (getd_lookup t s Hsl)), E. cbn [mbind result_bind]. split_and!; [done|cbn; lia|].
  cbn [fold_path]. rewrite (shiftr_land_parity i level j Hi).
  assert (getd t p = node (getd t (left_child p)) (getd t (right_child p))) as Hnode.
  { apply (is_tree_node lh t Ht). pose proof (lo_mono (S d) _ Hd). pose proof (lo_pow d). nlia. }
  destruct Hc as [(_ & _ & H1 & H2)|(_ & _ & H1 & H2)].
  - rewrite bool_decide_true by (unfold left_child in H1; nlia). rewrite H1, H2, hash_children_node. cbn [mbind result_bind].
    rewrite <-Hnode, Hp. done.
  - rewrite bool_decide_false by (unfold right_child in H2; nlia). rewrite H2, H1, hash_children_node. cbn [mbind result_bind].
    rewrite <-Hnode, Hp. done.
Qed.

(** The padded levels of a path. *)
Lemma padding_fold k level i h :
  Z.shiftr i (Z.of_nat level) = 0 -> fold_path level i (replicate k empty) h = Ok (pad k h).
Proof.
  revert level h. induction k as [|k IH]; intros level h Hi; [done|]. cbn [replicate fold_path pad].
  rewrite Hi, (bool_decide_true (Z.land 0 1 = 0)), hash_children_node by done. cbn [mbind result_bind]. apply IH.
  rewrite (shiftr_next i level 0); done.
Qed.

Lemma prove_make lh i leaf :
  valid_depth DEPTH -> fits DEPTH (length lh) -> (i < length lh)%nat -> hash_leaf leaf = Ok (default empty (lh !! i)) ->
  exists hs, prove DEPTH (make DEPTH lh) i leaf = Ok (mk_path (Z.of_nat i) hs) /\ length hs = DEPTH /\
    fold_path 0 (Z.of_nat i) hs (default empty (lh !! i)) = Ok (root (make DEPTH lh)).
Proof.
  intros Hd Hf Hi Hh. pose proof (make_is_tree DEPTH lh) as Ht. unfold prove.
  cbn [make number_of_leaves tree empty_hash root] in *. set (t := fill_levels _ _) in *.
  set (K := levels (length lh)) in *. pose proof Ht as [Hl Hleaf _]. fold K in Hl, Hleaf.
  pose proof (tree_size_ge (length lh)) as Hge. fold K in Hge. pose proof (levels_spec (length lh)) as [Hlv _]. fold K in Hlv.
  destruct (siblings_fold lh t K DEPTH i 0 (Z.of_nat i) Ht) as (hs & E & Hlen & Hfold);
    [done|apply Hf|lia|lia|by rewrite Z.shiftr_0_r|].
  assert (getd t (lo K + i) = default empty (lh !! i)) as Hg.
  { rewrite Hleaf by lia. do 2 f_equal. lia. }
  assert (Z.of_nat (2 ^ K) = 2 ^ Z.of_nat K) as HzK by (rewrite Nat2Z.inj_pow; done).
  assert (2 ^ Z.of_nat K <= 2 ^ Z.of_nat DEPTH) as HKD by (apply Z.pow_le_mono_r; [lia|]; destruct Hf; lia).
  exists (hs ++ replicate (DEPTH - K) empty). assert (length (hs ++ replicate (DEPTH - K) empty) = DEPTH) as HlenD.
  { rewrite length_app, length_replicate. destruct Hf as [_ Hf]. fold K in Hf. lia. }
  split_and!; [|done|].
  - rewrite bool_decide_true, Hh by done. cbn [ensure mbind result_bind]. rewrite leaf_start_Ok by apply Hf.
    cbn [ensure mbind result_bind]. fold K. rewrite bool_decide_true by lia. cbn [ensure mbind result_bind].
    rewrite (index_Ok _ _ _ (getd_lookup t (lo K + i) ltac:(lia))). cbn [mbind result_bind]. rewrite Hg.
    rewrite bool_decide_true by done. cbn [ensure mbind result_bind]. rewrite E. cbn [mbind result_bind].
    rewrite resize_ge by (destruct Hf as [_ Hf]; fold K in Hf; lia). rewrite Hlen. unfold path_try_from.
    destruct Hd. rewrite !bool_decide_true by (done || lia). done.
  - rewrite fold_path_app, <-Hg, Hfold. cbn [mbind result_bind]. rewrite padding_fold.
    + f_equal. apply (is_tree_root DEPTH lh t Ht).
    + rewrite Hlen, Nat.add_0_l. rewrite Z.shiftr_div_pow2 by lia. apply Z.div_small. lia.
Qed.

(** The path of a leaf of the tree verifies against the root. *)
Theorem path_complete (ls : list Leaf) (t : MerkleTree) (i : nat) (leaf : Leaf) :
  new DEPTH ls = Ok t -> ls !! i = Some leaf ->
  exists p, prove DEPTH t i leaf = Ok p /\ leaf_index p = Z.of_nat i /\ path_verify DEPTH p (root t) leaf = true.
Proof.
  intros (Hd & Hf & lh & Hh & ->)%new_make Hi. destruct (hash_leaves_lookup _ _ _ _ Hh Hi) as (h & Hlh & Hleaf).
  pose proof (mapR_length _ _ _ Hh) as Hlen. rewrite <-Hlen in Hf. apply lookup_lt_Some in Hi.
  destruct (prove_make lh i leaf Hd Hf) as (hs & -> & Hhs & Hfold); [lia|by rewrite Hlh|].
  eexists. split_and!; [done|done|]. unfold path_verify. cbn [leaf_index siblings]. destruct Hf as [_ Hf].
  pose proof (levels_spec (length lh)) as [Hlv _]. pose proof (Nat.pow_le_mono_r 2 _ _ ltac:(lia) Hf) as Hpow.
  rewrite decide_False by (rewrite <-(Nat2Z.inj_pow 2); lia). rewrite decide_False by (by intros []). rewrite Hleaf.
  rewrite Hlh in Hfold. cbn in Hfold. rewrite Hfold. by apply bool_decide_eq_true.
Qed.

(** The pairs that [fold_path] hashes on its way up. *)
Fixpoint hashed_pairs (level : nat) (i : Z) (siblings : list Digest) (h : Digest) : list (Digest * Digest) :=
  match siblings with
  | [] => []
  | x :: siblings =>
      let pair := if bool_decide (Z.land (Z.shiftr i (Z.of_nat level)) 1 = 0) then (h, x) else (x, h) in
      pair :: hashed_pairs (S level) i siblings (node pair.1 pair.2)
  end.

(** Two sequences of pairs differ at some level, where both pairs have the same
    hash. *)
Definition collision (l1 l2 : list (Digest * Digest)) : Prop :=
  exists k p1 p2, l1 !! k = Some p1 /\ l2 !! k = Some p2 /\ p1 <> p2 /\
    hash_children p1.1 p1.2 = hash_children p2.1 p2.2.

(** Two paths with the same index and the same end are equal, or they collide. *)
Lemma fold_path_inj level i s1 s2 h1 h2 r :
  length s1 = length s2 -> fold_path level i s1 h1 = Ok r -> fold_path level i s2 h2 = Ok r ->
  (h1 = h2 /\ s1 = s2) \/ collision (hashed_pairs level i s1 h1) (hashed_pairs level i s2 h2).
Proof.
  revert level s2 h1 h2. induction s1 as [|x1 s1 IH]; intros level [|x2 s2] h1 h2 Hl H1 H2; try done; cbn [fold_path] in H1, H2.
  { left. split; [congruence|done]. }
  cbn [hashed_pairs].
  set (l1 := if bool_decide _ then (h1, x1) else _) in *. set (l2 := if bool_decide _ then (h2, x2) else _) in *.
  assert ((l1 = l2 -> h1 = h2 /\ x1 = x2)) as Hinj by (unfold l1, l2; case_bool_decide; intros [=]; done).
  clearbody l1 l2. destruct l1 as [a b], l2 as [c d]. rewrite hash_children_node in H1, H2. cbn in H1, H2 |- *.
  destruct (IH (S level) s2 _ _ ltac:(cbn in Hl; lia) H1 H2) as [[Hn ->]|(k & p1 & p2 & Hk)]; [|right; by exists (S k), p1, p2].
  destruct (decide ((a, b) = (c, d))) as [Heq|Hne].
  - destruct (Hinj Heq) as [-> ->]. by left.
  - right. exists 0%nat, (a, b), (c, d). split_and!; try done. cbn. by rewrite !hash_children_node, Hn.
Qed.

(** C31: a path that verifies against the root at the index of a leaf is the path of
    that leaf, and what was proved has the same hash, or the two paths collide: at
    some level they hash two different pairs to the same value. *)
Theorem path_sound (ls : list Leaf) (t : MerkleTree) (p : MerklePath) (leaf leaf' : Leaf) :
  new DEPTH ls = Ok t -> path_verify DEPTH p (root t) leaf = true -> 0 <= leaf_index p ->
  ls !! Z.to_nat (leaf_index p) = Some leaf' ->
  exists p' h h', prove DEPTH t (Z.to_nat (leaf_index p)) leaf' = Ok p' /\
    hash_leaf leaf = Ok h /\ hash_leaf leaf' = Ok h' /\
    (h = h' /\ p = p' \/
     collision (hashed_pairs 0 (leaf_index p) (siblings p) h) (hashed_pairs 0 (leaf_index p) (siblings p') h')).
Proof.
  intros (Hd & Hf & lh & Hh & ->)%new_make Hv Hpos Hi. destruct (hash_leaves_lookup _ _ _ _ Hh Hi) as (h & Hlh & Hleaf).
  pose proof (mapR_length _ _ _ Hh) as Hlen. rewrite <-Hlen in Hf. apply lookup_lt_Some in Hi.
  destruct (prove_make lh (Z.to_nat (leaf_index p)) leaf' Hd Hf) as (hs & Hp & Hhs & Hfold); [lia|by rewrite Hlh|].
  rewrite Hlh in Hfold. cbn in Hfold. rewrite Z2Nat.id in Hp, Hfold by done. unfold path_verify in Hv.
  case_decide; [done|]. case_decide as Hs; [done|]. destruct (hash_leaf leaf) as [h'| | |] eqn:E; try done.
  destruct (fold_path 0 (leaf_index p) (siblings p) h') as [r| | |] eqn:Er; try done. apply bool_decide_eq_true in Hv as ->.
  exists (mk_path (leaf_index p) hs), h', h. split_and!; [done|done|done|].
  destruct (fold_path_inj 0 (leaf_index p) (siblings p) hs h' h _ ltac:(congruence) Er Hfold) as [[-> Hsib]|Hc]; [left|by right].
  split; [done|]. rewrite <-Hsib. by destruct p.
Qed.

(** The encoding of a path is read back. *)
Lemma path_round_trip (p : MerklePath) :
  valid_depth DEPTH -> 0 <= leaf_index p < 2 ^ Z.of_nat DEPTH -> length (siblings p) = DEPTH ->
  reads (read_path_le DEPTH) (write_path_le p) p.
Proof.
  intros [Hd1 Hd2] Hi Hs. assert (2 ^ Z.of_nat DEPTH <= 2 ^ 64) by (apply Z.pow_le_mono_r; lia).
  unfold write_path_le, read_path_le. eapply reads_bind; [apply reads_u64; mlia|].
  eapply reads_bind_last.
  - rewrite <-Hs at 1. apply (reads_many _ write_digest). intros d _. apply reads_digest.
  - apply reads_lift. unfold path_try_from. rewrite !bool_decide_true by (done || lia). by destruct p.
Qed.
End Refines.
End MerkleRefines.

(** ** A concrete hasher *)

(** One-byte hashes; a leaf is a number below 100. *)
Definition byte_of (n : N) : ascii := ascii_of_N (n mod 256).
#[export] Instance ByteHash : MerkleHash := {|
  Digest := ascii;
  Leaf := Z;
  digest_zero := "000"%char;
  hash_leaf n := if decide (0 <= n < 100) then Ok (byte_of (Z.to_N n)) else Err "Invalid leaf";
  hash_children l r := Ok (byte_of (3 * N_of_ascii l + 5 * N_of_ascii r + 7));
  write_digest := ascii_write;
  read_digest := ascii_read;
|}.
#[export] Instance ByteHashLaws : MerkleHashLaws ByteHash.
Proof. split; [by eexists|]. apply reads_ascii. Qed.

Definition built (ls : list (Leaf (MerkleHash := ByteHash))) : result (Merkle.MerkleTree (MH := ByteHash)) := Merkle.new 4 ls.
Definition tree5 : Merkle.MerkleTree (MH := ByteHash) := Eval vm_compute in unwrap_or (Merkle.mk_tree "0"%char [] "0"%char 0 None) (built [1; 2; 3; 4; 5]).
Lemma built5 : built [1; 2; 3; 4; 5] = Ok tree5.
Proof. vm_refl. Qed.

(** Some operations, and the leaves after them. *)
Definition ops5 : list (MerkleRefines.Op (MH := ByteHash)) :=
  [MerkleRefines.Append [6; 7]; MerkleRefines.Preserve tree5; MerkleRefines.UpdateMany {[ 1 := 20; 2 := 30; 6 := 70 ]};
   MerkleRefines.RemoveLast 4; MerkleRefines.Update 0 10].
Definition tree5' : Merkle.MerkleTree (MH := ByteHash) := Eval vm_compute in unwrap_or tree5 (foldM (MerkleRefines.apply_op 4) tree5 ops5).
Lemma ops5_run : foldM (MerkleRefines.apply_op 4) tree5 ops5 = Ok tree5'.
Proof. vm_refl. Qed.
Lemma ops5_ok op : op ∈ ops5 -> MerkleRefines.op_ok op.
Proof.
  unfold ops5. rewrite !elem_of_cons, elem_of_nil. intros H. destruct_or! H; subst; try done.
  intros k [v Hv]. rewrite !lookup_insert_Some, lookup_singleton_Some in Hv. lia.
Qed.

Lemma merkle_refines_witness : built [10; 20; 30] = Ok (MerkleProps.with_preserved None tree5').
Proof.
  pose proof (MerkleRefines.merkle_refines (MH := ByteHash) 4 [1; 2; 3; 4; 5] ops5 tree5 tree5' ops5_ok built5 ops5_run) as [H _].
  exact H.
Defined.

Lemma path_complete_witness :
  exists p, Merkle.prove (MH := ByteHash) 4 tree5 4 5 = Ok p /\ Merkle.leaf_index p = 4 /\ Merkle.path_verify (MH := ByteHash) 4 p (Merkle.root tree5) 5 = true.
Proof. apply (MerkleRefines.path_complete (MH := ByteHash) 4 [1; 2; 3; 4; 5] tree5 4 5 built5). reflexivity. Defined.

Definition path5 : Merkle.MerklePath (MH := ByteHash) := Eval vm_compute in unwrap_or (Merkle.mk_path 0 []) (Merkle.prove (MH := ByteHash) 4 tree5 4 5).
Lemma path5_verified : Merkle.path_verify (MH := ByteHash) 4 path5 (Merkle.root tree5) 5 = true.
Proof. vm_refl. Qed.
Lemma path_sound_witness :
  exists p' h h', Merkle.prove (MH := ByteHash) 4 tree5 4 5 = Ok p' /\
    hash_leaf (MerkleHash := ByteHash) 5 = Ok h /\ hash_leaf (MerkleHash := ByteHash) 5 = Ok h' /\
    (h = h' /\ path5 = p' \/
     MerkleRefines.collision (MH := ByteHash) (MerkleRefines.hashed_pairs 0 4 (Merkle.siblings path5) h)
       (MerkleRefines.hashed_pairs 0 4 (Merkle.siblings p') h')).
Proof. apply (MerkleRefines.path_sound (MH := ByteHash) 4 [1; 2; 3; 4; 5] tree5 path5 5 5 built5 path5_verified); [done|reflexivity]. Defined.
