(* ===== verification/Targets.v ===== *)
(** * Targets and rewards of blocks

    snarkVM/ledger/block/src/helpers/target.rs: how the coinbase target follows the
    time between coinbases, and what a block pays to stakers and provers; with the
    consensus versions of snarkVM/console/network.  Integers have the widths of the
    source: [u64] and [u128] values wrap where the source uses plain operators. *)

From S2P Require Import Prelude.

Module Targets.

(** ** Integers *)

Definition u128_max : Z := 2 ^ 128 - 1.
Definition u128_wrap (z : Z) : Z := z mod 2 ^ 128.
Definition u128_saturating_mul (a b : Z) : Z := Z.min u128_max (a * b).
Definition u128_saturating_add (a b : Z) : Z := Z.min u128_max (a + b).
Definition i128_saturating_mul (a b : Z) : Z := Z.max (- 2 ^ 127) (Z.min (2 ^ 127 - 1) (a * b)).
Definition i64_saturating_add (a b : Z) : Z := Z.max i64_min (Z.min i64_max (a + b)).
(** Division, which panics on a zero divisor; [Z.quot] rounds towards zero. *)
Definition div (a b : Z) : result Z := if decide (b = 0) then Panic "attempt to divide by zero" else Ok (Z.quot a b).
(** [u32::try_from]. *)
Definition u32_try_from (z : Z) : result Z :=
  if decide (0 <= z <= u32_max) then Ok z else Err "out of range integral type conversion attempted".
(** [u128::checked_shr] and [u128::checked_shl]: only the number of bits is checked. *)
Definition u128_checked_shr (a n : Z) : option Z := if decide (n < 128) then Some (Z.shiftr a n) else None.
Definition u128_checked_shl (a n : Z) : option Z := if decide (n < 128) then Some (u128_wrap (Z.shiftl a n)) else None.
Definition u64_checked_shr (a n : Z) : option Z := if decide (n < 64) then Some (Z.shiftr a n) else None.

(** ** Consensus versions *)

(** [slice::binary_search_by] on a sorted array: the index of the key, or the index
    where it would be inserted. *)
Fixpoint binary_search (key : Z) (l : list Z) : nat + nat :=
  match l with
  | [] => inr 0%nat
  | x :: l => if decide (x = key) then inl 0%nat else if decide (key < x) then inr 0%nat
              else match binary_search key l with inl i => inl (S i) | inr i => inr (S i) end
  end.

(** [consensus_config_value_by_version!]: the value of the last version that is not
    later than the given one. *)
Definition value_by_version (table : list (Z * Z)) (version : Z) : option Z :=
  match binary_search version table.*1 with
  | inl i => snd <$> table !! i
  | inr O => None
  | inr (S i) => snd <$> table !! i
  end.

(** The constants of the network that the rewards depend on. *)
Record Params := mk_params {
  CONSENSUS_VERSION_HEIGHTS : list (Z * Z);
  GENESIS_TIMESTAMP : Z;
  GENESIS_COINBASE_TARGET : Z;
  GENESIS_PROOF_TARGET : Z;
  MAX_SOLUTIONS_AS_POWER_OF_TWO : Z;
  STARTING_SUPPLY : Z;
  MAX_SUPPLY : Z;
  MAX_SUPPLY_LIMIT_HEIGHT : Z;
  REWARD_ANCHOR_TIME : Z;
  ANCHOR_TIMES : list (Z * Z);
  BLOCK_TIME : Z;
}.
Definition ANCHOR_HEIGHT (N : Params) : Z := Z.quot (REWARD_ANCHOR_TIME N) (BLOCK_TIME N).
Definition NUM_BLOCKS_PER_EPOCH (N : Params) : Z := Z.quot 3600 (BLOCK_TIME N).

(** [MainnetV0]. *)
Definition MainnetV0 : Params := {|
  CONSENSUS_VERSION_HEIGHTS :=
    [(1, 0); (2, 2800000); (3, 4900000); (4, 6135000); (5, 7060000); (6, 7560000); (7, 7570000); (8, 9430000);
     (9, 10272000); (10, 11205000); (11, 12870000); (12, 13815000); (13, 16850000); (14, 17700000); (15, u32_max)];
  GENESIS_TIMESTAMP := 1725462000;
  GENESIS_COINBASE_TARGET := 2 ^ 29 - 1;
  GENESIS_PROOF_TARGET := 2 ^ 27;
  MAX_SOLUTIONS_AS_POWER_OF_TWO := 2;
  STARTING_SUPPLY := 1500000000000000;
  MAX_SUPPLY := 5000000000000000;
  MAX_SUPPLY_LIMIT_HEIGHT := 263527685;
  REWARD_ANCHOR_TIME := 25;
  ANCHOR_TIMES := [(1, 25); (15, 35)];
  BLOCK_TIME := 10;
|}.

(** [N::CONSENSUS_VERSION]. *)
Definition CONSENSUS_VERSION (N : Params) (seek_height : Z) : result Z :=
  let table := CONSENSUS_VERSION_HEIGHTS N in
  match binary_search seek_height table.*2 with
  | inl i => unwrap "index out of bounds" (fst <$> table !! i)
  | inr O => Err "Expected consensus version 1 to exist at height 0."
  | inr (S i) => unwrap "index out of bounds" (fst <$> table !! i)
  end.

Section Targets.
Context (N : Params).

(** ** Block and puzzle rewards *)

Definition MAX_COINBASE_REWARD : Z := 190258739.
Definition V2_MAX_BLOCK_INTERVAL : Z := 60.
Definition V2_MIN_BLOCK_INTERVAL : Z := 1.
Definition SECONDS_IN_A_YEAR : Z := 60 * 60 * 24 * 365.

Definition block_height_at_year (block_time num_years : Z) : result Z :=
  block_height_at_year_1 ← div SECONDS_IN_A_YEAR block_time;
  Ok (u32_wrap (block_height_at_year_1 * num_years)).

Definition timestamp_at_year (genesis_timestamp num_years : Z) : Z :=
  let seconds_elapsed := Z.min u32_max (SECONDS_IN_A_YEAR * num_years) in
  i64_saturating_add genesis_timestamp seconds_elapsed.

Definition block_reward_v1 (total_supply block_time coinbase_reward transaction_fees : Z) : result Z :=
  block_height_at_year_1 ← block_height_at_year block_time 1;
  let annual_reward := Z.quot total_supply 20 in
  block_reward ← div annual_reward block_height_at_year_1;
  Ok (u64_wrap (block_reward + Z.quot coinbase_reward 3 + transaction_fees)).

Definition block_reward_v2 (total_supply time_since_last_block coinbase_reward transaction_fees : Z) : Z :=
  let annual_reward := Z.quot total_supply 20 in
  let time_since_last_block := Z.max V2_MIN_BLOCK_INTERVAL (Z.min V2_MAX_BLOCK_INTERVAL time_since_last_block) in
  let block_reward := Z.quot (u64_wrap (annual_reward * time_since_last_block)) SECONDS_IN_A_YEAR in
  u64_wrap (block_reward + Z.quot coinbase_reward 3 + transaction_fees).

Definition block_reward (block_height total_supply block_time time_since_last_block coinbase_reward transaction_fees : Z)
    : result Z :=
  if decide (MAX_SUPPLY_LIMIT_HEIGHT N <= block_height) then Ok 0 else
  consensus_version ← CONSENSUS_VERSION N block_height;
  if decide (consensus_version = 1) then block_reward_v1 total_supply block_time coinbase_reward transaction_fees
  else Ok (block_reward_v2 total_supply time_since_last_block coinbase_reward transaction_fees).

Definition puzzle_reward (coinbase_reward : Z) : Z := Z.quot (u64_saturating_mul coinbase_reward 2) 3.

(** ** Coinbase rewards *)

Definition block_reward_at_height (height starting_supply anchor_height block_time : Z) : result Z :=
  block_height_at_year_10 ← block_height_at_year block_time 10;
  let num_remaining_blocks_to_year_10 := saturating_sub block_height_at_year_10 height in
  let numerator := u128_wrap (2 * starting_supply * anchor_height * num_remaining_blocks_to_year_10) in
  let denominator := block_height_at_year_10 * (block_height_at_year_10 + 1) in
  div numerator denominator.

Definition anchor_block_reward_at_height (block_height starting_supply anchor_height block_time : Z) : result Z :=
  block_height_at_year_9 ← block_height_at_year block_time 9;
  reward_at_year_9 ← block_reward_at_height block_height_at_year_9 starting_supply anchor_height block_time;
  reward_at_block_height ← block_reward_at_height block_height starting_supply anchor_height block_time;
  Ok (Z.max reward_at_block_height reward_at_year_9).

(** A negative timestamp becomes large when it is cast to [u128]. *)
Definition block_reward_at_timestamp (block_timestamp genesis_timestamp starting_supply anchor_time : Z) : Z :=
  let timestamp_at_year_10 := u128_wrap (timestamp_at_year genesis_timestamp 10) in
  let number_of_seconds_in_10_years := SECONDS_IN_A_YEAR * 10 in
  let num_remaining_seconds_to_year_10 := saturating_sub timestamp_at_year_10 (u128_wrap block_timestamp) in
  let numerator := u128_wrap (2 * starting_supply * Z.quot anchor_time 10 * num_remaining_seconds_to_year_10) in
  let denominator := number_of_seconds_in_10_years * (Z.quot number_of_seconds_in_10_years 10 + 1) in
  Z.quot numerator denominator.

Definition anchor_block_reward_at_timestamp (block_timestamp genesis_timestamp starting_supply anchor_time : Z) : Z :=
  let timestamp_at_year_9 := timestamp_at_year genesis_timestamp 9 in
  let reward_at_year_9 := block_reward_at_timestamp timestamp_at_year_9 genesis_timestamp starting_supply anchor_time in
  let reward_at_block_timestamp := block_reward_at_timestamp block_timestamp genesis_timestamp starting_supply anchor_time in
  Z.max reward_at_block_timestamp reward_at_year_9.

(** What both versions do with the anchor reward. *)
Definition pro_rata (anchor_block_reward combined_proof_target cumulative_proof_target coinbase_target : Z) : result Z :=
  let remaining_coinbase_target := saturating_sub coinbase_target cumulative_proof_target in
  let remaining_proof_target := Z.min combined_proof_target remaining_coinbase_target in
  reward ← div (u128_saturating_mul anchor_block_reward remaining_proof_target) coinbase_target;
  _ ← ensure (bool_decide (reward <= MAX_COINBASE_REWARD)) "Coinbase reward ({reward}) exceeds maximum {MAX_COINBASE_REWARD}";
  Ok reward.

Definition coinbase_reward_v1 (block_height starting_supply anchor_height block_time combined_proof_target
    cumulative_proof_target coinbase_target : Z) : result Z :=
  anchor ← anchor_block_reward_at_height block_height starting_supply anchor_height block_time;
  pro_rata anchor combined_proof_target cumulative_proof_target coinbase_target.

Definition coinbase_reward_v2 (block_timestamp genesis_timestamp starting_supply anchor_time combined_proof_target
    cumulative_proof_target coinbase_target : Z) : result Z :=
  pro_rata (anchor_block_reward_at_timestamp block_timestamp genesis_timestamp starting_supply anchor_time)
    combined_proof_target cumulative_proof_target coinbase_target.

Definition coinbase_reward (block_height block_timestamp genesis_timestamp starting_supply anchor_time anchor_height block_time
    combined_proof_target cumulative_proof_target coinbase_target : Z) : result Z :=
  if decide (MAX_SUPPLY_LIMIT_HEIGHT N <= block_height) then Ok 0 else
  consensus_version ← CONSENSUS_VERSION N block_height;
  if decide (consensus_version = 1) then
    coinbase_reward_v1 block_height starting_supply anchor_height block_time combined_proof_target cumulative_proof_target coinbase_target
  else
    coinbase_reward_v2 block_timestamp genesis_timestamp starting_supply anchor_time combined_proof_target cumulative_proof_target coinbase_target.

(** ** Targets *)

Definition RBITS : Z := 16.
Definition RADIX : Z := 2 ^ 16.

(** The multiplier [2^16 * 2^(fractional / 2^16)], approximated by a polynomial. *)
Definition fractional_multiplier (fractional : Z) : Z :=
  RADIX + Z.shiftr (195766423245049 * fractional + 971821376 * fractional ^ 2 + 5127 * fractional ^ 3 + 2 ^ (RBITS * 3 - 1)) (RBITS * 3).

Definition retarget (previous_target previous_block_timestamp block_timestamp anchor_time half_life : Z) (is_inverse : bool)
    : result Z :=
  let block_time_elapsed := Z.max (i64_saturating_sub block_timestamp previous_block_timestamp) 1 in
  let drift := i64_saturating_sub block_time_elapsed anchor_time in
  if decide (drift = 0) then Ok previous_target else
  let drift := if is_inverse then i64_wrap (drift * -1) else drift in
  exponent ← div (i128_saturating_mul RADIX drift) half_life;
  let integral := Z.shiftr exponent RBITS in
  let fractional := u128_wrap (exponent - Z.shiftl integral RBITS) in
  _ ← ensure (bool_decide (fractional < RADIX)) "Fractional part is not within the fixed point size";
  _ ← ensure (bool_decide (exponent = integral * RADIX + fractional)) "Exponent is decomposed incorrectly";
  let candidate_target := u128_saturating_mul previous_target (fractional_multiplier fractional) in
  let shifts := integral - RBITS in
  candidate_target ←
    (if decide (shifts < 0) then
       n ← u32_try_from (- shifts);
       Ok match u128_checked_shr candidate_target n with Some target => Z.max target 1 | None => 1 end
     else
       n ← u32_try_from shifts;
       Ok match u128_checked_shl candidate_target n with Some target => Z.max target 1 | None => u64_max end);
  let candidate_target := Z.min candidate_target u64_max in
  _ ← ensure (bool_decide (u128_checked_shr candidate_target 64 = Some 0)) "The target has overflowed";
  Ok candidate_target.

Definition coinbase_target (previous_target previous_block_timestamp block_timestamp anchor_time num_blocks_per_epoch
    genesis_target : Z) : result Z :=
  let half_life := Z.min u32_max (Z.quot num_blocks_per_epoch 2 * anchor_time) in
  candidate_target ← retarget previous_target previous_block_timestamp block_timestamp anchor_time half_life true;
  Ok (Z.max candidate_target genesis_target).

Definition proof_target (coinbase_target genesis_proof_target max_solutions_as_power_of_two : Z) : Z :=
  default genesis_proof_target ((fun target => u64_saturating_add target 1) <$> u64_checked_shr coinbase_target max_solutions_as_power_of_two).

(** The attributes of the header that [to_next_targets] computes. *)
Record TargetState := mk_targets {
  t_coinbase_target : Z;
  t_proof_target : Z;
  t_cumulative_proof_target : Z;
  t_cumulative_weight : Z;
  t_last_coinbase_target : Z;
  t_last_coinbase_timestamp : Z;
}.

Definition to_next_targets (consensus_version latest_cumulative_proof_target combined_proof_target latest_coinbase_target
    latest_cumulative_weight last_coinbase_target last_coinbase_timestamp next_timestamp : Z) : result TargetState :=
  let latest_coinbase_threshold := Z.quot latest_coinbase_target 2 in
  let next_cumulative_proof_target := u128_saturating_add latest_cumulative_proof_target combined_proof_target in
  let is_coinbase_threshold_reached := bool_decide (latest_coinbase_threshold <= next_cumulative_proof_target) in
  anchor_time ← ok_or "No anchor time defined for consensus version {consensus_version}"
                  (value_by_version (ANCHOR_TIMES N) consensus_version);
  next_coinbase_target ← coinbase_target last_coinbase_target last_coinbase_timestamp next_timestamp anchor_time
                           (NUM_BLOCKS_PER_EPOCH N) (GENESIS_COINBASE_TARGET N);
  let next_proof_target := proof_target next_coinbase_target (GENESIS_PROOF_TARGET N) (MAX_SOLUTIONS_AS_POWER_OF_TWO N) in
  let next_cumulative_proof_target := if is_coinbase_threshold_reached then 0 else next_cumulative_proof_target in
  let next_cumulative_weight := u128_saturating_add latest_cumulative_weight combined_proof_target in
  let '(next_last_coinbase_target, next_last_coinbase_timestamp) :=
    if is_coinbase_threshold_reached then (next_coinbase_target, next_timestamp)
    else (last_coinbase_target, last_coinbase_timestamp) in
  Ok (mk_targets next_coinbase_target next_proof_target next_cumulative_proof_target next_cumulative_weight
        next_last_coinbase_target next_last_coinbase_timestamp).
End Targets.
End Targets.
