(* ===== verification/TargetsProps.v ===== *)
(** * Properties of targets and rewards

    The coinbase target follows the time between coinbases; the coinbase reward
    never fails on the main network, and what is paid between two coinbases is at
    most the anchor reward; the limit on the supply assumes a block time. *)

From S2P Require Import Prelude Targets.

Module TargetsProps.
Import Targets.

(** ** The fixed-point exponential *)

(** [2^16 * T * 2^(E / 2^16)] in fixed point, as a target. *)
Definition asert (T E : Z) : Z := Z.min u64_max (Z.max 1 (T * fractional_multiplier (E mod RADIX) / 2 ^ (RBITS - E / RADIX))).

Lemma multiplier_mono f g : 0 <= f <= g -> fractional_multiplier f <= fractional_multiplier g.
Proof.
  intros H. unfold fractional_multiplier, RBITS. apply Z.add_le_mono_l. rewrite !Z.shiftr_div_pow2 by lia.
  apply Z.div_le_mono; [lia|]. assert (f ^ 2 <= g ^ 2) by (apply Z.pow_le_mono_l; lia).
  assert (f ^ 3 <= g ^ 3) by (apply Z.pow_le_mono_l; lia). lia.
Qed.

Lemma multiplier_range f : 0 <= f < RADIX -> RADIX <= fractional_multiplier f <= 2 * RADIX.
Proof.
  intros H. assert (fractional_multiplier 0 = RADIX) as <- by vm_refl.
  assert (fractional_multiplier 65535 <= 2 * fractional_multiplier 0) by (vm_compute; discriminate).
  pose proof (multiplier_mono 0 f ltac:(lia)). pose proof (multiplier_mono f 65535 ltac:(unfold RADIX in H; lia)). lia.
Qed.

Lemma div_halves A A' p q : 0 <= A <= 2 * A' -> 0 < p -> 2 <= q -> A / (p * q) <= A' / p.
Proof.
  intros HA Hp Hq. transitivity (A / (2 * p)); [apply Z.div_le_compat_l; nia|].
  rewrite <-(Z.div_mul_cancel_l A' p 2) by lia. apply Z.div_le_mono; lia.
Qed.

Lemma asert_mono T E E' : 0 <= T -> E <= E' -> E' < RADIX -> asert T E <= asert T E'.
Proof.
  intros HT HE HE'. unfold asert. apply Z.min_le_compat_l, Z.max_le_compat_l.
  assert (0 < RADIX) as HR by done. assert (E / RADIX <= E' / RADIX) as Hi by (apply Z.div_le_mono; lia).
  assert (E' / RADIX < 1) as Hi' by (apply Z.div_lt_upper_bound; lia).
  pose proof (Z.mod_pos_bound E RADIX HR) as Hf. pose proof (Z.mod_pos_bound E' RADIX HR) as Hf'.
  pose proof (multiplier_range _ Hf) as Hm. pose proof (multiplier_range _ Hf') as Hm'.
  assert (0 < 2 ^ (RBITS - E' / RADIX)) by (apply Z.pow_pos_nonneg; unfold RBITS; lia).
  destruct (decide (E / RADIX = E' / RADIX)) as [Heq|Hne].
  - rewrite Heq. apply Z.div_le_mono; [lia|]. apply Z.mul_le_mono_nonneg_l; [done|]. apply multiplier_mono.
    pose proof (Z.div_mod E RADIX ltac:(lia)). pose proof (Z.div_mod E' RADIX ltac:(lia)). nia.
  - replace (RBITS - E / RADIX) with ((RBITS - E' / RADIX) + (E' / RADIX - E / RADIX)) by lia.
    rewrite Z.pow_add_r by (unfold RBITS; lia). apply div_halves; [nia|lia|].
    change 2 with (2 ^ 1) at 1. apply Z.pow_le_mono_r; lia.
Qed.

(** ** The retarget algorithm *)

Lemma RADIX_eq : RADIX = 65536.
Proof. done. Qed.

(** The part of [retarget] after the drift. *)
Lemma shift_target c n :
  0 <= c < 2 ^ 128 -> 0 <= n ->
  match u128_checked_shr c n with Some target => Z.max target 1 | None => 1 end = Z.max 1 (c / 2 ^ n).
Proof.
  intros Hc Hn. unfold u128_checked_shr. case_decide.
  - rewrite Z.shiftr_div_pow2 by lia. lia.
  - rewrite Z.div_small; [lia|]. assert (2 ^ 128 <= 2 ^ n) by (apply Z.pow_le_mono_r; lia). lia.
Qed.

Lemma decompose E :
  let integral := Z.shiftr E RBITS in let fractional := u128_wrap (E - Z.shiftl integral RBITS) in
  integral = E / RADIX /\ fractional = E mod RADIX /\ fractional < RADIX /\ E = integral * RADIX + fractional.
Proof.
  cbn zeta. unfold RBITS. rewrite Z.shiftr_div_pow2, Z.shiftl_mul_pow2 by lia. change (2 ^ 16) with RADIX.
  pose proof (Z.div_mod E RADIX ltac:(done)). pose proof (Z.mod_pos_bound E RADIX ltac:(done)) as Hb. rewrite RADIX_eq in *.
  assert (u128_wrap (E - E / 65536 * 65536) = E mod 65536) as ->.
  { unfold u128_wrap. rewrite Z.mod_small; lia. }
  split_and!; lia.
Qed.

(** The values for which the target can be computed: a half life that is at least
    the anchor time, and less than 68 years since the last coinbase. *)
Record in_range (T t0 t a h : Z) : Prop := {
  range_target : 1 <= T <= u64_max;
  range_t0 : is_i64 t0;
  range_t : is_i64 t;
  range_elapsed : t - t0 <= 2 ^ 31;
  range_anchor : 1 <= a <= u16_max;
  range_half_life : a <= h <= u32_max;
}.

Definition elapsed (t0 t : Z) : Z := Z.max (t - t0) 1.
Definition exponent (t0 t a h : Z) : Z := Z.quot (RADIX * (a - elapsed t0 t)) h.

Lemma elapsed_range T t0 t a h : in_range T t0 t a h -> 1 <= elapsed t0 t <= 2 ^ 31.
Proof. intros []. unfold elapsed. lia. Qed.

Lemma exponent_range T t0 t a h : in_range T t0 t a h -> - 2 ^ 47 <= exponent t0 t a h < RADIX.
Proof.
  intros H. pose proof (elapsed_range _ _ _ _ _ H) as He. destruct H. unfold exponent. rewrite RADIX_eq.
  destruct (decide (elapsed t0 t <= a)).
  - rewrite Z.quot_div_nonneg by nia. split; [etrans; [|apply Z.div_pos; nia]; lia|]. apply Z.div_lt_upper_bound; nia.
  - replace (65536 * (a - elapsed t0 t)) with (- (65536 * (elapsed t0 t - a))) by lia. rewrite Z.quot_opp_l by lia.
    rewrite Z.quot_div_nonneg by nia. assert (65536 * (elapsed t0 t - a) / h <= 65536 * (elapsed t0 t - a)).
    { apply Z.div_le_upper_bound; nia. } pose proof (Z.div_pos (65536 * (elapsed t0 t - a)) h ltac:(nia) ltac:(lia)). lia.
Qed.

Lemma asert_0 T : 1 <= T <= u64_max -> asert T 0 = T.
Proof.
  intros HT. unfold asert. change (0 mod RADIX) with 0. change (0 / RADIX) with 0.
  assert (fractional_multiplier 0 = RADIX) as -> by vm_refl. change (2 ^ (RBITS - 0)) with RADIX.
  rewrite Z.div_mul by done. lia.
Qed.

Lemma retarget_asert T t0 t a h : in_range T t0 t a h -> retarget T t0 t a h true = Ok (asert T (exponent t0 t a h)).
Proof.
  intros Hr. pose proof (elapsed_range _ _ _ _ _ Hr) as He. pose proof (exponent_range _ _ _ _ _ Hr) as HE.
  pose proof Hr as [HT H0 H1 Hel Ha Hh]. unfold retarget.
  assert (Z.max (i64_saturating_sub t t0) 1 = elapsed t0 t) as -> by (unfold elapsed; mlia).
  assert (i64_saturating_sub (elapsed t0 t) a = elapsed t0 t - a) as -> by mlia.
  case_decide as Hd.
  { unfold exponent. replace (a - elapsed t0 t) with 0 by lia. rewrite Z.mul_0_r, Z.quot_0_l by lia. by rewrite asert_0. }
  assert (i64_wrap ((elapsed t0 t - a) * -1) = a - elapsed t0 t) as ->.
  { replace ((elapsed t0 t - a) * -1) with (a - elapsed t0 t) by lia. apply i64_wrap_id. mlia. }
  assert (i128_saturating_mul RADIX (a - elapsed t0 t) = RADIX * (a - elapsed t0 t)) as ->.
  { unfold i128_saturating_mul. rewrite RADIX_eq. unfold u16_max in Ha. lia. }
  unfold div. rewrite decide_False by lia. cbn [mbind result_bind]. fold (exponent t0 t a h).
  set (E := exponent t0 t a h) in *. destruct (decompose E) as (-> & -> & Hlt & Heq).
  rewrite !bool_decide_true by (lia || (pose proof (Z.div_mod E RADIX ltac:(done)); lia)). cbn [ensure mbind result_bind].
  pose proof (Z.mod_pos_bound E RADIX ltac:(done)) as Hf. pose proof (multiplier_range _ Hf) as Hm.
  set (c := T * fractional_multiplier (E mod RADIX)). assert (0 <= c < 2 ^ 128) as Hc.
  { assert (c <= u64_max * (2 * RADIX)) by (apply Z.mul_le_mono_nonneg; lia). split; [unfold c; nia|]. 
    assert (u64_max * (2 * RADIX) < 2 ^ 128) by done. lia. }
  assert (u128_saturating_mul T (fractional_multiplier (E mod RADIX)) = c) as -> by (unfold u128_saturating_mul, u128_max; lia).
  assert (E / RADIX < 1) by (apply Z.div_lt_upper_bound; [done|rewrite RADIX_eq in *; lia]).
  assert (- 2 ^ 31 <= E / RADIX) by (apply Z.div_le_lower_bound; [done|rewrite RADIX_eq in *; lia]).
  rewrite decide_True by (unfold RBITS; lia). unfold u32_try_from. rewrite decide_True by (unfold RBITS, u32_max; lia).
  cbn [mbind result_bind]. rewrite shift_target by (unfold RBITS; lia).
  replace (- (E / RADIX - RBITS)) with (RBITS - E / RADIX) by lia.
  rewrite bool_decide_true; cbn [ensure mbind result_bind]; [f_equal; unfold asert; fold c; lia|].
  unfold u128_checked_shr. rewrite decide_True by lia. f_equal. rewrite Z.shiftr_div_pow2 by lia. apply Z.div_small.
  unfold u64_max. lia.
Qed.

Lemma exponent_mono T t0 t t' a h : in_range T t0 t a h -> t <= t' -> exponent t0 t' a h <= exponent t0 t a h.
Proof. intros [] H. unfold exponent. apply Z.quot_le_mono; [lia|]. unfold elapsed. rewrite RADIX_eq. lia. Qed.

(** After [j] half lives more than the anchor time the target is divided by [2^j]. *)
Lemma asert_halves T j : 1 <= T <= u64_max -> 0 <= j -> asert T (- (RADIX * j)) = Z.max 1 (T / 2 ^ j).
Proof.
  intros HT Hj. unfold asert. replace (- (RADIX * j)) with (- j * RADIX) by lia. rewrite Z.mod_mul, Z.div_mul by done.
  assert (fractional_multiplier 0 = 2 ^ RBITS) as -> by vm_refl. replace (RBITS - - j) with (j + RBITS) by lia.
  rewrite Z.pow_add_r, Z.div_mul_cancel_r by (unfold RBITS; try lia; apply Z.pow_nonzero; lia).
  assert (T / 2 ^ j <= T) by (apply Z.div_le_upper_bound; [apply Z.pow_pos_nonneg; lia|]; assert (1 <= 2 ^ j) by (change 1 with (2 ^ 0); apply Z.pow_le_mono_r; lia); nia).
  lia.
Qed.

(** C32: the next coinbase target can always be computed within 68 years of the
    last coinbase, lies between the target of the genesis block and the largest
    [u64], does not increase with the time of the block, is the last target when the
    anchor time has passed, and the last target halved once per half life after that. *)
Theorem coinbase_target_correct (T t0 t a k G : Z) :
  in_range T t0 t a (Z.min u32_max (Z.quot k 2 * a)) -> is_u64 G ->
  exists c, coinbase_target T t0 t a k G = Ok c /\ G <= c <= u64_max /\ 1 <= c /\
    (forall t' c', t <= t' -> in_range T t0 t' a (Z.min u32_max (Z.quot k 2 * a)) ->
       coinbase_target T t0 t' a k G = Ok c' -> c' <= c) /\
    (forall j, 0 <= j -> t - t0 = a + j * Z.min u32_max (Z.quot k 2 * a) -> c = Z.max (Z.max 1 (T / 2 ^ j)) G).
Proof.
  intros Hr HG. unfold coinbase_target. set (h := Z.min u32_max (Z.quot k 2 * a)) in *. rewrite retarget_asert by done.
  cbn [mbind result_bind]. eexists. split; [done|]. pose proof Hr as [HT _ _ _ Ha Hh].
  split_and!; [lia|unfold asert; mlia|unfold asert; unfold u64_max; lia| |].
  - intros t' c' Ht Hr'. rewrite retarget_asert by done. cbn [mbind result_bind]. intros <-%Ok_inj.
    apply Z.max_le_compat_r, asert_mono; [lia|by eapply exponent_mono|by eapply exponent_range].
  - intros j Hj Ht. f_equal. rewrite <-asert_halves by done. f_equal. unfold exponent, elapsed.
    assert (0 <= j * h) by nia. replace (Z.max (t - t0) 1) with (a + j * h) by lia. replace (RADIX * (a - (a + j * h))) with (- (RADIX * j) * h) by lia.
    apply Z.quot_mul. lia.
Qed.

(** ** Rewards on the main network *)

Lemma mainnet_version h : 0 <= h -> exists v, CONSENSUS_VERSION MainnetV0 h = Ok v /\ 1 <= v <= 15 /\ (v = 1 <-> h < 2800000).
Proof.
  intros Hh. unfold CONSENSUS_VERSION. cbn [MainnetV0 CONSENSUS_VERSION_HEIGHTS fmap list_fmap snd binary_search].
  repeat (case_decide; [try lia; cbn; by eexists; split_and!; [done|lia..]|]); try lia.
  all: try (case_decide; [cbn; eexists; split_and!; [done|lia..]|]). all: cbn; eexists; split_and!; [done|lia..].
Qed.

(** The pro-rata reward is a share of the anchor reward. *)
Lemma pro_rata_share A P cum C r :
  0 <= A -> 0 <= P -> 0 <= cum -> 1 <= C -> pro_rata A P cum C = Ok r ->
  0 <= r /\ r * C <= A * Z.min P (saturating_sub C cum).
Proof.
  intros HA HP Hc HC. unfold pro_rata, div. rewrite decide_False by lia. cbn [mbind result_bind]. intros H.
  apply bind_Ok in H as ([] & _ & <-%Ok_inj). set (m := Z.min P (saturating_sub C cum)).
  assert (0 <= m) by (unfold m, saturating_sub; lia). assert (0 <= u128_saturating_mul A m <= A * m) as Hs.
  { unfold u128_saturating_mul, u128_max. nia. }
  rewrite Z.quot_div_nonneg by lia. pose proof (Z.mul_div_le (u128_saturating_mul A m) C ltac:(lia)).
  pose proof (Z.div_pos (u128_saturating_mul A m) C ltac:(lia) ltac:(lia)). lia.
Qed.

Lemma pro_rata_Ok A P cum C :
  0 <= A <= MAX_COINBASE_REWARD -> 0 <= P -> 0 <= cum -> 1 <= C <= u64_max ->
  exists r, pro_rata A P cum C = Ok r /\ 0 <= r <= A.
Proof.
  intros HA HP Hc HC. assert (exists r, pro_rata A P cum C = Ok r /\ r <= A) as (r & Hr & Hle).
  { unfold pro_rata, div. rewrite decide_False by lia. cbn [mbind result_bind].
    set (m := Z.min P (saturating_sub C cum)). assert (0 <= m <= C) by (unfold m, saturating_sub; lia).
    assert (Z.quot (u128_saturating_mul A m) C <= A) as Hq.
    { assert (0 <= u128_saturating_mul A m <= A * C) by (unfold u128_saturating_mul, u128_max; nia).
      rewrite Z.quot_div_nonneg by lia. apply Z.div_le_upper_bound; nia. }
    rewrite bool_decide_true by lia. cbn. by eexists. }
  exists r. split; [done|]. split; [|done]. eapply (pro_rata_share A P cum C); [lia..|done].
Qed.

Lemma year_height_10 : block_height_at_year 10 10 = Ok 31536000.
Proof. vm_refl. Qed.
Lemma year_height_9 : block_height_at_year 10 9 = Ok 28382400.
Proof. vm_refl. Qed.

Lemma height_reward h :
  0 <= h -> block_reward_at_height h 1500000000000000 2 10 = Ok (6000000000000000 * Z.max 0 (31536000 - h) / 994519327536000).
Proof.
  intros Hh. unfold block_reward_at_height. rewrite year_height_10. cbn [mbind result_bind].
  set (rem := saturating_sub 31536000 h). assert (0 <= rem <= 31536000) as Hrem by (unfold rem, saturating_sub; lia).
  unfold u128_wrap. rewrite Z.mod_small by lia. unfold div. rewrite decide_False by lia. f_equal.
  rewrite Z.quot_div_nonneg by lia. replace (2 * 1500000000000000 * 2 * rem) with (6000000000000000 * rem) by lia. done.
Qed.

Lemma timestamp_reward t :
  0 <= t <= i64_max ->
  block_reward_at_timestamp t 1725462000 1500000000000000 25 =
  6000000000000000 * Z.max 0 (2040822000 - t) / 9945193275360000.
Proof.
  intros Ht. unfold block_reward_at_timestamp. assert (u128_wrap (timestamp_at_year 1725462000 10) = 2040822000) as -> by vm_refl.
  assert (u128_wrap t = t) as -> by (unfold u128_wrap, i64_max in *; apply Z.mod_small; lia).
  set (rem := saturating_sub 2040822000 t). assert (0 <= rem <= 2040822000) by (unfold rem, saturating_sub; lia).
  change (Z.quot 25 10) with 2. unfold u128_wrap. rewrite Z.mod_small by lia.
  replace (SECONDS_IN_A_YEAR * 10 * (Z.quot (SECONDS_IN_A_YEAR * 10) 10 + 1)) with 9945193275360000 by vm_refl.
  rewrite Z.quot_div_nonneg by lia. replace (2 * 1500000000000000 * 2 * rem) with (6000000000000000 * rem) by lia. done.
Qed.

Lemma height_anchor h :
  1 <= h -> exists A, anchor_block_reward_at_height h 1500000000000000 2 10 = Ok A /\ 0 <= A <= MAX_COINBASE_REWARD.
Proof.
  intros Hh. unfold anchor_block_reward_at_height. rewrite year_height_9. cbn [mbind result_bind].
  rewrite !height_reward by lia. cbn [mbind result_bind]. eexists. split; [done|].
  assert (forall m, 0 <= m <= 31535999 -> 0 <= 6000000000000000 * m / 994519327536000 <= MAX_COINBASE_REWARD) as Hb.
  { intros m Hm. split; [apply Z.div_pos; lia|]. unfold MAX_COINBASE_REWARD.
    transitivity (6000000000000000 * 31535999 / 994519327536000); [apply Z.div_le_mono; lia|vm_compute; discriminate]. }
  pose proof (Hb (Z.max 0 (31536000 - h)) ltac:(lia)). pose proof (Hb (Z.max 0 (31536000 - 28382400)) ltac:(lia)). lia.
Qed.

Definition mainnet_anchor (t : Z) : Z := anchor_block_reward_at_timestamp t 1725462000 1500000000000000 25.

Lemma timestamp_anchor t :
  0 <= t <= i64_max -> mainnet_anchor t = Z.max (6000000000000000 * Z.max 0 (2040822000 - t) / 9945193275360000) 19025874.
Proof.
  intros Ht. unfold mainnet_anchor, anchor_block_reward_at_timestamp. rewrite (timestamp_reward t Ht).
  by assert (block_reward_at_timestamp (timestamp_at_year 1725462000 9) 1725462000 1500000000000000 25 = 19025874) as -> by vm_refl.
Qed.

Lemma timestamp_anchor_range t : 1725462010 <= t <= i64_max -> 0 <= mainnet_anchor t <= MAX_COINBASE_REWARD.
Proof.
  intros Ht. rewrite timestamp_anchor by lia. unfold MAX_COINBASE_REWARD. split; [lia|].
  apply Z.max_lub; [|lia]. etrans; [apply Z.div_le_mono; [lia|]; apply (Z.mul_le_mono_nonneg_l _ (2040822000 - 1725462010)); lia|].
  vm_compute. discriminate.
Qed.

Lemma timestamp_anchor_mono t t' : 0 <= t <= t' -> t' <= i64_max -> mainnet_anchor t' <= mainnet_anchor t.
Proof.
  intros Ht Ht'. rewrite !timestamp_anchor by lia. apply Z.max_le_compat_r, Z.div_le_mono; lia.
Qed.

(** ** What a block pays *)

Lemma mainnet_coinbase_Ok h t P cum C :
  1 <= h -> 1725462010 <= t <= i64_max -> 0 <= P -> 0 <= cum -> 1 <= C <= u64_max ->
  exists c, coinbase_reward MainnetV0 h t 1725462000 1500000000000000 25 2 10 P cum C = Ok c /\ 0 <= c <= MAX_COINBASE_REWARD.
Proof.
  intros Hh Ht HP Hcum HC. unfold coinbase_reward. case_decide; [by exists 0|].
  destruct (mainnet_version h) as (v & -> & _ & _); [lia|]. cbn [mbind result_bind]. case_decide.
  - unfold coinbase_reward_v1. destruct (height_anchor h) as (A & -> & HA); [lia|]. cbn [mbind result_bind].
    destruct (pro_rata_Ok A P cum C) as (r & -> & Hr); [lia..|]. exists r. split; [done|lia].
  - unfold coinbase_reward_v2. fold (mainnet_anchor t). pose proof (timestamp_anchor_range t Ht).
    destruct (pro_rata_Ok (mainnet_anchor t) P cum C) as (r & -> & Hr); [lia..|]. exists r. split; [done|lia].
Qed.

(** The staking reward for an interval, without the shares of the coinbase and the
    fees; sixty seconds pay the most. *)
Definition staking_share (dt : Z) : Z := 75000000000000 * Z.max 1 (Z.min 60 dt) / 31536000.

Lemma staking_share_max dt : 0 <= staking_share dt <= 142694063.
Proof.
  unfold staking_share. split; [apply Z.div_pos; lia|].
  transitivity (75000000000000 * 60 / 31536000); [apply Z.div_le_mono; lia|vm_compute; discriminate].
Qed.

Lemma block_reward_v2_value dt c fees :
  0 <= c <= MAX_COINBASE_REWARD -> 0 <= fees <= 2 ^ 63 ->
  block_reward_v2 1500000000000000 dt c fees = staking_share dt + c / 3 + fees.
Proof.
  intros Hc Hf. unfold block_reward_v2, V2_MIN_BLOCK_INTERVAL, V2_MAX_BLOCK_INTERVAL. change (Z.quot 1500000000000000 20) with 75000000000000.
  change SECONDS_IN_A_YEAR with 31536000. rewrite (u64_wrap_id (_ * _)) by mlia.
  rewrite !Z.quot_div_nonneg by lia. fold (staking_share dt). pose proof (staking_share_max dt). unfold MAX_COINBASE_REWARD in *.
  assert (0 <= c / 3 <= c) by (split; [apply Z.div_pos; lia|apply Z.div_le_upper_bound; lia]). apply u64_wrap_id. mlia.
Qed.

Lemma mainnet_block_reward h dt c fees :
  0 <= h < 263527685 -> 0 <= c <= MAX_COINBASE_REWARD -> 0 <= fees <= 2 ^ 63 ->
  block_reward MainnetV0 h 1500000000000000 10 dt c fees =
  Ok (staking_share (if decide (h < 2800000) then 10 else dt) + c / 3 + fees).
Proof.
  intros Hh Hc Hf. unfold block_reward. rewrite decide_False by (cbn; lia).
  destruct (mainnet_version h) as (v & -> & _ & Hv); [lia|]. cbn [mbind result_bind].
  assert (0 <= c / 3 <= c) by (split; [apply Z.div_pos; lia|apply Z.div_le_upper_bound; lia]). unfold MAX_COINBASE_REWARD in Hc.
  case_decide as H1.
  - rewrite decide_True by (by apply Hv). unfold block_reward_v1.
    assert (block_height_at_year 10 1 = Ok 3153600) as -> by vm_refl. cbn [mbind result_bind].
    assert (div (Z.quot 1500000000000000 20) 3153600 = Ok (staking_share 10)) as -> by vm_refl. cbn [mbind result_bind].
    rewrite Z.quot_div_nonneg by lia. pose proof (staking_share_max 10). f_equal. apply u64_wrap_id. mlia.
  - rewrite decide_False by (by rewrite <-Hv). by rewrite block_reward_v2_value.
Qed.

(** C33: on the main network the coinbase reward of a block after genesis never
    fails and is at most the maximum; before the supply limit height the block
    reward is the staking share of the interval, a third of the coinbase reward and
    the fees, with no overflow, and what stakers and provers get together is at most
    the staking share of a minute, the coinbase reward and the fees; from the limit
    height on nothing is paid. *)
Theorem block_payment (h t dt P cum C fees : Z) :
  1 <= h -> 1725462010 <= t <= i64_max -> 0 <= P -> 0 <= cum -> 1 <= C <= u64_max -> 0 <= fees <= 2 ^ 63 ->
  exists c b, coinbase_reward MainnetV0 h t 1725462000 1500000000000000 25 2 10 P cum C = Ok c /\
    block_reward MainnetV0 h 1500000000000000 10 dt c fees = Ok b /\
    if decide (263527685 <= h) then c = 0 /\ b = 0
    else 0 <= c <= MAX_COINBASE_REWARD /\ b = staking_share (if decide (h < 2800000) then 10 else dt) + c / 3 + fees /\
      b + puzzle_reward c <= 142694063 + c + fees.
Proof.
  intros Hh Ht HP Hcum HC Hf. case_decide as Hl.
  - exists 0, 0. unfold coinbase_reward, block_reward. by rewrite !decide_True by (cbn; lia).
  - destruct (mainnet_coinbase_Ok h t P cum C) as (c & Hc & Hcr); [done..|]. rewrite Hc.
    eexists c, _. split; [done|]. split; [apply mainnet_block_reward; lia|]. split; [done|]. split; [done|].
    unfold puzzle_reward. unfold MAX_COINBASE_REWARD in Hcr. replace (u64_saturating_mul c 2) with (c * 2) by mlia.
    rewrite Z.quot_div_nonneg by lia. pose proof (staking_share_max (if decide (h < 2800000) then 10 else dt)).
    pose proof (Z.mul_div_le c 3 ltac:(lia)). pose proof (Z.mul_div_le (c * 2) 3 ltac:(lia)). lia.
Qed.

(** ** Between two coinbases *)

(** The rewards of the blocks [bs] (timestamp and combined proof target of each), up to
    the block with which the cumulative proof target reaches the threshold. *)
Fixpoint paid_until_coinbase (v : Z) (s : TargetState) (bs : list (Z * Z)) : result Z :=
  match bs with
  | [] => Ok 0
  | (t, P) :: bs =>
      r ← coinbase_reward_v2 t 1725462000 1500000000000000 25 P (t_cumulative_proof_target s) (t_coinbase_target s);
      s' ← to_next_targets MainnetV0 v (t_cumulative_proof_target s) P (t_coinbase_target s) (t_cumulative_weight s)
             (t_last_coinbase_target s) (t_last_coinbase_timestamp s) t;
      if decide (Z.quot (t_coinbase_target s) 2 <= t_cumulative_proof_target s + P) then Ok r
      else rest ← paid_until_coinbase v s' bs; Ok (r + rest)
  end.

(** The next target on the main network; the anchor time is 25 or 35 seconds. *)
Definition next_target (a T t0 t : Z) : Z := Z.max (asert T (exponent t0 t a (180 * a))) (2 ^ 29 - 1).

Lemma mainnet_target T t0 t a :
  in_range T t0 t a (180 * a) -> coinbase_target T t0 t a (NUM_BLOCKS_PER_EPOCH MainnetV0) (2 ^ 29 - 1) = Ok (next_target a T t0 t).
Proof.
  intros H. unfold coinbase_target. change (NUM_BLOCKS_PER_EPOCH MainnetV0) with 360. change (Z.quot 360 2) with 180.
  replace (Z.min u32_max (180 * a)) with (180 * a) by (destruct H; lia). by rewrite retarget_asert.
Qed.

Lemma mainnet_anchor_time v : 1 <= v <= 15 -> exists a, value_by_version (ANCHOR_TIMES MainnetV0) v = Some a /\ (a = 25 \/ a = 35).
Proof.
  intros Hv. unfold value_by_version. cbn. repeat case_decide; cbn; try lia; eexists; split; eauto.
Qed.

Lemma next_target_mono T t0 t t' a :
  in_range T t0 t a (180 * a) -> t <= t' -> next_target a T t0 t' <= next_target a T t0 t.
Proof.
  intros Hr Ht. unfold next_target. pose proof (range_target _ _ _ _ _ Hr).
  apply Z.max_le_compat_r, asert_mono; [lia|by eapply exponent_mono|by eapply exponent_range].
Qed.

Lemma next_target_u64 a T t0 t : 1 <= next_target a T t0 t <= u64_max.
Proof. unfold next_target, asert, u64_max. lia. Qed.

(** Blocks that follow at once raise the target by at most one part in 256. *)
Lemma next_target_first T t0 t a :
  in_range T t0 t a (180 * a) -> a <= 35 -> 2 ^ 29 - 1 <= T -> 256 * next_target a T t0 t <= 257 * T.
Proof.
  intros Hr Ha35 HG. pose proof Hr as [HT _ _ _ Ha _]. assert (exponent t0 t a (180 * a) <= 364) as HE.
  { unfold exponent, elapsed. rewrite RADIX_eq. transitivity (Z.quot (364 * (180 * a)) (180 * a)).
    - apply Z.quot_le_mono; lia.
    - rewrite Z.quot_mul; lia. }
  assert (asert T (exponent t0 t a (180 * a)) <= asert T 364) as Hle by (apply asert_mono; [lia|done|done]).
  assert (256 * asert T 364 <= 257 * T); [|unfold next_target; lia].
  unfold asert. change (364 mod RADIX) with 364. change (2 ^ (RBITS - 364 / RADIX)) with 65536.
  assert (fractional_multiplier 364 = 65790) as -> by vm_refl. pose proof (Z.mul_div_le (T * 65790) 65536 ltac:(lia)). lia.
Qed.

Lemma mainnet_next_targets v a s P t :
  value_by_version (ANCHOR_TIMES MainnetV0) v = Some a ->
  in_range (t_last_coinbase_target s) (t_last_coinbase_timestamp s) t a (180 * a) ->
  0 <= t_cumulative_proof_target s -> 0 <= P -> 1 <= t_coinbase_target s <= u64_max ->
  exists s', to_next_targets MainnetV0 v (t_cumulative_proof_target s) P (t_coinbase_target s) (t_cumulative_weight s)
    (t_last_coinbase_target s) (t_last_coinbase_timestamp s) t = Ok s' /\
    (t_cumulative_proof_target s + P < Z.quot (t_coinbase_target s) 2 ->
     t_coinbase_target s' = next_target a (t_last_coinbase_target s) (t_last_coinbase_timestamp s) t /\
     t_cumulative_proof_target s' = t_cumulative_proof_target s + P /\
     t_last_coinbase_target s' = t_last_coinbase_target s /\ t_last_coinbase_timestamp s' = t_last_coinbase_timestamp s).
Proof.
  intros Hv Hr H0 HP HC. unfold to_next_targets. rewrite Hv. cbn [ok_or mbind result_bind].
  change (GENESIS_COINBASE_TARGET MainnetV0) with (2 ^ 29 - 1). rewrite (mainnet_target _ _ _ _ Hr). cbn [mbind result_bind].
  destruct (bool_decide _) eqn:Hb; (eexists; split; [done|]); intros Hlt.
  all: assert (u128_saturating_add (t_cumulative_proof_target s) P = t_cumulative_proof_target s + P) as Heq
    by (rewrite Z.quot_div_nonneg in Hlt by lia; pose proof (Z.mul_div_le (t_coinbase_target s) 2 ltac:(lia));
        unfold u128_saturating_add, u128_max, u64_max in *; lia).
  - apply bool_decide_eq_true in Hb. lia.
  - by split_and!.
Qed.

(** What has been paid in a period whose anchor reward is [A]: at most the share of
    the cumulative proof target, and about half of the anchor reward. *)
Definition paid_share (A paid : Z) (s : TargetState) : Prop :=
  0 <= paid /\ 256 * paid * t_coinbase_target s <= 257 * A * t_cumulative_proof_target s /\ 512 * paid <= 257 * A.

Lemma share_end A A' paid cum C P r :
  0 <= A' <= A -> 1 <= C -> 0 <= cum -> 0 <= P -> 0 <= paid -> 256 * paid * C <= 257 * A * cum -> 512 * paid <= 257 * A ->
  0 <= r -> r * C <= A' * Z.min P (saturating_sub C cum) -> 256 * (paid + r) <= 257 * A.
Proof.
  intros HA HC Hcum HP Hp H1 H2 Hr H3. unfold saturating_sub in H3. destruct (decide (cum <= C)).
  - assert (r * C <= A * (C - cum)) by nia. apply (Z.mul_le_mono_pos_r _ _ C); [lia|]. nia.
  - assert (r * C <= 0) by nia. assert (r = 0) by nia. lia.
Qed.

Lemma share_step A A' paid cum C C' P r :
  0 <= A' <= A -> 1 <= C -> 1 <= C' -> 0 <= cum -> 0 <= P -> 0 <= paid ->
  256 * paid * C <= 257 * A * cum -> 0 <= r -> r * C <= A' * Z.min P (saturating_sub C cum) ->
  cum + P < Z.quot C 2 -> (C' <= C \/ cum = 0 /\ paid = 0 /\ 256 * C' <= 257 * C) ->
  256 * (paid + r) * C' <= 257 * A * (cum + P) /\ 512 * (paid + r) <= 257 * A.
Proof.
  intros HA HC HC' Hcum HP Hp H1 Hr H3 Hlt Hm. rewrite Z.quot_div_nonneg in Hlt by lia.
  pose proof (Z.mul_div_le C 2 ltac:(lia)). assert (r * C <= A * P) as H4 by (unfold saturating_sub in H3; nia).
  assert (256 * (paid + r) * C <= 257 * A * (cum + P)) as H5 by nia. split.
  - destruct Hm as [Hle|(-> & -> & Hle)]; [|nia]. transitivity (256 * (paid + r) * C); [|done]. apply Z.mul_le_mono_nonneg_l; lia.
  - apply (Z.mul_le_mono_pos_r _ _ C); [lia|]. assert (A * (2 * (cum + P)) <= A * C) by (apply Z.mul_le_mono_nonneg_l; lia). lia.
Qed.

(** The blocks of a period after time [tp]: in order, at most 68 years after [t0]. *)
Record blocks_after (t0 tp : Z) (bs : list (Z * Z)) : Prop := {
  after_sorted : Sorted Z.le (tp :: bs.*1);
  after_range : Forall (fun b => b.1 <= Z.min i64_max (t0 + 2 ^ 31) /\ 0 <= b.2) bs;
}.

Lemma blocks_after_cons t0 tp t P bs :
  blocks_after t0 tp ((t, P) :: bs) -> tp <= t <= Z.min i64_max (t0 + 2 ^ 31) /\ 0 <= P /\ blocks_after t0 t bs.
Proof.
  intros [Hs Hr]. apply Sorted_inv in Hs as [Hs Ht%HdRel_inv]. apply Forall_cons_1 in Hr as [[? ?] ?]. cbn in *.
  split; [lia|]. by split.
Qed.

Lemma in_range_after T t0 t a :
  1 <= T <= u64_max -> 1725462010 <= t0 -> t0 <= t <= Z.min i64_max (t0 + 2 ^ 31) -> (a = 25 \/ a = 35) -> in_range T t0 t a (180 * a).
Proof. intros HT H0 Ht Ha. split; try mlia. Qed.

Section Period.
Context (v a T t0 : Z).
Context (Hv : value_by_version (ANCHOR_TIMES MainnetV0) v = Some a) (Ha : a = 25 \/ a = 35).
Context (HT : 2 ^ 29 - 1 <= T <= u64_max) (Ht0 : 1725462010 <= t0 <= i64_max).

(** A state of the period at time [tp], with what has been paid in it so far. *)
Record in_period (s : TargetState) (tp paid : Z) : Prop := {
  period_last : t_last_coinbase_target s = T /\ t_last_coinbase_timestamp s = t0;
  period_time : t0 <= tp <= Z.min i64_max (t0 + 2 ^ 31);
  period_cumulative : 0 <= t_cumulative_proof_target s;
  period_target : t_coinbase_target s = next_target a T t0 tp \/
                  t_cumulative_proof_target s = 0 /\ paid = 0 /\ t_coinbase_target s = T;
  period_share : paid_share (mainnet_anchor t0) paid s;
}.

Lemma period_target_range s tp paid : in_period s tp paid -> 1 <= t_coinbase_target s <= u64_max.
Proof. intros [_ _ _ [->|(_ & _ & ->)] _]; [apply next_target_u64|lia]. Qed.

Lemma period_step s tp paid t P :
  in_period s tp paid -> tp <= t <= Z.min i64_max (t0 + 2 ^ 31) -> 0 <= P ->
  exists r s', coinbase_reward_v2 t 1725462000 1500000000000000 25 P (t_cumulative_proof_target s) (t_coinbase_target s) = Ok r /\
    to_next_targets MainnetV0 v (t_cumulative_proof_target s) P (t_coinbase_target s) (t_cumulative_weight s)
      (t_last_coinbase_target s) (t_last_coinbase_timestamp s) t = Ok s' /\ 0 <= r /\
    256 * (paid + r) <= 257 * mainnet_anchor t0 /\
    (t_cumulative_proof_target s + P < Z.quot (t_coinbase_target s) 2 -> in_period s' t (paid + r)).
Proof.
  intros Hp Ht HP. pose proof (period_target_range _ _ _ Hp) as HC. pose proof Hp as [[Hl1 Hl2] Htp Hcum Htgt (Hp0 & Hp1 & Hp2)].
  assert (0 <= mainnet_anchor t <= mainnet_anchor t0) as HA.
  { split; [apply timestamp_anchor_range; lia|apply timestamp_anchor_mono; lia]. }
  pose proof (timestamp_anchor_range t0 Ht0) as HAm.
  destruct (pro_rata_Ok (mainnet_anchor t) P (t_cumulative_proof_target s) (t_coinbase_target s)) as (r & Hr & Hr0); [lia..|].
  apply pro_rata_share in Hr as Hshare; [|lia..]. destruct Hshare as [_ Hshare].
  assert (in_range T t0 t a (180 * a)) as Hrange by (apply in_range_after; [lia|lia|lia|done]).
  destruct (mainnet_next_targets v a s P t) as (s' & Hs' & Hnext); [done|by rewrite Hl1, Hl2|done..|].
  exists r, s'. unfold coinbase_reward_v2. fold (mainnet_anchor t). split; [done|]. split; [done|]. split; [lia|].
  split; [eapply share_end; [exact HA|apply HC|exact Hcum|exact HP|exact Hp0|exact Hp1|exact Hp2|lia|exact Hshare]|]. intros Hlt. destruct (Hnext Hlt) as (HC' & Hcum' & Hl1' & Hl2'). rewrite Hl1, Hl2 in *.
  split; [by rewrite Hl1', Hl2'|lia|lia|by left|]. split; [lia|]. rewrite HC', Hcum'.
  eapply share_step; [exact HA|apply HC|apply next_target_u64|exact Hcum|exact HP|exact Hp0|exact Hp1|lia|exact Hshare|exact Hlt|].
  destruct Htgt as [->|(-> & -> & ->)]; [left|right]; [|split_and!; [done..|by apply next_target_first; [|destruct Ha; lia|lia]]].
  apply next_target_mono; [apply in_range_after; [lia|lia|lia|done]|lia].
Qed.

Lemma period_bound bs : forall s tp paid,
  in_period s tp paid -> blocks_after t0 tp bs ->
  exists total, paid_until_coinbase v s bs = Ok total /\ 0 <= total /\ 256 * (paid + total) <= 257 * mainnet_anchor t0.
Proof.
  pose proof (timestamp_anchor_range t0 Ht0) as HAm.
  induction bs as [|[t P] bs IH]; intros s tp paid Hp Hb; cbn [paid_until_coinbase].
  - exists 0. pose proof (period_share _ _ _ Hp) as (? & ? & ?). split; [done|lia].
  - apply blocks_after_cons in Hb as (Ht & HP & Hb). destruct (period_step s tp paid t P) as (r & s' & -> & -> & Hr & Hle & Hnext); [done..|].
    cbn [mbind result_bind]. case_decide as Hd; [by exists r|].
    destruct (IH s' t (paid + r)) as (total & -> & Ht0' & Htotal); [apply Hnext; lia|done|].
    cbn [mbind result_bind]. exists (r + total). split; [done|lia].
Qed.
End Period.

(** On the main network, from one block that reaches the coinbase threshold to
    the next, no reward and no target fails, and the coinbase rewards of the blocks
    add up to at most the anchor reward at the start of the period and one part in
    256 of it, whatever the proof targets and times of the blocks; the excess is the
    rise of the target when blocks follow faster than the anchor time. *)
Theorem period_payout (v : Z) (s : TargetState) (bs : list (Z * Z)) :
  1 <= v <= 15 ->
  2 ^ 29 - 1 <= t_coinbase_target s <= u64_max ->
  1725462010 <= t_last_coinbase_timestamp s <= i64_max ->
  t_last_coinbase_target s = t_coinbase_target s -> t_cumulative_proof_target s = 0 ->
  blocks_after (t_last_coinbase_timestamp s) (t_last_coinbase_timestamp s) bs ->
  exists total, paid_until_coinbase v s bs = Ok total /\ 0 <= total /\
    256 * total <= 257 * anchor_block_reward_at_timestamp (t_last_coinbase_timestamp s) 1725462000 1500000000000000 25.
Proof.
  intros Hv HT Ht Hl Hc Hb. destruct (mainnet_anchor_time v Hv) as (a & Hva & Ha).
  destruct (period_bound v a (t_coinbase_target s) (t_last_coinbase_timestamp s) Hva Ha HT Ht bs s (t_last_coinbase_timestamp s) 0)
    as (total & Htotal & H0 & H1); [|done|by exists total].
  pose proof (timestamp_anchor_range _ Ht). split; [done|lia|lia|by right|]. split; [done|]. rewrite Hc. lia.
Qed.

(** ** The limit on the supply *)

(** The supply after blocks that pay staking rewards alone: no coinbase, no fees. *)
Fixpoint staked_supply (h supply : Z) (intervals : list Z) : result Z :=
  match intervals with
  | [] => Ok supply
  | dt :: intervals => r ← block_reward MainnetV0 h (STARTING_SUPPLY MainnetV0) (BLOCK_TIME MainnetV0) dt 0 0;
                       staked_supply (h + 1) (supply + r) intervals
  end.

Lemma staking_share_mono dt dt' : dt <= dt' -> staking_share dt <= staking_share dt'.
Proof. intros H. unfold staking_share. apply Z.div_le_mono; lia. Qed.

Lemma staked_supply_ge d intervals : forall h supply,
  2800000 <= h -> h + len intervals <= 263527685 -> Forall (fun dt => d <= dt) intervals ->
  exists total, staked_supply h supply intervals = Ok total /\ supply + len intervals * staking_share d <= total.
Proof.
  induction intervals as [|dt intervals IH]; intros h supply Hh Hl Hd; cbn [staked_supply].
  - exists supply. split; [done|]. unfold len. cbn. lia.
  - rewrite len_cons in *. pose proof (len_nonneg intervals). apply Forall_cons_1 in Hd as [Hdt Hd].
    change (STARTING_SUPPLY MainnetV0) with 1500000000000000. change (BLOCK_TIME MainnetV0) with 10.
    rewrite mainnet_block_reward by (unfold MAX_COINBASE_REWARD; lia). rewrite decide_False by lia. cbn [mbind result_bind].
    destruct (IH (h + 1) (supply + (staking_share dt + 0 / 3 + 0))) as (total & -> & Ht); [lia..|done|].
    exists total. split; [done|]. pose proof (staking_share_mono _ _ Hdt). change (0 / 3) with 0 in Ht. lia.
Qed.

(** The height at which rewards stop does not bound the supply when blocks are
    six seconds or more apart: the staking rewards of the blocks of the second and
    later consensus versions alone take it over the maximum supply. *)
Theorem supply_exceeds_maximum (intervals : list Z) :
  len intervals = MAX_SUPPLY_LIMIT_HEIGHT MainnetV0 - 2800000 -> Forall (fun dt => 6 <= dt) intervals ->
  exists total, staked_supply 2800000 (STARTING_SUPPLY MainnetV0) intervals = Ok total /\ MAX_SUPPLY MainnetV0 < total.
Proof.
  intros Hl Hd. destruct (staked_supply_ge 6 intervals 2800000 (STARTING_SUPPLY MainnetV0)) as (total & Htot & Hle); [lia| |done|].
  - rewrite Hl. cbn. lia.
  - exists total. split; [done|]. rewrite Hl in Hle. assert (staking_share 6 = 14269406) as Hs by vm_refl. rewrite Hs in Hle. cbn in Hle |- *. lia.
Qed.
End TargetsProps.

(** ** Witnesses *)

Import Targets.

Definition sample_state : TargetState := mk_targets (2 ^ 40) (2 ^ 38 + 1) 0 0 (2 ^ 40) 1800000000.

Lemma sample_in_range t : 1800000000 <= t <= 1800000000 + 2 ^ 31 -> TargetsProps.in_range (2 ^ 40) 1800000000 t 25 (Z.min u32_max (Z.quot 360 2 * 25)).
Proof. intros Ht. change (Z.min u32_max (Z.quot 360 2 * 25)) with 4500. split; mlia. Qed.

(** The target a minute, and two half lives, after a coinbase. *)
Lemma coinbase_target_correct_witness :
  (exists c, coinbase_target (2 ^ 40) 1800000000 1800000060 25 360 (2 ^ 29 - 1) = Ok c /\ 2 ^ 29 - 1 <= c <= u64_max) /\
  coinbase_target (2 ^ 40) 1800000000 1800009025 25 360 (2 ^ 29 - 1) = Ok (2 ^ 38).
Proof.
  split.
  - destruct (TargetsProps.coinbase_target_correct (2 ^ 40) 1800000000 1800000060 25 360 (2 ^ 29 - 1)) as (c & H & Hc & _);
      [apply sample_in_range; lia|mlia|].
    exists c. split; [exact H|exact Hc].
  - destruct (TargetsProps.coinbase_target_correct (2 ^ 40) 1800000000 1800009025 25 360 (2 ^ 29 - 1)) as (c & Hc & _ & _ & _ & H);
      [apply sample_in_range; lia|mlia|]. rewrite Hc, (H 2 ltac:(lia) eq_refl). reflexivity.
Defined.

Lemma block_payment_witness :
  exists c b, coinbase_reward MainnetV0 3000000 1800000000 1725462000 1500000000000000 25 2 10 (2 ^ 38) 0 (2 ^ 40) = Ok c /\
    block_reward MainnetV0 3000000 1500000000000000 10 7 c 1000 = Ok b /\
    b + puzzle_reward c <= 142694063 + c + 1000.
Proof.
  destruct (TargetsProps.block_payment 3000000 1800000000 7 (2 ^ 38) 0 (2 ^ 40) 1000) as (c & b & Hc & Hb & H); [mlia..|].
  rewrite decide_False in H by lia. destruct H as (_ & _ & H). exists c, b. split; [exact Hc|]. split; [exact Hb|exact H].
Defined.

Lemma sample_blocks : TargetsProps.blocks_after 1800000000 1800000000 [(1800000003, 2 ^ 38); (1800000010, 2 ^ 37); (1800000020, 2 ^ 39)].
Proof. split; [by repeat constructor|]. unfold i64_max. repeat constructor; cbn; lia. Qed.

(** The third block reaches the threshold. *)
Lemma period_payout_witness :
  exists total, TargetsProps.paid_until_coinbase 2 sample_state [(1800000003, 2 ^ 38); (1800000010, 2 ^ 37); (1800000020, 2 ^ 39)] = Ok total /\
    256 * total <= 257 * 145289484.
Proof.
  destruct (TargetsProps.period_payout 2 sample_state _ ltac:(lia) ltac:(cbn; mlia) ltac:(cbn; mlia) eq_refl eq_refl sample_blocks) as (total & H & _ & Hle).
  exists total. split; [exact H|]. change (t_last_coinbase_timestamp sample_state) with 1800000000 in Hle.
  assert (anchor_block_reward_at_timestamp 1800000000 1725462000 1500000000000000 25 = 145289484) as Heq by vm_refl.
  rewrite Heq in Hle. exact Hle.
Defined.

Lemma supply_exceeds_maximum_witness :
  exists total, TargetsProps.staked_supply 2800000 (STARTING_SUPPLY MainnetV0) (replicate (Z.to_nat 260727685) 10) = Ok total /\
    MAX_SUPPLY MainnetV0 < total.
Proof.
  apply TargetsProps.supply_exceeds_maximum.
  - unfold len. rewrite length_replicate, Z2Nat.id by lia. reflexivity.
  - apply Forall_replicate. lia.
Defined.
