(* ===== verification/StoreMap.v ===== *)
(** * The maps of the ledger store

    snarkVM/ledger/store/src/helpers: the maps the ledger is kept in, with atomic
    batches.  While a batch is in progress writes are queued and are performed when it
    is finished; confirmed reads do not see the queue, speculative reads do.  The two
    maps of helpers/memory/internal, [MemoryMap] and [NestedMemoryMap], queue their
    writes in the same way ([Module Batch]); the macros [atomic_batch_scope!] and
    [atomic_finalize!] run a block of operations as a batch of its own or as a part of
    the one in progress. *)

From S2P Require Import Prelude.

(** [bincode::serialize] and [unchecked_deserialize] of a type of keys. *)
Class Serialize (K : Type) := {
  serialize : K -> list Z;
  deserialize : list Z -> result K;
}.

(** What the maps rely on: keys are read as they were written, and the bytes of a key
    tell where they end (bincode writes the length of what has no fixed size). *)
Class SerializeLaws (K : Type) `{Serialize K} := {
  deserialize_serialize (k : K) : deserialize (serialize k) = Ok k;
  serialize_prefix (k k' : K) (x y : list Z) : serialize k ++ x = serialize k' ++ y -> k = k';
}.

#[export] Instance serialize_inj `{SerializeLaws K} : Inj (=) (=) (serialize (K := K)).
Proof. intros k k' Heq. apply (serialize_prefix k k' [] []). by rewrite Heq. Qed.

(** ** [BTreeMap] with binary keys *)

(** The lexicographic order of [Vec<u8>]. *)
Fixpoint bytes_leb (x y : list Z) : bool :=
  match x, y with
  | [], _ => true
  | _ :: _, [] => false
  | a :: x, b :: y => bool_decide (a < b) || bool_decide (a = b) && bytes_leb x y
  end.
Definition bytes_le (x y : list Z) : Prop := bytes_leb x y = true.
#[export] Instance bytes_le_dec : RelDecision bytes_le := fun x y => decide (bytes_leb x y = true).

Lemma bytes_le_cons a b x y : bytes_le (a :: x) (b :: y) <-> a < b \/ a = b /\ bytes_le x y.
Proof. unfold bytes_le. cbn. rewrite orb_true_iff, andb_true_iff, !bool_decide_eq_true. done. Qed.

#[export] Instance bytes_le_total : Total bytes_le.
Proof.
  intros x. induction x as [|a x IH]; intros y; [by left|]. destruct y as [|b y]; [by right|].
  rewrite !bytes_le_cons. destruct (IH y); destruct (Z.lt_trichotomy a b) as [|[]]; naive_solver lia.
Qed.
#[export] Instance bytes_le_trans : Transitive bytes_le.
Proof.
  intros x. induction x as [|a x IH]; intros [|b y] [|c z] Hxy Hyz; try done.
  rewrite !bytes_le_cons in *. destruct Hxy as [?|[-> ?]], Hyz as [?|[-> ?]]; [left; lia|by left|by left|]. right. split; [done|by eapply IH].
Qed.

Definition entry_le {V} (p q : list Z * V) : Prop := bytes_le p.1 q.1.
#[export] Instance entry_le_dec {V} : RelDecision (entry_le (V := V)) := fun p q => decide (bytes_le p.1 q.1).
#[export] Instance entry_le_total {V} : Total (entry_le (V := V)).
Proof. intros p q. apply bytes_le_total. Qed.
#[export] Instance entry_le_trans {V} : Transitive (entry_le (V := V)).
Proof. intros p q r. apply bytes_le_trans. Qed.

(** The entries of a [BTreeMap<Vec<u8>, V>] in order. *)
Definition bmap_iter {V} (m : gmap (list Z) V) : list (list Z * V) := merge_sort entry_le (map_to_list m).
(** The elements of a [BTreeSet<Vec<u8>>] in order. *)
Definition bset_iter (s : gset (list Z)) : list (list Z) := merge_sort bytes_le (elements s).

(** ** Atomic batches *)

(** What the queue of writes is used with, in components of several maps: the methods
    of [Map], [NestedMap] and the storage traits that handle batches. *)
Class Atomic (St : Type) := {
  is_atomic_in_progress : St -> bool;
  start_atomic : St -> result St;
  atomic_checkpoint : St -> St;
  clear_latest_checkpoint : St -> St;
  atomic_rewind : St -> St;
  abort_atomic : St -> St;
  finish_atomic : St -> result St;
}.

(** [atomic_batch_scope!]. *)
Definition atomic_batch_scope {St A} `{Atomic St} (ops : SM St A) : SM St A := fun s =>
  let in_progress := is_atomic_in_progress s in
  match (if in_progress then Ok (atomic_checkpoint s) else start_atomic s) with
  | Ok s1 =>
      match ops s1 with
      | (Ok a, s2) =>
          if in_progress then (Ok a, clear_latest_checkpoint s2)
          else match finish_atomic s2 with Ok s3 => (Ok a, s3) | Err e => (Err e, s2) | Panic e => (Panic e, s2) | Deadlock => (Deadlock, s2) end
      | (Err e, s2) => (Err e, if in_progress then atomic_rewind s2 else abort_atomic s2)
      | other => other
      end
  | Err e => (Err e, s)
  | Panic e => (Panic e, s)
  | Deadlock => (Deadlock, s)
  end.

Inductive FinalizeMode := RealRun | DryRun.

(** [atomic_finalize!]. *)
Definition atomic_finalize {St A} `{Atomic St} (mode : FinalizeMode) (ops : SM St A) : SM St A := fun s =>
  if is_atomic_in_progress s then (Err "Cannot start an atomic batch write operation while another one is already in progress.", s) else
  match start_atomic s with
  | Ok s1 =>
      match mode, ops s1 with
      | RealRun, (Ok a, s2) => match finish_atomic s2 with Ok s3 => (Ok a, s3) | Err e => (Err e, s2) | Panic e => (Panic e, s2) | Deadlock => (Deadlock, s2) end
      | RealRun, (Err _, s2) => (Err "Failed to finalize transactions - {error_msg}", abort_atomic s2)
      | DryRun, (Ok a, s2) => (Ok a, abort_atomic s2)
      | DryRun, (Err _, s2) => (Err "Failed to speculate on transactions - {error_msg}", abort_atomic s2)
      | _, other => other
      end
  | Err e => (Err e, s)
  | Panic e => (Panic e, s)
  | Deadlock => (Deadlock, s)
  end.

(** The queue of writes of one map: the fields [batch_in_progress], [atomic_batch] and
    [checkpoint], the last checkpoint first. *)
Module Batch.

Record t (St Op : Type) := mk {
  contents : St;
  in_progress : bool;
  queue : list Op;
  checkpoint : list nat;
}.
Arguments mk {St Op}. Arguments contents {St Op}. Arguments in_progress {St Op}.
Arguments queue {St Op}. Arguments checkpoint {St Op}.

Section Batch.
(** One write, and the queued writes as [finish_atomic] performs them. *)
Context {St Op : Type} (apply : Op -> St -> St) (commit : list Op -> St -> St).

Definition fresh (st : St) : t St Op := mk st false [] [].

(** A write is queued while a batch is in progress, and performed otherwise. *)
Definition write (o : Op) (b : t St Op) : t St Op :=
  if in_progress b then mk (contents b) true (queue b ++ [o]) (checkpoint b)
  else mk (apply o (contents b)) false (queue b) (checkpoint b).

Definition start (b : t St Op) : result (t St Op) :=
  match queue b with
  | [] => Ok (mk (contents b) true [] (checkpoint b))
  | _ => Panic "Cannot start an atomic operation while another one is already in progress"
  end.

Definition set_checkpoint (b : t St Op) : t St Op :=
  mk (contents b) (in_progress b) (queue b) (length (queue b) :: checkpoint b).
Definition clear_checkpoint (b : t St Op) : t St Op :=
  mk (contents b) (in_progress b) (queue b) (tail (checkpoint b)).
Definition rewind (b : t St Op) : t St Op :=
  mk (contents b) (in_progress b) (take (default 0%nat (head (checkpoint b))) (queue b)) (tail (checkpoint b)).
Definition abort (b : t St Op) : t St Op := mk (contents b) false [] [].
Definition finish (b : t St Op) : t St Op := mk (commit (queue b) (contents b)) false [] [].

#[global] Instance batch_atomic : Atomic (t St Op) := {|
  is_atomic_in_progress := in_progress;
  start_atomic := start;
  atomic_checkpoint := set_checkpoint;
  clear_latest_checkpoint := clear_checkpoint;
  atomic_rewind := rewind;
  abort_atomic := abort;
  finish_atomic b := Ok (finish b);
|}.
End Batch.
End Batch.

(** ** [MemoryMap] *)

Module MemoryMap.
Section MemoryMap.
Context {K V : Type} `{EqDecision K, Serialize K}.

(** A queued write: the value of the key, [None] when it is removed. *)
Definition Op : Type := K * option V.
Definition MemoryMap : Type := Batch.t (gmap (list Z) V) Op.

Definition apply (o : Op) (m : gmap (list Z) V) : gmap (list Z) V :=
  match o with
  | (key, Some value) => <[serialize key := value]> m
  | (key, None) => delete (serialize key) m
  end.
(** [finish_atomic] keeps the last write of each key. *)
Definition commit (operations : list Op) (m : gmap (list Z) V) : gmap (list Z) V :=
  foldl (fun m o => apply o m) m (imap_of_list operations).

Definition empty : MemoryMap := Batch.fresh ∅.
Definition from_iter (l : list (K * V)) : MemoryMap := Batch.fresh (foldl (fun m p => <[serialize p.1 := p.2]> m) ∅ l).
Definition insert (key : K) (value : V) (m : MemoryMap) : MemoryMap := Batch.write apply (key, Some value) m.
Definition remove (key : K) (m : MemoryMap) : MemoryMap := Batch.write apply (key, None) m.

(** The last queued write of the key. *)
Definition find_queued (key : K) (queue : list Op) : option (option V) :=
  snd <$> find (fun o => bool_decide (o.1 = key)) (rev queue).

Definition len_confirmed (m : MemoryMap) : Z := Z.of_nat (size (Batch.contents m)).
Definition contains_key_confirmed (key : K) (m : MemoryMap) : bool := bool_decide (is_Some (Batch.contents m !! serialize key)).
Definition contains_key_speculative (key : K) (m : MemoryMap) : bool :=
  match (if Batch.in_progress m then find_queued key (Batch.queue m) else None) with
  | Some value => bool_decide (is_Some value)
  | None => contains_key_confirmed key m
  end.
Definition get_confirmed (key : K) (m : MemoryMap) : option V := Batch.contents m !! serialize key.
Definition get_pending (key : K) (m : MemoryMap) : option (option V) :=
  if Batch.in_progress m then find_queued key (Batch.queue m) else None.
Definition get_speculative (key : K) (m : MemoryMap) : option V :=
  match get_pending key m with Some value => value | None => get_confirmed key m end.
Definition iter_pending (m : MemoryMap) : list (K * option V) := imap_of_list (Batch.queue m).

(** [unchecked_deserialize(&k).unwrap()]. *)
Definition read_key (k : list Z) : result K :=
  match deserialize k with Ok key => Ok key | _ => Panic "called `Result::unwrap()` on an `Err` value" end.
Definition iter_confirmed (m : MemoryMap) : result (list (K * V)) :=
  mapM (fun p => key ← read_key p.1; Ok (key, p.2)) (bmap_iter (Batch.contents m)).
Definition keys_confirmed (m : MemoryMap) : result (list K) := mapM read_key (bmap_iter (Batch.contents m)).*1.
Definition values_confirmed (m : MemoryMap) : list V := (bmap_iter (Batch.contents m)).*2.

#[global] Instance memory_map_atomic : Atomic MemoryMap := Batch.batch_atomic commit.
End MemoryMap.
Arguments MemoryMap : clear implicits.
End MemoryMap.

(** ** [NestedMemoryMap] *)

Module NestedMap.
Section NestedMap.
Context {M K V : Type} `{EqDecision M, Serialize M, EqDecision K, Serialize K}.

(** A queued write, as the three forms of triples that are queued: [(m, Some k, Some v)],
    [(m, None, None)] and [(m, Some k, None)]. *)
Inductive Op :=
| InsertOp (m : M) (k : K) (v : V)
| RemoveMapOp (m : M)
| RemoveKeyOp (m : M) (k : K).
Definition op_map (o : Op) : M := match o with InsertOp m _ _ | RemoveMapOp m | RemoveKeyOp m _ => m end.

(** The fields [map] (map to keys) and [map_inner] (map and key to value). *)
Record Contents := mk_contents {
  map : gmap (list Z) (gset (list Z));
  map_inner : gmap (list Z) V;
}.
Definition NestedMemoryMap : Type := Batch.t Contents Op.

Definition to_map_key (m k : list Z) : list Z := m ++ [0] ++ k.

Definition insert_ (m : M) (k : K) (v : V) (c : Contents) : Contents :=
  let m := serialize m in let k := serialize k in
  mk_contents (<[m := {[k]} ∪ default ∅ (map c !! m)]> (map c)) (<[to_map_key m k := v]> (map_inner c)).
Definition remove_map_ (m : M) (c : Contents) : Contents :=
  let m := serialize m in
  match map c !! m with
  | Some keys => mk_contents (delete m (map c)) (foldl (fun inner k => delete (to_map_key m k) inner) (map_inner c) (bset_iter keys))
  | None => c
  end.
Definition remove_key_ (m : M) (k : K) (c : Contents) : Contents :=
  let m := serialize m in let k := serialize k in
  mk_contents (<[m := default ∅ (map c !! m) ∖ {[k]}]> (map c)) (delete (to_map_key m k) (map_inner c)).

Definition apply (o : Op) : Contents -> Contents :=
  match o with
  | InsertOp m k v => insert_ m k v
  | RemoveMapOp m => remove_map_ m
  | RemoveKeyOp m k => remove_key_ m k
  end.
Definition commit (operations : list Op) (c : Contents) : Contents := foldl (fun c o => apply o c) c operations.

Definition empty : NestedMemoryMap := Batch.fresh (mk_contents ∅ ∅).
Definition from_iter (l : list (M * K * V)) : NestedMemoryMap :=
  Batch.fresh (foldl (fun c p => insert_ p.1.1 p.1.2 p.2 c) (mk_contents ∅ ∅) l).
Definition insert (m : M) (k : K) (v : V) (s : NestedMemoryMap) : NestedMemoryMap := Batch.write apply (InsertOp m k v) s.
Definition remove_map (m : M) (s : NestedMemoryMap) : NestedMemoryMap := Batch.write apply (RemoveMapOp m) s.
Definition remove_key (m : M) (k : K) (s : NestedMemoryMap) : NestedMemoryMap := Batch.write apply (RemoveKeyOp m k) s.

Definition len_map_confirmed (m : M) (s : NestedMemoryMap) : Z :=
  Z.of_nat (default 0%nat (size <$> map (Batch.contents s) !! serialize m)).
Definition get_value_confirmed (m : M) (k : K) (s : NestedMemoryMap) : option V :=
  map_inner (Batch.contents s) !! to_map_key (serialize m) (serialize k).
Definition contains_key_confirmed (m : M) (k : K) (s : NestedMemoryMap) : bool :=
  bool_decide (is_Some (map_inner (Batch.contents s) !! to_map_key (serialize m) (serialize k))).

(** The queue from its end: the first write that concerns the key. *)
Fixpoint find_queued (m : M) (k : K) (queue : list Op) : option (option V) :=
  match queue with
  | [] => None
  | o :: queue =>
      if decide (op_map o = m) then
        match o with
        | RemoveMapOp _ => Some None
        | InsertOp _ k' v => if decide (k' = k) then Some (Some v) else find_queued m k queue
        | RemoveKeyOp _ k' => if decide (k' = k) then Some None else find_queued m k queue
        end
      else find_queued m k queue
  end.
Definition contains_key_speculative (m : M) (k : K) (s : NestedMemoryMap) : bool :=
  match (if Batch.in_progress s then find_queued m k (rev (Batch.queue s)) else None) with
  | Some value => bool_decide (is_Some value)
  | None => contains_key_confirmed m k s
  end.
Definition get_value_pending (m : M) (k : K) (s : NestedMemoryMap) : option (option V) :=
  if Batch.in_progress s then find_queued m k (rev (Batch.queue s)) else None.
Definition get_value_speculative (m : M) (k : K) (s : NestedMemoryMap) : option V :=
  match get_value_pending m k s with Some value => value | None => get_value_confirmed m k s end.

Definition read_key (k : list Z) : result K :=
  match deserialize k with Ok key => Ok key | _ => Panic "called `Result::unwrap()` on an `Err` value" end.
Definition get_map_confirmed (m : M) (s : NestedMemoryMap) : result (list (K * V)) :=
  let m := serialize m in
  match map (Batch.contents s) !! m with
  | None => Ok []
  | Some keys =>
      mapM (fun k => key ← read_key k;
                     value ← unwrap "called `Option::unwrap()` on a `None` value" (map_inner (Batch.contents s) !! to_map_key m k);
                     Ok (key, value)) (bset_iter keys)
  end.
(** One queued write of the map, on the list of its entries. *)
Definition apply_to_entries (o : Op) (key_values : list (K * V)) : list (K * V) :=
  match o with
  | InsertOp _ k v => imap_insert k v key_values
  | RemoveMapOp _ => []
  | RemoveKeyOp _ k => base.filter (fun p => p.1 <> k) key_values
  end.
Definition get_map_speculative (m : M) (s : NestedMemoryMap) : result (list (K * V)) :=
  key_values ← get_map_confirmed m s;
  Ok (if Batch.in_progress s then foldl (fun l o => if decide (op_map o = m) then apply_to_entries o l else l) key_values (Batch.queue s)
      else key_values).

#[global] Instance nested_map_atomic : Atomic NestedMemoryMap := Batch.batch_atomic commit.
End NestedMap.
Arguments NestedMemoryMap : clear implicits. Arguments Op : clear implicits. Arguments Contents : clear implicits.
End NestedMap.
