(* ===== verification/StoreMapProps.v ===== *)
(** * The maps of the ledger store refine a transactional map

    The specification is a map with a committed version and, while a batch is in
    progress, a working version and the versions of the checkpoints ([Module Txn]).
    The queue of writes of both memory maps implements it: confirmed reads see the
    committed version and speculative reads the working one. *)

From S2P Require Import Prelude StoreMap.

Lemma imap_get_app `{EqDecision K} {V} (k : K) (l1 l2 : list (K * V)) :
  imap_get k (l1 ++ l2) = match imap_get k l1 with Some v => Some v | None => imap_get k l2 end.
Proof. induction l1 as [|[k1 v1] l1 IH]; [done|]. cbn. by case_decide. Qed.

(** A list read from the images of its elements. *)
Lemma mapM_fmap_Ok {A B} (f : A -> result B) (g : B -> A) (l : list B) :
  (forall x, x ∈ l -> f (g x) = Ok x) -> mapM f (g <$> l) = Ok l.
Proof.
  induction l as [|x l IH]; intros H; [done|]. cbn. rewrite (H x (list_elem_of_here _ _)). cbn [mbind result_bind].
  rewrite IH; [done|]. intros y Hy. apply H. by right.
Qed.

Lemma StronglySorted_fmap_inv {A B} (f : A -> B) (R : B -> B -> Prop) (l : list A) :
  StronglySorted R (f <$> l) -> StronglySorted (fun x y => R (f x) (f y)) l.
Proof.
  induction l as [|x l IH]; intros H; [constructor|]. apply StronglySorted_inv in H as [H1 H2].
  constructor; [by apply IH|]. change (Forall (R (f x)) (f <$> l)) in H2. by rewrite Forall_fmap in H2.
Qed.

(** ** The specification *)

Module Txn.

Record t (A : Type) := mk {
  committed : A;
  (** The working version and those of the checkpoints, the last one first. *)
  working : option (A * list A);
}.
Arguments mk {A}. Arguments committed {A}. Arguments working {A}.

(** The operations of the [Map] traits, [Write] for those that write. *)
Inductive op (Op : Type) := Write (o : Op) | Start | Checkpoint | Clear | Rewind | Abort | Finish.
Arguments Write {Op}. Arguments Start {Op}. Arguments Checkpoint {Op}. Arguments Clear {Op}.
Arguments Rewind {Op}. Arguments Abort {Op}. Arguments Finish {Op}.

Section Txn.
Context {A Op : Type} (apply : Op -> A -> A).

Definition current (s : t A) : A := from_option fst (committed s) (working s).

Definition exec (o : op Op) (s : t A) : t A :=
  match o, working s with
  | Write o, None => mk (apply o (committed s)) None
  | Write o, Some (w, saved) => mk (committed s) (Some (apply o w, saved))
  | Start, _ => mk (committed s) (Some (committed s, []))
  | Checkpoint, Some (w, saved) => mk (committed s) (Some (w, w :: saved))
  | Clear, Some (w, saved) => mk (committed s) (Some (w, tail saved))
  | Rewind, Some (w, saved) => mk (committed s) (Some (default (committed s) (head saved), tail saved))
  | Abort, _ => mk (committed s) None
  | Finish, _ => mk (current s) None
  | _, None => s
  end.

(** A batch is started when none is in progress; checkpoints belong to a batch. *)
Definition allowed (o : op Op) (s : t A) : bool :=
  match o, working s with
  | Start, Some _ => false
  | (Checkpoint | Clear | Rewind), None => false
  | _, _ => true
  end.

Fixpoint run (s : t A) (ops : list (op Op)) : option (t A) :=
  match ops with
  | [] => Some s
  | o :: ops => if allowed o s then run (exec o s) ops else None
  end.
End Txn.
End Txn.

(** ** The queue of writes *)

Module BatchProps.
Import Txn.

(** The same operation on a queue of writes. *)
Definition bexec {St Op} (apply : Op -> St -> St) (commit : list Op -> St -> St) (o : op Op) (b : Batch.t St Op) : result (Batch.t St Op) :=
  match o with
  | Write o => Ok (Batch.write apply o b)
  | Start => Batch.start b
  | Checkpoint => Ok (Batch.set_checkpoint b)
  | Clear => Ok (Batch.clear_checkpoint b)
  | Rewind => Ok (Batch.rewind b)
  | Abort => Ok (Batch.abort b)
  | Finish => Ok (Batch.finish commit b)
  end.

Section Refinement.
Context {St Op A : Type} (apply : Op -> St -> St) (commit : list Op -> St -> St) (applyA : Op -> A -> A).
Context (R : St -> A -> Prop).
Context (apply_R : forall o st a, R st a -> R (apply o st) (applyA o a)).

Definition replay (a : A) (ops : list Op) : A := foldl (fun a o => applyA o a) a ops.
Context (commit_R : forall ops st a, R st a -> R (commit ops st) (replay a ops)).

Record batch_rel (b : Batch.t St Op) (s : t A) : Prop := {
  rel_committed : R (Batch.contents b) (committed s);
  rel_working :
    match working s with
    | None => Batch.in_progress b = false /\ Batch.queue b = [] /\ Batch.checkpoint b = []
    | Some (w, saved) =>
        Batch.in_progress b = true /\ w = replay (committed s) (Batch.queue b) /\
        saved = (fun n => replay (committed s) (take n (Batch.queue b))) <$> Batch.checkpoint b /\
        StronglySorted ge (length (Batch.queue b) :: Batch.checkpoint b)
    end;
}.

Lemma replay_snoc a ops o : replay a (ops ++ [o]) = applyA o (replay a ops).
Proof. unfold replay. by rewrite foldl_snoc. Qed.

Lemma checkpoints_below {n cs} : StronglySorted ge (n :: cs) -> forall c, c ∈ cs -> (c <= n)%nat.
Proof. intros H c Hc. apply StronglySorted_inv in H as [_ H]. rewrite Forall_forall in H. by apply H. Qed.

(** The checkpoints keep their versions when the queue is only changed after them. *)
Lemma saved_ext a q q' (cs : list nat) :
  (forall c, c ∈ cs -> take c q = take c q') -> (fun n => replay a (take n q)) <$> cs = (fun n => replay a (take n q')) <$> cs.
Proof. intros H. apply list_fmap_ext. intros i c Hc. f_equal. apply H. by eapply list_elem_of_lookup_2. Qed.

Lemma sorted_longer (n m : nat) cs : (n <= m)%nat -> StronglySorted ge (n :: cs) -> StronglySorted ge (m :: cs).
Proof.
  intros Hle H. apply StronglySorted_inv in H as [H1 H2]. constructor; [done|].
  eapply Forall_impl; [exact H2|]. cbn. lia.
Qed.

Lemma batch_step o b s : batch_rel b s -> allowed o s = true -> exists b', bexec apply commit o b = Ok b' /\ batch_rel b' (exec applyA o s).
Proof.
  intros [Hc Hw] Ha. destruct s as [a [[w saved]|]]; cbn [committed working] in *; destruct o as [o| | | | | |]; try done.
  - destruct Hw as (Hp & -> & -> & Hs). cbn. unfold Batch.write. rewrite Hp. eexists. split; [done|]. split; cbn; [done|].
    rewrite replay_snoc. split_and!; [done|done| |].
    + apply saved_ext. intros c Hcs. apply (checkpoints_below Hs) in Hcs. by rewrite take_app_le.
    + eapply sorted_longer; [|exact Hs]. rewrite length_app. lia.
  - destruct Hw as (Hp & -> & -> & Hs). eexists. split; [done|]. split; cbn; [done|]. rewrite firstn_all.
    split_and!; [done..|]. constructor; [done|]. apply Forall_cons. split; [lia|]. by apply StronglySorted_inv in Hs as [_ Hs].
  - destruct Hw as (Hp & -> & -> & Hs). eexists. split; [done|]. split; cbn; [done|]. 
    destruct (Batch.checkpoint b) as [|c cs]; cbn; split_and!; try done.
    apply StronglySorted_inv in Hs as [Hs1 Hs2]. apply StronglySorted_inv in Hs1 as [Hs1 _]. apply Forall_cons in Hs2 as [_ Hs2]. by constructor.
  - destruct Hw as (Hp & -> & -> & Hs). eexists. split; [done|]. split; cbn; [done|].
    destruct (Batch.checkpoint b) as [|c cs]; cbn.
    + split_and!; [done..|]. by repeat constructor.
    + pose proof (checkpoints_below Hs c (list_elem_of_here _ _)) as Hle. apply StronglySorted_inv in Hs as [Hs _]. split_and!; [done..| |].
      * apply saved_ext. intros c' Hc'. rewrite take_take. f_equal. apply (checkpoints_below Hs) in Hc'. lia.
      * rewrite length_take. by replace (c `min` length (Batch.queue b))%nat with c by lia.
  - eexists. split; [done|]. by split.
  - destruct Hw as (Hp & -> & -> & Hs). eexists. split; [done|]. split; cbn; [by apply commit_R|done].
  - destruct Hw as (Hp & Hq & Hcp). cbn. unfold Batch.write. rewrite Hp. eexists. split; [done|]. split; cbn; [by apply apply_R|done].
  - destruct Hw as (Hp & Hq & Hcp). cbn. unfold Batch.start. rewrite Hq. eexists. split; [done|]. split; cbn; [done|]. rewrite Hcp. split_and!; [done..|]. by repeat constructor.
  - eexists. split; [done|]. by split.
  - destruct Hw as (Hp & Hq & Hcp). eexists. split; [done|]. split; cbn; [|done]. rewrite Hq. by apply (commit_R []).
Qed.

Lemma batch_run ops b s s' :
  batch_rel b s -> run applyA s ops = Some s' -> exists b', foldM (fun b o => bexec apply commit o b) b ops = Ok b' /\ batch_rel b' s'.
Proof.
  revert b s. induction ops as [|o ops IH]; intros b s Hr H; cbn in H |- *; [simplify_eq; by eexists|].
  destruct (allowed o s) eqn:Ha; [|done]. destruct (batch_step o b s Hr Ha) as (b1 & -> & Hr1). by eapply IH.
Qed.

Lemma fresh_rel st a : R st a -> batch_rel (Batch.fresh st) (mk a None).
Proof. intros H. by split. Qed.
End Refinement.
End BatchProps.

(** ** [MemoryMap] *)

Module MemoryMapProps.
Import Txn MemoryMap BatchProps.

Section MemoryMap.
Context {K V : Type} `{Countable K} `{!Serialize K, !SerializeLaws K}.

Definition applyA (o : Op (K := K) (V := V)) (a : gmap K V) : gmap K V :=
  match o with (k, Some v) => <[k := v]> a | (k, None) => delete k a end.

(** The bytes of the keys stand for the keys. *)
Definition contents_rel (m : gmap (list Z) V) (a : gmap K V) : Prop := m = kmap serialize a.

Lemma apply_rel o m a : contents_rel m a -> contents_rel (apply o m) (applyA o a).
Proof.
  intros ->. unfold contents_rel. destruct o as [k [v|]]; cbn; [by rewrite kmap_insert by apply _|by rewrite kmap_delete by apply _].
Qed.

(** The value of a key after a list of writes: that of the last one for it. *)
Lemma replay_lookup ops a k : replay applyA a ops !! k = match find_queued k ops with Some o => o | None => a !! k end.
Proof.
  unfold find_queued. induction ops as [|[k' o] ops IH] using rev_ind; [done|]. rewrite replay_snoc, rev_app_distr. cbn.
  case_bool_decide as Hk; cbn.
  - subst. destruct o; cbn; [by rewrite lookup_insert_eq|by rewrite lookup_delete_eq].
  - rewrite <-IH. destruct o; cbn; [by rewrite lookup_insert_ne|by rewrite lookup_delete_ne].
Qed.

Lemma find_queued_snoc (k : K) (ops : list (K * option V)) k' o : find_queued k (ops ++ [(k', o)]) = if decide (k' = k) then Some o else find_queued k ops.
Proof. unfold find_queued. rewrite rev_app_distr. cbn. case_bool_decide; case_decide; done. Qed.

(** Keeping the last write of each key does not change what is written. *)
Lemma find_queued_NoDup (k : K) (l : list (K * option V)) : NoDup l.*1 -> find_queued k l = imap_get k l.
Proof.
  induction l as [|[k' o] l IH] using rev_ind; [done|]. rewrite fmap_app, NoDup_app. intros (Hnd & Hni & _).
  rewrite find_queued_snoc, (IH Hnd), imap_get_app. cbn. destruct (imap_get k l) as [o'|] eqn:Hg; [|by repeat case_decide].
  case_decide; [|done]. subst. apply imap_get_elem in Hg. exfalso. apply (Hni k); [by apply (list_elem_of_fmap_2 fst) in Hg|]. cbn. by left.
Qed.

Lemma imap_of_list_snoc (l : list (K * option V)) p : imap_of_list (l ++ [p]) = imap_insert p.1 p.2 (imap_of_list l).
Proof. unfold imap_of_list. by rewrite foldl_snoc. Qed.

Lemma find_queued_dedup (k : K) (ops : list (K * option V)) : find_queued k (imap_of_list ops) = find_queued k ops.
Proof.
  rewrite find_queued_NoDup by apply imap_of_list_NoDup. induction ops as [|[k' o] ops IH] using rev_ind; [done|].
  rewrite imap_of_list_snoc, find_queued_snoc, imap_get_insert, IH. cbn. repeat case_decide; naive_solver.
Qed.

Lemma commit_rel ops m a : contents_rel m a -> contents_rel (commit ops m) (replay applyA a ops).
Proof.
  intros Hr. unfold commit. assert (replay applyA a ops = replay applyA a (imap_of_list ops)) as ->.
  { apply map_eq. intros k. by rewrite !replay_lookup, find_queued_dedup. }
  generalize (imap_of_list ops). intros l. induction l as [|o l IH] using rev_ind; [done|]. rewrite foldl_snoc, replay_snoc. by apply apply_rel.
Qed.

Lemma contents_lookup m a k : contents_rel m a -> m !! serialize k = a !! k.
Proof. intros ->. by rewrite lookup_kmap by apply _. Qed.

(** What reads of the map see: the two versions of the specification. *)
Record reads_as (b : MemoryMap K V) (s : t (gmap K V)) : Prop := {
  as_confirmed k : get_confirmed k b = committed s !! k;
  as_speculative k : get_speculative k b = current s !! k;
  as_contains k : contains_key_confirmed k b = bool_decide (k ∈ dom (committed s));
  as_contains_speculative k : contains_key_speculative k b = bool_decide (k ∈ dom (current s));
  as_len : len_confirmed b = Z.of_nat (size (committed s));
  as_iter : exists l, iter_confirmed b = Ok l /\ l ≡ₚ map_to_list (committed s) /\ StronglySorted (fun p q => bytes_le (serialize p.1) (serialize q.1)) l;
}.

Lemma iter_rel m a :
  contents_rel m a -> exists l, bmap_iter m = (fun p => (serialize p.1, p.2)) <$> l /\ l ≡ₚ map_to_list a.
Proof.
  intros ->. assert (bmap_iter (kmap serialize a) ≡ₚ (fun p => (serialize p.1, p.2)) <$> map_to_list a) as Hp.
  { unfold bmap_iter. rewrite merge_sort_Permutation, (map_to_list_kmap serialize a). apply Permutation_refl', list_fmap_ext. by intros ? []. }
  apply Permutation_map_inv in Hp as (l & Hl & Hperm). by exists l.
Qed.

Lemma rel_reads b s : batch_rel applyA contents_rel b s -> reads_as b s.
Proof.
  intros [Hc Hw]. assert (forall k, get_confirmed k b = committed s !! k) as H1 by (intros k; by apply contents_lookup).
  assert (forall k, get_speculative k b = current s !! k) as H2.
  { intros k. unfold get_speculative, get_pending, current. destruct (working s) as [[w saved]|]; cbn.
    - destruct Hw as (-> & -> & _). by rewrite replay_lookup, H1.
    - destruct Hw as (-> & _). apply H1. }
  assert (forall k, contains_key_confirmed k b = bool_decide (k ∈ dom (committed s))) as H3.
  { intros k. unfold contains_key_confirmed. apply bool_decide_ext. rewrite elem_of_dom, <-H1. done. }
  split; [done..| | |].
  - intros k. transitivity (bool_decide (is_Some (get_speculative k b))).
    + unfold contains_key_speculative, get_speculative, get_pending. by destruct (if Batch.in_progress b then _ else _).
    + apply bool_decide_ext. by rewrite elem_of_dom, H2.
  - unfold len_confirmed. rewrite Hc. f_equal. rewrite <-!length_map_to_list, (map_to_list_kmap serialize). apply length_fmap.
  - destruct (iter_rel _ _ Hc) as (l & Hl & Hp). exists l. unfold iter_confirmed. rewrite Hl. split_and!; [|done|].
    + apply mapM_fmap_Ok. intros [k v] _. unfold read_key. cbn. by rewrite deserialize_serialize.
    + apply (StronglySorted_fmap_inv (fun p : K * V => (serialize p.1, p.2)) entry_le). rewrite <-Hl. apply StronglySorted_merge_sort; apply _.
Qed.

(** A [MemoryMap] refines a transactional map: whatever writes, batches,
    checkpoints and rewinds it went through, confirmed reads give what was committed,
    speculative reads what finishing the batch would commit, and the entries are
    listed in the order of their bytes. *)
Theorem memory_map_refines (ops : list (op (Op (K := K) (V := V)))) (s : t (gmap K V)) :
  run applyA (mk ∅ None) ops = Some s ->
  exists b, foldM (fun b o => bexec apply commit o b) empty ops = Ok b /\ reads_as b s.
Proof.
  intros Hrun. assert (contents_rel ∅ ∅) as Hinit by (unfold contents_rel; by rewrite kmap_empty).
  destruct (batch_run apply commit applyA contents_rel apply_rel commit_rel ops (Batch.fresh ∅) _ s (fresh_rel _ _ _ _ Hinit) Hrun) as (b & Hb & Hr).
  exists b. split; [exact Hb|by apply rel_reads].
Qed.
End MemoryMap.
End MemoryMapProps.

(** ** [NestedMemoryMap] *)

Module NestedMapProps.
Import Txn NestedMap BatchProps.

Section NestedMap.
Context {M K V : Type} `{Countable M} `{!Serialize M, !SerializeLaws M} `{Countable K} `{!Serialize K, !SerializeLaws K}.
Implicit Types (m : M) (k : K) (a : gmap (M * K) V) (c : Contents V).

Definition applyA (o : Op M K V) (a : gmap (M * K) V) : gmap (M * K) V :=
  match o with
  | InsertOp m k v => <[(m, k) := v]> a
  | RemoveMapOp m => base.filter (fun p => p.1.1 <> m) a
  | RemoveKeyOp m k => delete (m, k) a
  end.

(** The key of [map_inner]. *)
Definition bytes_of (p : M * K) : list Z := to_map_key (serialize p.1) (serialize p.2).
#[global] Instance bytes_of_inj : Inj (=) (=) bytes_of.
Proof.
  intros [m k] [m' k'] Heq. unfold bytes_of, to_map_key in Heq. cbn in Heq. pose proof (serialize_prefix _ _ _ _ Heq) as ->.
  apply app_inv_head in Heq. injection Heq as Heq. by apply (inj serialize) in Heq as ->.
Qed.

Record contents_rel (c : Contents V) (a : gmap (M * K) V) : Prop := {
  rel_inner : map_inner c = kmap bytes_of a;
  rel_keys m kb : kb ∈ default ∅ (map c !! serialize m) <-> exists k, kb = serialize k /\ is_Some (a !! (m, k));
}.

Lemma lookup_map_insert c m keys m' :
  <[serialize m := keys]> (map c) !! serialize m' = if decide (m = m') then Some keys else map c !! serialize m'.
Proof. case_decide as Hm; [subst; apply lookup_insert_eq|]. apply lookup_insert_ne. by intros ?%(inj serialize). Qed.

Lemma insert_rel m k v c a : contents_rel c a -> contents_rel (insert_ m k v c) (<[(m, k) := v]> a).
Proof.
  intros [Hi Hk]. split; cbn.
  - rewrite Hi. by rewrite (kmap_insert bytes_of).
  - intros m' kb. rewrite lookup_map_insert. case_decide as Hm; cbn; [subst m'|].
    + rewrite elem_of_union, elem_of_singleton, Hk. split.
      * intros [->|(k' & -> & Hs)]; [exists k; by rewrite lookup_insert_eq|]. exists k'. split; [done|]. rewrite lookup_insert_is_Some'. by right.
      * intros (k' & -> & [Heq|Hs]%lookup_insert_is_Some'); [left; congruence|right; eauto].
    + rewrite Hk. f_equiv. intros k'. rewrite lookup_insert_ne; [done|congruence].
Qed.

Lemma remove_key_rel m k c a : contents_rel c a -> contents_rel (remove_key_ m k c) (delete (m, k) a).
Proof.
  intros [Hi Hk]. split; cbn.
  - rewrite Hi. by rewrite (kmap_delete bytes_of).
  - intros m' kb. rewrite lookup_map_insert. case_decide as Hm; cbn; [subst m'|].
    + rewrite elem_of_difference, elem_of_singleton, Hk. split.
      * intros [(k' & -> & Hs) Hne]. exists k'. rewrite lookup_delete_ne; [done|congruence].
      * intros (k' & -> & [Hne Hs]%lookup_delete_is_Some). split; [eauto|]. intros ->%(inj serialize). done.
    + rewrite Hk. f_equiv. intros k'. rewrite lookup_delete_ne; [done|congruence].
Qed.

(** The keys of a map, in the order of their bytes. *)
Lemma keys_listed c a m : contents_rel c a ->
  exists ks, bset_iter (default ∅ (map c !! serialize m)) = serialize <$> ks /\ NoDup ks /\ forall k, k ∈ ks <-> is_Some (a !! (m, k)).
Proof.
  intros [_ Hk]. specialize (Hk m). set (keys := default ∅ (map c !! serialize m)) in *.
  assert (forall kb, kb ∈ bset_iter keys <-> kb ∈ keys) as Hin.
  { intros kb. unfold bset_iter. by rewrite merge_sort_Permutation, elem_of_elements. }
  assert (NoDup (bset_iter keys)) as Hnd by (unfold bset_iter; rewrite merge_sort_Permutation; apply NoDup_elements).
  assert (exists ks, bset_iter keys = serialize <$> ks) as [ks Hks].
  { clear Hnd. assert (forall kb, kb ∈ bset_iter keys -> exists k, kb = serialize k) as Himg by naive_solver.
    clear -Himg. induction (bset_iter keys) as [|kb l IH]; [by exists []|]. destruct (Himg kb) as [k ->]; [by left|].
    destruct IH as [ks ->]; [intros; apply Himg; by right|]. by exists (k :: ks). }
  exists ks. rewrite Hks in *. split; [done|]. split; [by apply NoDup_fmap_1 in Hnd|]. intros k. rewrite <-(list_elem_of_fmap_inj serialize), Hin, Hk.
  split; [|eauto]. by intros (k' & ->%(inj serialize) & ?).
Qed.

Lemma deletes_rel m ks a :
  foldl (fun (inner : gmap (list Z) V) kb => delete (to_map_key (serialize m) kb) inner) (kmap bytes_of a) (serialize <$> ks) =
  kmap bytes_of (foldl (fun a k => delete (m, k) a) a ks).
Proof. revert a. induction ks as [|k ks IH]; intros a; [done|]. cbn. rewrite <-IH. f_equal. by rewrite (kmap_delete bytes_of). Qed.

Lemma deletes_lookup m ks a p : foldl (fun a k => delete (m, k) a) a ks !! p = if decide (p.1 = m /\ p.2 ∈ ks) then None else a !! p.
Proof.
  revert a. induction ks as [|k ks IH]; intros a; cbn.
  - case_decide as Hd; [|done]. destruct Hd as [_ Hd]. by apply not_elem_of_nil in Hd.
  - rewrite IH. destruct (decide (p = (m, k))) as [->|Hne]; cbn.
    + rewrite lookup_delete_eq. transitivity (@None V); [by repeat case_decide|]. rewrite decide_True; [done|]. split; [done|by left].
    + rewrite lookup_delete_ne by congruence. apply decide_ext. rewrite elem_of_cons. destruct p. cbn in *. naive_solver.
Qed.

Lemma remove_map_rel m c a : contents_rel c a -> contents_rel (remove_map_ m c) (base.filter (fun p => p.1.1 <> m) a).
Proof.
  intros Hr. destruct (keys_listed c a m Hr) as (ks & Hks & _ & Hin). pose proof Hr as [Hi Hk].
  assert (base.filter (fun p => p.1.1 <> m) a = foldl (fun a k => delete (m, k) a) a ks) as Heq.
  { apply map_eq. intros [m' k]. rewrite deletes_lookup. cbn. apply option_eq. intros v. rewrite map_lookup_filter_Some. cbn.
    case_decide as Hd; [destruct Hd as [-> _]; naive_solver|]. split; [by intros []|]. intros Ha. split; [done|].
    intros ->. apply Hd. split; [done|]. apply Hin. by eexists. }
  unfold remove_map_. destruct (map c !! serialize m) as [keys|] eqn:Hm; cbn in Hks.
  - split; cbn; [by rewrite Hi, Hks, deletes_rel, Heq|]. intros m' kb. destruct (decide (m = m')) as [<-|Hne].
    + rewrite lookup_delete_eq. cbn. split; [by intros ?%not_elem_of_empty|]. intros (k & _ & [v Hv]). apply map_lookup_filter_Some in Hv as [_ Hv]. by destruct Hv.
    + rewrite lookup_delete_ne by (by intros ?%(inj serialize)). rewrite Hk. f_equiv. intros k.
      assert (base.filter (fun p => p.1.1 <> m) a !! (m', k) = a !! (m', k)) as ->; [|done].
      apply option_eq. intros v. rewrite map_lookup_filter_Some. cbn. naive_solver.
  - assert (ks = []) as -> by (symmetry in Hks; by apply fmap_nil_inv in Hks). by rewrite Heq.
Qed.

Lemma nested_apply_rel o c a : contents_rel c a -> contents_rel (apply o c) (applyA o a).
Proof. destruct o; [apply insert_rel|apply remove_map_rel|apply remove_key_rel]. Qed.

Lemma nested_commit_rel ops c a : contents_rel c a -> contents_rel (commit ops c) (replay applyA a ops).
Proof.
  intros Hr. unfold commit. induction ops as [|o ops IH] using rev_ind; [done|]. rewrite foldl_snoc, replay_snoc. by apply nested_apply_rel.
Qed.

Lemma nested_contents_lookup c a m k : contents_rel c a -> map_inner c !! to_map_key (serialize m) (serialize k) = a !! (m, k).
Proof. intros [-> _]. apply (lookup_kmap bytes_of a (m, k)). Qed.

(** The value of a key after a list of writes: that of the last one that concerns it. *)
Lemma nested_replay_lookup ops a m k : replay applyA a ops !! (m, k) = match find_queued m k (rev ops) with Some o => o | None => a !! (m, k) end.
Proof.
  induction ops as [|o ops IH] using rev_ind; [done|]. rewrite replay_snoc, rev_app_distr. cbn.
  destruct o as [m' k' v|m'|m' k']; cbn; case_decide as Hm; try subst m'.
  - case_decide; [subst; apply lookup_insert_eq|]. by rewrite lookup_insert_ne by congruence.
  - by rewrite lookup_insert_ne by congruence.
  - apply option_eq. intros v. rewrite map_lookup_filter_Some. cbn. naive_solver.
  - rewrite <-IH. apply option_eq. intros v. rewrite map_lookup_filter_Some. cbn. naive_solver.
  - case_decide; [subst; apply lookup_delete_eq|]. by rewrite lookup_delete_ne by congruence.
  - by rewrite lookup_delete_ne by congruence.
Qed.

(** The entries of one map of the specification. *)
Definition lists (m : M) (a : gmap (M * K) V) (l : list (K * V)) : Prop :=
  NoDup l.*1 /\ forall k v, (k, v) ∈ l <-> a !! (m, k) = Some v.

Lemma get_map_listed b a m : contents_rel (Batch.contents b) a -> exists l, get_map_confirmed m b = Ok l /\ lists m a l.
Proof.
  intros Hr. destruct (keys_listed _ a m Hr) as (ks & Hks & Hnd & Hin). unfold get_map_confirmed.
  destruct (map (Batch.contents b) !! serialize m) as [keys|] eqn:Hm; cbn in Hks.
  - assert (exists l, l.*1 = ks /\ forall k v, (k, v) ∈ l -> a !! (m, k) = Some v) as (l & <- & Hl).
    { clear -Hin. assert (forall k, k ∈ ks -> is_Some (a !! (m, k))) as Hs by naive_solver. clear Hin. induction ks as [|k ks IH].
      - exists []. split; [done|]. by intros ? ? ?%not_elem_of_nil.
      - destruct (Hs k) as [v Hv]; [by left|]. destruct IH as (l & <- & Hl); [intros; apply Hs; by right|]. exists ((k, v) :: l).
        split; [done|]. intros k' v' [[= -> ->]|?]%elem_of_cons; auto. }
    exists l. assert (lists m a l) as Hlist.
    { split; [done|]. intros k v. split; [apply Hl|]. intros Ha. assert (k ∈ l.*1) as Hk by (apply Hin; by eexists).
      apply list_elem_of_fmap in Hk as ([k' v'] & -> & Hk). cbn in *. rewrite (Hl _ _ Hk) in Ha. by simplify_eq. }
    split; [|done]. rewrite Hks. rewrite <-list_fmap_compose. apply mapM_fmap_Ok. intros [k v] Hk. cbn. unfold read_key. rewrite deserialize_serialize.
    cbn [mbind result_bind]. by rewrite (nested_contents_lookup _ a), (Hl _ _ Hk) by done.
  - exists []. split; [done|]. split; [constructor|]. intros k v. symmetry in Hks. apply fmap_nil_inv in Hks as ->. split; [by intros ?%not_elem_of_nil|].
    intros Ha. destruct (Hin k) as [_ Hk]. by destruct (not_elem_of_nil k (Hk ltac:(by eexists))).
Qed.

Lemma apply_to_entries_lists m o a l :
  lists m a l -> lists m (applyA o a) (if decide (op_map o = m) then apply_to_entries o l else l).
Proof.
  intros [Hnd Hl]. case_decide as Hm.
  - destruct o as [m' k' v'|m'|m' k']; cbn in *; subst m'.
    + split; [by apply imap_insert_NoDup|]. intros k v. rewrite <-imap_get_NoDup by (by apply imap_insert_NoDup). rewrite imap_get_insert.
      case_decide as Hk; [subst; by rewrite lookup_insert_eq|]. rewrite lookup_insert_ne by congruence. by rewrite imap_get_NoDup.
    + split; [constructor|]. intros k v. rewrite map_lookup_filter_Some. cbn. split; [by intros ?%not_elem_of_nil|]. naive_solver.
    + split.
      * apply (sublist_NoDup _ l.*1); [done|]. apply fmap_sublist, sublist_filter.
      * intros k v. rewrite list_elem_of_filter, Hl. cbn. destruct (decide (k = k')) as [->|Hne].
        -- rewrite lookup_delete_eq. naive_solver.
        -- rewrite lookup_delete_ne by congruence. naive_solver.
  - split; [done|]. intros k v. rewrite Hl. destruct o as [m' k' v'|m'|m' k']; cbn in *.
    + by rewrite lookup_insert_ne by congruence.
    + rewrite map_lookup_filter_Some. cbn. naive_solver.
    + by rewrite lookup_delete_ne by congruence.
Qed.

(** What reads of the map see. *)
Record reads_as (b : NestedMemoryMap M K V) (s : t (gmap (M * K) V)) : Prop := {
  as_confirmed m k : get_value_confirmed m k b = committed s !! (m, k);
  as_speculative m k : get_value_speculative m k b = current s !! (m, k);
  as_contains m k : contains_key_confirmed m k b = bool_decide ((m, k) ∈ dom (committed s));
  as_contains_speculative m k : contains_key_speculative m k b = bool_decide ((m, k) ∈ dom (current s));
  as_map m : exists l, get_map_confirmed m b = Ok l /\ lists m (committed s) l;
  as_map_speculative m : exists l, get_map_speculative m b = Ok l /\ lists m (current s) l;
}.

Lemma nested_rel_reads b s : batch_rel applyA contents_rel b s -> reads_as b s.
Proof.
  intros [Hc Hw]. assert (forall m k, get_value_confirmed m k b = committed s !! (m, k)) as H1 by (intros m k; by apply nested_contents_lookup).
  assert (forall m k, get_value_speculative m k b = current s !! (m, k)) as H2.
  { intros m k. unfold get_value_speculative, get_value_pending, current. destruct (working s) as [[w saved]|]; cbn.
    - destruct Hw as (-> & -> & _). by rewrite nested_replay_lookup, H1.
    - destruct Hw as (-> & _). apply H1. }
  split; [done..| | |intros m; by apply get_map_listed|].
  - intros m k. unfold contains_key_confirmed. apply bool_decide_ext. by rewrite elem_of_dom, <-H1.
  - intros m k. transitivity (bool_decide (is_Some (get_value_speculative m k b))).
    + unfold contains_key_speculative, get_value_speculative, get_value_pending. by destruct (if Batch.in_progress b then _ else _).
    + apply bool_decide_ext. by rewrite elem_of_dom, H2.
  - intros m. destruct (get_map_listed b _ m Hc) as (l & Hl & Hlist). unfold get_map_speculative. rewrite Hl. cbn [mbind result_bind].
    eexists. split; [done|]. unfold current. destruct (working s) as [[w saved]|]; cbn.
    + destruct Hw as (-> & -> & _). unfold replay. induction (Batch.queue b) as [|o q IH] using rev_ind; [done|]. rewrite !foldl_snoc. by apply apply_to_entries_lists.
    + by destruct Hw as (-> & _).
Qed.

Lemma nested_empty_rel : contents_rel (mk_contents ∅ ∅) ∅.
Proof.
  split; [by rewrite kmap_empty|]. intros m kb. cbn. rewrite lookup_empty. cbn. split; [by intros ?%not_elem_of_empty|]. intros (k & _ & Hk). by destruct Hk.
Qed.

(** C34: a [NestedMemoryMap], kept as the keys of each map and the values of all of
    them, refines a transactional map of pairs of a map and a key: reads of a value,
    and the listing of a map, give what was committed, and their speculative forms
    what finishing the batch would commit, after any writes, removals of whole maps,
    batches, checkpoints and rewinds. *)
Theorem nested_map_refines (ops : list (op (Op M K V))) (s : t (gmap (M * K) V)) :
  run applyA (mk ∅ None) ops = Some s ->
  exists b, foldM (fun b o => bexec apply commit o b) empty ops = Ok b /\ reads_as b s.
Proof.
  intros Hrun. pose proof nested_empty_rel as Hinit.
  destruct (batch_run apply commit applyA contents_rel nested_apply_rel nested_commit_rel ops (Batch.fresh (mk_contents ∅ ∅)) _ s (fresh_rel _ _ _ _ Hinit) Hrun) as (b & Hb & Hr).
  exists b. split; [exact Hb|by apply nested_rel_reads].
Qed.
End NestedMap.
End NestedMapProps.

(** ** Witnesses *)

(** Keys of one byte. *)
#[export] Instance serialize_bool : Serialize bool := {|
  serialize b := [Z.b2z b];
  deserialize l := match l with [0] => Ok false | [1] => Ok true | _ => Err "invalid bool" end;
|}.
#[export] Instance serialize_bool_laws : SerializeLaws bool.
Proof. split; [by intros []|]. by intros [] [] x y [=]. Qed.

(** A write that is rewound, and one that is committed. *)
Lemma memory_map_refines_witness :
  exists b, foldM (fun b o => BatchProps.bexec MemoryMap.apply MemoryMap.commit o b) (MemoryMap.empty (K := bool) (V := Z))
    [Txn.Write (true, Some 5); Txn.Start; Txn.Write (false, Some 7); Txn.Checkpoint; Txn.Write (true, None); Txn.Rewind; Txn.Finish] = Ok b /\
    MemoryMap.get_confirmed false b = Some 7 /\ MemoryMap.get_confirmed true b = Some 5.
Proof.
  destruct (MemoryMapProps.memory_map_refines (K := bool) (V := Z)
    [Txn.Write (true, Some 5); Txn.Start; Txn.Write (false, Some 7); Txn.Checkpoint; Txn.Write (true, None); Txn.Rewind; Txn.Finish]
    (Txn.mk ({[true := 5; false := 7]} : gmap bool Z) None)) as (b & Hb & Hr); [vm_compute; reflexivity|].
  exists b. split; [exact Hb|]. split; [apply (MemoryMapProps.as_confirmed _ _ Hr false)|apply (MemoryMapProps.as_confirmed _ _ Hr true)].
Defined.

(** A map that is replaced in a batch, before it is finished. *)
Lemma nested_map_refines_witness :
  exists b, foldM (fun b o => BatchProps.bexec NestedMap.apply NestedMap.commit o b) (NestedMap.empty (M := bool) (K := bool) (V := Z))
    [Txn.Write (NestedMap.InsertOp true false 1); Txn.Start; Txn.Write (NestedMap.RemoveMapOp true); Txn.Write (NestedMap.InsertOp true true 2)] = Ok b /\
    NestedMap.get_value_confirmed true false b = Some 1 /\ NestedMap.get_value_speculative true false b = None /\
    NestedMap.get_value_speculative true true b = Some 2.
Proof.
  destruct (NestedMapProps.nested_map_refines (M := bool) (K := bool) (V := Z)
    [Txn.Write (NestedMap.InsertOp true false 1); Txn.Start; Txn.Write (NestedMap.RemoveMapOp true); Txn.Write (NestedMap.InsertOp true true 2)]
    (Txn.mk ({[(true, false) := 1]} : gmap (bool * bool) Z) (Some ({[(true, true) := 2]}, [])))) as (b & Hb & Hr); [vm_compute; reflexivity|].
  exists b. split; [exact Hb|]. split; [apply (NestedMapProps.as_confirmed _ _ Hr)|].
  split; [apply (NestedMapProps.as_speculative _ _ Hr true false)|apply (NestedMapProps.as_speculative _ _ Hr true true)].
Defined.
