(* ===== verification/Atomicity.v ===== *)
(** * Atomic scopes

    What the macros [atomic_batch_scope!] and [atomic_finalize!] promise, for every
    component whose batches follow the specification of a transactional map
    ([AtomicSpec]): a scope is all or nothing, at any depth.  The memory maps meet the
    specification, and so does a component made of several of them. *)

From S2P Require Import Prelude StoreMap StoreMapProps.

Module Atomicity.
Import Txn BatchProps.

(** ** The interface *)

(** The batches of a component, in terms of the versions of its contents. *)
Class AtomicSpec {St A : Type} `{Atomic St} (rel : St -> Txn.t A -> Prop) : Prop := {
  spec_in_progress s t : rel s t -> is_atomic_in_progress s = bool_decide (is_Some (working t));
  spec_start s a : rel s (mk a None) -> exists s', start_atomic s = Ok s' /\ rel s' (mk a (Some (a, [])));
  spec_checkpoint s a w sv : rel s (mk a (Some (w, sv))) -> rel (atomic_checkpoint s) (mk a (Some (w, w :: sv)));
  spec_clear s a w x sv : rel s (mk a (Some (w, x :: sv))) -> rel (clear_latest_checkpoint s) (mk a (Some (w, sv)));
  spec_rewind s a w x sv : rel s (mk a (Some (w, x :: sv))) -> rel (atomic_rewind s) (mk a (Some (x, sv)));
  spec_abort s t : rel s t -> rel (abort_atomic s) (mk (committed t) None);
  spec_finish s t : rel s t -> exists s', finish_atomic s = Ok s' /\ rel s' (mk (current t) None);
}.

Section Scopes.
Context {St A B : Type} `{Atomic St} (rel : St -> Txn.t A -> Prop) `{!AtomicSpec rel}.

(** A block of operations that returns, and only changes the working version. *)
Definition block (a : A) (ops : SM St B) (post : A -> result B -> A -> Prop) : Prop :=
  forall s w sv, rel s (mk a (Some (w, sv))) ->
  exists r s' w', ops s = (r, s') /\ rel s' (mk a (Some (w', sv))) /\ post w r w' /\
    match r with Ok _ | Err _ => True | _ => False end.

(** The version that reads see, replaced. *)
Definition with_current (t : Txn.t A) (w : A) : Txn.t A :=
  match working t with None => mk w None | Some (_, sv) => mk (committed t) (Some (w, sv)) end.

Lemma scope_run t s ops post :
  rel s t -> block (committed t) ops post ->
  exists r s' w, atomic_batch_scope ops s = (r, s') /\ post (current t) r w /\ rel s' (if is_ok r then with_current t w else t).
Proof.
  intros Hr Hb. unfold atomic_batch_scope. rewrite (spec_in_progress s t Hr). destruct t as [a [[w sv]|]]; cbn.
  - pose proof (spec_checkpoint s a w sv Hr) as Hr1. destruct (Hb _ _ _ Hr1) as (r & s2 & w' & -> & Hr2 & Hpost & Hret).
    destruct r as [b|e|e|]; [| |done..]; eexists _, _, w'; (split; [done|]); (split; [done|]); cbn.
    + by eapply spec_clear.
    + by eapply spec_rewind.
  - destruct (spec_start s a Hr) as (s1 & -> & Hr1). destruct (Hb _ _ _ Hr1) as (r & s2 & w' & -> & Hr2 & Hpost & Hret).
    destruct r as [b|e|e|]; [| |done..].
    + destruct (spec_finish s2 _ Hr2) as (s3 & -> & Hr3). eexists _, _, w'. by split.
    + eexists _, _, w'. split; [done|]. split; [done|]. apply (spec_abort _ _ Hr2).
Qed.

Lemma finalize_run mode a s ops post :
  rel s (mk a None) -> block a ops post ->
  exists r s' w r', atomic_finalize mode ops s = (r', s') /\ post a r w /\ is_ok r' = is_ok r /\ ok r' = ok r /\
    rel s' (mk (match mode with RealRun => if is_ok r then w else a | DryRun => a end) None).
Proof.
  intros Hr Hb. unfold atomic_finalize. rewrite (spec_in_progress s _ Hr). cbn. destruct (spec_start s a Hr) as (s1 & -> & Hr1).
  destruct (Hb _ _ _ Hr1) as (r & s2 & w' & -> & Hr2 & Hpost & Hret). pose proof (spec_abort _ _ Hr2) as Ha. cbn in Ha.
  destruct mode, r as [b|e|e|]; try done.
  - destruct (spec_finish s2 _ Hr2) as (s3 & -> & Hr3). by eexists _, _, w', _.
  - eexists _, _, w', _. split; [done|]. by split_and!.
  - eexists _, _, w', _. split; [done|]. by split_and!.
  - eexists _, _, w', _. split; [done|]. by split_and!.
Qed.

(** C35: an atomic scope is all or nothing: when its block succeeds its writes are
    added to the batch in progress, or committed when there was none, and when it
    fails nothing of them is left, at whatever depth; finalizing commits only a block
    that succeeds in a real run, and a dry run leaves everything as it was. *)
Theorem scopes_atomic (t : Txn.t A) (s : St) (ops : SM St B) (post : A -> result B -> A -> Prop) :
  rel s t -> block (committed t) ops post ->
  (exists r s' w, atomic_batch_scope ops s = (r, s') /\ post (current t) r w /\ rel s' (if is_ok r then with_current t w else t)) /\
  (working t = None -> forall mode, exists r s' w r', atomic_finalize mode ops s = (r', s') /\ post (committed t) r w /\ is_ok r' = is_ok r /\ ok r' = ok r /\
    rel s' (mk (match mode with RealRun => if is_ok r then w else committed t | DryRun => committed t end) None)).
Proof.
  intros Hr Hb. split; [by apply scope_run|]. intros Hn mode. apply finalize_run; [|done]. destruct t as [a w]. cbn in *. by subst w.
Qed.
End Scopes.

(** ** Maps meet the interface *)

Section Maps.
Context {St Op A : Type} (apply : Op -> St -> St) (commit : list Op -> St -> St) (applyA : Op -> A -> A) (R : St -> A -> Prop).
Context (apply_R : forall o st a, R st a -> R (apply o st) (applyA o a)).
Context (commit_R : forall ops st a, R st a -> R (commit ops st) (replay applyA a ops)).

Lemma batch_spec : AtomicSpec (H := Batch.batch_atomic commit) (batch_rel applyA R).
Proof.
  pose proof (fun o b s => batch_step apply commit applyA R apply_R commit_R o b s) as Hstep.
  split.
  - intros b [a [[w sv]|]] [_ Hw]; cbn in *; [by destruct Hw|]. by destruct Hw.
  - intros b a Hr. apply (Hstep Start b _ Hr eq_refl).
  - intros b a w sv Hr. destruct (Hstep Checkpoint b _ Hr eq_refl) as (b' & [= <-] & Hr'). exact Hr'.
  - intros b a w x sv Hr. destruct (Hstep Clear b _ Hr eq_refl) as (b' & [= <-] & Hr'). exact Hr'.
  - intros b a w x sv Hr. destruct (Hstep Rewind b _ Hr eq_refl) as (b' & [= <-] & Hr'). exact Hr'.
  - intros b [a w] Hr. destruct (Hstep Abort b _ Hr) as (b' & [= <-] & Hr'); [by destruct w|]. by destruct w.
  - intros b [a w] Hr. destruct (Hstep Finish b _ Hr) as (b' & Hb & Hr'); [by destruct w|]. exists b'. split; [exact Hb|]. by destruct w.
Qed.
End Maps.

#[export] Instance memory_map_spec {K V} `{Countable K} `{!Serialize K, !SerializeLaws K} :
  AtomicSpec (batch_rel (MemoryMapProps.applyA (K := K) (V := V)) MemoryMapProps.contents_rel).
Proof. apply (batch_spec MemoryMap.apply); [apply MemoryMapProps.apply_rel|apply MemoryMapProps.commit_rel]. Qed.

#[export] Instance nested_map_spec {M K V} `{Countable M} `{!Serialize M, !SerializeLaws M} `{Countable K} `{!Serialize K, !SerializeLaws K} :
  AtomicSpec (batch_rel (NestedMapProps.applyA (M := M) (K := K) (V := V)) NestedMapProps.contents_rel).
Proof. apply (batch_spec NestedMap.apply); [apply NestedMapProps.nested_apply_rel|apply NestedMapProps.nested_commit_rel]. Qed.

(** ** Components of several maps *)

(** The versions of a part of the contents. *)
Definition tmap {A B} (f : A -> B) (t : Txn.t A) : Txn.t B := 
  mk (f (committed t)) (match working t with Some (w, sv) => Some (f w, f <$> sv) | None => None end).

Lemma tmap_current {A B} (f : A -> B) (t : Txn.t A) : current (tmap f t) = f (current t).
Proof. by destruct t as [a [[w sv]|]]. Qed.
End Atomicity.

(** ** Witness *)

(** A scope that removes the value a map was opened with. *)
Definition sample_map : MemoryMap.MemoryMap bool Z := MemoryMap.from_iter [(true, 5)].
Definition sample_scope : SM (MemoryMap.MemoryMap bool Z) unit := smodify (MemoryMap.remove true).

Lemma sample_map_rel : BatchProps.batch_rel MemoryMapProps.applyA MemoryMapProps.contents_rel sample_map (Txn.mk ({[true := 5]} : gmap bool Z) None).
Proof. apply BatchProps.fresh_rel. vm_compute. reflexivity. Qed.

Lemma sample_scope_block (a : gmap bool Z) :
  Atomicity.block (BatchProps.batch_rel MemoryMapProps.applyA MemoryMapProps.contents_rel) a sample_scope (fun w r w' => r = Ok tt /\ w' = delete true w).
Proof.
  intros s w sv Hr.
  destruct (BatchProps.batch_step MemoryMap.apply MemoryMap.commit MemoryMapProps.applyA MemoryMapProps.contents_rel MemoryMapProps.apply_rel MemoryMapProps.commit_rel
    (Txn.Write (true, None)) _ _ Hr eq_refl) as (b & [= <-] & Hb).
  exists (Ok tt), (MemoryMap.remove true s), (delete true w). by split_and!.
Qed.

Lemma scopes_atomic_witness :
  (exists s' : MemoryMap.MemoryMap bool Z, atomic_batch_scope sample_scope sample_map = (Ok tt, s') /\
    BatchProps.batch_rel MemoryMapProps.applyA MemoryMapProps.contents_rel s' (Txn.mk (∅ : gmap bool Z) None)) /\
  (exists (r : result unit) (s' : MemoryMap.MemoryMap bool Z), atomic_finalize DryRun sample_scope sample_map = (r, s') /\
    BatchProps.batch_rel MemoryMapProps.applyA MemoryMapProps.contents_rel s' (Txn.mk ({[true := 5]} : gmap bool Z) None)).
Proof.
  destruct (Atomicity.scopes_atomic (St := MemoryMap.MemoryMap bool Z) _ (AtomicSpec0 := Atomicity.memory_map_spec) _ _ _ _ sample_map_rel (sample_scope_block _)) as [(r & s' & w & Hs & [Hok Hw] & Hr) Hf]. split.
  - exists s'. rewrite Hok in Hs, Hr. rewrite Hw in Hr. split; [exact Hs|exact Hr].
  - destruct (Hf eq_refl DryRun) as (r' & s2 & w2 & r2 & H1 & _ & _ & _ & H2). exists r2, s2. split; [exact H1|exact H2].
Defined.
