(* ===== verification/CommitteeStore.v ===== *)
(** * The committee store

    snarkVM/ledger/store/src/program/committee.rs: the committee of every block height,
    and the height at which the committee of a round was fixed, from which the ledger
    answers [get_committee_for_round].  The three maps are memory maps with atomic
    batches; [CommitteeStore] forwards to [CommitteeStorage]. *)

From S2P Require Import Prelude Bytes Network Committee StoreMap.

Module CommitteeStore.
Section CommitteeStore.
Context `{N : Network}.
(** The bytes of integer keys. *)
Context `{!Serialize Z}.

Definition ROUND_KEY : Z := 0.

Record CommitteeStorage := mk_storage {
  current_round_map : MemoryMap.MemoryMap Z Z;
  round_to_height_map : MemoryMap.MemoryMap Z Z;
  committee_map : MemoryMap.MemoryMap Z Committee;
}.
Definition open_storage : CommitteeStorage := mk_storage MemoryMap.empty MemoryMap.empty MemoryMap.empty.

(** An operation on each of the maps. *)
Definition on_maps (f : forall {V}, MemoryMap.MemoryMap Z V -> MemoryMap.MemoryMap Z V) (s : CommitteeStorage) : CommitteeStorage :=
  mk_storage (f (current_round_map s)) (f (round_to_height_map s)) (f (committee_map s)).

#[global] Instance storage_atomic : Atomic CommitteeStorage := {|
  is_atomic_in_progress s :=
    is_atomic_in_progress (current_round_map s) || is_atomic_in_progress (round_to_height_map s) || is_atomic_in_progress (committee_map s);
  start_atomic s :=
    a ← start_atomic (current_round_map s); b ← start_atomic (round_to_height_map s); c ← start_atomic (committee_map s); Ok (mk_storage a b c);
  atomic_checkpoint := on_maps (fun _ => atomic_checkpoint);
  clear_latest_checkpoint := on_maps (fun _ => clear_latest_checkpoint);
  atomic_rewind := on_maps (fun _ => atomic_rewind);
  abort_atomic := on_maps (fun _ => abort_atomic);
  finish_atomic s :=
    a ← finish_atomic (current_round_map s); b ← finish_atomic (round_to_height_map s); c ← finish_atomic (committee_map s); Ok (mk_storage a b c);
|}.

(** ** Reads *)

Definition current_round (s : CommitteeStorage) : result Z :=
  ok_or "Current round not found in committee storage" (MemoryMap.get_confirmed ROUND_KEY (current_round_map s)).
Definition get_height_for_round (round : Z) (s : CommitteeStorage) : option Z := MemoryMap.get_confirmed round (round_to_height_map s).
Definition current_height (s : CommitteeStorage) : result Z :=
  round ← current_round s;
  ok_or "Current height not found in committee storage" (MemoryMap.get_confirmed round (round_to_height_map s)).
Definition get_committee (height : Z) (s : CommitteeStorage) : option Committee := MemoryMap.get_confirmed height (committee_map s).
Definition current_committee (s : CommitteeStorage) : result Committee :=
  height ← current_height s; ok_or "Current committee not found in committee storage" (get_committee height s).
Definition get_committee_for_round (round : Z) (s : CommitteeStorage) : option Committee :=
  match get_height_for_round round s with Some height => get_committee height s | None => None end.

(** ** Writes *)

Definition set_round (round : Z) : SM CommitteeStorage unit :=
  smodify (fun s => mk_storage (MemoryMap.insert ROUND_KEY round (current_round_map s)) (round_to_height_map s) (committee_map s)).
Definition unset_round : SM CommitteeStorage unit :=
  smodify (fun s => mk_storage (MemoryMap.remove ROUND_KEY (current_round_map s)) (round_to_height_map s) (committee_map s)).
Definition set_height (round height : Z) : SM CommitteeStorage unit :=
  smodify (fun s => mk_storage (current_round_map s) (MemoryMap.insert round height (round_to_height_map s)) (committee_map s)).
Definition unset_height (round : Z) : SM CommitteeStorage unit :=
  smodify (fun s => mk_storage (current_round_map s) (MemoryMap.remove round (round_to_height_map s)) (committee_map s)).
Definition set_committee (height : Z) (committee : Committee) : SM CommitteeStorage unit :=
  smodify (fun s => mk_storage (current_round_map s) (round_to_height_map s) (MemoryMap.insert height committee (committee_map s))).
Definition unset_committee (height : Z) : SM CommitteeStorage unit :=
  smodify (fun s => mk_storage (current_round_map s) (round_to_height_map s) (MemoryMap.remove height (committee_map s))).

(** The rounds from [first] to [last], the latter excluded. *)
Definition rounds_between (first last : Z) : list Z := seqZ first (last - first).

(** The checks of [insert]. *)
Definition check_insert (next_height next_round : Z) (s : CommitteeStorage) : result unit :=
  _ ← ensure (bool_decide (next_height <= next_round)) "Next round must be at least the next height";
  _ ← match current_round s with
      | Ok current_round => ensure (bool_decide (current_round < next_round)) "Next round {next_round} must be greater than current round {current_round}"
      | _ => ensure (bool_decide (next_round = 0)) "Next round must be block round 0"
      end;
  _ ← match current_height s with
      | Ok current_height => ensure (bool_decide (next_height = u32_wrap (current_height + 1))) "Next height must be sequential"
      | _ => ensure (bool_decide (next_height = 0)) "Next height must be block height 0"
      end;
  ensure (negb (MemoryMap.contains_key_confirmed next_round (round_to_height_map s))) "Next round {next_round} already exists in committee storage".

Definition insert (next_height : Z) (committee : Committee) : SM CommitteeStorage unit :=
  let next_round := starting_round committee in
  do s ⇐ sget;
  do _ ⇐ slift (check_insert next_height next_round s);
  let catch_up_round := match current_round s with Ok current_round => u64_wrap (current_round + 1) | _ => 0 end in
  atomic_batch_scope (
    do _ ⇐ set_round next_round;
    do s ⇐ sget;
    do _ ⇐ match current_height s with
           | Ok current_height => sfold (fun _ round => set_height round current_height) tt (rounds_between catch_up_round next_round)
           | _ => sret tt
           end;
    do _ ⇐ set_height next_round next_height;
    set_committee next_height committee).

(** The loop for the earliest round to be removed. *)
Fixpoint earliest_from (height : Z) (s : CommitteeStorage) (round : nat) : Z :=
  match round with
  | O => 0
  | S prev => if decide (get_height_for_round (Z.of_nat round) s = Some height) then earliest_from height s prev else Z.of_nat round
  end.
(** The loop for the latest round to be removed. *)
Fixpoint latest_from (fuel : nat) (height round : Z) (s : CommitteeStorage) : result Z :=
  match fuel with
  | O => Deadlock
  | S fuel => if decide (get_height_for_round round s = Some height) then latest_from fuel height (u64_saturating_add round 1) s else Ok round
  end.
(** The loop for the next current round. *)
Fixpoint previous_round (height : Z) (s : CommitteeStorage) (round : nat) : Z :=
  match round with
  | O => 0
  | S prev =>
      match get_height_for_round (Z.of_nat round) s with
      | Some next_current_height => if decide (next_current_height < height) then Z.of_nat round else previous_round height s prev
      | None => previous_round height s prev
      end
  end.

Definition remove (height : Z) : SM CommitteeStorage unit :=
  do s ⇐ sget;
  do current_round ⇐ slift (current_round s);
  do current_height ⇐ slift (current_height s);
  do committee ⇐ slift (ok_or "Committee not found for height {height} in committee storage" (get_committee height s));
  let committee_round := starting_round committee in
  let is_latest_committee := bool_decide (current_height = height) in
  let earliest_round := earliest_from height s (Z.to_nat committee_round) in
  let is_multiple := bool_decide (earliest_round <> committee_round) in
  let earliest_round := if is_multiple then earliest_round + 1 else earliest_round in
  do latest_round ⇐ slift (latest_from (Datatypes.S (size (Batch.contents (round_to_height_map s)))) height committee_round s);
  let next_current_round := saturating_sub current_round 1 in
  let next_current_round := if is_latest_committee then previous_round current_height s (Z.to_nat next_current_round) else next_current_round in
  atomic_batch_scope (
    do _ ⇐ (if is_latest_committee then
              do _ ⇐ unset_round;
              if bool_decide (current_round <> next_current_round) && bool_decide (0 < next_current_round) then set_round next_current_round else sret tt
            else sret tt);
    do _ ⇐ sfold (fun _ round => unset_height round) tt (rounds_between earliest_round latest_round);
    unset_committee height).
End CommitteeStore.
Arguments CommitteeStorage N : clear implicits.
End CommitteeStore.
