(* ===== verification/CommitteeStoreProps.v ===== *)
(** * The committee store keeps the history of committees

    The maps of the store refine a list of committees, one per height, with the last
    round that is indexed: inserting appends to it exactly when height and round follow,
    and the committee of a round is the last one that had started. *)

From S2P Require Import Prelude Bytes Network Committee StoreMap StoreMapProps Atomicity CommitteeStore.

Module CommitteeStoreProps.
Import Txn BatchProps Atomicity CommitteeStore.

Section CommitteeStore.
Context `{N : Network}.
Context `{!Serialize Z, !SerializeLaws Z}.
Implicit Types (s : CommitteeStorage N) (c : Committee) (cs : list Committee).

(** ** One map in a batch *)

Definition mrel {V} (b : MemoryMap.MemoryMap Z V) (t : Txn.t (gmap Z V)) : Prop :=
  batch_rel MemoryMapProps.applyA MemoryMapProps.contents_rel b t.

Lemma mrel_step {V} (o : op (MemoryMap.Op (K := Z) (V := V))) (b : MemoryMap.MemoryMap Z V) t :
  mrel b t -> allowed o t = true -> exists b', bexec MemoryMap.apply MemoryMap.commit o b = Ok b' /\ mrel b' (exec MemoryMapProps.applyA o t).
Proof. apply batch_step; [apply MemoryMapProps.apply_rel|apply MemoryMapProps.commit_rel]. Qed.

Lemma mrel_write {V} o (b : MemoryMap.MemoryMap Z V) t :
  mrel b t -> mrel (Batch.write MemoryMap.apply o b) (exec MemoryMapProps.applyA (Write o) t).
Proof. intros H. destruct (mrel_step (Write o) b t H) as (b' & [= <-] & Hr); [by destruct t as [? []]|done]. Qed.

Lemma mrel_confirmed {V} (b : MemoryMap.MemoryMap Z V) t k : mrel b t -> MemoryMap.get_confirmed k b = committed t !! k.
Proof. intros H. apply MemoryMapProps.as_confirmed. by apply MemoryMapProps.rel_reads. Qed.

(** ** The storage in a batch *)

(** The contents of the three maps. *)
Record view := mk_view { v_round : gmap Z Z; v_heights : gmap Z Z; v_committees : gmap Z Committee }.

Record srel s (t : Txn.t view) : Prop := {
  rel_round : mrel (current_round_map s) (tmap v_round t);
  rel_heights : mrel (round_to_height_map s) (tmap v_heights t);
  rel_committees : mrel (committee_map s) (tmap v_committees t);
}.

#[export] Instance storage_spec : AtomicSpec srel.
Proof.
  split.
  - intros s t [H1 H2 H3]. cbn [is_atomic_in_progress storage_atomic].
    rewrite (spec_in_progress _ _ H1), (spec_in_progress _ _ H2), (spec_in_progress _ _ H3).
    by destruct t as [? [[]|]].
  - intros s v [H1 H2 H3]. destruct (spec_start _ _ H1) as (b1 & E1 & R1), (spec_start _ _ H2) as (b2 & E2 & R2), (spec_start _ _ H3) as (b3 & E3 & R3).
    exists (mk_storage b1 b2 b3). split; [|by split]. cbn [start_atomic storage_atomic]. by rewrite E1, E2, E3.
  - intros s v w sv [H1 H2 H3]. split; [exact (spec_checkpoint _ _ _ _ H1)|exact (spec_checkpoint _ _ _ _ H2)|exact (spec_checkpoint _ _ _ _ H3)].
  - intros s v w x sv [H1 H2 H3]. split; [exact (spec_clear _ _ _ _ _ H1)|exact (spec_clear _ _ _ _ _ H2)|exact (spec_clear _ _ _ _ _ H3)].
  - intros s v w x sv [H1 H2 H3]. split; [exact (spec_rewind _ _ _ _ _ H1)|exact (spec_rewind _ _ _ _ _ H2)|exact (spec_rewind _ _ _ _ _ H3)].
  - intros s t [H1 H2 H3]. split; [apply (spec_abort _ _ H1)|apply (spec_abort _ _ H2)|apply (spec_abort _ _ H3)].
  - intros s t [H1 H2 H3]. destruct (spec_finish _ _ H1) as (b1 & E1 & R1), (spec_finish _ _ H2) as (b2 & E2 & R2), (spec_finish _ _ H3) as (b3 & E3 & R3).
    rewrite tmap_current in R1, R2. rewrite tmap_current in R3. exists (mk_storage b1 b2 b3). split; [|by split]. cbn [finish_atomic storage_atomic]. by rewrite E1, E2, E3.
Qed.

(** At rest, and in a batch with the given working version. *)
Definition rests s (v : view) : Prop := srel s (mk v None).
Definition works s (v w : view) (sv : list view) : Prop := srel s (mk v (Some (w, sv))).

Lemma rests_round s v : rests s v -> mrel (current_round_map s) (mk (v_round v) None).
Proof. apply rel_round. Qed.
Lemma rests_heights s v : rests s v -> mrel (round_to_height_map s) (mk (v_heights v) None).
Proof. apply rel_heights. Qed.
Lemma rests_committees s v : rests s v -> mrel (committee_map s) (mk (v_committees v) None).
Proof. apply rel_committees. Qed.

(** A scope of its own commits what its block wrote. *)
Lemma scope_Ok {A} (ops : SM (CommitteeStorage N) A) s v f a :
  rests s v -> (forall s1 w sv, works s1 v w sv -> exists s2, ops s1 = (Ok a, s2) /\ works s2 v (f w) sv) ->
  exists s', atomic_batch_scope ops s = (Ok a, s') /\ rests s' (f v).
Proof.
  intros Hv Hops. destruct (scope_run srel (mk v None) s ops (fun w r w' => r = Ok a /\ w' = f w) Hv) as (r & s' & w' & Hs & [-> ->] & Hr); [|by exists s'].
  intros s1 w sv H1. destruct (Hops s1 w sv H1) as (s2 & H2 & H3). by exists (Ok a), s2, (f w).
Qed.

Lemma works_set_round s v w sv r :
  works s v w sv -> works (set_round r s).2 v (mk_view (<[ROUND_KEY := r]> (v_round w)) (v_heights w) (v_committees w)) sv.
Proof. intros [H1 H2 H3]. split; cbn; [apply (mrel_write (ROUND_KEY, Some r) _ _ H1)|done..]. Qed.
Lemma works_unset_round s v w sv : works s v w sv -> works (unset_round s).2 v (mk_view (delete ROUND_KEY (v_round w)) (v_heights w) (v_committees w)) sv.
Proof. intros [H1 H2 H3]. split; cbn; [apply (mrel_write (ROUND_KEY, None) _ _ H1)|done..]. Qed.
Lemma works_set_height s v w sv r h :
  works s v w sv -> works (set_height r h s).2 v (mk_view (v_round w) (<[r := h]> (v_heights w)) (v_committees w)) sv.
Proof. intros [H1 H2 H3]. split; cbn; [done|apply (mrel_write (r, Some h) _ _ H2)|done]. Qed.
Lemma works_unset_height s v w sv r : works s v w sv -> works (unset_height r s).2 v (mk_view (v_round w) (delete r (v_heights w)) (v_committees w)) sv.
Proof. intros [H1 H2 H3]. split; cbn; [done|apply (mrel_write (r, None) _ _ H2)|done]. Qed.
Lemma works_set_committee s v w sv h c :
  works s v w sv -> works (set_committee h c s).2 v (mk_view (v_round w) (v_heights w) (<[h := c]> (v_committees w))) sv.
Proof. intros [H1 H2 H3]. split; cbn; [done..|apply (mrel_write (h, Some c) _ _ H3)]. Qed.
Lemma works_unset_committee s v w sv h : works s v w sv -> works (unset_committee h s).2 v (mk_view (v_round w) (v_heights w) (delete h (v_committees w))) sv.
Proof. intros [H1 H2 H3]. split; cbn; [done..|apply (mrel_write (h, None) _ _ H3)]. Qed.

Lemma works_set_heights h rs : forall s v w sv,
  works s v w sv -> exists s', sfold (fun _ r => set_height r h) tt rs s = (Ok tt, s') /\
    works s' v (mk_view (v_round w) (foldl (fun m r => <[r := h]> m) (v_heights w) rs) (v_committees w)) sv.
Proof.
  induction rs as [|r rs IH]; intros s v w sv H; cbn.
  - exists s. split; [done|]. by destruct w.
  - destruct (IH _ _ _ _ (works_set_height _ _ _ _ r h H)) as (s' & Hs' & Hw). exists s'. split; [exact Hs'|exact Hw].
Qed.
Lemma works_unset_heights rs : forall s v w sv,
  works s v w sv -> exists s', sfold (fun _ r => unset_height r) tt rs s = (Ok tt, s') /\
    works s' v (mk_view (v_round w) (foldl (fun m r => delete r m) (v_heights w) rs) (v_committees w)) sv.
Proof.
  induction rs as [|r rs IH]; intros s v w sv H; cbn.
  - exists s. split; [done|]. by destruct w.
  - destruct (IH _ _ _ _ (works_unset_height _ _ _ _ r H)) as (s' & Hs' & Hw). exists s'. split; [exact Hs'|exact Hw].
Qed.

Lemma set_heights_lookup h rs m r : foldl (fun m r => <[r := h]> m) m rs !! r = if decide (r ∈ rs) then Some h else (m : gmap Z Z) !! r.
Proof.
  revert m. induction rs as [|r' rs IH]; intros m; cbn; [done|]. rewrite IH. destruct (decide (r = r')) as [->|Hne].
  - rewrite lookup_insert_eq. transitivity (Some h); [by repeat case_decide|]. rewrite decide_True; [done|by left].
  - rewrite lookup_insert_ne by done. apply decide_ext. rewrite elem_of_cons. naive_solver.
Qed.
Lemma unset_heights_lookup rs m r : foldl (fun m r => delete r m) m rs !! r = if decide (r ∈ rs) then None else (m : gmap Z Z) !! r.
Proof.
  revert m. induction rs as [|r' rs IH]; intros m; cbn; [done|]. rewrite IH. destruct (decide (r = r')) as [->|Hne].
  - rewrite lookup_delete_eq. transitivity (@None Z); [by repeat case_decide|]. rewrite decide_True; [done|by left].
  - rewrite lookup_delete_ne by done. apply decide_ext. rewrite elem_of_cons. naive_solver.
Qed.

Lemma elem_of_rounds_between a b r : r ∈ rounds_between a b <-> a <= r < b.
Proof. unfold rounds_between. rewrite elem_of_seqZ. lia. Qed.

(** ** Reads *)

Lemma reads_current_round s v : rests s v -> current_round s = ok_or "Current round not found in committee storage" (v_round v !! ROUND_KEY).
Proof. intros H. unfold current_round. by rewrite (mrel_confirmed _ _ _ (rests_round _ _ H)). Qed.
Lemma reads_height s v r : rests s v -> get_height_for_round r s = v_heights v !! r.
Proof. intros H. apply (mrel_confirmed _ _ _ (rests_heights _ _ H)). Qed.
Lemma reads_committee s v h : rests s v -> get_committee h s = v_committees v !! h.
Proof. intros H. apply (mrel_confirmed _ _ _ (rests_committees _ _ H)). Qed.

Definition view_height (v : view) : result Z :=
  round ← ok_or "Current round not found in committee storage" (v_round v !! ROUND_KEY);
  ok_or "Current height not found in committee storage" (v_heights v !! round).
Lemma reads_current_height s v : rests s v -> current_height s = view_height v.
Proof.
  intros H. unfold current_height, view_height. rewrite (reads_current_round _ _ H). destruct (v_round v !! ROUND_KEY); [|done].
  cbn [ok_or mbind result_bind]. by rewrite (mrel_confirmed _ _ _ (rests_heights _ _ H)).
Qed.
Lemma works_current_height s v w sv : works s v w sv -> current_height s = view_height v.
Proof.
  intros H. unfold current_height, current_round, view_height. rewrite (mrel_confirmed _ _ _ (rel_round _ _ H)). cbn.
  destruct (v_round v !! ROUND_KEY); [|done]. cbn [ok_or mbind result_bind]. by rewrite (mrel_confirmed _ _ _ (rel_heights _ _ H)).
Qed.

(** ** Histories *)

(** The committees by height, with increasing rounds from zero, and the last round
    that is indexed. *)
Record history (v : view) (cs : list Committee) (last_round : Z) : Prop := {
  history_round : v_round v !! ROUND_KEY = Some last_round;
  history_heights r : v_heights v !! r =
    if decide (0 <= r <= last_round) then Some (len (base.filter (fun c => starting_round c <= r) cs) - 1) else None;
  history_committees h : v_committees v !! h = if decide (0 <= h) then cs !! Z.to_nat h else None;
  history_sorted : StronglySorted Z.lt (starting_round <$> cs);
  history_first : starting_round <$> head cs = Some 0;
  history_last : forall c, c ∈ cs -> 0 <= starting_round c <= last_round;
}.

Lemma started_all cs r : (forall c, c ∈ cs -> starting_round c <= r) -> base.filter (fun c => starting_round c <= r) cs = cs.
Proof. apply filter_all_in. Qed.

Lemma history_height v cs R : history v cs R -> view_height v = Ok (len cs - 1).
Proof.
  intros [Hr Hh _ _ Hf Hl]. unfold view_height. rewrite Hr. cbn [ok_or mbind result_bind]. rewrite Hh.
  assert (0 <= R) by (destruct cs as [|c cs]; [done|]; pose proof (Hl c ltac:(by left)); lia).
  rewrite decide_True by lia. cbn. by rewrite started_all by (intros c Hc; apply Hl in Hc; lia).
Qed.

(** The committees that have started at a round are the first ones. *)
Lemma started_prefix cs r :
  StronglySorted Z.lt (starting_round <$> cs) -> exists n, base.filter (fun c => starting_round c <= r) cs = take n cs /\ (n <= length cs)%nat.
Proof.
  induction cs as [|c cs IH]; intros Hs; [by exists 0%nat|]. apply StronglySorted_inv in Hs as [Hs Hlt].
  change (Forall (Z.lt (starting_round c)) (starting_round <$> cs)) in Hlt. rewrite Forall_fmap in Hlt.
  rewrite filter_cons. case_decide as Hd.
  - destruct (IH Hs) as (n & -> & Hn). exists (S n). cbn. split; [done|lia].
  - exists 0%nat. cbn. split; [|lia]. apply filter_none_in. intros c' Hc'. rewrite Forall_forall in Hlt. specialize (Hlt c' Hc'). cbn in Hlt. lia.
Qed.

Lemma started_last cs r :
  StronglySorted Z.lt (starting_round <$> cs) -> base.filter (fun c => starting_round c <= r) cs <> [] ->
  cs !! Z.to_nat (len (base.filter (fun c => starting_round c <= r) cs) - 1) = last (base.filter (fun c => starting_round c <= r) cs).
Proof.
  intros Hs Hne. destruct (started_prefix cs r Hs) as (n & Heq & Hn). rewrite Heq in *. rewrite last_lookup. unfold len.
  rewrite length_take. destruct n as [|n]; [done|]. replace (Z.to_nat (Z.of_nat (S n `min` length cs) - 1)) with n by lia.
  rewrite lookup_take_lt by lia. f_equal. lia.
Qed.

Lemma history_lookup s v cs R r :
  rests s v -> history v cs R ->
  get_committee_for_round r s = if decide (0 <= r <= R) then last (base.filter (fun c => starting_round c <= r) cs) else None.
Proof.
  intros Hv Hh. unfold get_committee_for_round. rewrite (reads_height _ _ _ Hv), (history_heights _ _ _ Hh). case_decide as Hr; [|done].
  rewrite (reads_committee _ _ _ Hv), (history_committees _ _ _ Hh). pose proof (history_first _ _ _ Hh) as Hf.
  assert (base.filter (fun c => starting_round c <= r) cs <> []) as Hne.
  { destruct cs as [|c cs]; [done|]. cbn in Hf. injection Hf as Hf. rewrite filter_cons, decide_True by lia. done. }
  rewrite decide_True. { apply started_last; [apply Hh|done]. }
  destruct (base.filter _ cs); [done|]. rewrite len_cons. pose proof (len_nonneg l). lia.
Qed.

(** What [insert] writes: it reads the committed version. *)
Definition inserted (h : Z) c (v w : view) : view :=
  let first := match v_round v !! ROUND_KEY with Some R => u64_wrap (R + 1) | None => 0 end in
  let heights := match view_height v with Ok ch => foldl (fun m r => <[r := ch]> m) (v_heights w) (rounds_between first (starting_round c)) | _ => v_heights w end in
  mk_view (<[ROUND_KEY := starting_round c]> (v_round w)) (<[starting_round c := h]> heights) (<[h := c]> (v_committees w)).

(** At any point of a batch. *)
Lemma insert_at s t h c :
  srel s t -> check_insert h (starting_round c) s = Ok tt ->
  exists s', insert h c s = (Ok tt, s') /\ srel s' (with_current t (inserted h c (committed t) (current t))).
Proof.
  intros Ht Hc. unfold insert. cbn [sget sbind]. rewrite Hc. cbn [slift sbind]. set (v := committed t).
  assert (current_round s = ok_or "Current round not found in committee storage" (v_round v !! ROUND_KEY)) as Hround
    by (unfold current_round; by rewrite (mrel_confirmed _ _ _ (rel_round _ _ Ht))).
  rewrite Hround. set (ops := do _ ⇐ set_round _; _).
  destruct (scope_run srel t s ops (fun w r w' => r = Ok tt /\ w' = inserted h c v w) Ht) as (r & s' & w' & Hs & [-> ->] & Hr); [|by exists s'].
  intros s1 w sv Hw. enough (exists s2, ops s1 = (Ok tt, s2) /\ works s2 v (inserted h c v w) sv) as (s2 & H2 & H3) by (by exists (Ok tt), s2, (inserted h c v w)).
  pose proof (works_set_round s1 v w sv (starting_round c) Hw) as Hw1. unfold ops.
  cbn [set_round smodify sbind sget snd] in *. rewrite (works_current_height _ _ _ _ Hw1). unfold inserted. cbn zeta.
  replace (match ok_or _ (v_round v !! ROUND_KEY) with Ok R => u64_wrap (R + 1) | _ => 0 end)
    with (match v_round v !! ROUND_KEY with Some R => u64_wrap (R + 1) | None => 0 end) by (by destruct (v_round v !! ROUND_KEY)).
  destruct (view_height v) as [ch|e|e|] eqn:Hch.
  1: destruct (works_set_heights ch (rounds_between (match v_round v !! ROUND_KEY with Some R => u64_wrap (R + 1) | None => 0 end) (starting_round c)) _ _ _ _ Hw1) as (s3 & Hs3 & Hw2);
    rewrite (sbind_run _ _ _ _ _ Hs3).
  1: eexists; split; [done|]; exact (works_set_committee _ _ _ _ _ _ (works_set_height _ _ _ _ _ _ Hw2)).
  all: eexists; split; [done|]; exact (works_set_committee _ _ _ _ _ _ (works_set_height _ _ _ _ _ _ Hw1)).
Qed.

Lemma insert_writes s v h c :
  rests s v -> check_insert h (starting_round c) s = Ok tt -> exists s', insert h c s = (Ok tt, s') /\ rests s' (inserted h c v v).
Proof. intros Hv Hc. apply (insert_at s _ h c Hv Hc). Qed.

(** ** The specification *)

(** Nothing yet, or the committees by height and the last indexed round. *)
Definition spec : Type := option (list Committee * Z).
Definition follows (st : spec) (h : Z) c : bool :=
  match st with
  | None => bool_decide (h = 0 /\ starting_round c = 0)
  | Some (cs, R) => bool_decide (h = len cs /\ h <= starting_round c /\ R < starting_round c)
  end.
Definition append (st : spec) c : spec := Some (from_option fst [] st ++ [c], starting_round c).
(** The committee of a round: the last one that has started. *)
Definition committee_of (st : spec) (r : Z) : option Committee :=
  match st with
  | None => None
  | Some (cs, R) => if decide (0 <= r <= R) then last (base.filter (fun c => starting_round c <= r) cs) else None
  end.
Definition spec_size (st : spec) : Z := match st with None => 0 | Some (cs, _) => len cs end.

Definition stores s (st : spec) : Prop :=
  exists v, rests s v /\ match st with None => v = mk_view ∅ ∅ ∅ | Some (cs, R) => history v cs R end.

Lemma stores_open : stores open_storage None.
Proof.
  exists (mk_view ∅ ∅ ∅). split; [|done].
  split; apply (fresh_rel _ _ ∅ ∅); unfold MemoryMapProps.contents_rel; by rewrite kmap_empty.
Qed.

Lemma ensure_dec {P} `{Decision P} msg : ensure (bool_decide P) msg = if decide P then Ok tt else Err msg.
Proof. by destruct (decide P) as [HP|HP]; [rewrite bool_decide_true|rewrite bool_decide_false]. Qed.

Lemma check_insert_spec s st h c :
  stores s st -> spec_size st <= u32_max ->
  if follows st h c then check_insert h (starting_round c) s = Ok tt else exists e, check_insert h (starting_round c) s = Err e.
Proof.
  intros (v & Hv & Hst) Hsz. unfold check_insert. rewrite (reads_current_round _ _ Hv), (reads_current_height _ _ Hv).
  rewrite (MemoryMapProps.as_contains _ _ (MemoryMapProps.rel_reads _ _ (rests_heights _ _ Hv))). cbn [committed].
  destruct st as [[cs R]|]; cbn [follows spec_size] in *.
  - rewrite (history_height _ _ _ Hst), (history_round _ _ _ Hst). cbn [ok_or]. rewrite !ensure_dec.
    replace (u32_wrap (len cs - 1 + 1)) with (len cs) by (replace (len cs - 1 + 1) with (len cs) by lia; symmetry; apply u32_wrap_id; pose proof (len_nonneg cs); mlia).
    assert (bool_decide (starting_round c ∈ dom (v_heights v)) = true -> starting_round c <= R) as Hin.
    { intros Hd%bool_decide_eq_true. apply elem_of_dom in Hd as [h' Hd]. rewrite (history_heights _ _ _ Hst) in Hd. case_decide; [lia|done]. }
    destruct (bool_decide (h = len cs /\ _)) eqn:Hf; [apply bool_decide_eq_true in Hf|apply bool_decide_eq_false in Hf].
    + destruct Hf as (-> & H1 & H2). rewrite !decide_True by lia. cbn [mbind result_bind].
      destruct (bool_decide _); [specialize (Hin eq_refl); lia|done].
    + destruct (decide (h <= starting_round c)); [|by eexists]. destruct (decide (R < starting_round c)); [|by eexists].
      destruct (decide (h = len cs)); [|by eexists]. exfalso. apply Hf. lia.
  - subst v. cbn [v_round v_heights]. unfold view_height. cbn [v_round]. rewrite lookup_empty. cbn [ok_or mbind result_bind]. rewrite !ensure_dec.
    rewrite (bool_decide_false (starting_round c ∈ dom ∅)) by (rewrite dom_empty; apply not_elem_of_empty).
    destruct (bool_decide (h = 0 /\ _)) eqn:Hf; [apply bool_decide_eq_true in Hf|apply bool_decide_eq_false in Hf].
    + destruct Hf as (-> & ->). by rewrite !decide_True by lia.
    + destruct (decide (h <= starting_round c)); [|by eexists]. destruct (decide (starting_round c = 0)); [|by eexists].
      destruct (decide (h = 0)); [|by eexists]. exfalso. apply Hf. lia.
Qed.

Lemma history_append v cs R c :
  history v cs R -> R < starting_round c -> is_u64 (starting_round c) -> history (inserted (len cs) c v v) (cs ++ [c]) (starting_round c).
Proof.
  intros Hh HR Hu. pose proof Hh as [Hr Hhs Hc Hs Hf Hl].
  assert (0 <= R) as H0 by (destruct cs as [|c0 cs]; [done|]; pose proof (Hl c0 ltac:(by left)); lia).
  unfold inserted. rewrite (history_height _ _ _ Hh), Hr. rewrite u64_wrap_id by mlia. split; cbn [v_round v_heights v_committees].
  - apply lookup_insert_eq.
  - intros r. rewrite filter_app. destruct (decide (r = starting_round c)) as [->|Hne].
    + rewrite lookup_insert_eq, decide_True by lia. rewrite filter_cons, decide_True, filter_nil by lia.
      rewrite started_all by (intros c' Hc'; apply Hl in Hc'; lia). rewrite len_app, len_cons. f_equal. unfold len. cbn. lia.
    + rewrite lookup_insert_ne by done. rewrite set_heights_lookup, Hhs. destruct (decide (starting_round c < r)).
      * rewrite decide_False by (rewrite elem_of_rounds_between; lia). by rewrite !decide_False by lia.
      * rewrite filter_cons, (decide_False (P := starting_round c <= r)), filter_nil, app_nil_r by lia. destruct (decide (r ∈ rounds_between (R + 1) (starting_round c))) as [Hin|Hin];
          rewrite elem_of_rounds_between in Hin.
        -- rewrite decide_True by lia. by rewrite started_all by (intros c' Hc'; apply Hl in Hc'; lia).
        -- destruct (decide (0 <= r)); [by rewrite !decide_True by lia|by rewrite !decide_False by lia].
  - intros h. destruct (decide (h = len cs)) as [->|Hne].
    + rewrite lookup_insert_eq, decide_True by apply len_nonneg. unfold len. rewrite Nat2Z.id. by rewrite list_lookup_middle.
    + rewrite lookup_insert_ne by done. rewrite Hc. destruct (decide (0 <= h)); [|done]. destruct (decide (h < len cs)); unfold len in *.
      * by rewrite lookup_app_l by lia.
      * rewrite !lookup_ge_None_2; [done|rewrite length_app; cbn; lia|lia].
  - rewrite fmap_app. apply StronglySorted_app_2; [|done|by repeat constructor]. intros x y Hx Hy.
    apply list_elem_of_fmap in Hx as (c' & -> & Hc'). apply list_elem_of_singleton in Hy as ->. apply Hl in Hc'. lia.
  - by destruct cs.
  - intros c' [Hc'| ->%list_elem_of_singleton]%elem_of_app; [apply Hl in Hc'|]; lia.
Qed.

Lemma history_start c : starting_round c = 0 -> history (inserted 0 c (mk_view ∅ ∅ ∅) (mk_view ∅ ∅ ∅)) [c] 0.
Proof.
  intros Hc. unfold inserted, view_height. cbn [v_round v_heights v_committees]. rewrite lookup_empty, Hc. cbn [ok_or mbind result_bind].
  split; cbn [v_round v_heights v_committees].
  - apply lookup_insert_eq.
  - intros r. rewrite filter_cons, filter_nil, Hc. destruct (decide (r = 0)) as [->|Hne].
    + by rewrite lookup_insert_eq, !decide_True by lia.
    + by rewrite lookup_insert_ne, lookup_empty, (decide_False (P := 0 <= r <= 0)) by lia.
  - intros h. destruct (decide (h = 0)) as [->|Hne]; [by rewrite lookup_insert_eq, decide_True by lia|].
    rewrite lookup_insert_ne, lookup_empty by done. case_decide; [|done]. rewrite lookup_ge_None_2; [done|cbn; lia].
  - by repeat constructor.
  - cbn. by rewrite Hc.
  - intros c' ->%list_elem_of_singleton. lia.
Qed.

Lemma store_insert_step s st h c :
  stores s st -> spec_size st <= u32_max -> is_u64 (starting_round c) ->
  exists r s', insert h c s = (r, s') /\ is_ok r = follows st h c /\ stores s' (if follows st h c then append st c else st).
Proof.
  intros Hs Hsz Hu. pose proof (check_insert_spec s st h c Hs Hsz) as Hc. destruct (follows st h c) eqn:Hf.
  - destruct Hs as (v & Hv & Hst). destruct (insert_writes s v h c Hv Hc) as (s' & Hi & Hv'). exists (Ok tt), s'. split; [done|]. split; [done|].
    exists (inserted h c v v). split; [done|]. unfold follows in Hf. destruct st as [[cs R]|]; apply bool_decide_eq_true in Hf; cbn.
    + destruct Hf as (-> & _ & HR). by eapply history_append.
    + subst v. destruct Hf as (-> & H0). rewrite H0. by apply history_start.
  - destruct Hc as [e He]. exists (Err e), s. unfold insert. cbn [sget sbind]. rewrite He. done.
Qed.

(** Attempts to insert, with whether they succeed. *)
Fixpoint attempts s (l : list (Z * Committee)) : list bool * CommitteeStorage N :=
  match l with
  | [] => ([], s)
  | (h, c) :: l => let '(r, s) := insert h c s in let '(rs, s) := attempts s l in (is_ok r :: rs, s)
  end.
Fixpoint spec_attempts (st : spec) (l : list (Z * Committee)) : list bool * spec :=
  match l with
  | [] => ([], st)
  | (h, c) :: l => let b := follows st h c in let '(rs, st) := spec_attempts (if b then append st c else st) l in (b :: rs, st)
  end.

Lemma append_size st c : spec_size (append st c) = spec_size st + 1.
Proof. destruct st as [[cs R]|]; cbn; [rewrite len_app|]; done. Qed.

Lemma attempts_refine l : forall s st,
  stores s st -> spec_size st + len l <= u32_max -> Forall (fun p => is_u64 (starting_round p.2)) l ->
  exists s', attempts s l = ((spec_attempts st l).1, s') /\ stores s' (spec_attempts st l).2.
Proof.
  induction l as [|[h c] l IH]; intros s st Hs Hsz Hu; cbn [attempts spec_attempts]; [by exists s|]. rewrite len_cons in Hsz. apply Forall_cons in Hu as [Hc Hu].
  pose proof (len_nonneg l). destruct (store_insert_step s st h c Hs ltac:(lia) Hc) as (r & s1 & -> & Hr & Hs1).
  destruct (IH s1 _ Hs1) as (s' & -> & Hs'); [destruct (follows st h c); [rewrite append_size|]; lia|done|].
  exists s'. rewrite Hr. by destruct (spec_attempts _ l).
Qed.

(** C36: the committee store is the list of committees by height: an insertion
    succeeds exactly when its height and round follow, changes nothing otherwise, and
    the committee of a round is the last one that had started, up to the round of the
    latest committee. *)
Theorem committee_store_refines (l : list (Z * Committee)) :
  len l <= u32_max -> Forall (fun p => is_u64 (starting_round p.2)) l ->
  let st := (spec_attempts None l).2 in
  exists s, attempts open_storage l = ((spec_attempts None l).1, s) /\
    (forall r, get_committee_for_round r s = committee_of st r) /\
    (forall cs R, st = Some (cs, R) -> ok (current_committee s) = last cs /\ current_round s = Ok R).
Proof.
  intros Hl Hu st. destruct (attempts_refine l open_storage None stores_open Hl Hu) as (s & Hs & v & Hv & Hst). fold st in Hst.
  exists s. split; [exact Hs|]. destruct st as [[cs R]|].
  - split; [intros r; by apply (history_lookup s v)|]. intros ? ? [= <- <-]. rewrite (reads_current_round _ _ Hv), (history_round _ _ _ Hst). split; [|done].
    unfold current_committee. rewrite (reads_current_height _ _ Hv), (history_height _ _ _ Hst). cbn [mbind result_bind].
    rewrite (reads_committee _ _ _ Hv), (history_committees _ _ _ Hst), last_lookup. pose proof (history_first _ _ _ Hst) as Hf.
    destruct cs as [|c cs]; [done|]. unfold len. cbn [length]. rewrite decide_True by lia.
    replace (Z.to_nat (Z.of_nat (S (length cs)) - 1)) with (length cs) by lia. cbn [pred Nat.pred]. destruct ((c :: cs) !! length cs) eqn:Hc; [done|].
    apply lookup_ge_None in Hc. cbn in Hc. lia.
  - split; [|done]. intros r. subst v. unfold get_committee_for_round. by rewrite (reads_height _ _ _ Hv).
Qed.

(** ** Removing the latest committee *)

Section Remove.
Context (s : CommitteeStorage N) (v : view) (cs : list Committee) (c : Committee) (R : Z).
Context (Hv : rests s v) (Hh : history v (cs ++ [c]) R) (Hcs : cs <> []).

Lemma latest_round_pos : 1 <= starting_round c <= R.
Proof.
  pose proof Hh as [_ _ _ Hs Hf Hl]. split; [|by apply Hl, elem_of_app; right; left].
  destruct cs as [|c0 cs']; [done|]. cbn in Hf. injection Hf as Hf. rewrite fmap_app in Hs.
  assert (starting_round c0 < starting_round c); [|lia].
  apply (StronglySorted_app_1_elem_of _ _ _ _ _ Hs); [by left|by left].
Qed.

(** The height of a round is that of the latest committee from its first round on. *)
Lemma latest_heights r :
  get_height_for_round r s =
  if decide (0 <= r <= R) then Some (if decide (starting_round c <= r) then len cs else len (base.filter (fun c => starting_round c <= r) cs) - 1) else None.
Proof.
  rewrite (reads_height _ _ _ Hv), (history_heights _ _ _ Hh). case_decide as Hr; [|done]. rewrite filter_app, filter_cons, filter_nil, len_app.
  case_decide as Hc; [|f_equal; unfold len; cbn; lia]. rewrite started_all.
  - f_equal. unfold len. cbn. lia.
  - intros c' Hc'. pose proof (history_sorted _ _ _ Hh) as Hs. rewrite fmap_app in Hs.
    assert (starting_round c' < starting_round c); [|lia].
    apply (StronglySorted_app_1_elem_of _ _ _ _ _ Hs); [by apply list_elem_of_fmap_2|by left].
Qed.

Lemma earlier_height r : r < starting_round c -> get_height_for_round r s <> Some (len cs).
Proof.
  intros Hr. rewrite latest_heights. case_decide; [|done]. rewrite decide_False by lia. intros [= Heq].
  assert (len (base.filter (fun c => starting_round c <= r) cs) <= len cs); [|lia]. unfold len. apply inj_le, length_filter.
Qed.

Lemma earliest_found : earliest_from (len cs) s (Z.to_nat (starting_round c)) = starting_round c - 1.
Proof.
  pose proof latest_round_pos as Hpos. destruct (Z.to_nat (starting_round c)) as [|p] eqn:Hp; [lia|]. cbn [earliest_from].
  rewrite decide_True by (rewrite latest_heights, !decide_True by lia; done). destruct p as [|p]; cbn [earliest_from]; [lia|].
  rewrite decide_False by (apply earlier_height; lia). lia.
Qed.

Lemma latest_found fuel r :
  starting_round c <= r <= R + 1 -> R < u64_max -> (Z.to_nat (R + 1 - r) < fuel)%nat -> latest_from fuel (len cs) r s = Ok (R + 1).
Proof.
  intros Hr HR. pose proof latest_round_pos as Hpos. revert r Hr. induction fuel as [|fuel IH]; intros r Hr Hf; [lia|]. cbn [latest_from].
  destruct (decide (r <= R)).
  - rewrite decide_True by (rewrite latest_heights, !decide_True by lia; done). replace (u64_saturating_add r 1) with (r + 1) by mlia. apply IH; lia.
  - rewrite decide_False by (rewrite latest_heights, decide_False by lia; done). f_equal. lia.
Qed.

Lemma previous_found p : starting_round c - 1 <= Z.of_nat p < R + 1 -> previous_round (len cs) s p = starting_round c - 1.
Proof.
  pose proof latest_round_pos as Hpos. induction p as [|p IH]; intros Hp; cbn [previous_round]; [lia|]. rewrite latest_heights, decide_True by lia.
  destruct (decide (starting_round c <= Z.of_nat (S p))) as [Hle|Hlt].
  - rewrite decide_False by lia. apply IH. lia.
  - pose proof (earlier_height (Z.of_nat (S p)) ltac:(lia)) as Hne. rewrite latest_heights, decide_True, decide_False in Hne by lia.
    assert (len (base.filter (fun c => starting_round c <= Z.of_nat (S p)) cs) <= len cs) by (unfold len; apply inj_le, length_filter).
    rewrite decide_True by lia. lia.
Qed.

Lemma enough_fuel : (Z.to_nat (R + 1 - starting_round c) < S (size (Batch.contents (round_to_height_map s))))%nat.
Proof.
  pose proof latest_round_pos as Hpos. pose proof (MemoryMapProps.as_len _ _ (MemoryMapProps.rel_reads _ _ (rests_heights _ _ Hv))) as Hlen.
  unfold MemoryMap.len_confirmed in Hlen. cbn [committed] in Hlen. apply Nat2Z.inj in Hlen. rewrite Hlen. apply le_n_S.
  rewrite <-size_dom. transitivity (size (list_to_set (C := gset Z) (seqZ (starting_round c) (R + 1 - starting_round c)))).
  - rewrite size_list_to_set by apply NoDup_seqZ. by rewrite length_seqZ.
  - apply subseteq_size. intros r. rewrite elem_of_list_to_set, elem_of_seqZ, elem_of_dom, (history_heights _ _ _ Hh). intros Hr.
    rewrite decide_True by lia. by eexists.
Qed.

(** What [remove] leaves. *)
Definition removed_from (w : view) : view :=
  mk_view (if decide (starting_round c = 1) then delete ROUND_KEY (v_round w) else <[ROUND_KEY := starting_round c - 1]> (delete ROUND_KEY (v_round w)))
    (foldl (fun m r => delete r m) (v_heights w) (rounds_between (starting_round c) (R + 1))) (delete (len cs) (v_committees w)).
Definition removed : view := removed_from v.

Lemma remove_writes : R < u64_max -> exists s', remove (len cs) s = (Ok tt, s') /\ rests s' removed.
Proof.
  intros HR. pose proof latest_round_pos as Hpos. unfold remove. cbn [sget sbind]. rewrite (reads_current_round _ _ Hv), (history_round _ _ _ Hh). cbn [ok_or slift sbind].
  rewrite (reads_current_height _ _ Hv), (history_height _ _ _ Hh). cbn [slift sbind].
  replace (len (cs ++ [c]) - 1) with (len cs) by (rewrite len_app; unfold len; cbn; lia).
  rewrite (reads_committee _ _ _ Hv), (history_committees _ _ _ Hh), decide_True by apply len_nonneg. unfold len at 1. rewrite Nat2Z.id, list_lookup_middle by done.
  cbn [ok_or slift sbind]. rewrite earliest_found, (bool_decide_true (starting_round c - 1 <> starting_round c)) by lia.
  rewrite (latest_found _ (starting_round c)) by (lia || apply enough_fuel). cbn [slift sbind].
  rewrite (bool_decide_true (len cs = len cs)) by done. replace (starting_round c - 1 + 1) with (starting_round c) by lia.
  rewrite previous_found by (unfold saturating_sub; lia). rewrite (bool_decide_true (R <> starting_round c - 1)) by lia. cbn [andb].
  apply (scope_Ok _ _ v removed_from tt Hv). intros s1 w sv Hw. pose proof (works_unset_round s1 v w sv Hw) as Hw1. unfold removed_from.
  set (s2 := (unset_round s1).2) in *. destruct (decide (starting_round c = 1)) as [H1|H1].
  - rewrite bool_decide_false by lia.
    destruct (works_unset_heights (rounds_between (starting_round c) (R + 1)) _ _ _ _ Hw1) as (s3 & Hs3 & Hw2).
    eexists. split; [|exact (works_unset_committee _ _ _ _ (len cs) Hw2)]. erewrite (sbind_run _ _ _ tt s2) by done. by rewrite (sbind_run _ _ _ _ _ Hs3).
  - rewrite bool_decide_true by lia. pose proof (works_set_round s2 v _ _ (starting_round c - 1) Hw1) as Hw2.
    set (s3 := (set_round (starting_round c - 1) s2).2) in *.
    destruct (works_unset_heights (rounds_between (starting_round c) (R + 1)) _ _ _ _ Hw2) as (s4 & Hs4 & Hw3).
    eexists. split; [|exact (works_unset_committee _ _ _ _ (len cs) Hw3)]. erewrite (sbind_run _ _ _ tt s3) by done. by rewrite (sbind_run _ _ _ _ _ Hs4).
Qed.

Lemma removed_heights r : v_heights removed !! r = if decide (r < starting_round c) then v_heights v !! r else None.
Proof.
  unfold removed, removed_from. cbn [v_heights]. rewrite unset_heights_lookup. pose proof latest_round_pos as Hpos. case_decide as Hr; rewrite elem_of_rounds_between in Hr.
  - by rewrite decide_False by lia.
  - case_decide; [done|]. rewrite (history_heights _ _ _ Hh). by rewrite decide_False by lia.
Qed.

Lemma removed_committees h : v_committees removed !! h = if decide (0 <= h) then cs !! Z.to_nat h else None.
Proof.
  unfold removed, removed_from. cbn [v_committees]. destruct (decide (h = len cs)) as [->|Hne].
  - rewrite lookup_delete_eq, decide_True by apply len_nonneg. unfold len. rewrite Nat2Z.id. symmetry. by apply lookup_ge_None.
  - rewrite lookup_delete_ne by done. rewrite (history_committees _ _ _ Hh). destruct (decide (0 <= h)); [|done].
    destruct (decide (h < len cs)); unfold len in *; [by rewrite lookup_app_l by lia|].
    rewrite !lookup_ge_None_2; [done|lia|rewrite length_app; cbn; lia].
Qed.

Lemma removed_history : 1 < starting_round c -> history removed cs (starting_round c - 1).
Proof.
  intros H1. pose proof latest_round_pos as Hpos. pose proof Hh as [_ Hhs _ Hs Hf Hl]. pose proof Hs as Hs'. rewrite fmap_app in Hs'. split.
  - unfold removed, removed_from. cbn [v_round]. rewrite decide_False by lia. apply lookup_insert_eq.
  - intros r. rewrite removed_heights. destruct (decide (r < starting_round c)); [|by rewrite decide_False by lia].
    rewrite Hhs. destruct (decide (0 <= r <= R)); [|by rewrite decide_False by lia]. rewrite decide_True by lia.
    rewrite filter_app, filter_cons, (decide_False (P := starting_round c <= r)), filter_nil, app_nil_r by lia. done.
  - apply removed_committees.
  - by apply StronglySorted_app_1_l in Hs'.
  - by destruct cs.
  - intros c' Hc'. split; [apply Hl, elem_of_app; by left|]. assert (starting_round c' < starting_round c); [|lia].
    apply (StronglySorted_app_1_elem_of _ _ _ _ _ Hs'); [by apply list_elem_of_fmap_2|by left].
Qed.
(** The rounds before the removed committee keep their committees. *)
Lemma removed_lookup s' r : rests s' removed ->
  get_committee_for_round r s' = if decide (r < starting_round c) then get_committee_for_round r s else None.
Proof.
  intros Hv'. unfold get_committee_for_round. rewrite (reads_height _ _ _ Hv'), removed_heights. case_decide as Hr; [|done].
  pose proof (earlier_height r Hr) as Hne. rewrite (reads_height _ _ _ Hv) in *.
  destruct (v_heights v !! r) as [h|]; [|done]. rewrite (reads_committee _ _ _ Hv'), (reads_committee _ _ _ Hv).
  unfold removed, removed_from. cbn [v_committees]. rewrite lookup_delete_ne by congruence. done.
Qed.

(** Without a current round nothing can be inserted: only a genesis committee
    could be, and its round is taken. *)
Lemma removed_stuck s' : starting_round c = 1 -> rests s' removed ->
  is_ok (current_committee s') = false /\ forall h c', is_ok (insert h c' s').1 = false.
Proof.
  intros H1 Hv'. pose proof latest_round_pos as Hpos.
  assert (exists h0, v_heights removed !! 0 = Some h0) as [h0 Hh0].
  { rewrite removed_heights, decide_True by lia. rewrite (history_heights _ _ _ Hh), decide_True by lia. eauto. }
  assert (v_round removed !! ROUND_KEY = None) as Hr.
  { unfold removed, removed_from. cbn [v_round]. rewrite decide_True by done. apply lookup_delete_eq. }
  assert (view_height removed = Err "Current round not found in committee storage") as Hch by (unfold view_height; by rewrite Hr).
  split; [unfold current_committee; by rewrite (reads_current_height _ _ Hv'), Hch|]. intros h c'. unfold insert. cbn [sget sbind].
  unfold check_insert. rewrite (reads_current_round _ _ Hv'), Hr, (reads_current_height _ _ Hv'), Hch. cbn [ok_or]. rewrite !ensure_dec.
  rewrite (MemoryMapProps.as_contains _ _ (MemoryMapProps.rel_reads _ _ (rests_heights _ _ Hv'))). cbn [committed].
  destruct (decide (h <= starting_round c')); [|done]. destruct (decide (starting_round c' = 0)) as [->|]; [|done]. destruct (decide (h = 0)); [|done].
  rewrite bool_decide_true by (apply elem_of_dom; by eexists). done.
Qed.
End Remove.

(** C37: what removing the latest committee leaves, when it is not the first of
    the history.  The rounds before its first one keep their committees and the
    later ones have none.  If it started after round 1, the history is the one
    before it with the current round just below, so that a committee of the same
    height can follow from that round on.  If it started at round 1, the store
    has no current round any more, and neither gives a current committee nor
    accepts an insertion. *)
Theorem remove_reverts (s : CommitteeStorage N) (cs : list Committee) (c : Committee) (R : Z) :
  stores s (Some (cs ++ [c], R)) -> cs <> [] -> R < u64_max ->
  exists s', remove (len cs) s = (Ok tt, s') /\
    (forall r, get_committee_for_round r s' = if decide (r < starting_round c) then get_committee_for_round r s else None) /\
    (if decide (1 < starting_round c) then stores s' (Some (cs, starting_round c - 1))
     else starting_round c = 1 /\ is_ok (current_committee s') = false /\ forall h c', is_ok (insert h c' s').1 = false).
Proof.
  intros (v & Hv & Hh) Hcs HR. destruct (remove_writes s v cs c R Hv Hh Hcs HR) as (s' & Hs' & Hv'). exists s'. split; [done|].
  split; [intros r; by apply (removed_lookup s v cs c R)|]. pose proof (latest_round_pos v cs c R Hh Hcs) as Hpos. case_decide as H1.
  - exists (removed v cs c R). split; [done|]. by apply removed_history.
  - assert (starting_round c = 1) as E by lia. split; [done|]. by apply (removed_stuck v cs c R Hh Hcs).
Qed.
End CommitteeStore.
End CommitteeStoreProps.

(** ** Witnesses *)

Import CommitteeStore.

#[export] Instance serialize_integer : Serialize Z := {|
  serialize z := [z];
  deserialize l := match l with [z] => Ok z | _ => Err "invalid integer" end;
|}.
#[export] Instance serialize_integer_laws : SerializeLaws Z.
Proof. split; [done|]. by intros k k' x y [=]. Qed.

Definition committee_at (round : Z) : Committee (N := TestNetwork) := mk_committee "0"%char round [] 0.

(** The third insertion repeats a height. *)
Lemma committee_store_refines_witness :
  exists s, CommitteeStoreProps.attempts open_storage [(0, committee_at 0); (1, committee_at 4); (1, committee_at 6)] = ([true; true; false], s) /\
    get_committee_for_round 3 s = Some (committee_at 0) /\ get_committee_for_round 4 s = Some (committee_at 4) /\
    get_committee_for_round 5 s = None.
Proof.
  destruct (CommitteeStoreProps.committee_store_refines (N := TestNetwork) [(0, committee_at 0); (1, committee_at 4); (1, committee_at 6)])
    as (s & Hs & Hr & _); [vm_compute; discriminate|repeat constructor; cbn; mlia|].
  exists s. split; [exact Hs|]. split; [exact (Hr 3)|]. split; [exact (Hr 4)|exact (Hr 5)].
Defined.

Lemma sample_stores : exists s, CommitteeStoreProps.stores (N := TestNetwork) s (Some ([committee_at 0] ++ [committee_at 4], 4)).
Proof.
  destruct (CommitteeStoreProps.attempts_refine (N := TestNetwork) [(0, committee_at 0); (1, committee_at 4)] open_storage None CommitteeStoreProps.stores_open)
    as (s & _ & Hs); [vm_compute; discriminate|repeat constructor; cbn; mlia|]. exists s. exact Hs.
Qed.

Lemma first_stores : exists s, CommitteeStoreProps.stores (N := TestNetwork) s (Some ([committee_at 0] ++ [committee_at 1], 1)).
Proof.
  destruct (CommitteeStoreProps.attempts_refine (N := TestNetwork) [(0, committee_at 0); (1, committee_at 1)] open_storage None CommitteeStoreProps.stores_open)
    as (s & _ & Hs); [vm_compute; discriminate|repeat constructor; cbn; mlia|]. exists s. exact Hs.
Qed.

(** A committee that started at round 4, and one that started at round 1. *)
Lemma remove_reverts_witness :
  (exists s s', CommitteeStoreProps.stores (N := TestNetwork) s (Some ([committee_at 0] ++ [committee_at 4], 4)) /\
    remove 1 s = (Ok tt, s') /\ CommitteeStoreProps.stores s' (Some ([committee_at 0], 3))) /\
  (exists s s', CommitteeStoreProps.stores (N := TestNetwork) s (Some ([committee_at 0] ++ [committee_at 1], 1)) /\
    remove 1 s = (Ok tt, s') /\ forall h c, is_ok (insert h c s').1 = false).
Proof.
  split.
  - destruct sample_stores as [s Hs].
    destruct (CommitteeStoreProps.remove_reverts (N := TestNetwork) s [committee_at 0] (committee_at 4) 4 Hs) as (s' & H1 & _ & H2);
      [discriminate|unfold u64_max; lia|]. exists s, s'. split; [exact Hs|]. split; [exact H1|exact H2].
  - destruct first_stores as [s Hs].
    destruct (CommitteeStoreProps.remove_reverts (N := TestNetwork) s [committee_at 0] (committee_at 1) 1 Hs) as (s' & H1 & _ & H2);
      [discriminate|unfold u64_max; lia|]. exists s, s'. split; [exact Hs|]. split; [exact H1|exact (proj2 (proj2 H2))].
Defined.
