(* ===== verification/Rewards.v ===== *)
(** * Staking and proving rewards

    snarkVM/synthesizer/src/vm/helpers/rewards.rs: how the reward of a block is shared
    among the stakers of the committee, and the puzzle reward among the provers; and the
    maps of stakers and delegations of helpers/committee.rs.  [IndexMap]s are
    association lists with distinct keys, in their order. *)

From S2P Require Import Prelude Bytes Network Committee Targets.

Definition MIN_DELEGATOR_STAKE : Z := 10000000000.
Definition MIN_VALIDATOR_SELF_STAKE : Z := 100000000.
Definition MAX_DELEGATORS : Z := 100000.

(** [T::try_from(x).expect(..)] to a [u64]. *)
Definition expect_u64 (z : Z) (msg : string) : result Z := if decide (0 <= z <= u64_max) then Ok z else Panic msg.

Module Rewards.
Import Targets.

Section Rewards.
Context `{N : Network}.

(** A staker, with the validator it is bonded to and its stake. *)
Definition staker : Type := Address * (Address * Z).

(** ** [staking_rewards] *)

(** The validators whose stakers are rewarded, with their stake and commission. *)
Definition valid_validators (committee : Committee) : list (Address * (Z * Z)) :=
  omap (fun p : Address * member_state =>
          let '(validator, (validator_stake, _, commission_rate)) := p in
          if decide (100 < commission_rate) then None
          else if decide (Z.quot (total_stake committee) 4 < validator_stake) then None
          else Some (validator, (validator_stake, commission_rate))) (members committee).

(** The share of the reward for an amount of stake. *)
Definition share (block_reward stake total_stake : Z) : Z := Z.quot (u128_saturating_mul block_reward stake) total_stake.

Definition reward_staker (committee : Committee) (block_reward : Z) (p : staker) : result staker :=
  let '(staker, (validator, stake)) := p in
  match imap_get validator (valid_validators committee) with
  | None => Ok p
  | Some (validator_stake, commission_rate) =>
      if decide (stake < MIN_DELEGATOR_STAKE /\ staker <> validator) then Ok p else
      let quotient := share block_reward stake (total_stake committee) in
      if decide (MAX_COINBASE_REWARD < quotient) then Ok p else
      staking_reward ← expect_u64 quotient "Staking reward is too large";
      staking_reward_after_commission ←
        (if decide (staker = validator) then
           let total_delegated_stake := saturating_sub validator_stake stake in
           let quotient := share block_reward total_delegated_stake (total_stake committee) in
           let total_commission_to_receive := Z.quot (u128_saturating_mul quotient commission_rate) 100 in
           total_commission_to_receive ← expect_u64 total_commission_to_receive "Commission is too large";
           Ok (u64_saturating_add staking_reward total_commission_to_receive)
         else
           let commission := Z.quot (u128_saturating_mul quotient commission_rate) 100 in
           commission_to_pay ← expect_u64 commission "Commission is too large";
           Ok (saturating_sub staking_reward commission_to_pay));
      Ok (staker, (validator, u64_saturating_add stake staking_reward_after_commission))
  end.

Definition staking_rewards (stakers : list staker) (committee : Committee) (block_reward : Z) : result (list staker) :=
  if decide (stakers = [] \/ total_stake committee = 0 \/ block_reward = 0) then Ok stakers
  else mapM (reward_staker committee block_reward) stakers.

(** ** [proving_rewards] *)

(** [*rewards.entry(address).or_default()] with an amount added. *)
Definition entry_add (address : Address) (amount : Z) (m : list (Address * Z)) : list (Address * Z) :=
  imap_insert address (u64_saturating_add (default 0 (imap_get address m)) amount) m.

Definition reward_prover (puzzle_reward combined_proof_target : Z) (rewards : list (Address * Z)) (p : Address * Z) : result (list (Address * Z)) :=
  let '(address, proof_target) := p in
  let quotient := share puzzle_reward proof_target (Z.max combined_proof_target 1) in
  if decide (MAX_COINBASE_REWARD < quotient) then Ok rewards else
  prover_reward ← expect_u64 quotient "Prover reward is too large";
  Ok (if decide (0 < prover_reward) then entry_add address prover_reward rewards else rewards).

Definition proving_rewards (proof_targets : list (Address * Z)) (puzzle_reward : Z) : result (list (Address * Z)) :=
  let combined_proof_target := sumZ proof_targets.*2 in
  if decide (proof_targets = [] \/ combined_proof_target = 0 \/ puzzle_reward = 0) then Ok []
  else foldM (reward_prover puzzle_reward combined_proof_target) [] proof_targets.

(** ** Delegations *)

(** The closure that [cfg_reduce!] combines two maps with. *)
Definition merge (acc e : list (Address * Z)) : list (Address * Z) := foldl (fun acc p => entry_add p.1 p.2 acc) acc e.

(** [cfg_reduce!] of the one-entry maps, from the first to the last. *)
Definition reduce (l : list (Address * Z)) : list (Address * Z) := foldl (fun acc p => merge acc [p]) [] l.

(** The same in parallel: the list is split, the parts are reduced on their own and the
    results combined. *)
Inductive tree := Leaf (l : list (Address * Z)) | Node (t1 t2 : tree).
Fixpoint leaves (t : tree) : list (Address * Z) := match t with Leaf l => l | Node t1 t2 => leaves t1 ++ leaves t2 end.
Fixpoint par_reduce (t : tree) : list (Address * Z) :=
  match t with Leaf l => reduce l | Node t1 t2 => merge (par_reduce t1) (par_reduce t2) end.

Definition to_next_delegated (next_stakers : list staker) : list (Address * Z) := reduce next_stakers.*2.

(** The stake of the stakers by validator, of the members of the committee. *)
Definition validator_map (committee : Committee) (stakers : list staker) : list (Address * Z) :=
  reduce (base.filter (fun p => imap_contains p.1 (members committee) = true) stakers.*2).

Definition ensure_stakers_matches (committee : Committee) (stakers : list staker) : result unit :=
  let validator_map := validator_map committee stakers in
  let total_microcredits := foldl u64_saturating_add 0 validator_map.*2 in
  _ ← ensure (bool_decide (len (members committee) = len validator_map)) "Committee and validator map length do not match";
  _ ← ensure (bool_decide (total_stake committee = total_microcredits)) "Committee and validator map total stake do not match";
  foldM (fun _ p =>
    let candidate_microcredits := imap_get p.1 validator_map in
    _ ← ensure (bool_decide (is_Some candidate_microcredits)) "A validator is missing in finalize storage";
    microcredits ← unwrap "called `Option::unwrap()` on a `None` value" candidate_microcredits;
    ensure (bool_decide (stake_of p.2 = microcredits)) "Committee contains an incorrect 'microcredits' amount from stakers") tt (members committee).

Definition to_next_committee (current_committee : Committee) (next_round : Z) (next_delegated : list (Address * Z)) : result Committee :=
  committee_new next_round
    (omap (fun p : Address * Z =>
             (fun m : member_state => (p.1, (p.2, m.1.2, m.2))) <$> imap_get p.1 (members current_committee)) next_delegated).
End Rewards.
End Rewards.
