(* ===== verification/RewardsProps.v ===== *)
(** * Properties of the rewards

    Reductions in parallel give what they give in sequence; nobody loses stake when a
    block reward is shared, and what is paid is the reward and at most one microcredit
    per delegator; provers are paid at most the puzzle reward. *)

From S2P Require Import Prelude Bytes Network Committee Targets Rewards.

(** ** Sums *)

Lemma sumZ_le {A} (f g : A -> Z) (l : list A) : (forall x, x ∈ l -> f x <= g x) -> sumZ (f <$> l) <= sumZ (g <$> l).
Proof.
  induction l as [|x l IH]; intros H; [done|]. rewrite !fmap_cons, !sumZ_cons. pose proof (H x ltac:(by left)).
  pose proof (IH ltac:(intros; apply H; by right)). lia.
Qed.

Lemma sumZ_fmap_add {A} (f g : A -> Z) (l : list A) : sumZ ((fun x => f x + g x) <$> l) = sumZ (f <$> l) + sumZ (g <$> l).
Proof. induction l as [|x l IH]; [done|]. rewrite !fmap_cons, !sumZ_cons. lia. Qed.

Lemma sumZ_fmap_mul {A} (f : A -> Z) k (l : list A) : sumZ ((fun x => k * f x) <$> l) = k * sumZ (f <$> l).
Proof. induction l as [|x l IH]; [cbn; lia|]. rewrite !fmap_cons, !sumZ_cons. lia. Qed.

(** A sum split by the keys of its terms, those with other keys being zero. *)
Lemma sumZ_by_key {A K} `{EqDecision K} (key : A -> K) (f : A -> Z) (ks : list K) (l : list A) :
  NoDup ks -> (forall x, x ∈ l -> key x ∉ ks -> f x = 0) ->
  sumZ (f <$> l) = sumZ ((fun k => sumZ (f <$> base.filter (fun x => key x = k) l)) <$> ks).
Proof.
  intros Hnd. induction l as [|x l IH]; intros Hz.
  - cbn. clear. induction ks as [|k ks IH]; [done|]. rewrite fmap_cons, sumZ_cons, <-IH. done.
  - rewrite fmap_cons, sumZ_cons, IH by (intros; apply Hz; [by right|done]).
    assert (sumZ ((fun k => sumZ (f <$> base.filter (fun y => key y = k) (x :: l))) <$> ks) =
            sumZ ((fun k => (if decide (key x = k) then f x else 0) + sumZ (f <$> base.filter (fun y => key y = k) l)) <$> ks)) as ->.
    { f_equal. apply list_fmap_ext. intros _ k _. rewrite filter_cons. by case_decide. }
    rewrite sumZ_fmap_add. f_equal. destruct (decide (key x ∈ ks)) as [Hin|Hni].
    + clear -Hin Hnd. induction ks as [|k ks IH]; [by apply not_elem_of_nil in Hin|]. rewrite fmap_cons, sumZ_cons. apply NoDup_cons in Hnd as [Hni Hnd].
      case_decide as Hk.
      * assert (sumZ ((fun k' => if decide (key x = k') then f x else 0) <$> ks) = 0); [|lia]. subst k. clear -Hni. induction ks as [|k ks IH]; [done|].
        apply not_elem_of_cons in Hni as [Hne Hni]. rewrite fmap_cons, sumZ_cons, decide_False by done. by rewrite (IH Hni).
      * apply elem_of_cons in Hin as [Hin|Hin]; [congruence|]. by rewrite <-IH.
    + rewrite (Hz x ltac:(by left) Hni). clear. induction ks as [|k ks IH]; [done|]. rewrite fmap_cons, sumZ_cons, <-IH. by case_decide.
Qed.

Module RewardsProps.
Import Targets Rewards.

Section Rewards.
Context `{N : Network}.
Implicit Types (acc : list (Address * Z)) (a : Address).

(** ** Reductions *)

Lemma imap_insert_insert {V} (k : Address) (v v' : V) (l : list (Address * V)) : imap_insert k v' (imap_insert k v l) = imap_insert k v' l.
Proof. induction l as [|[k1 v1] l IH]; cbn; [by rewrite decide_True|]. case_decide; cbn; [by rewrite decide_True by congruence|]. rewrite decide_False by done. by rewrite IH. Qed.

Lemma imap_insert_swap {V} (k k' : Address) (v v' : V) (l : list (Address * V)) :
  k ∈ l.*1 -> k <> k' -> imap_insert k v (imap_insert k' v' l) = imap_insert k' v' (imap_insert k v l).
Proof.
  induction l as [|[k1 v1] l IH]; intros Hin Hne; [by apply not_elem_of_nil in Hin|]. cbn in *. repeat (case_decide; cbn; try done).
  - subst. done.
  - f_equal. apply IH; [|done]. apply elem_of_cons in Hin as [->|]; done.
Qed.

Lemma saturating_assoc x y z : 0 <= x -> 0 <= y -> 0 <= z -> u64_saturating_add (u64_saturating_add x y) z = u64_saturating_add x (u64_saturating_add y z).
Proof. intros. mlia. Qed.

(** Amounts are [u64]s. *)
Definition amounts (l : list (Address * Z)) : Prop := Forall (fun p => is_u64 p.2) l.

Lemma amounts_get l a v : amounts l -> imap_get a l = Some v -> is_u64 v.
Proof. intros H Hg. apply imap_get_elem in Hg. unfold amounts in H. rewrite Forall_forall in H. apply (H _ Hg). Qed.

Lemma amounts_default l a : amounts l -> 0 <= default 0 (imap_get a l).
Proof. intros H. destruct (imap_get a l) as [v|] eqn:Hg; cbn; [|lia]. apply amounts_get in Hg; [|done]. apply Hg. Qed.

Lemma entry_add_amounts a v l : amounts l -> 0 <= v -> amounts (entry_add a v l).
Proof.
  intros Hl Hv. pose proof (amounts_default l a Hl). unfold entry_add. set (x := u64_saturating_add _ v). assert (is_u64 x) as Hx by (unfold x; mlia). clearbody x. clear -Hl Hx.
  unfold amounts in *. induction l as [|[a1 v1] l IH]; cbn; [by apply Forall_singleton|]. apply Forall_cons in Hl as [H1 Hl]. case_decide; constructor; auto.
Qed.

Lemma entry_add_twice a v w l : amounts l -> 0 <= v -> 0 <= w -> entry_add a w (entry_add a v l) = entry_add a (u64_saturating_add v w) l.
Proof.
  intros Hl Hv Hw. unfold entry_add. rewrite imap_insert_insert. f_equal. rewrite imap_get_insert, decide_True by done. cbn.
  apply saturating_assoc; [by apply amounts_default|done..].
Qed.

Lemma entry_add_swap a b v w l : a ∈ l.*1 -> a <> b -> entry_add a v (entry_add b w l) = entry_add b w (entry_add a v l).
Proof.
  intros Ha Hne. unfold entry_add. rewrite (imap_insert_swap a b) by done. by rewrite !imap_get_insert, !decide_False by congruence.
Qed.

Lemma entry_add_keys a v l k : k ∈ (entry_add a v l).*1 <-> k = a \/ k ∈ l.*1.
Proof.
  unfold entry_add. generalize (u64_saturating_add (default 0 (imap_get a l)) v). intros x. induction l as [|[a1 v1] l IH]; cbn.
  - rewrite elem_of_cons. done.
  - case_decide; cbn; rewrite !elem_of_cons; [naive_solver|]. rewrite IH. naive_solver.
Qed.

Lemma entry_add_NoDup a v l : NoDup l.*1 -> NoDup (entry_add a v l).*1.
Proof. apply imap_insert_NoDup. Qed.

Lemma merge_amounts e : forall acc, amounts acc -> amounts e -> amounts (merge acc e).
Proof.
  induction e as [|[b w] e IH]; intros acc Ha He; [done|]. apply Forall_cons in He as [Hb He]. apply IH; [|done]. apply entry_add_amounts; [done|]. apply Hb.
Qed.

(** Adding to the right argument of a merge is adding to the result. *)
Lemma merge_entry_add a v e : forall acc,
  amounts acc -> amounts e -> is_u64 v -> NoDup e.*1 -> merge acc (entry_add a v e) = entry_add a v (merge acc e).
Proof.
  induction e as [|[b w] e IH]; intros acc Ha He Hv Hnd.
  - change (entry_add a (u64_saturating_add 0 v) acc = entry_add a v acc). f_equal. mlia.
  - apply Forall_cons in He as [Hb He]. cbn in Hnd. apply NoDup_cons in Hnd as [Hni Hnd]. unfold entry_add at 1. cbn [imap_get imap_insert]. case_decide as Hab.
    + subst b. cbn [default from_option id]. unfold merge. cbn [foldl fst snd]. rewrite <-(entry_add_twice a w v acc) by (try done; apply Hb || apply Hv).
      assert (a ∈ (entry_add a w acc).*1) as Hin by (apply entry_add_keys; by left). revert Hin. generalize (entry_add a w acc). clear -Hni. induction e as [|[b x] e IHe]; intros l Hl; [done|].
      cbn in *. apply not_elem_of_cons in Hni as [Hne Hni]. rewrite <-entry_add_swap by done. apply (IHe Hni). apply entry_add_keys. by right.
    + apply (IH (entry_add b w acc)); [apply entry_add_amounts; [done|apply Hb]|done..].
Qed.

Lemma merge_NoDup e : forall acc, NoDup acc.*1 -> NoDup (merge acc e).*1.
Proof. induction e as [|[b w] e IH]; intros acc H; [done|]. apply IH. by apply entry_add_NoDup. Qed.

Lemma merge_assoc e : forall acc acc',
  amounts acc -> amounts acc' -> amounts e -> NoDup acc'.*1 -> merge acc (merge acc' e) = merge (merge acc acc') e.
Proof.
  induction e as [|[b w] e IH]; intros acc acc' Ha Ha' He Hnd; [done|]. apply Forall_cons in He as [Hb He]. cbn [merge foldl] in *.
  change (merge acc (merge (entry_add b w acc') e) = merge (entry_add b w (merge acc acc')) e).
  rewrite <-merge_entry_add by done. apply IH; [done|apply entry_add_amounts; [done|apply Hb]|done|by apply entry_add_NoDup].
Qed.

Lemma reduce_merge l : reduce l = merge [] l.
Proof. done. Qed.

(** Reducing the delegations in parallel gives the map, in the order, of the
    sequential reduction, however the work is split. *)
Theorem parallel_reduce (t : tree) : amounts (leaves t) -> par_reduce t = reduce (leaves t).
Proof.
  induction t as [l|t1 IH1 t2 IH2]; intros H; [done|]. cbn [leaves par_reduce] in *. apply Forall_app in H as [H1 H2].
  rewrite (IH1 H1), (IH2 H2), !reduce_merge. rewrite merge_assoc; [|apply merge_amounts; [constructor|done]|constructor|done|constructor]. unfold merge. by rewrite foldl_app.
Qed.

(** The amounts of a key. *)
Definition sum_for (k : Address) (l : list (Address * Z)) : Z := sumZ (snd <$> base.filter (fun p => p.1 = k) l).

Lemma sum_for_cons k p l : sum_for k (p :: l) = (if decide (p.1 = k) then p.2 else 0) + sum_for k l.
Proof. unfold sum_for. rewrite filter_cons. by case_decide. Qed.

Lemma sum_for_nonneg k l : amounts l -> 0 <= sum_for k l.
Proof. intros H. apply sumZ_nonneg. intros x (p & -> & [_ Hp]%list_elem_of_filter)%list_elem_of_fmap. unfold amounts in H. rewrite Forall_forall in H. apply (H _ Hp). Qed.

Lemma merge_get k e : forall acc, amounts acc -> amounts e ->
  imap_get k (merge acc e) = if decide (k ∈ e.*1) then Some (u64_saturating_add (default 0 (imap_get k acc)) (sum_for k e)) else imap_get k acc.
Proof.
  induction e as [|[b w] e IH]; intros acc Ha He; [done|]. apply Forall_cons in He as [Hb He]. cbn [fst snd] in Hb.
  change (merge acc ((b, w) :: e)) with (merge (entry_add b w acc) e). rewrite IH; [|apply entry_add_amounts; [done|apply Hb]|done].
  rewrite sum_for_cons. unfold entry_add at 1 2. rewrite imap_get_insert. cbn [fst snd fmap list_fmap]. pose proof (sum_for_nonneg k e He). pose proof (amounts_default acc b Ha).
  destruct (decide (b = k)) as [->|Hne].
  - rewrite (decide_True (P := k ∈ k :: _)) by (by left). case_decide as Hin; f_equal; cbn; [mlia|].
    assert (sum_for k e = 0) as ->; [|mlia]. unfold sum_for. rewrite filter_none_in; [done|]. intros p Hp <-. apply Hin. by apply list_elem_of_fmap_2.
  - cbn. rewrite Z.add_0_l. repeat case_decide; try done; set_solver.
Qed.

Lemma reduce_get k l : amounts l -> imap_get k (reduce l) = if decide (k ∈ l.*1) then Some (Z.min u64_max (sum_for k l)) else None.
Proof. intros H. rewrite reduce_merge, merge_get by (done || constructor). case_decide; [|done]. f_equal. Qed.

Lemma reduce_NoDup l : NoDup (reduce l).*1.
Proof. rewrite reduce_merge. apply merge_NoDup. constructor. Qed.

(** ** One staker *)

Lemma valid_validator c v V rho :
  imap_get v (valid_validators c) = Some (V, rho) -> exists o, (v, (V, o, rho)) ∈ members c /\ rho <= 100 /\ V <= Z.quot (total_stake c) 4.
Proof.
  intros H%imap_get_elem. apply list_elem_of_omap in H as ([v' [[V' o] rho']] & Hin & H). repeat case_decide; simplify_eq. exists o. split; [done|lia].
Qed.

Lemma quot_share B s T : is_u64 B -> is_u64 s -> 0 < T -> share B s T = B * s / T.
Proof.
  intros HB Hs HT. unfold share, u128_saturating_mul, u128_max. unfold is_u64, u64_max in *. rewrite Z.min_r by nia. apply Z.quot_div_nonneg; nia.
Qed.

Lemma share_range B s T : is_u64 B -> 0 <= s <= T -> 0 < T -> 0 <= B * s / T <= B.
Proof. intros HB Hs HT. unfold is_u64 in HB. split; [apply Z.div_pos; nia|]. apply Z.div_le_upper_bound; nia. Qed.

(** What a staker can gain, scaled; the fraction of a delegator's reward that rounding
    leaves it is not counted. *)
Definition entitled (c : Committee) (B : Z) (p : staker) : Z :=
  match imap_get p.2.1 (valid_validators c) with
  | None => 0
  | Some (V, rho) => B * p.2.2 * (100 - rho) + (if decide (p.1 = p.2.1) then B * V * rho else 0)
  end.

(** The conditions of [ensure_stakers_matches], on integers without saturation. *)
Record matched (c : Committee) (stakers : list staker) : Prop := {
  matched_committee : committee_wf c;
  matched_keys : NoDup stakers.*1;
  matched_stakes : Forall (fun p => is_u64 p.2.2) stakers;
  matched_members p : p ∈ members c -> stake_of p.2 = sum_for p.1 stakers.*2;
}.

Lemma commission_range q rho : is_u64 q -> 0 <= rho <= 100 -> Z.quot (u128_saturating_mul q rho) 100 = q * rho / 100 /\ 0 <= q * rho / 100 <= q.
Proof.
  intros Hq Hr. unfold u128_saturating_mul, u128_max. unfold is_u64, u64_max in *. rewrite Z.min_r by nia. rewrite Z.quot_div_nonneg by nia.
  split; [done|]. split; [apply Z.div_pos; nia|]. apply Z.div_le_upper_bound; nia.
Qed.

Lemma expect_u64_Ok z msg : is_u64 z -> expect_u64 z msg = Ok z.
Proof. intros H. unfold expect_u64. by rewrite decide_True. Qed.

Lemma total_stake_range c : committee_wf c -> 0 < total_stake c <= u64_max.
Proof.
  intros Hc. pose proof (cwf_total_max _ Hc). split; [|done]. rewrite (cwf_total _ Hc). pose proof (cwf_size _ Hc) as Hsz. destruct (members c) as [|p ms] eqn:Hm; [cbn in Hsz; unfold len in Hsz; cbn in Hsz; lia|].
  rewrite fmap_cons, sumZ_cons. pose proof (cwf_stake _ Hc p ltac:(rewrite Hm; by left)) as Hp. unfold MIN_VALIDATOR_STAKE in Hp.
  assert (0 <= sumZ ((fun p => stake_of p.2) <$> ms)); [|lia]. apply sumZ_nonneg. intros x (q & -> & Hq)%list_elem_of_fmap.
  pose proof (cwf_stake _ Hc q ltac:(rewrite Hm; by right)) as Hq'. unfold MIN_VALIDATOR_STAKE in Hq'. lia.
Qed.

Definition is_delegator (p : staker) : Z := if decide (p.1 = p.2.1) then 0 else 1.

(** The arithmetic of one reward: [q] is the share of the stake, [x] the reward after
    commission. *)
Lemma delegator_gain B s T rho : 0 <= B -> 0 <= s -> 0 < T -> 0 <= rho <= 100 ->
  let q := B * s / T in 100 * T * (q - q * rho / 100) <= B * s * (100 - rho) + 99 * T.
Proof.
  intros HB Hs HT Hr q. pose proof (Z.mul_div_le (B * s) T HT) as Hq. fold q in Hq. assert (0 <= q) by (apply Z.div_pos; nia).
  pose proof (Z.mul_succ_div_gt (q * rho) 100 ltac:(lia)) as Hc. assert (100 * (q - q * rho / 100) <= q * (100 - rho) + 99) by lia.
  assert (T * q * (100 - rho) <= B * s * (100 - rho)) by (apply Z.mul_le_mono_nonneg_r; lia). nia.
Qed.

Lemma validator_gain B s V T rho : 0 <= B -> 0 <= s <= V -> 0 < T -> 0 <= rho <= 100 ->
  let q := B * s / T in let d := B * (V - s) / T in 100 * T * (q + d * rho / 100) <= B * s * (100 - rho) + B * V * rho.
Proof.
  intros HB Hs HT Hr q d. pose proof (Z.mul_div_le (B * s) T HT) as Hq. fold q in Hq. pose proof (Z.mul_div_le (B * (V - s)) T HT) as Hd. fold d in Hd.
  pose proof (Z.mul_div_le (d * rho) 100 ltac:(lia)) as Hc. assert (T * d * rho <= B * (V - s) * rho) by (apply Z.mul_le_mono_nonneg_r; lia). nia.
Qed.

Lemma reward_staker_spec c B p :
  committee_wf c -> is_u64 B -> is_u64 p.2.2 -> (forall o rho V, (p.2.1, (V, o, rho)) ∈ members c -> p.2.2 <= V) ->
  exists x, reward_staker c B p = Ok (p.1, (p.2.1, x)) /\ p.2.2 <= x <= u64_max /\
    100 * total_stake c * (x - p.2.2) <= entitled c B p + 99 * total_stake c * is_delegator p.
Proof.
  intros Hc HB Hs HV. pose proof (total_stake_range c Hc) as HT. destruct p as [a [v s]]. cbn [fst snd] in *. unfold reward_staker, entitled, is_delegator. cbn [fst snd].
  assert (forall z, 0 <= z -> exists x, Ok (a, (v, s)) = Ok (a, (v, x)) /\ s <= x <= u64_max /\ 100 * total_stake c * (x - s) <= z) as Hsame.
  { intros z Hz. exists s. split; [done|]. split; [mlia|]. lia. }
  destruct (imap_get v (valid_validators c)) as [[V rho]|] eqn:Hv; [|apply Hsame; case_decide; lia].
  destruct (valid_validator c v V rho Hv) as (o & Hin & Hr & HV4). pose proof (cwf_commission _ Hc _ Hin) as Hr0. unfold commission_of in Hr0. cbn in Hr0.
  pose proof (cwf_stake _ Hc _ Hin) as HVr. unfold stake_of, MIN_VALIDATOR_STAKE in HVr. cbn in HVr. specialize (HV _ _ _ Hin).
  assert (V <= total_stake c) as HVT by (rewrite Z.quot_div_nonneg in HV4 by lia; pose proof (Z.mul_div_le (total_stake c) 4 ltac:(lia)); lia).
  set (T := total_stake c) in *. assert (0 <= B * s * (100 - rho) + (if decide (a = v) then B * V * rho else 0) + 99 * T * (if decide (a = v) then 0 else 1)) as Hnn.
  { unfold is_u64 in *. assert (0 <= B * s) by nia. case_decide; nia. }
  destruct (decide (s < MIN_DELEGATOR_STAKE /\ a <> v)); [by apply Hsame|]. rewrite quot_share by (done || lia). set (q := B * s / T).
  destruct (decide (MAX_COINBASE_REWARD < q)) as [Hq|Hq]; [by apply Hsame|].
  pose proof (share_range B s T HB ltac:(unfold is_u64 in Hs; lia) ltac:(lia)) as Hqr. fold q in Hqr. assert (is_u64 q) as Hqu by (unfold is_u64 in *; lia).
  rewrite (expect_u64_Ok q) by exact Hqu. cbn [mbind result_bind]. destruct (decide (a = v)) as [->|Hne].
  - replace (saturating_sub V s) with (V - s) by (unfold saturating_sub; lia). assert (is_u64 (V - s)) as Hd by (unfold is_u64 in *; lia).
    rewrite quot_share by (done || lia). set (d := B * (V - s) / T). pose proof (share_range B (V - s) T HB ltac:(unfold is_u64 in Hd, Hs; lia) ltac:(lia)) as Hdr. fold d in Hdr.
    destruct (commission_range d rho) as [-> Hcr]; [unfold is_u64 in *; lia|lia|]. rewrite (expect_u64_Ok (d * rho / 100)) by (unfold is_u64 in *; lia). cbn [mbind result_bind].
    eexists. split; [done|]. pose proof (validator_gain B s V T rho ltac:(unfold is_u64 in HB; lia) ltac:(unfold is_u64 in Hs; lia) ltac:(lia) ltac:(lia)) as Hg. cbn zeta in Hg. fold q d in Hg.
    split; [mlia|]. set (g := q + d * rho / 100) in *. transitivity (100 * T * g); [|lia]. apply Z.mul_le_mono_nonneg_l; [lia|]. unfold u64_saturating_add. lia.
  - destruct (commission_range q rho) as [-> Hcr]; [done|lia|]. rewrite (expect_u64_Ok (q * rho / 100)) by (unfold is_u64 in *; lia). cbn [mbind result_bind].
    eexists. split; [done|]. pose proof (delegator_gain B s T rho ltac:(unfold is_u64 in HB; lia) ltac:(unfold is_u64 in Hs; lia) ltac:(lia) ltac:(lia)) as Hg. cbn zeta in Hg. fold q in Hg.
    replace (saturating_sub q (q * rho / 100)) with (q - q * rho / 100) by (unfold saturating_sub; lia).
    split; [mlia|]. transitivity (100 * T * (q - q * rho / 100)); [|lia]. apply Z.mul_le_mono_nonneg_l; [lia|]. unfold u64_saturating_add. lia.
Qed.

(** ** All stakers *)

Lemma sum_for_le k l p : amounts l -> p ∈ l -> p.1 = k -> p.2 <= sum_for k l.
Proof.
  intros Ha. induction l as [|q l IH]; intros Hp Hk; [by apply not_elem_of_nil in Hp|]. apply Forall_cons in Ha as [Hq Ha]. rewrite sum_for_cons.
  pose proof (sum_for_nonneg k l Ha). apply elem_of_cons in Hp as [->|Hp].
  - rewrite decide_True by done. lia.
  - specialize (IH Ha Hp Hk). unfold is_u64 in Hq. case_decide; lia.
Qed.

Lemma matched_amounts c stakers : matched c stakers -> amounts stakers.*2.
Proof. intros H. unfold amounts. rewrite Forall_fmap. exact (matched_stakes _ _ H). Qed.

Lemma matched_le c stakers p : matched c stakers -> p ∈ stakers -> forall o rho V, (p.2.1, (V, o, rho)) ∈ members c -> p.2.2 <= V.
Proof.
  intros Hm Hp o rho V Hin. pose proof (matched_members _ _ Hm _ Hin) as HV. unfold stake_of in HV. cbn in HV. rewrite HV.
  apply sum_for_le; [by eapply matched_amounts|by apply list_elem_of_fmap_2|done].
Qed.

(** The entitlements of the stakers of one validator. *)
Lemma entitled_of_validator c B stakers v V rho :
  matched c stakers -> is_u64 B -> imap_get v (valid_validators c) = Some (V, rho) ->
  sumZ (entitled c B <$> base.filter (fun p => p.2.1 = v) stakers) <= 100 * B * V.
Proof.
  intros Hm HB Hv. destruct (valid_validator c v V rho Hv) as (o & Hin & Hr & _). pose proof (cwf_commission _ (matched_committee _ _ Hm) _ Hin) as Hr0.
  unfold commission_of in Hr0. cbn in Hr0. pose proof (matched_members _ _ Hm _ Hin) as HV. unfold stake_of in HV. cbn in HV.
  pose proof (matched_keys _ _ Hm) as Hnd. pose proof (matched_stakes _ _ Hm) as Hst. pose proof (sum_for_nonneg v _ (matched_amounts _ _ Hm)) as Hnn.
  assert (forall l : list (Address * (Address * Z)), NoDup l.*1 -> sumZ (entitled c B <$> base.filter (fun p : Address * (Address * Z) => p.2.1 = v) l) =
    B * (100 - rho) * sum_for v l.*2 + (if decide ((v, v) ∈ (fun p : Address * (Address * Z) => (p.1, p.2.1)) <$> l) then B * V * rho else 0)) as Hsum.
  { clear -Hv. induction l as [|[a [v' s]] l IH]; intros Hnd; [rewrite decide_False by apply not_elem_of_nil; unfold sum_for; cbn; lia|]. rewrite fmap_cons in Hnd. apply NoDup_cons in Hnd as [Hni Hnd]. specialize (IH Hnd).
    rewrite filter_cons. rewrite (fmap_cons snd), sum_for_cons. cbn [fst snd].
    change ((fun p : Address * (Address * Z) => (p.1, p.2.1)) <$> (a, (v', s)) :: l) with ((a, v') :: ((fun p : Address * (Address * Z) => (p.1, p.2.1)) <$> l)). destruct (decide (v' = v)) as [->|Hne].
    - rewrite fmap_cons, sumZ_cons, IH. unfold entitled. cbn [fst snd]. rewrite Hv. destruct (decide (a = v)) as [->|Ha].
      + rewrite (decide_True (P := _ ∈ _ :: _)) by (by left). rewrite decide_False; [lia|]. intros H. apply Hni.
        apply list_elem_of_fmap in H as ([a' [v'' s']] & [= <- <-] & H). by apply (list_elem_of_fmap_2 fst) in H.
      + rewrite (decide_ext ((v, v) ∈ (a, v) :: _) ((v, v) ∈ (fun p : Address * (Address * Z) => (p.1, p.2.1)) <$> l)) by (rewrite elem_of_cons; naive_solver). lia.
    - rewrite IH, (decide_ext ((v, v) ∈ (a, v') :: _) ((v, v) ∈ (fun p : Address * (Address * Z) => (p.1, p.2.1)) <$> l)) by (rewrite elem_of_cons; naive_solver). lia. }
  unfold staker in *. rewrite (Hsum stakers Hnd), <-HV. unfold is_u64 in HB. rewrite <-HV in Hnn. case_decide; nia.
Qed.

(** The stake of the rewarded validators is at most the total. *)
Lemma valid_stake c : committee_wf c -> sumZ ((fun p : Address * (Z * Z) => p.2.1) <$> valid_validators c) <= total_stake c.
Proof.
  intros Hc. rewrite (cwf_total _ Hc). unfold valid_validators. pose proof (cwf_stake _ Hc) as Hs. revert Hs. generalize (total_stake c). intros T.
  induction (members c) as [|[v [[V o] rho]] ms IH]; intros Hs; [done|]. rewrite (fmap_cons (fun p : Address * member_state => stake_of p.2)), sumZ_cons.
  pose proof (Hs _ (list_elem_of_here _ _)) as HV. unfold stake_of, MIN_VALIDATOR_STAKE in HV. cbn in HV. cbn [omap list_omap]. specialize (IH ltac:(intros; apply Hs; by right)).
  unfold stake_of at 1. cbn [fst snd]. case_decide; [cbn in IH |- *; lia|]. case_decide; [cbn in IH |- *; lia|].
  rewrite fmap_cons, sumZ_cons. cbn in IH |- *. lia.
Qed.

Lemma valid_keys_NoDup c : committee_wf c -> NoDup (valid_validators c).*1.
Proof.
  intros Hc. pose proof (cwf_nodup _ Hc) as Hnd. unfold valid_validators. generalize (total_stake c). intros T. induction (members c) as [|[v [[V o] rho]] ms IH]; [constructor|].
  cbn in Hnd. apply NoDup_cons in Hnd as [Hni Hnd]. cbn [omap list_omap]. repeat case_decide; try by apply IH. rewrite fmap_cons. constructor; [|by apply IH].
  intros (p & Heq & Hp)%list_elem_of_fmap. apply list_elem_of_omap in Hp as ([v' [[V' o'] rho']] & Hin & Hp). repeat case_decide; simplify_eq.
  apply Hni. cbn in Heq. subst. by apply (list_elem_of_fmap_2 fst) in Hin.
Qed.

Lemma entitled_total c B stakers : matched c stakers -> is_u64 B -> sumZ (entitled c B <$> stakers) <= 100 * B * total_stake c.
Proof.
  intros Hm HB. pose proof (matched_committee _ _ Hm) as Hc.
  rewrite (sumZ_by_key (fun p : staker => p.2.1) (entitled c B) (valid_validators c).*1 stakers (valid_keys_NoDup c Hc)).
  - transitivity (sumZ ((fun p : Address * (Z * Z) => 100 * B * p.2.1) <$> valid_validators c)).
    + rewrite <-list_fmap_compose. apply sumZ_le. intros [v [V rho]] Hin. cbn. apply (entitled_of_validator c B stakers v V rho Hm HB).
      by apply imap_get_NoDup; [apply valid_keys_NoDup|].
    + rewrite sumZ_fmap_mul. apply Z.mul_le_mono_nonneg_l; [unfold is_u64 in HB; lia|]. by apply valid_stake.
  - intros p _ Hni. unfold entitled. by apply imap_get_None in Hni as ->.
Qed.

(** The stakers after a reward: the same, bonded to the same validators, with at least
    their stake. *)
Definition rewarded (p q : staker) : Prop := q.1 = p.1 /\ q.2.1 = p.2.1 /\ p.2.2 <= q.2.2 <= u64_max.

Lemma mapM_Forall2 {A B} (f : A -> result B) (R : A -> B -> Prop) l :
  (forall x, x ∈ l -> exists y, f x = Ok y /\ R x y) -> exists l', mapM f l = Ok l' /\ Forall2 R l l'.
Proof.
  induction l as [|x l IH]; intros H; [by exists []|]. destruct (H x ltac:(by left)) as (y & Hy & HR). destruct IH as (l' & Hl & HF); [intros; apply H; by right|].
  exists (y :: l'). cbn. rewrite Hy. cbn [mbind result_bind]. rewrite Hl. split; [done|by constructor].
Qed.

Lemma gain_total T B (E : staker -> Z) l l' :
  0 < T -> Forall2 (fun p q : staker => 100 * T * (q.2.2 - p.2.2) <= E p + 99 * T * is_delegator p) l l' ->
  sumZ (E <$> l) <= 100 * B * T -> sumZ ((fun q : staker => q.2.2) <$> l') - sumZ ((fun p : staker => p.2.2) <$> l) <= B + sumZ (is_delegator <$> l).
Proof.
  intros HT HF HE. assert (100 * T * (sumZ ((fun q : staker => q.2.2) <$> l') - sumZ ((fun p : staker => p.2.2) <$> l)) <= sumZ (E <$> l) + 99 * T * sumZ (is_delegator <$> l)) as H.
  { clear HE. induction HF as [|p q l l' Hpq HF IH]; [cbn; lia|]. rewrite !fmap_cons, !sumZ_cons. lia. }
  assert (0 <= sumZ (is_delegator <$> l)) by (apply sumZ_nonneg; intros x (p & -> & _)%list_elem_of_fmap; unfold is_delegator; case_decide; lia). nia.
Qed.

Lemma staking_rewards_run c stakers B :
  matched c stakers -> is_u64 B ->
  exists next, staking_rewards stakers c B = Ok next /\ Forall2 rewarded stakers next /\
    sumZ ((fun q : staker => q.2.2) <$> next) - sumZ ((fun p : staker => p.2.2) <$> stakers) <= B + sumZ (is_delegator <$> stakers).
Proof.
  intros Hm HB. pose proof (matched_committee _ _ Hm) as Hc. pose proof (total_stake_range c Hc) as HT. unfold staking_rewards. case_decide as Hd.
  - exists stakers. split; [done|]. split; [|assert (0 <= sumZ (is_delegator <$> stakers)) by (apply sumZ_nonneg; intros x (p & -> & _)%list_elem_of_fmap; unfold is_delegator; case_decide; lia); unfold is_u64 in HB; lia].
    pose proof (matched_stakes _ _ Hm) as Hst. clear -Hst. induction stakers as [|p l IH]; [constructor|]. apply Forall_cons in Hst as [Hp Hst]. constructor; [|by apply IH].
    split; [done|]. split; [done|]. unfold is_u64 in Hp. lia.
  - destruct (mapM_Forall2 (reward_staker c B) (fun p q => rewarded p q /\ 100 * total_stake c * (q.2.2 - p.2.2) <= entitled c B p + 99 * total_stake c * is_delegator p) stakers) as (next & Hn & HF).
    { intros p Hp. pose proof (matched_stakes _ _ Hm) as Hst. rewrite Forall_forall in Hst.
      destruct (reward_staker_spec c B p Hc HB (Hst p Hp) (matched_le c stakers p Hm Hp)) as (x & Hx & Hr & Hg). eexists. split; [exact Hx|]. by split. }
    exists next. split; [exact Hn|]. split; [by eapply Forall2_impl; [exact HF|intros ? ? []]|].
    apply (gain_total (total_stake c) B (entitled c B)); [lia|by eapply Forall2_impl; [exact HF|intros ? ? []]|by apply entitled_total].
Qed.

(** C38: sharing a block reward among the stakers of a committee never fails; every
    staker keeps its validator and at least its stake, those bonded to no rewarded
    validator exactly it, and all of them together get at most the block reward and one
    microcredit per delegator. *)
Theorem staking_rewards_spec (c : Committee) (stakers : list staker) (B : Z) :
  matched c stakers -> is_u64 B ->
  exists next, staking_rewards stakers c B = Ok next /\ Forall2 rewarded stakers next /\
    sumZ ((fun q : staker => q.2.2) <$> next) - sumZ ((fun p : staker => p.2.2) <$> stakers) <= B + sumZ (is_delegator <$> stakers) /\
    forall p, p ∈ stakers -> imap_get p.2.1 (valid_validators c) = None -> p ∈ next.
Proof.
  intros Hm HB. destruct (staking_rewards_run c stakers B Hm HB) as (next & Hn & HF & Hg). exists next. split_and!; [done..|].
  intros p Hp Hv. unfold staking_rewards in Hn. case_decide; [by apply Ok_inj in Hn as <-|].
  assert (reward_staker c B p = Ok p) as Hr by (destruct p as [a [v s]]; unfold reward_staker; cbn in Hv; by rewrite Hv).
  clear -Hn Hp Hr. revert next Hn. induction stakers as [|q l IH]; intros next Hn; [by apply not_elem_of_nil in Hp|]. cbn in Hn.
  apply bind_Ok in Hn as (q' & Hq & Hn). apply bind_Ok in Hn as (l' & Hl & <-%Ok_inj). apply elem_of_cons in Hp as [->|Hp].
  - rewrite Hr in Hq. apply Ok_inj in Hq as <-. by left.
  - right. by apply IH.
Qed.

(** ** Provers *)

(** What one solution earns, and the solutions of a prover. *)
Definition earned (R C : Z) (p : Address * Z) : Z := R * p.2 / C.
Definition earned_by (R C : Z) (a : Address) (l : list (Address * Z)) : Z := sumZ (earned R C <$> base.filter (fun p => p.1 = a) l).

Lemma earned_total R C l : 0 <= R -> 0 < C -> amounts l -> C * sumZ (earned R C <$> l) <= R * sumZ l.*2.
Proof.
  intros HR HC Hl. induction l as [|[a t] l IH]; [cbn; lia|]. apply Forall_cons in Hl as [Ht Hl]. rewrite !fmap_cons, !sumZ_cons. specialize (IH Hl).
  unfold earned at 1. cbn [snd]. pose proof (Z.mul_div_le (R * t) C HC). lia.
Qed.

Lemma earned_nonneg R C p : 0 <= R -> 0 < C -> is_u64 p.2 -> 0 <= earned R C p.
Proof. intros HR HC Hp. unfold is_u64 in Hp. apply Z.div_pos; nia. Qed.

Lemma earned_sum_nonneg R C l : 0 <= R -> 0 < C -> amounts l -> 0 <= sumZ (earned R C <$> l).
Proof.
  intros HR HC Hl. apply sumZ_nonneg. intros x (p & -> & Hp)%list_elem_of_fmap. unfold amounts in Hl. rewrite Forall_forall in Hl. by apply earned_nonneg, Hl.
Qed.

Lemma earned_by_le R C a l : 0 <= R -> 0 < C -> amounts l -> 0 <= earned_by R C a l <= sumZ (earned R C <$> l).
Proof.
  intros HR HC Hl. unfold earned_by. induction l as [|p l IH]; [done|]. apply Forall_cons in Hl as [Hp Hl]. specialize (IH Hl). pose proof (earned_nonneg R C p HR HC Hp).
  rewrite filter_cons, (fmap_cons (earned R C) p l), sumZ_cons. case_decide; [rewrite fmap_cons, sumZ_cons|]; lia.
Qed.

Lemma earned_by_snoc R C a l p : earned_by R C a (l ++ [p]) = earned_by R C a l + if decide (p.1 = a) then earned R C p else 0.
Proof. unfold earned_by. rewrite filter_app, filter_cons, filter_nil, fmap_app, sumZ_app. case_decide; cbn; lia. Qed.

Lemma reward_prover_step R C m l p :
  0 <= R <= MAX_COINBASE_REWARD -> 0 < C -> amounts (l ++ [p]) -> C <= 2 ^ 128 -> sumZ (earned R C <$> l ++ [p]) <= R ->
  (forall a, default 0 (imap_get a m) = earned_by R C a l) ->
  exists m', reward_prover R C m p = Ok m' /\ forall a, default 0 (imap_get a m') = earned_by R C a (l ++ [p]).
Proof.
  intros HR HC Ha HC2 Hsum Hm. apply Forall_app in Ha as [Hl Hp]. apply Forall_cons in Hp as [Hp _]. pose proof (earned_nonneg R C p ltac:(lia) HC Hp) as He.
  rewrite fmap_app, sumZ_app in Hsum. cbn in Hsum. pose proof (earned_sum_nonneg R C l ltac:(lia) HC Hl) as Hls. unfold MAX_COINBASE_REWARD in HR.
  unfold reward_prover. destruct p as [b t]. cbn [snd] in *. replace (Z.max C 1) with C by lia. unfold MAX_COINBASE_REWARD.
  rewrite quot_share by (done || unfold is_u64, u64_max; lia). change (R * t / C) with (earned R C (b, t)). rewrite decide_False by lia.
  rewrite expect_u64_Ok by (unfold is_u64, u64_max; lia). cbn [mbind result_bind]. eexists. split; [done|]. intros a. rewrite earned_by_snoc, <-Hm. cbn [fst].
  pose proof (earned_by_le R C b l ltac:(lia) HC Hl) as Hb. rewrite <-Hm in Hb. case_decide.
  - unfold entry_add. rewrite imap_get_insert. case_decide; [subst|lia]. cbn. unfold u64_saturating_add, u64_max. lia.
  - case_decide; lia.
Qed.

Lemma proving_rewards_run (proof_targets : list (Address * Z)) (R : Z) :
  0 <= R <= MAX_COINBASE_REWARD -> amounts proof_targets -> sumZ proof_targets.*2 <= 2 ^ 128 ->
  let C := sumZ proof_targets.*2 in
  exists rewards, proving_rewards proof_targets R = Ok rewards /\
    (forall a, default 0 (imap_get a rewards) = if decide (C = 0) then 0 else earned_by R C a proof_targets) /\
    (C <> 0 -> sumZ (earned R C <$> proof_targets) <= R).
Proof.
  intros HR Ha HC2 C. assert (0 <= C) as HC by (apply sumZ_nonneg; intros x (p & -> & Hp)%list_elem_of_fmap; unfold amounts in Ha; rewrite Forall_forall in Ha; apply (Ha _ Hp)).
  assert (C <> 0 -> sumZ (earned R C <$> proof_targets) <= R) as Hsum.
  { intros H0. pose proof (earned_total R C proof_targets ltac:(lia) ltac:(lia) Ha) as H. fold C in H. nia. }
  unfold proving_rewards. fold C. case_decide as Hd.
  - exists []. split; [done|]. split; [|done]. intros a. case_decide as H0; [done|]. destruct Hd as [->|[Hd| ->]]; [done|done|]. cbn.
    pose proof (earned_by_le 0 C a proof_targets ltac:(lia) ltac:(lia) Ha). specialize (Hsum H0). lia.
  - assert (C <> 0) as H0 by naive_solver. specialize (Hsum H0).
    assert (forall l1 l2 m, proof_targets = l1 ++ l2 -> (forall a, default 0 (imap_get a m) = earned_by R C a l1) ->
      exists m', foldM (reward_prover R C) m l2 = Ok m' /\ forall a, default 0 (imap_get a m') = earned_by R C a proof_targets) as Hind.
    { intros l1 l2. revert l1. induction l2 as [|p l2 IH]; intros l1 m Heq Hm; [exists m; rewrite app_nil_r in Heq; by subst|].
      replace (l1 ++ p :: l2) with ((l1 ++ [p]) ++ l2) in Heq by (by rewrite <-app_assoc). pose proof Ha as Ha'. rewrite Heq in Ha'. apply Forall_app in Ha' as [Ha1 Ha2].
      destruct (reward_prover_step R C m l1 p) as (m' & Hm' & Hg); [done|lia|done|done| |done|].
      - rewrite Heq, fmap_app, sumZ_app in Hsum. pose proof (earned_sum_nonneg R C l2 ltac:(lia) ltac:(lia) Ha2). lia.
      - cbn. rewrite Hm'. cbn [mbind result_bind]. by apply (IH (l1 ++ [p])). }
    destruct (Hind [] proof_targets []) as (m' & Hm' & Hg); [done|done|]. exists m'. split; [done|]. split; [|done]. intros a. by rewrite Hg, decide_False.
Qed.

(** The rewards are positive, one for each prover. *)
Lemma proving_rewards_positive (proof_targets : list (Address * Z)) (R : Z) rewards :
  proving_rewards proof_targets R = Ok rewards -> NoDup rewards.*1 /\ Forall (fun q => 0 < q.2 <= u64_max) rewards /\ forall a, a ∈ rewards.*1 -> a ∈ proof_targets.*1.
Proof.
  unfold proving_rewards. case_decide; [intros <-%Ok_inj; repeat split; [constructor|constructor|]; by intros a ?%not_elem_of_nil|].
  apply (foldM_ind (fun m => NoDup m.*1 /\ Forall (fun q => 0 < q.2 <= u64_max) m /\ forall a, a ∈ m.*1 -> a ∈ proof_targets.*1)).
  - repeat split; [constructor|constructor|]. by intros a ?%not_elem_of_nil.
  - intros [a x] m m' Hin (Hn & Hp & Hk) Hs. unfold reward_prover in Hs. case_decide as Hbig; [by apply Ok_inj in Hs as <-|]. apply bind_Ok in Hs as (r & Hr & <-%Ok_inj). case_decide as Hpos; [|done].
    assert (is_u64 r) as Hr' by (unfold expect_u64 in Hr; case_decide; [by apply Ok_inj in Hr as <-|done]).
    split; [by apply entry_add_NoDup|]. split; [|intros b [->|Hb]%entry_add_keys; [by apply (list_elem_of_fmap_2 fst) in Hin|by apply Hk]].
    assert (amounts m) as Ham by (unfold amounts; eapply Forall_impl; [exact Hp|]; intros q Hq; unfold is_u64; cbn in Hq; lia).
    pose proof (amounts_default m a Ham) as Hd. unfold entry_add. set (y := u64_saturating_add _ r). assert (0 < y <= u64_max) as Hy by (unfold y, is_u64 in *; mlia). clearbody y.
    clear -Hp Hy. induction m as [|[b z] m IH]; cbn; [by constructor|]. apply Forall_cons in Hp as [Hz Hp]. case_decide; constructor; try done. by apply IH.
Qed.

(** A puzzle reward within the maximum is shared among the provers by proof
    target without failing: each is paid the rounded shares of its solutions, and all of
    them together at most the reward. *)
Theorem proving_rewards_spec (proof_targets : list (Address * Z)) (R : Z) :
  0 <= R <= MAX_COINBASE_REWARD -> amounts proof_targets -> sumZ proof_targets.*2 <= 2 ^ 128 ->
  let C := sumZ proof_targets.*2 in
  exists rewards, proving_rewards proof_targets R = Ok rewards /\
    (forall a, default 0 (imap_get a rewards) = if decide (C = 0) then 0 else earned_by R C a proof_targets) /\
    (C <> 0 -> sumZ (earned R C <$> proof_targets) <= R).
Proof. apply proving_rewards_run. Qed.

(** ** The next committee *)

Lemma sum_for_fmap_le v (l l' : list staker) : Forall2 rewarded l l' -> sum_for v l.*2 <= sum_for v l'.*2.
Proof.
  induction 1 as [|p q l l' (H1 & H2 & H3) HF IH]; [done|]. rewrite !fmap_cons, !sum_for_cons, H2. case_decide; lia.
Qed.

Lemma sum_for_total v (l : list (Address * Z)) : amounts l -> sum_for v l <= sumZ l.*2.
Proof.
  intros Hl. induction l as [|p l IH]; [done|]. apply Forall_cons in Hl as [Hp Hl]. rewrite sum_for_cons, fmap_cons, sumZ_cons. specialize (IH Hl).
  unfold is_u64 in Hp. case_decide; lia.
Qed.

Lemma sum_for_pos v l : 0 < sum_for v l -> v ∈ l.*1.
Proof.
  intros H. destruct (decide (v ∈ l.*1)) as [|Hni]; [done|]. unfold sum_for in H. rewrite filter_none_in in H; [done|]. intros p Hp <-. apply Hni. by apply list_elem_of_fmap_2.
Qed.

(** The sums of some keys are at most the whole. *)
Lemma sum_for_keys ks (l : list (Address * Z)) : NoDup ks -> amounts l -> sumZ ((fun k => sum_for k l) <$> ks) <= sumZ l.*2.
Proof.
  intros Hnd Hl. transitivity (sumZ (snd <$> base.filter (fun p => p.1 ∈ ks) l)).
  - rewrite (sumZ_by_key fst snd ks (base.filter (fun p => p.1 ∈ ks) l) Hnd) by (intros p [Hp _]%list_elem_of_filter; done).
    apply sumZ_le. intros k Hk. unfold sum_for. rewrite list_filter_filter. apply Z.eq_le_incl. f_equal. f_equal. apply list_filter_iff. naive_solver.
  - clear -Hl. induction l as [|p l IH]; [done|]. apply Forall_cons in Hl as [Hp Hl]. specialize (IH Hl). rewrite filter_cons, (fmap_cons snd p l), sumZ_cons.
    unfold is_u64 in Hp. case_decide; [rewrite fmap_cons, sumZ_cons|]; lia.
Qed.

Lemma delegated_get v (stakers : list staker) : amounts stakers.*2 -> sumZ stakers.*2.*2 <= u64_max ->
  imap_get v (to_next_delegated stakers) = if decide (v ∈ stakers.*2.*1) then Some (sum_for v stakers.*2) else None.
Proof.
  intros Ha Hs. unfold to_next_delegated. rewrite reduce_get by done. case_decide; [|done]. f_equal. pose proof (sum_for_total v _ Ha). lia.
Qed.

(** [Committee::new] succeeds on members that meet its conditions. *)
Lemma committee_new_Ok r ms :
  (forall bs, exists f, hash_bhp1024 bs = Ok f) -> NoDup ms.*1 -> is_u64 r -> 3 <= len ms <= max_committee_size -> max_committee_size <= u16_max ->
  (forall p, p ∈ ms -> MIN_VALIDATOR_STAKE <= stake_of p.2) -> (forall p, p ∈ ms -> 0 <= commission_of p.2 <= 100) ->
  sumZ ((fun p => stake_of p.2) <$> ms) <= u64_max ->
  exists c, committee_new r ms = Ok c /\ committee_wf c /\ members c = ms.
Proof.
  intros Hh Hnd Hr Hlen Hmax Hs Hc Htot.
  assert (forall p, p ∈ ms -> 0 <= stake_of p.2) as Hpos by (intros p Hp; specialize (Hs p Hp); unfold MIN_VALIDATOR_STAKE in Hs; lia).
  assert (compute_total_stake ms = Ok (sumZ ((fun p => stake_of p.2) <$> ms))) as Ht.
  { unfold compute_total_stake. cut (forall t0, 0 <= t0 -> t0 + sumZ ((fun p : Address * member_state => stake_of p.2) <$> ms) <= u64_max ->
      foldM (fun power (p : Address * member_state) => ok_or "Failed to calculate total stake - overflow detected" (u64_checked_add power (stake_of p.2))) t0 ms =
      Ok (t0 + sumZ ((fun p => stake_of p.2) <$> ms))); [intros H; specialize (H 0 ltac:(lia) ltac:(lia)); by rewrite Z.add_0_l in H|].
    clear -Hpos. induction ms as [|p ms IH]; intros t0 Ha H; [cbn; f_equal; lia|]. rewrite fmap_cons, sumZ_cons in *. cbn [foldM].
    assert (0 <= sumZ ((fun p : Address * member_state => stake_of p.2) <$> ms)) by (apply sumZ_nonneg; intros x (q & -> & Hq)%list_elem_of_fmap; apply Hpos; by right).
    pose proof (Hpos p ltac:(by left)). assert (u64_checked_add t0 (stake_of p.2) = Some (t0 + stake_of p.2)) as -> by (unfold u64_checked_add; by rewrite decide_True by lia). cbn [ok_or mbind result_bind].
    rewrite IH by (try lia; intros; apply Hpos; by right). f_equal. lia. }
  destruct (Hh (write_u64 r ++ write_u16 (len ms) ++ (ms ≫= write_member) ++ write_u64 (sumZ ((fun p => stake_of p.2) <$> ms)))) as [f Hf].
  assert (committee_new r ms = Ok (mk_committee f r ms (sumZ ((fun p => stake_of p.2) <$> ms)))) as Hnew.
  { unfold committee_new. rewrite !bool_decide_true by lia. cbn [ensure mbind result_bind].
    rewrite ensure_bind by (apply forallb_forall; intros p Hp%list_elem_of_In; apply bool_decide_true; by apply Hs).
    rewrite ensure_bind by (apply forallb_forall; intros p Hp%list_elem_of_In; apply bool_decide_true; by apply Hc).
    rewrite Ht. cbn [mbind result_bind]. unfold compute_committee_id, try_u16. rewrite decide_True by lia. cbn [mbind result_bind]. by rewrite Hf. }
  eexists. split; [exact Hnew|]. split; [|done].
  refine (proj1 (committee_new_wf r ms _ Hnd Hr _ Hnew)).
  intros p Hp. split; [|by apply Hc]. transitivity (sumZ ((fun p => stake_of p.2) <$> ms)); [|done].
  clear -Hp Hpos. induction ms as [|q ms IH]; [by apply not_elem_of_nil in Hp|]. rewrite fmap_cons, sumZ_cons.
  assert (0 <= sumZ ((fun p : Address * member_state => stake_of p.2) <$> ms)) by (apply sumZ_nonneg; intros x (q' & -> & Hq)%list_elem_of_fmap; apply Hpos; by right).
  apply elem_of_cons in Hp as [->|Hp]; [lia|]. specialize (IH ltac:(intros; apply Hpos; by right) Hp). pose proof (Hpos q ltac:(by left)). lia.
Qed.

(** The members of the next committee. *)
Definition next_members (ms : list (Address * member_state)) (d : list (Address * Z)) : list (Address * member_state) :=
  omap (fun p : Address * Z => (fun m : member_state => (p.1, (p.2, m.1.2, m.2))) <$> imap_get p.1 ms) d.

Lemma elem_of_next_members ms d v m :
  (v, m) ∈ next_members ms d <-> exists x m0, (v, x) ∈ d /\ imap_get v ms = Some m0 /\ m = (x, m0.1.2, m0.2).
Proof.
  unfold next_members. rewrite list_elem_of_omap. split.
  - intros ([v' x] & Hin & (m0 & Heq & Hg)%fmap_Some). cbn in *. simplify_eq. by exists x, m0.
  - intros (x & m0 & Hin & Hg & ->). exists (v, x). split; [done|]. cbn. by rewrite Hg.
Qed.

Lemma next_members_cons ms v x d :
  next_members ms ((v, x) :: d) = match imap_get v ms with Some m0 => (v, (x, m0.1.2, m0.2)) :: next_members ms d | None => next_members ms d end.
Proof. unfold next_members. cbn. by destruct (imap_get v ms). Qed.

Lemma next_members_NoDup ms d : NoDup d.*1 -> NoDup (next_members ms d).*1.
Proof.
  induction d as [|[v x] d IH]; intros Hnd; [constructor|]. cbn in Hnd. apply NoDup_cons in Hnd as [Hni Hnd]. rewrite next_members_cons.
  destruct (imap_get v ms) as [m0|]; [|by apply IH]. rewrite fmap_cons. constructor; [|by apply IH].
  intros ([v' m] & Heq & Hin)%list_elem_of_fmap. cbn in Heq. subst v'. apply elem_of_next_members in Hin as (x' & m0' & Hin & _). apply Hni. by apply (list_elem_of_fmap_2 fst) in Hin.
Qed.

Section Next.
Context (c : Committee) (stakers next : list staker).
Context (Hm : matched c stakers) (HF : Forall2 rewarded stakers next) (Htot : sumZ next.*2.*2 <= u64_max).

Lemma next_amounts : amounts next.*2.
Proof.
  pose proof (matched_stakes _ _ Hm) as Hs. unfold amounts. rewrite Forall_fmap. clear -HF Hs. induction HF as [|p q l l' (H1 & H2 & H3) HF' IH]; [constructor|].
  apply Forall_cons in Hs as [Hp Hs]. constructor; [|by apply IH]. cbn. unfold is_u64 in *. lia.
Qed.

Lemma next_keys : next.*1 = stakers.*1.
Proof. clear -HF. induction HF as [|p q l l' (H1 & H2 & H3) HF' IH]; [done|]. rewrite !fmap_cons, H1. f_equal. exact (IH HF'). Qed.

(** Every member has at least the stake it had. *)
Lemma member_stake v m : (v, m) ∈ members c -> MIN_VALIDATOR_STAKE <= sum_for v next.*2.
Proof.
  intros Hin. pose proof (cwf_stake _ (matched_committee _ _ Hm) _ Hin) as Hs. pose proof (matched_members _ _ Hm _ Hin) as Hs'. cbn in Hs, Hs'.
  pose proof (sum_for_fmap_le v stakers next HF). lia.
Qed.

Lemma next_member v m :
  (v, m) ∈ next_members (members c) (to_next_delegated next) <-> exists m0, (v, m0) ∈ members c /\ m = (sum_for v next.*2, m0.1.2, m0.2).
Proof.
  pose proof (cwf_nodup _ (matched_committee _ _ Hm)) as Hnd. rewrite elem_of_next_members. split.
  - intros (x & m0 & Hin & Hg & ->). apply imap_get_NoDup in Hg; [|done]. exists m0. split; [done|].
    apply imap_get_NoDup in Hin; [|apply reduce_NoDup]. rewrite delegated_get in Hin by (apply next_amounts || done). case_decide; by simplify_eq.
  - intros (m0 & Hin & ->). exists (sum_for v next.*2), m0. split; [|split; [by apply imap_get_NoDup|done]].
    apply imap_get_NoDup; [apply reduce_NoDup|]. rewrite delegated_get by (apply next_amounts || done). rewrite decide_True; [done|].
    apply sum_for_pos. apply member_stake in Hin. unfold MIN_VALIDATOR_STAKE in Hin. lia.
Qed.

Lemma next_member_keys : (next_members (members c) (to_next_delegated next)).*1 ≡ₚ (members c).*1.
Proof.
  apply NoDup_Permutation; [apply next_members_NoDup, reduce_NoDup|apply (cwf_nodup _ (matched_committee _ _ Hm))|]. intros v. rewrite !list_elem_of_fmap. split.
  - intros ([v' m] & -> & (m0 & Hin & _)%next_member). exists (v', m0). split; [done|exact Hin].
  - intros ([v' m0] & -> & Hin). exists (v', (sum_for v' next.*2, m0.1.2, m0.2)). split; [done|]. apply next_member. exists m0. split; [exact Hin|done].
Qed.

Lemma next_committee r :
  (forall bs, exists f, hash_bhp1024 bs = Ok f) -> max_committee_size <= u16_max -> is_u64 r ->
  exists c', to_next_committee c r (to_next_delegated next) = Ok c' /\ matched c' next /\ members c' = next_members (members c) (to_next_delegated next).
Proof.
  intros Hh Hmax Hr. pose proof (matched_committee _ _ Hm) as Hc. pose proof next_member_keys as Hperm.
  assert (len (next_members (members c) (to_next_delegated next)) = len (members c)) as Hlen.
  { unfold len. f_equal. apply Permutation_length in Hperm. by rewrite !length_fmap in Hperm. }
  destruct (committee_new_Ok r (next_members (members c) (to_next_delegated next))) as (c' & Hnew & Hwf & Hms); [done| |done|rewrite Hlen; apply Hc|done| | | |].
  - apply next_members_NoDup, reduce_NoDup.
  - intros [v m] (m0 & Hin & ->)%next_member. by eapply member_stake.
  - intros [v m] (m0 & Hin & ->)%next_member. pose proof (cwf_commission _ Hc _ Hin) as H. exact H.
  - transitivity (sumZ ((fun k => sum_for k next.*2) <$> (next_members (members c) (to_next_delegated next)).*1)).
    + rewrite <-list_fmap_compose. apply sumZ_le. intros [v m] (m0 & Hin & ->)%next_member. done.
    + etrans; [apply sum_for_keys; [apply next_members_NoDup, reduce_NoDup|apply next_amounts]|done].
  - exists c'. split; [exact Hnew|]. split; [|done]. split; [done|rewrite next_keys; apply Hm| |].
    + pose proof next_amounts as Ha. unfold amounts in Ha. by rewrite Forall_fmap in Ha.
    + rewrite Hms. intros [v m] (m0 & Hin & ->)%next_member. done.
Qed.
End Next.

(** ** [ensure_stakers_matches] *)

Lemma filter_amounts (P : Address * Z -> Prop) `{forall x, Decision (P x)} l : amounts l -> amounts (base.filter P l).
Proof. unfold amounts. rewrite !Forall_forall. intros Hl p [_ Hp]%list_elem_of_filter. by apply Hl. Qed.

Section Matches.
Context (c : Committee) (stakers : list staker).
Context (Hc : committee_wf c) (Ha : amounts stakers.*2) (Htot : sumZ stakers.*2.*2 <= u64_max).

Lemma validator_map_get v m : (v, m) ∈ members c ->
  imap_get v (validator_map c stakers) = if decide (v ∈ stakers.*2.*1) then Some (sum_for v stakers.*2) else None.
Proof.
  intros Hin. assert (imap_contains v (members c) = true) as Hv.
  { unfold imap_contains. apply bool_decide_true. apply imap_get_NoDup in Hin; [|apply Hc]. by eexists. }
  unfold validator_map. rewrite reduce_get by (by apply filter_amounts).
  assert (sum_for v (base.filter (fun p => imap_contains p.1 (members c) = true) stakers.*2) = sum_for v stakers.*2) as ->.
  { unfold sum_for. rewrite list_filter_filter. do 2 f_equal. apply list_filter_iff. intros p. split; [by intros []|]. by intros <-. }
  pose proof (sum_for_total v _ Ha). rewrite Z.min_r by lia. apply decide_ext. rewrite !list_elem_of_fmap. split.
  - intros (p & -> & [_ Hp]%list_elem_of_filter). by exists p.
  - intros (p & -> & Hp). exists p. split; [done|]. apply list_elem_of_filter. by split.
Qed.

Lemma validator_map_keys v : v ∈ (validator_map c stakers).*1 -> v ∈ (members c).*1.
Proof.
  intros Hv. destruct (imap_get v (validator_map c stakers)) as [x|] eqn:Hg; [|by apply imap_get_None in Hg].
  unfold validator_map in Hg. rewrite reduce_get in Hg by (by apply filter_amounts). case_decide as Hin; [|done].
  apply list_elem_of_fmap in Hin as (p & -> & [Hp _]%list_elem_of_filter). unfold imap_contains in Hp. apply bool_decide_eq_true in Hp as [m Hp].
  apply imap_get_elem in Hp. by apply (list_elem_of_fmap_2 fst) in Hp.
Qed.

Lemma matches_iff : NoDup stakers.*1 -> ensure_stakers_matches c stakers = Ok tt <-> matched c stakers.
Proof.
  intros Hnd. pose proof Ha as Ha'. unfold amounts in Ha'. rewrite Forall_fmap in Ha'. unfold ensure_stakers_matches. split.
  - intros H. apply bind_Ok in H as (_ & _ & H). apply bind_Ok in H as (_ & _ & H). rewrite foldM_tt in H. split; [done..|]. intros [v m] Hin. specialize (H _ Hin). cbn in H.
    apply bind_Ok in H as (_ & _ & H). apply bind_Ok in H as (x & Hx & H). apply ensure_Ok, bool_decide_eq_true in H. rewrite (validator_map_get v m Hin) in Hx.
    case_decide; cbn in Hx; [|done]. apply Ok_inj in Hx as <-. exact H.
  - intros Hm. assert (forall v m, (v, m) ∈ members c -> imap_get v (validator_map c stakers) = Some (stake_of m)) as Hget.
    { intros v m Hin. rewrite (validator_map_get v m Hin). pose proof (matched_members _ _ Hm _ Hin) as Hs. cbn in Hs. rewrite decide_True; [by rewrite Hs|].
      apply sum_for_pos. rewrite <-Hs. pose proof (cwf_stake _ Hc _ Hin) as Hp. unfold MIN_VALIDATOR_STAKE in Hp. cbn in Hp. lia. }
    assert (validator_map c stakers ≡ₚ (fun p => (p.1, stake_of p.2)) <$> members c) as Hperm.
    { apply NoDup_Permutation; [apply (NoDup_fmap_1 fst), reduce_NoDup| |].
      - apply (NoDup_fmap_1 fst). rewrite <-list_fmap_compose. exact (cwf_nodup _ Hc).
      - intros [v x]. rewrite list_elem_of_fmap. split.
        + intros Hv. pose proof Hv as Hk. apply (list_elem_of_fmap_2 fst) in Hk. apply validator_map_keys in Hk. apply list_elem_of_fmap in Hk as ([v' m] & Heq & Hin). cbn in Heq. subst v'.
          exists (v, m). split; [|done]. cbn. apply imap_get_NoDup in Hv; [|apply reduce_NoDup]. rewrite (Hget v m Hin) in Hv. by simplify_eq.
        + intros ([v' m] & [= -> ->] & Hin). apply imap_get_NoDup; [apply reduce_NoDup|]. by apply Hget. }
    rewrite !bool_decide_true; [cbn [ensure mbind result_bind]| |].
    + apply foldM_tt. intros [v m] Hin. cbn. rewrite (Hget v m Hin). cbn. by rewrite bool_decide_true.
    + unfold len. by rewrite Hperm, length_fmap.
    + assert (sumZ (validator_map c stakers).*2 = total_stake c) as Hs by (rewrite Hperm, <-list_fmap_compose; by rewrite (cwf_total _ Hc)).
      pose proof (foldl_saturating_add (fun x => x) (validator_map c stakers).*2 0) as Hf. rewrite list_fmap_id, Z.add_0_l, Hs in Hf. pose proof (cwf_total_max _ Hc). symmetry.
      etrans; [apply Hf|lia]; [|unfold u64_max; lia]. intros x Hx. rewrite Hperm, <-list_fmap_compose in Hx. apply list_elem_of_fmap in Hx as (p & -> & Hp).
      pose proof (cwf_stake _ Hc _ Hp) as Hmin. unfold MIN_VALIDATOR_STAKE in Hmin. cbn. lia.
Qed.
End Matches.

Lemma rewarded_total (l l' : list staker) B :
  sumZ ((fun q : staker => q.2.2) <$> l') - sumZ ((fun p : staker => p.2.2) <$> l) <= B -> sumZ l.*2.*2 + B <= u64_max -> sumZ l'.*2.*2 <= u64_max.
Proof.
  assert (forall l : list staker, sumZ l.*2.*2 = sumZ ((fun p : staker => p.2.2) <$> l)) as H by (intros k; by rewrite <-list_fmap_compose).
  rewrite !H. lia.
Qed.

(** Ratifying a block reward keeps the committee and the stakers in agreement:
    from a committee that matches its stakers, sharing the reward and rebuilding the
    delegations and the committee succeed, the members and their settings stay the same,
    each with the stake of its stakers, and the check of the next block passes, as long
    as the stake fits into 64 bits. *)
Theorem block_reward_keeps_matching (c : Committee) (stakers : list staker) (B r : Z) :
  (forall bs, exists f, hash_bhp1024 bs = Ok f) -> max_committee_size <= u16_max -> is_u64 r -> is_u64 B ->
  matched c stakers -> sumZ stakers.*2.*2 + (B + sumZ (is_delegator <$> stakers)) <= u64_max ->
  exists next c', staking_rewards stakers c B = Ok next /\ to_next_committee c r (to_next_delegated next) = Ok c' /\
    matched c' next /\ ensure_stakers_matches c' next = Ok tt /\
    (forall v m', (v, m') ∈ members c' <-> exists m, (v, m) ∈ members c /\ m' = (sum_for v next.*2, m.1.2, m.2) /\ stake_of m <= stake_of m').
Proof.
  intros Hh Hmax Hr HB Hm Htot. destruct (staking_rewards_run c stakers B Hm HB) as (next & Hn & HF & Hg).
  pose proof (rewarded_total _ _ _ Hg Htot) as Htot'. destruct (next_committee c stakers next Hm HF Htot' r Hh Hmax Hr) as (c' & Hc' & Hm' & Hms).
  exists next, c'. split; [done|]. split; [done|]. split; [done|]. split.
  - apply matches_iff; [apply Hm'|by eapply matched_amounts|done|apply Hm'|done].
  - intros v m'. rewrite Hms, (next_member c stakers next Hm HF Htot'). split; [|naive_solver]. intros (m & Hin & ->). exists m. split; [done|]. split; [done|].
    pose proof (matched_members _ _ Hm _ Hin) as Hs. cbn in Hs |- *. rewrite Hs. apply (sum_for_fmap_le v _ _ HF).
Qed.
End Rewards.
End RewardsProps.

(** ** Witnesses *)

Import Rewards.

(** The members of the sample committee, one of whom has a delegator, and a staker whose
    validator is not a member. *)
Definition sample_stakers : list (staker (N := TestNetwork)) :=
  [("a"%char, ("a"%char, MIN_VALIDATOR_STAKE)); ("x"%char, ("b"%char, MIN_VALIDATOR_STAKE)); ("b"%char, ("b"%char, MIN_VALIDATOR_STAKE));
   ("c"%char, ("c"%char, MIN_VALIDATOR_STAKE)); ("y"%char, ("z"%char, 7)); ("d"%char, ("d"%char, 3 * MIN_VALIDATOR_STAKE))].

Lemma sample_matched : RewardsProps.matched sample_committee sample_stakers.
Proof.
  split.
  - exact sample_committee_wf.
  - apply (bool_decide_unpack _). vm_compute. exact I.
  - repeat constructor; cbn; unfold is_u64, MIN_VALIDATOR_STAKE, u64_max; lia.
  - intros p Hp. cbn in Hp. repeat (apply elem_of_cons in Hp as [->|Hp]; [vm_compute; reflexivity|]). by apply not_elem_of_nil in Hp.
Qed.

Lemma parallel_reduce_witness :
  par_reduce (N := TestNetwork) (Node (Leaf [("a"%char, 1); ("b"%char, 2)]) (Leaf [("b"%char, 3); ("a"%char, 4)])) = [("a"%char, 5); ("b"%char, 5)].
Proof.
  rewrite (RewardsProps.parallel_reduce (N := TestNetwork)); [vm_compute; reflexivity|].
  repeat constructor; cbn; unfold u64_max; lia.
Defined.

Lemma staking_rewards_spec_witness :
  exists next, staking_rewards sample_stakers sample_committee 1000000 = Ok next /\ ("y"%char, ("z"%char, 7)) ∈ next.
Proof.
  destruct (RewardsProps.staking_rewards_spec sample_committee sample_stakers 1000000 sample_matched) as (next & H1 & _ & _ & H2);
    [unfold is_u64, u64_max; lia|].
  exists next. split; [exact H1|]. apply H2; [apply (bool_decide_unpack _); vm_compute; exact I|vm_compute; reflexivity].
Defined.

Lemma proving_rewards_spec_witness :
  exists rewards, proving_rewards (N := TestNetwork) [("a"%char, 30); ("b"%char, 20); ("a"%char, 50)] 1000 = Ok rewards /\ default 0 (imap_get "a"%char rewards) = 800.
Proof.
  destruct (RewardsProps.proving_rewards_spec (N := TestNetwork) [("a"%char, 30); ("b"%char, 20); ("a"%char, 50)] 1000) as (rewards & H1 & H2 & _);
    [unfold Targets.MAX_COINBASE_REWARD; lia|repeat constructor; cbn; unfold u64_max; lia|vm_compute; discriminate|].
  exists rewards. split; [exact H1|]. etransitivity; [exact (H2 "a"%char)|vm_compute; reflexivity].
Defined.

Lemma block_reward_keeps_matching_witness :
  exists next c', staking_rewards sample_stakers sample_committee 1000000 = Ok next /\
    to_next_committee sample_committee 4 (to_next_delegated next) = Ok c' /\ ensure_stakers_matches c' next = Ok tt.
Proof.
  destruct (RewardsProps.block_reward_keeps_matching sample_committee sample_stakers 1000000 4) as (next & c' & H1 & H2 & _ & H3 & _).
  - intros bs. eexists. reflexivity.
  - vm_compute. discriminate.
  - unfold is_u64, u64_max. lia.
  - unfold is_u64, u64_max. lia.
  - exact sample_matched.
  - vm_compute. discriminate.
  - exists next, c'. split; [exact H1|]. split; [exact H2|exact H3].
Defined.
