(* ===== verification/FinalizeStore.v ===== *)
(** * The finalize store

    snarkVM/ledger/store/src/program/finalize.rs: the mappings of programs, as
    [program ID => mapping name => key => value], with the committee store.  Every
    operation runs in an atomic scope; reads are of the confirmed state, or speculative
    and then see the batch in progress.  [FinalizeStore] forwards to [FinalizeStorage].
    The features [history] and [slipstream-plugins] are off. *)

From S2P Require Import Prelude Bytes Network Committee StoreMap StoreMapProps Atomicity CommitteeStore CommitteeStoreProps.

(** ** Values of programs *)

(** The variants of [Literal] that the mappings of credits.aleo use; the others by their
    kind and bytes. *)
Inductive Literal `{N : Network} :=
| LAddress (address : Address)
| LBoolean (b : bool)
| LU8 (z : Z)
| LU32 (z : Z)
| LU64 (z : Z)
| LOther (kind : Z) (bytes : list Z).

(** [Plaintext]; the fields of a struct are an [IndexMap]. *)
Inductive Plaintext `{N : Network} :=
| PLiteral (l : Literal)
| PStruct (fields : list (string * Plaintext))
| PArray (elements : list Plaintext).

(** [Value]; records and futures, which are not stored in mappings, by their bytes. *)
Inductive Value `{N : Network} :=
| VPlaintext (p : Plaintext)
| VOther (kind : Z) (bytes : list Z).

Section Countable.
Context `{N : Network}.

#[export] Instance Literal_eq_dec : EqDecision Literal.
Proof. solve_decision. Defined.
#[export] Instance Literal_countable : Countable Literal.
Proof.
  refine (inj_countable'
    (fun l => match l with LAddress a => inl (inl a) | LBoolean b => inl (inr b) | LU8 z => inr (inl (0, z)) | LU32 z => inr (inl (1, z)) | LU64 z => inr (inl (2, z)) | LOther k bs => inr (inr (k, bs)) end)
    (fun s => match s with inl (inl a) => LAddress a | inl (inr b) => LBoolean b | inr (inl (0, z)) => LU8 z | inr (inl (1, z)) => LU32 z | inr (inl (_, z)) => LU64 z | inr (inr (k, bs)) => LOther k bs end) _).
  by intros [].
Defined.

(** Induction over the elements of structs and arrays. *)
Fixpoint Plaintext_ind' (P : Plaintext -> Prop) (Hl : forall l, P (PLiteral l)) (Hs : forall fs, Forall (fun f => P f.2) fs -> P (PStruct fs))
    (Ha : forall es, Forall P es -> P (PArray es)) (p : Plaintext) {struct p} : P p :=
  match p with
  | PLiteral l => Hl l
  | PStruct fs => Hs fs ((fix go fs : Forall (fun f : string * Plaintext => P f.2) fs :=
      match fs with [] => Forall_nil_2 _ | f :: fs => Forall_cons_2 _ f fs (Plaintext_ind' P Hl Hs Ha f.2) (go fs) end) fs)
  | PArray es => Ha es ((fix go es : Forall P es := match es with [] => Forall_nil_2 _ | e :: es => Forall_cons_2 _ e es (Plaintext_ind' P Hl Hs Ha e) (go es) end) es)
  end.

Fixpoint encode_plaintext (p : Plaintext) : gen_tree (Literal + string) :=
  match p with
  | PLiteral l => GenLeaf (inl l)
  | PStruct fs => GenNode 0 ((fun f => GenNode 2 [GenLeaf (inr f.1); encode_plaintext f.2]) <$> fs)
  | PArray es => GenNode 1 (encode_plaintext <$> es)
  end.
Fixpoint decode_plaintext (t : gen_tree (Literal + string)) : Plaintext :=
  match t with
  | GenLeaf (inl l) => PLiteral l
  | GenNode 0 ts => PStruct ((fun u => match u with GenNode _ [GenLeaf (inr i); v] => (i, decode_plaintext v) | _ => (""%string, PArray []) end) <$> ts)
  | GenNode _ ts => PArray (decode_plaintext <$> ts)
  | _ => PArray []
  end.
Lemma plaintext_decode_encode p : decode_plaintext (encode_plaintext p) = p.
Proof.
  induction p as [l|fs IH|es IH] using Plaintext_ind'; [done| |].
  - cbn. f_equal. rewrite <-list_fmap_compose. induction IH as [|[i q] fs Hq IH IHl]; [done|]. cbn in *. by rewrite Hq, IHl.
  - cbn. f_equal. rewrite <-list_fmap_compose. induction IH as [|q es Hq IH IHl]; [done|]. cbn in *. by rewrite Hq, IHl.
Qed.
#[export] Instance Plaintext_eq_dec : EqDecision Plaintext.
Proof.
  intros p q. destruct (decide (encode_plaintext p = encode_plaintext q)) as [H|H].
  - left. by rewrite <-(plaintext_decode_encode p), <-(plaintext_decode_encode q), H.
  - right. congruence.
Defined.
#[export] Instance Plaintext_countable : Countable Plaintext := inj_countable' encode_plaintext decode_plaintext plaintext_decode_encode.
#[export] Instance Value_eq_dec : EqDecision Value.
Proof. solve_decision. Defined.
End Countable.

(** The bits of what is hashed, and [N::hash_bhp1024] of bits. *)
Class FinalizeHash `{N : Network} := {
  program_bits : string -> list bool;
  identifier_bits : string -> list bool;
  plaintext_bits : Plaintext -> list bool;
  value_bits : Value -> list bool;
  field_bits : Field -> list bool;
  hash_bits : list bool -> result Field;
}.

Module FinalizeStore.
Section FinalizeStore.
Context `{N : Network} {H : FinalizeHash}.
Context `{!Serialize Z, !Serialize string, !Serialize (string * string), !Serialize Plaintext}.

Definition to_mapping_id (program_id mapping_name : string) : result Field :=
  hash_bits (program_bits program_id ++ [false] ++ identifier_bits mapping_name).
Definition to_key_id (program_id mapping_name : string) (key : Plaintext) : result Field :=
  hash_bits (program_bits program_id ++ [false] ++ identifier_bits mapping_name ++ [false] ++ plaintext_bits key).
(** [N::hash_bhp1024(&(key_id, N::hash_bhp1024(&value.to_bits_le())?).to_bits_le())]. *)
Definition to_value_id (key_id : Field) (value : Value) : result Field :=
  hash ← hash_bits (value_bits value); hash_bits (field_bits key_id ++ field_bits hash).

Inductive FinalizeOperation :=
| InitializeMapping (mapping_id : Field)
| InsertKeyValue (mapping_id key_id value_id : Field)
| UpdateKeyValue (mapping_id key_id value_id : Field)
| RemoveKeyValue (mapping_id key_id : Field)
| ReplaceMapping (mapping_id : Field)
| RemoveMapping (mapping_id : Field).

Record FinalizeStorage := mk_finalize {
  committee_store : CommitteeStore.CommitteeStorage N;
  program_id_map : MemoryMap.MemoryMap string (list string);
  key_value_map : NestedMap.NestedMemoryMap (string * string) Plaintext Value;
}.

Definition open_finalize : FinalizeStorage := mk_finalize CommitteeStore.open_storage MemoryMap.empty NestedMap.empty.

#[global] Instance finalize_atomic : Atomic FinalizeStorage := {|
  is_atomic_in_progress s :=
    is_atomic_in_progress (committee_store s) || is_atomic_in_progress (program_id_map s) || is_atomic_in_progress (key_value_map s);
  start_atomic s :=
    a ← start_atomic (committee_store s); b ← start_atomic (program_id_map s); c ← start_atomic (key_value_map s); Ok (mk_finalize a b c);
  atomic_checkpoint s := mk_finalize (atomic_checkpoint (committee_store s)) (atomic_checkpoint (program_id_map s)) (atomic_checkpoint (key_value_map s));
  clear_latest_checkpoint s :=
    mk_finalize (clear_latest_checkpoint (committee_store s)) (clear_latest_checkpoint (program_id_map s)) (clear_latest_checkpoint (key_value_map s));
  atomic_rewind s := mk_finalize (atomic_rewind (committee_store s)) (atomic_rewind (program_id_map s)) (atomic_rewind (key_value_map s));
  abort_atomic s := mk_finalize (abort_atomic (committee_store s)) (abort_atomic (program_id_map s)) (abort_atomic (key_value_map s));
  finish_atomic s :=
    a ← finish_atomic (committee_store s); b ← finish_atomic (program_id_map s); c ← finish_atomic (key_value_map s); Ok (mk_finalize a b c);
|}.

(** ** Reads *)

Definition contains_program_confirmed (program_id : string) (s : FinalizeStorage) : bool := MemoryMap.contains_key_confirmed program_id (program_id_map s).
Definition contains_mapping_confirmed (program_id mapping_name : string) (s : FinalizeStorage) : bool :=
  match MemoryMap.get_confirmed program_id (program_id_map s) with Some m => bool_decide (mapping_name ∈ m) | None => false end.
Definition contains_mapping_speculative (program_id mapping_name : string) (s : FinalizeStorage) : bool :=
  match MemoryMap.get_speculative program_id (program_id_map s) with Some m => bool_decide (mapping_name ∈ m) | None => false end.
Definition contains_key_confirmed (program_id mapping_name : string) (key : Plaintext) (s : FinalizeStorage) : bool :=
  NestedMap.contains_key_confirmed (program_id, mapping_name) key (key_value_map s).
Definition contains_key_speculative (program_id mapping_name : string) (key : Plaintext) (s : FinalizeStorage) : bool :=
  NestedMap.contains_key_speculative (program_id, mapping_name) key (key_value_map s).
Definition get_mapping_names_confirmed (program_id : string) (s : FinalizeStorage) : option (list string) := MemoryMap.get_confirmed program_id (program_id_map s).
Definition get_mapping_names_speculative (program_id : string) (s : FinalizeStorage) : option (list string) := MemoryMap.get_speculative program_id (program_id_map s).
Definition get_mapping_confirmed (program_id mapping_name : string) (s : FinalizeStorage) : result (list (Plaintext * Value)) :=
  _ ← ensure (contains_mapping_confirmed program_id mapping_name s) "Illegal operation: mapping is not initialized - cannot get mapping (C).";
  NestedMap.get_map_confirmed (program_id, mapping_name) (key_value_map s).
Definition get_mapping_speculative (program_id mapping_name : string) (s : FinalizeStorage) : result (list (Plaintext * Value)) :=
  _ ← ensure (contains_mapping_speculative program_id mapping_name s) "Illegal operation: mapping is not initialized - cannot get mapping (S).";
  NestedMap.get_map_speculative (program_id, mapping_name) (key_value_map s).
Definition get_value_confirmed (program_id mapping_name : string) (key : Plaintext) (s : FinalizeStorage) : option Value :=
  NestedMap.get_value_confirmed (program_id, mapping_name) key (key_value_map s).
Definition get_value_speculative (program_id mapping_name : string) (key : Plaintext) (s : FinalizeStorage) : option Value :=
  NestedMap.get_value_speculative (program_id, mapping_name) key (key_value_map s).

(** ** Writes *)

Definition set_names (program_id : string) (names : list string) : SM FinalizeStorage unit :=
  smodify (fun s => mk_finalize (committee_store s) (MemoryMap.insert program_id names (program_id_map s)) (key_value_map s)).
Definition unset_names (program_id : string) : SM FinalizeStorage unit :=
  smodify (fun s => mk_finalize (committee_store s) (MemoryMap.remove program_id (program_id_map s)) (key_value_map s)).
Definition set_key (program_id mapping_name : string) (key : Plaintext) (value : Value) : SM FinalizeStorage unit :=
  smodify (fun s => mk_finalize (committee_store s) (program_id_map s) (NestedMap.insert (program_id, mapping_name) key value (key_value_map s))).
Definition unset_key (program_id mapping_name : string) (key : Plaintext) : SM FinalizeStorage unit :=
  smodify (fun s => mk_finalize (committee_store s) (program_id_map s) (NestedMap.remove_key (program_id, mapping_name) key (key_value_map s))).
Definition unset_map (program_id mapping_name : string) : SM FinalizeStorage unit :=
  smodify (fun s => mk_finalize (committee_store s) (program_id_map s) (NestedMap.remove_map (program_id, mapping_name) (key_value_map s))).

Definition initialize_mapping (program_id mapping_name : string) : SM FinalizeStorage FinalizeOperation :=
  do s ⇐ sget;
  let mapping_names := default [] (MemoryMap.get_speculative program_id (program_id_map s)) in
  do _ ⇐ slift (ensure (bool_decide (mapping_name ∉ mapping_names)) "Illegal operation: mapping name '{mapping_name}' already exists in storage - cannot re-initialize.");
  do _ ⇐ atomic_batch_scope (set_names program_id (mapping_names ++ [mapping_name]));
  slift (mapping_id ← to_mapping_id program_id mapping_name; Ok (InitializeMapping mapping_id)).

Definition insert_key_value (program_id mapping_name : string) (key : Plaintext) (value : Value) : SM FinalizeStorage FinalizeOperation :=
  do s ⇐ sget;
  do _ ⇐ slift (ensure (contains_mapping_speculative program_id mapping_name s) "Illegal operation: '{program_id}/{mapping_name}' is not initialized - cannot insert key-value.");
  do _ ⇐ slift (ensure (negb (contains_key_speculative program_id mapping_name key s)) "Illegal operation: '{program_id}/{mapping_name}' key '{key}' already exists in storage - cannot insert key-value");
  do key_id ⇐ slift (to_key_id program_id mapping_name key);
  do value_id ⇐ slift (to_value_id key_id value);
  do _ ⇐ atomic_batch_scope (set_key program_id mapping_name key value);
  slift (mapping_id ← to_mapping_id program_id mapping_name; Ok (InsertKeyValue mapping_id key_id value_id)).

Definition update_key_value (program_id mapping_name : string) (key : Plaintext) (value : Value) : SM FinalizeStorage FinalizeOperation :=
  do s ⇐ sget;
  do _ ⇐ slift (ensure (contains_mapping_speculative program_id mapping_name s) "Illegal operation: '{program_id}/{mapping_name}' is not initialized - cannot update key-value.");
  do key_id ⇐ slift (to_key_id program_id mapping_name key);
  do value_id ⇐ slift (to_value_id key_id value);
  do _ ⇐ atomic_batch_scope (set_key program_id mapping_name key value);
  slift (mapping_id ← to_mapping_id program_id mapping_name; Ok (UpdateKeyValue mapping_id key_id value_id)).

Definition remove_key_value (program_id mapping_name : string) (key : Plaintext) : SM FinalizeStorage (option FinalizeOperation) :=
  do s ⇐ sget;
  do _ ⇐ slift (ensure (contains_mapping_speculative program_id mapping_name s) "Illegal operation: '{program_id}/{mapping_name}' is not initialized - cannot remove key-value.");
  if negb (contains_key_speculative program_id mapping_name key s) then sret None else
  do key_id ⇐ slift (to_key_id program_id mapping_name key);
  do _ ⇐ atomic_batch_scope (unset_key program_id mapping_name key);
  slift (mapping_id ← to_mapping_id program_id mapping_name; Ok (Some (RemoveKeyValue mapping_id key_id))).

Definition replace_mapping (program_id mapping_name : string) (entries : list (Plaintext * Value)) : SM FinalizeStorage FinalizeOperation :=
  do s ⇐ sget;
  do _ ⇐ slift (ensure (contains_mapping_speculative program_id mapping_name s) "Illegal operation: '{program_id}/{mapping_name}' is not initialized - cannot replace mapping.");
  do _ ⇐ atomic_batch_scope (
    do _ ⇐ unset_map program_id mapping_name;
    sfold (fun _ p => set_key program_id mapping_name p.1 p.2) tt entries);
  slift (mapping_id ← to_mapping_id program_id mapping_name; Ok (ReplaceMapping mapping_id)).

Definition remove_mapping (program_id mapping_name : string) : SM FinalizeStorage FinalizeOperation :=
  do s ⇐ sget;
  do mapping_names ⇐ slift (ok_or "Illegal operation: program ID '{program_id}' is not initialized - cannot remove mapping." (MemoryMap.get_speculative program_id (program_id_map s)));
  do _ ⇐ slift (ensure (bool_decide (mapping_name ∈ mapping_names)) "Illegal operation: mapping '{mapping_name}' does not exist in storage - cannot remove mapping.");
  do _ ⇐ atomic_batch_scope (
    do _ ⇐ set_names program_id (base.filter (fun name => name <> mapping_name) mapping_names);
    unset_map program_id mapping_name);
  slift (mapping_id ← to_mapping_id program_id mapping_name; Ok (RemoveMapping mapping_id)).

Definition remove_program (program_id : string) : SM FinalizeStorage unit :=
  do s ⇐ sget;
  do mapping_names ⇐ slift (ok_or "Illegal operation: program ID '{program_id}' is not initialized - cannot remove mapping." (MemoryMap.get_speculative program_id (program_id_map s)));
  atomic_batch_scope (
    do _ ⇐ unset_names program_id;
    sfold (fun _ mapping_name => unset_map program_id mapping_name) tt mapping_names).
End FinalizeStore.
Arguments FinalizeStorage N : clear implicits.
End FinalizeStore.
