(* ===== verification/FinalizeStoreProps.v ===== *)
(** * The finalize store refines a map of mappings

    At any point of a batch the operations of the store act on the working version, a
    map from program, mapping and key to values, as the documentation of the store
    describes it; a failed operation leaves it unchanged. *)

From S2P Require Import Prelude Bytes Network Committee StoreMap StoreMapProps Atomicity CommitteeStore CommitteeStoreProps FinalizeStore.

Module FinalizeStoreProps.
Import Txn BatchProps Atomicity FinalizeStore.
#[local] Existing Instance CommitteeStoreProps.storage_spec.

Section FinalizeStore.
Context `{N : Network} {H : FinalizeHash}.
Context `{!Serialize Z, !SerializeLaws Z, !Serialize string, !SerializeLaws string}.
Context `{!Serialize (string * string), !SerializeLaws (string * string), !Serialize Plaintext, !SerializeLaws Plaintext}.
Implicit Types (s : FinalizeStorage N).

(** The contents of the store. *)
Record fview := mk_fview {
  f_committee : CommitteeStoreProps.view;
  f_names : gmap string (list string);
  f_values : gmap (string * string * Plaintext) Value;
}.

Record frel s (t : Txn.t fview) : Prop := {
  frel_committee : CommitteeStoreProps.srel (committee_store s) (tmap f_committee t);
  frel_names : batch_rel MemoryMapProps.applyA MemoryMapProps.contents_rel (program_id_map s) (tmap f_names t);
  frel_values : batch_rel NestedMapProps.applyA NestedMapProps.contents_rel (key_value_map s) (tmap f_values t);
}.

#[export] Instance finalize_spec : AtomicSpec frel.
Proof.
  split.
  - intros s t [H1 H2 H3]. cbn [is_atomic_in_progress finalize_atomic].
    rewrite (spec_in_progress _ _ H1), (spec_in_progress _ _ H2), (spec_in_progress _ _ H3). by destruct t as [? [[]|]].
  - intros s v [H1 H2 H3]. destruct (spec_start _ _ H1) as (b1 & E1 & R1), (spec_start _ _ H2) as (b2 & E2 & R2), (spec_start _ _ H3) as (b3 & E3 & R3).
    exists (mk_finalize b1 b2 b3). split; [|by split]. cbn [start_atomic finalize_atomic]. by rewrite E1, E2, E3.
  - intros s v w sv [H1 H2 H3]. split; [exact (spec_checkpoint _ _ _ _ H1)|exact (spec_checkpoint _ _ _ _ H2)|exact (spec_checkpoint _ _ _ _ H3)].
  - intros s v w x sv [H1 H2 H3]. split; [exact (spec_clear _ _ _ _ _ H1)|exact (spec_clear _ _ _ _ _ H2)|exact (spec_clear _ _ _ _ _ H3)].
  - intros s v w x sv [H1 H2 H3]. split; [exact (spec_rewind _ _ _ _ _ H1)|exact (spec_rewind _ _ _ _ _ H2)|exact (spec_rewind _ _ _ _ _ H3)].
  - intros s t [H1 H2 H3]. split; [apply (spec_abort _ _ H1)|apply (spec_abort _ _ H2)|apply (spec_abort _ _ H3)].
  - intros s t [H1 H2 H3]. destruct (spec_finish _ _ H1) as (b1 & E1 & R1), (spec_finish _ _ H2) as (b2 & E2 & R2), (spec_finish _ _ H3) as (b3 & E3 & R3).
    rewrite tmap_current in R1. rewrite tmap_current in R2. rewrite tmap_current in R3. exists (mk_finalize b1 b2 b3).
    split; [|by split]. cbn [finish_atomic finalize_atomic]. by rewrite E1, E2, E3.
Qed.

Definition empty_fview : fview := mk_fview (CommitteeStoreProps.mk_view ∅ ∅ ∅) ∅ ∅.
Lemma open_frel : frel open_finalize (mk empty_fview None).
Proof.
  destruct CommitteeStoreProps.stores_open as (v & Hv & ->). split; [exact Hv| |].
  - apply (fresh_rel _ _ ∅ ∅). unfold MemoryMapProps.contents_rel. by rewrite kmap_empty.
  - apply (fresh_rel _ _ _ ∅). apply NestedMapProps.nested_empty_rel.
Qed.

(** ** Writes in a batch *)

Lemma write_names s v w sv o :
  frel s (mk v (Some (w, sv))) -> frel (mk_finalize (committee_store s) (Batch.write MemoryMap.apply o (program_id_map s)) (key_value_map s))
    (mk v (Some (mk_fview (f_committee w) (MemoryMapProps.applyA o (f_names w)) (f_values w), sv))).
Proof.
  intros [H1 H2 H3]. split; [done| |done].
  destruct (batch_step MemoryMap.apply MemoryMap.commit MemoryMapProps.applyA MemoryMapProps.contents_rel MemoryMapProps.apply_rel MemoryMapProps.commit_rel (Write o) _ _ H2 eq_refl) as (b' & [= <-] & Hr).
  exact Hr.
Qed.

Lemma write_values s v w sv o :
  frel s (mk v (Some (w, sv))) -> frel (mk_finalize (committee_store s) (program_id_map s) (Batch.write NestedMap.apply o (key_value_map s)))
    (mk v (Some (mk_fview (f_committee w) (f_names w) (NestedMapProps.applyA o (f_values w)), sv))).
Proof.
  intros [H1 H2 H3]. split; [done|done|].
  destruct (batch_step NestedMap.apply NestedMap.commit NestedMapProps.applyA NestedMapProps.contents_rel NestedMapProps.nested_apply_rel NestedMapProps.nested_commit_rel (Write o) _ _ H3 eq_refl) as (b' & [= <-] & Hr).
  exact Hr.
Qed.

(** A block that succeeds and changes the working version by a function. *)
Definition updates (ops : SM (FinalizeStorage N) unit) (f : fview -> fview) : Prop :=
  forall a, block frel a ops (fun w r w' => r = Ok tt /\ w' = f w).

Lemma updates_modify g f :
  (forall s v w sv, frel s (mk v (Some (w, sv))) -> frel (g s) (mk v (Some (f w, sv)))) -> updates (smodify g) f.
Proof. intros Hg a s w sv Hr. exists (Ok tt), (g s), (f w). split_and!; try done. by apply Hg. Qed.

Lemma updates_bind ops ops' f f' : updates ops f -> updates ops' f' -> updates (do _ ⇐ ops; ops') (fun w => f' (f w)).
Proof.
  intros H1 H2 a s w sv Hr. destruct (H1 a s w sv Hr) as (r1 & s1 & w1 & E1 & R1 & [-> ->] & _). destruct (H2 a s1 _ sv R1) as (r2 & s2 & w2 & E2 & R2 & [-> ->] & _).
  exists (Ok tt), s2, (f' (f w)). unfold sbind. by rewrite E1.
Qed.

Lemma updates_fold {A} (ops : A -> SM (FinalizeStorage N) unit) (f : A -> fview -> fview) (l : list A) :
  (forall x, updates (ops x) (f x)) -> updates (sfold (fun _ x => ops x) tt l) (fun w => foldl (fun w x => f x w) w l).
Proof.
  intros Hx. induction l as [|x l IH].
  - intros a s w sv Hr. by exists (Ok tt), s, w.
  - intros a s w sv Hr. destruct (updates_bind _ _ _ _ (Hx x) IH a s w sv Hr) as (r & s' & w' & E & R & P). exists r, s', w'. split; [|done].
    rewrite <-E. cbn [sfold]. unfold sbind. destruct (ops x s) as [[[]| | |] ?]; done.
Qed.

Definition with_values (w : fview) (f : gmap (string * string * Plaintext) Value -> gmap (string * string * Plaintext) Value) : fview :=
  mk_fview (f_committee w) (f_names w) (f (f_values w)).
Definition with_names (w : fview) (f : gmap string (list string) -> gmap string (list string)) : fview :=
  mk_fview (f_committee w) (f (f_names w)) (f_values w).

Lemma set_names_updates p names : updates (set_names p names) (fun w => with_names w (<[p := names]>)).
Proof. apply updates_modify. intros s v w sv Hr. apply (write_names _ _ _ _ (p, Some names) Hr). Qed.
Lemma set_key_updates p m k x : updates (set_key p m k x) (fun w => with_values w (<[(p, m, k) := x]>)).
Proof. apply updates_modify. intros s v w sv Hr. apply (write_values _ _ _ _ (NestedMap.InsertOp (p, m) k x) Hr). Qed.
Lemma unset_key_updates p m k : updates (unset_key p m k) (fun w => with_values w (delete (p, m, k))).
Proof. apply updates_modify. intros s v w sv Hr. apply (write_values _ _ _ _ (NestedMap.RemoveKeyOp (p, m) k) Hr). Qed.
Lemma unset_map_updates p m : updates (unset_map p m) (fun w => with_values w (base.filter (fun e => e.1.1 <> (p, m)))).
Proof. apply updates_modify. intros s v w sv Hr. apply (write_values _ _ _ _ (NestedMap.RemoveMapOp (p, m)) Hr). Qed.

(** A scope around such a block, wherever it runs. *)
Lemma scope_updates t s ops f :
  frel s t -> updates ops f -> exists s', atomic_batch_scope ops s = (Ok tt, s') /\ frel s' (with_current t (f (current t))).
Proof.
  intros Hr Hu. destruct (scope_run frel t s ops _ Hr (Hu (committed t))) as (r & s' & w & Hs & [-> ->] & Hr'). by exists s'.
Qed.

(** ** Reads *)

Lemma reads_names s t p : frel s t -> MemoryMap.get_speculative p (program_id_map s) = f_names (current t) !! p.
Proof. intros [_ H2 _]. rewrite (MemoryMapProps.as_speculative _ _ (MemoryMapProps.rel_reads _ _ H2)). by rewrite tmap_current. Qed.

Definition initialized (w : fview) (p m : string) : bool := match f_names w !! p with Some names => bool_decide (m ∈ names) | None => false end.
Lemma reads_mapping s t p m : frel s t -> contains_mapping_speculative p m s = initialized (current t) p m.
Proof. intros Hr. unfold contains_mapping_speculative. by rewrite (reads_names s t p Hr). Qed.

Lemma reads_value s t p m k : frel s t -> get_value_speculative p m k s = f_values (current t) !! (p, m, k).
Proof. intros [_ _ H3]. unfold get_value_speculative. rewrite (NestedMapProps.as_speculative _ _ (NestedMapProps.nested_rel_reads _ _ H3)). by rewrite tmap_current. Qed.

Lemma reads_contains s t p m k : frel s t -> contains_key_speculative p m k s = bool_decide (is_Some (f_values (current t) !! (p, m, k))).
Proof.
  intros [_ _ H3]. unfold contains_key_speculative. rewrite (NestedMapProps.as_contains_speculative _ _ (NestedMapProps.nested_rel_reads _ _ H3)), tmap_current.
  apply bool_decide_ext. by rewrite elem_of_dom.
Qed.

(** The entries of a mapping. *)
Definition entries_of (w : fview) (p m : string) (l : list (Plaintext * Value)) : Prop := NestedMapProps.lists (p, m) (f_values w) l.
Lemma reads_entries s t p m :
  frel s t -> initialized (current t) p m = true -> exists l, get_mapping_speculative p m s = Ok l /\ entries_of (current t) p m l.
Proof.
  intros Hr Hi. unfold get_mapping_speculative. rewrite (reads_mapping s t p m Hr), Hi. cbn [ensure mbind result_bind].
  destruct (NestedMapProps.as_map_speculative _ _ (NestedMapProps.nested_rel_reads _ _ (frel_values _ _ Hr)) (p, m)) as (l & Hl & Hlist). rewrite tmap_current in Hlist. by exists l.
Qed.

(** ** Operations *)

Context (hash_total : forall bits, exists f, hash_bits bits = Ok f).

Lemma mapping_id_Ok p m : exists f, to_mapping_id p m = Ok f.
Proof. apply hash_total. Qed.
Lemma key_id_Ok p m k : exists f, to_key_id p m k = Ok f.
Proof. apply hash_total. Qed.
Lemma value_id_Ok f x : exists g, to_value_id f x = Ok g.
Proof. unfold to_value_id. destruct (hash_total (value_bits x)) as [g ->]. apply hash_total. Qed.

(** The specification: the operations of the store on a map. *)
Definition spec_insert (p m : string) (k : Plaintext) (x : Value) (w : fview) : option fview :=
  if initialized w p m && negb (bool_decide (is_Some (f_values w !! (p, m, k)))) then Some (with_values w (<[(p, m, k) := x]>)) else None.
Definition spec_update (p m : string) (k : Plaintext) (x : Value) (w : fview) : option fview :=
  if initialized w p m then Some (with_values w (<[(p, m, k) := x]>)) else None.
Definition spec_remove (p m : string) (k : Plaintext) (w : fview) : option fview :=
  if initialized w p m then Some (with_values w (delete (p, m, k))) else None.
Definition replaced (p m : string) (entries : list (Plaintext * Value)) (w : fview) : fview :=
  foldl (fun w e => with_values w (<[(p, m, e.1) := e.2]>)) (with_values w (base.filter (fun e => e.1.1 <> (p, m)))) entries.
Definition spec_replace (p m : string) (entries : list (Plaintext * Value)) (w : fview) : option fview :=
  if initialized w p m then Some (replaced p m entries w) else None.
Definition spec_initialize (p m : string) (w : fview) : option fview :=
  let names := default [] (f_names w !! p) in
  if bool_decide (m ∈ names) then None else Some (with_names w (<[p := names ++ [m]]>)).

(** An operation that does what the specification says, at any point. *)
Definition implements {A} (ops : SM (FinalizeStorage N) A) (spec : fview -> option fview) : Prop :=
  forall s t, frel s t ->
  match spec (current t) with
  | Some w => exists x s', ops s = (Ok x, s') /\ frel s' (with_current t w)
  | None => exists e s', ops s = (Err e, s') /\ frel s' t
  end.

Lemma with_current_same (t : Txn.t fview) : with_current t (current t) = t.
Proof. by destruct t as [a [[w sv]|]]. Qed.

Lemma implements_update p m k x : implements (update_key_value p m k x) (spec_update p m k x).
Proof.
  intros s t Hr. unfold spec_update, update_key_value. cbn [sget sbind]. rewrite (reads_mapping s t p m Hr). destruct (initialized (current t) p m).
  - cbn [ensure slift sbind]. destruct (key_id_Ok p m k) as [f Hf]. rewrite Hf. cbn [slift sbind]. destruct (value_id_Ok f x) as [g Hg]. rewrite Hg. cbn [slift sbind].
    destruct (scope_updates t s _ _ Hr (set_key_updates p m k x)) as (s' & Hs' & Hr'). unfold sbind. rewrite Hs'. destruct (mapping_id_Ok p m) as [h ->]. by eexists _, s'.
  - by eexists _, s.
Qed.

Lemma implements_insert p m k x : implements (insert_key_value p m k x) (spec_insert p m k x).
Proof.
  intros s t Hr. unfold spec_insert, insert_key_value. cbn [sget sbind]. rewrite (reads_mapping s t p m Hr), (reads_contains s t p m k Hr). destruct (initialized (current t) p m); [|by eexists _, s].
  cbn [ensure slift sbind andb]. destruct (negb _); [|by eexists _, s]. cbn [ensure slift sbind].
  destruct (key_id_Ok p m k) as [f Hf]. rewrite Hf. cbn [slift sbind]. destruct (value_id_Ok f x) as [g Hg]. rewrite Hg. cbn [slift sbind].
  destruct (scope_updates t s _ _ Hr (set_key_updates p m k x)) as (s' & Hs' & Hr'). unfold sbind. rewrite Hs'. destruct (mapping_id_Ok p m) as [h ->]. by eexists _, s'.
Qed.

Lemma implements_remove p m k : implements (remove_key_value p m k) (spec_remove p m k).
Proof.
  intros s t Hr. unfold spec_remove, remove_key_value. cbn [sget sbind]. rewrite (reads_mapping s t p m Hr). destruct (initialized (current t) p m); [|by eexists _, s].
  cbn [ensure slift sbind]. rewrite (reads_contains s t p m k Hr). case_bool_decide as Hk; cbn [negb].
  - destruct (key_id_Ok p m k) as [f Hf]. rewrite Hf. cbn [slift sbind]. destruct (scope_updates t s _ _ Hr (unset_key_updates p m k)) as (s' & Hs' & Hr').
    unfold sbind. rewrite Hs'. destruct (mapping_id_Ok p m) as [h ->]. by eexists _, s'.
  - eexists _, s. split; [done|]. assert (with_values (current t) (delete (p, m, k)) = current t) as ->; [|by rewrite with_current_same].
    unfold with_values. rewrite delete_id; [by destruct (current t)|]. by apply eq_None_not_Some.
Qed.

Lemma implements_replace p m entries : implements (replace_mapping p m entries) (spec_replace p m entries).
Proof.
  intros s t Hr. unfold spec_replace, replace_mapping. cbn [sget sbind]. rewrite (reads_mapping s t p m Hr). destruct (initialized (current t) p m); [|by eexists _, s].
  cbn [ensure slift sbind]. destruct (scope_updates t s _ _ Hr (updates_bind _ _ _ _ (unset_map_updates p m) (updates_fold _ _ entries (fun e => set_key_updates p m e.1 e.2)))) as (s' & Hs' & Hr').
  unfold sbind at 1. rewrite Hs'. destruct (mapping_id_Ok p m) as [h ->]. by eexists _, s'.
Qed.

Lemma implements_initialize p m : implements (initialize_mapping p m) (spec_initialize p m).
Proof.
  intros s t Hr. unfold spec_initialize, initialize_mapping. cbn [sget sbind]. rewrite (reads_names s t p Hr). case_bool_decide as Hm.
  - rewrite bool_decide_false by (by intros []). by eexists _, s.
  - rewrite bool_decide_true by done. cbn [ensure slift sbind].
    destruct (scope_updates t s _ _ Hr (set_names_updates p (default [] (f_names (current t) !! p) ++ [m]))) as (s' & Hs' & Hr').
    unfold sbind. rewrite Hs'. destruct (mapping_id_Ok p m) as [h ->]. by eexists _, s'.
Qed.

Lemma unset_names_updates p : updates (unset_names p) (fun w => with_names w (delete p)).
Proof. apply updates_modify. intros s v w sv Hr. apply (write_names _ _ _ _ (p, None) Hr). Qed.

Definition spec_remove_mapping (p m : string) (w : fview) : option fview :=
  match f_names w !! p with
  | Some names => if decide (m ∈ names) then
      Some (with_values (with_names w (<[p := base.filter (fun name => name <> m) names]>)) (base.filter (fun e => e.1.1 <> (p, m)))) else None
  | None => None
  end.
Lemma implements_remove_mapping p m : implements (remove_mapping p m) (spec_remove_mapping p m).
Proof.
  intros s t Hr. unfold spec_remove_mapping, remove_mapping. cbn [sget sbind]. rewrite (reads_names s t p Hr). destruct (f_names (current t) !! p) as [names|]; [|by eexists _, s].
  cbn [ok_or slift sbind]. case_decide as Hm; [rewrite bool_decide_true by done|rewrite bool_decide_false by done; by eexists _, s]. cbn [ensure slift sbind].
  destruct (scope_updates t s _ _ Hr (updates_bind _ _ _ _ (set_names_updates p (base.filter (fun name => name <> m) names)) (unset_map_updates p m))) as (s' & Hs' & Hr').
  unfold sbind at 1. rewrite Hs'. destruct (mapping_id_Ok p m) as [h ->]. by eexists _, s'.
Qed.

Definition spec_remove_program (p : string) (w : fview) : option fview :=
  match f_names w !! p with
  | Some names => Some (foldl (fun w m => with_values w (base.filter (fun e => e.1.1 <> (p, m)))) (with_names w (delete p)) names)
  | None => None
  end.
Lemma implements_remove_program p : implements (remove_program p) (spec_remove_program p).
Proof.
  intros s t Hr. unfold spec_remove_program, remove_program. cbn [sget sbind]. rewrite (reads_names s t p Hr). destruct (f_names (current t) !! p) as [names|]; [|by eexists _, s].
  cbn [ok_or slift sbind]. destruct (scope_updates t s _ _ Hr (updates_bind _ _ _ _ (unset_names_updates p) (updates_fold _ _ names (fun m => unset_map_updates p m)))) as (s' & Hs' & Hr').
  by exists tt, s'.
Qed.

(** ** Sequences of operations *)

Inductive fop :=
| Initialize (p m : string)
| Insert (p m : string) (k : Plaintext) (x : Value)
| Update (p m : string) (k : Plaintext) (x : Value)
| Remove (p m : string) (k : Plaintext)
| Replace (p m : string) (entries : list (Plaintext * Value))
| RemoveMap (p m : string)
| RemoveProgram (p : string).

Definition discard {A} (m : SM (FinalizeStorage N) A) : SM (FinalizeStorage N) unit := do _ ⇐ m; sret tt.
Definition exec_fop (o : fop) : SM (FinalizeStorage N) unit :=
  match o with
  | Initialize p m => discard (initialize_mapping p m)
  | Insert p m k x => discard (insert_key_value p m k x)
  | Update p m k x => discard (update_key_value p m k x)
  | Remove p m k => discard (remove_key_value p m k)
  | Replace p m entries => discard (replace_mapping p m entries)
  | RemoveMap p m => discard (remove_mapping p m)
  | RemoveProgram p => remove_program p
  end.
Definition spec_fop (o : fop) : fview -> option fview :=
  match o with
  | Initialize p m => spec_initialize p m
  | Insert p m k x => spec_insert p m k x
  | Update p m k x => spec_update p m k x
  | Remove p m k => spec_remove p m k
  | Replace p m entries => spec_replace p m entries
  | RemoveMap p m => spec_remove_mapping p m
  | RemoveProgram p => spec_remove_program p
  end.

Lemma implements_discard {A} (ops : SM (FinalizeStorage N) A) spec : implements ops spec -> implements (discard ops) spec.
Proof.
  intros Hi s t Hr. specialize (Hi s t Hr). unfold discard, sbind, sret. destruct (spec (current t)).
  - destruct Hi as (x & s' & -> & Hr'). by exists tt, s'.
  - destruct Hi as (e & s' & -> & Hr'). by exists e, s'.
Qed.

Lemma implements_fop o : implements (exec_fop o) (spec_fop o).
Proof.
  destruct o; cbn; try apply implements_discard; [apply implements_initialize|apply implements_insert|apply implements_update|apply implements_remove
    |apply implements_replace|apply implements_remove_mapping|apply implements_remove_program].
Qed.

(** Operations that may fail, with whether they succeed. *)
Fixpoint run_fops s (ops : list fop) : list bool * FinalizeStorage N :=
  match ops with
  | [] => ([], s)
  | o :: ops => let '(r, s) := exec_fop o s in let '(rs, s) := run_fops s ops in (is_ok r :: rs, s)
  end.
Fixpoint spec_fops (w : fview) (ops : list fop) : list bool * fview :=
  match ops with
  | [] => ([], w)
  | o :: ops => match spec_fop o w with
                | Some w => let '(rs, w) := spec_fops w ops in (true :: rs, w)
                | None => let '(rs, w) := spec_fops w ops in (false :: rs, w)
                end
  end.

Lemma with_current_current (t : Txn.t fview) w : current (with_current t w) = w.
Proof. by destruct t as [a [[x sv]|]]. Qed.
Lemma with_current_twice (t : Txn.t fview) w w' : with_current (with_current t w) w' = with_current t w'.
Proof. by destruct t as [a [[x sv]|]]. Qed.

Lemma run_fops_rel ops : forall s t, frel s t ->
  exists s', run_fops s ops = ((spec_fops (current t) ops).1, s') /\ frel s' (with_current t (spec_fops (current t) ops).2).
Proof.
  induction ops as [|o ops IH]; intros s t Hr; cbn [run_fops spec_fops]; [exists s; cbn; by rewrite with_current_same|].
  pose proof (implements_fop o s t Hr) as Ho. destruct (spec_fop o (current t)) as [w1|].
  - destruct Ho as (x & s1 & -> & Hr1). destruct (IH s1 _ Hr1) as (s' & -> & Hr'). rewrite with_current_current in *. exists s'. destruct (spec_fops w1 ops). cbn in *.
    by rewrite with_current_twice in Hr'.
  - destruct Ho as (e & s1 & -> & Hr1). destruct (IH s1 t Hr1) as (s' & -> & Hr'). exists s'. by destruct (spec_fops (current t) ops).
Qed.

(** C40: the finalize store is a map from program, mapping and key to values: after
    any sequence of its operations, alone or as a part of a batch, each succeeds exactly
    when the map's does, and the speculative reads give the values and the entries of
    the map. *)
Theorem finalize_store_refines (ops : list fop) (s : FinalizeStorage N) (t : Txn.t fview) :
  frel s t ->
  let w := (spec_fops (current t) ops).2 in
  exists s', run_fops s ops = ((spec_fops (current t) ops).1, s') /\ frel s' (with_current t w) /\
    (forall p m k, get_value_speculative p m k s' = f_values w !! (p, m, k)) /\
    (forall p m, initialized w p m = true -> exists l, get_mapping_speculative p m s' = Ok l /\ entries_of w p m l).
Proof.
  intros Hr w. destruct (run_fops_rel ops s t Hr) as (s' & Hs' & Hr').
  exists s'. split; [done|]. split; [done|]. split.
  - intros p m k. by rewrite (reads_value _ _ _ _ _ Hr'), with_current_current.
  - intros p m Hi. pose proof (reads_entries s' _ p m Hr') as Hl. rewrite with_current_current in Hl. by apply Hl.
Qed.
End FinalizeStore.
End FinalizeStoreProps.

(** ** Witness *)

Import FinalizeStore.

(** Keys by their number. *)
#[local] Instance serialize_countable {K} `{Countable K} : Serialize K | 100 := {|
  serialize k := [Z.pos (encode k)];
  deserialize l := match l with [Z.pos p] => match decode p with Some k => Ok k | None => Err "invalid key" end | _ => Err "invalid key" end;
|}.
#[local] Instance serialize_countable_laws {K} `{Countable K} : SerializeLaws K | 100.
Proof. split; [intros k; cbn; by rewrite decode_encode|]. intros k k' x y [= Hk _]. by apply (inj encode). Qed.

#[local] Instance sample_hash : FinalizeHash (N := TestNetwork) := {|
  program_bits _ := [true]; identifier_bits _ := [false]; plaintext_bits _ := [true]; value_bits _ := [false];
  field_bits f := [bool_decide (f = "0"%char)]; hash_bits bs := Ok (if forallb id bs then "1"%char else "0"%char);
|}.

Definition sample_key : Plaintext (N := TestNetwork) := PLiteral (LAddress "a"%char).
Definition sample_value (z : Z) : Value (N := TestNetwork) := VPlaintext (PLiteral (LU64 z)).
Definition sample_fops : list (FinalizeStoreProps.fop (N := TestNetwork)) :=
  [FinalizeStoreProps.Insert "credits.aleo" "account" sample_key (sample_value 1); FinalizeStoreProps.Initialize "credits.aleo" "account";
   FinalizeStoreProps.Insert "credits.aleo" "account" sample_key (sample_value 2); FinalizeStoreProps.Insert "credits.aleo" "account" sample_key (sample_value 3);
   FinalizeStoreProps.Update "credits.aleo" "account" sample_key (sample_value 4)].

Lemma sample_hash_total bits : exists f : Field (Network := TestNetwork), hash_bits bits = Ok f.
Proof. by eexists. Qed.

(** An insertion into a mapping that is not there, and one of a key that is, fail. *)
Lemma finalize_store_refines_witness :
  exists s, FinalizeStoreProps.run_fops open_finalize sample_fops = ([false; true; true; false; true], s) /\
    get_value_speculative "credits.aleo" "account" sample_key s = Some (sample_value 4).
Proof.
  destruct (FinalizeStoreProps.finalize_store_refines (N := TestNetwork) sample_hash_total sample_fops open_finalize
    (Txn.mk FinalizeStoreProps.empty_fview None) FinalizeStoreProps.open_frel) as (s & Hs & _ & Hv & _).
  exists s. split; [rewrite Hs; f_equal; vm_compute; reflexivity|]. rewrite Hv. reflexivity.
Defined.
