(* ===== verification/Ratify.v ===== *)
(** * Ratifications

    How a block changes the mappings of credits.aleo that the node itself maintains:
    snarkVM/synthesizer/src/vm/finalize.rs, [atomic_pre_ratify] (the genesis committee
    and balances) and [atomic_post_ratify] (block and puzzle rewards), with the
    conversions between the mappings and the committee of vm/helpers/committee.rs.  The
    features [history-staking-rewards] and [slipstream-plugins] are off. *)

From S2P Require Import Prelude Bytes Network Committee StoreMap CommitteeStore Targets Rewards FinalizeStore.

Module Ratify.
Import FinalizeStore Rewards.

(** What the ratifications take from the rest of snarkVM: the constants of the network,
    the two keys of the mapping [metadata], and the puzzle. *)
Class Env `{N : Network} := {
  params : Targets.Params;
  MAX_CERTIFICATES : list (Z * Z);
  num_validators_key : Address;
  num_delegators_key : Address;
  solution_address : Solution -> Address;
  get_proof_target : Solution -> result Z;
}.

(** [consensus_config_value!]. *)
Definition consensus_config_value (P : Targets.Params) (table : list (Z * Z)) (seek_height : Z) : result (option Z) :=
  match Targets.CONSENSUS_VERSION P seek_height with
  | Ok version => Ok (Targets.value_by_version table version)
  | Err _ => Ok None
  | Panic e => Panic e
  | Deadlock => Deadlock
  end.

Section Ratify.
Context `{N : Network} {H : FinalizeHash} {E : Env}.
Context `{!Serialize Z, !Serialize string, !Serialize (string * string), !Serialize Plaintext}.

(** ** Conversions *)

Definition address_key (a : Address) : Plaintext := PLiteral (LAddress a).

(** [state.get(&identifier)] of the fields of a struct. *)
Definition field (name : string) (fields : list (string * Plaintext)) : option Plaintext := imap_get name fields.

(** The stake of a member in the delegated map. *)
Definition find_microcredits (address : Address) (delegated_map : list (Plaintext * Value)) : option Z :=
  head (omap (fun p : Plaintext * Value =>
    match p with
    | (PLiteral (LAddress a), VPlaintext (PLiteral (LU64 microcredits))) => if decide (a = address) then Some microcredits else None
    | _ => None
    end) delegated_map).

Definition committee_member (delegated_map : list (Plaintext * Value)) (p : Plaintext * Value) : result (Address * member_state) :=
  address ← match p.1 with PLiteral (LAddress a) => Ok a | _ => Err "Invalid committee key (missing address) - {key}" end;
  state ← match p.2 with
          | VPlaintext (PStruct state) =>
              is_open ← match field "is_open" state with Some (PLiteral (LBoolean b)) => Ok b | _ => Err "Invalid committee state (missing boolean) - {value}" end;
              commission ← match field "commission" state with Some (PLiteral (LU8 z)) => Ok z | _ => Err "Invalid committee state (missing commission) - {value}" end;
              Ok (is_open, commission)
          | _ => Err "Invalid committee value (missing struct) - {value}"
          end;
  microcredits ← ok_or "Missing microcredits for committee member - {address}" (find_microcredits address delegated_map);
  Ok (address, (microcredits, state.1, state.2)).

Definition committee_and_delegated_maps_into_committee (starting_round : Z) (committee_map delegated_map : list (Plaintext * Value)) : result Committee :=
  committee_members ← mapM (committee_member delegated_map) committee_map;
  committee_new starting_round (imap_of_list committee_members).

Definition bonded_staker (p : Plaintext * Value) : result staker :=
  address ← match p.1 with PLiteral (LAddress a) => Ok a | _ => Err "Invalid bonded key (missing staker) - {key}" end;
  match p.2 with
  | VPlaintext (PStruct state) =>
      validator ← match field "validator" state with Some (PLiteral (LAddress a)) => Ok a | _ => Err "Invalid bonded state (missing validator) - {value}" end;
      microcredits ← match field "microcredits" state with Some (PLiteral (LU64 z)) => Ok z | _ => Err "Invalid bonded state (missing microcredits) - {value}" end;
      Ok (address, (validator, microcredits))
  | _ => Err "Invalid bonded value (missing struct) - {value}"
  end.

Definition bonded_map_into_stakers (bonded_map : list (Plaintext * Value)) : result (list staker) :=
  stakers ← mapM bonded_staker bonded_map; Ok (imap_of_list stakers).

Definition committee_entry (p : Address * member_state) : Plaintext * Value :=
  let '(validator, (_, is_open, commission)) := p in
  (address_key validator, VPlaintext (PStruct [("is_open"%string, PLiteral (LBoolean is_open)); ("commission"%string, PLiteral (LU8 commission))])).
Definition bonded_entry (p : staker) : Plaintext * Value :=
  let '(staker, (validator, microcredits)) := p in
  (address_key staker, VPlaintext (PStruct [("validator"%string, PLiteral (LAddress validator)); ("microcredits"%string, PLiteral (LU64 microcredits))])).
Definition amount_entry (p : Address * Z) : Plaintext * Value := (address_key p.1, VPlaintext (PLiteral (LU64 p.2))).
Definition withdraw_entry (p : Address * Address) : Plaintext * Value := (address_key p.1, VPlaintext (PLiteral (LAddress p.2))).

Definition to_next_committee_bonded_delegated_map (next_committee : Committee) (next_stakers : list staker) (next_delegated : list (Address * Z))
    : list (Plaintext * Value) * list (Plaintext * Value) * list (Plaintext * Value) :=
  (committee_entry <$> members next_committee, bonded_entry <$> next_stakers, amount_entry <$> next_delegated).
Definition to_next_withdraw_map (withdrawal_addresses : list (Address * Address)) : list (Plaintext * Value) := withdraw_entry <$> withdrawal_addresses.

(** ** Ratifications *)

(** [Ratify]; the bonded balances are of stakers, with their validator, withdrawal
    address and amount. *)
Inductive Ratify :=
| Genesis (committee : Committee) (public_balances : list (Address * Z)) (bonded_balances : list (Address * (Address * Address * Z)))
| BlockReward (block_reward : Z)
| PuzzleReward (puzzle_reward : Z).

(** The round and the height of [FinalizeGlobalState]. *)
Record FinalizeGlobalState := mk_global { block_round : Z; block_height : Z }.

Definition program_id : string := "credits.aleo".

(** [store.committee_store().insert(..)]. *)
Definition insert_committee (height : Z) (committee : Committee) : SM (FinalizeStorage N) unit := fun s =>
  let '(r, cs) := CommitteeStore.insert height committee (committee_store s) in
  (r, mk_finalize cs (program_id_map s) (key_value_map s)).

(** [Value::from_str] of a number and [u32]. *)
Definition u32_value (n : Z) : result Value := if decide (n <= u32_max) then Ok (VPlaintext (PLiteral (LU32 n))) else Err "Failed to parse string".

(** One bonded balance of [stake_per_validator]; [None] is the [continue]. *)
Definition add_bonded (committee : Committee) (stake_per_validator : list (Address * Z)) (p : Address * (Address * Address * Z)) : result (list (Address * Z)) :=
  let '(address, (validator_address, _, amount)) := p in
  if decide (address = validator_address) then
    _ ← ensure (bool_decide (MIN_VALIDATOR_SELF_STAKE <= amount)) "Ratify::Genesis(..) the validator {address} must stake at least {MIN_VALIDATOR_SELF_STAKE}";
    Ok (entry_add validator_address amount stake_per_validator)
  else
    _ ← ensure (bool_decide (MIN_DELEGATOR_STAKE <= amount)) "Ratify::Genesis(..) the delegator {address} must stake at least {MIN_DELEGATOR_STAKE}";
    if negb (is_committee_member committee validator_address) then Ok stake_per_validator else
    _ ← ensure (is_committee_member_open committee validator_address) "Ratify::Genesis(..) the delegator {address} is delegating to a closed validator {validator_address}";
    Ok (entry_add validator_address amount stake_per_validator).

(** The checks of a genesis ratification. *)
Definition check_genesis (state : FinalizeGlobalState) (is_genesis_ratified : bool) (committee : Committee) (bonded_balances : list (Address * (Address * Address * Z))) : result unit :=
  _ ← ensure (bool_decide (block_height state = 0)) "Ratify::Genesis(..) expected a genesis block";
  _ ← ensure (bool_decide (starting_round committee = 0)) "Ratify::Genesis(..) expected a genesis committee round of 0";
  max_committee_size ← consensus_config_value params MAX_CERTIFICATES (block_height state);
  max_committee_size ← ok_or "Ratify::Genesis(..) failed to retrieve the maximum committee size" max_committee_size;
  _ ← ensure (bool_decide (len (members committee) <= max_committee_size)) "Ratify::Genesis(..) exceeds the maximum number of committee members";
  _ ← ensure (bool_decide (saturating_sub (len bonded_balances) (len (members committee)) <= MAX_DELEGATORS)) "Ratify::Genesis(..) exceeds the maximum number of delegators";
  _ ← ensure (negb is_genesis_ratified) "Ratify::Genesis(..) has already been ratified";
  stake_per_validator ← foldM (add_bonded committee) [] bonded_balances;
  _ ← ensure (bool_decide (len stake_per_validator = len (members committee)))
        "Ratify::Genesis(..) the number of validators in the committee does not match the number of validators in the bonded balances";
  _ ← foldM (fun _ p =>
        m ← ok_or "Ratify::Genesis(..) found a validator in the bonded balances that is not in the committee" (imap_get p.1 (members committee));
        ensure (bool_decide (stake_of m = p.2)) "Ratify::Genesis(..) inconsistent staked amount for validator {validator_address}") tt stake_per_validator;
  ensure (bool_decide (total_stake committee = u64_wrap (sumZ stake_per_validator.*2))) "Ratify::Genesis(..) incorrect total total stake for the committee".

Definition ratify_genesis (state : FinalizeGlobalState) (persist_committee_store : bool) (committee : Committee) (public_balances : list (Address * Z))
    (bonded_balances : list (Address * (Address * Address * Z))) : SM (FinalizeStorage N) (list FinalizeOperation) :=
  let next_stakers : list staker := imap_of_list ((fun p => (p.1, (p.2.1.1, p.2.2))) <$> bonded_balances) in
  let withdrawal_addresses := imap_of_list ((fun p => (p.1, p.2.1.2)) <$> bonded_balances) in
  let next_delegated := to_next_delegated next_stakers in
  let '(next_committee_map, next_bonded_map, next_delegated_map) := to_next_committee_bonded_delegated_map committee next_stakers next_delegated in
  let next_withdraw_map := to_next_withdraw_map withdrawal_addresses in
  do _ ⇐ (if persist_committee_store then insert_committee (block_height state) committee else sret tt);
  do o1 ⇐ replace_mapping program_id "committee" next_committee_map;
  do o2 ⇐ replace_mapping program_id "delegated" next_delegated_map;
  do o3 ⇐ replace_mapping program_id "bonded" next_bonded_map;
  do o4 ⇐ replace_mapping program_id "withdraw" next_withdraw_map;
  do num_validators ⇐ slift (u32_value (num_members committee));
  do o5 ⇐ update_key_value program_id "metadata" (address_key num_validators_key) num_validators;
  do num_delegators ⇐ slift (u32_value (saturating_sub (len bonded_balances) (num_members committee)));
  do o6 ⇐ update_key_value program_id "metadata" (address_key num_delegators_key) num_delegators;
  do o7 ⇐ replace_mapping program_id "account" (amount_entry <$> public_balances);
  sret [o1; o2; o3; o4; o5; o6; o7].

(** [atomic_pre_ratify]: the operations so far and the flag of the loop. *)
Definition pre_ratify_step (state : FinalizeGlobalState) (persist_committee_store : bool) (acc : list FinalizeOperation * bool) (ratify : Ratify)
    : SM (FinalizeStorage N) (list FinalizeOperation * bool) :=
  match ratify with
  | Genesis committee public_balances bonded_balances =>
      do _ ⇐ slift (check_genesis state acc.2 committee bonded_balances);
      do operations ⇐ ratify_genesis state persist_committee_store committee public_balances bonded_balances;
      sret (acc.1 ++ operations, true)
  | BlockReward _ | PuzzleReward _ => sret acc
  end.
Definition atomic_pre_ratify (state : FinalizeGlobalState) (pre_ratifications : list Ratify) (persist_committee_store : bool) : SM (FinalizeStorage N) (list FinalizeOperation) :=
  do acc ⇐ sfold (pre_ratify_step state persist_committee_store) ([], false) pre_ratifications; sret acc.1.

Definition ratify_block_reward (state : FinalizeGlobalState) (is_finalize : bool) (block_reward : Z) : SM (FinalizeStorage N) (list FinalizeOperation) :=
  do s ⇐ sget;
  do current_committee_map ⇐ slift (get_mapping_speculative program_id "committee" s);
  do current_delegator_map ⇐ slift (get_mapping_speculative program_id "delegated" s);
  do current_committee ⇐ slift (committee_and_delegated_maps_into_committee (block_round state) current_committee_map current_delegator_map);
  do current_bonded_map ⇐ slift (get_mapping_speculative program_id "bonded" s);
  do current_stakers ⇐ slift (bonded_map_into_stakers current_bonded_map);
  do _ ⇐ slift (ensure_stakers_matches current_committee current_stakers);
  do next_stakers ⇐ slift (staking_rewards current_stakers current_committee block_reward);
  let next_delegated := to_next_delegated next_stakers in
  do next_committee ⇐ slift (to_next_committee current_committee (block_round state) next_delegated);
  let '(next_committee_map, next_bonded_map, next_delegated_map) := to_next_committee_bonded_delegated_map next_committee next_stakers next_delegated in
  do _ ⇐ (if is_finalize then insert_committee (block_height state) next_committee else sret tt);
  do o1 ⇐ replace_mapping program_id "committee" next_committee_map;
  do o2 ⇐ replace_mapping program_id "delegated" next_delegated_map;
  do o3 ⇐ replace_mapping program_id "bonded" next_bonded_map;
  sret [o1; o2; o3].

(** The balance of an account with a reward added. *)
Definition add_balance (value : option Value) (amount : Z) : result Value :=
  match value with
  | Some (VPlaintext (PLiteral (LU64 value))) => Ok (VPlaintext (PLiteral (LU64 (u64_saturating_add value amount))))
  | None => Ok (VPlaintext (PLiteral (LU64 amount)))
  | _ => Err "Critical bug in post-ratify puzzle reward- Invalid amount ({v:?})"
  end.
Definition pay_prover (operations : list FinalizeOperation) (p : Address * Z) : SM (FinalizeStorage N) (list FinalizeOperation) :=
  do s ⇐ sget;
  do next_value ⇐ slift (add_balance (get_value_speculative program_id "account" (address_key p.1) s) p.2);
  do operation ⇐ update_key_value program_id "account" (address_key p.1) next_value;
  sret (operations ++ [operation]).

(** [atomic_post_ratify]: the operations so far and the two flags of the loop. *)
Definition post_ratify_step (state : FinalizeGlobalState) (is_finalize : bool) (solutions : option (list Solution))
    (acc : list FinalizeOperation * bool * bool) (ratify : Ratify) : SM (FinalizeStorage N) (list FinalizeOperation * bool * bool) :=
  let '(operations, is_block_reward_ratified, is_puzzle_reward_ratified) := acc in
  match ratify with
  | Genesis _ _ _ => sret acc
  | BlockReward block_reward =>
      do _ ⇐ slift (ensure (negb is_block_reward_ratified) "Ratify::BlockReward(..) has already been ratified");
      do new_operations ⇐ ratify_block_reward state is_finalize block_reward;
      sret (operations ++ new_operations, true, is_puzzle_reward_ratified)
  | PuzzleReward puzzle_reward =>
      do _ ⇐ slift (ensure (negb is_puzzle_reward_ratified) "Ratify::PuzzleReward(..) has already been ratified");
      if decide (puzzle_reward = 0) then sret acc else
      match solutions with
      | None => sret acc
      | Some solutions =>
          do proof_targets ⇐ slift (mapM (fun s => t ← get_proof_target s; Ok (solution_address s, t)) solutions);
          do rewards ⇐ slift (proving_rewards proof_targets puzzle_reward);
          do operations ⇐ sfold pay_prover operations rewards;
          sret (operations, is_block_reward_ratified, true)
      end
  end.
Definition atomic_post_ratify (state : FinalizeGlobalState) (is_finalize : bool) (post_ratifications : list Ratify) (solutions : option (list Solution))
    : SM (FinalizeStorage N) (list FinalizeOperation) :=
  do acc ⇐ sfold (post_ratify_step state is_finalize solutions) ([], false, false) post_ratifications; sret acc.1.1.
End Ratify.
End Ratify.
