(* ===== verification/RatifyProps.v ===== *)
(** * Ratifications keep the mappings of credits.aleo in agreement

    The genesis ratification writes mappings in which the stake of every member of the
    committee is the sum of the stakes bonded to it; every block reward reads a committee
    that matches its stakers back from the mappings, whatever order they are listed in,
    and writes one again; the puzzle reward is added to the balances of the provers. *)

From S2P Require Import Prelude Bytes Network Committee StoreMap StoreMapProps Atomicity CommitteeStore CommitteeStoreProps Targets Rewards RewardsProps FinalizeStore FinalizeStoreProps Ratify.

Module RatifyProps.
Import Txn BatchProps Atomicity FinalizeStore FinalizeStoreProps Rewards RewardsProps Ratify.

Section Ratify.
Context `{N : Network} `{!NetworkLaws N} {H : FinalizeHash} {E : Env}.
Context `{!Serialize Z, !SerializeLaws Z, !Serialize string, !SerializeLaws string}.
Context `{!Serialize (string * string), !SerializeLaws (string * string), !Serialize Plaintext, !SerializeLaws Plaintext}.
Context (hash_total : forall bits, exists f, hash_bits bits = Ok f).
Implicit Types (s : FinalizeStorage N) (t : Txn.t fview) (w : fview) (p m : string).

(** ** Entries of mappings *)

Lemma entries_perm w p m l l' : entries_of w p m l -> entries_of w p m l' -> l ≡ₚ l'.
Proof.
  intros [Hn Hl] [Hn' Hl']. apply NoDup_Permutation; [by apply (NoDup_fmap_1 fst)..|]. intros [k v]. by rewrite Hl, Hl'.
Qed.

(** What replacing a mapping writes. *)
Lemma replaced_eq p m l w :
  replaced p m l w = mk_fview (f_committee w) (f_names w) (foldl (fun a e => <[(p, m, e.1) := e.2]> a) (base.filter (fun e => e.1.1 <> (p, m)) (f_values w)) l).
Proof.
  unfold replaced, with_values at 2. generalize (base.filter (fun e : string * string * Plaintext * Value => e.1.1 <> (p, m)) (f_values w)). induction l as [|e l IH]; intros a; [done|].
  cbn [foldl]. by rewrite <-IH.
Qed.

Lemma inserted_lookup p m (l : list (Plaintext * Value)) (a : gmap (string * string * Plaintext) Value) (key : string * string * Plaintext) :
  NoDup l.*1 ->
  foldl (fun a e => <[(p, m, e.1) := e.2]> a) a l !! key =
    if decide (key.1 = (p, m)) then match imap_get key.2 l with Some x => Some x | None => a !! key end else a !! key.
Proof.
  revert a. induction l as [|[k x] l IH]; intros a Hnd; cbn [foldl]; [by case_decide|]. cbn in Hnd. apply NoDup_cons in Hnd as [Hni Hnd].
  rewrite IH by done. cbn [imap_get fst snd]. destruct key as [pm k']. cbn [fst snd]. destruct (decide (pm = (p, m))) as [->|Hne].
  - destruct (decide (k = k')) as [->|Hk].
    + apply imap_get_None in Hni. by rewrite Hni, lookup_insert_eq.
    + rewrite lookup_insert_ne by congruence. done.
  - by rewrite lookup_insert_ne by congruence.
Qed.

Lemma replaced_lookup p m l w pm k :
  NoDup l.*1 -> f_values (replaced p m l w) !! (pm, k) = if decide (pm = (p, m)) then imap_get k l else f_values w !! (pm, k).
Proof.
  intros Hnd. rewrite replaced_eq. cbn [f_values]. rewrite inserted_lookup by done. cbn [fst snd]. case_decide as Hd.
  - subst pm. destruct (imap_get k l); [done|]. apply map_lookup_filter_None. right. intros x Hx. cbn. by intros [].
  - destruct (f_values w !! (pm, k)) as [x|] eqn:Hx; [by apply map_lookup_filter_Some|]. apply map_lookup_filter_None. by left.
Qed.

Lemma replaced_entries p m l w : NoDup l.*1 -> entries_of (replaced p m l w) p m l.
Proof.
  intros Hnd. split; [done|]. intros k x. rewrite replaced_lookup by done. rewrite decide_True by done. symmetry. by apply imap_get_NoDup.
Qed.
Lemma replaced_other p m l w p' m' l' : NoDup l.*1 -> (p', m') <> (p, m) -> entries_of w p' m' l' -> entries_of (replaced p m l w) p' m' l'.
Proof. intros Hnd Hne [Hn Hl]. split; [done|]. intros k x. rewrite replaced_lookup by done. rewrite decide_False by done. apply Hl. Qed.
Lemma replaced_initialized p m l w p' m' : initialized (replaced p m l w) p' m' = initialized w p' m'.
Proof. unfold initialized. by rewrite replaced_eq. Qed.
Lemma replaced_committee p m l w : f_committee (replaced p m l w) = f_committee w.
Proof. by rewrite replaced_eq. Qed.

(** ** Running the operations of the store *)

Lemma replace_run p m l s t :
  frel s t -> initialized (current t) p m = true -> exists o s', replace_mapping p m l s = (Ok o, s') /\ frel s' (with_current t (replaced p m l (current t))).
Proof. intros Hr Hi. pose proof (implements_replace hash_total p m l s t Hr) as Hp. unfold spec_replace in Hp. by rewrite Hi in Hp. Qed.

Lemma update_run p m k x s t :
  frel s t -> initialized (current t) p m = true -> exists o s', update_key_value p m k x s = (Ok o, s') /\ frel s' (with_current t (with_values (current t) (<[(p, m, k) := x]>))).
Proof. intros Hr Hi. pose proof (implements_update hash_total p m k x s t Hr) as Hp. unfold spec_update in Hp. by rewrite Hi in Hp. Qed.

Definition with_committee w (v : CommitteeStoreProps.view) : fview := mk_fview v (f_names w) (f_values w).
Lemma insert_run h c s t :
  frel s t -> CommitteeStore.check_insert h (starting_round c) (committee_store s) = Ok tt ->
  exists s', insert_committee h c s = (Ok tt, s') /\
    frel s' (with_current t (with_committee (current t) (CommitteeStoreProps.inserted h c (f_committee (committed t)) (f_committee (current t))))).
Proof.
  intros [H1 H2 H3] Hc. destruct (CommitteeStoreProps.insert_at _ _ _ _ H1 Hc) as (cs & Hcs & Hr). unfold insert_committee. rewrite Hcs.
  eexists. split; [done|]. rewrite tmap_current in Hr. by destruct t as [a [[w0 sv]|]]; split.
Qed.
(** ** Reading the mappings back *)

Lemma entry_list {A} (f : A -> Plaintext * Value) w p m (l : list A) s t :
  frel s t -> current t = w -> initialized w p m = true -> entries_of w p m (f <$> l) -> exists l', get_mapping_speculative p m s = Ok (f <$> l') /\ l ≡ₚ l'.
Proof.
  intros Hr <- Hi Hl. destruct (reads_entries s t p m Hr Hi) as (k & Hk & He). pose proof (entries_perm _ _ _ _ _ He Hl) as Hp.
  apply Permutation_map_inv in Hp as (l' & -> & Hp). by exists l'.
Qed.

Lemma committee_keys ms : (committee_entry <$> ms).*1 = address_key <$> ms.*1.
Proof. rewrite <-!list_fmap_compose. apply list_fmap_ext. by intros i [v [[x o] c]] _. Qed.
Lemma bonded_keys st : (bonded_entry <$> st).*1 = address_key <$> st.*1.
Proof. rewrite <-!list_fmap_compose. apply list_fmap_ext. by intros i [a [v x]] _. Qed.
Lemma amount_keys dl : (amount_entry <$> dl).*1 = address_key <$> dl.*1.
Proof. by rewrite <-!list_fmap_compose. Qed.
Lemma withdraw_keys l : (withdraw_entry <$> l).*1 = address_key <$> l.*1.
Proof. by rewrite <-!list_fmap_compose. Qed.
#[local] Instance address_key_inj : Inj (=) (=) (address_key (N := N)).
Proof. by intros a b [= ->]. Qed.

Lemma find_microcredits_get a dl : find_microcredits a (amount_entry <$> dl) = imap_get a dl.
Proof.
  induction dl as [|[b x] dl IH]; [done|]. unfold find_microcredits in *. cbn [fmap list_fmap amount_entry address_key fst snd omap list_omap imap_get].
  by destruct (decide (b = a)).
Qed.

Lemma mapM_map {A B} (f : A -> result B) (g : B -> A) l : (forall x, x ∈ l -> f (g x) = Ok x) -> mapM f (g <$> l) = Ok l.
Proof.
  induction l as [|x l IH]; intros Hf; [done|]. cbn. rewrite (Hf x) by (by left). cbn. rewrite IH; [done|]. intros y Hy. apply Hf. by right.
Qed.

Lemma members_read dl ms :
  (forall q, q ∈ ms -> imap_get q.1 dl = Some (stake_of q.2)) -> mapM (committee_member (amount_entry <$> dl)) (committee_entry <$> ms) = Ok ms.
Proof.
  intros Hd. apply mapM_map. intros [v [[x o] c]] Hin. specialize (Hd _ Hin). cbn in Hd. unfold committee_member. cbn.
  by rewrite find_microcredits_get, Hd.
Qed.
Lemma stakers_read st : mapM bonded_staker (bonded_entry <$> st) = Ok st.
Proof. apply mapM_map. by intros [a [v x]] _. Qed.

(** ** The invariant *)

(** A committee with these members would match the stakers. *)
Definition sound (ms : list (Address * member_state)) (st : list staker) : Prop := exists c, members c = ms /\ matched c st.

Record credits w (ms : list (Address * member_state)) (st : list staker) : Prop := {
  credits_initialized name : name ∈ ["committee"; "delegated"; "bonded"]%string -> initialized w program_id name = true;
  credits_committee : entries_of w program_id "committee" (committee_entry <$> ms);
  credits_bonded : entries_of w program_id "bonded" (bonded_entry <$> st);
  credits_delegated : exists dl, entries_of w program_id "delegated" (amount_entry <$> dl) /\ forall q, q ∈ ms -> (q.1, stake_of q.2) ∈ dl;
  credits_sound : sound ms st;
}.

#[export] Instance sum_for_perm v : Proper (Permutation ==> eq) (sum_for v).
Proof. intros l l' Hp. unfold sum_for. by rewrite Hp. Qed.

(** The members in another order, for another round. *)
Lemma sound_perm ms ms' st st' r :
  (forall bs, exists f, hash_bhp1024 bs = Ok f) -> is_u64 r -> sound ms st -> ms ≡ₚ ms' -> st ≡ₚ st' ->
  exists c, committee_new r ms' = Ok c /\ members c = ms' /\ matched c st'.
Proof.
  intros Hh Hr (c0 & <- & Hm) Hp Hq. pose proof (matched_committee _ _ Hm) as Hc. destruct max_certificates_range as [_ Hmax].
  destruct (committee_new_Ok r ms') as (c & Hnew & Hwf & Hms); [done|rewrite <-Hp; apply Hc|done| |done|..].
  - replace (len ms') with (len (members c0)) by (unfold len; by rewrite Hp). apply Hc.
  - intros q Hin. rewrite <-Hp in Hin. apply (cwf_stake _ Hc _ Hin).
  - intros q Hin. rewrite <-Hp in Hin. apply (cwf_commission _ Hc _ Hin).
  - rewrite <-Hp, <-(cwf_total _ Hc). apply Hc.
  - exists c. split; [done|]. split; [done|]. split; [done|rewrite <-Hq; apply Hm|rewrite <-Hq; apply Hm|].
    intros q Hin. rewrite Hms, <-Hp in Hin. rewrite <-Hq. apply (matched_members _ _ Hm _ Hin).
Qed.

Lemma sound_here c st : matched c st -> sound (members c) st.
Proof. intros Hm. by exists c. Qed.
(** ** Block rewards *)

(** The mappings that a block reward writes. *)
Definition rewritten w (c : Committee) (st : list staker) : fview :=
  replaced program_id "bonded" (bonded_entry <$> st) (replaced program_id "delegated" (amount_entry <$> to_next_delegated st) (replaced program_id "committee" (committee_entry <$> members c) w)).

Lemma entry_NoDup {A} (f : A -> Plaintext * Value) (k : A -> Address) (l : list A) : (f <$> l).*1 = address_key <$> (k <$> l) -> NoDup (k <$> l) -> NoDup (f <$> l).*1.
Proof. intros Heq Hn. rewrite Heq. by apply (NoDup_fmap_2 address_key). Qed.

Lemma rewritten_credits w c st :
  (forall name, name ∈ ["committee"; "delegated"; "bonded"]%string -> initialized w program_id name = true) -> matched c st ->
  credits (rewritten w c st) (members c) st.
Proof.
  intros Hi Hm. pose proof (matched_committee _ _ Hm) as Hc. unfold rewritten.
  assert (NoDup (committee_entry <$> members c).*1) as Hn1 by (apply (entry_NoDup _ fst); [apply committee_keys|apply Hc]).
  assert (NoDup (amount_entry <$> to_next_delegated st).*1) as Hn2 by (apply (entry_NoDup _ fst); [apply amount_keys|apply reduce_NoDup]).
  assert (NoDup (bonded_entry <$> st).*1) as Hn3 by (apply (entry_NoDup _ fst); [apply bonded_keys|apply Hm]).
  split.
  - intros name Hn. rewrite !replaced_initialized. by apply Hi.
  - apply replaced_other; [done..|]. apply replaced_other; [done..|]. by apply replaced_entries.
  - by apply replaced_entries.
  - exists (to_next_delegated st). split; [apply replaced_other; [done..|]; by apply replaced_entries|].
    intros q Hq. pose proof (matched_members _ _ Hm _ Hq) as Hs. pose proof (cwf_stake _ Hc _ Hq) as Hb. apply imap_get_NoDup; [apply reduce_NoDup|].
    unfold to_next_delegated. rewrite reduce_get by (by eapply matched_amounts). rewrite decide_True; [rewrite <-Hs; f_equal; lia|].
    apply sum_for_pos. rewrite <-Hs. unfold MIN_VALIDATOR_STAKE in Hb. lia.
  - by apply sound_here.
Qed.

Lemma rewrite_run w c st s t :
  frel s t -> current t = w -> (forall name, name ∈ ["committee"; "delegated"; "bonded"]%string -> initialized w program_id name = true) ->
  exists o1 o2 o3 s1 s2 s3, replace_mapping program_id "committee" (committee_entry <$> members c) s = (Ok o1, s1) /\
    replace_mapping program_id "delegated" (amount_entry <$> to_next_delegated st) s1 = (Ok o2, s2) /\
    replace_mapping program_id "bonded" (bonded_entry <$> st) s2 = (Ok o3, s3) /\ frel s3 (with_current t (rewritten w c st)).
Proof.
  intros Hr <- Hi.
  destruct (replace_run program_id "committee" (committee_entry <$> members c) s t Hr) as (o1 & s1 & H1 & Hr1); [apply Hi; set_solver|].
  destruct (replace_run program_id "delegated" (amount_entry <$> to_next_delegated st) s1 _ Hr1) as (o2 & s2 & H2 & Hr2); [rewrite with_current_current, replaced_initialized; apply Hi; set_solver|].
  destruct (replace_run program_id "bonded" (bonded_entry <$> st) s2 _ Hr2) as (o3 & s3 & H3 & Hr3); [rewrite !with_current_current, !replaced_initialized; apply Hi; set_solver|].
  rewrite !with_current_current, !with_current_twice in Hr3. by exists o1, o2, o3, s1, s2, s3.
Qed.
Lemma committee_new_round r ms c : committee_new r ms = Ok c -> starting_round c = r.
Proof. unfold committee_new. intros Hn. by simp_ok. Qed.

(** The three mappings that are written. *)
Definition reward_mappings : list (string * string) := [(program_id, "committee"%string); (program_id, "delegated"%string); (program_id, "bonded"%string)].
Lemma rewritten_other w c st pm k : matched c st -> pm ∉ reward_mappings -> f_values (rewritten w c st) !! (pm, k) = f_values w !! (pm, k).
Proof.
  intros Hm Hpm. unfold reward_mappings in Hpm. rewrite !not_elem_of_cons in Hpm. destruct Hpm as (H1 & H2 & H3 & _). unfold rewritten.
  rewrite replaced_lookup, decide_False; [|done|apply (entry_NoDup _ fst); [apply bonded_keys|apply Hm]].
  rewrite replaced_lookup, decide_False; [|done|apply (entry_NoDup _ fst); [apply amount_keys|apply reduce_NoDup]].
  rewrite replaced_lookup, decide_False; [done|done|apply (entry_NoDup _ fst); [apply committee_keys|apply Hm]].
Qed.

Section BlockReward.
Context (state : FinalizeGlobalState) (fin : bool) (B : Z).
Context (HB : is_u64 B) (Hround : is_u64 (block_round state)).

(** What the committee store holds afterwards. *)
Definition next_committees t (c : Committee) : CommitteeStoreProps.view :=
  if fin then CommitteeStoreProps.inserted (block_height state) c (f_committee (committed t)) (f_committee (current t)) else f_committee (current t).

Lemma next_committees_run c s t :
  frel s t -> (fin = true -> CommitteeStore.check_insert (block_height state) (starting_round c) (committee_store s) = Ok tt) ->
  exists s', (if fin then insert_committee (block_height state) c else sret tt) s = (Ok tt, s') /\ frel s' (with_current t (with_committee (current t) (next_committees t c))).
Proof.
  intros Hr Hc. unfold next_committees. destruct fin.
  - by apply insert_run; [|apply Hc].
  - exists s. split; [done|]. assert (with_committee (current t) (f_committee (current t)) = current t) as -> by (by destruct (current t)). by rewrite with_current_same.
Qed.

Context (bhp_total : forall bs, exists f, hash_bhp1024 bs = Ok f).

Lemma state_read s t ms st r :
  frel s t -> credits (current t) ms st -> is_u64 r ->
  exists cm dm bm c st', get_mapping_speculative program_id "committee" s = Ok cm /\ get_mapping_speculative program_id "delegated" s = Ok dm /\
    get_mapping_speculative program_id "bonded" s = Ok bm /\ committee_and_delegated_maps_into_committee r cm dm = Ok c /\ bonded_map_into_stakers bm = Ok st' /\
    matched c st' /\ ms ≡ₚ members c /\ st ≡ₚ st'.
Proof.
  intros Hr Hc Hrd. pose proof (credits_initialized _ _ _ Hc) as Hi. destruct (credits_delegated _ _ _ Hc) as (dl & Hdl & Hd).
  destruct (entry_list committee_entry _ _ "committee" ms s t Hr eq_refl (Hi "committee"%string ltac:(set_solver)) (credits_committee _ _ _ Hc)) as (ms' & Hcm & Hms).
  destruct (entry_list amount_entry _ _ "delegated" dl s t Hr eq_refl (Hi "delegated"%string ltac:(set_solver)) Hdl) as (dl' & Hdm & Hdl').
  destruct (entry_list bonded_entry _ _ "bonded" st s t Hr eq_refl (Hi "bonded"%string ltac:(set_solver)) (credits_bonded _ _ _ Hc)) as (st' & Hbm & Hst).
  destruct (sound_perm ms ms' st st' r bhp_total Hrd (credits_sound _ _ _ Hc) Hms Hst) as (c & Hnew & Hmc & Hm).
  pose proof (matched_keys _ _ Hm) as Hnd. pose proof (cwf_nodup _ (matched_committee _ _ Hm)) as Hnm. rewrite Hmc in Hnm.
  assert (NoDup dl'.*1) as Hndl. { rewrite <-Hdl'. destruct Hdl as [Hn _]. rewrite amount_keys in Hn. by apply NoDup_fmap_1 in Hn. }
  eexists _, _, _, c, st'. split; [exact Hcm|]. split; [exact Hdm|]. split; [exact Hbm|]. split_and!; [| |done|by rewrite Hmc|done].
  - unfold committee_and_delegated_maps_into_committee. rewrite members_read; [cbn; by rewrite imap_of_list_id|].
    intros q Hq. apply imap_get_NoDup; [done|]. rewrite <-Hdl'. apply Hd. by rewrite Hms.
  - unfold bonded_map_into_stakers. rewrite stakers_read. cbn. by rewrite imap_of_list_id.
Qed.

(** The members [ms'] are those of [ms] with what is bonded to them in [st]: who is
    open to delegators and the commissions are kept. *)
Definition same_members (ms ms' : list (Address * member_state)) (st : list staker) : Prop :=
  ms'.*1 ≡ₚ ms.*1 /\
  forall v (m' : member_state), (v, m') ∈ ms' ->
    exists m : member_state, (v, m) ∈ ms /\ m' = (sum_for v st.*2, m.1.2, m.2).

Lemma block_reward_run s t ms st :
  frel s t -> credits (current t) ms st -> sumZ st.*2.*2 + (B + sumZ (is_delegator <$> st)) <= u64_max ->
  (fin = true -> CommitteeStore.check_insert (block_height state) (block_round state) (committee_store s) = Ok tt) ->
  exists ops s' c' st0 st', ratify_block_reward state fin B s = (Ok ops, s') /\ matched c' st' /\ same_members ms (members c') st' /\
    starting_round c' = block_round state /\ frel s' (with_current t (rewritten (with_committee (current t) (next_committees t c')) c' st')) /\
    st ≡ₚ st0 /\ Forall2 rewarded st0 st' /\ sumZ ((fun q : staker => q.2.2) <$> st') - sumZ ((fun q : staker => q.2.2) <$> st0) <= B + sumZ (is_delegator <$> st0).
Proof.
  intros Hr Hc Htot Hins. destruct (state_read s t ms st (block_round state) Hr Hc Hround) as (cm & dm & bm & c & st0 & Hcm & Hdm & Hbm & Hcom & Hst & Hm & Hms & Hp).
  assert (sumZ st0.*2.*2 + (B + sumZ (is_delegator <$> st0)) <= u64_max) as Htot0 by (by rewrite <-Hp).
  assert (sumZ st0.*2.*2 <= u64_max) as Hs0. { assert (0 <= sumZ (is_delegator <$> st0)) by (apply sumZ_nonneg; intros x (q & -> & _)%list_elem_of_fmap; unfold is_delegator; case_decide; lia). unfold is_u64 in HB. lia. }
  destruct (staking_rewards_run c st0 B Hm HB) as (next & Hn & HF & Hg). pose proof (rewarded_total _ _ _ Hg Htot0) as Htot'. destruct max_certificates_range as [_ Hmax].
  destruct (next_committee c st0 next Hm HF Htot' (block_round state) bhp_total Hmax Hround) as (c' & Hc' & Hm' & Hms').
  pose proof (committee_new_round _ _ _ Hc') as Hrd. destruct (next_committees_run c' s t Hr) as (s1 & Hs1 & Hr1); [by rewrite Hrd|].
  destruct (rewrite_run _ c' next s1 _ Hr1 eq_refl) as (o1 & o2 & o3 & s2 & s3 & s4 & H2 & H3 & H4 & Hr4).
  { intros name Hname. rewrite with_current_current. apply (credits_initialized _ _ _ Hc name Hname). }
  assert (same_members ms (members c') next) as Hsame.
  { rewrite Hms'. split; [rewrite Hms; apply (next_member_keys c st0 next); done|].
    intros v m' (m & Hin & Hm0)%(next_member c st0 next Hm HF Htot'). exists m. by rewrite Hms. }
  exists [o1; o2; o3], s4, c', st0, next. split; [|rewrite with_current_current, with_current_twice in Hr4; by split_and!].
  unfold ratify_block_reward. rewrite (sbind_run _ _ _ _ _ (eq_refl : sget s = (Ok s, s))).
  rewrite (slift_run _ _ _ _ Hcm), (slift_run _ _ _ _ Hdm), (slift_run _ _ _ _ Hcom), (slift_run _ _ _ _ Hbm), (slift_run _ _ _ _ Hst).
  rewrite (slift_run (ensure_stakers_matches c st0) _ _ tt) by (apply matches_iff; [apply Hm|by eapply matched_amounts|done|apply Hm|done]).
  rewrite (slift_run _ _ _ _ Hn), (slift_run _ _ _ _ Hc'). cbn [to_next_committee_bonded_delegated_map].
  by rewrite (sbind_run _ _ _ _ _ Hs1), (sbind_run _ _ _ _ _ H2), (sbind_run _ _ _ _ _ H3), (sbind_run _ _ _ _ _ H4).
Qed.

(** C39: ratifying a block reward keeps the mappings of credits.aleo in agreement.  Let
    every member of the committee have the stake that is bonded to it, let the stakes with
    the reward be in range and, when the block is finalized, let the committee store accept
    a committee of this round at this height.  The ratification succeeds and leaves such
    mappings again: each staker keeps its validator and its stake does not shrink, with the
    stakes grown together by at most the reward and one microcredit per delegator; the
    members are the same, with their commission and whether they are open, and the stake
    that is now bonded to them; the committee is recorded for the height when the block is
    finalized.  No other mapping changes, and a second block reward in the same block is an
    error. *)
Theorem block_reward_ratified s t ms st (solutions : option (list Solution)) :
  frel s t -> credits (current t) ms st -> sumZ st.*2.*2 + (B + sumZ (is_delegator <$> st)) <= u64_max ->
  (fin = true -> CommitteeStore.check_insert (block_height state) (block_round state) (committee_store s) = Ok tt) ->
  exists ops s' w' c' st0 st', atomic_post_ratify state fin [BlockReward B] solutions s = (Ok ops, s') /\ frel s' (with_current t w') /\
    credits w' (members c') st' /\ same_members ms (members c') st' /\ starting_round c' = block_round state /\ f_committee w' = next_committees t c' /\
    st ≡ₚ st0 /\ Forall2 rewarded st0 st' /\ sumZ ((fun q : staker => q.2.2) <$> st') - sumZ ((fun q : staker => q.2.2) <$> st0) <= B + sumZ (is_delegator <$> st0) /\
    (forall pm k, pm ∉ reward_mappings -> f_values w' !! (pm, k) = f_values (current t) !! (pm, k)) /\
    forall B', exists e, (atomic_post_ratify state fin [BlockReward B; BlockReward B'] solutions s).1 = Err e.
Proof.
  intros Hr Hc Htot Hins. destruct (block_reward_run s t ms st Hr Hc Htot Hins) as (ops & s' & c' & st0 & st' & Hrun & Hm & Hsame & Hrd & Hr' & Hp & HF & Hg).
  eexists _, s', _, c', st0, st'. split; [unfold atomic_post_ratify; cbn [sfold post_ratify_step negb ensure slift]; unfold sbind, slift; rewrite Hrun; done|].
  split; [exact Hr'|]. split; [|split; [done|]; split; [done|]; split; [unfold rewritten; by rewrite !replaced_committee|]; split_and!; [done..| |]].
  - apply rewritten_credits; [|done]. intros name Hname. exact (credits_initialized _ _ _ Hc name Hname).
  - intros pm k Hpm. by rewrite rewritten_other.
  - intros B'. eexists. unfold atomic_post_ratify. cbn [sfold post_ratify_step negb ensure slift]. unfold sbind, slift. rewrite Hrun. done.
Qed.
End BlockReward.
(** ** Genesis *)

(** The validator and the amount of a bonded balance, and those that are counted. *)
Definition bond (b : Address * (Address * Address * Z)) : Address * Z := (b.2.1.1, b.2.2).
Definition counted (c : Committee) (b : Address * (Address * Address * Z)) : Prop := b.1 = b.2.1.1 \/ is_committee_member c b.2.1.1 = true.
#[local] Instance counted_dec c b : Decision (counted c b).
Proof. unfold counted. apply _. Defined.
Definition genesis_stakers (bs : list (Address * (Address * Address * Z))) : list staker := (fun b => (b.1, bond b)) <$> bs.

Lemma add_bonded_counted c bs : forall acc spv, foldM (add_bonded c) acc bs = Ok spv -> spv = merge acc (bond <$> base.filter (counted c) bs).
Proof.
  induction bs as [|[a [[v u] x]] bs IH]; intros acc spv Hf; [by apply Ok_inj in Hf|]. cbn [foldM] in Hf. apply bind_Ok in Hf as (acc' & Ha & Hf). apply IH in Hf as ->.
  unfold add_bonded in Ha. rewrite filter_cons. destruct (decide (a = v)) as [->|Hne].
  - apply bind_Ok in Ha as (_ & _ & <-%Ok_inj). rewrite decide_True by (by left). done.
  - apply bind_Ok in Ha as (_ & _ & Ha). destruct (is_committee_member c v) eqn:Hv; cbn [negb] in Ha.
    + apply bind_Ok in Ha as (_ & _ & <-%Ok_inj). rewrite decide_True by (by right). done.
    + apply Ok_inj in Ha as <-. rewrite decide_False; [done|]. intros [?|Hm]; [done|]. cbn in Hm. by rewrite Hv in Hm.
Qed.

Lemma counted_sum c bs v : is_committee_member c v = true -> sum_for v (bond <$> base.filter (counted c) bs) = sum_for v (genesis_stakers bs).*2.
Proof.
  intros Hv. induction bs as [|b bs IH]; [done|]. unfold genesis_stakers in *. rewrite filter_cons. cbn [fmap list_fmap snd]. rewrite (sum_for_cons v (bond b)), <-IH. case_decide as Hc.
  - cbn [fmap list_fmap]. by rewrite sum_for_cons.
  - rewrite decide_False; [done|]. intros Hb. apply Hc. right. unfold bond in Hb. cbn in Hb. by rewrite Hb.
Qed.

Lemma genesis_amounts (bs : list (Address * (Address * Address * Z))) : Forall (fun b : Address * (Address * Address * Z) => is_u64 b.2.2) bs -> amounts (genesis_stakers bs).*2.
Proof. intros Hb. unfold amounts, genesis_stakers. rewrite !Forall_fmap. exact Hb. Qed.

(** No member has all of the stake. *)
Lemma member_below c q : committee_wf c -> q ∈ members c -> stake_of q.2 < u64_max.
Proof.
  intros Hc Hq. apply elem_of_Permutation in Hq as (ms & Hp). pose proof (cwf_total _ Hc) as Ht. rewrite Hp in Ht. pose proof (cwf_total_max _ Hc) as Hmax.
  pose proof (cwf_size _ Hc) as Hsz. assert (len (members c) = len (q :: ms)) as Hl by (unfold len; by rewrite Hp). rewrite Hl, len_cons in Hsz.
  assert (forall y, y ∈ ms -> MIN_VALIDATOR_STAKE <= stake_of y.2) as Hs by (intros y Hin; apply (cwf_stake _ Hc); rewrite Hp; by right).
  destruct ms as [|p ms]; [unfold len in Hsz; cbn in Hsz; lia|]. rewrite !fmap_cons, !sumZ_cons in Ht. pose proof (Hs p ltac:(by left)) as Hp1. unfold MIN_VALIDATOR_STAKE in *.
  assert (0 <= sumZ ((fun p : Address * member_state => stake_of p.2) <$> ms)) by (apply sumZ_nonneg; intros x (y & -> & Hy)%list_elem_of_fmap; specialize (Hs y ltac:(by right)); lia). lia.
Qed.
Lemma genesis_matched state flag c bs :
  committee_wf c -> NoDup bs.*1 -> Forall (fun b : Address * (Address * Address * Z) => is_u64 b.2.2) bs -> check_genesis state flag c bs = Ok tt -> matched c (genesis_stakers bs).
Proof.
  intros Hc Hnd Hb Hg. unfold check_genesis in Hg. do 2 apply bind_Ok in Hg as (_ & _ & Hg). apply bind_Ok in Hg as (o & _ & Hg). apply bind_Ok in Hg as (mx & _ & Hg). do 3 apply bind_Ok in Hg as (_ & _ & Hg).
  apply bind_Ok in Hg as (spv & Hspv & Hg). apply bind_Ok in Hg as ([] & Hlen & Hg). apply bind_Ok in Hg as ([] & Hall & _).
  apply add_bonded_counted in Hspv. rewrite <-reduce_merge in Hspv. apply ensure_Ok, bool_decide_eq_true in Hlen. rewrite foldM_tt in Hall.
  pose proof (reduce_NoDup (bond <$> base.filter (counted c) bs)) as Hns. rewrite <-Hspv in Hns.
  assert (forall v x, (v, x) ∈ spv -> exists m : member_state, (v, m) ∈ members c /\ stake_of m = x) as Hin.
  { intros v x Hv. specialize (Hall _ Hv). apply bind_Ok in Hall as (m & Hm & He). apply ok_or_Ok, imap_get_elem in Hm. apply ensure_Ok, bool_decide_eq_true in He. by exists m. }
  assert (spv.*1 ≡ₚ (members c).*1) as Hp.
  { apply submseteq_length_Permutation; [apply NoDup_submseteq; [done|]|rewrite !length_fmap; unfold len in Hlen; lia].
    intros v ([v' x] & -> & Hv)%list_elem_of_fmap. destruct (Hin _ _ Hv) as (m & Hm & _). by apply (list_elem_of_fmap_2 fst) in Hm. }
  pose proof (genesis_amounts bs Hb) as Ha. split; [done| | |].
  - unfold genesis_stakers. by rewrite <-list_fmap_compose.
  - unfold genesis_stakers. by rewrite Forall_fmap.
  - intros [v m] Hm. cbn [fst snd]. assert (v ∈ spv.*1) as Hv by (rewrite Hp; by apply (list_elem_of_fmap_2 fst) in Hm).
    apply list_elem_of_fmap in Hv as ([v' x] & Heq & Hv). cbn in Heq. subst v'. destruct (Hin _ _ Hv) as (m' & Hm' & Hx).
    assert (m' = m) as ->. { apply imap_get_NoDup in Hm, Hm'; [|apply Hc..]. congruence. }
    apply imap_get_NoDup in Hv; [|done]. rewrite Hspv, reduce_get in Hv.
    2: { unfold amounts. rewrite Forall_fmap, Forall_forall. intros b [_ Hbin]%list_elem_of_filter. rewrite Forall_forall in Hb. by apply (Hb b). }
    case_decide; [|done]. injection Hv as Hv. rewrite counted_sum in Hv; [pose proof (member_below c _ Hc Hm) as Hlt; cbn in Hlt; lia|].
    unfold is_committee_member, imap_contains. apply bool_decide_true. exists m. apply imap_get_NoDup; [apply Hc|done].
Qed.

(** Writes to other mappings. *)
Lemma credits_ext w w' ms st :
  (forall name, initialized w' program_id name = initialized w program_id name) ->
  (forall pm k, pm ∈ reward_mappings -> f_values w' !! (pm, k) = f_values w !! (pm, k)) -> credits w ms st -> credits w' ms st.
Proof.
  intros Hi Hv [H1 H2 H3 (dl & H4 & Hd) H5]. assert (forall name l, (program_id, name) ∈ reward_mappings -> entries_of w program_id name l -> entries_of w' program_id name l) as He.
  { intros name l Hn [Hnd Hl]. split; [done|]. intros k x. rewrite Hv by done. apply Hl. }
  split; [intros; rewrite Hi; by apply H1|apply He; [set_solver|done]|apply He; [set_solver|done]| |done]. exists dl. split; [apply He; [set_solver|done]|done].
Qed.
Section Genesis.
Context (state : FinalizeGlobalState) (fin : bool) (c : Committee) (public : list (Address * Z)) (bs : list (Address * (Address * Address * Z))).
Context (Hc : committee_wf c) (Hnd : NoDup bs.*1) (Hpub : NoDup public.*1) (Hb : Forall (fun b : Address * (Address * Address * Z) => is_u64 b.2.2) bs).

(** What the ratification writes. *)
Definition counters w : fview :=
  with_values (with_values w (<[(program_id, "metadata"%string, address_key num_validators_key) := VPlaintext (PLiteral (LU32 (num_members c)))]>))
    (<[(program_id, "metadata"%string, address_key num_delegators_key) := VPlaintext (PLiteral (LU32 (saturating_sub (len bs) (num_members c))))]>).
Definition withdrawals : list (Plaintext * Value) := withdraw_entry <$> ((fun b : Address * (Address * Address * Z) => (b.1, b.2.1.2)) <$> bs).
Definition genesis_view t : fview :=
  replaced program_id "account" (amount_entry <$> public) (counters (replaced program_id "withdraw" withdrawals
    (rewritten (with_committee (current t) (next_committees state fin t c)) c (genesis_stakers bs)))).

Lemma withdrawals_NoDup : NoDup withdrawals.*1.
Proof. unfold withdrawals. apply (entry_NoDup _ fst); [apply withdraw_keys|]. by rewrite <-list_fmap_compose. Qed.
Lemma public_NoDup : NoDup (amount_entry <$> public).*1.
Proof. by apply (entry_NoDup _ fst); [apply amount_keys|]. Qed.

Lemma checked_counts flag : check_genesis state flag c bs = Ok tt -> num_members c <= u32_max /\ saturating_sub (len bs) (num_members c) <= u32_max.
Proof.
  intros Hg. unfold check_genesis in Hg. do 2 apply bind_Ok in Hg as (_ & _ & Hg). apply bind_Ok in Hg as (o & _ & Hg). apply bind_Ok in Hg as (mx & _ & Hg).
  apply bind_Ok in Hg as (_ & _ & Hg). apply bind_Ok in Hg as ([] & Hd & _). apply ensure_Ok, bool_decide_eq_true in Hd. unfold num_members, MAX_DELEGATORS in *.
  pose proof (cwf_size _ Hc). pose proof max_certificates_range. unfold max_committee_size, u16_max, u32_max in *. lia.
Qed.

Lemma genesis_run flag s t :
  frel s t -> (forall name, name ∈ ["committee"; "delegated"; "bonded"; "withdraw"; "metadata"; "account"]%string -> initialized (current t) program_id name = true) ->
  (fin = true -> CommitteeStore.check_insert (block_height state) (starting_round c) (committee_store s) = Ok tt) -> check_genesis state flag c bs = Ok tt ->
  exists ops s', ratify_genesis state fin c public bs s = (Ok ops, s') /\ frel s' (with_current t (genesis_view t)).
Proof.
  intros Hr Hi Hins Hg. destruct (checked_counts flag Hg) as [Hv Hd]. destruct (next_committees_run state fin c s t Hr Hins) as (s1 & Hs1 & Hr1).
  destruct (rewrite_run _ c (genesis_stakers bs) s1 _ Hr1 eq_refl) as (o1 & o2 & o3 & s2 & s3 & s4 & H2 & H3 & H4 & Hr4).
  { intros name Hname. rewrite with_current_current. apply (Hi name). set_solver. }
  rewrite with_current_current, with_current_twice in Hr4. set (w4 := rewritten _ c _) in Hr4.
  assert (forall name, initialized w4 program_id name = initialized (current t) program_id name) as Hw4 by (intros name; unfold w4, rewritten; by rewrite !replaced_initialized).
  destruct (replace_run program_id "withdraw" withdrawals s4 _ Hr4) as (o4 & s5 & H5 & Hr5); [rewrite with_current_current, Hw4; apply Hi; set_solver|].
  rewrite with_current_current, with_current_twice in Hr5. set (w5 := replaced _ _ _ w4) in Hr5.
  assert (forall name, initialized w5 program_id name = initialized (current t) program_id name) as Hw5 by (intros name; unfold w5; by rewrite replaced_initialized).
  destruct (update_run program_id "metadata" (address_key num_validators_key) (VPlaintext (PLiteral (LU32 (num_members c)))) s5 _ Hr5) as (o5 & s6 & H6 & Hr6); [rewrite with_current_current, Hw5; apply Hi; set_solver|].
  rewrite with_current_current, with_current_twice in Hr6.
  destruct (update_run program_id "metadata" (address_key num_delegators_key) (VPlaintext (PLiteral (LU32 (saturating_sub (len bs) (num_members c))))) s6 _ Hr6) as (o6 & s7 & H7 & Hr7);
    [rewrite with_current_current; change (initialized w5 program_id "metadata" = true); rewrite Hw5; apply Hi; set_solver|].
  rewrite with_current_current, with_current_twice in Hr7.
  destruct (replace_run program_id "account" (amount_entry <$> public) s7 _ Hr7) as (o7 & s8 & H8 & Hr8); [rewrite with_current_current; change (initialized w5 program_id "account" = true); rewrite Hw5; apply Hi; set_solver|].
  rewrite with_current_current, with_current_twice in Hr8. exists [o1; o2; o3; o4; o5; o6; o7], s8. split; [|exact Hr8].
  unfold ratify_genesis. cbn zeta. rewrite !imap_of_list_id by (rewrite <-list_fmap_compose; done). cbn [to_next_committee_bonded_delegated_map].
  change ((fun p : Address * (Address * Address * Z) => (p.1, (p.2.1.1, p.2.2))) <$> bs) with (genesis_stakers bs).
  rewrite (sbind_run _ _ _ _ _ Hs1), (sbind_run _ _ _ _ _ H2), (sbind_run _ _ _ _ _ H3), (sbind_run _ _ _ _ _ H4), (sbind_run _ _ _ _ _ H5).
  rewrite (slift_run _ _ _ (VPlaintext (PLiteral (LU32 (num_members c))))) by (unfold u32_value; by rewrite decide_True). rewrite (sbind_run _ _ _ _ _ H6).
  rewrite (slift_run _ _ _ (VPlaintext (PLiteral (LU32 (saturating_sub (len bs) (num_members c)))))) by (unfold u32_value; by rewrite decide_True).
  by rewrite (sbind_run _ _ _ _ _ H7), (sbind_run _ _ _ _ _ H8).
Qed.
Lemma reward_other pm name : pm ∈ reward_mappings -> bool_decide (name ∈ ["committee"; "delegated"; "bonded"]%string) = false -> pm <> (program_id, name).
Proof. intros Hpm Hn%bool_decide_eq_false ->. apply Hn. unfold reward_mappings in Hpm. rewrite !elem_of_cons in Hpm. destruct Hpm as [[= ->]|[[= ->]|[[= ->]|?%not_elem_of_nil]]]; set_solver. Qed.

Lemma counters_other w pm k : pm <> (program_id, "metadata"%string) -> f_values (counters w) !! (pm, k) = f_values w !! (pm, k).
Proof. intros Hne. unfold counters, with_values. cbn [f_values]. by rewrite !lookup_insert_ne by congruence. Qed.

Lemma genesis_credits t :
  (forall name, name ∈ ["committee"; "delegated"; "bonded"; "withdraw"; "metadata"; "account"]%string -> initialized (current t) program_id name = true) ->
  matched c (genesis_stakers bs) -> credits (genesis_view t) (members c) (genesis_stakers bs).
Proof.
  intros Hi Hm. apply (credits_ext (rewritten (with_committee (current t) (next_committees state fin t c)) c (genesis_stakers bs))); [| |apply rewritten_credits; [|exact Hm]].
  - intros name. unfold genesis_view. rewrite replaced_initialized.
    change (initialized (counters ?w) program_id name) with (initialized w program_id name). by rewrite replaced_initialized.
  - intros pm k Hpm. unfold genesis_view.
    rewrite replaced_lookup by apply public_NoDup. rewrite decide_False by (by apply reward_other). rewrite counters_other by (by apply reward_other).
    rewrite replaced_lookup by apply withdrawals_NoDup. by rewrite decide_False by (by apply reward_other).
  - intros name Hname. apply (Hi name). set_solver.
Qed.

(** The genesis ratification is refused, with the store unchanged, exactly when
    one of its checks fails; otherwise it succeeds, and the mappings of credits.aleo agree:
    every member of the committee has the stake bonded to it.  The withdrawal addresses,
    the public balances and the numbers of validators and delegators are those given. *)
Theorem genesis_ratified s t :
  num_validators_key <> num_delegators_key -> frel s t ->
  (forall name, name ∈ ["committee"; "delegated"; "bonded"; "withdraw"; "metadata"; "account"]%string -> initialized (current t) program_id name = true) ->
  (fin = true -> CommitteeStore.check_insert (block_height state) (starting_round c) (committee_store s) = Ok tt) ->
  match check_genesis state false c bs with
  | Ok _ => exists ops s' w', atomic_pre_ratify state [Genesis c public bs] fin s = (Ok ops, s') /\ frel s' (with_current t w') /\
      credits w' (members c) (genesis_stakers bs) /\
      entries_of w' program_id "withdraw" (withdraw_entry <$> ((fun b : Address * (Address * Address * Z) => (b.1, b.2.1.2)) <$> bs)) /\
      entries_of w' program_id "account" (amount_entry <$> public) /\
      f_values w' !! (program_id, "metadata"%string, address_key num_validators_key) = Some (VPlaintext (PLiteral (LU32 (len (members c))))) /\
      f_values w' !! (program_id, "metadata"%string, address_key num_delegators_key) = Some (VPlaintext (PLiteral (LU32 (Z.max 0 (len bs - len (members c))))))
  | Err e => atomic_pre_ratify state [Genesis c public bs] fin s = (Err e, s)
  | _ => True
  end.
Proof.
  intros Hkeys Hr Hi Hins. destruct (check_genesis state false c bs) as [[]|e| |] eqn:Hg; [| |done..].
  - destruct (genesis_run false s t Hr Hi Hins Hg) as (ops & s' & Hs' & Hr'). exists ops, s', (genesis_view t).
    split; [unfold atomic_pre_ratify; cbn [sfold pre_ratify_step snd]; unfold sbind, slift; rewrite Hg, Hs'; done|]. split; [exact Hr'|].
    split; [apply genesis_credits; [done|]; by eapply genesis_matched|]. split_and!.
    + apply replaced_other; [apply public_NoDup|done|]. destruct (replaced_entries program_id "withdraw" withdrawals (rewritten (with_committee (current t) (next_committees state fin t c)) c (genesis_stakers bs)) withdrawals_NoDup) as [Hn Hl].
      split; [done|]. intros k x. rewrite counters_other by done. apply Hl.
    + apply replaced_entries, public_NoDup.
    + unfold genesis_view. rewrite replaced_lookup by apply public_NoDup. rewrite decide_False by done. unfold counters, with_values. cbn [f_values].
      rewrite lookup_insert_ne by (unfold address_key; congruence). by rewrite lookup_insert_eq.
    + unfold genesis_view. rewrite replaced_lookup by apply public_NoDup. rewrite decide_False by done. unfold counters, with_values. cbn [f_values]. by rewrite lookup_insert_eq.
  - unfold atomic_pre_ratify. cbn [sfold pre_ratify_step snd]. unfold sbind, slift. by rewrite Hg.
Qed.
End Genesis.

(** ** Puzzle rewards *)

(** The balance of an account, when it is an amount. *)
Definition balance w (a : Address) : option Z :=
  match f_values w !! (program_id, "account"%string, address_key a) with
  | None => Some 0
  | Some (VPlaintext (PLiteral (LU64 x))) => Some x
  | _ => None
  end.

(** The reward of each prover is added to its balance. *)
Definition paid w (rewards : list (Address * Z)) : fview :=
  foldl (fun w q => with_values w (<[(program_id, "account"%string, address_key q.1) := VPlaintext (PLiteral (LU64 (u64_saturating_add (default 0 (balance w q.1)) q.2)))]>)) w rewards.

Lemma pay_run q ops s t x :
  frel s t -> initialized (current t) program_id "account" = true -> balance (current t) q.1 = Some x -> is_u64 q.2 ->
  exists o s', pay_prover ops q s = (Ok (ops ++ [o]), s') /\
    frel s' (with_current t (with_values (current t) (<[(program_id, "account"%string, address_key q.1) := VPlaintext (PLiteral (LU64 (u64_saturating_add x q.2)))]>))).
Proof.
  intros Hr Hi Hx Hq. unfold pay_prover. rewrite (sbind_run _ _ _ _ _ (eq_refl : sget s = (Ok s, s))).
  rewrite (slift_run _ _ _ (VPlaintext (PLiteral (LU64 (u64_saturating_add x q.2))))).
  - destruct (update_run program_id "account" (address_key q.1) (VPlaintext (PLiteral (LU64 (u64_saturating_add x q.2)))) s t Hr Hi) as (o & s' & Hs' & Hr').
    rewrite (sbind_run _ _ _ _ _ Hs'). by exists o, s'.
  - rewrite (reads_value s t _ _ _ Hr). unfold balance in Hx. destruct (f_values (current t) !! _) as [[[[]| |]|]|]; cbn in *; simplify_eq; try done.
    do 4 f_equal. unfold u64_saturating_add. unfold is_u64 in Hq. lia.
Qed.
Lemma balance_insert w a b x :
  balance (with_values w (<[(program_id, "account"%string, address_key a) := VPlaintext (PLiteral (LU64 x))]>)) b = if decide (a = b) then Some x else balance w b.
Proof.
  unfold balance, with_values. cbn [f_values]. case_decide as Hd; [subst b; by rewrite lookup_insert_eq|]. by rewrite lookup_insert_ne by (unfold address_key; congruence).
Qed.

Lemma balance_paid rewards : forall w a, NoDup rewards.*1 ->
  balance (paid w rewards) a = match imap_get a rewards with Some r => Some (u64_saturating_add (default 0 (balance w a)) r) | None => balance w a end.
Proof.
  unfold paid. induction rewards as [|[b r] rewards IH]; intros w a Hnd; [done|]. cbn [foldl imap_get fst snd]. cbn in Hnd. apply NoDup_cons in Hnd as [Hni Hnd].
  rewrite IH by done. rewrite balance_insert. destruct (decide (b = a)) as [->|Hne]; [|done]. apply imap_get_None in Hni. by rewrite Hni.
Qed.

Lemma paid_other rewards : forall w pm k, pm <> (program_id, "account"%string) -> f_values (paid w rewards) !! (pm, k) = f_values w !! (pm, k).
Proof.
  unfold paid. induction rewards as [|q rewards IH]; intros w pm k Hne; [done|]. cbn [foldl]. rewrite IH by done. unfold with_values. cbn [f_values]. by rewrite lookup_insert_ne by congruence.
Qed.

Lemma pay_all rewards : forall ops s t,
  frel s t -> initialized (current t) program_id "account" = true -> NoDup rewards.*1 -> Forall (fun q => 0 < q.2 <= u64_max) rewards ->
  (forall a, a ∈ rewards.*1 -> is_Some (balance (current t) a)) ->
  exists ops' s', sfold pay_prover ops rewards s = (Ok ops', s') /\ frel s' (with_current t (paid (current t) rewards)).
Proof.
  induction rewards as [|q rewards IH]; intros ops s t Hr Hi Hnd Hp Hb; [exists ops, s; split; [done|]; unfold paid; cbn; by rewrite with_current_same|].
  cbn in Hnd. apply NoDup_cons in Hnd as [Hni Hnd]. apply Forall_cons in Hp as [Hq Hp]. destruct (Hb q.1 ltac:(by left)) as [x Hx].
  destruct (pay_run q ops s t x Hr Hi Hx) as (o & s1 & Hs1 & Hr1); [unfold is_u64; lia|]. cbn [sfold]. rewrite (sbind_run _ _ _ _ _ Hs1).
  destruct (IH (ops ++ [o]) s1 _ Hr1) as (ops' & s' & Hs' & Hr'); [by rewrite with_current_current|done|done| |].
  - intros a Ha. rewrite with_current_current, balance_insert. case_decide; [done|]. apply Hb. by right.
  - exists ops', s'. split; [done|]. rewrite with_current_current, with_current_twice in Hr'. unfold paid in *. cbn [foldl]. by rewrite Hx.
Qed.

(** Ratifying a puzzle reward pays every prover the rounded shares of its
    solutions by proof target, added to its public balance and at most the reward in
    all, and changes nothing else; a second payment in the same block is an error. *)
Theorem puzzle_reward_ratified (state : FinalizeGlobalState) (fin : bool) (R : Z) (solutions : list Solution) targets s t :
  frel s t -> initialized (current t) program_id "account" = true -> 0 < R <= Targets.MAX_COINBASE_REWARD ->
  mapM (fun x => y ← get_proof_target x; Ok (solution_address x, y)) solutions = Ok targets -> amounts targets -> sumZ targets.*2 <= 2 ^ 128 ->
  (forall a, a ∈ targets.*1 -> is_Some (balance (current t) a)) ->
  let C := sumZ targets.*2 in
  let reward a := if decide (C = 0) then 0 else earned_by R C a targets in
  exists ops s' w', atomic_post_ratify state fin [PuzzleReward R] (Some solutions) s = (Ok ops, s') /\ frel s' (with_current t w') /\
    (forall a, balance w' a = if decide (reward a = 0) then balance (current t) a else Some (Z.min u64_max (default 0 (balance (current t) a) + reward a))) /\
    (C <> 0 -> sumZ (earned R C <$> targets) <= R) /\
    (forall pm k, pm <> (program_id, "account"%string) -> f_values w' !! (pm, k) = f_values (current t) !! (pm, k)) /\
    forall R', exists e, (atomic_post_ratify state fin [PuzzleReward R; PuzzleReward R'] (Some solutions) s).1 = Err e.
Proof.
  intros Hr Hi HR Ht Ha HC2 Hb C reward. destruct (proving_rewards_run targets R ltac:(lia) Ha HC2) as (rewards & Hrw & He & Hsum).
  destruct (proving_rewards_positive targets R rewards Hrw) as (Hnd & Hp & Hk).
  destruct (pay_all rewards [] s t Hr Hi Hnd Hp) as (ops & s' & Hs' & Hr'); [intros a Hin; by apply Hb, Hk|].
  exists ops, s', (paid (current t) rewards). split.
  { unfold atomic_post_ratify. cbn [sfold post_ratify_step negb ensure]. rewrite decide_False by lia. unfold sbind, slift. by rewrite Ht, Hrw, Hs'. }
  split; [exact Hr'|]. split; [|split; [exact Hsum|]; split; [by intros; apply paid_other|]].
  - intros a. rewrite balance_paid by done. specialize (He a). fold C in He. fold (reward a) in He. destruct (imap_get a rewards) as [r|] eqn:Hg; cbn in He.
    + apply imap_get_elem in Hg. rewrite Forall_forall in Hp. specialize (Hp _ Hg). cbn in Hp. rewrite decide_False by lia. by rewrite He.
    + by rewrite decide_True.
  - intros R'. eexists. unfold atomic_post_ratify. cbn [sfold post_ratify_step negb ensure]. rewrite decide_False by lia. unfold sbind, slift. by rewrite Ht, Hrw, Hs'.
Qed.
End Ratify.
End RatifyProps.

(** ** Witnesses *)

Import FinalizeStore Ratify.
#[local] Existing Instance serialize_countable.
#[local] Existing Instance serialize_countable_laws.
#[local] Existing Instance sample_hash.

#[local] Instance sample_env : Env (N := TestNetwork) := {|
  params := Targets.MainnetV0;
  MAX_CERTIFICATES := [(1, 16); (3, 25); (5, 30); (6, 35); (9, 40)];
  num_validators_key := "0"%char;
  num_delegators_key := "1"%char;
  solution_address x := x;
  get_proof_target x := Ok (Z.of_N (N_of_ascii x));
|}.

(** The store with the mappings of credits.aleo. *)
Definition sample_inits : list (FinalizeStoreProps.fop (N := TestNetwork)) :=
  FinalizeStoreProps.Initialize program_id <$> ["committee"; "delegated"; "bonded"; "withdraw"; "metadata"; "account"]%string.
Definition sample_store : FinalizeStorage TestNetwork := (FinalizeStoreProps.run_fops open_finalize sample_inits).2.
Definition sample_view : FinalizeStoreProps.fview (N := TestNetwork) := (FinalizeStoreProps.spec_fops FinalizeStoreProps.empty_fview sample_inits).2.

Lemma sample_store_rel : FinalizeStoreProps.frel sample_store (Txn.mk sample_view None).
Proof.
  destruct (FinalizeStoreProps.run_fops_rel sample_hash_total sample_inits open_finalize (Txn.mk FinalizeStoreProps.empty_fview None) FinalizeStoreProps.open_frel) as (s & Hs & Hr).
  unfold sample_store. rewrite Hs. exact Hr.
Qed.
Lemma sample_initialized name : name ∈ ["committee"; "delegated"; "bonded"; "withdraw"; "metadata"; "account"]%string -> FinalizeStoreProps.initialized sample_view program_id name = true.
Proof. intros Hn. repeat (apply elem_of_cons in Hn as [->|Hn]; [reflexivity|]). by apply not_elem_of_nil in Hn. Qed.

(** The members of the sample committee at round 0, bonded to themselves, with a
    delegator to one of them and one to an address that is no member. *)
Definition genesis_committee : Committee :=
  mk_committee (N := TestNetwork) (sum_hash (write_u64 0 ++ write_u16 4
    ++ (sample_members ≫= write_member (N := TestNetwork)) ++ write_u64 (7 * MIN_VALIDATOR_STAKE)))
    0 sample_members (7 * MIN_VALIDATOR_STAKE).
Definition sample_bonded : list (ascii * (ascii * ascii * Z)) :=
  [("a"%char, ("a"%char, "a"%char, MIN_VALIDATOR_STAKE)); ("x"%char, ("b"%char, "y"%char, MIN_VALIDATOR_STAKE)); ("b"%char, ("b"%char, "b"%char, MIN_VALIDATOR_STAKE));
   ("c"%char, ("c"%char, "c"%char, MIN_VALIDATOR_STAKE)); ("y"%char, ("z"%char, "y"%char, MIN_DELEGATOR_STAKE)); ("d"%char, ("d"%char, "d"%char, 3 * MIN_VALIDATOR_STAKE))].
Definition genesis_state : FinalizeGlobalState := mk_global 0 0.

Lemma genesis_committee_new : committee_new (N := TestNetwork) 0 sample_members = Ok genesis_committee.
Proof. vm_refl. Qed.
Lemma genesis_committee_wf : committee_wf genesis_committee.
Proof.
  refine (proj1 (committee_new_wf 0 sample_members _ _ _ _ genesis_committee_new)).
  - apply (bool_decide_unpack _). vm_compute. exact I.
  - unfold is_u64, u64_max. lia.
  - intros p Hp. cbn in Hp. repeat (apply elem_of_cons in Hp as [->|Hp]; [cbn; unfold MIN_VALIDATOR_STAKE, u64_max; lia|]). by apply not_elem_of_nil in Hp.
Qed.
Lemma sample_bonded_keys : NoDup sample_bonded.*1.
Proof. apply (bool_decide_unpack _). vm_compute. exact I. Qed.
Lemma sample_bonded_amounts : Forall (fun b => is_u64 b.2.2) sample_bonded.
Proof. repeat constructor; cbn; unfold is_u64, MIN_VALIDATOR_STAKE, MIN_DELEGATOR_STAKE, u64_max; lia. Qed.
Lemma sample_genesis_checked : check_genesis genesis_state false genesis_committee sample_bonded = Ok tt.
Proof. vm_compute. reflexivity. Qed.
Lemma sample_insert_checked : CommitteeStore.check_insert 0 0 (committee_store sample_store) = Ok tt.
Proof. reflexivity. Qed.
Lemma sample_bhp_total bs : exists f, hash_bhp1024 (Network := TestNetwork) bs = Ok f.
Proof. by eexists. Qed.

Lemma sample_keys : num_validators_key (N := TestNetwork) <> num_delegators_key.
Proof. cbn. discriminate. Qed.

Lemma genesis_ratified_witness :
  exists ops s' w', atomic_pre_ratify genesis_state [Genesis genesis_committee [("p"%char, 7)] sample_bonded] true sample_store = (Ok ops, s') /\
    RatifyProps.credits w' (members genesis_committee) (RatifyProps.genesis_stakers sample_bonded) /\
    FinalizeStoreProps.entries_of w' program_id "account" [amount_entry (N := TestNetwork) ("p"%char, 7)].
Proof.
  pose proof (RatifyProps.genesis_ratified sample_hash_total genesis_state true genesis_committee [("p"%char, 7)] sample_bonded
    genesis_committee_wf sample_bonded_keys (NoDup_singleton _) sample_bonded_amounts sample_store (Txn.mk sample_view None)
    sample_keys sample_store_rel sample_initialized (fun _ => sample_insert_checked)) as Hg.
  rewrite sample_genesis_checked in Hg. destruct Hg as (ops & s' & w' & H1 & _ & H2 & _ & H3 & _).
  exists ops, s', w'. split; [exact H1|]. split; [exact H2|exact H3].
Defined.

(** The store after the genesis ratification of a block that is finalized. *)
Definition genesis_store : FinalizeStorage TestNetwork :=
  (ratify_genesis genesis_state true genesis_committee [] sample_bonded sample_store).2.
Lemma genesis_store_credits : exists t, FinalizeStoreProps.frel (N := TestNetwork) genesis_store t /\
  RatifyProps.credits (Txn.current t) (members genesis_committee) (RatifyProps.genesis_stakers sample_bonded).
Proof.
  destruct (RatifyProps.genesis_run sample_hash_total genesis_state true genesis_committee [] sample_bonded genesis_committee_wf sample_bonded_keys NoDup_nil_2 sample_bonded_amounts
    false sample_store (Txn.mk sample_view None) sample_store_rel sample_initialized) as (ops & s' & Hs & Hr); [intros _; exact sample_insert_checked|exact sample_genesis_checked|].
  eexists. unfold genesis_store. rewrite Hs. split; [exact Hr|]. apply RatifyProps.genesis_credits;
    first [exact sample_hash_total|exact genesis_committee_wf|exact sample_bonded_keys|exact NoDup_nil_2|exact sample_bonded_amounts|exact sample_initialized|idtac].
  eapply RatifyProps.genesis_matched; [exact genesis_committee_wf|exact sample_bonded_keys|exact sample_bonded_amounts|exact sample_genesis_checked].
Qed.
Lemma genesis_store_accepts : CommitteeStore.check_insert 1 4 (committee_store genesis_store) = Ok tt.
Proof. vm_refl. Qed.

Lemma block_reward_ratified_witness :
  exists ops s' w' c' st', atomic_post_ratify (N := TestNetwork) (mk_global 4 1) true [BlockReward 1000000] None genesis_store = (Ok ops, s') /\
    RatifyProps.credits w' (members c') st' /\ RatifyProps.same_members (members genesis_committee) (members c') st' /\ starting_round c' = 4.
Proof.
  destruct genesis_store_credits as (t & Hr & Hc).
  destruct (RatifyProps.block_reward_ratified sample_hash_total (mk_global 4 1) true 1000000
    ltac:(unfold is_u64, u64_max; lia) ltac:(cbn; unfold is_u64, u64_max; lia) sample_bhp_total genesis_store t _ _ None Hr Hc) as (ops & s' & w' & c' & st0 & st' & H1 & _ & H2 & H3 & H4 & _).
  - vm_compute. discriminate.
  - intros _. exact genesis_store_accepts.
  - exists ops, s', w', c', st'. split; [exact H1|]. split; [exact H2|]. split; [exact H3|exact H4].
Defined.

Lemma puzzle_reward_ratified_witness :
  exists ops s' w', atomic_post_ratify (N := TestNetwork) (mk_global 4 1) true [PuzzleReward 1000] (Some ["("; "<"]%char) sample_store = (Ok ops, s') /\
    RatifyProps.balance w' "<"%char = Some 600.
Proof.
  destruct (RatifyProps.puzzle_reward_ratified sample_hash_total (mk_global 4 1) true 1000 ["("; "<"]%char [("("%char, 40); ("<"%char, 60)] sample_store (Txn.mk sample_view None) sample_store_rel)
    as (ops & s' & w' & H1 & _ & H2 & _).
  - apply sample_initialized. apply (bool_decide_unpack _). vm_compute. exact I.
  - unfold Targets.MAX_COINBASE_REWARD. lia.
  - vm_compute. reflexivity.
  - repeat constructor; cbn; unfold u64_max; lia.
  - vm_compute. discriminate.
  - intros a Ha. exists 0. cbn in Ha. repeat (apply elem_of_cons in Ha as [->|Ha]; [reflexivity|]). by apply not_elem_of_nil in Ha.
  - exists ops, s', w'. split; [exact H1|]. etransitivity; [exact (H2 "<"%char)|reflexivity].
Defined.
