(* ===== verification/RouterCache.v ===== *)
(** * The cache of the router

    [Cache<N>] of node/router/src/helpers/cache.rs: the recent timestamps of
    connections, messages and requests by peer, the solutions and transactions
    that were heard from and sent to each peer, and the requests in flight.  The
    clock, in nanoseconds, is an argument of the operations that read it.

    [linked_hash_map::LinkedHashMap] is an external container: an interface with
    its laws and an executable instance. *)

From S2P Require Import Prelude Bytes Network Sockets Committee Narwhal Lru StorageService Ledger Storage Locators SyncState BlockSync Events Messages Peers.

(** ** [linked_hash_map::LinkedHashMap] *)

Class LinkedMapOps (M K V : Type) := {
  lm_new : M;
  lm_len : M -> Z;
  (** The value that was replaced. *)
  lm_insert : M -> K -> V -> option V * M;
  lm_pop_front : M -> option (K * V) * M;
  (** The entries, the one inserted last at the end. *)
  lm_entries : M -> list (K * V);
}.

Class LinkedMapLaws (M K V : Type) `{EqDecision K} `{LinkedMapOps M K V} := {
  lm_new_entries : lm_entries (lm_new : M) = [];
  lm_len_entries (m : M) : lm_len m = len (lm_entries m);
  lm_insert_entries (m : M) k v : (lm_insert m k v).1 = assoc k (lm_entries m) /\
    lm_entries (lm_insert m k v).2 = drop_key k (lm_entries m) ++ [(k, v)];
  lm_pop_front_entries (m : M) : (lm_pop_front m).1 = head (lm_entries m) /\
    lm_entries (lm_pop_front m).2 = tail (lm_entries m);
}.

(** The list of entries is an instance. *)
Module LinkedMap.
Section Instance_.
Context {K V : Type} `{EqDecision K}.

#[global] Instance list_linked_ops : LinkedMapOps (list (K * V)) K V := {|
  lm_new := [];
  lm_len := len;
  lm_insert l k v := (assoc k l, drop_key k l ++ [(k, v)]);
  lm_pop_front l := (head l, tail l);
  lm_entries l := l;
|}.

#[global] Instance list_linked_laws : LinkedMapLaws (list (K * V)) K V.
Proof. by split. Qed.
End Instance_.
End LinkedMap.

#[export] Instance EventBlockRequest_eq_dec : EqDecision Events.BlockRequest.
Proof. solve_decision. Defined.
#[export] Instance EventBlockRequest_countable : Countable Events.BlockRequest.
Proof.
  refine (inj_countable' (fun r => (Events.start_height r, Events.end_height r))
    (fun p => Events.mk_block_request p.1 p.2) _). by intros [].
Defined.

Module RouterCache.

Definition MAX_CACHE_SIZE : Z := Z.shiftl 1 17.
Definition INBOUND_BLOCK_REQUEST_INTERVAL : Z := 60.
Definition INBOUND_PUZZLE_REQUEST_INTERVAL : Z := 60.

(** ** Timestamps, counters and recent keys *)

Section Windows.
Context `{Countable K}.

(** [while timestamps.front().is_some_and(..) { timestamps.pop_front(); }]. *)
Fixpoint drop_old (now interval_in_secs : Z) (timestamps : list Z) : list Z :=
  match timestamps with
  | t :: rest => if decide (interval_in_secs * 10 ^ 9 < now - t) then drop_old now interval_in_secs rest else timestamps
  | [] => []
  end.

(** [Cache::retain_and_insert]. *)
Definition retain_and_insert (map : gmap K (list Z)) (key : K) (now interval_in_secs : Z) : Z * gmap K (list Z) :=
  let timestamps := default [] (map !! key) in
  let timestamps := timestamps ++ [now] in
  let timestamps := drop_old now interval_in_secs timestamps in
  (len timestamps, <[key := timestamps]> map).

(** [Cache::retain]. *)
Definition retain (map : gmap K (list Z)) (key : K) (now interval_in_secs : Z) : Z * gmap K (list Z) :=
  let timestamps := default [] (map !! key) in
  let timestamps := drop_old now interval_in_secs timestamps in
  (len timestamps, <[key := timestamps]> map).

(** [Cache::increment_counter]. *)
Definition increment_counter (map : gmap K Z) (key : K) : Z * gmap K Z :=
  let entry := u32_saturating_add (default 0 (map !! key)) 1 in
  (entry, <[key := entry]> map).

(** [Cache::decrement_counter]. *)
Definition decrement_counter (map : gmap K Z) (key : K) : Z * gmap K Z :=
  let entry := default 0 (map !! key) in
  let value := saturating_sub entry 1 in
  if decide (entry = 0) then (value, delete key map) else (value, <[key := value]> map).
End Windows.

Section Recent.
Context {M K V : Type} `{!LinkedMapOps M K V}.

(** [Cache::refresh]: a turn of the loop removes an entry, so as many turns as
    there are entries are enough. *)
Fixpoint refresh_loop (fuel : nat) (map : M) : M :=
  if decide (lm_len map < MAX_CACHE_SIZE) then map else
  match fuel with
  | O => map
  | S fuel => refresh_loop fuel (lm_pop_front map).2
  end.
Definition refresh (map : M) : M := refresh_loop (Z.to_nat (lm_len map)) map.

(** [Cache::refresh_and_insert]. *)
Definition refresh_and_insert (map : M) (key : K) (now : V) : option V * M :=
  let '(previous_timestamp, map) := lm_insert map key now in
  (previous_timestamp, refresh map).
End Recent.

(** ** The cache *)

Section Cache.
Context `{N : Network}.
Context {Sols : Type} `{!LinkedMapOps Sols (SocketAddr * SolutionID) Z}.
Context {Txs : Type} `{!LinkedMapOps Txs (SocketAddr * TransactionID) Z}.

Record Cache := mk_cache {
  seen_inbound_connections : gmap IpAddr (list Z);
  seen_inbound_messages : gmap SocketAddr (list Z);
  seen_inbound_puzzle_requests : gmap SocketAddr (list Z);
  seen_inbound_block_requests : gmap SocketAddr (list Z);
  seen_inbound_solutions : Sols;
  seen_inbound_transactions : Txs;
  seen_outbound_block_requests : gmap SocketAddr (gset Events.BlockRequest);
  seen_outbound_puzzle_requests : gmap SocketAddr Z;
  seen_outbound_solutions : Sols;
  seen_outbound_transactions : Txs;
  seen_outbound_peer_requests : gmap SocketAddr Z;
}.

(** [Cache::new]. *)
Definition new : Cache := mk_cache ∅ ∅ ∅ ∅ lm_new lm_new ∅ ∅ lm_new lm_new ∅.

(** [Cache::insert_inbound_connection], [Cache::insert_inbound_message],
    [Cache::insert_inbound_puzzle_request] and [Cache::insert_inbound_block_request]. *)
Definition insert_inbound_connection (now : Z) (peer_ip : IpAddr) (interval_in_secs : Z) (c : Cache) : Z * Cache :=
  let '(mk_cache a b d e f g h i j k l) := c in
  let '(n, a) := retain_and_insert a peer_ip now interval_in_secs in (n, mk_cache a b d e f g h i j k l).
Definition insert_inbound_message (now : Z) (peer_ip : SocketAddr) (interval_in_secs : Z) (c : Cache) : Z * Cache :=
  let '(mk_cache a b d e f g h i j k l) := c in
  let '(n, b) := retain_and_insert b peer_ip now interval_in_secs in (n, mk_cache a b d e f g h i j k l).
Definition insert_inbound_puzzle_request (now : Z) (peer_ip : SocketAddr) (c : Cache) : Z * Cache :=
  let '(mk_cache a b d e f g h i j k l) := c in
  let '(n, d) := retain_and_insert d peer_ip now INBOUND_PUZZLE_REQUEST_INTERVAL in (n, mk_cache a b d e f g h i j k l).
Definition insert_inbound_block_request (now : Z) (peer_ip : SocketAddr) (c : Cache) : Z * Cache :=
  let '(mk_cache a b d e f g h i j k l) := c in
  let '(n, e) := retain_and_insert e peer_ip now INBOUND_BLOCK_REQUEST_INTERVAL in (n, mk_cache a b d e f g h i j k l).

(** [Cache::insert_inbound_solution] and [Cache::insert_inbound_transaction]. *)
Definition insert_inbound_solution (now : Z) (peer_ip : SocketAddr) (solution_id : SolutionID) (c : Cache) : option Z * Cache :=
  let '(mk_cache a b d e f g h i j k l) := c in
  let '(t, f) := refresh_and_insert f (peer_ip, solution_id) now in (t, mk_cache a b d e f g h i j k l).
Definition insert_inbound_transaction (now : Z) (peer_ip : SocketAddr) (transaction : TransactionID) (c : Cache)
    : option Z * Cache :=
  let '(mk_cache a b d e f g h i j k l) := c in
  let '(t, g) := refresh_and_insert g (peer_ip, transaction) now in (t, mk_cache a b d e f g h i j k l).

(** [Cache::contains_inbound_block_request]; it forgets old timestamps. *)
Definition contains_inbound_block_request (now : Z) (peer_ip : SocketAddr) (c : Cache) : bool * Cache :=
  let '(mk_cache a b d e f g h i j k l) := c in
  let '(n, e) := retain e peer_ip now INBOUND_BLOCK_REQUEST_INTERVAL in
  (bool_decide (0 < n), mk_cache a b d e f g h i j k l).

(** The block requests in flight: [Cache::num_outbound_block_requests],
    [Cache::contains_outbound_block_request],
    [Cache::insert_outbound_block_request] and
    [Cache::remove_outbound_block_request]. *)
Definition set_block_requests (m : gmap SocketAddr (gset Events.BlockRequest)) (c : Cache) : Cache :=
  let '(mk_cache a b d e f g _ i j k l) := c in mk_cache a b d e f g m i j k l.
Definition num_outbound_block_requests (peer_ip : SocketAddr) (c : Cache) : Z :=
  default 0 ((fun r : gset _ => Z.of_nat (size r)) <$> seen_outbound_block_requests c !! peer_ip).
Definition contains_outbound_block_request (peer_ip : SocketAddr) (request : Events.BlockRequest) (c : Cache) : bool :=
  default false ((fun r : gset _ => bool_decide (request ∈ r)) <$> seen_outbound_block_requests c !! peer_ip).
Definition insert_outbound_block_request (peer_ip : SocketAddr) (request : Events.BlockRequest) (c : Cache) : Z * Cache :=
  let requests := {[request]} ∪ default ∅ (seen_outbound_block_requests c !! peer_ip) in
  (Z.of_nat (size requests), set_block_requests (<[peer_ip := requests]> (seen_outbound_block_requests c)) c).
Definition remove_outbound_block_request (peer_ip : SocketAddr) (request : Events.BlockRequest) (c : Cache) : bool * Cache :=
  match seen_outbound_block_requests c !! peer_ip with
  | Some requests =>
      (bool_decide (request ∈ requests),
       set_block_requests (<[peer_ip := requests ∖ {[request]}]> (seen_outbound_block_requests c)) c)
  | None => (false, c)
  end.

(** The puzzle requests in flight: [Cache::contains_outbound_puzzle_request],
    [Cache::increment_outbound_puzzle_requests] and
    [Cache::decrement_outbound_puzzle_requests]. *)
Definition contains_outbound_puzzle_request (peer_ip : SocketAddr) (c : Cache) : bool :=
  default false ((fun r => bool_decide (0 < r)) <$> seen_outbound_puzzle_requests c !! peer_ip).
Definition increment_outbound_puzzle_requests (peer_ip : SocketAddr) (c : Cache) : Z * Cache :=
  let '(mk_cache a b d e f g h i j k l) := c in
  let '(n, i) := increment_counter i peer_ip in (n, mk_cache a b d e f g h i j k l).
Definition decrement_outbound_puzzle_requests (peer_ip : SocketAddr) (c : Cache) : Z * Cache :=
  let '(mk_cache a b d e f g h i j k l) := c in
  let '(n, i) := decrement_counter i peer_ip in (n, mk_cache a b d e f g h i j k l).

(** [Cache::insert_outbound_solution] and [Cache::insert_outbound_transaction]. *)
Definition insert_outbound_solution (now : Z) (peer_ip : SocketAddr) (solution_id : SolutionID) (c : Cache) : option Z * Cache :=
  let '(mk_cache a b d e f g h i j k l) := c in
  let '(t, j) := refresh_and_insert j (peer_ip, solution_id) now in (t, mk_cache a b d e f g h i j k l).
Definition insert_outbound_transaction (now : Z) (peer_ip : SocketAddr) (transaction : TransactionID) (c : Cache)
    : option Z * Cache :=
  let '(mk_cache a b d e f g h i j k l) := c in
  let '(t, k) := refresh_and_insert k (peer_ip, transaction) now in (t, mk_cache a b d e f g h i j k l).

(** The peer requests in flight: [Cache::contains_outbound_peer_request],
    [Cache::increment_outbound_peer_requests] and
    [Cache::decrement_outbound_peer_requests]. *)
Definition contains_outbound_peer_request (peer_ip : SocketAddr) (c : Cache) : bool :=
  default false ((fun r => bool_decide (0 < r)) <$> seen_outbound_peer_requests c !! peer_ip).
Definition increment_outbound_peer_requests (peer_ip : SocketAddr) (c : Cache) : Z * Cache :=
  let '(mk_cache a b d e f g h i j k l) := c in
  let '(n, l) := increment_counter l peer_ip in (n, mk_cache a b d e f g h i j k l).
Definition decrement_outbound_peer_requests (peer_ip : SocketAddr) (c : Cache) : Z * Cache :=
  let '(mk_cache a b d e f g h i j k l) := c in
  let '(n, l) := decrement_counter l peer_ip in (n, mk_cache a b d e f g h i j k l).

(** [Cache::clear_peer_entries]. *)
Definition clear_peer_entries (peer_ip : SocketAddr) (c : Cache) : Cache :=
  set_block_requests (delete peer_ip (seen_outbound_block_requests c)) c.
End Cache.

(** ** The timestamps count the recent events *)

Section WindowProps.
Context `{Countable K}.
Implicit Types (m : gmap K (list Z)) (l : list Z).

(** The two operations on a map of timestamps, and a run of them. *)
Inductive window_op := Insert (now : Z) (key : K) | Look (now : Z) (key : K).
Definition op_time (o : window_op) : Z := match o with Insert now _ | Look now _ => now end.
Definition op_key (o : window_op) : K := match o with Insert _ key | Look _ key => key end.
Definition do_op (interval : Z) m (o : window_op) : Z * gmap K (list Z) :=
  match o with
  | Insert now key => retain_and_insert m key now interval
  | Look now key => retain m key now interval
  end.
Definition run_ops (interval : Z) (ops : list window_op) m : gmap K (list Z) :=
  foldl (fun m o => (do_op interval m o).2) m ops.

(** The times at which [key] was inserted, and those that are recent at [now]. *)
Definition inserted (key : K) (ops : list window_op) : list Z :=
  omap (fun o => match o with Insert now k => if decide (k = key) then Some now else None | Look _ _ => None end) ops.
Definition is_recent (now interval : Z) (t : Z) : Prop := now - t <= interval * 10 ^ 9.
#[local] Instance is_recent_dec now interval t : Decision (is_recent now interval t).
Proof. unfold is_recent. apply _. Defined.

Lemma drop_old_recent now interval l :
  StronglySorted Z.le l -> drop_old now interval l = filter (is_recent now interval) l.
Proof.
  induction 1 as [|t l Hs IH Ht]; [done|]. cbn [drop_old]. rewrite filter_cons. unfold is_recent in *. case_decide; case_decide; try lia; [done|].
  f_equal. clear IH. induction Ht as [|t' l Ht' _ IH]; [done|]. apply StronglySorted_inv in Hs as [Hs _].
  rewrite filter_cons, decide_True by lia. f_equal. by apply IH.
Qed.

Lemma recent_later now now' interval l :
  now <= now' -> filter (is_recent now' interval) (filter (is_recent now interval) l) = filter (is_recent now' interval) l.
Proof. intros ?. apply list_filter_filter_l. unfold is_recent. lia. Qed.

Lemma StronglySorted_filter_le (P : Z -> Prop) `{!forall x, Decision (P x)} l :
  StronglySorted Z.le l -> StronglySorted Z.le (filter P l).
Proof.
  induction 1 as [|t l Hs IH Ht]; [constructor|]. rewrite filter_cons. case_decide; [|done]. constructor; [done|].
  rewrite Forall_forall in *. intros x [_ Hx]%list_elem_of_filter. auto.
Qed.

Lemma StronglySorted_snoc_le l t : StronglySorted Z.le l -> (forall t', t' ∈ l -> t' <= t) -> StronglySorted Z.le (l ++ [t]).
Proof.
  intros Hl Ht. apply StronglySorted_app_2; [|done|by repeat constructor]. intros x y Hx ->%list_elem_of_singleton. auto.
Qed.

Lemma inserted_snoc key ops o :
  inserted key (ops ++ [o]) = inserted key ops ++ match o with Insert now k => if decide (k = key) then [now] else [] | _ => [] end.
Proof. unfold inserted. rewrite omap_app. cbn. destruct o; [by case_decide|done]. Qed.

Lemma inserted_time key ops t : t ∈ inserted key ops -> exists o, o ∈ ops /\ op_time o = t.
Proof.
  unfold inserted. intros (o & Ho & Hs)%list_elem_of_omap. exists o. destruct o; [|done]. by case_decide; simplify_eq.
Qed.

Definition in_order (ops : list window_op) : Prop := StronglySorted Z.le (op_time <$> ops).

Lemma in_order_snoc ops o : in_order (ops ++ [o]) -> in_order ops /\ forall o', o' ∈ ops -> op_time o' <= op_time o.
Proof.
  unfold in_order. rewrite fmap_app. cbn. intros Hs. split; [by eapply StronglySorted_app_1_l|].
  intros o' Ho'. eapply StronglySorted_app_1_elem_of; [exact Hs| |by left]. by apply list_elem_of_fmap_2.
Qed.

Lemma inserted_sorted key ops : in_order ops -> StronglySorted Z.le (inserted key ops).
Proof.
  induction ops as [|o ops IH] using rev_ind; [constructor|]. intros [Ho Hle]%in_order_snoc. rewrite inserted_snoc.
  destruct o as [now k|]; [case_decide|]; rewrite ?app_nil_r; auto.
  apply StronglySorted_snoc_le; [auto|]. intros t (o' & Ho' & <-)%inserted_time. by apply (Hle o').
Qed.

(** What is stored for a key: what was recent when it was last used. *)
Definition stored_at (interval : Z) (ops : list window_op) (key : K) (last : Z) : Prop :=
  default [] (run_ops interval ops ∅ !! key) = filter (is_recent last interval) (inserted key ops).

Lemma stored_now interval ops o last :
  in_order (ops ++ [o]) -> inserted (op_key o) ops = [] \/ last <= op_time o ->
  stored_at interval ops (op_key o) last -> stored_at interval (ops ++ [o]) (op_key o) (op_time o).
Proof.
  unfold stored_at. intros [Ho Hle]%in_order_snoc Hlast Hst. unfold run_ops in *. rewrite foldl_snoc, inserted_snoc.
  set (m := foldl _ _ _) in *.
  assert (filter (is_recent (op_time o) interval) (filter (is_recent last interval) (inserted (op_key o) ops)) =
          filter (is_recent (op_time o) interval) (inserted (op_key o) ops)) as Hff
    by (destruct Hlast as [->|]; [done|by apply recent_later]).
  destruct o as [now k|now k]; cbn in *; rewrite lookup_insert_eq, Hst; cbn.
  - rewrite decide_True by done. rewrite drop_old_recent, !filter_app, Hff; [done|].
    apply StronglySorted_snoc_le; [by apply StronglySorted_filter_le, inserted_sorted|].
    intros t [_ (o' & Ho' & <-)%inserted_time]%list_elem_of_filter. by apply (Hle o').
  - rewrite app_nil_r, drop_old_recent, Hff; [done|by apply StronglySorted_filter_le, inserted_sorted].
Qed.

Lemma stored_recent interval ops key :
  in_order ops ->
  exists last, (inserted key ops = [] \/ exists o, o ∈ ops /\ last = op_time o) /\ stored_at interval ops key last.
Proof.
  induction ops as [|o ops IH] using rev_ind; intros Hord; [exists 0; by split; [left|]|].
  pose proof (in_order_snoc _ _ Hord) as [Ho Hle]. destruct (IH Ho) as (last & Hlast & Hst).
  destruct (decide (op_key o = key)) as [<-|Hk].
  - exists (op_time o). split; [right; exists o; split; [set_solver|done]|]. apply (stored_now _ _ _ last); [done| |done].
    destruct Hlast as [?|(o' & Ho' & ->)]; auto.
  - exists last. unfold stored_at, run_ops in *. rewrite foldl_snoc, inserted_snoc.
    destruct o as [now k|now k]; cbn in Hk; cbn; rewrite lookup_insert_ne, Hst by done;
      [rewrite decide_False by done|]; rewrite app_nil_r; split; try done.
    all: destruct Hlast as [?|(o' & Ho' & ->)]; [by left|right; exists o'; split; [set_solver|done]].
Qed.

(** C28: both operations on the timestamps of connections, messages and requests
    answer with the number of events of the key that are at most the interval old,
    whatever was inserted and looked at before, for this key and others, as long as
    the clock does not go back. *)
Theorem recent_counts (interval : Z) (ops : list window_op) (o : window_op) :
  in_order (ops ++ [o]) ->
  (do_op interval (run_ops interval ops ∅) o).1 =
  len (filter (is_recent (op_time o) interval) (inserted (op_key o) (ops ++ [o]))).
Proof.
  intros Hord. transitivity (len (default [] (run_ops interval (ops ++ [o]) ∅ !! op_key o))).
  - unfold run_ops at 2. rewrite foldl_snoc. fold (run_ops interval ops ∅). destruct o; cbn; by rewrite lookup_insert_eq.
  - pose proof (in_order_snoc _ _ Hord) as [Ho Hle].
    destruct (stored_recent interval ops (op_key o) Ho) as (last & Hlast & Hst).
    rewrite (stored_now _ _ _ last); [done|done| |done]. destruct Hlast as [?|(o' & Ho' & ->)]; auto.
Qed.
End WindowProps.

(** ** The recent keys *)

Section RecentProps.
Context {M K V : Type} `{Countable K} `{!LinkedMapOps M K V} `{!LinkedMapLaws M K V}.
Implicit Types (m : M) (l ops : list (K * V)).

(** Insertions one after the other. *)
Definition insert_all ops m : M := foldl (fun m e => (refresh_and_insert m e.1 e.2).2) m ops.

(** The number of entries that stay, and the keys in the order of their last
    insertions. *)
Definition room : nat := Z.to_nat (MAX_CACHE_SIZE - 1).
Definition last_n {A} (n : nat) (l : list A) : list A := drop (length l - n) l.
Definition recency ops : list (K * V) := foldl (fun l e => drop_key e.1 l ++ [e]) [] ops.
Definition distinct_keys ops : Z := Z.of_nat (size (list_to_set ops.*1 : gset K)).

Lemma to_nat_room (x : Z) : 1 < x -> (1 <= Z.to_nat (x - 1))%nat /\ Z.of_nat (Z.to_nat (x - 1)) = x - 1.
Proof. lia. Qed.
Lemma room_pos : (1 <= room)%nat /\ Z.of_nat room = MAX_CACHE_SIZE - 1.
Proof. exact (to_nat_room MAX_CACHE_SIZE eq_refl). Qed.

Lemma refresh_loop_entries fuel m :
  (length (lm_entries m) <= fuel)%nat -> lm_entries (refresh_loop fuel m) = last_n room (lm_entries m).
Proof.
  pose proof room_pos as [Hr Hr']. revert m Hr Hr'. unfold last_n. generalize room as n. intros n.
  induction fuel as [|fuel IH]; intros m Hn Hn' Hf; cbn [refresh_loop]; rewrite lm_len_entries; unfold len; case_decide.
  1-3: by replace (length (lm_entries m) - n)%nat with 0%nat by lia.
  destruct (lm_pop_front_entries m) as [_ Hp]. destruct (lm_entries m) as [|e l] eqn:E; cbn in Hp, Hf; [cbn in *; lia|].
  rewrite IH, Hp by (done || rewrite Hp; cbn; lia). cbn [length] in *.
  by replace (S (length l) - n)%nat with (S (length l - n)) by lia.
Qed.

Lemma refresh_entries m : lm_entries (refresh m) = last_n room (lm_entries m).
Proof. apply refresh_loop_entries. rewrite lm_len_entries. unfold len. by rewrite Nat2Z.id. Qed.

Lemma drop_key_absent k l : k ∉ l.*1 -> drop_key k l = l.
Proof.
  induction l as [|e l IH]; intros Hk; [done|]. cbn in Hk. apply not_elem_of_cons in Hk as [? ?].
  unfold drop_key. rewrite filter_cons, decide_True by done. f_equal. by apply IH.
Qed.

Lemma drop_key_app k l l' : drop_key k (l ++ l') = drop_key k l ++ drop_key k l'.
Proof. apply filter_app. Qed.

Lemma recency_NoDup ops : NoDup (recency ops).*1.
Proof.
  unfold recency. induction ops as [|e ops IH] using rev_ind; [constructor|]. rewrite foldl_snoc, fmap_app. cbn.
  destruct (LruQueue.drop_key_keys e.1 (foldl (fun l e => drop_key e.1 l ++ [e]) [] ops)) as [Hk Hs].
  apply NoDup_app. split_and!; [by eapply sublist_NoDup|set_solver|apply NoDup_singleton].
Qed.

Lemma drop_key_length k l : NoDup l.*1 -> (length l <= length (drop_key k l) + 1)%nat.
Proof.
  induction l as [|e l IH]; intros Hnd; [cbn; lia|]. rewrite fmap_cons in Hnd. apply NoDup_cons in Hnd as [He Hnd].
  unfold drop_key. rewrite filter_cons. cbn [length]. destruct (decide (e.1 <> k)) as [Hk|Hk]; cbn [length]; [specialize (IH Hnd); unfold drop_key in IH; lia|].
  apply dec_stable in Hk as <-. fold (drop_key e.1 l). rewrite drop_key_absent by done. lia.
Qed.

Lemma last_n_app {A} n (l l' : list A) : (n <= length l')%nat -> last_n n (l ++ l') = last_n n l'.
Proof. intros ?. unfold last_n. rewrite length_app, drop_app_ge by lia. f_equal. lia. Qed.

(** Dropping all but the last entries first makes no difference. *)
Lemma last_n_insert n k v l :
  (1 <= n)%nat -> NoDup l.*1 -> last_n n (drop_key k (last_n n l) ++ [(k, v)]) = last_n n (drop_key k l ++ [(k, v)]).
Proof.
  intros Hn Hnd. unfold last_n at 2. set (d := (length l - n)%nat).
  destruct (decide (d = 0)%nat) as [->|Hd]; [by rewrite drop_0|].
  assert (drop_key k l = drop_key k (take d l) ++ drop_key k (drop d l)) as -> by (by rewrite <-drop_key_app, take_drop).
  rewrite <-app_assoc, (last_n_app n (drop_key k (take d l))); [done|].
  rewrite <-(take_drop d l), fmap_app in Hnd. apply NoDup_app in Hnd as (_ & _ & Hnd).
  pose proof (drop_key_length k _ Hnd) as Hl. rewrite length_drop in Hl. rewrite length_app. cbn. lia.
Qed.

Lemma refresh_and_insert_entries m k v :
  (refresh_and_insert m k v).1 = assoc k (lm_entries m) /\
  lm_entries (refresh_and_insert m k v).2 = last_n room (drop_key k (lm_entries m) ++ [(k, v)]).
Proof.
  unfold refresh_and_insert. destruct (lm_insert_entries m k v) as [Ht Hi]. destruct (lm_insert m k v) as [t m'].
  cbn [fst snd] in *. by rewrite refresh_entries, Hi.
Qed.

Lemma insert_all_entries ops : lm_entries (insert_all ops lm_new) = last_n room (recency ops).
Proof.
  unfold insert_all. induction ops as [|[k v] ops IH] using rev_ind; [cbn; by rewrite (lm_new_entries (M := M) (K := K) (V := V))|].
  unfold recency in *. rewrite !foldl_snoc. cbn [fst snd].
  destruct (refresh_and_insert_entries (foldl (fun m e => (refresh_and_insert m e.1 e.2).2) lm_new ops) k v) as [_ ->].
  rewrite IH. apply last_n_insert; [apply room_pos|apply recency_NoDup].
Qed.

(** What a later part of the insertions does to the recency of an earlier one. *)
Lemma recency_app ops ops' : recency (ops ++ ops') = filter (fun e => e.1 ∉ ops'.*1) (recency ops) ++ recency ops'.
Proof.
  induction ops' as [|e ops' IH] using rev_ind.
  - rewrite app_nil_r. cbn. rewrite app_nil_r. symmetry. apply filter_all_in. intros ? _. apply not_elem_of_nil.
  - unfold recency in *. rewrite app_assoc, !foldl_snoc, IH, drop_key_app, <-app_assoc. f_equal. unfold drop_key.
    rewrite list_filter_filter. apply list_filter_iff. intros x. rewrite fmap_app. cbn. rewrite not_elem_of_app, list_elem_of_singleton. naive_solver.
Qed.

Lemma recency_keys ops k : k ∈ (recency ops).*1 <-> k ∈ ops.*1.
Proof.
  induction ops as [|e ops IH] using rev_ind; [done|]. rewrite recency_app, !fmap_app, !elem_of_app, <-IH. cbn.
  rewrite list_elem_of_singleton, !list_elem_of_fmap. setoid_rewrite list_elem_of_filter. setoid_rewrite list_elem_of_singleton.
  destruct (decide (k = e.1)); naive_solver.
Qed.

Lemma recency_length ops : Z.of_nat (length (recency ops)) = distinct_keys ops.
Proof.
  unfold distinct_keys. f_equal. rewrite <-(length_fmap fst). rewrite <-(size_list_to_set (C := gset K)) by apply recency_NoDup.
  f_equal. apply set_eq. intros k. by rewrite !elem_of_list_to_set, recency_keys.
Qed.

Lemma assoc_last k v l l' : k ∉ l.*1 -> k ∉ l'.*1 -> assoc k (l ++ (k, v) :: l') = Some v.
Proof.
  intros Hl _. unfold assoc. induction l as [|[k1 v1] l IH]; cbn; [by rewrite bool_decide_true|].
  cbn in Hl. apply not_elem_of_cons in Hl as [? ?]. rewrite bool_decide_false by done. by apply IH.
Qed.

(** A key that was inserted is found with the time of its last insertion until
    [MAX_CACHE_SIZE - 1] other keys have been inserted after it, and a key that
    was not inserted is not found. *)
Theorem recent_key (pre post : list (K * V)) (k : K) (v v' : V) :
  k ∉ post.*1 ->
  (refresh_and_insert (insert_all (pre ++ (k, v) :: post) lm_new) k v').1 =
  if decide (distinct_keys post < MAX_CACHE_SIZE - 1) then Some v else None.
Proof.
  intros Hk. destruct (refresh_and_insert_entries (insert_all (pre ++ (k, v) :: post) lm_new) k v') as [-> _].
  rewrite insert_all_entries.
  destruct room_pos as [Hr Hr']. rewrite <-recency_length, <-Hr'. revert Hr. generalize room as n. intros n Hn. clear Hr'.
  rewrite (cons_middle (k, v) pre post), app_assoc, !recency_app.
  change (recency [(k, v)]) with [(k, v)]. rewrite filter_app.
  rewrite (filter_cons (fun e => e.1 ∉ post.*1) (k, v)), decide_True, filter_nil by done. rewrite <-app_assoc. cbn [app].
  set (old := filter _ (filter _ _)). set (R := recency post).
  assert (k ∉ R.*1) as HR by (unfold R; by rewrite recency_keys).
  assert (k ∉ old.*1) as Hold.
  { unfold old. intros (e & -> & [_ [He _]%list_elem_of_filter]%list_elem_of_filter)%list_elem_of_fmap. cbn in He. set_solver. }
  case_decide as Hd.
  - unfold last_n. rewrite drop_app_le by (rewrite length_app; cbn; lia). apply assoc_last; [|done].
    intros Hx. apply Hold. rewrite <-(take_drop (length (old ++ (k, v) :: R) - n) old), fmap_app. set_solver.
  - rewrite cons_middle, app_assoc, last_n_app by lia. apply LruQueue.assoc_None. unfold last_n. intros Hx. apply HR.
    rewrite <-(take_drop (length R - n) R), fmap_app. set_solver.
Qed.

Lemma unknown_key ops k v : k ∉ ops.*1 -> (refresh_and_insert (insert_all ops lm_new) k v).1 = None.
Proof.
  intros Hk. destruct (refresh_and_insert_entries (insert_all ops lm_new) k v) as [-> _]. rewrite insert_all_entries.
  apply LruQueue.assoc_None. unfold last_n. intros Hx. apply Hk, recency_keys.
  rewrite <-(take_drop (length (recency ops) - room) (recency ops)), fmap_app. set_solver.
Qed.
End RecentProps.
End RouterCache.
