(* ===== verification/Router.v ===== *)
(** * The router

    [Router<N>] of node/router/src: the peer to peer network that clients,
    provers and validators share.  The handshake (handshake.rs), sending
    (writing.rs, outbound.rs), the dispatch of the messages of a peer with its
    limits (inbound.rs) and the heartbeat that keeps the number of connections
    within bounds (heartbeat.rs).

    What a node does with a message is an interface, [Node], that the node types
    implement.  A handshake waits for the peer in the middle, so its parts before
    and after the wait are definitions of their own.  What is handed to the TCP
    stack is recorded as an action. *)

From stdpp Require Import sorting.
From S2P Require Import Prelude Bytes Network Sockets Committee Narwhal Lru StorageService Ledger Storage Locators Ready Pending SyncState BlockSync Worker Events Messages Peers RouterCache.
Import Locators.

Module Router.
Import Peers.

(** ** Constants *)

Definition MAXIMUM_POOL_SIZE : Z := 10000.
Definition PEER_SLASHING_COUNT : Z := 200.
Definition CONNECTION_ATTEMPTS_SINCE_SECS : Z := 10.
Definition MAX_CONNECTION_ATTEMPTS : Z := 10.
Definition MAX_PEERS_TO_SEND : Z := u8_max.
Definition MAXIMUM_PUZZLE_REQUESTS_PER_INTERVAL : Z := 5.
Definition MAXIMUM_BLOCK_REQUESTS_PER_INTERVAL : Z := 256.
Definition MESSAGE_LIMIT_TIME_FRAME_IN_SECS : Z := 5.
Definition MESSAGE_LIMIT : Z := 500.
Definition SYNC_LENIENCY : Z := 10.
Definition MINIMUM_NUMBER_OF_PEERS : Z := 3.
Definition MINIMUM_TIME_BETWEEN_CONNECTION_ATTEMPTS : Z := 10 * 10 ^ 9.
Definition MAXIMUM_NUMBER_OF_PEERS : Z := 21.
Definition max (a b : Z) : Z := if decide (b < a) then a else b.
Definition MEDIAN_NUMBER_OF_PEERS : Z := max (MAXIMUM_NUMBER_OF_PEERS / 2) MINIMUM_NUMBER_OF_PEERS.
Definition MAXIMUM_NUMBER_OF_PROVERS : Z := MAXIMUM_NUMBER_OF_PEERS / 4.
Definition IP_BAN_TIME_IN_SECS : Z := 300.

(** The limits that [Router] gives its pool. *)
Definition router_config (dev trusted_only : bool) (t : NodeType) (ip : SocketAddr) (max_peers : Z) : Config :=
  mk_config MAXIMUM_POOL_SIZE PEER_SLASHING_COUNT dev trusted_only t ip max_peers.

Section Router.
Context `{N : Network} {B : BlockData} {BB : BlockBytes B} {HB : HeaderBytes} {TO : TransmissionOps}.
Context `{!EqDecision Header}.
Context {Sols : Type} `{!LinkedMapOps Sols (SocketAddr * SolutionID) Z}.
Context {Txs : Type} `{!LinkedMapOps Txs (SocketAddr * TransactionID) Z}.

(** ** State *)

(** What is handed to the TCP stack: a message, with whether it was taken, and
    the request to close a connection. *)
Inductive Action :=
| Send (peer_ip : SocketAddr) (message : Messages.Message) (taken : bool)
| Close (connected_addr : SocketAddr).

Record Router := mk_router {
  pool : Pool;
  cache : RouterCache.Cache (Sols := Sols) (Txs := Txs);
  actions : list Action;
}.
Definition set_peers (p : Pool) (r : Router) : Router := mk_router p (cache r) (actions r).
Definition set_cache c (r : Router) : Router := mk_router (pool r) c (actions r).
Definition act (a : Action) (r : Router) : Router := mk_router (pool r) (cache r) (actions r ++ [a]).

(** What the router reads from outside: its parameters, the height of the
    ledger, the verification of signatures, the clock in nanoseconds, the order
    in which maps are traversed, whether the TCP stack takes a message for an
    address, and the random choices. *)
Record Env := mk_env {
  config : Config;
  bootstrap_peers : list SocketAddr;
  latest_block_height : Z;
  verify_bytes : Signature -> Address -> list Z -> bool;
  now : Z;
  order : list SocketAddr;
  unicast : SocketAddr -> Messages.Message -> bool;
  sample_peers : list ConnectedPeer -> Z -> list ConnectedPeer;
  sample_candidates : list CandidatePeer -> Z -> list CandidatePeer;
  sample_addrs : list SocketAddr -> Z -> list SocketAddr;
  choose : list SocketAddr -> option SocketAddr;
}.

(** [Router::new]. *)
Definition initial_peers (C : Config) (cached_peers trusted_peers : list SocketAddr) : gmap SocketAddr Peer :=
  let cached := if trusted_peers_only C then ∅
                else foldl (fun m a => <[a := new_candidate a false]> m) ∅ cached_peers in
  foldl (fun m a => <[a := new_candidate a true]> m) cached trusted_peers.
Definition new (C : Config) (cached_peers trusted_peers : list SocketAddr) : Router :=
  mk_router (mk_pool (initial_peers C cached_peers trusted_peers) empty_resolver ∅ ∅) RouterCache.new [].

(** [Router::is_valid_message_version]. *)
Definition is_valid_message_version (E : Env) (message_version : Z) : result bool :=
  lowest_accepted_message_version ←
    match own_type (config E) with
    | Prover | BootstrapClient => Ok Messages.latest_message_version
    | NodeValidator | Client => Messages.lowest_accepted_message_version (latest_block_height E)
    end;
  Ok (bool_decide (lowest_accepted_message_version <= message_version)).

(** [Router::update_last_seen_for_connected_peer], with [Peer::update_last_seen]. *)
Definition update_last_seen (now : Z) (p : Peer) : Peer :=
  match p with
  | Connected (mk_connected l a m t al nt v s h f _) => Connected (mk_connected l a m t al nt v s h f now)
  | _ => p
  end.
Definition update_last_seen_for_connected_peer (E : Env) (peer_ip : SocketAddr) (r : Router) : Router :=
  set_peers (set_pool (alter (update_last_seen (now E)) peer_ip (peer_pool (pool r))) (pool r)) r.

(** [PeerPoolHandling::disconnect] and [PeerPoolHandling::ip_ban_peer] of the
    router. *)
Definition disconnect (listener_addr : SocketAddr) (r : Router) : Router :=
  match resolve_to_ambiguous (pool r) listener_addr with
  | Some connected_addr => act (Close connected_addr) r
  | None => r
  end.
Definition ban (E : Env) (peer_ip : SocketAddr) (r : Router) : Router :=
  let '(close, p) := ip_ban_peer (config E) (now E) peer_ip (pool r) in
  let r := match close with Some connected_addr => act (Close connected_addr) r | None => r end in
  set_peers p r.

(** ** Sending *)

(** [Router::can_send]. *)
Definition can_send (E : Env) (peer_ip : SocketAddr) (message : Messages.Message) (r : Router) : bool * Router :=
  if negb (is_connected (pool r) peer_ip) then (false, r) else
  match message with
  | Messages.UnconfirmedSolution solution_id _ =>
      let '(seen, c) := RouterCache.insert_outbound_solution (now E) peer_ip solution_id (cache r) in
      (bool_decide (seen = None), set_cache c r)
  | Messages.UnconfirmedTransaction transaction_id _ =>
      let '(seen, c) := RouterCache.insert_outbound_transaction (now E) peer_ip transaction_id (cache r) in
      (bool_decide (seen = None), set_cache c r)
  | _ => (true, r)
  end.

(** What [Router::send] notes about a request in the cache. *)
Definition note_request (peer_ip : SocketAddr) (message : Messages.Message) (r : Router) : Router :=
  match message with
  | Messages.BlockRequest request => set_cache (RouterCache.insert_outbound_block_request peer_ip request (cache r)).2 r
  | Messages.PuzzleRequest => set_cache (RouterCache.increment_outbound_puzzle_requests peer_ip (cache r)).2 r
  | Messages.PeerRequest => set_cache (RouterCache.increment_outbound_peer_requests peer_ip (cache r)).2 r
  | _ => r
  end.

(** [Router::send]; the answer tells whether the message is queued. *)
Definition send (E : Env) (peer_ip : SocketAddr) (message : Messages.Message) (r : Router) : bool * Router :=
  let '(can, r) := can_send E peer_ip message r in
  if negb can then (false, r) else
  match resolve_to_ambiguous (pool r) peer_ip with
  | None => (false, r)
  | Some peer_addr =>
      let r := note_request peer_ip message r in
      let taken := unicast E peer_addr message in
      let r := act (Send peer_ip message taken) r in
      if taken then (true, r) else (false, disconnect peer_ip r)
  end.

(** [Router::send_ping]; the version is that of [Ping::new]. *)
Definition send_ping (E : Env) (peer_ip : SocketAddr) (block_locators : option BlockLocators) (r : Router) : bool * Router :=
  send E peer_ip (Messages.Ping Messages.latest_message_version (own_type (config E)) block_locators) r.

(** [Outbound::propagate] and [Outbound::propagate_to_validators]. *)
Definition send_all (E : Env) (message : Messages.Message) (peers : list SocketAddr) (r : Router) : Router :=
  foldl (fun r a => (send E a message r).2) r peers.
Definition propagate (E : Env) (message : Messages.Message) (excluded_peers : list SocketAddr) (r : Router) : Router :=
  send_all E message
    (listener_addr <$> filter_connected_peers (order E)
       (fun p => negb (bool_decide (listener_addr p ∈ excluded_peers))) (pool r)) r.
Definition propagate_to_validators (E : Env) (message : Messages.Message) (excluded_peers : list SocketAddr) (r : Router) : Router :=
  send_all E message
    (listener_addr <$> filter_connected_peers (order E)
       (fun p => bool_decide (node_type p = NodeValidator) && negb (bool_decide (listener_addr p ∈ excluded_peers))) (pool r)) r.

(** ** The handshake *)

(** The fields of a [ChallengeRequest] and of a [ChallengeResponse]. *)
Record Challenge := mk_challenge {
  ch_version : Z; ch_listener_port : Z; ch_node_type : NodeType; ch_address : Address; ch_nonce : Z;
  ch_snarkos_sha : option (list Z);
}.
Record Response := mk_response {
  genesis_header : Header; restrictions_id : Field; signature : Data Signature; nonce : Z;
}.

(** [Router::ensure_peer_is_allowed]. *)
Definition ensure_peer_is_allowed (E : Env) (r : Router) (listener_addr : SocketAddr) : Messages.DisconnectReason + unit :=
  if is_local_ip (config E) listener_addr then inl Messages.SelfConnect else
  if bool_decide (own_type (config E) = NodeValidator) && negb (is_trusted (pool r) listener_addr) &&
     negb (bool_decide (listener_addr ∈ bootstrap_peers E))
  then inl Messages.NoExternalPeersAllowed else
  if trusted_peers_only (config E) && negb (is_trusted (pool r) listener_addr) then inl Messages.NoExternalPeersAllowed else
  inr tt.

(** [Router::verify_challenge_request]. *)
Definition verify_challenge_request (E : Env) (r : Router) (c : Challenge) : result (option Messages.DisconnectReason) :=
  valid ← is_valid_message_version E (ch_version c);
  Ok (if negb valid then Some Messages.OutdatedClientVersion else
      if bool_decide (own_type (config E) = NodeValidator) && bool_decide (ch_node_type c = NodeValidator) &&
         is_connected_address (pool r) (ch_address c)
      then Some Messages.NoReasonGiven else None).

(** [Router::verify_challenge_response]. *)
Definition deserialize_signature (d : Data Signature) : result Signature :=
  match d with Object s => Ok s | Buffer bytes => '(s, _) ← read_signature false bytes; Ok s end.
Definition verify_challenge_response (E : Env) (peer_address : Address) (peer_node_type : NodeType) (response : Response)
    (expected_genesis_header : Header) (expected_restrictions_id : Field) (expected_nonce : Z)
    : option Messages.DisconnectReason :=
  if decide (genesis_header response <> expected_genesis_header) then Some Messages.InvalidChallengeResponse else
  if negb (bool_decide (peer_node_type = Prover)) && negb (bool_decide (own_type (config E) = Prover)) &&
     negb (bool_decide (restrictions_id response = expected_restrictions_id))
  then Some Messages.InvalidChallengeResponse else
  match deserialize_signature (signature response) with
  | Ok s =>
      if verify_bytes E s peer_address (write_u64 expected_nonce ++ write_u64 (nonce response)) then None
      else Some Messages.InvalidChallengeResponse
  | _ => Some Messages.InvalidChallengeResponse
  end.

(** The first check of [Router::handshake], for inbound connections outside of
    development mode. *)
Definition admit_connection (E : Env) (peer_addr : SocketAddr) (r : Router) : bool * Router :=
  if is_dev (config E) then (true, r) else
  if is_ip_banned (pool r) (socket_ip peer_addr) then (false, r) else
  let '(num_attempts, c) :=
    RouterCache.insert_inbound_connection (now E) (socket_ip peer_addr) CONNECTION_ATTEMPTS_SINCE_SECS (cache r) in
  let r := set_cache c r in
  if decide (MAX_CONNECTION_ATTEMPTS < num_attempts) then
    let p := pool r in
    (false, set_peers (mk_pool (peer_pool p) (resolver p) (update_ban (now E) (socket_ip peer_addr) (banned_peers p))
                        (known_peers p)) r)
  else (true, r).

(** The end of [Router::handshake], after a failure and after a success. *)
Definition handshake_failed (addr : SocketAddr) (r : Router) : Router :=
  match peer_pool (pool r) !! addr with
  | Some (Connecting l t) =>
      set_peers (set_pool (<[addr := downgrade_to_candidate addr (Connecting l t)]> (peer_pool (pool r))) (pool r)) r
  | _ => r
  end.
Definition handshake_succeeded (E : Env) (addr peer_addr : SocketAddr) (cr : Challenge) (r : Router) : Router :=
  match peer_pool (pool r) !! addr with
  | Some peer =>
      let p := pool r in
      set_peers (mk_pool
        (<[addr := upgrade_to_connected (now E) peer_addr (ch_listener_port cr) (ch_address cr) (ch_node_type cr)
                     (ch_version cr) (ch_snarkos_sha cr) ModeRouter peer]> (peer_pool p))
        (insert_peer (peer_listener peer) peer_addr (Some (ch_address cr)) (resolver p)) (banned_peers p) (known_peers p)) r
  | None => r
  end.

(** [Router::handshake_inner_initiator] up to the wait for the answer, and
    after it; a success follows when the response was sent. *)
Definition initiator_start (peer_addr : SocketAddr) (r : Router) : bool * Router :=
  match add_connecting_peer peer_addr (pool r) with
  | inl _ => (false, handshake_failed peer_addr r)
  | inr p => (true, set_peers p r)
  end.
Definition initiator_verify (E : Env) (header : Header) (expected_restrictions_id : Field) (our_nonce : Z)
    (peer_addr : SocketAddr) (response : Response) (request : Challenge) : SM Router bool := fun r =>
  match verify_challenge_response E (ch_address request) (ch_node_type request) response header expected_restrictions_id our_nonce with
  | Some _ => (Ok false, handshake_failed peer_addr r)
  | None =>
      match verify_challenge_request E r request with
      | Ok None => (Ok true, r)
      | Ok (Some _) => (Ok false, handshake_failed peer_addr r)
      | Err e => (Err e, r) | Panic e => (Panic e, r) | Deadlock => (Deadlock, r)
      end
  end.

(** [Router::handshake_inner_responder] up to the wait for the response, and
    after it. *)
Definition responder_start (E : Env) (peer_addr : SocketAddr) (request : Challenge) : SM Router bool := fun r =>
  let listener_addr := socket_from (socket_ip peer_addr) (ch_listener_port request) in
  match ensure_peer_is_allowed E r listener_addr with
  | inl _ => (Ok false, handshake_failed listener_addr r)
  | inr _ =>
      match add_connecting_peer listener_addr (pool r) with
      | inl _ => (Ok false, handshake_failed listener_addr r)
      | inr p =>
          let r := set_peers p r in
          match verify_challenge_request E r request with
          | Ok None => (Ok true, r)
          | Ok (Some _) => (Ok false, handshake_failed listener_addr r)
          | Err e => (Err e, r) | Panic e => (Panic e, r) | Deadlock => (Deadlock, r)
          end
      end
  end.
Definition responder_finish (E : Env) (header : Header) (expected_restrictions_id : Field) (our_nonce : Z)
    (peer_addr : SocketAddr) (response : Response) (request : Challenge) (r : Router) : bool * Router :=
  let listener_addr := socket_from (socket_ip peer_addr) (ch_listener_port request) in
  match verify_challenge_response E (ch_address request) (ch_node_type request) response header expected_restrictions_id our_nonce with
  | Some _ => (false, handshake_failed listener_addr r)
  | None => (true, handshake_succeeded E listener_addr peer_addr request r)
  end.

(** ** The end of a connection *)

(** [Disconnect::handle_disconnect] of the router part; tells the peer that was
    fully connected. *)
Definition peer_gone (E : Env) (peer_addr : SocketAddr) (r : Router) : option SocketAddr * Router :=
  match get_listener (resolver (pool r)) peer_addr with
  | Some peer_ip =>
      let '(was_fully_connected, p) := downgrade_peer_to_candidate (config E) peer_ip (pool r) in
      let r := set_peers p r in
      (if was_fully_connected : bool then Some peer_ip else None,
       set_cache (RouterCache.clear_peer_entries peer_ip (cache r)) r)
  | None => (None, r)
  end.

(** ** Inbound messages *)

(** What a node type decides: the handlers of [Inbound] and the queries of
    [Outbound], on the state [X] the node keeps beside its router. *)
Class Node (X : Type) := {
  is_block_synced : X -> bool;
  num_blocks_behind : X -> option Z;
  block_request : Env -> SocketAddr -> Events.BlockRequest -> SM (Router * X) bool;
  block_response : Env -> SocketAddr -> list Block -> option Z -> SM (Router * X) bool;
  (** The block locators are all that a node uses of a [Ping]. *)
  ping : Env -> SocketAddr -> option BlockLocators -> SM (Router * X) bool;
  pong : Env -> SocketAddr -> SM (Router * X) bool;
  puzzle_request : Env -> SocketAddr -> SM (Router * X) bool;
  puzzle_response : Env -> SocketAddr -> BlockHash -> Header -> SM (Router * X) bool;
  unconfirmed_solution : Env -> SocketAddr -> Data Solution -> Solution -> SM (Router * X) bool;
  unconfirmed_transaction : Env -> SocketAddr -> Data Transaction -> Transaction -> SM (Router * X) bool;
  handle_puzzle_request : Env -> Router * X -> Router * X;
}.

Context {X : Type} `{!Node X}.

(** An operation of the router, as a step of the node. *)
Definition on_router {A} (f : Router -> A * Router) : SM (Router * X) A := fun '(r, x) =>
  let '(a, r) := f r in (Ok a, (r, x)).
Definition on_cache {A} (f : RouterCache.Cache -> A * RouterCache.Cache) : SM (Router * X) A :=
  on_router (fun r => let '(a, c) := f (cache r) in (a, set_cache c r)).
Definition modify_router (f : Router -> Router) : SM (Router * X) unit := on_router (fun r => (tt, f r)).

(** [spawn_blocking(..).await?]: a panic of the task is an error. *)
Definition blocking {A} (m : SM (Router * X) A) : SM (Router * X) A := fun s =>
  match m s with (Panic e, s) => (Err e, s) | rs => rs end.
(** [match handler { true => Ok(true), false => bail!(..) }]. *)
Definition accepted (msg : string) (m : SM (Router * X) bool) : SM (Router * X) bool :=
  do b ⇐ m; if b : bool then sret true else slift (Err msg).

(** [Inbound::is_within_sync_leniency]. *)
Definition is_within_sync_leniency (x : X) : bool :=
  match num_blocks_behind x with Some num => bool_decide (num <= SYNC_LENIENCY) | None => true end.

(** [Inbound::peer_request] and [Inbound::peer_response]. *)
Definition peer_request (E : Env) (peer_ip : SocketAddr) : SM (Router * X) bool :=
  do s ⇐ sget;
  let peers := get_best_connected_peers (order E) (Some MAX_PEERS_TO_SEND) (pool s.1) in
  let peers := (fun p => (listener_addr p, last_height_seen p)) <$> peers in
  do _ ⇐ on_router (send E peer_ip (Messages.PeerResponse peers));
  sret true.
Definition peer_response (E : Env) (peers : list (SocketAddr * option Z)) : SM (Router * X) bool :=
  if decide (MAX_PEERS_TO_SEND < len peers) then sret false else
  do _ ⇐ (if decide (peers = []) then sret tt else
            modify_router (fun r => set_peers (insert_candidate_peers (config E) (now E) (order E) peers (pool r)) r));
  sret true.

(** The branches of [Inbound::inbound]. *)
Definition handle_block_request (E : Env) (peer_ip : SocketAddr) (request : Events.BlockRequest) : SM (Router * X) bool :=
  do frequency ⇐ on_cache (RouterCache.insert_inbound_block_request (now E) peer_ip);
  if decide (MAXIMUM_BLOCK_REQUESTS_PER_INTERVAL < frequency) then
    slift (Err "Peer '{peer_ip}' is not following the protocol (excessive block requests)") else
  let start_height := Events.start_height request in
  let end_height := Events.end_height request in
  if decide (end_height <= start_height) then slift (Err "Block request from '{peer_ip}' has an invalid range ({start_height}..{end_height})") else
  if decide (BlockSync.MAXIMUM_NUMBER_OF_BLOCKS < end_height - start_height) then
    slift (Err "Block request from '{peer_ip}' has an excessive range ({start_height}..{end_height})") else
  accepted "Peer '{peer_ip}' sent an invalid block request" (blocking (block_request E peer_ip request)).

Definition deserialize_blocks (d : Data (list Block)) : result (list Block) :=
  match d with Object blocks => Ok blocks | Buffer bytes => '(blocks, _) ← Events.read_blocks bytes; Ok blocks end.
Definition handle_block_response (E : Env) (peer_ip : SocketAddr) (request : Events.BlockRequest)
    (blocks : Data (list Block)) (latest_consensus_version : option Z) : SM (Router * X) bool :=
  do found ⇐ on_cache (RouterCache.remove_outbound_block_request peer_ip request);
  if negb found then slift (Err "Peer '{peer_ip}' is not following the protocol (unexpected block response)") else
  do blocks ⇐ slift (Storage.or_bail "Peer '{peer_ip}' sent an invalid block response - {error}" (deserialize_blocks blocks));
  do _ ⇐ slift (Events.ensure_response_is_well_formed blocks (Events.start_height request) (Events.end_height request));
  accepted "Peer '{peer_ip}' sent an invalid block response" (blocking (block_response E peer_ip blocks latest_consensus_version)).

Definition handle_peer_response (E : Env) (peer_ip : SocketAddr) (peers : list (SocketAddr * option Z)) : SM (Router * X) bool :=
  do s ⇐ sget;
  if negb (RouterCache.contains_outbound_peer_request peer_ip (cache s.1)) then
    slift (Err "Peer '{peer_ip}' is not following the protocol (unexpected peer response)") else
  do _ ⇐ on_cache (RouterCache.decrement_outbound_peer_requests peer_ip);
  if trusted_peers_only (config E) then slift (Err "Not accepting peer response from '{peer_ip}' (trusted peers only)") else
  accepted "Peer '{peer_ip}' sent an invalid peer response" (peer_response E peers).

Definition handle_ping (E : Env) (peer_ip : SocketAddr) (version : Z) (node_type : NodeType)
    (block_locators : option BlockLocators) : SM (Router * X) bool :=
  do valid ⇐ slift (is_valid_message_version E version);
  if negb valid then slift (Err "Dropping '{peer_ip}' on message version {} (outdated)") else
  let is_client_or_validator := bool_decide (node_type = Client) || bool_decide (node_type = NodeValidator) in
  if is_client_or_validator && bool_decide (block_locators = None) then
    slift (Err "Peer '{peer_ip}' is a {}, but no block locators were provided") else
  if bool_decide (node_type = Prover) && bool_decide (is_Some block_locators) then
    slift (Err "Peer '{peer_ip}' is a prover, but block locators were provided") else
  accepted "Peer '{peer_ip}' sent an invalid ping" (ping E peer_ip block_locators).

Definition handle_puzzle_message (E : Env) (peer_ip : SocketAddr) : SM (Router * X) bool :=
  do frequency ⇐ on_cache (RouterCache.insert_inbound_puzzle_request (now E) peer_ip);
  if decide (MAXIMUM_PUZZLE_REQUESTS_PER_INTERVAL < frequency) then
    slift (Err "Peer '{peer_ip}' is not following the protocol (excessive puzzle requests)") else
  accepted "Peer '{peer_ip}' sent an invalid puzzle request" (puzzle_request E peer_ip).

Definition deserialize_header (d : Data Header) : result Header :=
  match d with Object h => Ok h | Buffer bytes => '(h, _) ← read_block_header bytes; Ok h end.
Definition handle_puzzle_response (E : Env) (peer_ip : SocketAddr) (epoch_hash : BlockHash) (block_header : Data Header)
    : SM (Router * X) bool :=
  do s ⇐ sget;
  if negb (RouterCache.contains_outbound_puzzle_request peer_ip (cache s.1)) then
    slift (Err "Peer '{peer_ip}' is not following the protocol (unexpected puzzle response)") else
  do _ ⇐ on_cache (RouterCache.decrement_outbound_puzzle_requests peer_ip);
  do header ⇐ slift (Storage.or_bail "[PuzzleResponse] {error}" (deserialize_header block_header));
  accepted "Peer '{peer_ip}' sent an invalid puzzle response" (puzzle_response E peer_ip epoch_hash header).

Definition deserialize_solution (d : Data Solution) : result Solution :=
  match d with Object s => Ok s | Buffer bytes => read_solution bytes end.
Definition handle_unconfirmed_solution (E : Env) (peer_ip : SocketAddr) (id : SolutionID) (data : Data Solution)
    : SM (Router * X) bool :=
  do s ⇐ sget;
  if negb (is_within_sync_leniency s.2) then sret true else
  do seen ⇐ on_cache (RouterCache.insert_inbound_solution (now E) peer_ip id);
  if bool_decide (is_Some seen) then sret true else
  do solution ⇐ slift (Storage.or_bail "[UnconfirmedSolution] {error}" (deserialize_solution data));
  if decide (id <> solution_id solution) then
    slift (Err "Peer '{peer_ip}' is not following the 'UnconfirmedSolution' protocol") else
  accepted "Peer '{peer_ip}' sent an invalid unconfirmed solution" (unconfirmed_solution E peer_ip data solution).

Definition deserialize_transaction (d : Data Transaction) : result Transaction :=
  match d with Object t => Ok t | Buffer bytes => read_transaction bytes end.
Definition handle_unconfirmed_transaction (E : Env) (peer_ip : SocketAddr) (id : TransactionID) (data : Data Transaction)
    : SM (Router * X) bool :=
  do s ⇐ sget;
  if negb (is_within_sync_leniency s.2) then sret true else
  do seen ⇐ on_cache (RouterCache.insert_inbound_transaction (now E) peer_ip id);
  if bool_decide (is_Some seen) then sret true else
  do transaction ⇐ slift (Storage.or_bail "[UnconfirmedTransaction] {error}" (deserialize_transaction data));
  if decide (id <> transaction_id transaction) then
    slift (Err "Peer '{peer_ip}' is not following the 'UnconfirmedTransaction' protocol") else
  accepted "Peer '{peer_ip}' sent an invalid unconfirmed transaction" (unconfirmed_transaction E peer_ip data transaction).

Definition dispatch (E : Env) (peer_ip : SocketAddr) (message : Messages.Message) : SM (Router * X) bool :=
  match message with
  | Messages.BlockRequest request => handle_block_request E peer_ip request
  | Messages.BlockResponse request blocks v => handle_block_response E peer_ip request blocks v
  | Messages.ChallengeRequest _ _ _ _ _ _ | Messages.ChallengeResponse _ _ _ _ =>
      slift (Err "Peer '{peer_ip}' is not following the protocol")
  | Messages.Disconnect _ => do _ ⇐ modify_router (disconnect peer_ip); sret false
  | Messages.PeerRequest => accepted "Peer '{peer_ip}' sent an invalid peer request" (peer_request E peer_ip)
  | Messages.PeerResponse peers => handle_peer_response E peer_ip peers
  | Messages.Ping version node_type block_locators => handle_ping E peer_ip version node_type block_locators
  | Messages.Pong _ => accepted "Peer '{peer_ip}' sent an invalid pong" (pong E peer_ip)
  | Messages.PuzzleRequest => handle_puzzle_message E peer_ip
  | Messages.PuzzleResponse epoch_hash header => handle_puzzle_response E peer_ip epoch_hash header
  | Messages.UnconfirmedSolution id data => handle_unconfirmed_solution E peer_ip id data
  | Messages.UnconfirmedTransaction id data => handle_unconfirmed_transaction E peer_ip id data
  end.

(** [Inbound::inbound]. *)
Definition inbound (E : Env) (peer_addr : SocketAddr) (message : Messages.Message) : SM (Router * X) bool :=
  do s ⇐ sget;
  match get_listener (resolver (pool s.1)) peer_addr with
  | None => sret false
  | Some peer_ip =>
      do num_messages ⇐ on_cache (RouterCache.insert_inbound_message (now E) peer_ip MESSAGE_LIMIT_TIME_FRAME_IN_SECS);
      if decide (MESSAGE_LIMIT < num_messages) then
        slift (Err "Dropping '{peer_ip}' for spamming messages (num_messages = {num_messages})") else
      do _ ⇐ modify_router (update_last_seen_for_connected_peer E peer_ip);
      dispatch E peer_ip message
  end.

(** [process_message_inner] of the node types: a peer that violates the protocol
    is told so and disconnected. *)
Definition drop_peer (E : Env) (reason : Messages.DisconnectReason) (peer_ip : SocketAddr) (r : Router) : Router :=
  disconnect peer_ip (send E peer_ip (Messages.Disconnect reason) r).2.
Definition process_message (E : Env) (peer_addr : SocketAddr) (message : Messages.Message) (s : Router * X) : Router * X :=
  let '(res, (r, x)) := inbound E peer_addr message s in
  match res with
  | Err _ =>
      match get_listener (resolver (pool r)) peer_addr with
      | Some peer_ip => (drop_peer E Messages.ProtocolViolation peer_ip r, x)
      | None => (r, x)
      end
  | _ => (r, x)
  end.

(** ** The heartbeat *)

(** The predicate of [Heartbeat::get_removable_peers]; looking at the requests
    of a peer forgets the old ones. *)
Definition is_removable (E : Env) (synced : bool) (peer : ConnectedPeer) (c : RouterCache.Cache) : bool * RouterCache.Cache (Sols := Sols) (Txs := Txs) :=
  if trusted peer then (false, c) else
  if decide (node_type peer = BootstrapClient) then (false, c) else
  let '(syncing_from_us, c) := RouterCache.contains_inbound_block_request (now E) (listener_addr peer) c in
  if syncing_from_us : bool then (false, c) else
  (synced || bool_decide (RouterCache.num_outbound_block_requests (listener_addr peer) c = 0), c).
Fixpoint filter_removable (E : Env) (synced : bool) (peers : list ConnectedPeer) (c : RouterCache.Cache)
    : list ConnectedPeer * RouterCache.Cache :=
  match peers with
  | [] => ([], c)
  | peer :: peers =>
      let '(keep, c) := is_removable E synced peer c in
      let '(rest, c) := filter_removable E synced peers c in
      (if keep : bool then peer :: rest else rest, c)
  end.
Definition seen_before (a b : ConnectedPeer) : Prop := last_seen a <= last_seen b.
#[global] Instance seen_before_dec : RelDecision seen_before.
Proof. unfold seen_before. intros a b. apply _. Defined.

(** [Heartbeat::get_removable_peers]. *)
Definition get_removable_peers (E : Env) (synced : bool) (r : Router) : list ConnectedPeer * Router :=
  let '(peers, c) := filter_removable E synced (filter_connected_peers (order E) (fun _ => true) (pool r)) (cache r) in
  (merge_sort seen_before peers, set_cache c r).

(** [Heartbeat::remove_oldest_connected_peer]. *)
Definition remove_oldest_connected_peer (E : Env) (synced : bool) (r : Router) : Router :=
  if trusted_peers_only (config E) then r else
  if decide (number_of_connected_peers (pool r) <= MINIMUM_NUMBER_OF_PEERS) then r else
  let '(peers, r) := get_removable_peers E synced r in
  match head peers with
  | Some oldest => drop_peer E Messages.PeerRefresh (listener_addr oldest) r
  | None => r
  end.

(** The numbers of [Heartbeat::handle_connected_peers]: the surplus provers, and
    the surplus clients and validators. *)
Definition surplus (num_connected num_connected_provers : Z) : Z * Z :=
  let num_surplus_peers := saturating_sub num_connected MAXIMUM_NUMBER_OF_PEERS in
  let num_surplus_provers := saturating_sub num_connected_provers MAXIMUM_NUMBER_OF_PROVERS in
  let num_remaining_provers := saturating_sub num_connected_provers num_surplus_provers in
  (num_surplus_provers, saturating_sub num_surplus_peers num_remaining_provers).

Definition is_prover (p : ConnectedPeer) : bool := bool_decide (node_type p = Prover).

(** The peers to disconnect from. *)
Definition surplus_to_disconnect (E : Env) (synced : bool) (r : Router) : list ConnectedPeer * Router :=
  let num_connected_provers := len (filter_connected_peers (order E) is_prover (pool r)) in
  let '(num_surplus_provers, num_surplus_clients_validators) := surplus (number_of_connected_peers (pool r)) num_connected_provers in
  if decide (0 < num_surplus_provers \/ 0 < num_surplus_clients_validators) then
    let provers_to_disconnect :=
      sample_peers E (filter_connected_peers (order E) (fun p => is_prover p && negb (trusted p)) (pool r)) num_surplus_provers in
    let '(removable, r) := get_removable_peers E synced r in
    let peers_to_disconnect :=
      take (Z.to_nat num_surplus_clients_validators) (filter (fun p => is_prover p = false) removable) in
    (peers_to_disconnect ++ provers_to_disconnect, r)
  else ([], r).

(** The first half of [Heartbeat::handle_connected_peers]. *)
Definition drop_peers (E : Env) (reason : Messages.DisconnectReason) (peers : list ConnectedPeer) (r : Router) : Router :=
  foldl (fun r p => drop_peer E reason (listener_addr p) r) r peers.
Definition disconnect_surplus (E : Env) (synced : bool) (r : Router) : Router :=
  let '(peers, r) := surplus_to_disconnect E synced r in
  if decide (own_type (config E) = Prover) then r else drop_peers E Messages.TooManyPeers peers r.

(** [Heartbeat::try_connect_to_peers], without the connection tasks it waits
    for. *)
Definition is_due (E : Env) (c : CandidatePeer) : bool :=
  match c_last_connection_attempt c with
  | Some last_connection_attempt => negb (bool_decide (now E - last_connection_attempt < MINIMUM_TIME_BETWEEN_CONNECTION_ATTEMPTS))
  | None => true
  end.
Definition try_connect (E : Env) (r : Router) (a : SocketAddr) : Router :=
  match connect (config E) (now E) a (pool r) with inr p => set_peers p r | inl _ => r end.
Definition try_connect_to_peers (E : Env) (peers : list CandidatePeer) (r : Router) : Router :=
  foldl (try_connect E) r (c_listener_addr <$> filter (fun c => is_due E c = true) peers).

(** The second half of [Heartbeat::handle_connected_peers]. *)
Definition div_ceil (a b : Z) : Z := (a + b - 1) / b.
Definition is_higher (E : Env) (c : CandidatePeer) : bool :=
  match c_last_height_seen c with Some h => bool_decide (latest_block_height E < h) | None => false end.
Definition candidates_to_connect (E : Env) (num_deficient : Z) (r : Router) : list CandidatePeer :=
  let candidates := get_candidate_peers (order E) (pool r) in
  let higher_peers := filter (fun c => is_higher E c = true) candidates in
  let other_peers := filter (fun c => is_higher E c = false) candidates in
  let num_higher_peers := Z.min (div_ceil num_deficient 2) (len higher_peers) in
  sample_candidates E higher_peers num_higher_peers ++
  sample_candidates E other_peers (saturating_sub num_deficient num_higher_peers).
Definition connect_deficient (E : Env) (r : Router) : Router :=
  let num_deficient := saturating_sub MEDIAN_NUMBER_OF_PEERS (number_of_connected_peers (pool r)) in
  if decide (0 < num_deficient) then
    let r := try_connect_to_peers E (candidates_to_connect E num_deficient r) r in
    if trusted_peers_only (config E) then r else
    send_all E Messages.PeerRequest (sample_addrs E (connected_peers (order E) (pool r)) 3) r
  else r.
Definition handle_connected_peers (E : Env) (synced : bool) (r : Router) : Router :=
  connect_deficient E (disconnect_surplus E synced r).

(** [Heartbeat::handle_bootstrap_peers]. *)
Definition handle_bootstrap_peers (E : Env) (r : Router) : Router :=
  if trusted_peers_only (config E) then r else
  let connected_bootstrap :=
    filter_connected_peers (order E) (fun p => bool_decide (node_type p = BootstrapClient)) (pool r) in
  let candidate_bootstrap := filter (fun a => a ∉ (listener_addr <$> connected_bootstrap)) (bootstrap_peers E) in
  let r :=
    if decide (connected_bootstrap = []) then
      match choose E candidate_bootstrap with Some a => try_connect E r a | None => r end
    else r in
  let num_surplus := saturating_sub (len connected_bootstrap) 1 in
  if decide (0 < num_surplus) then
    drop_peers E Messages.TooManyPeers (sample_peers E connected_bootstrap num_surplus) r
  else r.

(** [Heartbeat::handle_trusted_peers], with
    [PeerPoolHandling::get_trusted_candidate_peers]. *)
Definition get_trusted_candidate_peers (E : Env) (r : Router) : list CandidatePeer :=
  filter (fun c => c_trusted c = true) (get_candidate_peers (order E) (pool r)).
Definition handle_trusted_peers (E : Env) (r : Router) : Router :=
  try_connect_to_peers E (get_trusted_candidate_peers E r) r.

(** [Heartbeat::handle_banned_ips]. *)
Definition handle_banned_ips (E : Env) (r : Router) : Router :=
  let p := pool r in
  set_peers (mk_pool (peer_pool p) (resolver p) (remove_old_bans (now E) IP_BAN_TIME_IN_SECS (banned_peers p)) (known_peers p)) r.

(** [Heartbeat::heartbeat], without the log; the assertions on the constants hold. *)
Definition safety_check_minimum_number_of_peers : bool :=
  bool_decide (1 <= MINIMUM_NUMBER_OF_PEERS) && bool_decide (MINIMUM_NUMBER_OF_PEERS <= MAXIMUM_NUMBER_OF_PEERS) &&
  bool_decide (MINIMUM_NUMBER_OF_PEERS <= MEDIAN_NUMBER_OF_PEERS) && bool_decide (MEDIAN_NUMBER_OF_PEERS <= MAXIMUM_NUMBER_OF_PEERS) &&
  bool_decide (MAXIMUM_NUMBER_OF_PROVERS <= MAXIMUM_NUMBER_OF_PEERS).
Definition heartbeat (E : Env) : SM (Router * X) unit :=
  if negb safety_check_minimum_number_of_peers then slift (Panic "The minimum number of peers must be at least 1.") else
  do s ⇐ sget;
  let synced := is_block_synced s.2 in
  do _ ⇐ modify_router (remove_oldest_connected_peer E synced);
  do _ ⇐ modify_router (handle_connected_peers E synced);
  do _ ⇐ modify_router (handle_bootstrap_peers E);
  do _ ⇐ modify_router (handle_trusted_peers E);
  do _ ⇐ smodify (handle_puzzle_request E);
  modify_router (handle_banned_ips E).

End Router.
End Router.
