(* ===== verification/Ping.v ===== *)
(** * Pings

    [Ping<N>] of node/sync/src/ping.rs: when each peer is pinged next, and the
    task that sends the pings.  The map of times is a [BTreeMap<Instant, _>], with
    the times in nanoseconds, so that it holds one peer for a time. *)

From S2P Require Import Prelude Bytes Network Sockets Committee Narwhal Lru StorageService Ledger Storage Locators Ready Pending SyncState BlockSync Worker Events Messages Peers RouterCache Router.
Import Locators.

Module Ping.
Import Peers Router.

Definition MAX_PING_INTERVAL : Z := 20 * 10 ^ 9.

Section Ping.
Context `{N : Network} {B : BlockData} {HB : HeaderBytes}.
Context {Sols : Type} `{!LinkedMapOps Sols (SocketAddr * SolutionID) Z}.
Context {Txs : Type} `{!LinkedMapOps Txs (SocketAddr * TransactionID) Z}.

Abbreviation Router := (Router.Router (Sols := Sols) (Txs := Txs)).

(** [PingInner], and the permit of [notify]. *)
Record Ping := mk_ping {
  next_ping : gmap Z SocketAddr;
  block_locators : option BlockLocators;
  notified : bool;
}.

(** [Ping::new] and [Ping::new_nosync]. *)
Definition new (block_locators : BlockLocators) : Ping := mk_ping ∅ (Some block_locators) false.
Definition new_nosync : Ping := mk_ping ∅ None false.

(** [Ping::on_pong_received]. *)
Definition on_pong_received (now : Z) (peer_ip : SocketAddr) (p : Ping) : Ping :=
  mk_ping (<[now + MAX_PING_INTERVAL := peer_ip]> (next_ping p)) (block_locators p) (notified p).

(** [Ping::on_peer_connected]. *)
Definition on_peer_connected (E : Env) (peer_ip : SocketAddr) (p : Ping) (r : Router) : Router :=
  (send_ping E peer_ip (block_locators p) r).2.

(** [Ping::update_block_locators]. *)
Definition update_block_locators (locators : BlockLocators) (p : Ping) : Ping :=
  mk_ping (next_ping p) (Some locators) true.

(** [Ping::ping_expired_peers]: a turn of the loop removes an entry, so as many
    turns as there are entries are enough. *)
Fixpoint expired_loop (E : Env) (fuel : nat) (s : Router * Ping) : Router * Ping :=
  let '(r, p) := s in
  match btree_first (next_ping p) with
  | None => s
  | Some (time, peer_ip) =>
      if decide (now E < time) then s else
      match fuel with
      | O => s
      | S fuel =>
          let r := (send_ping E peer_ip (block_locators p) r).2 in
          expired_loop E fuel (r, mk_ping (delete time (next_ping p)) (block_locators p) (notified p))
      end
  end.
Definition ping_expired_peers (E : Env) (s : Router * Ping) : Router * Ping :=
  expired_loop E (size (next_ping s.2)) s.

(** [Ping::ping_all_peers]. *)
Definition ping_all_peers (E : Env) (s : Router * Ping) : Router * Ping :=
  let '(r, p) := s in
  let peers := (btree_iter (next_ping p)).*2 in
  (foldl (fun r peer_ip => (send_ping E peer_ip (block_locators p) r).2) r peers,
   mk_ping ∅ (block_locators p) (notified p)).

(** A turn of [Ping::ping_task] up to the wait, with how long it waits, and what
    the wait tells: a permit of [notify] means a new block. *)
Definition ping_turn (E : Env) (new_block : bool) (s : Router * Ping) : Z * (Router * Ping) :=
  let s := if new_block then ping_all_peers E s else ping_expired_peers E s in
  (match btree_first (next_ping s.2) with
   | Some (time, _) => Z.max 0 (time - now E)
   | None => MAX_PING_INTERVAL
   end, s).
Definition ping_wait (s : Router * Ping) : bool * (Router * Ping) :=
  let '(r, p) := s in (notified p, (r, mk_ping (next_ping p) (block_locators p) false)).
End Ping.
End Ping.
