(* ===== verification/Nodes.v ===== *)
(** * The node types

    The clients, provers and validators of node/src: what each does with the
    messages of the router ([Inbound]), when a peer connects ([OnConnect]) and
    when it is gone ([Disconnect]), and the queues in which a client verifies the
    solutions and transactions it passes on.

    The ledger of a node is an argument of its operations, since it changes
    between them. *)

From S2P Require Import Prelude Bytes Network Sockets Committee Narwhal Lru StorageService Ledger Storage Locators Ready Pending SyncState BlockSync Worker Events Messages Peers RouterCache Router Ping.
Import Locators.

Module Nodes.
Import Peers Router.

Section Nodes.
Context `{N : Network} {B : BlockData} {BB : BlockBytes B} {HB : HeaderBytes} {TO : TransmissionOps}.
Context `{!EqDecision Header}.
Context {Sols : Type} `{!LinkedMapOps Sols (SocketAddr * SolutionID) Z}.
Context {Txs : Type} `{!LinkedMapOps Txs (SocketAddr * TransactionID) Z}.

Abbreviation Router := (Router.Router (Sols := Sols) (Txs := Txs)).

(** What the handlers read from the ledger (snarkVM/ledger). *)
Record NodeLedger := mk_node_ledger {
  chain : ChainView;
  get_blocks : Z -> Z -> result (list Block);
  latest_epoch_hash : result BlockHash;
  latest_header : Header;
}.

(** ** Shared handlers *)

Section Shared.
Context {X : Type}.

(** [block_request] of clients and validators. *)
Definition answer_block_request (L : NodeLedger) (E : Env) (peer_ip : SocketAddr) (request : Events.BlockRequest)
    : SM (Router * X) bool :=
  match CONSENSUS_VERSION (saturating_sub (Events.end_height request) 1) with
  | inl _ => sret false
  | inr latest_consensus_version =>
      match get_blocks L (Events.start_height request) (Events.end_height request) with
      | Ok blocks =>
          do _ ⇐ on_router (send E peer_ip (Messages.BlockResponse request (Object blocks) (Some latest_consensus_version)));
          sret true
      | Err _ => sret false
      | Panic e => slift (Panic e)
      | Deadlock => slift Deadlock
      end
  end.

(** [puzzle_request] of clients and validators. *)
Definition answer_puzzle_request (L : NodeLedger) (E : Env) (peer_ip : SocketAddr) : SM (Router * X) bool :=
  match latest_epoch_hash L with
  | Ok epoch_hash =>
      do _ ⇐ on_router (send E peer_ip (Messages.PuzzleResponse epoch_hash (Object (latest_header L))));
      sret true
  | Err _ => sret false
  | Panic e => slift (Panic e)
  | Deadlock => slift Deadlock
  end.

(** The end of [ping]. *)
Definition answer_ping (E : Env) (peer_ip : SocketAddr) : SM (Router * X) bool :=
  do _ ⇐ on_router (send E peer_ip (Messages.Pong (Some false))); sret true.

(** [OnConnect::on_connect]; a client asks a bootstrap client for its peers, the
    other nodes let it be. *)
Definition on_connect (ask_bootstrap : bool) (E : Env) (peer_addr : SocketAddr) (p : Ping.Ping) (r : Router) : Router :=
  match get_listener (resolver (pool r)) peer_addr with
  | Some listener_addr =>
      match get_connected_peer (pool r) listener_addr with
      | Some peer =>
          if decide (node_type peer = BootstrapClient) then
            if ask_bootstrap then (send E listener_addr Messages.PeerRequest r).2 else r
          else Ping.on_peer_connected E listener_addr p r
      | None => r
      end
  | None => r
  end.

End Shared.

(** ** The client *)

(** [TransactionContents] and [SolutionContents]. *)
Abbreviation TransactionContents := (SocketAddr * Data Transaction * Transaction)%type.
Abbreviation SolutionContents := (SocketAddr * Data Solution * Solution)%type.
Context {SQ : Type} `{!LruQueueOps SQ SolutionID SolutionContents}.
Context {TQ : Type} `{!LruQueueOps TQ TransactionID TransactionContents}.

Record Client := mk_client {
  sync : BlockSync.BlockSync;
  ping_state : Ping.Ping;
  solution_queue : SQ;
  deploy_queue : TQ;
  execute_queue : TQ;
  num_verifying_solutions : Z;
  num_verifying_deploys : Z;
  num_verifying_executions : Z;
}.
Definition CAPACITY_FOR_DEPLOYMENTS : Z := Z.shiftl 1 10.
Definition CAPACITY_FOR_EXECUTIONS : Z := Z.shiftl 1 10.
Definition CAPACITY_FOR_SOLUTIONS : Z := Z.shiftl 1 10.
Definition MAX_PARALLEL_SOLUTION_VERIFICATIONS : Z := 20.

(** The fields of [Client::new]. *)
Definition new_client (bs : BlockSync.BlockSync) (locators : BlockLocators) : Client :=
  mk_client bs (Ping.new locators) (lq_new CAPACITY_FOR_SOLUTIONS) (lq_new CAPACITY_FOR_DEPLOYMENTS)
    (lq_new CAPACITY_FOR_EXECUTIONS) 0 0 0.

Definition set_client_sync (bs : BlockSync.BlockSync) (c : Client) : Client :=
  let '(mk_client _ p s d e ns nd ne) := c in mk_client bs p s d e ns nd ne.
Definition set_client_ping (p : Ping.Ping) (c : Client) : Client :=
  let '(mk_client bs _ s d e ns nd ne) := c in mk_client bs p s d e ns nd ne.
Definition set_solution_queue (s : SQ) (c : Client) : Client :=
  let '(mk_client bs p _ d e ns nd ne) := c in mk_client bs p s d e ns nd ne.
Definition set_deploy_queue (d : TQ) (c : Client) : Client :=
  let '(mk_client bs p s _ e ns nd ne) := c in mk_client bs p s d e ns nd ne.
Definition set_execute_queue (e : TQ) (c : Client) : Client :=
  let '(mk_client bs p s d _ ns nd ne) := c in mk_client bs p s d e ns nd ne.

(** A step of the state beside the router. *)
Definition on_node {X A} (f : X -> A * X) : SM (Router * X) A := fun '(r, x) => let '(a, x) := f x in (Ok a, (r, x)).

(** [Client::block_response]. *)
Definition client_block_response (L : NodeLedger) (E : Env) (peer_ip : SocketAddr) (blocks : list Block)
    (latest_consensus_version : option Z) : SM (Router * Client) bool :=
  do res ⇐ on_node (fun c =>
    let '(res, bs) := BlockSync.insert_block_responses (chain L) peer_ip blocks latest_consensus_version (sync c) in
    (res, set_client_sync bs c));
  match res with
  | inr _ => sret true
  | inl e =>
      if BlockSync.is_benign e then sret true else
      if BlockSync.is_invalid_consensus_version e then do _ ⇐ modify_router (ban E peer_ip); sret false
      else sret true
  end.

(** [Client::ping]; updating the locators of a peer does not fail. *)
Definition set_last_height_seen (h : option Z) (p : ConnectedPeer) : ConnectedPeer :=
  let '(mk_connected l a m t al nt v s _ f ls) := p in mk_connected l a m t al nt v s h f ls.
Definition client_ping (L : NodeLedger) (o : Oracle) (E : Env) (peer_ip : SocketAddr) (block_locators : option BlockLocators)
    : SM (Router * Client) bool :=
  do _ ⇐ match block_locators with
         | Some ls =>
             do _ ⇐ on_node (fun c => (tt, set_client_sync (BlockSync.update_peer_locators (chain L) o (now E) peer_ip ls (sync c)) c));
             modify_router (fun r =>
               set_peers (update_connected_peer peer_ip (set_last_height_seen (Some (latest_locator_height ls))) (pool r)).2 r)
         | None => sret tt
         end;
  answer_ping E peer_ip.

(** [Client::pong]. *)
Definition client_pong (E : Env) (peer_ip : SocketAddr) : SM (Router * Client) bool :=
  on_node (fun c => (true, set_client_ping (Ping.on_pong_received (now E) peer_ip (ping_state c)) c)).

(** [Client::unconfirmed_solution] and [Client::unconfirmed_transaction]. *)
Definition enqueue {Q K V} `{!LruQueueOps Q K V} (k : K) (v : V) (q : Q) : Q :=
  if lq_contains q k then q else (lq_put q k v).2.
Definition client_unconfirmed_solution (peer_ip : SocketAddr) (serialized : Data Solution) (solution : Solution)
    : SM (Router * Client) bool :=
  on_node (fun c => (true, set_solution_queue (enqueue (solution_id solution) (peer_ip, serialized, solution) (solution_queue c)) c)).
Definition client_unconfirmed_transaction (peer_ip : SocketAddr) (serialized : Data Transaction) (transaction : Transaction)
    : SM (Router * Client) bool :=
  on_node (fun c => (true,
    if is_fee transaction then c else
    if is_execute transaction
    then set_execute_queue (enqueue (transaction_id transaction) (peer_ip, serialized, transaction) (execute_queue c)) c
    else set_deploy_queue (enqueue (transaction_id transaction) (peer_ip, serialized, transaction) (deploy_queue c)) c)).

(** [Inbound], [Outbound] and [Heartbeat] for [Client]. *)
Definition client_node (L : NodeLedger) (o : Oracle) : Node (Sols := Sols) (Txs := Txs) Client := {|
  is_block_synced c := SyncState.is_block_synced (BlockSync.sync_state (sync c));
  num_blocks_behind c := SyncState.num_blocks_behind (BlockSync.sync_state (sync c));
  block_request := answer_block_request L;
  block_response := client_block_response L;
  ping := client_ping L o;
  pong := client_pong;
  puzzle_request := answer_puzzle_request L;
  puzzle_response _ _ _ _ := sret false;
  unconfirmed_solution _ := client_unconfirmed_solution;
  unconfirmed_transaction _ := client_unconfirmed_transaction;
  handle_puzzle_request _ s := s;
|}.

(** [Client::handle_disconnect]. *)
Definition client_handle_disconnect (E : Env) (peer_addr : SocketAddr) (s : Router * Client) : Router * Client :=
  let '(gone, r) := peer_gone E peer_addr s.1 in
  (r, match gone with
      | Some peer_ip => set_client_sync (BlockSync.remove_peer (now E) peer_ip (sync s.2)) s.2
      | None => s.2
      end).

(** *** Verification *)

(** What a client asks its ledger about a solution or a transaction
    (snarkVM/ledger, snarkVM/synthesizer); a check answers or fails with an error. *)
Record Checks := mk_checks {
  current_epoch_hash : string + BlockHash;
  latest_proof_target : Z;
  is_solution_limit_reached : Solution -> bool;
  puzzle_check_solution : Solution -> BlockHash -> Z -> string + unit;
  contains_state_root : Field -> string + bool;
  fee_state_root : Transaction -> option Field;
  execution_state_root : Transaction -> option Field;
  check_transaction_basic : Transaction -> string + unit;
}.

(** [VM::MAX_PARALLEL_DEPLOY_VERIFICATIONS] and
    [VM::MAX_PARALLEL_EXECUTE_VERIFICATIONS] (snarkVM/synthesizer). *)
Definition MAX_PARALLEL_DEPLOY_VERIFICATIONS : Z := 5.
Definition MAX_PARALLEL_EXECUTE_VERIFICATIONS : Z := 1000.

(** The inner loop of the verification tasks: entries are taken from the queue,
    the least recently used one first, until it is empty or the counter is full.
    A turn takes an entry, so as many turns as there are entries are enough.  The
    turns are taken without an interruption; the tasks for deployments and
    executions lock the queue for each turn anew. *)
Fixpoint start_verifying {Q K V} `{!LruQueueOps Q K V} (max : Z) (fuel : nat) (q : Q) (counter : Z) : list V * Q * Z :=
  match fuel with
  | O => ([], q, counter)
  | S fuel =>
      match lq_pop_lru q with
      | (None, q) => ([], q, counter)
      | (Some (_, v), q) =>
          let previous_counter := counter in
          let counter := counter + 1 in
          if decide (max <= previous_counter + 1) then ([v], q, counter) else
          let '(vs, q, counter) := start_verifying max fuel q counter in (v :: vs, q, counter)
      end
  end.
(** A turn of the outer loop: the verifications that are started. *)
Definition verify_turn {Q K V} `{!LruQueueOps Q K V} (max : Z) (q : Q) (counter : Z) : list V * Q * Z :=
  let queue_is_empty := bool_decide (lq_len q = 0) in
  let counter_is_full := bool_decide (max <= counter) in
  if queue_is_empty || counter_is_full then ([], q, counter)
  else start_verifying max (Z.to_nat (lq_len q)) q counter.

(** The turns of [Client::initialize_solution_verification],
    [Client::initialize_deploy_verification] and
    [Client::initialize_execute_verification]. *)
Definition solution_turn (c : Client) : list SolutionContents * Client :=
  let '(mk_client bs p s d e ns nd ne) := c in
  let '(vs, s, ns) := verify_turn MAX_PARALLEL_SOLUTION_VERIFICATIONS s ns in (vs, mk_client bs p s d e ns nd ne).
Definition deploy_turn (c : Client) : list TransactionContents * Client :=
  let '(mk_client bs p s d e ns nd ne) := c in
  let '(vs, d, nd) := verify_turn MAX_PARALLEL_DEPLOY_VERIFICATIONS d nd in (vs, mk_client bs p s d e ns nd ne).
Definition execute_turn (c : Client) : list TransactionContents * Client :=
  let '(mk_client bs p s d e ns nd ne) := c in
  let '(vs, e, ne) := verify_turn MAX_PARALLEL_EXECUTE_VERIFICATIONS e ne in (vs, mk_client bs p s d e ns nd ne).

(** The verification of a solution; that the prover reached its limit is only
    logged. *)
Definition verify_solution (K : Checks) (E : Env) (v : SolutionContents) (s : Router * Client) : Router * Client :=
  let '(peer_ip, serialized, solution) := v in
  let '(r, mk_client bs p sq d e ns nd ne) := s in
  let r :=
    match current_epoch_hash K with
    | inr epoch_hash =>
        let limit_reached := is_solution_limit_reached K solution in
        match puzzle_check_solution K solution epoch_hash (latest_proof_target K) with
        | inr _ => propagate E (Messages.UnconfirmedSolution (solution_id solution) serialized) [peer_ip] r
        | inl _ => r
        end
    | inl _ => r
    end in
  (r, mk_client bs p sq d e (ns - 1) nd ne).

(** The verification of a deployment and of an execution: a transaction with a
    state root that the ledger does not have is passed on as it is. *)
Definition check_and_pass (K : Checks) (E : Env) (state_roots : list Field) (v : TransactionContents) (r : Router) : Router :=
  let '(peer_ip, serialized, transaction) := v in
  let message := Messages.UnconfirmedTransaction (transaction_id transaction) serialized in
  if forallb (fun root => match contains_state_root K root with inr found => found | inl _ => false end) state_roots then
    match check_transaction_basic K transaction with
    | inr _ => propagate E message [peer_ip] r
    | inl _ => r
    end
  else propagate E message [peer_ip] r.
Definition verify_deployment (K : Checks) (E : Env) (v : TransactionContents) (s : Router * Client) : Router * Client :=
  let '(r, mk_client bs p sq d e ns nd ne) := s in
  let r := match fee_state_root K v.2 with
           | Some state_root => check_and_pass K E [state_root] v r
           | None => r
           end in
  (r, mk_client bs p sq d e ns (nd - 1) ne).
Definition verify_execution (K : Checks) (E : Env) (v : TransactionContents) (s : Router * Client) : Router * Client :=
  let '(r, mk_client bs p sq d e ns nd ne) := s in
  let state_roots := option_list (execution_state_root K v.2) ++ option_list (fee_state_root K v.2) in
  (check_and_pass K E state_roots v r, mk_client bs p sq d e ns nd (ne - 1)).

(** [Client::try_advancing_block_synchronization]. *)
Definition client_advance {St} (ops : LedgerOps St) (now : Z) (st : St) (c : Client) : St * Client :=
  let '(res, st, bs) := BlockSync.try_advancing_block_synchronization ops now st (sync c) in
  let c := set_client_sync bs c in
  match res with
  | Ok true =>
      match get_block_locators (BlockSync.latest_block_height (view ops st)) (BlockSync.get_block_hash (view ops st)) with
      | Ok locators => (st, set_client_ping (Ping.update_block_locators locators (ping_state c)) c)
      | _ => (st, c)
      end
  | _ => (st, c)
  end.

(** ** The prover *)

(** What a prover reads of a header, and the check of a solution
    (snarkVM/ledger/puzzle). *)
Context (proof_target : Header -> Z) (check_solution : Solution -> BlockHash -> Z -> result unit).

Record Prover := mk_prover {
  prover_sync : BlockSync.BlockSync;
  prover_ping_state : Ping.Ping;
  latest_epoch : option BlockHash;
  latest_block_header : option Header;
}.
Definition set_prover_sync (bs : BlockSync.BlockSync) (p : Prover) : Prover :=
  mk_prover bs (prover_ping_state p) (latest_epoch p) (latest_block_header p).

(** [Prover::ping], [Prover::pong] and [Prover::puzzle_response]. *)
Definition prover_ping (L : NodeLedger) (o : Oracle) (E : Env) (peer_ip : SocketAddr) (block_locators : option BlockLocators)
    : SM (Router * Prover) bool :=
  do _ ⇐ match block_locators with
         | Some ls =>
             on_node (fun p => (tt, set_prover_sync (BlockSync.update_peer_locators (chain L) o (now E) peer_ip ls (prover_sync p)) p))
         | None => sret tt
         end;
  answer_ping E peer_ip.
Definition prover_pong (E : Env) (peer_ip : SocketAddr) : SM (Router * Prover) bool :=
  on_node (fun p => (true, mk_prover (prover_sync p) (Ping.on_pong_received (now E) peer_ip (prover_ping_state p))
                             (latest_epoch p) (latest_block_header p))).
Definition prover_puzzle_response (epoch_hash : BlockHash) (header : Header) : SM (Router * Prover) bool :=
  on_node (fun p => (true, mk_prover (prover_sync p) (prover_ping_state p) (Some epoch_hash) (Some header))).

(** [Prover::unconfirmed_solution]. *)
Definition prover_unconfirmed_solution (E : Env) (peer_ip : SocketAddr) (serialized : Data Solution) (solution : Solution)
    : SM (Router * Prover) bool :=
  do s ⇐ sget;
  match latest_epoch s.2, proof_target <$> latest_block_header s.2 with
  | Some epoch_hash, Some target =>
      do _ ⇐ match check_solution solution epoch_hash target with
             | Ok _ => modify_router (propagate E (Messages.UnconfirmedSolution (solution_id solution) serialized) [peer_ip])
             | _ => sret tt
             end;
      sret true
  | _, _ => sret true
  end.

(** [Prover::handle_puzzle_request]: [max_by_key] takes the last of the greatest. *)
Definition max_by_key {A} (key : A -> Z) (l : list A) : option A :=
  foldl (fun m x => match m with Some y => if decide (key x < key y) then m else Some x | None => Some x end) None l.
Definition prover_handle_puzzle_request (L : NodeLedger) (o : Oracle) (E : Env) (s : Router * Prover) : Router * Prover :=
  match BlockSync.find_sync_peers (chain L) o (prover_sync s.2) with
  | Some (sync_peers, _) =>
      match max_by_key snd sync_peers with
      | Some (peer_ip, _) => ((send E peer_ip Messages.PuzzleRequest s.1).2, s.2)
      | None => s
      end
  | None => s
  end.

(** [Inbound], [Outbound] and [Heartbeat] for [Prover]. *)
Definition prover_node (L : NodeLedger) (o : Oracle) : Node (Sols := Sols) (Txs := Txs) Prover := {|
  is_block_synced _ := true;
  num_blocks_behind _ := Some 0;
  block_request _ _ _ := sret false;
  block_response _ _ _ _ := sret false;
  ping := prover_ping L o;
  pong := prover_pong;
  puzzle_request _ _ := sret false;
  puzzle_response _ _ := prover_puzzle_response;
  unconfirmed_solution := prover_unconfirmed_solution;
  unconfirmed_transaction _ _ _ _ := sret true;
  handle_puzzle_request := prover_handle_puzzle_request L o;
|}.

Definition prover_handle_disconnect (E : Env) (peer_addr : SocketAddr) (s : Router * Prover) : Router * Prover :=
  let '(gone, r) := peer_gone E peer_addr s.1 in
  (r, match gone with
      | Some peer_ip => set_prover_sync (BlockSync.remove_peer (now E) peer_ip (prover_sync s.2)) s.2
      | None => s.2
      end).

(** ** The validator *)

(** [Consensus::add_unconfirmed_solution] and
    [Consensus::add_unconfirmed_transaction], on the state of a consensus. *)
Class MempoolService (Con : Type) := {
  add_unconfirmed_solution : Solution -> SM Con unit;
  add_unconfirmed_transaction : Transaction -> SM Con unit;
}.
Context {Con : Type} `{!MempoolService Con}.

Record Validator := mk_validator {
  consensus : Con;
  validator_ping_state : Ping.Ping;
  validator_sync : BlockSync.BlockSync;
}.

(** The result of a step of the consensus. *)
Definition in_consensus (m : SM Con unit) : SM (Router * Validator) (result unit) :=
  on_node (fun v => let '(res, c) := m (consensus v) in (res, mk_validator c (validator_ping_state v) (validator_sync v))).

(** [Validator::pong], [Validator::unconfirmed_solution] and
    [Validator::unconfirmed_transaction]. *)
Definition validator_pong (E : Env) (peer_ip : SocketAddr) : SM (Router * Validator) bool :=
  on_node (fun v => (true, mk_validator (consensus v) (Ping.on_pong_received (now E) peer_ip (validator_ping_state v)) (validator_sync v))).
Definition pass_on (E : Env) (peer_ip : SocketAddr) (message : Messages.Message) (added : result unit) : SM (Router * Validator) bool :=
  match added with
  | Ok _ => do _ ⇐ modify_router (propagate_to_validators E message [peer_ip]); sret true
  | Err _ => sret true
  | Panic e => slift (Panic e)
  | Deadlock => slift Deadlock
  end.
Definition validator_unconfirmed_solution (E : Env) (peer_ip : SocketAddr) (serialized : Data Solution) (solution : Solution)
    : SM (Router * Validator) bool :=
  do added ⇐ in_consensus (add_unconfirmed_solution solution);
  pass_on E peer_ip (Messages.UnconfirmedSolution (solution_id solution) serialized) added.
Definition validator_unconfirmed_transaction (E : Env) (peer_ip : SocketAddr) (serialized : Data Transaction)
    (transaction : Transaction) : SM (Router * Validator) bool :=
  do added ⇐ in_consensus (add_unconfirmed_transaction transaction);
  pass_on E peer_ip (Messages.UnconfirmedTransaction (transaction_id transaction) serialized) added.

(** [Inbound], [Outbound] and [Heartbeat] for [Validator]. *)
Definition validator_node (L : NodeLedger) : Node (Sols := Sols) (Txs := Txs) Validator := {|
  is_block_synced v := SyncState.is_block_synced (BlockSync.sync_state (validator_sync v));
  num_blocks_behind v := SyncState.num_blocks_behind (BlockSync.sync_state (validator_sync v));
  block_request := answer_block_request L;
  block_response _ _ _ _ := sret false;
  ping E peer_ip _ := answer_ping E peer_ip;
  pong := validator_pong;
  puzzle_request := answer_puzzle_request L;
  puzzle_response _ _ _ _ := sret false;
  unconfirmed_solution := validator_unconfirmed_solution;
  unconfirmed_transaction := validator_unconfirmed_transaction;
  handle_puzzle_request _ s := s;
|}.

(** [Validator::handle_disconnect]; the peers of the router are not synced from. *)
Definition validator_handle_disconnect (E : Env) (peer_addr : SocketAddr) (s : Router * Validator) : Router * Validator :=
  ((peer_gone E peer_addr s.1).2, s.2).
End Nodes.
End Nodes.
