(* ===== verification/RouterProps.v ===== *)
(** * Properties of the router

    What the handshake accepts, what is sent, which messages of a peer reach the
    node, and which connections the heartbeat closes. *)

From stdpp Require Import sorting.
From S2P Require Import Prelude Bytes Network Sockets Committee Narwhal Lru StorageService Ledger Storage Locators Ready Pending SyncState BlockSync Worker Events Messages Peers RouterCache Router.
Import Locators.

Module RouterProps.
Import Peers Router.

(** ** The heartbeat *)

(** What remains of [n] connections, [p] of them to provers, when all the peers
    that [surplus] counts are disconnected. *)
Definition remaining (n p : Z) : Z := n - (surplus n p).1 - (surplus n p).2.

(** What is left is the maximum when no prover is connected; with up to five
    provers there may be one more for each of them, and each prover beyond five
    costs another client or validator when there are at least 26 peers. *)
Theorem remaining_eq (n p : Z) :
  0 <= p <= n ->
  remaining n p =
    if decide (p <= 5) then Z.min n (21 + p)
    else if decide (26 <= n) then 31 - p else n - p + 5.
Proof.
  intros Hp. unfold remaining, surplus, saturating_sub, MAXIMUM_NUMBER_OF_PROVERS, MAXIMUM_NUMBER_OF_PEERS. cbn [fst snd].
  change (21 / 4) with 5. repeat case_decide; lia.
Qed.

Section RouterProps.
Context `{N : Network} {B : BlockData} {BB : BlockBytes B} {HB : HeaderBytes} {TO : TransmissionOps}.
Context `{!EqDecision Header}.
Context {Sols : Type} `{!LinkedMapOps Sols (SocketAddr * SolutionID) Z}.
Context {Txs : Type} `{!LinkedMapOps Txs (SocketAddr * TransactionID) Z}.

Abbreviation Router := (Router.Router (Sols := Sols) (Txs := Txs)).
Abbreviation Cache := (RouterCache.Cache (Sols := Sols) (Txs := Txs)).
Implicit Types (E : Env) (r : Router) (c : Cache) (ip : SocketAddr).

(** ** Requests in flight *)

(** The requests that the cache takes for unanswered, and those that were
    handed to the TCP stack. *)
Definition pending c ip (m : Messages.Message) : Prop :=
  match m with
  | Messages.BlockRequest q => q ∈ default ∅ (RouterCache.seen_outbound_block_requests c !! ip)
  | Messages.PuzzleRequest => RouterCache.contains_outbound_puzzle_request ip c = true
  | Messages.PeerRequest => RouterCache.contains_outbound_peer_request ip c = true
  | _ => False
  end.
Definition sent r ip (m : Messages.Message) : Prop := exists taken, Send ip m taken ∈ actions r.

(** What the operations of the router have in common: they only add actions,
    and a request becomes pending only when it is sent. *)
Record grows r r' : Prop := {
  gr_actions : actions r `prefix_of` actions r';
  gr_pending ip m : pending (cache r') ip m -> pending (cache r) ip m \/ sent r' ip m;
}.

Lemma sent_prefix r r' ip m : actions r `prefix_of` actions r' -> sent r ip m -> sent r' ip m.
Proof. intros [k Hk] [b Hb]. exists b. rewrite Hk. set_solver. Qed.

#[global] Instance grows_preorder : PreOrder grows.
Proof.
  split; [intros r; split; [done|by left]|].
  intros r1 r2 r3 [A1 P1] [A2 P2]. split; [by etrans|]. intros ip m H3.
  destruct (P2 _ _ H3) as [H2|]; [|by right]. destruct (P1 _ _ H2); [by left|right; by eapply sent_prefix].
Qed.

Lemma grows_peers r p : grows r (set_peers p r).
Proof. split; [done|by left]. Qed.
Lemma grows_act r a : grows r (act a r).
Proof. split; [by exists [a]|by left]. Qed.
Lemma grows_cache r c : (forall ip m, pending c ip m -> pending (cache r) ip m) -> grows r (set_cache c r).
Proof. intros H. split; [done|]. intros ip m Hp. left. by apply H. Qed.

(** The parts of the cache that make a request pending. *)
Definition outbound c :=
  (RouterCache.seen_outbound_block_requests c, RouterCache.seen_outbound_puzzle_requests c, RouterCache.seen_outbound_peer_requests c).
Lemma pending_outbound c c' ip m : outbound c = outbound c' -> pending c ip m -> pending c' ip m.
Proof.
  unfold outbound, pending, RouterCache.contains_outbound_puzzle_request, RouterCache.contains_outbound_peer_request.
  intros [= -> -> ->]. done.
Qed.
Lemma grows_same r c : outbound c = outbound (cache r) -> grows r (set_cache c r).
Proof. intros H. apply grows_cache. intros. by eapply pending_outbound. Qed.

Lemma decrement_pending (m : gmap SocketAddr Z) ip ip' :
  default false ((fun n => bool_decide (0 < n)) <$> (RouterCache.decrement_counter m ip).2 !! ip') = true ->
  default false ((fun n => bool_decide (0 < n)) <$> m !! ip') = true.
Proof.
  unfold RouterCache.decrement_counter, saturating_sub. case_decide as Hz; cbn.
  - destruct (decide (ip = ip')) as [<-|]; [by rewrite lookup_delete_eq|by rewrite lookup_delete_ne].
  - destruct (decide (ip = ip')) as [<-|]; [rewrite lookup_insert_eq|by rewrite lookup_insert_ne].
    destruct (m !! ip) as [n|]; cbn in *; [|done]. rewrite !bool_decide_eq_true. lia.
Qed.

Lemma increment_pending (m : gmap SocketAddr Z) ip ip' :
  default false ((fun n => bool_decide (0 < n)) <$> (RouterCache.increment_counter m ip).2 !! ip') = true ->
  ip = ip' \/ default false ((fun n => bool_decide (0 < n)) <$> m !! ip') = true.
Proof.
  cbn. intros Hp. destruct (decide (ip = ip')) as [<-|]; [by left|right]. by rewrite lookup_insert_ne in Hp.
Qed.

Lemma grows_decrement_puzzle ip r : grows r (set_cache (RouterCache.decrement_outbound_puzzle_requests ip (cache r)).2 r).
Proof.
  apply grows_cache. destruct (cache r) as [c1 c2 c3 c4 c5 c6 c7 c8 c9 c10 c11]. unfold RouterCache.decrement_outbound_puzzle_requests.
  destruct (RouterCache.decrement_counter c8 ip) as [n m'] eqn:Hd. intros ip' [] Hp; try done.
  cbn in *. unfold RouterCache.contains_outbound_puzzle_request in *. cbn in *. apply (decrement_pending _ ip). by rewrite Hd.
Qed.
Lemma grows_decrement_peers ip r : grows r (set_cache (RouterCache.decrement_outbound_peer_requests ip (cache r)).2 r).
Proof.
  apply grows_cache. destruct (cache r) as [c1 c2 c3 c4 c5 c6 c7 c8 c9 c10 c11]. unfold RouterCache.decrement_outbound_peer_requests.
  destruct (RouterCache.decrement_counter c11 ip) as [n m'] eqn:Hd. intros ip' [] Hp; try done.
  cbn in *. unfold RouterCache.contains_outbound_peer_request in *. cbn in *. apply (decrement_pending _ ip). by rewrite Hd.
Qed.

Lemma grows_remove_request ip q r :
  grows r (set_cache (RouterCache.remove_outbound_block_request ip q (cache r)).2 r) /\
  ((RouterCache.remove_outbound_block_request ip q (cache r)).1 = true -> pending (cache r) ip (Messages.BlockRequest q)).
Proof.
  unfold RouterCache.remove_outbound_block_request. destruct (cache r) as [c1 c2 c3 c4 c5 c6 c7 c8 c9 c10 c11] eqn:Hc. cbn.
  destruct (c7 !! ip) as [qs|] eqn:Hq; cbn.
  - split; [|by intros ?%bool_decide_eq_true]. apply grows_cache. rewrite Hc. intros ip' [] Hp; try done. cbn in *.
    destruct (decide (ip = ip')) as [<-|]; [rewrite lookup_insert_eq in Hp|by rewrite lookup_insert_ne in Hp].
    rewrite Hq. cbn in *. set_solver.
  - split; [|done]. apply grows_same. by rewrite Hc.
Qed.

(** ** Sending *)

Lemma grows_disconnect ip r : grows r (disconnect ip r).
Proof. unfold disconnect. case_match; [apply grows_act|done]. Qed.

Lemma grows_can_send E ip m r : grows r (can_send E ip m r).2.
Proof.
  unfold can_send. destruct (negb _); [done|]. destruct m; try done.
  all: unfold RouterCache.insert_outbound_solution, RouterCache.insert_outbound_transaction;
    destruct (cache r) as [c1 c2 c3 c4 c5 c6 c7 c8 c9 c10 c11] eqn:Hc; destruct (RouterCache.refresh_and_insert _ _ _) as [t x];
    apply grows_same; by rewrite Hc.
Qed.

Lemma note_pending ip m r ip' m' :
  pending (cache (note_request ip m r)) ip' m' -> pending (cache r) ip' m' \/ (ip', m') = (ip, m).
Proof.
  destruct r as [p [c1 c2 c3 c4 c5 c6 c7 c8 c9 c10 c11] acts]. destruct m; try (by left); cbn.
  - destruct m'; cbn; try (by left). destruct (decide (ip = ip')) as [<-|]; [rewrite lookup_insert_eq|rewrite lookup_insert_ne by done; by left].
    cbn. intros [->%elem_of_singleton|?]%elem_of_union; [by right|by left].
  - destruct m'; try (by left). cbn. intros [->|?]%increment_pending; [by right|by left].
  - destruct m'; try (by left). cbn. intros [->|?]%increment_pending; [by right|by left].
Qed.

Lemma grows_note E ip m r b : grows r (act (Send ip m b) (note_request ip m r)).
Proof.
  split; [exists [Send ip m b]; by destruct m|]. intros ip' m' [?|[= -> ->]]%note_pending; [by left|right]. exists b. cbn. set_solver.
Qed.

Lemma grows_send E ip m r : grows r (send E ip m r).2.
Proof.
  unfold send. pose proof (grows_can_send E ip m r) as Hc. destruct (can_send E ip m r) as [can r1]. cbn in Hc.
  destruct can; [|done]. cbn [negb]. destruct (resolve_to_ambiguous (pool r1) ip) as [a|]; [|done].
  etrans; [exact Hc|]. etrans; [apply (grows_note E ip m r1 (unicast E a m))|]. destruct (unicast E a m); [done|apply grows_disconnect].
Qed.

Lemma grows_foldl {A} (f : Router -> A -> Router) l r : (forall r a, grows r (f r a)) -> grows r (foldl f r l).
Proof. intros Hf. revert r. induction l as [|a l IH]; intros r; cbn; [done|]. etrans; [apply Hf|apply IH]. Qed.

Lemma grows_send_all E m l r : grows r (send_all E m l r).
Proof. apply grows_foldl. intros. apply grows_send. Qed.
Lemma grows_drop E reason ip r : grows r (drop_peer E reason ip r).
Proof. unfold drop_peer. etrans; [apply grows_send|apply grows_disconnect]. Qed.
Lemma grows_drop_peers E reason ps r : grows r (drop_peers E reason ps r).
Proof. apply grows_foldl. intros. apply grows_drop. Qed.
Lemma grows_ban E ip r : grows r (ban E ip r).
Proof.
  unfold ban. destruct (ip_ban_peer _ _ _ _) as [[a|] p]; [etrans; [apply grows_act|]|]; apply grows_peers.
Qed.

(** ** The heartbeat *)

Lemma is_removable_outbound E synced p c : outbound (is_removable E synced p c).2 = outbound c.
Proof.
  unfold is_removable. destruct (trusted p); [done|]. case_decide; [done|]. unfold RouterCache.contains_inbound_block_request.
  destruct c as [c1 c2 c3 c4 c5 c6 c7 c8 c9 c10 c11]. cbn. by case_bool_decide.
Qed.
Lemma filter_removable_outbound E synced ps c : outbound (filter_removable E synced ps c).2 = outbound c.
Proof.
  revert c. induction ps as [|p ps IH]; intros c; [done|]. cbn. pose proof (is_removable_outbound E synced p c) as Hr.
  destruct (is_removable E synced p c) as [keep c1]. specialize (IH c1). destruct (filter_removable E synced ps c1) as [rest c2].
  cbn in *. congruence.
Qed.
Lemma grows_removable E synced r : grows r (get_removable_peers E synced r).2.
Proof.
  unfold get_removable_peers. pose proof (filter_removable_outbound E synced (filter_connected_peers (order E) (fun _ => true) (pool r)) (cache r)).
  destruct (filter_removable _ _ _ _) as [ps c]. by apply grows_same.
Qed.
Lemma grows_remove_oldest E synced r : grows r (remove_oldest_connected_peer E synced r).
Proof.
  unfold remove_oldest_connected_peer. destruct (trusted_peers_only _); [done|]. case_decide; [done|].
  pose proof (grows_removable E synced r). destruct (get_removable_peers E synced r) as [ps r1]. cbn in *.
  destruct (head ps); [|done]. etrans; [done|apply grows_drop].
Qed.
Lemma grows_disconnect_surplus E synced r : grows r (disconnect_surplus E synced r).
Proof.
  unfold disconnect_surplus, surplus_to_disconnect. destruct (surplus _ _) as [sp sc]. pose proof (grows_removable E synced r).
  destruct (get_removable_peers E synced r) as [ps r1]. cbn in *. case_decide; case_decide; try done.
  etrans; [done|apply grows_drop_peers].
Qed.
Lemma grows_try_connect E r a : grows r (try_connect E r a).
Proof. unfold try_connect. case_match; [done|apply grows_peers]. Qed.
Lemma grows_try_connect_peers E cs r : grows r (try_connect_to_peers E cs r).
Proof. apply grows_foldl, grows_try_connect. Qed.
Lemma grows_handle_connected E synced r : grows r (handle_connected_peers E synced r).
Proof.
  unfold handle_connected_peers, connect_deficient. etrans; [apply grows_disconnect_surplus|]. case_decide; [|done].
  etrans; [apply grows_try_connect_peers|]. destruct (trusted_peers_only _); [done|apply grows_send_all].
Qed.
Lemma grows_handle_bootstrap E r : grows r (handle_bootstrap_peers E r).
Proof.
  unfold handle_bootstrap_peers. destruct (trusted_peers_only _); [done|]. cbv zeta. set (r1 := if decide (_ = []) then _ else _).
  assert (grows r r1) as H1 by (unfold r1; case_decide; [case_match|]; try done; apply grows_try_connect).
  case_decide; [|done]. etrans; [exact H1|apply grows_drop_peers].
Qed.

(** ** The interface of a node *)

Section Runs.
Context {X : Type} {ND : Node (Sols := Sols) (Txs := Txs) X}.

(** [J P]: the pending requests were sent, and [P] holds of the node.  A step is
    [good] when the router grows and the step keeps [J P]. *)
Definition J (P : Router -> X -> Prop) (s : Router * X) : Prop :=
  (forall ip m, pending (cache s.1) ip m -> sent s.1 ip m) /\ P s.1 s.2.
Definition good (P : Router -> X -> Prop) (s s' : Router * X) : Prop := grows s.1 s'.1 /\ (J P s -> J P s').
#[global] Instance good_preorder P : PreOrder (good P).
Proof.
  split; [by intros s|]. intros s1 s2 s3 [G1 H1] [G2 H2]. split; [by etrans|auto].
Qed.

Lemma good_growth P (Hg : forall r r' x, grows r r' -> P r x -> P r' x) r r' x : grows r r' -> good P (r, x) (r', x).
Proof.
  intros G. split; [done|]. intros [Hs HP]. split; [|by eapply Hg].
  intros ip m Hp. cbn in *. destruct (gr_pending _ _ G ip m Hp); [|done]. eapply sent_prefix; [apply G|auto].
Qed.

(** What a node type promises: [P] stays true while the router grows, and the
    handlers keep it, where blocks are those of a request that was sent to the peer,
    in the order and range of the request, and the answer to a puzzle request comes
    from a peer that was asked. *)
Class NodeInvariant (P : Router -> X -> Prop) : Prop := {
  ni_grows r r' x : grows r r' -> P r x -> P r' x;
  ni_block_request E ip q : keeps (good P) (block_request E ip q);
  ni_block_response E ip q blocks v s :
    sent s.1 ip (Messages.BlockRequest q) ->
    Events.ensure_response_is_well_formed blocks (Events.start_height q) (Events.end_height q) = Ok tt ->
    good P s (block_response E ip blocks v s).2;
  ni_ping E ip l : keeps (good P) (ping E ip l);
  ni_pong E ip : keeps (good P) (pong E ip);
  ni_puzzle_request E ip : keeps (good P) (puzzle_request E ip);
  ni_puzzle_response E ip epoch header s :
    sent s.1 ip Messages.PuzzleRequest -> good P s (puzzle_response E ip epoch header s).2;
  ni_unconfirmed_solution E ip d sol : keeps (good P) (unconfirmed_solution E ip d sol);
  ni_unconfirmed_transaction E ip d tx : keeps (good P) (unconfirmed_transaction E ip d tx);
  ni_handle_puzzle_request E s : good P s (handle_puzzle_request E s);
}.

Section Invariant.
Context (P : Router -> X -> Prop) {NI : NodeInvariant P}.
Implicit Types (s : Router * X).

Lemma good_router r r' x : grows r r' -> good P (r, x) (r', x).
Proof. apply good_growth. intros. by eapply ni_grows. Qed.

Lemma keeps_on_router {A} (f : Router -> A * Router) : (forall r, grows r (f r).2) -> keeps (good P) (on_router f).
Proof. intros Hf [r x]. unfold on_router. specialize (Hf r). destruct (f r) as [a r']. by apply good_router. Qed.
Lemma keeps_modify_router f : (forall r, grows r (f r)) -> keeps (good P) (modify_router (X := X) f).
Proof. intros Hf. by apply keeps_on_router. Qed.
Lemma keeps_on_cache {A} (f : Cache -> A * Cache) : (forall c, outbound (f c).2 = outbound c) -> keeps (good P) (on_cache f).
Proof.
  intros Hf. apply keeps_on_router. intros r. specialize (Hf (cache r)). destruct (f (cache r)) as [a c]. by apply grows_same.
Qed.
Lemma keeps_blocking {A} (m : SM (Router * X) A) : keeps (good P) m -> keeps (good P) (blocking m).
Proof. intros Hm s. specialize (Hm s). unfold blocking. by destruct (m s) as [[] s']. Qed.
Lemma keeps_accepted msg m : keeps (good P) m -> keeps (good P) (accepted msg m).
Proof. intros Hm. unfold accepted. apply (keeps_bind (good P)); [done|]. intros []; [apply (keeps_ret (good P))|apply (keeps_lift (good P))]. Qed.

Ltac keeps_good := repeat keeps_step (good P) ltac:(idtac; first
  [ apply keeps_accepted | apply keeps_blocking | apply ni_block_request | apply ni_ping | apply ni_pong
  | apply ni_puzzle_request | apply ni_unconfirmed_solution | apply ni_unconfirmed_transaction
  | apply keeps_on_cache; intros []; done
  | apply keeps_on_router; intros ?; first [apply grows_send | apply grows_disconnect]
  | apply keeps_modify_router; intros ?; first [apply grows_peers | apply grows_disconnect] ]).

Lemma keeps_peer_request E ip : keeps (good P) (peer_request E ip).
Proof. unfold peer_request. keeps_good. Qed.
Lemma keeps_peer_response E ps : keeps (good P) (peer_response E ps).
Proof. unfold peer_response. keeps_good. Qed.
Lemma keeps_handle_block_request E ip q : keeps (good P) (handle_block_request E ip q).
Proof. unfold handle_block_request. keeps_good. Qed.
Lemma keeps_handle_ping E ip v t l : keeps (good P) (handle_ping E ip v t l).
Proof. unfold handle_ping. keeps_good. Qed.
Lemma keeps_handle_puzzle_message E ip : keeps (good P) (handle_puzzle_message E ip).
Proof. unfold handle_puzzle_message. keeps_good. Qed.
Lemma keeps_inbound_solution E ip id : keeps (good P) (on_cache (X := X) (RouterCache.insert_inbound_solution (now E) ip id)).
Proof.
  apply keeps_on_cache. intros []. unfold RouterCache.insert_inbound_solution. by destruct (RouterCache.refresh_and_insert _ _ _).
Qed.
Lemma keeps_inbound_transaction E ip id : keeps (good P) (on_cache (X := X) (RouterCache.insert_inbound_transaction (now E) ip id)).
Proof.
  apply keeps_on_cache. intros []. unfold RouterCache.insert_inbound_transaction. by destruct (RouterCache.refresh_and_insert _ _ _).
Qed.
Lemma keeps_handle_solution E ip id d : keeps (good P) (handle_unconfirmed_solution E ip id d).
Proof. unfold handle_unconfirmed_solution. keeps_good. apply keeps_inbound_solution. Qed.
Lemma keeps_handle_transaction E ip id d : keeps (good P) (handle_unconfirmed_transaction E ip id d).
Proof. unfold handle_unconfirmed_transaction. keeps_good. apply keeps_inbound_transaction. Qed.

Lemma keeps_handle_peer_response E ip ps : keeps (good P) (handle_peer_response E ip ps).
Proof.
  unfold handle_peer_response. keeps_good; [|apply keeps_peer_response].
  apply keeps_on_router. intros r. pose proof (grows_decrement_peers ip r). by destruct (RouterCache.decrement_outbound_peer_requests _ _).
Qed.

Lemma good_block_response E ip q d v s : J P s -> good P s (handle_block_response E ip q d v s).2.
Proof.
  intros HJ. destruct s as [r x]. unfold handle_block_response, sbind at 1, on_cache, on_router.
  pose proof (grows_remove_request ip q r) as [G Hp]. destruct (RouterCache.remove_outbound_block_request ip q (cache r)) as [found c]. cbn in G, Hp.
  assert (good P (r, x) (set_cache c r, x)) as Hg by (by apply good_router).
  destruct found; [|exact Hg]. cbn [negb]. unfold sbind at 1, slift at 1. destruct (Storage.or_bail _ _) as [blocks| | |]; try exact Hg.
  unfold sbind at 1, slift at 1. destruct (Events.ensure_response_is_well_formed _ _ _) as [[]| | |] eqn:Hwf; try exact Hg.
  etrans; [exact Hg|]. assert (sent (set_cache c r) ip (Messages.BlockRequest q)) as Hs.
  { destruct HJ as [HJ _]. apply HJ. by apply Hp. }
  pose proof (ni_block_response E ip q blocks v (set_cache c r, x) Hs Hwf) as Hb. revert Hb.
  unfold accepted, blocking, sbind, slift, sret. destruct (block_response _ _ _ _ _) as [[[]| | |] s']; intros Hb; exact Hb.
Qed.

Lemma good_puzzle_response E ip h d s : J P s -> good P s (handle_puzzle_response E ip h d s).2.
Proof.
  intros HJ. destruct s as [r x]. unfold handle_puzzle_response, sbind at 1, sget at 1. cbn [fst].
  destruct (RouterCache.contains_outbound_puzzle_request ip (cache r)) eqn:Hc; [|reflexivity]. cbn [negb].
  unfold sbind at 1, on_cache, on_router. pose proof (grows_decrement_puzzle ip r) as G.
  destruct (RouterCache.decrement_outbound_puzzle_requests ip (cache r)) as [n c]. cbn in G.
  assert (good P (r, x) (set_cache c r, x)) as Hg by (by apply good_router).
  unfold sbind at 1, slift at 1. destruct (Storage.or_bail _ _) as [header| | |]; try exact Hg.
  etrans; [exact Hg|]. assert (sent (set_cache c r) ip Messages.PuzzleRequest) as Hs by (destruct HJ as [HJ _]; by apply HJ).
  pose proof (ni_puzzle_response E ip h header (set_cache c r, x) Hs) as Hb. revert Hb.
  unfold accepted, sbind, slift, sret. destruct (puzzle_response _ _ _ _ _) as [[[]| | |] s']; intros Hb; exact Hb.
Qed.

Lemma good_dispatch E ip m s : J P s -> good P s (dispatch E ip m s).2.
Proof.
  intros HJ. destruct m; try (by apply good_block_response || by apply good_puzzle_response).
  all: try solve [cbn [dispatch]; match goal with |- good P ?s (?m ?s).2 => assert (keeps (good P) m) as Hk; [|exact (Hk s)] end; keeps_good;
    first [apply keeps_handle_block_request|apply keeps_peer_request|apply keeps_handle_peer_response|apply keeps_handle_ping
          |apply keeps_handle_puzzle_message|apply keeps_handle_solution|apply keeps_handle_transaction]].
Qed.

Lemma good_inbound E a m s : J P s -> good P s (inbound E a m s).2.
Proof.
  intros HJ. unfold inbound, sbind at 1, sget at 1. destruct (get_listener _ _) as [ip|]; [|reflexivity].
  assert (keeps (good P) (on_cache (X := X) (RouterCache.insert_inbound_message (now E) ip MESSAGE_LIMIT_TIME_FRAME_IN_SECS))) as Hk
    by (apply keeps_on_cache; by intros []).
  specialize (Hk s). unfold sbind at 1. destruct (on_cache _ s) as [[n|e|e|] s1]; cbn [snd] in *; try done.
  case_decide; [done|]. etrans; [exact Hk|].
  assert (keeps (good P) (modify_router (X := X) (update_last_seen_for_connected_peer E ip))) as Hu
    by (apply keeps_modify_router; intros; apply grows_peers).
  specialize (Hu s1). unfold sbind at 1. destruct (modify_router _ s1) as [[n'|e|e|] s2]; cbn [snd] in *; try done.
  etrans; [exact Hu|]. apply good_dispatch. apply Hu, Hk, HJ.
Qed.

Lemma good_process_message E a m s : J P s -> good P s (process_message E a m s).
Proof.
  intros HJ. pose proof (good_inbound E a m s HJ) as Hi. unfold process_message. destruct (inbound E a m s) as [res [r x]]. cbn [snd] in Hi.
  destruct res; try done. destruct (get_listener _ _) as [ip|]; [|done]. etrans; [exact Hi|]. apply good_router, grows_drop.
Qed.

Lemma keeps_heartbeat E : keeps (good P) (heartbeat E).
Proof.
  unfold heartbeat. destruct (negb _); [apply (keeps_lift (good P))|]. repeat keeps_step (good P) ltac:(idtac; first
    [ apply keeps_modify_router; intros ?; first
        [apply grows_remove_oldest|apply grows_handle_connected|apply grows_handle_bootstrap|apply grows_try_connect_peers|apply grows_peers]
    | apply (keeps_modify (good P)); intros ?; apply ni_handle_puzzle_request ]).
Qed.
End Invariant.

(** ** Runs *)

Lemma grows_failed a r : grows r (handshake_failed a r).
Proof. unfold handshake_failed. destruct (peer_pool (pool r) !! a) as [[]|]; try done. apply grows_peers. Qed.
Lemma grows_succeeded E a peer_addr cr r : grows r (handshake_succeeded E a peer_addr cr r).
Proof. unfold handshake_succeeded. case_match; [apply grows_peers|done]. Qed.
Lemma grows_initiator_start a r : grows r (initiator_start a r).2.
Proof. unfold initiator_start. case_match; [apply grows_failed|apply grows_peers]. Qed.
Lemma grows_initiator_verify E h id n a resp req r : grows r (initiator_verify E h id n a resp req r).2.
Proof. unfold initiator_verify. repeat case_match; try done; apply grows_failed. Qed.
Lemma grows_responder_start E a req r : grows r (responder_start E a req r).2.
Proof.
  unfold responder_start. repeat case_match; try apply grows_failed; try apply grows_peers.
  all: etrans; [apply grows_peers|apply grows_failed].
Qed.
Lemma grows_responder_finish E h id n a resp req r : grows r (responder_finish E h id n a resp req r).2.
Proof. unfold responder_finish. case_match; [apply grows_failed|apply grows_succeeded]. Qed.
Lemma grows_admit E a r : grows r (admit_connection E a r).2.
Proof.
  unfold admit_connection. destruct (is_dev _); [done|]. destruct (is_ip_banned _ _); [done|].
  unfold RouterCache.insert_inbound_connection. destruct (cache r) as [c1 c2 c3 c4 c5 c6 c7 c8 c9 c10 c11] eqn:Hc.
  destruct (RouterCache.retain_and_insert _ _ _ _) as [n c1']. assert (grows r (set_cache (RouterCache.mk_cache c1' c2 c3 c4 c5 c6 c7 c8 c9 c10 c11) r)) as G
    by (apply grows_same; by rewrite Hc).
  case_decide; [|exact G]. etrans; [exact G|apply grows_peers].
Qed.
Lemma grows_gone E a r : grows r (peer_gone E a r).2.
Proof.
  unfold peer_gone. destruct (get_listener _ _) as [ip|]; [|done]. destruct (downgrade_peer_to_candidate _ _ _) as [b p]. cbn.
  etrans; [apply (grows_peers r p)|]. apply grows_cache. destruct (cache r) as [c1 c2 c3 c4 c5 c6 c7 c8 c9 c10 c11] eqn:Hc. cbn. rewrite Hc.
  intros ip' [] Hp; try done. cbn in *. destruct (decide (ip = ip')) as [<-|]; [by rewrite lookup_delete_eq in Hp|by rewrite lookup_delete_ne in Hp].
Qed.

End Runs.

Section Steps.
Context {X I : Type} (ND : I -> Node (Sols := Sols) (Txs := Txs) X).

(** The steps of the tasks of a node: the messages of its peers, what other
    tasks send, the heartbeat, the parts of handshakes, the end of connections,
    and what the node does by itself ([own]).  The handlers read a ledger that
    changes from step to step: they are a family. *)
Inductive step (own : X -> X -> Prop) : Router * X -> Router * X -> Prop :=
| step_message i E a m s : step own s (process_message (Node0 := ND i) E a m s)
| step_send E ip m r x : step own (r, x) ((send E ip m r).2, x)
| step_heartbeat i E s : step own s (heartbeat (Node0 := ND i) E s).2
| step_connect E a r x : step own (r, x) (try_connect E r a, x)
| step_admit E a r x : step own (r, x) ((admit_connection E a r).2, x)
| step_initiator_start a r x : step own (r, x) ((initiator_start a r).2, x)
| step_initiator_verify E h id n a resp req r x : step own (r, x) ((initiator_verify E h id n a resp req r).2, x)
| step_initiator_finish E a req r x : step own (r, x) (handshake_succeeded E a a req r, x)
| step_responder_start E a req r x : step own (r, x) ((responder_start E a req r).2, x)
| step_responder_finish E h id n a resp req r x : step own (r, x) ((responder_finish E h id n a resp req r).2, x)
| step_handshake_failed a r x : step own (r, x) (handshake_failed a r, x)
| step_gone E a r x : step own (r, x) ((peer_gone E a r).2, x)
| step_own r x x' : own x x' -> step own (r, x) (r, x').

Inductive reachable (own : X -> X -> Prop) (C : Config) (cached trusted : list SocketAddr) (x : X) : Router * X -> Prop :=
| reachable_new : reachable own C cached trusted x (new C cached trusted, x)
| reachable_step s s' : reachable own C cached trusted x s -> step own s s' -> reachable own C cached trusted x s'.

Lemma step_keeps P {NI : forall i, NodeInvariant (ND := ND i) P} own s s' :
  (forall r r' x, grows r r' -> P r x -> P r' x) -> (forall r x x', own x x' -> P r x -> P r x') ->
  step own s s' -> J P s -> J P s'.
Proof.
  intros Hg Ho Hs HJ. destruct Hs; try (eapply (good_growth P Hg); [|exact HJ]).
  - by eapply (good_process_message (ND := ND i) P).
  - apply grows_send.
  - by apply (keeps_heartbeat (ND := ND i) P).
  - apply grows_try_connect.
  - apply grows_admit.
  - apply grows_initiator_start.
  - apply grows_initiator_verify.
  - apply grows_succeeded.
  - apply grows_responder_start.
  - apply grows_responder_finish.
  - apply grows_failed.
  - apply grows_gone.
  - destruct HJ as [? ?]. split; [done|]. cbn in *. eauto.
Qed.

(** Whatever a node type promises about its handlers holds in every run: a
    request is taken for unanswered only when it was sent, and the invariant of the
    node, whose handlers see no blocks and no puzzle that were not asked for, is
    kept. *)
Lemma runs_keep P {NI : forall i, NodeInvariant (ND := ND i) P} own C cached trusted x0 s :
  (forall r r' x, grows r r' -> P r x -> P r' x) -> (forall r x x', own x x' -> P r x -> P r x') ->
  P (new C cached trusted) x0 ->
  reachable own C cached trusted x0 s -> J P s.
Proof.
  intros Hg Ho H0. induction 1 as [|s s' _ IH Hs]; [|by eapply step_keeps]. split; [|done].
  intros ip []; cbn; try done; unfold RouterCache.contains_outbound_peer_request, RouterCache.contains_outbound_puzzle_request; cbn;
    rewrite lookup_empty; cbn; set_solver.
Qed.
End Steps.

(** ** Which connections the heartbeat closes *)

(** A peer that may be disconnected: not trusted, no bootstrap client, with no
    recent block request to us, and none from us unless the node is synced. *)
Record removable E (synced : bool) c (p : ConnectedPeer) : Prop := {
  rm_trusted : trusted p = false;
  rm_bootstrap : node_type p <> BootstrapClient;
  rm_inbound : (RouterCache.contains_inbound_block_request (now E) (listener_addr p) c).1 = false;
  rm_outbound : synced = true \/ RouterCache.num_outbound_block_requests (listener_addr p) c = 0;
}.

Lemma drop_old_idem t i l : RouterCache.drop_old t i (RouterCache.drop_old t i l) = RouterCache.drop_old t i l.
Proof. induction l as [|x l IH]; cbn; [done|]. destruct (decide (i * 10 ^ 9 < t - x)) eqn:E; [done|]. cbn. by rewrite E. Qed.

(** Looking at the requests of one peer does not change the answer for any. *)
Lemma contains_stable t ip ip' c :
  (RouterCache.contains_inbound_block_request t ip' (RouterCache.contains_inbound_block_request t ip c).2).1 =
  (RouterCache.contains_inbound_block_request t ip' c).1.
Proof.
  destruct c as [c1 c2 c3 c4 c5 c6 c7 c8 c9 c10 c11]. unfold RouterCache.contains_inbound_block_request, RouterCache.retain. cbn.
  destruct (decide (ip = ip')) as [<-|]; [|by rewrite lookup_insert_ne]. rewrite lookup_insert_eq. cbn. by rewrite drop_old_idem.
Qed.

Lemma num_outbound_same ip c c' : outbound c = outbound c' ->
  RouterCache.num_outbound_block_requests ip c = RouterCache.num_outbound_block_requests ip c'.
Proof. unfold outbound, RouterCache.num_outbound_block_requests. by intros [= -> _ _]. Qed.

Lemma is_removable_spec E synced p c : (is_removable E synced p c).1 = true <-> removable E synced c p.
Proof.
  unfold is_removable. destruct (trusted p) eqn:Ht; [split; [done|intros []; congruence]|].
  destruct (decide (node_type p = BootstrapClient)); [split; [done|by intros []]|].
  pose proof (num_outbound_same (listener_addr p) (RouterCache.contains_inbound_block_request (now E) (listener_addr p) c).2 c) as Hn.
  destruct (RouterCache.contains_inbound_block_request _ _ _) as [b c1] eqn:Hc. cbn [snd] in Hn.
  assert (outbound c1 = outbound c) as Ho by (destruct c; unfold RouterCache.contains_inbound_block_request in Hc; cbn in Hc; by simplify_eq).
  destruct b; cbn [fst].
  - split; [done|]. intros [_ _ H _]. by rewrite Hc in H.
  - rewrite Hn by done. rewrite orb_true_iff, bool_decide_eq_true. split; [|by intros []]. intros ?. split; [done|done|by rewrite Hc|done].
Qed.

Lemma is_removable_cache E synced p p' c :
  (is_removable E synced p' (is_removable E synced p c).2).1 = (is_removable E synced p' c).1.
Proof.
  apply eq_bool_prop_intro. rewrite !Is_true_true, !is_removable_spec.
  assert (forall ip, (RouterCache.contains_inbound_block_request (now E) ip (is_removable E synced p c).2).1 =
    (RouterCache.contains_inbound_block_request (now E) ip c).1) as Hc.
  { intros ip. unfold is_removable. destruct (trusted p); [done|]. case_decide; [done|].
    rewrite <-(contains_stable (now E) (listener_addr p) ip c). by destruct (RouterCache.contains_inbound_block_request (now E) (listener_addr p) c) as [[] c1]. }
  pose proof (num_outbound_same (listener_addr p') _ _ (is_removable_outbound E synced p c)) as Hn.
  split; intros []; split; try done; by rewrite ?Hc, ?Hn in *.
Qed.

Lemma filter_removable_eq E synced ps c c0 :
  (forall p, (is_removable E synced p c).1 = (is_removable E synced p c0).1) ->
  (filter_removable E synced ps c).1 = filter (fun p => (is_removable E synced p c0).1 = true) ps.
Proof.
  revert c. induction ps as [|p ps IH]; intros c Hc; [done|]. cbn [filter_removable]. rewrite filter_cons.
  pose proof (Hc p) as Hp. pose proof (fun p' => is_removable_cache E synced p p' c) as Hs.
  destruct (is_removable E synced p c) as [keep c1]. cbn [fst snd] in *.
  specialize (IH c1 ltac:(intros p'; rewrite Hs; apply Hc)). destruct (filter_removable E synced ps c1) as [rest c2]. cbn in *. subst rest.
  destruct keep; case_decide; congruence.
Qed.

#[local] Instance seen_before_total : Total (seen_before (N := N)).
Proof. intros a b. unfold seen_before. lia. Qed.
#[local] Instance seen_before_trans : Transitive (seen_before (N := N)).
Proof. intros a b d. unfold seen_before. lia. Qed.

Lemma removable_peers_spec E synced r :
  let ps := (get_removable_peers E synced r).1 in
  StronglySorted seen_before ps /\
  forall p, p ∈ ps <-> p ∈ filter_connected_peers (order E) (fun _ => true) (pool r) /\ removable E synced (cache r) p.
Proof.
  cbv zeta. unfold get_removable_peers. set (cs := filter_connected_peers _ _ _).
  pose proof (filter_removable_eq E synced cs (cache r) (cache r) ltac:(done)) as Hf. destruct (filter_removable E synced cs (cache r)) as [ps c].
  cbn [fst] in *. subst ps. split; [apply (StronglySorted_merge_sort _); apply _|]. intros p.
  rewrite merge_sort_Permutation, list_elem_of_filter, is_removable_spec. naive_solver.
Qed.

(** What [IteratorRandom::sample] promises: elements of the list, as many as
    asked for as far as there are. *)
Definition samples {A} (f : list A -> Z -> list A) : Prop :=
  forall l n, f l n ⊆ l /\ len (f l n) = Z.min (Z.max 0 n) (len l).

Definition connected r E : list ConnectedPeer := filter_connected_peers (order E) (fun _ => true) (pool r).

Lemma filter_connected_connected E f r p :
  p ∈ filter_connected_peers (order E) f (pool r) <-> p ∈ connected r E /\ f p = true.
Proof. unfold connected, filter_connected_peers. rewrite !list_elem_of_filter. naive_solver. Qed.

(** The removable peers. *)
Definition removables E (synced : bool) r : list ConnectedPeer :=
  filter (fun p => (is_removable E synced p (cache r)).1 = true) (connected r E).
Lemma removables_perm E synced r : Permutation (get_removable_peers E synced r).1 (removables E synced r).
Proof.
  unfold get_removable_peers, removables, connected. set (cs := filter_connected_peers _ _ _).
  pose proof (filter_removable_eq E synced cs (cache r) (cache r) ltac:(done)) as Hf. destruct (filter_removable E synced cs (cache r)) as [ps c].
  cbn [fst] in *. subst ps. apply merge_sort_Permutation.
Qed.
Lemma removables_len E synced r : len (removables E synced r) = len (get_removable_peers E synced r).1.
Proof. unfold len. by rewrite removables_perm. Qed.

(** The peers that are disconnected because there are too many: connected,
    untrusted, the clients and validators among them removable and not heard of for
    longer than any removable one that stays; as many as [surplus] says, as far as
    there are. *)
Record surplus_choice E (synced : bool) r (ps : list ConnectedPeer) : Prop := {
  su_connected p : p ∈ ps -> p ∈ connected r E /\ trusted p = false;
  su_removable p : p ∈ ps -> is_prover p = false -> removable E synced (cache r) p;
  su_oldest p q : p ∈ ps -> is_prover p = false -> q ∈ connected r E -> removable E synced (cache r) q -> is_prover q = false ->
    q ∉ ps -> last_seen p <= last_seen q;
  su_number : len ps =
    let '(num_provers, num_others) := surplus (number_of_connected_peers (pool r)) (len (filter_connected_peers (order E) is_prover (pool r))) in
    Z.min num_provers (len (filter_connected_peers (order E) (fun p => is_prover p && negb (trusted p)) (pool r))) +
    Z.min num_others (len (filter (fun p => is_prover p = false) (removables E synced r)));
}.

Lemma surplus_nonneg n p : 0 <= (surplus n p).1 /\ 0 <= (surplus n p).2.
Proof. unfold surplus, saturating_sub. cbn. lia. Qed.

Lemma sorted_filter (f : ConnectedPeer -> Prop) `{!forall p, Decision (f p)} ps :
  StronglySorted seen_before ps -> StronglySorted (seen_before (N := N)) (filter f ps).
Proof.
  induction 1 as [|p ps Hs IH Hp]; [constructor|]. rewrite filter_cons. case_decide; [|done]. constructor; [done|].
  rewrite Forall_forall in *. intros q [_ Hq]%list_elem_of_filter. auto.
Qed.

Lemma surplus_chosen E synced r :
  samples (sample_peers E) -> surplus_choice E synced r (surplus_to_disconnect E synced r).1.
Proof.
  intros Hsam. unfold surplus_to_disconnect. pose proof (surplus_nonneg (number_of_connected_peers (pool r)) (len (filter_connected_peers (order E) is_prover (pool r)))) as [Hn1 Hn2].
  set (np := len (filter_connected_peers (order E) is_prover (pool r))) in *. destruct (surplus _ _) as [sp sc] eqn:Hsu. cbn [fst snd] in *.
  case_decide as Hpos.
  2:{ split; cbn [fst]; try (intros; set_solver). fold np. rewrite Hsu. unfold len. cbn [length]. lia. }
  pose proof (removable_peers_spec E synced r) as [Hsort Hin]. pose proof (removables_perm E synced r) as Hrem.
  destruct (get_removable_peers E synced r) as [ps r1]. cbn [fst] in *.
  destruct (Hsam (filter_connected_peers (order E) (fun p => is_prover p && negb (trusted p)) (pool r)) sp) as [Hsub Hlen].
  set (provers := sample_peers E _ sp) in *. set (others := take _ _).
  assert (forall p, p ∈ others -> p ∈ ps /\ is_prover p = false) as Hoth.
  { intros p (i & Hi & _)%elem_of_take. apply list_elem_of_lookup_2, list_elem_of_filter in Hi as [? ?]. done. }
  assert (forall p, p ∈ provers -> p ∈ connected r E /\ is_prover p = true /\ trusted p = false) as Hpr.
  { intros p Hp%Hsub. apply filter_connected_connected in Hp as [? Hp]. apply andb_true_iff in Hp as [? ?%negb_true_iff]. done. }
  split.
  - intros p [Hp|Hp]%elem_of_app; [|by apply Hpr in Hp as (? & _ & ?)]. apply Hoth in Hp as [[? []]%Hin _]. done.
  - intros p [Hp|Hp]%elem_of_app Hno; [|apply Hpr in Hp as (_ & ? & _); congruence]. by apply Hoth in Hp as [[? ?]%Hin _].
  - intros p q [Hp|Hp]%elem_of_app Hno Hq Hrq Hnq Hnin; [|apply Hpr in Hp as (_ & ? & _); congruence].
    eapply (take_sorted_before seen_before); [apply (sorted_filter (fun p => is_prover p = false)), Hsort|exact Hp| |].
    + apply list_elem_of_filter. split; [done|]. by apply Hin.
    + intros Hx. apply Hnin. apply elem_of_app. by left.
  - fold np. rewrite Hsu. cbn [fst]. rewrite len_app, Hlen.
    assert (len others = Z.min sc (len (filter (fun p => is_prover p = false) ps))) as -> by (unfold others, len; rewrite length_take; lia).
    assert (len (filter (fun p => is_prover p = false) ps) = len (filter (fun p => is_prover p = false) (removables E synced r))) as -> by (unfold len; by rewrite Hrem).
    lia.
Qed.

(** *** Closing connections *)

(** The connected peers of a pool: a connection is closed by the TCP stack, the
    pool changes when that is done. *)
Definition conns (p : Pool) : gmap SocketAddr ConnectedPeer := omap as_connected (peer_pool p).

Lemma resolve_conns p a : resolve_to_ambiguous p a = connected_addr <$> conns p !! a.
Proof. unfold resolve_to_ambiguous, get_connected_peer, conns. by rewrite lookup_omap. Qed.
Lemma number_conns p : number_of_connected_peers p = Z.of_nat (size (conns p)).
Proof.
  unfold number_of_connected_peers. f_equal. rewrite <-!size_dom. f_equal. apply set_eq. intros a. unfold conns.
  rewrite !elem_of_dom, lookup_omap, map_lookup_filter. unfold peer_connected.
  destruct (peer_pool p !! a) as [q|]; cbn; [|by split; intros []]. unfold guard. destruct (decide _) as [Hd|Hd]; cbn.
  - apply bool_decide_eq_true in Hd. by split.
  - rewrite bool_decide_eq_true in Hd. split; [by intros []|by intros ?%Hd].
Qed.
Lemma filter_conns o f p :
  filter_connected_peers o f p = filter (fun q => f q = true) (omap (fun a => conns p !! a) o).
Proof.
  unfold filter_connected_peers, peer_values, conns. f_equal. induction o as [|a o IH]; [done|]. cbn. rewrite lookup_omap.
  destruct (peer_pool p !! a) as [q|]; cbn; [|exact IH]. destruct (as_connected q); cbn; by rewrite IH.
Qed.

(** Connections are closed: those of [ps], and otherwise only those to which the
    TCP stack does not take a message. *)
Definition closes (r r' : Router) (ps : list ConnectedPeer) : Prop :=
  exists new, actions r' = actions r ++ new /\
    (forall a, Close a ∈ new ->
       (exists p, p ∈ ps /\ resolve_to_ambiguous (pool r) (listener_addr p) = Some a) \/
       (exists ip m, Send ip m false ∈ new /\ resolve_to_ambiguous (pool r) ip = Some a)) /\
    (forall p a, p ∈ ps -> resolve_to_ambiguous (pool r) (listener_addr p) = Some a -> Close a ∈ new).
Record shuts (r r' : Router) (ps : list ConnectedPeer) : Prop := {
  sh_conns : conns (pool r') = conns (pool r);
  sh_closes : closes r r' ps;
}.

Lemma shuts_none r r' : conns (pool r') = conns (pool r) -> actions r' = actions r -> shuts r r' [].
Proof. intros Hc Ha. split; [done|]. exists []. rewrite app_nil_r. split_and!; [done|set_solver|set_solver]. Qed.
Lemma shuts_trans r1 r2 r3 ps qs : shuts r1 r2 ps -> shuts r2 r3 qs -> shuts r1 r3 (ps ++ qs).
Proof.
  intros [C1 (n1 & A1 & B1 & D1)] [C2 (n2 & A2 & B2 & D2)]. split; [congruence|]. exists (n1 ++ n2). rewrite A2, A1, app_assoc.
  setoid_rewrite resolve_conns in B2. setoid_rewrite resolve_conns in D2. rewrite C1 in B2, D2.
  setoid_rewrite <-resolve_conns in B2. setoid_rewrite <-resolve_conns in D2. split_and!; [done| |].
  - intros a [[(p & Hp & Hr)|(ip & m & Hs & Hr)]%B1|[(p & Hp & Hr)|(ip & m & Hs & Hr)]%B2]%elem_of_app;
      [left; exists p|right; exists ip, m|left; exists p|right; exists ip, m]; (split; [|done]); apply elem_of_app; first [by left|by right].
  - intros p a [Hp|Hp]%elem_of_app Hr; apply elem_of_app; [left; by eapply D1|right; by eapply D2].
Qed.
Lemma shuts_foldl {A} (f : Router -> A -> Router) (g : A -> list ConnectedPeer) l r :
  (forall r a, shuts r (f r a) (g a)) -> shuts r (foldl f r l) (concat (g <$> l)).
Proof.
  intros Hf. revert r. induction l as [|a l IH]; intros r; [by apply shuts_none|]. cbn. eapply shuts_trans; [apply Hf|apply IH].
Qed.

Lemma can_send_rest E ip m r : pool (can_send E ip m r).2 = pool r /\ actions (can_send E ip m r).2 = actions r.
Proof.
  unfold can_send. destruct (negb _); [done|]. destruct m; try done.
  - by destruct (RouterCache.insert_outbound_solution _ _ _ _).
  - by destruct (RouterCache.insert_outbound_transaction _ _ _ _).
Qed.
Lemma note_rest ip m r : pool (note_request ip m r) = pool r /\ actions (note_request ip m r) = actions r.
Proof. by destruct m. Qed.
Lemma disconnect_pool ip r : pool (disconnect ip r) = pool r.
Proof. unfold disconnect. by case_match. Qed.
Lemma send_pool E ip m r : pool (send E ip m r).2 = pool r.
Proof.
  unfold send. pose proof (can_send_rest E ip m r) as [Hp _]. destruct (can_send E ip m r) as [[] r1]; cbn [snd negb] in *; [|done].
  destruct (resolve_to_ambiguous (pool r1) ip) as [a|]; [|done]. pose proof (note_rest ip m r1) as [Hp1 _].
  cbv zeta. destruct (unicast E a m); cbn [snd]; rewrite ?disconnect_pool; cbn; congruence.
Qed.
Lemma shuts_send E ip m r : shuts r (send E ip m r).2 [].
Proof.
  split; [by rewrite send_pool|].
  unfold send. pose proof (can_send_rest E ip m r) as [Hp Ha]. destruct (can_send E ip m r) as [[] r1]; cbn [snd negb] in *.
  2:{ exists []. rewrite app_nil_r. set_solver. }
  destruct (resolve_to_ambiguous (pool r1) ip) as [a|] eqn:Hr.
  2:{ exists []. rewrite app_nil_r. set_solver. }
  pose proof (note_rest ip m r1) as [Hp1 Ha1]. cbv zeta. destruct (unicast E a m); cbn [snd].
  - exists [Send ip m true]. cbn. rewrite Ha1, Ha. set_solver.
  - exists [Send ip m false; Close a]. unfold disconnect. cbn. rewrite Hp1, Hr. cbn. rewrite Ha1, Ha, <-app_assoc.
    rewrite Hp in Hr. split_and!; [done| |set_solver]. intros a' Hin. right. exists ip, m. set_solver.
Qed.
Lemma shuts_send_all E m l r : shuts r (send_all E m l r) [].
Proof.
  pose proof (shuts_foldl (fun r a => (send E a m r).2) (fun _ => []) l r ltac:(intros; apply shuts_send)) as H.
  unfold send_all. by replace (concat ((fun _ => []) <$> l)) with ([] : list ConnectedPeer) in H by (clear; by induction l).
Qed.
Lemma shuts_disconnect p r : shuts r (disconnect (listener_addr p) r) [p].
Proof.
  split; [by rewrite disconnect_pool|]. unfold disconnect, closes. destruct (resolve_to_ambiguous (pool r) (listener_addr p)) as [a|] eqn:Hr.
  - exists [Close a]. split_and!; [done| |].
    + intros a' Ha'. left. exists p. set_solver.
    + intros p' a' ->%list_elem_of_singleton Hr'. set_solver.
  - exists []. rewrite app_nil_r. split_and!; [done|set_solver|]. intros p' a' ->%list_elem_of_singleton Hr'. congruence.
Qed.
Lemma shuts_drop E reason p r : shuts r (drop_peer E reason (listener_addr p) r) [p].
Proof. exact (shuts_trans _ _ _ _ _ (shuts_send _ _ _ _) (shuts_disconnect _ _)). Qed.
Lemma shuts_drop_peers E reason ps r : shuts r (drop_peers E reason ps r) ps.
Proof.
  pose proof (shuts_foldl (fun r p => drop_peer E reason (listener_addr p) r) (fun p => [p]) ps r ltac:(intros; apply shuts_drop)) as H.
  by replace (concat ((fun p => [p]) <$> ps)) with ps in H by (clear; induction ps as [|p ps IH]; cbn; congruence).
Qed.
Lemma shuts_try_connect E r a : shuts r (try_connect E r a) [].
Proof.
  apply shuts_none; unfold try_connect, connect; destruct (check_connection_attempt _ _ _); try done;
    destruct (peer_pool (pool r) !! a) as [[[]| |]|] eqn:Ha; try done.
  unfold conns. cbn. apply map_eq. intros b. rewrite !lookup_omap. destruct (decide (a = b)) as [<-|].
  - by rewrite lookup_insert_eq, Ha.
  - by rewrite lookup_insert_ne.
Qed.
Lemma shuts_try_connect_peers E cs r : shuts r (try_connect_to_peers E cs r) [].
Proof.
  unfold try_connect_to_peers. set (l := _ <$> _). pose proof (shuts_foldl (try_connect E) (fun _ => []) l r (shuts_try_connect E)) as H.
  by replace (concat ((fun _ => []) <$> l)) with ([] : list ConnectedPeer) in H by (clear; by induction l).
Qed.

(** *** The choices *)

(** Looking for removable peers does not change who is removable. *)
Lemma removable_stable E synced r p :
  removable E synced (cache (get_removable_peers E synced r).2) p <-> removable E synced (cache r) p.
Proof.
  unfold get_removable_peers. set (cs := filter_connected_peers _ _ _). rewrite <-!is_removable_spec.
  assert (forall c, (is_removable E synced p (filter_removable E synced cs c).2).1 = (is_removable E synced p c).1) as Hs.
  { induction cs as [|q cs IH]; intros c; [done|]. cbn. pose proof (is_removable_cache E synced q p c) as Hq.
    destruct (is_removable E synced q c) as [keep c1]. specialize (IH c1). destruct (filter_removable E synced cs c1) as [rest c2].
    cbn in *. congruence. }
  specialize (Hs (cache r)). destruct (filter_removable _ _ _ _) as [ps c]. cbn in *. by rewrite Hs.
Qed.
Lemma drop_cache E reason ip r : cache (drop_peer E reason ip r) = cache r.
Proof.
  unfold drop_peer, send, can_send, disconnect. repeat (case_match; cbn in *; simplify_eq; try done).
Qed.
Lemma removable_rest E synced r :
  pool (get_removable_peers E synced r).2 = pool r /\ actions (get_removable_peers E synced r).2 = actions r.
Proof. unfold get_removable_peers. by destruct (filter_removable _ _ _ _). Qed.

(** The peer that the periodic refresh disconnects, if any: with more than the
    minimum of peers, and unless only trusted peers are wanted, the removable one
    that was not heard of for the longest time. *)
Record refresh_choice E (synced : bool) r (ps : list ConnectedPeer) : Prop := {
  re_oldest p : p ∈ ps -> p ∈ connected r E /\ removable E synced (cache r) p /\
    forall q, q ∈ connected r E -> removable E synced (cache r) q -> last_seen p <= last_seen q;
  re_number : len ps =
    if trusted_peers_only (config E) || bool_decide (number_of_connected_peers (pool r) <= MINIMUM_NUMBER_OF_PEERS) then 0
    else Z.min 1 (len (removables E synced r));
}.

Lemma refresh_chosen E synced r :
  exists ps, refresh_choice E synced r ps /\ shuts r (remove_oldest_connected_peer E synced r) ps /\
    forall p, removable E synced (cache (remove_oldest_connected_peer E synced r)) p <-> removable E synced (cache r) p.
Proof.
  unfold remove_oldest_connected_peer. destruct (trusted_peers_only (config E)) eqn:Ht.
  { exists []. split_and!; [|by apply shuts_none|done]. split; [set_solver|]. by rewrite Ht. }
  case_decide as Hn.
  { exists []. split_and!; [|by apply shuts_none|done]. split; [set_solver|]. by rewrite Ht, bool_decide_eq_true_2. }
  pose proof (removable_peers_spec E synced r) as [Hsort Hin]. pose proof (removables_len E synced r) as Hlen.
  pose proof (removable_rest E synced r) as [Hp Ha]. pose proof (removable_stable E synced r) as Hst.
  destruct (get_removable_peers E synced r) as [ps r1]. cbn [fst snd] in *.
  assert (shuts r r1 []) as H1 by (apply shuts_none; congruence).
  destruct ps as [|p ps]; cbn [head].
  - exists []. split_and!; [|done|done]. split; [set_solver|]. rewrite Ht, bool_decide_eq_false_2 by done. cbn. by rewrite Hlen.
  - exists [p]. split_and!.
    + split.
      * intros q ->%list_elem_of_singleton. split_and!; [apply Hin; left..|]. intros q' Hq Hr.
        assert (q' ∈ p :: ps) as [->|Hq']%elem_of_cons by (by apply Hin); [lia|]. apply StronglySorted_inv in Hsort as [_ Hall].
        rewrite Forall_forall in Hall. by apply Hall.
      * rewrite Ht, bool_decide_eq_false_2, Hlen by done. unfold len. cbn. lia.
    + exact (shuts_trans _ _ _ _ _ H1 (shuts_drop _ _ _ _)).
    + intros q. by rewrite drop_cache.
Qed.

Lemma surplus_shuts E synced r :
  shuts r (disconnect_surplus E synced r)
    (if decide (own_type (config E) = Prover) then [] else (surplus_to_disconnect E synced r).1).
Proof.
  unfold disconnect_surplus. assert (pool (surplus_to_disconnect E synced r).2 = pool r /\ actions (surplus_to_disconnect E synced r).2 = actions r) as [Hp Ha].
  { unfold surplus_to_disconnect. pose proof (removable_rest E synced r). destruct (surplus _ _), (get_removable_peers _ _ _). by case_decide. }
  destruct (surplus_to_disconnect E synced r) as [ps r1]. cbn [fst snd] in *.
  assert (shuts r r1 []) as H1 by (apply shuts_none; congruence). case_decide; [done|].
  exact (shuts_trans _ _ _ _ _ H1 (shuts_drop_peers _ _ _ _)).
Qed.

(** The choice depends only on the connections and on who is removable. *)
Lemma surplus_choice_same E synced r r' ps :
  conns (pool r') = conns (pool r) -> (forall p, removable E synced (cache r') p <-> removable E synced (cache r) p) ->
  surplus_choice E synced r' ps -> surplus_choice E synced r ps.
Proof.
  intros Hc Hr [H1 H2 H3 H4]. assert (forall f, filter_connected_peers (order E) f (pool r') = filter_connected_peers (order E) f (pool r)) as Hf
    by (intros f; by rewrite !filter_conns, Hc).
  assert (connected r' E = connected r E) as Hcon by apply Hf. rewrite Hcon in H1, H3.
  split; [done|naive_solver|naive_solver|]. rewrite H4, !number_conns, Hc, !Hf. destruct (surplus _ _). do 3 f_equal.
  unfold removables. rewrite Hcon. f_equal. apply list_filter_iff. intros p. by rewrite !is_removable_spec.
Qed.

(** All but one of the connected bootstrap clients, unless only trusted peers
    are wanted. *)
Definition bootstraps E r : list ConnectedPeer := filter (fun p => node_type p = BootstrapClient) (connected r E).
Record bootstrap_choice E r (ps : list ConnectedPeer) : Prop := {
  bo_bootstrap : ps ⊆ bootstraps E r;
  bo_number : len ps = if trusted_peers_only (config E) then 0 else Z.max 0 (len (bootstraps E r) - 1);
}.
Lemma bootstraps_eq E r :
  filter_connected_peers (order E) (fun p => bool_decide (node_type p = BootstrapClient)) (pool r) = bootstraps E r.
Proof.
  unfold bootstraps, connected. rewrite !filter_conns, list_filter_filter. apply list_filter_iff. intros p. rewrite bool_decide_eq_true. naive_solver.
Qed.
Lemma bootstrap_chosen E r :
  samples (sample_peers E) -> exists ps, bootstrap_choice E r ps /\ shuts r (handle_bootstrap_peers E r) ps.
Proof.
  intros Hsam. unfold handle_bootstrap_peers. destruct (trusted_peers_only (config E)) eqn:Ht.
  { exists []. split; [|by apply shuts_none]. split; [set_solver|by rewrite Ht]. }
  cbv zeta. rewrite bootstraps_eq. set (r1 := if decide (_ = []) then _ else _).
  assert (shuts r r1 []) as H1 by (unfold r1; case_decide; [case_match|]; first [by apply shuts_none|apply shuts_try_connect]).
  unfold saturating_sub. destruct (Hsam (bootstraps E r) (Z.max 0 (len (bootstraps E r) - 1))) as [Hsub Hlen]. case_decide.
  - eexists. split; [|exact (shuts_trans _ _ _ _ _ H1 (shuts_drop_peers _ _ _ _))]. split; [exact Hsub|]. rewrite Ht. cbn [app]. rewrite Hlen. unfold len in *. lia.
  - exists []. split; [|exact H1]. split; [set_solver|]. rewrite Ht. unfold len in *. cbn. lia.
Qed.
Lemma bootstrap_choice_same E r r' ps :
  conns (pool r') = conns (pool r) -> bootstrap_choice E r' ps -> bootstrap_choice E r ps.
Proof.
  intros Hc [H1 H2]. assert (bootstraps E r' = bootstraps E r) as Hb by (unfold bootstraps, connected; by rewrite !filter_conns, Hc).
  rewrite Hb in *. by split.
Qed.

(** *** The heartbeat as a whole *)

(** A node's request for a puzzle closes a connection at most because the TCP
    stack does not take it. *)
Class AsksForPuzzles {X} (ND : Node (Sols := Sols) (Txs := Txs) X) : Prop :=
  asks_shuts E (s : Router * X) : shuts s.1 (handle_puzzle_request E s).1 [].

Lemma heartbeat_eq {X} {ND : Node (Sols := Sols) (Txs := Txs) X} E (r : Router) (x : X) :
  let synced := is_block_synced x in
  let r' := handle_trusted_peers E (handle_bootstrap_peers E (handle_connected_peers E synced (remove_oldest_connected_peer E synced r))) in
  heartbeat E (r, x) = (Ok tt, let s := handle_puzzle_request E (r', x) in (handle_banned_ips E s.1, s.2)).
Proof.
  cbv zeta. unfold heartbeat. replace (negb safety_check_minimum_number_of_peers) with false by (by vm_compute).
  cbn -[handle_puzzle_request]. by destruct (handle_puzzle_request E _).
Qed.

Lemma connect_shuts E r : shuts r (connect_deficient E r) [].
Proof.
  unfold connect_deficient. case_decide; [|by apply shuts_none]. pose proof (shuts_try_connect_peers E) as Hc.
  destruct (trusted_peers_only _); [apply Hc|]. exact (shuts_trans _ _ _ [] [] (Hc _ _) (shuts_send_all _ _ _ _)).
Qed.

(** C27: a heartbeat that nothing interrupts returns, and the connections it
    closes are exactly those of three choices of connected peers: with more than
    the minimum of peers, the removable peer that was not heard of for the longest
    time; unless the node is a prover, the surplus that the code counts, as far as
    there are such peers, untrusted, the clients and validators among them removable
    and not heard of for longer than any removable one that stays; and all bootstrap
    clients but one.  A removable peer is untrusted, no bootstrap client and not
    syncing with the node.  A node that wants only trusted peers makes the second
    choice only.  Any other connection is closed only because the TCP stack did not
    take a message to it. *)
Theorem heartbeat_disconnects {X} {ND : Node (Sols := Sols) (Txs := Txs) X} `{!AsksForPuzzles ND} (E : Env) (s : Router * X) :
  samples (sample_peers E) ->
  (heartbeat E s).1 = Ok tt /\
  exists oldest surplus bootstrap,
    refresh_choice E (is_block_synced s.2) s.1 oldest /\
    (if decide (own_type (config E) = Prover) then surplus = [] else surplus_choice E (is_block_synced s.2) s.1 surplus) /\
    bootstrap_choice E s.1 bootstrap /\
    closes s.1 (heartbeat E s).2.1 (oldest ++ surplus ++ bootstrap).
Proof.
  intros Hsam. destruct s as [r x]. rewrite heartbeat_eq. cbn [fst snd]. split; [done|]. set (synced := is_block_synced x).
  destruct (refresh_chosen E synced r) as (ps & Hps & Hs1 & Hrem). set (r1 := remove_oldest_connected_peer E synced r) in *.
  pose proof (surplus_shuts E synced r1) as Hs2. set (qs := if decide _ then _ else _) in Hs2.
  pose proof (shuts_trans _ _ _ _ [] Hs2 (connect_shuts E _)) as Hs3. rewrite app_nil_r in Hs3.
  destruct (bootstrap_chosen E (handle_connected_peers E synced r1) Hsam) as (bs & Hbs & Hs4).
  pose proof (shuts_trans _ _ _ _ _ Hs1 Hs3) as Hs5. exists ps, qs, bs. split_and!; [done| | |].
  - unfold qs. case_decide; [done|]. eapply surplus_choice_same; [apply Hs1|exact Hrem|by apply surplus_chosen].
  - eapply bootstrap_choice_same; [apply Hs5|done].
  - set (r4 := handle_trusted_peers E _). assert (shuts (handle_bootstrap_peers E (handle_connected_peers E synced r1)) r4 []) as Hs6
      by apply shuts_try_connect_peers.
    pose proof (asks_shuts E (r4, x)) as Hs7. cbn [fst] in Hs7.
    pose proof (shuts_trans _ _ _ _ _ (shuts_trans _ _ _ _ _ (shuts_trans _ _ _ _ _ Hs5 Hs4) Hs6) Hs7) as [_ Hcl].
    by rewrite !app_nil_r, <-app_assoc in Hcl.
Qed.

(** ** Messages that reach the TCP stack *)

(** A message other than a solution or a transaction is handed to the TCP stack
    when the peer is connected. *)
Definition is_transmission (m : Messages.Message) : bool :=
  match m with Messages.UnconfirmedSolution _ _ | Messages.UnconfirmedTransaction _ _ => true | _ => false end.
Lemma send_reaches E ip m r :
  is_transmission m = false -> is_connected (pool r) ip = true -> sent (send E ip m r).2 ip m.
Proof.
  intros Hm Hc. unfold send, can_send. rewrite Hc. cbn [negb].
  assert (is_Some (resolve_to_ambiguous (pool r) ip)) as [a Ha].
  { unfold is_connected in Hc. unfold resolve_to_ambiguous, get_connected_peer. destruct (peer_pool (pool r) !! ip) as [q|]; [|done].
    cbn in Hc. apply bool_decide_eq_true in Hc as [c Hc]. cbn. rewrite Hc. by eexists. }
  assert (match m with Messages.UnconfirmedSolution solution_id _ => let '(seen, c) := RouterCache.insert_outbound_solution (now E) ip solution_id (cache r) in (bool_decide (seen = None), set_cache c r)
    | Messages.UnconfirmedTransaction transaction_id _ => let '(seen, c) := RouterCache.insert_outbound_transaction (now E) ip transaction_id (cache r) in (bool_decide (seen = None), set_cache c r)
    | _ => (true, r) end = (true, r)) as -> by (by destruct m).
  cbn [negb]. rewrite Ha. destruct (unicast E a m); cbn [snd]; [exists true; cbn; set_solver|].
  eapply sent_prefix; [apply grows_disconnect|]. exists false. cbn. set_solver.
Qed.

(** ** The handshake *)

Definition connected_at r ip (p : ConnectedPeer) : Prop := peer_pool (pool r) !! ip = Some (Connected p).

(** What the response of a peer has to show: the same genesis block, the same
    restrictions unless one of the two is a prover, and a signature by the address
    of the peer on our nonce and its own. *)
Record authentic E (header : Header) (restrictions : Field) (our_nonce : Z) (resp : Response) (req : Challenge) : Prop := {
  au_genesis : genesis_header resp = header;
  au_restrictions : ch_node_type req = Prover \/ own_type (config E) = Prover \/ restrictions_id resp = restrictions;
  au_signature : exists s, deserialize_signature (signature resp) = Ok s /\
    verify_bytes E s (ch_address req) (write_u64 our_nonce ++ write_u64 (nonce resp)) = true;
}.

Lemma response_accepted E header restrictions our_nonce resp req :
  verify_challenge_response E (ch_address req) (ch_node_type req) resp header restrictions our_nonce = None <->
  authentic E header restrictions our_nonce resp req.
Proof.
  unfold verify_challenge_response. destruct (decide (genesis_header resp <> header)) as [Hg|Hg]; [split; [done|by intros []]|].
  apply dec_stable in Hg. destruct (negb _ && negb _ && negb _) eqn:Hr.
  - split; [done|]. intros [_ Ha _]. apply andb_true_iff in Hr as [[H1%negb_true_iff H2%negb_true_iff]%andb_true_iff H3%negb_true_iff].
    apply bool_decide_eq_false in H1, H2, H3. naive_solver.
  - assert (ch_node_type req = Prover \/ own_type (config E) = Prover \/ restrictions_id resp = restrictions) as Ha.
    { apply andb_false_iff in Hr as [[H1%negb_false_iff|H1%negb_false_iff]%andb_false_iff|H1%negb_false_iff]; apply bool_decide_eq_true in H1; auto. }
    destruct (deserialize_signature _) as [s| | |] eqn:Hs; try (split; [done|intros [_ _ (? & ? & _)]; congruence]).
    destruct (verify_bytes _ _ _ _) eqn:Hv.
    + split; [intros _; split; eauto|done].
    + split; [done|]. intros [_ _ (s' & Hs' & Hv')]. congruence.
Qed.

Lemma failed_connected a r l p : connected_at (handshake_failed a r) l p <-> connected_at r l p.
Proof.
  unfold connected_at, handshake_failed. destruct (peer_pool (pool r) !! a) as [[]|] eqn:Ha; try done. cbn.
  destruct (decide (a = l)) as [<-|]; [|by rewrite lookup_insert_ne].
  rewrite lookup_insert_eq. naive_solver congruence.
Qed.

(** C26: the end of an inbound handshake connects the peer exactly when its
    response is authentic, with the address and type of its challenge request and
    reachable under the listener address it named, and connects nobody otherwise. *)
Theorem handshake_authentic (E : Env) (header : Header) (restrictions : Field) (our_nonce : Z) (peer_addr : SocketAddr)
    (resp : Response) (req : Challenge) (r : Router) :
  let ip := socket_from (socket_ip peer_addr) (ch_listener_port req) in
  let '(ok, r') := responder_finish E header restrictions our_nonce peer_addr resp req r in
  (ok = true <-> authentic E header restrictions our_nonce resp req) /\
  (forall l p, connected_at r' l p -> connected_at r l p \/
     ok = true /\ l = ip /\ aleo_addr p = ch_address req /\ node_type p = ch_node_type req /\ connected_addr p = peer_addr) /\
  (ok = true -> is_Some (peer_pool (pool r) !! ip) -> exists p, connected_at r' ip p /\ listener_addr p = ip).
Proof.
  cbv zeta. unfold responder_finish. pose proof (response_accepted E header restrictions our_nonce resp req) as Hacc.
  set (ip := socket_from _ _). destruct (verify_challenge_response _ _ _ _ _ _ _) as [e|].
  - split_and!; [split; [done|by intros ?%Hacc]| |done]. intros l p ?%failed_connected. by left.
  - split_and!; [split; [intros _; by apply Hacc|done]| |].
    + intros l p. unfold connected_at, handshake_succeeded. destruct (peer_pool (pool r) !! ip) as [q|]; [|by left]. cbn.
      intros [[<- Hp]|[_ ?]]%lookup_insert_Some; [|by left]. right. unfold upgrade_to_connected in Hp. by simplify_eq.
    + intros _ [q Hq]. unfold connected_at, handshake_succeeded. rewrite Hq. cbn. rewrite lookup_insert_eq.
      eexists. split; [done|]. done.
Qed.
End RouterProps.
End RouterProps.
