(* ===== verification/NodeProps.v ===== *)
(** * Properties of the node types

    The pings of a node, and what the runs of clients and provers keep: a client
    holds blocks for its ledger only when they answer a request it sent, and a
    prover works only on a puzzle it asked for. *)

From stdpp Require Import sorting.
From S2P Require Import Prelude Bytes Network Sockets Committee Narwhal Lru StorageService Ledger Storage Locators Ready Pending SyncState BlockSync Worker Events Messages Peers RouterCache Router RouterProps Ping Nodes.
Import Locators.

Module NodeProps.
Import Peers Router RouterProps Nodes.

(** ** The blocks that a synchronization holds *)

Section Held.
Context `{N : Network} {B : BlockData}.
Implicit Types (s : BlockSync.BlockSync) (Q : Block -> Prop).

Definition holds s (b : Block) : Prop := exists h e, BlockSync.requests s !! h = Some e /\ BlockSync.response e = Some b.
(** A step that adds only blocks of which [Q] holds. *)
Definition adds Q s s' : Prop := forall b, holds s' b -> holds s b \/ Q b.
#[global] Instance adds_preorder Q : PreOrder (adds Q).
Proof. split; [by left|]. intros s1 s2 s3 H1 H2 b [Hb|]%H2; [by apply H1|by right]. Qed.

Lemma adds_same Q s s' : BlockSync.requests s' = BlockSync.requests s -> adds Q s s'.
Proof. intros Hr b. unfold holds. rewrite Hr. by left. Qed.
Lemma adds_map Q s s' :
  (forall h e b, BlockSync.requests s' !! h = Some e -> BlockSync.response e = Some b -> holds s b \/ Q b) -> adds Q s s'.
Proof. intros H b (h & e & He & Hb). by eapply H. Qed.

Lemma adds_remove_requests Q ip s : adds Q s (BlockSync.remove_block_requests_to_peer ip s).
Proof.
  apply adds_map. cbn. intros h e b He Hb. left. apply lookup_omap_Some in He as (e0 & He & He0).
  case_match; simplify_eq. exists h, e0. done.
Qed.
Lemma adds_remove_peer Q t ip s : adds Q s (BlockSync.remove_peer t ip s).
Proof.
  unfold BlockSync.remove_peer, BlockSync.refresh_peer_height, BlockSync.set_peer_height, BlockSync.notify_peers, BlockSync.notify_synced.
  etrans; [|etrans; [apply (adds_remove_requests Q ip)|]].
  2:{ apply adds_same. repeat case_match; done. }
  by apply adds_same.
Qed.
Lemma adds_remove_peers Q t l s : adds Q s (foldl (fun s ip => BlockSync.remove_peer t ip s) s l).
Proof. revert s. induction l as [|ip l IH]; intros s; cbn; [done|]. etrans; [apply adds_remove_peer|apply IH]. Qed.
Lemma adds_locators Q L o t ip ls s : adds Q s (BlockSync.update_peer_locators L o t ip ls s).
Proof.
  apply adds_same. unfold BlockSync.update_peer_locators, BlockSync.insert_locators, BlockSync.raise_peer_height, BlockSync.notify_peers, BlockSync.notify_synced. repeat case_match; simplify_eq; done.
Qed.

Lemma adds_insert_response L ip b s : adds (fun b' => b' = b) s (BlockSync.insert_block_response L ip b s).2.
Proof.
  unfold BlockSync.insert_block_response. destruct (contains_block_height L (height b)); [done|].
  destruct (BlockSync.requests s !! height b) as [e|] eqn:He; [|done]. destruct (BlockSync.request_hashes e) as [eh ep].
  destruct (BlockSync.mismatch eh (hash b)) as [[]|]; [done|]. destruct (BlockSync.mismatch ep (previous_hash b)) as [[]|]; [done|].
  case_decide; [done|].
  assert (forall e', (BlockSync.response e' = BlockSync.response e \/ BlockSync.response e' = Some b) -> forall s',
    BlockSync.requests s' = <[height b := e']> (BlockSync.requests s) -> adds (fun b' => b' = b) s s') as Hi.
  { intros e' He' s' Hs'. apply adds_map. rewrite Hs'. intros h e1 b1 [[<- <-]|[_ Hl]]%lookup_insert_Some Hb1; [|left; by exists h, e1].
    destruct He' as [He'|He']; [left; exists (height b), e; split; congruence|right; congruence]. }
  destruct (BlockSync.response _) as [existing|] eqn:Hresp; [case_decide|]; cbn [snd]; eapply Hi; cbn; try done; first [by left | by right].
Qed.

Lemma adds_weaken Q Q' s s' : (forall b, Q b -> Q' b) -> adds Q s s' -> adds Q' s s'.
Proof. intros HQ H b [?|?]%H; [by left|right; auto]. Qed.

Lemma adds_insert_blocks L ip bs s : adds (fun b => b ∈ bs) s (BlockSync.insert_blocks L ip bs s).2.
Proof.
  revert s. induction bs as [|b bs IH]; intros s; cbn; [done|]. pose proof (adds_insert_response L ip b s) as Hi.
  apply (adds_weaken _ (fun b' => b' ∈ b :: bs)) in Hi; [|set_solver]. destruct (BlockSync.insert_block_response L ip b s) as [[e|[]] s1]; cbn in *; [done|].
  etrans; [exact Hi|]. eapply adds_weaken; [|apply IH]. set_solver.
Qed.

Lemma adds_responses L ip bs v s : adds (fun b => b ∈ bs) s (BlockSync.insert_block_responses L ip bs v s).2.
Proof.
  unfold BlockSync.insert_block_responses. destruct (last bs) as [b|]; [|apply adds_remove_requests].
  destruct (CONSENSUS_VERSION (height b)); [done|]. destruct (BlockSync.check_consensus_version _ _ _); [apply adds_remove_requests|].
  pose proof (adds_insert_blocks L ip bs s) as Hi. destruct (BlockSync.insert_blocks L ip bs s) as [[e|[]] s1]; cbn in *; [|done].
  etrans; [exact Hi|apply adds_remove_requests].
Qed.

(** The other tasks of a synchronization add no blocks. *)
Definition none (b : Block) : Prop := False.

Lemma adds_timeouts L o t s : adds none s (BlockSync.handle_block_request_timeouts L o t s).
Proof.
  unfold BlockSync.handle_block_request_timeouts, BlockSync.retain_live. set (s1 := BlockSync.mark_failed _ _).
  assert (adds none s s1) as H1.
  { apply adds_map. cbn. intros h e b [He _]%map_lookup_filter_Some Hb. left. by exists h, e. }
  etrans; [exact H1|apply adds_remove_peers].
Qed.

Lemma adds_prepare L o s : adds none s (BlockSync.prepare_block_requests L o s).2.
Proof.
  apply adds_same. unfold BlockSync.prepare_block_requests. destruct (negb _).
  - assert (forall bs acc s0, BlockSync.requests (BlockSync.reissue L o s0 bs acc).2 = BlockSync.requests s0) as Hr; [|by rewrite Hr].
    induction bs as [|b bs IH]; intros acc s0; cbn; [done|]. repeat case_match; try done. rewrite IH. done.
  - repeat case_match; done.
Qed.

Lemma adds_send_requests L o snt t peers reqs s : adds none s (BlockSync.send_block_requests L o snt t peers reqs s).2.
Proof.
  assert (forall ips rs s0, adds none s0 (BlockSync.insert_requests L t ips rs s0).2) as Hins.
  { intros ips rs. unfold BlockSync.insert_requests. apply (keeps_fold (adds none)). intros _ [h [hs n]] _.
    unfold BlockSync.insert_block_request. repeat keeps_step (adds none) ltac:(idtac; fail).
    apply (keeps_modify (adds none)). intros s1. apply adds_map. cbn.
    intros h' e b [[<- <-]|[_ He]]%lookup_insert_Some Hb; [done|left; by exists h', e]. }
  unfold BlockSync.send_block_requests, BlockSync.begin_send. destruct (head reqs) as [[h [hs n]]|]; [|done].
  destruct (forallb _ _); [|done]. set (ips := sample o n _). specialize (Hins ips reqs s).
  destruct (BlockSync.insert_requests L t ips reqs s) as [[] s1]; try done. cbn [snd] in Hins. unfold BlockSync.end_send.
  destruct (forallb snt ips); [done|]. etrans; [exact Hins|]. apply adds_map. cbn.
  intros h' e b [He _]%map_lookup_filter_Some Hb. left. by exists h', e.
Qed.

Lemma adds_issuing L o snt t s : adds none s (BlockSync.try_issuing_block_requests L o snt t s).
Proof.
  unfold BlockSync.try_issuing_block_requests. pose proof (adds_timeouts L o t s) as H0.
  set (s0 := BlockSync.handle_block_request_timeouts L o t s) in *. destruct (SyncState.is_block_synced _); [done|]. destruct (_ && _); [done|].
  pose proof (adds_prepare L o s0) as H1. destruct (BlockSync.prepare_block_requests L o s0) as [batches s1]. cbn [snd] in H1.
  assert (adds none s s1) as H2 by (by etrans). clear -H2. revert s1 H2. induction batches as [|[reqs peers] bs IH]; intros s1 H2; cbn; [done|].
  apply IH. etrans; [exact H2|]. generalize (BlockSync.chunks BlockSync.MAXIMUM_NUMBER_OF_BLOCKS reqs). intros cs.
  clear. revert s1. induction cs as [|c cs IH]; intros s1; cbn; [done|]. pose proof (adds_send_requests L o snt t peers c s1) as Hs.
  destruct (BlockSync.send_block_requests L o snt t peers c s1) as [[] s2]; [|done]. etrans; [exact Hs|apply IH].
Qed.

Lemma adds_advancing {St} (ops : LedgerOps St) t st s : adds none s (BlockSync.try_advancing_block_synchronization ops t st s).2.
Proof.
  unfold BlockSync.try_advancing_block_synchronization.
  assert (forall fuel h st0 s0, adds none s0 (BlockSync.advance_loop ops fuel h st0 s0).2) as Hl.
  { induction fuel as [|fuel IH]; intros h st0 s0; cbn; [done|]. repeat case_match; try done; cbn [snd].
    all: assert (adds none s0 (BlockSync.remove_block_response (u32_wrap (h + 1)) s0)) as Hr
      by (unfold BlockSync.remove_block_response; case_match; [|done]; apply adds_map; cbn; intros h' e b' [_ He]%lookup_delete_Some Hb; left; by exists h', e).
    all: try exact Hr. etrans; [exact Hr|apply IH]. }
  specialize (Hl (S (size (BlockSync.requests s))) (BlockSync.latest_block_height (view ops st)) st s).
  destruct (BlockSync.advance_loop _ _ _ _ _) as [[[h| | |] st1] s1]; cbn [snd] in *; try done. case_decide; cbn [snd]; [|done].
  etrans; [exact Hl|]. apply adds_same. unfold BlockSync.set_sync_height, BlockSync.record_sync_height, BlockSync.notify_synced. repeat case_match; done.
Qed.
End Held.

Section NodeProps.
Context `{N : Network} {B : BlockData} {BB : BlockBytes B} {HB : HeaderBytes} {TO : TransmissionOps}.
Context `{!EqDecision Header}.
Context {Sols : Type} `{!LinkedMapOps Sols (SocketAddr * SolutionID) Z}.
Context {Txs : Type} `{!LinkedMapOps Txs (SocketAddr * TransactionID) Z}.

Abbreviation Router := (Router.Router (Sols := Sols) (Txs := Txs)).

(** ** Shared handlers *)

Section Shared.
Context {X : Type} (P : Router -> X -> Prop) (P_grows : forall r r' x, grows r r' -> P r x -> P r' x).

Lemma keeps_router_op {A} (f : Router -> A * Router) : (forall r, grows r (f r).2) -> keeps (good P) (on_router (X := X) f).
Proof. intros Hf [r x]. unfold on_router. specialize (Hf r). destruct (f r) as [a r']. by apply good_growth. Qed.
Lemma keeps_modify_op f : (forall r, grows r (f r)) -> keeps (good P) (modify_router (X := X) f).
Proof. intros Hf. by apply keeps_router_op. Qed.
Lemma keeps_node_op {A} (f : X -> A * X) : (forall r x, P r x -> P r (f x).2) -> keeps (good P) (on_node (Sols := Sols) (Txs := Txs) f).
Proof.
  intros Hf [r x]. unfold on_node. specialize (Hf r x). destruct (f x) as [a x']. split; [done|]. intros [? ?]. split; [done|]. cbn in *. auto.
Qed.

Lemma keeps_send E ip m : keeps (good P) (on_router (X := X) (send E ip m)).
Proof. apply keeps_router_op. intros. apply grows_send. Qed.
Lemma keeps_answer_block_request L E ip q : keeps (good P) (answer_block_request L E ip q).
Proof. unfold answer_block_request. repeat keeps_step (good P) ltac:(idtac; apply keeps_send). Qed.
Lemma keeps_answer_puzzle_request L E ip : keeps (good P) (answer_puzzle_request L E ip).
Proof. unfold answer_puzzle_request. repeat keeps_step (good P) ltac:(idtac; apply keeps_send). Qed.
Lemma keeps_answer_ping E ip : keeps (good P) (answer_ping E ip).
Proof. unfold answer_ping. repeat keeps_step (good P) ltac:(idtac; apply keeps_send). Qed.
End Shared.

(** ** Clients *)

Section ClientProps.
Context {SQ : Type} `{!LruQueueOps SQ SolutionID (SocketAddr * Data Solution * Solution)}.
Context {TQ : Type} `{!LruQueueOps TQ TransactionID (SocketAddr * Data Transaction * Transaction)}.
Abbreviation Client := (Nodes.Client (SQ := SQ) (TQ := TQ)).

(** A block that a client holds is one of the blocks with which a peer may
    answer a request that was sent to it. *)
Definition solicited (r : Router) (b : Block) : Prop :=
  exists ip q blocks, sent r ip (Messages.BlockRequest q) /\ b ∈ blocks /\
    Events.ensure_response_is_well_formed blocks (Events.start_height q) (Events.end_height q) = Ok tt.
Definition client_inv (r : Router) (c : Client) : Prop := forall b, holds (sync c) b -> solicited r b.

Lemma sync_set bs (c : Client) : sync (set_client_sync bs c) = bs.
Proof. by destruct c. Qed.
Lemma client_inv_grows r r' c : grows r r' -> client_inv r c -> client_inv r' c.
Proof.
  intros G H b (ip & q & bs & Hs & Hb & Hwf)%H. exists ip, q, bs. split_and!; [|done..]. eapply sent_prefix; [apply G|done].
Qed.
Lemma client_inv_adds r (c : Client) bs (c' : Client) : sync c' = bs -> adds none (sync c) bs -> client_inv r c -> client_inv r c'.
Proof. intros Hs Ha H b. unfold client_inv in H. rewrite Hs. intros [?|[]]%Ha. auto. Qed.

#[local] Instance client_node_invariant L o : NodeInvariant (ND := client_node (SQ := SQ) (TQ := TQ) L o) client_inv.
Proof.
  split.
  - apply client_inv_grows.
  - intros. apply keeps_answer_block_request, client_inv_grows.
  - intros E ip q blocks v [r c] Hs Hwf. cbn [block_response client_node]. unfold client_block_response, sbind at 1, on_node at 1.
    pose proof (adds_responses (chain L) ip blocks v (sync c)) as Ha.
    destruct (BlockSync.insert_block_responses _ _ _ _ _) as [res bs]. cbn [snd] in Ha.
    assert (good client_inv (r, c) (r, set_client_sync bs c)) as Hg.
    { split; [done|]. intros [Hp HP]. split; [done|]. intros b. cbn. destruct c; cbn. intros [?|?]%Ha; [by apply HP|].
      exists ip, q, blocks. done. }
    destruct res as [e|]; [|exact Hg]. destruct (BlockSync.is_benign e); [exact Hg|].
    destruct (BlockSync.is_invalid_consensus_version e); [|exact Hg].
    etrans; [exact Hg|]. cbn. apply good_growth; [apply client_inv_grows|apply grows_ban].
  - intros E ip l. cbn [ping client_node]. unfold client_ping. repeat keeps_step (good client_inv) ltac:(idtac; first
      [ apply keeps_modify_op; [apply client_inv_grows|intros; apply grows_peers]
      | apply keeps_answer_ping, client_inv_grows ]).
    apply keeps_node_op. intros r c. apply (client_inv_adds _ _ (BlockSync.update_peer_locators (chain L) o (now E) ip b (sync c)));
      [by destruct c|apply adds_locators].
  - intros E ip. apply keeps_node_op. intros r c. cbn. apply (client_inv_adds _ _ (sync c)); [by destruct c|done].
  - intros. apply keeps_answer_puzzle_request, client_inv_grows.
  - intros. done.
  - intros E ip d sol. apply keeps_node_op. intros r c. cbn. apply (client_inv_adds _ _ (sync c)); [by destruct c|done].
  - intros E ip d tx. apply keeps_node_op. intros r c. cbn. apply (client_inv_adds _ _ (sync c)); [|done].
    destruct (is_fee tx), (is_execute tx), c; done.
  - done.
Qed.

(** What a client does by itself: it issues requests, advances its ledger,
    forgets a peer that is gone, and does things that leave the synchronization
    alone. *)
Inductive client_task : Client -> Client -> Prop :=
| task_issue L o snt t c :
    client_task c (set_client_sync (BlockSync.try_issuing_block_requests L o snt t (sync c)) c)
| task_advance St (ops : LedgerOps St) t st c :
    client_task c (set_client_sync (BlockSync.try_advancing_block_synchronization ops t st (sync c)).2 c)
| task_remove_peer t ip c : client_task c (set_client_sync (BlockSync.remove_peer t ip (sync c)) c)
| task_other c c' : sync c' = sync c -> client_task c c'.

Lemma client_task_keeps r c c' : client_task c c' -> client_inv r c -> client_inv r c'.
Proof.
  destruct 1.
  - eapply client_inv_adds; [apply sync_set|apply adds_issuing].
  - eapply client_inv_adds; [apply sync_set|apply adds_advancing].
  - eapply client_inv_adds; [apply sync_set|apply adds_remove_peer].
  - by eapply client_inv_adds.
Qed.

Definition client_nodes (i : NodeLedger * Oracle) : Node (Sols := Sols) (Txs := Txs) Client := client_node i.1 i.2.

(** C25: in every run of a client, however the messages of its peers, its
    heartbeat, handshakes, disconnections and its own tasks are interleaved and
    whatever the ledger answers, a request counts as unanswered only when it was
    sent, and a block is held for the ledger only when it fits a well-formed
    answer to a block request that was sent. *)
Theorem client_blocks_solicited (C : Config) (cached trusted : list SocketAddr) (c0 : Client) (s : Router * Client) :
  BlockSync.requests (sync c0) = ∅ ->
  reachable client_nodes client_task C cached trusted c0 s ->
  (forall ip m, pending (cache s.1) ip m -> sent s.1 ip m) /\ forall b, holds (sync s.2) b -> solicited s.1 b.
Proof.
  intros H0 Hr. eapply (runs_keep client_nodes client_inv); [apply client_inv_grows| | |exact Hr].
  - intros. by eapply client_task_keeps.
  - intros b (h & e & He & _). rewrite H0 in He. done.
Qed.

#[global] Instance client_asks L o : AsksForPuzzles (client_node (SQ := SQ) (TQ := TQ) L o).
Proof. intros E s. by apply shuts_none. Qed.
End ClientProps.

(** ** Provers *)

Section ProverProps.
Context (proof_target : Header -> Z) (check_solution : Solution -> BlockHash -> Z -> result unit).
Abbreviation Prover := (Nodes.Prover (HB := HB)).

(** A prover knows an epoch or a header only after it asked a peer for a puzzle. *)
Definition prover_inv (r : Router) (p : Prover) : Prop :=
  is_Some (latest_epoch p) \/ is_Some (latest_block_header p) -> exists ip, sent r ip Messages.PuzzleRequest.

Lemma prover_inv_grows r r' p : grows r r' -> prover_inv r p -> prover_inv r' p.
Proof. intros G H [ip Hs]%H. exists ip. eapply sent_prefix; [apply G|done]. Qed.
Lemma prover_inv_same r (p p' : Prover) :
  latest_epoch p' = latest_epoch p -> latest_block_header p' = latest_block_header p -> prover_inv r p -> prover_inv r p'.
Proof. unfold prover_inv. by intros -> ->. Qed.

Definition prover_nodes (i : NodeLedger * Oracle) : Node (Sols := Sols) (Txs := Txs) Prover :=
  prover_node proof_target check_solution i.1 i.2.

#[local] Instance prover_node_invariant i : NodeInvariant (ND := prover_nodes i) prover_inv.
Proof.
  split.
  - apply prover_inv_grows.
  - intros. apply (keeps_ret (good prover_inv)).
  - intros. reflexivity.
  - intros E ip l. cbn [ping prover_nodes prover_node]. unfold prover_ping. repeat keeps_step (good prover_inv) ltac:(idtac; apply keeps_answer_ping, prover_inv_grows).
    apply keeps_node_op. intros r p. by apply prover_inv_same.
  - intros E ip. apply keeps_node_op. intros r p. by apply prover_inv_same.
  - intros. apply (keeps_ret (good prover_inv)).
  - intros E ip epoch header [r p] Hs. split; [done|]. intros [Hp _]. split; [done|]. intros _. by exists ip.
  - intros E ip d sol. cbn [unconfirmed_solution prover_nodes prover_node]. unfold prover_unconfirmed_solution.
    repeat keeps_step (good prover_inv) ltac:(idtac; apply keeps_modify_op; [apply prover_inv_grows|intros; apply grows_send_all]).
  - intros. apply (keeps_ret (good prover_inv)).
  - intros E [r p]. cbn [handle_puzzle_request prover_nodes prover_node]. unfold prover_handle_puzzle_request. cbn [fst snd].
    destruct (BlockSync.find_sync_peers _ _ _) as [[peers a]|]; [|reflexivity]. destruct (max_by_key snd peers) as [[ip h]|]; [|reflexivity].
    apply good_growth; [apply prover_inv_grows|apply grows_send].
Qed.

(** What a prover does by itself leaves the puzzle alone. *)
Definition prover_task (p p' : Prover) : Prop := latest_epoch p' = latest_epoch p /\ latest_block_header p' = latest_block_header p.

(** In every run of a prover the puzzle it works on was asked for. *)
Theorem prover_puzzle_asked C cached trusted (p0 : Prover) s :
  latest_epoch p0 = None -> latest_block_header p0 = None ->
  reachable prover_nodes prover_task C cached trusted p0 s ->
  (forall ip m, pending (cache s.1) ip m -> sent s.1 ip m) /\ prover_inv s.1 s.2.
Proof.
  intros H0 H1 Hr. eapply (runs_keep prover_nodes prover_inv); [apply prover_inv_grows| | |exact Hr].
  - intros r p p' [? ?]. by apply prover_inv_same.
  - intros [[? ?]|[? ?]]; congruence.
Qed.

#[global] Instance prover_asks L o : AsksForPuzzles (prover_node proof_target check_solution L o).
Proof.
  intros E [r p]. cbn [handle_puzzle_request prover_node]. unfold prover_handle_puzzle_request. cbn [fst snd].
  destruct (BlockSync.find_sync_peers _ _ _) as [[peers a]|]; [|by apply shuts_none].
  destruct (max_by_key snd peers) as [[ip h]|]; [apply shuts_send|by apply shuts_none].
Qed.
End ProverProps.

#[global] Instance validator_asks {Con} `{!MempoolService Con} L : AsksForPuzzles (validator_node (Con := Con) L).
Proof. intros E s. by apply shuts_none. Qed.

(** ** Pings *)

Section PingProps.
Implicit Types (r : Router) (p : Ping.Ping).

Definition due (t : Z) (m : gmap Z SocketAddr) : gmap Z SocketAddr := filter (fun e => e.1 <= t) m.
Definition not_due (t : Z) (m : gmap Z SocketAddr) : gmap Z SocketAddr := filter (fun e => t < e.1) m.
Definition ping_each E p (ips : list SocketAddr) r : Router :=
  foldl (fun r ip => (send_ping E ip (Ping.block_locators p) r).2) r ips.

Lemma btree_first_lookup (m : gmap Z SocketAddr) time ip :
  btree_first m = Some (time, ip) -> m !! time = Some ip /\ forall t a, m !! t = Some a -> time <= t.
Proof.
  unfold btree_first. intros Hf. pose proof (btree_iter_sorted m) as Hs. pose proof (fun t a => elem_of_btree_iter m t a) as Hin.
  destruct (btree_iter m) as [|e l]; simplify_eq/=. split; [apply Hin; left|]. intros t a Ha%Hin.
  apply StronglySorted_inv in Hs as [_ Hs]. rewrite Forall_forall in Hs. apply elem_of_cons in Ha as [[= -> ->]|Ha]; [lia|]. by apply (Hs (t, a)).
Qed.

Lemma expired_loop_spec E fuel r p :
  (size (Ping.next_ping p) <= fuel)%nat ->
  exists ips, ips ≡ₚ (map_to_list (due (now E) (Ping.next_ping p))).*2 /\
    Ping.expired_loop E fuel (r, p) =
    (ping_each E p ips r, Ping.mk_ping (not_due (now E) (Ping.next_ping p)) (Ping.block_locators p) (Ping.notified p)).
Proof.
  destruct p as [m ls n]. revert r m. induction fuel as [|fuel IH]; intros r m Hsz; cbn [Ping.expired_loop Ping.next_ping] in *.
  - assert (m = ∅) as -> by (apply map_size_empty_inv; lia). exists []. unfold due, not_due. rewrite !map_filter_empty. cbn. done.
  - destruct (btree_first m) as [[time ip]|] eqn:Hf.
    2:{ assert (m = ∅) as -> by (apply btree_iter_nil; unfold btree_first in Hf; by destruct (btree_iter m)).
        exists []. unfold due, not_due. rewrite !map_filter_empty. done. }
    apply btree_first_lookup in Hf as [Hl Hmin]. case_decide as Ht.
    + exists []. assert (due (now E) m = ∅) as ->.
      { apply map_empty. intros t. apply map_lookup_filter_None. right. intros a Ha. cbn. specialize (Hmin t a Ha). lia. }
      assert (not_due (now E) m = m) as ->; [|done]. apply map_filter_id. intros t a Ha. cbn. specialize (Hmin t a Ha). lia.
    + destruct (IH (send_ping E ip ls r).2 (delete time m)) as (ips & Hips & He).
      { rewrite map_size_delete, Hl. lia. }
      exists (ip :: ips). cbn [Ping.block_locators Ping.notified] in *. rewrite He. split.
      * rewrite Hips. assert (due (now E) m = <[time := ip]> (due (now E) (delete time m))) as ->.
        { unfold due. rewrite map_filter_delete, insert_delete_eq. symmetry. apply insert_id. apply map_lookup_filter_Some. cbn. split; [done|lia]. }
        rewrite map_to_list_insert; [done|]. unfold due. rewrite map_filter_delete. apply lookup_delete_eq.
      * f_equal. f_equal. unfold not_due. rewrite map_filter_delete. apply delete_id. apply map_lookup_filter_None. right. cbn. intros a Ha. lia.
Qed.

Lemma ping_each_pool E p ips r : pool (ping_each E p ips r) = pool r.
Proof. unfold ping_each. revert r. induction ips as [|ip ips IH]; intros r; cbn [foldl]; [done|]. rewrite IH. apply send_pool. Qed.
Lemma ping_each_grows E p ips r : grows r (ping_each E p ips r).
Proof. apply grows_foldl. intros. apply grows_send. Qed.
Lemma ping_each_sent E p ips r ip :
  ip ∈ ips -> is_connected (pool r) ip = true ->
  sent (ping_each E p ips r) ip (Messages.Ping Messages.latest_message_version (own_type (config E)) (Ping.block_locators p)).
Proof.
  revert r. induction ips as [|x ips IH]; intros r Hip Hc; [by apply not_elem_of_nil in Hip|].
  change (ping_each E p (x :: ips) r) with (ping_each E p ips (send_ping E x (Ping.block_locators p) r).2).
  apply elem_of_cons in Hip as [->|Hip].
  - eapply sent_prefix; [apply (ping_each_grows E p ips)|]. by apply send_reaches.
  - apply IH; [done|]. unfold send_ping. by rewrite send_pool.
Qed.

(** C29: a turn of the ping task: the peers whose time has come, or all that are
    scheduled after a new block, are sent a ping with the latest locators as far
    as they are connected; the others stay scheduled, and the task sleeps until the
    first of them is due. *)
Theorem ping_turn_spec (E : Env) (new_block : bool) (r : Router) (p : Ping.Ping) :
  let chosen := if new_block then Ping.next_ping p else due (now E) (Ping.next_ping p) in
  let '(sleep, (r', p')) := Ping.ping_turn E new_block (r, p) in
  (forall t ip, chosen !! t = Some ip -> is_connected (pool r) ip = true ->
     sent r' ip (Messages.Ping Messages.latest_message_version (own_type (config E)) (Ping.block_locators p))) /\
  (forall t ip, Ping.next_ping p' !! t = Some ip <-> Ping.next_ping p !! t = Some ip /\ chosen !! t = None) /\
  (forall t ip, Ping.next_ping p' !! t = Some ip -> now E + sleep <= t) /\
  0 <= sleep /\ pool r' = pool r.
Proof.
  cbv zeta. unfold Ping.ping_turn.
  assert (exists ips m, (if new_block then Ping.ping_all_peers E (r, p) else Ping.ping_expired_peers E (r, p)) =
    (ping_each E p ips r, Ping.mk_ping m (Ping.block_locators p) (Ping.notified p)) /\
    (forall t ip, (if new_block then Ping.next_ping p else due (now E) (Ping.next_ping p)) !! t = Some ip -> ip ∈ ips) /\
    (forall t ip, m !! t = Some ip <-> Ping.next_ping p !! t = Some ip /\ (if new_block then Ping.next_ping p else due (now E) (Ping.next_ping p)) !! t = None) /\
    (forall t ip, m !! t = Some ip -> now E <= t)) as (ips & m & -> & Hch & Hm & Hle).
  { destruct new_block.
    - exists (btree_iter (Ping.next_ping p)).*2, ∅. split_and!; [done| | |].
      + intros t ip Hl. apply list_elem_of_fmap. exists (t, ip). split; [done|]. by apply elem_of_btree_iter.
      + intros t ip. rewrite lookup_empty. naive_solver congruence.
      + intros t ip. by rewrite lookup_empty.
    - destruct (expired_loop_spec E (size (Ping.next_ping p)) r p) as (ips & Hips & He); [done|].
      exists ips, (not_due (now E) (Ping.next_ping p)). split_and!; [exact He| | |].
      + intros t ip Hl. rewrite Hips. apply list_elem_of_fmap. exists (t, ip). split; [done|]. by apply elem_of_map_to_list.
      + intros t ip. unfold not_due, due. rewrite map_lookup_filter_Some, map_lookup_filter_None. cbn. split.
        * intros [Hl Ht]. split; [done|]. right. intros a Ha. lia.
        * intros [Hl [Hn|Hn]]; [congruence|]. split; [done|]. specialize (Hn ip Hl). cbn in Hn. lia.
      + intros t ip [_ Ht]%map_lookup_filter_Some. cbn in Ht. lia. }
  cbn [snd Ping.next_ping]. split_and!.
  - intros t ip Hl Hc. apply ping_each_sent; [by eapply Hch|done].
  - done.
  - intros t ip Hl. destruct (btree_first m) as [[time a]|] eqn:Hf.
    + apply btree_first_lookup in Hf as [Hf Hmin]. specialize (Hle _ _ Hf). specialize (Hmin _ _ Hl). lia.
    + assert (m = ∅) as -> by (apply btree_iter_nil; unfold btree_first in Hf; by destruct (btree_iter m)). by rewrite lookup_empty in Hl.
  - destruct (btree_first m) as [[time a]|]; [lia|done].
  - apply ping_each_pool.
Qed.

(** Two pongs at the same instant: only the peer of the second is scheduled. *)
Theorem same_instant_forgets t ip ip' p :
  ip <> ip' -> (forall t', Ping.next_ping p !! t' <> Some ip) ->
  forall t', Ping.next_ping (Ping.on_pong_received t ip' (Ping.on_pong_received t ip p)) !! t' <> Some ip.
Proof.
  intros Hne Hp t'. cbn. rewrite insert_insert_eq. destruct (decide (t + Ping.MAX_PING_INTERVAL = t')) as [<-|];
    [rewrite lookup_insert_eq; congruence|rewrite lookup_insert_ne by done; apply Hp].
Qed.
End PingProps.

(** ** The verification queues *)

Section Verification.
Context {Q K V : Type} `{EqDecision K} `{!LruQueueOps Q K V} `{!LruQueueLaws Q K V} (max : Z) (Hmax : 0 < max).
Implicit Types (q : Q) (n : Z) (vs : list V).

(** The verification loop and the tasks it starts, interleaved: whether the loop
    is taking entries, the queue, the counter and the running verifications. *)
Record VState := mk_vstate { taking : bool; queue : Q; counter : Z; running : list V }.
Inductive vstep : VState -> VState -> Prop :=
| v_enter q n vs : n < max -> vstep (mk_vstate false q n vs) (mk_vstate true q n vs)
| v_take q k v q' n vs : lq_pop_lru q = (Some (k, v), q') ->
    vstep (mk_vstate true q n vs) (mk_vstate (negb (bool_decide (max <= n + 1))) q' (n + 1) (vs ++ [v]))
| v_empty q q' n vs : lq_pop_lru q = (None, q') -> vstep (mk_vstate true q n vs) (mk_vstate false q' n vs)
| v_finish b q n l v l' : vstep (mk_vstate b q n (l ++ v :: l')) (mk_vstate b q (n - 1) (l ++ l'))
| v_enqueue b q n vs k v : vstep (mk_vstate b q n vs) (mk_vstate b (enqueue k v q) n vs).

Definition v_inv (s : VState) : Prop :=
  counter s = len (running s) /\ counter s <= max /\ (taking s = true -> counter s < max).
Lemma vstep_inv s s' : vstep s s' -> v_inv s -> v_inv s'.
Proof.
  unfold v_inv. assert (forall v : V, len [v] = 1) as H1 by done.
  destruct 1 as [q n vs Hn|q k v q' n vs Hp|q q' n vs Hp|b q n l v l'|b q n vs k v]; cbn; intros (Hc & Hm & Ht).
  - split_and!; [done|done|lia].
  - specialize (Ht eq_refl). rewrite len_app, H1. split_and!; [lia|lia|]. intros Hb%negb_true_iff%bool_decide_eq_false. lia.
  - split_and!; done.
  - rewrite len_app, len_cons in Hc. rewrite len_app. split_and!; [lia|lia|]. intros Hb. specialize (Ht Hb). lia.
  - split_and!; done.
Qed.

(** However takes and ends are interleaved, as many verifications run as the
    counter says, and never more than the maximum. *)
Theorem verification_bounded (q0 : Q) (s : VState) :
  rtc vstep (mk_vstate false q0 0 []) s -> counter s = len (running s) /\ 0 <= counter s <= max.
Proof.
  intros Hr. assert (v_inv s) as (Hc & Hm & _).
  { eapply (rtc_ind_l (fun s' => v_inv s' -> v_inv s)); [done| |exact Hr|].
    - intros s1 s2 Hs _ IH Hi. apply IH. by eapply vstep_inv.
    - split_and!; cbn; [done|lia|done]. }
  pose proof (len_nonneg (running s)). lia.
Qed.

Lemma removelast_reverse {A} (l : list A) x l' : reverse l = x :: l' -> reverse (removelast l) = l' /\ last l = Some x.
Proof.
  intros Hr. assert (l = reverse l' ++ [x]) as ->.
  { rewrite <-(reverse_involutive l), Hr, reverse_cons. done. }
  rewrite removelast_last, last_snoc, reverse_involutive. done.
Qed.

Lemma start_verifying_spec fuel q n :
  0 <= n < max -> (length (lq_entries q) <= fuel)%nat ->
  let '(vs, q', n') := start_verifying max fuel q n in
  let k := Z.min (len (lq_entries q)) (max - n) in
  vs = (take (Z.to_nat k) (reverse (lq_entries q))).*2 /\ reverse (lq_entries q') = drop (Z.to_nat k) (reverse (lq_entries q)) /\ n' = n + k.
Proof.
  revert q n. induction fuel as [|fuel IH]; intros q n Hn Hf; cbn [start_verifying].
  { assert (lq_entries q = []) as He by (apply nil_length_inv; lia). rewrite !He.
    assert (Z.min (len (@nil (K * V))) (max - n) = 0) as -> by (unfold len; cbn; lia). split_and!; [done..|lia]. }
  destruct (lq_pop_lru_entries q) as (Hp & Hq & _). destruct (lq_pop_lru q) as [[[k v]|] q1]; cbn [fst snd] in Hp, Hq.
  2:{ symmetry in Hp. apply last_None in Hp. rewrite Hq, Hp.
      assert (Z.min (len (@nil (K * V))) (max - n) = 0) as -> by (unfold len; cbn; lia). split_and!; [done..|lia]. }
  destruct (reverse (lq_entries q)) as [|e l] eqn:Hr.
  { apply (f_equal reverse) in Hr. rewrite reverse_involutive in Hr. rewrite Hr in Hp. done. }
  assert (len (lq_entries q) = 1 + len l) as Hlen.
  { unfold len. rewrite <-(length_reverse (lq_entries q)), Hr. cbn. lia. }
  destruct (removelast_reverse _ _ _ Hr) as [Hrl Hl]. rewrite Hl in Hp. injection Hp as <-. pose proof (len_nonneg l).
  assert (reverse (lq_entries q1) = l) as Hr1 by (by rewrite Hq).
  assert (len (lq_entries q1) = len l) as Hlen1 by (unfold len; by rewrite <-(length_reverse (lq_entries q1)), Hr1).
  case_decide as Hc.
  - assert (Z.min (len (lq_entries q)) (max - n) = 1) as -> by lia. split_and!; [done|by rewrite Hr1|done].
  - specialize (IH q1 (n + 1) ltac:(lia)). destruct (start_verifying max fuel q1 (n + 1)) as [[vs q2] n2].
    destruct IH as (-> & Hq2 & ->); [unfold len in *; lia|]. rewrite Hq2, Hr1, Hlen1, Hlen.
    replace (Z.to_nat (Z.min (1 + len l) (max - n))) with (S (Z.to_nat (Z.min (len l) (max - (n + 1))))) by lia.
    cbn. split_and!; [done..|lia].
Qed.

(** A turn of the loop starts the verifications of the entries that have waited
    the longest, as many as the counter has room for. *)
Theorem verify_turn_spec (q : Q) (n : Z) :
  0 <= n <= max ->
  let '(vs, q', n') := verify_turn max q n in
  let k := Z.min (len (lq_entries q)) (max - n) in
  vs = (take (Z.to_nat k) (reverse (lq_entries q))).*2 /\ reverse (lq_entries q') = drop (Z.to_nat k) (reverse (lq_entries q)) /\ n' = n + k.
Proof.
  intros Hn. unfold verify_turn. rewrite lq_len_entries. pose proof (len_nonneg (lq_entries q)).
  case_bool_decide as He; [|case_bool_decide as Hf]; cbn [orb].
  1-2: assert (Z.min (len (lq_entries q)) (max - n) = 0) as -> by lia; cbn; rewrite take_0, drop_0; split_and!; [done..|lia].
  apply start_verifying_spec; [lia|]. unfold len. lia.
Qed.
End Verification.

(** That a prover reached the limit of its solutions does not keep a client from
    passing its solutions on. *)
Section Limit.
Context {SQ : Type} `{!LruQueueOps SQ SolutionID (SocketAddr * Data Solution * Solution)}.
Context {TQ : Type} `{!LruQueueOps TQ TransactionID (SocketAddr * Data Transaction * Transaction)}.

Remark limit_not_enforced epoch target limit check roots fee exec basic E v (s : Router * Nodes.Client (SQ := SQ) (TQ := TQ)) :
  verify_solution (mk_checks epoch target limit check roots fee exec basic) E v s =
  verify_solution (mk_checks epoch target (fun _ => false) check roots fee exec basic) E v s.
Proof. done. Qed.
End Limit.
End NodeProps.
End NodeProps.
