(* ===== verification/RouterRuns.v ===== *)
(** * Runs of the router

    Concrete routers and clients: a client that connects to a peer, learns its
    height, asks it for blocks and gets them; a router with too many peers; and a
    peer that is sent each solution once. *)

From S2P Require Import Prelude Bytes Network Sockets Committee Narwhal Lru StorageService Ledger Storage Locators Ready Pending SyncState BlockSync BlockSyncProps Worker Events Messages Peers RouterCache Router RouterProps Ping Nodes NodeProps.
Import Peers Router.

#[export] Instance TestHeader_eq_dec : EqDecision (Header (HeaderBytes := TestHeaders)).
Proof. unfold Header. cbn. apply _. Defined.

Definition TestSols : Type := list ((SocketAddr * SolutionID (Network := TestNetwork)) * Z).
Definition TestTxs : Type := list ((SocketAddr * TransactionID (Network := TestNetwork)) * Z).
#[export] Instance TestSols_ops : LinkedMapOps TestSols (SocketAddr * SolutionID (Network := TestNetwork)) Z := LinkedMap.list_linked_ops.
#[export] Instance TestTxs_ops : LinkedMapOps TestTxs (SocketAddr * TransactionID (Network := TestNetwork)) Z := LinkedMap.list_linked_ops.

Abbreviation TestRouter := (Router.Router (N := TestNetwork) (B := TestBlocks) (HB := TestHeaders) (Sols := TestSols) (Txs := TestTxs)).
Abbreviation TestRouterEnv := (Router.Env (N := TestNetwork) (B := TestBlocks) (HB := TestHeaders)).

(** A client at 10.0.0.1, in development mode. *)
Definition client_config : Config := router_config true false Client (SocketAddrV4 167772161 4130) 21.
Definition router_env (t : Z) : TestRouterEnv := {|
  Router.config := client_config;
  Router.bootstrap_peers := [];
  Router.latest_block_height := 3;
  Router.verify_bytes s a _ := bool_decide (s.1 = a);
  Router.now := t * 10 ^ 9;
  Router.order := [];
  Router.unicast _ _ := true;
  Router.sample_peers l n := take (Z.to_nat n) l;
  Router.sample_candidates l n := take (Z.to_nat n) l;
  Router.sample_addrs l n := take (Z.to_nat n) l;
  Router.choose := head;
|}.

Definition SQ : Type := ListLru.cache (SolutionID (Network := TestNetwork)) (SocketAddr * Data ascii * ascii).
Definition TQ : Type := ListLru.cache (TransactionID (Network := TestNetwork)) (SocketAddr * Data ascii * ascii).
#[export] Instance SQ_ops : LruQueueOps SQ (SolutionID (Network := TestNetwork)) (SocketAddr * Data (Solution (Network := TestNetwork)) * Solution (Network := TestNetwork)) := LruQueue.list_queue_ops.
#[export] Instance TQ_ops : LruQueueOps TQ (TransactionID (Network := TestNetwork)) (SocketAddr * Data (Transaction (Network := TestNetwork)) * Transaction (Network := TestNetwork)) := LruQueue.list_queue_ops.
Abbreviation TestClient := (Nodes.Client (N := TestNetwork) (B := TestBlocks) (SQ := SQ) (TQ := TQ)).

(** A peer at 8.8.8.8 with the listener port 4130. *)
Definition router_conn : SocketAddr := SocketAddrV4 134744072 40000.
Definition router_peer : SocketAddr := SocketAddrV4 134744072 4130.
Definition router_hello : Router.Challenge (N := TestNetwork) := Router.mk_challenge 26 4130 Client "v"%char 7 None.
Definition router_answer : Router.Response (N := TestNetwork) (HB := TestHeaders) :=
  Router.mk_response (HB := TestHeaders) ("g"%char) "r"%char (Object ("v"%char, "m"%char)) 8.

(** ** A client that synchronizes *)

Definition test_ledger : Nodes.NodeLedger (N := TestNetwork) (B := TestBlocks) (HB := TestHeaders) :=
  Nodes.mk_node_ledger (HB := TestHeaders) (test_view 3) (fun _ _ => Err "no blocks") (Ok "e"%char) "h"%char.
Definition test_node : Node (Sols := TestSols) (Txs := TestTxs) TestClient :=
  Nodes.client_node test_ledger test_oracle.
Definition client0 : TestClient := Nodes.new_client sync0 (peer_locators 3).
Definition run0 : TestRouter * TestClient := (Router.new client_config [] [], client0).
Definition run1 : TestRouter * TestClient := ((responder_start (router_env 0) router_conn router_hello run0.1).2, client0).
Definition run2 : TestRouter * TestClient :=
  ((responder_finish (router_env 0) ("g"%char : Header (HeaderBytes := TestHeaders)) "r"%char 9 router_conn router_answer router_hello run1.1).2, client0).
Definition run3 : TestRouter * TestClient :=
  process_message (Node0 := test_node) (router_env 1) router_conn (Messages.Ping 26 Client (Some (peer_locators 6))) run2.
Definition run4 : TestRouter * TestClient :=
  (run3.1, Nodes.set_client_sync (BlockSync.try_issuing_block_requests (test_view 3) test_oracle (fun _ => true) 1 (Nodes.sync run3.2)) run3.2).
Definition request4 : Events.BlockRequest := Events.mk_block_request 4 6.
Definition run5 : TestRouter * TestClient :=
  ((send (router_env 2) router_peer (Messages.BlockRequest request4) run4.1).2, run4.2).
Definition run6 : TestRouter * TestClient :=
  process_message (Node0 := test_node) (router_env 3) router_conn
    (Messages.BlockResponse request4 (Object [test_block 4; test_block 5]) (Some 12)) run5.

(** The block that the client holds at a height. *)
Definition held_at (h : Z) (s : TestRouter * TestClient) : option (Z * ascii * ascii) :=
  match BlockSync.requests (Nodes.sync s.2) !! h with Some e => BlockSync.response e | None => None end.
Lemma held_at_holds h s b : held_at h s = Some b -> NodeProps.holds (Nodes.sync s.2) b.
Proof. unfold held_at. destruct (_ !! h) as [e|] eqn:He; [|discriminate]. intros Hb. by exists h, e. Qed.
Lemma run6_holds : held_at 4 run6 = Some (test_block 4).
Proof. vm_refl. Qed.

Definition test_nodes := NodeProps.client_nodes (N := TestNetwork) (B := TestBlocks) (HB := TestHeaders) (TO := TestTransmissions)
  (Sols := TestSols) (Txs := TestTxs) (SQ := SQ) (TQ := TQ).

Lemma run6_reachable : RouterProps.reachable test_nodes NodeProps.client_task client_config [] [] client0 run6.
Proof.
  eapply RouterProps.reachable_step;
    [|exact (RouterProps.step_message test_nodes _ (test_ledger, test_oracle) (router_env 3) router_conn
               (Messages.BlockResponse request4 (Object [test_block 4; test_block 5]) (Some 12)) run5)].
  eapply RouterProps.reachable_step; [|exact (RouterProps.step_send test_nodes _ (router_env 2) router_peer (Messages.BlockRequest request4) run4.1 run4.2)].
  eapply RouterProps.reachable_step; [|apply (RouterProps.step_own test_nodes _ run3.1 run3.2); apply NodeProps.task_issue].
  rewrite <-(surjective_pairing run3). eapply RouterProps.reachable_step;
    [|exact (RouterProps.step_message test_nodes _ (test_ledger, test_oracle) (router_env 1) router_conn
               (Messages.Ping 26 Client (Some (peer_locators 6))) run2)].
  eapply RouterProps.reachable_step; [|exact (RouterProps.step_responder_finish test_nodes _ (router_env 0) ("g"%char : Header (HeaderBytes := TestHeaders)) "r"%char 9 router_conn router_answer router_hello run1.1 client0)].
  eapply RouterProps.reachable_step; [|exact (RouterProps.step_responder_start test_nodes _ (router_env 0) router_conn router_hello run0.1 client0)].
  constructor.
Qed.

Lemma sync0_empty : BlockSync.requests (Nodes.sync client0) = ∅.
Proof. vm_refl. Qed.

Lemma client_blocks_solicited_witness :
  NodeProps.holds (Nodes.sync run6.2) (test_block 4) /\
  NodeProps.solicited run6.1 (test_block 4).
Proof.
  pose proof (held_at_holds _ _ _ run6_holds) as Hh.
  split; [exact Hh|]. exact (proj2 (NodeProps.client_blocks_solicited client_config [] [] client0 run6 sync0_empty run6_reachable) _ Hh).
Defined.

(** ** A router with too many peers *)

(** Twenty-seven clients connect one after the other. *)
Definition many_peer (i : Z) : SocketAddr := SocketAddrV4 (134744072 + i) 4130.
Definition many_conn (i : Z) : SocketAddr := SocketAddrV4 (134744072 + i) 40000.
Definition many_env (t : Z) : TestRouterEnv :=
  mk_env client_config [] 3 (fun s a _ => bool_decide (s.1 = a)) (t * 10 ^ 9) (many_peer <$> seqZ 0 27) (fun _ _ => true)
    (fun l n => take (Z.to_nat n) l) (fun l n => take (Z.to_nat n) l) (fun l n => take (Z.to_nat n) l) head.
Definition join (r : TestRouter) (i : Z) : TestRouter :=
  (responder_finish (many_env i) ("g"%char : Header (HeaderBytes := TestHeaders)) "r"%char 9 (many_conn i) router_answer router_hello
     (responder_start (many_env i) (many_conn i) router_hello r).2).2.
Definition crowd : TestRouter := foldl join (Router.new client_config [] []) (seqZ 0 27).

Lemma crowd_number : number_of_connected_peers (pool crowd) = 27.
Proof. vm_refl. Qed.
(** Six of them are disconnected: those that were heard of first. *)
Lemma crowd_dropped :
  listener_addr <$> (surplus_to_disconnect (many_env 100) true crowd).1 = many_peer <$> seqZ 0 6.
Proof. vm_refl. Qed.

Lemma take_samples {A} : RouterProps.samples (fun (l : list A) n => take (Z.to_nat n) l).
Proof.
  intros l n. split.
  - intros x (i & Hi & _)%elem_of_take. by eapply list_elem_of_lookup_2.
  - unfold len. rewrite length_take. lia.
Qed.

Definition crowd_run : TestRouter * TestClient := (crowd, client0).
Lemma heartbeat_disconnects_witness :
  (heartbeat (Node0 := test_node) (many_env 100) crowd_run).1 = Ok tt /\
  exists oldest surplus bootstrap,
    RouterProps.refresh_choice (many_env 100) (is_block_synced (Node := test_node) crowd_run.2) crowd_run.1 oldest /\
    RouterProps.surplus_choice (many_env 100) (is_block_synced (Node := test_node) crowd_run.2) crowd_run.1 surplus /\
    RouterProps.bootstrap_choice (many_env 100) crowd_run.1 bootstrap /\
    RouterProps.closes crowd_run.1 (heartbeat (Node0 := test_node) (many_env 100) crowd_run).2.1 (oldest ++ surplus ++ bootstrap).
Proof.
  destruct (RouterProps.heartbeat_disconnects (ND := test_node) (many_env 100) crowd_run take_samples) as (Hok & os & ss & bs & Ho & Hs & Hb & Hc).
  split; [exact Hok|]. exists os, ss, bs. split; [exact Ho|]. split; [|split; [exact Hb|exact Hc]].
  destruct (decide (own_type (Router.config (many_env 100)) = Prover)) as [Hp|_]; [discriminate Hp|exact Hs].
Defined.

(** ** Timestamps *)

Lemma window_ops_in_order :
  RouterCache.in_order (K := SocketAddr)
    [RouterCache.Insert 0 router_peer; RouterCache.Insert (3 * 10 ^ 9) router_peer; RouterCache.Look (4 * 10 ^ 9) router_peer;
     RouterCache.Insert (7 * 10 ^ 9) router_peer].
Proof. unfold RouterCache.in_order. cbn. repeat constructor; lia. Qed.
Lemma recent_counts_witness :
  (RouterCache.do_op 5 (RouterCache.run_ops 5
     [RouterCache.Insert 0 router_peer; RouterCache.Insert (3 * 10 ^ 9) router_peer; RouterCache.Look (4 * 10 ^ 9) router_peer] ∅)
     (RouterCache.Insert (7 * 10 ^ 9) router_peer)).1 = 2.
Proof.
  rewrite (RouterCache.recent_counts 5
    [RouterCache.Insert 0 router_peer; RouterCache.Insert (3 * 10 ^ 9) router_peer; RouterCache.Look (4 * 10 ^ 9) router_peer]
    (RouterCache.Insert (7 * 10 ^ 9) router_peer) window_ops_in_order). reflexivity.
Defined.

(** ** Miscounted connections *)

(** With five provers among 26 connections none is closed, and with 20 among 40
    only eleven remain. *)
Theorem surplus_miscounted : RouterProps.remaining 26 5 = 26 /\ RouterProps.remaining 40 20 = 11.
Proof. split; reflexivity. Qed.

(** A solution is sent to a peer once. *)
Lemma solution_sent_once :
  let m := Messages.UnconfirmedSolution ("s"%char : SolutionID (Network := TestNetwork)) (Object "s"%char) in
  let '(first, r) := send (router_env 2) router_peer m run2.1 in
  let '(second, _) := send (router_env 3) router_peer m r in
  first = true /\ second = false.
Proof. vm_compute. done. Qed.
